(* ===== verification/_CoqProject ===== *)
-Q . S2P
Prelude.v
JsRuntime.v
Collections.v
Effects.v
Base64Url.v
Cbor.v
CborFacts.v
Records.v
Attachment.v
Transfer.v
TransferFacts.v
TransferRegistry.v
Image.v
ImageFacts.v
ImageTransfer.v
ImageTransferFacts.v
Json.v
Envelope.v
ApplicationPayload.v
ApplicationControl.v
ApplicationControlFacts.v
Admission.v
AppStore.v
AppStoreFacts.v
MessagePersistence.v
RelayAttachment.v
NestedRecords.v
SignedEvent.v
SignedEventFacts.v
RecordCodecs.v
RtcSignaling.v
RtcSignalingFacts.v
RtcData.v
BootstrapBeacon.v
BeaconFacts.v
IdentityContact.v
ContactFacts.v
ContactCard.v
DnsTxt.v
DnsTxtFacts.v
DiscoveryClient.v
LocalDatabase.v
DatabaseCursors.v
LocalDatabaseFacts.v
DatabaseInvariant.v
TimelinePages.v
ReceivedClaims.v
RelayFrames.v
SameRelay.v
SameRelayFacts.v
RelaySession.v
DeliveryTracking.v
OutboxRuntime.v
OutboxFacts.v
OutboxProgress.v
Traces.v
RtcDirect.v
RtcIngress.v
RtcSession.v
RtcSessionFacts.v
AttachmentController.v
AttachmentControllerFacts.v
Ribbon.v
RibbonFrames.v
RibbonPixels.v
RibbonRoundTrip.v
RibbonCarrier.v
Receipts.v
ReceiptsFacts.v
