(* ===== verification/Prelude.v ===== *)
(** * B.R.A.N.C.H. client core: a verification development

    The program is a messenger whose peers exchange end-to-end encrypted
    payloads through relays that store nothing.  Its TypeScript core
    ([src/packages/branch-core/src]) holds the wire formats and the state
    machines; the web client ([src/pwa/src]) keeps contacts, conversations and
    pending work in one store.  This library models that core and that store,
    and proves what their parts promise to each other.

    ** Parts and files

    - [Prelude], [JsRuntime], [Collections], [Effects]: what the language gives:
      numbers (safe integers or not), strings as UTF-16 code units, UTF-8,
      [Map]s in insertion order, the stable sort, results that may throw, and
      a state monad with its triples.
    - [Base64Url], [Cbor], [CborFacts]: [protocol/v0/base64url.ts] and
      [protocol/v0/cbor.ts], the deterministic codec under every record.
    - [Records]: the reader of one CBOR map with known keys, shared by all codecs.
    - [Attachment], [Transfer], [TransferFacts], [TransferRegistry]:
      [application-payload/attachment.ts] and [transfer-state.ts]: manifests,
      chunks, decisions, one transfer and the registry that shares it.
    - [Image], [ImageFacts], [ImageTransfer], [ImageTransferFacts]: [image.ts]
      and [image-transfer-state.ts], with the store of shared reassemblies.
    - [ApplicationPayload]: [application-payload/runtime.ts] and
      [capabilities.ts]; [ApplicationControl], [ApplicationControlFacts]:
      [application-control/runtime.ts], with its replay memory and its rate
      limiter as interfaces (type classes) that concrete memories implement,
      and calls that overlap at the verification as histories of events.
    - [Json], [Envelope]: parsed JSON values and [protocol/v0/envelope.ts].
    - [RelayAttachment], [RelayFrames]: [protocol/v0/relay-attachment.ts].
    - [SameRelay], [SameRelayFacts], [RelaySession]: the client of
      [connectivity/same-relay.ts] as a monad over its fields; [attach] is cut
      at its awaits, so that calls interleave; the frames it writes are built
      for [RelayFrames] and the envelopes it sends carry [Envelope] payloads.
    - [NestedRecords], [RecordCodecs]: records inside records: arrays, texts and
      signed maps as the protocol's objects are built; [SignedEvent],
      [SignedEventFacts]: the events of [protocol/v0/profile.ts] that the next
      two share, their hashes, signatures and chains.
    - [BootstrapBeacon], [BeaconFacts], [IdentityContact], [ContactFacts]: the two
      signed discovery records of [protocol/v0/bootstrap-beacon.ts] and
      [identity-contact.ts], created and verified; [ContactCard]:
      [application-control/contact-card.ts].
    - [RtcSignaling], [RtcSignalingFacts]: [application-control/webrtc.ts];
      [RtcData]: [connectivity/rtc-data.ts].
    - [DnsTxt], [DnsTxtFacts], [DiscoveryClient]: [discovery/dns-txt.ts] and
      [discovery/client.ts], over the answers of a resolver or a carrier.
    - [Admission]: [pwa connectivity/delivery-dedup-window.ts] and
      [rtc-admission-ledger.ts].
    - [AppStore], [AppStoreFacts]: the slices of [pwa/src/state/slices] on one
      record, an action per operation; [MessagePersistence]: the promise chains
      of [conversations-slice.ts], which take the write requests of [AppStore].
    - [LocalDatabase]: the stores of [pwa/src/storage] as transactions on object
      stores; [DatabaseCursors]: cursors in index order and the queue of requests
      of a transaction; [LocalDatabaseFacts], [DatabaseInvariant],
      [TimelinePages], [ReceivedClaims]: what is deleted stays deleted, what is
      shown is stored, pages join up, a payload is received once.
    - [DeliveryTracking]: [pwa/src/connectivity/relay-session.ts] and
      [relay-route-selection.ts], generic in what a timeout runs.
    - [OutboxRuntime], [OutboxFacts], [OutboxProgress]:
      [connectivity/message-outbox-runtime.ts] in a world that holds [AppStore],
      [DeliveryTracking] and the page; [run] is cut at its awaits and every call
      from outside is an event.
    - [Traces]: logs in which every entry has its cause before it.
    - [RtcDirect]: [connectivity/rtc-data-runtime.ts], the sender of the data
      channel and the registry of live senders; [RtcIngress]: its receiver, cut
      at decryption, digest and dispatch, over [Admission].
    - [RtcSession], [RtcSessionFacts]: [connectivity/rtc-session.ts], negotiation
      over browser connections, with sessions as shared objects.
    - [AttachmentController], [AttachmentControllerFacts]:
      [connectivity/attachment-transfer.ts], which joins [TransferRegistry] with
      files, signatures, consent and the window of chunks.
    - [Ribbon], [RibbonFrames], [RibbonPixels], [RibbonRoundTrip],
      [RibbonCarrier]: [visual/ribbon-image.ts], [ribbon-block.ts] and
      [ribbon-decode.ts]: frames, packets, and the pixels that carry them, read
      with binary64 scores.
    - [Receipts], [ReceiptsFacts]: [connectivity/delivery-receipt-control.ts]
      over [ApplicationControl], whose interfaces its two tables implement.

    ** What the theorems show

    - Codecs: the CBOR decoder accepts exactly the canonical encodings and
      terminates; every record codec round-trips and accepts nothing else; a
      signature's input determines the record it signs.
    - Validators: the envelope and frame validators accept exactly the values
      of a declarative description of the documented forms, and the forms the
      documents reject that the code takes as well, which are listed apart.
    - Transfers: a completed file or image has the digest and the size of its
      manifest and is made of the chunks its peer delivered, whatever the order
      and the number of calls; a chunk sequence within the
      reorder window completes; final phases stay; a closed transfer is not
      opened again.
    - Sessions: invariants of the client under any interleaving; a session only
      opens for a verified relay; pending deliveries are only dropped on purpose.
    - Controls and admission: exactly when a control or delivery is accepted and
      what it changes; under every overlap of calls a control is accepted again
      only for copies already under verification, until its identifier is
      forgotten, and how long it is kept; the bounded windows behave like a cut
      history.
    - Store: every action keeps the order, the distinct keys and the references
      of the fields and the bounds of those that have one (contacts, read times
      and the images of all contacts together have none), delivery states only
      advance, and the writes of a message keep their order.
    - Discovery: a record that is created is accepted, and what is accepted has
      the signatures, the chain and the lifetime it must have; what a client
      finds is what a carrier holds and the verifier accepts.
      A search makes the calls, keeps the observations and gives the status that
      a declarative description says.
    - Database: every sequence of transactions keeps its invariant; a deletion
      leaves a marker and the message stays away while the marker is recent.
    - Outbox: one attempt at a time, in order, stored before it is sent; no
      entry is lost, and something always wakes the runtime, apart from three
      named events.
    - Peer-to-peer path and attachments: in any interleaving, what is sent,
      shown, consented to, completed or told to a browser connection has its
      cause before it; windows, candidates and maps are bounded.
    - Ribbon images: a wrapper is read back from the carrier image it is
      embedded in; examples show which covers lose it.
    - Receipts: what is sent is what the recipient accepts, once per target;
      the tables are bounded, except by controls that never prune them.

    The names that start a doc comment, C1 to C40, are the library's main
    properties.  Lemmas that no main property uses, such as
    [unreachable_limits] or [failure_breaks_order], record flaws of the code or,
    as [route_hints_tolerated], where it and the documents differ.

    ** Fuel and bounds

    The CBOR reader recurses with the length of its input as fuel
    ([decode_terminates]: it is never used up); loops over collections are
    structural, [map_trim_loop] has the size of its map, and the queue of a
    deletion has [deletion_fuel] ([deletion_runs]: it is emptied).  Other
    recursion is structural.  Integers are [Z]: JavaScript numbers are safe integers where
    the code tests them, 32-bit operators are written out in [JsRuntime].

    ** What is a parameter

    Digests, signatures, HPKE, random bytes, the JSON and URL parsers, the
    collation of [localeCompare], [toLowerCase], Unicode normalisation, the
    answers of carriers and resolvers, and the clock are arguments of the
    definitions.  IndexedDB is modelled by what its standard says: keys, index
    order, requests served in order, transactions one after the other.  Calls to listeners, sockets and IndexedDB are
    logged in order; their failures are events where the code reacts to them.
    Awaits split an operation in two definitions, and the state may change in
    between.

    ** Not modelled

    The GitHub and GitLab carriers and the echo service (HTTP and live relays),
    the carrier hopping experiment, payload encryption (HPKE), the upgrade
    handler of [storage/database.ts] and the stores of device settings, drawing
    on a canvas, the diagnostics, the remaining asynchronous runtimes of the
    client, which wire the modelled parts to the browser, React components, the
    administration pages, and the relay node, which is written in Go. *)
From Stdlib Require Export ZArith Lia.
From stdpp Require Export base list option numbers gmap.

(** ** Scope and databases of the development *)

Declare Scope branch_scope.
Delimit Scope branch_scope with branch.
Open Scope Z_scope.
Open Scope branch_scope.

Create HintDb branch.
Create Rewrite HintDb zlen.

(** ** Results: the value a call returns or the message of the error it throws

    A JavaScript string is the list of its UTF-16 code units and a
    [Uint8Array] the list of its bytes, both as integers. *)

Abbreviation jsstring := (list Z).
Abbreviation bytes := (list Z).

Inductive result (A : Type) : Type :=
| Ok (value : A)
| Throw (message : jsstring).
Arguments Ok {A} value.
Arguments Throw {A} message.

Notation "'let?' x ':=' c 'in' k" :=
  (match c with Ok x => k | Throw e => Throw e end)
  (at level 10, x name, c at level 100, k at level 200,
   format "'[v' 'let?'  x  ':='  c  'in'  '/' k ']'") : branch_scope.

Notation "'let?' ' x ':=' c 'in' k" :=
  (match c with Ok x => k | Throw e => Throw e end)
  (at level 10, x strict pattern, c at level 100, k at level 200,
   format "'[v' 'let?'  ' x  ':='  c  'in'  '/' k ']'") : branch_scope.

Definition is_ok {A} (r : result A) : bool :=
  match r with Ok _ => true | Throw _ => false end.

Definition result_of_option {A} (message : jsstring) (o : option A) : result A :=
  match o with Some a => Ok a | None => Throw message end.

(** [try { return c } catch { throw message }] *)
Definition rethrow {A} (message : jsstring) (c : result A) : result A :=
  match c with Ok a => Ok a | Throw _ => Throw message end.

(** [values.map(f)] where [f] may throw: left to right, first error wins. *)
Section MapResult.
Context {A B : Type} (f : A -> result B).

Fixpoint map_result (xs : list A) : result (list B) :=
  match xs with
  | [] => Ok []
  | x :: xs => let? y := f x in let? ys := map_result xs in Ok (y :: ys)
  end.
End MapResult.

(** [for (const x of xs) check(x)] *)
Section EachResult.
Context {A : Type} (f : A -> result unit).

Fixpoint each_result (xs : list A) : result unit :=
  match xs with
  | [] => Ok tt
  | x :: xs => let? _ := f x in each_result xs
  end.
End EachResult.

(** ** Tactics *)

(** Case analysis over every match of the goal and the hypotheses. *)
Ltac split_matches := repeat case_match; simplify_eq/=.

(** Turns the boolean tests of the model into propositions. *)
Ltac bool_props :=
  repeat match goal with
  | H : _ && _ = true |- _ => apply andb_prop in H; destruct H
  | H : _ || _ = false |- _ => apply orb_false_elim in H; destruct H
  | H : negb _ = true |- _ => apply negb_true_iff in H
  | H : negb _ = false |- _ => apply negb_false_iff in H
  | H : (_ <? _)%Z = true |- _ => apply Z.ltb_lt in H
  | H : (_ <? _)%Z = false |- _ => apply Z.ltb_ge in H
  | H : (_ <=? _)%Z = true |- _ => apply Z.leb_le in H
  | H : (_ <=? _)%Z = false |- _ => apply Z.leb_gt in H
  | H : (_ =? _)%Z = true |- _ => apply Z.eqb_eq in H
  | H : (_ =? _)%Z = false |- _ => apply Z.eqb_neq in H
  | H : bool_decide _ = true |- _ => apply bool_decide_eq_true in H
  | H : bool_decide _ = false |- _ => apply bool_decide_eq_false in H
  end.

(** Refutes a disjunction of guards that is said to hold. *)
Ltac guard_cases E :=
  repeat match type of E with
  | (_ || _) = true => apply orb_prop in E; destruct E as [E|E]
  end;
  try (apply negb_true_iff in E); first [congruence | bool_props; first [congruence | lia]].

(** Decides a closed boolean fact. *)
Ltac closed := vm_compute; reflexivity.

(** Steps through the calls of a function that returned. *)
Ltac run H :=
  repeat match type of H with
  | match ?c with Ok _ => _ | Throw _ => _ end = Ok _ =>
      let E := fresh "E" in destruct c eqn:E; [| discriminate H]
  end.

Tactic Notation "step" hyp(H) "as" simple_intropattern(x) ident(E) :=
  match type of H with
  | match ?c with Ok _ => _ | Throw _ => _ end = Ok _ =>
      destruct c as [x|] eqn:E; [| discriminate H]
  end.

(** Linear arithmetic with Euclidean division unfolded. *)
Ltac zdiv_lia := Z.to_euclidean_division_equations; lia.

(** [Math.ceil(numerator / denominator)] *)
Definition ceil_div (numerator denominator : Z) : Z := - ((- numerator) / denominator).

Lemma ceil_div_bounds a b : 1 <= a -> 1 <= b -> (ceil_div a b - 1) * b < a <= ceil_div a b * b.
Proof. intros. unfold ceil_div. zdiv_lia. Qed.

(** ** Lengths in Z *)

Definition zlen {A} (l : list A) : Z := Z.of_nat (length l).

Lemma zlen_nonneg {A} (l : list A) : 0 <= zlen l.
Proof. unfold zlen. lia. Qed.

Lemma zlen_nil {A} : zlen (@nil A) = 0.
Proof. done. Qed.

Lemma zlen_cons {A} (x : A) l : zlen (x :: l) = 1 + zlen l.
Proof. unfold zlen. simpl. lia. Qed.

Lemma zlen_app {A} (l k : list A) : zlen (l ++ k) = zlen l + zlen k.
Proof. unfold zlen. rewrite length_app. lia. Qed.

Lemma zlen_zero_iff {A} (l : list A) : zlen l = 0 <-> l = [].
Proof.
  unfold zlen. destruct l; simpl; split; intros; try done; lia.
Qed.

#[export] Hint Resolve zlen_nonneg : branch.
#[export] Hint Rewrite @zlen_nil @zlen_cons @zlen_app : zlen.

Ltac zlen_lia :=
  repeat match goal with
  | l : list _ |- _ =>
      lazymatch goal with
      | _ : 0 <= zlen l |- _ => fail
      | _ => pose proof (zlen_nonneg l)
      end
  end;
  autorewrite with zlen in *; lia.

(** ** Byte ranges *)

Definition is_byte (b : Z) : Prop := 0 <= b < 256.
Definition bytes_ok (b : bytes) : Prop := Forall is_byte b.

#[export] Instance is_byte_dec b : Decision (is_byte b).
Proof. unfold is_byte. apply _. Defined.

#[export] Instance bytes_ok_dec b : Decision (bytes_ok b).
Proof. unfold bytes_ok. apply _. Defined.

Lemma bytes_ok_app a b : bytes_ok (a ++ b) <-> bytes_ok a /\ bytes_ok b.
Proof. apply Forall_app. Qed.

Lemma bytes_ok_nil : bytes_ok [].
Proof. constructor. Qed.

Lemma bytes_ok_cons x b : bytes_ok (x :: b) <-> is_byte x /\ bytes_ok b.
Proof. apply Forall_cons. Qed.

#[export] Hint Resolve bytes_ok_nil : branch.

(** ** Results of mapped computations *)

Lemma map_result_Ok_Forall2 {A B} (f : A -> result B) xs ys :
  map_result f xs = Ok ys <-> Forall2 (fun x y => f x = Ok y) xs ys.
Proof.
  revert ys. induction xs as [|x xs IH]; intros ys; simpl.
  - split; intros H; [by simplify_eq | by inversion H].
  - split.
    + intros H. split_matches. constructor; [done | by apply IH].
    + intros H. inversion H as [|? y ? ys' Hx Hxs]; subst.
      rewrite Hx. apply IH in Hxs. by rewrite Hxs.
Qed.

Lemma map_result_length {A B} (f : A -> result B) xs ys :
  map_result f xs = Ok ys -> length ys = length xs.
Proof. intros H%map_result_Ok_Forall2. symmetry. by eapply Forall2_length. Qed.

Lemma each_result_Ok {A} (f : A -> result unit) xs :
  each_result f xs = Ok tt <-> Forall (fun x => f x = Ok tt) xs.
Proof.
  induction xs as [|x xs IH]; simpl.
  - split; [constructor | done].
  - rewrite Forall_cons. destruct (f x) as [[]|] eqn:E; rewrite ?IH; intuition congruence.
Qed.
