(* ===== verification/JsRuntime.v ===== *)
(** * The parts of the language runtime the program uses

    - numbers: [Number.isSafeInteger], the 32-bit bitwise operators;
    - strings: literals, [<] on code units, [startsWith], [slice];
    - [TextEncoder] and [TextDecoder("utf-8", { fatal: true })];
    - [Map] and [Set] with their insertion order, [Array.prototype.sort];
    - JSON values.  *)
From Stdlib Require Import Ascii String.
Export StringSyntax.
From S2P Require Import Prelude.

(** ** Numbers

    [Int z] is an integral value; [NonInt] stands for every other number
    (fractions, NaN, infinities), which the program only ever rejects. *)

Inductive number : Type := Int (z : Z) | NonInt.

#[export] Instance number_eq_dec : EqDecision number.
Proof. solve_decision. Defined.

Definition MAX_SAFE_INTEGER : Z := 9007199254740991.

(** [Number.isSafeInteger] on an integral value. *)
Definition is_safe (z : Z) : bool :=
  (- MAX_SAFE_INTEGER <=? z) && (z <=? MAX_SAFE_INTEGER).

(** [Number.isSafeInteger]. *)
Definition isSafeInteger (n : number) : bool :=
  match n with Int z => is_safe z | NonInt => false end.

Lemma isSafeInteger_Int n : isSafeInteger n = true -> exists z, n = Int z /\ is_safe z = true.
Proof. destruct n; simpl; intros; [eauto | done]. Qed.

Definition default_number (d : Z) (o : option number) : number := default (Int d) o.

(** [Number.isSafeInteger(n) && n >= low && n <= high] *)
Definition number_in (low high : Z) (n : number) : bool :=
  match n with Int z => is_safe z && (low <=? z) && (z <=? high) | NonInt => false end.

Definition number_value (n : number) : Z := match n with Int z => z | NonInt => 0 end.

Definition time_reached (now : number) (limit : Z) : bool :=
  match now with Int z => limit <=? z | NonInt => false end.

(** *** 32-bit operators *)

Definition to_uint32 (x : Z) : Z := x mod 2 ^ 32.
Definition to_int32 (x : Z) : Z :=
  let u := to_uint32 x in if u <? 2 ^ 31 then u else u - 2 ^ 32.

Definition js_shl (x n : Z) : Z := to_int32 (Z.shiftl (to_int32 x) n).
Definition js_shr (x n : Z) : Z := Z.shiftr (to_int32 x) n.
Definition js_ushr (x n : Z) : Z := Z.shiftr (to_uint32 x) n.
Definition js_and (x y : Z) : Z := Z.land (to_int32 x) (to_int32 y).
Definition js_or (x y : Z) : Z := Z.lor (to_int32 x) (to_int32 y).
Definition js_xor (x y : Z) : Z := Z.lxor (to_int32 x) (to_int32 y).

Lemma to_int32_small x : 0 <= x < 2 ^ 31 -> to_int32 x = x.
Proof.
  intros H. unfold to_int32, to_uint32.
  rewrite Z.mod_small by lia. destruct (Z.ltb_spec x (2 ^ 31)); lia.
Qed.

Lemma to_uint32_small x : 0 <= x < 2 ^ 32 -> to_uint32 x = x.
Proof. intros. by apply Z.mod_small. Qed.

Lemma to_int32_mod x k : 0 <= k <= 32 -> to_int32 x mod 2 ^ k = x mod 2 ^ k.
Proof.
  intros Hk. unfold to_int32, to_uint32.
  assert (Hm : (x mod 2 ^ 32) mod 2 ^ k = x mod 2 ^ k).
  { apply Z.mod_mod_divide.
    exists (2 ^ (32 - k)). rewrite <- Z.pow_add_r by lia. f_equal; lia. }
  case_match; [done |].
  replace (x mod 2 ^ 32 - 2 ^ 32) with (x mod 2 ^ 32 + (- 2 ^ (32 - k)) * 2 ^ k).
  - rewrite Z_mod_plus_full. done.
  - rewrite Z.mul_opp_l, <- Z.pow_add_r by lia. replace (32 - k + k) with 32; lia.
Qed.

(** [x & (2^k - 1)] on any number that is an integer. *)
Lemma js_and_ones x k : 0 <= k <= 31 -> js_and x (Z.ones k) = x mod 2 ^ k.
Proof.
  intros Hk. unfold js_and.
  assert (0 <= Z.ones k < 2 ^ 31).
  { rewrite Z.ones_equiv. assert (2 ^ k <= 2 ^ 31) by (apply Z.pow_le_mono_r; lia).
    lia. }
  rewrite (to_int32_small (Z.ones k)) by lia.
  rewrite Z.land_ones by lia. apply to_int32_mod. lia.
Qed.

Lemma js_and_255 x : js_and x 255 = x mod 256.
Proof. change 255 with (Z.ones 8). rewrite js_and_ones by lia. done. Qed.

Lemma js_and_31 x : js_and x 31 = x mod 32.
Proof. change 31 with (Z.ones 5). rewrite js_and_ones by lia. done. Qed.

Lemma js_ushr_div x n : 0 <= x < 2 ^ 32 -> 0 <= n -> js_ushr x n = x / 2 ^ n.
Proof.
  intros. unfold js_ushr. rewrite to_uint32_small by lia. apply Z.shiftr_div_pow2. lia.
Qed.

Lemma js_shr_div x n : 0 <= x < 2 ^ 31 -> 0 <= n -> js_shr x n = x / 2 ^ n.
Proof.
  intros. unfold js_shr. rewrite to_int32_small by lia. apply Z.shiftr_div_pow2. lia.
Qed.

Lemma js_shl_mul x n :
  0 <= x -> 0 <= n -> x * 2 ^ n < 2 ^ 31 -> js_shl x n = x * 2 ^ n.
Proof.
  intros. assert (0 < 2 ^ n) by lia. assert (x <= x * 2 ^ n) by nia.
  unfold js_shl. rewrite (to_int32_small x) by lia.
  rewrite Z.shiftl_mul_pow2 by lia. apply to_int32_small. lia.
Qed.

(** Disjoint bits: [hi | lo] is a sum when [lo] fits under [hi]'s low zeros. *)
Lemma lor_disjoint hi lo k :
  0 <= k -> 0 <= lo < 2 ^ k -> Z.lor (hi * 2 ^ k) lo = hi * 2 ^ k + lo.
Proof.
  intros Hk Hlo.
  assert (Hand : Z.land (hi * 2 ^ k) lo = 0).
  { apply Z.bits_inj'. intros n Hn. rewrite Z.land_spec, Z.bits_0.
    destruct (Z.lt_ge_cases n k) as [Hlt | Hge].
    - by rewrite Z.mul_pow2_bits_low.
    - apply andb_false_intro2. rewrite <- (Z.mod_small lo (2 ^ k)) by done.
      by apply Z.mod_pow2_bits_high. }
  rewrite Z.add_nocarry_lxor by done. symmetry. by apply Z.lxor_lor.
Qed.

Lemma js_or_disjoint hi lo k :
  0 <= k -> 0 <= hi -> 0 <= lo < 2 ^ k -> hi * 2 ^ k + lo < 2 ^ 31 ->
  js_or (hi * 2 ^ k) lo = hi * 2 ^ k + lo.
Proof.
  intros. unfold js_or. assert (0 < 2 ^ k) by lia. assert (0 <= hi * 2 ^ k) by nia.
  rewrite !to_int32_small by lia. by apply lor_disjoint.
Qed.

(** Big-endian reassembly of two and three bytes, as the program writes it. *)
Lemma lor_bound a b k : 0 <= k -> 0 <= a < 2 ^ k -> 0 <= b < 2 ^ k -> 0 <= Z.lor a b < 2 ^ k.
Proof.
  intros Hk Ha Hb. assert (Hn : 0 <= Z.lor a b) by (apply Z.lor_nonneg; lia). split; [done |].
  assert (E : Z.lor a b mod 2 ^ k = Z.lor a b).
  { rewrite <- Z.land_ones, Z.land_lor_distr_l, !Z.land_ones, !Z.mod_small by lia. done. }
  rewrite <- E. apply Z.mod_pos_bound. lia.
Qed.

Lemma lxor_bound a b k : 0 <= k -> 0 <= a < 2 ^ k -> 0 <= b < 2 ^ k -> 0 <= Z.lxor a b < 2 ^ k.
Proof.
  intros Hk Ha Hb. assert (Hn : 0 <= Z.lxor a b) by (apply Z.lxor_nonneg; lia). split; [done |].
  assert (E : Z.lxor a b mod 2 ^ k = Z.lxor a b).
  { apply Z.bits_inj'. intros n Hb'. rewrite <- Z.land_ones by lia.
    rewrite Z.land_spec, Z.lxor_spec. destruct (Z.ltb_spec n k).
    - rewrite Z.ones_spec_low by lia. by rewrite andb_true_r.
    - rewrite <- (Z.mod_small a (2 ^ k)), <- (Z.mod_small b (2 ^ k)) by lia.
      rewrite !Z.mod_pow2_bits_high by lia. done. }
  rewrite <- E. apply Z.mod_pos_bound. lia.
Qed.

(** The step of a comparison that accumulates differences of bytes. *)
Lemma js_or_xor_byte d x y :
  0 <= d < 256 -> 0 <= x < 256 -> 0 <= y < 256 ->
  0 <= js_or d (js_xor x y) < 256 /\ (js_or d (js_xor x y) = 0 <-> d = 0 /\ x = y).
Proof.
  intros Hd Hx Hy. unfold js_xor. rewrite !(to_int32_small x), !(to_int32_small y) by lia.
  pose proof (lxor_bound x y 8 ltac:(lia) Hx Hy) as Hb. unfold js_or. rewrite !to_int32_small by lia.
  pose proof (lor_bound d (Z.lxor x y) 8 ltac:(lia) Hd Hb). split; [done |].
  rewrite Z.lor_eq_0_iff, Z.lxor_eq_0_iff. done.
Qed.

Lemma js_be16 b1 b2 : 0 <= b1 < 256 -> 0 <= b2 < 256 -> js_or (js_shl b1 8) b2 = b1 * 256 + b2.
Proof. intros. rewrite js_shl_mul by lia. by rewrite js_or_disjoint by lia. Qed.

Lemma js_be24 b1 b2 b3 :
  0 <= b1 < 128 * 256 -> 0 <= b2 < 256 -> 0 <= b3 < 256 ->
  js_or (js_or (js_shl b1 16) (js_shl b2 8)) b3 = b1 * 65536 + b2 * 256 + b3.
Proof.
  intros. rewrite !js_shl_mul by lia. rewrite (js_or_disjoint b1 (b2 * 2 ^ 8) 16) by lia.
  replace (b1 * 2 ^ 16 + b2 * 2 ^ 8) with ((b1 * 256 + b2) * 2 ^ 8) by lia.
  rewrite js_or_disjoint by lia. lia.
Qed.

(** ** Strings *)

(** A literal of the source: every character of the literals used is ASCII. *)
Definition js (s : string) : jsstring :=
  (fun c => Z.of_N (N_of_ascii c)) <$> list_ascii_of_string s.
#[global] Arguments js : simpl never.

(** [left < right] on strings: lexicographic on code units. *)
Fixpoint js_ltb (l r : jsstring) : bool :=
  match l, r with
  | _, [] => false
  | [], _ :: _ => true
  | x :: l', y :: r' => if x <? y then true else if y <? x then false else js_ltb l' r'
  end.

(** [value.startsWith(prefix)] *)
Fixpoint starts_with (value prefix : jsstring) {struct prefix} : bool :=
  match prefix, value with
  | [], _ => true
  | p :: ps, v :: vs => (p =? v) && starts_with vs ps
  | _ :: _, [] => false
  end.

Definition str_eqb (l r : jsstring) : bool := bool_decide (l = r).

Lemma str_eqb_true l r : str_eqb l r = true <-> l = r.
Proof. apply bool_decide_eq_true. Qed.

Lemma str_eqb_refl l : str_eqb l l = true.
Proof. by apply str_eqb_true. Qed.

Lemma str_eqb_false l r : str_eqb l r = false <-> l <> r.
Proof. apply bool_decide_eq_false. Qed.

Lemma js_ltb_irrefl l : js_ltb l l = false.
Proof. induction l as [|x l IH]; simpl; [done |]. by rewrite Z.ltb_irrefl. Qed.

Lemma js_ltb_cons x y l r :
  js_ltb (x :: l) (y :: r) = true <-> x < y \/ (x = y /\ js_ltb l r = true).
Proof.
  simpl. destruct (Z.ltb_spec x y), (Z.ltb_spec y x); (split; [intros | intros [|[]]]); try lia; auto with lia.
Qed.

Lemma js_ltb_trans a b c : js_ltb a b = true -> js_ltb b c = true -> js_ltb a c = true.
Proof.
  revert b c. induction a as [|x a IH]; intros [|y b] [|z c]; try done.
  rewrite !js_ltb_cons. intros [|[-> ?]] [|[-> ?]]; try (left; lia). right; eauto.
Qed.

Lemma js_ltb_total a b : js_ltb a b = false -> js_ltb b a = false -> a = b.
Proof.
  revert b. induction a as [|x a IH]; intros [|y b]; simpl; try done.
  intros H1 H2. destruct (Z.ltb_spec x y), (Z.ltb_spec y x); try done; try lia.
  f_equal; [lia | auto].
Qed.

Lemma starts_with_app p s : starts_with (p ++ s) p = true.
Proof. induction p as [|x p IH]; simpl; [done |]. by rewrite Z.eqb_refl. Qed.

Lemma starts_with_spec s p : starts_with s p = true <-> exists r, s = p ++ r.
Proof.
  split.
  - revert s. induction p as [|x p IH]; intros [|y s] H; simpl in *; eauto; try done.
    bool_props. subst. destruct (IH s) as [r ->]; eauto.
  - intros [r ->]. apply starts_with_app.
Qed.

(** ** UTF-8 *)

Definition is_high_surrogate (u : Z) : bool := (0xD800 <=? u) && (u <? 0xDC00).
Definition is_low_surrogate (u : Z) : bool := (0xDC00 <=? u) && (u <? 0xE000).

Definition utf8_of_code_point (cp : Z) : bytes :=
  if cp <? 0x80 then [cp]
  else if cp <? 0x800 then [0xC0 + cp / 64; 0x80 + cp mod 64]
  else if cp <? 0x10000 then [0xE0 + cp / 4096; 0x80 + (cp / 64) mod 64; 0x80 + cp mod 64]
  else [0xF0 + cp / 262144; 0x80 + (cp / 4096) mod 64; 0x80 + (cp / 64) mod 64; 0x80 + cp mod 64].

Definition code_point_of_pair (high low : Z) : Z :=
  0x10000 + (high - 0xD800) * 0x400 + (low - 0xDC00).

(** [new TextEncoder().encode(s)]: a lone surrogate becomes U+FFFD. *)
Fixpoint utf8_encode (s : jsstring) : bytes :=
  match s with
  | [] => []
  | u :: r =>
      if is_high_surrogate u then
        match r with
        | l :: r' =>
            if is_low_surrogate l
            then utf8_of_code_point (code_point_of_pair u l) ++ utf8_encode r'
            else utf8_of_code_point 0xFFFD ++ utf8_encode r
        | [] => utf8_of_code_point 0xFFFD
        end
      else if is_low_surrogate u then utf8_of_code_point 0xFFFD ++ utf8_encode r
      else utf8_of_code_point u ++ utf8_encode r
  end.

Definition is_cont (b : Z) : bool := (0x80 <=? b) && (b <? 0xC0).

(** The UTF-8 decoder in fatal mode, before the byte order mark is dropped. *)
Fixpoint utf8_decode_all (b : bytes) : option jsstring :=
  match b with
  | [] => Some []
  | b0 :: r0 =>
      if b0 <? 0x80 then cons b0 <$> utf8_decode_all r0
      else if (0xC2 <=? b0) && (b0 <=? 0xDF) then
        match r0 with
        | b1 :: r1 =>
            if is_cont b1
            then cons ((b0 - 0xC0) * 64 + (b1 - 0x80)) <$> utf8_decode_all r1 else None
        | _ => None
        end
      else if (0xE0 <=? b0) && (b0 <=? 0xEF) then
        match r0 with
        | b1 :: b2 :: r2 =>
            let cp := (b0 - 0xE0) * 4096 + (b1 - 0x80) * 64 + (b2 - 0x80) in
            if is_cont b1 && is_cont b2 && (0x800 <=? cp)
               && negb (is_high_surrogate cp) && negb (is_low_surrogate cp)
            then cons cp <$> utf8_decode_all r2 else None
        | _ => None
        end
      else if (0xF0 <=? b0) && (b0 <=? 0xF4) then
        match r0 with
        | b1 :: b2 :: b3 :: r3 =>
            let cp := (b0 - 0xF0) * 262144 + (b1 - 0x80) * 4096 + (b2 - 0x80) * 64 + (b3 - 0x80) in
            if is_cont b1 && is_cont b2 && is_cont b3 && (0x10000 <=? cp) && (cp <? 0x110000)
            then (fun s => 0xD800 + (cp - 0x10000) / 0x400 :: 0xDC00 + (cp - 0x10000) mod 0x400 :: s)
                   <$> utf8_decode_all r3
            else None
        | _ => None
        end
      else None
  end.

Definition byte_order_mark : Z := 0xFEFF.

(** [new TextDecoder("utf-8", { fatal: true }).decode(b)]: [None] is the
    thrown [TypeError]; a leading byte order mark is dropped ([ignoreBOM] is
    false by default). *)
Definition utf8_decode (b : bytes) : option jsstring :=
  match utf8_decode_all b with
  | Some (u :: s) => if u =? byte_order_mark then Some s else Some (u :: s)
  | r => r
  end.

(** A string of code units with no lone surrogate ([isWellFormed]). *)
Fixpoint well_formed (s : jsstring) : bool :=
  match s with
  | [] => true
  | u :: r =>
      if is_high_surrogate u then
        match r with l :: r' => is_low_surrogate l && well_formed r' | [] => false end
      else negb (is_low_surrogate u) && (0 <=? u) && (u <? 0x10000) && well_formed r
  end.

(** A text the program can send and read back: well formed, no leading BOM. *)
Definition plain_text (s : jsstring) : bool :=
  well_formed s && negb (bool_decide (head s = Some byte_order_mark)).

(** Replaces a boolean test by its value, by arithmetic. *)
Ltac test c b :=
  replace c with b
    by (symmetry; unfold is_cont, is_high_surrogate, is_low_surrogate in *; lia).

Lemma utf8_decode_all_1 b0 r : b0 < 0x80 -> utf8_decode_all (b0 :: r) = cons b0 <$> utf8_decode_all r.
Proof. intros. cbn [utf8_decode_all]. test (b0 <? 128) true. done. Qed.

Lemma utf8_decode_all_2 b0 b1 r :
  0xC2 <= b0 <= 0xDF -> 0x80 <= b1 < 0xC0 ->
  utf8_decode_all (b0 :: b1 :: r) = cons ((b0 - 0xC0) * 64 + (b1 - 0x80)) <$> utf8_decode_all r.
Proof.
  intros. remember (b1 :: r) as r0. cbn [utf8_decode_all]. subst r0.
  test (b0 <? 128) false. test ((194 <=? b0) && (b0 <=? 223)) true. test (is_cont b1) true. done.
Qed.

Lemma utf8_decode_all_3 b0 b1 b2 r cp :
  0xE0 <= b0 <= 0xEF -> 0x80 <= b1 < 0xC0 -> 0x80 <= b2 < 0xC0 ->
  cp = (b0 - 0xE0) * 4096 + (b1 - 0x80) * 64 + (b2 - 0x80) -> 0x800 <= cp ->
  is_high_surrogate cp = false -> is_low_surrogate cp = false ->
  utf8_decode_all (b0 :: b1 :: b2 :: r) = cons cp <$> utf8_decode_all r.
Proof.
  intros ? ? ? Hcp ? Hh Hl. remember (b1 :: b2 :: r) as r0. cbn [utf8_decode_all]. subst r0.
  cbv zeta. rewrite <- Hcp, Hh, Hl.
  test (b0 <? 128) false. test ((194 <=? b0) && (b0 <=? 223)) false.
  test ((224 <=? b0) && (b0 <=? 239)) true.
  test (is_cont b1) true. test (is_cont b2) true. test (2048 <=? cp) true. done.
Qed.

Lemma utf8_decode_all_4 b0 b1 b2 b3 r cp :
  0xF0 <= b0 <= 0xF4 -> 0x80 <= b1 < 0xC0 -> 0x80 <= b2 < 0xC0 -> 0x80 <= b3 < 0xC0 ->
  cp = (b0 - 0xF0) * 262144 + (b1 - 0x80) * 4096 + (b2 - 0x80) * 64 + (b3 - 0x80) ->
  0x10000 <= cp < 0x110000 ->
  utf8_decode_all (b0 :: b1 :: b2 :: b3 :: r) =
  (fun s => 0xD800 + (cp - 0x10000) / 0x400 :: 0xDC00 + (cp - 0x10000) mod 0x400 :: s)
    <$> utf8_decode_all r.
Proof.
  intros ? ? ? ? Hcp ?. remember (b1 :: b2 :: b3 :: r) as r0. cbn [utf8_decode_all]. subst r0.
  cbv zeta. rewrite <- Hcp.
  test (b0 <? 128) false. test ((194 <=? b0) && (b0 <=? 223)) false.
  test ((224 <=? b0) && (b0 <=? 239)) false. test ((240 <=? b0) && (b0 <=? 244)) true.
  test (is_cont b1) true. test (is_cont b2) true. test (is_cont b3) true.
  test (65536 <=? cp) true. test (cp <? 1114112) true. done.
Qed.

(** Decoding one encoded scalar value in front of any input. *)
Lemma utf8_decode_all_scalar u rest :
  0 <= u < 0x10000 -> is_high_surrogate u = false -> is_low_surrogate u = false ->
  utf8_decode_all (utf8_of_code_point u ++ rest) = cons u <$> utf8_decode_all rest.
Proof.
  intros Hu Hh Hl. unfold utf8_of_code_point. cbv zeta.
  repeat case_match; bool_props; try lia; cbn [app].
  - by rewrite utf8_decode_all_1 by lia.
  - rewrite utf8_decode_all_2 by zdiv_lia. do 2 f_equal. zdiv_lia.
  - rewrite (utf8_decode_all_3 _ _ _ _ u) by (done || zdiv_lia). done.
Qed.

Lemma utf8_decode_all_pair h l rest :
  is_high_surrogate h = true -> is_low_surrogate l = true ->
  utf8_decode_all (utf8_of_code_point (code_point_of_pair h l) ++ rest)
  = (fun s => h :: l :: s) <$> utf8_decode_all rest.
Proof.
  unfold is_high_surrogate, is_low_surrogate, code_point_of_pair. intros. bool_props.
  unfold utf8_of_code_point.
  repeat case_match; bool_props; try lia; cbn [app].
  set (cp := 65536 + (h - 55296) * 1024 + (l - 56320)) in *.
  rewrite (utf8_decode_all_4 _ _ _ _ _ cp) by zdiv_lia.
  destruct (utf8_decode_all rest); simpl; [|done]. repeat f_equal; zdiv_lia.
Qed.

Lemma utf8_decode_all_encode s :
  well_formed s = true -> utf8_decode_all (utf8_encode s) = Some s.
Proof.
  remember (length s) as n eqn:Hn. revert s Hn.
  induction n as [n IH] using lt_wf_ind. intros [|u r] Hn H; [done |].
  cbn [utf8_encode well_formed] in *.
  destruct (is_high_surrogate u) eqn:Hhigh.
  - destruct r as [|l r']; [done |]. bool_props.
    rewrite H, utf8_decode_all_pair, (IH (length r')); simpl in *; done || lia.
  - destruct (is_low_surrogate u) eqn:Hlow; [done |]. bool_props.
    rewrite utf8_decode_all_scalar, (IH (length r)); simpl in *; done || lia.
Qed.

Lemma utf8_encode_scalar u s :
  is_high_surrogate u = false -> is_low_surrogate u = false ->
  utf8_encode (u :: s) = utf8_of_code_point u ++ utf8_encode s.
Proof. intros Hh Hl. cbn [utf8_encode]. by rewrite Hh, Hl. Qed.

Lemma well_formed_scalar u s :
  0 <= u < 0x10000 -> is_high_surrogate u = false -> is_low_surrogate u = false ->
  well_formed (u :: s) = well_formed s.
Proof. intros ? Hh Hl. cbn [well_formed]. rewrite Hh, Hl.
  test (0 <=? u) true. by test (u <? 65536) true.
Qed.

Lemma utf8_encode_pair h l s :
  is_high_surrogate h = true -> is_low_surrogate l = true ->
  utf8_encode (h :: l :: s) = utf8_of_code_point (code_point_of_pair h l) ++ utf8_encode s.
Proof. intros Hh Hl. cbn [utf8_encode]. by rewrite Hh, Hl. Qed.

(** Splitting a supplementary code point into surrogates and joining them back. *)
Lemma code_point_of_pair_split cp h l :
  0x10000 <= cp < 0x110000 ->
  h = 0xD800 + (cp - 0x10000) / 0x400 -> l = 0xDC00 + (cp - 0x10000) mod 0x400 ->
  is_high_surrogate h = true /\ is_low_surrogate l = true /\ code_point_of_pair h l = cp.
Proof.
  intros. unfold is_high_surrogate, is_low_surrogate, code_point_of_pair.
  assert (0 <= (cp - 0x10000) / 0x400 < 0x400) by zdiv_lia.
  assert (0 <= (cp - 0x10000) mod 0x400 < 0x400) by zdiv_lia.
  repeat split; [lia | lia | zdiv_lia].
Qed.

Lemma utf8_encode_decode_all b s :
  bytes_ok b -> utf8_decode_all b = Some s -> utf8_encode s = b /\ well_formed s = true.
Proof.
  remember (length b) as n eqn:Hn. revert b s Hn.
  induction n as [n IH] using lt_wf_ind. intros [|b0 r] s Hn Hok H; [simplify_eq/=; by split |].
  cbn [utf8_decode_all] in H. cbv zeta in H.
  repeat (case_match; try done); subst; rewrite ?bytes_ok_cons in Hok; destruct_and?; unfold is_cont, is_byte in *; bool_props.
  all: apply fmap_Some in H as (s' & Hs' & ->).
  all: eapply IH in Hs' as [He Hw]; [| | reflexivity |]; [|simpl; lia | done].
  1-3: rewrite utf8_encode_scalar, well_formed_scalar, He, Hw by
    (done || (unfold is_high_surrogate, is_low_surrogate; lia) || lia);
    split; [|done]; unfold utf8_of_code_point; repeat case_match; bool_props; try lia;
    cbn [app]; repeat f_equal; zdiv_lia.
  - match goal with |- utf8_encode (55296 + (?cp - 65536) / _ :: _ :: _) = _ /\ _ =>
      destruct (code_point_of_pair_split cp _ _ ltac:(lia) eq_refl eq_refl) as (Hh & Hl & Hcp)
    end.
    rewrite utf8_encode_pair, Hcp, He by done. cbn [well_formed]. rewrite Hh, Hl, Hw.
    split; [|done]. unfold utf8_of_code_point. repeat case_match; bool_props; try lia.
    cbn [app]. repeat f_equal; zdiv_lia.
Qed.

Lemma utf8_decode_encode s : plain_text s = true -> utf8_decode (utf8_encode s) = Some s.
Proof.
  unfold plain_text, utf8_decode. intros. bool_props.
  rewrite utf8_decode_all_encode by done. destruct s as [|u s]; [done |].
  case_match; [| done]. bool_props. by simplify_eq/=.
Qed.

(** What a successful decoding says about the bytes: they are the encoding of
    the result, up to one byte order mark. *)
Lemma utf8_decode_sound b s :
  bytes_ok b -> utf8_decode b = Some s ->
  well_formed s = true /\
  (utf8_encode s = b \/ utf8_encode (byte_order_mark :: s) = b).
Proof.
  unfold utf8_decode. intros Hok H. destruct (utf8_decode_all b) as [[|u t]|] eqn:E; simplify_eq.
  - apply utf8_encode_decode_all in E as [? ?]; [| done]. naive_solver.
  - apply utf8_encode_decode_all in E as [He Hw]; [| done].
    case_match; simplify_eq; [| naive_solver]. bool_props. subst u.
    rewrite well_formed_scalar in Hw by (done || (unfold byte_order_mark; lia)). naive_solver.
Qed.

Lemma utf8_of_code_point_ok cp : 0 <= cp < 0x110000 -> bytes_ok (utf8_of_code_point cp).
Proof.
  intros. unfold utf8_of_code_point.
  repeat case_match; bool_props; repeat constructor; unfold is_byte; zdiv_lia.
Qed.

Lemma utf8_encode_ok s : well_formed s = true -> bytes_ok (utf8_encode s).
Proof.
  remember (length s) as n eqn:Hn. revert s Hn.
  induction n as [n IH] using lt_wf_ind. intros [|u r] Hn H; [constructor |].
  cbn [utf8_encode well_formed] in *.
  destruct (is_high_surrogate u) eqn:Hhigh.
  - destruct r as [|l r']; [done |]. bool_props. rewrite H. apply bytes_ok_app. split.
    + apply utf8_of_code_point_ok. unfold is_high_surrogate, is_low_surrogate, code_point_of_pair in *.
      bool_props. lia.
    + eapply IH; [| reflexivity | done]. simpl in *. lia.
  - destruct (is_low_surrogate u) eqn:Hlow; [done |]. bool_props. apply bytes_ok_app. split.
    + apply utf8_of_code_point_ok. lia.
    + eapply IH; [| reflexivity | done]. simpl in *. lia.
Qed.

Lemma utf8_encode_inj s t :
  well_formed s = true -> well_formed t = true -> utf8_encode s = utf8_encode t -> s = t.
Proof.
  intros Hs%utf8_decode_all_encode Ht%utf8_decode_all_encode E. congruence.
Qed.

Lemma utf8_of_code_point_nonempty cp : utf8_of_code_point cp <> [].
Proof. unfold utf8_of_code_point. by repeat case_match. Qed.

Lemma utf8_encode_nil s : utf8_encode s = [] <-> s = [].
Proof.
  split; [| by intros ->]. destruct s as [|u r]; [done |]. cbn [utf8_encode].
  repeat case_match; intros Hx; try (apply app_nil in Hx as [Hx _]);
    exfalso; by eapply utf8_of_code_point_nonempty.
Qed.

(** [new TextEncoder().encode(s).byteLength] *)
Definition text_bytes (s : jsstring) : Z := zlen (utf8_encode s).

(** ** White space *)

(** The characters [String.prototype.trim] removes. *)
Definition is_js_space (c : Z) : bool :=
  ((9 <=? c) && (c <=? 13)) || (c =? 32) || (c =? 0xA0) || (c =? 0x1680)
  || ((0x2000 <=? c) && (c <=? 0x200A)) || (c =? 0x2028) || (c =? 0x2029)
  || (c =? 0x202F) || (c =? 0x205F) || (c =? 0x3000) || (c =? 0xFEFF).

(** [value.trim()] *)
Fixpoint trim_start (s : jsstring) : jsstring :=
  match s with [] => [] | c :: r => if is_js_space c then trim_start r else s end.

Definition js_trim (s : jsstring) : jsstring := reverse (trim_start (reverse (trim_start s))).
