(* ===== verification/Collections.v ===== *)
(** * Maps, sets and sorting of the language runtime

    [Map] keeps its entries in insertion order and [set] on a present key keeps
    the key's place; [Array.prototype.sort] is stable.  Both orders decide which
    entry the program evicts or sends first, so they are part of the model. *)
From Stdlib Require Import Sorting.Sorted.
From S2P Require Import Prelude.

(** ** [Map] *)

Section JsMap.
Context {K V : Type} `{EqDecision K}.
Implicit Types m : list (K * V).

Fixpoint map_get m (k : K) : option V :=
  match m with
  | [] => None
  | (k', v) :: m' => if decide (k = k') then Some v else map_get m' k
  end.

Fixpoint map_set m (k : K) (v : V) : list (K * V) :=
  match m with
  | [] => [(k, v)]
  | (k', v') :: m' => if decide (k = k') then (k', v) :: m' else (k', v') :: map_set m' k v
  end.

Fixpoint map_delete m (k : K) : list (K * V) :=
  match m with
  | [] => []
  | (k', v') :: m' => if decide (k = k') then map_delete m' k else (k', v') :: map_delete m' k
  end.

Definition map_has m (k : K) : bool :=
  match map_get m k with Some _ => true | None => false end.

Definition map_keys m : list K := m.*1.

(** [for (const [key, value] of map) if (p(key, value)) map.delete(key)] *)
Definition map_delete_if (p : K -> V -> bool) m : list (K * V) :=
  filter (fun kv => p kv.1 kv.2 = false) m.

(** [while (map.size > bound) map.delete(map.keys().next().value)]; the fuel
    is the size of the map, one unit per deleted entry. *)
Fixpoint map_trim_loop (fuel : nat) (bound : Z) m : list (K * V) :=
  match fuel with
  | O => m
  | S fuel =>
      if bound <? zlen m then
        match m with
        | [] => m
        | (oldest, _) :: _ => map_trim_loop fuel bound (map_delete m oldest)
        end
      else m
  end.

Definition map_trim (bound : Z) m : list (K * V) := map_trim_loop (length m) bound m.

(** Every key occurs once. *)
Definition map_wf m : Prop := NoDup (map_keys m).

Lemma map_get_set_eq m k v : map_get (map_set m k v) k = Some v.
Proof.
  induction m as [|[k' v'] m IH]; simpl; [by rewrite decide_True |].
  case_decide; simpl; [by rewrite decide_True | by rewrite decide_False].
Qed.

Lemma map_get_set_ne m k k' v : k <> k' -> map_get (map_set m k v) k' = map_get m k'.
Proof.
  intros Hne. induction m as [|[j w] m IH]; simpl; [by rewrite decide_False |].
  destruct (decide (k = j)) as [->|]; simpl; [by rewrite !decide_False |].
  by rewrite IH.
Qed.

Lemma map_get_delete_eq m k : map_get (map_delete m k) k = None.
Proof.
  induction m as [|[k' v'] m IH]; simpl; [done |].
  case_decide; simpl; [done | by rewrite decide_False].
Qed.

Lemma map_get_delete_ne m k k' : k <> k' -> map_get (map_delete m k) k' = map_get m k'.
Proof.
  intros Hne. induction m as [|[j w] m IH]; simpl; [done |].
  destruct (decide (k = j)) as [->|]; simpl; [by rewrite decide_False | by rewrite IH].
Qed.

Lemma map_get_None m k : map_get m k = None <-> k ∉ map_keys m.
Proof.
  induction m as [|[k' v'] m IH]; simpl; [set_solver |].
  case_decide; set_solver.
Qed.

Lemma map_get_Some_elem m k v : map_get m k = Some v -> (k, v) ∈ m.
Proof.
  induction m as [|[k' v'] m IH]; simpl; [done |].
  case_decide; intros; simplify_eq; set_solver.
Qed.

Lemma elem_map_get m k v : map_wf m -> (k, v) ∈ m -> map_get m k = Some v.
Proof.
  unfold map_wf. induction m as [|[k' v'] m IH]; simpl; [set_solver |].
  intros [Hnotin Hnd]%NoDup_cons Hin. apply elem_of_cons in Hin as [E | Hin].
  - simplify_eq. by rewrite decide_True.
  - rewrite decide_False; [auto |]. intros ->. apply Hnotin.
    apply list_elem_of_fmap. by exists (k', v).
Qed.

(** Two well-formed maps with the same lookups have the same entries. *)
Lemma map_get_perm m m' :
  map_wf m -> map_wf m' -> (forall k, map_get m k = map_get m' k) -> Permutation m m'.
Proof.
  intros Hm Hm' H. apply NoDup_Permutation.
  - by eapply NoDup_fmap_1.
  - by eapply NoDup_fmap_1.
  - intros [k v]. split; intros Hx%elem_map_get; try done;
      apply map_get_Some_elem; congruence.
Qed.

Lemma perm_map_get m m' k : map_wf m -> Permutation m m' -> map_get m k = map_get m' k.
Proof.
  intros Hm Hp. assert (Hm' : map_wf m') by (unfold map_wf, map_keys; by rewrite <- Hp).
  destruct (map_get m k) as [v|] eqn:E.
  - symmetry. apply elem_map_get; [done |]. rewrite <- Hp. by apply map_get_Some_elem.
  - symmetry. rewrite map_get_None in *. unfold map_keys in *. by rewrite <- Hp.
Qed.

Lemma map_has_true m k : map_has m k = true <-> k ∈ map_keys m.
Proof.
  unfold map_has. destruct (map_get m k) eqn:E.
  - apply map_get_Some_elem in E. split; [|done]. intros _.
    apply list_elem_of_fmap. by exists (k, v).
  - apply map_get_None in E. naive_solver.
Qed.

Lemma map_has_false m k : map_has m k = false <-> k ∉ map_keys m.
Proof. rewrite <- map_has_true. destruct (map_has m k); naive_solver. Qed.

Lemma map_set_fresh m k v : k ∉ map_keys m -> map_set m k v = m ++ [(k, v)].
Proof.
  induction m as [|[k' v'] m IH]; simpl; [done |].
  intros Hk. rewrite decide_False by set_solver. by rewrite IH by set_solver.
Qed.

Lemma map_keys_set m k v :
  map_keys (map_set m k v) = if map_has m k then map_keys m else map_keys m ++ [k].
Proof.
  unfold map_has. induction m as [|[k' v'] m IH]; simpl; [done |].
  case_decide; simpl; [done |]. rewrite IH. by case_match.
Qed.

Lemma map_set_wf m k v : map_wf m -> map_wf (map_set m k v).
Proof.
  unfold map_wf. rewrite map_keys_set. destruct (map_has m k) eqn:E; [done |].
  apply map_has_false in E. intros. apply NoDup_app. split; [done |].
  split; [set_solver | apply NoDup_singleton].
Qed.

Lemma map_delete_filter m k : map_delete m k = filter (fun kv => k <> kv.1) m.
Proof.
  induction m as [|[k' v'] m IH]; simpl; [done |].
  rewrite filter_cons. simpl. destruct (decide (k = k')) as [->|].
  - rewrite decide_False by naive_solver. done.
  - rewrite decide_True by done. by rewrite IH.
Qed.

Lemma map_keys_filter (P : K * V -> Prop) `{!forall x, Decision (P x)} m :
  map_keys (filter P m) `sublist_of` map_keys m.
Proof.
  induction m as [|x m IH]; simpl; [constructor |].
  rewrite filter_cons. case_decide; simpl; by constructor.
Qed.

Lemma map_filter_wf (P : K * V -> Prop) `{!forall x, Decision (P x)} m :
  map_wf m -> map_wf (filter P m).
Proof. intros Hm. eapply sublist_NoDup; [exact Hm | apply map_keys_filter]. Qed.

Lemma map_delete_wf m k : map_wf m -> map_wf (map_delete m k).
Proof. rewrite map_delete_filter. apply map_filter_wf. Qed.

Lemma map_delete_if_wf p m : map_wf m -> map_wf (map_delete_if p m).
Proof. apply map_filter_wf. Qed.

Lemma map_get_delete_if p m k :
  map_wf m ->
  map_get (map_delete_if p m) k =
  match map_get m k with Some v => if p k v then None else Some v | None => None end.
Proof.
  unfold map_delete_if, map_wf. induction m as [|[k' v'] m IH]; simpl; [done |].
  intros [Hnotin Hnd]%NoDup_cons. rewrite filter_cons. simpl.
  destruct (decide (k = k')) as [->|].
  - destruct (p k' v') eqn:E; simpl.
    + apply map_get_None. intros Hin. apply Hnotin. eapply elem_of_sublist; [exact Hin |].
      apply map_keys_filter.
    + by rewrite decide_True.
  - case_decide; simpl; [rewrite decide_False by done |]; auto.
Qed.

Lemma map_delete_head k v m : map_wf ((k, v) :: m) -> map_delete ((k, v) :: m) k = m.
Proof.
  unfold map_wf. simpl. intros [Hnotin _]%NoDup_cons. rewrite decide_True by done.
  clear v. induction m as [|[k' v'] m IH]; simpl in *; [done |].
  rewrite decide_False by set_solver. rewrite IH by set_solver. done.
Qed.

(** The eviction loop keeps exactly the newest [bound] entries. *)
Lemma map_trim_drop bound m :
  0 <= bound -> map_wf m -> map_trim bound m = drop (length m - Z.to_nat bound) m.
Proof.
  intros Hb. unfold map_trim. remember (length m) as n eqn:Hn. revert m Hn.
  induction n as [|n IH]; intros m Hn Hwf; simpl; [done |].
  destruct (Z.ltb_spec bound (zlen m)) as [Hlt|Hge]; unfold zlen in *.
  - destruct m as [|[k v] m]; [done |]. rewrite map_delete_head by done.
    injection Hn as Hn. rewrite IH; [| done | by apply NoDup_cons in Hwf as [_ ?]].
    replace (S n - Z.to_nat bound)%nat with (S (n - Z.to_nat bound)) by (simpl in *; lia).
    done.
  - replace (_ - _)%nat with O by lia. done.
Qed.

Lemma drop_map_wf n m : map_wf m -> map_wf (drop n m).
Proof.
  unfold map_wf, map_keys. rewrite <- (take_drop n m) at 1. rewrite fmap_app, NoDup_app.
  naive_solver.
Qed.

Lemma map_trim_wf bound m : 0 <= bound -> map_wf m -> map_wf (map_trim bound m).
Proof. intros. rewrite map_trim_drop by done. by apply drop_map_wf. Qed.

Lemma map_trim_size bound m :
  0 <= bound -> map_wf m -> zlen (map_trim bound m) = Z.min bound (zlen m).
Proof. intros. rewrite map_trim_drop by done. unfold zlen. rewrite length_drop. lia. Qed.

Lemma map_set_size m k v :
  zlen (map_set m k v) = if map_has m k then zlen m else zlen m + 1.
Proof.
  pose proof (f_equal length (map_keys_set m k v)) as E. unfold map_keys in E.
  rewrite length_fmap in E. unfold zlen. rewrite E. case_match;
    rewrite ?length_app, length_fmap; simpl; lia.
Qed.

Lemma map_delete_if_size p m : zlen (map_delete_if p m) <= zlen m.
Proof. unfold zlen, map_delete_if. pose proof (length_filter (fun kv : K * V => p kv.1 kv.2 = false) m). lia. Qed.

Lemma map_delete_size m k : zlen (map_delete m k) <= zlen m.
Proof. rewrite map_delete_filter. unfold zlen. pose proof (length_filter (fun kv : K * V => k <> kv.1) m). lia. Qed.
End JsMap.

Lemma Forall_sublist {A} (P : A -> Prop) l k : l `sublist_of` k -> Forall P k -> Forall P l.
Proof. intros Hs. rewrite !Forall_forall. intros H x Hx. by eapply H, elem_of_sublist. Qed.

Section Delete.
Context {K V : Type} `{EqDecision K}.
Implicit Types (m : list (K * V)) (k : K).

Lemma map_delete_sublist m k : map_delete m k `sublist_of` m.
Proof. rewrite map_delete_filter. apply sublist_filter. Qed.

Lemma elem_of_map_delete m k e : e ∈ map_delete m k <-> e.1 <> k /\ e ∈ m.
Proof. rewrite map_delete_filter, list_elem_of_filter. split; intros [? ?]; split; congruence || done. Qed.

Lemma map_delete_perm m k v : map_wf m -> map_get m k = Some v -> m ≡ₚ (k, v) :: map_delete m k.
Proof.
  induction m as [|[k' v'] m IH]; [done |]. intros Hw. cbn [map_get map_delete]. destruct (decide (k = k')) as [->|Hne]; intros E.
  - injection E as ->. pose proof (map_delete_head k' v m Hw) as Hd. cbn [map_delete] in Hd. rewrite decide_True in Hd by done.
    by rewrite Hd.
  - apply NoDup_cons in Hw as [_ Hw]. etransitivity; [apply perm_skip, (IH Hw E) | apply perm_swap].
Qed.

Lemma map_set_perm m k v : map_wf m -> map_set m k v ≡ₚ (k, v) :: map_delete m k.
Proof.
  induction m as [|[k' v'] m IH]; [done |]. intros Hw. cbn [map_set map_delete]. destruct (decide (k = k')) as [->|Hne].
  - pose proof (map_delete_head k' v' m Hw) as Hd. cbn [map_delete] in Hd. rewrite decide_True in Hd by done. by rewrite Hd.
  - apply NoDup_cons in Hw as [_ Hw]. rewrite (IH Hw). apply perm_swap.
Qed.

Lemma map_delete_absent m k : map_get m k = None -> map_delete m k = m.
Proof.
  induction m as [|[k' v'] m IH]; [done |]. cbn [map_get map_delete]. destruct (decide (k = k')); [done |].
  intros H. by rewrite IH.
Qed.

(** What is in a map after [set]: the new entry or an old one. *)
Lemma elem_of_map_set m k v e : e ∈ map_set m k v -> e = (k, v) \/ e ∈ m.
Proof.
  induction m as [|[k' v'] m IH]; cbn [map_set].
  - intros Hin. apply list_elem_of_singleton in Hin. by left.
  - destruct (decide (k = k')) as [->|Hne]; rewrite !elem_of_cons; tauto.
Qed.
End Delete.

#[export] Hint Resolve map_set_wf map_delete_wf map_delete_if_wf : branch.
Create Rewrite HintDb branch_map.
#[export] Hint Rewrite @map_get_set_eq @map_get_delete_eq : branch_map.

(** ** [Array.prototype.sort] with a comparator *)

Section Sort.
Context {A : Type} (cmp : A -> A -> Z).

Fixpoint insert_by (x : A) (l : list A) : list A :=
  match l with
  | [] => [x]
  | y :: l' => if cmp x y <=? 0 then x :: l else y :: insert_by x l'
  end.

Fixpoint sort_by (l : list A) : list A :=
  match l with
  | [] => []
  | x :: l' => insert_by x (sort_by l')
  end.

Definition cmp_le (x y : A) : Prop := cmp x y <= 0.

Lemma insert_by_perm x l : Permutation (insert_by x l) (x :: l).
Proof.
  induction l as [|y l IH]; simpl; [done |]. case_match; [done |].
  rewrite IH. apply perm_swap.
Qed.

Lemma sort_by_perm l : Permutation (sort_by l) l.
Proof. induction l as [|x l IH]; simpl; [done |]. by rewrite insert_by_perm, IH. Qed.

Lemma elem_of_sort_by x l : x ∈ sort_by l <-> x ∈ l.
Proof. by rewrite sort_by_perm. Qed.

Context (cmp_total : forall x y, cmp x y <= 0 \/ cmp y x <= 0).
Context (cmp_trans : forall x y z, cmp x y <= 0 -> cmp y z <= 0 -> cmp x z <= 0).

Lemma insert_by_sorted x l :
  StronglySorted cmp_le l -> StronglySorted cmp_le (insert_by x l).
Proof.
  unfold cmp_le. induction 1 as [|y l Hs IH Hf]; simpl; [by repeat constructor |].
  destruct (Z.leb_spec (cmp x y) 0) as [Hle|Hgt].
  - constructor; [by constructor |]. constructor; [done |].
    eapply Forall_impl; [exact Hf |]. eauto.
  - constructor; [done |]. rewrite insert_by_perm. constructor; [|done].
    destruct (cmp_total x y); [lia | done].
Qed.

Lemma sort_by_sorted l : StronglySorted cmp_le (sort_by l).
Proof. induction l; simpl; [constructor | by apply insert_by_sorted]. Qed.

(** Sorting an already sorted list changes nothing. *)
Lemma sort_by_id l : StronglySorted cmp_le l -> sort_by l = l.
Proof.
  unfold cmp_le. induction 1 as [|x l Hs IH Hf]; simpl; [done |]. rewrite IH.
  destruct l as [|y l]; [done |]. simpl. apply Forall_cons in Hf as [Hxy _].
  by destruct (Z.leb_spec (cmp x y) 0); [|lia].
Qed.

(** Two sorted lists with the same elements are equal when only equal
    elements compare as equal both ways. *)
Lemma sorted_perm_eq l k :
  (forall x y, x ∈ l -> y ∈ l -> cmp x y <= 0 -> cmp y x <= 0 -> x = y) ->
  StronglySorted cmp_le l -> StronglySorted cmp_le k -> Permutation l k -> l = k.
Proof.
  unfold cmp_le. revert k. induction l as [|x l IH]; intros k Hanti Hl Hk Hp.
  - by apply Permutation_nil_l in Hp.
  - destruct k as [|y k]; [by apply Permutation_nil_r in Hp |].
    inversion Hl as [|? ? Hsl Hfl]; inversion Hk as [|? ? Hsk Hfk]; subst.
    assert (x = y) as ->.
    { assert (Hy : y ∈ x :: l) by (rewrite Hp; set_solver).
      assert (Hx : x ∈ y :: k) by (rewrite <- Hp; set_solver).
      rewrite Forall_forall in Hfl, Hfk.
      apply elem_of_cons in Hy as [->|Hy]; [done |].
      apply elem_of_cons in Hx as [->|Hx]; [done |].
      apply Hanti; set_solver. }
    f_equal. apply IH; [set_solver | done | done |]. by apply Permutation_cons_inv in Hp.
Qed.
End Sort.

(** Sorting by a key commutes with a map that keeps the key. *)
Lemma insert_by_fmap {A B} (cmp : B -> B -> Z) (f : A -> B) x k :
  insert_by cmp (f x) (f <$> k) = f <$> insert_by (fun x y => cmp (f x) (f y)) x k.
Proof. induction k as [|y k IH]; csimpl; [done |]. case_match; csimpl; [done | by rewrite IH]. Qed.

Lemma sort_by_fmap {A B} (cmp : B -> B -> Z) (f : A -> B) l :
  sort_by cmp (f <$> l) = f <$> sort_by (fun x y => cmp (f x) (f y)) l.
Proof. induction l as [|x l IH]; csimpl; [done |]. by rewrite IH, insert_by_fmap. Qed.
