(* ===== verification/Effects.v ===== *)
(** * Methods of stateful objects

    A method that may throw and mutates its object is a computation [M S A]:
    from the object's state to the value returned (or the error thrown) and the
    state reached, also when it throws.  [triple P m Q E] is its program logic:
    from a state in [P] the method either returns [a] in a state of [Q a] or
    throws in a state of [E]; [keeps I] is the case of an invariant. *)
From S2P Require Import Prelude JsRuntime Collections.

Section Computations.
Context {S : Type}.

Definition M (A : Type) : Type := S -> result A * S.

Definition ret {A} (a : A) : M A := fun s => (Ok a, s).
Definition throw {A} (message : jsstring) : M A := fun s => (Throw message, s).
Definition lift {A} (r : result A) : M A := fun s => (r, s).
Definition get {A} (f : S -> A) : M A := fun s => (Ok (f s), s).
Definition modify (f : S -> S) : M unit := fun s => (Ok tt, f s).

Definition bind {A B} (m : M A) (k : A -> M B) : M B := fun s =>
  match m s with (Ok a, s') => k a s' | (Throw e, s') => (Throw e, s') end.

Definition require (b : bool) (message : jsstring) : M unit := if b then ret tt else throw message.

(** The call as a step: whether it threw, and the state it leaves. *)
Definition after {A} (m : M A) (s : S) : result unit * S :=
  match m s with (Ok _, s') => (Ok tt, s') | (Throw e, s') => (Throw e, s') end.

(** ** Program logic *)

Definition triple {A} (P : S -> Prop) (m : M A) (Q : A -> S -> Prop) (E : S -> Prop) : Prop :=
  forall s, P s -> match m s with (Ok a, s') => Q a s' | (Throw _, s') => E s' end.

Definition keeps {A} (I : S -> Prop) (m : M A) : Prop := forall s, I s -> I (m s).2.

Lemma keeps_triple {A} I (m : M A) : keeps I m <-> triple I m (fun _ => I) I.
Proof.
  split; intros H s Hs; specialize (H s Hs); destruct (m s) as [[] ?]; done.
Qed.

Lemma triple_weaken {A} (P P' : S -> Prop) (m : M A) (Q Q' : A -> S -> Prop) (E E' : S -> Prop) :
  triple P m Q E -> (forall s, P' s -> P s) -> (forall a s, Q a s -> Q' a s) -> (forall s, E s -> E' s) ->
  triple P' m Q' E'.
Proof.
  intros H HP HQ HE s Hs. specialize (H s (HP s Hs)). destruct (m s) as [[] ?]; [exact (HQ _ _ H) | exact (HE _ H)].
Qed.

Lemma triple_keeps {A} (I E : S -> Prop) (m : M A) :
  keeps I m -> (forall s, I s -> E s) -> triple I m (fun _ => I) E.
Proof. intros H%keeps_triple HE. by eapply triple_weaken. Qed.

Lemma triple_ret {A} (a : A) P Q E : (forall s, P s -> Q a s) -> triple P (ret a) Q E.
Proof. intros H s Hs. exact (H s Hs). Qed.

Lemma triple_throw {A} message P Q E : (forall s, P s -> E s) -> triple P (throw (A := A) message) Q E.
Proof. intros H s Hs. exact (H s Hs). Qed.

Lemma triple_modify f P Q E : (forall s, P s -> Q tt (f s)) -> triple P (modify f) Q E.
Proof. intros H s Hs. exact (H s Hs). Qed.

Lemma triple_bind {A B} (m : M A) (k : A -> M B) P R Q E :
  triple P m R E -> (forall a, triple (R a) (k a) Q E) -> triple P (bind m k) Q E.
Proof.
  intros Hm Hk s Hs. specialize (Hm s Hs). unfold bind. destruct (m s) as [[a|e] s']; [exact (Hk a s' Hm) | exact Hm].
Qed.

(** Reading the state: the continuation may use the value read. *)
Lemma triple_get {A B} (f : S -> A) (k : A -> M B) P Q E :
  (forall a, triple (fun s => P s /\ f s = a) (k a) Q E) -> triple P (bind (get f) k) Q E.
Proof. intros H s Hs. unfold bind, get. exact (H (f s) s (conj Hs eq_refl)). Qed.

Lemma triple_get_any {A B} (f : S -> A) (k : A -> M B) P Q E :
  (forall a, triple P (k a) Q E) -> triple P (bind (get f) k) Q E.
Proof. intros H s Hs. exact (H (f s) s Hs). Qed.

Lemma triple_lift {A B} (r : result A) (k : A -> M B) P Q E :
  (forall s, P s -> E s) -> (forall a, r = Ok a -> triple P (k a) Q E) -> triple P (bind (lift r) k) Q E.
Proof. intros He H s Hs. unfold bind, lift. destruct r as [a|]; [exact (H a eq_refl s Hs) | exact (He s Hs)]. Qed.

Lemma triple_require {B} b message (k : unit -> M B) P Q E :
  (forall s, P s -> E s) -> (b = true -> triple P (k tt) Q E) -> triple P (bind (require b message) k) Q E.
Proof. intros He H s Hs. unfold bind, require. destruct b; [exact (H eq_refl s Hs) | exact (He s Hs)]. Qed.

Lemma keeps_ret {A} (a : A) I : keeps I (ret a).
Proof. intros s Hs. exact Hs. Qed.

Lemma keeps_throw {A} message I : keeps I (throw (A := A) message).
Proof. intros s Hs. exact Hs. Qed.

Lemma keeps_lift {A} (r : result A) I : keeps I (lift r).
Proof. intros s Hs. exact Hs. Qed.

Lemma keeps_get {A} (f : S -> A) I : keeps I (get f).
Proof. intros s Hs. exact Hs. Qed.

Lemma keeps_require b message I : keeps I (require b message).
Proof. intros s Hs. destruct b; exact Hs. Qed.

Lemma keeps_modify f I : (forall s, I s -> I (f s)) -> keeps I (modify f).
Proof. intros H s Hs. exact (H s Hs). Qed.

Lemma keeps_bind {A B} (m : M A) (k : A -> M B) I :
  keeps I m -> (forall a, keeps I (k a)) -> keeps I (bind m k).
Proof.
  intros Hm Hk s Hs. specialize (Hm s Hs). unfold bind. destruct (m s) as [[a|e] s']; [exact (Hk a s' Hm) | exact Hm].
Qed.

Lemma keeps_if {A} (b : bool) (m m' : M A) I : keeps I m -> keeps I m' -> keeps I (if b then m else m').
Proof. by destruct b. Qed.

Lemma keeps_after {A} (m : M A) I s : keeps I m -> I s -> I (after m s).2.
Proof. intros H Hs. specialize (H s Hs). unfold after. destruct (m s) as [[] ?]; done. Qed.

Lemma bind_Ok {A B} (m : M A) (k : A -> M B) s b s' :
  bind m k s = (Ok b, s') <-> exists a t, m s = (Ok a, t) /\ k a t = (Ok b, s').
Proof. unfold bind. destruct (m s) as [[a|e] t]; naive_solver. Qed.

End Computations.
Arguments M : clear implicits.

Notation "'do!' x ':=' m 'in' k" := (bind m (fun x => k))
  (at level 10, x name, m at level 100, k at level 200,
   format "'[v' 'do!'  x  ':='  m  'in'  '/' k ']'") : branch_scope.

#[export] Hint Resolve keeps_ret keeps_throw keeps_lift keeps_get keeps_require : branch.

(** Goes through a method, leaving the updates that the hints do not settle. *)
Ltac keep :=
  repeat first
    [ solve [eauto with branch nocore]
    | match goal with
      | |- keeps _ (bind _ _) => apply keeps_bind; [| intros ?]
      | |- keeps _ (if _ then _ else _) => apply keeps_if
      end
    | match goal with |- keeps _ (match ?x with _ => _ end) => destruct x end ].
