(* ===== verification/Base64Url.v ===== *)
(** * [protocol/v0/base64url.ts]: base64url without padding

    [btoa] and [atob] are the platform's (WHATWG Infra "forgiving-base64");
    the program's three functions are translated on top of them and proved
    equal to the sextet reference functions [sextets] and [unsextets]. *)
From S2P Require Import Prelude JsRuntime.

(** ** [btoa] and [atob] *)

Definition b64_char (v : Z) : Z :=
  if v <? 26 then 65 + v else if v <? 52 then 71 + v else if v <? 62 then v - 4
  else if v =? 62 then 43 else 47.

Definition b64_value (c : Z) : option Z :=
  if (65 <=? c) && (c <=? 90) then Some (c - 65)
  else if (97 <=? c) && (c <=? 122) then Some (c - 71)
  else if (48 <=? c) && (c <=? 57) then Some (c + 4)
  else if c =? 43 then Some 62 else if c =? 47 then Some 63 else None.

Fixpoint btoa (b : bytes) : jsstring :=
  match b with
  | [] => []
  | [x] => [b64_char (x / 4); b64_char (x mod 4 * 16); 61; 61]
  | [x; y] => [b64_char (x / 4); b64_char (x mod 4 * 16 + y / 16); b64_char (y mod 16 * 4); 61]
  | x :: y :: z :: r =>
      b64_char (x / 4) :: b64_char (x mod 4 * 16 + y / 16)
      :: b64_char (y mod 16 * 4 + z / 64) :: b64_char (z mod 64) :: btoa r
  end.

(** Six-bit values to bytes; the spare low bits of a short last group are
    discarded, as [atob] does. *)
Fixpoint unsextets (v : list Z) : bytes :=
  match v with
  | a :: b :: c :: d :: r =>
      (a * 4 + b / 16) :: (b mod 16 * 16 + c / 4) :: (c mod 4 * 64 + d) :: unsextets r
  | [a; b; c] => [a * 4 + b / 16; b mod 16 * 16 + c / 4]
  | [a; b] => [a * 4 + b / 16]
  | _ => []
  end.

Definition is_ascii_whitespace (c : Z) : bool :=
  (c =? 9) || (c =? 10) || (c =? 12) || (c =? 13) || (c =? 32).

(** Removes one or two trailing equals signs. *)
Definition strip_padding (s : jsstring) : jsstring :=
  match rev s with
  | c1 :: r1 =>
      if c1 =? 61 then
        match r1 with
        | c2 :: r2 => if c2 =? 61 then rev r2 else rev r1
        | [] => []
        end
      else s
  | [] => s
  end.

Definition atob (s : jsstring) : option bytes :=
  let d := filter (fun c => is_ascii_whitespace c = false) s in
  let d := if zlen d mod 4 =? 0 then strip_padding d else d in
  if zlen d mod 4 =? 1 then None else unsextets <$> mapM b64_value d.

(** ** The source's functions *)

Definition url_class (c : Z) : bool :=
  ((65 <=? c) && (c <=? 90)) || ((97 <=? c) && (c <=? 122)) || ((48 <=? c) && (c <=? 57))
  || (c =? 95) || (c =? 45).

(** [value.replaceAll(from, to)] for single characters. *)
Definition replace_char (from to : Z) (s : jsstring) : jsstring :=
  (fun c => if c =? from then to else c) <$> s.

(** [value.replace(/=+$/u, "")] *)
Fixpoint strip_trailing_equals (s : jsstring) : jsstring :=
  match s with
  | [] => []
  | c :: r =>
      match strip_trailing_equals r with
      | [] => if c =? 61 then [] else [c]
      | r' => c :: r'
      end
  end.

(** [value.padEnd(target, "=")] *)
Definition pad_end (target : Z) (s : jsstring) : jsstring :=
  s ++ replicate (Z.to_nat (target - zlen s)) 61.

Definition validBase64URL (value : jsstring) : bool :=
  (0 <? zlen value) && negb (zlen value mod 4 =? 1) && forallb url_class value.

Definition encodeBase64URL (b : bytes) : jsstring :=
  strip_trailing_equals (replace_char 47 95 (replace_char 43 45 (btoa b))).

Definition decodeBase64URL (value : jsstring) : result bytes :=
  if negb (validBase64URL value) then Throw (js "invalid base64url")
  else
    let padded := pad_end ((zlen value + 3) / 4 * 4)
                    (replace_char 95 47 (replace_char 45 43 value)) in
    result_of_option (js "InvalidCharacterError") (atob padded).

Definition validToken (value : jsstring) (size : Z) : bool :=
  match decodeBase64URL value with Ok b => zlen b =? size | Throw _ => false end.

(** ** Reference functions *)

Fixpoint sextets (b : bytes) : list Z :=
  match b with
  | [] => []
  | [x] => [x / 4; x mod 4 * 16]
  | [x; y] => [x / 4; x mod 4 * 16 + y / 16; y mod 16 * 4]
  | x :: y :: z :: r =>
      x / 4 :: x mod 4 * 16 + y / 16 :: y mod 16 * 4 + z / 64 :: z mod 64 :: sextets r
  end.

Definition is_sextet (v : Z) : Prop := 0 <= v < 64.

Definition url_char (v : Z) : Z :=
  if v =? 62 then 45 else if v =? 63 then 95 else b64_char v.

Definition url_value (c : Z) : Z :=
  if c =? 45 then 62 else if c =? 95 then 63 else default 0 (b64_value c).

(** Induction three bytes (or four sextets) at a time. *)
Lemma list_ind3 {A} (P : list A -> Prop) :
  P [] -> (forall x, P [x]) -> (forall x y, P [x; y]) ->
  (forall x y z l, P l -> P (x :: y :: z :: l)) -> forall l, P l.
Proof.
  intros H0 H1 H2 H3 l. enough (P l /\ (forall x, P (x :: l)) /\ forall x y, P (x :: y :: l)) by tauto.
  induction l as [|z l (IH0 & IH1 & IH2)]; auto.
Qed.

Lemma url_char_spec v : is_sextet v -> url_class (url_char v) = true /\ url_value (url_char v) = v.
Proof.
  unfold is_sextet, url_class, url_value, url_char, b64_char, b64_value. intros Hv.
  repeat case_match; bool_props; simpl; lia.
Qed.

Lemma url_char_btoa v :
  is_sextet v ->
  (if (if b64_char v =? 43 then 45 else b64_char v) =? 47 then 95
   else if b64_char v =? 43 then 45 else b64_char v) = url_char v /\ url_char v <> 61.
Proof. unfold is_sextet, url_char, b64_char. intros. repeat case_match; bool_props; lia. Qed.

Lemma url_class_value c :
  url_class c = true ->
  let c' := if (if c =? 45 then 43 else c) =? 95 then 47 else if c =? 45 then 43 else c in
  b64_value c' = Some (url_value c) /\ is_ascii_whitespace c' = false /\ c' <> 61
  /\ is_sextet (url_value c).
Proof.
  unfold url_class, url_value, b64_value, is_ascii_whitespace, is_sextet. intros.
  repeat case_match; bool_props; simpl; try done; try (repeat split; try f_equal; lia).
Qed.

Lemma sextets_ok b : bytes_ok b -> Forall is_sextet (sextets b).
Proof.
  unfold bytes_ok. induction b as [|x|x y|x y z r IH] using list_ind3; intros Hb; simpl;
    rewrite ?Forall_cons in Hb; unfold is_byte, is_sextet in *; repeat constructor;
    try zdiv_lia. apply IH. tauto.
Qed.

Lemma unsextets_sextets b : bytes_ok b -> unsextets (sextets b) = b.
Proof.
  unfold bytes_ok. induction b as [|x|x y|x y z r IH] using list_ind3; intros Hb; simpl;
    rewrite ?Forall_cons in Hb; unfold is_byte in *; [done | ..].
  1-2: repeat f_equal; zdiv_lia.
  rewrite IH by tauto. repeat f_equal; zdiv_lia.
Qed.

(** ** The source's functions against the reference *)

Lemma strip_trailing_equals_cons c r :
  c <> 61 -> strip_trailing_equals (c :: r) = c :: strip_trailing_equals r.
Proof.
  intros Hc. simpl. destruct (strip_trailing_equals r); [|done].
  by destruct (Z.eqb_spec c 61).
Qed.

(** One [btoa] character through both replacements and the padding strip. *)
Lemma encode_step v r :
  is_sextet v ->
  strip_trailing_equals (replace_char 47 95 (replace_char 43 45 (b64_char v :: r))) =
  url_char v :: strip_trailing_equals (replace_char 47 95 (replace_char 43 45 r)).
Proof.
  intros Hv. destruct (url_char_btoa v Hv) as [E Hne]. unfold replace_char.
  cbn [fmap list_fmap]. by rewrite E, strip_trailing_equals_cons.
Qed.

Lemma encodeBase64URL_sextets b : bytes_ok b -> encodeBase64URL b = url_char <$> sextets b.
Proof.
  unfold encodeBase64URL, bytes_ok.
  induction b as [|x|x y|x y z r IH] using list_ind3; intros Hb; rewrite ?Forall_cons in Hb;
    unfold is_byte in *; destruct_and?; [done | ..]; cbn [btoa fmap list_fmap sextets].
  all: rewrite !encode_step by (unfold is_sextet; zdiv_lia); try done.
  by rewrite IH.
Qed.

Lemma mapM_url_values s :
  Forall (fun c => url_class c = true) s ->
  mapM b64_value (replace_char 95 47 (replace_char 45 43 s)) = Some (url_value <$> s).
Proof.
  induction 1 as [|c s Hc _ IH]; [done |].
  unfold replace_char in *. cbn [fmap list_fmap mapM].
  destruct (url_class_value c Hc) as (Hv & _). cbv zeta in Hv. rewrite Hv. cbn [mbind option_bind].
  by rewrite IH.
Qed.

Lemma filter_no_whitespace s :
  Forall (fun c => is_ascii_whitespace c = false) s ->
  filter (fun c => is_ascii_whitespace c = false) s = s.
Proof.
  induction 1 as [|c s Hc _ IH]; [done |]. rewrite filter_cons, decide_True by done. by rewrite IH.
Qed.

(** The padding [decodeBase64URL] adds is what [atob] removes. *)
Lemma strip_padding_pad s k :
  Forall (fun c => c <> 61) s -> (k <= 2)%nat -> strip_padding (s ++ replicate k 61) = s.
Proof.
  intros Hs Hk. unfold strip_padding. rewrite rev_app_distr.
  assert (Hh : forall c l, rev s = c :: l -> (c =? 61) = false).
  { intros c l E. apply Z.eqb_neq. eapply (proj1 (Forall_forall _ _) Hs).
    apply list_elem_of_In, in_rev. rewrite E. by left. }
  destruct (rev s) as [|c l] eqn:E; rewrite <- (rev_involutive s), E.
  - by destruct k as [|[|[|k]]]; [| | | lia].
  - specialize (Hh c l eq_refl).
    destruct k as [|[|[|k]]]; [| | | lia]; simpl; rewrite ?Hh; by rewrite ?app_nil_r.
Qed.

Lemma decodeBase64URL_unsextets s :
  validBase64URL s = true -> decodeBase64URL s = Ok (unsextets (url_value <$> s)).
Proof.
  intros Hvalid. unfold decodeBase64URL. rewrite Hvalid. cbn [negb]. cbv zeta.
  unfold validBase64URL in Hvalid. bool_props.
  assert (Hcls : Forall (fun c => url_class c = true) s).
  { apply Forall_forall. intros c Hc%list_elem_of_In. by eapply forallb_forall in Hc. }
  set (t := replace_char 95 47 (replace_char 45 43 s)).
  assert (Hlen : zlen t = zlen s) by (unfold t, replace_char, zlen; by rewrite !length_fmap).
  assert (Ht : Forall (fun c => is_ascii_whitespace c = false /\ c <> 61) t).
  { unfold t, replace_char. rewrite !Forall_fmap. eapply Forall_impl; [exact Hcls |].
    intros c Hc. simpl. destruct (url_class_value c Hc) as (_ & ? & ? & _). done. }
  unfold pad_end, atob.
  rewrite filter_no_whitespace.
  2: { apply Forall_app. split; [eapply Forall_impl; [exact Ht | naive_solver] | by apply Forall_replicate]. }
  rewrite Hlen. set (k := Z.to_nat _).
  assert (Hk : Z.of_nat k = (zlen s + 3) / 4 * 4 - zlen s) by (unfold k; zdiv_lia).
  assert (Hz : zlen (t ++ replicate k 61) mod 4 = 0).
  { rewrite zlen_app, Hlen. unfold zlen at 2. rewrite length_replicate, Hk. zdiv_lia. }
  rewrite Hz. cbn [Z.eqb]. rewrite strip_padding_pad.
  2: { eapply Forall_impl; [exact Ht | naive_solver]. }
  2: { assert (Z.of_nat k <= 2) by (rewrite Hk; zdiv_lia). lia. }
  rewrite Hlen. replace (zlen s mod 4 =? 1) with false by lia.
  unfold t. by rewrite mapM_url_values.
Qed.

Lemma unsextets_length v :
  zlen v mod 4 <> 1 -> zlen (unsextets v) = zlen v * 3 / 4.
Proof.
  remember (length v) as n eqn:Hn. revert v Hn.
  induction n as [n IH] using lt_wf_ind. intros v Hn Hm.
  destruct v as [|a [|b [|c [|d r]]]]; try done.
  cbn [unsextets]. autorewrite with zlen in *. rewrite (IH (length r)); [zdiv_lia | | done |].
  - simpl in *. lia.
  - zdiv_lia.
Qed.

Lemma unsextets_ok v : Forall is_sextet v -> bytes_ok (unsextets v).
Proof.
  remember (length v) as n eqn:Hn. revert v Hn.
  induction n as [n IH] using lt_wf_ind. intros v Hn Hv.
  destruct v as [|a [|b [|c [|d r]]]]; simpl; rewrite ?Forall_cons in Hv; unfold is_sextet in *;
    repeat constructor; unfold is_byte in *; try zdiv_lia.
  apply (IH (length r)); [simpl in *; lia | done | tauto].
Qed.

Lemma sextets_length b : zlen (sextets b) mod 4 <> 1.
Proof.
  unfold zlen. induction b as [|x|x y|x y z r IH] using list_ind3; simpl; [done.. |].
  rewrite !Nat2Z.inj_succ. zdiv_lia.
Qed.

Lemma encodeBase64URL_valid b : bytes_ok b -> b <> [] -> validBase64URL (encodeBase64URL b) = true.
Proof.
  intros Hb Hne. rewrite encodeBase64URL_sextets by done.
  assert (Hs := sextets_ok b Hb). unfold validBase64URL.
  assert (0 < zlen (sextets b)) by (destruct b as [|? [|? [|? ?]]]; unfold zlen; simpl; done || lia).
  pose proof (sextets_length b).
  unfold zlen in *. rewrite length_fmap.
  apply andb_true_intro. split; [apply andb_true_intro; split; lia |].
  apply forallb_forall. intros c Hc%list_elem_of_In. apply list_elem_of_fmap in Hc as (v & -> & Hv).
  rewrite Forall_forall in Hs. by apply url_char_spec, Hs.
Qed.

Lemma decode_encodeBase64URL b :
  bytes_ok b -> b <> [] -> decodeBase64URL (encodeBase64URL b) = Ok b.
Proof.
  intros Hb Hne. rewrite decodeBase64URL_unsextets by by apply encodeBase64URL_valid.
  rewrite encodeBase64URL_sextets by done. f_equal. rewrite <- list_fmap_compose.
  rewrite <- (unsextets_sextets b) at 2 by done. f_equal.
  rewrite <- (list_fmap_id (sextets b)) at 2. apply list_fmap_ext. intros i v Hv. simpl.
  eapply url_char_spec, Forall_lookup_1; [by apply sextets_ok | done].
Qed.

Lemma decodeBase64URL_ok s b :
  decodeBase64URL s = Ok b ->
  validBase64URL s = true /\ bytes_ok b /\ zlen b = zlen s * 3 / 4.
Proof.
  intros H. destruct (validBase64URL s) eqn:Hv; [| unfold decodeBase64URL in H; by rewrite Hv in H].
  rewrite decodeBase64URL_unsextets in H by done. simplify_eq.
  unfold validBase64URL in Hv. bool_props. split; [done |]. split.
  - apply unsextets_ok, Forall_fmap, Forall_forall. intros c Hc%list_elem_of_In.
    eapply url_class_value. by eapply forallb_forall in Hc.
  - rewrite unsextets_length; unfold zlen in *; by rewrite length_fmap.
Qed.

Lemma decodeBase64URL_fails s :
  validBase64URL s = false -> decodeBase64URL s = Throw (js "invalid base64url").
Proof. unfold decodeBase64URL. by intros ->. Qed.

Lemma encodeBase64URL_inj a b :
  bytes_ok a -> bytes_ok b -> encodeBase64URL a = encodeBase64URL b -> a = b.
Proof.
  intros Ha Hb E. rewrite !encodeBase64URL_sextets in E by done.
  rewrite <- (unsextets_sextets a), <- (unsextets_sextets b) by done. f_equal.
  apply (f_equal (fmap url_value)) in E. rewrite <- !list_fmap_compose in E.
  assert (Hid : forall v, Forall is_sextet v -> (url_value ∘ url_char) <$> v = v).
  { induction 1 as [|x v Hx _ IH]; [done |]. cbn. rewrite IH. f_equal. by apply url_char_spec. }
  by rewrite !Hid in E by (by apply sextets_ok).
Qed.

(** Every byte string of at least one byte has a valid base64url text, and
    decoding it gives the bytes back. *)
Theorem encode_decode_base64url b (Hb : bytes_ok b) (Hne : b <> []) :
  validBase64URL (encodeBase64URL b) = true
  /\ decodeBase64URL (encodeBase64URL b) = Ok b.
Proof. split; [by apply encodeBase64URL_valid | by apply decode_encodeBase64URL]. Qed.

Lemma encode_decode_base64url_witness :
  validBase64URL (encodeBase64URL [0; 255; 62; 63; 251]) = true
  /\ decodeBase64URL (encodeBase64URL [0; 255; 62; 63; 251]) = Ok [0; 255; 62; 63; 251].
Proof.
  apply encode_decode_base64url; [| discriminate].
  apply (bool_decide_eq_true_1 (bytes_ok [0; 255; 62; 63; 251])). vm_compute. reflexivity.
Defined.

(** decoding either fails with the one error of the function, exactly on
    the invalid texts, or gives the bytes of the sextets, three for every four
    characters rounded down; texts of two or three characters modulo four
    that differ only in the spare low bits decode to the same bytes. *)
Theorem decodeBase64URL_spec s :
  decodeBase64URL s =
    (if validBase64URL s then Ok (unsextets (url_value <$> s)) else Throw (js "invalid base64url"))
  /\ (validBase64URL s = true ->
      bytes_ok (unsextets (url_value <$> s))
      /\ zlen (unsextets (url_value <$> s)) = zlen s * 3 / 4)
  /\ decodeBase64URL (js "AA") = decodeBase64URL (js "AP").
Proof.
  split; [| split; [| vm_compute; reflexivity]].
  - destruct (validBase64URL s) eqn:E; [by apply decodeBase64URL_unsextets | by apply decodeBase64URL_fails].
  - intros Hv. by apply (decodeBase64URL_ok s), decodeBase64URL_unsextets.
Qed.
