(* ===== verification/Cbor.v ===== *)
(** * [protocol/v0/cbor.ts]: deterministic CBOR

    The value type, the encoder, the typed readers every record decoder uses,
    and the decoder.  [CborDecoder] holds the bytes and an offset; here its
    state is the list of the bytes from that offset on, so [this.offset + length
    > this.bytes.byteLength] is [zlen rest < length] and the slice between two
    offsets is the difference of two suffixes. *)
From S2P Require Import Prelude JsRuntime Collections.
#[local] Set Warnings "-register-all".

Definition maxCborCollectionEntries : Z := 64.
Definition maxCborTextBytes : Z := 1024.
Definition maxCborBytes : Z := 48 * 1024.

Inductive CborValue : Type :=
| CBool (b : bool)
| CNum (n : number)
| CText (s : jsstring)
| CBytes (b : bytes)
| CArray (vs : list CborValue)
| CMap (entries : list (jsstring * CborValue)).

Abbreviation CborMap := (list (jsstring * CborValue)).

(** ** Bytes *)

Fixpoint sameBytes (left right : bytes) : bool :=
  match left, right with
  | [], [] => true
  | x :: l, y :: r => (x =? y) && sameBytes l r
  | _, _ => false
  end.

Fixpoint compareBytes (left right : bytes) : Z :=
  match left, right with
  | x :: l, y :: r => let difference := x - y in
                      if difference =? 0 then compareBytes l r else difference
  | _, _ => zlen left - zlen right
  end.

(** ** Encoder *)

(** The loop that fills [bytes[8]] down to [bytes[1]] from a BigInt. *)
Fixpoint fill_bytes (index : nat) (remaining : Z) (filled : bytes) : bytes :=
  match index with
  | O => filled
  | S index => fill_bytes index (Z.shiftr remaining 8) (Z.land remaining 0xff :: filled)
  end.

Definition encodeHeader (major value : Z) : bytes :=
  if value <? 24 then [js_or (js_shl major 5) value]
  else if value <=? 0xff then [js_or (js_shl major 5) 24; value]
  else if value <=? 0xffff then
    [js_or (js_shl major 5) 25; js_shr value 8; js_and value 0xff]
  else if value <=? 0xffffffff then
    [js_or (js_shl major 5) 26; js_ushr value 24; js_and (js_ushr value 16) 0xff;
     js_and (js_ushr value 8) 0xff; js_and value 0xff]
  else js_or (js_shl major 5) 27 :: fill_bytes 8 value [].

Definition encodeBytes (major : Z) (b : bytes) : bytes :=
  encodeHeader major (zlen b) ++ b.

Definition encodeUnsigned (value : number) : result bytes :=
  match value with
  | Int z => if negb (is_safe z) || (z <? 0) then Throw (js "invalid_unsigned")
             else Ok (encodeHeader 0 z)
  | NonInt => Throw (js "invalid_unsigned")
  end.

Section EncodeMap.
Context (encodeDeterministicCbor : CborValue -> result bytes).

(** The body of [map.entries.map], with the [seen] set. *)
Fixpoint encode_entries (seen : list jsstring) (entries : CborMap)
  : result (list (bytes * bytes)) :=
  match entries with
  | [] => Ok []
  | (key, value) :: entries =>
      if bool_decide (key ∈ seen) then Throw (js "duplicate_" ++ key)
      else
        let? encoded := encodeDeterministicCbor value in
        let? rest := encode_entries (key :: seen) entries in
        Ok ((encodeBytes 3 (utf8_encode key), encoded) :: rest)
  end.

Definition encodeMap (entries : CborMap) : result bytes :=
  if maxCborCollectionEntries <? zlen entries then Throw (js "too_many_map_entries")
  else
    let? encoded := encode_entries [] entries in
    let sorted := sort_by (fun left right => compareBytes left.1 right.1) encoded in
    Ok (encodeHeader 5 (zlen encoded) ++ concat ((fun e => e.1 ++ e.2) <$> sorted)).
End EncodeMap.

Fixpoint encodeDeterministicCbor (value : CborValue) : result bytes :=
  match value with
  | CBool b => Ok [if b then 0xf5 else 0xf4]
  | CNum n => encodeUnsigned n
  | CText s => Ok (encodeBytes 3 (utf8_encode s))
  | CBytes b => Ok (encodeBytes 2 b)
  | CArray vs =>
      let? encoded := map_result encodeDeterministicCbor vs in
      Ok (encodeHeader 4 (zlen vs) ++ concat encoded)
  | CMap entries => encodeMap encodeDeterministicCbor entries
  end.

(** ** Typed readers *)

Definition readCborMap (value : CborValue) (label : jsstring) : result CborMap :=
  match value with CMap entries => Ok entries | _ => Throw (js "missing_" ++ label) end.

(** [map.entries.find((candidate) => candidate.key === key)] *)
Definition find_entry (map : CborMap) (key : jsstring) : option CborValue := map_get map key.

Definition getRequiredEntry (map : CborMap) (key : jsstring) : result CborValue :=
  result_of_option (js "missing_" ++ key) (find_entry map key).

Definition hasEntry (map : CborMap) (key : jsstring) : bool := map_has map key.

Definition rejectUnknownEntries (map : CborMap) (keys : list jsstring) : result unit :=
  each_result (fun entry =>
    if bool_decide (entry.1 ∈ keys) then Ok tt else Throw (js "unknown_" ++ entry.1)) map.

Definition readText (value : CborValue) (key : jsstring) : result jsstring :=
  match value with
  | CText s =>
      if (zlen s =? 0) || (maxCborTextBytes <? zlen (utf8_encode s))
      then Throw (js "invalid_" ++ key) else Ok s
  | _ => Throw (js "invalid_" ++ key)
  end.

Definition readUint (value : CborValue) (key : jsstring) : result Z :=
  match value with
  | CNum (Int z) => if negb (is_safe z) || (z <? 0) then Throw (js "invalid_" ++ key) else Ok z
  | _ => Throw (js "invalid_" ++ key)
  end.

Definition readBoolean (value : CborValue) (key : jsstring) : result bool :=
  match value with CBool b => Ok b | _ => Throw (js "invalid_" ++ key) end.

(** [size] is the optional third argument. *)
Definition readBytes (value : CborValue) (key : jsstring) (size : option Z) : result bytes :=
  match value with
  | CBytes b =>
      if (zlen b =? 0) || (maxCborBytes <? zlen b) then Throw (js "invalid_" ++ key)
      else match size with
           | Some size => if zlen b =? size then Ok b else Throw (js "invalid_" ++ key)
           | None => Ok b
           end
  | _ => Throw (js "invalid_" ++ key)
  end.

Definition readTextArray (value : CborValue) (key : jsstring) (maxItems : Z)
  : result (list jsstring) :=
  match value with
  | CArray vs =>
      if (zlen vs =? 0) || (maxItems <? zlen vs) then Throw (js "invalid_" ++ key)
      else map_result (fun entry => readText entry key) vs
  | _ => Throw (js "invalid_" ++ key)
  end.

(** ** Decoder *)

Definition readByte (rest : bytes) : result (Z * bytes) :=
  match rest with
  | [] => Throw (js "truncated_cbor")
  | value :: rest => Ok (value, rest)
  end.

(** [for (let index = 0; index < 8; index += 1) value = (value << 8n) | byte] *)
Fixpoint read_bigint (count : nat) (value : Z) (rest : bytes) : result (Z * bytes) :=
  match count with
  | O => Ok (value, rest)
  | S count =>
      let? '(b, rest) := readByte rest in
      read_bigint count (Z.lor (Z.shiftl value 8) b) rest
  end.

Definition readArgument (additional : Z) (rest : bytes) : result (Z * bytes) :=
  if additional <? 24 then Ok (additional, rest)
  else if additional =? 24 then
    let? '(value, rest) := readByte rest in
    if value <? 24 then Throw (js "non_canonical_cbor") else Ok (value, rest)
  else if additional =? 25 then
    let? '(b1, rest) := readByte rest in
    let? '(b2, rest) := readByte rest in
    let value := js_or (js_shl b1 8) b2 in
    if value <=? 0xff then Throw (js "non_canonical_cbor") else Ok (value, rest)
  else if additional =? 26 then
    let? '(b1, rest) := readByte rest in
    let? '(b2, rest) := readByte rest in
    let? '(b3, rest) := readByte rest in
    let? '(b4, rest) := readByte rest in
    let value := b1 * 0x1000000 + js_or (js_or (js_shl b2 16) (js_shl b3 8)) b4 in
    if value <=? 0xffff then Throw (js "non_canonical_cbor") else Ok (value, rest)
  else if additional =? 27 then
    let? '(value, rest) := read_bigint 8 0 rest in
    if (value <=? 0xffffffff) || (MAX_SAFE_INTEGER <? value)
    then Throw (js "non_canonical_cbor") else Ok (value, rest)
  else Throw (js "unsupported_cbor_argument").

Definition readByteString (length : Z) (rest : bytes) : result (bytes * bytes) :=
  if (maxCborBytes <? length) || (zlen rest <? length) then Throw (js "invalid_cbor_bytes")
  else Ok (take (Z.to_nat length) rest, drop (Z.to_nat length) rest).

Definition readTextString (length : Z) (rest : bytes) : result (jsstring * bytes) :=
  if (maxCborTextBytes <? length) || (zlen rest <? length) then Throw (js "invalid_cbor_text")
  else
    match utf8_decode (take (Z.to_nat length) rest) with
    | Some s => Ok (s, drop (Z.to_nat length) rest)
    | None => Throw (js "invalid_cbor_text")
    end.

(** Not a message of the source: the fuel of [readValue] has run out.  With the
    fuel [decodeDeterministicCbor] supplies this never happens
    ([readValue_fuel]). *)
Definition out_of_fuel : jsstring := js "out of fuel".

Section ReadCollections.
Context (readValue : bytes -> result (CborValue * bytes)).

Fixpoint read_items (count : nat) (rest : bytes) : result (list CborValue * bytes) :=
  match count with
  | O => Ok ([], rest)
  | S count =>
      let? '(value, rest) := readValue rest in
      let? '(values, rest) := read_items count rest in
      Ok (value :: values, rest)
  end.

Definition readArray (length : Z) (rest : bytes) : result (list CborValue * bytes) :=
  if maxCborCollectionEntries <? length then Throw (js "too_many_array_entries")
  else read_items (Z.to_nat length) rest.

Fixpoint read_entries (count : nat) (seen : list jsstring) (previousKey : option bytes)
    (rest : bytes) : result (CborMap * bytes) :=
  match count with
  | O => Ok ([], rest)
  | S count =>
      let? '(key, after_key) := readValue rest in
      match key with
      | CText key =>
          let encodedKey := take (length rest - length after_key) rest in
          if match previousKey with
             | Some previous => 0 <=? compareBytes previous encodedKey
             | None => false
             end
          then Throw (js "non_canonical_cbor")
          else if bool_decide (key ∈ seen) then Throw (js "duplicate_" ++ key)
          else
            let? '(value, rest) := readValue after_key in
            let? '(entries, rest) := read_entries count (key :: seen) (Some encodedKey) rest in
            Ok ((key, value) :: entries, rest)
      | _ => Throw (js "non_text_map_key")
      end
  end.

Definition readMap (length : Z) (rest : bytes) : result (CborMap * bytes) :=
  if maxCborCollectionEntries <? length then Throw (js "too_many_map_entries")
  else read_entries (Z.to_nat length) [] None rest.
End ReadCollections.

Fixpoint readValue (fuel : nat) (rest : bytes) : result (CborValue * bytes) :=
  match fuel with
  | O => Throw out_of_fuel
  | S fuel =>
      let? '(initial, rest) := readByte rest in
      let major := js_shr initial 5 in
      let additional := js_and initial 0x1f in
      if major =? 7 then
        if additional =? 20 then Ok (CBool false, rest)
        else if additional =? 21 then Ok (CBool true, rest)
        else Throw (js "unsupported_cbor_type")
      else
        let? '(argument, rest) := readArgument additional rest in
        match major with
        | 0 => Ok (CNum (Int argument), rest)
        | 2 => let? '(b, rest) := readByteString argument rest in Ok (CBytes b, rest)
        | 3 => let? '(s, rest) := readTextString argument rest in Ok (CText s, rest)
        | 4 => let? '(vs, rest) := readArray (readValue fuel) argument rest in Ok (CArray vs, rest)
        | 5 => let? '(es, rest) := readMap (readValue fuel) argument rest in Ok (CMap es, rest)
        | _ => Throw (js "unsupported_cbor_type")
        end
  end.

(** One unit of fuel per level of nesting, and every level consumes a byte. *)
Definition decodeDeterministicCbor (b : bytes) (maxBytes : Z) : result CborValue :=
  if (zlen b =? 0) || (maxBytes <? zlen b) then Throw (js "invalid_cbor_size")
  else
    let? '(value, rest) := readValue (S (length b)) b in
    match rest with
    | _ :: _ => Throw (js "trailing_cbor")
    | [] =>
        let? encoded := encodeDeterministicCbor value in
        if sameBytes encoded b then Ok value else Throw (js "non_canonical_cbor")
    end.
