(* ===== verification/CborFacts.v ===== *)
(** * Deterministic CBOR: round trip, canonicity, bounds and termination

    Facts about [Cbor]; the records of the other files are encoded and decoded
    through [decode_encode_map]. *)
From Stdlib Require Import Sorting.Sorted.
From S2P Require Import Prelude JsRuntime Collections Cbor.

(** ** Induction over the nested value type *)

Section NestedInduction.
Context (P : CborValue -> Prop).
Context (HBool : forall b, P (CBool b)) (HNum : forall n, P (CNum n))
  (HText : forall s, P (CText s)) (HBytes : forall b, P (CBytes b))
  (HArray : forall vs, Forall P vs -> P (CArray vs))
  (HMap : forall es, Forall (fun e => P e.2) es -> P (CMap es)).

Fixpoint CborValue_nested_ind (v : CborValue) : P v :=
  match v with
  | CBool b => HBool b
  | CNum n => HNum n
  | CText s => HText s
  | CBytes b => HBytes b
  | CArray vs =>
      HArray vs ((fix go vs : Forall P vs :=
        match vs with
        | [] => Forall_nil_2 _
        | v :: vs => Forall_cons_2 _ _ _ (CborValue_nested_ind v) (go vs)
        end) vs)
  | CMap es =>
      HMap es ((fix go es : Forall (fun e => P e.2) es :=
        match es with
        | [] => Forall_nil_2 _
        | (k, v) :: es => Forall_cons_2 _ (k, v) _ (CborValue_nested_ind v) (go es)
        end) es)
  end.
End NestedInduction.

(** ** [sameBytes] and [compareBytes] *)

Lemma sameBytes_true l r : sameBytes l r = true <-> l = r.
Proof.
  revert r. induction l as [|x l IH]; intros [|y r]; simpl; try done.
  rewrite andb_true_iff, IH, Z.eqb_eq. naive_solver.
Qed.

Lemma compareBytes_refl l : compareBytes l l = 0.
Proof. induction l as [|x l IH]; simpl; [done |]. by rewrite Z.sub_diag. Qed.

Lemma compareBytes_cons x y l r :
  compareBytes (x :: l) (y :: r) = if x - y =? 0 then compareBytes l r else x - y.
Proof. done. Qed.

Lemma compareBytes_nil_l r : compareBytes [] r = - zlen r.
Proof. simpl. unfold zlen. simpl. lia. Qed.

Lemma compareBytes_nil_r l : compareBytes l [] = zlen l.
Proof. destruct l; simpl; unfold zlen; simpl; lia. Qed.

Lemma compareBytes_eq l r : compareBytes l r = 0 -> l = r.
Proof.
  revert r. induction l as [|x l IH]; intros [|y r]; try (unfold zlen; simpl; lia || done).
  rewrite compareBytes_cons. destruct (Z.eqb_spec (x - y) 0); [|lia].
  intros. f_equal; [lia | auto].
Qed.

Lemma compareBytes_anti l r : compareBytes r l <= 0 <-> 0 <= compareBytes l r.
Proof.
  revert r. induction l as [|x l IH]; intros [|y r]; try (unfold zlen; simpl; lia).
  rewrite !compareBytes_cons. destruct (Z.eqb_spec (x - y) 0), (Z.eqb_spec (y - x) 0); lia || auto.
Qed.

Lemma compareBytes_total l r : compareBytes l r <= 0 \/ compareBytes r l <= 0.
Proof. rewrite (compareBytes_anti l r). lia. Qed.

Lemma compareBytes_trans a b c :
  compareBytes a b <= 0 -> compareBytes b c <= 0 -> compareBytes a c <= 0.
Proof.
  revert b c. induction a as [|x a IH]; intros [|y b] [|z c];
    rewrite ?compareBytes_cons, ?compareBytes_nil_l, ?compareBytes_nil_r; intros; try zlen_lia.
  destruct (Z.eqb_spec (x - y) 0), (Z.eqb_spec (y - z) 0), (Z.eqb_spec (x - z) 0);
    try lia. by eapply IH.
Qed.

(** ** Headers *)

Lemma fill_bytes_app n v filled rest acc :
  0 <= v ->
  read_bigint n acc (fill_bytes n v filled ++ rest) =
  Ok (acc * 256 ^ Z.of_nat n + v mod 256 ^ Z.of_nat n, filled ++ rest).
Proof.
  assert (Hsnoc : forall n acc r v r', read_bigint n acc r = Ok (v, r') ->
    read_bigint (S n) acc r = let? '(b, r'') := readByte r' in Ok (Z.lor (Z.shiftl v 8) b, r'')).
  { clear. induction n as [|n IH]; intros acc r v r' H.
    - simpl in *. by simplify_eq.
    - simpl in H. destruct (readByte r) as [[b r1]|] eqn:E; [|done].
      change (read_bigint (S (S n)) acc r) with
        (let? '(b, r1) := readByte r in read_bigint (S n) (Z.lor (Z.shiftl acc 8) b) r1).
      rewrite E. by apply IH. }
  intros Hv. revert v filled Hv. induction n as [|n IH]; intros v filled Hv.
  - simpl. f_equal. f_equal. rewrite Z.mod_1_r. lia.
  - cbn [fill_bytes]. rewrite Z.shiftr_div_pow2 by lia. change (2 ^ 8) with 256.
    change 0xff with (Z.ones 8). rewrite Z.land_ones by lia. change (2 ^ 8) with 256.
    erewrite Hsnoc by (apply IH; zdiv_lia). cbn [app readByte].
    rewrite Z.shiftl_mul_pow2, lor_disjoint by (lia || zdiv_lia). change (2 ^ 8) with 256.
    do 2 f_equal. rewrite Nat2Z.inj_succ, Z.pow_succ_r by lia.
    assert (0 < 256 ^ Z.of_nat n) by lia. set (p := 256 ^ Z.of_nat n) in *.
    rewrite (Z.rem_mul_r v 256 p) by lia. nia.
Qed.

Lemma initial_byte major a :
  0 <= major < 7 -> 0 <= a < 32 ->
  let initial := js_or (js_shl major 5) a in
  js_shr initial 5 = major /\ js_and initial 0x1f = a /\ is_byte initial.
Proof.
  intros Hm Ha. cbv zeta. rewrite js_shl_mul by lia. rewrite js_or_disjoint by lia.
  change (2 ^ 5) with 32. rewrite js_shr_div, js_and_31 by lia. change (2 ^ 5) with 32.
  unfold is_byte. repeat split; zdiv_lia.
Qed.

(** Every header reads back: the initial byte carries the major type, the
    rest the argument, in the shortest of the five forms. *)
Lemma encodeHeader_read major v rest :
  0 <= major < 7 -> 0 <= v <= MAX_SAFE_INTEGER ->
  exists initial tail,
    encodeHeader major v = initial :: tail /\ js_shr initial 5 = major
    /\ readArgument (js_and initial 0x1f) (tail ++ rest) = Ok (v, rest).
Proof.
  unfold MAX_SAFE_INTEGER. intros Hm Hv. unfold encodeHeader.
  assert (Hi := fun a => initial_byte major a Hm). cbv zeta in Hi.
  repeat case_match; bool_props; eexists _, _; split; try reflexivity.
  - destruct (Hi v) as (? & -> & _); [lia |]. split; [done |]. unfold readArgument.
    by test (v <? 24) true.
  - destruct (Hi 24) as (? & -> & _); [lia |]. split; [done |]. unfold readArgument. simpl.
    by test (v <? 24) false.
  - destruct (Hi 25) as (? & -> & _); [lia |]. split; [done |].
    rewrite js_and_255, js_shr_div by lia. unfold readArgument. cbn -[js_or js_shl].
    rewrite js_shl_mul, js_or_disjoint by zdiv_lia.
    replace (_ + _) with v by zdiv_lia. by test (v <=? 255) false.
  - destruct (Hi 26) as (? & -> & _); [lia |]. split; [done |].
    rewrite !js_and_255, !js_ushr_div by lia. unfold readArgument. cbn -[js_or js_shl Z.mul].
    rewrite js_be24 by zdiv_lia. replace (_ + _) with v by zdiv_lia.
    by test (v <=? 65535) false.
  - destruct (Hi 27) as (? & -> & _); [lia |]. split; [done |].
    unfold readArgument. cbn -[read_bigint fill_bytes].
    rewrite fill_bytes_app by lia. rewrite Z.mod_small by (simpl; lia).
    replace (_ + _) with v by lia. unfold MAX_SAFE_INTEGER.
    by test ((v <=? 4294967295) || (9007199254740991 <? v)) false.
Qed.

(** ** Progress and termination of the decoder

    A reader that succeeds consumes at least one byte; with more fuel than
    bytes the fuel never runs out. *)

Definition consumes {A} (rd : bytes -> result (A * bytes)) : Prop :=
  forall r v r', rd r = Ok (v, r') -> (length r' < length r)%nat.

Definition keeps {A} (rd : bytes -> result (A * bytes)) : Prop :=
  forall r v r', rd r = Ok (v, r') -> (length r' <= length r)%nat.

Lemma readByte_consumes : consumes readByte.
Proof. intros [|b r] v r' H; simpl in *; simplify_eq. lia. Qed.

Lemma read_bigint_keeps n acc : keeps (read_bigint n acc).
Proof.
  revert acc. induction n as [|n IH]; intros acc r v r' H; simpl in H; [by simplify_eq |].
  repeat case_match; simplify_eq. apply IH in H. apply readByte_consumes in H0. lia.
Qed.

Lemma readArgument_keeps a : keeps (readArgument a).
Proof.
  intros r v r' H. unfold readArgument in H. repeat case_match; simplify_eq;
    repeat match goal with
    | H : readByte _ = Ok _ |- _ => apply readByte_consumes in H
    | H : read_bigint _ _ _ = Ok _ |- _ => apply read_bigint_keeps in H
    end; lia.
Qed.

Lemma readByteString_keeps n : keeps (readByteString n).
Proof. intros r v r' H. unfold readByteString in H. split_matches. rewrite length_drop. lia. Qed.

Lemma readTextString_keeps n : keeps (readTextString n).
Proof. intros r v r' H. unfold readTextString in H. split_matches. rewrite length_drop. lia. Qed.

Section Collections.
Context (rd : bytes -> result (CborValue * bytes)) (Hrd : consumes rd).

Lemma read_items_keeps n : keeps (read_items rd n).
Proof.
  induction n as [|n IH]; intros r v r' H; simpl in H; [by simplify_eq |].
  repeat case_match; simplify_eq.
  repeat match goal with
  | H : rd _ = Ok _ |- _ => apply Hrd in H
  | H : read_items _ _ _ = Ok _ |- _ => apply IH in H
  end; simpl in *; lia.
Qed.

Lemma read_entries_keeps n seen prev : keeps (read_entries rd n seen prev).
Proof.
  revert seen prev. induction n as [|n IH]; intros seen prev r v r' H; simpl in H; [by simplify_eq |].
  repeat case_match; simplify_eq;
    repeat match goal with
    | H : rd _ = Ok _ |- _ => apply Hrd in H
    | H : read_entries _ _ _ _ _ = Ok _ |- _ => apply IH in H
    end; lia.
Qed.
End Collections.

Lemma readValue_consumes fuel : consumes (readValue fuel).
Proof.
  induction fuel as [|fuel IH]; intros r v r' H; [done |].
  cbn [readValue] in H. destruct (readByte r) as [[initial r1]|] eqn:E; [|done].
  apply readByte_consumes in E. cbv zeta in H.
  case_match; [split_matches; lia |].
  destruct (readArgument _ r1) as [[arg r2]|] eqn:Ea; [|done]. apply readArgument_keeps in Ea.
  repeat case_match; simplify_eq;
    repeat match goal with
    | H : readByteString _ _ = Ok _ |- _ => apply readByteString_keeps in H
    | H : readTextString _ _ = Ok _ |- _ => apply readTextString_keeps in H
    | H : readArray _ _ _ = Ok _ |- _ => unfold readArray in H
    | H : readMap _ _ _ = Ok _ |- _ => unfold readMap in H
    | H : (if _ then _ else _) = Ok _ |- _ => case_match; [done |]
    | H : read_items _ _ _ = Ok _ |- _ => apply read_items_keeps in H; [|done]
    | H : read_entries _ _ _ _ _ = Ok _ |- _ => apply read_entries_keeps in H; [|done]
    end; lia.
Qed.

(** Closes a goal whose hypothesis equates a message of the source with
    [out_of_fuel]. *)
Ltac not_fuel :=
  match goal with H : Throw _ = Throw out_of_fuel |- _ => vm_compute in H; discriminate H end.

Lemma readByte_not_fuel r : readByte r <> Throw out_of_fuel.
Proof. destruct r; intros H; simpl in H; [not_fuel | done]. Qed.

Lemma read_bigint_not_fuel n acc r : read_bigint n acc r <> Throw out_of_fuel.
Proof.
  revert acc r. induction n as [|n IH]; intros acc r H; simpl in H; [done |].
  repeat case_match; simplify_eq; [by eapply IH | by eapply readByte_not_fuel].
Qed.

Lemma readArgument_not_fuel a r : readArgument a r <> Throw out_of_fuel.
Proof.
  intros H. unfold readArgument in H. repeat case_match; try not_fuel; simplify_eq;
    first [by eapply readByte_not_fuel | by eapply read_bigint_not_fuel].
Qed.

Section CollectionsFuel.
Context (rd : bytes -> result (CborValue * bytes)) (Hrd : consumes rd) (bound : nat).
Context (Hnf : forall r, (length r < bound)%nat -> rd r <> Throw out_of_fuel).

Lemma read_items_not_fuel n r :
  (length r < bound)%nat -> read_items rd n r <> Throw out_of_fuel.
Proof.
  revert r. induction n as [|n IH]; intros r Hr H; simpl in H; [done |].
  destruct (rd r) as [[v r1]|] eqn:E1; [apply Hrd in E1 | simplify_eq; by eapply Hnf].
  destruct (read_items rd n r1) as [[vs r2]|] eqn:E2; [done |]. simplify_eq.
  eapply IH; [| done]. lia.
Qed.

Lemma read_entries_not_fuel n seen prev r :
  (length r < bound)%nat -> read_entries rd n seen prev r <> Throw out_of_fuel.
Proof.
  revert seen prev r. induction n as [|n IH]; intros seen prev r Hr H; simpl in H; [done |].
  destruct (rd r) as [[k r1]|] eqn:E1; [apply Hrd in E1 | simplify_eq; by eapply Hnf].
  destruct k; try not_fuel. case_match; try not_fuel. case_match; try not_fuel.
  destruct (rd r1) as [[v r2]|] eqn:E2;
    [apply Hrd in E2 | simplify_eq; eapply Hnf; [|done]; lia].
  destruct (read_entries rd n _ _ r2) as [[es r3]|] eqn:E3; [done |]. simplify_eq.
  eapply IH; [| done]. lia.
Qed.
End CollectionsFuel.

Lemma readValue_fuel fuel r : (length r < fuel)%nat -> readValue fuel r <> Throw out_of_fuel.
Proof.
  revert r. induction fuel as [|fuel IH]; intros r Hr H; [lia |].
  cbn [readValue] in H.
  destruct (readByte r) as [[initial r1]|] eqn:E1;
    [apply readByte_consumes in E1 | simplify_eq; by eapply readByte_not_fuel].
  cbv zeta in H. case_match; [repeat case_match; try not_fuel; done |].
  destruct (readArgument _ r1) as [[arg r2]|] eqn:E2;
    [apply readArgument_keeps in E2 | simplify_eq; by eapply readArgument_not_fuel].
  unfold readByteString, readTextString, readArray, readMap in H.
  repeat case_match; try not_fuel; simplify_eq.
  all: repeat match goal with
    | H : (if _ then _ else _) = _ |- _ => case_match; try not_fuel; simplify_eq
    | H : match _ with Some _ => _ | None => _ end = _ |- _ => case_match; try not_fuel; simplify_eq
    end.
  all: first [ eapply read_items_not_fuel; [apply readValue_consumes | exact IH | | eassumption]; lia
             | eapply read_entries_not_fuel; [apply readValue_consumes | exact IH | | eassumption]; lia ].
Qed.

(** ** Which values round trip, and the canonical form they come back in *)

Definition encodable_text (s : jsstring) : bool :=
  plain_text s && (zlen (utf8_encode s) <=? maxCborTextBytes).

Fixpoint encodable (v : CborValue) : bool :=
  match v with
  | CBool _ => true
  | CNum (Int z) => is_safe z && (0 <=? z)
  | CNum NonInt => false
  | CText s => encodable_text s
  | CBytes b => bool_decide (bytes_ok b) && (zlen b <=? maxCborBytes)
  | CArray vs => (zlen vs <=? maxCborCollectionEntries) && forallb encodable vs
  | CMap es =>
      (zlen es <=? maxCborCollectionEntries) && bool_decide (NoDup es.*1)
      && forallb (fun e => encodable_text e.1 && encodable e.2) es
  end.

Definition encoded_key (k : jsstring) : bytes := encodeBytes 3 (utf8_encode k).

Definition key_cmp (x y : jsstring * CborValue) : Z :=
  compareBytes (encoded_key x.1) (encoded_key y.1).

(** Map entries in the order of their encoded keys, at every level. *)
Fixpoint canon (v : CborValue) : CborValue :=
  match v with
  | CArray vs => CArray (canon <$> vs)
  | CMap es => CMap (sort_by key_cmp ((fun e => (e.1, canon e.2)) <$> es))
  | _ => v
  end.

Definition enc (v : CborValue) : bytes :=
  match encodeDeterministicCbor v with Ok b => b | Throw _ => [] end.

Definition enc_entry (e : jsstring * CborValue) : bytes := encoded_key e.1 ++ enc e.2.

Lemma encode_entries_Ok seen es :
  NoDup es.*1 -> (forall k, k ∈ es.*1 -> k ∉ seen) ->
  Forall (fun e => encodeDeterministicCbor e.2 = Ok (enc e.2)) es ->
  encode_entries encodeDeterministicCbor seen es
  = Ok ((fun e => (encoded_key e.1, enc e.2)) <$> es).
Proof.
  revert seen. induction es as [|[k v] es IH]; intros seen Hnd Hseen Hall; simpl; [done |].
  apply NoDup_cons in Hnd as [Hk Hnd]. apply Forall_cons in Hall as [Hv Hall].
  rewrite bool_decide_false by (apply Hseen; simpl; left).
  simpl in Hv. rewrite Hv, IH; [done | done | set_solver | done].
Qed.

Lemma map_result_enc vs :
  Forall (fun v => encodeDeterministicCbor v = Ok (enc v)) vs ->
  map_result encodeDeterministicCbor vs = Ok (enc <$> vs).
Proof. induction 1 as [|v vs Hv _ IH]; simpl; [done |]. by rewrite Hv, IH. Qed.

Lemma encode_map_Ok es :
  zlen es <= maxCborCollectionEntries -> NoDup es.*1 ->
  Forall (fun e => encodeDeterministicCbor e.2 = Ok (enc e.2)) es ->
  encodeDeterministicCbor (CMap es)
  = Ok (encodeHeader 5 (zlen es) ++ concat (enc_entry <$> sort_by key_cmp es)).
Proof.
  intros Hlen Hnd Hall. cbn [encodeDeterministicCbor]. unfold encodeMap.
  destruct (Z.ltb_spec maxCborCollectionEntries (zlen es)); [lia |].
  rewrite encode_entries_Ok by (done || set_solver).
  rewrite sort_by_fmap. unfold zlen. rewrite length_fmap, <- list_fmap_compose. done.
Qed.

Lemma encode_total v : encodable v = true -> encodeDeterministicCbor v = Ok (enc v).
Proof.
  intros H. enough (is_ok (encodeDeterministicCbor v) = true) as E.
  { unfold enc. by destruct (encodeDeterministicCbor v). }
  assert (Hok : forall w, is_ok (encodeDeterministicCbor w) = true ->
                  encodeDeterministicCbor w = Ok (enc w)).
  { intros w. unfold enc. by destruct (encodeDeterministicCbor w). }
  induction v as [b|[z|]|s|b|vs IH|es IH] using CborValue_nested_ind; cbn [encodable] in H; try done.
  - simpl. bool_props. rewrite H. simpl. by test (z <? 0) false.
  - bool_props. cbn [encodeDeterministicCbor]. rewrite map_result_enc; [done |].
    rewrite Forall_forall in *. intros v Hv. apply Hok, IH; [done |].
    eapply forallb_forall; [eassumption | by apply list_elem_of_In].
  - bool_props. rewrite encode_map_Ok; [done | done | done |].
    rewrite Forall_forall in *. intros e He. apply Hok, IH; [done |].
    apply list_elem_of_In in He. eapply forallb_forall in H0; [|done]. bool_props. done.
Qed.

Lemma enc_array vs :
  encodable (CArray vs) = true -> enc (CArray vs) = encodeHeader 4 (zlen vs) ++ concat (enc <$> vs).
Proof.
  intros H. assert (Forall (fun v => encodeDeterministicCbor v = Ok (enc v)) vs).
  { cbn [encodable] in H. bool_props. apply Forall_forall. intros v Hv%list_elem_of_In.
    apply encode_total. by eapply forallb_forall in H0. }
  unfold enc at 1. cbn [encodeDeterministicCbor]. by rewrite map_result_enc.
Qed.

Lemma encodable_map_inv es :
  encodable (CMap es) = true ->
  zlen es <= maxCborCollectionEntries /\ NoDup es.*1
  /\ Forall (fun e => encodable_text e.1 = true /\ encodable e.2 = true) es.
Proof.
  cbn [encodable]. intros. bool_props. split; [done |]. split; [done |].
  apply Forall_forall. intros e He%list_elem_of_In. eapply forallb_forall in H0; [|done].
  by bool_props.
Qed.

Lemma enc_map es :
  encodable (CMap es) = true ->
  enc (CMap es) = encodeHeader 5 (zlen es) ++ concat (enc_entry <$> sort_by key_cmp es).
Proof.
  intros (Hlen & Hnd & Hall)%encodable_map_inv. unfold enc at 1.
  rewrite encode_map_Ok; [done.. |]. eapply Forall_impl; [exact Hall |].
  intros e [_ He]. by apply encode_total.
Qed.

(** Reading one header: dispatch on the major type. *)
Lemma readValue_head fuel major v rest :
  0 <= major < 7 -> 0 <= v <= MAX_SAFE_INTEGER ->
  readValue (S fuel) (encodeHeader major v ++ rest) =
  match major with
  | 0 => Ok (CNum (Int v), rest)
  | 2 => let? '(b, rest) := readByteString v rest in Ok (CBytes b, rest)
  | 3 => let? '(s, rest) := readTextString v rest in Ok (CText s, rest)
  | 4 => let? '(vs, rest) := readArray (readValue fuel) v rest in Ok (CArray vs, rest)
  | 5 => let? '(es, rest) := readMap (readValue fuel) v rest in Ok (CMap es, rest)
  | _ => Throw (js "unsupported_cbor_type")
  end.
Proof.
  intros Hm Hv. destruct (encodeHeader_read major v rest Hm Hv) as (initial & tail & -> & Hs & Ha).
  cbn [readValue app readByte]. cbv zeta. rewrite Hs, Ha. by test (major =? 7) false.
Qed.

Lemma take_app_zlen {A} (l k : list A) : take (Z.to_nat (zlen l)) (l ++ k) = l.
Proof. unfold zlen. rewrite Nat2Z.id. apply take_app_length. Qed.

Lemma drop_app_zlen {A} (l k : list A) : drop (Z.to_nat (zlen l)) (l ++ k) = k.
Proof. unfold zlen. rewrite Nat2Z.id. apply drop_app_length. Qed.

Lemma readValue_text fuel s rest :
  encodable_text s = true ->
  readValue (S fuel) (encoded_key s ++ rest) = Ok (CText s, rest).
Proof.
  unfold encodable_text, encoded_key, encodeBytes, maxCborTextBytes. intros. bool_props.
  pose proof (zlen_nonneg (utf8_encode s)).
  rewrite <- app_assoc, readValue_head by (unfold MAX_SAFE_INTEGER; lia).
  unfold readTextString, maxCborTextBytes. rewrite zlen_app.
  pose proof (zlen_nonneg rest).
  destruct (Z.ltb_spec 1024 (zlen (utf8_encode s))); [lia |].
  destruct (Z.ltb_spec (zlen (utf8_encode s) + zlen rest) (zlen (utf8_encode s))); [lia |].
  simpl. by rewrite take_app_zlen, drop_app_zlen, utf8_decode_encode.
Qed.

Lemma encoded_key_inj k1 k2 :
  encodable_text k1 = true -> encodable_text k2 = true ->
  encoded_key k1 = encoded_key k2 -> k1 = k2.
Proof.
  intros H1 H2 E. pose proof (readValue_text 0 k1 [] H1) as R1.
  rewrite E, (readValue_text 0 k2 [] H2) in R1. by simplify_eq.
Qed.

Lemma encoded_key_nonempty k rest : (0 < length (encoded_key k ++ rest))%nat.
Proof.
  unfold encoded_key, encodeBytes, encodeHeader. repeat case_match; rewrite !length_app; simpl; lia.
Qed.

(** ** Reading back what the encoder writes *)

Lemma read_items_app rd vs rest :
  Forall (fun v => forall rest, rd (enc v ++ rest) = Ok (canon v, rest)) vs ->
  read_items rd (length vs) (concat (enc <$> vs) ++ rest) = Ok (canon <$> vs, rest).
Proof.
  induction 1 as [|v vs Hv _ IH]; csimpl; [done |]. by rewrite <- app_assoc, Hv, IH.
Qed.

Definition canon_entry (e : jsstring * CborValue) : jsstring * CborValue := (e.1, canon e.2).

Definition below (previous : option bytes) (k : jsstring) : Prop :=
  match previous with Some p => compareBytes p (encoded_key k) < 0 | None => True end.

Definition key_lt (x y : jsstring * CborValue) : Prop := key_cmp x y < 0.

Lemma read_entries_app rd es seen previous rest :
  StronglySorted key_lt es -> NoDup es.*1 ->
  Forall (fun e => below previous e.1 /\ e.1 ∉ seen) es ->
  Forall (fun e => (forall rest, rd (encoded_key e.1 ++ rest) = Ok (CText e.1, rest))
                   /\ forall rest, rd (enc e.2 ++ rest) = Ok (canon e.2, rest)) es ->
  read_entries rd (length es) seen previous (concat (enc_entry <$> es) ++ rest)
  = Ok (canon_entry <$> es, rest).
Proof.
  revert seen previous. induction es as [|[k v] es IH]; intros seen previous Hs Hnd Hb Hrd; [done |].
  apply Forall_cons in Hrd as [[Hk Hv] Hrd]. apply Forall_cons in Hb as [[Hb Hseen] Hbs].
  inversion Hs as [|? ? Hs' Hlt]; subst. rewrite fmap_cons in Hnd. apply NoDup_cons in Hnd as [Hnew Hnd].
  csimpl in *. change (enc_entry (k, v)) with (encoded_key k ++ enc v). rewrite <- !app_assoc, Hk.
  assert (Hprev : match previous with
                  | Some p => 0 <=? compareBytes p (encoded_key k) | None => false end = false).
  { destruct previous; [simpl in Hb; lia | done]. }
  rewrite (length_app (encoded_key k)), Nat.add_sub, take_app_length, Hprev, bool_decide_false by done.
  rewrite Hv, IH; [done | done | done | | done].
  rewrite Forall_forall in *. intros e He. split; [by apply (Hlt e He) |].
  destruct (Hbs e He) as [_ Hs1]. intros [Heq|?]%elem_of_cons; [|done].
  apply Hnew, list_elem_of_fmap. by exists e; rewrite Heq.
Qed.

Lemma key_cmp_trans x y z : key_cmp x y <= 0 -> key_cmp y z <= 0 -> key_cmp x z <= 0.
Proof. apply compareBytes_trans. Qed.

Lemma key_cmp_total x y : key_cmp x y <= 0 \/ key_cmp y x <= 0.
Proof. apply compareBytes_total. Qed.

(** Distinct keys make the sorted list strictly increasing. *)
Lemma strictly_sorted es :
  Forall (fun e => encodable_text e.1 = true) es -> NoDup es.*1 ->
  StronglySorted (cmp_le key_cmp) es -> StronglySorted key_lt es.
Proof.
  induction es as [|e es IH]; intros Ht Hnd Hs; [constructor |].
  apply Forall_cons in Ht as [Hte Ht]. rewrite fmap_cons in Hnd. apply NoDup_cons in Hnd as [Hnew Hnd].
  inversion Hs as [|? ? Hs' Hle]; subst. constructor; [by apply IH |].
  rewrite Forall_forall in *. intros x Hx. specialize (Hle x Hx). unfold cmp_le in Hle.
  unfold key_lt. destruct (Z.eq_dec (key_cmp e x) 0) as [E|]; [|lia].
  apply compareBytes_eq, encoded_key_inj in E; [|done | by apply Ht].
  destruct Hnew. apply list_elem_of_fmap. by exists x.
Qed.

Lemma encodeHeader_length major v : (1 <= length (encodeHeader major v))%nat.
Proof. unfold encodeHeader. repeat case_match; simpl; lia. Qed.

Lemma concat_fmap_length {A} (f : A -> bytes) xs x :
  x ∈ xs -> (length (f x) <= length (concat (f <$> xs)))%nat.
Proof.
  induction xs as [|y xs IH]; [by intros ?%not_elem_of_nil |].
  csimpl. rewrite length_app. intros [->|Hx]%elem_of_cons; [lia |]. apply IH in Hx. lia.
Qed.

Lemma readValue_enc v : forall fuel rest,
  encodable v = true -> (length (enc v) <= fuel)%nat ->
  readValue fuel (enc v ++ rest) = Ok (canon v, rest).
Proof.
  assert (Hbig : forall z, 0 <= z -> z <= 48 * 1024 -> 0 <= z <= MAX_SAFE_INTEGER)
    by (unfold MAX_SAFE_INTEGER; lia).
  induction v as [b|[z|]|s|b|vs IH|es IH] using CborValue_nested_ind;
    intros fuel rest He Hf.
  - destruct fuel; [destruct b; unfold enc in Hf; simpl in Hf; lia |]. by destruct b.
  - cbn [encodable] in He. bool_props.
    assert (Ez : enc (CNum (Int z)) = encodeHeader 0 z).
    { unfold enc. simpl. rewrite H. by test (z <? 0) false. }
    rewrite Ez in *. destruct fuel; [pose proof (encodeHeader_length 0 z); lia |].
    rewrite readValue_head; [done | lia |]. unfold is_safe in H. bool_props. lia.
  - done.
  - change (enc (CText s)) with (encoded_key s) in *.
    destruct fuel; [pose proof (encoded_key_nonempty s []); rewrite app_nil_r in *; lia |].
    by apply readValue_text.
  - change (enc (CBytes b)) with (encodeHeader 2 (zlen b) ++ b) in *.
    rewrite length_app in Hf. pose proof (encodeHeader_length 2 (zlen b)).
    destruct fuel; [lia |]. cbn [encodable] in He. unfold maxCborBytes in He. bool_props.
    rewrite <- app_assoc, readValue_head by (try apply Hbig; zlen_lia).
    unfold readByteString, maxCborBytes. rewrite zlen_app. pose proof (zlen_nonneg rest).
    test (48 * 1024 <? zlen b) false. test (zlen b + zlen rest <? zlen b) false.
    simpl. by rewrite take_app_zlen, drop_app_zlen.
  - rewrite enc_array in * by done. cbn [encodable] in He. unfold maxCborCollectionEntries in He.
    bool_props. rewrite length_app in Hf. pose proof (encodeHeader_length 4 (zlen vs)).
    destruct fuel; [lia |].
    rewrite <- app_assoc, readValue_head by (try apply Hbig; zlen_lia).
    unfold readArray, maxCborCollectionEntries. test (64 <? zlen vs) false.
    unfold zlen. rewrite Nat2Z.id, read_items_app; [done |].
    rewrite Forall_forall in *. intros v Hv rest'. apply IH; [done | |].
    + eapply forallb_forall; [eassumption | by apply list_elem_of_In].
    + apply (concat_fmap_length enc) in Hv. lia.
  - rewrite enc_map in * by done. apply encodable_map_inv in He as (Hlen & Hnd & Hall).
    unfold maxCborCollectionEntries in Hlen. pose proof (encodeHeader_length 5 (zlen es)).
    rewrite length_app in Hf. destruct fuel; [lia |].
    rewrite <- app_assoc, readValue_head by (try apply Hbig; zlen_lia).
    unfold readMap, maxCborCollectionEntries. test (64 <? zlen es) false.
    assert (Hp : Permutation (sort_by key_cmp es) es) by apply sort_by_perm.
    unfold zlen. rewrite Nat2Z.id, <- (Permutation_length Hp), read_entries_app.
    + cbn [canon]. by rewrite sort_by_fmap.
    + apply strictly_sorted.
      * rewrite Hp. eapply Forall_impl; [exact Hall |]. naive_solver.
      * by rewrite Hp.
      * apply (sort_by_sorted key_cmp key_cmp_total key_cmp_trans).
    + by rewrite Hp.
    + apply Forall_forall. intros e _. split; [done | apply not_elem_of_nil].
    + apply Forall_forall. intros e Hin. pose proof Hin as Hin'. rewrite Hp in Hin.
      rewrite Forall_forall in IH, Hall. destruct (Hall e Hin) as [Hk Hv].
      pose proof (concat_fmap_length enc_entry _ _ Hin') as Hl. unfold enc_entry at 1 in Hl.
      rewrite length_app in Hl. pose proof (encoded_key_nonempty e.1 []) as Hne.
      rewrite app_nil_r in Hne. split; intros rest'.
      * destruct fuel; [lia |]. by apply readValue_text.
      * apply IH; [done | done | lia].
Qed.

(** ** The canonical form encodes to the same bytes *)

Lemma cmp_le_sorted_canon es :
  StronglySorted (cmp_le key_cmp) (canon_entry <$> sort_by key_cmp es).
Proof.
  change (canon_entry <$> sort_by key_cmp es)
    with (canon_entry <$> sort_by (fun x y => key_cmp (canon_entry x) (canon_entry y)) es).
  rewrite <- sort_by_fmap. apply (sort_by_sorted key_cmp key_cmp_total key_cmp_trans).
Qed.

Lemma canon_map es : canon (CMap es) = CMap (canon_entry <$> sort_by key_cmp es).
Proof. cbn [canon]. by rewrite sort_by_fmap. Qed.

Lemma canon_keys es : (canon_entry <$> sort_by key_cmp es).*1 = (sort_by key_cmp es).*1.
Proof. by rewrite <- list_fmap_compose. Qed.

Lemma encodable_map_intro es :
  zlen es <= maxCborCollectionEntries -> NoDup es.*1 ->
  Forall (fun e => encodable_text e.1 = true /\ encodable e.2 = true) es ->
  encodable (CMap es) = true.
Proof.
  intros Hl Hn Hf. cbn [encodable].
  apply andb_true_intro; split; [apply andb_true_intro; split |].
  - lia.
  - by apply bool_decide_eq_true.
  - apply forallb_forall. intros e He%list_elem_of_In. rewrite Forall_forall in Hf.
    destruct (Hf e He) as [-> ->]. done.
Qed.

Lemma zlen_perm {A} (l k : list A) : Permutation l k -> zlen l = zlen k.
Proof. intros H. unfold zlen. by rewrite (Permutation_length H). Qed.

Lemma zlen_fmap {A B} (f : A -> B) l : zlen (f <$> l) = zlen l.
Proof. unfold zlen. by rewrite length_fmap. Qed.

Lemma encodable_canon v :
  encodable v = true -> encodable (canon v) = true /\ enc (canon v) = enc v.
Proof.
  induction v as [b|n|s|b|vs IH|es IH] using CborValue_nested_ind; intros He; try done.
  - pose proof He as He'. cbn [encodable] in He'. bool_props.
    assert (Hall : Forall (fun v => encodable (canon v) = true /\ enc (canon v) = enc v) vs).
    { rewrite Forall_forall in *. intros v Hv. apply IH; [done |].
      eapply forallb_forall; [eassumption | by apply list_elem_of_In]. }
    assert (Hc : encodable (canon (CArray vs)) = true).
    { cbn [canon encodable]. rewrite zlen_fmap. apply andb_true_intro. split; [lia |].
      apply forallb_forall. intros w Hw%list_elem_of_In.
      apply list_elem_of_fmap in Hw as (v & -> & Hv). rewrite Forall_forall in Hall. by apply Hall. }
    split; [done |]. cbn [canon] in *. rewrite !enc_array, zlen_fmap by done. f_equal. f_equal.
    rewrite <- list_fmap_compose. apply list_fmap_ext. intros i v Hi%list_elem_of_lookup_2.
    rewrite Forall_forall in Hall. by apply Hall.
  - pose proof (encodable_map_inv es He) as (Hl & Hn & Hf).
    pose proof (sort_by_perm key_cmp es) as Hp.
    assert (Hall : Forall (fun e => encodable (canon e.2) = true /\ enc (canon e.2) = enc e.2) es).
    { rewrite Forall_forall in *. intros e Hi. apply IH; [done |]. by apply Hf. }
    assert (Hc : encodable (canon (CMap es)) = true).
    { rewrite canon_map. apply encodable_map_intro.
      - by rewrite zlen_fmap, (zlen_perm _ _ Hp).
      - by rewrite canon_keys, Hp.
      - apply Forall_fmap. rewrite Hp. rewrite Forall_forall in *. intros e Hi. simpl.
        split; [by apply Hf | by apply Hall]. }
    split; [done |]. rewrite canon_map in *. rewrite !enc_map by done.
    rewrite (sort_by_id key_cmp _ (cmp_le_sorted_canon es)), zlen_fmap, (zlen_perm _ _ Hp).
    f_equal. f_equal. rewrite <- list_fmap_compose. apply list_fmap_ext.
    intros i e Hi%list_elem_of_lookup_2. rewrite Hp in Hi. rewrite Forall_forall in Hall.
    unfold enc_entry. simpl. f_equal. by apply Hall.
Qed.

Lemma enc_nonempty v : encodable v = true -> zlen (enc v) <> 0.
Proof.
  intros He E%zlen_zero_iff. pose proof (readValue_enc v 0 [] He) as H. rewrite E in H.
  specialize (H (le_n _)). done.
Qed.

Lemma is_byte_js_or major a : 0 <= major < 7 -> 0 <= a < 32 -> is_byte (js_or (js_shl major 5) a).
Proof. intros Hm Ha. by destruct (initial_byte major a Hm Ha) as (_ & _ & ?). Qed.

Lemma fill_bytes_ok k : forall v filled, 0 <= v -> bytes_ok filled -> bytes_ok (fill_bytes k v filled).
Proof.
  induction k as [|k IH]; intros v filled Hv Hf; cbn [fill_bytes]; [done |].
  rewrite Z.shiftr_div_pow2 by lia. change (2 ^ 8) with 256.
  apply IH; [zdiv_lia |]. apply bytes_ok_cons. split; [|done].
  change 0xff with (Z.ones 8). rewrite Z.land_ones by lia. unfold is_byte. zdiv_lia.
Qed.

Lemma encodeHeader_ok major v : 0 <= major < 7 -> 0 <= v <= MAX_SAFE_INTEGER -> bytes_ok (encodeHeader major v).
Proof.
  unfold MAX_SAFE_INTEGER. intros Hm Hv. pose proof (fun a => is_byte_js_or major a Hm) as Hi.
  unfold encodeHeader. repeat case_match; bool_props; rewrite ?js_and_255.
  - repeat constructor; apply Hi; lia.
  - repeat constructor; try (apply Hi; lia); lia.
  - rewrite js_shr_div by lia. repeat constructor; try (apply Hi; lia); zdiv_lia.
  - rewrite !js_ushr_div by lia. repeat constructor; try (apply Hi; lia); zdiv_lia.
  - constructor; [apply Hi; lia |]. apply fill_bytes_ok; [lia | constructor].
Qed.

Lemma encoded_key_ok s : encodable_text s = true -> bytes_ok (encoded_key s).
Proof.
  unfold encodable_text, plain_text, encoded_key, encodeBytes, maxCborTextBytes. intros. bool_props.
  pose proof (zlen_nonneg (utf8_encode s)). apply bytes_ok_app. split.
  - apply encodeHeader_ok; unfold MAX_SAFE_INTEGER; lia.
  - by apply utf8_encode_ok.
Qed.

Lemma concat_bytes_ok {A} (f : A -> bytes) xs :
  Forall (fun x => bytes_ok (f x)) xs -> bytes_ok (concat (f <$> xs)).
Proof. induction 1; csimpl; [constructor |]. by apply bytes_ok_app. Qed.

(** An encoding is a string of bytes. *)
Lemma enc_bytes_ok v : encodable v = true -> bytes_ok (enc v).
Proof.
  induction v as [b|[z|]|s|b|vs IH|es IH] using CborValue_nested_ind; intros He.
  - destruct b; apply (bool_decide_eq_true_1 (bytes_ok _)); reflexivity.
  - cbn [encodable] in He. bool_props.
    unfold enc. simpl. rewrite H. test (z <? 0) false. simpl. apply encodeHeader_ok; [lia |].
    unfold is_safe in H. bool_props. lia.
  - done.
  - by apply encoded_key_ok.
  - cbn [encodable] in He. unfold maxCborBytes in He. bool_props. unfold enc. simpl.
    apply bytes_ok_app. split; [|done]. pose proof (zlen_nonneg b).
    apply encodeHeader_ok; unfold MAX_SAFE_INTEGER; lia.
  - rewrite enc_array by done. cbn [encodable] in He. unfold maxCborCollectionEntries in He. bool_props.
    pose proof (zlen_nonneg vs). apply bytes_ok_app. split.
    + apply encodeHeader_ok; unfold MAX_SAFE_INTEGER; lia.
    + apply concat_bytes_ok. rewrite Forall_forall in *. intros v Hv. apply IH; [done |].
      eapply forallb_forall; [eassumption | by apply list_elem_of_In].
  - rewrite enc_map by done. apply encodable_map_inv in He as (Hl & _ & Hf).
    unfold maxCborCollectionEntries in Hl. pose proof (zlen_nonneg es). apply bytes_ok_app. split.
    + apply encodeHeader_ok; unfold MAX_SAFE_INTEGER; lia.
    + apply concat_bytes_ok. rewrite sort_by_perm. rewrite Forall_forall in *. intros e Hin.
      destruct (Hf e Hin). apply bytes_ok_app. split; [by apply encoded_key_ok | by apply IH].
Qed.

Lemma decode_enc v maxBytes :
  encodable v = true -> zlen (enc v) <= maxBytes ->
  decodeDeterministicCbor (enc v) maxBytes = Ok (canon v).
Proof.
  intros He Hm. unfold decodeDeterministicCbor. pose proof (enc_nonempty v He).
  test ((zlen (enc v) =? 0) || (maxBytes <? zlen (enc v))) false.
  pose proof (readValue_enc v (S (length (enc v))) [] He) as R. rewrite app_nil_r in R.
  rewrite R by lia. destruct (encodable_canon v He) as [Hc Hec].
  rewrite (encode_total _ Hc), Hec. by rewrite (proj2 (sameBytes_true _ _) eq_refl).
Qed.

(** ** Soundness of the decoder: what it reads is what the encoder would write *)

Lemma fill_bytes_snoc k : forall v filled,
  0 <= v -> fill_bytes (S k) v filled = (v / 256 ^ Z.of_nat k) mod 256 :: fill_bytes k v filled.
Proof.
  assert (Hstep : forall k v filled, 0 <= v ->
    fill_bytes (S k) v filled = fill_bytes k (v / 256) (v mod 256 :: filled)).
  { intros j v filled Hv. cbn [fill_bytes]. rewrite Z.shiftr_div_pow2 by lia.
    change 0xff with (Z.ones 8). rewrite Z.land_ones by lia. done. }
  induction k as [|k IH]; intros v filled Hv.
  - rewrite Hstep by done. simpl. by rewrite Z.div_1_r.
  - rewrite Hstep, IH, <- Hstep by (done || zdiv_lia). f_equal.
    rewrite Nat2Z.inj_succ, Z.pow_succ_r, Z.div_div by lia. done.
Qed.

Lemma read_bigint_sound k : forall acc r v r',
  0 <= acc -> bytes_ok r -> read_bigint k acc r = Ok (v, r') ->
  v / 256 ^ Z.of_nat k = acc /\ 0 <= v /\ fill_bytes k v [] ++ r' = r.
Proof.
  induction k as [|k IH]; intros acc r v r' Hacc Hr H.
  - simpl in *. simplify_eq. rewrite Z.div_1_r. done.
  - destruct r as [|b r]; [done |]. apply bytes_ok_cons in Hr as [Hb Hr]. unfold is_byte in Hb.
    cbn [read_bigint readByte] in H.
    rewrite Z.shiftl_mul_pow2, lor_disjoint in H by lia. change (2 ^ 8) with 256 in H.
    apply IH in H as (Hv & Hnn & Hfill); [| lia | done].
    rewrite fill_bytes_snoc, Hv by done. rewrite Nat2Z.inj_succ, Z.pow_succ_r by lia.
    rewrite (Z.mul_comm 256), <- Z.div_div, Hv by lia. split; [zdiv_lia |]. split; [done |].
    simpl. rewrite Hfill. f_equal. zdiv_lia.
Qed.

Lemma split_initial b : is_byte b ->
  0 <= js_shr b 5 < 8 /\ 0 <= js_and b 0x1f < 32
  /\ forall a, a = js_and b 0x1f -> js_or (js_shl (js_shr b 5) 5) a = b.
Proof.
  unfold is_byte. intros Hb. rewrite js_shr_div, js_and_31 by lia. change (2 ^ 5) with 32.
  split; [zdiv_lia |]. split; [zdiv_lia |]. intros a ->.
  rewrite js_shl_mul by zdiv_lia. rewrite js_or_disjoint by zdiv_lia. change (2 ^ 5) with 32. zdiv_lia.
Qed.

Ltac take_byte H r b :=
  destruct r as [|b r]; [discriminate H |]; cbn [readByte] in H;
  match goal with
  | Hr : bytes_ok (b :: r) |- _ => apply bytes_ok_cons in Hr as [? Hr]
  end.

Lemma header_sound initial r n r' :
  is_byte initial -> bytes_ok r -> readArgument (js_and initial 0x1f) r = Ok (n, r') ->
  initial :: r = encodeHeader (js_shr initial 5) n ++ r'
  /\ 0 <= n <= MAX_SAFE_INTEGER /\ bytes_ok r'.
Proof.
  intros Hi Hr H. destruct (split_initial _ Hi) as (Hmaj & Hadd & Hjoin).
  set (a := js_and initial 31) in *. set (m := js_shr initial 5) in *.
  unfold readArgument in H. unfold encodeHeader, MAX_SAFE_INTEGER, is_byte in *.
  destruct (Z.ltb_spec a 24).
  { injection H as <- <-. test (a <? 24) true. rewrite Hjoin by done. repeat split; (done || lia). }
  destruct (Z.eqb_spec a 24) as [Ea|].
  { take_byte H r b. unfold is_byte in *. case_match; [done |]. bool_props. injection H as <- <-.
    test (b <? 24) false. test (b <=? 255) true. rewrite Hjoin by done. repeat split; (done || lia). }
  destruct (Z.eqb_spec a 25) as [Ea|].
  { take_byte H r b1. take_byte H r b2. unfold is_byte in *. rewrite js_be16 in H by lia.
    case_match; [done |]. bool_props. injection H as <- <-.
    set (n := b1 * 256 + b2) in *.
    test (n <? 24) false. test (n <=? 255) false. test (n <=? 65535) true.
    rewrite js_and_255, js_shr_div, Hjoin by lia. change (2 ^ 8) with 256.
    split; [| split; [lia | done]]. simpl. unfold n. repeat f_equal; zdiv_lia. }
  destruct (Z.eqb_spec a 26) as [Ea|].
  { take_byte H r b1. take_byte H r b2. take_byte H r b3. take_byte H r b4. unfold is_byte in *.
    rewrite js_be24 in H by lia. case_match; [done |]. bool_props. injection H as <- <-.
    set (n := b1 * 16777216 + (b2 * 65536 + b3 * 256 + b4)) in *.
    test (n <? 24) false. test (n <=? 255) false. test (n <=? 65535) false.
    test (n <=? 4294967295) true. rewrite !js_and_255, !js_ushr_div, Hjoin by lia.
    split; [| split; [lia | done]]. simpl. unfold n. repeat f_equal; zdiv_lia. }
  destruct (Z.eqb_spec a 27) as [Ea|]; [|done].
  destruct (read_bigint 8 0 r) as [[v r1]|] eqn:E; [|done].
  assert (Hr1 : bytes_ok r1).
  { pose proof (read_bigint_sound 8 0 r v r1 (Z.le_refl 0) Hr E) as (_ & _ & Hf).
    rewrite <- Hf in Hr. by apply bytes_ok_app in Hr as [_ ?]. }
  apply read_bigint_sound in E as (_ & Hv & Hf); [| lia | done].
  unfold MAX_SAFE_INTEGER in H. case_match; [done |]. bool_props. injection H as <- <-.
  test (v <? 24) false. test (v <=? 255) false. test (v <=? 65535) false.
  test (v <=? 4294967295) false. rewrite Hjoin by done.
  split; [by rewrite <- Hf at 1 | split; [lia | done]].
Qed.

Lemma encodeHeader_mono major v w :
  v <= w -> (length (encodeHeader major v) <= length (encodeHeader major w))%nat.
Proof.
  intros. unfold encodeHeader.
  repeat match goal with |- context [?a <? ?b] => destruct (Z.ltb_spec a b) end;
  repeat match goal with |- context [?a <=? ?b] => destruct (Z.leb_spec a b) end;
  cbn; lia.
Qed.

(** Text the decoder accepts encodes to no more bytes than were read, and to
    those very bytes unless a byte order mark was dropped. *)
Lemma utf8_decode_length b s :
  bytes_ok b -> utf8_decode b = Some s ->
  (length (utf8_encode s) <= length b)%nat
  /\ (length (utf8_encode s) = length b -> utf8_encode s = b /\ plain_text s = true).
Proof.
  intros Hb Hs. pose proof Hs as [Hwf [E|E]]%utf8_decode_sound; [| | done].
  - subst b. split; [lia |]. intros _. split; [done |]. unfold plain_text. rewrite Hwf.
    destruct (decide (head s = Some byte_order_mark)) as [Hh|]; [|by rewrite bool_decide_false].
    exfalso. unfold utf8_decode in Hs. rewrite utf8_decode_all_encode in Hs by done.
    destruct s as [|u s]; [done |]. simpl in Hh. simplify_eq. simpl in Hs. simplify_eq.
    apply (f_equal length) in Hs. simpl in Hs. lia.
  - rewrite <- E, utf8_encode_scalar by done. rewrite length_app. simpl. lia.
Qed.

Lemma compareBytes_trans_lt a b c :
  compareBytes a b < 0 -> compareBytes b c < 0 -> compareBytes a c < 0.
Proof.
  intros Hab Hbc. assert (compareBytes a c <= 0) by (apply (compareBytes_trans a b c); lia).
  destruct (Z.eq_dec (compareBytes a c) 0) as [->%compareBytes_eq|]; [|lia].
  pose proof (proj1 (compareBytes_anti c b)). lia.
Qed.

Definition sound (v : CborValue) (r r' : bytes) : Prop :=
  exists e, encodeDeterministicCbor v = Ok e /\ bytes_ok r'
    /\ (length e + length r' <= length r)%nat
    /\ ((length e + length r')%nat = length r ->
        r = e ++ r' /\ encodable v = true /\ canon v = v).

Section SoundCollections.
Context (rd : bytes -> result (CborValue * bytes)).
Context (Hrd : forall r v r', bytes_ok r -> rd r = Ok (v, r') -> sound v r r').

Lemma read_items_sound n r vs r' :
  bytes_ok r -> read_items rd n r = Ok (vs, r') ->
  exists es, map_result encodeDeterministicCbor vs = Ok es /\ bytes_ok r' /\ length vs = n
    /\ (length (concat es) + length r' <= length r)%nat
    /\ ((length (concat es) + length r')%nat = length r ->
        r = concat es ++ r' /\ forallb encodable vs = true /\ canon <$> vs = vs).
Proof.
  revert r vs r'. induction n as [|n IH]; intros r vs r' Hr H; simpl in H.
  - simplify_eq. exists []. simpl. repeat split; done || lia.
  - destruct (rd r) as [[v r1]|] eqn:E1; [|done].
    destruct (read_items rd n r1) as [[vs1 r2]|] eqn:E2; [|done]. simplify_eq.
    apply Hrd in E1 as (e & He & Hr1 & Hl1 & Hs1); [|done].
    apply IH in E2 as (es & Hes & Hr2 & Hn & Hl2 & Hs2); [|done].
    exists (e :: es). simpl. rewrite He, Hes, length_app, Hn.
    do 3 (split; [done || lia |]). split; [lia |]. intros Heq.
    destruct Hs1 as (-> & -> & Hc); [lia |]. destruct Hs2 as (-> & -> & Hcs); [lia |].
    csimpl. by rewrite app_assoc, Hc, Hcs.
Qed.

Definition pair_bytes (p : bytes * bytes) : bytes := p.1 ++ p.2.

Definition entry_text (e : jsstring * CborValue) : Prop :=
  encodable_text e.1 = true /\ encodable e.2 = true.

Lemma key_sound r k r1 :
  bytes_ok r -> rd r = Ok (CText k, r1) ->
  bytes_ok r1 /\ (length (encoded_key k) + length r1 <= length r)%nat
  /\ ((length (encoded_key k) + length r1)%nat = length r ->
      r = encoded_key k ++ r1 /\ encodable_text k = true
      /\ take (length r - length r1) r = encoded_key k).
Proof.
  intros Hr H. apply Hrd in H as (e & He & Hr1 & Hl & Hs); [|done].
  injection He as <-. fold (encoded_key k) in *. split; [done |]. split; [done |].
  intros Heq. destruct (Hs Heq) as (-> & Ht & _). split; [done |]. split; [done |].
  rewrite length_app, Nat.add_sub. apply take_app_length.
Qed.

Lemma read_entries_sound n : forall seen previous r es r',
  bytes_ok r -> read_entries rd n seen previous r = Ok (es, r') ->
  exists l, encode_entries encodeDeterministicCbor seen es = Ok l /\ bytes_ok r'
    /\ length es = n
    /\ (length (concat (pair_bytes <$> l)) + length r' <= length r)%nat
    /\ ((length (concat (pair_bytes <$> l)) + length r')%nat = length r ->
        r = concat (pair_bytes <$> l) ++ r' /\ Forall entry_text es
        /\ canon_entry <$> es = es /\ Forall (fun e => below previous e.1) es
        /\ StronglySorted key_lt es).
Proof.
  induction n as [|n IH]; intros seen previous r es r' Hr H; cbn [read_entries] in H.
  - simplify_eq. exists []. simpl. do 3 (split; [done |]). split; [lia |]. intros _.
    repeat split; constructor.
  - destruct (rd r) as [[k r1]|] eqn:E1; [|done]. destruct k as [| |k| | |]; try done.
    case_match eqn:Hprev; [done |]. case_match eqn:Hseen; [done |].
    destruct (rd r1) as [[v r2]|] eqn:E2; [|done].
    destruct (read_entries rd n _ _ r2) as [[es1 r3]|] eqn:E3; [|done]. simplify_eq.
    apply key_sound in E1 as (Hr1 & Hl1 & Hs1); [|done].
    apply Hrd in E2 as (e & He & Hr2 & Hl2 & Hs2); [|done].
    apply IH in E3 as (l & Hl & Hr3 & Hn & Hl3 & Hs3); [|done].
    exists ((encoded_key k, e) :: l). cbn [encode_entries]. rewrite Hseen, He, Hl.
    csimpl. unfold pair_bytes at 1 3 5. simpl. rewrite !length_app, Hn.
    do 3 (split; [done || lia |]). split; [lia |]. intros Heq.
    destruct Hs1 as (Er & Hk & Hslice); [lia |]. destruct Hs2 as (-> & Hv & Hc); [lia |].
    destruct Hs3 as (-> & Hes & Hce & Hb & Hsort); [lia |].
    rewrite Hslice in *. split; [by rewrite Er, !app_assoc |].
    split; [by constructor |].
    split; [by unfold canon_entry at 1; simpl; rewrite Hc, Hce |].
    assert (Hbk : below previous k).
    { destruct previous; simpl; [bool_props; lia | done]. }
    split; [| constructor; [done | by apply Hb]].
    constructor; [done |]. eapply Forall_impl; [exact Hb |]. intros [k' v'] Hk'. simpl in *.
    destruct previous as [p|]; simpl in *; [| done].
    by eapply compareBytes_trans_lt.
Qed.
End SoundCollections.

Lemma key_lt_NoDup es : StronglySorted key_lt es -> NoDup es.*1.
Proof.
  induction 1 as [|e es Hs IH Hf]; csimpl; [constructor |]. constructor; [|done].
  intros (x & E & Hx)%list_elem_of_fmap. rewrite Forall_forall in Hf.
  specialize (Hf x Hx). unfold key_lt, key_cmp in Hf. rewrite E, compareBytes_refl in Hf. lia.
Qed.

Lemma key_lt_cmp_le es : StronglySorted key_lt es -> StronglySorted (cmp_le key_cmp) es.
Proof.
  induction 1 as [|e es Hs IH Hf]; constructor; [done |].
  eapply Forall_impl; [exact Hf |]. unfold key_lt, cmp_le. intros. lia.
Qed.

Lemma concat_perm_length (l k : list bytes) :
  Permutation l k -> length (concat l) = length (concat k).
Proof. induction 1; simpl; rewrite ?length_app; lia. Qed.

Lemma encode_entries_length seen es l :
  encode_entries encodeDeterministicCbor seen es = Ok l -> length l = length es.
Proof.
  revert seen l. induction es as [|[k v] es IH]; intros seen l H; cbn [encode_entries] in H;
    [by simplify_eq |].
  case_match; [done |]. case_match; [|done].
  destruct (encode_entries _ _ es) as [k'|] eqn:E; [|done]. simplify_eq. simpl. f_equal. by eapply IH.
Qed.

Lemma enc_entry_pairs (es : CborMap) :
  pair_bytes <$> ((fun e => (encoded_key e.1, enc e.2)) <$> es) = enc_entry <$> es.
Proof. by rewrite <- list_fmap_compose. Qed.

(** The map case: what was read is a map whose encoding is the header and
    the sorted entries. *)
Lemma map_sound n hd es l r0 r r' :
  hd = encodeHeader 5 n -> 0 <= n -> zlen es = n -> n <= maxCborCollectionEntries ->
  r0 = hd ++ r -> encode_entries encodeDeterministicCbor [] es = Ok l -> bytes_ok r' ->
  (length (concat (pair_bytes <$> l)) + length r' <= length r)%nat ->
  ((length (concat (pair_bytes <$> l)) + length r')%nat = length r ->
   r = concat (pair_bytes <$> l) ++ r' /\ Forall entry_text es
   /\ canon_entry <$> es = es /\ Forall (fun e => below None e.1) es
   /\ StronglySorted key_lt es) ->
  sound (CMap es) r0 r'.
Proof.
  intros -> Hn Hlen Hmax -> Hl Hr' Hle Hs.
  pose proof (encode_entries_length _ _ _ Hl) as Hll.
  assert (Hp : Permutation (sort_by (fun left right => compareBytes left.1 right.1) l) l)
    by apply sort_by_perm.
  set (sorted := sort_by _ l) in *.
  exists (encodeHeader 5 n ++ concat (pair_bytes <$> sorted)).
  assert (Hc : length (concat (pair_bytes <$> sorted)) = length (concat (pair_bytes <$> l))).
  { apply concat_perm_length. by rewrite Hp. }
  split.
  { cbn [encodeDeterministicCbor]. unfold encodeMap.
    test (maxCborCollectionEntries <? zlen es) false. rewrite Hl. fold sorted.
    do 2 f_equal. f_equal. unfold zlen in *. lia. }
  split; [done |]. rewrite !length_app, Hc. split; [lia |]. intros Heq.
  destruct Hs as (-> & Htext & Hcan & _ & Hsort); [lia |].
  pose proof (key_lt_NoDup _ Hsort) as Hnd. pose proof (key_lt_cmp_le _ Hsort) as Hle'.
  assert (Hall : Forall (fun e => encodeDeterministicCbor e.2 = Ok (enc e.2)) es).
  { eapply Forall_impl; [exact Htext |]. intros e [_ He]. by apply encode_total. }
  rewrite encode_entries_Ok in Hl by (done || set_solver). injection Hl as <-.
  unfold sorted. rewrite sort_by_fmap.
  change (sort_by (fun x y : jsstring * CborValue => _) es) with (sort_by key_cmp es).
  rewrite (sort_by_id key_cmp es Hle'), app_assoc. split; [done |].
  split; [by apply encodable_map_intro; [lia | done |] |].
  by rewrite canon_map, (sort_by_id key_cmp es Hle'), Hcan.
Qed.

Lemma bytes_sound n b r r' :
  0 <= n -> bytes_ok r -> readByteString n r = Ok (b, r') ->
  sound (CBytes b) (encodeHeader 2 n ++ r) r'.
Proof.
  unfold readByteString. intros Hn Hr H. case_match; [done |]. bool_props. simplify_eq.
  assert (Hl : zlen (take (Z.to_nat n) r) = n) by (unfold zlen in *; rewrite length_take; lia).
  pose proof Hr as Hr'. rewrite <- (take_drop (Z.to_nat n) r) in Hr'.
  apply bytes_ok_app in Hr' as [Ht Hd].
  exists (encodeHeader 2 n ++ take (Z.to_nat n) r). split; [simpl; unfold encodeBytes; by rewrite Hl |].
  rewrite !length_app. split; [done |].
  split; [rewrite length_take, length_drop; lia |].
  intros _. rewrite <- app_assoc, take_drop. split; [done |]. cbn [encodable]. rewrite Hl.
  rewrite bool_decide_true by done. split; [simpl; lia | done].
Qed.

Lemma text_sound n s r r' :
  0 <= n -> bytes_ok r -> readTextString n r = Ok (s, r') ->
  sound (CText s) (encodeHeader 3 n ++ r) r'.
Proof.
  unfold readTextString. intros Hn Hr H. case_match; [done |]. bool_props.
  destruct (utf8_decode (take (Z.to_nat n) r)) as [u|] eqn:E; [|done]. simplify_eq.
  assert (Hl : zlen (take (Z.to_nat n) r) = n) by (unfold zlen in *; rewrite length_take; lia).
  pose proof Hr as Hr'. rewrite <- (take_drop (Z.to_nat n) r) in Hr'.
  apply bytes_ok_app in Hr' as [Ht Hd].
  apply utf8_decode_length in E as [Hle Heq]; [|done].
  exists (encoded_key s). split; [done |]. split; [done |].
  pose proof (encodeHeader_mono 3 (zlen (utf8_encode s)) n) as Hm.
  assert (length r = length (take (Z.to_nat n) r) + length (drop (Z.to_nat n) r))%nat as Hsum.
  { by rewrite <- length_app, take_drop. }
  unfold encoded_key, encodeBytes. rewrite !length_app.
  assert (zlen (utf8_encode s) <= n) as Hsn by (unfold zlen in *; lia). specialize (Hm Hsn).
  unfold zlen in Hl, Hm |- *.
  split; [lia |]. intros Ht'. destruct Heq as [Hs Hp]; [lia |]. rewrite Hs. unfold zlen. rewrite Hl.
  rewrite <- app_assoc, take_drop. split; [done |]. split; [|done].
  cbn [encodable]. unfold encodable_text. rewrite Hp, Hs. simpl. unfold zlen. lia.
Qed.

Lemma array_sound rd n vs r r' :
  (forall r v r', bytes_ok r -> rd r = Ok (v, r') -> sound v r r') ->
  0 <= n -> bytes_ok r -> readArray rd n r = Ok (vs, r') ->
  sound (CArray vs) (encodeHeader 4 n ++ r) r'.
Proof.
  unfold readArray. intros Hrd Hn Hr H. case_match; [done |]. bool_props.
  apply (read_items_sound rd Hrd) in H as (es & Hes & Hr' & Hl & Hle & Heq); [|done].
  assert (Hz : zlen vs = n) by (unfold zlen; lia).
  exists (encodeHeader 4 n ++ concat es). cbn [encodeDeterministicCbor]. rewrite Hes, Hz.
  split; [done |]. split; [done |]. rewrite !length_app. split; [lia |]. intros Ht.
  destruct Heq as (-> & He & Hc); [lia |]. rewrite app_assoc. split; [done |].
  cbn [encodable canon]. rewrite He, Hz, Hc. split; [lia | done].
Qed.

Lemma readMap_sound rd n es r r' :
  (forall r v r', bytes_ok r -> rd r = Ok (v, r') -> sound v r r') ->
  0 <= n -> bytes_ok r -> readMap rd n r = Ok (es, r') ->
  sound (CMap es) (encodeHeader 5 n ++ r) r'.
Proof.
  unfold readMap. intros Hrd Hn Hr H. case_match; [done |]. bool_props.
  apply (read_entries_sound rd Hrd) in H as (l & Hl & Hr' & Hlen & Hle & Heq); [|done].
  eapply map_sound; try done. unfold zlen. lia.
Qed.

Lemma simple_sound b r : bytes_ok r -> sound (CBool b) ((if b then 0xf5 else 0xf4) :: r) r.
Proof.
  intros Hr. eexists. split; [reflexivity |]. split; [done |]. simpl. split; [lia |].
  by destruct b.
Qed.

Lemma unsigned_sound n r :
  0 <= n <= MAX_SAFE_INTEGER -> bytes_ok r -> sound (CNum (Int n)) (encodeHeader 0 n ++ r) r.
Proof.
  intros Hn Hr. assert (Hs : is_safe n = true) by (unfold is_safe; lia).
  exists (encodeHeader 0 n). simpl. rewrite Hs. test (n <? 0) false. split; [done |].
  split; [done |]. rewrite length_app. split; [lia |]. intros _. repeat split. simpl. lia.
Qed.

Lemma readValue_sound fuel : forall r v r',
  bytes_ok r -> readValue fuel r = Ok (v, r') -> sound v r r'.
Proof.
  induction fuel as [|fuel IH]; intros r v r' Hr H; [done |].
  cbn [readValue] in H. destruct r as [|initial r]; [done |]. cbn [readByte] in H. cbv zeta in H.
  apply bytes_ok_cons in Hr as [Hi Hr].
  destruct (split_initial _ Hi) as (Hmaj & Hadd & Hjoin).
  destruct (Z.eqb_spec (js_shr initial 5) 7) as [E7|N7].
  { specialize (Hjoin _ eq_refl). rewrite E7 in Hjoin.
    repeat case_match; simplify_eq; bool_props;
      match goal with Ha : js_and initial 31 = _ |- _ => rewrite Ha in Hjoin end;
      rewrite <- Hjoin; by apply simple_sound. }
  destruct (readArgument _ r) as [[n r1]|] eqn:Ea; [|done].
  apply header_sound in Ea as (-> & Hn & Hr1); [| done | done].
  clear Hjoin. set (m := js_shr initial 5) in *. clearbody m.
  destruct Hn as [Hn1 Hn2].
  repeat case_match; simplify_eq;
    first [by apply unsigned_sound | by apply bytes_sound | by apply text_sound
          | by eapply array_sound | by eapply readMap_sound].
Qed.

(** ** What the decoder accepts *)

Lemma decode_Ok b maxBytes v :
  bytes_ok b -> decodeDeterministicCbor b maxBytes = Ok v ->
  0 < zlen b <= maxBytes /\ encodable v = true /\ canon v = v
  /\ encodeDeterministicCbor v = Ok b.
Proof.
  unfold decodeDeterministicCbor. intros Hb H. case_match eqn:Hz; [done |]. bool_props.
  pose proof (zlen_nonneg b). destruct (readValue _ b) as [[v' r]|] eqn:E; [|done].
  destruct r; [|done]. apply readValue_sound in E as (e & He & _ & _ & Hs); [|done].
  rewrite He in H. case_match eqn:Hsame; [|done]. apply sameBytes_true in Hsame as ->. simplify_eq.
  destruct Hs as (_ & -> & ->); [simpl; lia |]. split; [lia | done].
Qed.

Lemma encode_not_fuel v : encodeDeterministicCbor v <> Throw out_of_fuel.
Proof.
  induction v as [b|n|s|b|vs IH|es IH] using CborValue_nested_ind; try (simpl; done).
  - simpl. unfold encodeUnsigned. repeat case_match; intros ?; (done || not_fuel).
  - cbn [encodeDeterministicCbor]. intros H.
    assert (E : map_result encodeDeterministicCbor vs = Throw out_of_fuel).
    { by destruct (map_result _ vs); simplify_eq. }
    clear H. induction IH as [|v vs Hv _ IH]; simpl in E; [done |].
    destruct (encodeDeterministicCbor v) eqn:Ev; [|by simplify_eq].
    apply IH. by destruct (map_result _ vs); simplify_eq.
  - cbn [encodeDeterministicCbor]. unfold encodeMap. case_match; [intros ?; not_fuel |]. intros H1.
    assert (E : exists seen, encode_entries encodeDeterministicCbor seen es = Throw out_of_fuel).
    { exists []. by destruct (encode_entries _ [] es); simplify_eq. }
    clear H H1. induction IH as [|[k v] es Hv _ IH]; destruct E as [seen E];
      cbn [encode_entries] in E; [done |]. case_match; [not_fuel |].
    destruct (encodeDeterministicCbor v) eqn:Ev; [|by simplify_eq].
    apply IH. exists (k :: seen). by destruct (encode_entries _ (k :: seen) es); simplify_eq.
Qed.


Definition sample_record : CborValue :=
  CMap [(js "version", CNum (Int 1)); (js "key", CBytes [7; 255; 0]);
        (js "caps", CArray [CText (js "text"); CBool true; CNum (Int 65536)])].




(** C38: one unit of fuel per byte is always enough, for the decoder and for
    the check it ends with: [decodeDeterministicCbor] terminates with a value or
    an error of the source on every input. *)
Theorem decode_terminates b maxBytes :
  decodeDeterministicCbor b maxBytes <> Throw out_of_fuel.
Proof.
  unfold decodeDeterministicCbor. case_match; [intros ?; not_fuel |].
  destruct (readValue (S (length b)) b) as [[v r]|m] eqn:E.
  - destruct r; [| intros ?; not_fuel].
    destruct (encodeDeterministicCbor v) as [e|m] eqn:Ev.
    + case_match; [done | intros ?; not_fuel].
    + intros ?. simplify_eq. by eapply encode_not_fuel.
  - intros ?. simplify_eq. eapply readValue_fuel; [| exact E]. lia.
Qed.

(** A text that starts with a byte order mark. *)
Definition marked (s : jsstring) : jsstring := byte_order_mark :: s.

Lemma utf8_marked s : utf8_encode (marked s) = [0xEF; 0xBB; 0xBF] ++ utf8_encode s.
Proof. unfold marked. by rewrite utf8_encode_scalar. Qed.

(** A text with a leading U+FEFF encodes, but its own encoding is then
    rejected, since the fatal text decoder drops the mark: the encoder and the
    decoder disagree on exactly these texts. *)
Theorem marked_text_rejected s maxBytes (Hs : well_formed s = true)
    (Hl : zlen (utf8_encode s) <= 1000) (Hm : 2048 <= maxBytes) :
  exists b, encodeDeterministicCbor (CText (marked s)) = Ok b
            /\ decodeDeterministicCbor b maxBytes = Throw (js "non_canonical_cbor").
Proof.
  pose proof (zlen_nonneg (utf8_encode s)) as Hnn.
  assert (Hz : zlen (utf8_encode (marked s)) = 3 + zlen (utf8_encode s)).
  { rewrite utf8_marked. zlen_lia. }
  set (body := utf8_encode (marked s)) in *.
  exists (encodeHeader 3 (zlen body) ++ body). split; [done |].
  unfold decodeDeterministicCbor. set (b := encodeHeader 3 (zlen body) ++ body) in *.
  assert (Hh : zlen (encodeHeader 3 (zlen body)) <= 9).
  { unfold encodeHeader, zlen. repeat case_match; simpl; lia. }
  assert (Hb : zlen b = zlen (encodeHeader 3 (zlen body)) + zlen body) by apply zlen_app.
  pose proof (zlen_nonneg (encodeHeader 3 (zlen body))).
  test ((zlen b =? 0) || (maxBytes <? zlen b)) false.
  assert (Hr : readValue (S (length b)) b = Ok (CText s, [])).
  { unfold b at 2. rewrite <- (app_nil_r body) at 2.
    rewrite readValue_head by (unfold MAX_SAFE_INTEGER; lia).
    unfold readTextString, maxCborTextBytes. rewrite app_nil_r.
    test ((1024 <? zlen body) || (zlen body <? zlen body)) false.
    unfold zlen at 1 2. rewrite Nat2Z.id, take_ge, drop_ge by lia.
    unfold utf8_decode, body. rewrite utf8_decode_all_encode.
    - done.
    - unfold marked. by rewrite well_formed_scalar. }
  rewrite Hr. cbn [encodeDeterministicCbor]. case_match eqn:E; [| done].
  apply sameBytes_true in E. exfalso. apply (f_equal zlen) in E. unfold encodeBytes in E.
  rewrite Hb, zlen_app in E. pose proof (encodeHeader_mono 3 (zlen (utf8_encode s)) (zlen body)).
  unfold zlen in *. lia.
Qed.

Lemma marked_text_rejected_witness :
  exists b, encodeDeterministicCbor (CText (marked (js "hi"))) = Ok b
            /\ decodeDeterministicCbor b 2048 = Throw (js "non_canonical_cbor").
Proof. apply marked_text_rejected; vm_compute; (reflexivity || discriminate). Defined.
