(* ===== verification/Records.v ===== *)
(** * Record codecs over deterministic CBOR

    Every record of the payload protocol is written as a map with text keys and
    read back field by field.  This file has what those codecs share: reading a
    token or a number field, and the two directions of the correspondence
    between the entries a codec writes and the map a decoder reads
    ([record_written], [record_read]); each codec's theorem is an instance. *)
From Stdlib Require Import Sorting.Sorted.
From S2P Require Import Prelude JsRuntime Collections Base64Url Cbor CborFacts.

(** ** Fields *)

Definition token_field (map : CborMap) (name : jsstring) (size : Z) : result jsstring :=
  let? value := getRequiredEntry map name in
  let? b := readBytes value name (Some size) in
  Ok (encodeBase64URL b).

Definition number_field (map : CborMap) (name : jsstring) : result Z :=
  let? value := getRequiredEntry map name in readUint value name.

Definition text_field (map : CborMap) (name : jsstring) : result jsstring :=
  let? value := getRequiredEntry map name in readText value name.

Definition bytes_field (map : CborMap) (name : jsstring) (size : option Z) : result bytes :=
  let? value := getRequiredEntry map name in readBytes value name size.

Lemma getRequiredEntry_Ok map name v :
  getRequiredEntry map name = Ok v <-> map_get map name = Some v.
Proof.
  unfold getRequiredEntry, find_entry, result_of_option. case_match; naive_solver.
Qed.

Lemma readBytes_Ok v name size b :
  readBytes v name size = Ok b <->
  v = CBytes b /\ 0 < zlen b <= maxCborBytes
  /\ match size with Some n => zlen b = n | None => True end.
Proof.
  unfold readBytes. pose proof (zlen_nonneg b). split.
  - intros H1. destruct v as [| | |c| |]; try done. pose proof (zlen_nonneg c).
    repeat case_match; simplify_eq; bool_props; (split; [done |]); lia.
  - intros (-> & Hl & Hs). test ((zlen b =? 0) || (maxCborBytes <? zlen b)) false.
    destruct size as [n|]; [|done]. by test (zlen b =? n) true.
Qed.

Lemma token_field_Ok map name size t :
  token_field map name size = Ok t <->
  exists b, map_get map name = Some (CBytes b) /\ 0 < zlen b <= maxCborBytes /\ zlen b = size
            /\ t = encodeBase64URL b.
Proof.
  unfold token_field. split.
  - destruct (getRequiredEntry map name) as [v|] eqn:E; [|done]. apply getRequiredEntry_Ok in E.
    destruct (readBytes v name (Some size)) as [b|] eqn:Eb; [|done].
    apply readBytes_Ok in Eb as (-> & ? & ?). intros. simplify_eq. eauto.
  - intros (b & Hg & Hl & Hs & ->). rewrite (proj2 (getRequiredEntry_Ok _ _ _) Hg).
    by rewrite (proj2 (readBytes_Ok (CBytes b) name (Some size) b)).
Qed.

Lemma bytes_field_Ok map name size b :
  bytes_field map name size = Ok b <->
  map_get map name = Some (CBytes b) /\ 0 < zlen b <= maxCborBytes
  /\ match size with Some n => zlen b = n | None => True end.
Proof.
  unfold bytes_field. split.
  - destruct (getRequiredEntry map name) as [v|] eqn:E; [|done]. apply getRequiredEntry_Ok in E.
    intros (-> & ? & ?)%readBytes_Ok. done.
  - intros (Hg & Hl & Hs). rewrite (proj2 (getRequiredEntry_Ok _ _ _) Hg). by apply readBytes_Ok.
Qed.

Lemma number_field_Ok map name z :
  number_field map name = Ok z <->
  map_get map name = Some (CNum (Int z)) /\ is_safe z = true /\ 0 <= z.
Proof.
  unfold number_field. split.
  - destruct (getRequiredEntry map name) as [v|] eqn:E; [|done]. apply getRequiredEntry_Ok in E.
    unfold readUint. intros. repeat case_match; simplify_eq; bool_props. done.
  - intros (Hg & Hs & Hz). rewrite (proj2 (getRequiredEntry_Ok _ _ _) Hg). simpl. rewrite Hs.
    by test (z <? 0) false.
Qed.

Lemma text_field_Ok map name s :
  text_field map name = Ok s <->
  map_get map name = Some (CText s) /\ s <> [] /\ zlen (utf8_encode s) <= maxCborTextBytes.
Proof.
  unfold text_field. split.
  - destruct (getRequiredEntry map name) as [v|] eqn:E; [|done]. apply getRequiredEntry_Ok in E.
    unfold readText. intros. repeat case_match; simplify_eq; bool_props. split; [done |].
    split; [by intros -> | done].
  - intros (Hg & Hs & Hz). rewrite (proj2 (getRequiredEntry_Ok _ _ _) Hg). simpl.
    assert (zlen s <> 0) by (rewrite zlen_zero_iff; done).
    by test ((zlen s =? 0) || (maxCborTextBytes <? zlen (utf8_encode s))) false.
Qed.

(** ** Tokens

    A token is the base64url text of a fixed number of bytes; it is canonical
    when it is the text the encoder writes for them. *)

Definition canonical_token (t : jsstring) : bool :=
  match decodeBase64URL t with Ok b => str_eqb (encodeBase64URL b) t | Throw _ => false end.

Lemma validToken_decode t n :
  validToken t n = true <-> exists b, decodeBase64URL t = Ok b /\ zlen b = n.
Proof.
  unfold validToken. split.
  - case_match; [|done]. intros ?%Z.eqb_eq. eauto.
  - intros (b & -> & ?). by apply Z.eqb_eq.
Qed.

Lemma token_written b : bytes_ok b -> 0 < zlen b ->
  decodeBase64URL (encodeBase64URL b) = Ok b /\ canonical_token (encodeBase64URL b) = true
  /\ validToken (encodeBase64URL b) (zlen b) = true.
Proof.
  intros Hb Hl. assert (Hd : decodeBase64URL (encodeBase64URL b) = Ok b).
  { apply decode_encodeBase64URL; [done |]. intros ->. done. }
  split; [done |]. unfold canonical_token, validToken. rewrite Hd. split; [apply str_eqb_refl |].
  by apply Z.eqb_eq.
Qed.

Lemma canonical_token_eq t b :
  canonical_token t = true -> decodeBase64URL t = Ok b -> encodeBase64URL b = t /\ bytes_ok b.
Proof.
  unfold canonical_token. intros H E. rewrite E in H. split; [by apply str_eqb_true |].
  by apply decodeBase64URL_ok in E as (_ & ? & _).
Qed.

(** ** Writing and reading a record *)

Lemma rejectUnknownEntries_Ok es names :
  rejectUnknownEntries es names = Ok tt <-> Forall (fun k => k ∈ names) (map_keys es).
Proof.
  unfold rejectUnknownEntries, map_keys. rewrite each_result_Ok, Forall_fmap.
  apply Forall_iff. intros e. simpl. case_bool_decide; naive_solver.
Qed.

(** The order in which a codec lists the entries does not matter. *)
Lemma encode_map_perm es es' :
  encodable (CMap es) = true -> Permutation es es' ->
  encodable (CMap es') = true
  /\ encodeDeterministicCbor (CMap es') = encodeDeterministicCbor (CMap es).
Proof.
  intros He Hp. pose proof (encodable_map_inv es He) as (Hl & Hn & Hf).
  assert (He' : encodable (CMap es') = true).
  { apply encodable_map_intro; [by rewrite <- (zlen_perm _ _ Hp) | by rewrite <- Hp | by rewrite <- Hp]. }
  split; [done |]. rewrite !encode_total, !enc_map by done. rewrite (zlen_perm _ _ Hp).
  enough (sort_by key_cmp es = sort_by key_cmp es') as -> by done.
  apply (sorted_perm_eq key_cmp key_cmp_total key_cmp_trans).
  - intros x y Hx Hy Hxy Hyx. rewrite elem_of_sort_by in Hx, Hy.
    assert (E : key_cmp x y = 0) by (pose proof (proj1 (compareBytes_anti _ _) Hyx); unfold key_cmp in *; lia).
    rewrite Forall_forall in Hf. apply compareBytes_eq, encoded_key_inj in E; [| by apply Hf..].
    destruct x as [k v], y as [k' v']. simpl in E. subst k'. f_equal.
    apply (elem_map_get (V := CborValue)) in Hx, Hy; [| done..]. congruence.
  - apply (sort_by_sorted key_cmp key_cmp_total key_cmp_trans).
  - apply (sort_by_sorted key_cmp key_cmp_total key_cmp_trans).
  - by rewrite !sort_by_perm.
Qed.

Lemma canon_flat entries :
  Forall (fun e => canon e.2 = e.2) entries -> canon_entry <$> entries = entries.
Proof.
  induction 1 as [|[k v] es Hv _ IH]; csimpl; [done |]. unfold canon_entry at 1. simpl in *.
  by rewrite Hv, IH.
Qed.

Lemma record_read b maxBytes es names entries :
  bytes_ok b -> decodeDeterministicCbor b maxBytes = Ok (CMap es) ->
  rejectUnknownEntries es names = Ok tt ->
  map_wf entries -> Forall (fun k => k ∈ names) (map_keys entries) ->
  (forall k, k ∈ names -> map_get es k = map_get entries k) ->
  encodeDeterministicCbor (CMap entries) = Ok b /\ encodable (CMap entries) = true
  /\ Forall (fun e => canon e.2 = e.2) entries.
Proof.
  intros Hb Hd Hu Hwf Hnames Hget.
  apply decode_Ok in Hd as (_ & He & Hc & Hv); [|done]. apply rejectUnknownEntries_Ok in Hu.
  pose proof (encodable_map_inv es He) as (_ & Hn & _).
  assert (Hp : Permutation es entries).
  { apply map_get_perm; [done | done |]. intros k. destruct (decide (k ∈ names)) as [|Hk]; [auto |].
    rewrite !(proj2 (map_get_None _ _)); [done | |]; intros Hin; apply Hk.
    - by eapply (proj1 (Forall_forall _ _) Hnames).
    - by eapply (proj1 (Forall_forall _ _) Hu). }
  destruct (encode_map_perm es entries He Hp) as [He' Henc]. split; [congruence |]. split; [done |].
  rewrite <- Hp. rewrite canon_map in Hc. injection Hc as Hc.
  assert (Hsorted : sort_by key_cmp es = es).
  { apply sort_by_id. rewrite <- Hc. apply cmp_le_sorted_canon. }
  rewrite Hsorted in Hc. apply Forall_forall. intros e Hin.
  apply list_elem_of_lookup in Hin as [i Hi]. pose proof Hi as Hi'. rewrite <- Hc in Hi'.
  rewrite list_lookup_fmap, Hi in Hi'. simpl in Hi'. injection Hi' as Hi'. destruct e.
  unfold canon_entry in Hi'. simpl in *. congruence.
Qed.

Lemma record_written b maxBytes names entries :
  encodable (CMap entries) = true -> encodeDeterministicCbor (CMap entries) = Ok b ->
  zlen b <= maxBytes -> Forall (fun e => canon e.2 = e.2) entries ->
  Forall (fun k => k ∈ names) (map_keys entries) ->
  bytes_ok b /\ zlen b <> 0
  /\ exists es, decodeDeterministicCbor b maxBytes = Ok (CMap es)
       /\ rejectUnknownEntries es names = Ok tt
       /\ forall k, map_get es k = map_get entries k.
Proof.
  intros He Hv Hm Hc Hn. pose proof (encodable_map_inv _ He) as (_ & Hwf & _).
  rewrite (encode_total _ He) in Hv. simplify_eq. split; [by apply enc_bytes_ok |].
  split; [by apply enc_nonempty |].
  exists (canon_entry <$> sort_by key_cmp entries). rewrite <- canon_map.
  pose proof (sort_by_perm key_cmp entries) as Hp.
  assert (Hce : canon_entry <$> sort_by key_cmp entries = sort_by key_cmp entries).
  { apply canon_flat. by rewrite Hp. }
  split; [by apply decode_enc |]. rewrite Hce. split.
  - apply rejectUnknownEntries_Ok. unfold map_keys. by rewrite Hp.
  - intros k. symmetry. by apply perm_map_get.
Qed.

(** What the fields of a decoded record are. *)
Lemma encodable_get es k v :
  encodable (CMap es) = true -> map_get es k = Some v -> encodable v = true.
Proof.
  intros (_ & _ & Hf)%encodable_map_inv Hg%map_get_Some_elem. rewrite Forall_forall in Hf.
  by apply (Hf (k, v)).
Qed.

Lemma encodable_bytes b : encodable (CBytes b) = true <-> bytes_ok b /\ zlen b <= maxCborBytes.
Proof. simpl. rewrite andb_true_iff, bool_decide_eq_true, Z.leb_le. done. Qed.

Lemma encodable_text_iff s :
  encodable (CText s) = true <-> plain_text s = true /\ zlen (utf8_encode s) <= maxCborTextBytes.
Proof. simpl. unfold encodable_text. rewrite andb_true_iff, Z.leb_le. done. Qed.

Lemma encodable_num z : encodable (CNum (Int z)) = true <-> is_safe z = true /\ 0 <= z.
Proof. simpl. rewrite andb_true_iff, Z.leb_le. done. Qed.

(** A token of a decoded record is canonical, and decodes to the bytes it was
    read from. *)
Lemma token_field_sound es key n t :
  encodable (CMap es) = true -> token_field es key n = Ok t ->
  exists b, map_get es key = Some (CBytes b) /\ decodeBase64URL t = Ok b
            /\ canonical_token t = true /\ bytes_ok b.
Proof.
  intros He (b & Hg & Hl & Hn & ->)%token_field_Ok. exists b.
  destruct (proj1 (encodable_bytes b) (encodable_get _ _ _ He Hg)) as [Hb _].
  destruct (token_written b Hb) as (Hd & Hc & _); [lia | done].
Qed.

Lemma bytes_field_sound es key n b :
  encodable (CMap es) = true -> bytes_field es key n = Ok b ->
  map_get es key = Some (CBytes b) /\ bytes_ok b.
Proof.
  intros He (Hg & _)%bytes_field_Ok. split; [done |].
  by destruct (proj1 (encodable_bytes b) (encodable_get _ _ _ He Hg)).
Qed.

Lemma text_sound_plain es key s :
  encodable (CMap es) = true -> map_get es key = Some (CText s) -> plain_text s = true.
Proof. intros He Hg. by destruct (proj1 (encodable_text_iff s) (encodable_get _ _ _ He Hg)). Qed.

(** ** Sizes *)

Definition sum_lengths (f : jsstring * CborValue -> Z) (es : CborMap) : Z :=
  foldr (fun e n => f e + n) 0 es.

Lemma sum_lengths_perm f es es' : Permutation es es' -> sum_lengths f es = sum_lengths f es'.
Proof. induction 1; simpl; lia. Qed.

Lemma zlen_concat {A} (f : A -> bytes) l : zlen (concat (f <$> l)) = foldr (fun x n => zlen (f x) + n) 0 l.
Proof. induction l as [|x l IH]; csimpl; [done |]. by rewrite zlen_app, IH. Qed.

Lemma encodeHeader_small major v : v <= 0xffff -> zlen (encodeHeader major v) <= 3.
Proof. intros. unfold encodeHeader, zlen. repeat case_match; bool_props; simpl; lia. Qed.

Lemma encodeHeader_le9 major v : zlen (encodeHeader major v) <= 9.
Proof. unfold encodeHeader, zlen. repeat case_match; simpl; lia. Qed.

(** An upper bound on the size of an encoded value of a flat record. *)
Definition value_size (v : CborValue) : Z :=
  match v with
  | CNum _ => 9
  | CText s => 3 + zlen (utf8_encode s)
  | CBytes b => 3 + zlen b
  | CBool _ => 1
  | v => zlen (enc v)
  end.

Lemma value_size_ge v : encodable v = true -> zlen (enc v) <= value_size v.
Proof.
  intros He. destruct v as [[]|[z|]|s|b|vs|es]; simpl; try (done || lia).
  - apply encodable_num in He as [Hs Hz]. unfold enc. simpl. rewrite Hs. test (z <? 0) false. simpl.
    apply encodeHeader_le9.
  - apply encodable_text_iff in He as [_ Hl]. unfold maxCborTextBytes in Hl. unfold enc. simpl.
    unfold encodeBytes. rewrite zlen_app. pose proof (encodeHeader_small 3 (zlen (utf8_encode s))). lia.
  - apply encodable_bytes in He as [_ Hl]. unfold maxCborBytes in Hl. unfold enc. simpl.
    unfold encodeBytes. rewrite zlen_app. pose proof (encodeHeader_small 2 (zlen b)). lia.
Qed.

Definition entry_size (e : jsstring * CborValue) : Z := zlen (encoded_key e.1) + value_size e.2.

Lemma record_size es b :
  encodable (CMap es) = true -> encodeDeterministicCbor (CMap es) = Ok b ->
  zlen b <= 3 + sum_lengths entry_size es.
Proof.
  intros He Hb. rewrite (encode_total _ He) in Hb. simplify_eq. rewrite enc_map by done.
  pose proof (encodable_map_inv es He) as (Hl & _ & Hf).
  rewrite zlen_app, zlen_concat. unfold maxCborCollectionEntries in Hl.
  assert (zlen (encodeHeader 5 (zlen es)) <= 3) by (apply encodeHeader_small; lia).
  pose proof (sort_by_perm key_cmp es) as Hp. rewrite (sum_lengths_perm _ _ _ (Permutation_sym Hp)).
  rewrite <- Hp in Hf. clear He Hl Hp.
  enough (foldr (fun x n => zlen (enc_entry x) + n) 0 (sort_by key_cmp es)
          <= sum_lengths entry_size (sort_by key_cmp es)) by lia.
  induction Hf as [|[k v] l [_ Hv] _ IH]; simpl; [lia |].
  unfold enc_entry at 1, entry_size at 1. simpl. rewrite zlen_app.
  pose proof (value_size_ge v Hv). lia.
Qed.

(** ** Tactics for the codecs *)

(** Every name of a record, one goal each. *)
Ltac each_name := repeat (apply Forall_cons_2 || apply Forall_nil_2).

(** Evaluates the lengths of the closed keys of a record. *)
Ltac key_lengths :=
  repeat match goal with
  | |- context [zlen (encoded_key ?k)] =>
      let n := eval vm_compute in (zlen (encoded_key k)) in
      change (zlen (encoded_key k)) with n
  end.

(** The bound on the size of a record, as arithmetic over its fields. *)
Ltac entry_sizes := cbn [sum_lengths foldr entry_size fst snd value_size]; unfold entry_size; cbn [fst snd value_size]; key_lengths.

Lemma encodable_entries es :
  zlen es <= maxCborCollectionEntries -> bool_decide (NoDup es.*1) = true ->
  forallb (fun k => encodable_text k) es.*1 = true ->
  Forall (fun e => encodable e.2 = true) es -> encodable (CMap es) = true.
Proof.
  intros Hl Hn%bool_decide_eq_true Hk Hv. apply encodable_map_intro; [done | done |].
  rewrite Forall_forall in *. intros e He. split; [| by apply Hv].
  eapply forallb_forall; [exact Hk |]. apply list_elem_of_In, list_elem_of_fmap. by exists e.
Qed.

Lemma canonical_validToken t n :
  canonical_token t = true -> validToken t n = true ->
  exists b, decodeBase64URL t = Ok b /\ encodeBase64URL b = t /\ bytes_ok b /\ zlen b = n.
Proof.
  intros Hc (b & Hb & Hl)%validToken_decode. exists b.
  destruct (canonical_token_eq t b Hc Hb). done.
Qed.

Lemma encode_entries_inv seen es l :
  encode_entries encodeDeterministicCbor seen es = Ok l ->
  Forall (fun e => is_ok (encodeDeterministicCbor e.2) = true) es.
Proof.
  revert seen l. induction es as [|[k v] es IH]; intros seen l H; [constructor |].
  cbn [encode_entries] in H. case_match; [done |].
  step H as e Ev. step H as rest Er. constructor; [simpl; by rewrite Ev | by eapply IH].
Qed.

(** A number the encoder took is a safe unsigned integer. *)
Lemma encoded_number es b k z :
  encodeDeterministicCbor (CMap es) = Ok b -> (k, CNum (Int z)) ∈ es ->
  encodable (CNum (Int z)) = true.
Proof.
  cbn [encodeDeterministicCbor]. unfold encodeMap. intros H Hin. case_match; [done |].
  step H as l El. apply encode_entries_inv in El. rewrite Forall_forall in El.
  specialize (El _ Hin). simpl in El. unfold encodeUnsigned in El. apply encodable_num.
  destruct (is_safe z), (Z.ltb_spec z 0); simpl in El; done.
Qed.

(** One field of a record is encodable, from the facts about it in the context. *)
Ltac field_encodable :=
  first
    [ assumption
    | apply encodable_bytes; unfold maxCborBytes; split; [assumption | lia]
    | apply encodable_num; unfold is_safe, MAX_SAFE_INTEGER; split; lia
    | apply encodable_text_iff; unfold maxCborTextBytes; split; [assumption | lia]
    | vm_compute; reflexivity ].

(** Reads one field back, from the bytes [b], text or number it was written as. *)
Ltac read_token es Hg t b :=
  erewrite (proj2 (token_field_Ok es _ _ t))
    by (exists b; rewrite Hg; unfold maxCborBytes; split; [reflexivity | repeat split; (lia || congruence)]).

Ltac read_number es Hg Hs :=
  erewrite (proj2 (number_field_Ok es _ _))
    by (rewrite Hg; split; [reflexivity | apply encodable_num; first [exact Hs | field_encodable]]).

Ltac read_bytes es Hg :=
  erewrite (proj2 (bytes_field_Ok es _ _ _))
    by (rewrite Hg; unfold maxCborBytes; split; [reflexivity | repeat split; lia]).

Ltac read_text es Hg :=
  erewrite (proj2 (text_field_Ok es _ _))
    by (rewrite Hg; split; [reflexivity | split; [ | lia]]).

Lemma text_nonempty s : 0 < zlen (utf8_encode s) -> s <> [].
Proof. intros H ->. done. Qed.

(** Two records with one encoding have the same fields. *)
Lemma same_encoding_lookup es es' b k :
  encodable (CMap es) = true -> encodable (CMap es') = true ->
  encodeDeterministicCbor (CMap es) = Ok b -> encodeDeterministicCbor (CMap es') = Ok b ->
  Forall (fun e => canon e.2 = e.2) es -> Forall (fun e => canon e.2 = e.2) es' ->
  map_get es k = map_get es' k.
Proof.
  intros He He' Hb Hb' Hc Hc'.
  destruct (record_written b (zlen b) (map_keys es) es) as (_ & _ & f & Hd & _ & Hg);
    [done.. | by apply Forall_forall | ].
  destruct (record_written b (zlen b) (map_keys es') es') as (_ & _ & f' & Hd' & _ & Hg');
    [done.. | by apply Forall_forall | ].
  rewrite Hd in Hd'. simplify_eq. by rewrite <- Hg, Hg'.
Qed.
