(* ===== verification/Attachment.v ===== *)
(** * [application-payload/attachment.ts]: manifests, decisions and chunks

    The validators, the six codec functions and the signing bytes.  The
    numeric fields are integers: a value that is not integral (or is outside
    the safe range) is rejected by [encodeUnsigned] in every function that
    encodes, and never comes out of a decoder.  [Math.ceil(byteCount /
    chunkBytes)] is evaluated after the bounds on both (at most 2^24 over at
    least 256), where the floating-point quotient rounds up exactly. *)
From S2P Require Import Prelude JsRuntime Collections Base64Url Cbor CborFacts Records.

Definition attachmentVersion : jsstring := js "branch.attachment/0.draft".
Definition attachmentSignatureDomain : jsstring := js "branch.attachment.signature/0.draft".
Definition maxAttachmentChunkBytes : Z := 3072.
Definition maxRelayAttachmentBytes : Z := 4 * 1024 * 1024.
Definition maxDirectAttachmentBytes : Z := 16 * 1024 * 1024.
Definition maxAttachmentTTLms : Z := 15 * 60 * 1000.
Definition maxAttachmentChunks : Z := 8192.

Module Manifest.
Record AttachmentManifest := mk {
  version : jsstring;
  transferId : jsstring;
  manifestId : jsstring;
  issuedAt : Z;
  expiresAt : Z;
  fileName : jsstring;
  mediaType : jsstring;
  byteCount : Z;
  chunkBytes : Z;
  chunkCount : Z;
  sha256 : jsstring;
  signature : bytes;
}.
End Manifest.
Abbreviation AttachmentManifest := Manifest.AttachmentManifest.

Module Chunk.
Record AttachmentChunk := mk {
  version : jsstring;
  transferId : jsstring;
  manifestId : jsstring;
  index : Z;
  content : bytes;
}.
End Chunk.
Abbreviation AttachmentChunk := Chunk.AttachmentChunk.

Inductive AttachmentDecisionKind : Type := accept | reject | cancel.

#[export] Instance decision_kind_eq_dec : EqDecision AttachmentDecisionKind.
Proof. solve_decision. Defined.

Module Verdict.
Record AttachmentDecision := mk {
  version : jsstring;
  kind : AttachmentDecisionKind;
  transferId : jsstring;
  manifestId : jsstring;
  issuedAt : Z;
  expiresAt : Z;
  signature : bytes;
}.
End Verdict.
Abbreviation AttachmentDecision := Verdict.AttachmentDecision.

Definition kind_text (kind : AttachmentDecisionKind) : jsstring :=
  match kind with accept => js "accept" | reject => js "reject" | cancel => js "cancel" end.

(** ** Validators *)

Definition validateManifest (value : AttachmentManifest) : result unit :=
  if negb (str_eqb (Manifest.version value) attachmentVersion)
     || negb (validToken (Manifest.transferId value) 16)
     || negb (validToken (Manifest.manifestId value) 32)
     || negb (validToken (Manifest.sha256 value) 32)
     || negb (zlen (Manifest.signature value) =? 64)
     || (Manifest.expiresAt value <=? Manifest.issuedAt value)
     || (maxAttachmentTTLms <? Manifest.expiresAt value - Manifest.issuedAt value)
     || (Manifest.byteCount value <? 1)
     || (maxDirectAttachmentBytes <? Manifest.byteCount value)
     || (Manifest.chunkBytes value <? 256)
     || (maxAttachmentChunkBytes <? Manifest.chunkBytes value)
     || (Manifest.chunkCount value <? 1)
     || (maxAttachmentChunks <? Manifest.chunkCount value)
     || negb (Manifest.chunkCount value =? ceil_div (Manifest.byteCount value) (Manifest.chunkBytes value))
     || (text_bytes (Manifest.fileName value) =? 0)
     || (160 <? text_bytes (Manifest.fileName value))
     || (text_bytes (Manifest.mediaType value) =? 0)
     || (128 <? text_bytes (Manifest.mediaType value))
  then Throw (js "invalid attachment manifest") else Ok tt.

(** The kind is one of the three by its type. *)
Definition validateDecision (value : AttachmentDecision) : result unit :=
  if negb (str_eqb (Verdict.version value) attachmentVersion)
     || negb (validToken (Verdict.transferId value) 16)
     || negb (validToken (Verdict.manifestId value) 32)
     || negb (zlen (Verdict.signature value) =? 64)
     || (Verdict.expiresAt value <=? Verdict.issuedAt value)
     || (maxAttachmentTTLms <? Verdict.expiresAt value - Verdict.issuedAt value)
  then Throw (js "invalid attachment decision") else Ok tt.

Definition validateChunk (value : AttachmentChunk) : result unit :=
  if negb (str_eqb (Chunk.version value) attachmentVersion)
     || negb (validToken (Chunk.transferId value) 16)
     || negb (validToken (Chunk.manifestId value) 32)
     || negb (is_safe (Chunk.index value))
     || (Chunk.index value <? 0)
     || (zlen (Chunk.content value) =? 0)
     || (maxAttachmentChunkBytes <? zlen (Chunk.content value))
  then Throw (js "invalid attachment chunk") else Ok tt.

Definition validateChunkForManifest (chunk : AttachmentChunk) (manifest : AttachmentManifest)
  : result unit :=
  let? _ := validateChunk chunk in
  let? _ := validateManifest manifest in
  if negb (str_eqb (Chunk.transferId chunk) (Manifest.transferId manifest))
     || negb (str_eqb (Chunk.manifestId chunk) (Manifest.manifestId manifest))
     || (Manifest.chunkCount manifest <=? Chunk.index chunk)
     || (Manifest.chunkBytes manifest <? zlen (Chunk.content chunk))
     || ((Chunk.index chunk + 1 <? Manifest.chunkCount manifest)
         && negb (zlen (Chunk.content chunk) =? Manifest.chunkBytes manifest))
  then Throw (js "attachment chunk does not match manifest") else Ok tt.

(** ** Maps *)

Definition base (value : AttachmentManifest) : result CborMap :=
  let? transfer := decodeBase64URL (Manifest.transferId value) in
  let? manifest := decodeBase64URL (Manifest.manifestId value) in
  let? digest := decodeBase64URL (Manifest.sha256 value) in
  Ok [(js "version", CText (Manifest.version value));
      (js "transfer_id", CBytes transfer);
      (js "manifest_id", CBytes manifest);
      (js "issued_at", CNum (Int (Manifest.issuedAt value)));
      (js "expires_at", CNum (Int (Manifest.expiresAt value)));
      (js "file_name", CText (Manifest.fileName value));
      (js "media_type", CText (Manifest.mediaType value));
      (js "byte_count", CNum (Int (Manifest.byteCount value)));
      (js "chunk_bytes", CNum (Int (Manifest.chunkBytes value)));
      (js "chunk_count", CNum (Int (Manifest.chunkCount value)));
      (js "sha256", CBytes digest)].

Definition manifestMap (value : AttachmentManifest) (signature : bool) : result CborMap :=
  let? entries := base value in
  Ok (if signature then entries ++ [(js "signature", CBytes (Manifest.signature value))]
      else entries).

Definition decisionMap (value : AttachmentDecision) (signature : bool) : result CborMap :=
  let? transfer := decodeBase64URL (Verdict.transferId value) in
  let? manifest := decodeBase64URL (Verdict.manifestId value) in
  let entries :=
    [(js "version", CText (Verdict.version value));
     (js "kind", CText (kind_text (Verdict.kind value)));
     (js "transfer_id", CBytes transfer);
     (js "manifest_id", CBytes manifest);
     (js "issued_at", CNum (Int (Verdict.issuedAt value)));
     (js "expires_at", CNum (Int (Verdict.expiresAt value)))] in
  Ok (if signature then entries ++ [(js "signature", CBytes (Verdict.signature value))]
      else entries).

Definition chunkMap (value : AttachmentChunk) : result CborMap :=
  let? transfer := decodeBase64URL (Chunk.transferId value) in
  let? manifest := decodeBase64URL (Chunk.manifestId value) in
  Ok [(js "version", CText (Chunk.version value));
      (js "transfer_id", CBytes transfer);
      (js "manifest_id", CBytes manifest);
      (js "index", CNum (Int (Chunk.index value)));
      (js "bytes", CBytes (Chunk.content value))].

(** The domain, a zero byte and the encoded map without its signature. *)
Definition signed (map : CborMap) : result bytes :=
  let prefix := utf8_encode (attachmentSignatureDomain ++ [0]) in
  let? body := encodeDeterministicCbor (CMap map) in
  Ok (prefix ++ body).

Definition strictMap (b : bytes) (names : list jsstring) : result CborMap :=
  if (zlen b =? 0) || (4096 <? zlen b) then Throw (js "invalid attachment size")
  else
    let? value := decodeDeterministicCbor b 4096 in
    let? map := readCborMap value (js "attachment") in
    let? _ := rejectUnknownEntries map names in
    Ok map.

Definition readVersion (map : CborMap) : result jsstring :=
  let? value := getRequiredEntry map (js "version") in
  let? text := readText value (js "version") in
  if negb (str_eqb text attachmentVersion) then Throw (js "unsupported attachment version")
  else Ok attachmentVersion.

Definition token (map : CborMap) (name : jsstring) (size : Z) : result jsstring :=
  token_field map name size.

Definition number_of (map : CborMap) (name : jsstring) : result Z := number_field map name.

Definition boundedText (map : CborMap) (name : jsstring) (max : Z) : result jsstring :=
  let? value := text_field map name in
  if max <? text_bytes value then Throw (js "invalid " ++ name) else Ok value.

(** ** The exported functions *)

Definition encodeAttachmentManifest (manifest : AttachmentManifest) : result bytes :=
  let? _ := validateManifest manifest in
  let? map := manifestMap manifest true in
  encodeDeterministicCbor (CMap map).

Definition attachmentManifestSigningBytes (manifest : AttachmentManifest) : result bytes :=
  let? _ := validateManifest manifest in
  let? map := manifestMap manifest false in
  signed map.

Definition encodeAttachmentDecision (decision : AttachmentDecision) : result bytes :=
  let? _ := validateDecision decision in
  let? map := decisionMap decision true in
  encodeDeterministicCbor (CMap map).

Definition attachmentDecisionSigningBytes (decision : AttachmentDecision) : result bytes :=
  let? _ := validateDecision decision in
  let? map := decisionMap decision false in
  signed map.

Definition manifest_names : list jsstring :=
  [js "version"; js "transfer_id"; js "manifest_id"; js "issued_at"; js "expires_at";
   js "file_name"; js "media_type"; js "byte_count"; js "chunk_bytes"; js "chunk_count";
   js "sha256"; js "signature"].

Definition decodeAttachmentManifest (b : bytes) : result AttachmentManifest :=
  let? map := strictMap b manifest_names in
  let? version := readVersion map in
  let? transferId := token map (js "transfer_id") 16 in
  let? manifestId := token map (js "manifest_id") 32 in
  let? issuedAt := number_of map (js "issued_at") in
  let? expiresAt := number_of map (js "expires_at") in
  let? fileName := boundedText map (js "file_name") 160 in
  let? mediaType := boundedText map (js "media_type") 128 in
  let? byteCount := number_of map (js "byte_count") in
  let? chunkBytes := number_of map (js "chunk_bytes") in
  let? chunkCount := number_of map (js "chunk_count") in
  let? sha256 := token map (js "sha256") 32 in
  let? signature := bytes_field map (js "signature") (Some 64) in
  let manifest := Manifest.mk version transferId manifestId issuedAt expiresAt fileName
                    mediaType byteCount chunkBytes chunkCount sha256 signature in
  let? _ := validateManifest manifest in
  Ok manifest.

Definition read_decision_kind (text : jsstring) : result AttachmentDecisionKind :=
  if str_eqb text (js "accept") then Ok accept
  else if str_eqb text (js "reject") then Ok reject
  else if str_eqb text (js "cancel") then Ok cancel
  else Throw (js "invalid attachment decision kind").

Definition decision_names : list jsstring :=
  [js "version"; js "kind"; js "transfer_id"; js "manifest_id"; js "issued_at";
   js "expires_at"; js "signature"].

Definition decodeAttachmentDecision (b : bytes) : result AttachmentDecision :=
  let? map := strictMap b decision_names in
  let? text := text_field map (js "kind") in
  let? version := readVersion map in
  let? kind := read_decision_kind text in
  let? transferId := token map (js "transfer_id") 16 in
  let? manifestId := token map (js "manifest_id") 32 in
  let? issuedAt := number_of map (js "issued_at") in
  let? expiresAt := number_of map (js "expires_at") in
  let? signature := bytes_field map (js "signature") (Some 64) in
  let decision := Verdict.mk version kind transferId manifestId issuedAt expiresAt signature in
  let? _ := validateDecision decision in
  Ok decision.

Definition encodeAttachmentChunk (chunk : AttachmentChunk) : result bytes :=
  let? _ := validateChunk chunk in
  let? map := chunkMap chunk in
  encodeDeterministicCbor (CMap map).

Definition chunk_names : list jsstring :=
  [js "version"; js "transfer_id"; js "manifest_id"; js "index"; js "bytes"].

Definition decodeAttachmentChunk (b : bytes) : result AttachmentChunk :=
  let? map := strictMap b chunk_names in
  let? version := readVersion map in
  let? transferId := token map (js "transfer_id") 16 in
  let? manifestId := token map (js "manifest_id") 32 in
  let? index := number_of map (js "index") in
  let? content := bytes_field map (js "bytes") None in
  let chunk := Chunk.mk version transferId manifestId index content in
  let? _ := validateChunk chunk in
  Ok chunk.

(** ** Facts *)

Lemma strictMap_Ok b names map :
  strictMap b names = Ok map <->
  decodeDeterministicCbor b 4096 = Ok (CMap map) /\ rejectUnknownEntries map names = Ok tt
  /\ 0 < zlen b <= 4096.
Proof.
  unfold strictMap. pose proof (zlen_nonneg b). split.
  - case_match eqn:Hl; [done |]. intros H1. step H1 as value Ed. step H1 as map' Em. step H1 as [] Eu. simplify_eq.
    destruct value; simplify_eq/=. bool_props. split; [done | split; [done | lia]].
  - intros (-> & Hu & Hl). test ((zlen b =? 0) || (4096 <? zlen b)) false. simpl. by rewrite Hu.
Qed.

Lemma readVersion_Ok map v :
  readVersion map = Ok v <->
  map_get map (js "version") = Some (CText attachmentVersion) /\ v = attachmentVersion.
Proof.
  unfold readVersion. split.
  - intros H. run H. destruct (str_eqb _ _) eqn:Es; [|done]. apply str_eqb_true in Es as ->.
    simpl in H. simplify_eq. split; [|done].
    assert (Ht : text_field map (js "version") = Ok attachmentVersion) by (unfold text_field; by rewrite E).
    by apply text_field_Ok in Ht as [? _].
  - intros (Hg & ->). apply getRequiredEntry_Ok in Hg as ->.
    replace (readText _ _) with (Ok attachmentVersion) by closed. by rewrite str_eqb_refl.
Qed.

Lemma validateChunk_Ok c :
  validateChunk c = Ok tt <->
  Chunk.version c = attachmentVersion /\ validToken (Chunk.transferId c) 16 = true
  /\ validToken (Chunk.manifestId c) 32 = true /\ is_safe (Chunk.index c) = true
  /\ 0 <= Chunk.index c /\ 0 < zlen (Chunk.content c) <= maxAttachmentChunkBytes.
Proof.
  unfold validateChunk. pose proof (zlen_nonneg (Chunk.content c)).
  rewrite <- (str_eqb_true (Chunk.version c)).
  case_match eqn:E; bool_props; (split; [intros; simplify_eq | intros]).
  - destruct_and?. guard_cases E.
  - repeat split; done || lia.
  - done.
Qed.

Definition canonical_chunk (c : AttachmentChunk) : bool :=
  canonical_token (Chunk.transferId c) && canonical_token (Chunk.manifestId c)
  && bool_decide (bytes_ok (Chunk.content c)).

Lemma decodeAttachmentChunk_sound b c :
  bytes_ok b -> decodeAttachmentChunk b = Ok c ->
  encodeAttachmentChunk c = Ok b /\ canonical_chunk c = true.
Proof.
  intros Hb H. unfold decodeAttachmentChunk in H.
  step H as es E. step H as version E0. step H as transferId E1. step H as manifestId E2.
  step H as index E3. step H as content E4. step H as [] E5. injection H as <-.
  apply strictMap_Ok in E as (Hd & Hu & Hl).
  pose proof (decode_Ok _ _ _ Hb Hd) as (_ & He & _).
  apply readVersion_Ok in E0 as [Ev ->].
  destruct (token_field_sound _ _ _ _ He E1) as (t & Et & Dt & Ct & _).
  destruct (token_field_sound _ _ _ _ He E2) as (m & Em & Dm & Cm & _).
  destruct (bytes_field_sound _ _ _ _ He E4) as [Ec Hcb].
  apply number_field_Ok in E3 as (Ei & Hi & Hi0).
  split.
  - unfold encodeAttachmentChunk. rewrite E5. unfold chunkMap. simpl. rewrite Dt, Dm.
    eapply (record_read b 4096 es chunk_names); [done | done | done | | |].
    + apply (bool_decide_eq_true_1 (NoDup _)). closed.
    + apply (bool_decide_eq_true_1 (Forall _ _)). closed.
    + apply Forall_forall. unfold chunk_names. each_name; by rewrite ?Ev, ?Et, ?Em, ?Ei, ?Ec.
  - unfold canonical_chunk. simpl. by rewrite Ct, Cm, bool_decide_true.
Qed.

Lemma decodeAttachmentChunk_complete b c :
  encodeAttachmentChunk c = Ok b -> canonical_chunk c = true ->
  bytes_ok b /\ decodeAttachmentChunk b = Ok c.
Proof.
  intros H Hc. unfold canonical_chunk in Hc. bool_props. unfold encodeAttachmentChunk in H.
  step H as [] Ev. pose proof Ev as (Hver & Ht & Hm & Hi & Hi0 & Hl)%validateChunk_Ok.
  unfold maxAttachmentChunkBytes in Hl.
  destruct (canonical_validToken _ _ H0 Ht) as (t & Dt & Et & Htb & Htl).
  destruct (canonical_validToken _ _ H2 Hm) as (m & Dm & Em & Hmb & Hml).
  unfold chunkMap in H. rewrite Dt, Dm, Hver in H.
  match type of H with encodeDeterministicCbor (CMap ?es) = _ => set (entries := es) in * end.
  assert (He : encodable (CMap entries) = true).
  { apply encodable_entries; [vm_compute; discriminate | closed | closed |].
    each_name; cbn [snd];
      rewrite ?encodable_bytes, ?encodable_num; unfold maxCborBytes; try done; try (split; done || lia). }
  pose proof (record_size _ _ He H) as Hs.
  assert (sum_lengths entry_size entries <= 4000).
  { unfold entries. entry_sizes. change (zlen (utf8_encode attachmentVersion)) with 25. lia. }
  destruct (record_written b 4096 chunk_names entries) as (Hb & Hne & es & Hd & Hu & Hg);
    [done | done | lia | by each_name | apply (bool_decide_eq_true_1 (Forall _ _)); closed |].
  split; [done |]. pose proof (zlen_nonneg b). unfold decodeAttachmentChunk.
  rewrite (proj2 (strictMap_Ok b chunk_names es)) by (split; [done | split; [done | lia]]).
  rewrite (proj2 (readVersion_Ok es attachmentVersion)) by (by rewrite Hg).
  unfold token, number_of.
  rewrite (proj2 (token_field_Ok es _ 16 (Chunk.transferId c)))
    by (exists t; rewrite Hg; unfold maxCborBytes; repeat split; done || lia).
  rewrite (proj2 (token_field_Ok es _ 32 (Chunk.manifestId c)))
    by (exists m; rewrite Hg; unfold maxCborBytes; repeat split; done || lia).
  rewrite (proj2 (number_field_Ok es _ (Chunk.index c))) by (by rewrite Hg).
  rewrite (proj2 (bytes_field_Ok es _ None (Chunk.content c)))
    by (rewrite Hg; unfold maxCborBytes; repeat split; done || lia).
  rewrite <- Hver. by destruct c; simpl in *; rewrite Ev.
Qed.

Lemma boundedText_Ok map name max s :
  boundedText map name max = Ok s <->
  map_get map name = Some (CText s) /\ s <> [] /\ text_bytes s <= maxCborTextBytes
  /\ text_bytes s <= max.
Proof.
  unfold boundedText. split.
  - intros H. step H as v E. apply text_field_Ok in E as (? & ? & ?). case_match; simplify_eq.
    bool_props. done.
  - intros (Hg & Hs & Hl & Hm).
    rewrite (proj2 (text_field_Ok map name s)) by done. by test (max <? text_bytes s) false.
Qed.

Definition manifest_ok (m : AttachmentManifest) : Prop :=
  Manifest.version m = attachmentVersion
  /\ validToken (Manifest.transferId m) 16 = true
  /\ validToken (Manifest.manifestId m) 32 = true
  /\ validToken (Manifest.sha256 m) 32 = true
  /\ zlen (Manifest.signature m) = 64
  /\ Manifest.issuedAt m < Manifest.expiresAt m <= Manifest.issuedAt m + maxAttachmentTTLms
  /\ 1 <= Manifest.byteCount m <= maxDirectAttachmentBytes
  /\ 256 <= Manifest.chunkBytes m <= maxAttachmentChunkBytes
  /\ 1 <= Manifest.chunkCount m <= maxAttachmentChunks
  /\ Manifest.chunkCount m = ceil_div (Manifest.byteCount m) (Manifest.chunkBytes m)
  /\ 0 < text_bytes (Manifest.fileName m) <= 160
  /\ 0 < text_bytes (Manifest.mediaType m) <= 128.

Lemma validateManifest_Ok m : validateManifest m = Ok tt <-> manifest_ok m.
Proof.
  unfold validateManifest, manifest_ok, text_bytes.
  pose proof (zlen_nonneg (utf8_encode (Manifest.fileName m))).
  pose proof (zlen_nonneg (utf8_encode (Manifest.mediaType m))).
  rewrite <- (str_eqb_true (Manifest.version m)).
  case_match eqn:E; bool_props; (split; [intros; simplify_eq | intros]).
  - destruct_and?. guard_cases E.
  - repeat split; done || lia.
  - done.
Qed.

Lemma validateDecision_Ok d :
  validateDecision d = Ok tt <->
  Verdict.version d = attachmentVersion
  /\ validToken (Verdict.transferId d) 16 = true
  /\ validToken (Verdict.manifestId d) 32 = true
  /\ zlen (Verdict.signature d) = 64
  /\ Verdict.issuedAt d < Verdict.expiresAt d <= Verdict.issuedAt d + maxAttachmentTTLms.
Proof.
  unfold validateDecision. rewrite <- (str_eqb_true (Verdict.version d)).
  case_match eqn:E; bool_props; (split; [intros; simplify_eq | intros]).
  - destruct_and?. guard_cases E.
  - repeat split; done || lia.
  - done.
Qed.

Lemma read_decision_kind_Ok s k : read_decision_kind s = Ok k <-> s = kind_text k.
Proof.
  unfold read_decision_kind. split.
  - repeat case_match; intros; simplify_eq; by apply str_eqb_true.
  - intros ->. by destruct k; vm_compute.
Qed.

Definition canonical_manifest (m : AttachmentManifest) : bool :=
  canonical_token (Manifest.transferId m) && canonical_token (Manifest.manifestId m)
  && canonical_token (Manifest.sha256 m)
  && plain_text (Manifest.fileName m) && plain_text (Manifest.mediaType m)
  && bool_decide (bytes_ok (Manifest.signature m)).

Definition canonical_decision (d : AttachmentDecision) : bool :=
  canonical_token (Verdict.transferId d) && canonical_token (Verdict.manifestId d)
  && bool_decide (bytes_ok (Verdict.signature d)).

Lemma decodeAttachmentManifest_sound b m :
  bytes_ok b -> decodeAttachmentManifest b = Ok m ->
  encodeAttachmentManifest m = Ok b /\ canonical_manifest m = true.
Proof.
  intros Hb H. unfold decodeAttachmentManifest in H.
  step H as es E. step H as version E0. step H as transferId E1. step H as manifestId E2.
  step H as issuedAt E3. step H as expiresAt E4. step H as fileName E5. step H as mediaType E6.
  step H as byteCount E7. step H as chunkBytes E8. step H as chunkCount E9. step H as sha E10.
  step H as signature E11. step H as [] E12. injection H as <-.
  apply strictMap_Ok in E as (Hd & Hu & Hl).
  pose proof (decode_Ok _ _ _ Hb Hd) as (_ & He & _).
  apply readVersion_Ok in E0 as [Ev ->].
  destruct (token_field_sound _ _ _ _ He E1) as (t & Et & Dt & Ct & _).
  destruct (token_field_sound _ _ _ _ He E2) as (i & Ei & Di & Ci & _).
  destruct (token_field_sound _ _ _ _ He E10) as (h & Eh & Dh & Ch & _).
  destruct (bytes_field_sound _ _ _ _ He E11) as [Esg Hsb].
  apply number_field_Ok in E3 as (Eis & _), E4 as (Eex & _), E7 as (Ebc & _),
    E8 as (Ecb & _), E9 as (Ecc & _).
  apply boundedText_Ok in E5 as (Efn & _), E6 as (Emt & _).
  pose proof (text_sound_plain _ _ _ He Efn) as Hfp.
  pose proof (text_sound_plain _ _ _ He Emt) as Hmp.
  split.
  - unfold encodeAttachmentManifest. rewrite E12. unfold manifestMap, base. simpl.
    rewrite Dt, Di, Dh. cbn [app].
    eapply (record_read b 4096 es manifest_names); [done | done | done | | |].
    + apply (bool_decide_eq_true_1 (NoDup _)). closed.
    + apply (bool_decide_eq_true_1 (Forall _ _)). closed.
    + apply Forall_forall. unfold manifest_names.
      each_name; by rewrite ?Ev, ?Et, ?Ei, ?Eh, ?Eis, ?Eex, ?Ebc, ?Ecb, ?Ecc, ?Efn, ?Emt, ?Esg.
  - unfold canonical_manifest. simpl. by rewrite Ct, Ci, Ch, Hfp, Hmp, bool_decide_true.
Qed.

Lemma decodeAttachmentDecision_sound b d :
  bytes_ok b -> decodeAttachmentDecision b = Ok d ->
  encodeAttachmentDecision d = Ok b /\ canonical_decision d = true.
Proof.
  intros Hb H. unfold decodeAttachmentDecision in H.
  step H as es E. step H as text Ek. step H as version E0. step H as kind Ekk.
  step H as transferId E1. step H as manifestId E2.
  step H as issuedAt E3. step H as expiresAt E4.
  step H as signature E11. step H as [] E12. injection H as <-.
  apply strictMap_Ok in E as (Hd & Hu & Hl).
  pose proof (decode_Ok _ _ _ Hb Hd) as (_ & He & _).
  apply readVersion_Ok in E0 as [Ev ->].
  apply text_field_Ok in Ek as (Ek & _). apply read_decision_kind_Ok in Ekk as ->.
  destruct (token_field_sound _ _ _ _ He E1) as (t & Et & Dt & Ct & _).
  destruct (token_field_sound _ _ _ _ He E2) as (i & Ei & Di & Ci & _).
  destruct (bytes_field_sound _ _ _ _ He E11) as [Esg Hsb].
  apply number_field_Ok in E3 as (Eis & _), E4 as (Eex & _).
  split.
  - unfold encodeAttachmentDecision. rewrite E12. unfold decisionMap. simpl.
    rewrite Dt, Di.
    eapply (record_read b 4096 es decision_names); [done | done | done | | |].
    + apply (bool_decide_eq_true_1 (NoDup _)). closed.
    + apply (bool_decide_eq_true_1 (Forall _ _)). closed.
    + apply Forall_forall. unfold decision_names.
      each_name; by rewrite ?Ev, ?Et, ?Ei, ?Ek, ?Eis, ?Eex, ?Esg.
  - unfold canonical_decision. simpl. by rewrite Ct, Ci, bool_decide_true.
Qed.

Lemma decodeAttachmentManifest_complete b m :
  encodeAttachmentManifest m = Ok b -> canonical_manifest m = true ->
  bytes_ok b /\ decodeAttachmentManifest b = Ok m.
Proof.
  intros H Hc. unfold canonical_manifest in Hc. rewrite !andb_true_iff in Hc.
  destruct Hc as (((((Hct & Hci) & Hch) & Hcf) & Hcm) & Hcs%bool_decide_eq_true).
  unfold encodeAttachmentManifest in H.
  step H as [] Ev.
  pose proof Ev as (Hver & Ht & Hi & Hh & Hsg & Htime & Hbc & Hcb & Hcc & _ & Hfn & Hmt)%validateManifest_Ok.
  unfold maxDirectAttachmentBytes, maxAttachmentChunkBytes, maxAttachmentChunks in *.
  destruct (canonical_validToken _ 16 Hct Ht) as (t & Dt & Et & Htb & Htl).
  destruct (canonical_validToken _ 32 Hci Hi) as (i & Di & Ei & Hib & Hil).
  destruct (canonical_validToken _ 32 Hch Hh) as (h & Dh & Eh & Hhb & Hhl).
  unfold manifestMap, base in H. rewrite Dt, Di, Dh, Hver in H. cbn [app] in H.
  match type of H with encodeDeterministicCbor (CMap ?es) = _ => set (entries := es) in * end.
  pose proof (encoded_number entries b _ _ H (list_elem_of_lookup_2 entries 3 _ eq_refl)) as His.
  pose proof (encoded_number entries b _ _ H (list_elem_of_lookup_2 entries 4 _ eq_refl)) as Hex.
  assert (He : encodable (CMap entries) = true).
  { unfold text_bytes in *. apply encodable_entries; [vm_compute; discriminate | closed | closed |].
    each_name; cbn [snd]; field_encodable. }
  pose proof (record_size _ _ He H) as Hs.
  assert (sum_lengths entry_size entries <= 4000).
  { unfold entries. unfold text_bytes in *. entry_sizes.
    change (zlen (utf8_encode attachmentVersion)) with 25. lia. }
  destruct (record_written b 4096 manifest_names entries) as (Hb & Hne & es & Hd & Hu & Hg);
    [done | done | lia | by each_name | apply (bool_decide_eq_true_1 (Forall _ _)); closed |].
  split; [done |]. pose proof (zlen_nonneg b). unfold decodeAttachmentManifest.
  rewrite (proj2 (strictMap_Ok b manifest_names es)) by (split; [done | split; [done | lia]]).
  rewrite (proj2 (readVersion_Ok es attachmentVersion)) by (by rewrite Hg).
  unfold token, number_of.
  read_token es Hg (Manifest.transferId m) t. read_token es Hg (Manifest.manifestId m) i.
  read_token es Hg (Manifest.sha256 m) h.
  read_number es Hg His. read_number es Hg Hex.
  do 3 read_number es Hg His.
  rewrite (proj2 (boundedText_Ok es _ 160 (Manifest.fileName m)))
    by (rewrite Hg; unfold text_bytes, maxCborTextBytes in *; split; [done | split; [apply text_nonempty; lia | lia]]).
  rewrite (proj2 (boundedText_Ok es _ 128 (Manifest.mediaType m)))
    by (rewrite Hg; unfold text_bytes, maxCborTextBytes in *; split; [done | split; [apply text_nonempty; lia | lia]]).
  read_bytes es Hg. rewrite <- Hver. by destruct m; simpl in *; rewrite Ev.
Qed.

Lemma decodeAttachmentDecision_complete b d :
  encodeAttachmentDecision d = Ok b -> canonical_decision d = true ->
  bytes_ok b /\ decodeAttachmentDecision b = Ok d.
Proof.
  intros H Hc. unfold canonical_decision in Hc. rewrite !andb_true_iff in Hc.
  destruct Hc as ((Hct & Hci) & Hcs%bool_decide_eq_true).
  unfold encodeAttachmentDecision in H. step H as [] Ev.
  pose proof Ev as (Hver & Ht & Hi & Hsg & Htime)%validateDecision_Ok.
  destruct (canonical_validToken _ 16 Hct Ht) as (t & Dt & Et & Htb & Htl).
  destruct (canonical_validToken _ 32 Hci Hi) as (i & Di & Ei & Hib & Hil).
  unfold decisionMap in H. rewrite Dt, Di, Hver in H. cbn [app] in H.
  match type of H with encodeDeterministicCbor (CMap ?es) = _ => set (entries := es) in * end.
  pose proof (encoded_number entries b _ _ H (list_elem_of_lookup_2 entries 4 _ eq_refl)) as His.
  pose proof (encoded_number entries b _ _ H (list_elem_of_lookup_2 entries 5 _ eq_refl)) as Hex.
  assert (Hk : plain_text (kind_text (Verdict.kind d)) = true) by (destruct (Verdict.kind d); closed).
  assert (Hkl : zlen (utf8_encode (kind_text (Verdict.kind d))) = 6) by (destruct (Verdict.kind d); closed).
  assert (He : encodable (CMap entries) = true).
  { apply encodable_entries; [vm_compute; discriminate | closed | closed |].
    each_name; cbn [snd]; field_encodable. }
  pose proof (record_size _ _ He H) as Hs.
  assert (sum_lengths entry_size entries <= 4000).
  { unfold entries. entry_sizes. change (zlen (utf8_encode attachmentVersion)) with 25. lia. }
  destruct (record_written b 4096 decision_names entries) as (Hb & Hne & es & Hd & Hu & Hg);
    [done | done | lia | by each_name | apply (bool_decide_eq_true_1 (Forall _ _)); closed |].
  split; [done |]. pose proof (zlen_nonneg b). unfold decodeAttachmentDecision.
  rewrite (proj2 (strictMap_Ok b decision_names es)) by (split; [done | split; [done | lia]]).
  erewrite (proj2 (text_field_Ok es _ _))
    by (rewrite Hg; split; [reflexivity | unfold maxCborTextBytes; split; [apply text_nonempty; lia | lia]]).
  rewrite (proj2 (readVersion_Ok es attachmentVersion)) by (by rewrite Hg).
  rewrite (proj2 (read_decision_kind_Ok _ (Verdict.kind d))) by done.
  unfold token, number_of.
  read_token es Hg (Verdict.transferId d) t. read_token es Hg (Verdict.manifestId d) i.
  read_number es Hg His. read_number es Hg Hex.
  read_bytes es Hg. rewrite <- Hver. by destruct d; simpl in *; rewrite Ev.
Qed.

(** ** Theorems *)

(** the manifest codec is a bijection between the canonical encodings and
    the canonical valid manifests: bytes decode to [m] exactly when they are the
    encoding of [m] and its tokens, texts and signature are canonical.  Every
    encoding fits in the 4096 bytes the decoder accepts. *)
Theorem decodeAttachmentManifest_spec b m :
  bytes_ok b /\ decodeAttachmentManifest b = Ok m <->
  encodeAttachmentManifest m = Ok b /\ canonical_manifest m = true.
Proof.
  split; intros [H1 H2].
  - by apply decodeAttachmentManifest_sound.
  - by apply decodeAttachmentManifest_complete.
Qed.

(** the same for decisions and for chunks. *)
Theorem decision_and_chunk_codecs b d c :
  (bytes_ok b /\ decodeAttachmentDecision b = Ok d <->
   encodeAttachmentDecision d = Ok b /\ canonical_decision d = true)
  /\ (bytes_ok b /\ decodeAttachmentChunk b = Ok c <->
      encodeAttachmentChunk c = Ok b /\ canonical_chunk c = true).
Proof.
  split; split; intros [H1 H2].
  - by apply decodeAttachmentDecision_sound.
  - by apply decodeAttachmentDecision_complete.
  - by apply decodeAttachmentChunk_sound.
  - by apply decodeAttachmentChunk_complete.
Qed.

(** ** Signing bytes *)

Lemma signed_Ok map b :
  signed map = Ok b <->
  exists body, encodeDeterministicCbor (CMap map) = Ok body
    /\ b = utf8_encode (attachmentSignatureDomain ++ [0]) ++ body.
Proof.
  unfold signed. split.
  - intros H. step H as body E. injection H as <-. eauto.
  - by intros (body & -> & ->).
Qed.

(** The signed entries of a canonical manifest: encodable, and each field is
    the one its name says. *)
Lemma manifest_signing_entries m b :
  attachmentManifestSigningBytes m = Ok b -> canonical_manifest m = true ->
  exists es body t i h,
    b = utf8_encode (attachmentSignatureDomain ++ [0]) ++ body
    /\ encodeDeterministicCbor (CMap es) = Ok body /\ encodable (CMap es) = true
    /\ Forall (fun e => canon e.2 = e.2) es
    /\ es = [(js "version", CText attachmentVersion); (js "transfer_id", CBytes t);
             (js "manifest_id", CBytes i); (js "issued_at", CNum (Int (Manifest.issuedAt m)));
             (js "expires_at", CNum (Int (Manifest.expiresAt m)));
             (js "file_name", CText (Manifest.fileName m));
             (js "media_type", CText (Manifest.mediaType m));
             (js "byte_count", CNum (Int (Manifest.byteCount m)));
             (js "chunk_bytes", CNum (Int (Manifest.chunkBytes m)));
             (js "chunk_count", CNum (Int (Manifest.chunkCount m)));
             (js "sha256", CBytes h)]
    /\ encodeBase64URL t = Manifest.transferId m /\ encodeBase64URL i = Manifest.manifestId m
    /\ encodeBase64URL h = Manifest.sha256 m /\ Manifest.version m = attachmentVersion.
Proof.
  intros H Hc. unfold canonical_manifest in Hc. rewrite !andb_true_iff in Hc.
  destruct Hc as (((((Hct & Hci) & Hch) & Hcf) & Hcm) & _).
  unfold attachmentManifestSigningBytes in H. step H as [] Ev.
  apply validateManifest_Ok in Ev as (Hver & Ht & Hi & Hh & Hsg & Htime & Hbc & Hcb & Hcc & _ & Hfn & Hmt).
  unfold maxDirectAttachmentBytes, maxAttachmentChunkBytes, maxAttachmentChunks in *.
  destruct (canonical_validToken _ 16 Hct Ht) as (t & Dt & Et & Htb & Htl).
  destruct (canonical_validToken _ 32 Hci Hi) as (i & Di & Ei & Hib & Hil).
  destruct (canonical_validToken _ 32 Hch Hh) as (h & Dh & Eh & Hhb & Hhl).
  unfold manifestMap, base in H. rewrite Dt, Di, Dh, Hver in H. simpl in H.
  apply signed_Ok in H as (body & H & ->).
  match type of H with encodeDeterministicCbor (CMap ?es) = _ => set (entries := es) in * end.
  pose proof (encoded_number entries body _ _ H (list_elem_of_lookup_2 entries 3 _ eq_refl)) as His.
  pose proof (encoded_number entries body _ _ H (list_elem_of_lookup_2 entries 4 _ eq_refl)) as Hex.
  exists entries, body, t, i, h. split; [done |]. split; [done |].
  split; [| split; [by each_name | done]]. unfold text_bytes in *.
  apply encodable_entries; [vm_compute; discriminate | closed | closed |].
  each_name; cbn [snd]; field_encodable.
Qed.

Lemma decision_signing_kind d b :
  attachmentDecisionSigningBytes d = Ok b -> canonical_decision d = true ->
  exists es body,
    b = utf8_encode (attachmentSignatureDomain ++ [0]) ++ body
    /\ encodeDeterministicCbor (CMap es) = Ok body /\ encodable (CMap es) = true
    /\ Forall (fun e => canon e.2 = e.2) es
    /\ map_get es (js "kind") = Some (CText (kind_text (Verdict.kind d))).
Proof.
  intros H Hc. unfold canonical_decision in Hc. rewrite !andb_true_iff in Hc.
  destruct Hc as ((Hct & Hci) & _).
  unfold attachmentDecisionSigningBytes in H. step H as [] Ev.
  apply validateDecision_Ok in Ev as (Hver & Ht & Hi & Hsg & Htime).
  destruct (canonical_validToken _ 16 Hct Ht) as (t & Dt & Et & Htb & Htl).
  destruct (canonical_validToken _ 32 Hci Hi) as (i & Di & Ei & Hib & Hil).
  unfold decisionMap in H. rewrite Dt, Di, Hver in H.
  apply signed_Ok in H as (body & H & ->).
  match type of H with encodeDeterministicCbor (CMap ?es) = _ => set (entries := es) in * end.
  pose proof (encoded_number entries body _ _ H (list_elem_of_lookup_2 entries 4 _ eq_refl)) as His.
  pose proof (encoded_number entries body _ _ H (list_elem_of_lookup_2 entries 5 _ eq_refl)) as Hex.
  exists entries, body. split; [done |]. split; [done |].
  split; [| split; [by each_name | done]].
  assert (Hk : plain_text (kind_text (Verdict.kind d)) = true) by (destruct (Verdict.kind d); closed).
  assert (Hkl : zlen (utf8_encode (kind_text (Verdict.kind d))) = 6) by (destruct (Verdict.kind d); closed).
  apply encodable_entries; [vm_compute; discriminate | closed | closed |].
  each_name; cbn [snd]; field_encodable.
Qed.

(** the signing bytes determine every signed field.  Two canonical manifests
    with the same signing bytes differ at most in their signatures, and no
    decision has the signing bytes of a manifest, although both use one
    signature domain. *)
Theorem signing_bytes_bind m m' d b
    (Hm : attachmentManifestSigningBytes m = Ok b) (Hc : canonical_manifest m = true) :
  (attachmentManifestSigningBytes m' = Ok b -> canonical_manifest m' = true ->
   m' = Manifest.mk (Manifest.version m) (Manifest.transferId m) (Manifest.manifestId m)
          (Manifest.issuedAt m) (Manifest.expiresAt m) (Manifest.fileName m)
          (Manifest.mediaType m) (Manifest.byteCount m) (Manifest.chunkBytes m)
          (Manifest.chunkCount m) (Manifest.sha256 m) (Manifest.signature m'))
  /\ (canonical_decision d = true -> attachmentDecisionSigningBytes d <> Ok b).
Proof.
  destruct (manifest_signing_entries m b Hm Hc)
    as (es & body & t & i & h & Eb & He & Hen & Hcan & Hes & Ht & Hi & Hh & Hv).
  split.
  - intros Hm' Hc'.
    destruct (manifest_signing_entries m' b Hm' Hc')
      as (es' & body' & t' & i' & h' & Eb' & He' & Hen' & Hcan' & Hes' & Ht' & Hi' & Hh' & Hv').
    rewrite Eb in Eb'. apply app_inv_head in Eb'. subst body'.
    pose proof (fun k => same_encoding_lookup es es' body k Hen Hen' He He' Hcan Hcan') as Hg.
    rewrite Hes, Hes' in Hg.
    destruct m', m. simpl in *. subst.
    pose proof (Hg (js "transfer_id")) as G1. pose proof (Hg (js "manifest_id")) as G2.
    pose proof (Hg (js "issued_at")) as G3. pose proof (Hg (js "expires_at")) as G4.
    pose proof (Hg (js "file_name")) as G5. pose proof (Hg (js "media_type")) as G6.
    pose proof (Hg (js "byte_count")) as G7. pose proof (Hg (js "chunk_bytes")) as G8.
    pose proof (Hg (js "chunk_count")) as G9. pose proof (Hg (js "sha256")) as G10.
    vm_compute in G1, G2, G3, G4, G5, G6, G7, G8, G9, G10. congruence.
  - intros Hd Hb. destruct (decision_signing_kind d b Hb Hd) as (es' & body' & Eb' & He' & Hen' & Hcan' & Hk).
    rewrite Eb in Eb'. apply app_inv_head in Eb'. subst body'.
    rewrite <- (same_encoding_lookup es es' body (js "kind") Hen Hen' He He' Hcan Hcan') in Hk.
    rewrite Hes in Hk. vm_compute in Hk. discriminate.
Qed.

(** A manifest of two chunks, its accepting decision and its chunks. *)
Definition sample_token (size : nat) (fill : Z) : jsstring := encodeBase64URL (replicate size fill).

Definition sample_manifest : AttachmentManifest :=
  Manifest.mk attachmentVersion (sample_token 16 1) (sample_token 32 2) 1000 61000
    (js "notes.txt") (js "text/plain") 300 256 2 (sample_token 32 3) (replicate 64 9).

Definition sample_decision (kind : AttachmentDecisionKind) : AttachmentDecision :=
  Verdict.mk attachmentVersion kind (sample_token 16 1) (sample_token 32 2) 1000 61000
    (replicate 64 8).

Definition sample_chunk (index : Z) (size : nat) : AttachmentChunk :=
  Chunk.mk attachmentVersion (sample_token 16 1) (sample_token 32 2) index (replicate size 5).

Lemma signing_bytes_bind_witness :
  exists b, attachmentManifestSigningBytes sample_manifest = Ok b
    /\ attachmentDecisionSigningBytes (sample_decision accept) <> Ok b.
Proof.
  eexists. split; [vm_compute; reflexivity |].
  apply (signing_bytes_bind sample_manifest sample_manifest);
    vm_compute; reflexivity.
Defined.
