(* ===== verification/Transfer.v ===== *)
(** * [application-payload/transfer-state.ts]: one attachment transfer and the
    registry of a peer and direction

    [AttachmentTransferState] is the record [Transfer]; every method is a
    function from the state to the result and the next state.  The asynchronous
    [receiveChunk] is cut at its one [await]: [receiveChunk] runs up to the
    digest call and [receiveChunk_resume] from its outcome on, with whatever
    state the object has by then.  A file handed to the digest is in
    [pending] until it resumes, so other calls can run in between. *)
From S2P Require Import Prelude JsRuntime Collections Base64Url Cbor CborFacts Records Attachment.

Inductive AttachmentTransferDirection : Type := inbound | outbound.
Inductive AttachmentTransferPhase : Type :=
| offered | accepted | completed | rejected | cancelled | expired | aborted.
Inductive AttachmentTransferFailure : Type :=
| f_not_accepted | f_expired | f_rejected | f_cancelled | f_wrong_direction | f_wrong_transfer
| f_invalid_decision | f_invalid_chunk | f_reorder_limit | f_conflicting_duplicate
| f_integrity_failed | f_digest_failed.

(** The statuses that come with no reason, and the terminal ones. *)
Inductive ok_status : Type := s_accepted | s_duplicate | s_chunk_stored.
Inductive terminal_status : Type := s_rejected | s_cancelled | s_expired | s_aborted.

Inductive AttachmentTransferResult : Type :=
| r_ok (status : ok_status) (phase : AttachmentTransferPhase)
| r_completed (content : bytes)
| r_terminal (status : terminal_status) (phase : AttachmentTransferPhase)
    (reason : AttachmentTransferFailure)
| r_ignored (phase : AttachmentTransferPhase) (reason : AttachmentTransferFailure).

#[export] Instance direction_eq_dec : EqDecision AttachmentTransferDirection.
Proof. solve_decision. Defined.
#[export] Instance phase_eq_dec : EqDecision AttachmentTransferPhase.
Proof. solve_decision. Defined.

Definition terminal_phase (p : AttachmentTransferPhase) : bool :=
  match p with completed | rejected | cancelled | expired | aborted => true | _ => false end.

Record Transfer := mkTransfer {
  direction : AttachmentTransferDirection;
  manifest : AttachmentManifest;
  maximumReorderChunks : Z;
  chunks : list (Z * bytes);
  phase : AttachmentTransferPhase;
  receivedBytes : Z;
  nextMissingIndex : Z;
}.

Definition set_phase (t : Transfer) (p : AttachmentTransferPhase) : Transfer :=
  mkTransfer (direction t) (manifest t) (maximumReorderChunks t) (chunks t) p
    (receivedBytes t) (nextMissingIndex t).

Definition clearChunks (t : Transfer) : Transfer :=
  mkTransfer (direction t) (manifest t) (maximumReorderChunks t) [] (phase t) 0
    (nextMissingIndex t).

Definition terminal (t : Transfer) : bool := terminal_phase (phase t).

(** ** Options and opening *)

Record TransferOptions := mkOptions {
  maximumTransferBytes : option number;
  maximumReorder : option number;
  maximumRememberedTransfers : option number;
}.

Definition validateOpenOptions (o : TransferOptions) : result unit :=
  if negb (number_in 1 maxDirectAttachmentBytes
             (default_number maxDirectAttachmentBytes (maximumTransferBytes o)))
     || negb (number_in 0 (maxAttachmentChunks - 1) (default_number 64 (maximumReorder o)))
  then Throw (js "invalid attachment transfer options") else Ok tt.

(** [AttachmentTransferState.open] *)
Definition open_transfer (dir : AttachmentTransferDirection) (m : AttachmentManifest)
    (o : TransferOptions) (now : number) : result Transfer :=
  let? _ := attachmentManifestSigningBytes m in
  let? _ := validateOpenOptions o in
  if negb (isSafeInteger now) || time_reached now (Manifest.expiresAt m)
  then Throw (js "attachment transfer is expired")
  else if number_value (default_number maxDirectAttachmentBytes (maximumTransferBytes o))
          <? Manifest.byteCount m
  then Throw (js "attachment transfer exceeds local limit")
  else Ok (mkTransfer dir m (number_value (default_number 64 (maximumReorder o))) [] offered 0 0).

(** ** Private helpers *)

Definition t_ok (t : Transfer) (s : ok_status) : AttachmentTransferResult * Transfer :=
  (r_ok s (phase t), t).

Definition t_terminal (t : Transfer) (reason : AttachmentTransferFailure)
  : AttachmentTransferResult * Transfer :=
  let status := match phase t with
                | rejected => s_rejected | cancelled => s_cancelled | expired => s_expired
                | _ => s_aborted
                end in
  (r_terminal status (phase t) reason, t).

Definition t_ignore (t : Transfer) (reason : AttachmentTransferFailure)
  : AttachmentTransferResult * Transfer :=
  (r_ignored (phase t) reason, t).

Definition t_abort (t : Transfer) (reason : AttachmentTransferFailure)
  : AttachmentTransferResult * Transfer :=
  t_terminal (if terminal t then t else clearChunks (set_phase t aborted)) reason.

Definition t_conflict (t : Transfer) : AttachmentTransferResult * Transfer :=
  t_abort t f_conflicting_duplicate.

Definition t_cancel (t : Transfer) : AttachmentTransferResult * Transfer :=
  if decide (phase t = cancelled) then t_ok t s_duplicate
  else if terminal t then t_conflict t
  else t_terminal (clearChunks (set_phase t cancelled)) f_cancelled.

(** [#expire]: whether the call must stop, and the state it leaves. *)
Definition t_expire (t : Transfer) (now : number) : bool * Transfer :=
  if negb (isSafeInteger now) then (true, t)
  else if negb (terminal t) && time_reached now (Manifest.expiresAt (manifest t))
  then (true, clearChunks (set_phase t expired))
  else (bool_decide (phase t = expired), t).

Definition matchesDecision (t : Transfer) (d : AttachmentDecision)
    (requiredKind : option AttachmentDecisionKind) (now : number) : bool :=
  match attachmentDecisionSigningBytes d with
  | Throw _ => false
  | Ok _ =>
      str_eqb (Verdict.transferId d) (Manifest.transferId (manifest t))
      && str_eqb (Verdict.manifestId d) (Manifest.manifestId (manifest t))
      && match requiredKind with Some k => bool_decide (Verdict.kind d = k) | None => true end
      && isSafeInteger now
      && negb (time_reached now (Verdict.expiresAt d))
      && negb (time_reached now (Manifest.expiresAt (manifest t)))
  end.

(** ** Methods *)

(** [if (this.#expire(now)) return this.#terminal("expired"); k] *)
Definition unless_expired (t : Transfer) (now : number)
    (k : Transfer -> AttachmentTransferResult * Transfer) : AttachmentTransferResult * Transfer :=
  let '(stop, t) := t_expire t now in
  if stop then t_terminal t f_expired else k t.

Definition accept_offer (t : Transfer) (d : AttachmentDecision) (now : number)
  : AttachmentTransferResult * Transfer :=
  if decide (direction t <> inbound) then t_ignore t f_wrong_direction
  else unless_expired t now (fun t =>
    if negb (matchesDecision t d (Some accept) now) then t_abort t f_invalid_decision
    else if decide (phase t = accepted) then t_ok t s_duplicate
    else if decide (phase t <> offered) then t_conflict t
    else t_ok (set_phase t accepted) s_accepted).

Definition receiveDecision (t : Transfer) (d : AttachmentDecision) (now : number)
  : AttachmentTransferResult * Transfer :=
  if decide (direction t <> outbound) then t_ignore t f_wrong_direction
  else unless_expired t now (fun t =>
    if negb (matchesDecision t d None now) then t_abort t f_invalid_decision
    else match Verdict.kind d, phase t with
         | cancel, _ => t_cancel t
         | accept, offered => t_ok (set_phase t accepted) s_accepted
         | reject, offered => t_terminal (set_phase t rejected) f_rejected
         | accept, accepted => t_ok t s_duplicate
         | _, _ => t_conflict t
         end).

Definition cancel_transfer (t : Transfer) (d : AttachmentDecision) (now : number)
  : AttachmentTransferResult * Transfer :=
  unless_expired t now (fun t =>
    if negb (matchesDecision t d (Some cancel) now) then t_abort t f_invalid_decision
    else t_cancel t).

Definition admitOutboundChunk (t : Transfer) (c : AttachmentChunk) (now : number)
  : AttachmentTransferResult * Transfer :=
  if decide (direction t <> outbound) then t_ignore t f_wrong_direction
  else unless_expired t now (fun t =>
    if decide (phase t <> accepted) then t_ignore t f_not_accepted
    else match validateChunkForManifest c (manifest t) with
         | Throw _ => t_abort t f_invalid_chunk
         | Ok _ => t_ok t s_chunk_stored
         end).

(** [left[index]! ^ right[index]!] folded with [|=], then compared with 0. *)
Fixpoint difference_of (left right : bytes) (difference : Z) : Z :=
  match left, right with
  | x :: l, y :: r => difference_of l r (js_or difference (js_xor x y))
  | _, _ => difference
  end.

Definition bytesEqual (left right : bytes) : bool :=
  if negb (zlen left =? zlen right) then false
  else difference_of left right 0 =? 0.

(** [while (this.#chunks.has(next)) next += 1]; one unit of fuel per chunk is
    enough ([advance_stops]). *)
Fixpoint advance (fuel : nat) (cs : list (Z * bytes)) (next : Z) : Z :=
  match fuel with
  | O => next
  | S fuel => if map_has cs next then advance fuel cs (next + 1) else next
  end.

(** The loop that copies chunk after chunk into the file. *)
Fixpoint assemble (count : nat) (index : Z) (cs : list (Z * bytes)) : option bytes :=
  match count with
  | O => Some []
  | S count =>
      match map_get cs index with
      | None => None
      | Some b => (fun rest => b ++ rest) <$> assemble count (index + 1) cs
      end
  end.

(** What [receiveChunk] did: it returned, or it awaits the digest of a file. *)
Inductive receive_outcome : Type :=
| returned (r : AttachmentTransferResult)
| awaiting (file : bytes).

Definition store_chunk (t : Transfer) (index : Z) (b : bytes) : Transfer :=
  let cs := map_set (chunks t) index b in
  mkTransfer (direction t) (manifest t) (maximumReorderChunks t) cs (phase t)
    (receivedBytes t + zlen b) (advance (S (length cs)) cs (nextMissingIndex t)).

Definition return_of (r : AttachmentTransferResult * Transfer) : receive_outcome * Transfer :=
  (returned r.1, r.2).

Definition receiveChunk (t : Transfer) (c : AttachmentChunk) (now : number)
  : receive_outcome * Transfer :=
  if decide (direction t <> inbound) then return_of (t_ignore t f_wrong_direction)
  else
  let '(stop, t) := t_expire t now in
  if stop then return_of (t_terminal t f_expired)
  else if decide (phase t <> accepted) then return_of (t_ignore t f_not_accepted)
  else match validateChunkForManifest c (manifest t) with
  | Throw _ => return_of (t_abort t f_invalid_chunk)
  | Ok _ =>
    match map_get (chunks t) (Chunk.index c) with
    | Some existing =>
        if bytesEqual existing (Chunk.content c) then return_of (t_ok t s_duplicate)
        else return_of (t_abort t f_conflicting_duplicate)
    | None =>
        if maximumReorderChunks t <? Chunk.index c - nextMissingIndex t
        then return_of (t_abort t f_reorder_limit)
        else
          let t := store_chunk t (Chunk.index c) (Chunk.content c) in
          if negb (zlen (chunks t) =? Manifest.chunkCount (manifest t))
          then return_of (t_ok t s_chunk_stored)
          else if negb (receivedBytes t =? Manifest.byteCount (manifest t))
          then return_of (t_abort t f_invalid_chunk)
          else match assemble (Z.to_nat (Manifest.chunkCount (manifest t))) 0 (chunks t) with
               | None => return_of (t_abort t f_invalid_chunk)
               | Some file => (awaiting file, t)
               end
    end
  end.

(** The rest of [receiveChunk]: [outcome] is the digest's text, or [None] when
    the digest rejected. *)
Definition receiveChunk_resume (t : Transfer) (file : bytes) (outcome : option jsstring)
  : AttachmentTransferResult * Transfer :=
  match outcome with
  | None => t_abort t f_digest_failed
  | Some digest =>
      if negb (str_eqb digest (Manifest.sha256 (manifest t))) then t_abort t f_integrity_failed
      else (r_completed file, clearChunks (set_phase t completed))
  end.

Definition expire_transfer (t : Transfer) (now : number) : AttachmentTransferResult * Transfer :=
  unless_expired t now (fun t => t_ok t s_duplicate).

Definition abort_transfer (t : Transfer) : AttachmentTransferResult * Transfer :=
  t_abort t f_conflicting_duplicate.

(** ** Calls as events

    A transfer object together with the files whose digests are under way. *)

Inductive event : Type :=
| ev_accept (d : AttachmentDecision) (now : number)
| ev_decision (d : AttachmentDecision) (now : number)
| ev_cancel (d : AttachmentDecision) (now : number)
| ev_admit (c : AttachmentChunk) (now : number)
| ev_chunk (c : AttachmentChunk) (now : number)
| ev_expire (now : number)
| ev_abort
| ev_digest (outcome : option jsstring).

Record Live := mkLive { object : Transfer; pending : list bytes }.

(** The digest event resumes the oldest pending call; without one it is not a
    step.  A chunk that completes the file has no result yet: its promise is
    settled by the digest event. *)
Definition step (s : Live) (e : event) : option (option AttachmentTransferResult * Live) :=
  let sync r := Some (Some r.1, mkLive r.2 (pending s)) in
  match e with
  | ev_accept d now => sync (accept_offer (object s) d now)
  | ev_decision d now => sync (receiveDecision (object s) d now)
  | ev_cancel d now => sync (cancel_transfer (object s) d now)
  | ev_admit c now => sync (admitOutboundChunk (object s) c now)
  | ev_expire now => sync (expire_transfer (object s) now)
  | ev_abort => sync (abort_transfer (object s))
  | ev_chunk c now =>
      match receiveChunk (object s) c now with
      | (returned r, t) => Some (Some r, mkLive t (pending s))
      | (awaiting file, t) => Some (None, mkLive t (pending s ++ [file]))
      end
  | ev_digest outcome =>
      match pending s with
      | [] => None
      | file :: rest =>
          let '(r, t) := receiveChunk_resume (object s) file outcome in
          Some (Some r, mkLive t rest)
      end
  end.

(** The states an opened transfer can reach, by any interleaving of calls and
    digest outcomes, with the events that lead there. *)
Inductive runs (dir : AttachmentTransferDirection) (m : AttachmentManifest)
    (o : TransferOptions) (now : number) : list event -> Live -> Prop :=
| runs_open t :
    open_transfer dir m o now = Ok t -> runs dir m o now [] (mkLive t [])
| runs_step tr s e r s' :
    runs dir m o now tr s -> step s e = Some (r, s') -> runs dir m o now (tr ++ [e]) s'.

(** Runs a list of events, collecting the results. *)
Fixpoint run_events (s : Live) (es : list event)
  : option (list (option AttachmentTransferResult) * Live) :=
  match es with
  | [] => Some ([], s)
  | e :: es =>
      match step s e with
      | None => None
      | Some (r, s') => (fun p => (r :: p.1, p.2)) <$> run_events s' es
      end
  end.
