(* ===== verification/TransferFacts.v ===== *)
(** * Attachment transfers: invariant, finality, integrity and delivery

    The theorems about [Transfer]: what holds in every reachable state, which
    phases are final, what a completed file is, and that the chunks of a file
    are accepted in every order within the reorder window. *)
From S2P Require Import Prelude JsRuntime Collections Base64Url Cbor CborFacts Records Attachment Transfer.

(** ** What a chunk must be *)

Definition fits (m : AttachmentManifest) (index : Z) (b : bytes) : Prop :=
  0 <= index < Manifest.chunkCount m /\ 0 < zlen b <= Manifest.chunkBytes m
  /\ (index + 1 < Manifest.chunkCount m -> zlen b = Manifest.chunkBytes m).

Lemma validateChunkForManifest_Ok c m :
  validateChunkForManifest c m = Ok tt <->
  validateChunk c = Ok tt /\ manifest_ok m
  /\ Chunk.transferId c = Manifest.transferId m /\ Chunk.manifestId c = Manifest.manifestId m
  /\ fits m (Chunk.index c) (Chunk.content c).
Proof.
  unfold validateChunkForManifest. rewrite <- validateManifest_Ok.
  destruct (validateChunk c) as [[]|] eqn:Ec; [| split; [done | naive_solver]].
  destruct (validateManifest m) as [[]|] eqn:Em; [| split; [done | naive_solver]].
  apply validateChunk_Ok in Ec as (_ & _ & _ & _ & Hi & Hl).
  rewrite <- (str_eqb_true (Chunk.transferId c)), <- (str_eqb_true (Chunk.manifestId c)).
  unfold fits. case_match eqn:E; bool_props; (split; [intros; simplify_eq | intros]).
  - destruct_and?. guard_cases E.
  - repeat split; done || lia.
  - done.
Qed.

(** ** The loops *)

Lemma difference_of_spec l r d :
  bytes_ok l -> bytes_ok r -> 0 <= d < 256 -> length l = length r ->
  0 <= difference_of l r d < 256 /\ (difference_of l r d = 0 <-> d = 0 /\ l = r).
Proof.
  revert r d. induction l as [|x l IH]; intros [|y r] d Hl Hr Hd E; try done.
  - simpl. naive_solver lia.
  - apply bytes_ok_cons in Hl as [Hx Hl], Hr as [Hy Hr]. simpl.
    destruct (js_or_xor_byte d x y Hd Hx Hy) as [Hb Hz].
    destruct (IH r (js_or d (js_xor x y)) Hl Hr Hb) as [Hb' Hz']; [simpl in E; lia |].
    split; [done |]. rewrite Hz', Hz. naive_solver.
Qed.

Lemma bytesEqual_spec l r : bytes_ok l -> bytes_ok r -> bytesEqual l r = bool_decide (l = r).
Proof.
  intros Hl Hr. unfold bytesEqual. destruct (Z.eqb_spec (zlen l) (zlen r)) as [E|E]; simpl.
  - destruct (difference_of_spec l r 0 Hl Hr ltac:(lia)) as [_ Hz]; [unfold zlen in E; lia |].
    destruct (Z.eqb_spec (difference_of l r 0) 0) as [Hd|Hd].
    + rewrite bool_decide_true; [done |]. by apply Hz.
    + rewrite bool_decide_false; [done |]. intros Heq. apply Hd, Hz. done.
  - rewrite bool_decide_false; [done |]. by intros ->.
Qed.

Lemma advance_spec fuel cs next :
  let n := advance fuel cs next in
  next <= n /\ (forall i, next <= i < n -> map_has cs i = true).
Proof.
  revert next. induction fuel as [|fuel IH]; intros next; simpl; [split; [lia | intros; lia] |].
  destruct (map_has cs next) eqn:E; [| split; [lia | intros; lia]].
  destruct (IH (next + 1)) as [H1 H2]. split; [lia |]. intros i Hi.
  destruct (Z.eq_dec i next) as [->|]; [done |]. apply H2. lia.
Qed.

(** ** Counting the keys of a map *)

Lemma keys_in_range {V} (cs : list (Z * V)) n :
  map_wf cs -> Forall (fun kv => 0 <= kv.1 < n) cs ->
  zlen cs <= Z.max 0 n /\ (zlen cs = n -> forall i, 0 <= i < n -> map_has cs i = true).
Proof.
  intros Hwf Hr. assert (Hsub : map_keys cs ⊆+ seqZ 0 n).
  { apply NoDup_submseteq; [done |]. intros k Hk. apply list_elem_of_fmap in Hk as ([k' b] & -> & Hin).
    rewrite Forall_forall in Hr. apply elem_of_seqZ. specialize (Hr _ Hin). simpl in *. lia. }
  pose proof (submseteq_length _ _ Hsub) as Hl. unfold map_keys in Hl. rewrite length_fmap, length_seqZ in Hl.
  unfold zlen. split; [lia |]. intros E i Hi. apply map_has_true.
  assert (Hp : Permutation (map_keys cs) (seqZ 0 n)).
  { apply submseteq_length_Permutation; [done |]. unfold map_keys. rewrite length_fmap, length_seqZ. lia. }
  rewrite Hp. apply elem_of_seqZ. lia.
Qed.

Lemma advance_stops cs next :
  map_has cs (advance (S (length cs)) cs next) = false.
Proof.
  assert (H : forall fuel next, map_has cs (advance fuel cs next) = false
                \/ forall i, next <= i < next + Z.of_nat fuel -> map_has cs i = true).
  { induction fuel as [|fuel IH]; intros j; cbn [advance]; [right; intros; lia |].
    destruct (map_has cs j) eqn:E; [| by left].
    destruct (IH (j + 1)) as [|Hall]; [by left |]. right. intros i Hi.
    destruct (Z.eq_dec i j) as [->|]; [done |]. apply Hall. lia. }
  destruct (H (S (length cs)) next) as [|Hall]; [done |]. exfalso.
  assert (Hsub : seqZ next (Z.of_nat (S (length cs))) ⊆+ map_keys cs).
  { apply NoDup_submseteq; [apply NoDup_seqZ |]. intros k Hk%elem_of_seqZ.
    apply map_has_true, Hall. lia. }
  apply submseteq_length in Hsub. unfold map_keys in Hsub. rewrite length_fmap, length_seqZ in Hsub. lia.
Qed.

Definition total_bytes (cs : list (Z * bytes)) : Z := foldr (fun kv n => zlen kv.2 + n) 0 cs.

Lemma total_bytes_app cs ds : total_bytes (cs ++ ds) = total_bytes cs + total_bytes ds.
Proof. induction cs as [|kv cs IH]; simpl; lia. Qed.

Lemma total_bytes_perm cs ds : Permutation cs ds -> total_bytes cs = total_bytes ds.
Proof. induction 1; simpl; lia. Qed.

(** The chunk of each index in order: what [assemble] reads. *)
Lemma assemble_total n i cs :
  (forall j, i <= j < i + Z.of_nat n -> map_has cs j = true) ->
  exists bs, assemble n i cs = Some (concat bs) /\ length bs = n
    /\ forall k, (k < n)%nat -> map_get cs (i + Z.of_nat k) = Some (nth k bs []).
Proof.
  revert i. induction n as [|n IH]; intros i Hall; [exists []; repeat split; intros; lia |].
  cbn [assemble]. assert (Hi : map_has cs i = true) by (apply Hall; lia). unfold map_has in Hi.
  destruct (map_get cs i) as [b|] eqn:E; [|done].
  destruct (IH (i + 1)) as (bs & -> & Hl & Hn); [intros; apply Hall; lia |].
  exists (b :: bs). simpl. split; [done |]. split; [lia |].
  intros [|k] Hk; [by rewrite Z.add_0_r |]. rewrite <- Hn by lia. f_equal. lia.
Qed.

Fixpoint indexed (i : Z) (bs : list bytes) : list (Z * bytes) :=
  match bs with [] => [] | b :: bs => (i, b) :: indexed (i + 1) bs end.

Lemma indexed_elem i bs j b :
  (j, b) ∈ indexed i bs -> i <= j < i + zlen bs /\ nth (Z.to_nat (j - i)) bs [] = b.
Proof.
  revert i. induction bs as [|x bs IH]; intros i; simpl; [by intros ?%not_elem_of_nil |].
  rewrite zlen_cons. pose proof (zlen_nonneg bs). intros [E|Hin]%elem_of_cons.
  - simplify_eq. rewrite Z.sub_diag. split; [lia | done].
  - apply IH in Hin as [Hj Hb]. split; [lia |].
    replace (Z.to_nat (j - i)) with (S (Z.to_nat (j - (i + 1)))) by lia. done.
Qed.

Lemma indexed_wf i bs : map_wf (indexed i bs).
Proof.
  revert i. induction bs as [|x bs IH]; intros i; [constructor |].
  constructor; [| apply IH]. intros ([j b] & E & Hin)%list_elem_of_fmap.
  apply indexed_elem in Hin as [? _]. simpl in *. lia.
Qed.

Lemma indexed_length i bs : length (indexed i bs) = length bs.
Proof. revert i. induction bs as [|x bs IH]; intros i; simpl; [done |]. by rewrite IH. Qed.

Lemma indexed_total i bs : total_bytes (indexed i bs) = zlen (concat bs).
Proof.
  revert i. induction bs as [|x bs IH]; intros i; simpl; [done |]. by rewrite IH, zlen_app.
Qed.

Lemma total_of_parts cs bs :
  zlen cs = zlen bs ->
  (forall k, (k < length bs)%nat -> map_get cs (Z.of_nat k) = Some (nth k bs [])) ->
  total_bytes cs = zlen (concat bs).
Proof.
  intros Hl Hg. rewrite <- (indexed_total 0 bs). symmetry. apply total_bytes_perm.
  apply submseteq_length_Permutation; [| rewrite indexed_length; unfold zlen in Hl; lia].
  apply NoDup_submseteq; [eapply NoDup_fmap_1, (indexed_wf 0 bs) |].
  intros [j b] Hin. apply indexed_elem in Hin as [Hj <-]. unfold zlen in Hj.
  apply map_get_Some_elem. rewrite Z.sub_0_r. rewrite <- Hg by lia. f_equal. lia.
Qed.

(** ** The invariant of a transfer *)

Record transfer_inv (t : Transfer) : Prop := {
  inv_manifest : manifest_ok (manifest t);
  inv_wf : map_wf (chunks t);
  inv_fits : Forall (fun kv => fits (manifest t) kv.1 kv.2) (chunks t);
  inv_received : receivedBytes t = total_bytes (chunks t);
  inv_idle : phase t <> accepted -> chunks t = [];
  inv_missing : phase t = accepted ->
    0 <= nextMissingIndex t
    /\ (forall i, 0 <= i < nextMissingIndex t -> map_has (chunks t) i = true)
    /\ map_has (chunks t) (nextMissingIndex t) = false;
  inv_window : phase t = accepted ->
    Forall (fun kv => kv.1 - nextMissingIndex t <= maximumReorderChunks t) (chunks t);
  inv_fresh : phase t = offered -> nextMissingIndex t = 0;
  inv_reorder : 0 <= maximumReorderChunks t;
}.

(** ** Moves

    How a call that stores no chunk changes an object: not at all, from
    [offered] to the answer, or from a live phase to a final one, dropping the
    chunks. *)
Inductive moves (t : Transfer) : Transfer -> Prop :=
| moves_stay : moves t t
| moves_answer p :
    phase t = offered -> p = accepted \/ p = rejected -> moves t (set_phase t p)
| moves_end p :
    terminal t = false -> p = cancelled \/ p = expired \/ p = aborted ->
    moves t (clearChunks (set_phase t p)).

#[local] Hint Constructors moves : branch.

Lemma moves_inv t t' : transfer_inv t -> moves t t' -> transfer_inv t'.
Proof.
  intros [] [| p Ho Hp | p Hl Hp]; [by constructor | |].
  - assert (Hc : chunks t = []) by (apply inv_idle0; by rewrite Ho).
    assert (Hn : nextMissingIndex t = 0) by auto.
    constructor; simpl; rewrite ?Hc, ?Hn; try done; try (by rewrite Hc in * ).
    + intros _. split; [lia |]. split; [intros; lia | done].
  - constructor; simpl; try done; try (intros E; subst p; naive_solver).
    apply NoDup_nil_2.
Qed.

Lemma moves_offer t t' :
  moves t t' -> manifest t' = manifest t /\ direction t' = direction t
                /\ maximumReorderChunks t' = maximumReorderChunks t.
Proof. by intros []. Qed.

Lemma moves_final t t' : moves t t' -> terminal t = true -> t' = t.
Proof.
  intros [| p Ho Hp | p Hl Hp] Ht; [done | |]; unfold terminal in *; [by rewrite Ho in Ht | congruence].
Qed.

Lemma moves_chunks t t' : moves t t' -> chunks t' = chunks t \/ chunks t' = [].
Proof. intros []; auto. Qed.

Lemma t_abort_moves t reason : moves t (t_abort t reason).2.
Proof. unfold t_abort, t_terminal. cbn [snd]. case_match; auto with branch. Qed.

Lemma t_conflict_moves t : moves t (t_conflict t).2.
Proof. apply t_abort_moves. Qed.

Lemma t_expire_moves t now : moves t (t_expire t now).2.
Proof.
  unfold t_expire. repeat case_match; cbn [snd]; auto with branch. bool_props. auto with branch.
Qed.

Lemma t_expire_continue t now t' :
  t_expire t now = (false, t') ->
  t' = t /\ isSafeInteger now = true /\ phase t <> expired
  /\ (terminal t = false -> time_reached now (Manifest.expiresAt (manifest t)) = false).
Proof.
  unfold t_expire. destruct (isSafeInteger now); simpl; [|done].
  destruct (terminal t) eqn:Et, (time_reached _ _) eqn:Er; simpl; intros; simplify_eq;
    by rewrite bool_decide_eq_false in *.
Qed.

Lemma t_cancel_moves t : moves t (t_cancel t).2.
Proof.
  unfold t_cancel. case_decide; [constructor |]. case_match; [apply t_conflict_moves |].
  apply moves_end; auto.
Qed.

#[local] Hint Resolve t_abort_moves t_conflict_moves t_cancel_moves : branch.

Lemma unless_expired_moves t now k :
  moves t (k t).2 -> moves t (unless_expired t now k).2.
Proof.
  intros Hk. unfold unless_expired. pose proof (t_expire_moves t now) as He.
  destruct (t_expire t now) as [[] t'] eqn:E; [done |].
  by destruct (t_expire_continue _ _ _ E) as [-> _].
Qed.

Lemma accept_offer_moves t d now : moves t (accept_offer t d now).2.
Proof.
  unfold accept_offer. case_decide; [constructor |]. apply unless_expired_moves.
  repeat case_match; auto with branch. apply moves_answer; [by apply dec_stable | by left].
Qed.

Lemma receiveDecision_moves t d now : moves t (receiveDecision t d now).2.
Proof.
  unfold receiveDecision. case_decide; [constructor |]. apply unless_expired_moves.
  repeat case_match; auto with branch; by apply moves_answer; auto.
Qed.

Lemma cancel_transfer_moves t d now : moves t (cancel_transfer t d now).2.
Proof. apply unless_expired_moves. case_match; auto with branch. Qed.

Lemma admitOutboundChunk_moves t c now : moves t (admitOutboundChunk t c now).2.
Proof.
  unfold admitOutboundChunk. case_decide; [constructor |]. apply unless_expired_moves.
  repeat case_match; auto with branch.
Qed.

Lemma expire_transfer_moves t now : moves t (expire_transfer t now).2.
Proof. apply unless_expired_moves. constructor. Qed.

Lemma receiveChunk_resume_moves t file outcome :
  moves t (receiveChunk_resume t file outcome).2
  \/ (outcome = Some (Manifest.sha256 (manifest t))
      /\ receiveChunk_resume t file outcome = (r_completed file, clearChunks (set_phase t completed))).
Proof.
  unfold receiveChunk_resume. destruct outcome as [digest|]; [| left; apply t_abort_moves].
  case_match eqn:E; [left; apply t_abort_moves |]. bool_props. apply str_eqb_true in E as ->.
  by right.
Qed.

(** Storing a chunk that fits, inside the window, at an index not seen yet. *)
Lemma store_chunk_inv t i b :
  transfer_inv t -> phase t = accepted -> map_get (chunks t) i = None ->
  fits (manifest t) i b -> i - nextMissingIndex t <= maximumReorderChunks t ->
  transfer_inv (store_chunk t i b).
Proof.
  intros [] Hp Hnew Hfit Hw. destruct (inv_missing0 Hp) as (Hn0 & Hbelow & Hn).
  apply map_get_None in Hnew. pose proof (map_set_fresh (chunks t) i b Hnew) as Ecs.
  destruct (advance_spec (S (length (map_set (chunks t) i b))) (map_set (chunks t) i b)
              (nextMissingIndex t)) as [Hle Hadv].
  unfold store_chunk.
  constructor; cbn [chunks phase manifest direction maximumReorderChunks receivedBytes nextMissingIndex];
    set (n := advance _ _ _) in *; try done.
  - by apply map_set_wf.
  - rewrite Ecs. apply Forall_app. split; [done | by apply Forall_singleton].
  - rewrite Ecs, total_bytes_app, inv_received0. simpl. lia.
  - intros _. split; [lia |]. split; [| apply advance_stops].
    intros j Hj. destruct (Z.lt_ge_cases j (nextMissingIndex t)).
    + specialize (Hbelow j ltac:(lia)). apply map_has_true in Hbelow. apply map_has_true.
      rewrite map_keys_set. case_match; [done | set_solver].
    + apply Hadv. lia.
  - intros _.
    assert (Hall : Forall (fun kv : Z * bytes => kv.1 - nextMissingIndex t <= maximumReorderChunks t)
                     (map_set (chunks t) i b)).
    { rewrite Ecs. apply Forall_app. split; [by apply inv_window0 | by apply Forall_singleton]. }
    eapply Forall_impl; [exact Hall |]. intros kv Hkv. simpl in *. lia.
  - intros E. by rewrite Hp in E.
Qed.

(** What [receiveChunk] gets to when it stores the chunk and completes. *)
Definition complete_file (t : Transfer) (file : bytes) : Prop :=
  exists bs, file = concat bs /\ zlen bs = Manifest.chunkCount (manifest t)
    /\ zlen file = Manifest.byteCount (manifest t)
    /\ forall k, (k < length bs)%nat -> fits (manifest t) (Z.of_nat k) (nth k bs [])
                                     /\ map_get (chunks t) (Z.of_nat k) = Some (nth k bs []).

(** Once every chunk is there, assembling cannot fail and gives a file of the
    announced size. *)
Lemma assemble_complete t :
  transfer_inv t -> zlen (chunks t) = Manifest.chunkCount (manifest t) ->
  exists file, assemble (Z.to_nat (Manifest.chunkCount (manifest t))) 0 (chunks t) = Some file
    /\ receivedBytes t = zlen file
    /\ (zlen file = Manifest.byteCount (manifest t) -> complete_file t file).
Proof.
  intros [] Hfull. destruct inv_manifest0 as (_ & _ & _ & _ & _ & _ & _ & _ & Hcc & _).
  destruct (keys_in_range (chunks t) (Manifest.chunkCount (manifest t)) inv_wf0) as [_ Hall].
  { eapply Forall_impl; [exact inv_fits0 |]. by intros kv [? _]. }
  specialize (Hall Hfull).
  destruct (assemble_total (Z.to_nat (Manifest.chunkCount (manifest t))) 0 (chunks t)) as (bs & Ha & Hl & Hn).
  { intros j Hj. apply Hall. lia. }
  assert (Hz : zlen bs = Manifest.chunkCount (manifest t)) by (unfold zlen; lia).
  exists (concat bs). split; [done |]. split.
  - rewrite inv_received0. apply total_of_parts; [lia |]. intros k Hk. rewrite <- Hn by lia. f_equal. 
  - intros Hbytes. exists bs. split; [done |]. split; [done |]. split; [done |].
    intros k Hk. specialize (Hn k ltac:(lia)). rewrite Z.add_0_l in Hn. split; [|done].
    apply map_get_Some_elem in Hn. rewrite Forall_forall in inv_fits0. apply (inv_fits0 _ Hn).
Qed.

(** The state a chunk is stored in, and what happens from there on. *)
Definition after_store (t : Transfer) : receive_outcome * Transfer :=
  if negb (zlen (chunks t) =? Manifest.chunkCount (manifest t)) then return_of (t_ok t s_chunk_stored)
  else if negb (receivedBytes t =? Manifest.byteCount (manifest t))
  then return_of (t_abort t f_invalid_chunk)
  else match assemble (Z.to_nat (Manifest.chunkCount (manifest t))) 0 (chunks t) with
       | None => return_of (t_abort t f_invalid_chunk)
       | Some file => (awaiting file, t)
       end.

Lemma receiveChunk_store t c now :
  direction t = inbound -> t_expire t now = (false, t) -> phase t = accepted ->
  validateChunkForManifest c (manifest t) = Ok tt -> map_get (chunks t) (Chunk.index c) = None ->
  Chunk.index c - nextMissingIndex t <= maximumReorderChunks t ->
  receiveChunk t c now = after_store (store_chunk t (Chunk.index c) (Chunk.content c)).
Proof.
  intros Hd He Hp Hv Hn Hw. unfold receiveChunk.
  rewrite decide_False by (rewrite Hd; naive_solver). rewrite He, decide_False by naive_solver.
  rewrite Hv, Hn. test (maximumReorderChunks t <? Chunk.index c - nextMissingIndex t) false. done.
Qed.

(** Every way through [receiveChunk]. *)
Lemma receiveChunk_cases t c now :
  (exists r, (receiveChunk t c now).1 = returned r /\ moves t (receiveChunk t c now).2)
  \/ (direction t = inbound /\ t_expire t now = (false, t) /\ phase t = accepted
      /\ validateChunkForManifest c (manifest t) = Ok tt
      /\ map_get (chunks t) (Chunk.index c) = None
      /\ Chunk.index c - nextMissingIndex t <= maximumReorderChunks t).
Proof.
  unfold receiveChunk. case_decide as Hd; [left; eexists; split; [reflexivity | constructor] |].
  pose proof (t_expire_moves t now) as Hm.
  destruct (t_expire t now) as [stop t'] eqn:He. destruct stop.
  { left. eexists. split; [reflexivity | exact Hm]. }
  destruct (t_expire_continue _ _ _ He) as [-> _].
  case_decide as Hp; [left; eexists; split; [reflexivity | constructor] |].
  destruct (validateChunkForManifest c (manifest t)) as [[]|] eqn:Hv;
    [| left; eexists; split; [reflexivity | apply (t_abort_moves t f_invalid_chunk)]].
  destruct (map_get (chunks t) (Chunk.index c)) as [existing|] eqn:Hg.
  { left. case_match; eexists; (split; [reflexivity |]);
      [constructor | apply (t_abort_moves t f_invalid_chunk)]. }
  case_match eqn:Hw;
    [left; eexists; split; [reflexivity | apply (t_abort_moves t f_invalid_chunk)] |].
  right. bool_props. done.
Qed.

Lemma after_store_moves t : moves t (after_store t).2.
Proof. unfold after_store, return_of. repeat case_match; cbn [fst snd]; auto with branch. Qed.

Lemma after_store_await t file t' :
  transfer_inv t -> after_store t = (awaiting file, t') ->
  t' = t /\ zlen (chunks t) = Manifest.chunkCount (manifest t) /\ complete_file t file.
Proof.
  intros Ht. unfold after_store. case_match eqn:Hc; [done |]. case_match eqn:Hb; [done |]. bool_props.
  destruct (assemble_complete t Ht Hc) as (f & Ha & Hr & Hf). rewrite Ha. intros. simplify_eq.
  split; [done |]. split; [done |]. apply Hf. lia.
Qed.

Lemma receiveChunk_inv t c now : transfer_inv t -> transfer_inv (receiveChunk t c now).2.
Proof.
  intros Ht. destruct (receiveChunk_cases t c now) as [(r & _ & Hm)|(Hd & He & Hp & Hv & Hn & Hw)].
  - by eapply moves_inv.
  - rewrite (receiveChunk_store t c now) by done. eapply moves_inv; [| apply after_store_moves].
    apply store_chunk_inv; try done. by apply validateChunkForManifest_Ok in Hv as (_ & _ & _ & _ & ?).
Qed.

Lemma receiveChunk_await t c now file t' :
  transfer_inv t -> receiveChunk t c now = (awaiting file, t') ->
  phase t = accepted /\ phase t' = accepted
  /\ zlen (chunks t) < Manifest.chunkCount (manifest t)
  /\ zlen (chunks t') = Manifest.chunkCount (manifest t')
  /\ complete_file t' file.
Proof.
  intros Ht E. destruct (receiveChunk_cases t c now)
    as [(r & Hr & _)|(Hd & He & Hp & Hv & Hn & Hw)]; [by rewrite E in Hr |].
  rewrite (receiveChunk_store t c now) in E by done.
  pose proof Hv as (_ & _ & _ & _ & Hfit)%validateChunkForManifest_Ok.
  pose proof (store_chunk_inv t _ _ Ht Hp Hn Hfit Hw) as Hs.
  apply after_store_await in E as (-> & Hfull & Hfile); [| done]. split; [done |]. split; [done |].
  split; [| done]. simpl in Hfull. rewrite map_set_size in Hfull. unfold map_has in Hfull.
  rewrite Hn in Hfull. lia.
Qed.

(** ** Opening *)

Lemma open_transfer_Ok dir m o now t :
  open_transfer dir m o now = Ok t ->
  exists reorder, t = mkTransfer dir m reorder [] offered 0 0 /\ manifest_ok m
    /\ 0 <= reorder < maxAttachmentChunks
    /\ time_reached now (Manifest.expiresAt m) = false.
Proof.
  unfold open_transfer. intros H. step H as signing Es. step H as [] Eo.
  case_match eqn:Et; [done |]. case_match eqn:Eb; [done |]. injection H as <-.
  unfold attachmentManifestSigningBytes in Es. step Es as [] Ev. apply validateManifest_Ok in Ev.
  unfold validateOpenOptions in Eo. case_match eqn:Eopt; [done |]. bool_props.
  unfold number_in in *. destruct (default_number 64 (maximumReorder o)) as [z|] eqn:Ed; [|done].
  bool_props. exists z. split; [done |]. split; [done |]. split; [lia | done].
Qed.

Lemma open_inv dir m o now t :
  open_transfer dir m o now = Ok t -> transfer_inv t /\ manifest t = m /\ phase t = offered.
Proof.
  intros (reorder & -> & Hm & Hr & _)%open_transfer_Ok. split; [| done].
  constructor; simpl; try done; try lia. apply NoDup_nil_2.
Qed.

(** ** Steps *)

Inductive step_case (s s' : Live) (e : event) (r : option AttachmentTransferResult) : Prop :=
| step_moves :
    moves (object s) (object s') -> pending s' = pending s ->
    (forall content, r <> Some (r_completed content)) -> (forall o, e <> ev_digest o) ->
    step_case s s' e r
| step_store c now :
    e = ev_chunk c now -> phase (object s) = accepted ->
    validateChunkForManifest c (manifest (object s)) = Ok tt ->
    map_get (chunks (object s)) (Chunk.index c) = None ->
    Chunk.index c - nextMissingIndex (object s) <= maximumReorderChunks (object s) ->
    moves (store_chunk (object s) (Chunk.index c) (Chunk.content c)) (object s') ->
    (r = None /\ object s' = store_chunk (object s) (Chunk.index c) (Chunk.content c)
     /\ exists file, after_store (object s') = (awaiting file, object s')
                     /\ pending s' = pending s ++ [file])
    \/ ((exists a, r = Some a /\ forall content, a <> r_completed content)
        /\ pending s' = pending s) ->
    step_case s s' e r
| step_resume file rest outcome :
    e = ev_digest outcome -> pending s = file :: rest -> pending s' = rest ->
    r = Some (receiveChunk_resume (object s) file outcome).1 ->
    object s' = (receiveChunk_resume (object s) file outcome).2 ->
    step_case s s' e r.

(** A call other than a digest outcome never reports completion. *)
Definition reports_completion (r : AttachmentTransferResult) : bool :=
  match r with r_completed _ => true | _ => false end.

Lemma no_completion t d c now :
  reports_completion (accept_offer t d now).1 = false
  /\ reports_completion (receiveDecision t d now).1 = false
  /\ reports_completion (cancel_transfer t d now).1 = false
  /\ reports_completion (admitOutboundChunk t c now).1 = false
  /\ reports_completion (expire_transfer t now).1 = false
  /\ reports_completion (abort_transfer t).1 = false
  /\ match (receiveChunk t c now).1 with returned r => reports_completion r | _ => false end = false.
Proof.
  unfold accept_offer, receiveDecision, cancel_transfer, admitOutboundChunk, expire_transfer,
    abort_transfer, receiveChunk, unless_expired, t_cancel, t_conflict, t_abort, t_terminal, t_ok,
    t_ignore, return_of.
  repeat split; repeat case_match; simplify_eq/=; done.
Qed.

Lemma not_completed r content : reports_completion r = false -> Some r <> Some (r_completed content).
Proof. intros H E. by simplify_eq. Qed.

Lemma after_store_not_completed t :
  match (after_store t).1 with returned r => reports_completion r | _ => false end = false.
Proof.
  unfold after_store, t_abort, t_terminal, t_ok, return_of. repeat case_match; simplify_eq/=; done.
Qed.

Definition no_chunk : AttachmentChunk := Chunk.mk [] [] [] 0 [].
Definition no_decision : AttachmentDecision := Verdict.mk [] accept [] [] 0 0 [].

Lemma step_sync s s' e a :
  moves (object s) (object s') -> pending s' = pending s -> reports_completion a = false ->
  (forall o, e <> ev_digest o) -> step_case s s' e (Some a).
Proof. intros. apply step_moves; try done. intros. by apply not_completed. Qed.

Lemma step_cases s e r s' : step s e = Some (r, s') -> step_case s s' e r.
Proof.
  destruct s as [t p]. intros H.
  destruct e as [d now|d now|d now|c now|c now|now| |outcome]; cbn [step object pending] in H.
  - injection H as <- <-. apply step_sync; try done; [apply accept_offer_moves |].
    apply (no_completion t d no_chunk now).
  - injection H as <- <-. apply step_sync; try done; [apply receiveDecision_moves |].
    apply (no_completion t d no_chunk now).
  - injection H as <- <-. apply step_sync; try done; [apply cancel_transfer_moves |].
    apply (no_completion t d no_chunk now).
  - injection H as <- <-. apply step_sync; try done; [apply admitOutboundChunk_moves |].
    apply (no_completion t no_decision c now).
  - destruct (no_completion t no_decision c now) as (_ & _ & _ & _ & _ & _ & Hn).
    destruct (receiveChunk_cases t c now) as [(a & Ha & Hm)|(Hd & He & Hp & Hv & Hg & Hw)].
    + destruct (receiveChunk t c now) as [[a'|file] t'] eqn:E; [|done]. simpl in *. simplify_eq.
      by apply step_sync.
    + rewrite (receiveChunk_store t c now) in * by done.
      pose proof (after_store_moves (store_chunk t (Chunk.index c) (Chunk.content c))) as Hm.
      destruct (after_store _) as [[a|file] t'] eqn:E; simplify_eq.
      * eapply step_store; try done. right. split; [| done]. exists a. split; [done |].
        intros content ->. done.
      * assert (t' = store_chunk t (Chunk.index c) (Chunk.content c)) as ->.
        { revert E. unfold after_store, return_of. by repeat case_match; intros; simplify_eq. }
        eapply step_store; try done. left. split; [done |]. split; [done |]. by exists file.
  - injection H as <- <-. apply step_sync; try done; [apply expire_transfer_moves |].
    apply (no_completion t no_decision no_chunk now).
  - injection H as <- <-. apply step_sync; try done. apply (t_abort_moves t f_conflicting_duplicate).
  - destruct p as [|file rest]; [done |].
    destruct (receiveChunk_resume t file outcome) as [a t'] eqn:E. injection H as <- <-.
    eapply step_resume; [done | done | done | |]; cbn [object]; by rewrite E.
Qed.

(** ** The invariant of a run *)

(** The chunk of index [i] came with one of the calls and fits the manifest. *)
Definition delivered (m : AttachmentManifest) (tr : list event) (i : Z) (b : bytes) : Prop :=
  exists c now, ev_chunk c now ∈ tr /\ Chunk.index c = i /\ Chunk.content c = b
                /\ validateChunkForManifest c m = Ok tt.

(** A file of the announced size, made of one delivered chunk per index. *)
Definition whole_file (m : AttachmentManifest) (tr : list event) (file : bytes) : Prop :=
  exists bs, file = concat bs /\ zlen bs = Manifest.chunkCount m /\ zlen file = Manifest.byteCount m
    /\ forall k, (k < length bs)%nat -> delivered m tr (Z.of_nat k) (nth k bs []).

Record live_inv (m : AttachmentManifest) (tr : list event) (s : Live) : Prop := {
  li_object : transfer_inv (object s);
  li_manifest : manifest (object s) = m;
  li_from : forall i b, map_get (chunks (object s)) i = Some b -> delivered m tr i b;
  li_pending : Forall (whole_file m tr) (pending s);
  li_single : zlen (pending s) <= 1;
  li_full : pending s <> [] -> phase (object s) <> offered
    /\ (phase (object s) = accepted -> zlen (chunks (object s)) = Manifest.chunkCount m);
}.

Lemma delivered_snoc m tr e i b : delivered m tr i b -> delivered m (tr ++ [e]) i b.
Proof. intros (c & now & Hin & ?). exists c, now. split; [set_solver | done]. Qed.

Lemma whole_file_snoc m tr e f : whole_file m tr f -> whole_file m (tr ++ [e]) f.
Proof.
  intros (bs & -> & Hl & Hz & Hd). exists bs. repeat split; try done. intros. by apply delivered_snoc, Hd.
Qed.

Lemma moves_full t t' n :
  moves t t' -> phase t <> offered -> (phase t = accepted -> zlen (chunks t) = n) ->
  phase t' <> offered /\ (phase t' = accepted -> zlen (chunks t') = n).
Proof.
  intros [| p Ho Hp | p Hl Hp] Hno Hf; simpl; [done | done |]. split; [naive_solver |].
  intros ->. naive_solver.
Qed.

Lemma moves_live_inv m tr e s s' :
  live_inv m tr s -> moves (object s) (object s') -> pending s' = pending s ->
  live_inv m (tr ++ [e]) s'.
Proof.
  intros [] Hm Hp. destruct (moves_offer _ _ Hm) as (Hman & _ & _). constructor.
  - by eapply moves_inv.
  - congruence.
  - intros i b Hg. apply delivered_snoc, li_from0.
    by destruct (moves_chunks _ _ Hm) as [<-|E]; [| rewrite E in Hg].
  - rewrite Hp. eapply Forall_impl; [exact li_pending0 |]. intros. by apply whole_file_snoc.
  - by rewrite Hp.
  - rewrite Hp. intros Hne. destruct (li_full0 Hne). by eapply moves_full.
Qed.

Lemma full_no_store t i :
  transfer_inv t -> zlen (chunks t) = Manifest.chunkCount (manifest t) ->
  0 <= i < Manifest.chunkCount (manifest t) -> map_get (chunks t) i <> None.
Proof.
  intros [] Hfull Hi Hg. destruct (keys_in_range (chunks t) (Manifest.chunkCount (manifest t)) inv_wf0) as [_ H].
  - eapply Forall_impl; [exact inv_fits0 |]. by intros kv [? _].
  - specialize (H Hfull i Hi). unfold map_has in H. by rewrite Hg in H.
Qed.

Lemma store_live_inv m tr s s' r c now :
  live_inv m tr s -> phase (object s) = accepted ->
  validateChunkForManifest c (manifest (object s)) = Ok tt ->
  map_get (chunks (object s)) (Chunk.index c) = None ->
  Chunk.index c - nextMissingIndex (object s) <= maximumReorderChunks (object s) ->
  moves (store_chunk (object s) (Chunk.index c) (Chunk.content c)) (object s') ->
  (r = None /\ object s' = store_chunk (object s) (Chunk.index c) (Chunk.content c)
     /\ exists file, after_store (object s') = (awaiting file, object s')
                     /\ pending s' = pending s ++ [file])
    \/ ((exists a, r = Some a /\ forall content, a <> r_completed content)
        /\ pending s' = pending s) ->
  live_inv m (tr ++ [ev_chunk c now]) s'.
Proof.
  intros [] Hp Hv Hg Hw Hm Hcase. pose proof Hv as (_ & _ & _ & _ & Hfit)%validateChunkForManifest_Ok.
  pose proof (store_chunk_inv _ _ _ li_object0 Hp Hg Hfit Hw) as Hst.
  assert (Hnil : pending s = []).
  { destruct (pending s) as [|f l] eqn:E; [done |]. destruct (li_full0 ltac:(done)) as [_ Hfull].
    exfalso. eapply (full_no_store (object s)); [done | rewrite li_manifest0; by apply Hfull | | exact Hg].
    by destruct Hfit. }
  destruct (moves_offer _ _ Hm) as (Hman & _ & _).
  assert (Hfrom : forall i b,
    map_get (chunks (store_chunk (object s) (Chunk.index c) (Chunk.content c))) i = Some b ->
    delivered m (tr ++ [ev_chunk c now]) i b).
  { intros i b Hi. simpl in Hi. destruct (decide (i = Chunk.index c)) as [->|Hne].
    - rewrite map_get_set_eq in Hi. injection Hi as <-. exists c, now.
      split; [set_solver | by rewrite li_manifest0 in Hv].
    - rewrite map_get_set_ne in Hi by done. by apply delivered_snoc, li_from0. }
  constructor.
  - by eapply moves_inv.
  - simpl in Hman. congruence.
  - intros i b Hi. destruct (moves_chunks _ _ Hm) as [E|E]; rewrite E in Hi; [by apply Hfrom | done].
  - destruct Hcase as [(-> & Eo & file & Ha & ->)|(_ & ->)]; rewrite Hnil; [| constructor].
    apply Forall_singleton. rewrite Eo in Ha. apply after_store_await in Ha as (_ & _ & Hfile); [| done].
    destruct Hfile as (bs & -> & Hl & Hz & Hk). simpl in Hl, Hz. rewrite li_manifest0 in Hl, Hz.
    exists bs. repeat split; try done. intros k Hlt. apply Hfrom. by apply (Hk k Hlt).
  - destruct Hcase as [(-> & _ & file & _ & ->)|(_ & ->)]; rewrite Hnil; done.
  - destruct Hcase as [(-> & Eo & file & Ha & ->)|(_ & ->)]; rewrite Hnil; [| done]. intros _.
    rewrite Eo in Ha |- *. apply after_store_await in Ha as (_ & Hfull & _); [| done].
    simpl in *. rewrite Hp. split; [done |]. intros _. by rewrite <- li_manifest0.
Qed.

Lemma step_live_inv m tr s e r s' :
  live_inv m tr s -> step s e = Some (r, s') ->
  live_inv m (tr ++ [e]) s'.
Proof.
  intros Hl Hs. pose proof (step_cases _ _ _ _ Hs)
    as [Hm Hp _ _ | c now -> Hp Hv Hg Hw Hm Hcase | file rest outcome -> Hp Hp' _ Ho].
  - by eapply moves_live_inv.
  - by eapply store_live_inv.
  - destruct (receiveChunk_resume_moves (object s) file outcome) as [Hm|[_ E]].
    + rewrite <- Ho in Hm. assert (Hl2 : live_inv m (tr ++ [ev_digest outcome]) (mkLive (object s') (pending s))).
      { by eapply (moves_live_inv m tr _ s). }
      destruct Hl2. constructor; cbn [object pending] in *; try done.
      * rewrite Hp', Hp in *. by apply Forall_cons in li_pending0 as [_ ?].
      * rewrite Hp', Hp in *. rewrite zlen_cons in *. lia.
      * intros _. apply li_full0. by rewrite Hp.
    + rewrite E in Ho. cbn [snd] in Ho. destruct Hl. constructor; rewrite ?Ho, ?Hp'; try done.
      * destruct li_object0. constructor; simpl; try done. apply NoDup_nil_2.
      * rewrite Hp in li_pending0. apply Forall_cons in li_pending0 as [_ Hr].
        eapply Forall_impl; [exact Hr |]. intros. by apply whole_file_snoc.
      * rewrite Hp, zlen_cons in *. lia.
Qed.

Lemma runs_live_inv dir m o now tr s : runs dir m o now tr s -> live_inv m tr s.
Proof.
  induction 1 as [t Ho | tr s e r s' Hr IH Hs]; [| by eapply step_live_inv].
  destruct (open_inv _ _ _ _ _ Ho) as (Hi & Hm & Hp). apply open_transfer_Ok in Ho as (k & -> & _).
  constructor; try done; cbn; by intros.
Qed.

(** ** Sizes *)

Lemma manifest_layout m : manifest_ok m ->
  (Manifest.chunkCount m - 1) * Manifest.chunkBytes m < Manifest.byteCount m
  <= Manifest.chunkCount m * Manifest.chunkBytes m.
Proof.
  intros (_ & _ & _ & _ & _ & _ & Hb & Hc & _ & -> & _). apply ceil_div_bounds; lia.
Qed.

Lemma total_bytes_bound cs n :
  Forall (fun kv => zlen kv.2 <= n) cs -> total_bytes cs <= zlen cs * n.
Proof.
  induction 1 as [|[k b] cs Hb _ IH]; [done |]. rewrite zlen_cons. simpl in *. lia.
Qed.

Lemma inv_bounds t : transfer_inv t ->
  zlen (chunks t) <= Manifest.chunkCount (manifest t)
  /\ 0 <= receivedBytes t < Manifest.byteCount (manifest t) + Manifest.chunkBytes (manifest t).
Proof.
  intros []. pose proof inv_manifest0 as (_ & _ & _ & _ & _ & _ & _ & Hcb & Hcc & _).
  destruct (keys_in_range (chunks t) (Manifest.chunkCount (manifest t)) inv_wf0) as [Hl _].
  { eapply Forall_impl; [exact inv_fits0 |]. by intros kv [? _]. }
  pose proof (total_bytes_bound (chunks t) (Manifest.chunkBytes (manifest t))) as Ht.
  pose proof (manifest_layout _ inv_manifest0). rewrite inv_received0.
  assert (0 <= total_bytes (chunks t)).
  { clear. induction (chunks t) as [|kv l IH]; simpl; [lia |]. pose proof (zlen_nonneg kv.2). lia. }
  split; [lia |]. split; [done |].
  enough (total_bytes (chunks t) <= zlen (chunks t) * Manifest.chunkBytes (manifest t)) by nia.
  apply Ht. eapply Forall_impl; [exact inv_fits0 |]. by intros kv (_ & [_ ?] & _).
Qed.

(** in every reachable state of a transfer the stored chunks fit the
    manifest at distinct indices, the byte count is their total, the first
    missing index is exact, no stored chunk is further ahead of it than the
    reorder window, only an accepted transfer holds chunks; so memory is
    bounded by the announced size plus one chunk, and at most one digest is
    under way. *)
Theorem transfer_invariant dir m o now tr s (Hr : runs dir m o now tr s) :
  transfer_inv (object s) /\ manifest (object s) = m
  /\ zlen (chunks (object s)) <= Manifest.chunkCount m
  /\ 0 <= receivedBytes (object s) < Manifest.byteCount m + Manifest.chunkBytes m
  /\ zlen (pending s) <= 1.
Proof.
  destruct (runs_live_inv _ _ _ _ _ _ Hr) as [Hi Hm _ _ Hp _].
  pose proof (inv_bounds _ Hi) as [? ?]. rewrite Hm in *. done.
Qed.

Lemma resume_completed t file outcome content :
  (receiveChunk_resume t file outcome).1 = r_completed content ->
  outcome = Some (Manifest.sha256 (manifest t)) /\ content = file
  /\ (receiveChunk_resume t file outcome).2 = clearChunks (set_phase t completed).
Proof.
  unfold receiveChunk_resume, t_abort, t_terminal. destruct outcome as [d|]; [| done].
  destruct (str_eqb d _) eqn:E; [| done]. apply str_eqb_true in E as ->.
  intros H. injection H as ->. done.
Qed.

(** C3: a transfer that reports completion was resumed with exactly the digest
    of its manifest, and the bytes it returns are a file of the announced size
    made of one chunk per index, each of which arrived in a call and fits the
    manifest. *)
Theorem completed_file dir m o now tr s e content s'
    (Hr : runs dir m o now tr s) (Hs : step s e = Some (Some (r_completed content), s')) :
  e = ev_digest (Some (Manifest.sha256 m)) /\ whole_file m tr content
  /\ phase (object s') = completed /\ chunks (object s') = [].
Proof.
  pose proof (runs_live_inv _ _ _ _ _ _ Hr) as [Hi Hm _ Hpend _ _].
  destruct (step_cases _ _ _ _ Hs) as [_ _ Hn _ | c now' -> _ _ _ _ _ Hcase | file rest outcome -> Hp _ Hres Ho].
  - by destruct (Hn content).
  - destruct Hcase as [[? _]|[(a & Ha & Hn) _]]; simplify_eq. by destruct (Hn content).
  - injection Hres as Hres. symmetry in Hres. apply resume_completed in Hres as (-> & -> & E).
    rewrite Ho, E, Hm. rewrite Hp in Hpend. by apply Forall_cons in Hpend as [Hw _].
Qed.

(** a final phase is final.  Once a transfer is completed, rejected,
    cancelled, expired or aborted, no call changes it; only the outcome of a
    digest that was under way can. *)
Theorem terminal_is_final s e r s'
    (Ht : terminal (object s) = true) (Hs : step s e = Some (r, s'))
    (He : forall outcome, e <> ev_digest outcome) :
  s' = s.
Proof.
  destruct (step_cases _ _ _ _ Hs) as [Hm Hp _ _ | c now -> Hph _ _ _ _ _ | file rest outcome -> _ _ _ _].
  - apply moves_final in Hm; [| done]. destruct s, s'; simpl in *. congruence.
  - unfold terminal in Ht. by rewrite Hph in Ht.
  - by destruct (He outcome).
Qed.

(** ** Concrete runs *)

Lemma runs_events dir m o now es : forall tr s rs s',
  runs dir m o now tr s -> run_events s es = Some (rs, s') -> runs dir m o now (tr ++ es) s'.
Proof.
  induction es as [|e es IH]; intros tr s rs s' Hr H; simpl in H.
  - simplify_eq. by rewrite app_nil_r.
  - destruct (step s e) as [[r s1]|] eqn:Es; [|done].
    destruct (run_events s1 es) as [[rs1 s2]|] eqn:E2; [|done]. simpl in H. simplify_eq.
    replace (tr ++ e :: es) with ((tr ++ [e]) ++ es) by (by rewrite <- app_assoc).
    eapply IH; [| exact E2]. by eapply runs_step.
Qed.

Definition sample_options : TransferOptions := mkOptions None None None.

Definition sample_open : Live :=
  mkLive (mkTransfer inbound sample_manifest 64 [] offered 0 0) [].

Lemma sample_open_runs : runs inbound sample_manifest sample_options (Int 2000) [] sample_open.
Proof. apply runs_open. closed. Qed.

(** Accept the offer and receive both chunks, the second one first. *)
Definition sample_trace : list event :=
  [ev_accept (sample_decision accept) (Int 3000);
   ev_chunk (sample_chunk 1 44) (Int 3000); ev_chunk (sample_chunk 0 256) (Int 3000)].

Definition sample_waiting : Live :=
  mkLive (mkTransfer inbound sample_manifest 64
            [(1, replicate 44 5); (0, replicate 256 5)] accepted 300 2) [replicate 300 5].

Lemma sample_waiting_runs :
  runs inbound sample_manifest sample_options (Int 2000) sample_trace sample_waiting.
Proof.
  apply (runs_events _ _ _ _ sample_trace [] sample_open
           [Some (r_ok s_accepted accepted); Some (r_ok s_chunk_stored accepted); None]).
  - apply sample_open_runs.
  - closed.
Qed.

Lemma transfer_invariant_witness :
  zlen (chunks (object sample_waiting)) <= 2 /\ zlen (pending sample_waiting) <= 1.
Proof.
  destruct (transfer_invariant inbound sample_manifest sample_options (Int 2000) sample_trace
              sample_waiting sample_waiting_runs) as (_ & _ & Hl & _ & Hp).
  split; [exact Hl | exact Hp].
Defined.

Definition sample_done : Live :=
  mkLive (mkTransfer inbound sample_manifest 64 [] completed 0 2) [].

Lemma completed_file_witness :
  whole_file sample_manifest sample_trace (replicate 300 5) /\ phase (object sample_done) = completed.
Proof.
  destruct (completed_file inbound sample_manifest sample_options (Int 2000) sample_trace
              sample_waiting (ev_digest (Some (sample_token 32 3))) (replicate 300 5) sample_done
              sample_waiting_runs) as (_ & Hw & Hp & _).
  - vm_compute. reflexivity.
  - split; [exact Hw | exact Hp].
Defined.

Lemma terminal_is_final_witness :
  exists r s, step sample_done (ev_expire (Int 3000)) = Some (r, s) /\ s = sample_done.
Proof.
  exists (Some (r_ok s_duplicate completed)), sample_done. split; [vm_compute; reflexivity |].
  apply (terminal_is_final sample_done (ev_expire (Int 3000)) (Some (r_ok s_duplicate completed)));
    [vm_compute; reflexivity | vm_compute; reflexivity | intros outcome; discriminate].
Defined.

(** The one exception to finality: a transfer that is cancelled while the
    digest of its last chunk is under way still reports completion, and its
    phase goes from cancelled to completed, when the digest arrives. *)
Theorem cancelled_then_completed :
  exists tr s s',
    runs inbound sample_manifest sample_options (Int 2000) tr s
    /\ phase (object s) = cancelled /\ terminal (object s) = true
    /\ step s (ev_digest (Some (Manifest.sha256 sample_manifest)))
       = Some (Some (r_completed (replicate 300 5)), s')
    /\ phase (object s') = completed.
Proof.
  eexists (sample_trace ++ [ev_cancel (sample_decision cancel) (Int 4000)]),
    (mkLive (mkTransfer inbound sample_manifest 64 [] cancelled 0 2) [replicate 300 5]), _.
  split; [eapply runs_step; [apply sample_waiting_runs | closed] |].
  split; [done |]. split; [done |]. split; [closed | done].
Qed.

(** ** Delivery: the chunks of a file arrive, in any order within the window *)

(** The sender's cut of a file into chunks. *)
Definition part (m : AttachmentManifest) (file : bytes) (k : Z) : bytes :=
  take (Z.to_nat (Manifest.chunkBytes m)) (drop (Z.to_nat (k * Manifest.chunkBytes m)) file).

Definition chunk_of (m : AttachmentManifest) (file : bytes) (k : Z) : AttachmentChunk :=
  Chunk.mk attachmentVersion (Manifest.transferId m) (Manifest.manifestId m) k (part m file k).

(** No chunk is further than [reorder] ahead of the first one missing when it
    arrives. *)
Definition within_window (reorder : Z) (order : list Z) : Prop :=
  forall before k after i,
    order = before ++ k :: after -> 0 <= i -> i ∉ before ->
    (forall j, 0 <= j < i -> j ∈ before) -> k - i <= reorder.

Lemma concat_parts cb : forall n (file : bytes), (length file <= n * cb)%nat ->
  concat ((fun k => take cb (drop (k * cb) file)) <$> seq 0 n) = file.
Proof.
  induction n as [|n IH]; intros file Hl.
  - by destruct file; simpl in *; [| lia].
  - simpl. rewrite <- fmap_S_seq, <- list_fmap_compose. trans (take cb file ++ drop cb file); [| apply take_drop].
    f_equal. etrans; [| apply IH; rewrite length_drop; lia]. f_equal.
    apply list_fmap_ext. intros i k _. simpl. by rewrite drop_drop.
Qed.

Lemma part_fits m file k :
  manifest_ok m -> zlen file = Manifest.byteCount m -> 0 <= k < Manifest.chunkCount m ->
  fits m k (part m file k).
Proof.
  intros Hm Hf Hk. pose proof (manifest_layout m Hm) as Hl.
  destruct Hm as (_ & _ & _ & _ & _ & _ & _ & Hcb & _).
  assert (Hz : zlen (part m file k)
    = Z.min (Manifest.chunkBytes m) (Manifest.byteCount m - k * Manifest.chunkBytes m)).
  { unfold part, zlen in *. rewrite length_take, length_drop. nia. }
  split; [done |]. rewrite Hz. split; [nia |]. intros. nia.
Qed.

Lemma part_chunk_valid m file k :
  manifest_ok m -> zlen file = Manifest.byteCount m -> 0 <= k < Manifest.chunkCount m ->
  validateChunkForManifest (chunk_of m file k) m = Ok tt.
Proof.
  intros Hm Hf Hk. pose proof (part_fits m file k Hm Hf Hk) as Hfit.
  apply validateChunkForManifest_Ok. split; [| done]. apply validateChunk_Ok. simpl.
  destruct Hm as (Hv & Ht & Hi & _ & _ & _ & _ & Hcb & Hcc & _), Hfit as (_ & Hz & _).
  unfold maxAttachmentChunks, maxAttachmentChunkBytes in *.
  assert (is_safe k = true) by (unfold is_safe, MAX_SAFE_INTEGER; lia).
  repeat split; done || lia.
Qed.

(** An accepted transfer that has taken the chunks of [before]. *)
Definition has_taken (file : bytes) (before : list Z) (t : Transfer) : Prop :=
  transfer_inv t /\ direction t = inbound /\ phase t = accepted
  /\ chunks t = (fun k => (k, part (manifest t) file k)) <$> before.

Lemma taken_has file before t k : has_taken file before t -> map_has (chunks t) k = true <-> k ∈ before.
Proof.
  intros (_ & _ & _ & E). rewrite map_has_true, E. unfold map_keys. rewrite <- list_fmap_compose.
  rewrite list_elem_of_fmap. naive_solver.
Qed.

Lemma take_step file before k after t now z :
  has_taken file before t -> zlen file = Manifest.byteCount (manifest t) ->
  NoDup (before ++ k :: after) -> 0 <= k < Manifest.chunkCount (manifest t) ->
  within_window (maximumReorderChunks t) (before ++ k :: after) ->
  now = Int z -> is_safe z = true -> z < Manifest.expiresAt (manifest t) ->
  let t' := store_chunk t k (part (manifest t) file k) in
  receiveChunk t (chunk_of (manifest t) file k) now = after_store t'
  /\ has_taken file (before ++ [k]) t' /\ manifest t' = manifest t
  /\ maximumReorderChunks t' = maximumReorderChunks t.
Proof.
  intros Ht Hf Hnd Hk Hw -> Hsafe Hz. pose proof Ht as (Hi & Hd & Hp & Hc).
  pose proof (inv_manifest _ Hi) as Hm. cbv zeta.
  destruct (inv_missing _ Hi Hp) as (Hn0 & Hbelow & Hn).
  assert (Hnew : map_get (chunks t) k = None).
  { pose proof (taken_has file before t k Ht) as Hh. unfold map_has in Hh.
    destruct (map_get (chunks t) k); [| done]. apply NoDup_app in Hnd as (_ & Hdis & _).
    exfalso. eapply Hdis; [by apply Hh | by left]. }
  assert (Hwin : k - nextMissingIndex t <= maximumReorderChunks t).
  { apply (Hw before k after); [done | lia | |].
    - rewrite <- (taken_has file before t) by done. by rewrite Hn.
    - intros j Hj. by apply (taken_has file before t), Hbelow. }
  split; [| split; [| done]].
  - apply (receiveChunk_store t (chunk_of (manifest t) file k)); try done.
    + unfold t_expire. simpl. rewrite Hsafe. simpl.
      test (Manifest.expiresAt (manifest t) <=? z) false. rewrite andb_false_r.
      by rewrite Hp.
    + by apply part_chunk_valid.
  - split; [| split; [done | split; [done |]]].
    + apply store_chunk_inv; try done. by apply part_fits.
    + simpl. rewrite map_set_fresh by (by apply map_get_None). rewrite Hc, fmap_app. done.
Qed.

Lemma assemble_parts file m n : forall i cs,
  0 <= i ->
  (forall k, i <= k < i + Z.of_nat n -> map_get cs k = Some (part m file k)) ->
  assemble n i cs = Some (concat ((fun k => part m file (Z.of_nat k)) <$> seq (Z.to_nat i) n)).
Proof.
  induction n as [|n IH]; intros i cs Hi Hg; [done |]. cbn [assemble seq].
  rewrite (Hg i), IH by (intros; try apply Hg; lia). csimpl.
  rewrite Z2Nat.id by done. replace (S (Z.to_nat i)) with (Z.to_nat (i + 1)) by lia. done.
Qed.

Lemma concat_all_parts m file :
  manifest_ok m -> zlen file = Manifest.byteCount m ->
  concat ((fun k => part m file (Z.of_nat k)) <$> seq 0 (Z.to_nat (Manifest.chunkCount m))) = file.
Proof.
  intros Hm Hf. pose proof (manifest_layout m Hm) as Hl.
  destruct Hm as (_ & _ & _ & _ & _ & _ & _ & Hcb & Hcc & _).
  etrans; [| apply (concat_parts (Z.to_nat (Manifest.chunkBytes m)) (Z.to_nat (Manifest.chunkCount m)))].
  - f_equal. apply list_fmap_ext. intros i k _. unfold part. do 2 f_equal. lia.
  - unfold zlen in *. nia.
Qed.

Lemma taken_complete file order t :
  has_taken file order t -> zlen file = Manifest.byteCount (manifest t) ->
  zlen order = Manifest.chunkCount (manifest t) ->
  after_store t = (awaiting file, t).
Proof.
  intros Ht Hf Hl. pose proof Ht as (Hi & _ & _ & Hc). pose proof (inv_manifest _ Hi) as Hm.
  assert (Hfull : zlen (chunks t) = Manifest.chunkCount (manifest t)).
  { rewrite Hc. by rewrite zlen_fmap. }
  destruct (assemble_complete t Hi Hfull) as (f & Ha & Hr & _).
  pose proof Hm as (_ & _ & _ & _ & _ & _ & _ & _ & Hcc & _).
  assert (f = file) as ->.
  { rewrite (assemble_parts file (manifest t)) in Ha; [| lia |].
    - injection Ha as <-. by apply concat_all_parts.
    - intros k Hk. destruct (keys_in_range (chunks t) (Manifest.chunkCount (manifest t)) (inv_wf _ Hi)) as [_ H].
      { eapply Forall_impl; [apply (inv_fits _ Hi) |]. by intros kv [? _]. }
      specialize (H Hfull k ltac:(lia)). apply (taken_has file order t k Ht) in H.
      apply elem_map_get; [apply (inv_wf _ Hi) |]. rewrite Hc. apply list_elem_of_fmap. eauto. }
  unfold after_store. rewrite Hfull, Z.eqb_refl, Hr, Hf, Z.eqb_refl, Ha. done.
Qed.

Lemma taken_incomplete file order t :
  has_taken file order t -> zlen order <> Manifest.chunkCount (manifest t) ->
  after_store t = (returned (r_ok s_chunk_stored accepted), t).
Proof.
  intros (_ & _ & Hp & Hc) Hl. unfold after_store. rewrite Hc, zlen_fmap.
  test (zlen order =? Manifest.chunkCount (manifest t)) false. unfold t_ok, return_of. simpl. by rewrite Hp.
Qed.

Definition deliver (m : AttachmentManifest) (file : bytes) (now : number) (order : list Z) : list event :=
  (fun k => ev_chunk (chunk_of m file k) now) <$> order.

Lemma run_events_cons s e es r s1 rs s2 :
  step s e = Some (r, s1) -> run_events s1 es = Some (rs, s2) ->
  run_events s (e :: es) = Some (r :: rs, s2).
Proof. intros Hs Hr. simpl. by rewrite Hs, Hr. Qed.

Lemma step_chunk t p c now a t' :
  receiveChunk t c now = (returned a, t') -> step (mkLive t p) (ev_chunk c now) = Some (Some a, mkLive t' p).
Proof. intros H. simpl. by rewrite H. Qed.

Lemma deliver_rest file z m : forall after k before t,
  has_taken file before t -> manifest t = m -> zlen file = Manifest.byteCount m ->
  NoDup (before ++ k :: after) ->
  Forall (fun k => 0 <= k < Manifest.chunkCount m) (k :: after) ->
  zlen (before ++ k :: after) = Manifest.chunkCount m ->
  within_window (maximumReorderChunks t) (before ++ k :: after) ->
  is_safe z = true -> z < Manifest.expiresAt m ->
  exists t', run_events (mkLive t []) (deliver m file (Int z) (k :: after))
    = Some (replicate (length after) (Some (r_ok s_chunk_stored accepted)) ++ [None], mkLive t' [file])
    /\ has_taken file (before ++ k :: after) t' /\ manifest t' = m.
Proof.
  induction after as [|k2 after IH]; intros k before t Ht Hm Hf Hnd Hr Hl Hw Hs Hz; subst m;
    apply Forall_cons in Hr as [Hk Hr];
    destruct (take_step file before k _ t (Int z) z Ht Hf Hnd Hk Hw eq_refl Hs Hz) as (Es & Ht' & Hm' & Hro).
  - rewrite (taken_complete file (before ++ [k])) in Es by (done || congruence).
    eexists. split; [simpl; rewrite Es; reflexivity | done].
  - rewrite (taken_incomplete file (before ++ [k])) in Es.
    + destruct (IH k2 (before ++ [k]) _ Ht' Hm') as (t' & E & Hta & Hma); rewrite <- ?app_assoc; try done.
      rewrite <- app_assoc in Hta. eexists. split; [| done].
      eapply run_events_cons; [by apply step_chunk | exact E].
    + done.
    + rewrite Hm'. rewrite !zlen_app, !zlen_cons in *. pose proof (zlen_nonneg after).
      rewrite zlen_nil. lia.
Qed.

(** C5: a file is delivered.  An accepted inbound transfer that has no chunk yet
    takes the chunks of a file of the announced size in every order of the
    indices that stays within the reorder window, before expiry: it stores all
    but the last, starts the digest of exactly that file at the last, and with
    the announced digest completes with that file. *)
Theorem delivery t file order z
    (Ht : has_taken file [] t) (Hf : zlen file = Manifest.byteCount (manifest t))
    (Ho : Permutation order (seqZ 0 (Manifest.chunkCount (manifest t))))
    (Hw : within_window (maximumReorderChunks t) order)
    (Hs : is_safe z = true) (Hz : z < Manifest.expiresAt (manifest t)) :
  exists t' s',
    run_events (mkLive t []) (deliver (manifest t) file (Int z) order)
    = Some (replicate (length order - 1) (Some (r_ok s_chunk_stored accepted)) ++ [None], mkLive t' [file])
    /\ step (mkLive t' [file]) (ev_digest (Some (Manifest.sha256 (manifest t))))
       = Some (Some (r_completed file), s')
    /\ phase (object s') = completed.
Proof.
  pose proof Ht as (Hi & _). pose proof (inv_manifest _ Hi) as (_ & _ & _ & _ & _ & _ & _ & _ & Hcc & _).
  destruct order as [|k after].
  { apply Permutation_length in Ho. rewrite length_seqZ in Ho. simpl in Ho. lia. }
  destruct (deliver_rest file z (manifest t) after k [] t) as (t' & E & (_ & _ & _ & _) & Hm); try done.
  - simpl. rewrite Ho. apply NoDup_seqZ.
  - rewrite Ho. apply Forall_forall. intros j Hj%elem_of_seqZ. lia.
  - simpl. rewrite (zlen_perm _ _ Ho). unfold zlen. rewrite length_seqZ. lia.
  - exists t'. eexists. split; [rewrite E; simpl; by rewrite Nat.sub_0_r |].
    cbn [step object pending]. unfold receiveChunk_resume. rewrite Hm, str_eqb_refl. done.
Qed.

Definition sample_accepted : Transfer :=
  mkTransfer inbound sample_manifest 64 [] accepted 0 0.

Lemma sample_accepted_taken : has_taken (replicate 300 7) [] sample_accepted.
Proof.
  assert (Hr : runs inbound sample_manifest sample_options (Int 2000)
                 ([] ++ [ev_accept (sample_decision accept) (Int 3000)]) (mkLive sample_accepted [])).
  { eapply runs_step; [apply sample_open_runs | closed]. }
  by destruct (runs_live_inv _ _ _ _ _ _ Hr).
Qed.

Lemma delivery_witness :
  exists t' s',
    run_events (mkLive sample_accepted []) (deliver sample_manifest (replicate 300 7) (Int 5000) [1; 0])
    = Some ([Some (r_ok s_chunk_stored accepted); None], mkLive t' [replicate 300 7])
    /\ step (mkLive t' [replicate 300 7]) (ev_digest (Some (Manifest.sha256 sample_manifest)))
       = Some (Some (r_completed (replicate 300 7)), s')
    /\ phase (object s') = completed.
Proof.
  apply (delivery sample_accepted (replicate 300 7) [1; 0] 5000).
  - exact sample_accepted_taken.
  - vm_compute. reflexivity.
  - change (seqZ 0 (Manifest.chunkCount (manifest sample_accepted))) with [0; 1]. apply Permutation_swap.
  - intros before k after i E Hi _ _. assert (k ∈ [1; 0]) by (rewrite E; set_solver).
    simpl. set_solver by lia.
  - vm_compute. reflexivity.
  - vm_compute. reflexivity.
Defined.
