(* ===== verification/TransferRegistry.v ===== *)
(** * [application-payload/transfer-state.ts]: [AttachmentTransferRegistry]

    One registry per peer and direction: at most one live transfer, and a
    bounded memory of the transfers that ended, kept until they expire.  The
    active object is shared with the caller, which calls its methods; an
    [on_active] operation is such a call. *)
From S2P Require Import Prelude JsRuntime Collections Base64Url Cbor CborFacts Records Attachment Transfer TransferFacts.

Record Registry := mkRegistry {
  r_direction : AttachmentTransferDirection;
  r_options : TransferOptions;
  closed_transfers : list (jsstring * Z);
  active : option Live;
}.

Inductive open_result : Type :=
| o_opened | o_duplicate | o_busy | o_replayed | o_aborted.

Definition remembered (o : TransferOptions) : number := default_number 16 (maximumRememberedTransfers o).

(** The constructor. *)
Definition new_registry (dir : AttachmentTransferDirection) (o : TransferOptions) : result Registry :=
  let? _ := validateOpenOptions o in
  if negb (number_in 1 64 (remembered o)) then Throw (js "invalid attachment transfer registry options")
  else Ok (mkRegistry dir o [] None).

(** [`${manifest.transferId}:${manifest.manifestId}`] *)
Definition transferKey (m : AttachmentManifest) : jsstring :=
  Manifest.transferId m ++ js ":" ++ Manifest.manifestId m.

Definition sweep (r : Registry) (now : number) : result Registry :=
  if negb (isSafeInteger now) then Throw (js "invalid attachment transfer time")
  else
    let cl := map_delete_if (fun _ expiresAt => time_reached now expiresAt) (closed_transfers r) in
    let '(cl, act) :=
      match active r with
      | Some live =>
          if terminal (object live)
          then (map_set cl (transferKey (manifest (object live)))
                  (Manifest.expiresAt (manifest (object live))), None)
          else (cl, active r)
      | None => (cl, None)
      end in
    Ok (mkRegistry (r_direction r) (r_options r)
          (map_trim (number_value (remembered (r_options r))) cl) act).

Definition set_active (r : Registry) (a : option Live) : Registry :=
  mkRegistry (r_direction r) (r_options r) (closed_transfers r) a.

(** [open]: the answer (or the error thrown) and the state it leaves. *)
Definition registry_open (r : Registry) (m : AttachmentManifest) (now : number)
  : result open_result * Registry :=
  match sweep r now with
  | Throw e => (Throw e, r)
  | Ok r =>
      if map_has (closed_transfers r) (transferKey m) then (Ok o_replayed, r)
      else match active r with
      | Some live =>
          let current := manifest (object live) in
          if negb (str_eqb (transferKey current) (transferKey m)) then (Ok o_busy, r)
          else match attachmentManifestSigningBytes current, attachmentManifestSigningBytes m with
               | Ok a, Ok b =>
                   if bytesEqual a b then (Ok o_duplicate, r)
                   else
                     let r := set_active r (Some (mkLive (abort_transfer (object live)).2 (pending live))) in
                     match sweep r now with
                     | Ok r => (Ok o_aborted, r)
                     | Throw e => (Throw e, r)
                     end
               | Throw e, _ => (Throw e, r)
               | _, Throw e => (Throw e, r)
               end
      | None =>
          match open_transfer (r_direction r) m (r_options r) now with
          | Ok t => (Ok o_opened, set_active r (Some (mkLive t [])))
          | Throw e => (Throw e, r)
          end
      end
  end.

Definition registry_expire (r : Registry) (now : number) : result unit * Registry :=
  let r := match active r with
           | Some live => set_active r (Some (mkLive (expire_transfer (object live) now).2 (pending live)))
           | None => r
           end in
  match sweep r now with Ok r => (Ok tt, r) | Throw e => (Throw e, r) end.

(** A call on the active transfer, or the outcome of its digest. *)
Definition on_active (r : Registry) (e : event) : Registry :=
  match active r with
  | Some live =>
      match step live e with Some (_, live') => set_active r (Some live') | None => r end
  | None => r
  end.

Inductive registry_op : Type :=
| op_open (m : AttachmentManifest) (now : number)
| op_expire (now : number)
| op_active (e : event).

Definition run_op (r : Registry) (op : registry_op) : Registry :=
  match op with
  | op_open m now => (registry_open r m now).2
  | op_expire now => (registry_expire r now).2
  | op_active e => on_active r e
  end.

(** ** Invariant *)

Record registry_inv (r : Registry) : Prop := {
  ri_options : exists n, remembered (r_options r) = Int n /\ 1 <= n <= 64;
  ri_wf : map_wf (closed_transfers r);
  ri_size : zlen (closed_transfers r) <= number_value (remembered (r_options r));
  ri_active : forall live, active r = Some live ->
    exists tr, live_inv (manifest (object live)) tr live;
  ri_fresh : forall live, active r = Some live ->
    transferKey (manifest (object live)) ∉ map_keys (closed_transfers r);
}.

Lemma map_delete_if_keys {K V} `{EqDecision K} (p : K -> V -> bool) m k :
  k ∈ map_keys (map_delete_if p m) -> k ∈ map_keys m.
Proof. intros H. eapply elem_of_sublist; [exact H |]. apply map_keys_filter. Qed.

Lemma map_trim_keys {K V} `{EqDecision K} bound (m : list (K * V)) k :
  0 <= bound -> map_wf m -> k ∈ map_keys (map_trim bound m) -> k ∈ map_keys m.
Proof.
  intros Hb Hm. rewrite map_trim_drop by done. unfold map_keys. intros H.
  rewrite <- (take_drop (length m - Z.to_nat bound) m), fmap_app. set_solver.
Qed.

Lemma sweep_inv r now r' :
  registry_inv r -> sweep r now = Ok r' ->
  registry_inv r' /\ r_options r' = r_options r
  /\ (active r' = None \/ active r' = active r)
  /\ (forall live, active r' = Some live -> terminal (object live) = false).
Proof.
  intros [(n & Hn & Hn1) Hwf Hsz Hact Hfresh] H. unfold sweep in H. case_match; [done |].
  set (cl := map_delete_if _ _) in H.
  assert (Hcl : map_wf cl) by (by apply map_delete_if_wf).
  destruct (active r) as [live|] eqn:Ea; [destruct (terminal (object live)) eqn:Et |]; simplify_eq;
    (split; [constructor; cbn [r_options closed_transfers active] |
             split; [done | split; [by auto | cbn; intros; by simplify_eq]]]);
    rewrite ?Hn; cbn [number_value]; eauto; try (apply map_trim_wf; [lia | by try apply map_set_wf]);
    try (rewrite map_trim_size; [lia | lia | by try apply map_set_wf]); try (by intros).
  intros l' E. simplify_eq. intros Hin. eapply (Hfresh l'); [done |].
  apply map_trim_keys in Hin; [| lia | done]. by apply map_delete_if_keys in Hin.
Qed.

Lemma set_active_inv r live :
  registry_inv r -> (exists tr, live_inv (manifest (object live)) tr live) ->
  transferKey (manifest (object live)) ∉ map_keys (closed_transfers r) ->
  registry_inv (set_active r (Some live)).
Proof. intros [] Hl Hk. constructor; try done; cbn; intros l E; by simplify_eq. Qed.

Lemma live_step m tr live e r live' :
  live_inv m tr live -> step live e = Some (r, live') ->
  exists tr', live_inv (manifest (object live')) tr' live' /\ manifest (object live') = manifest (object live).
Proof.
  intros Hl Hs. pose proof (step_live_inv m tr live e r live' Hl Hs) as Hl'.
  exists (tr ++ [e]). by rewrite (li_manifest _ _ _ Hl), (li_manifest _ _ _ Hl').
Qed.

Lemma step_active_inv r live e a live' :
  registry_inv r -> active r = Some live -> step live e = Some (a, live') ->
  registry_inv (set_active r (Some live')).
Proof.
  intros Hr Ha Hs. destruct (ri_active r Hr live Ha) as [tr Hl].
  destruct (live_step _ _ _ _ _ _ Hl Hs) as (tr' & Hl' & Hm).
  apply set_active_inv; [done | by exists tr' |]. rewrite Hm. by apply (ri_fresh r Hr).
Qed.

Lemma registry_open_inv r m now : registry_inv r -> registry_inv (registry_open r m now).2.
Proof.
  intros Hr. unfold registry_open. destruct (sweep r now) as [r1|] eqn:Es; [| done].
  destruct (sweep_inv _ _ _ Hr Es) as (Hr1 & _).
  destruct (map_has (closed_transfers r1) (transferKey m)) eqn:Eh; [done |].
  apply map_has_false in Eh. destruct (active r1) as [live|] eqn:Ea.
  - case_match; [done |]. destruct (attachmentManifestSigningBytes _) as [a|]; [| done].
    destruct (attachmentManifestSigningBytes m) as [b|]; [| done]. case_match; [done |].
    assert (Hab : registry_inv (set_active r1
                    (Some (mkLive (abort_transfer (object live)).2 (pending live))))).
    { by eapply (step_active_inv r1 live ev_abort). }
    destruct (sweep (set_active r1 _) now) as [r2|] eqn:E2; [| done].
    by apply (sweep_inv _ _ _ Hab E2).
  - destruct (open_transfer _ m _ now) as [t|] eqn:Eo; [| done].
    destruct (open_inv _ _ _ _ _ Eo) as (Hi & Hm & _).
    apply set_active_inv; [done | | by simpl; rewrite Hm].
    exists []. simpl. rewrite Hm. by apply (runs_live_inv (r_direction r1) m (r_options r1) now), runs_open.
Qed.

Lemma run_op_inv r op : registry_inv r -> registry_inv (run_op r op).
Proof.
  intros Hr. destruct op as [m now|now|e]; simpl.
  - by apply registry_open_inv.
  - unfold registry_expire.
    assert (Hx : registry_inv match active r with
           | Some live => set_active r (Some (mkLive (expire_transfer (object live) now).2 (pending live)))
           | None => r end).
    { destruct (active r) as [live|] eqn:Ea; [| done]. by eapply (step_active_inv r live (ev_expire now)). }
    destruct (sweep _ now) as [r2|] eqn:E2; [| done]. by apply (sweep_inv _ _ _ Hx E2).
  - unfold on_active. destruct (active r) as [live|] eqn:Ea; [| done].
    destruct (step live e) as [[a live']|] eqn:Es; [| done]. by eapply step_active_inv.
Qed.

Lemma new_registry_inv dir o r : new_registry dir o = Ok r -> registry_inv r.
Proof.
  unfold new_registry. intros H. step H as [] Ev. case_match eqn:Er; [done |]. simplify_eq.
  bool_props. unfold number_in in Er. destruct (remembered o) as [n|] eqn:En; [| done]. bool_props.
  constructor; cbn; try done; rewrite ?En; [by exists n | by apply NoDup_nil_2 | cbn; unfold zlen; cbn; lia].
Qed.

(** whatever a peer does, a registry holds at most one live transfer, which
    satisfies the transfer's invariant and whose key is not among the closed
    ones, and remembers at most the configured number of closed transfers,
    never more than 64, each key once. *)
Theorem registry_invariant dir o r ops (Hn : new_registry dir o = Ok r) :
  registry_inv (foldl run_op r ops)
  /\ zlen (closed_transfers (foldl run_op r ops)) <= 64.
Proof.
  assert (Hr : registry_inv (foldl run_op r ops)).
  { apply new_registry_inv in Hn. revert r Hn. induction ops as [|op ops IH]; intros r Hr; simpl; [done |].
    by apply IH, run_op_inv. }
  split; [done |]. destruct Hr as [(n & Hn1 & Hn2) _ Hsz _ _]. rewrite Hn1 in Hsz. simpl in Hsz. lia.
Qed.

Definition sample_registry : Registry := mkRegistry inbound sample_options [] None.

Lemma registry_invariant_witness :
  zlen (closed_transfers (foldl run_op sample_registry
    [op_open sample_manifest (Int 2000); op_active ev_abort; op_expire (Int 3000)])) <= 64.
Proof. apply (registry_invariant inbound sample_options sample_registry). vm_compute. reflexivity. Defined.

(** a transfer that ended is not opened again.  Sweeping a registry whose
    active transfer is final closes it; from then on, as long as no other
    transfer evicts it, opening its manifest before expiry answers [replayed]
    and leaves no active transfer. *)
Theorem registry_replay r live now r' now'
    (Hr : registry_inv r) (Ha : active r = Some live) (Ht : terminal (object live) = true)
    (Hs : sweep r (Int now) = Ok r')
    (Hsafe : is_safe now' = true) (Hnow : now' < Manifest.expiresAt (manifest (object live))) :
  active r' = None
  /\ (registry_open r' (manifest (object live)) (Int now')).1 = Ok o_replayed
  /\ active (registry_open r' (manifest (object live)) (Int now')).2 = None.
Proof.
  pose proof (sweep_inv _ _ _ Hr Hs) as (Hr' & Ho & _). destruct Hr as [(n & Hn & Hn1) Hwf Hsz _ Hfresh].
  unfold sweep in Hs. case_match; [done |]. rewrite Ha, Ht in Hs.
  set (cl := map_delete_if _ _) in Hs. set (key := transferKey (manifest (object live))) in *.
  assert (Hcl : map_wf cl) by (by apply map_delete_if_wf).
  assert (Hk : key ∉ map_keys cl).
  { intros Hin. eapply (Hfresh live); [done |]. by apply map_delete_if_keys in Hin. }
  rewrite Hn in Hs. cbn [number_value] in Hs. injection Hs as <-. cbn [active]. split; [done |].
  pose proof (map_set_wf cl key (Manifest.expiresAt (manifest (object live))) Hcl) as Hw.
  assert (Hget : map_get (map_trim n (map_set cl key (Manifest.expiresAt (manifest (object live))))) key
                 = Some (Manifest.expiresAt (manifest (object live)))).
  { apply elem_map_get; [apply map_trim_wf; [lia | done] |].
    rewrite map_trim_drop by (lia || done). rewrite map_set_fresh by done.
    rewrite drop_app_le by (rewrite length_app; simpl; lia). set_solver. }
  unfold registry_open, sweep. cbn [isSafeInteger]. rewrite Hsafe. cbn [negb active closed_transfers].
  rewrite Hn in *. cbn [number_value r_options] in *. rewrite Hn. cbn [number_value].
  set (cl2 := map_delete_if _ (map_trim n _)).
  assert (Hcl2 : map_has (map_trim n cl2) key = true).
  { assert (Hsz2 : zlen cl2 <= n).
    { etrans; [apply map_delete_if_size |]. rewrite map_trim_size by (lia || done). lia. }
    rewrite map_trim_drop; [| lia | apply map_delete_if_wf, map_trim_wf; [lia | done]].
    replace (length cl2 - Z.to_nat n)%nat with O by (unfold zlen in Hsz2; lia). rewrite drop_0.
    unfold map_has, cl2. rewrite map_get_delete_if by (apply map_trim_wf; [lia | done]). rewrite Hget.
    simpl. by test (Manifest.expiresAt (manifest (object live)) <=? now') false. }
  fold key. rewrite Hcl2. done.
Qed.

Definition sample_aborted : Live := mkLive (mkTransfer inbound sample_manifest 64 [] aborted 0 0) [].

Definition registry_aborted : Registry := mkRegistry inbound sample_options [] (Some sample_aborted).

Lemma registry_aborted_inv : registry_inv registry_aborted.
Proof.
  assert (H : foldl run_op sample_registry [op_open sample_manifest (Int 2000); op_active ev_abort]
              = registry_aborted) by closed.
  rewrite <- H. assert (Hn : registry_inv sample_registry).
  { apply (new_registry_inv inbound sample_options). closed. }
  by apply run_op_inv, run_op_inv.
Qed.

Lemma registry_replay_witness :
  (registry_open (mkRegistry inbound sample_options [(transferKey sample_manifest, 61000)] None)
     sample_manifest (Int 4000)).1 = Ok o_replayed.
Proof.
  apply (registry_replay registry_aborted sample_aborted 3000
           (mkRegistry inbound sample_options [(transferKey sample_manifest, 61000)] None) 4000).
  - exact registry_aborted_inv.
  - reflexivity.
  - reflexivity.
  - vm_compute. reflexivity.
  - reflexivity.
  - vm_compute. reflexivity.
Defined.
