(* ===== verification/Image.v ===== *)
(** * [application-payload/image.ts]: inline images, transfer manifests, chunks
    and capabilities

    Numeric fields are [number]s, as the validators test them with
    [Number.isSafeInteger]; arithmetic on them happens only behind those tests,
    on [number_value].  An optional field is an [option]. *)
From S2P Require Import Prelude JsRuntime Collections Base64Url Cbor CborFacts Records.

Definition imageMessageVersion : jsstring := js "branch.image-message/0.draft".
Definition imageTransferVersion : jsstring := js "branch.image-transfer/0.draft".
Definition imageTransferSignatureDomain : jsstring := js "branch.image-transfer.signature/0.draft".
Definition imageCapabilitiesControlKind : jsstring := js "branch.image.capabilities/0.draft".
Definition imageInlineKind : jsstring := js "branch.image.inline/0.draft".
Definition imageTransferManifestKind : jsstring := js "branch.image.transfer.manifest/0.draft".
Definition imageTransferChunkKind : jsstring := js "branch.image.transfer.chunk/0.draft".
Definition maxInlineImageBytes : Z := 2800.
Definition maxInlineImageBodyBytes : Z := 3000.
Definition maxImageTransferChunkBytes : Z := 3072.
Definition maxImageTransferChunkBodyBytes : Z := 4096.
Definition maxImageTransferManifestBodyBytes : Z := 2048.
Definition maxImageTransferChunks : Z := 8192.
Definition maxImageRelayBytes : Z := 4 * 1024 * 1024.
Definition maxImageDirectBytes : Z := 16 * 1024 * 1024.
Definition maxImageTransferTTLms : Z := 15 * 60 * 1000.
Definition maxImageWidth : Z := 4096.
Definition maxImageHeight : Z := 4096.
Definition maxImagePixels : Z := 16 * 1024 * 1024.
Definition maxImageCapabilitiesBytes : Z := 512.
Definition maxImageCaptionBytes : Z := 1024.

Inductive ImageRoute : Type := relay | direct.

Module Inline.
Record InlineImage := mk {
  version : jsstring;
  mediaType : jsstring;
  width : number;
  height : number;
  content : bytes;
  caption : option jsstring;
  replyToMessageId : option jsstring;
}.
End Inline.
Abbreviation InlineImage := Inline.InlineImage.

Module IManifest.
Record ImageTransferManifest := mk {
  version : jsstring;
  transferId : jsstring;
  manifestId : jsstring;
  messageId : jsstring;
  issuedAt : number;
  expiresAt : number;
  mediaType : jsstring;
  width : number;
  height : number;
  byteCount : number;
  chunkBytes : number;
  chunkCount : number;
  sha256 : jsstring;
  signature : bytes;
  caption : option jsstring;
  replyToMessageId : option jsstring;
}.
End IManifest.
Abbreviation ImageTransferManifest := IManifest.ImageTransferManifest.

Module IChunk.
Record ImageTransferChunk := mk {
  version : jsstring;
  transferId : jsstring;
  manifestId : jsstring;
  index : number;
  content : bytes;
}.
End IChunk.
Abbreviation ImageTransferChunk := IChunk.ImageTransferChunk.

Module Caps.
Record ImageCapabilities := mk {
  version : jsstring;
  maxInlineBytes : number;
  maxRelayBytes : number;
  maxDirectBytes : number;
  maxWidth : number;
  maxHeight : number;
  maxPixels : number;
}.
End Caps.
Abbreviation ImageCapabilities := Caps.ImageCapabilities.

(** ** Validators *)

Definition isRasterImageMediaType (value : jsstring) : bool :=
  str_eqb value (js "image/jpeg") || str_eqb value (js "image/png")
  || str_eqb value (js "image/webp").

Definition isBoundedInteger (value : number) (minimum maximum : Z) : bool :=
  number_in minimum maximum value.

Definition isSafeTime (value : number) : bool :=
  match value with Int z => is_safe z && (0 <=? z) | NonInt => false end.

Definition tokenIs (value : jsstring) (size : Z) : bool := validToken value size.

Definition validateImageShape (mediaType : jsstring) (width height : number) : result unit :=
  if negb (isRasterImageMediaType mediaType)
     || negb (isBoundedInteger width 1 maxImageWidth)
     || negb (isBoundedInteger height 1 maxImageHeight)
     || (maxImagePixels <? number_value width * number_value height)
  then Throw (js "invalid image shape") else Ok tt.

(** Whether [value.trim()] is empty. *)
Definition is_blank (value : jsstring) : bool := forallb is_js_space value.

Definition validateCaption (value : option jsstring) : result unit :=
  match value with
  | Some value =>
      if (maxImageCaptionBytes <? text_bytes value) || is_blank value
      then Throw (js "invalid image caption") else Ok tt
  | None => Ok tt
  end.

Definition byte_at (b : bytes) (i : nat) (v : Z) : bool := bool_decide (b !! i = Some v).

Definition hasRasterImageMagic (mediaType : jsstring) (b : bytes) : bool :=
  if str_eqb mediaType (js "image/jpeg") then
    (3 <=? zlen b) && byte_at b 0 0xff && byte_at b 1 0xd8 && byte_at b 2 0xff
  else if str_eqb mediaType (js "image/png") then
    (8 <=? zlen b) && byte_at b 0 0x89 && byte_at b 1 0x50 && byte_at b 2 0x4e && byte_at b 3 0x47
    && byte_at b 4 0x0d && byte_at b 5 0x0a && byte_at b 6 0x1a && byte_at b 7 0x0a
  else if str_eqb mediaType (js "image/webp") then
    (12 <=? zlen b) && byte_at b 0 0x52 && byte_at b 1 0x49 && byte_at b 2 0x46 && byte_at b 3 0x46
    && byte_at b 8 0x57 && byte_at b 9 0x45 && byte_at b 10 0x42 && byte_at b 11 0x50
  else false.

Definition optional_token_ok (value : option jsstring) : bool :=
  match value with Some t => tokenIs t 16 | None => true end.

Definition validateInlineImage (image : InlineImage) : result unit :=
  let? _ := validateImageShape (Inline.mediaType image) (Inline.width image) (Inline.height image) in
  if negb (str_eqb (Inline.version image) imageMessageVersion)
     || (zlen (Inline.content image) =? 0)
     || (maxInlineImageBytes <? zlen (Inline.content image))
     || negb (hasRasterImageMagic (Inline.mediaType image) (Inline.content image))
  then Throw (js "invalid inline image")
  else
    let? _ := validateCaption (Inline.caption image) in
    if negb (optional_token_ok (Inline.replyToMessageId image))
    then Throw (js "invalid inline image reply target") else Ok tt.

Definition validateImageTransferManifest (m : ImageTransferManifest) : result unit :=
  let? _ := validateImageShape (IManifest.mediaType m) (IManifest.width m) (IManifest.height m) in
  let? _ := validateCaption (IManifest.caption m) in
  if negb (str_eqb (IManifest.version m) imageTransferVersion)
     || negb (tokenIs (IManifest.transferId m) 16)
     || negb (tokenIs (IManifest.manifestId m) 32)
     || negb (tokenIs (IManifest.messageId m) 16)
     || negb (tokenIs (IManifest.sha256 m) 32)
     || negb (optional_token_ok (IManifest.replyToMessageId m))
     || negb (zlen (IManifest.signature m) =? 64)
     || negb (isSafeTime (IManifest.issuedAt m))
     || negb (isSafeTime (IManifest.expiresAt m))
     || (number_value (IManifest.expiresAt m) <=? number_value (IManifest.issuedAt m))
     || (maxImageTransferTTLms
         <? number_value (IManifest.expiresAt m) - number_value (IManifest.issuedAt m))
     || negb (isBoundedInteger (IManifest.byteCount m) 1 maxImageDirectBytes)
     || negb (isBoundedInteger (IManifest.chunkBytes m) 256 maxImageTransferChunkBytes)
     || negb (isBoundedInteger (IManifest.chunkCount m) 1 maxImageTransferChunks)
     || negb (number_value (IManifest.chunkCount m)
              =? ceil_div (number_value (IManifest.byteCount m)) (number_value (IManifest.chunkBytes m)))
  then Throw (js "invalid image transfer manifest") else Ok tt.

Definition validateImageTransferChunk (c : ImageTransferChunk) : result unit :=
  if negb (str_eqb (IChunk.version c) imageTransferVersion)
     || negb (tokenIs (IChunk.transferId c) 16)
     || negb (tokenIs (IChunk.manifestId c) 32)
     || negb (isSafeTime (IChunk.index c))
     || (zlen (IChunk.content c) =? 0)
     || (maxImageTransferChunkBytes <? zlen (IChunk.content c))
  then Throw (js "invalid image transfer chunk") else Ok tt.

Definition validateImageTransferChunkForManifest (c : ImageTransferChunk) (m : ImageTransferManifest)
  : result unit :=
  let? _ := validateImageTransferChunk c in
  let? _ := validateImageTransferManifest m in
  let index := number_value (IChunk.index c) in
  let count := number_value (IManifest.chunkCount m) in
  let size := number_value (IManifest.chunkBytes m) in
  if negb (str_eqb (IChunk.transferId c) (IManifest.transferId m))
     || negb (str_eqb (IChunk.manifestId c) (IManifest.manifestId m))
     || (count <=? index)
     || (size <? zlen (IChunk.content c))
     || ((index + 1 <? count) && negb (zlen (IChunk.content c) =? size))
  then Throw (js "image transfer chunk does not match manifest") else Ok tt.

Definition validateImageManifestForMessage (m : ImageTransferManifest) (messageId : jsstring)
  : result unit :=
  let? _ := validateImageTransferManifest m in
  if negb (tokenIs messageId 16) || negb (str_eqb (IManifest.messageId m) messageId)
  then Throw (js "image transfer message identity mismatch") else Ok tt.

Definition validateImageCapabilities (c : ImageCapabilities) : result unit :=
  if negb (str_eqb (Caps.version c) imageMessageVersion)
     || negb (isBoundedInteger (Caps.maxInlineBytes c) 0 maxInlineImageBytes)
     || negb (isBoundedInteger (Caps.maxRelayBytes c) 0 maxImageRelayBytes)
     || negb (isBoundedInteger (Caps.maxDirectBytes c) 0 maxImageDirectBytes)
     || negb (isBoundedInteger (Caps.maxWidth c) 1 maxImageWidth)
     || negb (isBoundedInteger (Caps.maxHeight c) 1 maxImageHeight)
     || negb (isBoundedInteger (Caps.maxPixels c) 1 maxImagePixels)
     || (number_value (Caps.maxWidth c) * number_value (Caps.maxHeight c)
         <? number_value (Caps.maxPixels c))
  then Throw (js "invalid image capabilities") else Ok tt.

(** ** Admission predicates *)

Definition shapeFits (width height : number) (c : ImageCapabilities) : bool :=
  (number_value width <=? number_value (Caps.maxWidth c))
  && (number_value height <=? number_value (Caps.maxHeight c))
  && (number_value width * number_value height <=? number_value (Caps.maxPixels c)).

Definition capabilityAllowsInlineImage (c : ImageCapabilities) (image : InlineImage) : bool :=
  match validateImageCapabilities c, validateInlineImage image with
  | Ok _, Ok _ =>
      (zlen (Inline.content image) <=? number_value (Caps.maxInlineBytes c))
      && shapeFits (Inline.width image) (Inline.height image) c
  | _, _ => false
  end.

Definition capabilityAllowsImageTransfer (c : ImageCapabilities) (m : ImageTransferManifest)
    (route : ImageRoute) : bool :=
  match validateImageCapabilities c, validateImageTransferManifest m with
  | Ok _, Ok _ =>
      let maxBytes := match route with relay => Caps.maxRelayBytes c | direct => Caps.maxDirectBytes c end in
      (number_value (IManifest.byteCount m) <=? number_value maxBytes)
      && shapeFits (IManifest.width m) (IManifest.height m) c
  | _, _ => false
  end.

(** ** Maps *)

Definition optional_text (name : jsstring) (value : option jsstring) : CborMap :=
  match value with Some v => [(name, CText v)] | None => [] end.

Definition optional_token (name : jsstring) (value : option jsstring) : result CborMap :=
  match value with
  | Some v => let? b := decodeBase64URL v in Ok [(name, CBytes b)]
  | None => Ok []
  end.

Definition inlineMap (image : InlineImage) : result CborMap :=
  let? reply := optional_token (js "reply_to_message_id") (Inline.replyToMessageId image) in
  Ok ([(js "version", CText (Inline.version image));
       (js "media_type", CText (Inline.mediaType image));
       (js "width", CNum (Inline.width image));
       (js "height", CNum (Inline.height image));
       (js "bytes", CBytes (Inline.content image))]
      ++ optional_text (js "caption") (Inline.caption image) ++ reply).

Definition baseManifest (m : ImageTransferManifest) : result CborMap :=
  let? transfer := decodeBase64URL (IManifest.transferId m) in
  let? manifest := decodeBase64URL (IManifest.manifestId m) in
  let? message := decodeBase64URL (IManifest.messageId m) in
  let? digest := decodeBase64URL (IManifest.sha256 m) in
  let? reply := optional_token (js "reply_to_message_id") (IManifest.replyToMessageId m) in
  Ok ([(js "version", CText (IManifest.version m));
       (js "transfer_id", CBytes transfer);
       (js "manifest_id", CBytes manifest);
       (js "message_id", CBytes message);
       (js "issued_at", CNum (IManifest.issuedAt m));
       (js "expires_at", CNum (IManifest.expiresAt m));
       (js "media_type", CText (IManifest.mediaType m));
       (js "width", CNum (IManifest.width m));
       (js "height", CNum (IManifest.height m));
       (js "byte_count", CNum (IManifest.byteCount m));
       (js "chunk_bytes", CNum (IManifest.chunkBytes m));
       (js "chunk_count", CNum (IManifest.chunkCount m));
       (js "sha256", CBytes digest)]
      ++ optional_text (js "caption") (IManifest.caption m) ++ reply).

Definition manifestMap (m : ImageTransferManifest) (signature : bool) : result CborMap :=
  let? entries := baseManifest m in
  Ok (if signature then entries ++ [(js "signature", CBytes (IManifest.signature m))] else entries).

Definition chunkMap (c : ImageTransferChunk) : result CborMap :=
  let? transfer := decodeBase64URL (IChunk.transferId c) in
  let? manifest := decodeBase64URL (IChunk.manifestId c) in
  Ok [(js "version", CText (IChunk.version c));
      (js "transfer_id", CBytes transfer);
      (js "manifest_id", CBytes manifest);
      (js "index", CNum (IChunk.index c));
      (js "bytes", CBytes (IChunk.content c))].

Definition capabilitiesMap (c : ImageCapabilities) : CborMap :=
  [(js "version", CText (Caps.version c));
   (js "max_inline_bytes", CNum (Caps.maxInlineBytes c));
   (js "max_relay_bytes", CNum (Caps.maxRelayBytes c));
   (js "max_direct_bytes", CNum (Caps.maxDirectBytes c));
   (js "max_width", CNum (Caps.maxWidth c));
   (js "max_height", CNum (Caps.maxHeight c));
   (js "max_pixels", CNum (Caps.maxPixels c))].

Definition signed (map : CborMap) : result bytes :=
  let prefix := utf8_encode (imageTransferSignatureDomain ++ [0]) in
  let? body := encodeDeterministicCbor (CMap map) in
  Ok (prefix ++ body).

(** [label.replaceAll(" ", "_")] *)
Definition underscored (label : jsstring) : jsstring := replace_char 32 95 label.

Definition strictMap (b : bytes) (label : jsstring) (names : list jsstring) (maximumBytes : Z)
  : result CborMap :=
  if (zlen b =? 0) || (maximumBytes <? zlen b)
  then Throw (js "invalid " ++ label ++ js " size")
  else
    let? value := decodeDeterministicCbor b maximumBytes in
    let? map := readCborMap value (underscored label) in
    let? _ := rejectUnknownEntries map names in
    Ok map.

Definition readImageMessageVersion (map : CborMap) : result jsstring :=
  let? value := text_field map (js "version") in
  if negb (str_eqb value imageMessageVersion) then Throw (js "unsupported image message version")
  else Ok imageMessageVersion.

Definition readImageTransferVersion (map : CborMap) : result jsstring :=
  let? value := text_field map (js "version") in
  if negb (str_eqb value imageTransferVersion) then Throw (js "unsupported image transfer version")
  else Ok imageTransferVersion.

Definition readRasterMediaType (map : CborMap) (key : jsstring) : result jsstring :=
  let? value := text_field map key in
  if negb (isRasterImageMediaType value) then Throw (js "unsupported image media type") else Ok value.

Definition token (map : CborMap) (key : jsstring) (size : Z) : result jsstring :=
  token_field map key size.

Definition number_of (map : CborMap) (key : jsstring) : result number :=
  let? z := number_field map key in Ok (Int z).

Definition readCaption (map : CborMap) (key : jsstring) : result jsstring :=
  let? value := text_field map key in
  let? _ := validateCaption (Some value) in
  Ok value.

(** [...(hasEntry(map, key) ? { field: read(map, key) } : {})] *)
Definition optional_entry {A} (map : CborMap) (key : jsstring) (read : result A) : result (option A) :=
  if hasEntry map key then let? a := read in Ok (Some a) else Ok None.

(** ** The exported codecs *)

Definition within_size (b : bytes) (limit : Z) (message : jsstring) : result bytes :=
  if limit <? zlen b then Throw message else Ok b.

Definition encodeInlineImage (image : InlineImage) : result bytes :=
  let? _ := validateInlineImage image in
  let? map := inlineMap image in
  let? b := encodeDeterministicCbor (CMap map) in
  within_size b maxInlineImageBodyBytes (js "inline image body too large").

Definition inline_names : list jsstring :=
  [js "version"; js "media_type"; js "width"; js "height"; js "bytes"; js "caption";
   js "reply_to_message_id"].

Definition decodeInlineImage (b : bytes) : result InlineImage :=
  let? map := strictMap b (js "inline image") inline_names maxInlineImageBodyBytes in
  let? version := readImageMessageVersion map in
  let? mediaType := readRasterMediaType map (js "media_type") in
  let? width := number_of map (js "width") in
  let? height := number_of map (js "height") in
  let? content := bytes_field map (js "bytes") None in
  let? caption := optional_entry map (js "caption") (readCaption map (js "caption")) in
  let? reply := optional_entry map (js "reply_to_message_id") (token map (js "reply_to_message_id") 16) in
  let value := Inline.mk version mediaType width height content caption reply in
  let? _ := validateInlineImage value in
  Ok value.

Definition encodeImageTransferManifest (m : ImageTransferManifest) : result bytes :=
  let? _ := validateImageTransferManifest m in
  let? map := manifestMap m true in
  let? b := encodeDeterministicCbor (CMap map) in
  within_size b maxImageTransferManifestBodyBytes (js "image transfer manifest body too large").

Definition manifest_names : list jsstring :=
  [js "version"; js "transfer_id"; js "manifest_id"; js "message_id"; js "issued_at";
   js "expires_at"; js "media_type"; js "width"; js "height"; js "byte_count"; js "chunk_bytes";
   js "chunk_count"; js "sha256"; js "signature"; js "caption"; js "reply_to_message_id"].

Definition decodeImageTransferManifest (b : bytes) : result ImageTransferManifest :=
  let? map := strictMap b (js "image transfer manifest") manifest_names
                maxImageTransferManifestBodyBytes in
  let? version := readImageTransferVersion map in
  let? transferId := token map (js "transfer_id") 16 in
  let? manifestId := token map (js "manifest_id") 32 in
  let? messageId := token map (js "message_id") 16 in
  let? issuedAt := number_of map (js "issued_at") in
  let? expiresAt := number_of map (js "expires_at") in
  let? mediaType := readRasterMediaType map (js "media_type") in
  let? width := number_of map (js "width") in
  let? height := number_of map (js "height") in
  let? byteCount := number_of map (js "byte_count") in
  let? chunkBytes := number_of map (js "chunk_bytes") in
  let? chunkCount := number_of map (js "chunk_count") in
  let? sha256 := token map (js "sha256") 32 in
  let? signature := bytes_field map (js "signature") (Some 64) in
  let? caption := optional_entry map (js "caption") (readCaption map (js "caption")) in
  let? reply := optional_entry map (js "reply_to_message_id") (token map (js "reply_to_message_id") 16) in
  let value := IManifest.mk version transferId manifestId messageId issuedAt expiresAt mediaType
                 width height byteCount chunkBytes chunkCount sha256 signature caption reply in
  let? _ := validateImageTransferManifest value in
  Ok value.

Definition imageTransferManifestSigningBytes (m : ImageTransferManifest) : result bytes :=
  let? _ := validateImageTransferManifest m in
  let? map := manifestMap m false in
  signed map.

Definition encodeImageTransferChunk (c : ImageTransferChunk) : result bytes :=
  let? _ := validateImageTransferChunk c in
  let? map := chunkMap c in
  encodeDeterministicCbor (CMap map).

Definition chunk_names : list jsstring :=
  [js "version"; js "transfer_id"; js "manifest_id"; js "index"; js "bytes"].

Definition decodeImageTransferChunk (b : bytes) : result ImageTransferChunk :=
  let? map := strictMap b (js "image transfer chunk") chunk_names maxImageTransferChunkBodyBytes in
  let? version := readImageTransferVersion map in
  let? transferId := token map (js "transfer_id") 16 in
  let? manifestId := token map (js "manifest_id") 32 in
  let? index := number_of map (js "index") in
  let? content := bytes_field map (js "bytes") None in
  let value := IChunk.mk version transferId manifestId index content in
  let? _ := validateImageTransferChunk value in
  Ok value.

Definition encodeImageCapabilities (c : ImageCapabilities) : result bytes :=
  let? _ := validateImageCapabilities c in
  let? b := encodeDeterministicCbor (CMap (capabilitiesMap c)) in
  within_size b maxImageCapabilitiesBytes (js "image capabilities body too large").

Definition capability_names : list jsstring :=
  [js "version"; js "max_inline_bytes"; js "max_relay_bytes"; js "max_direct_bytes";
   js "max_width"; js "max_height"; js "max_pixels"].

Definition decodeImageCapabilities (b : bytes) : result ImageCapabilities :=
  let? map := strictMap b (js "image capabilities") capability_names maxImageCapabilitiesBytes in
  let? version := readImageMessageVersion map in
  let? maxInlineBytes := number_of map (js "max_inline_bytes") in
  let? maxRelayBytes := number_of map (js "max_relay_bytes") in
  let? maxDirectBytes := number_of map (js "max_direct_bytes") in
  let? maxWidth := number_of map (js "max_width") in
  let? maxHeight := number_of map (js "max_height") in
  let? maxPixels := number_of map (js "max_pixels") in
  let value := Caps.mk version maxInlineBytes maxRelayBytes maxDirectBytes maxWidth maxHeight
                 maxPixels in
  let? _ := validateImageCapabilities value in
  Ok value.
