(* ===== verification/ImageFacts.v ===== *)
(** * Images: codecs and admission

    The codec theorems of [Image] (decoding accepts exactly the canonical
    encodings) and what the capability predicates admit. *)
From S2P Require Import Prelude JsRuntime Collections Base64Url Cbor CborFacts Records Image.

(** ** Readers *)

Lemma image_strictMap_Ok b label names limit map :
  strictMap b label names limit = Ok map <->
  decodeDeterministicCbor b limit = Ok (CMap map) /\ rejectUnknownEntries map names = Ok tt
  /\ 0 < zlen b <= limit.
Proof.
  unfold strictMap. pose proof (zlen_nonneg b). split.
  - case_match eqn:Hl; [done |]. intros H1.
    step H1 as value Ed. step H1 as map' Em. step H1 as [] Eu. simplify_eq.
    destruct value; simplify_eq/=. bool_props. split; [done | split; [done | lia]].
  - intros (-> & Hu & Hl). test ((zlen b =? 0) || (limit <? zlen b)) false. simpl. by rewrite Hu.
Qed.

Lemma optional_entry_Ok {A} map key (rd : result A) o :
  optional_entry map key rd = Ok o <->
  match o with
  | Some a => map_has map key = true /\ rd = Ok a
  | None => map_has map key = false
  end.
Proof.
  unfold optional_entry, hasEntry. destruct (map_has map key), o as [a|]; try naive_solver.
  - split; [intros H; step H as x E; by simplify_eq | by intros [_ ->]].
  - split; [intros H; step H as x E; by simplify_eq | done].
Qed.

Lemma image_version_Ok map v :
  readImageTransferVersion map = Ok v <->
  map_get map (js "version") = Some (CText imageTransferVersion) /\ v = imageTransferVersion.
Proof.
  unfold readImageTransferVersion. split.
  - intros H. step H as t E. destruct (str_eqb t _) eqn:Es; [|done]. apply str_eqb_true in Es as ->.
    apply text_field_Ok in E as [? _]. simpl in H. by simplify_eq.
  - intros (Hg & ->). rewrite (proj2 (text_field_Ok map (js "version") imageTransferVersion)).
    + by rewrite str_eqb_refl.
    + split; [done |]. split; [done | vm_compute; discriminate].
Qed.

Lemma message_version_Ok map v :
  readImageMessageVersion map = Ok v <->
  map_get map (js "version") = Some (CText imageMessageVersion) /\ v = imageMessageVersion.
Proof.
  unfold readImageMessageVersion. split.
  - intros H. step H as t E. destruct (str_eqb t _) eqn:Es; [|done]. apply str_eqb_true in Es as ->.
    apply text_field_Ok in E as [? _]. simpl in H. by simplify_eq.
  - intros (Hg & ->). rewrite (proj2 (text_field_Ok map (js "version") imageMessageVersion)).
    + by rewrite str_eqb_refl.
    + split; [done |]. split; [done | vm_compute; discriminate].
Qed.

Lemma media_type_cases v :
  isRasterImageMediaType v = true ->
  v = js "image/jpeg" \/ v = js "image/png" \/ v = js "image/webp".
Proof.
  unfold isRasterImageMediaType. rewrite !orb_true_iff, !str_eqb_true. tauto.
Qed.

Lemma media_type_text v :
  isRasterImageMediaType v = true ->
  v <> [] /\ plain_text v = true /\ zlen (utf8_encode v) <= 10.
Proof. by intros [->|[->| ->]]%media_type_cases; vm_compute. Qed.

Lemma media_type_Ok map key v :
  readRasterMediaType map key = Ok v <->
  map_get map key = Some (CText v) /\ isRasterImageMediaType v = true.
Proof.
  unfold readRasterMediaType. split.
  - intros H. step H as t E. destruct (isRasterImageMediaType t) eqn:Em; [|done]. simpl in H. simplify_eq.
    by apply text_field_Ok in E as [? _].
  - intros (Hg & Hm). destruct (media_type_text v Hm) as (Hn & _ & Hl).
    rewrite (proj2 (text_field_Ok map key v)); [by rewrite Hm |].
    unfold maxCborTextBytes. split; [done | split; [done | lia]].
Qed.

Lemma number_of_Ok map key n :
  number_of map key = Ok n <->
  exists z, n = Int z /\ map_get map key = Some (CNum (Int z)) /\ is_safe z = true /\ 0 <= z.
Proof.
  unfold number_of. split.
  - intros H. step H as z E. simplify_eq. apply number_field_Ok in E. by exists z.
  - intros (z & -> & Hg). by rewrite (proj2 (number_field_Ok map key z) Hg).
Qed.

Definition caption_ok (s : jsstring) : Prop := text_bytes s <= maxImageCaptionBytes /\ is_blank s = false.

Lemma validateCaption_Ok o :
  validateCaption o = Ok tt <-> match o with Some s => caption_ok s | None => True end.
Proof.
  unfold validateCaption, caption_ok. destruct o as [s|]; [|done].
  case_match eqn:E; bool_props; (split; [intros; simplify_eq | intros]); [| done | done].
  destruct_and?. guard_cases E.
Qed.

Lemma readCaption_Ok map key s :
  readCaption map key = Ok s <-> map_get map key = Some (CText s) /\ caption_ok s.
Proof.
  unfold readCaption. split.
  - intros H. step H as t E. step H as [] Ev. simplify_eq. apply text_field_Ok in E as [? _].
    by apply validateCaption_Ok in Ev.
  - intros (Hg & Hc). pose proof Hc as [Hl Hb].
    rewrite (proj2 (text_field_Ok map key s)).
    + by rewrite (proj2 (validateCaption_Ok (Some s)) Hc).
    + split; [done |]. split; [by intros -> |]. apply Hl.
Qed.

(** ** Validators *)

Lemma validateImageShape_Ok mt w h :
  validateImageShape mt w h = Ok tt <->
  isRasterImageMediaType mt = true /\ isBoundedInteger w 1 maxImageWidth = true
  /\ isBoundedInteger h 1 maxImageHeight = true /\ number_value w * number_value h <= maxImagePixels.
Proof.
  unfold validateImageShape. case_match eqn:E; bool_props; (split; [intros; simplify_eq | intros]);
    [| done | done].
  destruct_and?. guard_cases E.
Qed.

Definition image_manifest_ok (m : ImageTransferManifest) : Prop :=
  (isRasterImageMediaType (IManifest.mediaType m) = true
   /\ isBoundedInteger (IManifest.width m) 1 maxImageWidth = true
   /\ isBoundedInteger (IManifest.height m) 1 maxImageHeight = true
   /\ number_value (IManifest.width m) * number_value (IManifest.height m) <= maxImagePixels)
  /\ match IManifest.caption m with Some s => caption_ok s | None => True end
  /\ IManifest.version m = imageTransferVersion
  /\ (validToken (IManifest.transferId m) 16 = true /\ validToken (IManifest.manifestId m) 32 = true
      /\ validToken (IManifest.messageId m) 16 = true /\ validToken (IManifest.sha256 m) 32 = true
      /\ optional_token_ok (IManifest.replyToMessageId m) = true
      /\ zlen (IManifest.signature m) = 64)
  /\ (isSafeTime (IManifest.issuedAt m) = true /\ isSafeTime (IManifest.expiresAt m) = true
      /\ number_value (IManifest.issuedAt m) < number_value (IManifest.expiresAt m)
         <= number_value (IManifest.issuedAt m) + maxImageTransferTTLms)
  /\ (isBoundedInteger (IManifest.byteCount m) 1 maxImageDirectBytes = true
      /\ isBoundedInteger (IManifest.chunkBytes m) 256 maxImageTransferChunkBytes = true
      /\ isBoundedInteger (IManifest.chunkCount m) 1 maxImageTransferChunks = true
      /\ number_value (IManifest.chunkCount m)
         = ceil_div (number_value (IManifest.byteCount m)) (number_value (IManifest.chunkBytes m))).

Lemma validateImageTransferManifest_Ok m :
  validateImageTransferManifest m = Ok tt <-> image_manifest_ok m.
Proof.
  unfold validateImageTransferManifest, image_manifest_ok, tokenIs.
  rewrite <- validateImageShape_Ok, <- validateCaption_Ok.
  destruct (validateImageShape _ _ _) as [[]|]; [| split; [done | naive_solver]].
  destruct (validateCaption _) as [[]|]; [| split; [done | naive_solver]].
  rewrite <- (str_eqb_true (IManifest.version m)).
  case_match eqn:E; bool_props; (split; [intros; simplify_eq | intros]).
  - destruct_and?. guard_cases E.
  - repeat split; done || lia.
  - done.
Qed.

Lemma isBoundedInteger_Int n lo hi :
  isBoundedInteger n lo hi = true -> exists z, n = Int z /\ is_safe z = true /\ lo <= z <= hi.
Proof. destruct n as [z|]; simpl; [| done]. intros. bool_props. exists z. done. Qed.

Lemma isSafeTime_Int n : isSafeTime n = true -> exists z, n = Int z /\ is_safe z = true /\ 0 <= z.
Proof. destruct n as [z|]; simpl; [| done]. intros. bool_props. exists z. done. Qed.

Definition optional_canonical (o : option jsstring) : bool :=
  match o with Some t => canonical_token t | None => true end.

Definition canonical_image_manifest (m : ImageTransferManifest) : bool :=
  canonical_token (IManifest.transferId m) && canonical_token (IManifest.manifestId m)
  && canonical_token (IManifest.messageId m) && canonical_token (IManifest.sha256 m)
  && optional_canonical (IManifest.replyToMessageId m)
  && match IManifest.caption m with Some s => plain_text s | None => true end
  && bool_decide (bytes_ok (IManifest.signature m)).

Lemma map_has_get {V} (m : list (jsstring * V)) k :
  map_has m k = false -> map_get m k = None.
Proof. unfold map_has. by destruct (map_get m k). Qed.

(** Reading an optional token gives what writing it takes. *)
Lemma optional_token_sound es key o :
  encodable (CMap es) = true ->
  optional_entry es key (token es key 16) = Ok o ->
  exists reply, optional_token key o = Ok reply /\ optional_canonical o = true
    /\ map_get es key = map_get reply key /\ (reply = [] \/ exists b, reply = [(key, CBytes b)]).
Proof.
  intros He H. apply optional_entry_Ok in H. destruct o as [t|]; simpl.
  - destruct H as [_ H]. destruct (token_field_sound _ _ _ _ He H) as (b & Hg & Hd & Hc & _). rewrite Hd.
    eexists. split; [reflexivity |]. split; [done |]. simpl. rewrite decide_True by done.
    split; [done |]. right. by eexists.
  - exists []. split; [done |]. split; [done |]. apply map_has_get in H. rewrite H. naive_solver.
Qed.

Lemma optional_text_sound es key o :
  encodable (CMap es) = true ->
  optional_entry es key (readCaption es key) = Ok o ->
  match o with Some s => plain_text s = true | None => True end
  /\ map_get es key = map_get (optional_text key o) key.
Proof.
  intros He H. apply optional_entry_Ok in H. destruct o as [t|]; simpl.
  - destruct H as [_ [Hg _]%readCaption_Ok].
    destruct (proj1 (encodable_text_iff t) (encodable_get _ _ _ He Hg)) as [Hp _].
    rewrite decide_True by done. done.
  - apply map_has_get in H. by rewrite H.
Qed.

Lemma decodeImageTransferManifest_sound b m :
  bytes_ok b -> decodeImageTransferManifest b = Ok m ->
  encodeImageTransferManifest m = Ok b /\ canonical_image_manifest m = true.
Proof.
  intros Hb H. unfold decodeImageTransferManifest in H.
  step H as es E. step H as version E0. step H as transferId E1. step H as manifestId E2.
  step H as messageId E3. step H as issuedAt E4. step H as expiresAt E5. step H as mediaType E6.
  step H as width E7. step H as height E8. step H as byteCount E9. step H as chunkBytes E10.
  step H as chunkCount E11. step H as sha E12. step H as signature E13. step H as caption E14.
  step H as reply E15. step H as [] E16. injection H as <-.
  apply image_strictMap_Ok in E as (Hd & Hu & Hl). pose proof (decode_Ok _ _ _ Hb Hd) as (_ & He & _).
  apply image_version_Ok in E0 as [Ev ->].
  destruct (token_field_sound _ _ _ _ He E1) as (t & Et & Dt & Ct & _).
  destruct (token_field_sound _ _ _ _ He E2) as (i & Ei & Di & Ci & _).
  destruct (token_field_sound _ _ _ _ He E3) as (g & Eg & Dg & Cg & _).
  destruct (token_field_sound _ _ _ _ He E12) as (h & Eh & Dh & Ch & _).
  destruct (bytes_field_sound _ _ _ _ He E13) as [Esg Hsb].
  apply number_of_Ok in E4 as (z4 & -> & Ez4 & _), E5 as (z5 & -> & Ez5 & _),
    E7 as (z7 & -> & Ez7 & _), E8 as (z8 & -> & Ez8 & _), E9 as (z9 & -> & Ez9 & _),
    E10 as (z10 & -> & Ez10 & _), E11 as (z11 & -> & Ez11 & _).
  apply media_type_Ok in E6 as [Emt _].
  destruct (optional_text_sound es _ _ He E14) as [Hcp Ecp].
  destruct (optional_token_sound es _ _ He E15) as (rep & Erep & Crep & Grep & Hrep).
  split.
  - unfold encodeImageTransferManifest. rewrite E16. unfold manifestMap, baseManifest.
    cbn [IManifest.transferId IManifest.manifestId IManifest.messageId IManifest.sha256 IManifest.replyToMessageId].
    rewrite Dt, Di, Dg, Dh, Erep. simpl app at 1. cbv zeta.
    match goal with |- context [encodeDeterministicCbor (CMap ?x)] => set (entries := x) end.
    assert (Henc : encodeDeterministicCbor (CMap entries) = Ok b).
    { unfold entries. cbn [IManifest.caption IManifest.version IManifest.issuedAt IManifest.expiresAt
        IManifest.mediaType IManifest.width IManifest.height IManifest.byteCount IManifest.chunkBytes
        IManifest.chunkCount IManifest.signature].
      apply (record_read b maxImageTransferManifestBodyBytes es manifest_names); [done | done | done | | |].
      - apply (bool_decide_eq_true_1 (NoDup _)). destruct Hrep as [->|[rb ->]], caption; closed.
      - apply (bool_decide_eq_true_1 (Forall _ _)). destruct Hrep as [->|[rb ->]], caption; closed.
      - apply Forall_forall. unfold manifest_names.
        destruct Hrep as [->|[rb ->]], caption;
        each_name; by rewrite ?Ev, ?Et, ?Ei, ?Eg, ?Eh, ?Ez4, ?Ez5, ?Ez7, ?Ez8, ?Ez9, ?Ez10, ?Ez11, ?Emt, ?Esg, ?Ecp, ?Grep. }
    rewrite Henc. unfold within_size. by test (maxImageTransferManifestBodyBytes <? zlen b) false.
  - unfold canonical_image_manifest. simpl. rewrite Ct, Ci, Cg, Ch, Crep, bool_decide_true by done.
    destruct caption; [by rewrite Hcp | done].
Qed.

Lemma optional_token_complete key o reply :
  optional_canonical o = true -> optional_token_ok o = true -> optional_token key o = Ok reply ->
  match o with
  | Some t => exists b, reply = [(key, CBytes b)] /\ encodeBase64URL b = t /\ bytes_ok b /\ zlen b = 16
  | None => reply = []
  end.
Proof.
  destruct o as [t|]; simpl; [| intros; by simplify_eq]. intros Hc Ht H. step H as b E. simplify_eq.
  destruct (canonical_validToken t 16 Hc Ht) as (b' & Db & Eb & Hb & Hl). rewrite Db in E. simplify_eq.
  by exists b.
Qed.

(** Reading an optional field back. *)
Lemma read_optional_token es key o reply :
  match o with
  | Some t => exists b, reply = [(key, CBytes b)] /\ encodeBase64URL b = t /\ bytes_ok b /\ zlen b = 16
  | None => reply = []
  end ->
  map_get es key = map_get reply key -> optional_entry es key (token es key 16) = Ok o.
Proof.
  intros Ho Hg. apply optional_entry_Ok. destruct o as [t|].
  - destruct Ho as (b & -> & <- & Hb & Hl). simpl in Hg. rewrite decide_True in Hg by done.
    split; [unfold map_has; by rewrite Hg |]. apply token_field_Ok. exists b.
    unfold maxCborBytes. repeat split; (done || lia).
  - subst reply. simpl in Hg. unfold map_has. by rewrite Hg.
Qed.

Lemma read_optional_text es key o :
  match o with Some s => caption_ok s | None => True end ->
  map_get es key = map_get (optional_text key o) key ->
  optional_entry es key (readCaption es key) = Ok o.
Proof.
  intros Ho Hg. apply optional_entry_Ok. destruct o as [s|]; simpl in Hg.
  - rewrite decide_True in Hg by done. split; [unfold map_has; by rewrite Hg |].
    by apply readCaption_Ok.
  - unfold map_has. by rewrite Hg.
Qed.

Definition flat_ok (e : jsstring * CborValue) : Prop := encodable e.2 = true /\ canon e.2 = e.2.

Lemma flat_num k z : is_safe z = true -> 0 <= z -> flat_ok (k, CNum (Int z)).
Proof. intros. split; [by apply encodable_num | done]. Qed.

Lemma flat_bytes k b : bytes_ok b -> zlen b <= maxCborBytes -> flat_ok (k, CBytes b).
Proof. intros. split; [by apply encodable_bytes | done]. Qed.

Lemma flat_text k s : plain_text s = true -> zlen (utf8_encode s) <= maxCborTextBytes -> flat_ok (k, CText s).
Proof. intros. split; [by apply encodable_text_iff | done]. Qed.

Lemma flat_optional_text k o :
  match o with Some s => caption_ok s | None => True end ->
  match o with Some s => plain_text s | None => true end = true ->
  Forall flat_ok (optional_text k o).
Proof.
  destruct o as [s|]; simpl; [| constructor]. intros [Hl _] Hp. apply Forall_singleton, flat_text; [done |].
  apply Hl.
Qed.

Lemma flat_optional_token k o reply :
  match o with
  | Some t => exists b, reply = [(k, CBytes b)] /\ encodeBase64URL b = t /\ bytes_ok b /\ zlen b = 16
  | None => reply = []
  end -> Forall flat_ok reply.
Proof.
  destruct o as [t|]; [| intros ->; constructor]. intros (b & -> & _ & Hb & Hl).
  apply Forall_singleton, flat_bytes; [done |]. unfold maxCborBytes. lia.
Qed.

Lemma flat_record es :
  zlen es <= maxCborCollectionEntries -> bool_decide (NoDup es.*1) = true ->
  forallb (fun k => encodable_text k) es.*1 = true -> Forall flat_ok es ->
  encodable (CMap es) = true /\ Forall (fun e => canon e.2 = e.2) es.
Proof.
  intros Hl Hn Hk Hf. split; [apply encodable_entries; try done |];
    (eapply Forall_impl; [exact Hf |]; by intros e [? ?]).
Qed.

Ltac read_int es Hg n z :=
  erewrite (proj2 (number_of_Ok es _ n))
    by (exists z; rewrite Hg; split; [done | split; [reflexivity | split; (done || lia)]]).

Lemma decodeImageTransferManifest_complete b m :
  encodeImageTransferManifest m = Ok b -> canonical_image_manifest m = true ->
  bytes_ok b /\ decodeImageTransferManifest b = Ok m.
Proof.
  intros H Hc. unfold canonical_image_manifest in Hc. rewrite !andb_true_iff in Hc.
  destruct Hc as ((((((Hct & Hci) & Hcg) & Hch) & Hcr) & Hcc) & Hcs%bool_decide_eq_true).
  unfold encodeImageTransferManifest in H. step H as [] Ev.
  pose proof Ev as ((Hmt & Hw & Hh' & Hpx) & Hcap & Hver & (Ht & Hi & Hg & Hh & Hr & Hsg)
    & (Hia & Hea & Htime) & (Hbc & Hcb & Hcn & Hceil))%validateImageTransferManifest_Ok.
  destruct (isBoundedInteger_Int _ _ _ Hw) as (w & Ew & Hws & Hwr).
  destruct (isBoundedInteger_Int _ _ _ Hh') as (ht & Eht & Hhs & Hhr).
  destruct (isBoundedInteger_Int _ _ _ Hbc) as (bc & Ebc & Hbs & Hbr).
  destruct (isBoundedInteger_Int _ _ _ Hcb) as (cb & Ecb & Hcbs & Hcbr).
  destruct (isBoundedInteger_Int _ _ _ Hcn) as (cn & Ecn & Hcns & Hcnr).
  destruct (isSafeTime_Int _ Hia) as (ia & Eia & Hias & Hiar).
  destruct (isSafeTime_Int _ Hea) as (ea & Eea & Heas & Hear).
  destruct (canonical_validToken _ 16 Hct Ht) as (t & Dt & Et & Htb & Htl).
  destruct (canonical_validToken _ 32 Hci Hi) as (i & Di & Ei & Hib & Hil).
  destruct (canonical_validToken _ 16 Hcg Hg) as (g & Dg & Eg & Hgb & Hgl).
  destruct (canonical_validToken _ 32 Hch Hh) as (h & Dh & Eh & Hhb & Hhl).
  step H as map Emap. unfold manifestMap, baseManifest in Emap. step Emap as base Ebase.
  rewrite Dt, Di, Dg, Dh in Ebase. step Ebase as reply Erep. injection Ebase as Ebase.
  pose proof (optional_token_complete _ _ _ Hcr Hr Erep) as Hrep.
  injection Emap as Emap. step H as b' Eb. unfold within_size in H. destruct (_ <? zlen b') eqn:Esz; [done |].
  injection H as ->. bool_props.
  destruct (media_type_text _ Hmt) as (Hmn & Hmp & Hml).
  rewrite Hver, Eia, Eea, Ew, Eht, Ebc, Ecb, Ecn in Ebase.
  assert (Hflat : Forall flat_ok map).
  { subst map base. apply Forall_app. split;
      [| apply Forall_singleton, flat_bytes; [done | unfold maxCborBytes; lia]].
    assert (Hopt : Forall flat_ok (optional_text (js "caption") (IManifest.caption m) ++ reply)).
    { apply Forall_app. split; [by apply flat_optional_text | by eapply flat_optional_token]. }
    clear - Hopt Hmp Hml Htb Htl Hib Hil Hgb Hgl Hhb Hhl Hws Hwr Hhs Hhr Hbs Hbr Hcbs Hcbr Hcns Hcnr
      Hias Hiar Heas Hear.
    each_name; first [exact Hopt | apply flat_num; [done | lia]
      | apply flat_bytes; [done | unfold maxCborBytes; lia]
      | apply flat_text; [done | unfold maxCborTextBytes; lia] | split; closed]. }
  assert (Hes : (encodable (CMap map) = true /\ Forall (fun e => canon e.2 = e.2) map)
                /\ Forall (fun k => k ∈ manifest_names) (map_keys map)).
  { split; [apply flat_record; [| | | done] | apply (bool_decide_eq_true_1 (Forall _ _))]; subst map base;
      clear - Hrep; destruct (IManifest.caption m), (IManifest.replyToMessageId m);
      try destruct Hrep as (rb & -> & _); try subst reply; (closed || (vm_compute; discriminate)). }
  destruct Hes as ((He & Hcan) & Hnames).
  destruct (record_written b maxImageTransferManifestBodyBytes manifest_names map)
    as (Hb & Hne & es & Hd & Hu & Hget); [done | done | lia | done | done |].
  split; [done |]. pose proof (zlen_nonneg b). unfold decodeImageTransferManifest.
  rewrite (proj2 (image_strictMap_Ok b (js "image transfer manifest") manifest_names _ es))
    by (split; [done | split; [done | lia]]).
  subst map base.
  rewrite (proj2 (image_version_Ok es imageTransferVersion)) by (rewrite Hget; done).
  unfold token.
  read_token es Hget (IManifest.transferId m) t. read_token es Hget (IManifest.manifestId m) i.
  read_token es Hget (IManifest.messageId m) g. read_token es Hget (IManifest.sha256 m) h.
  read_int es Hget (IManifest.issuedAt m) ia.
  read_int es Hget (IManifest.expiresAt m) ea.
  rewrite (proj2 (media_type_Ok es (js "media_type") (IManifest.mediaType m))) by (rewrite Hget; done).
  read_int es Hget (IManifest.width m) w.
  read_int es Hget (IManifest.height m) ht.
  read_int es Hget (IManifest.byteCount m) bc.
  read_int es Hget (IManifest.chunkBytes m) cb.
  read_int es Hget (IManifest.chunkCount m) cn.
  assert (Hsig : map_get es (js "signature") = Some (CBytes (IManifest.signature m))).
  { rewrite Hget. clear - Hrep. destruct (IManifest.caption m), (IManifest.replyToMessageId m);
      try destruct Hrep as (rb & -> & _); try subst reply; reflexivity. }
  rewrite (proj2 (bytes_field_Ok es (js "signature") (Some 64) (IManifest.signature m)))
    by (unfold maxCborBytes; rewrite Hsig; repeat split; lia).
  erewrite (read_optional_text es (js "caption") (IManifest.caption m)); [| done |].
  2: { rewrite Hget. clear - Hrep. destruct (IManifest.caption m), (IManifest.replyToMessageId m);
      try destruct Hrep as (rb & -> & _); try subst reply; reflexivity. }
  change (token_field es (js "reply_to_message_id") 16) with (token es (js "reply_to_message_id") 16).
  erewrite (read_optional_token es (js "reply_to_message_id") (IManifest.replyToMessageId m) reply Hrep).
  2: { rewrite Hget. clear - Hrep. destruct (IManifest.caption m), (IManifest.replyToMessageId m);
      try destruct Hrep as (rb & -> & _); try subst reply; reflexivity. }
  rewrite <- Hver. by destruct m; simpl in *; rewrite Ev.
Qed.

(** ** Chunks, inline images and capabilities *)

Lemma validateImageTransferChunk_Ok c :
  validateImageTransferChunk c = Ok tt <->
  IChunk.version c = imageTransferVersion /\ validToken (IChunk.transferId c) 16 = true
  /\ validToken (IChunk.manifestId c) 32 = true /\ isSafeTime (IChunk.index c) = true
  /\ 0 < zlen (IChunk.content c) <= maxImageTransferChunkBytes.
Proof.
  unfold validateImageTransferChunk, tokenIs. pose proof (zlen_nonneg (IChunk.content c)).
  rewrite <- (str_eqb_true (IChunk.version c)).
  case_match eqn:E; bool_props; (split; [intros; simplify_eq | intros]).
  - destruct_and?. guard_cases E.
  - repeat split; done || lia.
  - done.
Qed.

Definition canonical_image_chunk (c : ImageTransferChunk) : bool :=
  canonical_token (IChunk.transferId c) && canonical_token (IChunk.manifestId c)
  && bool_decide (bytes_ok (IChunk.content c)).

Lemma decodeImageTransferChunk_sound b c :
  bytes_ok b -> decodeImageTransferChunk b = Ok c ->
  encodeImageTransferChunk c = Ok b /\ canonical_image_chunk c = true.
Proof.
  intros Hb H. unfold decodeImageTransferChunk in H.
  step H as es E. step H as version E0. step H as transferId E1. step H as manifestId E2.
  step H as index E3. step H as content E4. step H as [] E5. injection H as <-.
  apply image_strictMap_Ok in E as (Hd & Hu & Hl). pose proof (decode_Ok _ _ _ Hb Hd) as (_ & He & _).
  apply image_version_Ok in E0 as [Ev ->].
  destruct (token_field_sound _ _ _ _ He E1) as (t & Et & Dt & Ct & _).
  destruct (token_field_sound _ _ _ _ He E2) as (m & Em & Dm & Cm & _).
  destruct (bytes_field_sound _ _ _ _ He E4) as [Ec Hcb].
  apply number_of_Ok in E3 as (z & -> & Ei & _).
  split.
  - unfold encodeImageTransferChunk. rewrite E5. unfold chunkMap. simpl. rewrite Dt, Dm.
    eapply (record_read b maxImageTransferChunkBodyBytes es chunk_names); [done | done | done | | |].
    + apply (bool_decide_eq_true_1 (NoDup _)). closed.
    + apply (bool_decide_eq_true_1 (Forall _ _)). closed.
    + apply Forall_forall. unfold chunk_names. each_name; by rewrite ?Ev, ?Et, ?Em, ?Ei, ?Ec.
  - unfold canonical_image_chunk. simpl. by rewrite Ct, Cm, bool_decide_true.
Qed.

Lemma decodeImageTransferChunk_complete b c :
  encodeImageTransferChunk c = Ok b -> canonical_image_chunk c = true ->
  bytes_ok b /\ decodeImageTransferChunk b = Ok c.
Proof.
  intros H Hc. unfold canonical_image_chunk in Hc. rewrite !andb_true_iff in Hc.
  destruct Hc as ((Hct & Hcm) & Hcs%bool_decide_eq_true).
  unfold encodeImageTransferChunk in H. step H as [] Ev.
  pose proof Ev as (Hver & Ht & Hm & Hi & Hl)%validateImageTransferChunk_Ok.
  unfold maxImageTransferChunkBytes in Hl. destruct (isSafeTime_Int _ Hi) as (z & Ez & Hzs & Hz0).
  destruct (canonical_validToken _ 16 Hct Ht) as (t & Dt & Et & Htb & Htl).
  destruct (canonical_validToken _ 32 Hcm Hm) as (m & Dm & Em & Hmb & Hml).
  unfold chunkMap in H. rewrite Dt, Dm, Hver, Ez in H.
  match type of H with encodeDeterministicCbor (CMap ?es) = _ => set (entries := es) in * end.
  destruct (flat_record entries) as [He Hcan]; [vm_compute; discriminate | closed | closed | |].
  { each_name; first [apply flat_num; [done | lia] | apply flat_bytes; [done | unfold maxCborBytes; lia]
      | split; closed]. }
  pose proof (record_size _ _ He H) as Hs.
  assert (sum_lengths entry_size entries <= 4000).
  { unfold entries. entry_sizes. change (zlen (utf8_encode imageTransferVersion)) with 29. lia. }
  destruct (record_written b maxImageTransferChunkBodyBytes chunk_names entries)
    as (Hb & Hne & es & Hd & Hu & Hg);
    [done | done | unfold maxImageTransferChunkBodyBytes; lia | done
     | apply (bool_decide_eq_true_1 (Forall _ _)); closed |].
  split; [done |]. pose proof (zlen_nonneg b). unfold decodeImageTransferChunk.
  rewrite (proj2 (image_strictMap_Ok b _ chunk_names _ es))
    by (unfold maxImageTransferChunkBodyBytes; split; [done | split; [done | lia]]).
  rewrite (proj2 (image_version_Ok es imageTransferVersion)) by (rewrite Hg; done).
  unfold token. read_token es Hg (IChunk.transferId c) t. read_token es Hg (IChunk.manifestId c) m.
  read_int es Hg (IChunk.index c) z. read_bytes es Hg.
  rewrite <- Hver. by destruct c; simpl in *; rewrite Ev.
Qed.

Lemma validateImageCapabilities_Ok c :
  validateImageCapabilities c = Ok tt <->
  Caps.version c = imageMessageVersion
  /\ isBoundedInteger (Caps.maxInlineBytes c) 0 maxInlineImageBytes = true
  /\ isBoundedInteger (Caps.maxRelayBytes c) 0 maxImageRelayBytes = true
  /\ isBoundedInteger (Caps.maxDirectBytes c) 0 maxImageDirectBytes = true
  /\ isBoundedInteger (Caps.maxWidth c) 1 maxImageWidth = true
  /\ isBoundedInteger (Caps.maxHeight c) 1 maxImageHeight = true
  /\ isBoundedInteger (Caps.maxPixels c) 1 maxImagePixels = true
  /\ number_value (Caps.maxPixels c) <= number_value (Caps.maxWidth c) * number_value (Caps.maxHeight c).
Proof.
  unfold validateImageCapabilities. rewrite <- (str_eqb_true (Caps.version c)).
  case_match eqn:E; bool_props; (split; [intros; simplify_eq | intros]).
  - destruct_and?. guard_cases E.
  - repeat split; done || lia.
  - done.
Qed.

Lemma decodeImageCapabilities_sound b c :
  bytes_ok b -> decodeImageCapabilities b = Ok c -> encodeImageCapabilities c = Ok b.
Proof.
  intros Hb H. unfold decodeImageCapabilities in H.
  step H as es E. step H as version E0. step H as n1 E1. step H as n2 E2. step H as n3 E3.
  step H as n4 E4. step H as n5 E5. step H as n6 E6. step H as [] Ev. injection H as <-.
  apply image_strictMap_Ok in E as (Hd & Hu & Hl). pose proof (decode_Ok _ _ _ Hb Hd) as (_ & He & _).
  apply message_version_Ok in E0 as [E0 ->].
  apply number_of_Ok in E1 as (z1 & -> & E1 & _), E2 as (z2 & -> & E2 & _), E3 as (z3 & -> & E3 & _),
    E4 as (z4 & -> & E4 & _), E5 as (z5 & -> & E5 & _), E6 as (z6 & -> & E6 & _).
  unfold encodeImageCapabilities. rewrite Ev. unfold capabilitiesMap. simpl.
  match goal with |- context [encodeMap _ ?x] => set (entries := x) end.
  assert (Henc : encodeDeterministicCbor (CMap entries) = Ok b).
  { eapply (record_read b maxImageCapabilitiesBytes es capability_names); [done | done | done | | |].
    - apply (bool_decide_eq_true_1 (NoDup _)). closed.
    - apply (bool_decide_eq_true_1 (Forall _ _)). closed.
    - apply Forall_forall. unfold capability_names.
      each_name; by rewrite ?E0, ?E1, ?E2, ?E3, ?E4, ?E5, ?E6. }
  simpl in Henc. rewrite Henc. unfold within_size. by test (maxImageCapabilitiesBytes <? zlen b) false.
Qed.

Lemma decodeImageCapabilities_complete b c :
  encodeImageCapabilities c = Ok b -> bytes_ok b /\ decodeImageCapabilities b = Ok c.
Proof.
  intros H. unfold encodeImageCapabilities in H. step H as [] Ev.
  pose proof Ev as (Hver & H1 & H2 & H3 & H4 & H5 & H6 & Hpx)%validateImageCapabilities_Ok.
  destruct (isBoundedInteger_Int _ _ _ H1) as (z1 & E1 & S1 & R1).
  destruct (isBoundedInteger_Int _ _ _ H2) as (z2 & E2 & S2 & R2).
  destruct (isBoundedInteger_Int _ _ _ H3) as (z3 & E3 & S3 & R3).
  destruct (isBoundedInteger_Int _ _ _ H4) as (z4 & E4 & S4 & R4).
  destruct (isBoundedInteger_Int _ _ _ H5) as (z5 & E5 & S5 & R5).
  destruct (isBoundedInteger_Int _ _ _ H6) as (z6 & E6 & S6 & R6).
  step H as b' Henc. unfold within_size in H. destruct (_ <? zlen b') eqn:Esz; [done |].
  injection H as ->. bool_props. unfold capabilitiesMap in Henc.
  rewrite Hver, E1, E2, E3, E4, E5, E6 in Henc.
  match type of Henc with encodeDeterministicCbor (CMap ?es) = _ => set (entries := es) in * end.
  destruct (flat_record entries) as [He Hcan]; [vm_compute; discriminate | closed | closed | |].
  { each_name; first [apply flat_num; [done | lia] | split; closed]. }
  destruct (record_written b maxImageCapabilitiesBytes capability_names entries)
    as (Hb & Hne & es & Hd & Hu & Hg);
    [done | done | done | done | apply (bool_decide_eq_true_1 (Forall _ _)); closed |].
  split; [done |]. pose proof (zlen_nonneg b). unfold decodeImageCapabilities.
  rewrite (proj2 (image_strictMap_Ok b _ capability_names _ es)) by (split; [done | split; [done | lia]]).
  rewrite (proj2 (message_version_Ok es imageMessageVersion)) by (rewrite Hg; done).
  read_int es Hg (Caps.maxInlineBytes c) z1. read_int es Hg (Caps.maxRelayBytes c) z2.
  read_int es Hg (Caps.maxDirectBytes c) z3. read_int es Hg (Caps.maxWidth c) z4.
  read_int es Hg (Caps.maxHeight c) z5. read_int es Hg (Caps.maxPixels c) z6.
  rewrite <- Hver. by destruct c; simpl in *; rewrite Ev.
Qed.

(** the three image transfer codecs accept exactly the canonical encodings
    of valid records: transfer manifests with their optional caption and reply
    target, chunks, and capabilities; every encoding is within the size limit
    of its decoder. *)
Theorem image_codecs b m c k :
  (bytes_ok b /\ decodeImageTransferManifest b = Ok m <->
   encodeImageTransferManifest m = Ok b /\ canonical_image_manifest m = true)
  /\ (bytes_ok b /\ decodeImageTransferChunk b = Ok c <->
      encodeImageTransferChunk c = Ok b /\ canonical_image_chunk c = true)
  /\ (bytes_ok b /\ decodeImageCapabilities b = Ok k <-> encodeImageCapabilities k = Ok b).
Proof.
  split; [| split].
  - split; intros [H1 H2]; [by apply decodeImageTransferManifest_sound
                           | by apply decodeImageTransferManifest_complete].
  - split; intros [H1 H2]; [by apply decodeImageTransferChunk_sound
                           | by apply decodeImageTransferChunk_complete].
  - split; [intros [H1 H2]; by apply decodeImageCapabilities_sound
           | apply decodeImageCapabilities_complete].
Qed.

(** the admission predicates keep every resource within the receiver's
    limits and within the limits of the protocol: an image that capabilities
    allow has at most their bytes and pixels, at most sixteen million pixels,
    and on the relay route at most four megabytes. *)
Theorem image_admission c m image route :
  (capabilityAllowsImageTransfer c m route = true ->
   let bytes := number_value (IManifest.byteCount m) in
   let pixels := number_value (IManifest.width m) * number_value (IManifest.height m) in
   1 <= bytes <= number_value (match route with relay => Caps.maxRelayBytes c
                                              | direct => Caps.maxDirectBytes c end)
   /\ bytes <= (match route with relay => maxImageRelayBytes | direct => maxImageDirectBytes end)
   /\ 1 <= pixels <= number_value (Caps.maxPixels c) /\ pixels <= maxImagePixels)
  /\ (capabilityAllowsInlineImage c image = true ->
      1 <= zlen (Inline.content image) <= number_value (Caps.maxInlineBytes c)
      /\ zlen (Inline.content image) <= maxInlineImageBytes
      /\ hasRasterImageMagic (Inline.mediaType image) (Inline.content image) = true).
Proof.
  split.
  - unfold capabilityAllowsImageTransfer. intros H.
    destruct (validateImageCapabilities c) as [[]|] eqn:Ec; [| done].
    destruct (validateImageTransferManifest m) as [[]|] eqn:Em; [| done].
    apply validateImageCapabilities_Ok in Ec as (_ & _ & H2 & H3 & _ & _ & H6 & _).
    apply validateImageTransferManifest_Ok in Em as ((_ & Hw & Hh & Hp) & _ & _ & _ & _ & (Hb & _)).
    destruct (isBoundedInteger_Int _ _ _ H2) as (z2 & E2 & S2 & R2).
    destruct (isBoundedInteger_Int _ _ _ H3) as (z3 & E3 & S3 & R3).
    destruct (isBoundedInteger_Int _ _ _ H6) as (z6 & E6 & S6 & R6).
    destruct (isBoundedInteger_Int _ _ _ Hw) as (w & Ew & Sw & Rw).
    destruct (isBoundedInteger_Int _ _ _ Hh) as (h & Eh & Sh & Rh).
    destruct (isBoundedInteger_Int _ _ _ Hb) as (n & En & Sn & Rn).
    unfold shapeFits in H. bool_props. rewrite ?E2, ?E3, ?E6, ?Ew, ?Eh, ?En in *. simpl in *.
    split; [| split; [| split; [nia | lia]]]; destruct route; rewrite ?E2, ?E3 in *; simpl in *; lia.
  - unfold capabilityAllowsInlineImage. intros H.
    destruct (validateImageCapabilities c) as [[]|]; [| done].
    destruct (validateInlineImage image) as [[]|] eqn:Ei; [| done]. unfold validateInlineImage in Ei.
    step Ei as [] Es. pose proof (zlen_nonneg (Inline.content image)).
    destruct (negb (str_eqb _ _) || _ || _ || _) eqn:Eg; [done |]. bool_props.
    split; [lia | split; [lia | done]].
Qed.
