(* ===== verification/ImageTransfer.v ===== *)
(** * [application-payload/image-transfer-state.ts]: reassembly of inbound images

    [ImageTransferReassembly] is the record [Reassembly].  The registry keeps its
    objects in [objects], a store they never leave: a [receiveChunk] that awaits
    a digest still holds its object after a sweep, another chunk or [clear] has
    dropped it from [active].  The digest port is the outcome of an
    [op_digest] event, and the calls that await it can resume in any order. *)
From S2P Require Import Prelude JsRuntime Collections Base64Url Cbor CborFacts Records Transfer TransferFacts Image ImageFacts.

Inductive ImageTransferReassemblyFailure : Type :=
| x_expired | x_invalid_manifest | x_no_transfer | x_invalid_chunk | x_reorder_limit
| x_conflicting_duplicate | x_integrity_failed | x_digest_failed.

Inductive ImageTransferReassemblyResult : Type :=
| i_opened | i_duplicate_manifest | i_chunk_stored | i_duplicate_chunk
| i_completed (content : bytes) (manifest : ImageTransferManifest)
| i_busy | i_replayed
| i_ignored (reason : ImageTransferReassemblyFailure)
| i_aborted (reason : ImageTransferReassemblyFailure)
| i_expired.

Inductive ImageTransferPhase : Type := ph_active | ph_aborted | ph_expired | ph_completed.

#[export] Instance image_phase_eq_dec : EqDecision ImageTransferPhase.
Proof. solve_decision. Defined.

Record ImageTransferReassemblyOptions := mkImageOptions {
  optTransferBytes : option number;
  optReorderChunks : option number;
  optActiveTransfers : option number;
  optRememberedTransfers : option number;
}.

Module Reassembly.
Record ImageTransferReassembly := mk {
  peerId : jsstring;
  manifest : ImageTransferManifest;
  maximumReorderChunks : Z;
  chunks : list (Z * bytes);
  receivedBytes : Z;
  nextMissingIndex : Z;
  phase : ImageTransferPhase;
}.
End Reassembly.
Abbreviation Reassembly := Reassembly.ImageTransferReassembly.

(** ** One reassembly *)

Definition validateOptions (o : ImageTransferReassemblyOptions) : result unit :=
  if negb (number_in 1 maxImageDirectBytes (default_number maxImageDirectBytes (optTransferBytes o)))
     || negb (number_in 0 (maxImageTransferChunks - 1) (default_number 64 (optReorderChunks o)))
     || negb (number_in 1 16 (default_number 16 (optActiveTransfers o)))
     || negb (number_in 1 64 (default_number 16 (optRememberedTransfers o)))
  then Throw (js "invalid image transfer reassembly options") else Ok tt.

Definition validPeerId (value : jsstring) : bool := (0 <? zlen value) && (zlen value <=? 128).

(** [`${peerId}:${manifest.transferId}:${manifest.manifestId}`] *)
Definition imageTransferKey (peerId : jsstring) (m : ImageTransferManifest) : jsstring :=
  peerId ++ js ":" ++ IManifest.transferId m ++ js ":" ++ IManifest.manifestId m.

Definition open_reassembly (peerId : jsstring) (m : ImageTransferManifest)
    (o : ImageTransferReassemblyOptions) (now : number) : result Reassembly :=
  let? _ := validateOptions o in
  let? _ := validateImageTransferManifest m in
  if negb (validPeerId peerId) then Throw (js "invalid image transfer peer")
  else if negb (isSafeInteger now) || time_reached now (number_value (IManifest.expiresAt m))
  then Throw (js "image transfer is expired")
  else if number_value (default_number maxImageDirectBytes (optTransferBytes o))
          <? number_value (IManifest.byteCount m)
  then Throw (js "image transfer exceeds local limit")
  else Ok (Reassembly.mk peerId m (number_value (default_number 64 (optReorderChunks o))) [] 0 0 ph_active).

Definition reassembly_terminal (t : Reassembly) : bool := negb (bool_decide (Reassembly.phase t = ph_active)).
Definition reassembly_expiresAt (t : Reassembly) : Z := number_value (IManifest.expiresAt (Reassembly.manifest t)).
Definition reassembly_key (t : Reassembly) : jsstring :=
  imageTransferKey (Reassembly.peerId t) (Reassembly.manifest t).

(** [left === right] on optional texts. *)
Definition optional_eqb (left right : option jsstring) : bool := bool_decide (left = right).
Definition number_eqb (left right : number) : bool := bool_decide (left = right).

Definition matchesManifest (t : Reassembly) (m : ImageTransferManifest) : bool :=
  let own := Reassembly.manifest t in
  match validateImageTransferManifest m with
  | Throw _ => false
  | Ok _ =>
      str_eqb (IManifest.transferId m) (IManifest.transferId own)
      && str_eqb (IManifest.manifestId m) (IManifest.manifestId own)
      && bytesEqual (IManifest.signature m) (IManifest.signature own)
      && str_eqb (IManifest.messageId m) (IManifest.messageId own)
      && number_eqb (IManifest.issuedAt m) (IManifest.issuedAt own)
      && number_eqb (IManifest.expiresAt m) (IManifest.expiresAt own)
      && str_eqb (IManifest.mediaType m) (IManifest.mediaType own)
      && number_eqb (IManifest.width m) (IManifest.width own)
      && number_eqb (IManifest.height m) (IManifest.height own)
      && number_eqb (IManifest.byteCount m) (IManifest.byteCount own)
      && number_eqb (IManifest.chunkBytes m) (IManifest.chunkBytes own)
      && number_eqb (IManifest.chunkCount m) (IManifest.chunkCount own)
      && str_eqb (IManifest.sha256 m) (IManifest.sha256 own)
      && optional_eqb (IManifest.caption m) (IManifest.caption own)
      && optional_eqb (IManifest.replyToMessageId m) (IManifest.replyToMessageId own)
  end.

Record ImageTransferReassemblySnapshot := mkSnapshot {
  snapshotPeerId : jsstring;
  snapshotTransferId : jsstring;
  snapshotManifestId : jsstring;
  receivedChunks : Z;
  snapshotReceivedBytes : Z;
  snapshotNextMissingIndex : Z;
}.

Definition snapshot (t : Reassembly) : ImageTransferReassemblySnapshot :=
  mkSnapshot (Reassembly.peerId t) (IManifest.transferId (Reassembly.manifest t))
    (IManifest.manifestId (Reassembly.manifest t)) (zlen (Reassembly.chunks t))
    (Reassembly.receivedBytes t) (Reassembly.nextMissingIndex t).

(** [this.#phase = p; this.#clearChunks()] *)
Definition finish (t : Reassembly) (p : ImageTransferPhase) : Reassembly :=
  Reassembly.mk (Reassembly.peerId t) (Reassembly.manifest t) (Reassembly.maximumReorderChunks t)
    [] 0 (Reassembly.nextMissingIndex t) p.

(** [#expire] *)
Definition image_expire (t : Reassembly) (now : number) : bool * Reassembly :=
  if negb (isSafeInteger now) || time_reached now (reassembly_expiresAt t)
  then (true, if reassembly_terminal t then t else finish t ph_expired)
  else (bool_decide (Reassembly.phase t = ph_expired), t).

(** [#abort] *)
Definition image_abort (t : Reassembly) (reason : ImageTransferReassemblyFailure)
  : ImageTransferReassemblyResult * Reassembly :=
  (i_aborted reason, if reassembly_terminal t then t else finish t ph_aborted).

Inductive image_outcome : Type :=
| i_returned (r : ImageTransferReassemblyResult)
| i_awaiting (file : bytes).

Definition i_return (r : ImageTransferReassemblyResult * Reassembly) : image_outcome * Reassembly :=
  (i_returned r.1, r.2).

Definition store_image_chunk (t : Reassembly) (index : Z) (b : bytes) : Reassembly :=
  let cs := map_set (Reassembly.chunks t) index b in
  Reassembly.mk (Reassembly.peerId t) (Reassembly.manifest t) (Reassembly.maximumReorderChunks t)
    cs (Reassembly.receivedBytes t + zlen b) (advance (S (length cs)) cs (Reassembly.nextMissingIndex t))
    (Reassembly.phase t).

(** What follows the storing of a chunk, up to the [await]. *)
Definition image_stored (t : Reassembly) : image_outcome * Reassembly :=
  let count := number_value (IManifest.chunkCount (Reassembly.manifest t)) in
  if negb (zlen (Reassembly.chunks t) =? count) then (i_returned i_chunk_stored, t)
  else if negb (Reassembly.receivedBytes t =? number_value (IManifest.byteCount (Reassembly.manifest t)))
  then i_return (image_abort t x_invalid_chunk)
  else match assemble (Z.to_nat count) 0 (Reassembly.chunks t) with
       | None => i_return (image_abort t x_invalid_chunk)
       | Some file => (i_awaiting file, t)
       end.

Definition receiveImageChunk (t : Reassembly) (c : ImageTransferChunk) (now : number)
  : image_outcome * Reassembly :=
  let '(stop, t) := image_expire t now in
  if stop then (i_returned i_expired, t)
  else match validateImageTransferChunkForManifest c (Reassembly.manifest t) with
  | Throw _ => i_return (image_abort t x_invalid_chunk)
  | Ok _ =>
      let index := number_value (IChunk.index c) in
      match map_get (Reassembly.chunks t) index with
      | Some previous =>
          if bytesEqual previous (IChunk.content c) then (i_returned i_duplicate_chunk, t)
          else i_return (image_abort t x_conflicting_duplicate)
      | None =>
          if Reassembly.maximumReorderChunks t <? index - Reassembly.nextMissingIndex t
          then i_return (image_abort t x_reorder_limit)
          else image_stored (store_image_chunk t index (IChunk.content c))
      end
  end.

(** From the digest's outcome on: its text, or [None] when it rejected. *)
Definition receiveImageChunk_resume (t : Reassembly) (file : bytes) (outcome : option jsstring)
  : ImageTransferReassemblyResult * Reassembly :=
  match outcome with
  | None => image_abort t x_digest_failed
  | Some digest =>
      if negb (str_eqb digest (IManifest.sha256 (Reassembly.manifest t)))
      then image_abort t x_integrity_failed
      else (i_completed file (Reassembly.manifest t), finish t ph_completed)
  end.

(** [expire]: the result, when there is one. *)
Definition expire_reassembly (t : Reassembly) (now : number)
  : option ImageTransferReassemblyResult * Reassembly :=
  let '(stop, t) := image_expire t now in (if stop then Some i_expired else None, t).

(** ** The registry *)

(** A [receiveChunk] call that awaits: its object, the assembled file and the
    time it was called with, which the second sweep uses again. *)
Record Awaiting := mkAwaiting { awaited : nat; assembled : bytes; calledAt : number }.

Record ImageRegistry := mkImageRegistry {
  imageOptions : ImageTransferReassemblyOptions;
  objects : list Reassembly;
  activeTransfers : list (jsstring * nat);
  closedTransfers : list (jsstring * Z);
  awaitingCalls : list Awaiting;
}.

Definition new_image_registry (o : ImageTransferReassemblyOptions) : result ImageRegistry :=
  let? _ := validateOptions o in Ok (mkImageRegistry o [] [] [] []).

(** The loop over [#active]; an entry always has its object. *)
Fixpoint sweep_active (now : number) (entries : list (jsstring * nat)) (objs : list Reassembly)
    (act : list (jsstring * nat)) (cl : list (jsstring * Z))
  : list Reassembly * list (jsstring * nat) * list (jsstring * Z) :=
  match entries with
  | [] => (objs, act, cl)
  | (peerId, id) :: entries =>
      match objs !! id with
      | None => sweep_active now entries objs act cl
      | Some transfer =>
          let transfer := (expire_reassembly transfer now).2 in
          let objs := <[id := transfer]> objs in
          if reassembly_terminal transfer
          then sweep_active now entries objs (map_delete act peerId)
                 (map_set cl (reassembly_key transfer) (reassembly_expiresAt transfer))
          else sweep_active now entries objs act cl
      end
  end.

Definition image_sweep (r : ImageRegistry) (now : number) : result ImageRegistry :=
  if negb (isSafeInteger now) then Throw (js "invalid image transfer time")
  else
    let cl := map_delete_if (fun _ expiresAt => time_reached now expiresAt) (closedTransfers r) in
    let '(objs, act, cl) := sweep_active now (activeTransfers r) (objects r) (activeTransfers r) cl in
    Ok (mkImageRegistry (imageOptions r) objs act
          (map_trim (number_value (default_number 16 (optRememberedTransfers (imageOptions r)))) cl)
          (awaitingCalls r)).

(** A method of the registry: its result, or what it throws, and the state. *)
Abbreviation image_answer := (result ImageTransferReassemblyResult).

Definition image_open (r : ImageRegistry) (peerId : jsstring) (m : ImageTransferManifest) (now : number)
  : image_answer * ImageRegistry :=
  match image_sweep r now with
  | Throw e => (Throw e, r)
  | Ok r =>
      if negb (is_ok (validateImageTransferManifest m)) || negb (validPeerId peerId)
      then (Ok (i_ignored x_invalid_manifest), r)
      else if map_has (closedTransfers r) (imageTransferKey peerId m) then (Ok i_replayed, r)
      else match map_get (activeTransfers r) peerId ≫= (fun id => objects r !! id) with
      | Some existing =>
          (Ok (if matchesManifest existing m then i_duplicate_manifest else i_busy), r)
      | None =>
          if number_value (default_number 16 (optActiveTransfers (imageOptions r)))
             <=? zlen (activeTransfers r)
          then (Ok i_busy, r)
          else match open_reassembly peerId m (imageOptions r) now with
          | Throw _ => (Ok (i_ignored x_expired), r)
          | Ok t =>
              (Ok i_opened,
               mkImageRegistry (imageOptions r) (objects r ++ [t])
                 (map_set (activeTransfers r) peerId (length (objects r)))
                 (closedTransfers r) (awaitingCalls r))
          end
      end
  end.

Definition set_object (r : ImageRegistry) (id : nat) (t : Reassembly) : ImageRegistry :=
  mkImageRegistry (imageOptions r) (<[id := t]> (objects r)) (activeTransfers r) (closedTransfers r)
    (awaitingCalls r).

Definition set_awaiting (r : ImageRegistry) (calls : list Awaiting) : ImageRegistry :=
  mkImageRegistry (imageOptions r) (objects r) (activeTransfers r) (closedTransfers r) calls.

(** The second sweep of [receiveChunk], then its return. *)
Definition sweep_and_return (r : ImageRegistry) (now : number) (answer : ImageTransferReassemblyResult)
  : image_answer * ImageRegistry :=
  match image_sweep r now with Ok r => (Ok answer, r) | Throw e => (Throw e, r) end.

(** [receiveChunk] up to its [await]: [None] is a promise still pending. *)
Definition registry_receiveChunk (r : ImageRegistry) (peerId : jsstring) (c : ImageTransferChunk)
    (now : number) : option image_answer * ImageRegistry :=
  match image_sweep r now with
  | Throw e => (Some (Throw e), r)
  | Ok r =>
      match map_get (activeTransfers r) peerId with
      | None => (Some (Ok (i_ignored x_no_transfer)), r)
      | Some id =>
          match objects r !! id with
          | None => (Some (Ok (i_ignored x_no_transfer)), r)
          | Some transfer =>
              match receiveImageChunk transfer c now with
              | (i_awaiting file, t) =>
                  (None, set_awaiting (set_object r id t) (awaitingCalls r ++ [mkAwaiting id file now]))
              | (i_returned answer, t) =>
                  let '(answer, r) := sweep_and_return (set_object r id t) now answer in
                  (Some answer, r)
              end
          end
      end
  end.

(** The [k]-th awaiting call resumes with the outcome of its digest. *)
Definition registry_resume (r : ImageRegistry) (k : nat) (outcome : option jsstring)
  : option image_answer * ImageRegistry :=
  match awaitingCalls r !! k with
  | None => (None, r)
  | Some call =>
      let r := set_awaiting r (delete k (awaitingCalls r)) in
      match objects r !! awaited call with
      | None => (None, r)
      | Some transfer =>
          let '(answer, t) := receiveImageChunk_resume transfer (assembled call) outcome in
          let '(answer, r) := sweep_and_return (set_object r (awaited call) t) (calledAt call) answer in
          (Some answer, r)
      end
  end.

Definition image_registry_expire (r : ImageRegistry) (now : number) : result unit * ImageRegistry :=
  match image_sweep r now with Ok r => (Ok tt, r) | Throw e => (Throw e, r) end.

Definition image_registry_clear (r : ImageRegistry) : ImageRegistry :=
  mkImageRegistry (imageOptions r) (objects r) [] [] (awaitingCalls r).

Inductive image_op : Type :=
| iop_open (peerId : jsstring) (m : ImageTransferManifest) (now : number)
| iop_chunk (peerId : jsstring) (c : ImageTransferChunk) (now : number)
| iop_digest (k : nat) (outcome : option jsstring)
| iop_expire (now : number)
| iop_clear.

Definition image_step (r : ImageRegistry) (op : image_op) : option image_answer * ImageRegistry :=
  match op with
  | iop_open peerId m now => let '(a, r) := image_open r peerId m now in (Some a, r)
  | iop_chunk peerId c now => registry_receiveChunk r peerId c now
  | iop_digest k outcome => registry_resume r k outcome
  | iop_expire now => (None, (image_registry_expire r now).2)
  | iop_clear => (None, image_registry_clear r)
  end.

Definition image_run (r : ImageRegistry) (ops : list image_op) : ImageRegistry :=
  foldl (fun r op => (image_step r op).2) r ops.
