(* ===== verification/ImageTransferFacts.v ===== *)
(** * [application-payload/image-transfer-state.ts]: invariants and properties

    Each method keeps the invariant of the object it is called on
    ([keeps_object]), a sweep leaves only live transfers in the active map, and
    so the registry's invariant holds in every reachable state.  A second
    invariant, [trace_inv], ties the chunks an object holds and the files under
    digest to the calls that delivered them. *)
From S2P Require Import Prelude JsRuntime Collections Base64Url Cbor CborFacts Records Transfer TransferFacts Image ImageFacts ImageTransfer.

(** ** One reassembly *)

(** The bytes that can be the chunk of an index. *)
Definition image_fits (m : ImageTransferManifest) (index : Z) (b : bytes) : Prop :=
  let count := number_value (IManifest.chunkCount m) in
  let size := number_value (IManifest.chunkBytes m) in
  0 <= index < count /\ 0 < zlen b <= size /\ (index + 1 < count -> zlen b = size).

Lemma image_chunk_fits c m :
  validateImageTransferChunkForManifest c m = Ok tt ->
  image_fits m (number_value (IChunk.index c)) (IChunk.content c).
Proof.
  unfold validateImageTransferChunkForManifest. intros H. step H as [] Ec. step H as [] Em. case_match eqn:E; [done |].
  apply validateImageTransferChunk_Ok in Ec as (_ & _ & _ & (i & Hi & _ & Hi0)%isSafeTime_Int & Hb).
  rewrite Hi in *. cbn [number_value] in *. bool_props. unfold image_fits. split; [lia |]. split; [lia |].
  intros. destruct (Z.ltb_spec (i + 1) (number_value (IManifest.chunkCount m))); [|lia]. simpl in *. bool_props. lia.
Qed.

Lemma optional_eqb_true a b : optional_eqb a b = true <-> a = b.
Proof. apply bool_decide_eq_true. Qed.

Lemma number_eqb_true a b : number_eqb a b = true <-> a = b.
Proof. apply bool_decide_eq_true. Qed.

(** One file of the announced size, made in order of a part per index that has
    the property [P] of an index and its bytes. *)
Definition parts_of (P : Z -> bytes -> Prop) (m : ImageTransferManifest) (file : bytes) : Prop :=
  exists bs, file = concat bs /\ zlen bs = number_value (IManifest.chunkCount m)
    /\ zlen file = number_value (IManifest.byteCount m)
    /\ forall k, (k < length bs)%nat -> P (Z.of_nat k) (nth k bs []).

Lemma parts_of_mono (P Q : Z -> bytes -> Prop) m file :
  (forall i b, P i b -> Q i b) -> parts_of P m file -> parts_of Q m file.
Proof. intros H (bs & ? & ? & ? & Hp). exists bs. split_and!; auto. Qed.

Definition whole_image (m : ImageTransferManifest) (file : bytes) : Prop := parts_of (image_fits m) m file.

(** The parts are chunks that the object holds. *)
Definition holds (t : Reassembly) (i : Z) (b : bytes) : Prop := (i, b) ∈ Reassembly.chunks t.

Record reassembly_inv (t : Reassembly) : Prop := {
  rv_manifest : image_manifest_ok (Reassembly.manifest t);
  rv_wf : map_wf (Reassembly.chunks t);
  rv_fits : Forall (fun kv => image_fits (Reassembly.manifest t) kv.1 kv.2) (Reassembly.chunks t);
  rv_received : Reassembly.receivedBytes t = total_bytes (Reassembly.chunks t);
  rv_terminal : reassembly_terminal t = true -> Reassembly.chunks t = [];
  rv_missing : reassembly_terminal t = false ->
    0 <= Reassembly.nextMissingIndex t
    /\ (forall i, 0 <= i < Reassembly.nextMissingIndex t -> map_has (Reassembly.chunks t) i = true)
    /\ map_has (Reassembly.chunks t) (Reassembly.nextMissingIndex t) = false;
}.

(** The calls never change who sent what. *)
Definition same_offer (t t' : Reassembly) : Prop :=
  Reassembly.peerId t' = Reassembly.peerId t /\ Reassembly.manifest t' = Reassembly.manifest t.

#[export] Instance same_offer_refl : Reflexive same_offer.
Proof. done. Qed.

#[export] Instance same_offer_trans : Transitive same_offer.
Proof. intros a b c [] []. split; congruence. Qed.

(** An update of one object that keeps its invariant. *)
Definition keeps_object (t t' : Reassembly) : Prop :=
  same_offer t t' /\ (reassembly_inv t -> reassembly_inv t').

#[export] Instance keeps_object_refl : Reflexive keeps_object.
Proof. done. Qed.

#[export] Instance keeps_object_trans : Transitive keeps_object.
Proof. intros a b c [] []. split; [by etrans | auto]. Qed.

Lemma finish_keeps t p : p <> ph_active -> keeps_object t (finish t p).
Proof.
  intros Hp. split; [done |]. intros []. unfold finish.
  constructor; cbn; try done; [apply NoDup_nil_2 |]. unfold reassembly_terminal. cbn. by rewrite bool_decide_false.
Qed.

Lemma image_expire_keeps t now : keeps_object t (image_expire t now).2.
Proof. unfold image_expire. repeat case_match; try done. by apply finish_keeps. Qed.

Lemma image_abort_keeps t reason : keeps_object t (image_abort t reason).2.
Proof. unfold image_abort. cbn [snd]. case_match; [done | by apply finish_keeps]. Qed.

Lemma image_resume_keeps t file outcome : keeps_object t (receiveImageChunk_resume t file outcome).2.
Proof.
  unfold receiveImageChunk_resume. repeat case_match; try apply image_abort_keeps. by apply finish_keeps.
Qed.

(** A transfer that a call of [expire] leaves live is left as it was, and
    expiring it again at the same time does nothing. *)
Lemma image_expire_live t now :
  reassembly_terminal (image_expire t now).2 = false -> image_expire t now = (false, t).
Proof.
  unfold image_expire. case_match eqn:E; cbn [snd].
  - destruct (reassembly_terminal t) eqn:Et; [congruence | by unfold reassembly_terminal; cbn; rewrite bool_decide_false].
  - unfold reassembly_terminal. intros H. bool_props. by rewrite H.
Qed.

Lemma store_image_chunk_keeps t i b :
  reassembly_terminal t = false -> map_get (Reassembly.chunks t) i = None ->
  image_fits (Reassembly.manifest t) i b -> keeps_object t (store_image_chunk t i b).
Proof.
  intros Hp Hnew Hfit. split; [done |]. intros []. destruct (rv_missing0 Hp) as (Hn0 & Hbelow & Hn).
  apply map_get_None in Hnew. pose proof (map_set_fresh (Reassembly.chunks t) i b Hnew) as Ecs.
  set (cs := map_set (Reassembly.chunks t) i b) in *.
  destruct (advance_spec (S (length cs)) cs (Reassembly.nextMissingIndex t)) as [Hle Hadv].
  unfold store_image_chunk. fold cs.
  constructor; cbn [Reassembly.chunks Reassembly.manifest Reassembly.receivedBytes Reassembly.nextMissingIndex];
    set (n := advance _ _ _) in *; try done.
  - by apply map_set_wf.
  - rewrite Ecs. apply Forall_app. split; [done | by apply Forall_singleton].
  - rewrite Ecs, total_bytes_app, rv_received0. simpl. lia.
  - intros E. exfalso. unfold reassembly_terminal in *. simpl in *. congruence.
  - intros _. split; [lia |]. split; [| apply advance_stops].
    intros j Hj. destruct (Z.lt_ge_cases j (Reassembly.nextMissingIndex t)).
    + specialize (Hbelow j ltac:(lia)). apply map_has_true in Hbelow. apply map_has_true.
      unfold cs. rewrite map_keys_set. case_match; [done | set_solver].
    + apply Hadv. lia.
Qed.

Lemma image_count_positive m : image_manifest_ok m -> 1 <= number_value (IManifest.chunkCount m).
Proof. intros (_ & _ & _ & _ & _ & _ & _ & (z & -> & _ & ?)%isBoundedInteger_Int & _). simpl. lia. Qed.

Lemma image_stored_keeps t :
  keeps_object t (image_stored t).2
  /\ (forall file, (image_stored t).1 = i_awaiting file -> reassembly_inv t ->
        parts_of (holds (image_stored t).2) (Reassembly.manifest t) file)
  /\ (forall file m, (image_stored t).1 <> i_returned (i_completed file m)).
Proof.
  unfold image_stored. case_match eqn:Ec; [done |]. case_match eqn:Eb.
  { split; [apply image_abort_keeps | done]. }
  case_match eqn:Ea; [| split; [apply image_abort_keeps | done]]. split; [done |]. split; [| done]. bool_props.
  intros file [= <-] []. pose proof (image_count_positive _ rv_manifest0) as Hcc.
  set (n := number_value (IManifest.chunkCount (Reassembly.manifest t))) in *.
  destruct (keys_in_range (Reassembly.chunks t) n rv_wf0) as [_ Hall].
  { eapply Forall_impl; [exact rv_fits0 |]. by intros kv [? _]. }
  destruct (assemble_total (Z.to_nat n) 0 (Reassembly.chunks t)) as (bs & Ha & Hl & Hn).
  { intros j Hj. apply Hall; lia. }
  rewrite Ha in Ea. injection Ea as <-.
  assert (Hz : zlen bs = n) by (unfold zlen; lia). exists bs. split; [done |]. split; [done |]. split.
  - rewrite <- Eb, rv_received0. symmetry. apply total_of_parts; [lia |].
    intros k Hk. rewrite <- Hn by lia. by rewrite Z.add_0_l.
  - intros k Hk. specialize (Hn k ltac:(lia)). rewrite Z.add_0_l in Hn. by apply map_get_Some_elem in Hn.
Qed.

Lemma held_parts_whole t file :
  reassembly_inv t -> parts_of (holds t) (Reassembly.manifest t) file -> whole_image (Reassembly.manifest t) file.
Proof.
  intros []. apply parts_of_mono. intros i b Hin. rewrite Forall_forall in rv_fits0. apply (rv_fits0 _ Hin).
Qed.

Lemma receiveImageChunk_spec t c now :
  reassembly_terminal t = false ->
  keeps_object t (receiveImageChunk t c now).2
  /\ (forall file, (receiveImageChunk t c now).1 = i_awaiting file -> reassembly_inv t ->
        parts_of (holds (receiveImageChunk t c now).2) (Reassembly.manifest t) file)
  /\ (forall file m, (receiveImageChunk t c now).1 <> i_returned (i_completed file m)).
Proof.
  intros Ht. unfold receiveImageChunk. pose proof (image_expire_keeps t now) as He.
  destruct (image_expire t now) as [[] t'] eqn:E; [done |].
  assert (t' = t) as -> by (unfold image_expire in E; repeat case_match; by simplify_eq).
  destruct (validateImageTransferChunkForManifest c _) as [[]|] eqn:Ev; [| split; [apply image_abort_keeps | done]].
  destruct (map_get _ _) eqn:Eg.
  { case_match; (split; [first [done | apply image_abort_keeps] | done]). }
  case_match eqn:Ew; [split; [apply image_abort_keeps | done] |].
  apply image_chunk_fits in Ev. pose proof (store_image_chunk_keeps _ _ _ Ht Eg Ev) as Hs.
  destruct (image_stored_keeps (store_image_chunk t (number_value (IChunk.index c)) (IChunk.content c))) as (Hk & Hf & Hn).
  split; [by etrans |]. split; [| done]. intros file Ef Hi. apply Hf; [done | by apply Hs].
Qed.

(** ** Sweeping *)

(** What a sweep at [now] does to an object. *)
Definition swept (now : number) (t t' : Reassembly) : Prop :=
  keeps_object t t' /\ (image_expire t now = (false, t) -> t' = t).

#[export] Instance swept_refl now : Reflexive (swept now).
Proof. done. Qed.

#[export] Instance swept_trans now : Transitive (swept now).
Proof. intros a b c [] []. split; [by etrans | naive_solver]. Qed.

Lemma image_expire_swept t now : swept now t (image_expire t now).2.
Proof. split; [apply image_expire_keeps | by intros ->]. Qed.

Lemma update_related (R : Reassembly -> Reassembly -> Prop) `{!Reflexive R} objs id t t' :
  objs !! id = Some t -> R t t' -> Forall2 R objs (<[id := t']> objs).
Proof.
  intros Hid Hr. rewrite <- (list_insert_id objs id t) at 1 by done.
  apply Forall2_insert; [by apply Forall_Forall2_diag, Forall_true | done].
Qed.

Lemma expire_reassembly_state t now : (expire_reassembly t now).2 = (image_expire t now).2.
Proof. unfold expire_reassembly. by destruct (image_expire t now). Qed.

Lemma sweep_active_spec now entries objs act cl objs' act' cl' :
  sweep_active now entries objs act cl = (objs', act', cl') -> map_wf act -> map_wf cl ->
  Forall2 (swept now) objs objs' /\ map_wf cl'
  /\ (map_wf act' /\ act' ⊆ act /\ zlen act' <= zlen act)
  /\ (forall p id t, (p, id) ∈ entries -> (p, id) ∈ act' -> objs' !! id = Some t -> reassembly_terminal t = false).
Proof.
  revert objs act cl. induction entries as [|[p id] entries IH]; intros objs act cl H Ha Hc; simpl in H.
  { simplify_eq. split; [by apply Forall_Forall2_diag, Forall_true |]. split; [done |]. split; [done |]. set_solver. }
  destruct (objs !! id) as [t|] eqn:Eid.
  2:{ destruct (IH _ _ _ H Ha Hc) as (Ho & Hc' & Hact & Hlive). split; [done |]. split; [done |]. split; [done |].
      intros q j u [E|Hin]%elem_of_cons; [| by eapply Hlive]. injection E as -> ->. intros _ Hu.
      destruct (Forall2_lookup_r _ _ _ _ _ Ho Hu) as (x & Hx & _). congruence. }
  rewrite expire_reassembly_state in H. set (e := (image_expire t now).2) in *.
  assert (Hupd : Forall2 (swept now) objs (<[id := e]> objs)).
  { eapply update_related; [apply _ | exact Eid | apply image_expire_swept]. }
  destruct (reassembly_terminal e) eqn:Ee.
  - destruct (IH _ _ _ H) as (Ho & Hc' & (Hw & Hsub & Hsz) & Hlive); [by apply map_delete_wf | by apply map_set_wf |].
    assert (Hd : forall x, x ∈ act' -> x ∈ act /\ x.1 <> p).
    { intros x Hx%Hsub. rewrite map_delete_filter in Hx. apply list_elem_of_filter in Hx as [? ?]. split; [done | congruence]. }
    split; [by etrans |]. split; [done |]. split.
    + split; [done |]. split; [intros x Hx; by apply Hd | pose proof (map_delete_size act p); lia].
    + intros q j u [E|Hin]%elem_of_cons Hq; [| by eapply Hlive]. injection E as -> ->.
      apply Hd in Hq as [_ Hq]. by simpl in Hq.
  - destruct (IH _ _ _ H) as (Ho & Hc' & Hact & Hlive); [done.. |].
    split; [by etrans |]. split; [done |]. split; [done |].
    intros q j u [E|Hin]%elem_of_cons Hq Hu; [| by eapply Hlive]. injection E as -> ->.
    destruct (Forall2_lookup_r _ _ _ _ _ Ho Hu) as (x & Hx & [_ Hs]).
    rewrite list_lookup_insert_eq in Hx by (by eapply lookup_lt_Some). injection Hx as <-.
    rewrite Hs; [done |]. subst e. rewrite (image_expire_live t now) at 1 2; [| done].
    by apply image_expire_live.
Qed.

(** ** The invariant of the registry *)

Definition remembered_images (r : ImageRegistry) : Z :=
  number_value (default_number 16 (optRememberedTransfers (imageOptions r))).
Definition active_images (r : ImageRegistry) : Z :=
  number_value (default_number 16 (optActiveTransfers (imageOptions r))).

Definition awaits_whole (objs : list Reassembly) (c : Awaiting) : Prop :=
  exists t, objs !! awaited c = Some t /\ whole_image (Reassembly.manifest t) (assembled c).

Record image_registry_inv (r : ImageRegistry) : Prop := {
  ir_options : validateOptions (imageOptions r) = Ok tt;
  ir_objects : Forall reassembly_inv (objects r);
  ir_active : forall p id, (p, id) ∈ activeTransfers r ->
    exists t, objects r !! id = Some t /\ Reassembly.peerId t = p;
  ir_active_wf : map_wf (activeTransfers r);
  ir_active_size : zlen (activeTransfers r) <= active_images r;
  ir_closed_wf : map_wf (closedTransfers r);
  ir_closed_size : zlen (closedTransfers r) <= remembered_images r;
  ir_awaiting : Forall (awaits_whole (objects r)) (awaitingCalls r);
}.

Lemma validateOptions_bounds o :
  validateOptions o = Ok tt ->
  1 <= number_value (default_number 16 (optActiveTransfers o)) <= 16
  /\ 1 <= number_value (default_number 16 (optRememberedTransfers o)) <= 64.
Proof.
  unfold validateOptions. case_match eqn:E; [done |]. intros _. bool_props.
  repeat match goal with H : number_in _ _ _ = true |- _ => apply (isBoundedInteger_Int _ _ _) in H as (? & ? & ? & ?) end.
  repeat match goal with H : default_number _ _ = _ |- _ => rewrite H end. done.
Qed.

Lemma awaits_whole_related objs objs' c :
  Forall2 keeps_object objs objs' -> awaits_whole objs c -> awaits_whole objs' c.
Proof.
  intros Ho (t & Ht & Hw). destruct (Forall2_lookup_l _ _ _ _ _ Ho Ht) as (t' & Ht' & [[_ Hm] _]).
  exists t'. by rewrite Hm.
Qed.

(** A registry keeps its invariant when its objects do and entries only leave. *)
Lemma image_registry_update r objs act cl calls :
  image_registry_inv r -> Forall2 keeps_object (objects r) objs ->
  (map_wf act /\ act ⊆ activeTransfers r /\ zlen act <= zlen (activeTransfers r)) ->
  map_wf cl -> zlen cl <= remembered_images r ->
  Forall (awaits_whole objs) calls ->
  image_registry_inv (mkImageRegistry (imageOptions r) objs act cl calls).
Proof.
  intros [] Ho (Hw & Hsub & Hsz) Hcl Hcs Hcalls. constructor; cbn; try done.
  - apply Forall_lookup. intros id t' Ht'. destruct (Forall2_lookup_r _ _ _ _ _ Ho Ht') as (t & Ht & [_ Hk]).
    apply Hk. by eapply Forall_lookup_1.
  - intros p id Hin%Hsub. destruct (ir_active0 p id Hin) as (t & Ht & Hp).
    destruct (Forall2_lookup_l _ _ _ _ _ Ho Ht) as (t' & Ht' & [[Hp' _] _]). exists t'. split; [done | congruence].
  - unfold active_images in *. cbn. lia.
Qed.

Lemma image_sweep_inv r now r' :
  image_registry_inv r -> image_sweep r now = Ok r' ->
  image_registry_inv r' /\ imageOptions r' = imageOptions r
  /\ (forall p id t, (p, id) ∈ activeTransfers r' -> objects r' !! id = Some t -> reassembly_terminal t = false).
Proof.
  intros Hr H. unfold image_sweep in H. case_match; [done |]. case_match eqn:E. destruct p as [objs act].
  injection H as <-. pose proof Hr as [].
  destruct (sweep_active_spec _ _ _ _ _ _ _ _ E) as (Ho & Hc & Hact & Hlive);
    [done | by apply map_delete_if_wf |].
  destruct (validateOptions_bounds _ ir_options0) as [_ Hrem].
  split; [| split; [done |]].
  - assert (Hk : Forall2 keeps_object (objects r) objs) by (eapply Forall2_impl; [exact Ho | by intros ? ? []]).
    apply image_registry_update; try done.
    + apply map_trim_wf; [lia | done].
    + rewrite map_trim_size by (lia || done). unfold remembered_images. lia.
    + eapply Forall_impl; [exact ir_awaiting0 |]. intros c. by apply awaits_whole_related.
  - cbn. intros p id t Hin. apply (Hlive p); [| done]. by apply Hact.
Qed.

Lemma set_object_inv r id t t' :
  image_registry_inv r -> objects r !! id = Some t -> keeps_object t t' ->
  image_registry_inv (set_object r id t').
Proof.
  intros Hr Hid Hk. pose proof Hr as [].
  assert (Ho : Forall2 keeps_object (objects r) (<[id := t']> (objects r))) by (eapply update_related; [apply _ | exact Hid | exact Hk]).
  apply image_registry_update; try done.
  eapply Forall_impl; [exact ir_awaiting0 |]. intros c. by apply awaits_whole_related.
Qed.

Lemma set_awaiting_inv r calls :
  image_registry_inv r -> Forall (awaits_whole (objects r)) calls -> image_registry_inv (set_awaiting r calls).
Proof. intros [] Hc. by constructor. Qed.

Lemma sweep_and_return_inv r now a : image_registry_inv r -> image_registry_inv (sweep_and_return r now a).2.
Proof.
  intros Hr. unfold sweep_and_return. destruct (image_sweep r now) eqn:E; [| done].
  by eapply image_sweep_inv.
Qed.

Lemma sweep_and_return_answer r now a b :
  (sweep_and_return r now a).1 = Ok b -> b = a.
Proof. unfold sweep_and_return. case_match; by intros [=]. Qed.

Lemma open_reassembly_inv p m o now t :
  open_reassembly p m o now = Ok t -> reassembly_inv t /\ Reassembly.peerId t = p.
Proof.
  unfold open_reassembly. intros H. step H as [] Eo. step H as [] Em.
  apply validateImageTransferManifest_Ok in Em. repeat (case_match; [done |]). injection H as <-.
  split; [| done]. constructor; cbn; try done; [apply NoDup_nil_2 |]. intros _. split; [done |]. split; [lia | done].
Qed.

Lemma image_open_inv r p m now : image_registry_inv r -> image_registry_inv (image_open r p m now).2.
Proof.
  intros Hr. unfold image_open. destruct (image_sweep r now) as [r1|] eqn:Es; [| done].
  destruct (image_sweep_inv _ _ _ Hr Es) as (Hr1 & _). clear Hr Es r. rename r1 into r.
  case_match; [done |]. case_match; [done |].
  destruct (_ ≫= _) eqn:Eg; [done |]. case_match eqn:Esz; [done |]. bool_props.
  destruct (open_reassembly _ _ _ _) as [t|] eqn:Eo; [| done].
  apply open_reassembly_inv in Eo as [Ht Hp]. pose proof Hr1 as [].
  assert (Hfresh : p ∉ map_keys (activeTransfers r)).
  { apply map_get_None. destruct (map_get (activeTransfers r) p) as [id|] eqn:Ep; [| done].
    apply map_get_Some_elem in Ep. destruct (ir_active0 _ _ Ep) as (u & Hu & _). simpl in Eg. congruence. }
  constructor; cbn [imageOptions objects activeTransfers closedTransfers awaitingCalls snd]; try done.
  - apply Forall_app. split; [done | by apply Forall_singleton].
  - intros q id Hin. rewrite map_set_fresh in Hin by done. apply elem_of_app in Hin as [Hin|Hin].
    + destruct (ir_active0 _ _ Hin) as (u & Hu & Hq). exists u. split; [by apply lookup_app_l_Some | done].
    + apply list_elem_of_singleton in Hin. injection Hin as -> ->. exists t. split; [| done].
      by rewrite lookup_app_r, Nat.sub_diag.
  - by apply map_set_wf.
  - rewrite map_set_size. apply map_has_false in Hfresh. rewrite Hfresh. unfold active_images in *. cbn in *. lia.
  - eapply Forall_impl; [exact ir_awaiting0 |]. intros c (u & Hu & Hw). exists u.
    split; [by apply lookup_app_l_Some | done].
Qed.

Lemma awaiting_completes r id t c now file t' :
  image_registry_inv r -> objects r !! id = Some t -> reassembly_terminal t = false ->
  receiveImageChunk t c now = (i_awaiting file, t') ->
  image_registry_inv
    (set_awaiting (set_object r id t') (awaitingCalls r ++ [mkAwaiting id file now])).
Proof.
  intros Hr Hid Ht E. destruct (receiveImageChunk_spec t c now Ht) as (Hk & Hw & _). rewrite E in Hk, Hw.
  pose proof (set_object_inv r id t t' Hr Hid Hk) as Hr'. apply set_awaiting_inv; [done |].
  apply Forall_app. split; [apply (ir_awaiting _ Hr') |]. apply Forall_singleton. exists t'. cbn. split.
  - by eapply list_lookup_insert_eq, lookup_lt_Some.
  - assert (Hi : reassembly_inv t) by (eapply Forall_lookup_1; [apply Hr | done]).
    destruct Hk as [[_ Hm] Hk]. cbn in Hm, Hk, Hw. apply held_parts_whole; [by apply Hk |]. rewrite Hm. by apply Hw.
Qed.

Lemma registry_receiveChunk_inv r p c now :
  image_registry_inv r -> image_registry_inv (registry_receiveChunk r p c now).2.
Proof.
  intros Hr. unfold registry_receiveChunk. destruct (image_sweep r now) as [r1|] eqn:Es; [| done].
  destruct (image_sweep_inv _ _ _ Hr Es) as (Hr1 & _ & Hlive).
  destruct (map_get (activeTransfers r1) p) as [id|] eqn:Ep; [| done]. apply map_get_Some_elem in Ep.
  destruct (objects r1 !! id) as [t|] eqn:Eid; [| done]. specialize (Hlive _ _ _ Ep Eid).
  destruct (receiveImageChunk t c now) as [[a|file] t'] eqn:E; [| by eapply awaiting_completes].
  destruct (sweep_and_return _ now a) as [b r2] eqn:E2. cbn [snd].
  replace r2 with (sweep_and_return (set_object r1 id t') now a).2 by by rewrite E2.
  apply sweep_and_return_inv. eapply set_object_inv; [done.. |].
  replace t' with (receiveImageChunk t c now).2 by by rewrite E. by apply receiveImageChunk_spec.
Qed.

Lemma registry_resume_inv r k outcome :
  image_registry_inv r -> image_registry_inv (registry_resume r k outcome).2.
Proof.
  intros Hr. unfold registry_resume. destruct (awaitingCalls r !! k) as [call|] eqn:Ek; [| done].
  assert (Hd : image_registry_inv (set_awaiting r (delete k (awaitingCalls r)))).
  { apply set_awaiting_inv; [done |]. apply Forall_delete, Hr. }
  destruct (objects _ !! awaited call) as [t|] eqn:Et; [| done].
  pose proof (image_resume_keeps t (assembled call) outcome) as Hk.
  destruct (receiveImageChunk_resume _ _ _) as [a t'].
  destruct (sweep_and_return _ _ a) as [b r2] eqn:E2. cbn [snd].
  change r2 with (b, r2).2. rewrite <- E2. apply sweep_and_return_inv. by eapply set_object_inv.
Qed.

Lemma image_step_inv r op : image_registry_inv r -> image_registry_inv (image_step r op).2.
Proof.
  intros Hr. destruct op as [p m now|p c now|k outcome|now|]; cbn [image_step].
  - pose proof (image_open_inv r p m now Hr). by destruct (image_open r p m now).
  - by apply registry_receiveChunk_inv.
  - by apply registry_resume_inv.
  - unfold image_registry_expire. cbn [snd]. destruct (image_sweep r now) eqn:E; [| done]. by eapply image_sweep_inv.
  - pose proof Hr as []. destruct (validateOptions_bounds _ ir_options0).
    constructor; cbn; try done; try (by apply NoDup_nil_2); try (unfold active_images, remembered_images in *; cbn; rewrite zlen_nil; lia).
    set_solver.
Qed.

Lemma image_run_inv o r ops :
  new_image_registry o = Ok r -> image_registry_inv (image_run r ops).
Proof.
  intros H. assert (Hr : image_registry_inv r).
  { unfold new_image_registry in H. step H as [] Eo. injection H as <-.
    destruct (validateOptions_bounds _ Eo).
    constructor; cbn; try done; try apply NoDup_nil_2; try (unfold active_images, remembered_images in *; cbn; rewrite zlen_nil; lia).
    set_solver. }
  clear H. revert r Hr. induction ops as [|op ops IH]; intros r Hr; [done |]. by apply IH, image_step_inv.
Qed.

(** ** Where the bytes of a file come from

    The history of a registry says for every object which call opened it and
    for every chunk it holds which later call of the same peer delivered it. *)

(** A chunk of that index with these bytes that the peer sent for the manifest. *)
Definition arrived (ops : list image_op) (p : jsstring) (m : ImageTransferManifest) (i : Z) (b : bytes) : Prop :=
  exists c now, iop_chunk p c now ∈ ops /\ validateImageTransferChunkForManifest c m = Ok tt
    /\ number_value (IChunk.index c) = i /\ IChunk.content c = b.

(** After a call that opened the manifest for the peer, [P] of the calls since. *)
Definition since_open (ops : list image_op) (p : jsstring) (m : ImageTransferManifest)
    (P : list image_op -> Prop) : Prop :=
  exists before now after, ops = before ++ iop_open p m now :: after /\ P after.

(** The file is, in order, chunks the peer delivered after it opened the transfer. *)
Definition received_image (ops : list image_op) (p : jsstring) (m : ImageTransferManifest) (file : bytes) : Prop :=
  since_open ops p m (fun after => parts_of (arrived after p m) m file).

Definition sourced (ops : list image_op) (t : Reassembly) : Prop :=
  since_open ops (Reassembly.peerId t) (Reassembly.manifest t) (fun after =>
    forall i b, holds t i b -> arrived after (Reassembly.peerId t) (Reassembly.manifest t) i b).

Definition awaits_received (ops : list image_op) (objs : list Reassembly) (c : Awaiting) : Prop :=
  exists t, objs !! awaited c = Some t
    /\ received_image ops (Reassembly.peerId t) (Reassembly.manifest t) (assembled c).

Definition trace_inv (ops : list image_op) (r : ImageRegistry) : Prop :=
  Forall (sourced ops) (objects r) /\ Forall (awaits_received ops (objects r)) (awaitingCalls r).

Lemma arrived_mono ops op p m i b : arrived ops p m i b -> arrived (ops ++ [op]) p m i b.
Proof. intros (c & now & Hin & H). exists c, now. split; [| done]. apply elem_of_app. by left. Qed.

Lemma since_open_snoc ops op p m (P Q : list image_op -> Prop) :
  (forall after, P after -> Q (after ++ [op])) -> since_open ops p m P -> since_open (ops ++ [op]) p m Q.
Proof.
  intros H (before & now & after & -> & Hp). exists before, now, (after ++ [op]).
  split; [by rewrite <- app_assoc | by apply H].
Qed.

Lemma trace_mono ops op r : trace_inv ops r -> trace_inv (ops ++ [op]) r.
Proof.
  intros [Ho Hc]. split; eapply Forall_impl; [exact Ho | | exact Hc |].
  - intros t. apply since_open_snoc. intros after H i b Hin. by apply arrived_mono, H.
  - intros c (t & Ht & H). exists t. split; [done |]. revert H. apply since_open_snoc. intros after.
    apply parts_of_mono. intros i b. apply arrived_mono.
Qed.

(** An update that drops chunks at most. *)
Definition shrinks (t t' : Reassembly) : Prop := same_offer t t' /\ (forall i b, holds t' i b -> holds t i b).

#[export] Instance shrinks_refl : Reflexive shrinks.
Proof. done. Qed.

#[export] Instance shrinks_trans : Transitive shrinks.
Proof. intros a b c [] []. split; [by etrans | auto]. Qed.

Lemma finish_shrinks t p : shrinks t (finish t p).
Proof. split; [done |]. intros i b H. by apply not_elem_of_nil in H. Qed.

Lemma image_expire_shrinks t now : shrinks t (image_expire t now).2.
Proof. unfold image_expire. repeat case_match; try done. apply finish_shrinks. Qed.

Lemma image_abort_shrinks t reason : shrinks t (image_abort t reason).2.
Proof. unfold image_abort. cbn [snd]. case_match; [done | apply finish_shrinks]. Qed.

Lemma image_resume_shrinks t file outcome : shrinks t (receiveImageChunk_resume t file outcome).2.
Proof. unfold receiveImageChunk_resume. repeat case_match; try apply image_abort_shrinks. apply finish_shrinks. Qed.

Lemma sweep_active_shrinks now entries objs act cl :
  Forall2 shrinks objs (sweep_active now entries objs act cl).1.1.
Proof.
  revert objs act cl. induction entries as [|[p id] entries IH]; intros objs act cl; cbn [sweep_active].
  { by apply Forall_Forall2_diag, Forall_true. }
  destruct (objs !! id) as [t|] eqn:E; [| apply IH]. rewrite expire_reassembly_state.
  assert (Hu : Forall2 shrinks objs (<[id := (image_expire t now).2]> objs))
    by (eapply update_related; [apply _ | exact E | apply image_expire_shrinks]).
  case_match; (etrans; [exact Hu | apply IH]).
Qed.

Lemma trace_shrink ops r r' :
  trace_inv ops r -> Forall2 shrinks (objects r) (objects r') -> awaitingCalls r' ⊆ awaitingCalls r -> trace_inv ops r'.
Proof.
  intros [Ho Hc] Hs Hsub. split.
  - apply Forall_lookup. intros id t' Ht'. destruct (Forall2_lookup_r _ _ _ _ _ Hs Ht') as (t & Ht & [Hp Hm] & Hh).
    pose proof (Forall_lookup_1 _ _ _ _ Ho Ht) as (before & now & after & E & H). unfold sourced. rewrite Hp, Hm.
    exists before, now, after. split; [done |]. intros i b Hin. by apply H, Hh.
  - rewrite Forall_forall in Hc |- *. intros c Hin%Hsub. destruct (Hc c Hin) as (t & Ht & H).
    destruct (Forall2_lookup_l _ _ _ _ _ Hs Ht) as (t' & Ht' & [Hp Hm] & _). exists t'. by rewrite Hp, Hm.
Qed.

Lemma image_sweep_trace ops r now r' : trace_inv ops r -> image_sweep r now = Ok r' -> trace_inv ops r'.
Proof.
  intros Hr H. unfold image_sweep in H. case_match; [done |]. case_match eqn:E. destruct p as [objs act]. injection H as <-.
  eapply trace_shrink; [exact Hr | | done]. cbn.
  pose proof (sweep_active_shrinks now (activeTransfers r) (objects r) (activeTransfers r)
    (map_delete_if (fun _ expiresAt => time_reached now expiresAt) (closedTransfers r))) as Hs. by rewrite E in Hs.
Qed.

Lemma sweep_and_return_trace ops r now a : trace_inv ops r -> trace_inv ops (sweep_and_return r now a).2.
Proof. intros Hr. unfold sweep_and_return. destruct (image_sweep r now) eqn:E; [by eapply image_sweep_trace | done]. Qed.

Lemma set_object_shrink ops r id t t' :
  trace_inv ops r -> objects r !! id = Some t -> shrinks t t' -> trace_inv ops (set_object r id t').
Proof.
  intros Hr Hid Hs. eapply trace_shrink; [exact Hr | | done]. cbn. eapply update_related; [apply _ | exact Hid | exact Hs].
Qed.

(** An object gets at most the chunk it is given, when it is one of its manifest. *)
Definition gains (c : ImageTransferChunk) (t t' : Reassembly) : Prop :=
  same_offer t t' /\ forall i b, holds t' i b -> holds t i b
    \/ i = number_value (IChunk.index c) /\ b = IChunk.content c
       /\ validateImageTransferChunkForManifest c (Reassembly.manifest t) = Ok tt.

Lemma shrinks_gains c t t' : shrinks t t' -> gains c t t'.
Proof. intros [? H]. split; [done |]. intros i b Hin. left. by apply H. Qed.

Lemma gains_shrinks c t t' t'' : gains c t t' -> shrinks t' t'' -> gains c t t''.
Proof. intros [? Hg] [? Hs]. split; [by etrans |]. intros i b Hin. by apply Hg, Hs. Qed.

Lemma image_stored_shrinks t : shrinks t (image_stored t).2.
Proof. unfold image_stored. repeat case_match; cbn [i_return snd]; first [done | apply image_abort_shrinks]. Qed.

Lemma receiveImageChunk_gains t c now : gains c t (receiveImageChunk t c now).2.
Proof.
  unfold receiveImageChunk. pose proof (image_expire_shrinks t now) as He.
  destruct (image_expire t now) as [[] t'] eqn:E; [by apply shrinks_gains |].
  assert (t' = t) as -> by (unfold image_expire in E; repeat case_match; by simplify_eq).
  destruct (validateImageTransferChunkForManifest c _) as [[]|] eqn:Ev; [| apply shrinks_gains, image_abort_shrinks].
  destruct (map_get _ _) eqn:Eg; [apply shrinks_gains; case_match; [done | apply image_abort_shrinks] |].
  case_match; [apply shrinks_gains, image_abort_shrinks |]. eapply gains_shrinks; [| apply image_stored_shrinks].
  split; [done |]. unfold holds, store_image_chunk. cbn [Reassembly.chunks]. intros i b.
  rewrite map_set_fresh by (by apply map_get_None). rewrite elem_of_app, list_elem_of_singleton. intros [?|[= -> ->]]; [by left |].
  by right.
Qed.

Lemma set_object_gains ops r id t t' p c now :
  trace_inv ops r -> objects r !! id = Some t -> Reassembly.peerId t = p -> gains c t t' ->
  trace_inv (ops ++ [iop_chunk p c now]) (set_object r id t').
Proof.
  intros Hr Hid Hpeer [[Hp Hm] Hg]. pose proof (trace_mono _ (iop_chunk p c now) _ Hr) as [Ho Hc]. split; cbn.
  - apply Forall_insert; [done |]. pose proof (Forall_lookup_1 _ _ _ _ (proj1 Hr) Hid) as Hs. unfold sourced. rewrite Hp, Hm.
    revert Hs. apply since_open_snoc. intros after H i b [Hin|(-> & -> & Hv)]%Hg; [by apply arrived_mono, H |].
    exists c, now. rewrite Hpeer. split; [apply elem_of_app; right; by apply list_elem_of_singleton | done].
  - eapply Forall_impl; [exact Hc |]. intros call (u & Hu & H). destruct (decide (awaited call = id)) as [E|E].
    + assert (u = t) as -> by congruence. exists t'. rewrite E, Hp, Hm. split; [by eapply list_lookup_insert_eq, lookup_lt_Some | done].
    + exists u. by rewrite list_lookup_insert_ne.
Qed.

Lemma open_reassembly_offer p m o now t :
  open_reassembly p m o now = Ok t -> Reassembly.peerId t = p /\ Reassembly.manifest t = m /\ Reassembly.chunks t = [].
Proof.
  unfold open_reassembly. intros H. step H as [] Eo. step H as [] Em. repeat (case_match; [done |]). by injection H as <-.
Qed.

Lemma image_open_trace ops r p m now :
  trace_inv ops r -> trace_inv (ops ++ [iop_open p m now]) (image_open r p m now).2.
Proof.
  intros Hr. unfold image_open. destruct (image_sweep r now) as [r1|] eqn:Es; [| by apply trace_mono].
  apply (image_sweep_trace _ _ _ _ Hr) in Es as Hr1. clear Hr. apply (trace_mono _ (iop_open p m now)) in Hr1.
  case_match; [done |]. case_match; [done |]. destruct (_ ≫= _); [done |]. case_match; [done |].
  destruct (open_reassembly _ _ _ _) as [t|] eqn:Eo; [| done]. apply open_reassembly_offer in Eo as (Hp & Hm & Hc).
  destruct Hr1 as [Ho Ha]. split; cbn.
  - apply Forall_app. split; [done |]. apply Forall_singleton. exists ops, now, []. rewrite Hp, Hm. split; [done |].
    unfold holds. rewrite Hc. intros i b Hin. by apply not_elem_of_nil in Hin.
  - eapply Forall_impl; [exact Ha |]. intros call (u & Hu & Hrec). exists u. split; [by apply lookup_app_l_Some | done].
Qed.

Lemma registry_receiveChunk_trace ops r p c now :
  image_registry_inv r -> trace_inv ops r ->
  trace_inv (ops ++ [iop_chunk p c now]) (registry_receiveChunk r p c now).2.
Proof.
  intros Hi Hr. unfold registry_receiveChunk. destruct (image_sweep r now) as [r1|] eqn:Es; [| by apply trace_mono].
  destruct (image_sweep_inv _ _ _ Hi Es) as (Hi1 & _ & Hlive). apply (image_sweep_trace _ _ _ _ Hr) in Es as Hr1.
  destruct (map_get (activeTransfers r1) p) as [id|] eqn:Ep; [| by apply trace_mono]. apply map_get_Some_elem in Ep.
  destruct (objects r1 !! id) as [t|] eqn:Eid; [| by apply trace_mono]. specialize (Hlive _ _ _ Ep Eid).
  assert (Hp : Reassembly.peerId t = p) by (destruct (ir_active _ Hi1 _ _ Ep) as (u & Hu & ?); by simplify_eq).
  pose proof (set_object_gains _ _ _ _ _ p c now Hr1 Eid Hp (receiveImageChunk_gains t c now)) as Hs.
  destruct (receiveImageChunk_spec t c now Hlive) as (Hk & Hw & _).
  destruct (receiveImageChunk t c now) as [[a|file] t'] eqn:E; cbn [fst snd] in *.
  - pose proof (sweep_and_return_trace _ _ now a Hs). by destruct (sweep_and_return _ now a).
  - destruct Hs as [Ho Ha]. split; [done |]. cbn. apply Forall_app. split; [exact Ha |]. apply Forall_singleton. exists t'.
    assert (Ht' : <[id:=t']> (objects r1) !! id = Some t') by (by eapply list_lookup_insert_eq, lookup_lt_Some).
    split; [done |]. destruct (Forall_lookup_1 _ _ _ _ Ho Ht') as (before & now0 & after & Eo & Hsrc).
    exists before, now0, after. split; [done |]. destruct Hk as [[_ Hm] _]. rewrite Hm in *.
    eapply parts_of_mono; [exact Hsrc |]. apply Hw; [done |]. eapply Forall_lookup_1; [apply Hi1 | done].
Qed.

Lemma registry_resume_trace ops r k outcome :
  trace_inv ops r -> trace_inv ops (registry_resume r k outcome).2.
Proof.
  intros Hr. unfold registry_resume. destruct (awaitingCalls r !! k) as [call|] eqn:Ek; [| done].
  assert (Hd : trace_inv ops (set_awaiting r (delete k (awaitingCalls r)))).
  { eapply trace_shrink; [exact Hr | by apply Forall_Forall2_diag, Forall_true |]. cbn. intros x Hx.
    eapply elem_of_sublist; [exact Hx | apply sublist_delete]. }
  destruct (objects _ !! awaited call) as [t|] eqn:Et; [| done].
  pose proof (image_resume_shrinks t (assembled call) outcome) as Hk.
  destruct (receiveImageChunk_resume _ _ _) as [a t']. cbn [snd] in Hk.
  pose proof (sweep_and_return_trace _ _ (calledAt call) a (set_object_shrink _ _ _ _ _ Hd Et Hk)) as H.
  by destruct (sweep_and_return _ _ a).
Qed.

Lemma image_step_trace ops r op :
  image_registry_inv r -> trace_inv ops r -> trace_inv (ops ++ [op]) (image_step r op).2.
Proof.
  intros Hi Hr. destruct op as [p m now|p c now|k outcome|now|]; cbn [image_step].
  - pose proof (image_open_trace ops r p m now Hr). by destruct (image_open r p m now).
  - by apply registry_receiveChunk_trace.
  - by apply trace_mono, registry_resume_trace.
  - apply trace_mono. unfold image_registry_expire. cbn [snd].
    destruct (image_sweep r now) eqn:E; [by eapply image_sweep_trace | done].
  - apply trace_mono. by destruct Hr.
Qed.

Lemma image_run_trace o r ops : new_image_registry o = Ok r -> trace_inv ops (image_run r ops).
Proof.
  intros Hn. induction ops as [|op ops IH] using rev_ind.
  - unfold new_image_registry in Hn. step Hn as [] Eo. injection Hn as <-. by split.
  - unfold image_run. rewrite foldl_app. cbn [foldl]. apply image_step_trace; [by eapply image_run_inv | done].
Qed.

Lemma image_total_bound m cs :
  Forall (fun kv => image_fits m kv.1 kv.2) cs ->
  0 <= total_bytes cs <= zlen cs * number_value (IManifest.chunkBytes m).
Proof.
  induction 1 as [|[i b] cs (_ & Hb & _) _ IH]; [done |]. rewrite zlen_cons. cbn [total_bytes foldr snd] in *.
  fold (total_bytes cs). lia.
Qed.

Lemma reassembly_bound t :
  reassembly_inv t ->
  0 <= Reassembly.receivedBytes t
  < number_value (IManifest.byteCount (Reassembly.manifest t)) + maxImageTransferChunkBytes.
Proof.
  intros []. set (m := Reassembly.manifest t) in *. rewrite rv_received0.
  pose proof (image_total_bound _ _ rv_fits0) as Ht.
  destruct (keys_in_range (Reassembly.chunks t) (number_value (IManifest.chunkCount m)) rv_wf0) as [Hc _].
  { eapply Forall_impl; [exact rv_fits0 |]. by intros kv [? _]. }
  destruct rv_manifest0 as (_ & _ & _ & _ & _ & Hb & Hs & Hn & Hceil).
  apply isBoundedInteger_Int in Hb as (b & Hb & _ & ?), Hs as (s & Hs & _ & ?), Hn as (n & Hn & _ & ?).
  rewrite Hb, Hs, Hn in *. cbn [number_value] in *.
  pose proof (ceil_div_bounds b s ltac:(lia) ltac:(lia)). unfold maxImageTransferChunkBytes in *. nia.
Qed.

Lemma image_bytes_signature_eq a b :
  bytes_ok a -> bytes_ok b -> (bytesEqual a b = true <-> a = b).
Proof. intros Ha Hb. rewrite bytesEqual_spec by done. apply bool_decide_eq_true. Qed.

(** ** Properties *)

(** whatever endpoints and digests do, in any order, a registry of image
    transfers keeps its invariant: one transfer per peer, its chunks distinct,
    fitting the announced layout and counted exactly, an ended transfer without
    chunks, every file under digest whole.  At most sixteen transfers are
    active, at most 64 are remembered, and no object ever holds a chunk more
    than its announced size, so the memory is bounded. *)
Theorem image_registry_invariant o r ops (Hn : new_image_registry o = Ok r) :
  image_registry_inv (image_run r ops)
  /\ zlen (activeTransfers (image_run r ops)) <= 16
  /\ zlen (closedTransfers (image_run r ops)) <= 64
  /\ Forall (fun t => 0 <= Reassembly.receivedBytes t < maxImageDirectBytes + maxImageTransferChunkBytes)
       (objects (image_run r ops)).
Proof.
  pose proof (image_run_inv o r ops Hn) as Hr. split; [done |]. pose proof Hr as [].
  destruct (validateOptions_bounds _ ir_options0) as [Ha Hc]. unfold active_images, remembered_images in *.
  split; [lia |]. split; [lia |]. eapply Forall_impl; [exact ir_objects0 |]. intros t Ht.
  pose proof (reassembly_bound t Ht) as Hb. destruct Ht as [Hm _ _ _ _ _].
  destruct Hm as (_ & _ & _ & _ & _ & (b & Hb' & _ & ?)%isBoundedInteger_Int & _). rewrite Hb' in Hb. simpl in Hb. lia.
Qed.

Lemma answer_of_resume r k outcome content m r' :
  image_registry_inv r -> registry_resume r k outcome = (Some (Ok (i_completed content m)), r') ->
  outcome = Some (IManifest.sha256 m) /\ exists call t, awaitingCalls r !! k = Some call /\ assembled call = content
    /\ objects r !! awaited call = Some t /\ Reassembly.manifest t = m.
Proof.
  intros Hr Hs. unfold registry_resume in Hs. destruct (awaitingCalls r !! k) as [call|] eqn:Ek; [| done].
  destruct (objects _ !! awaited call) as [t|] eqn:Et; [| done]. cbn in Et.
  destruct (receiveImageChunk_resume t _ outcome) as [a t'] eqn:Er.
  destruct (sweep_and_return _ _ a) as [b r2] eqn:E2. injection Hs as -> ->.
  assert (a = i_completed content m) as -> by (symmetry; eapply sweep_and_return_answer; by rewrite E2).
  unfold receiveImageChunk_resume in Er. destruct outcome as [digest|]; [| done]. case_match eqn:Ed; [done |].
  bool_props. apply str_eqb_true in Ed as ->. injection Er as <- <- _. split; [done |]. by exists call, t.
Qed.

(** Opening a transfer and receiving a chunk never answer that an image is complete. *)
Lemma only_digests_complete r op content m r' :
  image_registry_inv r -> image_step r op = (Some (Ok (i_completed content m)), r') ->
  exists k outcome, op = iop_digest k outcome.
Proof.
  intros Hr Hs. destruct op as [p m0 now|p c now|k outcome|now|]; cbn [image_step] in Hs; try done; [| | by eauto]; exfalso.
  - unfold image_open in Hs. destruct (image_sweep r now); [| done]. repeat (case_match; simplify_eq/=; try done).
  - unfold registry_receiveChunk in Hs. destruct (image_sweep r now) as [r1|] eqn:Es; [| done].
    destruct (image_sweep_inv _ _ _ Hr Es) as (Hr1 & _ & Hlive).
    destruct (map_get (activeTransfers r1) p) as [id|] eqn:Ep; [| done]. apply map_get_Some_elem in Ep.
    destruct (objects r1 !! id) as [t|] eqn:Eid; [| done]. specialize (Hlive _ _ _ Ep Eid).
    destruct (receiveImageChunk_spec t c now Hlive) as (_ & _ & Hno).
    destruct (receiveImageChunk t c now) as [[a|file] t']; [| done].
    destruct (sweep_and_return _ now a) as [b r2] eqn:E2. injection Hs as -> ->.
    apply (Hno content m). cbn. f_equal. symmetry. apply (sweep_and_return_answer (set_object r1 id t') now). by rewrite E2.
Qed.

(** C30: an image is reported complete only with the bytes its peer delivered.
    The event that completes it is the digest of the file that a waiting call
    assembled, it came out as announced, and the reported bytes are that file:
    of the announced size and number of chunks, and, index by index, the content
    of a chunk that the peer sent, valid for the manifest, after it had opened
    a transfer with this very manifest, which is itself valid. *)
Theorem image_completed o r ops op content m r'
    (Hn : new_image_registry o = Ok r)
    (Hs : image_step (image_run r ops) op = (Some (Ok (i_completed content m)), r')) :
  validateImageTransferManifest m = Ok tt
  /\ (exists p, received_image ops p m content)
  /\ exists k call, op = iop_digest k (Some (IManifest.sha256 m))
       /\ awaitingCalls (image_run r ops) !! k = Some call /\ assembled call = content.
Proof.
  pose proof (image_run_inv o r ops Hn) as Hr. pose proof (image_run_trace o r ops Hn) as Ht.
  destruct (only_digests_complete _ _ _ _ _ Hr Hs) as (k & outcome & ->). cbn [image_step] in Hs.
  apply (answer_of_resume _ _ _ _ _ _ Hr) in Hs as (-> & call & t & Ek & Ec & Et & Em).
  split; [| split; [| by exists k, call]].
  - apply validateImageTransferManifest_Ok. rewrite <- Em. by apply (Forall_lookup_1 _ _ _ _ (ir_objects _ Hr) Et).
  - destruct (Forall_lookup_1 _ _ _ _ (proj2 Ht) Ek) as (u & Hu & H). rewrite Et in Hu. injection Hu as <-.
    rewrite Em, Ec in H. by exists (Reassembly.peerId t).
Qed.

(** comparing a manifest with the one of a transfer field by field is the
    same as comparing the two whole records: no field can differ unnoticed. *)
Theorem matchesManifest_equiv t m
    (Ht : reassembly_inv t) (Hs : bytes_ok (IManifest.signature (Reassembly.manifest t)))
    (Hm : bytes_ok (IManifest.signature m)) :
  matchesManifest t m = true <-> m = Reassembly.manifest t.
Proof.
  pose proof (rv_manifest _ Ht) as Hown. unfold matchesManifest. split.
  - destruct (validateImageTransferManifest m) as [[]|] eqn:Ev; [| done]. intros H. bool_props.
    apply validateImageTransferManifest_Ok in Ev as (_ & _ & Hv & _). destruct Hown as (_ & _ & Hv' & _).
    rewrite ?str_eqb_true, ?number_eqb_true, ?optional_eqb_true in *.
    match goal with H : bytesEqual _ _ = true |- _ => apply image_bytes_signature_eq in H; [| done..] end.
    clear Ht Hs Hm. destruct m, (Reassembly.manifest t).
    cbn [IManifest.version IManifest.transferId IManifest.manifestId IManifest.messageId IManifest.issuedAt
      IManifest.expiresAt IManifest.mediaType IManifest.width IManifest.height IManifest.byteCount
      IManifest.chunkBytes IManifest.chunkCount IManifest.sha256 IManifest.signature IManifest.caption
      IManifest.replyToMessageId] in *. by subst.
  - intros ->. apply validateImageTransferManifest_Ok in Hown. rewrite Hown.
    rewrite (proj2 (image_bytes_signature_eq _ _ Hs Hs) eq_refl).
    by rewrite !(proj2 (str_eqb_true _ _) eq_refl), !(proj2 (number_eqb_true _ _) eq_refl),
      !(proj2 (optional_eqb_true _ _) eq_refl).
Qed.

(** ** A concrete transfer *)

Definition token16 : jsstring := replicate 22 65.
Definition token32 : jsstring := replicate 43 65.

Definition sample_image : ImageTransferManifest :=
  IManifest.mk imageTransferVersion token16 token32 token16 (Int 1000) (Int 61000) (js "image/png")
    (Int 10) (Int 10) (Int 600) (Int 300) (Int 2) token32 (replicate 64 7) None None.

Definition sample_part (index : Z) : ImageTransferChunk :=
  IChunk.mk imageTransferVersion token16 token32 (Int index) (replicate 300 index).

Definition default_image_options : ImageTransferReassemblyOptions := mkImageOptions None None None None.
Definition empty_image_registry : ImageRegistry := mkImageRegistry default_image_options [] [] [] [].

Definition sample_image_ops : list image_op :=
  [iop_open (js "peer") sample_image (Int 2000); iop_chunk (js "peer") (sample_part 1) (Int 2100);
   iop_chunk (js "peer") (sample_part 0) (Int 2200)].

Definition sample_content : bytes := replicate 300 0 ++ replicate 300 1.

Lemma empty_image_registry_new : new_image_registry default_image_options = Ok empty_image_registry.
Proof. reflexivity. Qed.

(** The file under digest is completed even though it expired meanwhile. *)
Lemma sample_image_completed :
  image_step (image_run empty_image_registry (sample_image_ops ++ [iop_expire (Int 61000)]))
    (iop_digest 0 (Some token32))
  = (Some (Ok (i_completed sample_content sample_image)),
     (image_step (image_run empty_image_registry (sample_image_ops ++ [iop_expire (Int 61000)]))
        (iop_digest 0 (Some token32))).2).
Proof. vm_compute. reflexivity. Qed.

Lemma image_registry_invariant_witness :
  zlen (activeTransfers (image_run empty_image_registry sample_image_ops)) <= 16.
Proof. apply (image_registry_invariant _ _ sample_image_ops empty_image_registry_new). Defined.

Lemma image_completed_witness :
  exists p, received_image (sample_image_ops ++ [iop_expire (Int 61000)]) p sample_image sample_content.
Proof. apply (image_completed _ _ _ _ _ _ _ empty_image_registry_new sample_image_completed). Defined.

Definition sample_reassembly : Reassembly := Reassembly.mk (js "peer") sample_image 64 [] 0 0 ph_active.

Lemma sample_reassembly_inv : reassembly_inv sample_reassembly.
Proof. apply (open_reassembly_inv (js "peer") sample_image default_image_options (Int 2000)). closed. Qed.

Lemma sample_signature_ok : bytes_ok (IManifest.signature sample_image).
Proof. by apply (bool_decide_eq_true _), (bool_decide_unpack _). Qed.

Lemma matchesManifest_equiv_witness :
  matchesManifest sample_reassembly sample_image = true <-> sample_image = sample_image.
Proof.
  exact (matchesManifest_equiv sample_reassembly sample_image sample_reassembly_inv sample_signature_ok
           sample_signature_ok).
Defined.
