(* ===== verification/Json.v ===== *)
(** * Values of the language's [unknown] type, as JSON gives them

    The wire validators take an [unknown] value, most often the result of
    [JSON.parse].  [JObj] lists an object's own properties in the order of
    [Object.keys]; a property may hold [undefined] when the object was built by
    code.  The keys the validators read are not on [Object.prototype]. *)
From S2P Require Import Prelude JsRuntime Collections.

Inductive json : Type :=
| JUndefined
| JNull
| JBool (b : bool)
| JNum (n : number)
| JStr (s : jsstring)
| JArr (items : list json)
| JObj (properties : list (jsstring * json)).

Abbreviation object := (list (jsstring * json)).

(** [record[key]] *)
Definition prop (o : object) (key : jsstring) : json := default JUndefined (map_get o key).

(** [record[key] === undefined] *)
Definition is_undefined (v : json) : bool := match v with JUndefined => true | _ => false end.

Definition as_string (v : json) : option jsstring := match v with JStr s => Some s | _ => None end.
Definition as_object (v : json) : option object := match v with JObj o => Some o | _ => None end.

(** [typeof value !== "string" || value.length === 0 || encode(value).byteLength > maxBytes]
    is [None]; otherwise the text. *)
Definition bounded_string (maxBytes : Z) (v : json) : option jsstring :=
  match v with
  | JStr s => if (zlen s =? 0) || (maxBytes <? zlen (utf8_encode s)) then None else Some s
  | _ => None
  end.

(** [typeof value !== "number" || !Number.isSafeInteger(value) || value < min || value > max]
    is [None]; otherwise the integer. *)
Definition bounded_integer (min max : Z) (v : json) : option Z :=
  match v with
  | JNum n => if number_in min max n then Some (number_value n) else None
  | _ => None
  end.

(** A text of at most [max] bytes of UTF-8, not empty. *)
Definition text_within (max : Z) (s : jsstring) : Prop := s <> [] /\ zlen (utf8_encode s) <= max.

Definition int_within (min max z : Z) : Prop := is_safe z = true /\ min <= z <= max.

Lemma bounded_string_Some m v s :
  bounded_string m v = Some s <-> v = JStr s /\ text_within m s.
Proof.
  unfold bounded_string, text_within. split.
  - intros H. repeat case_match; simplify_eq. bool_props.
    split; [done |]. split; [by intros -> | lia].
  - intros (-> & Hs & Hl). assert (zlen s <> 0) by (rewrite zlen_zero_iff; done).
    by test ((zlen s =? 0) || (m <? zlen (utf8_encode s))) false.
Qed.

Lemma number_in_true lo hi n :
  number_in lo hi n = true <-> exists z, n = Int z /\ int_within lo hi z.
Proof.
  unfold number_in, int_within. split.
  - destruct n; [|done]. intros. bool_props. eauto.
  - intros (z & -> & -> & ?). simpl. by test ((lo <=? z) && (z <=? hi)) true.
Qed.

Lemma bounded_integer_Some lo hi v z :
  bounded_integer lo hi v = Some z <-> v = JNum (Int z) /\ int_within lo hi z.
Proof.
  unfold bounded_integer. split.
  - intros H. repeat case_match; simplify_eq.
    match goal with E : number_in _ _ _ = true |- _ => apply number_in_true in E as (? & -> & ?) end.
    done.
  - intros (-> & H). by rewrite (proj2 (number_in_true lo hi (Int z))) by eauto.
Qed.

(** ** Keys *)

(** [for (const key of Object.keys(record)) if (!known.has(key)) throw new
    ...(`unknown ${key}`)] *)
Definition reject_unknown (o : object) (known : list jsstring) : result unit :=
  each_result (fun p => if bool_decide (p.1 ∈ known) then Ok tt else Throw (js "unknown " ++ p.1)) o.

(** [for (const key of keys) if (!(key in record)) throw new ...(`missing ${key}`)] *)
Definition require_keys (o : object) (keys : list jsstring) : result unit :=
  each_result (fun key => if map_has o key then Ok tt else Throw (js "missing " ++ key)) keys.

Definition keys_within (o : object) (known : list jsstring) : Prop :=
  Forall (fun k => k ∈ known) (map_keys o).

Definition has_keys (o : object) (keys : list jsstring) : Prop :=
  Forall (fun k => k ∈ map_keys o) keys.

Lemma reject_unknown_Ok o known : reject_unknown o known = Ok tt <-> keys_within o known.
Proof.
  unfold reject_unknown, keys_within, map_keys. rewrite each_result_Ok, Forall_fmap.
  apply Forall_iff. intros p. simpl. case_bool_decide; naive_solver.
Qed.

Lemma require_keys_Ok o keys : require_keys o keys = Ok tt <-> has_keys o keys.
Proof.
  unfold require_keys, has_keys. rewrite each_result_Ok. apply Forall_iff. intros k.
  rewrite <- map_has_true. destruct (map_has o k); naive_solver.
Qed.

Lemma prop_present o k : prop o k <> JUndefined -> k ∈ map_keys o.
Proof.
  unfold prop. intros H. rewrite <- map_has_true. unfold map_has.
  destruct (map_get o k); [done | naive_solver].
Qed.

(** ** Inverting a sequence of checks *)

Lemma let_Ok {A B} (c : result A) (k : A -> result B) b :
  match c with Ok x => k x | Throw e => Throw e end = Ok b <-> exists a, c = Ok a /\ k a = Ok b.
Proof. destruct c; naive_solver. Qed.

Lemma let_Ok_unit {B} (c : result unit) (k : unit -> result B) b :
  match c with Ok x => k x | Throw e => Throw e end = Ok b <-> c = Ok tt /\ k tt = Ok b.
Proof. destruct c as [[]|]; naive_solver. Qed.

Lemma let_Ok_ignored {A} (P : Prop) (c : result A) (k : result unit) :
  ((exists a, c = Ok a) <-> P) ->
  (match c with Ok _ => k | Throw e => Throw e end = Ok tt <-> P /\ k = Ok tt).
Proof. destruct c; naive_solver. Qed.

Lemma if_throw_Ok {A} (b : bool) m (k : result A) (a : A) :
  (if b then Throw m else k) = Ok a <-> b = false /\ k = Ok a.
Proof. destruct b; naive_solver. Qed.

Lemma if_negb_throw_Ok {A} (b : bool) m (k : result A) (a : A) :
  (if negb b then Throw m else k) = Ok a <-> b = true /\ k = Ok a.
Proof. destruct b; naive_solver. Qed.

Lemma result_of_option_Ok {A} m (o : option A) a : result_of_option m o = Ok a <-> o = Some a.
Proof. destruct o; naive_solver. Qed.

Lemma as_object_Some v o : as_object v = Some o <-> v = JObj o.
Proof. destruct v; naive_solver. Qed.
