(* ===== verification/Envelope.v ===== *)
(** * [protocol/v0/envelope.ts]: the draft envelope of the wire protocol

    [validateDraftEnvelope] reads an [unknown] value field by field; every
    reader is a function from the object and the key to the field or the error.
    [decodeDraftEnvelopeText] bounds the text and parses it; the parser is the
    argument [JSON_parse] ([None] when it throws), and nothing is assumed of it.
    [documented_envelope] is what the protocol documents describe,
    [tagged_announcement] the case the code takes beyond them. *)
From S2P Require Import Prelude JsRuntime Collections Base64Url Json.

Definition protocolID : jsstring := js "branch/connectivity/0".
Definition maxDraftEnvelopeBytes : Z := 64 * 1024.
Definition maxDraftStringBytes : Z := 1024.
Definition maxDraftTimestamp : Z := MAX_SAFE_INTEGER.

Inductive EventType : Type :=
| identity_announce | bootstrap_beacon | rendezvous_offer | rendezvous_answer
| route_update | relay_announce | capability_grant | capability_revoke.

Inductive PayloadMode : Type := public_mode | sealed_mode.

#[export] Instance EventType_eq_dec : EqDecision EventType.
Proof. solve_decision. Defined.
#[export] Instance PayloadMode_eq_dec : EqDecision PayloadMode.
Proof. solve_decision. Defined.

Definition eventTypes : list (jsstring * EventType) :=
  [(js "identity.announce", identity_announce); (js "bootstrap.beacon", bootstrap_beacon);
   (js "rendezvous.offer", rendezvous_offer); (js "rendezvous.answer", rendezvous_answer);
   (js "route.update", route_update); (js "relay.announce", relay_announce);
   (js "capability.grant", capability_grant); (js "capability.revoke", capability_revoke)].

Record Sender := mkSender { public_key : jsstring }.

(** The literal fields ([protocol], [key_alg], [signature_alg]) are constants. *)
Record DraftEnvelope := mkEnvelope {
  event_id : jsstring;
  event_type : EventType;
  sender : Sender;
  recipient_tag : option jsstring;
  created_at : Z;
  expires_at : Z;
  payload_mode : PayloadMode;
  payload : jsstring;
  signature : jsstring;
}.

(** The event type a text names, as [isKnownEventType] narrows it. *)
Definition isKnownEventType (value : jsstring) : option EventType := map_get eventTypes value.

Definition missing (key : jsstring) : jsstring := js "missing " ++ key.
Definition invalid (key : jsstring) : jsstring := js "invalid " ++ key.
Definition unsupported (key : jsstring) : jsstring := js "unsupported " ++ key.

Definition rejectUnknownKeys (record : object) (keys : list jsstring) : result unit :=
  reject_unknown record keys.

Definition readString (record : object) (key : jsstring) : result jsstring :=
  result_of_option (missing key) (bounded_string maxDraftStringBytes (prop record key)).

Definition readLiteral (record : object) (key expected : jsstring) : result unit :=
  let? value := readString record key in
  if negb (str_eqb value expected) then Throw (unsupported key) else Ok tt.

Definition validBase64URL (value : jsstring) : bool :=
  if negb (negb (zlen value =? 0) && forallb url_class value) then false
  else negb (zlen value mod 4 =? 1).

Definition validBase64URLSize (value : jsstring) (size : Z) : bool :=
  let encodedLength := ceil_div (size * 8) 6 in
  validBase64URL value && (zlen value =? encodedLength).

Definition readBase64URLString (record : object) (key : jsstring) : result jsstring :=
  let? value := readString record key in
  if negb (validBase64URL value) then Throw (invalid key) else Ok value.

Definition readBase64URLBytes (record : object) (key : jsstring) (size : Z) : result jsstring :=
  let? value := readString record key in
  if negb (validBase64URLSize value size) then Throw (invalid key) else Ok value.

Definition senderKeys : list jsstring := [js "key_alg"; js "public_key"].

Definition readSender (record : object) (key : jsstring) : result Sender :=
  match prop record key with
  | JObj value =>
      let? _ := rejectUnknownKeys value senderKeys in
      let? _ := readLiteral value (js "key_alg") (js "ed25519") in
      let? public_key := readBase64URLBytes value (js "public_key") 32 in
      Ok (mkSender public_key)
  | _ => Throw (missing key)
  end.

Definition readOptionalRecipientTag (record : object) (key : jsstring) : result (option jsstring) :=
  if is_undefined (prop record key) then Ok None
  else
    let? text := readString record key in
    if negb (validBase64URLSize text 16) && negb (validBase64URLSize text 32)
    then Throw (invalid key) else Ok (Some text).

Definition readPayloadMode (record : object) (key : jsstring) : result PayloadMode :=
  let? value := readString record key in
  if str_eqb value (js "public") then Ok public_mode
  else if str_eqb value (js "sealed") then Ok sealed_mode
  else Throw (invalid key).

Definition readInteger (record : object) (key : jsstring) : result Z :=
  result_of_option (invalid key) (bounded_integer 0 maxDraftTimestamp (prop record key)).

Definition readEventType (record : object) (key : jsstring) : result EventType :=
  let? value := readString record key in
  result_of_option (js "unsupported event type") (isKnownEventType value).

Definition requiresRecipientTag (t : EventType) : bool :=
  match t with
  | rendezvous_offer | rendezvous_answer | route_update | capability_grant | capability_revoke => true
  | _ => false
  end.

Definition validPayloadMode (t : EventType) (mode : PayloadMode) : bool :=
  match t with
  | bootstrap_beacon | relay_announce => bool_decide (mode = public_mode)
  | identity_announce => true
  | _ => bool_decide (mode = sealed_mode)
  end.

Definition envelopeKeys : list jsstring :=
  [js "protocol"; js "event_id"; js "type"; js "sender"; js "recipient_tag"; js "created_at";
   js "expires_at"; js "payload_mode"; js "payload"; js "signature_alg"; js "signature"].

Definition validateDraftEnvelope (value : json) : result DraftEnvelope :=
  match value with
  | JObj value =>
      let? _ := rejectUnknownKeys value envelopeKeys in
      let? _ := readLiteral value (js "protocol") protocolID in
      let? event_id := readBase64URLBytes value (js "event_id") 32 in
      let? event_type := readEventType value (js "type") in
      let? sender := readSender value (js "sender") in
      let? recipient_tag := readOptionalRecipientTag value (js "recipient_tag") in
      let? created_at := readInteger value (js "created_at") in
      let? expires_at := readInteger value (js "expires_at") in
      let? payload_mode := readPayloadMode value (js "payload_mode") in
      let? payload := readBase64URLString value (js "payload") in
      let? _ := readLiteral value (js "signature_alg") (js "ed25519") in
      let? signature := readBase64URLBytes value (js "signature") 64 in
      if expires_at <=? created_at then Throw (js "expiry must be after creation")
      else if requiresRecipientTag event_type && bool_decide (recipient_tag = None)
      then Throw (js "missing recipient_tag")
      else if negb (validPayloadMode event_type payload_mode)
      then Throw (js "invalid payload_mode")
      else Ok (mkEnvelope event_id event_type sender recipient_tag created_at expires_at
                 payload_mode payload signature)
  | _ => Throw (js "invalid draft envelope")
  end.

Definition decodeDraftEnvelopeText (JSON_parse : jsstring -> option json) (text : jsstring)
  : result DraftEnvelope :=
  if maxDraftEnvelopeBytes <? zlen (utf8_encode text) then Throw (js "oversized draft envelope")
  else match JSON_parse text with
       | None => Throw (js "invalid draft envelope")
       | Some decoded => validateDraftEnvelope decoded
       end.

(** ** What a reader accepts *)

Lemma utf8_encode_url s : forallb url_class s = true -> utf8_encode s = s.
Proof.
  induction s as [|c s IH]; intros H; [done |]. cbn [forallb] in H. bool_props.
  assert (0 <= c < 0x80) by (unfold url_class in *; lia). cbn [utf8_encode].
  test (is_high_surrogate c) false. test (is_low_surrogate c) false.
  unfold utf8_of_code_point. test (c <? 128) true. simpl. by rewrite IH.
Qed.

(** The text of [n] bytes. *)
Definition is_token (n : Z) (t : jsstring) : Prop := exists b, decodeBase64URL t = Ok b /\ zlen b = n.

Lemma validBase64URL_same s : validBase64URL s = Base64Url.validBase64URL s.
Proof.
  unfold validBase64URL, Base64Url.validBase64URL. pose proof (zlen_nonneg s).
  replace (0 <? zlen s) with (negb (zlen s =? 0)) by lia.
  destruct (forallb url_class s), (zlen s =? 0), (zlen s mod 4 =? 1); done.
Qed.

Lemma validBase64URL_ascii s : Base64Url.validBase64URL s = true -> forallb url_class s = true /\ s <> [].
Proof. unfold Base64Url.validBase64URL. intros. bool_props. split; [done |]. by intros ->. Qed.

(** Comparing the length of a text with the length its [size] bytes encode to
    is the same as decoding it and counting the bytes. *)
Lemma validBase64URLSize_decodes value size :
  1 <= size -> validBase64URLSize value size = true <-> is_token size value.
Proof.
  intros Hs. unfold validBase64URLSize, is_token. rewrite validBase64URL_same, andb_true_iff, Z.eqb_eq. split.
  - intros [Hv Hl]. pose proof (decodeBase64URL_unsextets value Hv) as Hd.
    exists (unsextets (url_value <$> value)). split; [done |].
    apply decodeBase64URL_ok in Hd as (_ & _ & ->). rewrite Hl. unfold ceil_div. zdiv_lia.
  - intros (b & Hd & Hb). apply decodeBase64URL_ok in Hd as (Hv & _ & Hl). split; [done |].
    pose proof Hv as Hv'. unfold Base64Url.validBase64URL in Hv'. bool_props. unfold ceil_div.
    pose proof (zlen_nonneg value). zdiv_lia.
Qed.


Lemma token_text_within n t : 1 <= n <= 512 -> is_token n t -> text_within maxDraftStringBytes t.
Proof.
  intros Hn (b & Hd & Hb). apply decodeBase64URL_ok in Hd as (Hv & _ & Hl).
  pose proof Hv as Hv'. unfold Base64Url.validBase64URL in Hv'. bool_props.
  apply validBase64URL_ascii in Hv as [Ha Hne]. split; [done |].
  rewrite utf8_encode_url by done. unfold maxDraftStringBytes. zdiv_lia.
Qed.

Lemma readString_Ok o k s :
  readString o k = Ok s <-> prop o k = JStr s /\ text_within maxDraftStringBytes s.
Proof. unfold readString. by rewrite result_of_option_Ok, bounded_string_Some. Qed.

Lemma readLiteral_Ok o k e :
  text_within maxDraftStringBytes e -> readLiteral o k e = Ok tt <-> prop o k = JStr e.
Proof.
  intros He. unfold readLiteral. rewrite let_Ok. setoid_rewrite if_negb_throw_Ok.
  setoid_rewrite readString_Ok. setoid_rewrite str_eqb_true. naive_solver.
Qed.

Lemma readBase64URLString_Ok o k s :
  readBase64URLString o k = Ok s <->
  prop o k = JStr s /\ text_within maxDraftStringBytes s /\ Base64Url.validBase64URL s = true.
Proof.
  unfold readBase64URLString. rewrite let_Ok. setoid_rewrite if_negb_throw_Ok.
  setoid_rewrite readString_Ok. setoid_rewrite validBase64URL_same. naive_solver.
Qed.

Lemma readBase64URLBytes_Ok o k n s :
  1 <= n <= 512 -> readBase64URLBytes o k n = Ok s <-> prop o k = JStr s /\ is_token n s.
Proof.
  intros Hn. unfold readBase64URLBytes. rewrite let_Ok. setoid_rewrite if_negb_throw_Ok.
  setoid_rewrite readString_Ok. setoid_rewrite validBase64URLSize_decodes; [| lia].
  pose proof (token_text_within n s Hn). naive_solver.
Qed.

Lemma readInteger_Ok o k z :
  readInteger o k = Ok z <-> prop o k = JNum (Int z) /\ 0 <= z <= maxDraftTimestamp.
Proof.
  unfold readInteger. rewrite result_of_option_Ok, bounded_integer_Some. unfold int_within, is_safe, maxDraftTimestamp, MAX_SAFE_INTEGER.
  split; intros [-> H]; (split; [done |]).
  - lia.
  - split; [apply andb_true_intro; lia | lia].
Qed.

Definition event_name (t : EventType) : jsstring :=
  match t with
  | identity_announce => js "identity.announce" | bootstrap_beacon => js "bootstrap.beacon"
  | rendezvous_offer => js "rendezvous.offer" | rendezvous_answer => js "rendezvous.answer"
  | route_update => js "route.update" | relay_announce => js "relay.announce"
  | capability_grant => js "capability.grant" | capability_revoke => js "capability.revoke"
  end.

Definition mode_name (m : PayloadMode) : jsstring :=
  match m with public_mode => js "public" | sealed_mode => js "sealed" end.

Lemma literal_within (s : jsstring) :
  negb (zlen s =? 0) && (zlen (utf8_encode s) <=? maxDraftStringBytes) = true ->
  text_within maxDraftStringBytes s.
Proof. intros. bool_props. split; [by intros -> | done]. Qed.

Lemma isKnownEventType_Some s t : isKnownEventType s = Some t <-> s = event_name t.
Proof.
  split.
  - intros H%map_get_Some_elem. unfold eventTypes in H.
    repeat (apply elem_of_cons in H as [H|H]; [injection H as -> ->; done |]). by apply elem_of_nil in H.
  - intros ->. destruct t; vm_compute; reflexivity.
Qed.

Lemma readEventType_Ok o k t : readEventType o k = Ok t <-> prop o k = JStr (event_name t).
Proof.
  unfold readEventType. rewrite let_Ok. setoid_rewrite readString_Ok.
  setoid_rewrite result_of_option_Ok. setoid_rewrite isKnownEventType_Some.
  assert (text_within maxDraftStringBytes (event_name t)) by (apply literal_within; by destruct t; vm_compute).
  naive_solver.
Qed.

Lemma readPayloadMode_Ok o k m : readPayloadMode o k = Ok m <-> prop o k = JStr (mode_name m).
Proof.
  unfold readPayloadMode. rewrite let_Ok. setoid_rewrite readString_Ok. split.
  - intros (s & (-> & _) & H). repeat case_match; simplify_eq; rewrite str_eqb_true in *; by subst.
  - intros ->. exists (mode_name m). split; [split; [done | apply literal_within] |];
      destruct m; vm_compute; reflexivity.
Qed.

Lemma readOptionalRecipientTag_Ok o k t :
  readOptionalRecipientTag o k = Ok t <->
  match t with
  | None => prop o k = JUndefined
  | Some s => prop o k = JStr s /\ (is_token 16 s \/ is_token 32 s)
  end.
Proof.
  unfold readOptionalRecipientTag, is_undefined.
  assert (Hs : forall s, text_within maxDraftStringBytes s /\ negb (validBase64URLSize s 16) && negb (validBase64URLSize s 32) = false
                 <-> is_token 16 s \/ is_token 32 s).
  { intros s. rewrite <- !validBase64URLSize_decodes by lia.
    destruct (validBase64URLSize s 16) eqn:E16; [| destruct (validBase64URLSize s 32) eqn:E32]; simpl;
      [apply validBase64URLSize_decodes, token_text_within in E16; [tauto | lia | lia]
      |apply validBase64URLSize_decodes, token_text_within in E32; [tauto | lia | lia] | naive_solver]. }
  destruct (prop o k) eqn:E; [destruct t; naive_solver | ..];
    rewrite let_Ok; setoid_rewrite if_throw_Ok; setoid_rewrite readString_Ok; rewrite E;
    destruct t; try naive_solver.
  rewrite <- Hs. split; [intros (a & (? & ?) & ? & ?); by simplify_eq | intros [? ?]; simplify_eq; naive_solver].
Qed.

(** ** The contract of the validator *)

Record envelope_wf (e : DraftEnvelope) : Prop := {
  wf_event_id : is_token 32 (event_id e);
  wf_public_key : is_token 32 (public_key (sender e));
  wf_signature : is_token 64 (signature e);
  wf_tag : forall t, recipient_tag e = Some t -> is_token 16 t \/ is_token 32 t;
  wf_tag_required : requiresRecipientTag (event_type e) = true -> recipient_tag e <> None;
  wf_payload : text_within maxDraftStringBytes (payload e) /\ Base64Url.validBase64URL (payload e) = true;
  wf_mode : validPayloadMode (event_type e) (payload_mode e) = true;
  wf_times : 0 <= created_at e /\ created_at e < expires_at e /\ expires_at e <= maxDraftTimestamp;
}.

(** The field rules of PROTOCOL_V0.md give public announcements no recipient
    tag.  The code does not look: a well-formed envelope either follows that
    rule or is a public announcement with a tag. *)
Definition documented_envelope (e : DraftEnvelope) : Prop :=
  envelope_wf e /\ (payload_mode e = public_mode -> recipient_tag e = None).

Definition tagged_announcement (e : DraftEnvelope) : Prop :=
  envelope_wf e /\ payload_mode e = public_mode /\ recipient_tag e <> None.

Lemma envelope_kinds e : envelope_wf e <-> documented_envelope e \/ tagged_announcement e.
Proof.
  unfold documented_envelope, tagged_announcement. split; [| tauto]. intros H.
  destruct (recipient_tag e) as [t|]; [| by left]. destruct (payload_mode e); [right | left]; by split.
Qed.

(** The sender and the envelope an object stands for. *)
Definition sender_object (s : object) (x : Sender) : Prop :=
  keys_within s senderKeys /\ prop s (js "key_alg") = JStr (js "ed25519")
  /\ prop s (js "public_key") = JStr (public_key x).

Record envelope_object (o : object) (e : DraftEnvelope) : Prop := {
  eo_keys : keys_within o envelopeKeys;
  eo_protocol : prop o (js "protocol") = JStr protocolID;
  eo_event_id : prop o (js "event_id") = JStr (event_id e);
  eo_type : prop o (js "type") = JStr (event_name (event_type e));
  eo_sender : exists s, prop o (js "sender") = JObj s /\ sender_object s (sender e);
  eo_tag : prop o (js "recipient_tag") = match recipient_tag e with Some t => JStr t | None => JUndefined end;
  eo_created : prop o (js "created_at") = JNum (Int (created_at e));
  eo_expires : prop o (js "expires_at") = JNum (Int (expires_at e));
  eo_mode : prop o (js "payload_mode") = JStr (mode_name (payload_mode e));
  eo_payload : prop o (js "payload") = JStr (payload e);
  eo_alg : prop o (js "signature_alg") = JStr (js "ed25519");
  eo_signature : prop o (js "signature") = JStr (signature e);
}.

Lemma readSender_Ok o k x :
  readSender o k = Ok x <->
  (exists s, prop o k = JObj s /\ sender_object s x) /\ is_token 32 (public_key x).
Proof.
  unfold readSender, sender_object. destruct (prop o k) eqn:E; try naive_solver.
  unfold rejectUnknownKeys.
  rewrite let_Ok_unit, reject_unknown_Ok, let_Ok_unit, readLiteral_Ok, let_Ok by (apply literal_within; closed).
  setoid_rewrite readBase64URLBytes_Ok; [| lia]. split.
  - intros (? & ? & pk & (? & ?) & ?). simplify_eq/=. naive_solver.
  - intros ((s & ? & ? & ? & ?) & ?). simplify_eq. destruct x. naive_solver.
Qed.

Lemma validate_envelope_Ok o e :
  validateDraftEnvelope (JObj o) = Ok e <-> envelope_object o e /\ envelope_wf e.
Proof.
  unfold validateDraftEnvelope, rejectUnknownKeys.
  rewrite let_Ok_unit, reject_unknown_Ok, let_Ok_unit, readLiteral_Ok by (apply literal_within; closed).
  split.
  - intros (Hk & Hp & H).
    step H as id Eid. step H as ty Ety. step H as s Es. step H as tag Etag. step H as c Ec.
    step H as x Ex. step H as m Em. step H as pl Epl. step H as [] Ealg. step H as sg Esg.
    rewrite !if_throw_Ok in H. destruct H as (Ht & Hr & Hm & [= <-]).
    apply readBase64URLBytes_Ok in Eid as [? ?]; [| lia]. apply readBase64URLBytes_Ok in Esg as [? ?]; [| lia].
    apply readEventType_Ok in Ety. apply readSender_Ok in Es as [? ?].
    apply readOptionalRecipientTag_Ok in Etag. apply readInteger_Ok in Ec as [? ?].
    apply readInteger_Ok in Ex as [? ?]. apply readPayloadMode_Ok in Em.
    apply readBase64URLString_Ok in Epl as (? & ? & ?).
    apply readLiteral_Ok in Ealg; [| apply literal_within; closed].
    bool_props. split; constructor; simpl; try done.
    + by destruct tag as [t|]; [destruct Etag |].
    + intros t ->. by destruct Etag.
    + intros Hrq ->. by rewrite Hrq in Hr.
    + lia.
  - intros [[] []]. split; [done |]. split; [done |].
    rewrite (proj2 (readBase64URLBytes_Ok o (js "event_id") 32 (event_id e) ltac:(lia))) by (done || lia).
    rewrite (proj2 (readEventType_Ok o (js "type") (event_type e))) by done.
    rewrite (proj2 (readSender_Ok o (js "sender") (sender e))) by done.
    rewrite (proj2 (readOptionalRecipientTag_Ok o (js "recipient_tag") (recipient_tag e)))
      by (destruct (recipient_tag e); [split; [done | by apply wf_tag0] | done]).
    rewrite (proj2 (readInteger_Ok o (js "created_at") (created_at e))) by (split; [done | lia]).
    rewrite (proj2 (readInteger_Ok o (js "expires_at") (expires_at e))) by (split; [done | lia]).
    rewrite (proj2 (readPayloadMode_Ok o (js "payload_mode") (payload_mode e))) by done.
    rewrite (proj2 (readBase64URLString_Ok o (js "payload") (payload e))) by done.
    rewrite (proj2 (readLiteral_Ok o (js "signature_alg") (js "ed25519") ltac:(apply literal_within; closed))) by done.
    rewrite (proj2 (readBase64URLBytes_Ok o (js "signature") 64 (signature e) ltac:(lia))) by (done || lia).
    rewrite !if_throw_Ok. repeat split; [lia | | by apply negb_false_iff | by destruct e].
    destruct (requiresRecipientTag (event_type e)); [| done].
    by apply bool_decide_eq_false, wf_tag_required0.
Qed.

(** C33: an envelope is accepted exactly when the value is an object with the
    eleven known keys and no other, whose fields are those of a well-formed
    envelope: tokens that decode to their exact sizes, a recipient tag where the
    event type needs one, a payload mode the type allows, an expiry after the
    creation.  These are the envelopes of the protocol documents and, besides
    them, the public announcements that carry a recipient tag, which
    PROTOCOL_V0.md says is absent there (see [announcement_tag_accepted]); the
    two kinds are disjoint.  The text decoder accepts exactly the texts of at
    most 64 KiB that parse to such a value, whatever the parser. *)
Theorem validateDraftEnvelope_spec e :
  (forall v, validateDraftEnvelope v = Ok e <->
     exists o, v = JObj o /\ envelope_object o e /\ (documented_envelope e \/ tagged_announcement e))
  /\ (forall parse text, decodeDraftEnvelopeText parse text = Ok e <->
     zlen (utf8_encode text) <= 65536
     /\ exists o, parse text = Some (JObj o) /\ envelope_object o e
                  /\ (documented_envelope e \/ tagged_announcement e))
  /\ (tagged_announcement e -> ~ documented_envelope e).
Proof.
  assert (Hv : forall v, validateDraftEnvelope v = Ok e <->
     exists o, v = JObj o /\ envelope_object o e /\ (documented_envelope e \/ tagged_announcement e)).
  { intros v. setoid_rewrite <- envelope_kinds. split.
    - destruct v; try done. intros ?%validate_envelope_Ok. eauto.
    - intros (o & -> & ?). by apply validate_envelope_Ok. }
  split; [exact Hv |]. split; [| by intros (_ & Hm & Ht) [_ Hn]; apply Ht, Hn].
  intros parse text. unfold decodeDraftEnvelopeText, maxDraftEnvelopeBytes.
  rewrite if_throw_Ok, Z.ltb_ge. destruct (parse text) as [v|]; [rewrite Hv |]; naive_solver.
Qed.

(** *** Writing an envelope *)

(** The object [JSON.stringify] sees: the fields in the order the validator
    returns them, without the absent recipient tag. *)
Definition envelope_properties (e : DraftEnvelope) : object :=
  [(js "protocol", JStr protocolID); (js "event_id", JStr (event_id e));
   (js "type", JStr (event_name (event_type e)));
   (js "sender", JObj [(js "key_alg", JStr (js "ed25519")); (js "public_key", JStr (public_key (sender e)))]);
   (js "recipient_tag", match recipient_tag e with Some t => JStr t | None => JUndefined end);
   (js "created_at", JNum (Int (created_at e))); (js "expires_at", JNum (Int (expires_at e)));
   (js "payload_mode", JStr (mode_name (payload_mode e))); (js "payload", JStr (payload e));
   (js "signature_alg", JStr (js "ed25519")); (js "signature", JStr (signature e))].

Lemma keys_within_refl (l : list jsstring) (o : object) : map_keys o = l -> keys_within o l.
Proof. intros <-. unfold keys_within. by apply Forall_forall. Qed.

Lemma envelope_properties_object e : envelope_object (envelope_properties e) e.
Proof.
  constructor; try reflexivity; [by apply keys_within_refl |].
  eexists. split; [reflexivity |]. split; [by apply keys_within_refl | done].
Qed.

(** The validator takes back every well-formed envelope it could have
    returned: validation is idempotent on its own output. *)
Theorem validated_envelope_again v e (H : validateDraftEnvelope v = Ok e) :
  validateDraftEnvelope (JObj (envelope_properties e)) = Ok e.
Proof.
  destruct v as [| | | | | |o]; try done. apply validate_envelope_Ok in H as [_ Hwf].
  apply validate_envelope_Ok. split; [apply envelope_properties_object | done].
Qed.

Definition sample_text (n : nat) : jsstring := encodeBase64URL (replicate n 7).

Definition sample_of (t : EventType) (m : PayloadMode) : DraftEnvelope :=
  mkEnvelope (sample_text 32) t (mkSender (sample_text 32)) (Some (sample_text 16))
    1000 2000 m (sample_text 40) (sample_text 64).

Definition sample_envelope : DraftEnvelope := sample_of rendezvous_offer sealed_mode.

Lemma validated_envelope_again_witness :
  validateDraftEnvelope (JObj (envelope_properties sample_envelope)) = Ok sample_envelope.
Proof.
  apply (validated_envelope_again (JObj (rev (envelope_properties sample_envelope)))).
  vm_compute. reflexivity.
Defined.

(** A beacon, a relay announcement and a public identity announcement are
    accepted with a recipient tag; a [route.update] bound to a session instead
    of a recipient, which the document allows, is refused. *)
Lemma announcement_tag_accepted :
  (forall t, t ∈ [bootstrap_beacon; relay_announce; identity_announce] ->
     validateDraftEnvelope (JObj (envelope_properties (sample_of t public_mode))) = Ok (sample_of t public_mode)
     /\ ~ documented_envelope (sample_of t public_mode))
  /\ validateDraftEnvelope (JObj (List.filter (fun p => negb (str_eqb p.1 (js "recipient_tag"))) (envelope_properties (sample_of route_update sealed_mode))))
     = Throw (js "missing recipient_tag").
Proof.
  split; [| closed]. intros t Ht. split.
  - repeat (apply elem_of_cons in Ht as [->|Ht]; [closed |]). by apply elem_of_nil in Ht.
  - by intros [_ Hn]; specialize (Hn eq_refl).
Qed.

(** Sealed event types need a recipient tag and a sealed payload, the
    public ones a public payload; no accepted envelope breaks the rule and
    every allowed pair has an accepted envelope. *)
Theorem envelope_mode_rules t m :
  (exists v e, validateDraftEnvelope v = Ok e /\ event_type e = t /\ payload_mode e = m) <->
  t = identity_announce
  \/ (t = bootstrap_beacon \/ t = relay_announce) /\ m = public_mode
  \/ requiresRecipientTag t = true /\ m = sealed_mode.
Proof.
  split.
  - intros (v & e & H & <- & <-). destruct v as [| | | | | |o]; try done.
    apply validate_envelope_Ok in H as [_ [_ _ _ _ _ _ Hm _]].
    destruct (event_type e), (payload_mode e); simpl in *; try done; auto 6.
  - intros H.
    exists (JObj (envelope_properties (sample_of t m))), (sample_of t m). split; [| done].
    destruct t, m; try (vm_compute; reflexivity); exfalso;
      destruct H as [H|[[[H|H] Hm]|[H Hm]]]; discriminate.
Qed.
