(* ===== verification/ApplicationPayload.v ===== *)
(** * [application-payload/runtime.ts] and [application-payload/capabilities.ts]

    The envelope every application payload travels in with the registry of
    known kinds, and the capability statement two endpoints exchange. *)
From S2P Require Import Prelude JsRuntime Collections Base64Url Cbor CborFacts Records Json.

(** ** Payload envelopes *)

Definition applicationPayloadVersion : jsstring := js "branch.application-payload/0.draft".
Definition maxApplicationPayloadBytes : Z := 4096.
Definition maxApplicationPayloadKindBytes : Z := 96.

Module Payload.
Record ApplicationPayloadEnvelope := mk {
  version : jsstring;
  kind : jsstring;
  messageId : jsstring;
  body : bytes;
}.
End Payload.
Abbreviation ApplicationPayloadEnvelope := Payload.ApplicationPayloadEnvelope.

Record ApplicationPayloadDescriptor := mkDescriptor {
  descriptorKind : jsstring;
  maximumBodyBytes : number;
  requiredCapability : jsstring;
}.

Inductive RegisteredApplicationPayload : Type :=
| p_accepted (envelope : ApplicationPayloadEnvelope) (descriptor : ApplicationPayloadDescriptor)
| p_unknown_kind (envelope : ApplicationPayloadEnvelope).

Definition kind_bytes_ok (s : jsstring) : bool :=
  (0 <? text_bytes s) && (text_bytes s <=? maxApplicationPayloadKindBytes).

Definition validateDescriptor (d : ApplicationPayloadDescriptor) : result unit :=
  if negb (kind_bytes_ok (descriptorKind d))
     || negb (number_in 1 maxApplicationPayloadBytes (maximumBodyBytes d))
     || negb (kind_bytes_ok (requiredCapability d))
  then Throw (js "invalid application payload descriptor") else Ok tt.

Abbreviation PayloadRegistry := (list (jsstring * ApplicationPayloadDescriptor)).

Fixpoint register_descriptors (registry : PayloadRegistry) (ds : list ApplicationPayloadDescriptor)
  : result PayloadRegistry :=
  match ds with
  | [] => Ok registry
  | d :: ds =>
      let? _ := validateDescriptor d in
      if map_has registry (descriptorKind d) then Throw (js "duplicate application payload descriptor")
      else register_descriptors (map_set registry (descriptorKind d) d) ds
  end.

Definition createApplicationPayloadRegistry (ds : list ApplicationPayloadDescriptor) : result PayloadRegistry :=
  register_descriptors [] ds.

Definition validatePayloadEnvelope (e : ApplicationPayloadEnvelope) : result unit :=
  if negb (str_eqb (Payload.version e) applicationPayloadVersion)
     || negb (kind_bytes_ok (Payload.kind e))
     || (zlen (Payload.body e) =? 0) || (maxApplicationPayloadBytes <? zlen (Payload.body e))
     || negb (validToken (Payload.messageId e) 16)
  then Throw (js "invalid application payload envelope") else Ok tt.

Definition envelopeMap (e : ApplicationPayloadEnvelope) : result CborMap :=
  let? id := decodeBase64URL (Payload.messageId e) in
  Ok [(js "version", CText (Payload.version e));
      (js "kind", CText (Payload.kind e));
      (js "message_id", CBytes id);
      (js "body", CBytes (Payload.body e))].

Definition encodeApplicationPayload (e : ApplicationPayloadEnvelope) : result bytes :=
  let? _ := validatePayloadEnvelope e in
  let? entries := envelopeMap e in
  encodeDeterministicCbor (CMap entries).

Definition readKind (map : CborMap) : result jsstring :=
  let? kind := text_field map (js "kind") in
  if maxApplicationPayloadKindBytes <? text_bytes kind then Throw (js "invalid application payload kind")
  else Ok kind.

Definition payload_names : list jsstring := [js "version"; js "kind"; js "message_id"; js "body"].

Definition decodeApplicationPayload (b : bytes) : result ApplicationPayloadEnvelope :=
  if (zlen b =? 0) || (maxApplicationPayloadBytes <? zlen b)
  then Throw (js "invalid application payload size")
  else
    let? value := decodeDeterministicCbor b maxApplicationPayloadBytes in
    let? map := readCborMap value (js "application_payload") in
    let? _ := rejectUnknownEntries map payload_names in
    let? version := text_field map (js "version") in
    if negb (str_eqb version applicationPayloadVersion)
    then Throw (js "unsupported application payload version")
    else
      let? kind := readKind map in
      let? messageId := token_field map (js "message_id") 16 in
      let? body := bytes_field map (js "body") None in
      let envelope := Payload.mk version kind messageId body in
      let? _ := validatePayloadEnvelope envelope in
      Ok envelope.

Definition classifyApplicationPayload (b : bytes) (registry : PayloadRegistry)
  : result RegisteredApplicationPayload :=
  let? envelope := decodeApplicationPayload b in
  match map_get registry (Payload.kind envelope) with
  | None => Ok (p_unknown_kind envelope)
  | Some descriptor =>
      if number_value (maximumBodyBytes descriptor) <? zlen (Payload.body envelope)
      then Throw (js "application payload body too large")
      else Ok (p_accepted envelope descriptor)
  end.

(** ** Capabilities *)

Definition maxApplicationCapabilitiesBytes : Z := 2048.
Definition maxApplicationCapabilityIdentifiers : Z := 16.
Definition maxApplicationCapabilityIdentifierBytes : Z := 96.
Definition maxApplicationCapabilityInlineBytes : Z := 3000.
Definition maxApplicationCapabilityRelayAttachmentBytes : Z := 4 * 1024 * 1024.
Definition maxApplicationCapabilityDirectAttachmentBytes : Z := 16 * 1024 * 1024.

Module AppCaps.
Record ApplicationCapabilities := mk {
  applicationVersions : list jsstring;
  kinds : list jsstring;
  maxInlineBytes : number;
  attachmentMode : jsstring;
  maxRelayAttachmentBytes : number;
  maxDirectAttachmentBytes : number;
}.
End AppCaps.
Abbreviation ApplicationCapabilities := AppCaps.ApplicationCapabilities.

(** [mode === "none" || mode === "receiver-accept"] *)
Definition is_attachment_mode (mode : jsstring) : bool :=
  str_eqb mode (js "none") || str_eqb mode (js "receiver-accept").

Definition isASCIIIdentifier (value : jsstring) : bool :=
  let b := utf8_encode value in
  (0 <? zlen b) && (zlen b <=? maxApplicationCapabilityIdentifierBytes)
  && forallb (fun byte => (0x21 <=? byte) && (byte <=? 0x7e)) b.

(** [value <= previous] on strings. *)
Definition js_leb (value previous : jsstring) : bool := negb (js_ltb previous value).

Fixpoint ordered_identifiers (previous : option jsstring) (values : list jsstring) (label : jsstring)
  : result unit :=
  match values with
  | [] => Ok tt
  | value :: values =>
      if negb (isASCIIIdentifier value)
         || match previous with Some p => js_leb value p | None => false end
      then Throw (js "invalid " ++ label)
      else ordered_identifiers (Some value) values label
  end.

Definition validateOrderedIdentifiers (values : list jsstring) (label : jsstring) : result unit :=
  if maxApplicationCapabilityIdentifiers <? zlen values then Throw (js "invalid " ++ label)
  else ordered_identifiers None values label.

Definition validateApplicationCapabilities (c : ApplicationCapabilities) : result unit :=
  let? _ := validateOrderedIdentifiers (AppCaps.applicationVersions c) (js "application versions") in
  let? _ := validateOrderedIdentifiers (AppCaps.kinds c) (js "application kinds") in
  if negb (number_in 0 maxApplicationCapabilityInlineBytes (AppCaps.maxInlineBytes c))
     || negb (number_in 0 maxApplicationCapabilityRelayAttachmentBytes (AppCaps.maxRelayAttachmentBytes c))
     || negb (number_in 0 maxApplicationCapabilityDirectAttachmentBytes (AppCaps.maxDirectAttachmentBytes c))
     || negb (is_attachment_mode (AppCaps.attachmentMode c))
  then Throw (js "invalid application capabilities") else Ok tt.

Definition applicationCapabilitiesMap (c : ApplicationCapabilities) : CborMap :=
  [(js "application_versions", CArray (CText <$> AppCaps.applicationVersions c));
   (js "kinds", CArray (CText <$> AppCaps.kinds c));
   (js "max_inline_bytes", CNum (AppCaps.maxInlineBytes c));
   (js "attachment_mode", CText (AppCaps.attachmentMode c));
   (js "max_relay_attachment_bytes", CNum (AppCaps.maxRelayAttachmentBytes c));
   (js "max_direct_attachment_bytes", CNum (AppCaps.maxDirectAttachmentBytes c))].

Definition encodeApplicationCapabilities (c : ApplicationCapabilities) : result bytes :=
  let? _ := validateApplicationCapabilities c in
  let? b := encodeDeterministicCbor (CMap (applicationCapabilitiesMap c)) in
  if maxApplicationCapabilitiesBytes <? zlen b then Throw (js "application capabilities body too large")
  else Ok b.

Definition readOrderedIdentifiers (value : CborValue) (label : jsstring) : result (list jsstring) :=
  match value with
  | CArray items =>
      if maxApplicationCapabilityIdentifiers <? zlen items then Throw (js "invalid " ++ label)
      else
        let? identifiers := map_result (fun item => readText item label) items in
        let? _ := validateOrderedIdentifiers identifiers label in
        Ok identifiers
  | _ => Throw (js "invalid " ++ label)
  end.

(** [readOrderedIdentifiers(getRequiredEntry(map, name), name)] *)
Definition identifiers_field (map : CborMap) (name : jsstring) : result (list jsstring) :=
  let? value := getRequiredEntry map name in readOrderedIdentifiers value name.

Definition application_capability_names : list jsstring :=
  [js "application_versions"; js "kinds"; js "max_inline_bytes"; js "attachment_mode";
   js "max_relay_attachment_bytes"; js "max_direct_attachment_bytes"].

Definition decodeApplicationCapabilities (b : bytes) : result ApplicationCapabilities :=
  if (zlen b =? 0) || (maxApplicationCapabilitiesBytes <? zlen b)
  then Throw (js "invalid application capabilities body size")
  else
    let? value := decodeDeterministicCbor b maxApplicationCapabilitiesBytes in
    let? map := readCborMap value (js "application_capabilities") in
    let? _ := rejectUnknownEntries map application_capability_names in
    let? mode := text_field map (js "attachment_mode") in
    let? versions := identifiers_field map (js "application_versions") in
    let? kinds := identifiers_field map (js "kinds") in
    let? inline := number_field map (js "max_inline_bytes") in
    let? mode := if is_attachment_mode mode then Ok mode else Throw (js "invalid attachment mode") in
    let? relayed := number_field map (js "max_relay_attachment_bytes") in
    let? direct := number_field map (js "max_direct_attachment_bytes") in
    let value := AppCaps.mk versions kinds (Int inline) mode (Int relayed) (Int direct) in
    let? _ := validateApplicationCapabilities value in
    Ok value.

(** ** What the codecs accept *)

Lemma sized_map_Ok {A} b names limit size_error label (k : CborMap -> result A) a :
  ((if (zlen b =? 0) || (limit <? zlen b) then Throw size_error
    else let? value := decodeDeterministicCbor b limit in
         let? map := readCborMap value label in
         let? _ := rejectUnknownEntries map names in k map) = Ok a) <->
  exists map, decodeDeterministicCbor b limit = Ok (CMap map)
    /\ rejectUnknownEntries map names = Ok tt /\ 0 < zlen b <= limit /\ k map = Ok a.
Proof.
  pose proof (zlen_nonneg b). rewrite if_throw_Ok. split.
  - intros [E H1]. bool_props. step H1 as v Ed. destruct v; try done. simpl in H1.
    step H1 as [] Eu. eexists. repeat split; try done; lia.
  - intros (map & -> & Hu & Hl & Hk). simpl. rewrite Hu. split; [| done].
    by test ((zlen b =? 0) || (limit <? zlen b)) false.
Qed.

Lemma kind_bytes_ok_true s :
  kind_bytes_ok s = true <-> s <> [] /\ zlen (utf8_encode s) <= maxApplicationPayloadKindBytes.
Proof.
  unfold kind_bytes_ok, text_bytes. rewrite andb_true_iff, Z.ltb_lt, Z.leb_le.
  pose proof (utf8_encode_nil s) as Hn. rewrite <- zlen_zero_iff in Hn. pose proof (zlen_nonneg (utf8_encode s)).
  split; intros [H1 H2]; (split; [| done]).
  - intros E%Hn. lia.
  - assert (zlen (utf8_encode s) <> 0) by tauto. lia.
Qed.

Lemma validatePayloadEnvelope_Ok e :
  validatePayloadEnvelope e = Ok tt <->
  Payload.version e = applicationPayloadVersion /\ kind_bytes_ok (Payload.kind e) = true
  /\ 0 < zlen (Payload.body e) <= maxApplicationPayloadBytes /\ validToken (Payload.messageId e) 16 = true.
Proof.
  unfold validatePayloadEnvelope. pose proof (zlen_nonneg (Payload.body e)).
  rewrite <- (str_eqb_true (Payload.version e)).
  case_match eqn:E; bool_props; (split; [intros; simplify_eq | intros]).
  - destruct_and?. guard_cases E.
  - repeat split; done || lia.
  - done.
Qed.

Lemma readKind_Ok map s :
  readKind map = Ok s <->
  map_get map (js "kind") = Some (CText s) /\ kind_bytes_ok s = true.
Proof.
  unfold readKind. rewrite let_Ok, kind_bytes_ok_true. unfold text_bytes, maxApplicationPayloadKindBytes. split.
  - intros (k & (Hg & Hne & _)%text_field_Ok & H). apply if_throw_Ok in H as [E [= ->]]. bool_props. done.
  - intros (Hg & Hne & Hl). exists s. rewrite if_throw_Ok. split; [| by test (96 <? zlen (utf8_encode s)) false].
    apply text_field_Ok. unfold maxCborTextBytes. split; [done | split; [done | lia]].
Qed.

Definition canonical_payload (e : ApplicationPayloadEnvelope) : bool :=
  canonical_token (Payload.messageId e) && plain_text (Payload.kind e)
  && bool_decide (bytes_ok (Payload.body e)).

Lemma decodeApplicationPayload_sound b e :
  bytes_ok b -> decodeApplicationPayload b = Ok e ->
  encodeApplicationPayload e = Ok b /\ canonical_payload e = true /\ zlen b <= maxApplicationPayloadBytes.
Proof.
  intros Hb H. apply sized_map_Ok in H as (es & Hd & Hu & Hl & H).
  step H as version E0. case_match eqn:Ev; [done |]. bool_props. apply str_eqb_true in Ev as ->.
  step H as kind E1. step H as id E2. step H as body E3. cbv zeta in H. step H as [] E4. injection H as <-.
  pose proof (decode_Ok _ _ _ Hb Hd) as (_ & He & _).
  apply text_field_Ok in E0 as [E0 _]. apply readKind_Ok in E1 as [E1 _].
  destruct (token_field_sound _ _ _ _ He E2) as (t & Et & Dt & Ct & _).
  destruct (bytes_field_sound _ _ _ _ He E3) as [Ec Hcb]. split; [| split; [| lia]].
  - unfold encodeApplicationPayload. rewrite E4. unfold envelopeMap. simpl. rewrite Dt.
    eapply (record_read b maxApplicationPayloadBytes es payload_names); [done | done | done | | |].
    + apply (bool_decide_eq_true_1 (NoDup _)). closed.
    + apply (bool_decide_eq_true_1 (Forall _ _)). closed.
    + apply Forall_forall. unfold payload_names. each_name; by rewrite ?E0, ?E1, ?Et, ?Ec.
  - unfold canonical_payload. simpl. rewrite Ct, bool_decide_true by done.
    by rewrite (text_sound_plain es (js "kind") kind).
Qed.

Lemma decodeApplicationPayload_complete b e :
  encodeApplicationPayload e = Ok b -> canonical_payload e = true -> zlen b <= maxApplicationPayloadBytes ->
  bytes_ok b /\ decodeApplicationPayload b = Ok e.
Proof.
  intros H Hc Hsz. unfold canonical_payload in Hc. rewrite !andb_true_iff in Hc.
  destruct Hc as ((Hct & Hk) & Hcs%bool_decide_eq_true).
  unfold encodeApplicationPayload in H. step H as [] Ev.
  pose proof Ev as (Hver & Hkind & Hl & Ht)%validatePayloadEnvelope_Ok. unfold maxApplicationPayloadBytes in Hl.
  pose proof Hkind as [Hne Hkl]%kind_bytes_ok_true. unfold maxApplicationPayloadKindBytes in Hkl.
  destruct (canonical_validToken _ 16 Hct Ht) as (t & Dt & Et & Htb & Htl).
  unfold envelopeMap in H. rewrite Dt, Hver in H.
  match type of H with encodeDeterministicCbor (CMap ?es) = _ => set (entries := es) in * end.
  assert (Hf : Forall (fun x => encodable x.2 = true /\ canon x.2 = x.2) entries).
  { each_name; (split; [| reflexivity]); cbn [snd];
      first [ apply encodable_text_iff; unfold maxCborTextBytes; split; [assumption | lia]
            | apply encodable_bytes; unfold maxCborBytes; split; [assumption | lia] | closed ]. }
  assert (He : encodable (CMap entries) = true).
  { apply encodable_entries; [vm_compute; discriminate | closed | closed |].
    eapply Forall_impl; [exact Hf |]. by intros x [? _]. }
  destruct (record_written b maxApplicationPayloadBytes payload_names entries)
    as (Hb & Hne' & es & Hd & Hu & Hg);
    [done | done | done | | apply (bool_decide_eq_true_1 (Forall _ _)); closed |].
  { eapply Forall_impl; [exact Hf |]. by intros x [_ ?]. }
  split; [done |]. pose proof (zlen_nonneg b). apply sized_map_Ok.
  exists es. split; [done |]. split; [done |]. split; [lia |].
  rewrite (proj2 (text_field_Ok es _ applicationPayloadVersion)) by (rewrite Hg; done).
  rewrite str_eqb_refl. cbn [negb]. rewrite (proj2 (readKind_Ok es (Payload.kind e))) by (rewrite Hg; done).
  read_token es Hg (Payload.messageId e) t. read_bytes es Hg.
  rewrite <- Hver. by destruct e; simpl in *; rewrite Ev.
Qed.

(** ** The registry *)

Lemma register_descriptors_Ok registry ds registry' :
  map_wf registry ->
  register_descriptors registry ds = Ok registry' <->
  Forall (fun d => validateDescriptor d = Ok tt) ds
  /\ NoDup (map_keys registry ++ (descriptorKind <$> ds))
  /\ registry' = registry ++ ((fun d => (descriptorKind d, d)) <$> ds).
Proof.
  revert registry. induction ds as [|d ds IH]; intros registry Hw; csimpl.
  { rewrite !app_nil_r. split; [intros [= ->]; by repeat constructor | intros (_ & _ & ->); done]. }
  rewrite let_Ok_unit, if_throw_Ok, Forall_cons, map_has_false.
  assert (Hkeys : map_keys (registry ++ [(descriptorKind d, d)]) = map_keys registry ++ [descriptorKind d])
    by (unfold map_keys; by rewrite fmap_app).
  split.
  - intros (Hd & Hf & H). rewrite map_set_fresh in H by done. apply IH in H as (Hds & Hn & ->).
    + rewrite Hkeys, <- !app_assoc in *. by split.
    + rewrite <- map_set_fresh by done. by apply map_set_wf.
  - intros ((Hd & Hds) & Hn & ->). pose proof Hn as (_ & Hdis & _)%NoDup_app.
    assert (Hf : descriptorKind d ∉ map_keys registry) by (intros Hx; apply (Hdis _ Hx); set_solver).
    split; [done |]. split; [done |]. rewrite map_set_fresh by done. apply IH.
    + rewrite <- map_set_fresh by done. by apply map_set_wf.
    + rewrite Hkeys, <- !app_assoc. done.
Qed.

Lemma createApplicationPayloadRegistry_Ok ds registry :
  createApplicationPayloadRegistry ds = Ok registry <->
  Forall (fun d => validateDescriptor d = Ok tt) ds /\ NoDup (descriptorKind <$> ds)
  /\ registry = (fun d => (descriptorKind d, d)) <$> ds.
Proof. unfold createApplicationPayloadRegistry. by rewrite register_descriptors_Ok by apply NoDup_nil_2. Qed.

Lemma registry_lookup ds kind d :
  NoDup (descriptorKind <$> ds) ->
  map_get ((fun d => (descriptorKind d, d)) <$> ds) kind = Some d <-> d ∈ ds /\ descriptorKind d = kind.
Proof.
  intros Hn. split.
  - intros (x & [= -> ->] & Hx)%map_get_Some_elem%list_elem_of_fmap. done.
  - intros [Hd <-]. apply elem_map_get.
    + unfold map_wf, map_keys. rewrite <- list_fmap_compose. exact Hn.
    + apply list_elem_of_fmap. by exists d.
Qed.

(** ** Ordered identifiers *)

Lemma ascii_encoded s :
  forallb (fun byte => (0x21 <=? byte) && (byte <=? 0x7e)) (utf8_encode s) = true ->
  utf8_encode s = s /\ Forall (fun u => 0x21 <= u <= 0x7e) s.
Proof.
  induction s as [|u s IH]; [done |]. cbn [utf8_encode].
  assert (Hcp : forall cp rest, cp < 0 \/ 0x80 <= cp ->
            forallb (fun byte => (0x21 <=? byte) && (byte <=? 0x7e)) (utf8_of_code_point cp ++ rest) = true -> False).
  { intros cp rest Hcp H. unfold utf8_of_code_point in H. rewrite forallb_app in H. apply andb_prop in H as [H _].
    repeat case_match; bool_props; try lia; cbn [forallb] in H; bool_props; zdiv_lia. }
  repeat case_match; intros Hb; try (exfalso; eapply (Hcp 0xFFFD []); [lia | by rewrite app_nil_r]);
    try (exfalso; eapply (Hcp 0xFFFD); [| exact Hb]; lia).
  - exfalso. eapply Hcp; [| exact Hb]. unfold code_point_of_pair, is_high_surrogate, is_low_surrogate in *. bool_props. lia.
  - destruct (Z.ltb_spec u 0x80) as [Hu|Hu]; [| exfalso; eapply Hcp; [| exact Hb]; lia].
    destruct (Z.ltb_spec u 0) as [Hn|Hn]; [exfalso; eapply Hcp; [| exact Hb]; lia |].
    unfold utf8_of_code_point in *. revert Hb. test (u <? 128) true. cbn [app forallb]. intros Hb. bool_props.
    match goal with Hr : forallb _ (utf8_encode s) = true |- _ => destruct (IH Hr) as [-> Hs] end. split; [done |]. constructor; [lia | done].
Qed.

Lemma identifier_text s :
  isASCIIIdentifier s = true -> s <> [] /\ plain_text s = true /\ zlen (utf8_encode s) <= 96.
Proof.
  unfold isASCIIIdentifier, maxApplicationCapabilityIdentifierBytes. intros H. bool_props.
  match goal with Hf : forallb _ _ = true |- _ => destruct (ascii_encoded _ Hf) as [E Hs] end.
  split; [intros ->; done |]. split; [| lia]. unfold plain_text. apply andb_true_intro. split.
  - clear - Hs. induction Hs as [|u s Hu _ IH]; [done |]. cbn [well_formed].
    test (is_high_surrogate u) false. test (is_low_surrogate u) false. rewrite IH.
    cbn [negb andb]. rewrite andb_true_r. apply andb_true_intro. lia.
  - destruct Hs as [|u s Hu _]; [done |]. unfold byte_order_mark. cbn [head].
    rewrite bool_decide_false; [done |]. intros [= E']. lia.
Qed.

Lemma ordered_identifiers_ascii previous values label :
  ordered_identifiers previous values label = Ok tt -> Forall (fun v => isASCIIIdentifier v = true) values.
Proof.
  revert previous. induction values as [|v values IH]; intros previous H; simpl in H; [constructor |].
  case_match eqn:E; [done |]. bool_props. constructor; [done | by eapply IH].
Qed.

(** The error message is the only use of the label. *)
Lemma ordered_identifiers_label previous values label label' :
  ordered_identifiers previous values label = Ok tt -> ordered_identifiers previous values label' = Ok tt.
Proof.
  revert previous. induction values as [|v values IH]; intros previous H; simpl in *; [done |].
  case_match; [done | by apply IH].
Qed.

Lemma validateOrderedIdentifiers_label values label label' :
  validateOrderedIdentifiers values label = Ok tt -> validateOrderedIdentifiers values label' = Ok tt.
Proof. unfold validateOrderedIdentifiers. case_match; [done |]. apply ordered_identifiers_label. Qed.

Lemma validateOrderedIdentifiers_texts values label :
  validateOrderedIdentifiers values label = Ok tt ->
  zlen values <= 16 /\ Forall (fun v => isASCIIIdentifier v = true) values.
Proof.
  unfold validateOrderedIdentifiers, maxApplicationCapabilityIdentifiers. case_match eqn:E; [done |].
  intros H%ordered_identifiers_ascii. bool_props. split; [lia | done].
Qed.

Lemma readText_Ok v key s :
  readText v key = Ok s <-> v = CText s /\ s <> [] /\ zlen (utf8_encode s) <= maxCborTextBytes.
Proof.
  split.
  - unfold readText. intros. repeat case_match; simplify_eq; bool_props. split; [done |]. split; [by intros -> | done].
  - intros (-> & Hs & Hz). simpl. assert (zlen s <> 0) by (rewrite zlen_zero_iff; done).
    by test ((zlen s =? 0) || (maxCborTextBytes <? zlen (utf8_encode s))) false.
Qed.

Lemma identifiers_field_Ok map name ids :
  identifiers_field map name = Ok ids <->
  map_get map name = Some (CArray (CText <$> ids)) /\ validateOrderedIdentifiers ids name = Ok tt.
Proof.
  unfold identifiers_field. rewrite let_Ok. setoid_rewrite getRequiredEntry_Ok. split.
  - intros (v & Hg & H). destruct v as [| | | |items|]; try done. simpl in H. case_match; [done |].
    step H as texts E. step H as [] Ev. injection H as ->. split; [| done]. rewrite Hg. do 2 f_equal.
    apply map_result_Ok_Forall2 in E. clear - E. induction E as [|x y l k Hx _ IH]; csimpl; [done |].
    apply readText_Ok in Hx as [-> _]. by rewrite IH.
  - intros [Hg Hv]. eexists. split; [exact Hg |]. destruct (validateOrderedIdentifiers_texts _ _ Hv) as [Hl Hids].
    simpl. unfold zlen in *. rewrite length_fmap. unfold maxApplicationCapabilityIdentifiers.
    test (16 <? Z.of_nat (length ids)) false. rewrite (proj2 (map_result_Ok_Forall2 _ _ ids)); [by rewrite Hv |].
    clear - Hids. induction Hids as [|x l Hx _ IH]; csimpl; [constructor |]. constructor; [| done].
    apply identifier_text in Hx as (Hne & _ & Hl). apply readText_Ok. unfold maxCborTextBytes. split; [done | split; [done | lia]].
Qed.

Lemma identifiers_encodable ids :
  zlen ids <= 16 -> Forall (fun v => isASCIIIdentifier v = true) ids ->
  encodable (CArray (CText <$> ids)) = true /\ canon (CArray (CText <$> ids)) = CArray (CText <$> ids).
Proof.
  intros Hl Hids. split.
  - cbn [encodable]. unfold zlen in *. rewrite length_fmap. unfold maxCborCollectionEntries.
    test (Z.of_nat (length ids) <=? 64) true. simpl. clear Hl.
    induction Hids as [|x l Hx _ IH]; csimpl; [done |]. apply identifier_text in Hx as (_ & Hp & Hl).
    unfold encodable_text, maxCborTextBytes. rewrite Hp. by test (zlen (utf8_encode x) <=? 1024) true.
  - cbn [canon]. f_equal. clear. induction ids as [|x l IH]; csimpl; [done | by rewrite IH].
Qed.

Lemma attachment_mode_text mode :
  is_attachment_mode mode = true -> mode <> [] /\ encodable (CText mode) = true /\ zlen (utf8_encode mode) <= 16.
Proof. unfold is_attachment_mode. rewrite orb_true_iff, !str_eqb_true. intros [-> | ->]; by vm_compute. Qed.

Lemma validateApplicationCapabilities_Ok c :
  validateApplicationCapabilities c = Ok tt <->
  validateOrderedIdentifiers (AppCaps.applicationVersions c) (js "application versions") = Ok tt
  /\ validateOrderedIdentifiers (AppCaps.kinds c) (js "application kinds") = Ok tt
  /\ (exists z, AppCaps.maxInlineBytes c = Int z /\ int_within 0 maxApplicationCapabilityInlineBytes z)
  /\ (exists z, AppCaps.maxRelayAttachmentBytes c = Int z
                /\ int_within 0 maxApplicationCapabilityRelayAttachmentBytes z)
  /\ (exists z, AppCaps.maxDirectAttachmentBytes c = Int z
                /\ int_within 0 maxApplicationCapabilityDirectAttachmentBytes z)
  /\ is_attachment_mode (AppCaps.attachmentMode c) = true.
Proof.
  unfold validateApplicationCapabilities. rewrite !let_Ok_unit, if_throw_Ok, !orb_false_iff, !negb_false_iff,
    !number_in_true. tauto.
Qed.

Lemma decodeApplicationCapabilities_sound b c :
  bytes_ok b -> decodeApplicationCapabilities b = Ok c -> encodeApplicationCapabilities c = Ok b.
Proof.
  intros Hb H. apply sized_map_Ok in H as (es & Hd & Hu & Hl & H).
  step H as mode E0. step H as versions E1. step H as kinds E2. step H as inline E3. step H as mode' E4.
  step H as relayed E5. step H as direct E6. cbv zeta in H. step H as [] Ev. injection H as <-.
  case_match; [| done]. injection E4 as <-.
  apply text_field_Ok in E0 as [E0 _]. apply identifiers_field_Ok in E1 as [E1 _], E2 as [E2 _].
  apply number_field_Ok in E3 as [E3 _], E5 as [E5 _], E6 as [E6 _].
  unfold encodeApplicationCapabilities. rewrite Ev. unfold applicationCapabilitiesMap.
  cbn [AppCaps.applicationVersions AppCaps.kinds AppCaps.maxInlineBytes AppCaps.attachmentMode
       AppCaps.maxRelayAttachmentBytes AppCaps.maxDirectAttachmentBytes].
  match goal with |- context [CMap ?x] => set (entries := x) end.
  assert (Henc : encodeDeterministicCbor (CMap entries) = Ok b).
  { eapply (record_read b maxApplicationCapabilitiesBytes es application_capability_names);
      [done | done | done | | |].
    - apply (bool_decide_eq_true_1 (NoDup _)). closed.
    - apply (bool_decide_eq_true_1 (Forall _ _)). closed.
    - apply Forall_forall. unfold application_capability_names.
      each_name; by rewrite ?E0, ?E1, ?E2, ?E3, ?E5, ?E6. }
  rewrite Henc. by test (maxApplicationCapabilitiesBytes <? zlen b) false.
Qed.

Lemma decodeApplicationCapabilities_complete b c :
  encodeApplicationCapabilities c = Ok b -> bytes_ok b /\ decodeApplicationCapabilities b = Ok c.
Proof.
  intros H. unfold encodeApplicationCapabilities in H. step H as [] Ev. step H as b' Henc.
  case_match eqn:Esz; [done |]. injection H as ->. bool_props.
  pose proof Ev as (Hv & Hk & (z1 & E1 & S1 & R1) & (z2 & E2 & S2 & R2) & (z3 & E3 & S3 & R3) & Hm)
    %validateApplicationCapabilities_Ok.
  destruct (validateOrderedIdentifiers_texts _ _ Hv) as [Hvl Hvi].
  destruct (validateOrderedIdentifiers_texts _ _ Hk) as [Hkl Hki].
  destruct (identifiers_encodable _ Hvl Hvi) as [Ve Vc], (identifiers_encodable _ Hkl Hki) as [Ke Kc].
  destruct (attachment_mode_text _ Hm) as (Mn & Me & Ml).
  unfold applicationCapabilitiesMap in Henc. rewrite E1, E2, E3 in Henc.
  match type of Henc with encodeDeterministicCbor (CMap ?es) = _ => set (entries := es) in * end.
  assert (Hf : Forall (fun x => encodable x.2 = true /\ canon x.2 = x.2) entries).
  { each_name; cbn [snd]; first [ by split | split; [apply encodable_num; split; [assumption | lia] | reflexivity]]. }
  assert (He : encodable (CMap entries) = true).
  { apply encodable_entries; [vm_compute; discriminate | closed | closed |].
    eapply Forall_impl; [exact Hf |]. by intros x [? _]. }
  destruct (record_written b maxApplicationCapabilitiesBytes application_capability_names entries)
    as (Hb & Hne & es & Hd & Hu & Hg);
    [done | done | done | | apply (bool_decide_eq_true_1 (Forall _ _)); closed |].
  { eapply Forall_impl; [exact Hf |]. by intros x [_ ?]. }
  split; [done |]. pose proof (zlen_nonneg b). apply sized_map_Ok.
  exists es. split; [done |]. split; [done |]. split; [lia |].
  rewrite (proj2 (text_field_Ok es _ (AppCaps.attachmentMode c)))
    by (rewrite Hg; unfold maxCborTextBytes; split; [done | split; [done | lia]]).
  rewrite (proj2 (identifiers_field_Ok es _ (AppCaps.applicationVersions c)))
    by (rewrite Hg; split; [done | by eapply validateOrderedIdentifiers_label]).
  rewrite (proj2 (identifiers_field_Ok es _ (AppCaps.kinds c)))
    by (rewrite Hg; split; [done | by eapply validateOrderedIdentifiers_label]).
  rewrite Hm.
  rewrite (proj2 (number_field_Ok es _ z1)) by (rewrite Hg; split; [done | split; [done | lia]]).
  rewrite (proj2 (number_field_Ok es _ z2)) by (rewrite Hg; split; [done | split; [done | lia]]).
  rewrite (proj2 (number_field_Ok es _ z3)) by (rewrite Hg; split; [done | split; [done | lia]]).
  cbv zeta. rewrite <- E1, <- E2, <- E3. by destruct c; simpl in *; rewrite Ev.
Qed.

(** ** Properties *)


(** classification follows the registry: a payload is accepted exactly when
    it decodes, its kind was registered and its body is within that descriptor's
    limit; it is reported as unknown exactly when it decodes and no descriptor
    has its kind; a body over the limit is an error.  A registry exists exactly
    for valid descriptors of distinct kinds. *)
Theorem classify_spec ds b e d :
  ((exists registry, createApplicationPayloadRegistry ds = Ok registry) <->
   Forall (fun d => validateDescriptor d = Ok tt) ds /\ NoDup (descriptorKind <$> ds))
  /\ forall registry, createApplicationPayloadRegistry ds = Ok registry ->
     (classifyApplicationPayload b registry = Ok (p_accepted e d) <->
      decodeApplicationPayload b = Ok e /\ d ∈ ds /\ descriptorKind d = Payload.kind e
      /\ zlen (Payload.body e) <= number_value (maximumBodyBytes d))
     /\ (classifyApplicationPayload b registry = Ok (p_unknown_kind e) <->
         decodeApplicationPayload b = Ok e /\ Payload.kind e ∉ descriptorKind <$> ds).
Proof.
  split.
  { setoid_rewrite createApplicationPayloadRegistry_Ok. naive_solver. }
  intros registry (Hv & Hn & ->)%createApplicationPayloadRegistry_Ok. unfold classifyApplicationPayload.
  destruct (decodeApplicationPayload b) as [e'|]; [| split; split; intros H; by destruct_and?].
  pose proof (registry_lookup ds (Payload.kind e')) as Hl.
  destruct (map_get _ (Payload.kind e')) as [d'|] eqn:Eg; split.
  - specialize (Hl d' Hn). destruct (proj1 Hl eq_refl) as [Hd Hk]. rewrite if_throw_Ok, Z.ltb_ge. split.
    + intros [Hb [= -> ->]]. done.
    + intros ([= ->] & Hd' & Hk' & Hb). assert (Some d' = Some d) as [= ->]; [| done].
      rewrite <- Eg. by apply registry_lookup.
  - specialize (Hl d' Hn). destruct (proj1 Hl eq_refl) as [Hd Hk]. split; [by case_match |].
    intros ([= ->] & Hno). exfalso. apply Hno. rewrite <- Hk. by apply list_elem_of_fmap_2.
  - split; [done |]. intros ([= ->] & Hd & Hk & _). destruct (Hl d Hn) as [_ Hx]. by discriminate Hx.
  - split; [| intros [[= ->] _]; done]. intros [= ->]. split; [done |].
    intros (x & Hk & Hx)%list_elem_of_fmap. destruct (Hl x Hn) as [_ Hy]. by discriminate Hy.
Qed.

Definition large_payload : ApplicationPayloadEnvelope :=
  Payload.mk applicationPayloadVersion (js "branch.chat.text/0.draft") (replicate 22 65) (replicate 4096 1).

(** The encoder accepts a body of 4096 bytes, whose encoding no decoder takes. *)
Lemma payload_too_large :
  match encodeApplicationPayload large_payload with
  | Ok b => decodeApplicationPayload b = Throw (js "invalid application payload size")
  | Throw _ => False
  end.
Proof. closed. Qed.
