(* ===== verification/ApplicationControl.v ===== *)
(** * [application-control/runtime.ts]: signed application controls

    Controls are small records of one endpoint for another, carried beside the
    messages.  The endpoint's ports (contacts, policy, signature verification,
    the memory of controls seen, the rate limiter) are parameters: the two
    stateful ones are interfaces, [ControlMemory] and [RateLimiter], threaded as
    state.  [processApplicationControl] is cut at its one [await], the signature
    verification, whose outcome [resume_control] receives; [call_step] lets such
    halves of several calls interleave on one memory.  Times are integers: any
    other number is refused by [encodeUnsigned], and none is ever decoded. *)
From S2P Require Import Prelude JsRuntime Collections Base64Url Cbor CborFacts Records Json ApplicationPayload.

Definition applicationControlWireVersion : jsstring := js "branch.application-control/0.draft".
Definition applicationControlSignatureDomain : jsstring := js "branch.application-control.signature/0.draft".
Definition maxControlBytes : Z := 4096.
Definition maxControlKindBytes : Z := 96.
Definition maxControlBodyBytes : Z := 2048.

Inductive ApplicationControlAuthentication : Type := auth_none | auth_ed25519.
Inductive ApplicationControlProjection : Type := proj_ephemeral | proj_message_metadata.
Inductive ApplicationControlEffectKind : Type :=
| k_ephemeral_projection | k_message_metadata | k_outbound_control.

#[export] Instance effect_kind_eq_dec : EqDecision ApplicationControlEffectKind.
Proof. solve_decision. Defined.

Module Control.
Record ApplicationControlEnvelope := mk {
  version : jsstring;
  kind : jsstring;
  controlId : jsstring;
  issuedAt : Z;
  expiresAt : Z;
  senderPeerId : jsstring;
  recipientPeerId : jsstring;
  body : bytes;
  signature : bytes;
}.
End Control.
Abbreviation ApplicationControlEnvelope := Control.ApplicationControlEnvelope.

Inductive ApplicationControlEffect : Type :=
| e_ephemeral_projection (projection : jsstring) (value : bytes) (expiresAt : Z)
| e_message_metadata (deliveryId : jsstring) (state : jsstring)
| e_outbound_control (controlKind : jsstring) (body : bytes) (expiresAt : Z).

Definition effect_kind (e : ApplicationControlEffect) : ApplicationControlEffectKind :=
  match e with
  | e_ephemeral_projection _ _ _ => k_ephemeral_projection
  | e_message_metadata _ _ => k_message_metadata
  | e_outbound_control _ _ _ => k_outbound_control
  end.

Inductive ApplicationControlRejection : Type :=
| j_malformed | j_unknown_kind | j_recipient_mismatch | j_unknown_contact | j_expired
| j_future_issued | j_ttl_exceeded | j_replay | j_policy_denied | j_signature_invalid
| j_body_invalid | j_effect_forbidden.

Inductive ApplicationControlResult : Type :=
| control_accepted (effects : list ApplicationControlEffect)
| control_rejected (reason : ApplicationControlRejection).

(** ** The wire format *)

Definition requireBase64URLBytes (value : jsstring) (size : Z) (label : jsstring) : result jsstring :=
  if negb (validToken value size) then Throw (js "invalid " ++ label) else Ok value.

Definition boundedBody (value : bytes) : result bytes :=
  if (zlen value =? 0) || (maxControlBodyBytes <? zlen value)
  then Throw (js "invalid application control body") else Ok value.

Definition readBytesOrEmpty (value : CborValue) (label : jsstring) : result bytes :=
  match value with
  | CBytes b => if 64 <? zlen b then Throw (js "invalid " ++ label) else Ok b
  | _ => Throw (js "invalid " ++ label)
  end.

Definition readControlVersion (map : CborMap) : result jsstring :=
  let? text := text_field map (js "version") in
  if negb (str_eqb text applicationControlWireVersion)
  then Throw (js "unsupported application control version")
  else Ok applicationControlWireVersion.

Definition readControlKind (map : CborMap) : result jsstring :=
  let? kind := text_field map (js "kind") in
  if maxControlKindBytes <? text_bytes kind then Throw (js "invalid application control kind")
  else Ok kind.

Definition validateControl (e : ApplicationControlEnvelope) : result unit :=
  if negb (str_eqb (Control.version e) applicationControlWireVersion)
     || (text_bytes (Control.kind e) =? 0) || (maxControlKindBytes <? text_bytes (Control.kind e))
     || (Control.expiresAt e <=? Control.issuedAt e)
  then Throw (js "invalid application control envelope")
  else
    let? _ := requireBase64URLBytes (Control.controlId e) 16 (js "control id") in
    let? _ := requireBase64URLBytes (Control.senderPeerId e) 32 (js "sender peer id") in
    let? _ := requireBase64URLBytes (Control.recipientPeerId e) 32 (js "recipient peer id") in
    let? _ := boundedBody (Control.body e) in
    if negb (zlen (Control.signature e) =? 0) && negb (zlen (Control.signature e) =? 64)
    then Throw (js "invalid application control signature") else Ok tt.

Definition controlMap (e : ApplicationControlEnvelope) (includeSignature : bool) : result CborMap :=
  let? id := decodeBase64URL (Control.controlId e) in
  let? sender := decodeBase64URL (Control.senderPeerId e) in
  let? recipient := decodeBase64URL (Control.recipientPeerId e) in
  Ok ([(js "version", CText (Control.version e));
       (js "kind", CText (Control.kind e));
       (js "control_id", CBytes id);
       (js "issued_at", CNum (Int (Control.issuedAt e)));
       (js "expires_at", CNum (Int (Control.expiresAt e)));
       (js "sender_peer_id", CBytes sender);
       (js "recipient_peer_id", CBytes recipient);
       (js "body", CBytes (Control.body e))]
      ++ if includeSignature then [(js "signature", CBytes (Control.signature e))] else []).

Definition encodeApplicationControl (e : ApplicationControlEnvelope) : result bytes :=
  let? _ := validateControl e in
  let? entries := controlMap e true in
  encodeDeterministicCbor (CMap entries).

Definition applicationControlSigningBytes (e : ApplicationControlEnvelope) : result bytes :=
  let prefix := utf8_encode (applicationControlSignatureDomain ++ [0]) in
  let? entries := controlMap e false in
  let? body := encodeDeterministicCbor (CMap entries) in
  Ok (prefix ++ body).

Definition control_names : list jsstring :=
  [js "version"; js "kind"; js "control_id"; js "issued_at"; js "expires_at"; js "sender_peer_id";
   js "recipient_peer_id"; js "body"; js "signature"].

Definition decodeApplicationControl (b : bytes) : result ApplicationControlEnvelope :=
  if (zlen b =? 0) || (maxControlBytes <? zlen b) then Throw (js "invalid application control size")
  else
    let? value := decodeDeterministicCbor b maxControlBytes in
    let? map := readCborMap value (js "application_control") in
    let? _ := rejectUnknownEntries map control_names in
    let? version := readControlVersion map in
    let? kind := readControlKind map in
    let? controlId := token_field map (js "control_id") 16 in
    let? issuedAt := number_field map (js "issued_at") in
    let? expiresAt := number_field map (js "expires_at") in
    let? senderPeerId := token_field map (js "sender_peer_id") 32 in
    let? recipientPeerId := token_field map (js "recipient_peer_id") 32 in
    let? value := bytes_field map (js "body") None in
    let? body := boundedBody value in
    let? value := getRequiredEntry map (js "signature") in
    let? signature := readBytesOrEmpty value (js "signature") in
    let envelope := Control.mk version kind controlId issuedAt expiresAt senderPeerId recipientPeerId
                      body signature in
    let? _ := validateControl envelope in
    Ok envelope.

(** ** Effects *)

Definition effect_bounded (envelopeExpiry : Z) (e : ApplicationControlEffect) : bool :=
  match e with
  | e_ephemeral_projection projection value expiresAt =>
      (0 <? zlen projection) && (zlen value <=? maxControlBodyBytes)
      && (0 <? expiresAt) && (expiresAt <=? envelopeExpiry)
  | e_message_metadata deliveryId state =>
      validToken deliveryId 16 && (0 <? zlen state) && (zlen state <=? 64)
  | e_outbound_control controlKind body expiresAt =>
      (0 <? zlen controlKind) && (zlen controlKind <=? maxControlKindBytes)
      && (zlen body <=? maxControlBodyBytes) && (0 <? expiresAt) && (expiresAt <=? envelopeExpiry)
  end.

Definition effectsAreBounded (effects : list ApplicationControlEffect) (envelopeExpiry : Z) : bool :=
  (zlen effects <=? 4) && forallb (effect_bounded envelopeExpiry) effects.

(** ** The endpoint's state *)

(** The memory of controls seen: what is remembered is seen, and remembering
    another control forgets none.  Only the owner of the memory forgets. *)
Class ControlMemory (S : Type) := {
  hasSeenControl : S -> jsstring -> bool;
  rememberControl : S -> jsstring -> Z -> S;
  remembered_is_seen s id expiresAt : hasSeenControl (rememberControl s id expiresAt) id = true;
  seen_stays_seen s id other expiresAt :
    hasSeenControl s id = true -> hasSeenControl (rememberControl s other expiresAt) id = true;
}.

(** The rate limiter: whether one more control may go out, and its next state. *)
Class RateLimiter (S : Type) := {
  consumeRateLimit : S -> jsstring -> jsstring -> Z -> bool * S;
}.

Record ApplicationControlPorts := mkPorts {
  localPeerId : jsstring;
  isKnownContact : jsstring -> bool;
  isAllowed : jsstring -> jsstring -> bool;
  maxClockSkewMs : Z;
}.

Section Runtime.
Context {Body : Type}.

Record ApplicationControlDescriptor := mkControlDescriptor {
  controlDescriptorKind : jsstring;
  authentication : ApplicationControlAuthentication;
  maximumTTLms : number;
  projection : ApplicationControlProjection;
  allowedEffects : list ApplicationControlEffectKind;
  decodeBody : bytes -> result Body;
  encodeBody : Body -> result bytes;
  reduce : ApplicationControlEnvelope -> Body -> result (list ApplicationControlEffect);
}.

Definition validateControlDescriptor (d : ApplicationControlDescriptor) : result unit :=
  if (text_bytes (controlDescriptorKind d) =? 0) || (maxControlKindBytes <? text_bytes (controlDescriptorKind d))
     || negb (number_in 1 MAX_SAFE_INTEGER (maximumTTLms d))
  then Throw (js "invalid application control descriptor") else Ok tt.

Abbreviation ControlRegistry := (list (jsstring * ApplicationControlDescriptor)).

Fixpoint register_controls (registry : ControlRegistry) (ds : list ApplicationControlDescriptor)
  : result ControlRegistry :=
  match ds with
  | [] => Ok registry
  | d :: ds =>
      let? _ := validateControlDescriptor d in
      if map_has registry (controlDescriptorKind d)
      then Throw (js "duplicate application control descriptor")
      else register_controls (map_set registry (controlDescriptorKind d) d) ds
  end.

Definition createApplicationControlRegistry (ds : list ApplicationControlDescriptor) : result ControlRegistry :=
  register_controls [] ds.

Section Processing.
Context {S : Type} `{ControlMemory S}.

(** Up to the [await]: rejected, or waiting for the verification of a
    signature, or, without authentication, ready for the body. *)
Inductive control_progress : Type :=
| cp_rejected (reason : ApplicationControlRejection)
| cp_verifying (envelope : ApplicationControlEnvelope) (d : ApplicationControlDescriptor) (input : bytes)
| cp_ready (envelope : ApplicationControlEnvelope) (d : ApplicationControlDescriptor).

Definition start_control (b : bytes) (registry : ControlRegistry) (ports : ApplicationControlPorts)
    (now : Z) (memory : S) : result control_progress :=
  match decodeApplicationControl b with
  | Throw _ => Ok (cp_rejected j_malformed)
  | Ok e =>
    match map_get registry (Control.kind e) with
    | None => Ok (cp_rejected j_unknown_kind)
    | Some d =>
        if negb (str_eqb (Control.recipientPeerId e) (localPeerId ports))
        then Ok (cp_rejected j_recipient_mismatch)
        else if negb (isKnownContact ports (Control.senderPeerId e)) then Ok (cp_rejected j_unknown_contact)
        else if Control.expiresAt e <=? now then Ok (cp_rejected j_expired)
        else if now + maxClockSkewMs ports <? Control.issuedAt e then Ok (cp_rejected j_future_issued)
        else if number_value (maximumTTLms d) <? Control.expiresAt e - Control.issuedAt e
        then Ok (cp_rejected j_ttl_exceeded)
        else if hasSeenControl memory (Control.controlId e) then Ok (cp_rejected j_replay)
        else if negb (isAllowed ports (Control.kind e) (Control.senderPeerId e))
        then Ok (cp_rejected j_policy_denied)
        else match authentication d with
        | auth_ed25519 =>
            let? input := applicationControlSigningBytes e in Ok (cp_verifying e d input)
        | auth_none =>
            if negb (zlen (Control.signature e) =? 0) then Ok (cp_rejected j_signature_invalid)
            else Ok (cp_ready e d)
        end
    end
  end.

(** From the body on. *)
Definition finish_control (e : ApplicationControlEnvelope) (d : ApplicationControlDescriptor) (memory : S)
  : result ApplicationControlResult * S :=
  match decodeBody d (Control.body e) with
  | Throw _ => (Ok (control_rejected j_body_invalid), memory)
  | Ok body =>
      match reduce d e body with
      | Throw message => (Throw message, memory)
      | Ok effects =>
          if negb (forallb (fun x => bool_decide (effect_kind x ∈ allowedEffects d)) effects)
             || negb (effectsAreBounded effects (Control.expiresAt e))
          then (Ok (control_rejected j_effect_forbidden), memory)
          else (Ok (control_accepted effects), rememberControl memory (Control.controlId e) (Control.expiresAt e))
      end
  end.

(** The verification port settled: with its verdict, or with an error. *)
Definition resume_control (e : ApplicationControlEnvelope) (d : ApplicationControlDescriptor)
    (verdict : result bool) (memory : S) : result ApplicationControlResult * S :=
  match verdict with
  | Throw message => (Throw message, memory)
  | Ok false => (Ok (control_rejected j_signature_invalid), memory)
  | Ok true => finish_control e d memory
  end.

(** One call on its own: nothing else runs during the verification. *)
Definition processApplicationControl (verifyEd25519 : jsstring -> bytes -> bytes -> result bool)
    (b : bytes) (registry : ControlRegistry) (ports : ApplicationControlPorts) (now : Z) (memory : S)
  : result ApplicationControlResult * S :=
  match start_control b registry ports now memory with
  | Throw message => (Throw message, memory)
  | Ok (cp_rejected reason) => (Ok (control_rejected reason), memory)
  | Ok (cp_ready e d) => finish_control e d memory
  | Ok (cp_verifying e d input) =>
      resume_control e d (verifyEd25519 (Control.senderPeerId e) input (Control.signature e)) memory
  end.

(** *** Calls that overlap

    Between the two halves of a call, while its signature is verified, other
    calls start and finish on the same memory, and the owner of the memory
    changes it. *)

Record ControlCalls := mkCalls {
  calls_memory : S;
  calls_waiting : list (ApplicationControlEnvelope * ApplicationControlDescriptor);
}.

Inductive control_event : Type :=
| ce_start (b : bytes) (registry : ControlRegistry) (ports : ApplicationControlPorts) (now : Z)
| ce_settle (i : nat) (verdict : result bool)
| ce_owner (f : S -> S).

(** A call ends: its result is only looked at for the control it accepts. *)
Definition call_ends (e : ApplicationControlEnvelope) (r : result ApplicationControlResult * S)
    (waiting : list (ApplicationControlEnvelope * ApplicationControlDescriptor))
  : ControlCalls * option (ApplicationControlEnvelope * list ApplicationControlEffect) :=
  (mkCalls r.2 waiting, match r.1 with Ok (control_accepted effects) => Some (e, effects) | _ => None end).

Definition call_step (ev : control_event) (st : ControlCalls)
  : ControlCalls * option (ApplicationControlEnvelope * list ApplicationControlEffect) :=
  match ev with
  | ce_start b registry ports now =>
      match start_control b registry ports now (calls_memory st) with
      | Throw _ | Ok (cp_rejected _) => (st, None)
      | Ok (cp_verifying e d _) => (mkCalls (calls_memory st) (calls_waiting st ++ [(e, d)]), None)
      | Ok (cp_ready e d) => call_ends e (finish_control e d (calls_memory st)) (calls_waiting st)
      end
  | ce_settle i verdict =>
      match calls_waiting st !! i with
      | None => (st, None)
      | Some (e, d) =>
          call_ends e (resume_control e d verdict (calls_memory st)) (delete i (calls_waiting st))
      end
  | ce_owner f => (mkCalls (f (calls_memory st)) (calls_waiting st), None)
  end.

(** The controls accepted by a history, and the state after it. *)
Fixpoint call_run (evs : list control_event) (st : ControlCalls)
  : ControlCalls * list (ApplicationControlEnvelope * list ApplicationControlEffect) :=
  match evs with
  | [] => (st, [])
  | ev :: evs =>
      let '(st, accepted) := call_step ev st in
      let '(st, rest) := call_run evs st in
      (st, match accepted with Some x => x :: rest | None => rest end)
  end.
End Processing.

(** ** Outbound controls *)

Record OutboundApplicationControl := mkOutbound {
  outboundKind : jsstring;
  outboundControlId : jsstring;
  outboundIssuedAt : Z;
  outboundExpiresAt : Z;
  outboundSender : jsstring;
  outboundRecipient : jsstring;
  outboundBody : Body;
}.

(** The result has no signature yet; the field is empty. *)
Definition prepareOutboundApplicationControl {L} `{RateLimiter L} (c : OutboundApplicationControl)
    (d : ApplicationControlDescriptor) (ports : ApplicationControlPorts) (now : Z) (limiter : L)
  : result ApplicationControlEnvelope * L :=
  let checked :=
    let? _ := validateControlDescriptor d in
    if negb (str_eqb (outboundKind c) (controlDescriptorKind d))
       || negb (str_eqb (outboundSender c) (localPeerId ports))
       || negb (isKnownContact ports (outboundRecipient c))
       || negb (isAllowed ports (controlDescriptorKind d) (outboundRecipient c))
    then Throw (js "application control outbound policy denied")
    else
      let? id := requireBase64URLBytes (outboundControlId c) 16 (js "control id") in
      let? sender := requireBase64URLBytes (outboundSender c) 32 (js "sender peer id") in
      let? recipient := requireBase64URLBytes (outboundRecipient c) 32 (js "recipient peer id") in
      let? encoded := encodeBody d (outboundBody c) in
      let? body := boundedBody encoded in
      let envelope := Control.mk applicationControlWireVersion (controlDescriptorKind d) id
                        (outboundIssuedAt c) (outboundExpiresAt c) sender recipient body [] in
      if (now + maxClockSkewMs ports <? Control.issuedAt envelope)
         || (Control.expiresAt envelope <=? now)
         || (number_value (maximumTTLms d) <? Control.expiresAt envelope - Control.issuedAt envelope)
      then Throw (js "invalid application control lifetime")
      else Ok envelope in
  match checked with
  | Throw message => (Throw message, limiter)
  | Ok envelope =>
      let '(granted, limiter) :=
        consumeRateLimit limiter (controlDescriptorKind d) (Control.recipientPeerId envelope) now in
      if negb granted then (Throw (js "application control rate limited"), limiter)
      else (Ok envelope, limiter)
  end.
End Runtime.
