(* ===== verification/ApplicationControlFacts.v ===== *)
(** * [application-control/runtime.ts]: properties

    The codec, what an accepted control guarantees, replays in histories of
    overlapping calls, and the path of a control from the sender's preparation to the recipient's decoder. *)
From S2P Require Import Prelude JsRuntime Collections Base64Url Cbor CborFacts Records Json ApplicationPayload ApplicationControl.

(** ** Checks *)

Lemma requireBase64URLBytes_Ok v n label t :
  requireBase64URLBytes v n label = Ok t <-> validToken v n = true /\ t = v.
Proof. unfold requireBase64URLBytes. rewrite if_negb_throw_Ok. naive_solver. Qed.

Lemma boundedBody_Ok v t :
  boundedBody v = Ok t <-> 0 < zlen v <= maxControlBodyBytes /\ t = v.
Proof.
  unfold boundedBody. rewrite if_throw_Ok. pose proof (zlen_nonneg v). split.
  - intros [E [= ->]]. bool_props. split; [lia | done].
  - intros [Hl ->]. split; [| done]. apply orb_false_intro; lia.
Qed.

Lemma validateControl_Ok e :
  validateControl e = Ok tt <->
  Control.version e = applicationControlWireVersion
  /\ (Control.kind e <> [] /\ zlen (utf8_encode (Control.kind e)) <= maxControlKindBytes)
  /\ Control.issuedAt e < Control.expiresAt e
  /\ validToken (Control.controlId e) 16 = true /\ validToken (Control.senderPeerId e) 32 = true
  /\ validToken (Control.recipientPeerId e) 32 = true
  /\ 0 < zlen (Control.body e) <= maxControlBodyBytes
  /\ (zlen (Control.signature e) = 0 \/ zlen (Control.signature e) = 64).
Proof.
  unfold validateControl. rewrite if_throw_Ok.
  assert (Hk : (text_bytes (Control.kind e) =? 0) = false <-> Control.kind e <> []).
  { unfold text_bytes. rewrite Z.eqb_neq, zlen_zero_iff, utf8_encode_nil. done. }
  rewrite !orb_false_iff, negb_false_iff, str_eqb_true, Hk, Z.ltb_ge, Z.leb_gt. unfold text_bytes. split.
  - intros [(((Hv & Hn) & Hl) & Ht) H]. step H as t1 E1. step H as t2 E2. step H as t3 E3. step H as t4 E4.
    apply requireBase64URLBytes_Ok in E1 as [E1 _], E2 as [E2 _], E3 as [E3 _]. apply boundedBody_Ok in E4 as [E4 _].
    apply if_throw_Ok in H as [Hs _]. rewrite andb_false_iff, !negb_false_iff, !Z.eqb_eq in Hs. done.
  - intros (Hv & (Hn & Hl) & Ht & E1 & E2 & E3 & E4 & Hs). split; [done |].
    rewrite (proj2 (requireBase64URLBytes_Ok _ 16 _ _) (conj E1 eq_refl)).
    rewrite (proj2 (requireBase64URLBytes_Ok (Control.senderPeerId e) 32 _ _) (conj E2 eq_refl)).
    rewrite (proj2 (requireBase64URLBytes_Ok (Control.recipientPeerId e) 32 _ _) (conj E3 eq_refl)).
    rewrite (proj2 (boundedBody_Ok _ _) (conj E4 eq_refl)). apply if_throw_Ok. split; [| done].
    rewrite andb_false_iff, !negb_false_iff, !Z.eqb_eq. done.
Qed.

(** ** The codec *)

Definition canonical_control (e : ApplicationControlEnvelope) : bool :=
  canonical_token (Control.controlId e) && canonical_token (Control.senderPeerId e)
  && canonical_token (Control.recipientPeerId e) && plain_text (Control.kind e)
  && bool_decide (bytes_ok (Control.body e)) && bool_decide (bytes_ok (Control.signature e)).

Definition times_ok (e : ApplicationControlEnvelope) : Prop :=
  (is_safe (Control.issuedAt e) = true /\ 0 <= Control.issuedAt e)
  /\ is_safe (Control.expiresAt e) = true /\ 0 <= Control.expiresAt e.

(** The entries of a control, given its decoded tokens. *)
Definition control_entries (e : ApplicationControlEnvelope) (id sender recipient : bytes) (sg : bool) : CborMap :=
  [(js "version", CText (Control.version e));
   (js "kind", CText (Control.kind e));
   (js "control_id", CBytes id);
   (js "issued_at", CNum (Int (Control.issuedAt e)));
   (js "expires_at", CNum (Int (Control.expiresAt e)));
   (js "sender_peer_id", CBytes sender);
   (js "recipient_peer_id", CBytes recipient);
   (js "body", CBytes (Control.body e))]
  ++ if sg then [(js "signature", CBytes (Control.signature e))] else [].

Lemma controlMap_canonical e sg :
  validateControl e = Ok tt -> canonical_control e = true ->
  exists id sender recipient,
    controlMap e sg = Ok (control_entries e id sender recipient sg)
    /\ (encodeBase64URL id = Control.controlId e /\ bytes_ok id /\ zlen id = 16)
    /\ (encodeBase64URL sender = Control.senderPeerId e /\ bytes_ok sender /\ zlen sender = 32)
    /\ (encodeBase64URL recipient = Control.recipientPeerId e /\ bytes_ok recipient /\ zlen recipient = 32).
Proof.
  intros (_ & _ & _ & Hi & Hs & Hr & _)%validateControl_Ok Hc. unfold canonical_control in Hc. bool_props.
  destruct (canonical_validToken (Control.controlId e) 16) as (i & Di & Ei & Hib & Hil); [done.. |].
  destruct (canonical_validToken (Control.senderPeerId e) 32) as (s & Ds & Es & Hsb & Hsl); [done.. |].
  destruct (canonical_validToken (Control.recipientPeerId e) 32) as (r & Dr & Er & Hrb & Hrl); [done.. |].
  exists i, s, r. unfold controlMap. by rewrite Di, Ds, Dr.
Qed.

Lemma control_entries_encodable e id sender recipient sg :
  validateControl e = Ok tt -> canonical_control e = true -> times_ok e ->
  bytes_ok id /\ zlen id = 16 -> bytes_ok sender /\ zlen sender = 32 -> bytes_ok recipient /\ zlen recipient = 32 ->
  let es := control_entries e id sender recipient sg in
  encodable (CMap es) = true /\ Forall (fun x => canon x.2 = x.2) es
  /\ zlen (enc (CMap es)) <= maxControlBytes.
Proof.
  intros (Hv & (Hn & Hk) & _ & _ & _ & _ & Hb & Hg)%validateControl_Ok Hc ((Hi1 & Hi2) & He1 & He2)
    [Hib Hil] [Hsb Hsl] [Hrb Hrl] es.
  unfold canonical_control in Hc. bool_props. unfold maxControlKindBytes, maxControlBodyBytes in *.
  assert (Hf : Forall (fun x => encodable x.2 = true /\ canon x.2 = x.2) es).
  { subst es. unfold control_entries. rewrite Hv. destruct sg; each_name; cbn [snd]; (split; [| reflexivity]);
      first [ by apply encodable_num | apply encodable_bytes; unfold maxCborBytes; split; [assumption | lia]
            | apply encodable_text_iff; unfold maxCborTextBytes; split; [assumption | lia] | closed ]. }
  assert (He : encodable (CMap es) = true).
  { apply encodable_entries; [by destruct sg | by destruct sg; closed | by destruct sg; closed |].
    eapply Forall_impl; [exact Hf |]. by intros x [? _]. }
  split; [done |]. split; [eapply Forall_impl; [exact Hf |]; by intros x [_ ?] |].
  pose proof (record_size es _ He (encode_total _ He)) as Hs.
  assert (sum_lengths entry_size es <= 3000); [| unfold maxControlBytes; lia].
  subst es. unfold control_entries. rewrite Hv. pose proof (zlen_nonneg (Control.signature e)).
  destruct sg; cbn [app]; entry_sizes; change (zlen (utf8_encode applicationControlWireVersion)) with 34; lia.
Qed.

Lemma readControlVersion_Ok map v :
  readControlVersion map = Ok v <->
  map_get map (js "version") = Some (CText applicationControlWireVersion) /\ v = applicationControlWireVersion.
Proof.
  unfold readControlVersion. rewrite let_Ok. setoid_rewrite if_negb_throw_Ok. setoid_rewrite str_eqb_true.
  setoid_rewrite text_field_Ok. split.
  - intros (t & (Hg & _) & -> & [= <-]). done.
  - intros (Hg & ->). exists applicationControlWireVersion. done.
Qed.

Lemma readControlKind_Ok map s :
  readControlKind map = Ok s <->
  map_get map (js "kind") = Some (CText s) /\ s <> [] /\ zlen (utf8_encode s) <= maxControlKindBytes.
Proof.
  unfold readControlKind. rewrite let_Ok. unfold text_bytes, maxControlKindBytes. split.
  - intros (k & (Hg & Hne & _)%text_field_Ok & H). apply if_throw_Ok in H as [E [= ->]]. bool_props. done.
  - intros (Hg & Hne & Hl). exists s. rewrite if_throw_Ok. split; [| by test (96 <? zlen (utf8_encode s)) false].
    apply text_field_Ok. unfold maxCborTextBytes. split; [done | split; [done | lia]].
Qed.

Lemma readBytesOrEmpty_Ok v label b :
  readBytesOrEmpty v label = Ok b <-> v = CBytes b /\ zlen b <= 64.
Proof.
  unfold readBytesOrEmpty. destruct v as [| | |c| |]; try naive_solver. rewrite if_throw_Ok, Z.ltb_ge. naive_solver.
Qed.

Lemma decodeApplicationControl_sound b e :
  bytes_ok b -> decodeApplicationControl b = Ok e ->
  encodeApplicationControl e = Ok b /\ canonical_control e = true.
Proof.
  intros Hb H. apply sized_map_Ok in H as (es & Hd & Hu & Hl & H).
  step H as version E0. step H as kind E1. step H as id E2. step H as ia E3. step H as ea E4.
  step H as sender E5. step H as recipient E6. step H as v7 E7. step H as body E8. step H as v9 E9.
  step H as sg E10. cbv zeta in H. step H as [] Ev. injection H as <-.
  pose proof (decode_Ok _ _ _ Hb Hd) as (_ & He & _).
  apply readControlVersion_Ok in E0 as [E0 ->]. apply readControlKind_Ok in E1 as [E1 _].
  destruct (token_field_sound _ _ _ _ He E2) as (t & Et & Dt & Ct & _).
  destruct (token_field_sound _ _ _ _ He E5) as (s & Es & Ds & Cs & _).
  destruct (token_field_sound _ _ _ _ He E6) as (r & Er & Dr & Cr & _).
  apply number_field_Ok in E3 as [E3 _], E4 as [E4 _].
  destruct (bytes_field_sound _ _ _ _ He E7) as [Ec Hcb]. apply boundedBody_Ok in E8 as [_ ->].
  apply getRequiredEntry_Ok in E9. apply readBytesOrEmpty_Ok in E10 as [-> _].
  pose proof (proj1 (encodable_bytes _) (encodable_get _ _ _ He E9)) as [Hsb _].
  split.
  - unfold encodeApplicationControl. rewrite Ev. unfold controlMap. simpl. rewrite Dt, Ds, Dr.
    eapply (record_read b maxControlBytes es control_names); [done | done | done | | |].
    + apply (bool_decide_eq_true_1 (NoDup _)). closed.
    + apply (bool_decide_eq_true_1 (Forall _ _)). closed.
    + apply Forall_forall. unfold control_names.
      each_name; by rewrite ?E0, ?E1, ?Et, ?Es, ?Er, ?E3, ?E4, ?Ec, ?E9.
  - unfold canonical_control. simpl. rewrite Ct, Cs, Cr, !bool_decide_true by done.
    by rewrite (text_sound_plain es (js "kind") kind).
Qed.

(** What is read back from the encoding of a control's entries. *)
Lemma control_read_back e :
  validateControl e = Ok tt -> canonical_control e = true -> times_ok e ->
  exists b, encodeApplicationControl e = Ok b /\ bytes_ok b /\ decodeApplicationControl b = Ok e.
Proof.
  intros Ev Hc Ht. destruct (controlMap_canonical e true Ev Hc) as (t & s & r & Em & (Et & Htb & Htl) & (Es & Hsb & Hsl) & (Er & Hrb & Hrl)).
  destruct (control_entries_encodable e t s r true Ev Hc Ht) as (He & Hcan & Hsz); [done.. |].
  set (entries := control_entries e t s r true) in *. exists (enc (CMap entries)).
  assert (Henc : encodeDeterministicCbor (CMap entries) = Ok (enc (CMap entries))) by (by apply encode_total).
  split; [unfold encodeApplicationControl; by rewrite Ev, Em |].
  destruct (record_written (enc (CMap entries)) maxControlBytes control_names entries)
    as (Hb & Hne & es & Hd & Hu & Hg);
    [done | done | done | done | apply (bool_decide_eq_true_1 (Forall _ _)); closed |].
  split; [done |]. pose proof (zlen_nonneg (enc (CMap entries))). apply sized_map_Ok.
  exists es. split; [done |]. split; [done |]. split; [lia |].
  pose proof Ev as (Hv & (Hn & Hk) & _ & _ & _ & _ & Hbd & Hsg)%validateControl_Ok.
  destruct Ht as ((Hi1 & Hi2) & He1 & He2). unfold maxControlBodyBytes, maxControlKindBytes in *.
  rewrite (proj2 (readControlVersion_Ok es applicationControlWireVersion)).
  2:{ rewrite Hg. subst entries. unfold control_entries. by rewrite Hv. }
  rewrite (proj2 (readControlKind_Ok es (Control.kind e))) by (rewrite Hg; done).
  read_token es Hg (Control.controlId e) t.
  rewrite (proj2 (number_field_Ok es _ (Control.issuedAt e))) by (rewrite Hg; done).
  rewrite (proj2 (number_field_Ok es _ (Control.expiresAt e))) by (rewrite Hg; done).
  read_token es Hg (Control.senderPeerId e) s. read_token es Hg (Control.recipientPeerId e) r.
  read_bytes es Hg. rewrite (proj2 (boundedBody_Ok (Control.body e) _) (conj Hbd eq_refl)).
  rewrite (proj2 (getRequiredEntry_Ok es (js "signature") (CBytes (Control.signature e)))) by (rewrite Hg; done).
  rewrite (proj2 (readBytesOrEmpty_Ok _ _ (Control.signature e))) by (split; [done | lia]).
  cbv zeta. rewrite <- Hv. by destruct e; simpl in *; rewrite Ev.
Qed.

Lemma decodeApplicationControl_complete b e :
  encodeApplicationControl e = Ok b -> canonical_control e = true ->
  bytes_ok b /\ decodeApplicationControl b = Ok e.
Proof.
  intros H Hc. pose proof H as H'. unfold encodeApplicationControl in H. step H as [] Ev. step H as es Em.
  assert (Ht : times_ok e).
  { destruct (controlMap_canonical e true Ev Hc) as (t & s & r & Em' & _). rewrite Em in Em'. injection Em' as ->.
    split; apply encodable_num; eapply encoded_number; [exact H | | exact H |].
    - by apply (list_elem_of_lookup_2 _ 3).
    - by apply (list_elem_of_lookup_2 _ 4). }
  destruct (control_read_back e Ev Hc Ht) as (b' & Hb' & Hok & Hd). rewrite H' in Hb'. by injection Hb' as <-.
Qed.

(** The signature is not part of what is signed. *)
Definition with_signature (e : ApplicationControlEnvelope) (signature : bytes) : ApplicationControlEnvelope :=
  Control.mk (Control.version e) (Control.kind e) (Control.controlId e) (Control.issuedAt e)
    (Control.expiresAt e) (Control.senderPeerId e) (Control.recipientPeerId e) (Control.body e) signature.

Lemma signing_bytes_with e sg :
  applicationControlSigningBytes (with_signature e sg) = applicationControlSigningBytes e.
Proof. done. Qed.

(** ** Accepting a control *)

Section Accepting.
Context {Body S : Type} `{Mem : !ControlMemory S}.
Implicit Types (d : ApplicationControlDescriptor (Body := Body)).

(** The envelope got through every check that precedes the signature. *)
Definition control_admissible (b : bytes) (registry : list (jsstring * ApplicationControlDescriptor))
    (ports : ApplicationControlPorts) (now : Z) (memory : S) (e : ApplicationControlEnvelope) d : Prop :=
  decodeApplicationControl b = Ok e /\ map_get registry (Control.kind e) = Some d
  /\ Control.recipientPeerId e = localPeerId ports /\ isKnownContact ports (Control.senderPeerId e) = true
  /\ now < Control.expiresAt e /\ Control.issuedAt e <= now + maxClockSkewMs ports
  /\ Control.expiresAt e - Control.issuedAt e <= number_value (maximumTTLms d)
  /\ hasSeenControl memory (Control.controlId e) = false
  /\ isAllowed ports (Control.kind e) (Control.senderPeerId e) = true.

(** Its effects are the ones its descriptor computes and allows. *)
Definition control_effects d (e : ApplicationControlEnvelope) (effects : list ApplicationControlEffect) : Prop :=
  exists body, decodeBody d (Control.body e) = Ok body /\ reduce d e body = Ok effects
    /\ Forall (fun x => effect_kind x ∈ allowedEffects d) effects
    /\ effectsAreBounded effects (Control.expiresAt e) = true.

Lemma start_control_Ok b registry ports now memory p :
  start_control b registry ports now memory = Ok p -> forall e d,
  (forall input, p = cp_verifying e d input <->
     control_admissible b registry ports now memory e d /\ authentication d = auth_ed25519
     /\ applicationControlSigningBytes e = Ok input /\ p = cp_verifying e d input)
  /\ (p = cp_ready e d -> control_admissible b registry ports now memory e d
        /\ authentication d = auth_none /\ Control.signature e = []).
Proof.
  intros H e d. destruct p as [reason|e0 d0 i0|e0 d0];
    [split; [intros; split; [done | by intros (_ & _ & _ & ?)] | done] | |];
    unfold start_control in H; (destruct (decodeApplicationControl b) as [e'|] eqn:Ed; [| done]);
    (destruct (map_get registry (Control.kind e')) as [d'|] eqn:Eg; [| done]);
    do 7 (case_match; [done |]); bool_props;
    (assert (Ha : control_admissible b registry ports now memory e' d');
     [match goal with Hr : str_eqb _ _ = true |- _ => apply str_eqb_true in Hr end;
      unfold control_admissible; split_and!; first [assumption | lia] |]);
    destruct (authentication d') eqn:Ea.
  - by case_match.
  - step H as input Ei. injection H as <- <- <-. split; [| done]. intros i. split; [| tauto]. by intros [= <- <- <-].
  - case_match; [done |]. injection H as <- <-. bool_props. split; [intros; split; [done | by intros (_ & _ & _ & ?)] |].
    intros [= <- <-]. split; [done |]. split; [done | by apply zlen_zero_iff].
  - by step H as input Ei.
Qed.

Lemma start_control_admissible b registry ports now memory e d :
  control_admissible b registry ports now memory e d ->
  start_control b registry ports now memory
  = match authentication d with
    | auth_ed25519 => let? input := applicationControlSigningBytes e in Ok (cp_verifying e d input)
    | auth_none => if negb (zlen (Control.signature e) =? 0) then Ok (cp_rejected j_signature_invalid)
                   else Ok (cp_ready e d)
    end.
Proof.
  intros (Hd & Hg & Hr & Hk & Hx & Hi & Ht & Hs & Ha). unfold start_control.
  rewrite Hd, Hg, Hr, str_eqb_refl, Hk, Hs, Ha. cbn [negb].
  test (Control.expiresAt e <=? now) false. test (now + maxClockSkewMs ports <? Control.issuedAt e) false.
  by test (number_value (maximumTTLms d) <? Control.expiresAt e - Control.issuedAt e) false.
Qed.

Lemma finish_control_Ok e d memory effects memory' :
  finish_control e d memory = (Ok (control_accepted effects), memory') <->
  control_effects d e effects /\ memory' = rememberControl memory (Control.controlId e) (Control.expiresAt e).
Proof.
  unfold finish_control, control_effects. destruct (decodeBody d (Control.body e)) as [body|]; [| by split; [| intros [(? & ? & _) _]]].
  destruct (reduce d e body) as [fx|] eqn:Er; [| split; [done | intros [(? & [= <-] & Hr & _) _]; congruence]].
  assert (Hall : forallb (fun x => bool_decide (effect_kind x ∈ allowedEffects d)) fx = true
                 <-> Forall (fun x => effect_kind x ∈ allowedEffects d) fx).
  { rewrite forallb_forall, Forall_forall. setoid_rewrite bool_decide_eq_true. by setoid_rewrite list_elem_of_In. }
  case_match eqn:E.
  - split; [done |]. intros [(body' & [= <-] & Hr & Hf & Hb) _]. rewrite Er in Hr. injection Hr as <-.
    apply Hall in Hf. by rewrite Hf, Hb in E.
  - bool_props. split.
    + intros [= <- <-]. split; [| done]. exists body. by rewrite <- Hall.
    + intros [(body' & [= <-] & Hr & _) ->]. rewrite Er in Hr. by injection Hr as <-.
Qed.

(** C18: a control is accepted exactly when all of this holds: it decodes, its
    kind is registered, it is addressed to this endpoint by a known contact, it
    has not expired, was not issued beyond the clock skew, lives no longer than
    its kind allows, was not seen, is allowed by the policy; its signature over
    the signing bytes was verified, or its kind needs none and it has none; and
    its effects are the ones its descriptor computes, all of allowed kinds and
    within the bounds.  Its identifier is then remembered, and nothing else
    changes. *)
Theorem control_accepted_spec verify b registry ports now (memory memory' : S) effects :
  processApplicationControl verify b registry ports now memory = (Ok (control_accepted effects), memory') <->
  exists e d, control_admissible b registry ports now memory e d
    /\ match authentication d with
       | auth_ed25519 => exists input, applicationControlSigningBytes e = Ok input
           /\ verify (Control.senderPeerId e) input (Control.signature e) = Ok true
       | auth_none => Control.signature e = []
       end
    /\ control_effects d e effects
    /\ memory' = rememberControl memory (Control.controlId e) (Control.expiresAt e).
Proof.
  unfold processApplicationControl. split.
  - destruct (start_control b registry ports now memory) as [p|] eqn:Es; [| done].
    pose proof (start_control_Ok _ _ _ _ _ _ Es) as Hp. destruct p as [reason|e d input|e d]; [done | |].
    + destruct (Hp e d) as [Hv _]. destruct (proj1 (Hv input) eq_refl) as (Ha & Hau & Hin & _).
      intros H. unfold resume_control in H. destruct (verify _ _ _) as [[]|] eqn:Ev; try done.
      apply finish_control_Ok in H as [He Hm]. exists e, d. rewrite Hau. split; [done |]. split; [by exists input | done].
    + destruct (Hp e d) as [_ Hr]. destruct (Hr eq_refl) as (Ha & Hau & Hs).
      intros [He Hm]%finish_control_Ok. exists e, d. by rewrite Hau.
  - intros (e & d & Ha & Hau & He & Hm). rewrite (start_control_admissible _ _ _ _ _ _ _ Ha).
    destruct (authentication d).
    + rewrite Hau. simpl. by apply finish_control_Ok.
    + destruct Hau as (input & -> & Hv). simpl. rewrite Hv. simpl. by apply finish_control_Ok.
Qed.

(** *** Histories of calls *)

(** How many waiting calls hold a control of this identifier, and how many
    controls of this identifier a history accepted. *)
Definition copies (id : jsstring) (waiting : list (ApplicationControlEnvelope * ApplicationControlDescriptor (Body := Body))) : Z :=
  zlen (filter (fun w => Control.controlId w.1 = id) waiting).

Definition acceptances (id : jsstring) (accepted : list (ApplicationControlEnvelope * list ApplicationControlEffect)) : Z :=
  zlen (filter (fun a => Control.controlId a.1 = id) accepted).

(** The owner of the memory never forgets the identifier in this history. *)
Fixpoint never_forgotten (id : jsstring) (evs : list (control_event (Body := Body) (S := S))) (st : ControlCalls) : Prop :=
  match evs with
  | [] => True
  | ev :: evs =>
      match ev with
      | ce_owner f => hasSeenControl (calls_memory st) id = true -> hasSeenControl (f (calls_memory st)) id = true
      | _ => True
      end /\ never_forgotten id evs (call_step ev st).1
  end.

(** What the second half of a call does to the memory: nothing, or it accepts
    its control and remembers it. *)
Lemma finish_control_memory e d (memory : S) :
  (finish_control e d memory).2 = memory /\ (forall fx, (finish_control e d memory).1 <> Ok (control_accepted fx))
  \/ exists fx, finish_control e d memory
       = (Ok (control_accepted fx), rememberControl memory (Control.controlId e) (Control.expiresAt e)).
Proof.
  unfold finish_control. destruct (decodeBody d _); [| by left]. destruct (reduce d e _); [| by left].
  case_match; [by left | right; by eexists].
Qed.

Lemma resume_control_memory e d verdict (memory : S) :
  (resume_control e d verdict memory).2 = memory /\ (forall fx, (resume_control e d verdict memory).1 <> Ok (control_accepted fx))
  \/ exists fx, resume_control e d verdict memory
       = (Ok (control_accepted fx), rememberControl memory (Control.controlId e) (Control.expiresAt e)).
Proof. destruct verdict as [[]|]; [apply finish_control_memory | by left ..]. Qed.

Lemma call_ends_unaccepted e (r : result ApplicationControlResult * S) (w : list (_ * ApplicationControlDescriptor (Body := Body))) :
  (forall fx, r.1 <> Ok (control_accepted fx)) -> call_ends e r w = (mkCalls r.2 w, None).
Proof. intros Hn. unfold call_ends. destruct r.1 as [[fx|]|]; [by destruct (Hn fx) | done..]. Qed.

(** Whatever event accepts a control, its identifier is remembered. *)
Lemma accepted_remembers ev (st st' : ControlCalls (Body := Body)) e fx :
  call_step ev st = (st', Some (e, fx)) ->
  calls_memory st' = rememberControl (calls_memory st) (Control.controlId e) (Control.expiresAt e).
Proof.
  assert (Hend : forall x w (r : result ApplicationControlResult * S),
    (r.2 = calls_memory st /\ (forall fx, r.1 <> Ok (control_accepted fx))
     \/ exists fx, r = (Ok (control_accepted fx), rememberControl (calls_memory st) (Control.controlId x) (Control.expiresAt x))) ->
    call_ends x r w = (st', Some (e, fx)) ->
    calls_memory st' = rememberControl (calls_memory st) (Control.controlId e) (Control.expiresAt e)).
  { intros x w [[[fx'|]|] m] [[_ Hn]|[fx0 [= -> ->]]] [= <- <- <-]; try done. by destruct (Hn fx'). }
  destruct ev as [b registry ports now|i verdict|f]; cbn [call_step].
  - destruct (start_control _ _ _ _ _) as [[reason|x d input|x d]|]; try done. apply Hend, finish_control_memory.
  - destruct (calls_waiting st !! i) as [[x d]|]; [| done]. apply Hend, resume_control_memory.
  - done.
Qed.

Lemma accepted_is_seen ev (st st' : ControlCalls (Body := Body)) e fx :
  call_step ev st = (st', Some (e, fx)) -> hasSeenControl (calls_memory st') (Control.controlId e) = true.
Proof. intros ->%accepted_remembers. apply remembered_is_seen. Qed.

Lemma copies_nonneg id w : 0 <= copies id w.
Proof. apply zlen_nonneg. Qed.

Lemma copies_delete id w i x :
  w !! i = Some x -> copies id (delete i w) = copies id w - (if decide (Control.controlId x.1 = id) then 1 else 0).
Proof.
  intros Hi. unfold copies. rewrite delete_take_drop. rewrite <- (take_drop_middle w i x Hi) at 3.
  rewrite !filter_app, filter_cons. case_decide; autorewrite with zlen; lia.
Qed.

Lemma acceptances_cons id a l :
  acceptances id (a :: l) = (if decide (Control.controlId a.1 = id) then 1 else 0) + acceptances id l.
Proof. unfold acceptances. rewrite filter_cons. case_decide; autorewrite with zlen; lia. Qed.

Lemma acceptances_nil id : acceptances id [] = 0.
Proof. done. Qed.

(** A seen identifier stays seen and no call with it gets as far as waiting; a
    control with it is only accepted for a copy that stops waiting. *)
Lemma seen_step id ev (st : ControlCalls (Body := Body)) :
  hasSeenControl (calls_memory st) id = true -> never_forgotten id [ev] st ->
  let r := call_step ev st in
  hasSeenControl (calls_memory r.1) id = true
  /\ copies id (calls_waiting r.1) + match r.2 with Some a => acceptances id [a] | None => 0 end
     <= copies id (calls_waiting st).
Proof.
  intros Hs [Hf _]. destruct ev as [b registry ports now|i verdict|f]; cbn [call_step].
  - destruct (start_control _ _ _ _ _) as [p|] eqn:Es; [| by split; [| cbn; lia]].
    assert (Hne : forall e d, control_admissible b registry ports now (calls_memory st) e d -> Control.controlId e <> id).
    { intros e d (_ & _ & _ & _ & _ & _ & _ & Hn & _) <-. congruence. }
    pose proof (start_control_Ok _ _ _ _ _ _ Es) as Hp.
    destruct p as [reason|e d input|e d]; [by split; [| cbn; lia] | |]; destruct (Hp e d) as [Hv Hr].
    + destruct (proj1 (Hv input) eq_refl) as (Ha & _). apply Hne in Ha. split; [done |]. cbn. unfold copies.
      rewrite filter_app, filter_cons_False by done. autorewrite with zlen. cbn. lia.
    + destruct (Hr eq_refl) as (Ha & _). apply Hne in Ha.
      destruct (finish_control_memory e d (calls_memory st)) as [[Hm Hn]|[fx ->]];
        [rewrite (call_ends_unaccepted _ _ _ Hn), Hm | unfold call_ends]; cbn [fst snd calls_memory calls_waiting].
      * split; [done | lia].
      * split; [by apply seen_stays_seen |]. rewrite acceptances_cons, decide_False, acceptances_nil by done. lia.
  - destruct (calls_waiting st !! i) as [[e d]|] eqn:Ei; [| by split; [| cbn; lia]].
    pose proof (copies_delete id _ _ _ Ei) as Hd. cbn [fst] in Hd.
    destruct (resume_control_memory e d verdict (calls_memory st)) as [[Hm Hn]|[fx ->]];
      [rewrite (call_ends_unaccepted _ _ _ Hn), Hm | unfold call_ends]; cbn [fst snd calls_memory calls_waiting].
    + split; [done |]. rewrite Hd. case_decide; lia.
    + split; [by apply seen_stays_seen |]. rewrite Hd, acceptances_cons, acceptances_nil. cbn [fst]. case_decide; lia.
  - cbn. split; [by apply Hf | lia].
Qed.

Lemma seen_run id evs (st : ControlCalls (Body := Body)) :
  hasSeenControl (calls_memory st) id = true -> never_forgotten id evs st ->
  copies id (calls_waiting (call_run evs st).1) + acceptances id (call_run evs st).2 <= copies id (calls_waiting st).
Proof.
  revert st. induction evs as [|ev evs IH]; intros st Hs Hf; [cbn [call_run fst snd]; rewrite acceptances_nil; lia |]. cbn [call_run never_forgotten] in *.
  destruct Hf as [Hf Hrest]. destruct (seen_step id ev st Hs (conj Hf I)) as [Hs' Hc].
  destruct (call_step ev st) as [st1 accepted]. cbn [fst snd] in *. specialize (IH st1 Hs' Hrest).
  destruct (call_run evs st1) as [st2 rest]. cbn [fst snd] in *. destruct accepted as [a|]; cbn [fst snd]; [| lia].
  rewrite acceptances_cons, acceptances_nil in Hc. rewrite acceptances_cons. lia.
Qed.

(** C31: replays, under every overlap of calls.  Once a control is accepted, the
    history after it, of calls that start, verifications that settle with any
    verdict and changes that the owner makes to the memory, accepts a control
    of its identifier at most as often as such copies were being verified at
    that moment, for as long as the owner does not forget the identifier.  So
    without a copy under verification it is never accepted again.  The bound is
    reached: the check precedes the verification and is not repeated after it,
    so every such copy is accepted when its signature proves right.  (What the
    memory of receipts keeps is bounded: [receipt_not_replayed] says how long an
    identifier stays, [evicted_control_unseen] that 128 newer ones displace it.) *)
Theorem control_replay ev (st st' : ControlCalls (Body := Body) (S := S)) e effects
    (Ha : call_step ev st = (st', Some (e, effects))) :
  (forall later, never_forgotten (Control.controlId e) later st' ->
     acceptances (Control.controlId e) (call_run later st').2 <= copies (Control.controlId e) (calls_waiting st'))
  /\ (forall i e2 d2 effects2, calls_waiting st' !! i = Some (e2, d2) -> control_effects d2 e2 effects2 ->
       (call_step (ce_settle i (Ok true)) st').2 = Some (e2, effects2)).
Proof.
  apply accepted_is_seen in Ha as Hs. split.
  - intros later Hf. pose proof (seen_run _ later _ Hs Hf).
    pose proof (copies_nonneg (Control.controlId e) (calls_waiting (call_run later st').1)). lia.
  - intros i e2 d2 fx Hi Hfx. cbn [call_step]. rewrite Hi. unfold resume_control.
    by rewrite (proj2 (finish_control_Ok e2 d2 (calls_memory st') fx _) (conj Hfx eq_refl)).
Qed.

(** A call on its own is its two halves with nothing in between. *)
Lemma process_is_two_events verify b (registry : list (jsstring * ApplicationControlDescriptor (Body := Body))) ports now
    (memory memory' : S) effects :
  processApplicationControl verify b registry ports now memory = (Ok (control_accepted effects), memory') ->
  exists e evs, evs ∈ [[ce_start b registry ports now]; [ce_start b registry ports now; ce_settle 0 (Ok true)]]
    /\ decodeApplicationControl b = Ok e
    /\ call_run evs (mkCalls memory []) = (mkCalls memory' [], [(e, effects)]).
Proof.
  unfold processApplicationControl. destruct (start_control b registry ports now memory) as [p|] eqn:Es; [| done].
  pose proof (start_control_Ok _ _ _ _ _ _ Es) as Hp. destruct p as [reason|e d input|e d]; [done | |]; destruct (Hp e d) as [Hv Hr].
  - destruct (proj1 (Hv input) eq_refl) as ((Hd & _) & _). intros H. exists e, [ce_start b registry ports now; ce_settle 0 (Ok true)].
    split; [set_solver |]. split; [done |]. cbn [call_run call_step calls_memory]. rewrite Es. cbn [calls_waiting app].
    destruct (verify _ _ _) as [[]|]; try done. cbn in *. by rewrite H.
  - destruct (Hr eq_refl) as ((Hd & _) & _). intros H. exists e, [ce_start b registry ports now].
    split; [set_solver |]. split; [done |]. cbn [call_run call_step calls_memory]. rewrite Es. by rewrite H.
Qed.

End Accepting.

(** ** From the sender to the recipient *)

Section Outbound.
Context {Body L S : Type} `{Lim : !RateLimiter L} `{Mem : !ControlMemory S}.
Implicit Types (d : ApplicationControlDescriptor (Body := Body)) (c : OutboundApplicationControl (Body := Body)).

Lemma prepareOutbound_Ok c d ports now (limiter limiter' : L) e :
  prepareOutboundApplicationControl c d ports now limiter = (Ok e, limiter') ->
  Control.version e = applicationControlWireVersion /\ Control.kind e = controlDescriptorKind d
  /\ Control.signature e = []
  /\ (Control.kind e <> [] /\ zlen (utf8_encode (Control.kind e)) <= maxControlKindBytes)
  /\ (validToken (Control.controlId e) 16 = true /\ validToken (Control.senderPeerId e) 32 = true
      /\ validToken (Control.recipientPeerId e) 32 = true)
  /\ 0 < zlen (Control.body e) <= maxControlBodyBytes
  /\ Control.issuedAt e <= now + maxClockSkewMs ports /\ now < Control.expiresAt e
  /\ Control.expiresAt e - Control.issuedAt e <= number_value (maximumTTLms d)
  /\ Control.senderPeerId e = localPeerId ports.
Proof.
  unfold prepareOutboundApplicationControl. intros H. cbv zeta in H.
  match type of H with (match ?x with _ => _ end) = _ => destruct x as [e'|] eqn:Ec; [| done] end.
  destruct (consumeRateLimit _ _ _ _) as [[] l]; simpl in H; [| done]. injection H as -> _.
  step Ec as [] Ed. apply if_throw_Ok in Ec as [Ep Ec].
  step Ec as id E1. step Ec as sender E2. step Ec as recipient E3. step Ec as encoded E4. step Ec as body E5.
  apply if_throw_Ok in Ec as [El [= <-]]. cbn [Control.issuedAt Control.expiresAt] in El. bool_props.
  apply requireBase64URLBytes_Ok in E1 as [E1 ->], E2 as [E2 ->], E3 as [E3 ->]. apply boundedBody_Ok in E5 as [E5 ->].
  unfold validateControlDescriptor in Ed. apply if_throw_Ok in Ed as [Ed _]. bool_props.
  repeat match goal with Hs : str_eqb _ _ = true |- _ => apply str_eqb_true in Hs end. unfold text_bytes in *. cbn.
  split_and!; try done; try lia. intros E. match goal with Hz : zlen _ <> 0 |- _ => apply Hz end. by rewrite E.
Qed.

(** a control prepared for a contact reaches it.  Signed with 64 bytes, it
    is encoded within the decoder's limit, read back unchanged with the same
    signing bytes, and gets through every check of a recipient that runs at the
    same time: one that has the same descriptor, knows and allows the sender,
    tolerates the same skew and has not seen the identifier.  The preparation
    does not check that the control expires after it was issued, nor that the
    kind and the tokens are canonical texts; these are hypotheses. *)
Theorem outbound_delivered c d ports now (limiter limiter' : L) e sg
    (registry : list (jsstring * ApplicationControlDescriptor)) ports' (memory : S)
    (Hp : prepareOutboundApplicationControl c d ports now limiter = (Ok e, limiter'))
    (Hlife : Control.issuedAt e < Control.expiresAt e) (Ht : times_ok e)
    (Hc : canonical_control e = true) (Hsg : bytes_ok sg /\ zlen sg = 64)
    (Hreg : map_get registry (controlDescriptorKind d) = Some d)
    (Hlocal : localPeerId ports' = Control.recipientPeerId e)
    (Hknown : isKnownContact ports' (localPeerId ports) = true)
    (Hallowed : isAllowed ports' (controlDescriptorKind d) (localPeerId ports) = true)
    (Hskew : maxClockSkewMs ports <= maxClockSkewMs ports')
    (Hseen : hasSeenControl memory (Control.controlId e) = false) :
  exists b, encodeApplicationControl (with_signature e sg) = Ok b /\ zlen b <= maxControlBytes
    /\ applicationControlSigningBytes (with_signature e sg) = applicationControlSigningBytes e
    /\ control_admissible b registry ports' now memory (with_signature e sg) d.
Proof.
  pose proof (prepareOutbound_Ok _ _ _ _ _ _ _ Hp)
    as (Hv & Hk & _ & (Hkn & Hkl) & (H1 & H2 & H3) & Hb & Hia & Hea & Httl & Hsender).
  destruct Hsg as [Hsb Hsl].
  assert (Ev : validateControl (with_signature e sg) = Ok tt) by (apply validateControl_Ok; cbn; split_and!; auto with lia).
  assert (Hcc : canonical_control (with_signature e sg) = true).
  { unfold canonical_control in *. cbn. bool_props.
    repeat match goal with Hx : ?x = true |- _ => rewrite Hx end. by rewrite !bool_decide_true. }
  destruct (control_read_back _ Ev Hcc Ht) as (b & He & Hok & Hd). exists b. split; [done |].
  split; [apply sized_map_Ok in Hd as (? & _ & _ & ? & _); lia |]. split; [done |].
  unfold control_admissible. cbn. rewrite Hk, Hsender, Hlocal. split_and!; try done; lia.
Qed.
End Outbound.

(** ** A concrete control *)

Lemma list_memory_law (s : list jsstring) (id : jsstring) : bool_decide (id ∈ id :: s) = true.
Proof. apply bool_decide_eq_true. set_solver. Qed.

Lemma list_memory_kept (s : list jsstring) (id other : jsstring) :
  bool_decide (id ∈ s) = true -> bool_decide (id ∈ other :: s) = true.
Proof. rewrite !bool_decide_eq_true. set_solver. Qed.

#[export] Instance list_memory : ControlMemory (list jsstring) := {
  hasSeenControl s id := bool_decide (id ∈ s);
  rememberControl s id _ := id :: s;
  remembered_is_seen s id _ := list_memory_law s id;
  seen_stays_seen s id other _ := list_memory_kept s id other;
}.

#[export] Instance counter_limiter : RateLimiter nat := {
  consumeRateLimit n _ _ _ := match n with O => (false, O) | S n => (true, n) end;
}.

Definition peer_of (fill : Z) : jsstring := encodeBase64URL (replicate 32 fill).
Definition control_of (fill : Z) : jsstring := encodeBase64URL (replicate 16 fill).

Definition receipt_descriptor : ApplicationControlDescriptor (Body := bytes) :=
  mkControlDescriptor (js "branch.test.receipt") auth_ed25519 (Int 60000) proj_message_metadata
    [k_message_metadata] (fun b => Ok b) (fun b => Ok b)
    (fun _ _ => Ok [e_message_metadata (control_of 3) (js "delivered")]).

Definition receipt_registry : list (jsstring * ApplicationControlDescriptor (Body := bytes)) :=
  [(js "branch.test.receipt", receipt_descriptor)].

Definition everyone (self : Z) : ApplicationControlPorts := mkPorts (peer_of self) (fun _ => true) (fun _ _ => true) 5000.

Definition receipt_to_send (issuedAt expiresAt : Z) : OutboundApplicationControl (Body := bytes) :=
  mkOutbound (js "branch.test.receipt") (control_of 1) issuedAt expiresAt (peer_of 1) (peer_of 2) [1; 2; 3].

Definition sample_receipt : ApplicationControlEnvelope :=
  Control.mk applicationControlWireVersion (js "branch.test.receipt") (control_of 1) 1000 2000 (peer_of 1)
    (peer_of 2) [1; 2; 3] [].

Definition receipt_bytes : bytes :=
  match encodeApplicationControl (with_signature sample_receipt (replicate 64 9)) with Ok b => b | Throw _ => [] end.

Definition trusting (peer : jsstring) (input signature : bytes) : result bool := Ok true.

(** The preparation takes a control that expires before it is issued, when both
    times are within the skew; the encoder refuses it. *)
Lemma inverted_lifetime :
  match prepareOutboundApplicationControl (receipt_to_send 3000 2000) receipt_descriptor (everyone 1) 1000 1%nat with
  | (Ok e, _) => encodeApplicationControl e = Throw (js "invalid application control envelope")
  | (Throw _, _) => False
  end.
Proof. closed. Qed.

Lemma sample_receipt_prepared :
  prepareOutboundApplicationControl (receipt_to_send 1000 2000) receipt_descriptor (everyone 1) 1000 1%nat
  = (Ok sample_receipt, 0%nat).
Proof. closed. Qed.

Lemma sample_receipt_ready : times_ok sample_receipt /\ canonical_control sample_receipt = true.
Proof. split; [repeat split; vm_compute; first [reflexivity | discriminate] | closed]. Qed.

Lemma sample_signature_bytes : bytes_ok (replicate 64 9) /\ zlen (replicate 64 9) = 64.
Proof. split; [apply (bool_decide_eq_true_1 (bytes_ok _)); closed | closed]. Qed.

Lemma sample_recipient_ready :
  (map_get receipt_registry (controlDescriptorKind receipt_descriptor) = Some receipt_descriptor
   /\ localPeerId (everyone 2) = Control.recipientPeerId sample_receipt)
  /\ (Control.issuedAt sample_receipt < Control.expiresAt sample_receipt
      /\ maxClockSkewMs (everyone 1) <= maxClockSkewMs (everyone 2))
  /\ hasSeenControl ([] : list jsstring) (Control.controlId sample_receipt) = false
  /\ isKnownContact (everyone 2) (localPeerId (everyone 1)) = true
  /\ isAllowed (everyone 2) (controlDescriptorKind receipt_descriptor) (localPeerId (everyone 1)) = true.
Proof. split_and!; vm_compute; first [reflexivity | discriminate]. Qed.

Lemma outbound_delivered_witness :
  exists b, control_admissible b receipt_registry (everyone 2) 1000 ([] : list jsstring)
              (with_signature sample_receipt (replicate 64 9)) receipt_descriptor.
Proof.
  pose proof sample_recipient_ready as ((H1 & H2) & (H3 & H4) & H5 & H6 & H7).
  pose proof sample_receipt_ready as [H8 H9].
  destruct (outbound_delivered _ _ _ _ _ _ _ _ _ _ _ sample_receipt_prepared H3 H8 H9 sample_signature_bytes
              H1 H2 H6 H7 H4 H5) as (b & _ & _ & _ & H).
  exact (ex_intro _ b H).
Defined.

Lemma sample_receipt_accepted :
  processApplicationControl trusting receipt_bytes receipt_registry (everyone 2) 1000 []
  = (Ok (control_accepted [e_message_metadata (control_of 3) (js "delivered")]), [control_of 1]).
Proof. closed. Qed.

(** Two copies of the receipt arrive before the first is verified. *)
Definition receipt_arrives : control_event (Body := bytes) (S := list jsstring) :=
  ce_start receipt_bytes receipt_registry (everyone 2) 1000.

Definition two_copies : ControlCalls (Body := bytes) (S := list jsstring) :=
  (call_run [receipt_arrives; receipt_arrives] (mkCalls [] [])).1.

Definition delivered : list ApplicationControlEffect := [e_message_metadata (control_of 3) (js "delivered")].
Definition signed_receipt : ApplicationControlEnvelope := with_signature sample_receipt (replicate 64 9).

Lemma first_copy_accepted :
  call_step (ce_settle 0 (Ok true)) two_copies
  = (mkCalls [control_of 1] [(signed_receipt, receipt_descriptor)], Some (signed_receipt, delivered)).
Proof. closed. Qed.

(** Whatever arrives then, one more is accepted at most, the second copy; and
    in this history it is. *)
Lemma control_replay_witness :
  let st := mkCalls [control_of 1] [(signed_receipt, receipt_descriptor)] in
  let later := [receipt_arrives; ce_settle 0 (Ok true); receipt_arrives; ce_settle 0 (Ok true)] in
  acceptances (control_of 1) (call_run later st).2 <= 1
  /\ (call_run later st).2 = [(signed_receipt, delivered)].
Proof.
  cbv zeta. split; [| closed].
  apply (proj1 (control_replay (ce_settle 0 (Ok true)) two_copies _ signed_receipt delivered first_copy_accepted)).
  repeat split.
Defined.
