(* ===== verification/Admission.v ===== *)
(** * Duplicate suppression on ingress: [connectivity/delivery-dedup-window.ts]
    and [connectivity/rtc-admission-ledger.ts] of the PWA

    A window of the delivery identifiers seen last, and the ledger that
    recognises the same ciphertext arriving on two paths.  The ledger's
    [reserve] is cut at its one [await]: the digest of the ciphertext settles in
    an [lop_digest] event, in any order; other calls run in between. *)
From stdpp Require Import strings pretty.
From S2P Require Import Prelude JsRuntime Collections Base64Url.

(** ** The window *)

Module Window.
Record DeliveryDedupWindow := mk { deliveryIds : list jsstring; capacity : Z }.
End Window.
Abbreviation DeliveryDedupWindow := Window.DeliveryDedupWindow.

Definition incomingDeliveryDedupCapacity : Z := 256.

Definition new_window (capacity : option number) : result DeliveryDedupWindow :=
  let capacity := default_number incomingDeliveryDedupCapacity capacity in
  if negb (number_in 1 MAX_SAFE_INTEGER capacity)
  then Throw (js "delivery dedup capacity must be a positive safe integer")
  else Ok (Window.mk [] (number_value capacity)).

Definition reserve_delivery (w : DeliveryDedupWindow) (deliveryId : jsstring) : bool * DeliveryDedupWindow :=
  let ids := Window.deliveryIds w in
  if bool_decide (deliveryId ∈ ids) then (false, w)
  else
    let ids := ids ++ [deliveryId] in
    let ids := if Window.capacity w <? zlen ids then tail ids else ids in
    (true, Window.mk ids (Window.capacity w)).

Definition reset_window (w : DeliveryDedupWindow) : DeliveryDedupWindow := Window.mk [] (Window.capacity w).

Definition window_size (w : DeliveryDedupWindow) : Z := zlen (Window.deliveryIds w).

(** Reserves one identifier after the other. *)
Fixpoint reserve_all (w : DeliveryDedupWindow) (ids : list jsstring) : list bool * DeliveryDedupWindow :=
  match ids with
  | [] => ([], w)
  | id :: ids =>
      let '(fresh, w) := reserve_delivery w id in
      let '(answers, w) := reserve_all w ids in
      (fresh :: answers, w)
  end.

(** *** Specification: the last [capacity] identifiers that were fresh *)

Definition last_of {A} (n : Z) (l : list A) : list A := drop (length l - Z.to_nat n) l.

Fixpoint spec_reserve (capacity : Z) (history ids : list jsstring) : list bool * list jsstring :=
  match ids with
  | [] => ([], history)
  | id :: ids =>
      let fresh := negb (bool_decide (id ∈ last_of capacity history)) in
      let '(answers, history) := spec_reserve capacity (if fresh then history ++ [id] else history) ids in
      (fresh :: answers, history)
  end.

(** The program's window keeps only the end of the specification's history. *)
Definition window_refines (w : DeliveryDedupWindow) (history : list jsstring) : Prop :=
  1 <= Window.capacity w /\ Window.deliveryIds w = last_of (Window.capacity w) history.

Lemma last_of_snoc {A} n (l : list A) x :
  1 <= n ->
  last_of n (l ++ [x]) = (if n <? zlen (last_of n l ++ [x]) then tail (last_of n l ++ [x]) else last_of n l ++ [x]).
Proof.
  intros Hn. unfold last_of, zlen. rewrite !length_app, length_drop. cbn [length].
  destruct (Z.ltb_spec n (Z.of_nat (length l - (length l - Z.to_nat n) + 1))) as [Hlt|Hge].
  - rewrite drop_app_le by lia.
    replace (length l + 1 - Z.to_nat n)%nat with (S (length l - Z.to_nat n))%nat by lia.
    destruct (drop (length l - Z.to_nat n) l) as [|y rest] eqn:E.
    + apply (f_equal length) in E. rewrite length_drop in E. simpl in E. lia.
    + rewrite (drop_S _ y) in E; [simpl; f_equal; by injection E |].
      rewrite <- (Nat.add_0_r (length l - Z.to_nat n)). rewrite <- lookup_drop. by rewrite E.
  - rewrite drop_app_le by lia. by replace (length l + 1 - Z.to_nat n)%nat with (length l - Z.to_nat n)%nat by lia.
Qed.

Lemma reserve_refines w history id :
  window_refines w history ->
  let fresh := negb (bool_decide (id ∈ last_of (Window.capacity w) history)) in
  (reserve_delivery w id).1 = fresh
  /\ Window.capacity (reserve_delivery w id).2 = Window.capacity w
  /\ window_refines (reserve_delivery w id).2 (if fresh then history ++ [id] else history).
Proof.
  intros [Hc Hw]. unfold reserve_delivery, window_refines. rewrite Hw. case_bool_decide;
    cbn [fst snd negb Window.capacity Window.deliveryIds]; [done |].
  split; [done |]. split; [done |]. split; [done |]. by rewrite last_of_snoc.
Qed.

Lemma last_of_length {A} n (l : list A) : 0 <= n -> zlen (last_of n l) <= n.
Proof. intros. unfold last_of, zlen. rewrite length_drop. lia. Qed.

(** C32: the window answers as if it kept every identifier it ever accepted and
    looked at the last [capacity] of them: an identifier is refused exactly when
    it is among these.  It never holds more than [capacity] identifiers. *)
Theorem dedup_refines capacity w ids
    (Hn : new_window capacity = Ok w) :
  (reserve_all w ids).1 = (spec_reserve (Window.capacity w) [] ids).1
  /\ window_refines (reserve_all w ids).2 (spec_reserve (Window.capacity w) [] ids).2
  /\ window_size (reserve_all w ids).2 <= Window.capacity w.
Proof.
  assert (Hw : window_refines w []).
  { unfold new_window in Hn. cbv zeta in Hn. case_match eqn:E; [done |]. injection Hn as <-.
    destruct (default_number _ capacity); simpl in E; [| done]. bool_props. done. }
  assert (H : forall history, window_refines w history ->
            (reserve_all w ids).1 = (spec_reserve (Window.capacity w) history ids).1
            /\ window_refines (reserve_all w ids).2 (spec_reserve (Window.capacity w) history ids).2
            /\ Window.capacity (reserve_all w ids).2 = Window.capacity w).
  { clear Hn Hw. revert w. induction ids as [|id ids IH]; intros w history Hw; [done |].
    destruct (reserve_refines w history id Hw) as (Ha & Hc & Hw'). cbn [reserve_all spec_reserve].
    destruct (reserve_delivery w id) as [fresh w'] eqn:E. cbn [fst snd] in *. subst fresh.
    destruct (IH w' _ Hw') as (Hr & Hf & Hcap). rewrite Hc in *.
    destruct (reserve_all w' ids) as [answers w2]. destruct (spec_reserve _ _ ids) as [answers2 h2].
    cbn in *. split; [congruence | done]. }
  destruct (H [] Hw) as (Ha & Hr & Hc). split; [done |]. split; [done |].
  destruct Hr as [Hpos Hids]. unfold window_size. rewrite Hids, Hc. apply last_of_length. destruct Hw. lia.
Qed.

Lemma dedup_refines_witness :
  (reserve_all (Window.mk [] 2) [js "a"; js "b"; js "a"; js "c"; js "a"]).1 = [true; true; false; true; true].
Proof.
  transitivity (spec_reserve 2 [] [js "a"; js "b"; js "a"; js "c"; js "a"]).1; [| vm_compute; reflexivity].
  exact (proj1 (dedup_refines (Some (Int 2)) (Window.mk [] 2) [js "a"; js "b"; js "a"; js "c"; js "a"] eq_refl)).
Defined.

(** ** The ledger *)

Definition maxRTCAdmissionEntries : Z := 32.

Inductive RTCAdmissionReservation : Type := a_first | a_duplicate_admitted | a_duplicate_pending | a_conflict.

Record AdmissionEntry := mkEntry { ciphertextSHA256 : jsstring; entryExpiresAt : Z; admitted : bool }.

Record Reservation := mkReservation {
  senderPeerId : jsstring;
  streamId : number;
  deliveryId : jsstring;
  ciphertext : bytes;
  reservationExpiresAt : number;
  reservedAt : Z;
}.

(** A [reserve] call that awaits its digest. *)
Record AwaitedReservation := mkAwaited { reservedKey : jsstring; reservedBytes : bytes; reservedUntil : Z }.

Record RTCAdmissionLedger := mkLedger {
  entries : list (jsstring * AdmissionEntry);
  maximumEntries : Z;
  awaitedReservations : list AwaitedReservation;
}.

Definition new_ledger (maximum : option number) : result RTCAdmissionLedger :=
  let maximum := default_number maxRTCAdmissionEntries maximum in
  if negb (number_in 1 maxRTCAdmissionEntries maximum)
  then Throw (js "invalid rtc admission ledger capacity")
  else Ok (mkLedger [] (number_value maximum) []).

Definition set_entries (l : RTCAdmissionLedger) (es : list (jsstring * AdmissionEntry)) : RTCAdmissionLedger :=
  mkLedger es (maximumEntries l) (awaitedReservations l).

Definition set_awaited (l : RTCAdmissionLedger) (ws : list AwaitedReservation) : RTCAdmissionLedger :=
  mkLedger (entries l) (maximumEntries l) ws.

(** [`${senderPeerId}\u0000${String(streamId)}\u0000${deliveryId}`] *)
Definition admissionKey (senderPeerId : jsstring) (streamId : Z) (deliveryId : jsstring) : result jsstring :=
  if (zlen senderPeerId =? 0) || (zlen deliveryId =? 0) then Throw (js "invalid rtc admission key")
  else Ok (senderPeerId ++ [0] ++ js (pretty streamId) ++ [0] ++ deliveryId).

Definition prune (l : RTCAdmissionLedger) (now : Z) : RTCAdmissionLedger :=
  set_entries l (map_delete_if (fun _ e => entryExpiresAt e <=? now) (entries l)).

(** [reserve] up to the digest. *)
Definition start_reservation (l : RTCAdmissionLedger) (r : Reservation) : result unit * RTCAdmissionLedger :=
  match streamId r, reservationExpiresAt r with
  | Int stream, Int expiresAt =>
      if negb (is_safe stream) || (stream <? 0) || negb (is_safe expiresAt) || (expiresAt <=? reservedAt r)
         || (zlen (ciphertext r) =? 0)
      then (Throw (js "invalid rtc admission reservation"), l)
      else
        let l := prune l (reservedAt r) in
        match admissionKey (senderPeerId r) stream (deliveryId r) with
        | Throw message => (Throw message, l)
        | Ok key => (Ok tt, set_awaited l (awaitedReservations l ++ [mkAwaited key (ciphertext r) expiresAt]))
        end
  | _, _ => (Throw (js "invalid rtc admission reservation"), l)
  end.

(** [while (this.#entries.size >= this.maximumEntries)] deletes the oldest. *)
Definition evict_for_one (l : RTCAdmissionLedger) : list (jsstring * AdmissionEntry) :=
  map_trim (maximumEntries l - 1) (entries l).

(** [reserve] from the fingerprint on. *)
Definition finish_reservation (l : RTCAdmissionLedger) (key fingerprint : jsstring) (expiresAt : Z)
  : RTCAdmissionReservation * RTCAdmissionLedger :=
  match map_get (entries l) key with
  | Some existing =>
      (if negb (str_eqb (ciphertextSHA256 existing) fingerprint) then a_conflict
       else if admitted existing then a_duplicate_admitted else a_duplicate_pending, l)
  | None =>
      (a_first, set_entries l (map_set (evict_for_one l) key (mkEntry fingerprint expiresAt false)))
  end.

Definition admit_delivery (l : RTCAdmissionLedger) (senderPeerId : jsstring) (stream : Z) (deliveryId : jsstring)
    (now : Z) : result bool * RTCAdmissionLedger :=
  let l := prune l now in
  match admissionKey senderPeerId stream deliveryId with
  | Throw message => (Throw message, l)
  | Ok key =>
      match map_get (entries l) key with
      | None => (Ok false, l)
      | Some e =>
          if entryExpiresAt e <=? now then (Ok false, l)
          else (Ok true, set_entries l (map_set (entries l) key
                           (mkEntry (ciphertextSHA256 e) (entryExpiresAt e) true)))
      end
  end.

Definition reset_ledger (l : RTCAdmissionLedger) : RTCAdmissionLedger := set_entries l [].

Definition ledger_size (l : RTCAdmissionLedger) : Z := zlen (entries l).

Section Ledger.
(** The digest of a ciphertext as text: WebCrypto, outside the sources. *)
Context (sha256 : bytes -> jsstring).

Inductive ledger_op : Type :=
| lop_reserve (r : Reservation)
| lop_digest (k : nat)
| lop_digest_failed (k : nat)
| lop_admit (senderPeerId : jsstring) (stream : Z) (deliveryId : jsstring) (now : Z)
| lop_reset.

(** The [k]-th awaited digest settles. *)
Definition settle (l : RTCAdmissionLedger) (k : nat) : option RTCAdmissionReservation * RTCAdmissionLedger :=
  match awaitedReservations l !! k with
  | None => (None, l)
  | Some w =>
      let l := set_awaited l (delete k (awaitedReservations l)) in
      let '(a, l) := finish_reservation l (reservedKey w) (sha256 (reservedBytes w)) (reservedUntil w) in
      (Some a, l)
  end.

Definition ledger_step (l : RTCAdmissionLedger) (op : ledger_op) : RTCAdmissionLedger :=
  match op with
  | lop_reserve r => (start_reservation l r).2
  | lop_digest k => (settle l k).2
  | lop_digest_failed k => set_awaited l (delete k (awaitedReservations l))
  | lop_admit s stream d now => (admit_delivery l s stream d now).2
  | lop_reset => reset_ledger l
  end.

Definition ledger_run (l : RTCAdmissionLedger) (ops : list ledger_op) : RTCAdmissionLedger := foldl ledger_step l ops.

Definition ledger_inv (l : RTCAdmissionLedger) : Prop :=
  1 <= maximumEntries l <= maxRTCAdmissionEntries /\ map_wf (entries l) /\ zlen (entries l) <= maximumEntries l.

Lemma prune_inv l now : ledger_inv l -> ledger_inv (prune l now).
Proof.
  intros (Hm & Hw & Hs). split; [done |]. split; [by apply map_delete_if_wf |].
  etrans; [apply map_delete_if_size | done].
Qed.

Lemma set_awaited_inv l ws : ledger_inv l -> ledger_inv (set_awaited l ws).
Proof. done. Qed.

Lemma finish_reservation_inv l key fp expiresAt : ledger_inv l -> ledger_inv (finish_reservation l key fp expiresAt).2.
Proof.
  intros (Hm & Hw & Hs). unfold finish_reservation. case_match; [done |]. split; [done |].
  unfold evict_for_one. cbn. pose proof (map_trim_wf (maximumEntries l - 1) (entries l) ltac:(lia) Hw) as Ht.
  split; [by apply map_set_wf |]. rewrite map_set_size, map_trim_size by (lia || done). case_match; lia.
Qed.

Lemma ledger_step_inv l op : ledger_inv l -> ledger_inv (ledger_step l op).
Proof.
  intros Hl. destruct op as [r|k|k|s stream d now|]; cbn [ledger_step].
  - unfold start_reservation. do 2 (case_match; try done). case_match; [done |].
    pose proof (prune_inv l (reservedAt r) Hl). by case_match.
  - unfold settle. case_match; [| done].
    pose proof (finish_reservation_inv (set_awaited l (delete k (awaitedReservations l)))
                  (reservedKey a) (sha256 (reservedBytes a)) (reservedUntil a) Hl) as H2.
    by destruct (finish_reservation _ _ _ _).
  - done.
  - unfold admit_delivery. pose proof (prune_inv l now Hl) as Hp. case_match; [| done].
    destruct (map_get _ _) as [e|] eqn:Eg; [| done]. case_match; [done |].
    destruct Hp as (Hm & Hw & Hs). split; [done |]. split; [by apply map_set_wf |].
    cbn in *. rewrite map_set_size. unfold map_has. by rewrite Eg.
  - destruct Hl as (Hm & _ & _). split; [done |]. split; [apply NoDup_nil_2 |]. cbn. rewrite zlen_nil. lia.
Qed.

Lemma ledger_run_inv maximum l ops : new_ledger maximum = Ok l -> ledger_inv (ledger_run l ops).
Proof.
  intros Hn. assert (Hl : ledger_inv l).
  { unfold new_ledger in Hn. cbv zeta in Hn. case_match eqn:E; [done |]. injection Hn as <-.
    destruct (default_number _ maximum); simpl in E; [| done]. bool_props.
    split; [done |]. split; [apply NoDup_nil_2 | cbn; rewrite zlen_nil; lia]. }
  clear Hn. revert l Hl. induction ops as [|op ops IH]; intros l Hl; [done |]. by apply IH, ledger_step_inv.
Qed.

(** the ledger recognises a ciphertext that arrives twice, under every
    interleaving of reservations, digests and admissions.  In every reachable
    state it holds at most 32 entries, one per key; when the digest of a
    reservation settles, an entry for its key answers conflict exactly when it
    stands for another ciphertext, else whether that delivery was admitted, and
    nothing changes; without one the answer is first, the entry is added, not
    admitted, and only the oldest entries make room for it. *)
Theorem ledger_reserve_spec maximum l0 ops k w
    (Hn : new_ledger maximum = Ok l0)
    (Hk : awaitedReservations (ledger_run l0 ops) !! k = Some w) :
  let l := ledger_run l0 ops in
  let l' := (settle l k).2 in
  ledger_inv l /\ ledger_inv l'
  /\ match map_get (entries l) (reservedKey w) with
     | Some e =>
         entries l' = entries l
         /\ ((settle l k).1 = Some a_conflict <-> ciphertextSHA256 e <> sha256 (reservedBytes w))
         /\ ((settle l k).1 = Some a_duplicate_admitted <->
             ciphertextSHA256 e = sha256 (reservedBytes w) /\ admitted e = true)
         /\ (settle l k).1 <> Some a_first
     | None =>
         (settle l k).1 = Some a_first
         /\ entries l' = last_of (maximumEntries l - 1) (entries l)
                         ++ [(reservedKey w, mkEntry (sha256 (reservedBytes w)) (reservedUntil w) false)]
     end.
Proof.
  intros l l'. pose proof (ledger_run_inv _ _ ops Hn) as Hl. fold l in Hl, Hk. split; [done |].
  split; [apply (ledger_step_inv l (lop_digest k) Hl) |].
  subst l'. unfold settle. rewrite Hk. unfold finish_reservation, set_awaited. cbn [entries].
  destruct (map_get (entries l) (reservedKey w)) as [e|] eqn:Eg; cbn [fst snd entries].
  - split; [done |]. destruct (str_eqb _ _) eqn:Es; cbn [negb].
    + apply str_eqb_true in Es. destruct (admitted e); naive_solver.
    + apply str_eqb_false in Es. naive_solver.
  - split; [done |]. unfold set_entries, evict_for_one. cbn [maximumEntries entries awaitedReservations]. destruct Hl as (Hm & Hw & Hs).
    rewrite map_trim_drop by (lia || done). rewrite map_set_fresh; [done |].
    intros Hin. apply map_get_None in Eg. apply Eg. unfold map_keys in *.
    rewrite <- (take_drop (length (entries l) - Z.to_nat (maximumEntries l - 1)) (entries l)), fmap_app. set_solver.
Qed.
End Ledger.

Definition sample_reservation (fill now : Z) : Reservation :=
  mkReservation (js "peer") (Int 7) (js "delivery") [fill] (Int 5000) now.

(** Two copies and a forgery of one delivery: the second copy is recognised, the
    forgery conflicts. *)
Lemma sample_ledger_answers :
  let sha256 := encodeBase64URL in
  let l0 := mkLedger [] 32 [] in
  let l1 := ledger_run sha256 l0 [lop_reserve (sample_reservation 1 1000); lop_reserve (sample_reservation 1 1001);
                                  lop_reserve (sample_reservation 2 1002)] in
  let l2 := (settle sha256 l1 0).2 in
  ((settle sha256 l1 0).1, (settle sha256 l2 0).1, (settle sha256 l2 1).1)
  = (Some a_first, Some a_duplicate_pending, Some a_conflict).
Proof. closed. Qed.

Lemma sample_awaited :
  awaitedReservations (ledger_run encodeBase64URL (mkLedger [] 32 []) [lop_reserve (sample_reservation 1 1000)]) !! 0%nat
  = Some (mkAwaited (js "peer" ++ [0] ++ js "7" ++ [0] ++ js "delivery") [1] 5000).
Proof. closed. Qed.

Lemma ledger_reserve_spec_witness :
  ledger_inv (ledger_run encodeBase64URL (mkLedger [] 32 []) [lop_reserve (sample_reservation 1 1000)]).
Proof.
  exact (proj1 (ledger_reserve_spec encodeBase64URL None (mkLedger [] 32 []) _ 0%nat _ eq_refl sample_awaited)).
Defined.
