(* ===== verification/AppStore.v ===== *)
(** * [pwa/src/state]: the application store

    One record holds the fields of the modelled slices; an action is a function
    to its answer and the next store.  A JavaScript object used as a map keeps
    the order its keys were added in (the identifiers are never array indices).
    [storage] logs the requests to IndexedDB in order; writes of messages go
    through the chains of [MessagePersistence].  [Date.now()] and
    [crypto.randomUUID()] are arguments. *)
From S2P Require Import Prelude JsRuntime Collections Base64Url Image Admission.

(** ** Data *)

Inductive MessageDeliveryState : Type := d_pending | d_relayed | d_delivered | d_read | d_received | d_unavailable.
Inductive MessageDirection : Type := outgoing | incoming | service.

#[export] Instance delivery_state_eq_dec : EqDecision MessageDeliveryState.
Proof. solve_decision. Defined.
#[export] Instance message_direction_eq_dec : EqDecision MessageDirection.
Proof. solve_decision. Defined.

Module Message.
Record MessageSummary := mk {
  messageId : jsstring;
  contactId : jsstring;
  direction : MessageDirection;
  body : jsstring;
  sentAt : Z;
  deliveryState : MessageDeliveryState;
  applicationMessageId : option jsstring;
  replyToMessageId : option jsstring;
}.
End Message.
Abbreviation MessageSummary := Message.MessageSummary.

Module Contact.
Record ContactSummary := mk {
  contactId : jsstring;
  displayName : jsstring;
  peerId : option jsstring;
  hpkePublicKey : option jsstring;
  lastRouteHint : option jsstring;
}.
End Contact.
Abbreviation ContactSummary := Contact.ContactSummary.

Module Folder.
Record ContactFolder := mk { folderId : jsstring; name : jsstring; createdAt : Z }.
End Folder.
Abbreviation ContactFolder := Folder.ContactFolder.

(** [deliveredAt] absent and [null] are both [None]. *)
Module Outbox.
Record StoredOutboxEntry := mk {
  messageId : jsstring;
  contactId : jsstring;
  applicationMessageId : jsstring;
  createdAt : Z;
  nextAttemptAt : Z;
  attempts : Z;
  lastDeliveryId : option jsstring;
  deliveredAt : option Z;
}.
End Outbox.
Abbreviation StoredOutboxEntry := Outbox.StoredOutboxEntry.

Module Receipt.
Record StoredReadReceiptEntry := mk {
  targetDeliveryId : jsstring;
  contactId : jsstring;
  readAt : Z;
  receiptPending : bool;
}.
End Receipt.
Abbreviation StoredReadReceiptEntry := Receipt.StoredReadReceiptEntry.

Module Request.
Record IncomingMessageRequest := mk {
  requestId : jsstring;
  senderPeerId : jsstring;
  senderHpkePublicKey : jsstring;
  senderDisplayName : jsstring;
  body : jsstring;
  receivedAt : Z;
}.
End Request.
Abbreviation IncomingMessageRequest := Request.IncomingMessageRequest.

Inductive ContactPresenceStatus : Type := p_unknown | p_checking | p_available.
Inductive PresenceProof : Type := encrypted_pong | encrypted_live_traffic.

#[export] Instance presence_status_eq_dec : EqDecision ContactPresenceStatus.
Proof. solve_decision. Defined.

Module Presence.
Record ContactPresence := mk {
  status : ContactPresenceStatus;
  evidence : option PresenceProof;
  updatedAt : Z;
  lastProbeAt : option Z;
  pendingPingId : option jsstring;
}.
End Presence.
Abbreviation ContactPresence := Presence.ContactPresence.

Module Projection.
Record ImageMessageProjection := mk {
  messageId : jsstring;
  contactId : jsstring;
  direction : MessageDirection;
  sentAt : number;
  mediaType : jsstring;
  byteCount : number;
  width : number;
  height : number;
  caption : option jsstring;
  replyToMessageId : option jsstring;
}.
End Projection.
Abbreviation ImageMessageProjection := Projection.ImageMessageProjection.

#[export] Instance projection_eq_dec : EqDecision ImageMessageProjection.
Proof. solve_decision. Defined.

(** The object stores with an index by contact. *)
Inductive ContactStore : Type :=
| st_messages | st_read_state | st_outbox | st_read_receipts | st_delivery_targets
| st_terminal_read_targets | st_image_messages.

Inductive StorageRequest : Type :=
| PersistMessage (m : MessageSummary)
| PersistRetried (previous : jsstring) (m : MessageSummary)
| PersistDeletion (messageIds : list jsstring)
| DeleteImages (messageIds : list jsstring)
| DeleteForContact (store : ContactStore) (contactId : jsstring)
| SaveContact (c : ContactSummary)
| DeleteContact (contactId : jsstring)
| SaveLastChat (contactId : option jsstring)
| SaveFolder (f : ContactFolder)
| DeleteFolder (folderId : jsstring)
| SaveAssignment (contactId folderId : jsstring)
| DeleteAssignment (contactId : jsstring)
| SaveOutbox (e : StoredOutboxEntry)
| DeleteOutbox (messageId : jsstring)
| SaveReceipt (e : StoredReadReceiptEntry)
| DeleteReceipt (targetDeliveryId : jsstring)
| SaveReadState (contactId : jsstring) (timestamp : Z)
| SaveRequest (r : IncomingMessageRequest)
| DeleteRequest (requestId : jsstring)
| ClearCompletedAttachment (peerId : jsstring).

Definition maxConversationTimelineEntries : Z := 192.
Definition maxStoredOutboxEntries : Z := 128.
Definition maxStoredReadReceiptEntries : Z := 128.
Definition maxContactFolders : Z := 32.
Definition maxContactFolderNameLength : Z := 48.
Definition maxIncomingMessageRequests : Z := 50.
Definition maxTypingContacts : Z := 64.
Definition maxContactPresenceEntries : Z := 64.
Definition maxImageMessageProjections : Z := 256.
Definition maxLocalMessageActionCount : Z := 128.

Abbreviation record_of A := (list (jsstring * A)).

Record AppStore := mkStore {
  contacts : list ContactSummary;
  selectedContactId : option jsstring;
  contactFolders : list ContactFolder;
  contactFolderIdByContactId : record_of jsstring;
  messagesByContactId : record_of (list MessageSummary);
  outbox : list StoredOutboxEntry;
  readReceiptOutbox : list StoredReadReceiptEntry;
  lastReadAtByContactId : record_of Z;
  typingExpiresAtByContactId : record_of Z;
  contactPresenceById : record_of ContactPresence;
  incomingMessageRequests : list IncomingMessageRequest;
  imageMessageProjectionsById : record_of ImageMessageProjection;
  storage : list StorageRequest;
}.

Definition empty_store : AppStore := mkStore [] None [] [] [] [] [] [] [] [] [] [] [].

(** One update per field. *)
Definition on_contacts f s := mkStore (f (contacts s)) (selectedContactId s) (contactFolders s)
  (contactFolderIdByContactId s) (messagesByContactId s) (outbox s) (readReceiptOutbox s) (lastReadAtByContactId s)
  (typingExpiresAtByContactId s) (contactPresenceById s) (incomingMessageRequests s) (imageMessageProjectionsById s) (storage s).
Definition on_selected f s := mkStore (contacts s) (f (selectedContactId s)) (contactFolders s)
  (contactFolderIdByContactId s) (messagesByContactId s) (outbox s) (readReceiptOutbox s) (lastReadAtByContactId s)
  (typingExpiresAtByContactId s) (contactPresenceById s) (incomingMessageRequests s) (imageMessageProjectionsById s) (storage s).
Definition on_folders f s := mkStore (contacts s) (selectedContactId s) (f (contactFolders s))
  (contactFolderIdByContactId s) (messagesByContactId s) (outbox s) (readReceiptOutbox s) (lastReadAtByContactId s)
  (typingExpiresAtByContactId s) (contactPresenceById s) (incomingMessageRequests s) (imageMessageProjectionsById s) (storage s).
Definition on_assignments f s := mkStore (contacts s) (selectedContactId s) (contactFolders s)
  (f (contactFolderIdByContactId s)) (messagesByContactId s) (outbox s) (readReceiptOutbox s) (lastReadAtByContactId s)
  (typingExpiresAtByContactId s) (contactPresenceById s) (incomingMessageRequests s) (imageMessageProjectionsById s) (storage s).
Definition on_messages f s := mkStore (contacts s) (selectedContactId s) (contactFolders s)
  (contactFolderIdByContactId s) (f (messagesByContactId s)) (outbox s) (readReceiptOutbox s) (lastReadAtByContactId s)
  (typingExpiresAtByContactId s) (contactPresenceById s) (incomingMessageRequests s) (imageMessageProjectionsById s) (storage s).
Definition on_outbox f s := mkStore (contacts s) (selectedContactId s) (contactFolders s)
  (contactFolderIdByContactId s) (messagesByContactId s) (f (outbox s)) (readReceiptOutbox s) (lastReadAtByContactId s)
  (typingExpiresAtByContactId s) (contactPresenceById s) (incomingMessageRequests s) (imageMessageProjectionsById s) (storage s).
Definition on_receipts f s := mkStore (contacts s) (selectedContactId s) (contactFolders s)
  (contactFolderIdByContactId s) (messagesByContactId s) (outbox s) (f (readReceiptOutbox s)) (lastReadAtByContactId s)
  (typingExpiresAtByContactId s) (contactPresenceById s) (incomingMessageRequests s) (imageMessageProjectionsById s) (storage s).
Definition on_last_read f s := mkStore (contacts s) (selectedContactId s) (contactFolders s)
  (contactFolderIdByContactId s) (messagesByContactId s) (outbox s) (readReceiptOutbox s) (f (lastReadAtByContactId s))
  (typingExpiresAtByContactId s) (contactPresenceById s) (incomingMessageRequests s) (imageMessageProjectionsById s) (storage s).
Definition on_typing f s := mkStore (contacts s) (selectedContactId s) (contactFolders s)
  (contactFolderIdByContactId s) (messagesByContactId s) (outbox s) (readReceiptOutbox s) (lastReadAtByContactId s)
  (f (typingExpiresAtByContactId s)) (contactPresenceById s) (incomingMessageRequests s) (imageMessageProjectionsById s) (storage s).
Definition on_presence f s := mkStore (contacts s) (selectedContactId s) (contactFolders s)
  (contactFolderIdByContactId s) (messagesByContactId s) (outbox s) (readReceiptOutbox s) (lastReadAtByContactId s)
  (typingExpiresAtByContactId s) (f (contactPresenceById s)) (incomingMessageRequests s) (imageMessageProjectionsById s) (storage s).
Definition on_requests f s := mkStore (contacts s) (selectedContactId s) (contactFolders s)
  (contactFolderIdByContactId s) (messagesByContactId s) (outbox s) (readReceiptOutbox s) (lastReadAtByContactId s)
  (typingExpiresAtByContactId s) (contactPresenceById s) (f (incomingMessageRequests s)) (imageMessageProjectionsById s) (storage s).
Definition on_images f s := mkStore (contacts s) (selectedContactId s) (contactFolders s)
  (contactFolderIdByContactId s) (messagesByContactId s) (outbox s) (readReceiptOutbox s) (lastReadAtByContactId s)
  (typingExpiresAtByContactId s) (contactPresenceById s) (incomingMessageRequests s) (f (imageMessageProjectionsById s)) (storage s).
Definition request (r : list StorageRequest) s := mkStore (contacts s) (selectedContactId s) (contactFolders s)
  (contactFolderIdByContactId s) (messagesByContactId s) (outbox s) (readReceiptOutbox s) (lastReadAtByContactId s)
  (typingExpiresAtByContactId s) (contactPresenceById s) (incomingMessageRequests s) (imageMessageProjectionsById s) (storage s ++ r).

(** [record[key] ?? []] *)
Definition bucket {A} (m : record_of (list A)) (key : jsstring) : list A := default [] (map_get m key).

(** [items.filter(p)] *)
Definition keep {A} (p : A -> bool) (l : list A) : list A := filter (fun x => p x = true) l.

(** ** [conversations-slice.ts] *)

Definition conversation_cmp (left right : MessageSummary) : Z :=
  if negb (Message.sentAt left =? Message.sentAt right) then Message.sentAt left - Message.sentAt right
  else if js_ltb (Message.messageId left) (Message.messageId right) then -1
  else if js_ltb (Message.messageId right) (Message.messageId left) then 1 else 0.

Definition orderConversationMessages (l : list MessageSummary) : list MessageSummary := sort_by conversation_cmp l.

Fixpoint group_into (grouped : record_of (list MessageSummary)) (l : list MessageSummary)
  : record_of (list MessageSummary) :=
  match l with
  | [] => grouped
  | m :: l => group_into (map_set grouped (Message.contactId m) (bucket grouped (Message.contactId m) ++ [m])) l
  end.

Definition groupMessagesByContactId (l : list MessageSummary) : record_of (list MessageSummary) :=
  (fun e => (e.1, orderConversationMessages e.2)) <$> group_into [] l.

Definition appendMessage (m : MessageSummary) (s : AppStore) : AppStore :=
  let c := Message.contactId m in
  let others := keep (fun x => negb (str_eqb (Message.messageId x) (Message.messageId m)))
                  (bucket (messagesByContactId s) c) in
  let timeline := last_of maxConversationTimelineEntries (orderConversationMessages (others ++ [m])) in
  request [PersistMessage m] (on_messages (fun ms => map_set ms c timeline) s).

Definition replaceConversationWindow (contactId : jsstring) (l : list MessageSummary) (s : AppStore) : AppStore :=
  let bounded := last_of maxConversationTimelineEntries
                   (keep (fun m => str_eqb (Message.contactId m) contactId) (orderConversationMessages l)) in
  on_messages (fun ms => map_set ms contactId bounded) s.

(** Whether the callback replaces this message. *)
Definition is_retried (previousMessageId : jsstring) (m : MessageSummary) : bool :=
  str_eqb (Message.messageId m) previousMessageId && bool_decide (Message.direction m = outgoing)
  && bool_decide (Message.deliveryState m = d_unavailable).

Definition retryUnavailableMessage (contactId previousMessageId : jsstring) (replacement : MessageSummary)
    (s : AppStore) : bool * AppStore :=
  if str_eqb (Message.messageId replacement) previousMessageId
     || negb (str_eqb (Message.contactId replacement) contactId)
     || negb (bool_decide (Message.direction replacement = outgoing))
     || negb (bool_decide (Message.deliveryState replacement = d_pending))
  then (false, s)
  else match map_get (messagesByContactId s) contactId with
  | None => (false, s)
  | Some existing =>
      if existsb (is_retried previousMessageId) existing
      then
        let next := (fun m => if is_retried previousMessageId m then replacement else m) <$> existing in
        (true, request [PersistRetried previousMessageId replacement]
                 (on_messages (fun ms => map_set ms contactId (orderConversationMessages next)) s))
      else (false, s)
  end.

Definition canAdvanceDeliveryState (current next : MessageDeliveryState) : bool :=
  match current with
  | d_pending => bool_decide (next = d_relayed) || bool_decide (next = d_unavailable)
  | d_relayed | d_unavailable => bool_decide (next = d_delivered)
  | d_delivered => bool_decide (next = d_read)
  | d_read | d_received => false
  end.

Definition with_state (m : MessageSummary) (st : MessageDeliveryState) : MessageSummary :=
  Message.mk (Message.messageId m) (Message.contactId m) (Message.direction m) (Message.body m)
    (Message.sentAt m) st (Message.applicationMessageId m) (Message.replyToMessageId m).

Definition advances (messageId : jsstring) (st : MessageDeliveryState) (m : MessageSummary) : bool :=
  str_eqb (Message.messageId m) messageId && bool_decide (Message.direction m = outgoing)
  && canAdvanceDeliveryState (Message.deliveryState m) st.

(** [transition.message] is the last message the callback changed. *)
Definition setMessageDeliveryState (contactId messageId : jsstring) (st : MessageDeliveryState) (s : AppStore)
  : AppStore :=
  match map_get (messagesByContactId s) contactId with
  | None => s
  | Some existing =>
      match last (keep (advances messageId st) existing) with
      | None => s
      | Some m =>
          let next := (fun x => if advances messageId st x then with_state x st else x) <$> existing in
          request [PersistMessage (with_state m st)] (on_messages (fun ms => map_set ms contactId next) s)
      end
  end.

(** ** [image-message-projections-slice.ts] *)

Definition boundedText (value : jsstring) (maximumBytes : Z) : bool :=
  (0 <? zlen value) && (text_bytes value <=? maximumBytes).

Definition validTimestamp (value : number) : bool := number_in 0 MAX_SAFE_INTEGER value.
Definition positiveSafeInteger (value : number) : bool := number_in 1 MAX_SAFE_INTEGER value.

(** The pattern [^[A-Za-z0-9_-]{22}$]. *)
Definition optionalMessageId (value : option jsstring) : bool :=
  match value with None => true | Some v => (zlen v =? 22) && forallb url_class v end.

(** The last test compares with a quotient of doubles: the widths and heights
    that pass it are those whose product is a safe integer. *)
Definition validImageMessageProjection (p : ImageMessageProjection) : bool :=
  boundedText (Projection.messageId p) 128 && boundedText (Projection.contactId p) 128
  && negb (bool_decide (Projection.direction p = service))
  && validTimestamp (Projection.sentAt p) && isRasterImageMediaType (Projection.mediaType p)
  && positiveSafeInteger (Projection.byteCount p) && positiveSafeInteger (Projection.width p)
  && positiveSafeInteger (Projection.height p) && optionalMessageId (Projection.replyToMessageId p)
  && (number_value (Projection.width p) * number_value (Projection.height p) <=? MAX_SAFE_INTEGER).

Definition sameProjection (left right : ImageMessageProjection) : bool :=
  str_eqb (Projection.messageId left) (Projection.messageId right)
  && str_eqb (Projection.contactId left) (Projection.contactId right)
  && bool_decide (Projection.direction left = Projection.direction right)
  && bool_decide (Projection.sentAt left = Projection.sentAt right)
  && str_eqb (Projection.mediaType left) (Projection.mediaType right)
  && bool_decide (Projection.byteCount left = Projection.byteCount right)
  && bool_decide (Projection.width left = Projection.width right)
  && bool_decide (Projection.height left = Projection.height right)
  && bool_decide (Projection.caption left = Projection.caption right)
  && bool_decide (Projection.replyToMessageId left = Projection.replyToMessageId right).

(** The loop of [hydrateImageMessageProjections], with its [continue] and [break]. *)
Fixpoint hydrate_images (next : record_of ImageMessageProjection) (l : list ImageMessageProjection)
  : record_of ImageMessageProjection :=
  match l with
  | [] => next
  | p :: l =>
      if negb (validImageMessageProjection p) || map_has next (Projection.messageId p)
      then hydrate_images next l
      else if maxImageMessageProjections <=? zlen next then next
      else hydrate_images (map_set next (Projection.messageId p) p) l
  end.

Definition hydrateImageMessageProjections (l : list ImageMessageProjection) (s : AppStore) : AppStore :=
  on_images (fun _ => hydrate_images [] l) s.

(** [localeCompare] is the collation of the browser. *)
Definition projection_cmp (localeCompare : jsstring -> jsstring -> Z) (left right : ImageMessageProjection) : Z :=
  let difference := number_value (Projection.sentAt left) - number_value (Projection.sentAt right) in
  if difference =? 0 then localeCompare (Projection.messageId left) (Projection.messageId right) else difference.

Definition set_projections (m : record_of ImageMessageProjection) (l : list ImageMessageProjection)
  : record_of ImageMessageProjection :=
  foldl (fun m p => map_set m (Projection.messageId p) p) m l.

Definition replaceImageMessageProjectionWindow (localeCompare : jsstring -> jsstring -> Z) (contactId : jsstring)
    (l : list ImageMessageProjection) (s : AppStore) : AppStore :=
  if negb (boundedText contactId 128) then s
  else
    on_images (fun m =>
      let others := map_delete_if (fun _ p => str_eqb (Projection.contactId p) contactId) m in
      let mine := last_of maxConversationTimelineEntries
        (sort_by (projection_cmp localeCompare)
          (keep (fun p => str_eqb (Projection.contactId p) contactId && validImageMessageProjection p) l)) in
      set_projections others mine) s.

Definition stageImageMessageProjection (p : ImageMessageProjection) (s : AppStore) : bool * AppStore :=
  if negb (validImageMessageProjection p) then (false, s)
  else match map_get (imageMessageProjectionsById s) (Projection.messageId p) with
  | Some existing => (sameProjection existing p, s)
  | None =>
      if maxImageMessageProjections <=? zlen (imageMessageProjectionsById s) then (false, s)
      else (true, on_images (fun m => map_set m (Projection.messageId p) p) s)
  end.

Definition removeImageMessageProjections (messageIds : list jsstring) (s : AppStore) : AppStore :=
  let wanted := take (Z.to_nat maxImageMessageProjections) (keep (fun id => boundedText id 128) messageIds) in
  on_images (map_delete_if (fun id _ => bool_decide (id ∈ wanted))) s.

Definition clearImageMessageProjectionsForContact (contactId : jsstring) (s : AppStore) : AppStore :=
  if negb (boundedText contactId 128) then s
  else on_images (map_delete_if (fun _ p => str_eqb (Projection.contactId p) contactId)) s.

Definition clearImageMessageProjections (s : AppStore) : AppStore := on_images (fun _ => []) s.

(** ** [conversations-slice.ts], the actions that reach other slices *)

Definition deleteMessagesLocally (contactId : jsstring) (messageIds : list jsstring) (s : AppStore)
  : list MessageSummary * AppStore :=
  let wanted := take (Z.to_nat maxLocalMessageActionCount) (keep (fun id => negb (str_eqb id [])) messageIds) in
  let is_wanted m := bool_decide (Message.messageId m ∈ wanted) in
  let deleted := keep is_wanted (bucket (messagesByContactId s) contactId) in
  match deleted with
  | [] => ([], s)
  | _ =>
      let deletedIds := Message.messageId <$> deleted in
      let s := on_messages (fun ms => map_set ms contactId (keep (fun m => negb (is_wanted m)) (bucket ms contactId))) s in
      let s := on_outbox (keep (fun e => negb (bool_decide (Outbox.messageId e ∈ wanted)))) s in
      (deleted, request [PersistDeletion deletedIds; DeleteImages deletedIds]
                  (removeImageMessageProjections deletedIds s))
  end.

(** The fields that [clearLocalConversation] and [forgetContact] both clear. *)
Definition clear_conversation_fields (contactId : jsstring) (s : AppStore) : AppStore :=
  let s := on_messages (fun m => map_delete m contactId) s in
  let s := on_last_read (fun m => map_delete m contactId) s in
  let s := on_typing (fun m => map_delete m contactId) s in
  let s := on_outbox (keep (fun e => negb (str_eqb (Outbox.contactId e) contactId))) s in
  on_receipts (keep (fun e => negb (str_eqb (Receipt.contactId e) contactId))) s.

Definition clearLocalConversation (contactId : jsstring) (s : AppStore) : AppStore :=
  request ((fun st => DeleteForContact st contactId) <$>
           [st_messages; st_read_state; st_outbox; st_read_receipts; st_delivery_targets;
            st_terminal_read_targets; st_image_messages])
    (clear_conversation_fields contactId (clearImageMessageProjectionsForContact contactId s)).

(** ** [contact-folders-slice.ts] and [contact-folders-model.ts] *)

(** [value.normalize("NFC").trim()]: [nfc] is the runtime's Unicode table. *)
Definition normalizeContactFolderName (nfc : jsstring -> jsstring) (value : jsstring) : option jsstring :=
  let normalized := js_trim (nfc value) in
  if (1 <=? zlen normalized) && (zlen normalized <=? maxContactFolderNameLength) then Some normalized else None.

Fixpoint first_by_id (seen : list jsstring) (l : list ContactFolder) : list ContactFolder :=
  match l with
  | [] => []
  | f :: l => if bool_decide (Folder.folderId f ∈ seen) then first_by_id seen l
              else f :: first_by_id (Folder.folderId f :: seen) l
  end.

Definition known_contact (s : AppStore) (contactId : jsstring) : bool :=
  existsb (fun c => str_eqb (Contact.contactId c) contactId) (contacts s).

Definition hydrateContactFolders (folders : list ContactFolder) (assignments : list (jsstring * jsstring))
    (s : AppStore) : AppStore :=
  let accepted := take (Z.to_nat maxContactFolders) (first_by_id [] folders) in
  let assigned := foldl (fun m a =>
    if known_contact s a.1 && bool_decide (a.2 ∈ Folder.folderId <$> accepted) then map_set m a.1 a.2 else m)
    [] assignments in
  on_assignments (fun _ => assigned) (on_folders (fun _ => accepted) s).

Definition createContactFolder (nfc : jsstring -> jsstring) (folderId name : jsstring) (createdAt : Z)
    (s : AppStore) : bool * AppStore :=
  match normalizeContactFolderName nfc name with
  | None => (false, s)
  | Some normalizedName =>
      if (maxContactFolders <=? zlen (contactFolders s))
         || existsb (fun f => str_eqb (Folder.folderId f) folderId || str_eqb (Folder.name f) normalizedName)
              (contactFolders s)
      then (false, s)
      else
        let folder := Folder.mk folderId normalizedName createdAt in
        (true, request [SaveFolder folder] (on_folders (fun fs => fs ++ [folder]) s))
  end.

Definition renameContactFolder (nfc : jsstring -> jsstring) (folderId name : jsstring) (s : AppStore)
  : bool * AppStore :=
  match normalizeContactFolderName nfc name with
  | None => (false, s)
  | Some normalizedName =>
      if existsb (fun f => negb (str_eqb (Folder.folderId f) folderId) && str_eqb (Folder.name f) normalizedName)
           (contactFolders s)
      then (false, s)
      else match head (keep (fun f => str_eqb (Folder.folderId f) folderId) (contactFolders s)) with
      | None => (false, s)
      | Some current =>
          let renamed := Folder.mk (Folder.folderId current) normalizedName (Folder.createdAt current) in
          (true, request [SaveFolder renamed]
             (on_folders (fun fs => (fun f => if str_eqb (Folder.folderId f) folderId then renamed else f) <$> fs) s))
      end
  end.

Definition deleteContactFolder (folderId : jsstring) (s : AppStore) : AppStore :=
  let s := on_folders (keep (fun f => negb (str_eqb (Folder.folderId f) folderId))) s in
  request [DeleteFolder folderId] (on_assignments (map_delete_if (fun _ f => str_eqb f folderId)) s).

Definition assignContactFolder (contactId : jsstring) (folderId : option jsstring) (s : AppStore) : bool * AppStore :=
  if negb (known_contact s contactId) then (false, s)
  else match folderId with
  | None => (true, request [DeleteAssignment contactId] (on_assignments (fun m => map_delete m contactId) s))
  | Some f =>
      if negb (existsb (fun x => str_eqb (Folder.folderId x) f) (contactFolders s)) then (false, s)
      else (true, request [SaveAssignment contactId f] (on_assignments (fun m => map_set m contactId f) s))
  end.

Definition clearContactFolderAssignment (contactId : jsstring) (s : AppStore) : AppStore :=
  if negb (map_has (contactFolderIdByContactId s) contactId) then s
  else request [DeleteAssignment contactId] (on_assignments (fun m => map_delete m contactId) s).

(** ** [contacts-slice.ts] *)

Definition upsertContact (c : ContactSummary) (s : AppStore) : AppStore :=
  request [SaveContact c]
    (on_contacts (fun cs => keep (fun x => negb (str_eqb (Contact.contactId x) (Contact.contactId c))) cs ++ [c]) s).

(** [contacts.find(p)?.peerId ?? null] *)
Definition peer_of_contact (s : AppStore) (contactId : jsstring) : option jsstring :=
  head (keep (fun c => str_eqb (Contact.contactId c) contactId) (contacts s)) ≫= Contact.peerId.

Definition forgetContact (contactId : jsstring) (s : AppStore) : AppStore :=
  let s := match peer_of_contact s contactId with
           | Some peerId => request [ClearCompletedAttachment peerId] s
           | None => s
           end in
  let s := clearContactFolderAssignment contactId s in
  let s := clearImageMessageProjectionsForContact contactId s in
  let wasSelected := bool_decide (selectedContactId s = Some contactId) in
  let s := on_contacts (keep (fun c => negb (str_eqb (Contact.contactId c) contactId))) s in
  let s := on_selected (fun sel => if bool_decide (sel = Some contactId) then None else sel) s in
  let s := request (DeleteContact contactId :: ((fun st => DeleteForContact st contactId) <$>
             [st_messages; st_read_state; st_outbox; st_read_receipts; st_delivery_targets; st_image_messages]))
             (clear_conversation_fields contactId s) in
  if wasSelected then request [SaveLastChat None] s else s.

Definition selectContact (contactId : option jsstring) (s : AppStore) : AppStore :=
  let s := on_selected (fun _ => contactId) s in
  match contactId with Some _ => request [SaveLastChat contactId] s | None => s end.

(** ** [message-outbox-slice.ts] *)

Definition hydrateOutbox (entries : list StoredOutboxEntry) (s : AppStore) : AppStore :=
  on_outbox (fun _ => last_of maxStoredOutboxEntries entries) s.

Definition queueMessage (e : StoredOutboxEntry) (s : AppStore) : AppStore :=
  let next := keep (fun x => negb (str_eqb (Outbox.messageId x) (Outbox.messageId e))) (outbox s) ++ [e] in
  let evicted := take (length next - Z.to_nat maxStoredOutboxEntries) next in
  request (SaveOutbox e :: (DeleteOutbox <$> (Outbox.messageId <$> evicted)))
    (on_outbox (fun _ => last_of maxStoredOutboxEntries next) s).

Definition markOutboxMessageDelivered (messageId : jsstring) (deliveredAt : Z) (s : AppStore) : AppStore :=
  match head (keep (fun e => str_eqb (Outbox.messageId e) messageId) (outbox s)) with
  | None => s
  | Some e =>
      let retained := Outbox.mk (Outbox.messageId e) (Outbox.contactId e) (Outbox.applicationMessageId e)
                        (Outbox.createdAt e) (Outbox.nextAttemptAt e) (Outbox.attempts e)
                        (Outbox.lastDeliveryId e) (Some deliveredAt) in
      request [SaveOutbox retained]
        (on_outbox (fun es => (fun x => if str_eqb (Outbox.messageId x) messageId then retained else x) <$> es) s)
  end.

Definition settleOutboxMessage (messageId : jsstring) (s : AppStore) : AppStore :=
  request [DeleteOutbox messageId]
    (on_outbox (keep (fun e => negb (str_eqb (Outbox.messageId e) messageId))) s).

(** ** [read-receipt-outbox-slice.ts] *)

Definition receipt_cmp (left right : StoredReadReceiptEntry) : Z := Receipt.readAt left - Receipt.readAt right.

Definition hydrateReadReceiptOutbox (entries : list StoredReadReceiptEntry) (s : AppStore) : AppStore :=
  let normalized := sort_by receipt_cmp entries in
  let retained := last_of maxStoredReadReceiptEntries normalized in
  let dropped := keep (fun e => negb (bool_decide (Receipt.targetDeliveryId e ∈ Receipt.targetDeliveryId <$> retained)))
                   normalized in
  request (DeleteReceipt <$> (Receipt.targetDeliveryId <$> dropped)) (on_receipts (fun _ => retained) s).

(** [[...new Set(ids)]] *)
Definition js_unique (ids : list jsstring) : list jsstring := map_keys (foldl (fun m id => map_set m id tt) [] ids).

(** The loop over the new entries; [replaced] is the [Map] by target. *)
Fixpoint record_receipts (replaced : record_of StoredReadReceiptEntry) (l : list StoredReadReceiptEntry)
  : record_of StoredReadReceiptEntry * list StoredReadReceiptEntry :=
  match l with
  | [] => (replaced, [])
  | e :: l =>
      if map_has replaced (Receipt.targetDeliveryId e) then record_receipts replaced l
      else
        let '(replaced, recorded) := record_receipts (map_set replaced (Receipt.targetDeliveryId e) e) l in
        (replaced, e :: recorded)
  end.

Definition recordIncomingMessagesRead (contactId : jsstring) (targets : list jsstring) (queueReceipts : bool)
    (readAt : Z) (s : AppStore) : AppStore :=
  match js_unique targets with
  | [] => s
  | uniqueIds =>
      let fresh := (fun id => Receipt.mk id contactId readAt queueReceipts) <$> uniqueIds in
      let current := foldl (fun m e => map_set m (Receipt.targetDeliveryId e) e) [] (readReceiptOutbox s) in
      let '(replaced, recorded) := record_receipts current fresh in
      let next := sort_by receipt_cmp replaced.*2 in
      let evicted := take (length next - Z.to_nat maxStoredReadReceiptEntries) next in
      request ((SaveReceipt <$> recorded) ++ (DeleteReceipt <$> (Receipt.targetDeliveryId <$> evicted)))
        (on_receipts (fun _ => last_of maxStoredReadReceiptEntries next) s)
  end.

Definition settleReadReceipt (target : jsstring) (s : AppStore) : AppStore :=
  match head (keep (fun e => str_eqb (Receipt.targetDeliveryId e) target) (readReceiptOutbox s)) with
  | None => s
  | Some e =>
      if negb (Receipt.receiptPending e) then s
      else
        let settled := Receipt.mk (Receipt.targetDeliveryId e) (Receipt.contactId e) (Receipt.readAt e) false in
        request [SaveReceipt settled]
          (on_receipts (fun es => (fun x => if str_eqb (Receipt.targetDeliveryId x) target then settled else x) <$> es) s)
  end.

(** ** [read-state-slice.ts] and [contact-typing-slice.ts] *)

Definition markContactRead (contactId : jsstring) (timestamp : Z) (s : AppStore) : AppStore :=
  request [SaveReadState contactId timestamp] (on_last_read (fun m => map_set m contactId timestamp) s).

(** [pairs.reduce(...)]: the first pair with the least value. *)
Fixpoint least_pair {A} (value : A -> Z) (selected : jsstring * A) (pairs : record_of A) : jsstring * A :=
  match pairs with
  | [] => selected
  | candidate :: pairs =>
      least_pair value (if value candidate.2 <? value selected.2 then candidate else selected) pairs
  end.

(** [bounded] and [boundedPresenceMap]: over the limit, the pair with the least
    value leaves. *)
Definition bounded_map {A} (limit : Z) (value : A -> Z) (m : record_of A) : record_of A :=
  if zlen m <=? limit then m
  else match m with
       | [] => m
       | first :: rest => map_delete m (least_pair value first rest).1
       end.

Definition setContactTyping (contactId : jsstring) (expiresAt : Z) (s : AppStore) : AppStore :=
  on_typing (fun m => bounded_map maxTypingContacts id (map_set m contactId expiresAt)) s.

Definition expireContactTyping (contactId : jsstring) (expiresAt : Z) (s : AppStore) : AppStore :=
  if bool_decide (map_get (typingExpiresAtByContactId s) contactId = Some expiresAt)
  then on_typing (fun m => map_delete m contactId) s else s.

Definition clearContactTyping (contactId : jsstring) (s : AppStore) : AppStore :=
  on_typing (fun m => map_delete m contactId) s.

Definition clearAllContactTyping (s : AppStore) : AppStore := on_typing (fun _ => []) s.

(** ** [contact-presence-slice.ts] *)

Definition boundedPresenceMap (m : record_of ContactPresence) : record_of ContactPresence :=
  bounded_map maxContactPresenceEntries Presence.updatedAt m.

Definition beginContactPresencePing (contactId pingId : jsstring) (now : Z) (s : AppStore) : AppStore :=
  on_presence (fun m =>
    let next := match map_get m contactId with
                | Some current =>
                    if decide (Presence.status current = p_available)
                    then Presence.mk p_available (Presence.evidence current) (Presence.updatedAt current)
                           (Some now) (Some pingId)
                    else Presence.mk p_checking None now (Some now) (Some pingId)
                | None => Presence.mk p_checking None now (Some now) (Some pingId)
                end in
    boundedPresenceMap (map_set m contactId next)) s.

(** [current?.pendingPingId !== pingId] *)
Definition awaits_ping (current : option ContactPresence) (pingId : jsstring) : bool :=
  bool_decide (current ≫= Presence.pendingPingId = Some pingId).

Definition acceptContactPresencePong (contactId pingId : jsstring) (now : Z) (s : AppStore) : AppStore :=
  match map_get (contactPresenceById s) contactId with
  | Some current =>
      if awaits_ping (Some current) pingId
      then on_presence (fun m => map_set m contactId
             (Presence.mk p_available (Some encrypted_pong) now (Presence.lastProbeAt current) None)) s
      else s
  | None => s
  end.

Definition confirmContactPresenceFromLiveTraffic (contactId : jsstring) (now : Z) (s : AppStore) : AppStore :=
  on_presence (fun m =>
    boundedPresenceMap (map_set m contactId
      (Presence.mk p_available (Some encrypted_live_traffic) now (map_get m contactId ≫= Presence.lastProbeAt) None))) s.

Definition expireContactPresencePing (contactId pingId : jsstring) (now : Z) (s : AppStore) : AppStore :=
  match map_get (contactPresenceById s) contactId with
  | Some current =>
      if awaits_ping (Some current) pingId
      then on_presence (fun m => map_set m contactId
             (if decide (Presence.status current = p_checking)
              then Presence.mk p_unknown None now (Presence.lastProbeAt current) None
              else Presence.mk (Presence.status current) (Presence.evidence current) (Presence.updatedAt current)
                     (Presence.lastProbeAt current) None)) s
      else s
  | None => s
  end.

Definition expireContactPresence (contactId : jsstring) (updatedAt now : Z) (s : AppStore) : AppStore :=
  match map_get (contactPresenceById s) contactId with
  | Some current =>
      if negb (Presence.updatedAt current =? updatedAt) then s
      else on_presence (fun m => map_set m contactId
             (Presence.mk p_unknown None now (Presence.lastProbeAt current) None)) s
  | None => s
  end.

(** ** [message-requests-slice.ts] *)

Definition request_cmp (left right : IncomingMessageRequest) : Z := Request.receivedAt left - Request.receivedAt right.

Definition receiveMessageRequest (r : IncomingMessageRequest) (s : AppStore) : AppStore :=
  if existsb (fun x => str_eqb (Request.requestId x) (Request.requestId r)) (incomingMessageRequests s) then s
  else
    let next := sort_by request_cmp (incomingMessageRequests s ++ [r]) in
    let over := maxIncomingMessageRequests <? zlen next in
    let evicted := if over then Request.requestId <$> take 1 next else [] in
    request (SaveRequest r :: (DeleteRequest <$> evicted))
      (on_requests (fun _ => if over then tail next else next) s).

Definition dismissMessageRequest (requestId : jsstring) (s : AppStore) : AppStore :=
  request [DeleteRequest requestId]
    (on_requests (keep (fun r => negb (str_eqb (Request.requestId r) requestId))) s).

(** [newId] is [crypto.randomUUID()]. *)
Definition acceptMessageRequest (requestId newId : jsstring) (s : AppStore) : option jsstring * AppStore :=
  match head (keep (fun r => str_eqb (Request.requestId r) requestId) (incomingMessageRequests s)) with
  | None => (None, s)
  | Some r =>
      let existing := head (keep (fun c => bool_decide (Contact.peerId c = Some (Request.senderPeerId r))) (contacts s)) in
      let contactId := match existing with Some c => Contact.contactId c | None => newId end in
      let s := match existing with
               | Some _ => s
               | None => upsertContact (Contact.mk contactId (Request.senderDisplayName r)
                           (Some (Request.senderPeerId r)) (Some (Request.senderHpkePublicKey r)) None) s
               end in
      let s := appendMessage (Message.mk (Request.requestId r) contactId incoming (Request.body r)
                 (Request.receivedAt r) d_received None None) s in
      (Some contactId, dismissMessageRequest requestId s)
  end.

Definition setIncomingMessageRequests (l : list IncomingMessageRequest) (s : AppStore) : AppStore :=
  let unique := foldl (fun m r => map_set m (Request.requestId r) r) [] l in
  on_requests (fun _ => last_of maxIncomingMessageRequests (sort_by request_cmp unique.*2)) s.

(** ** Actions *)

Inductive action : Type :=
| act_appendMessage (m : MessageSummary)
| act_replaceConversationWindow (contactId : jsstring) (l : list MessageSummary)
| act_retryUnavailableMessage (contactId previous : jsstring) (m : MessageSummary)
| act_setMessageDeliveryState (contactId messageId : jsstring) (st : MessageDeliveryState)
| act_deleteMessagesLocally (contactId : jsstring) (messageIds : list jsstring)
| act_clearLocalConversation (contactId : jsstring)
| act_hydrateImages (l : list ImageMessageProjection)
| act_replaceImages (localeCompare : jsstring -> jsstring -> Z) (contactId : jsstring) (l : list ImageMessageProjection)
| act_stageImage (p : ImageMessageProjection)
| act_clearImages
| act_upsertContact (c : ContactSummary)
| act_forgetContact (contactId : jsstring)
| act_selectContact (contactId : option jsstring)
| act_hydrateFolders (folders : list ContactFolder) (assignments : list (jsstring * jsstring))
| act_createFolder (nfc : jsstring -> jsstring) (folderId name : jsstring) (createdAt : Z)
| act_renameFolder (nfc : jsstring -> jsstring) (folderId name : jsstring)
| act_deleteFolder (folderId : jsstring)
| act_assignFolder (contactId : jsstring) (folderId : option jsstring)
| act_hydrateOutbox (entries : list StoredOutboxEntry)
| act_queueMessage (e : StoredOutboxEntry)
| act_markDelivered (messageId : jsstring) (deliveredAt : Z)
| act_settleOutbox (messageId : jsstring)
| act_hydrateReceipts (entries : list StoredReadReceiptEntry)
| act_recordRead (contactId : jsstring) (targets : list jsstring) (queueReceipts : bool) (readAt : Z)
| act_settleReceipt (target : jsstring)
| act_markContactRead (contactId : jsstring) (timestamp : Z)
| act_setTyping (contactId : jsstring) (expiresAt : Z)
| act_expireTyping (contactId : jsstring) (expiresAt : Z)
| act_clearTyping (contactId : jsstring)
| act_clearAllTyping
| act_beginPing (contactId pingId : jsstring) (now : Z)
| act_acceptPong (contactId pingId : jsstring) (now : Z)
| act_liveTraffic (contactId : jsstring) (now : Z)
| act_expirePing (contactId pingId : jsstring) (now : Z)
| act_expirePresence (contactId : jsstring) (updatedAt now : Z)
| act_receiveRequest (r : IncomingMessageRequest)
| act_acceptRequest (requestId newId : jsstring)
| act_dismissRequest (requestId : jsstring)
| act_setRequests (l : list IncomingMessageRequest).

Definition run_action (s : AppStore) (a : action) : AppStore :=
  match a with
  | act_appendMessage m => appendMessage m s
  | act_replaceConversationWindow c l => replaceConversationWindow c l s
  | act_retryUnavailableMessage c p m => (retryUnavailableMessage c p m s).2
  | act_setMessageDeliveryState c m st => setMessageDeliveryState c m st s
  | act_deleteMessagesLocally c ids => (deleteMessagesLocally c ids s).2
  | act_clearLocalConversation c => clearLocalConversation c s
  | act_hydrateImages l => hydrateImageMessageProjections l s
  | act_replaceImages cmp c l => replaceImageMessageProjectionWindow cmp c l s
  | act_stageImage p => (stageImageMessageProjection p s).2
  | act_clearImages => clearImageMessageProjections s
  | act_upsertContact c => upsertContact c s
  | act_forgetContact c => forgetContact c s
  | act_selectContact c => selectContact c s
  | act_hydrateFolders fs l => hydrateContactFolders fs l s
  | act_createFolder nfc f n at_ => (createContactFolder nfc f n at_ s).2
  | act_renameFolder nfc f n => (renameContactFolder nfc f n s).2
  | act_deleteFolder f => deleteContactFolder f s
  | act_assignFolder c f => (assignContactFolder c f s).2
  | act_hydrateOutbox l => hydrateOutbox l s
  | act_queueMessage e => queueMessage e s
  | act_markDelivered m at_ => markOutboxMessageDelivered m at_ s
  | act_settleOutbox m => settleOutboxMessage m s
  | act_hydrateReceipts l => hydrateReadReceiptOutbox l s
  | act_recordRead c l q at_ => recordIncomingMessagesRead c l q at_ s
  | act_settleReceipt t => settleReadReceipt t s
  | act_markContactRead c t => markContactRead c t s
  | act_setTyping c t => setContactTyping c t s
  | act_expireTyping c t => expireContactTyping c t s
  | act_clearTyping c => clearContactTyping c s
  | act_clearAllTyping => clearAllContactTyping s
  | act_beginPing c p now => beginContactPresencePing c p now s
  | act_acceptPong c p now => acceptContactPresencePong c p now s
  | act_liveTraffic c now => confirmContactPresenceFromLiveTraffic c now s
  | act_expirePing c p now => expireContactPresencePing c p now s
  | act_expirePresence c u now => expireContactPresence c u now s
  | act_receiveRequest r => receiveMessageRequest r s
  | act_acceptRequest r id => (acceptMessageRequest r id s).2
  | act_dismissRequest r => dismissMessageRequest r s
  | act_setRequests l => setIncomingMessageRequests l s
  end.
