(* ===== verification/AppStoreFacts.v ===== *)
(** * [pwa/src/state]: the invariant of the application store

    Each field has its own invariant; an action that does not touch a field
    keeps its invariant by conversion, so each action's lemma is about the
    fields it updates. *)
From Stdlib Require Import Sorting.Sorted.
From S2P Require Import Prelude JsRuntime Collections Base64Url Image Admission AppStore.

(** ** Lists and keyed maps *)

Section Sublists.
Context {A : Type}.
Implicit Types (l k : list A).

Lemma keep_sublist p l : keep p l `sublist_of` l.
Proof. apply sublist_filter. Qed.

Lemma drop_sublist n l : drop n l `sublist_of` l.
Proof. rewrite <- (take_drop n l) at 2. apply sublist_inserts_l. done. Qed.

Lemma keep_first p x l : keep p (x :: l) = if p x then x :: keep p l else keep p l.
Proof. unfold keep. rewrite filter_cons. destruct (p x); by case_decide. Qed.

Lemma keep_one p (x : A) : keep p [x] = if p x then [x] else [].
Proof. apply keep_first. Qed.

Lemma keep_nil p l : Forall (fun x => p x = false) l -> keep p l = [].
Proof. intros H. induction H as [|x l Hx _ IH]; [done |]. by rewrite keep_first, Hx. Qed.

Lemma keep_mono p l k : l `sublist_of` k -> keep p l `sublist_of` keep p k.
Proof.
  induction 1 as [|x l k _ IH|x l k _ IH]; [done | |]; rewrite !keep_first; destruct (p x);
    [by apply sublist_skip | done | by apply sublist_cons | done].
Qed.

Lemma last_of_sublist n l : last_of n l `sublist_of` l.
Proof. apply drop_sublist. Qed.

Lemma take_sublist n l : take n l `sublist_of` l.
Proof. rewrite <- (take_drop n l) at 2. apply sublist_inserts_r. done. Qed.

Lemma tail_sublist l : tail l `sublist_of` l.
Proof. destruct l; [done |]. by apply sublist_cons. Qed.

Lemma elem_of_keep p l x : x ∈ keep p l <-> p x = true /\ x ∈ l.
Proof. unfold keep. by rewrite list_elem_of_filter. Qed.

Lemma zlen_sublist l k : l `sublist_of` k -> zlen l <= zlen k.
Proof. intros H%sublist_length. unfold zlen. lia. Qed.

Lemma NoDup_fmap_sublist {B} (f : A -> B) l k : l `sublist_of` k -> NoDup (f <$> k) -> NoDup (f <$> l).
Proof. intros Hs Hn. eapply sublist_NoDup; [exact Hn | by apply fmap_sublist]. Qed.

Lemma sorted_sublist (R : A -> A -> Prop) l k : l `sublist_of` k -> StronglySorted R k -> StronglySorted R l.
Proof.
  induction 1 as [|x l k Hs IH|x l k Hs IH]; [done | |]; inversion 1 as [|? ? Hk Hf]; subst; [| by apply IH].
  constructor; [by apply IH | by eapply Forall_sublist].
Qed.

Lemma existsb_str (f : A -> jsstring) l s : existsb (fun x => str_eqb (f x) s) l = true <-> s ∈ f <$> l.
Proof.
  rewrite existsb_exists, list_elem_of_fmap. split.
  - intros (x & Hx & <-%str_eqb_true). exists x. by rewrite list_elem_of_In.
  - intros (x & -> & Hx). exists x. by rewrite <- list_elem_of_In, str_eqb_refl.
Qed.

(** Replacing an element by one with the same key. *)
Lemma NoDup_fmap_snoc {B} `{EqDecision B} (f : A -> B) l x :
  f x ∉ f <$> l -> NoDup (f <$> l) -> NoDup (f <$> (l ++ [x])).
Proof.
  intros Hx Hl. rewrite fmap_app. apply NoDup_app. split; [done |]. split; [set_solver | apply NoDup_singleton].
Qed.

Lemma fmap_same {B} (f : A -> B) (g : A -> A) l : (forall x, f (g x) = f x) -> f <$> (g <$> l) = f <$> l.
Proof. intros H. rewrite <- list_fmap_compose. apply list_fmap_ext. intros. apply H. Qed.

Lemma sorted_fmap (cmp : A -> A -> Z) (g : A -> A) l :
  (forall x y, cmp (g x) (g y) = cmp x y) -> StronglySorted (cmp_le cmp) l -> StronglySorted (cmp_le cmp) (g <$> l).
Proof.
  intros Hg. induction 1 as [|x l Hs IH Hf]; csimpl; [constructor |]. constructor; [done |].
  apply Forall_fmap. eapply Forall_impl; [exact Hf |]. intros y Hy. unfold cmp_le in *. simpl. by rewrite Hg.
Qed.

Lemma sort_by_zlen (cmp : A -> A -> Z) l : zlen (sort_by cmp l) = zlen l.
Proof. unfold zlen. by rewrite (sort_by_perm cmp l). Qed.

Lemma sort_by_Forall (cmp : A -> A -> Z) (P : A -> Prop) l : Forall P l -> Forall P (sort_by cmp l).
Proof. by rewrite (sort_by_perm cmp l). Qed.

Lemma sort_by_NoDup {B} (cmp : A -> A -> Z) (f : A -> B) l : NoDup (f <$> l) -> NoDup (f <$> sort_by cmp l).
Proof. by rewrite (sort_by_perm cmp l). Qed.

Lemma head_keep p l x : head (keep p l) = Some x -> p x = true /\ x ∈ l.
Proof. intros H. apply elem_of_keep. destruct (keep p l); simplify_eq/=. set_solver. Qed.
End Sublists.

Section Keyed.
Context {A : Type}.
Implicit Types m : record_of A.

Lemma map_set_Forall (P : jsstring * A -> Prop) m k v : Forall P m -> P (k, v) -> Forall P (map_set m k v).
Proof.
  intros Hm Hp. induction Hm as [|[k' v'] m Hx Hm IH]; cbn [map_set]; [by constructor |].
  destruct (decide (k = k')) as [->|]; by constructor.
Qed.

Lemma map_delete_if_sublist p m : map_delete_if p m `sublist_of` m.
Proof. apply sublist_filter. Qed.

Lemma map_delete_smaller m k : k ∈ map_keys m -> zlen (map_delete m k) < zlen m.
Proof.
  induction m as [|[k' v] m IH]; cbn [map_keys fmap list_fmap map_delete]; [by intros ?%not_elem_of_nil |].
  intros Hk. rewrite zlen_cons. destruct (decide (k = k')) as [|Hne].
  - pose proof (map_delete_size m k). lia.
  - apply elem_of_cons in Hk as [|Hk]; [done |]. rewrite zlen_cons. specialize (IH Hk). lia.
Qed.

Lemma map_get_elem_Forall (P : jsstring * A -> Prop) m k v : Forall P m -> map_get m k = Some v -> P (k, v).
Proof. intros Hm Hg%map_get_Some_elem. rewrite Forall_forall in Hm. by apply Hm. Qed.

Lemma map_set_zlen_le m k v : zlen (map_set m k v) <= zlen m + 1.
Proof. rewrite map_set_size. case_match; lia. Qed.

(** Every entry is stored under its own key. *)
Definition keyed (key : A -> jsstring) m : Prop := map_wf m /\ Forall (fun e => e.1 = key e.2) m.

Lemma keyed_nil key : keyed key [].
Proof. split; [apply NoDup_nil_2 | constructor]. Qed.

Lemma keyed_set key m x : keyed key m -> keyed key (map_set m (key x) x).
Proof. intros [Hw Hf]. split; [by apply map_set_wf | by apply map_set_Forall]. Qed.

Lemma keyed_foldl key m l : keyed key m -> keyed key (foldl (fun m x => map_set m (key x) x) m l).
Proof. revert m. induction l as [|x l IH]; intros m Hm; [done |]. by apply IH, keyed_set. Qed.

Lemma keyed_values key m : keyed key m -> NoDup (key <$> m.*2).
Proof.
  intros [Hw Hf]. replace (key <$> m.*2) with (map_keys m); [exact Hw |]. unfold map_keys.
  clear Hw. induction Hf as [|[k v] m Hx _ IH]; csimpl; [done |]. simpl in Hx. subst. by rewrite IH.
Qed.

Lemma least_pair_elem (value : A -> Z) selected pairs :
  least_pair value selected pairs ∈ selected :: pairs.
Proof.
  revert selected. induction pairs as [|c pairs IH]; intros selected; cbn [least_pair]; [set_solver |].
  specialize (IH (if value c.2 <? value selected.2 then c else selected)). case_match; set_solver.
Qed.

Lemma bounded_map_ok limit (value : A -> Z) m :
  0 <= limit -> map_wf m -> zlen m <= limit + 1 ->
  map_wf (bounded_map limit value m) /\ bounded_map limit value m `sublist_of` m
  /\ zlen (bounded_map limit value m) <= limit.
Proof.
  intros H0 Hw Hl. unfold bounded_map. destruct (Z.leb_spec (zlen m) limit); [by split_and! |].
  destruct m as [|first rest]; [by rewrite zlen_nil in * |]. split; [by apply map_delete_wf |]. split; [apply map_delete_sublist |].
  pose proof (least_pair_elem value first rest) as Hin.
  assert (zlen (map_delete (first :: rest) (least_pair value first rest).1) < zlen (first :: rest)); [| lia].
  apply map_delete_smaller. apply list_elem_of_fmap. eauto.
Qed.
End Keyed.

(** ** The order of a conversation *)

Lemma conversation_cmp_le x y :
  conversation_cmp x y <= 0 <->
  Message.sentAt x < Message.sentAt y
  \/ Message.sentAt x = Message.sentAt y /\ js_ltb (Message.messageId y) (Message.messageId x) = false.
Proof.
  unfold conversation_cmp. destruct (Z.eqb_spec (Message.sentAt x) (Message.sentAt y)) as [E|E]; simpl.
  - destruct (js_ltb (Message.messageId x) (Message.messageId y)) eqn:Exy.
    + assert (js_ltb (Message.messageId y) (Message.messageId x) = false).
      { destruct (js_ltb (Message.messageId y) (Message.messageId x)) eqn:Eyx; [| done].
        pose proof (js_ltb_trans _ _ _ Exy Eyx) as Hx. by rewrite js_ltb_irrefl in Hx. }
      split; [by right | lia].
    + destruct (js_ltb (Message.messageId y) (Message.messageId x)); split; try lia.
  - split; [left; lia | intros [|[]]; lia].
Qed.

Lemma conversation_total x y : conversation_cmp x y <= 0 \/ conversation_cmp y x <= 0.
Proof.
  rewrite !conversation_cmp_le. destruct (Z.lt_trichotomy (Message.sentAt x) (Message.sentAt y)) as [|[E|]]; [by auto | | by auto].
  rewrite E. destruct (js_ltb (Message.messageId y) (Message.messageId x)) eqn:Eyx; [| by auto].
  right. right. split; [done |]. destruct (js_ltb (Message.messageId x) (Message.messageId y)) eqn:Exy; [| done].
  pose proof (js_ltb_trans _ _ _ Exy Eyx) as Hx. by rewrite js_ltb_irrefl in Hx.
Qed.

Lemma js_geb_trans a b c : js_ltb b a = false -> js_ltb c b = false -> js_ltb c a = false.
Proof.
  intros Hba Hcb. destruct (js_ltb c a) eqn:Hca; [| done]. exfalso.
  destruct (js_ltb a b) eqn:Hab.
  - pose proof (js_ltb_trans _ _ _ Hca Hab). congruence.
  - pose proof (js_ltb_total a b Hab Hba) as ->. congruence.
Qed.

Lemma conversation_trans x y z : conversation_cmp x y <= 0 -> conversation_cmp y z <= 0 -> conversation_cmp x z <= 0.
Proof.
  rewrite !conversation_cmp_le. intros [Hxy|[Exy Lxy]] [Hyz|[Eyz Lyz]]; try (left; lia).
  right. split; [lia |]. by eapply js_geb_trans.
Qed.

Lemma ordered_sorted l : StronglySorted (cmp_le conversation_cmp) (orderConversationMessages l).
Proof. apply sort_by_sorted; [apply conversation_total | apply conversation_trans]. Qed.

(** ** The invariants of the fields *)

Definition timeline_ok (c : jsstring) (l : list MessageSummary) : Prop :=
  StronglySorted (cmp_le conversation_cmp) l /\ Forall (fun m => Message.contactId m = c) l
  /\ zlen l <= maxConversationTimelineEntries.

Definition messages_ok (m : record_of (list MessageSummary)) : Prop :=
  map_wf m /\ Forall (fun e => timeline_ok e.1 e.2) m.

Definition contacts_ok (l : list ContactSummary) : Prop := NoDup (Contact.contactId <$> l).

Definition folders_ok (l : list ContactFolder) : Prop :=
  NoDup (Folder.folderId <$> l) /\ zlen l <= maxContactFolders.

(** Only known contacts are assigned, and only to folders that exist. *)
Definition assignments_ok (cs : list ContactSummary) (fs : list ContactFolder) (m : record_of jsstring) : Prop :=
  map_wf m /\ Forall (fun e => e.1 ∈ Contact.contactId <$> cs /\ e.2 ∈ Folder.folderId <$> fs) m.

Definition outbox_ok (l : list StoredOutboxEntry) : Prop :=
  NoDup (Outbox.messageId <$> l) /\ zlen l <= maxStoredOutboxEntries.

Definition receipts_ok (l : list StoredReadReceiptEntry) : Prop :=
  NoDup (Receipt.targetDeliveryId <$> l) /\ zlen l <= maxStoredReadReceiptEntries.

Definition typing_ok (m : record_of Z) : Prop := map_wf m /\ zlen m <= maxTypingContacts.

(** A contact is shown as available exactly when there is a proof for it. *)
Definition presence_ok (m : record_of ContactPresence) : Prop :=
  map_wf m /\ zlen m <= maxContactPresenceEntries
  /\ Forall (fun e => Presence.status e.2 = p_available <-> Presence.evidence e.2 <> None) m.

Definition requests_ok (l : list IncomingMessageRequest) : Prop :=
  NoDup (Request.requestId <$> l) /\ zlen l <= maxIncomingMessageRequests
  /\ StronglySorted (cmp_le request_cmp) l.

(** The images of a contact. *)
Definition images_of (c : jsstring) (m : record_of ImageMessageProjection) : record_of ImageMessageProjection :=
  keep (fun e => str_eqb (Projection.contactId e.2) c) m.

(** A valid image each, under its own identifier, and at most 256 of a contact;
    how many there are of all contacts together has no bound
    ([images_exceed_limit]). *)
Definition images_ok (m : record_of ImageMessageProjection) : Prop :=
  keyed Projection.messageId m /\ Forall (fun e => validImageMessageProjection e.2 = true) m
  /\ (forall c, zlen (images_of c m) <= maxImageMessageProjections).

Definition store_inv (s : AppStore) : Prop :=
  messages_ok (messagesByContactId s) /\ contacts_ok (contacts s) /\ folders_ok (contactFolders s)
  /\ assignments_ok (contacts s) (contactFolders s) (contactFolderIdByContactId s)
  /\ outbox_ok (outbox s) /\ receipts_ok (readReceiptOutbox s) /\ typing_ok (typingExpiresAtByContactId s)
  /\ presence_ok (contactPresenceById s) /\ requests_ok (incomingMessageRequests s)
  /\ images_ok (imageMessageProjectionsById s) /\ map_wf (lastReadAtByContactId s).

Lemma empty_store_inv : store_inv empty_store.
Proof.
  unfold store_inv, messages_ok, contacts_ok, folders_ok, assignments_ok, outbox_ok, receipts_ok, typing_ok,
    presence_ok, requests_ok, images_ok, keyed, map_wf.
  split_and!; cbn; first [done | apply NoDup_nil_2 | constructor].
Qed.

(** *** Updates of one field *)

Lemma on_messages_inv f s :
  store_inv s -> (messages_ok (messagesByContactId s) -> messages_ok (f (messagesByContactId s))) ->
  store_inv (on_messages f s).
Proof. unfold store_inv. cbn. tauto. Qed.

Lemma on_outbox_inv f s :
  store_inv s -> (outbox_ok (outbox s) -> outbox_ok (f (outbox s))) -> store_inv (on_outbox f s).
Proof. unfold store_inv. cbn. tauto. Qed.

Lemma on_receipts_inv f s :
  store_inv s -> (receipts_ok (readReceiptOutbox s) -> receipts_ok (f (readReceiptOutbox s))) -> store_inv (on_receipts f s).
Proof. unfold store_inv. cbn. tauto. Qed.

Lemma on_typing_inv f s :
  store_inv s -> (typing_ok (typingExpiresAtByContactId s) -> typing_ok (f (typingExpiresAtByContactId s))) ->
  store_inv (on_typing f s).
Proof. unfold store_inv. cbn. tauto. Qed.

Lemma on_presence_inv f s :
  store_inv s -> (presence_ok (contactPresenceById s) -> presence_ok (f (contactPresenceById s))) ->
  store_inv (on_presence f s).
Proof. unfold store_inv. cbn. tauto. Qed.

Lemma on_requests_inv f s :
  store_inv s -> (requests_ok (incomingMessageRequests s) -> requests_ok (f (incomingMessageRequests s))) ->
  store_inv (on_requests f s).
Proof. unfold store_inv. cbn. tauto. Qed.

Lemma on_images_inv f s :
  store_inv s -> (images_ok (imageMessageProjectionsById s) -> images_ok (f (imageMessageProjectionsById s))) ->
  store_inv (on_images f s).
Proof. unfold store_inv. cbn. tauto. Qed.

Lemma on_last_read_inv f s :
  store_inv s -> (map_wf (lastReadAtByContactId s) -> map_wf (f (lastReadAtByContactId s))) -> store_inv (on_last_read f s).
Proof. unfold store_inv. cbn. tauto. Qed.

Lemma request_inv r s : store_inv s -> store_inv (request r s).
Proof. done. Qed.

Lemma on_selected_inv f s : store_inv s -> store_inv (on_selected f s).
Proof. done. Qed.

Lemma on_assignments_inv f s :
  store_inv s ->
  (assignments_ok (contacts s) (contactFolders s) (contactFolderIdByContactId s) ->
   assignments_ok (contacts s) (contactFolders s) (f (contactFolderIdByContactId s))) -> store_inv (on_assignments f s).
Proof. unfold store_inv. cbn. tauto. Qed.

Lemma on_contacts_inv f s :
  store_inv s -> (contacts_ok (contacts s) -> contacts_ok (f (contacts s))) ->
  (forall k, map_has (contactFolderIdByContactId s) k = true ->
     k ∈ Contact.contactId <$> contacts s -> k ∈ Contact.contactId <$> f (contacts s)) ->
  store_inv (on_contacts f s).
Proof.
  unfold store_inv. cbn. intros (? & Hc & ? & [Hw Ha] & ?) Hf Hk. split; [done |]. split; [by apply Hf |].
  split; [done |]. split; [| done]. split; [done |]. rewrite Forall_forall in *. intros [k v] He.
  destruct (Ha _ He) as [Hc' Hf']. split; [| done]. apply Hk; [| done]. apply map_has_true, list_elem_of_fmap. eauto.
Qed.

Lemma on_folders_inv f s :
  store_inv s -> (folders_ok (contactFolders s) -> folders_ok (f (contactFolders s))) ->
  (forall k, k ∈ Folder.folderId <$> contactFolders s -> k ∈ Folder.folderId <$> f (contactFolders s)) ->
  store_inv (on_folders f s).
Proof.
  unfold store_inv. cbn. intros (? & ? & Hfo & [Hw Ha] & ?) Hf Hk. split; [done |]. split; [done |].
  split; [by apply Hf |]. split; [| done]. split; [done |]. eapply Forall_impl; [exact Ha |].
  intros e [? ?]. split; [done | by apply Hk].
Qed.

Create HintDb store.
#[local] Hint Resolve request_inv on_selected_inv map_set_wf map_delete_wf map_delete_if_wf : store.

(** *** Sub-lists and sub-maps of good ones *)

Lemma outbox_ok_sublist l k : l `sublist_of` k -> outbox_ok k -> outbox_ok l.
Proof. intros Hs [Hn Hl]. split; [by eapply NoDup_fmap_sublist | pose proof (zlen_sublist _ _ Hs); lia]. Qed.

Lemma receipts_ok_sublist l k : l `sublist_of` k -> receipts_ok k -> receipts_ok l.
Proof. intros Hs [Hn Hl]. split; [by eapply NoDup_fmap_sublist | pose proof (zlen_sublist _ _ Hs); lia]. Qed.

Lemma requests_ok_sublist l k : l `sublist_of` k -> requests_ok k -> requests_ok l.
Proof.
  intros Hs (Hn & Hl & Ho). split; [by eapply NoDup_fmap_sublist |].
  split; [pose proof (zlen_sublist _ _ Hs); lia | by eapply sorted_sublist].
Qed.

Lemma map_sublist_wf {A} (m m' : record_of A) : m `sublist_of` m' -> map_wf m' -> map_wf m.
Proof. intros Hs Hm. eapply sublist_NoDup; [exact Hm |]. by apply fmap_sublist. Qed.

Lemma messages_ok_sublist m m' : m `sublist_of` m' -> messages_ok m' -> messages_ok m.
Proof. intros Hs [Hw Hf]. split; [by eapply map_sublist_wf | by eapply Forall_sublist]. Qed.

Lemma typing_ok_sublist m m' : m `sublist_of` m' -> typing_ok m' -> typing_ok m.
Proof. intros Hs [Hw Hl]. split; [by eapply map_sublist_wf | pose proof (zlen_sublist _ _ Hs); lia]. Qed.

Lemma images_ok_sublist m m' : m `sublist_of` m' -> images_ok m' -> images_ok m.
Proof.
  intros Hs ([Hw Hk] & Hv & Hc). split; [split; [by eapply map_sublist_wf | by eapply Forall_sublist] |].
  split; [by eapply Forall_sublist |]. intros c. etrans; [| apply (Hc c)]. by apply zlen_sublist, keep_mono.
Qed.

Lemma assignments_ok_sublist cs fs m m' : m `sublist_of` m' -> assignments_ok cs fs m' -> assignments_ok cs fs m.
Proof. intros Hs [Hw Hf]. split; [by eapply map_sublist_wf | by eapply Forall_sublist]. Qed.

#[local] Hint Resolve keep_sublist map_delete_sublist map_delete_if_sublist last_of_sublist tail_sublist
  outbox_ok_sublist receipts_ok_sublist requests_ok_sublist messages_ok_sublist typing_ok_sublist
  images_ok_sublist assignments_ok_sublist map_sublist_wf : store.

(** Goes through the updates of an action; what is left are the new values. *)
Ltac fields :=
  repeat first
    [ apply request_inv | apply on_selected_inv | apply on_messages_inv | apply on_outbox_inv | apply on_receipts_inv
    | apply on_typing_inv | apply on_presence_inv | apply on_requests_inv | apply on_images_inv
    | apply on_last_read_inv | apply on_assignments_inv ];
  try assumption; try (intros; solve [eauto with store]).

(** ** The actions *)

Lemma timeline_set m c l : messages_ok m -> timeline_ok c l -> messages_ok (map_set m c l).
Proof. intros [Hw Hf] Hl. split; [by apply map_set_wf | by apply map_set_Forall]. Qed.

Lemma timeline_bucket m c : messages_ok m -> timeline_ok c (bucket m c).
Proof.
  intros [Hw Hf]. unfold bucket. destruct (map_get m c) as [l|] eqn:E; simpl.
  - by apply (map_get_elem_Forall _ _ _ _ Hf E).
  - split; [constructor | split; [constructor | done]].
Qed.

Lemma timeline_sublist c l k : l `sublist_of` k -> timeline_ok c k -> timeline_ok c l.
Proof.
  intros Hs (Ho & Hc & Hl). split; [by eapply sorted_sublist |]. split; [by eapply Forall_sublist |].
  pose proof (zlen_sublist _ _ Hs). lia.
Qed.

Lemma timeline_bounded c l :
  Forall (fun m => Message.contactId m = c) l ->
  timeline_ok c (last_of maxConversationTimelineEntries (orderConversationMessages l)).
Proof.
  intros Hf. split; [eapply sorted_sublist; [apply last_of_sublist | apply ordered_sorted] |].
  split; [| by apply last_of_length]. eapply Forall_sublist; [apply last_of_sublist | by apply sort_by_Forall].
Qed.

Lemma appendMessage_inv m s : store_inv s -> store_inv (appendMessage m s).
Proof.
  intros Hs. unfold appendMessage. fields. intros Hm. apply timeline_set; [done |]. apply timeline_bounded.
  apply Forall_app. split; [| by apply Forall_singleton]. eapply Forall_sublist; [apply keep_sublist |].
  by apply timeline_bucket.
Qed.

Lemma replaceConversationWindow_inv c l s : store_inv s -> store_inv (replaceConversationWindow c l s).
Proof.
  intros Hs. unfold replaceConversationWindow. fields. intros Hm. apply timeline_set; [done |].
  split; [eapply sorted_sublist; [etrans; [apply last_of_sublist | apply keep_sublist] | apply ordered_sorted] |].
  split; [| by apply last_of_length]. eapply Forall_sublist; [apply last_of_sublist |]. apply Forall_forall.
  by intros x [Hx%str_eqb_true _]%elem_of_keep.
Qed.

Lemma retryUnavailableMessage_inv c p m s : store_inv s -> store_inv (retryUnavailableMessage c p m s).2.
Proof.
  intros Hs. unfold retryUnavailableMessage. case_match eqn:Eg; [done |]. bool_props.
  match goal with H : str_eqb (Message.contactId m) c = true |- _ => apply str_eqb_true in H end.
  destruct (map_get _ c) as [l|] eqn:El; [| done]. case_match; [| done]. fields. intros Hm.
  apply timeline_set; [done |]. destruct Hm as [Hw Hf].
  destruct (map_get_elem_Forall _ _ _ _ Hf El) as (_ & Hc & Hl). cbn in Hc, Hl.
  split; [apply ordered_sorted |]. split.
  - apply sort_by_Forall, Forall_fmap. eapply Forall_impl; [exact Hc |]. intros x Hx. cbn. by case_match.
  - unfold orderConversationMessages. rewrite sort_by_zlen. unfold zlen in *. by rewrite length_fmap.
Qed.

Lemma with_state_cmp p st x y :
  conversation_cmp (if advances p st x then with_state x st else x) (if advances p st y then with_state y st else y)
  = conversation_cmp x y.
Proof. by repeat case_match. Qed.

Lemma setMessageDeliveryState_inv c p st s : store_inv s -> store_inv (setMessageDeliveryState c p st s).
Proof.
  intros Hs. unfold setMessageDeliveryState. destruct (map_get _ c) as [l|] eqn:El; [| done].
  destruct (last _) as [m|]; [| done]. fields. intros Hm. apply timeline_set; [done |]. destruct Hm as [Hw Hf].
  destruct (map_get_elem_Forall _ _ _ _ Hf El) as (Ho & Hc & Hl). cbn in Ho, Hc, Hl. split; [| split].
  - apply sorted_fmap; [apply with_state_cmp | done].
  - apply Forall_fmap. eapply Forall_impl; [exact Hc |]. intros x Hx. cbn. by case_match.
  - unfold zlen in *. by rewrite length_fmap.
Qed.

Lemma removeImages_inv ids s : store_inv s -> store_inv (removeImageMessageProjections ids s).
Proof. intros Hs. unfold removeImageMessageProjections. fields. Qed.

Lemma clearImages_inv c s : store_inv s -> store_inv (clearImageMessageProjectionsForContact c s).
Proof. intros Hs. unfold clearImageMessageProjectionsForContact. case_match; [done |]. fields. Qed.

Lemma deleteMessagesLocally_inv c ids s : store_inv s -> store_inv (deleteMessagesLocally c ids s).2.
Proof.
  intros Hs. unfold deleteMessagesLocally. destruct (keep _ (bucket _ c)) as [|m deleted]; [done |]. cbn [snd].
  apply request_inv, removeImages_inv. fields. intros Hm. apply timeline_set; [done |].
  eapply timeline_sublist; [apply keep_sublist | by apply timeline_bucket].
Qed.

Lemma clear_fields_inv c s : store_inv s -> store_inv (clear_conversation_fields c s).
Proof. intros Hs. unfold clear_conversation_fields. fields. Qed.

(** How many images a contact has after one is set. *)
Lemma images_of_set c m p :
  zlen (images_of c (map_set m (Projection.messageId p) p))
  <= zlen (images_of c m) + (if str_eqb (Projection.contactId p) c then 1 else 0).
Proof.
  unfold images_of. induction m as [|[k q] m IH]; cbn [map_set].
  - rewrite keep_one. cbn. by case_match.
  - case_decide; rewrite !keep_first; cbn; repeat case_match; autorewrite with zlen; lia.
Qed.

(** A set of a map with room leaves room for every contact. *)
Lemma images_ok_set m p :
  images_ok m -> validImageMessageProjection p = true -> zlen m < maxImageMessageProjections ->
  images_ok (map_set m (Projection.messageId p) p).
Proof.
  intros (Hk & Hv & Hc) Hp Hl. split; [by apply keyed_set |]. split; [by apply map_set_Forall |]. intros c.
  etrans; [apply zlen_sublist, keep_sublist |]. etrans; [apply map_set_zlen_le |]. lia.
Qed.

Lemma hydrate_images_ok next l : images_ok next -> images_ok (hydrate_images next l).
Proof.
  revert next. induction l as [|p l IH]; intros next Hi; [done |]. cbn [hydrate_images].
  case_match eqn:E; [by apply IH |]. case_match; [done |]. bool_props. apply IH, images_ok_set; [done | done | lia].
Qed.

Lemma images_of_projections c m l :
  zlen (images_of c (set_projections m l))
  <= zlen (images_of c m) + zlen (keep (fun p => str_eqb (Projection.contactId p) c) l).
Proof.
  revert m. induction l as [|p l IH]; intros m; [unfold set_projections; cbn [foldl]; pose proof (zlen_nonneg (keep (fun p => str_eqb (Projection.contactId p) c) [])); lia |].
  etrans; [apply IH |].
  pose proof (images_of_set c m p). rewrite keep_first. case_match; autorewrite with zlen; lia.
Qed.

(** The window of a contact holds at most 192 images, and a contact it is not
    the window of gets none by it. *)
Lemma set_projections_ok c m l :
  images_ok m -> images_of c m = [] -> zlen l <= maxImageMessageProjections ->
  Forall (fun p => Projection.contactId p = c /\ validImageMessageProjection p = true) l ->
  images_ok (set_projections m l).
Proof.
  intros (Hk & Hv & Hc) Hm Hlen Hl. split; [by apply keyed_foldl |]. split.
  - clear Hk Hm Hlen Hc. revert m Hv. induction Hl as [|p l [_ Hp] _ IH]; intros m Hv; [done |]. by apply IH, map_set_Forall.
  - intros d. etrans; [apply images_of_projections |]. destruct (decide (c = d)) as [<-|Hne].
    + rewrite Hm. pose proof (zlen_sublist _ _ (keep_sublist (fun p => str_eqb (Projection.contactId p) c) l)).
      autorewrite with zlen. lia.
    + assert (E : keep (fun p => str_eqb (Projection.contactId p) d) l = []).
      { apply keep_nil. eapply Forall_impl; [exact Hl |]. intros p [<- _]. by apply str_eqb_false. }
      rewrite E. pose proof (Hc d). autorewrite with zlen. lia.
Qed.

Lemma others_have_none c m :
  images_of c (map_delete_if (fun _ p => str_eqb (Projection.contactId p) c) m) = [].
Proof.
  apply keep_nil, Forall_forall. intros [k p] He. unfold map_delete_if in He. by apply list_elem_of_filter in He as [He _].
Qed.

Lemma image_actions_inv s :
  store_inv s ->
  (forall l, store_inv (hydrateImageMessageProjections l s))
  /\ (forall cmp c l, store_inv (replaceImageMessageProjectionWindow cmp c l s))
  /\ (forall p, store_inv (stageImageMessageProjection p s).2)
  /\ store_inv (clearImageMessageProjections s).
Proof.
  assert (Hnil : images_ok []) by (split; [apply keyed_nil | split; [constructor | done]]). intros Hs. split_and!.
  - intros l. unfold hydrateImageMessageProjections. fields. intros _. by apply hydrate_images_ok.
  - intros cmp c l. unfold replaceImageMessageProjectionWindow. case_match; [done |]. fields. intros Hm.
    apply (set_projections_ok c); [by eauto with store | apply others_have_none | |].
    + etrans; [by apply last_of_length |]. done.
    + eapply Forall_sublist; [apply last_of_sublist |].
      apply sort_by_Forall, Forall_forall. intros x [Hx _]%elem_of_keep. bool_props. by rewrite <- str_eqb_true.
  - intros p. unfold stageImageMessageProjection. case_match eqn:Ev; [done |]. bool_props.
    case_match; [done |]. case_match; [done |]. fields. bool_props. intros Hi. apply images_ok_set; [done | done | lia].
  - unfold clearImageMessageProjections. fields.
Qed.

(** *** Contacts and folders *)

Lemma upsertContact_inv c s : store_inv s -> store_inv (upsertContact c s).
Proof.
  intros Hs. unfold upsertContact. apply request_inv, on_contacts_inv; [done | |].
  - intros Hn. apply NoDup_fmap_snoc.
    + intros (x & Hx & [Hk _]%elem_of_keep)%list_elem_of_fmap. cbn in Hk. by rewrite <- Hx, str_eqb_refl in Hk.
    + eapply NoDup_fmap_sublist; [apply keep_sublist | done].
  - intros k _ (x & -> & Hx)%list_elem_of_fmap. rewrite fmap_app, elem_of_app.
    destruct (decide (Contact.contactId x = Contact.contactId c)) as [E|E]; [right; rewrite E; set_solver |].
    left. apply list_elem_of_fmap. exists x. split; [done |]. apply elem_of_keep. split; [| done].
    by apply negb_true_iff, str_eqb_false.
Qed.

Lemma unassigned_inv c s :
  store_inv s ->
  store_inv (clearContactFolderAssignment c s)
  /\ map_has (contactFolderIdByContactId (clearContactFolderAssignment c s)) c = false.
Proof.
  intros Hs. unfold clearContactFolderAssignment. destruct (map_has _ c) eqn:E; cbn [negb]; [| done].
  split; [fields |]. cbn. unfold map_has. by rewrite map_get_delete_eq.
Qed.

Lemma clear_images_assignments c s :
  contactFolderIdByContactId (clearImageMessageProjectionsForContact c s) = contactFolderIdByContactId s.
Proof. unfold clearImageMessageProjectionsForContact. by case_match. Qed.

Lemma forgetContact_inv c s : store_inv s -> store_inv (forgetContact c s).
Proof.
  intros Hs. unfold forgetContact.
  set (s1 := match peer_of_contact s c with Some p => _ | None => _ end).
  assert (H1 : store_inv s1) by (subst s1; by case_match). cbv zeta.
  destruct (unassigned_inv c s1 H1) as [H2 Hno]. set (s2 := clearContactFolderAssignment c s1) in *.
  pose proof (clearImages_inv c s2 H2) as H3. rewrite <- (clear_images_assignments c s2) in Hno.
  set (s3 := clearImageMessageProjectionsForContact c s2) in *.
  assert (H4 : store_inv (on_contacts (keep (fun x => negb (str_eqb (Contact.contactId x) c))) s3)).
  { apply on_contacts_inv; [done | intros Hn; eapply NoDup_fmap_sublist; [apply keep_sublist | done] |].
    intros k Hk (x & -> & Hx)%list_elem_of_fmap. apply list_elem_of_fmap. exists x. split; [done |].
    apply elem_of_keep. split; [| done]. apply negb_true_iff, str_eqb_false. intros E. rewrite E in Hk. congruence. }
  case_match; [apply request_inv |]; by apply request_inv, clear_fields_inv, on_selected_inv.
Qed.

Lemma first_by_id_ok seen l :
  NoDup (Folder.folderId <$> first_by_id seen l)
  /\ forall f, f ∈ first_by_id seen l -> Folder.folderId f ∉ seen.
Proof.
  revert seen. induction l as [|f l IH]; intros seen; cbn [first_by_id]; [split; [apply NoDup_nil_2 | set_solver] |].
  case_bool_decide; [apply IH |]. destruct (IH (Folder.folderId f :: seen)) as [Hn Hs]. split.
  - csimpl. constructor; [| done]. intros (x & E & Hx)%list_elem_of_fmap. apply (Hs x Hx). rewrite <- E. set_solver.
  - intros x [->|Hx]%elem_of_cons; [done |]. specialize (Hs x Hx). set_solver.
Qed.

Lemma hydrateContactFolders_inv fs l s : store_inv s -> store_inv (hydrateContactFolders fs l s).
Proof.
  unfold hydrateContactFolders, store_inv. cbn. intros (Hm & Hc & Hf & Ha & Hrest). split; [done |]. split; [done |].
  set (accepted := take _ _). assert (Hacc : folders_ok accepted).
  { split; [eapply NoDup_fmap_sublist; [apply take_sublist | apply first_by_id_ok] |].
    subst accepted. unfold zlen. rewrite length_take. unfold maxContactFolders. lia. }
  split; [done |]. split; [| done].
  set (step := fun m a => _). assert (H : forall m, assignments_ok (contacts s) accepted m ->
                                       assignments_ok (contacts s) accepted (foldl step m l)).
  { induction l as [|[c f] l IH]; intros m Hok; [done |]. cbn [foldl]. apply IH. subst step. cbn.
    case_match eqn:E; [| done]. bool_props. destruct Hok as [Hw Hall]. split; [by apply map_set_wf |].
    apply map_set_Forall; [done |]. cbn. split; [by apply existsb_str | done]. }
  apply H. split; [apply NoDup_nil_2 | constructor].
Qed.

Lemma folder_actions_inv s :
  store_inv s ->
  (forall nfc f n t, store_inv (createContactFolder nfc f n t s).2)
  /\ (forall nfc f n, store_inv (renameContactFolder nfc f n s).2)
  /\ (forall f, store_inv (deleteContactFolder f s))
  /\ (forall c f, store_inv (assignContactFolder c f s).2).
Proof.
  intros Hs. split_and!.
  - intros nfc f n t. unfold createContactFolder. destruct (normalizeContactFolderName nfc n) as [name|]; [| done].
    case_match eqn:E; [done |]. bool_props. cbn [snd]. apply request_inv, on_folders_inv; [done | |].
    + intros [Hn Hl]. split; [| rewrite zlen_app; unfold zlen in *; cbn [length]; lia].
      apply NoDup_fmap_snoc; [| done]. cbn. intros Hin. apply existsb_str in Hin.
      match goal with H : existsb _ _ = false |- _ => rewrite <- not_true_iff_false in H; apply H end.
      apply existsb_exists in Hin as (x & Hx & Hk). apply existsb_exists. exists x. by rewrite Hk.
    + intros k Hk. rewrite fmap_app. set_solver.
  - intros nfc f n. unfold renameContactFolder. destruct (normalizeContactFolderName nfc n) as [name|]; [| done].
    case_match; [done |]. destruct (head _) as [cur|] eqn:Eh; [| done]. apply head_keep in Eh as [Hf%str_eqb_true _].
    cbn [snd]. set (g := fun x => if str_eqb (Folder.folderId x) f then _ else x).
    assert (Hg : forall x, Folder.folderId (g x) = Folder.folderId x).
    { intros x. subst g. cbn. destruct (str_eqb (Folder.folderId x) f) eqn:E; [| done]. apply str_eqb_true in E. cbn. congruence. }
    apply request_inv, on_folders_inv; [done | |].
    + intros [Hn Hl]. split; [by rewrite fmap_same | unfold zlen in *; by rewrite length_fmap].
    + intros k Hk. by rewrite fmap_same.
  - intros f. unfold deleteContactFolder. apply request_inv. unfold store_inv in *. cbn.
    destruct Hs as (Hm & Hc & [Hn Hl] & [Hw Ha] & Hrest). split; [done |]. split; [done |]. split; [split |split; [|done]].
    + eapply NoDup_fmap_sublist; [apply keep_sublist | done].
    + pose proof (zlen_sublist _ _ (keep_sublist (fun x => negb (str_eqb (Folder.folderId x) f)) (contactFolders s))). lia.
    + split; [by apply (map_delete_if_wf (fun _ x => str_eqb x f)) |]. rewrite Forall_forall in *. intros [c g] [Hd Hin]%list_elem_of_filter.
      cbn in Hd. destruct (Ha _ Hin) as [Hcx (x & Hx & Hxf)%list_elem_of_fmap]. split; [done |]. cbn in *. subst g.
      apply list_elem_of_fmap. exists x. split; [done |]. apply elem_of_keep. by rewrite Hd.
  - intros c f. unfold assignContactFolder. destruct (known_contact s c) eqn:Ek; cbn [negb]; [| done].
    apply existsb_str in Ek. destruct f as [f|]; [| cbn [snd]; fields].
    case_match eqn:E; [done |]. bool_props. apply existsb_str in E. cbn [snd]. fields. intros [Hw Ha].
    split; [by apply map_set_wf | by apply map_set_Forall].
Qed.

(** *** Outbox and receipts *)

Lemma outbox_actions_inv s :
  store_inv s ->
  (forall l, NoDup (Outbox.messageId <$> l) -> store_inv (hydrateOutbox l s))
  /\ (forall e, store_inv (queueMessage e s))
  /\ (forall m t, store_inv (markOutboxMessageDelivered m t s))
  /\ (forall m, store_inv (settleOutboxMessage m s)).
Proof.
  intros Hs. split_and!.
  - intros l Hl. unfold hydrateOutbox. fields. intros _.
    split; [eapply NoDup_fmap_sublist; [apply last_of_sublist | done] | by apply last_of_length].
  - intros e. unfold queueMessage. fields. intros [Hn _]. split; [| by apply last_of_length].
    eapply NoDup_fmap_sublist; [apply last_of_sublist |]. apply NoDup_fmap_snoc.
    + intros (x & Hx & [Hk _]%elem_of_keep)%list_elem_of_fmap. cbn in Hk. by rewrite <- Hx, str_eqb_refl in Hk.
    + eapply NoDup_fmap_sublist; [apply keep_sublist | done].
  - intros m t. unfold markOutboxMessageDelivered. destruct (head _) as [e|] eqn:Eh; [| done].
    apply head_keep in Eh as [He%str_eqb_true _]. fields. intros [Hn Hl].
    split; [| unfold zlen in *; by rewrite length_fmap]. rewrite fmap_same; [done |]. intros x. cbn.
    destruct (str_eqb _ m) eqn:E; [| done]. apply str_eqb_true in E. cbn. congruence.
  - intros m. unfold settleOutboxMessage. fields.
Qed.

Lemma record_receipts_keyed replaced l :
  keyed Receipt.targetDeliveryId replaced -> keyed Receipt.targetDeliveryId (record_receipts replaced l).1.
Proof.
  revert replaced. induction l as [|e l IH]; intros replaced Hk; cbn [record_receipts]; [done |].
  case_match; [by apply IH |]. specialize (IH _ (keyed_set _ _ e Hk)). by destruct (record_receipts _ l).
Qed.

Lemma receipt_actions_inv s :
  store_inv s ->
  (forall l, NoDup (Receipt.targetDeliveryId <$> l) -> store_inv (hydrateReadReceiptOutbox l s))
  /\ (forall c l q t, store_inv (recordIncomingMessagesRead c l q t s))
  /\ (forall t, store_inv (settleReadReceipt t s)).
Proof.
  intros Hs. split_and!.
  - intros l Hl. unfold hydrateReadReceiptOutbox. fields. intros _. split; [| by apply last_of_length].
    eapply NoDup_fmap_sublist; [apply last_of_sublist | by apply sort_by_NoDup].
  - intros c l q t. unfold recordIncomingMessagesRead. destruct (js_unique l) as [|i ids]; [done |].
    match goal with |- context [record_receipts ?x ?y] => pose proof (record_receipts_keyed x y) as Hk end.
    destruct (record_receipts _ _) as [replaced recorded]. fields. intros _. split; [| by apply last_of_length].
    eapply NoDup_fmap_sublist; [apply last_of_sublist |]. apply sort_by_NoDup, keyed_values, Hk, keyed_foldl, keyed_nil.
  - intros t. unfold settleReadReceipt. destruct (head _) as [e|] eqn:Eh; [| done].
    apply head_keep in Eh as [He%str_eqb_true _]. case_match; [done |]. fields. intros [Hn Hl].
    split; [| unfold zlen in *; by rewrite length_fmap]. rewrite fmap_same; [done |]. intros x. cbn.
    destruct (str_eqb _ t) eqn:E; [| done]. apply str_eqb_true in E. cbn. congruence.
Qed.

(** *** Typing, presence and requests *)

Lemma setContactTyping_inv c t s : store_inv s -> store_inv (setContactTyping c t s).
Proof.
  intros Hs. unfold setContactTyping. fields. intros [Hw Hl].
  destruct (bounded_map_ok maxTypingContacts id (map_set (typingExpiresAtByContactId s) c t)) as (Hw' & _ & Hl');
    [done | by apply map_set_wf | etrans; [apply map_set_zlen_le | lia] | done].
Qed.

Definition proof_ok (p : ContactPresence) : Prop := Presence.status p = p_available <-> Presence.evidence p <> None.

Lemma presence_set_bounded m c p : presence_ok m -> proof_ok p -> presence_ok (boundedPresenceMap (map_set m c p)).
Proof.
  intros (Hw & Hl & Hf) Hp.
  destruct (bounded_map_ok maxContactPresenceEntries Presence.updatedAt (map_set m c p)) as (Hw' & Hsub & Hl');
    [done | by apply map_set_wf | etrans; [apply map_set_zlen_le | lia] |].
  split; [done |]. split; [done |]. eapply Forall_sublist; [exact Hsub | by apply map_set_Forall].
Qed.

Lemma presence_set_known m c current p :
  presence_ok m -> map_get m c = Some current -> proof_ok p -> presence_ok (map_set m c p).
Proof.
  intros (Hw & Hl & Hf) Hg Hp. split; [by apply map_set_wf |]. split; [| by apply map_set_Forall].
  rewrite map_set_size. unfold map_has. by rewrite Hg.
Qed.

Lemma presence_get m c p : presence_ok m -> map_get m c = Some p -> proof_ok p.
Proof. intros (_ & _ & Hf) Hg. by apply (map_get_elem_Forall _ _ _ _ Hf Hg). Qed.

Lemma presence_actions_inv s :
  store_inv s ->
  (forall c p now, store_inv (beginContactPresencePing c p now s))
  /\ (forall c p now, store_inv (acceptContactPresencePong c p now s))
  /\ (forall c now, store_inv (confirmContactPresenceFromLiveTraffic c now s))
  /\ (forall c p now, store_inv (expireContactPresencePing c p now s))
  /\ (forall c u now, store_inv (expireContactPresence c u now s)).
Proof.
  assert (Hun : forall st e u l p, (st = p_available <-> e <> None) -> proof_ok (Presence.mk st e u l p)) by done.
  intros Hs. split_and!.
  - intros c p now. unfold beginContactPresencePing. fields. intros Hp. apply presence_set_bounded; [done |].
    destruct (map_get _ c) as [current|] eqn:E; [| by apply Hun].
    pose proof (presence_get _ _ _ Hp E) as Hc. unfold proof_ok in Hc. case_decide; [| by apply Hun]. apply Hun. tauto.
  - intros c p now. unfold acceptContactPresencePong. destruct (map_get _ c) eqn:E; [| done]. case_match; [| done].
    fields. intros Hp. by eapply presence_set_known.
  - intros c now. unfold confirmContactPresenceFromLiveTraffic. fields. intros Hp. by apply presence_set_bounded.
  - intros c p now. unfold expireContactPresencePing. destruct (map_get _ c) as [current|] eqn:E; [| done].
    case_match; [| done]. fields. intros Hp. pose proof (presence_get _ _ _ Hp E) as Hc.
    eapply presence_set_known; [done | done |]. by case_decide.
  - intros c u now. unfold expireContactPresence. destruct (map_get _ c) eqn:E; [| done]. case_match; [done |].
    fields. intros Hp. by eapply presence_set_known.
Qed.

Lemma request_sorted l : StronglySorted (cmp_le request_cmp) (sort_by request_cmp l).
Proof. apply sort_by_sorted; unfold request_cmp; intros; lia. Qed.

Lemma receiveMessageRequest_inv r s : store_inv s -> store_inv (receiveMessageRequest r s).
Proof.
  intros Hs. unfold receiveMessageRequest. case_match eqn:E; [done |]. fields. intros (Hn & Hl & Ho).
  set (next := sort_by request_cmp (incomingMessageRequests s ++ [r])).
  assert (Hnn : NoDup (Request.requestId <$> next)).
  { apply sort_by_NoDup, NoDup_fmap_snoc; [| done]. rewrite <- existsb_str. by rewrite E. }
  assert (Hnl : zlen next <= maxIncomingMessageRequests + 1).
  { subst next. rewrite sort_by_zlen, zlen_app. unfold zlen at 2. cbn [length]. lia. }
  destruct (Z.ltb_spec maxIncomingMessageRequests (zlen next)).
  - split; [eapply NoDup_fmap_sublist; [apply tail_sublist | done] |].
    split; [| eapply sorted_sublist; [apply tail_sublist | apply request_sorted]].
    destruct next; [done |]. rewrite zlen_cons in Hnl. cbn [tail]. lia.
  - split; [done |]. split; [done | apply request_sorted].
Qed.

Lemma acceptMessageRequest_inv r id s : store_inv s -> store_inv (acceptMessageRequest r id s).2.
Proof.
  intros Hs. unfold acceptMessageRequest. destruct (head _) as [x|]; [| done]. cbn [snd]. unfold dismissMessageRequest.
  set (s1 := match head _ with Some _ => s | None => _ end).
  assert (H1 : store_inv s1) by (subst s1; case_match; [done | by apply upsertContact_inv]).
  apply request_inv, on_requests_inv; [by apply appendMessage_inv | eauto with store].
Qed.

Lemma setIncomingMessageRequests_inv l s : store_inv s -> store_inv (setIncomingMessageRequests l s).
Proof.
  intros Hs. unfold setIncomingMessageRequests. fields. intros _. split; [| split; [by apply last_of_length |]].
  - eapply NoDup_fmap_sublist; [apply last_of_sublist |]. apply sort_by_NoDup, keyed_values, keyed_foldl, keyed_nil.
  - eapply sorted_sublist; [apply last_of_sublist | apply request_sorted].
Qed.

(** ** Every action *)

(** The records that IndexedDB answers have different keys. *)
Definition loaded_ok (a : action) : Prop :=
  match a with
  | act_hydrateOutbox l => NoDup (Outbox.messageId <$> l)
  | act_hydrateReceipts l => NoDup (Receipt.targetDeliveryId <$> l)
  | _ => True
  end.

Lemma run_action_inv s a : store_inv s -> loaded_ok a -> store_inv (run_action s a).
Proof.
  intros Hs Ha. pose proof (folder_actions_inv s Hs) as (Hf1 & Hf2 & Hf3 & Hf4).
  pose proof (outbox_actions_inv s Hs) as (Ho1 & Ho2 & Ho3 & Ho4).
  pose proof (receipt_actions_inv s Hs) as (Hr1 & Hr2 & Hr3).
  pose proof (presence_actions_inv s Hs) as (Hp1 & Hp2 & Hp3 & Hp4 & Hp5).
  pose proof (image_actions_inv s Hs) as (Hi1 & Hi2 & Hi3 & Hi4).
  destruct a; cbn [run_action]; cbn in Ha;
    auto using appendMessage_inv, replaceConversationWindow_inv, retryUnavailableMessage_inv,
      setMessageDeliveryState_inv, deleteMessagesLocally_inv, upsertContact_inv,
      forgetContact_inv, hydrateContactFolders_inv, setContactTyping_inv, receiveMessageRequest_inv,
      acceptMessageRequest_inv, setIncomingMessageRequests_inv.
  - unfold clearLocalConversation. by apply request_inv, clear_fields_inv, clearImages_inv.
  - unfold selectContact. case_match; [by apply request_inv, on_selected_inv | by apply on_selected_inv].
  - unfold markContactRead. fields.
  - unfold expireContactTyping. case_bool_decide; [fields | done].
  - unfold clearContactTyping. fields.
  - unfold clearAllContactTyping. fields. intros _. split; [apply NoDup_nil_2 | done].
  - unfold dismissMessageRequest. fields.
Qed.

(** C19: the state of the application keeps these invariants whatever the order
    of actions.  Each conversation is in the order of the timeline and holds
    only messages of its contact, at most 192.  Identifiers are distinct and at
    most 32 folders, 128 outgoing messages, 128 read receipts and 50 message
    requests are kept, the requests in their order; at most 64 contacts are
    typing and 64 have a presence, which is available exactly when there is a
    proof of it.  A folder assignment names a known contact and an existing
    folder.  Every image is valid and stored under its own identifier, and no
    contact has more than 256.  The contacts and the times of the last reading
    have distinct keys but no bound; there is none either on the images of all
    contacts together (see [images_exceed_limit]), and nothing is claimed of the
    selected contact and of the log of storage requests. *)
Theorem store_invariant actions :
  Forall loaded_ok actions -> store_inv (foldl run_action empty_store actions).
Proof.
  assert (H : forall s, store_inv s -> Forall loaded_ok actions -> store_inv (foldl run_action s actions)).
  { induction actions as [|a actions IH]; intros s Hs Ha; [done |]. inversion Ha; subst. cbn [foldl].
    apply IH; [by apply run_action_inv | done]. }
  apply H, empty_store_inv.
Qed.

Definition entry_of (id : jsstring) : StoredOutboxEntry := Outbox.mk id id id 0 0 0 None None.
Definition message_of (c id : jsstring) (at_ : Z) (st : MessageDeliveryState) : MessageSummary :=
  Message.mk id c outgoing [] at_ st None None.

Definition some_actions : list action :=
  [ act_hydrateOutbox [entry_of [1]; entry_of [2]]; act_upsertContact (Contact.mk [7] [65] None None None);
    act_appendMessage (message_of [7] [2] 5 d_pending); act_appendMessage (message_of [7] [1] 3 d_pending);
    act_setMessageDeliveryState [7] [2] d_relayed; act_forgetContact [8] ].

Lemma store_invariant_witness :
  store_inv (foldl run_action empty_store some_actions)
  /\ Message.messageId <$> bucket (messagesByContactId (foldl run_action empty_store some_actions)) [7] = [[1]; [2]].
Proof.
  split; [apply (store_invariant some_actions) | vm_compute; reflexivity].
  repeat constructor; cbn; set_solver.
Defined.

(** ** Delivery states *)

Definition rank (st : MessageDeliveryState) : Z :=
  match st with d_pending => 0 | d_relayed | d_unavailable => 1 | d_delivered => 2 | d_read | d_received => 3 end.

Lemma advance_rank st st' : canAdvanceDeliveryState st st' = true -> rank st' = rank st + 1.
Proof. by destruct st, st'. Qed.

(** [y] is [x] with a state reached by allowed transitions; only messages that
    were sent move. *)
Definition advanced (x y : MessageSummary) : Prop :=
  y = with_state x (Message.deliveryState y)
  /\ rtc (fun a b => canAdvanceDeliveryState a b = true) (Message.deliveryState x) (Message.deliveryState y)
  /\ (Message.direction x <> outgoing -> y = x).

Lemma with_state_same x : with_state x (Message.deliveryState x) = x.
Proof. by destruct x. Qed.

Lemma advanced_refl x : advanced x x.
Proof. split; [by rewrite with_state_same |]. by split. Qed.

Lemma advanced_trans x y z : advanced x y -> advanced y z -> advanced x z.
Proof.
  intros (Hxy & Rxy & Nxy) (Hyz & Ryz & Nyz). split; [rewrite Hyz, Hxy; by destruct x |].
  split; [by etrans |]. intros Hn. rewrite Nyz; [by apply Nxy |]. by rewrite Nxy.
Qed.

Lemma advances_advanced p st x : advanced x (if advances p st x then with_state x st else x).
Proof.
  destruct (advances p st x) eqn:E; [| apply advanced_refl]. unfold advances in E. bool_props.
  split; [done |]. split; [by apply rtc_once | done].
Qed.

Definition deliver (s : AppStore) (u : jsstring * jsstring * MessageDeliveryState) : AppStore :=
  setMessageDeliveryState u.1.1 u.1.2 u.2 s.

Lemma deliver_advanced s u c l :
  map_get (messagesByContactId s) c = Some l ->
  exists l', map_get (messagesByContactId (deliver s u)) c = Some l' /\ Forall2 advanced l l'.
Proof.
  intros Hl. assert (Hid : Forall2 advanced l l) by (apply Forall_Forall2_diag, Forall_forall; auto using advanced_refl).
  destruct u as [[c' m] st]. unfold deliver, setMessageDeliveryState. cbn [fst snd].
  destruct (map_get _ c') as [l0|] eqn:E; [| by eauto]. destruct (last _) as [x|]; [| by eauto]. cbn.
  destruct (decide (c = c')) as [->|Hne].
  - simplify_eq. rewrite map_get_set_eq. eexists. split; [done |]. apply Forall2_fmap_r, Forall_Forall2_diag, Forall_forall.
    intros y _. apply advances_advanced.
  - rewrite map_get_set_ne by done. eauto.
Qed.

(** C37: reports about deliveries, in any order and however often repeated, only
    move a message forward: nothing of a stored message changes but its state,
    that state follows the allowed transitions (pending, then relayed or
    unavailable, then delivered, then read), and messages that came in never
    change. *)
Theorem delivery_states_advance s updates c l :
  map_get (messagesByContactId s) c = Some l ->
  exists l', map_get (messagesByContactId (foldl deliver s updates)) c = Some l' /\ Forall2 advanced l l'.
Proof.
  revert s l. induction updates as [|u updates IH]; intros s l Hl; cbn [foldl].
  - exists l. split; [done |]. apply Forall_Forall2_diag, Forall_forall. auto using advanced_refl.
  - destruct (deliver_advanced s u c l Hl) as (l1 & H1 & A1). destruct (IH _ _ H1) as (l2 & H2 & A2).
    exists l2. split; [done |]. eapply (Forall2_trans advanced advanced advanced); [apply advanced_trans | exact A1 | exact A2].
Qed.

Lemma delivery_states_advance_witness :
  exists l', map_get (messagesByContactId (foldl deliver (foldl run_action empty_store some_actions)
      [([7], [2], d_pending); ([7], [2], d_read); ([7], [1], d_delivered); ([7], [2], d_delivered)])) [7] = Some l'
    /\ Forall2 advanced [message_of [7] [1] 3 d_pending; message_of [7] [2] 5 d_relayed] l'.
Proof. apply delivery_states_advance. vm_compute. reflexivity. Defined.

(** ** What two actions leave behind *)

Definition deletes_terminal_targets (c : jsstring) (s : AppStore) : bool :=
  existsb (fun r => match r with DeleteForContact st_terminal_read_targets c' => str_eqb c c' | _ => false end) (storage s).

(** Forgetting a contact deletes its rows in every store but the one with the
    targets of final read receipts, which clearing its conversation deletes. *)
Lemma forgetContact_keeps_terminal_targets :
  let s := run_action empty_store (act_upsertContact (Contact.mk [7] [65] None None None)) in
  deletes_terminal_targets [7] (forgetContact [7] s) = false
  /\ deletes_terminal_targets [7] (clearLocalConversation [7] s) = true.
Proof. vm_compute. done. Qed.

Definition image_of (c : jsstring) (n : Z) : ImageMessageProjection :=
  Projection.mk (c ++ [65 + n / 64; 65 + n mod 64]) c incoming (Int 1) (js "image/png") (Int 1) (Int 1) (Int 1) None None.

(** The number of images is bounded where they are staged one by one and where
    they are loaded, but not where the window of a conversation is replaced. *)
Lemma images_exceed_limit :
  let s := foldl run_action empty_store
    [ act_hydrateImages (image_of [7] <$> seqZ 0 256); act_replaceImages (fun _ _ => 0) [8] (image_of [8] <$> seqZ 0 192) ] in
  zlen (imageMessageProjectionsById s) = 448 /\ maxImageMessageProjections = 256.
Proof. vm_compute. done. Qed.
