(* ===== verification/MessagePersistence.v ===== *)
(** * [conversations-slice.ts]: the order of the writes of messages

    IndexedDB writes are asynchronous.  Each write is a job that waits for the
    promises it was chained to; a job is named by its position in the order of
    submission.  The promise of a job settles when its write does; the cleanup
    of its chains runs at any later time.  [Promise.all] settles when all its
    promises are fulfilled or one of them is rejected. *)
From S2P Require Import Prelude JsRuntime Collections AppStore.

(** ** Jobs and chains *)

Inductive write : Type :=
| w_save (m : MessageSummary)
| w_replace (previous : jsstring) (replacement : MessageSummary)
| w_delete (ids : list jsstring).

Definition write_ids (w : write) : list jsstring :=
  match w with
  | w_save m => [Message.messageId m]
  | w_replace previous m => [previous; Message.messageId m]
  | w_delete ids => ids
  end.

Inductive promise_state : Type := waiting | running | fulfilled | rejected.

#[export] Instance promise_state_eq_dec : EqDecision promise_state.
Proof. solve_decision. Defined.

Definition settled (st : promise_state) : bool :=
  match st with fulfilled | rejected => true | waiting | running => false end.

Record job := Job { job_write : write; job_deps : list nat; job_state : promise_state }.

Definition job_ids (j : job) : list jsstring := write_ids (job_write j).

Record Persistence := mkPersistence { jobs : list job; messagePersistenceChains : list (jsstring * nat) }.

Definition no_chains : Persistence := mkPersistence [] [].

Definition maxPendingMessagePersists : Z := 128.

(** The new job waits for [deps] and becomes the end of the chain of every id. *)
Definition submit (w : write) (deps : list nat) (p : Persistence) : Persistence :=
  let token := length (jobs p) in
  mkPersistence (jobs p ++ [Job w deps waiting])
    (foldl (fun m id => map_set m id token) (messagePersistenceChains p) (write_ids w)).

(** [map.get(id) ?? Promise.resolve()]: a resolved promise is no dependency. *)
Definition preceding (p : Persistence) (ids : list jsstring) : list nat :=
  omap (map_get (messagePersistenceChains p)) ids.

Definition persistMessageInOrder (m : MessageSummary) (p : Persistence) : Persistence :=
  let chains := messagePersistenceChains p in
  if negb (map_has chains (Message.messageId m)) && (maxPendingMessagePersists <=? zlen chains) then p
  else submit (w_save m) (preceding p [Message.messageId m]) p.

Definition persistRetriedMessageInOrder (previousMessageId : jsstring) (replacement : MessageSummary)
    (p : Persistence) : Persistence :=
  let chains := messagePersistenceChains p in
  if negb (map_has chains previousMessageId) && negb (map_has chains (Message.messageId replacement))
     && (maxPendingMessagePersists <? zlen chains + 2)
  then p
  else submit (w_replace previousMessageId replacement)
         (preceding p [previousMessageId; Message.messageId replacement]) p.

Definition persistMessageDeletionInOrder (messageIds : list jsstring) (p : Persistence) : Persistence :=
  let uniqueMessageIds := take (Z.to_nat maxLocalMessageActionCount) (js_unique messageIds) in
  submit (w_delete uniqueMessageIds) (preceding p uniqueMessageIds) p.

(** The requests of the store that go through the chains. *)
Definition persist (r : StorageRequest) (p : Persistence) : Persistence :=
  match r with
  | PersistMessage m => persistMessageInOrder m p
  | PersistRetried previous m => persistRetriedMessageInOrder previous m p
  | PersistDeletion ids => persistMessageDeletionInOrder ids p
  | _ => p
  end.

(** ** Events *)

Definition state_at (p : Persistence) (t : nat) : option promise_state := job_state <$> jobs p !! t.

Definition ready (p : Persistence) (j : job) : bool :=
  forallb (fun d => bool_decide (state_at p d = Some fulfilled)) (job_deps j)
  || existsb (fun d => bool_decide (state_at p d = Some rejected)) (job_deps j).

Definition set_state (t : nat) (st : promise_state) (p : Persistence) : Persistence :=
  mkPersistence (alter (fun j => Job (job_write j) (job_deps j) st) t (jobs p)) (messagePersistenceChains p).

(** [if (map.get(id) === next) map.delete(id)] for every id of the job. *)
Definition cleanup (t : nat) (ids : list jsstring) (p : Persistence) : Persistence :=
  mkPersistence (jobs p)
    (map_delete_if (fun id last => bool_decide (id ∈ ids) && bool_decide (last = t)) (messagePersistenceChains p)).

Inductive event : Type :=
| ev_request (r : StorageRequest)
| ev_start (t : nat)
| ev_finish (t : nat) (ok : bool)
| ev_cleanup (t : nat).

(** [None]: the event cannot take place. *)
Definition run_event (p : Persistence) (e : event) : option Persistence :=
  match e with
  | ev_request r => Some (persist r p)
  | ev_start t =>
      j ← jobs p !! t;
      if bool_decide (job_state j = waiting) && ready p j then Some (set_state t running p) else None
  | ev_finish t ok =>
      j ← jobs p !! t;
      if bool_decide (job_state j = running) then Some (set_state t (if ok then fulfilled else rejected) p) else None
  | ev_cleanup t =>
      j ← jobs p !! t;
      if settled (job_state j) then Some (cleanup t (job_ids j) p) else None
  end.

Fixpoint run_events (p : Persistence) (es : list event) : option Persistence :=
  match es with
  | [] => Some p
  | e :: es => p' ← run_event p e; run_events p' es
  end.

Definition touches (p : Persistence) (t : nat) (id : jsstring) : Prop :=
  exists j, jobs p !! t = Some j /\ id ∈ job_ids j.

Definition never_rejected (p : Persistence) : Prop := forall t, state_at p t <> Some rejected.

(** ** Facts on the updates *)

Lemma state_at_set p t st u :
  state_at (set_state t st p) u = if decide (u = t) then (fun _ => st) <$> state_at p u else state_at p u.
Proof.
  unfold state_at, set_state. cbn. case_decide as E.
  - subst. rewrite list_lookup_alter_eq. by destruct (jobs p !! t).
  - by rewrite list_lookup_alter_ne.
Qed.

Lemma job_at_set p t st u j :
  jobs (set_state t st p) !! u = Some j ->
  exists j0, jobs p !! u = Some j0 /\ job_write j = job_write j0 /\ job_deps j = job_deps j0.
Proof.
  unfold set_state. cbn. destruct (decide (u = t)) as [->|E].
  - rewrite list_lookup_alter_eq. intros (j0 & Hj & ->)%fmap_Some. eauto.
  - rewrite list_lookup_alter_ne by done. eauto.
Qed.

Lemma job_set_at p t st u j0 :
  jobs p !! u = Some j0 ->
  exists j, jobs (set_state t st p) !! u = Some j /\ job_write j = job_write j0 /\ job_deps j = job_deps j0.
Proof.
  unfold set_state. cbn. intros Hj. destruct (decide (u = t)) as [->|E].
  - rewrite list_lookup_alter_eq, Hj. cbn. eauto.
  - rewrite list_lookup_alter_ne by done. eauto.
Qed.

Lemma touches_set p t st u id : touches (set_state t st p) u id <-> touches p u id.
Proof.
  unfold touches, job_ids. split.
  - intros (j & (j0 & Hj & E & _)%job_at_set & Hid). exists j0. by rewrite <- E.
  - intros (j0 & (j & Hj & E & _)%(job_set_at _ t st) & Hid). exists j. by rewrite E.
Qed.

Lemma touches_lt p t id : touches p t id -> (t < length (jobs p))%nat.
Proof. intros (j & Hj & _). by eapply lookup_lt_Some. Qed.

Lemma map_get_set_all ids token (m : list (jsstring * nat)) id :
  map_get (foldl (fun m id => map_set m id token) m ids) id
  = if bool_decide (id ∈ ids) then Some token else map_get m id.
Proof.
  revert m. induction ids as [|i ids IH]; intros m; cbn [foldl]; [by rewrite bool_decide_false by set_solver |].
  rewrite IH. destruct (decide (id ∈ ids)) as [E|E].
  - by rewrite !bool_decide_true by set_solver.
  - rewrite (bool_decide_false (id ∈ ids)) by done. destruct (decide (id = i)) as [->|Hne].
    + rewrite bool_decide_true by set_solver. by rewrite map_get_set_eq.
    + rewrite bool_decide_false by set_solver. by rewrite map_get_set_ne.
Qed.

(** ** The invariant *)

Record chain_inv (p : Persistence) : Prop := {
  inv_wf : map_wf (messagePersistenceChains p);
  (** The end of a chain is the last job for the id. *)
  inv_last : forall id t, map_get (messagePersistenceChains p) id = Some t ->
    touches p t id /\ forall t', touches p t' id -> (t' <= t)%nat;
  inv_deps : forall t j d, jobs p !! t = Some j -> d ∈ job_deps j -> (d < t)%nat;
}.

Lemma touches_submit w deps p t id :
  touches (submit w deps p) t id <-> touches p t id \/ t = length (jobs p) /\ id ∈ write_ids w.
Proof.
  unfold touches, submit. cbn. split.
  - intros (j & Hj & Hid). apply lookup_app_Some in Hj as [Hj | [Hl Hj]]; [eauto |].
    apply list_lookup_singleton_Some in Hj as [E <-]. right. split; [lia | done].
  - intros [(j & Hj & Hid) | [-> Hid]].
    + exists j. split; [by apply lookup_app_l_Some | done].
    + eexists. split; [by apply list_lookup_middle | done].
Qed.

Lemma state_submit w deps p t :
  state_at (submit w deps p) t = if decide (t = length (jobs p)) then Some waiting else state_at p t.
Proof.
  unfold state_at, submit. cbn. case_decide as E; [subst; by rewrite list_lookup_middle |].
  destruct (decide (t < length (jobs p))%nat) as [Hl|Hl]; [by rewrite lookup_app_l |].
  rewrite !lookup_ge_None_2; [done | lia | rewrite length_app; cbn; lia].
Qed.

Lemma submit_job w deps p t j :
  jobs (submit w deps p) !! t = Some j -> jobs p !! t = Some j \/ t = length (jobs p) /\ j = Job w deps waiting.
Proof.
  unfold submit. cbn. intros [Hj | [Hl Hj]]%lookup_app_Some; [by left | right].
  apply list_lookup_singleton_Some in Hj as [E <-]. split; [lia | done].
Qed.

Lemma preceding_elem p ids d :
  d ∈ preceding p ids <-> exists id, id ∈ ids /\ map_get (messagePersistenceChains p) id = Some d.
Proof. unfold preceding. by rewrite list_elem_of_omap. Qed.

Lemma foldl_set_wf ids token (m : list (jsstring * nat)) :
  map_wf m -> map_wf (foldl (fun m id => map_set m id token) m ids).
Proof. revert m. induction ids as [|i ids IH]; intros m Hm; [done |]. by apply IH, map_set_wf. Qed.

Lemma submit_inv w p : chain_inv p -> chain_inv (submit w (preceding p (write_ids w)) p).
Proof.
  intros [Hw Hl Hd]. split.
  - by apply foldl_set_wf.
  - intros id t. unfold submit at 1. cbn [messagePersistenceChains]. rewrite map_get_set_all. setoid_rewrite touches_submit.
    case_bool_decide as E.
    + intros [= <-]. split; [by right |]. intros t' [Ht%touches_lt | [-> _]]; lia.
    + intros Hg. destruct (Hl _ _ Hg) as [Ht Hmax]. split; [by left |]. intros t' [Ht' | [_ Hin]]; [by apply Hmax | done].
  - intros t j d [Hj | [-> ->]]%submit_job Hdep; [by eapply Hd |]. cbn in Hdep.
    apply preceding_elem in Hdep as (id & _ & Hg). destruct (Hl _ _ Hg) as [Ht _]. by eapply touches_lt.
Qed.

Lemma set_state_inv t st p : chain_inv p -> chain_inv (set_state t st p).
Proof.
  intros [Hw Hl Hd]. split; [done | |].
  - intros id u Hg. destruct (Hl id u Hg) as [Ht Hmax]. setoid_rewrite touches_set. done.
  - intros u j d (j0 & Hj & _ & E)%job_at_set Hdep. rewrite E in Hdep. by eapply Hd.
Qed.

Lemma cleanup_get t ids p id :
  map_wf (messagePersistenceChains p) ->
  map_get (messagePersistenceChains (cleanup t ids p)) id =
  match map_get (messagePersistenceChains p) id with
  | Some u => if bool_decide (id ∈ ids) && bool_decide (u = t) then None else Some u
  | None => None
  end.
Proof. intros Hw. unfold cleanup. cbn [messagePersistenceChains]. by rewrite map_get_delete_if. Qed.

Lemma cleanup_inv t ids p : chain_inv p -> chain_inv (cleanup t ids p).
Proof.
  intros [Hw Hl Hd]. split; [by apply map_delete_if_wf | | done].
  intros id u. rewrite cleanup_get by done. destruct (map_get _ id) as [v|] eqn:E; [| done].
  case_match; [done |]. intros [= <-]. exact (Hl id v E).
Qed.

(** What a job for an id knows of the earlier ones: they are settled, or it
    waits, directly or not, for the last of them. *)
Definition awaits (p : Persistence) (t t' : nat) (id : jsstring) : Prop :=
  state_at p t' = Some fulfilled
  \/ exists j d, jobs p !! t = Some j /\ d ∈ job_deps j /\ (t' <= d)%nat /\ touches p d id.

Record order_inv (p : Persistence) : Prop := {
  ord_chain : chain_inv p;
  ord_awaits : forall t t' id, touches p t id -> touches p t' id -> (t' < t)%nat -> awaits p t t' id;
  ord_free : forall t id, touches p t id -> map_get (messagePersistenceChains p) id = None -> state_at p t = Some fulfilled;
  ord_started : forall t t' id, touches p t id -> touches p t' id -> (t' < t)%nat ->
    state_at p t <> Some waiting -> state_at p t' = Some fulfilled;
}.

Lemma submit_order w p : order_inv p -> order_inv (submit w (preceding p (write_ids w)) p).
Proof.
  intros [Hc Ha Hf Hs]. set (q := submit _ _ p).
  assert (Hst : forall t id, touches p t id -> state_at q t = state_at p t).
  { intros t id Ht%touches_lt. subst q. rewrite state_submit. case_decide; [lia | done]. }
  split; [by apply submit_inv | | |].
  - intros t t' id Ht Ht' Hlt. apply touches_submit in Ht' as [Ht' | [-> _]].
    2: { apply touches_submit in Ht as [Ht%touches_lt | [-> _]]; lia. }
    apply touches_submit in Ht as [Ht | [-> Hid]].
    + destruct (Ha t t' id Ht Ht' Hlt) as [E | (j & d & Hj & Hd & Hle & Htd)]; [left; by rewrite (Hst t' id) |].
      right. exists j, d. split; [by apply lookup_app_l_Some |]. split_and!; [done | done |]. apply touches_submit. by left.
    + destruct (map_get (messagePersistenceChains p) id) as [d|] eqn:E.
      * destruct (inv_last p Hc id d E) as [Htd Hmax]. right. eexists _, d. split; [by apply list_lookup_middle |].
        split; [apply preceding_elem; eauto |]. split; [by apply Hmax |]. apply touches_submit. by left.
      * left. rewrite (Hst t' id) by done. by apply (Hf _ id).
  - intros t id Ht. subst q. unfold submit at 1. cbn [messagePersistenceChains]. rewrite map_get_set_all.
    case_bool_decide as E; [done |]. intros Hg. apply touches_submit in Ht as [Ht | [_ Hin]]; [| done].
    rewrite (Hst t id) by done. by apply (Hf _ id).
  - intros t t' id Ht Ht' Hlt Hw. apply touches_submit in Ht as [Ht | [-> Hid]].
    + apply touches_submit in Ht' as [Ht' | [-> _]]; [| apply touches_lt in Ht; lia].
      rewrite (Hst t' id) by done. rewrite (Hst t id) in Hw by done. by apply (Hs t t' id).
    + subst q. rewrite state_submit, decide_True in Hw by done. done.
Qed.

(** A change of one state that does not undo a fulfilled write. *)
Lemma set_state_order t st p :
  order_inv p -> state_at p t <> Some fulfilled ->
  (st <> waiting -> state_at p t = Some waiting ->
     forall t' id, touches p t id -> touches p t' id -> (t' < t)%nat -> state_at p t' = Some fulfilled) ->
  order_inv (set_state t st p).
Proof.
  intros [Hc Ha Hf Hs] Hnf Hst.
  assert (Hkeep : forall u, state_at p u = Some fulfilled -> state_at (set_state t st p) u = Some fulfilled).
  { intros u Hu. rewrite state_at_set. case_decide; [by subst | done]. }
  split; [by apply set_state_inv | | |].
  - intros u u' id Hu%touches_set Hu'%touches_set Hlt.
    destruct (Ha u u' id Hu Hu' Hlt) as [E | (j & d & Hj & Hd & Hle & Htd)]; [left; by apply Hkeep |].
    right. destruct (job_set_at p t st u j Hj) as (j' & Hj' & _ & E). exists j', d. rewrite E.
    split_and!; [done | done | done |]. by apply touches_set.
  - intros u id Hu%touches_set Hg. apply Hkeep. by apply (Hf u id).
  - intros u u' id Hu%touches_set Hu'%touches_set Hlt Hw. apply Hkeep. rewrite state_at_set in Hw.
    case_decide as E; [subst u | by apply (Hs u u' id)]. destruct (state_at p t) as [s0|] eqn:Es.
    + destruct (decide (s0 = waiting)) as [->|Hne]; [| apply (Hs t u' id); [done | done | done | rewrite Es; congruence]].
      eapply Hst; [| done | done | done | done]. intros ->. by apply Hw.
    + destruct Hu as (j & Hj & _). unfold state_at in Es. by rewrite Hj in Es.
Qed.

Lemma cleanup_order t j p :
  order_inv p -> jobs p !! t = Some j -> state_at p t = Some fulfilled -> order_inv (cleanup t (job_ids j) p).
Proof.
  intros [Hc Ha Hf Hs] Hj Hst. split; [by apply cleanup_inv | done | | done].
  intros u id Hu. rewrite cleanup_get by apply Hc. destruct (map_get _ id) as [v|] eqn:E; [| by eauto].
  case_match eqn:Eb; [| done]. intros _. bool_props. subst v.
  destruct (inv_last p Hc id t E) as [Ht Hmax]. destruct (decide (u = t)) as [->|Hne]; [done |].
  eapply (Hs t u id); [done | done | specialize (Hmax u Hu); lia | by rewrite Hst].
Qed.

Lemma ready_fulfilled p j d : never_rejected p -> ready p j = true -> d ∈ job_deps j -> state_at p d = Some fulfilled.
Proof.
  unfold ready. intros Hn [H|H]%orb_true_iff Hd.
  - rewrite forallb_forall in H. apply list_elem_of_In in Hd. specialize (H d Hd). by bool_props.
  - apply existsb_exists in H as (x & _ & Hx). bool_props. by destruct (Hn x).
Qed.

Lemma persist_cases r p :
  persist r p = p \/ exists w, persist r p = submit w (preceding p (write_ids w)) p.
Proof.
  destruct r; cbn [persist]; try (by left); unfold persistMessageInOrder, persistRetriedMessageInOrder, persistMessageDeletionInOrder.
  - case_match; [by left | right]. by exists (w_save m).
  - case_match; [by left | right]. by exists (w_replace previous m).
  - right. by eexists (w_delete _).
Qed.

Lemma event_order p e p' :
  order_inv p -> never_rejected p -> run_event p e = Some p' -> never_rejected p' -> order_inv p'.
Proof.
  intros Hi Hn. destruct e as [r|t|t ok|t]; cbn [run_event].
  - intros [= <-] _. destruct (persist_cases r p) as [-> | [w ->]]; [done | by apply submit_order].
  - destruct (jobs p !! t) as [j|] eqn:Hj; [cbn | done]. case_match eqn:E; [| done]. intros [= <-] _. bool_props.
    apply set_state_order; [done | unfold state_at; rewrite Hj; cbn; congruence |].
    intros _ _ t' id Ht Ht' Hlt.
    destruct (ord_awaits p Hi t t' id Ht Ht' Hlt) as [|(j' & d & Hj' & Hd & Hle & Htd)]; [done |]. simplify_eq.
    assert (Hdf : state_at p d = Some fulfilled) by (eapply ready_fulfilled; eauto).
    destruct (decide (t' = d)) as [->|]; [done |].
    eapply (ord_started p Hi d t' id); [done | done | lia | by rewrite Hdf].
  - destruct (jobs p !! t) as [j|] eqn:Hj; [cbn | done]. case_match eqn:E; [| done]. intros [= <-] Hn'. bool_props.
    apply set_state_order; [done | unfold state_at; rewrite Hj; cbn; congruence |].
    unfold state_at. rewrite Hj. cbn. congruence.
  - destruct (jobs p !! t) as [j|] eqn:Hj; [cbn | done]. case_match eqn:E; [| done]. intros [= <-] _.
    apply cleanup_order; [done | done |]. specialize (Hn t). unfold state_at in *. rewrite Hj in *. cbn in *.
    by destruct (job_state j).
Qed.

Lemma event_chain p e p' : chain_inv p -> run_event p e = Some p' -> chain_inv p'.
Proof.
  intros Hc. destruct e as [r|t|t ok|t]; cbn [run_event].
  - intros [= <-]. destruct (persist_cases r p) as [-> | [w ->]]; [done | by apply submit_inv].
  - destruct (jobs p !! t) as [j|] eqn:Hj; [cbn | done]. case_match; [| done]. intros [= <-]. by apply set_state_inv.
  - destruct (jobs p !! t) as [j|] eqn:Hj; [cbn | done]. case_match; [| done]. intros [= <-]. by apply set_state_inv.
  - destruct (jobs p !! t) as [j|] eqn:Hj; [cbn | done]. case_match; [| done]. intros [= <-]. by apply cleanup_inv.
Qed.

Lemma no_chains_inv : chain_inv no_chains.
Proof. split; [apply NoDup_nil_2 | done | done]. Qed.

Lemma no_chains_order : order_inv no_chains.
Proof.
  assert (H : forall t id, ~ touches no_chains t id) by (intros t id (j & Hj & _); done).
  split; [apply no_chains_inv | | |]; intros; by edestruct H.
Qed.

Definition succeeds (e : event) : Prop := match e with ev_finish _ ok => ok = true | _ => True end.

Lemma succeeds_never_rejected p e p' :
  succeeds e -> never_rejected p -> run_event p e = Some p' -> never_rejected p'.
Proof.
  intros He Hn. destruct e as [r|t|t ok|t]; cbn [run_event].
  - intros [= <-]. destruct (persist_cases r p) as [-> | [w ->]]; [done |]. intros t. rewrite state_submit.
    by case_decide.
  - destruct (jobs p !! t) as [j|] eqn:Hj; [cbn | done]. case_match; [| done]. intros [= <-] u. rewrite state_at_set.
    destruct (decide (u = t)); [| by apply Hn]. destruct (state_at p u); cbn; congruence.
  - destruct (jobs p !! t) as [j|] eqn:Hj; [cbn | done]. case_match; [| done]. intros [= <-] u. rewrite state_at_set.
    cbn in He. subst ok. destruct (decide (u = t)); [| by apply Hn]. destruct (state_at p u); cbn; congruence.
  - destruct (jobs p !! t) as [j|] eqn:Hj; [cbn | done]. case_match; [| done]. by intros [= <-].
Qed.

(** C20: the writes of a message reach IndexedDB in the order they were made.
    Whatever the interleaving of new writes, replacements and deletions with
    the start, the end and the cleanup of earlier ones, as long as no write
    fails a write starts only when every earlier write that touches one of its
    messages is complete. *)
Theorem writes_in_order es p t t' id :
  run_events no_chains es = Some p -> Forall succeeds es ->
  touches p t id -> touches p t' id -> (t' < t)%nat ->
  state_at p t <> Some waiting -> state_at p t' = Some fulfilled.
Proof.
  intros Hrun Hok. assert (H : order_inv p); [| apply (ord_started p H)].
  assert (Hn : never_rejected no_chains) by done. revert Hrun Hn.
  generalize no_chains, no_chains_order. induction es as [|e es IH]; intros q Hq; cbn [run_events]; [by intros [= <-] |].
  inversion Hok; subst. destruct (run_event q e) as [q'|] eqn:E; [cbn | done]. intros Hrun Hn.
  assert (Hn' : never_rejected q') by (by eapply succeeds_never_rejected).
  apply (IH ltac:(done) q'); [by eapply event_order | done | done].
Qed.

Definition text_of (id : jsstring) (st : MessageDeliveryState) : MessageSummary :=
  Message.mk id [7] outgoing [] 0 st None None.

Definition two_writes : list event :=
  [ ev_request (PersistMessage (text_of [1] d_pending)); ev_request (PersistMessage (text_of [1] d_relayed));
    ev_start 0; ev_finish 0 true; ev_cleanup 0; ev_start 1 ].

Lemma two_writes_run :
  match run_events no_chains two_writes with
  | Some p => (job_state <$> jobs p) = [fulfilled; running]
              /\ jobs p = [Job (w_save (text_of [1] d_pending)) [] fulfilled;
                           Job (w_save (text_of [1] d_relayed)) [0%nat] running]
  | None => False
  end.
Proof. vm_compute. done. Qed.

Lemma writes_in_order_witness :
  let p := default no_chains (run_events no_chains two_writes) in
  touches p 1 [1] /\ touches p 0 [1] /\ state_at p 0 = Some fulfilled.
Proof.
  assert (H1 : touches (default no_chains (run_events no_chains two_writes)) 1 [1]).
  { eexists. split; [vm_compute; reflexivity | cbn; set_solver]. }
  assert (H0 : touches (default no_chains (run_events no_chains two_writes)) 0 [1]).
  { eexists. split; [vm_compute; reflexivity | cbn; set_solver]. }
  split; [exact H1 | split; [exact H0 |]].
  apply (writes_in_order two_writes _ 1 0 [1]); [vm_compute; reflexivity | by repeat constructor | exact H1 | exact H0 | lia |].
  vm_compute. discriminate.
Defined.

(** no write waits forever.  In every state that can be reached, failed
    writes included, as long as some write is not complete one is running or
    one can start. *)
Theorem some_write_can_go_on es p t :
  run_events no_chains es = Some p -> (t < length (jobs p))%nat -> settled (default waiting (state_at p t)) = false ->
  exists t', (t' <= t)%nat /\ (state_at p t' = Some running \/ is_Some (run_event p (ev_start t'))).
Proof.
  intros Hrun. assert (Hc : chain_inv p).
  { revert Hrun. generalize no_chains, no_chains_inv. induction es as [|e es IH]; intros q Hq; cbn [run_events]; [by intros [= <-] |].
    destruct (run_event q e) as [q'|] eqn:E; [cbn | done]. by apply IH, (event_chain q e). }
  clear Hrun. induction (lt_wf t) as [t _ IH]. intros Hlt Hst.
  destruct (lookup_lt_is_Some_2 _ _ Hlt) as [j Hj]. unfold state_at in Hst. rewrite Hj in Hst. cbn in Hst.
  destruct (job_state j) eqn:Es; try done.
  2: { exists t. split; [done |]. left. unfold state_at. rewrite Hj. cbn. by rewrite Es. }
  destruct (decide (Exists (fun d => settled (default waiting (state_at p d)) = false) (job_deps j))) as [He | He].
  - apply Exists_exists in He as (d & Hd & Hu). pose proof (inv_deps p Hc t j d Hj Hd) as Hdt.
    destruct (IH d Hdt ltac:(lia) Hu) as (t' & Hle & H). exists t'. split; [lia | done].
  - exists t. split; [done |]. right. cbn. rewrite Hj. cbn. rewrite Es, bool_decide_true by done.
    assert (ready p j = true) as ->; [| done]. unfold ready. apply orb_true_iff.
    apply not_Exists_Forall in He; [| apply _].
    destruct (existsb (fun d => bool_decide (state_at p d = Some rejected)) (job_deps j)) eqn:Er; [by right | left].
    apply forallb_forall. intros d Hd%list_elem_of_In. rewrite Forall_forall in He. specialize (He d Hd).
    destruct (bool_decide (state_at p d = Some rejected)) eqn:Eb.
    { rewrite <- not_true_iff_false in Er. exfalso. apply Er, existsb_exists. exists d. by rewrite <- list_elem_of_In. }
    apply bool_decide_eq_false in Eb. apply bool_decide_eq_true. revert He Eb. cbn.
    destruct (state_at p d) as [[]|]; cbn; congruence.
Qed.

Lemma some_write_can_go_on_witness :
  exists t', (t' <= 1)%nat
    /\ (state_at (default no_chains (run_events no_chains (take 4 two_writes))) t' = Some running
        \/ is_Some (run_event (default no_chains (run_events no_chains (take 4 two_writes))) (ev_start t'))).
Proof. apply (some_write_can_go_on (take 4 two_writes)); [vm_compute; reflexivity | vm_compute; lia | reflexivity]. Defined.

(** ** What a failed write and repeated deletions do *)

(** [a] is being written, [c] too; the retry of [c] as [b] waits for [c]; a
    deletion of [a] and [b] waits for both.  The write of [a] fails. *)
Definition failing_run : list event :=
  [ ev_request (PersistMessage (text_of [1] d_pending)); ev_request (PersistMessage (text_of [3] d_unavailable));
    ev_request (PersistRetried [3] (text_of [2] d_pending)); ev_request (PersistDeletion [[1]; [2]]);
    ev_start 0; ev_start 1; ev_finish 0 false; ev_start 3; ev_finish 3 true; ev_finish 1 true; ev_start 2 ].

(** [Promise.all] rejects with its first rejected promise: the deletion goes
    first and the retry writes the deleted message afterwards. *)
Lemma failure_breaks_order :
  match run_events no_chains failing_run with
  | Some p => bool_decide ([2] ∈ write_ids (default (w_delete []) (job_write <$> jobs p !! 2%nat)))
              && bool_decide ([2] ∈ write_ids (default (w_delete []) (job_write <$> jobs p !! 3%nat)))
              && bool_decide (state_at p 3 = Some fulfilled) && bool_decide (state_at p 2 = Some running)
  | None => false
  end = true.
Proof. vm_compute. done. Qed.

Definition many_ids (n : Z) : list jsstring := (fun k => [n; k]) <$> seqZ 0 128.

(** Deletions are not bounded by the number of chains, and then no new message
    is written. *)
Lemma deletions_unbounded :
  let p := foldl (fun p n => persist (PersistDeletion (many_ids n)) p) no_chains [1; 2; 3] in
  zlen (messagePersistenceChains p) = 384
  /\ length (jobs (persist (PersistMessage (text_of [9] d_pending)) p)) = length (jobs p).
Proof. vm_compute. done. Qed.
