(* ===== verification/RelayAttachment.v ===== *)
(** * [protocol/v0/relay-attachment.ts]: frames between a client and its relay

    Sixteen frame types, each with a validator that reads its fields in order.
    [new URL] of the host is the argument [parse_URL] ([None] when it throws),
    [JSON.parse] the argument [JSON_parse]; nothing is assumed of either. *)
From S2P Require Import Prelude JsRuntime Collections Base64Url Json Envelope.

Definition maxDraftRelayAttachmentFrameBytes : Z := maxDraftEnvelopeBytes.
Definition maxDraftRelayCiphertextBytes : Z := 8 * 1024.
Definition maxDraftRouteHints : Z := 8.
Definition maxDraftRouteHintUriBytes : Z := 512.
Definition maxDraftIdentityRecords : Z := 4.
Definition maxDraftIdentityWrapperBytes : Z := 8192.
Definition draftRelayAttachmentPath : jsstring := js "/relay/v0".
Definition relayForwardLiveRole : jsstring := js "relay.forward.live/0".
Definition relayFederationLiveRole : jsstring := js "relay.federate.live/0.draft".

(** [protocol/v0/profile.ts] and [protocol/v0/text-carrier.ts] *)
Definition developmentProfileMultihash : jsstring := js "uEiCaVLmVxHgth49YdSwXKM201oM4W6PHc61z_1rz-J_xVw".
Definition branchTextWrapperPrefix : jsstring := js "BRANCH0.".

Inductive RelayFrameType : Type :=
| HELLO | CHALLENGE | AUTH | READY | PRESENCE | HEARTBEAT | LOOKUP | IDENTITY_WANT | IDENTITY_HAVE
| CONTACT_ANNOUNCE | CONTACT_LOOKUP | CONTACT_PROBE | RENDEZVOUS | ENVELOPE | ACK | ERROR.

#[export] Instance RelayFrameType_eq_dec : EqDecision RelayFrameType.
Proof. solve_decision. Defined.

Definition relayFrameTypes : list (jsstring * RelayFrameType) :=
  [(js "HELLO", HELLO); (js "CHALLENGE", CHALLENGE); (js "AUTH", AUTH); (js "READY", READY);
   (js "PRESENCE", PRESENCE); (js "HEARTBEAT", HEARTBEAT); (js "LOOKUP", LOOKUP);
   (js "IDENTITY_WANT", IDENTITY_WANT); (js "IDENTITY_HAVE", IDENTITY_HAVE);
   (js "CONTACT_ANNOUNCE", CONTACT_ANNOUNCE); (js "CONTACT_LOOKUP", CONTACT_LOOKUP);
   (js "CONTACT_PROBE", CONTACT_PROBE); (js "RENDEZVOUS", RENDEZVOUS); (js "ENVELOPE", ENVELOPE);
   (js "ACK", ACK); (js "ERROR", ERROR)].

Definition protocolErrorCodes : list jsstring :=
  [js "unsupported_version"; js "unsupported_profile"; js "profile_hash_mismatch";
   js "required_capability_missing"; js "required_extension_missing"; js "malformed_envelope";
   js "signature_invalid"; js "payload_decrypt_failed"; js "frame_too_large"; js "frame_malformed";
   js "frame_replayed"; js "authentication_failed"; js "capability_required";
   js "capability_expired"; js "capability_revoked"; js "quota_exceeded"; js "peer_unavailable";
   js "route_unavailable"; js "migration_rejected"; js "rate_limited"; js "timeout";
   js "internal_unavailable"].

Definition isRelayFrameType (value : jsstring) : option RelayFrameType := map_get relayFrameTypes value.

(** ** Readers *)

Definition rejectUnknownKeys (record : object) (keys optionalKeys : list jsstring) : result unit :=
  let? _ := require_keys record keys in reject_unknown record (keys ++ optionalKeys).

Definition readString (record : object) (key : jsstring) (maxBytes : Z) : result jsstring :=
  result_of_option (invalid key) (bounded_string maxBytes (prop record key)).

Definition readBoundedInteger (record : object) (key : jsstring) (min max : Z) : result Z :=
  result_of_option (invalid key) (bounded_integer min max (prop record key)).

Definition readInteger (record : object) (key : jsstring) : result Z :=
  readBoundedInteger record key 0 maxDraftTimestamp.

Definition readBoolean (record : object) (key : jsstring) : result bool :=
  match prop record key with JBool b => Ok b | _ => Throw (invalid key) end.

Definition readObject (record : object) (key : jsstring) : result object :=
  result_of_option (missing key) (as_object (prop record key)).

Definition readBase64URLString (record : object) (key : jsstring) (maxBytes : Z) : result jsstring :=
  let? value := readString record key maxBytes in
  let? _ := rethrow (invalid key) (decodeBase64URL value) in
  Ok value.

Definition readBase64URLBytes (record : object) (key : jsstring) (size : Z) : result jsstring :=
  let? value := readBase64URLString record key maxDraftStringBytes in
  let? b := decodeBase64URL value in
  if negb (zlen b =? size) then Throw (invalid key) else Ok value.

Definition readRelayFrameType (record : object) (key : jsstring) : result RelayFrameType :=
  let? value := readString record key maxDraftStringBytes in
  result_of_option (js "unsupported frame type") (isRelayFrameType value).

Definition readBranchID (record : object) (key : jsstring) : result jsstring :=
  let? value := readString record key maxDraftStringBytes in
  if negb (starts_with value (js "br1.")) then Throw (invalid key)
  else
    let? multihash := rethrow (invalid key) (decodeBase64URL (drop 4 value)) in
    if negb (zlen multihash =? 34) || negb (bool_decide (multihash !! 0%nat = Some 0x12))
       || negb (bool_decide (multihash !! 1%nat = Some 0x20))
    then Throw (invalid key) else Ok value.

Definition readIdentityRecords (record : object) (key : jsstring) : result (list json) :=
  match prop record key with
  | JArr value =>
      if maxDraftIdentityRecords <? zlen value then Throw (invalid key)
      else
        let? _ := each_result (fun item =>
          match bounded_string maxDraftIdentityWrapperBytes item with
          | Some item => if negb (starts_with item branchTextWrapperPrefix) then Throw (invalid key) else Ok tt
          | None => Throw (invalid key)
          end) value in
        Ok value
  | _ => Throw (invalid key)
  end.

Definition readBootstrapWrapper (record : object) (key : jsstring) : result jsstring :=
  let? value := readString record key maxDraftStringBytes in
  if (maxDraftIdentityWrapperBytes <? zlen (utf8_encode value))
     || negb (starts_with value branchTextWrapperPrefix)
  then Throw (invalid key) else Ok value.

(** The loop of [readOrderedUniqueStrings] over the items left. *)
Fixpoint ordered_items (key : jsstring) (seen : list jsstring) (previous : jsstring) (items : list json)
  : result (list jsstring) :=
  match items with
  | [] => Ok []
  | item :: items =>
      match bounded_string maxDraftStringBytes item with
      | None => Throw (invalid key)
      | Some item =>
          if bool_decide (item ∈ seen) || js_ltb item previous then Throw (invalid key)
          else let? rest := ordered_items key (item :: seen) item items in Ok (item :: rest)
      end
  end.

Definition readOrderedUniqueStrings (record : object) (key : jsstring) (maxItems : Z)
  : result (list jsstring) :=
  match prop record key with
  | JArr value => if maxItems <? zlen value then Throw (invalid key) else ordered_items key [] [] value
  | _ => Throw (invalid key)
  end.

Definition offerKeys : list jsstring :=
  [js "wire_version"; js "protocol"; js "profile_multihash"; js "capabilities";
   js "required_capabilities"; js "extensions"; js "required_extensions"].

Definition readVersionOffer (value : json) : result unit :=
  match value with
  | JObj value =>
      let? _ := rejectUnknownKeys value offerKeys [] in
      let? wire_version := readBoundedInteger value (js "wire_version") 0 maxDraftTimestamp in
      if negb (wire_version =? 0) then Throw (js "unsupported_version")
      else
      let? protocol := readString value (js "protocol") maxDraftStringBytes in
      if negb (str_eqb protocol protocolID) then Throw (js "unsupported_protocol")
      else
      let? profile := readString value (js "profile_multihash") maxDraftStringBytes in
      if negb (str_eqb profile developmentProfileMultihash) then Throw (js "profile_hash_mismatch")
      else
      let? capabilities := readOrderedUniqueStrings value (js "capabilities") 32 in
      if negb (bool_decide (js "relay.forward.live/0" ∈ capabilities)) then Throw (js "capability_required")
      else
      let? _ := readOrderedUniqueStrings value (js "required_capabilities") 32 in
      let? _ := readOrderedUniqueStrings value (js "extensions") 32 in
      let? _ := readOrderedUniqueStrings value (js "required_extensions") 32 in
      Ok tt
  | _ => Throw (js "invalid version offer")
  end.

Definition readVersionOffers (record : object) (key : jsstring) : result unit :=
  match prop record key with
  | JArr value =>
      if (zlen value =? 0) || (8 <? zlen value) then Throw (invalid key)
      else each_result readVersionOffer value
  | _ => Throw (invalid key)
  end.

(** ** Route hints *)

(** The parts of a parsed URL the program looks at. *)
Record URL := mkURL {
  url_protocol : jsstring; url_host : jsstring; url_username : jsstring;
  url_password : jsstring; url_hash : jsstring; url_pathname : jsstring; url_hostname : jsstring;
}.

Section Frames.
Context (parse_URL : jsstring -> option URL).

Definition validateRouteHintUri (transport value : jsstring) : result unit :=
  if maxDraftRouteHintUriBytes <? zlen (utf8_encode value) then Throw (js "invalid route_hints")
  else match parse_URL value with
  | None => Throw (js "invalid route_hints")
  | Some parsed =>
      if negb (str_eqb (url_protocol parsed) (transport ++ js ":"))
         || str_eqb (url_host parsed) [] || negb (str_eqb (url_username parsed) [])
         || negb (str_eqb (url_password parsed) []) || negb (str_eqb (url_hash parsed) [])
         || negb (str_eqb (url_pathname parsed) draftRelayAttachmentPath)
      then Throw (js "invalid route_hints") else Ok tt
  end.

Definition hintKeys : list jsstring := [js "transport"; js "uri"; js "relay_public_key"; js "priority"].

(** The loop of [validateRouteHints], with the keys seen so far. *)
Fixpoint route_hint_items (seen : list jsstring) (hints : list json) : result unit :=
  match hints with
  | [] => Ok tt
  | JObj hint :: hints =>
      let? _ := rejectUnknownKeys hint hintKeys [] in
      let? transport := readString hint (js "transport") maxDraftStringBytes in
      if negb (str_eqb transport (js "wss")) && negb (str_eqb transport (js "ws"))
      then Throw (js "invalid route_hints")
      else
      let? uri := readString hint (js "uri") maxDraftStringBytes in
      let? _ := validateRouteHintUri transport uri in
      let key := transport ++ [0] ++ uri in
      if bool_decide (key ∈ seen) then Throw (js "duplicate route_hints")
      else
      let? _ := readBase64URLBytes hint (js "relay_public_key") 32 in
      let? _ := readBoundedInteger hint (js "priority") 0 maxDraftTimestamp in
      route_hint_items (key :: seen) hints
  | _ :: _ => Throw (js "invalid route_hints")
  end.

Definition validateRouteHints (record : object) : result unit :=
  match prop record (js "route_hints") with
  | JUndefined => Ok tt
  | JArr hints =>
      if (zlen hints =? 0) || (maxDraftRouteHints <? zlen hints) then Throw (js "invalid route_hints")
      else route_hint_items [] hints
  | _ => Throw (js "invalid route_hints")
  end.

(** ** Frame validators *)

Definition helloKeys : list jsstring :=
  [js "type"; js "client_nonce"; js "client_time"; js "requested_role"; js "max_frame_bytes"; js "offers"].

Definition federationHelloKeys : list jsstring :=
  [js "type"; js "client_nonce"; js "client_time"; js "requested_role"; js "relay_beacon";
   js "max_frame_bytes"; js "offers"].

Definition validateHello (record : object) : result unit :=
  let? _ := readBase64URLBytes record (js "client_nonce") 32 in
  let? _ := readInteger record (js "client_time") in
  let? role := readString record (js "requested_role") maxDraftStringBytes in
  let? _ :=
    if str_eqb role relayForwardLiveRole then rejectUnknownKeys record helloKeys []
    else if str_eqb role relayFederationLiveRole then
      let? _ := rejectUnknownKeys record federationHelloKeys [] in
      let? _ := readBootstrapWrapper record (js "relay_beacon") in Ok tt
    else Throw (js "unsupported requested_role") in
  let? _ := readBoundedInteger record (js "max_frame_bytes") 1 49152 in
  readVersionOffers record (js "offers").

Definition challengeKeys : list jsstring :=
  [js "type"; js "client_nonce"; js "relay_nonce"; js "issued_at"; js "expires_at";
   js "relay_public_key"; js "selected"; js "transcript_hash"; js "relay_proof"].

Definition validateChallenge (record : object) : result unit :=
  let? _ := rejectUnknownKeys record challengeKeys [] in
  let? _ := readBase64URLBytes record (js "client_nonce") 32 in
  let? _ := readBase64URLBytes record (js "relay_nonce") 32 in
  let? issuedAt := readInteger record (js "issued_at") in
  let? expiresAt := readInteger record (js "expires_at") in
  if (expiresAt <=? issuedAt) || (60 <? expiresAt - issuedAt) then Throw (js "frame_replayed")
  else
  let? _ := readBase64URLBytes record (js "relay_public_key") 32 in
  let? selected := readObject record (js "selected") in
  let? _ := readVersionOffer (JObj selected) in
  let? _ := readBase64URLBytes record (js "transcript_hash") 32 in
  let? _ := readBase64URLBytes record (js "relay_proof") 64 in
  Ok tt.

Definition authKeys : list jsstring :=
  [js "type"; js "client_public_key"; js "client_nonce"; js "relay_nonce"; js "transcript_hash"; js "client_proof"].

Definition validateAuth (record : object) : result unit :=
  let? _ := rejectUnknownKeys record authKeys [] in
  let? _ := readBase64URLBytes record (js "client_public_key") 32 in
  let? _ := readBase64URLBytes record (js "client_nonce") 32 in
  let? _ := readBase64URLBytes record (js "relay_nonce") 32 in
  let? _ := readBase64URLBytes record (js "transcript_hash") 32 in
  let? _ := readBase64URLBytes record (js "client_proof") 64 in
  Ok tt.

Definition readyKeys : list jsstring :=
  [js "type"; js "session_id"; js "route_id"; js "presence_ttl_seconds";
   js "heartbeat_interval_seconds"; js "accepted_limits"].
Definition limitKeys : list jsstring :=
  [js "max_frame_bytes"; js "max_queue_depth"; js "max_frames_per_session"; js "max_bytes_per_session"].

Definition validateReady (record : object) : result unit :=
  let? _ := rejectUnknownKeys record readyKeys [] in
  let? _ := readBase64URLBytes record (js "session_id") 32 in
  let? _ := readBase64URLBytes record (js "route_id") 16 in
  let? _ := readBoundedInteger record (js "presence_ttl_seconds") 1 300 in
  let? _ := readBoundedInteger record (js "heartbeat_interval_seconds") 1 60 in
  let? limits := readObject record (js "accepted_limits") in
  let? _ := rejectUnknownKeys limits limitKeys [] in
  let? _ := readBoundedInteger limits (js "max_frame_bytes") 1 49152 in
  let? _ := readBoundedInteger limits (js "max_queue_depth") 1 1024 in
  let? _ := readBoundedInteger limits (js "max_frames_per_session") 1 maxDraftTimestamp in
  let? _ := readBoundedInteger limits (js "max_bytes_per_session") 1 maxDraftTimestamp in
  Ok tt.

Definition presenceKeys : list jsstring :=
  [js "type"; js "session_id"; js "route_id"; js "peer_id"; js "sequence"; js "ttl_seconds"; js "sent_at"].

Definition validatePresence (record : object) : result unit :=
  let? _ := rejectUnknownKeys record presenceKeys [] in
  let? _ := readBase64URLBytes record (js "session_id") 32 in
  let? _ := readBase64URLBytes record (js "route_id") 16 in
  let? _ := readBase64URLBytes record (js "peer_id") 32 in
  let? _ := readBoundedInteger record (js "sequence") 0 maxDraftTimestamp in
  let? _ := readBoundedInteger record (js "ttl_seconds") 1 300 in
  let? _ := readInteger record (js "sent_at") in
  Ok tt.

Definition heartbeatKeys : list jsstring := [js "type"; js "session_id"; js "sequence"; js "sent_at"].

Definition validateHeartbeat (record : object) : result unit :=
  let? _ := rejectUnknownKeys record heartbeatKeys [] in
  let? _ := readBase64URLBytes record (js "session_id") 32 in
  let? _ := readBoundedInteger record (js "sequence") 0 maxDraftTimestamp in
  let? _ := readInteger record (js "sent_at") in
  Ok tt.

Definition lookupKeys : list jsstring := [js "type"; js "session_id"; js "peer_id"; js "sequence"].

Definition validateLookup (record : object) : result unit :=
  let? _ := rejectUnknownKeys record lookupKeys [] in
  let? _ := readBase64URLBytes record (js "session_id") 32 in
  let? _ := readBase64URLBytes record (js "peer_id") 32 in
  let? _ := readBoundedInteger record (js "sequence") 0 maxDraftTimestamp in
  Ok tt.

Definition wantKeys : list jsstring :=
  [js "type"; js "session_id"; js "branch_id"; js "sequence"; js "hop_limit"].
Definition federatedWantKeys : list jsstring :=
  [js "type"; js "session_id"; js "branch_id"; js "sequence"; js "request_id"; js "origin_relay_key"; js "hop_limit"].

Definition validateIdentityWant (record : object) : result unit :=
  let hasRequestID := negb (is_undefined (prop record (js "request_id"))) in
  let hasOriginRelayKey := negb (is_undefined (prop record (js "origin_relay_key"))) in
  if negb (Bool.eqb hasRequestID hasOriginRelayKey)
  then Throw (js "incomplete federation request context")
  else
  let? _ :=
    if hasRequestID then
      let? _ := rejectUnknownKeys record federatedWantKeys [] in
      let? _ := readBase64URLBytes record (js "request_id") 16 in
      let? _ := readBase64URLBytes record (js "origin_relay_key") 32 in Ok tt
    else rejectUnknownKeys record wantKeys [] in
  let? _ := readBase64URLBytes record (js "session_id") 32 in
  let? _ := readBranchID record (js "branch_id") in
  let? _ := readBoundedInteger record (js "sequence") 0 maxDraftTimestamp in
  let? _ := readBoundedInteger record (js "hop_limit") 0 (if hasRequestID then 1 else 4) in
  Ok tt.

Definition haveKeys : list jsstring := [js "type"; js "session_id"; js "branch_id"; js "sequence"; js "records"].

Definition validateIdentityHave (record : object) : result unit :=
  let? _ := rejectUnknownKeys record haveKeys [] in
  let? _ := readBase64URLBytes record (js "session_id") 32 in
  let? _ := readBranchID record (js "branch_id") in
  let? _ := readBoundedInteger record (js "sequence") 0 maxDraftTimestamp in
  let? _ := readIdentityRecords record (js "records") in
  Ok tt.

Definition announceKeys : list jsstring := [js "type"; js "session_id"; js "discoverable"; js "sequence"].

Definition validateContactAnnounce (record : object) : result unit :=
  let? _ := rejectUnknownKeys record announceKeys [] in
  let? _ := readBase64URLBytes record (js "session_id") 32 in
  let? _ := readBoolean record (js "discoverable") in
  let? _ := readBoundedInteger record (js "sequence") 0 maxDraftTimestamp in
  Ok tt.

Definition validateContactDiscoveryLifetime (record : object) : result unit :=
  let? issuedAt := readInteger record (js "issued_at") in
  let? expiresAt := readInteger record (js "expires_at") in
  if (expiresAt <=? issuedAt) || (60000 <? expiresAt - issuedAt) then Throw (js "frame_replayed") else Ok tt.

Definition contactLookupKeys : list jsstring :=
  [js "type"; js "session_id"; js "request_id"; js "branch_id"; js "requester_hpke_public_key";
   js "issued_at"; js "expires_at"].

Definition validateContactLookup (record : object) : result unit :=
  let? _ := rejectUnknownKeys record contactLookupKeys [] in
  let? _ := readBase64URLBytes record (js "session_id") 32 in
  let? _ := readBase64URLBytes record (js "request_id") 16 in
  let? _ := readBranchID record (js "branch_id") in
  let? _ := readBase64URLBytes record (js "requester_hpke_public_key") 32 in
  validateContactDiscoveryLifetime record.

Definition contactProbeKeys : list jsstring :=
  [js "type"; js "session_id"; js "request_id"; js "branch_id"; js "requester_peer_id";
   js "requester_hpke_public_key"; js "issued_at"; js "expires_at"].

Definition validateContactProbe (record : object) : result unit :=
  let? _ := rejectUnknownKeys record contactProbeKeys [] in
  let? _ := readBase64URLBytes record (js "session_id") 32 in
  let? _ := readBase64URLBytes record (js "request_id") 16 in
  let? _ := readBranchID record (js "branch_id") in
  let? _ := readBase64URLBytes record (js "requester_peer_id") 32 in
  let? _ := readBase64URLBytes record (js "requester_hpke_public_key") 32 in
  validateContactDiscoveryLifetime record.

Definition rendezvousKeys : list jsstring :=
  [js "type"; js "session_id"; js "route_id"; js "peer_id"; js "sequence"].

Definition validateRendezvous (record : object) : result unit :=
  let? _ := rejectUnknownKeys record rendezvousKeys [js "route_hints"] in
  let? _ := readBase64URLBytes record (js "session_id") 32 in
  let? _ := readBase64URLBytes record (js "route_id") 16 in
  let? _ := readBase64URLBytes record (js "peer_id") 32 in
  let? _ := readBoundedInteger record (js "sequence") 0 maxDraftTimestamp in
  validateRouteHints record.

Definition envelopeFrameKeys : list jsstring :=
  [js "type"; js "session_id"; js "route_id"; js "origin_route_id"; js "path_epoch"; js "stream_id";
   js "delivery_id"; js "ciphertext"; js "ack_requested"].

Definition validateEnvelope (record : object) : result unit :=
  let? _ := rejectUnknownKeys record envelopeFrameKeys [js "sender_peer_id"] in
  let? _ := readBase64URLBytes record (js "session_id") 32 in
  let? _ := readBase64URLBytes record (js "route_id") 16 in
  let? _ := readBase64URLBytes record (js "origin_route_id") 16 in
  let? _ := readBoundedInteger record (js "path_epoch") 0 maxDraftTimestamp in
  let? _ := readBoundedInteger record (js "stream_id") 0 maxDraftTimestamp in
  let? _ := readBase64URLBytes record (js "delivery_id") 16 in
  let? _ := readBase64URLString record (js "ciphertext") maxDraftRelayCiphertextBytes in
  let? _ :=
    if is_undefined (prop record (js "sender_peer_id")) then Ok tt
    else let? _ := readBase64URLBytes record (js "sender_peer_id") 32 in Ok tt in
  let? _ := readBoolean record (js "ack_requested") in
  Ok tt.

Definition ackKeys : list jsstring := [js "type"; js "session_id"; js "delivery_id"; js "ack_type"; js "durable"].

Definition validateAck (record : object) : result unit :=
  let? _ := rejectUnknownKeys record ackKeys [] in
  let? _ := readBase64URLBytes record (js "session_id") 32 in
  let? _ := readBase64URLBytes record (js "delivery_id") 16 in
  let? ackType := readString record (js "ack_type") maxDraftStringBytes in
  if negb (str_eqb ackType (js "relay.accepted")) && negb (str_eqb ackType (js "relay.forwarded"))
     && negb (str_eqb ackType (js "peer.received"))
  then Throw (js "invalid ack_type")
  else
  let? durable := readBoolean record (js "durable") in
  if durable then Throw (js "durable ack forbidden") else Ok tt.

Definition errorKeys : list jsstring := [js "type"; js "code"; js "retryable"; js "detail"].

Definition validateError (record : object) : result unit :=
  let? _ := rejectUnknownKeys record errorKeys [] in
  let? code := readString record (js "code") maxDraftStringBytes in
  if negb (bool_decide (code ∈ protocolErrorCodes)) then Throw (js "unknown error code")
  else
  let? _ := readBoolean record (js "retryable") in
  if is_undefined (prop record (js "detail")) then Ok tt
  else
  let? detail := readString record (js "detail") maxDraftStringBytes in
  if 256 <? zlen detail then Throw (js "detail too large") else Ok tt.

Definition validate_typed (type : RelayFrameType) (record : object) : result unit :=
  match type with
  | HELLO => validateHello record
  | CHALLENGE => validateChallenge record
  | AUTH => validateAuth record
  | READY => validateReady record
  | PRESENCE => validatePresence record
  | HEARTBEAT => validateHeartbeat record
  | LOOKUP => validateLookup record
  | IDENTITY_WANT => validateIdentityWant record
  | IDENTITY_HAVE => validateIdentityHave record
  | CONTACT_ANNOUNCE => validateContactAnnounce record
  | CONTACT_LOOKUP => validateContactLookup record
  | CONTACT_PROBE => validateContactProbe record
  | RENDEZVOUS => validateRendezvous record
  | ENVELOPE => validateEnvelope record
  | ACK => validateAck record
  | ERROR => validateError record
  end.

Definition validateDraftRelayAttachmentFrame (value : json) : result RelayFrameType :=
  match value with
  | JObj record =>
      let? type := readRelayFrameType record (js "type") in
      let? _ := validate_typed type record in
      Ok type
  | _ => Throw (js "invalid draft relay attachment frame")
  end.

Definition decodeDraftRelayAttachmentFrameText (JSON_parse : jsstring -> option json) (text : jsstring)
  : result RelayFrameType :=
  if maxDraftRelayAttachmentFrameBytes <? zlen (utf8_encode text)
  then Throw (js "oversized draft relay attachment frame")
  else match JSON_parse text with
       | None => Throw (js "invalid draft relay attachment frame")
       | Some decoded => validateDraftRelayAttachmentFrame decoded
       end.
End Frames.
