(* ===== verification/NestedRecords.v ===== *)
(** * Records with nested fields

    What [Records] says of flat records, for records whose fields are maps or
    arrays of maps: the decoder answers values in canonical order at every
    depth, while a codec lists the entries in its own order. *)
From S2P Require Import Prelude JsRuntime Collections Base64Url Cbor CborFacts Records.

Lemma canon_idempotent v : encodable v = true -> canon (canon v) = canon v.
Proof.
  intros He. assert (Hb : bytes_ok (enc v)) by by apply enc_bytes_ok.
  assert (Hd : decodeDeterministicCbor (enc v) (zlen (enc v)) = Ok (canon v)) by (by apply decode_enc).
  by apply decode_Ok in Hd as (_ & _ & Hc & _).
Qed.

(** Values with one encoding have one canonical form. *)
Lemma enc_canon_inj v w : encodable v = true -> encodable w = true -> enc v = enc w -> canon v = canon w.
Proof.
  intros Hv Hw E. assert (Hd : decodeDeterministicCbor (enc v) (zlen (enc v)) = Ok (canon v)) by (by apply decode_enc).
  rewrite E in Hd. rewrite decode_enc in Hd by done. congruence.
Qed.

Lemma sort_canon_entries es : sort_by key_cmp (canon_entry <$> es) = canon_entry <$> sort_by key_cmp es.
Proof.
  rewrite sort_by_fmap. f_equal.
Qed.

Lemma map_get_canon_entries es k : map_get (canon_entry <$> es) k = canon <$> map_get es k.
Proof.
  induction es as [|[k' v] es IH]; csimpl; [done |]. unfold canon_entry at 1. cbn [fst snd map_get].
  by case_decide.
Qed.

Lemma canon_entries_keys es : map_keys (canon_entry <$> es) = map_keys es.
Proof. unfold map_keys. by rewrite <- list_fmap_compose. Qed.

Lemma encode_canon_entries es :
  encodable (CMap es) = true -> encodable (CMap (canon_entry <$> es)) = true
  /\ encodeDeterministicCbor (CMap (canon_entry <$> es)) = encodeDeterministicCbor (CMap es).
Proof.
  intros He. pose proof (encodable_map_inv es He) as (Hl & Hn & Hf).
  assert (He' : encodable (CMap (canon_entry <$> es)) = true).
  { apply encodable_map_intro; [by rewrite zlen_fmap | by rewrite <- list_fmap_compose |].
    apply Forall_fmap. eapply Forall_impl; [exact Hf |]. intros e [Hk Hv]. split; [done | by apply encodable_canon]. }
  split; [done |]. rewrite !encode_total, !enc_map, zlen_fmap, sort_canon_entries by done. f_equal. f_equal. f_equal.
  rewrite <- list_fmap_compose. apply list_fmap_ext. intros i e Hi%list_elem_of_lookup_2.
  rewrite sort_by_perm in Hi. rewrite Forall_forall in Hf. unfold compose, enc_entry. cbn. f_equal.
  by apply encodable_canon, Hf.
Qed.

Lemma record_read_canon b maxBytes es names entries :
  bytes_ok b -> decodeDeterministicCbor b maxBytes = Ok (CMap es) ->
  rejectUnknownEntries es names = Ok tt ->
  map_wf entries -> Forall (fun k => k ∈ names) (map_keys entries) ->
  Forall (fun e => encodable e.2 = true) entries ->
  (forall k, k ∈ names -> map_get es k = canon <$> map_get entries k) ->
  encodable (CMap entries) = true /\ encodeDeterministicCbor (CMap entries) = Ok b.
Proof.
  intros Hb Hd Hu Hwf Hnames Henc Hget.
  destruct (record_read b maxBytes es names (canon_entry <$> entries)) as (Hv & He & _); [done.. | | | |].
  - unfold map_wf. by rewrite canon_entries_keys.
  - by rewrite canon_entries_keys.
  - intros k Hk. rewrite map_get_canon_entries. by apply Hget.
  - assert (He' : encodable (CMap entries) = true).
    { apply encodable_map_inv in He as (Hl & _ & Hf). rewrite zlen_fmap in Hl. apply encodable_map_intro; [done | done |].
      rewrite Forall_fmap in Hf. rewrite Forall_forall in *. intros e Hin. split; [by apply (Hf e) | by apply Henc]. }
    split; [done |]. by rewrite <- (proj2 (encode_canon_entries entries He')).
Qed.

Lemma record_written_canon b maxBytes names entries :
  encodable (CMap entries) = true -> encodeDeterministicCbor (CMap entries) = Ok b ->
  zlen b <= maxBytes -> Forall (fun k => k ∈ names) (map_keys entries) ->
  bytes_ok b /\ exists es, decodeDeterministicCbor b maxBytes = Ok (CMap es)
       /\ rejectUnknownEntries es names = Ok tt
       /\ forall k, map_get es k = canon <$> map_get entries k.
Proof.
  intros He Hv Hm Hn. pose proof (encodable_map_inv _ He) as (_ & Hwf & _).
  rewrite (encode_total _ He) in Hv. simplify_eq. split; [by apply enc_bytes_ok |].
  exists (canon_entry <$> sort_by key_cmp entries). rewrite <- canon_map.
  pose proof (sort_by_perm key_cmp entries) as Hp. split; [by apply decode_enc |]. split.
  - apply rejectUnknownEntries_Ok. rewrite canon_entries_keys. unfold map_keys. by rewrite Hp.
  - intros k. rewrite map_get_canon_entries. f_equal. symmetry. by apply perm_map_get.
Qed.

(** A map inside a decoded value is the canonical form of the entries that are
    read from it. *)
Lemma inner_record_read es names entries :
  encodable (CMap es) = true -> canon (CMap es) = CMap es -> rejectUnknownEntries es names = Ok tt ->
  map_wf entries -> Forall (fun k => k ∈ names) (map_keys entries) ->
  Forall (fun e => encodable e.2 = true) entries ->
  (forall k, k ∈ names -> map_get es k = canon <$> map_get entries k) ->
  encodable (CMap entries) = true /\ CMap es = canon (CMap entries).
Proof.
  intros He Hc Hu Hwf Hn Henc Hget.
  assert (Hb : bytes_ok (enc (CMap es))) by by apply enc_bytes_ok.
  assert (Hd : decodeDeterministicCbor (enc (CMap es)) (zlen (enc (CMap es))) = Ok (CMap es)).
  { rewrite <- Hc at 3. by apply decode_enc. }
  destruct (record_read_canon _ _ es names entries Hb Hd) as [He' Hv]; [done.. |]. split; [done |].
  rewrite encode_total in Hv by done. injection Hv as Hv. rewrite <- Hc. by apply enc_canon_inj.
Qed.

Lemma inner_record_written names entries :
  encodable (CMap entries) = true -> Forall (fun k => k ∈ names) (map_keys entries) ->
  exists es, canon (CMap entries) = CMap es /\ rejectUnknownEntries es names = Ok tt
    /\ forall k, map_get es k = canon <$> map_get entries k.
Proof.
  intros He Hn. destruct (record_written_canon (enc (CMap entries)) (zlen (enc (CMap entries))) names entries)
    as (_ & es & Hd & Hu & Hg); [done | by apply encode_total | done | done |].
  exists es. rewrite decode_enc in Hd by done. simplify_eq. done.
Qed.

(** The fields of a canonical map are canonical. *)
Lemma canon_get es k v :
  encodable (CMap es) = true -> canon (CMap es) = CMap es -> map_get es k = Some v -> canon v = v.
Proof.
  intros He Hc Hg. pose proof (encodable_map_inv es He) as (_ & Hwf & _).
  rewrite canon_map in Hc. injection Hc as Hc.
  assert (E : map_get es k = canon <$> map_get es k).
  { rewrite <- Hc at 1. rewrite map_get_canon_entries. f_equal. symmetry. apply perm_map_get; [done |].
    symmetry. apply sort_by_perm. }
  rewrite Hg in E. by injection E.
Qed.
