(* ===== verification/SignedEvent.v ===== *)
(** * Signed public events

    [protocol/v0/bootstrap-beacon.ts] and [protocol/v0/identity-contact.ts] each
    carry their own copy of the same functions on the signed envelope: a CBOR
    map whose encoding without the signature is what the sender signs.  They are
    modelled once here, with the event type as an argument, next to the text
    wrapper of [protocol/v0/text-carrier.ts].  The verification of a signature
    is the argument [verify]; WebCrypto's errors count as a failed verification
    there, as in the code. *)
From S2P Require Import Prelude JsRuntime Collections Base64Url Cbor CborFacts Records Json Envelope RelayAttachment.

(** ** [text-carrier.ts] *)

Definition maxTextCarrierRecordBytes : Z := 64 * 1024.

Definition isBranchTextWrapper (value : jsstring) : bool :=
  if negb (starts_with value branchTextWrapperPrefix) then false
  else
    let encoded := drop 8 value in
    Base64Url.validBase64URL encoded && (zlen (utf8_encode value) <=? maxTextCarrierRecordBytes).

(** The characters of [\w]. *)
Definition is_word (c : Z) : bool :=
  ((48 <=? c) && (c <=? 57)) || ((65 <=? c) && (c <=? 90)) || (c =? 95) || ((97 <=? c) && (c <=? 122)).

(** What may follow a wrapper: white space or one of the closing marks. *)
Definition is_delimiter (c : Z) : bool :=
  is_js_space c || existsb (Z.eqb c) [34; 39; 60; 62; 41; 44; 59].

(** The longest prefix in a class, and the rest. *)
Fixpoint span (p : Z -> bool) (s : jsstring) : jsstring * jsstring :=
  match s with
  | c :: r => if p c then let '(a, b) := span p r in (c :: a, b) else ([], s)
  | [] => ([], [])
  end.

(** One match of the pattern at the start of [s], after the character [before].
    The characters of the repeated class are no delimiters, so that only the
    longest run can match. *)
Definition match_wrapper (before : option Z) (s : jsstring) : option jsstring :=
  if match before with Some c => is_word c | None => false end then None
  else if negb (starts_with s branchTextWrapperPrefix) then None
  else
    let '(run, rest) := span url_class (drop 8 s) in
    if (0 <? zlen run) && match rest with [] => true | c :: _ => is_delimiter c end
    then Some (branchTextWrapperPrefix ++ run) else None.

(** [source.matchAll(wrapperPattern)]: after a match the search goes on behind
    it; the fuel is the length of the source plus one. *)
Fixpoint match_all (fuel : nat) (before : option Z) (offset : Z) (s : jsstring) : list (jsstring * Z) :=
  match fuel, s with
  | S fuel, c :: r =>
      match match_wrapper before s with
      | Some wrapper => (wrapper, offset) :: match_all fuel (last wrapper) (offset + zlen wrapper) (drop (length wrapper) s)
      | None => match_all fuel (Some c) (offset + 1) r
      end
  | _, _ => []
  end.

(** The loop over the matches; [left] is how many more wrappers are wanted. *)
Fixpoint collect_wrappers (left : nat) (seen : list jsstring) (matches : list (jsstring * Z)) : list (jsstring * Z) :=
  match left, matches with
  | S left', (wrapper, offset) :: matches =>
      if negb (isBranchTextWrapper wrapper) || bool_decide (wrapper ∈ seen)
      then collect_wrappers left seen matches
      else (wrapper, offset) :: collect_wrappers left' (wrapper :: seen) matches
  | _, _ => []
  end.

Definition extractBranchTextWrappers (source : jsstring) (maxWrappers : number) : list (jsstring * Z) :=
  match maxWrappers with
  | Int n => if n <=? 0 then [] else collect_wrappers (Z.to_nat n) [] (match_all (S (length source)) None 0 source)
  | NonInt => []
  end.

(** ** The signed envelope *)

Module Event.
Record SignedEnvelope := mk {
  eventId : bytes;
  publicKey : bytes;
  createdAt : Z;
  expiresAt : Z;
  payloadBytes : bytes;
  signature : bytes;
}.
End Event.
Abbreviation SignedEnvelope := Event.SignedEnvelope.

Definition signatureDomain : jsstring := js "BRANCH signed event v0" ++ [10].
Definition defaultMaxFutureSkewSeconds : Z := 300.
Definition defaultLifetimeSeconds : Z := 7 * 24 * 60 * 60.

Definition envelopeEntryKeys : list jsstring :=
  [js "protocol"; js "event_id"; js "type"; js "sender"; js "recipient_tag"; js "created_at"; js "expires_at";
   js "payload_mode"; js "payload"; js "signature_alg"; js "signature"].

Definition readTimestamp (value : CborValue) (key : jsstring) : result Z :=
  let? timestamp := readUint value key in
  if maxDraftTimestamp <? timestamp then Throw (js "invalid_" ++ key) else Ok timestamp.

(** [getRequiredEntry], then [readTimestamp]. *)
Definition timestamp_field (map : CborMap) (key : jsstring) : result Z :=
  let? value := getRequiredEntry map key in readTimestamp value key.

Definition readEventSender (map : CborMap) : result bytes :=
  let? _ := rejectUnknownEntries map [js "key_alg"; js "public_key"] in
  let? keyAlg := text_field map (js "key_alg") in
  if negb (str_eqb keyAlg (js "ed25519")) then Throw (js "invalid_sender")
  else bytes_field map (js "public_key") (Some 32).

Definition readSignedEnvelope (expectedType : jsstring) (map : CborMap) : result SignedEnvelope :=
  let? _ := rejectUnknownEntries map envelopeEntryKeys in
  if hasEntry map (js "recipient_tag") then Throw (js "recipient_tag_present")
  else
    let? protocol := text_field map (js "protocol") in
    if negb (str_eqb protocol protocolID) then Throw (js "unsupported_protocol")
    else
      let? type := text_field map (js "type") in
      if negb (str_eqb type expectedType) then Throw (js "unsupported_event_type")
      else
        let? payloadMode := text_field map (js "payload_mode") in
        if negb (str_eqb payloadMode (js "public")) then Throw (js "invalid_payload_mode")
        else
          let? signatureAlg := text_field map (js "signature_alg") in
          if negb (str_eqb signatureAlg (js "ed25519")) then Throw (js "invalid_signature_alg")
          else
            let? senderValue := getRequiredEntry map (js "sender") in
            let? senderMap := readCborMap senderValue (js "sender") in
            let? publicKey := readEventSender senderMap in
            let? createdAt := timestamp_field map (js "created_at") in
            let? expiresAt := timestamp_field map (js "expires_at") in
            if expiresAt <=? createdAt then Throw (js "expired")
            else
              let? eventId := bytes_field map (js "event_id") (Some 32) in
              let? payloadBytes := bytes_field map (js "payload") None in
              let? signature := bytes_field map (js "signature") (Some 64) in
              Ok (Event.mk eventId publicKey createdAt expiresAt payloadBytes signature).

Definition unsignedEnvelopeEntries (type : jsstring) (e : SignedEnvelope) : CborMap :=
  [(js "protocol", CText protocolID); (js "event_id", CBytes (Event.eventId e)); (js "type", CText type);
   (js "sender", CMap [(js "key_alg", CText (js "ed25519")); (js "public_key", CBytes (Event.publicKey e))]);
   (js "created_at", CNum (Int (Event.createdAt e))); (js "expires_at", CNum (Int (Event.expiresAt e)));
   (js "payload_mode", CText (js "public")); (js "payload", CBytes (Event.payloadBytes e));
   (js "signature_alg", CText (js "ed25519"))].

Definition signedEnvelopeEntries (type : jsstring) (e : SignedEnvelope) : CborMap :=
  unsignedEnvelopeEntries type e ++ [(js "signature", CBytes (Event.signature e))].

Definition decodeCborForValidation (b : bytes) : result CborValue :=
  match decodeDeterministicCbor b maxDraftEnvelopeBytes with
  | Ok v => Ok v
  | Throw message => Throw (if str_eqb message (js "non_canonical_cbor") then js "non_canonical_cbor" else js "invalid_cbor")
  end.

(** ** The reasons of a rejection *)

Definition reasonFromError (reasons : list jsstring) (message : jsstring) : jsstring :=
  if str_eqb message (js "invalid base64url") then js "invalid_base64url"
  else if bool_decide (message ∈ reasons) then message
  else if starts_with message (js "unknown_") then js "unknown_field"
  else if starts_with message (js "invalid_payload") || starts_with message (js "missing_") then js "payload_invalid"
  else js "invalid_cbor".

Inductive validated (A : Type) : Type :=
| accepted (value : A)
| rejected_for (reason : jsstring).
Arguments accepted {A} value.
Arguments rejected_for {A} reason.

(** A [try] whose body answers a value, a reason, or throws. *)
Definition catch_reason {A} (reasons : list jsstring) (body : result (validated A)) : validated A :=
  match body with Ok v => v | Throw message => rejected_for (reasonFromError reasons message) end.

(** ** The part the two validations and the two creations share

    [body] is what follows the checks on the envelope, given the bytes of the
    event, the bytes that were signed and the envelope. *)
Definition validateSignedEvent {A} (reasons : list jsstring) (type : jsstring) (verify : bytes -> bytes -> bytes -> bool)
    (wrapper : jsstring) (now maxFutureSkewSeconds : Z) (body : bytes -> bytes -> SignedEnvelope -> result (validated A))
  : validated A :=
  catch_reason reasons
    (if negb (isBranchTextWrapper wrapper) then Ok (rejected_for (js "malformed_wrapper"))
     else
       let? signedEventBytes := decodeBase64URL (drop 8 wrapper) in
       if maxDraftEnvelopeBytes <? zlen signedEventBytes then Ok (rejected_for (js "envelope_oversized"))
       else
         let? decoded := decodeCborForValidation signedEventBytes in
         let? envelopeMap := readCborMap decoded (js "signed_event") in
         let? envelope := readSignedEnvelope type envelopeMap in
         let? canonical := encodeDeterministicCbor (CMap (signedEnvelopeEntries type envelope)) in
         if negb (sameBytes canonical signedEventBytes) then Ok (rejected_for (js "non_canonical_cbor"))
         else
           let? unsignedBytes := encodeDeterministicCbor (CMap (unsignedEnvelopeEntries type envelope)) in
           let signatureInputBytes := utf8_encode signatureDomain ++ unsignedBytes in
           if negb (verify (Event.publicKey envelope) (Event.signature envelope) signatureInputBytes)
           then Ok (rejected_for (js "signature_invalid"))
           else if Event.expiresAt envelope <=? now then Ok (rejected_for (js "expired"))
           else if now + maxFutureSkewSeconds <? Event.createdAt envelope then Ok (rejected_for (js "created_in_future"))
           else body signedEventBytes signatureInputBytes envelope).

Definition createSignedWrapper (type : jsstring) (sign : bytes -> bytes) (eventId publicKey : bytes) (now expiresAt : Z)
    (payloadBytes : bytes) : result jsstring :=
  let unsigned := Event.mk eventId publicKey now expiresAt payloadBytes [] in
  let? unsignedBytes := encodeDeterministicCbor (CMap (unsignedEnvelopeEntries type unsigned)) in
  let signature := sign (utf8_encode signatureDomain ++ unsignedBytes) in
  let signed := Event.mk eventId publicKey now expiresAt payloadBytes signature in
  let? encoded := encodeDeterministicCbor (CMap (signedEnvelopeEntries type signed)) in
  Ok (branchTextWrapperPrefix ++ encodeBase64URL encoded).

(** ** Lists of names and relay endpoints, shared by both payloads *)

(** The loop of [readOrderedUniqueTextArray] over the values read. *)
Fixpoint ordered_unique (maxBytes : Z) (seen : list jsstring) (previous : jsstring) (values : list jsstring) : bool :=
  match values with
  | [] => true
  | item :: values =>
      negb (maxBytes <? text_bytes item) && negb (bool_decide (item ∈ seen)) && negb (js_ltb item previous)
      && ordered_unique maxBytes (item :: seen) item values
  end.

Definition readOrderedUniqueTextArray (maxBytes : Z) (map : CborMap) (key : jsstring) (maxItems : Z)
  : result (list jsstring) :=
  let? value := getRequiredEntry map key in
  let? values := readTextArray value key maxItems in
  if ordered_unique maxBytes [] [] values then Ok values else Throw (js "payload_invalid").

Definition text_cmp (left right : jsstring) : Z :=
  if js_ltb left right then -1 else if js_ltb right left then 1 else 0.

(** The loop of [normalizeOrderedTextSet] over the sorted values. *)
Fixpoint text_set (maxBytes : Z) (seen : list jsstring) (values : list jsstring) : bool :=
  match values with
  | [] => true
  | value :: values =>
      negb (zlen value =? 0) && negb (maxBytes <? text_bytes value) && negb (bool_decide (value ∈ seen))
      && text_set maxBytes (value :: seen) values
  end.

Definition normalizeOrderedTextSet (maxBytes : Z) (values : list jsstring) (key : jsstring) : result (list jsstring) :=
  let normalized := sort_by text_cmp values in
  if text_set maxBytes [] normalized then Ok normalized else Throw (js "invalid_" ++ key).

(** The pattern [^[a-z][a-z0-9.+-]*$]. *)
Definition transport_pattern (s : jsstring) : bool :=
  let lower c := (97 <=? c) && (c <=? 122) in
  match s with
  | c :: r => lower c && forallb (fun c => lower c || ((48 <=? c) && (c <=? 57)) || existsb (Z.eqb c) [46; 43; 45]) r
  | [] => false
  end.

Definition readBoundedTransport (maxBytes : Z) (value : CborValue) : result jsstring :=
  let? transport := readText value (js "transport") in
  if (maxBytes <? text_bytes transport) || negb (transport_pattern transport)
  then Throw (js "payload_invalid") else Ok transport.

Definition readBoundedUri (maxBytes : Z) (value : CborValue) : result jsstring :=
  let? uri := readText value (js "uri") in
  if maxBytes <? text_bytes uri then Throw (js "payload_invalid") else Ok uri.

(** [Number.parseInt] on a run of decimal digits. *)
Definition parse_decimal (digits : jsstring) : Z := foldl (fun n c => n * 10 + (c - 48)) 0 digits.

Definition is_digit (c : Z) : bool := (48 <=? c) && (c <=? 57).

(** [^\[[^\]]+\]:(\d+)$] and [^[^:]+:(\d+)$] on the authority. *)
Definition port_digits (authority : jsstring) : option jsstring :=
  let digits s := if (0 <? zlen s) && forallb is_digit s then Some s else None in
  match authority with
  | 91 :: r =>
      match span (fun c => negb (c =? 93)) r with
      | (_ :: _, 93 :: 58 :: s) => digits s
      | _ => None
      end
  | _ =>
      match span (fun c => negb (c =? 58)) authority with
      | (_ :: _, 58 :: s) => digits s
      | _ => None
      end
  end.

Definition readExplicitPort (uri : jsstring) : option Z :=
  if negb (starts_with uri (js "wss://")) then None
  else
    let authority := (span (fun c => negb (existsb (Z.eqb c) [47; 63; 35])) (drop 6 uri)).1 in
    if existsb (Z.eqb 64) authority then None
    else match port_digits authority with
    | None => None
    | Some digits => let port := parse_decimal digits in if is_safe port then Some port else None
    end.

Definition validateWssEndpointUri (parse_URL : jsstring -> option URL) (uri : jsstring) : result unit :=
  match readExplicitPort uri with
  | None => Throw (js "payload_invalid")
  | Some explicitPort =>
      if (explicitPort <? 1) || (65535 <? explicitPort) then Throw (js "payload_invalid")
      else match parse_URL uri with
      | None => Throw (js "payload_invalid")
      | Some parsed =>
          if negb (str_eqb (url_protocol parsed) (js "wss:")) || str_eqb (url_hostname parsed) []
             || negb (str_eqb (url_username parsed) []) || negb (str_eqb (url_password parsed) [])
             || negb (str_eqb (url_hash parsed) [])
          then Throw (js "payload_invalid") else Ok tt
      end
  end.

(** The loop over relay endpoints and route hints: each entry is read, its
    priority is not below the previous one, its key is new, and a [wss] address
    is checked. *)
Section OrderedItems.
Context {A : Type} (read : CborValue -> result A) (priority_of : A -> Z) (duplicateKey : A -> jsstring)
  (check : A -> result unit).

Fixpoint ordered_items (previousPriority : Z) (seen : list jsstring) (entries : list CborValue) : result (list A) :=
  match entries with
  | [] => Ok []
  | entry :: entries =>
      let? item := read entry in
      if priority_of item <? previousPriority then Throw (js "payload_invalid")
      else if bool_decide (duplicateKey item ∈ seen) then Throw (js "payload_invalid")
      else
        let? _ := check item in
        let? items := ordered_items (priority_of item) (duplicateKey item :: seen) entries in
        Ok (item :: items)
  end.
End OrderedItems.

Definition hasSupportedProfile (profileMultihashes supported : list jsstring) : bool :=
  existsb (fun p => bool_decide (p ∈ supported)) profileMultihashes.
