(* ===== verification/SignedEventFacts.v ===== *)
(** * Signed public events: what the readers accept *)
From Stdlib Require Import Sorting.Sorted.
From S2P Require Import Prelude JsRuntime Collections Base64Url Cbor CborFacts Records NestedRecords Json Envelope RelayAttachment SignedEvent.

(** ** Texts and arrays of texts *)

(** The texts a reader takes from a decoded record. *)
Definition text_ok (maxBytes : Z) (s : jsstring) : Prop :=
  s <> [] /\ text_bytes s <= maxBytes /\ plain_text s = true.

Lemma text_ok_encodable n s : n <= maxCborTextBytes -> text_ok n s -> encodable (CText s) = true.
Proof. intros Hn (_ & Hl & Hp). apply encodable_text_iff. split; [done |]. unfold text_bytes in Hl. lia. Qed.

Lemma read_text_Ok v key s :
  readText v key = Ok s <-> v = CText s /\ s <> [] /\ text_bytes s <= maxCborTextBytes.
Proof.
  unfold readText, text_bytes. split.
  - destruct v; try done. case_match; [done |]. intros [= ->]. bool_props. split; [done |].
    split; [by intros -> | done].
  - intros (-> & Hs & Hl). assert (zlen s <> 0) by (by rewrite zlen_zero_iff).
    by test ((zlen s =? 0) || (maxCborTextBytes <? zlen (utf8_encode s))) false.
Qed.

Lemma read_texts_Ok vs key l :
  map_result (fun entry => readText entry key) vs = Ok l <->
  vs = CText <$> l /\ Forall (fun s => s <> [] /\ text_bytes s <= maxCborTextBytes) l.
Proof.
  revert l. induction vs as [|v vs IH]; intros l; cbn [map_result].
  - split; [intros [= <-]; done |]. intros [E _]. destruct l; [done | discriminate E].
  - split.
    + intros H. step H as s Es. step H as r Er. injection H as <-. apply read_text_Ok in Es as (-> & Hs).
      destruct (proj1 (IH r) eq_refl) as [-> Hr]. split; [done | by constructor].
    + intros [E Hf]. destruct l as [|s l]; [done |]. injection E as -> E. inversion Hf as [|? ? Hs Hl]; subst.
      rewrite (proj2 (read_text_Ok _ key s)) by done. by rewrite (proj2 (IH l)).
Qed.

Lemma read_text_array_Ok v key n l :
  readTextArray v key n = Ok l <->
  v = CArray (CText <$> l) /\ 0 < zlen l <= n /\ Forall (fun s => s <> [] /\ text_bytes s <= maxCborTextBytes) l.
Proof.
  unfold readTextArray. split.
  - destruct v as [| | | |vs|]; try done. case_match; [done |]. intros [-> Hf]%read_texts_Ok. bool_props.
    rewrite zlen_fmap in *. pose proof (zlen_nonneg l). split; [done |]. split; [lia | done].
  - intros (-> & Hl & Hf). rewrite zlen_fmap. test ((zlen l =? 0) || (n <? zlen l)) false. by apply read_texts_Ok.
Qed.

(** Names in increasing order. *)
Definition increasing (l : list jsstring) : Prop := StronglySorted (fun a b => js_ltb a b = true) l.

Lemma js_ltb_nil s : js_ltb s [] = false.
Proof. by destruct s. Qed.

Lemma js_leb_ltb a b : js_ltb b a = false -> a <> b -> js_ltb a b = true.
Proof. intros H Hne. destruct (js_ltb a b) eqn:E; [done |]. by destruct (Hne (js_ltb_total a b E H)). Qed.

Lemma ordered_unique_spec n seen previous l :
  (forall s, s ∈ seen -> js_ltb previous s = false) -> (previous = [] \/ previous ∈ seen) -> [] ∉ l ->
  ordered_unique n seen previous l = true <->
  Forall (fun s => text_bytes s <= n) l /\ increasing l /\ Forall (fun s => js_ltb previous s = true) l.
Proof.
  revert seen previous. induction l as [|s l IH]; intros seen previous Hseen Hprev Hne; cbn [ordered_unique].
  { split; [intros _ | done]. split; [constructor | split; constructor]. }
  assert (Hs : s <> []) by (intros ->; apply Hne; set_solver).
  assert (Hl : [] ∉ l) by set_solver.
  assert (Hstep : js_ltb previous s = true ->
    ordered_unique n (s :: seen) s l = true <->
    Forall (fun s => text_bytes s <= n) l /\ increasing l /\ Forall (fun x => js_ltb s x = true) l).
  { intros Hps. apply IH; [| right; set_solver | done]. intros x [->|Hx]%elem_of_cons; [apply js_ltb_irrefl |].
    destruct (js_ltb s x) eqn:E; [| done]. rewrite <- (Hseen x Hx). symmetry. by eapply js_ltb_trans. }
  split.
  - intros H. bool_props.
    assert (Hps : js_ltb previous s = true).
    { apply js_leb_ltb; [done |]. intros ->. destruct Hprev as [->|Hin]; [done |]. done. }
    apply Hstep in H0 as (Hf & Hi & Hgt); [| done]. split; [by constructor |]. split; [by constructor |].
    constructor; [done |]. eapply Forall_impl; [exact Hgt |]. intros x Hx. cbn in Hx. by eapply js_ltb_trans.
  - intros (Hf & Hi & Hgt). inversion Hf; inversion Hi; inversion Hgt; subst.
    rewrite (proj2 (Hstep ltac:(done))) by done.
    assert (s ∉ seen). { intros Hin. apply Hseen in Hin. congruence. }
    rewrite bool_decide_false by done.
    assert (js_ltb s previous = false) as ->.
    { destruct (js_ltb s previous) eqn:E; [| done].
      assert (Hx : js_ltb s s = true) by (by eapply js_ltb_trans). by rewrite js_ltb_irrefl in Hx. }
    by test (n <? text_bytes s) false.
Qed.

(** What [readOrderedUniqueTextArray] accepts. *)
Definition names_ok (maxBytes maxItems : Z) (l : list jsstring) : Prop :=
  0 < zlen l <= maxItems /\ Forall (text_ok maxBytes) l /\ increasing l.

Lemma read_names_Ok maxBytes map key n l :
  maxBytes <= maxCborTextBytes ->
  readOrderedUniqueTextArray maxBytes map key n = Ok l <->
  map_get map key = Some (CArray (CText <$> l)) /\ 0 < zlen l <= n
  /\ Forall (fun s => s <> [] /\ text_bytes s <= maxBytes) l /\ increasing l.
Proof.
  intros Hm. unfold readOrderedUniqueTextArray.
  assert (Hspec : Forall (fun s => s <> [] /\ text_bytes s <= maxCborTextBytes) l ->
    ordered_unique maxBytes [] [] l = true <->
    Forall (fun s => text_bytes s <= maxBytes) l /\ increasing l /\ Forall (fun s => js_ltb [] s = true) l).
  { intros Hl. apply ordered_unique_spec; [set_solver | by left |]. intros Hin.
    rewrite Forall_forall in Hl. by destruct (Hl _ Hin). }
  split.
  - intros H. step H as v Ev. step H as vs Evs. destruct (ordered_unique _ _ _ vs) eqn:Eo; [| done].
    injection H as ->. apply getRequiredEntry_Ok in Ev. apply read_text_array_Ok in Evs as (-> & Hl & Hf).
    apply Hspec in Eo as (Hb & Hi & _); [| done]. split; [done |]. split; [done |]. split; [| done].
    rewrite Forall_forall in *. intros s Hs. split; [by apply Hf | by apply Hb].
  - intros (Hg & Hl & Hf & Hi). rewrite (proj2 (getRequiredEntry_Ok _ _ _) Hg).
    assert (Hf' : Forall (fun s => s <> [] /\ text_bytes s <= maxCborTextBytes) l).
    { eapply Forall_impl; [exact Hf |]. intros s [? ?]. split; [done | lia]. }
    rewrite (proj2 (read_text_array_Ok _ key n l)) by done.
    rewrite (proj2 (Hspec Hf')); [done |]. split; [by eapply Forall_impl; [exact Hf | intros s []] |]. split; [done |].
    eapply Forall_impl; [exact Hf |]. intros s [Hs _]. by destruct s.
Qed.

Lemma texts_canon (l : list jsstring) : canon (CArray (CText <$> l)) = CArray (CText <$> l).
Proof. cbn [canon]. f_equal. rewrite <- list_fmap_compose. by apply list_fmap_ext. Qed.

Lemma encodable_array vs :
  encodable (CArray vs) = true <-> zlen vs <= maxCborCollectionEntries /\ Forall (fun v => encodable v = true) vs.
Proof.
  cbn [encodable]. rewrite andb_true_iff, Z.leb_le, forallb_forall, Forall_forall.
  by setoid_rewrite list_elem_of_In.
Qed.

Lemma texts_encodable n m l :
  n <= maxCborTextBytes -> m <= maxCborCollectionEntries -> names_ok n m l -> encodable (CArray (CText <$> l)) = true.
Proof.
  intros Hn Hm (Hl & Hf & _). apply encodable_array. rewrite zlen_fmap. split; [lia |].
  apply Forall_fmap. eapply Forall_impl; [exact Hf |]. intros s Hs. by eapply text_ok_encodable.
Qed.

Lemma texts_plain l : encodable (CArray (CText <$> l)) = true -> Forall (fun s => plain_text s = true) l.
Proof.
  intros [_ Hf]%encodable_array. rewrite Forall_fmap in Hf. eapply Forall_impl; [exact Hf |].
  intros s Hs. by apply encodable_text_iff in Hs as [].
Qed.

Lemma names_ok_read maxBytes es key n l :
  maxBytes <= maxCborTextBytes -> encodable (CMap es) = true ->
  readOrderedUniqueTextArray maxBytes es key n = Ok l ->
  map_get es key = Some (CArray (CText <$> l)) /\ names_ok maxBytes n l.
Proof.
  intros Hm He (Hg & Hl & Hf & Hi)%read_names_Ok; [| done]. split; [done |]. split; [done |]. split; [| done].
  pose proof (texts_plain l (encodable_get es key _ He Hg)) as Hp. rewrite Forall_forall in *.
  intros s Hs. destruct (Hf s Hs). split; [done |]. split; [done | by apply Hp].
Qed.

Lemma names_ok_written maxBytes es key n l :
  maxBytes <= maxCborTextBytes -> map_get es key = Some (CArray (CText <$> l)) -> names_ok maxBytes n l ->
  readOrderedUniqueTextArray maxBytes es key n = Ok l.
Proof.
  intros Hm Hg (Hl & Hf & Hi). apply read_names_Ok; [done |]. split; [done |]. split; [done |]. split; [| done].
  eapply Forall_impl; [exact Hf |]. intros s (? & ? & _). done.
Qed.

(** ** The envelope *)

Lemma timestamp_field_Ok map key t :
  timestamp_field map key = Ok t <-> map_get map key = Some (CNum (Int t)) /\ 0 <= t <= maxDraftTimestamp.
Proof.
  assert (E : timestamp_field map key = match number_field map key with
            | Ok t => if maxDraftTimestamp <? t then Throw (js "invalid_" ++ key) else Ok t
            | Throw e => Throw e end).
  { unfold timestamp_field, number_field, readTimestamp. destruct (getRequiredEntry map key); [| done].
    by destruct (readUint value key). }
  rewrite E. clear E. unfold maxDraftTimestamp. split.
  - intros H. step H as n En. apply number_field_Ok in En as (Hg & Hs & H0). case_match; [done |]. injection H as ->.
    bool_props. split; [done | lia].
  - intros [Hg Ht]. rewrite (proj2 (number_field_Ok map key t)).
    + by test (MAX_SAFE_INTEGER <? t) false.
    + split; [done |]. unfold is_safe, MAX_SAFE_INTEGER in *. split; lia.
Qed.

Record envelope_ok (e : SignedEnvelope) : Prop := {
  ok_eventId : bytes_ok (Event.eventId e) /\ zlen (Event.eventId e) = 32;
  ok_publicKey : bytes_ok (Event.publicKey e) /\ zlen (Event.publicKey e) = 32;
  ok_payload : bytes_ok (Event.payloadBytes e) /\ 0 < zlen (Event.payloadBytes e) <= maxCborBytes;
  ok_signature : bytes_ok (Event.signature e) /\ zlen (Event.signature e) = 64;
  ok_times : 0 <= Event.createdAt e < Event.expiresAt e /\ Event.expiresAt e <= maxDraftTimestamp;
}.

Definition sender_entries (k : bytes) : CborMap :=
  [(js "key_alg", CText (js "ed25519")); (js "public_key", CBytes k)].

Lemma sender_encodable k : bytes_ok k -> zlen k = 32 -> encodable (CMap (sender_entries k)) = true.
Proof.
  intros Hk Hl. apply encodable_map_intro; [done | apply (bool_decide_eq_true_1 (NoDup _)); closed |].
  apply Forall_cons; split; [by split |]. apply Forall_cons; split; [| by apply Forall_nil].
  split; [reflexivity |]. apply encodable_bytes. unfold maxCborBytes. split; [done | lia].
Qed.

Lemma sender_canon k : canon (CMap (sender_entries k)) = CMap (sender_entries k).
Proof. rewrite canon_map. unfold sender_entries. by vm_compute. Qed.

Lemma canon_Some (o : option CborValue) v : canon v = v -> o = Some v -> canon <$> o = Some v.
Proof. intros Hc ->. cbn. by rewrite Hc. Qed.

(** A value the encoder takes and the decoder answers as it is. *)
Definition good (v : CborValue) : Prop := encodable v = true /\ canon v = v.

Lemma good_text s : encodable (CText s) = true -> good (CText s).
Proof. by split. Qed.

Lemma good_bytes b : bytes_ok b -> zlen b <= maxCborBytes -> good (CBytes b).
Proof. intros Hb Hl. split; [by apply encodable_bytes | done]. Qed.

Lemma good_num z : 0 <= z <= maxDraftTimestamp -> good (CNum (Int z)).
Proof. intros Hz. split; [| done]. apply encodable_num. unfold is_safe, maxDraftTimestamp in *. split; lia. Qed.

Lemma good_map names (entries : CborMap) :
  zlen entries <= maxCborCollectionEntries -> map_wf entries ->
  Forall (fun k => encodable_text k = true) names -> Forall (fun k => k ∈ names) (map_keys entries) ->
  Forall (fun x => good x.2) entries -> encodable (CMap entries) = true.
Proof.
  intros Hl Hw Hnames Hn Hf. apply encodable_map_intro; [done | exact Hw |].
  apply Forall_forall. intros x Hx. split; [| by apply (proj1 (Forall_forall _ _) Hf)].
  apply (proj1 (Forall_forall _ _) Hnames), (proj1 (Forall_forall _ _) Hn). by apply list_elem_of_fmap_2.
Qed.

Section Envelope.
Context (type : jsstring) (Htype : encodable (CText type) = true) (Hne : type <> []).

Lemma signed_names e :
  map_wf (signedEnvelopeEntries type e)
  /\ Forall (fun k => k ∈ envelopeEntryKeys) (map_keys (signedEnvelopeEntries type e)).
Proof.
  split.
  - apply (bool_decide_eq_true_1 (NoDup _)). closed.
  - apply (bool_decide_eq_true_1 (Forall _ _)). closed.
Qed.

Lemma signed_fields e :
  envelope_ok e -> Forall (fun x => good x.2) (signedEnvelopeEntries type e).
Proof.
  intros [[He1 He2] [Hp1 Hp2] [Hy1 Hy2] [Hs1 Hs2] [Ht1 Ht2]].
  assert (Hsend : good (CMap (sender_entries (Event.publicKey e)))) by (split; [by apply sender_encodable | apply sender_canon]).
  unfold signedEnvelopeEntries, unsignedEnvelopeEntries. cbn [app]. repeat (apply Forall_cons; split); cbn [snd].
  - apply good_text; closed.
  - apply good_bytes; [done | unfold maxCborBytes; lia].
  - by apply good_text.
  - exact Hsend.
  - apply good_num. lia.
  - apply good_num. lia.
  - apply good_text; closed.
  - apply good_bytes; [done | lia].
  - apply good_text; closed.
  - apply good_bytes; [done | unfold maxCborBytes; lia].
  - by apply Forall_nil.
Qed.

Lemma readEventSender_Ok es k :
  encodable (CMap es) = true -> canon (CMap es) = CMap es ->
  readEventSender es = Ok k -> bytes_ok k /\ zlen k = 32 /\ CMap es = CMap (sender_entries k).
Proof.
  intros He Hc H. unfold readEventSender in H. step H as [] Eu. step H as alg Ea. case_match eqn:Eal; [done |].
  bool_props. apply str_eqb_true in Eal as ->. apply text_field_Ok in Ea as (Hga & _).
  pose proof (bytes_field_sound es _ _ k He H) as [Hgk Hk]. apply bytes_field_Ok in H as (_ & _ & Hl).
  split; [done |]. split; [done |]. rewrite <- sender_canon.
  destruct (inner_record_read es [js "key_alg"; js "public_key"] (sender_entries k)) as [_ E]; try done.
  - apply (bool_decide_eq_true_1 (NoDup _)); closed.
  - apply (bool_decide_eq_true_1 (Forall _ _)); closed.
  - apply Forall_cons; split; [reflexivity |]. apply Forall_cons; split; [| by apply Forall_nil].
    apply good_bytes; [done | unfold maxCborBytes; lia].
  - intros name [->|[->|[]%elem_of_nil]%elem_of_cons]%elem_of_cons; [by rewrite Hga | by rewrite Hgk].
Qed.

Lemma envelope_read b maxBytes es e :
  bytes_ok b -> decodeDeterministicCbor b maxBytes = Ok (CMap es) -> readSignedEnvelope type es = Ok e ->
  envelope_ok e /\ encodable (CMap (signedEnvelopeEntries type e)) = true
  /\ encodeDeterministicCbor (CMap (signedEnvelopeEntries type e)) = Ok b.
Proof.
  intros Hb Hd H. pose proof (decode_Ok _ _ _ Hb Hd) as (_ & He & Hc & _). unfold readSignedEnvelope in H.
  step H as [] Eu. destruct (hasEntry es _) eqn:Er; [done |].
  step H as protocol Ep. case_match eqn:E1; [done |]. step H as ty Et. case_match eqn:E2; [done |].
  step H as mode Em. case_match eqn:E3; [done |]. step H as alg Ea. case_match eqn:E4; [done |].
  step H as sv Esv. step H as ss Ess. step H as k Ek. step H as created Ec. step H as expires Ex.
  destruct (Z.leb_spec expires created); [done |]. step H as event Ee. step H as payload Ey. step H as sg Es.
  injection H as <-. bool_props. apply str_eqb_true in E1, E2, E3, E4. subst.
  apply text_field_Ok in Ep as (Hgp & _), Et as (Hgt & _), Em as (Hgm & _), Ea as (Hga & _).
  apply getRequiredEntry_Ok in Esv. destruct sv as [| | | | |ss']; try done. injection Ess as ->.
  assert (Hcs : canon (CMap ss) = CMap ss).
  { by apply (canon_get es (js "sender")). }
  apply readEventSender_Ok in Ek as (Hk & Hkl & Hss); [| by apply (encodable_get es (js "sender")) | done]. injection Hss as ->.
  apply timestamp_field_Ok in Ec as [Hgc Hct], Ex as [Hgx Hxt].
  destruct (bytes_field_sound es _ _ event He Ee) as [Hge Hev]. apply bytes_field_Ok in Ee as (_ & _ & Hel).
  destruct (bytes_field_sound es _ _ payload He Ey) as [Hgy Hyv]. apply bytes_field_Ok in Ey as (_ & Hyl & _).
  destruct (bytes_field_sound es _ _ sg He Es) as [Hgs Hsv]. apply bytes_field_Ok in Es as (_ & _ & Hsl).
  set (e := Event.mk event k created expires payload sg).
  assert (Hok : envelope_ok e) by (split; cbn; first [done | lia]).
  destruct (signed_names e) as [Hw Hn]. pose proof (signed_fields e Hok) as Hf.
  split; [done |]. apply (record_read_canon b maxBytes es envelopeEntryKeys); try done.
  - eapply Forall_impl; [exact Hf | by intros x []].
  - assert (Hrt : map_get es (js "recipient_tag") = None).
    { unfold hasEntry, map_has in Er. by destruct (map_get es (js "recipient_tag")). }
    intros name Hin. unfold envelopeEntryKeys in Hin. repeat (apply elem_of_cons in Hin as [->|Hin]); try (by apply elem_of_nil in Hin);
      first [exact Hgp | exact Hge | exact Hgt | rewrite Esv; symmetry; apply canon_Some; [apply sender_canon | reflexivity] | exact Hrt | exact Hgc | exact Hgx | exact Hgm | exact Hgy | exact Hga | exact Hgs].
Qed.

Lemma signed_get e key v :
  envelope_ok e -> map_get (signedEnvelopeEntries type e) key = Some v ->
  canon <$> map_get (signedEnvelopeEntries type e) key = Some v.
Proof.
  intros He Hg. apply canon_Some; [| done]. pose proof (signed_fields e He) as Hf. rewrite Forall_forall in Hf.
  apply map_get_Some_elem in Hg. by destruct (Hf _ Hg).
Qed.

Lemma envelope_written b maxBytes e :
  envelope_ok e -> encodeDeterministicCbor (CMap (signedEnvelopeEntries type e)) = Ok b -> zlen b <= maxBytes ->
  bytes_ok b /\ exists es, decodeDeterministicCbor b maxBytes = Ok (CMap es) /\ readSignedEnvelope type es = Ok e.
Proof.
  intros He Hv Hm. destruct (signed_names e) as [Hw Hn]. pose proof (signed_fields e He) as Hf.
  assert (Hen : encodable (CMap (signedEnvelopeEntries type e)) = true).
  { apply encodable_map_intro; [done | exact Hw |]. rewrite Forall_forall in *. intros x Hx.
    split; [| by apply Hf]. apply (list_elem_of_fmap_2 fst) in Hx.
    assert (Hk : Forall (fun k => encodable_text k = true) (map_keys (signedEnvelopeEntries type e)))
      by (apply (bool_decide_eq_true_1 (Forall _ _)); closed).
    rewrite Forall_forall in Hk. by apply Hk. }
  destruct (record_written_canon b maxBytes envelopeEntryKeys _ Hen Hv Hm Hn) as (Hb & es & Hd & Hu & Hg).
  split; [done |]. exists es. split; [done |].
  assert (Hget : forall key v, map_get (signedEnvelopeEntries type e) key = Some v -> map_get es key = Some v).
  { intros key v Hk. rewrite Hg. by apply signed_get. }
  destruct He as [[He1 He2] [Hp1 Hp2] [Hy1 Hy2] [Hs1 Hs2] [Ht1 Ht2]].
  assert (Hr : hasEntry es (js "recipient_tag") = false) by (unfold hasEntry, map_has; by rewrite Hg).
  assert (Htx : forall key s, map_get (signedEnvelopeEntries type e) key = Some (CText s) -> s <> [] ->
            text_bytes s <= maxCborTextBytes -> text_field es key = Ok s).
  { intros key s Hk Hs Hl. apply text_field_Ok. by rewrite (Hget _ _ Hk). }
  unfold readSignedEnvelope. rewrite Hu, Hr.
  rewrite (Htx _ protocolID) by (first [reflexivity | discriminate | vm_compute; discriminate]). cbn [negb].
  rewrite str_eqb_refl. cbn [negb].
  assert (Htb : text_bytes type <= maxCborTextBytes) by (apply encodable_text_iff in Htype as [_ ?]; done).
  rewrite (Htx _ type) by done. rewrite str_eqb_refl. cbn [negb].
  rewrite (Htx _ (js "public")) by (first [reflexivity | discriminate | vm_compute; discriminate]). rewrite str_eqb_refl. cbn [negb].
  rewrite (Htx _ (js "ed25519")) by (first [reflexivity | discriminate | vm_compute; discriminate]). rewrite str_eqb_refl. cbn [negb].
  rewrite (proj2 (getRequiredEntry_Ok es (js "sender") _) (Hget (js "sender") (CMap (sender_entries (Event.publicKey e))) eq_refl)).
  cbn [readCborMap].
  assert (Hsend : readEventSender (sender_entries (Event.publicKey e)) = Ok (Event.publicKey e)).
  { unfold readEventSender. rewrite (proj2 (rejectUnknownEntries_Ok _ _))
      by (apply (bool_decide_eq_true_1 (Forall _ _)); closed).
    rewrite (proj2 (text_field_Ok _ (js "key_alg") (js "ed25519"))) by (split; [reflexivity | split; [discriminate | vm_compute; discriminate]]).
    rewrite str_eqb_refl. cbn [negb]. apply bytes_field_Ok. unfold maxCborBytes. split; [reflexivity | split; [lia | done]]. }
  rewrite Hsend.
  rewrite (proj2 (timestamp_field_Ok es (js "created_at") (Event.createdAt e))) by (split; [by apply Hget | lia]).
  rewrite (proj2 (timestamp_field_Ok es (js "expires_at") (Event.expiresAt e))) by (split; [by apply Hget | lia]).
  test (Event.expiresAt e <=? Event.createdAt e) false.
  rewrite (proj2 (bytes_field_Ok es (js "event_id") (Some 32) (Event.eventId e)))
    by (unfold maxCborBytes; split; [by apply Hget | split; [lia | done]]).
  rewrite (proj2 (bytes_field_Ok es (js "payload") None (Event.payloadBytes e)))
    by (split; [by apply Hget | split; [lia | done]]).
  rewrite (proj2 (bytes_field_Ok es (js "signature") (Some 64) (Event.signature e)))
    by (unfold maxCborBytes; split; [by apply Hget | split; [lia | done]]).
  by destruct e.
Qed.
End Envelope.

(** ** Transports, addresses and ordered lists of records *)

Lemma readBoundedTransport_Ok n v s :
  n <= maxCborTextBytes ->
  readBoundedTransport n v = Ok s <-> v = CText s /\ text_bytes s <= n /\ transport_pattern s = true.
Proof.
  intros Hn. unfold readBoundedTransport. split.
  - intros H. step H as t Et. apply read_text_Ok in Et as (-> & _). case_match; [done |]. injection H as ->.
    by bool_props.
  - intros (-> & Hl & Hp). rewrite (proj2 (read_text_Ok _ (js "transport") s)).
    + rewrite Hp. by test (n <? text_bytes s) false.
    + split; [done |]. split; [by destruct s | lia].
Qed.

Lemma readBoundedUri_Ok n v s :
  n <= maxCborTextBytes -> readBoundedUri n v = Ok s <-> v = CText s /\ s <> [] /\ text_bytes s <= n.
Proof.
  intros Hn. unfold readBoundedUri. split.
  - intros H. step H as t Et. apply read_text_Ok in Et as (-> & Ht & _). case_match; [done |]. injection H as ->.
    by bool_props.
  - intros (-> & Hs & Hl). rewrite (proj2 (read_text_Ok _ (js "uri") s)) by (split; [done | split; [done | lia]]).
    by test (n <? text_bytes s) false.
Qed.

Section OrderedItemsFacts.
Context {A : Type} (read : CborValue -> result A) (priority_of : A -> Z) (duplicateKey : A -> jsstring)
  (check : A -> result unit).

Let items := ordered_items read priority_of duplicateKey check.

(** Priorities do not decrease, keys differ, and every item passes its check. *)
Definition items_ok (l : list A) : Prop :=
  StronglySorted Z.le (priority_of <$> l) /\ NoDup (duplicateKey <$> l) /\ Forall (fun x => check x = Ok tt) l.

Lemma ordered_items_spec previous seen vs l :
  items previous seen vs = Ok l <->
  Forall2 (fun v x => read v = Ok x) vs l /\ items_ok l
  /\ Forall (fun x => previous <= priority_of x /\ duplicateKey x ∉ seen) l.
Proof.
  revert previous seen l. induction vs as [|v vs IH]; intros previous seen l.
  - split.
    + intros [= <-]. split; [apply Forall2_nil_2 |]. split; [| by apply Forall_nil].
      split; [constructor |]. split; [apply NoDup_nil_2 | by apply Forall_nil].
    + intros [H _]. by inversion H.
  - unfold items. cbn [ordered_items]. fold items. split.
    + intros H. step H as x Ex. destruct (Z.ltb_spec (priority_of x) previous); [done |].
      case_bool_decide as Hd; [done |]. step H as u Ec. step H as r Er. injection H as <-. destruct u.
      apply IH in Er as (Hr & (Hs & Hn & Hc) & Hf). split; [by constructor |]. split.
      * split; [| split; [| by constructor]]; csimpl.
        -- constructor; [done |]. apply Forall_fmap. eapply Forall_impl; [exact Hf |]. intros y []; cbn; lia.
        -- constructor; [| done]. intros (y & E & Hy)%list_elem_of_fmap. rewrite Forall_forall in Hf.
           destruct (Hf y Hy) as [_ Hk]. apply Hk. rewrite <- E. set_solver.
      * constructor; [done |]. eapply Forall_impl; [exact Hf |]. intros y [Hp Hk]. split; [lia | set_solver].
    + intros (Hr & (Hs & Hn & Hc) & Hf). inversion Hr as [|? x ? r Ex Hr']; subst. csimpl in *.
      inversion Hs as [|? ? Hs' Hle]; inversion Hn as [|? ? Hnin Hn']; inversion Hc; inversion Hf as [|? ? [Hp Hk] Hf']; subst.
      rewrite Ex. test (priority_of x <? previous) false. rewrite bool_decide_false by done.
      match goal with H : check x = Ok tt |- _ => rewrite H end.
      rewrite (proj2 (IH (priority_of x) (duplicateKey x :: seen) r)); [done |]. split; [done |]. split; [done |].
      rewrite Forall_fmap in Hle. rewrite Forall_forall in *. intros y Hy. specialize (Hle y Hy).
      split; [exact Hle |]. intros [E|Hin]%elem_of_cons; [| by apply (Hf' y Hy)].
      apply Hnin. rewrite <- E. by apply list_elem_of_fmap_2.
Qed.

(** From the start: priorities are unsigned, nothing was seen. *)
Lemma ordered_records_Ok vs l :
  (forall v x, read v = Ok x -> 0 <= priority_of x) ->
  items (-1) [] vs = Ok l <-> Forall2 (fun v x => read v = Ok x) vs l /\ items_ok l.
Proof.
  intros Hread. rewrite ordered_items_spec. split; [tauto |]. intros [Hr Hi]. split; [done |]. split; [done |].
  apply Forall_forall. intros x Hx. split; [| set_solver].
  apply list_elem_of_lookup in Hx as [i Hi']. destruct (Forall2_lookup_r _ _ _ _ _ Hr Hi') as (v & _ & Hv).
  specialize (Hread v x Hv). lia.
Qed.
End OrderedItemsFacts.

(** ** The text wrapper *)

Lemma ascii_encoding s : Forall (fun c => 0 <= c < 128) s -> utf8_encode s = s.
Proof.
  induction 1 as [|c s Hc _ IH]; [done |]. rewrite utf8_encode_scalar.
  - unfold utf8_of_code_point. test (c <? 128) true. cbn. by rewrite IH.
  - unfold is_high_surrogate. lia.
  - unfold is_low_surrogate. lia.
Qed.

Lemma wrapper_shape w :
  isBranchTextWrapper w = true <->
  exists t, w = branchTextWrapperPrefix ++ t /\ Base64Url.validBase64URL t = true /\ zlen t <= maxTextCarrierRecordBytes - 8.
Proof.
  assert (Hascii : forall t, Base64Url.validBase64URL t = true ->
            utf8_encode (branchTextWrapperPrefix ++ t) = branchTextWrapperPrefix ++ t).
  { intros t Ht. apply ascii_encoding, Forall_app. split; [apply (bool_decide_eq_true_1 (Forall _ _)); closed |].
    unfold Base64Url.validBase64URL in Ht. bool_props. apply Forall_forall. intros c Hc%list_elem_of_In.
    match goal with H : forallb _ t = true |- _ => apply (proj1 (forallb_forall _ _) H) in Hc end.
    unfold url_class in Hc. lia. }
  unfold isBranchTextWrapper. split.
  - destruct (starts_with w branchTextWrapperPrefix) eqn:E; [| done]. cbn [negb]. intros H. bool_props.
    apply starts_with_spec in E as [t ->]. change (drop 8 (branchTextWrapperPrefix ++ t)) with t in *.
    exists t. rewrite Hascii in * by done. rewrite zlen_app in *. change (zlen branchTextWrapperPrefix) with 8 in *.
    split; [done |]. split; [done | lia].
  - intros (t & -> & Ht & Hl). rewrite starts_with_app. cbn [negb]. change (drop 8 (branchTextWrapperPrefix ++ t)) with t.
    rewrite Ht, Hascii by done. rewrite zlen_app. change (zlen branchTextWrapperPrefix) with 8.
    by test (8 + zlen t <=? maxTextCarrierRecordBytes) true.
Qed.

(** The size check on the decoded event never decides: a wrapper of 64 KiB holds
    less than 48 KiB. *)
Lemma wrapper_event_size w b :
  isBranchTextWrapper w = true -> decodeBase64URL (drop 8 w) = Ok b -> zlen b <= maxDraftEnvelopeBytes - 16 * 1024.
Proof.
  intros (t & -> & Ht & Hl)%wrapper_shape. change (drop 8 (branchTextWrapperPrefix ++ t)) with t.
  intros (_ & _ & E)%decodeBase64URL_ok. unfold maxTextCarrierRecordBytes, maxDraftEnvelopeBytes in *. zdiv_lia.
Qed.

Lemma wrapper_of_bytes b :
  bytes_ok b -> 0 < zlen b <= 48 * 1024 - 6 ->
  isBranchTextWrapper (branchTextWrapperPrefix ++ encodeBase64URL b) = true
  /\ decodeBase64URL (drop 8 (branchTextWrapperPrefix ++ encodeBase64URL b)) = Ok b.
Proof.
  intros Hb Hl. assert (Hne : b <> []) by (intros E; rewrite E in Hl; vm_compute in Hl; by destruct Hl).
  pose proof (decode_encodeBase64URL b Hb Hne) as Hd. change (drop 8 (branchTextWrapperPrefix ++ encodeBase64URL b)) with (encodeBase64URL b).
  split; [| done]. apply wrapper_shape. exists (encodeBase64URL b). split; [done |]. split; [by apply encodeBase64URL_valid |].
  apply decodeBase64URL_ok in Hd as (Hv & _ & E). unfold Base64Url.validBase64URL in Hv. bool_props.
  unfold maxTextCarrierRecordBytes. zdiv_lia.
Qed.

Lemma catch_accepted {A} reasons (body : result (validated A)) v :
  catch_reason reasons body = accepted v <-> body = Ok (accepted v).
Proof. destruct body as [x|]; cbn; split; congruence. Qed.

(** ** Plain texts, maps and lists of names *)

Lemma ascii_plain s : Forall (fun c => 0 <= c < 128) s -> plain_text s = true.
Proof.
  intros H. unfold plain_text. rewrite andb_true_iff. split.
  - induction H as [|c s Hc _ IH]; [done |]. rewrite well_formed_scalar; [done | lia | |];
      unfold is_high_surrogate, is_low_surrogate; lia.
  - rewrite negb_true_iff, bool_decide_eq_false. unfold byte_order_mark.
    destruct H as [|c s Hc _]; [done |]. intros [= ->]. lia.
Qed.

Lemma transport_plain s : transport_pattern s = true -> plain_text s = true.
Proof.
  unfold transport_pattern. destruct s as [|c r]; [done |]. intros H. bool_props. apply ascii_plain.
  constructor; [lia |]. apply Forall_forall. intros x Hx%list_elem_of_In.
  match goal with H : forallb _ r = true |- _ => apply (proj1 (forallb_forall _ _) H) in Hx end.
  cbn [existsb] in Hx. lia.
Qed.

Lemma map_get_app {V} (l k : list (jsstring * V)) key :
  map_get (l ++ k) key = match map_get l key with Some v => Some v | None => map_get k key end.
Proof. induction l as [|[a v] l IH]; [done |]. cbn. by case_decide. Qed.

Lemma map_get_absent {V} (l : list (jsstring * V)) (names : list jsstring) key :
  Forall (fun k => k ∈ names) (map_keys l) -> key ∉ names -> map_get l key = None.
Proof. intros Hf Hk. apply map_get_None. intros Hin. apply Hk. rewrite Forall_forall in Hf. by apply Hf. Qed.

Lemma names_len (l names : list jsstring) : NoDup l -> Forall (fun k => k ∈ names) l -> zlen l <= zlen names.
Proof.
  intros Hn Hf. assert (H : (length l <= length names)%nat); [| unfold zlen; lia]. apply List.NoDup_incl_length.
  - by apply NoDup_ListNoDup.
  - intros k Hk. rewrite <- list_elem_of_In in *. rewrite Forall_forall in Hf. by apply Hf.
Qed.

Lemma array_size vs m :
  encodable (CArray vs) = true -> Forall (fun v => zlen (enc v) <= m) vs -> zlen (enc (CArray vs)) <= 3 + zlen vs * m.
Proof.
  intros He Hf. rewrite enc_array, zlen_app, zlen_concat by done. apply encodable_array in He as [Hl _].
  unfold maxCborCollectionEntries in Hl.
  assert (zlen (encodeHeader 4 (zlen vs)) <= 3) by (apply encodeHeader_small; lia).
  enough (foldr (fun x n => zlen (enc x) + n) 0 vs <= zlen vs * m) by lia. clear H Hl.
  induction Hf as [|v vs Hv _ IH]; [done |]. cbn [foldr]. rewrite zlen_cons. lia.
Qed.

Lemma texts_size n m l :
  n <= maxCborTextBytes -> m <= maxCborCollectionEntries -> names_ok n m l ->
  zlen (enc (CArray (CText <$> l))) <= 3 + m * (3 + n).
Proof.
  intros Hn Hm Hl. pose proof (texts_encodable n m l Hn Hm Hl) as He. destruct Hl as ((H0 & Hl) & Hf & _).
  etrans; [apply (array_size _ (3 + n)); [done |] |].
  - apply Forall_fmap. apply Forall_forall. intros s Hs. apply encodable_array in He as [_ He].
    rewrite Forall_fmap in He. unfold compose in *. etrans; [apply value_size_ge, (proj1 (Forall_forall _ _) He s Hs) |].
    cbn [value_size]. destruct (proj1 (Forall_forall _ _) Hf s Hs) as (_ & Hb & _). unfold text_bytes in Hb. lia.
  - rewrite zlen_fmap. assert (0 <= 3 + n); [| nia]. destruct l as [|s l]; [done |].
    inversion Hf as [|? ? (_ & Hb & _) _]; subst. unfold text_bytes in Hb. pose proof (zlen_nonneg (utf8_encode s)). lia.
Qed.

(** The set a normalised list of names is. *)
Lemma text_cmp_total x y : text_cmp x y <= 0 \/ text_cmp y x <= 0.
Proof.
  unfold text_cmp. destruct (js_ltb x y) eqn:E, (js_ltb y x) eqn:E'; try lia.
Qed.

Lemma text_cmp_le x y : text_cmp x y <= 0 <-> js_ltb y x = false.
Proof.
  unfold text_cmp. destruct (js_ltb x y) eqn:E, (js_ltb y x) eqn:E'; split; try done; try lia.
  intros _. assert (Hx : js_ltb x x = true) by (by eapply js_ltb_trans). by rewrite js_ltb_irrefl in Hx.
Qed.

Lemma text_cmp_trans x y z : text_cmp x y <= 0 -> text_cmp y z <= 0 -> text_cmp x z <= 0.
Proof.
  rewrite !text_cmp_le. intros Hxy Hyz. destruct (js_ltb z x) eqn:E; [| done]. exfalso.
  destruct (js_ltb x y) eqn:Exy.
  - pose proof (js_ltb_trans _ _ _ E Exy). congruence.
  - pose proof (js_ltb_total x y Exy Hxy) as ->. congruence.
Qed.

Lemma text_set_spec n seen l :
  text_set n seen l = true <->
  Forall (fun s => s <> [] /\ text_bytes s <= n) l /\ NoDup l /\ Forall (fun s => s ∉ seen) l.
Proof.
  revert seen. induction l as [|s l IH]; intros seen; cbn [text_set].
  - split; [intros _ | done]. split; [constructor | split; [apply NoDup_nil_2 | constructor]].
  - split.
    + intros H. bool_props. match goal with H : text_set _ _ _ = true |- _ => apply IH in H as (Hf & Hn & Hd) end.
      assert (s <> []) by (intros ->; done). split; [by constructor |]. split.
      * constructor; [| done]. intros Hin. rewrite Forall_forall in Hd. apply (Hd s Hin). set_solver.
      * constructor; [done |]. eapply Forall_impl; [exact Hd |]. set_solver.
    + intros (Hf & Hn & Hd). inversion Hf as [|? ? [Hs Hb] Hf']; inversion Hn as [|? ? Hni Hn']; inversion Hd; subst.
      assert (zlen s <> 0) by (by rewrite zlen_zero_iff).
      test (zlen s =? 0) false. test (n <? text_bytes s) false. rewrite bool_decide_false by done. cbn [negb andb].
      apply IH. split; [done |]. split; [done |]. rewrite Forall_forall in *. intros x Hx.
      intros [->|Hin]%elem_of_cons; [done |]. set_solver.
Qed.

Lemma normalized_names n m values key l :
  normalizeOrderedTextSet n values key = Ok l -> 0 < zlen values <= m -> Forall (fun s => plain_text s = true) values ->
  names_ok n m l /\ Permutation l values.
Proof.
  unfold normalizeOrderedTextSet. intros H Hl Hp. destruct (text_set _ _ _) eqn:Es; [| done]. injection H as <-.
  pose proof (sort_by_perm text_cmp values) as Hperm. apply text_set_spec in Es as (Hf & Hn & _). split; [| done].
  split; [by rewrite (zlen_perm _ _ Hperm) |]. rewrite <- Hperm in Hp. split.
  - rewrite Forall_forall in *. intros s Hs. destruct (Hf s Hs). split; [done |]. split; [done | by apply Hp].
  - pose proof (sort_by_sorted text_cmp text_cmp_total text_cmp_trans values) as Hs.
    clear Hf Hp Hperm. induction Hs as [|s l Hs IH Hle]; [constructor |]. inversion Hn as [|? ? Hni Hn']; subst.
    constructor; [by apply IH |]. rewrite Forall_forall in *. intros x Hx. apply js_leb_ltb; [| by intros ->].
    by apply text_cmp_le, Hle.
Qed.

Lemma normalized_value n values key l : normalizeOrderedTextSet n values key = Ok l -> l = sort_by text_cmp values.
Proof. unfold normalizeOrderedTextSet. case_match; [by intros [= <-] | done]. Qed.

Lemma supported_perm supported l l' : Permutation l l' -> hasSupportedProfile l supported = hasSupportedProfile l' supported.
Proof.
  intros Hp. unfold hasSupportedProfile. apply eq_true_iff_eq. rewrite !existsb_exists. setoid_rewrite <- list_elem_of_In.
  by setoid_rewrite Hp.
Qed.


(** ** Arrays of records *)

Section RecordArrays.
Context {A : Type} (read : CborValue -> result A) (item_map : A -> CborValue) (item_ok : A -> Prop).
Context (read_sound : forall v x, encodable v = true -> canon v = v -> read v = Ok x -> item_ok x /\ v = canon (item_map x))
  (read_canon : forall x, item_ok x -> read (canon (item_map x)) = Ok x)
  (item_encodable : forall x, item_ok x -> encodable (item_map x) = true).

Lemma records_read vs l :
  encodable (CArray vs) = true -> canon (CArray vs) = CArray vs -> Forall2 (fun v x => read v = Ok x) vs l ->
  Forall item_ok l /\ CArray vs = canon (CArray (item_map <$> l)).
Proof.
  intros [_ He]%encodable_array Hc Hr. cbn [canon] in *. injection Hc as Hc.
  enough (H : Forall item_ok l /\ vs = (fun x => canon (item_map x)) <$> l).
  { destruct H as [Hf ->]. split; [done |]. by rewrite <- list_fmap_compose. }
  assert (Hall : Forall (fun v => canon v = v) vs).
  { apply Forall_forall. intros v [i Hi']%list_elem_of_lookup. pose proof Hi' as Hx.
    rewrite <- Hc, list_lookup_fmap, Hi' in Hx. by injection Hx. }
  clear Hc. induction Hr as [|v x vs l Hv _ IH]; [by split |]. inversion He; inversion Hall; subst.
  destruct IH as [Hf ->]; [done | done |]. destruct (read_sound v x) as [Ho ->]; [done | done | done |].
  split; [by constructor | done].
Qed.

Lemma records_written l : Forall item_ok l -> Forall2 (fun v x => read v = Ok x) (canon <$> (item_map <$> l)) l.
Proof. induction 1 as [|x l Hx _ IH]; csimpl; constructor; [by apply read_canon | exact IH]. Qed.

Lemma records_encodable n l :
  n <= maxCborCollectionEntries -> zlen l <= n -> Forall item_ok l -> encodable (CArray (item_map <$> l)) = true.
Proof.
  intros Hn Hl Hf. apply encodable_array. rewrite zlen_fmap. split; [lia |]. apply Forall_fmap.
  eapply Forall_impl; [exact Hf |]. intros x Hx. by apply item_encodable.
Qed.

Lemma records_size n m l :
  n <= maxCborCollectionEntries -> zlen l <= n -> Forall item_ok l -> 0 <= m -> (forall x, item_ok x -> zlen (enc (item_map x)) <= m) ->
  zlen (enc (CArray (item_map <$> l))) <= 3 + n * m.
Proof.
  intros Hn Hl Hf H0 Hm. etrans; [apply (array_size _ m); [by apply (records_encodable n) |] |].
  - apply Forall_fmap. eapply Forall_impl; [exact Hf |]. intros x Hx. by apply Hm.
  - rewrite zlen_fmap. pose proof (zlen_nonneg l). nia.
Qed.

(** Reading the records as they were built, before they are encoded. *)
Lemma records_map (plain : A -> Prop) k l :
  (forall x y, read (item_map x) = Ok y -> plain x -> y = x /\ item_ok x) ->
  Forall plain k -> Forall2 (fun v x => read v = Ok x) (item_map <$> k) l -> l = k /\ Forall item_ok l.
Proof.
  intros Hmap Hp. revert l. induction Hp as [|x k Hx _ IH]; intros l Hr; csimpl in Hr.
  - inversion Hr. by split.
  - inversion Hr as [|? y ? l' Hy Hrl]; subst. destruct (IH l' Hrl) as [-> Hf].
    destruct (Hmap x y Hy Hx) as [-> Ho]. split; [done | by constructor].
Qed.
End RecordArrays.

(** ** Decoding *)

Lemma decodeCbor_Ok b v :
  decodeCborForValidation b = Ok v <-> decodeDeterministicCbor b maxDraftEnvelopeBytes = Ok v.
Proof. unfold decodeCborForValidation. by destruct (decodeDeterministicCbor b _). Qed.

Lemma readCborMap_Ok v label es : readCborMap v label = Ok es <-> v = CMap es.
Proof. destruct v; cbn; split; congruence. Qed.

Lemma signed_size type e b :
  encodable (CText type) = true -> envelope_ok e -> encodable (CMap (signedEnvelopeEntries type e)) = true ->
  encodeDeterministicCbor (CMap (signedEnvelopeEntries type e)) = Ok b ->
  zlen b <= zlen (Event.payloadBytes e) + text_bytes type + 1024.
Proof.
  intros Ht He Hen Hb. pose proof (record_size _ _ Hen Hb) as Hs. destruct He as [[_ He] [Hk1 Hk2] _ [_ Hsg] _].
  assert (zlen (enc (CMap (sender_entries (Event.publicKey e)))) <= 200).
  { etrans; [apply (record_size (sender_entries (Event.publicKey e)));
      [by apply sender_encodable | by apply encode_total, sender_encodable] |].
    unfold sender_entries. entry_sizes. change (zlen (utf8_encode (js "ed25519"))) with 7. lia. }
  etrans; [exact Hs |]. unfold signedEnvelopeEntries, unsignedEnvelopeEntries. cbn [app]. entry_sizes.
  fold (sender_entries (Event.publicKey e)). unfold text_bytes.
  change (zlen (utf8_encode protocolID)) with 21. change (zlen (utf8_encode (js "public"))) with 6.
  change (zlen (utf8_encode (js "ed25519"))) with 7. lia.
Qed.


(** ** Validating and creating an event *)

Definition event_valid (type : jsstring) (verify : bytes -> bytes -> bytes -> bool) (w : jsstring) (now skew : Z)
    (event input : bytes) (e : SignedEnvelope) : Prop :=
  (isBranchTextWrapper w = true /\ decodeBase64URL (drop 8 w) = Ok event)
  /\ envelope_ok e /\ encodeDeterministicCbor (CMap (signedEnvelopeEntries type e)) = Ok event
  /\ (exists unsigned, encodeDeterministicCbor (CMap (unsignedEnvelopeEntries type e)) = Ok unsigned
        /\ input = utf8_encode signatureDomain ++ unsigned
        /\ verify (Event.publicKey e) (Event.signature e) input = true)
  /\ now < Event.expiresAt e /\ Event.createdAt e <= now + skew.

Lemma event_envelope type verify w now skew event input e :
  event_valid type verify w now skew event input e -> envelope_ok e.
Proof. by intros (_ & ? & _). Qed.

Lemma event_validated {A} type reasons verify w now skew (body : bytes -> bytes -> SignedEnvelope -> result (validated A)) a :
  encodable (CText type) = true -> type <> [] ->
  validateSignedEvent reasons type verify w now skew body = accepted a <->
  exists event input e, event_valid type verify w now skew event input e /\ body event input e = Ok (accepted a).
Proof.
  intros Htype Htne. unfold validateSignedEvent, event_valid. cbv zeta. rewrite catch_accepted. split.
  - intros H. destruct (isBranchTextWrapper w) eqn:Ew; cbn [negb] in H; [| done].
    step H as b Eb. destruct (_ <? zlen b); [done |]. step H as d Ed. step H as es Ees. step H as e Ee.
    step H as cb Ecb. case_match eqn:Esame; [done |]. step H as ub Eub. case_match eqn:Ever; [done |].
    destruct (Z.leb_spec (Event.expiresAt e) now); [done |].
    destruct (Z.ltb_spec (now + skew) (Event.createdAt e)); [done |]. bool_props.
    pose proof (decodeBase64URL_ok _ _ Eb) as (_ & Hb & _).
    apply decodeCbor_Ok in Ed. apply readCborMap_Ok in Ees as ->.
    destruct (envelope_read type Htype b _ es e Hb Ed Ee) as (Hok & _ & Hv).
    exists b, (utf8_encode signatureDomain ++ ub), e. split; [| done]. split; [done |]. split; [done |]. split; [done |].
    split; [by exists ub | done].
  - intros (b & input & e & ([Hw Hd] & Hok & Hv & (ub & Hub & -> & Hver) & Hx & Hc) & Hbody).
    rewrite Hw, Hd. cbn [negb]. pose proof (wrapper_event_size _ _ Hw Hd) as Hsz. test (maxDraftEnvelopeBytes <? zlen b) false.
    destruct (envelope_written type Htype Htne b maxDraftEnvelopeBytes _ Hok Hv) as (Hb & es & Hes & Hread); [lia |].
    rewrite (proj2 (decodeCbor_Ok _ _) Hes). cbn [readCborMap]. rewrite Hread, Hv.
    rewrite (proj2 (sameBytes_true _ _)) by done. cbn [negb]. rewrite Hub, Hver. cbn [negb].
    test (Event.expiresAt e <=? now) false. by test (now + skew <? Event.createdAt e) false.
Qed.

Lemma event_created type verify sign eventId publicKey created expires payload w :
  encodable (CText type) = true -> type <> [] ->
  createSignedWrapper type sign eventId publicKey created expires payload = Ok w ->
  bytes_ok eventId /\ zlen eventId = 32 -> bytes_ok publicKey /\ zlen publicKey = 32 ->
  bytes_ok payload /\ 0 < zlen payload <= maxCborBytes -> 0 <= created < expires /\ expires <= maxDraftTimestamp ->
  zlen payload + text_bytes type <= 46 * 1024 ->
  (forall m, bytes_ok (sign m) /\ zlen (sign m) = 64 /\ verify publicKey (sign m) m = true) ->
  exists event input signature, let e := Event.mk eventId publicKey created expires payload signature in
    forall now skew, now < expires -> created <= now + skew -> event_valid type verify w now skew event input e.
Proof.
  intros Htype Htne Hcreate Hid Hk Hp Ht Hsize Hsign. unfold createSignedWrapper in Hcreate. cbv zeta in Hcreate.
  step Hcreate as ub Eub. step Hcreate as b Eb. injection Hcreate as <-.
  set (signature := sign _) in Eb. set (e := Event.mk _ _ _ _ _ signature) in Eb.
  destruct (Hsign (utf8_encode signatureDomain ++ ub)) as (Hs1 & Hs2 & Hs3). fold signature in Hs1, Hs2, Hs3.
  assert (Heok : envelope_ok e) by (split; cbn; done).
  destruct (envelope_written type Htype Htne b (zlen b) e Heok Eb) as (Hb & ? & Hd & _); [done |].
  pose proof (decode_Ok _ _ _ Hb Hd) as (Hbl & _).
  assert (Hen : encodable (CMap (signedEnvelopeEntries type e)) = true).
  { destruct (signed_names type e) as [Hw Hn]. apply (good_map envelopeEntryKeys); [done | done | | done | by apply signed_fields].
    apply (bool_decide_eq_true_1 (Forall _ _)); closed. }
  pose proof (signed_size type e b Htype Heok Hen Eb) as Hbs. cbn [Event.payloadBytes e] in Hbs.
  destruct (wrapper_of_bytes b Hb) as [Hw Hdec]; [lia |].
  exists b, (utf8_encode signatureDomain ++ ub), signature. cbv zeta. fold e. intros now skew Hn Hc.
  split; [done |]. split; [done |]. split; [exact Eb |]. split; [by exists ub |]. by split.
Qed.
