(* ===== verification/RecordCodecs.v ===== *)
(** * Codecs of closed records

    A codec lists the entries of a record and reads a record back from a map.
    [RecordCodec] states what the reader and the entries promise each other;
    [record_codec_exact] is the theorem every codec gets from it. *)
From S2P Require Import Prelude JsRuntime Collections Base64Url Cbor CborFacts Records NestedRecords SignedEvent SignedEventFacts.

Class RecordCodec {A} (names : list jsstring) (entries : A -> CborMap) (read : CborMap -> result A) (ok : A -> Prop) : Prop := {
  codec_keys v : NoDup (map_keys (entries v)) /\ Forall (fun k => k ∈ names) (map_keys (entries v))
                 /\ Forall (fun k => encodable_text k = true) (map_keys (entries v));
  codec_fields v : ok v -> Forall (fun e => good e.2) (entries v);
  codec_sound es v : encodable (CMap es) = true -> read es = Ok v ->
    ok v /\ forall k, k ∈ names -> map_get es k = map_get (entries v) k;
  codec_complete es v : ok v -> (forall k, k ∈ names -> map_get es k = map_get (entries v) k) -> read es = Ok v;
}.

Section Codec.
Context {A : Type} {names : list jsstring} {entries : A -> CborMap} {read : CborMap -> result A} {ok : A -> Prop}.
Context `{!RecordCodec names entries read ok}.

Lemma codec_encodable v : ok v -> zlen (entries v) <= maxCborCollectionEntries -> encodable (CMap (entries v)) = true.
Proof.
  intros Hv Hl. destruct (codec_keys v) as (Hn & _ & Hk). apply encodable_map_intro; [done | exact Hn |].
  pose proof (codec_fields v Hv) as Hf. unfold map_keys in Hk. rewrite Forall_fmap in Hk.
  rewrite Forall_forall in *. intros e He. split; [by apply Hk | by apply Hf].
Qed.

(** What a strict reading of bytes accepts: exactly the encodings of the
    records in range. *)
Lemma record_codec_exact b max v :
  (forall v, zlen (entries v) <= maxCborCollectionEntries) ->
  (bytes_ok b /\ exists es, decodeDeterministicCbor b max = Ok (CMap es)
     /\ rejectUnknownEntries es names = Ok tt /\ read es = Ok v) <->
  ok v /\ encodeDeterministicCbor (CMap (entries v)) = Ok b /\ zlen b <= max.
Proof.
  intros Hlen. destruct (codec_keys v) as (Hn & Hk & _). split.
  - intros (Hb & es & Hd & Hu & Hr). pose proof (decode_Ok _ _ _ Hb Hd) as (Hl & He & _).
    destruct (codec_sound es v He Hr) as [Hv Hg]. split; [done |]. split; [| lia].
    by apply (record_read b max es names (entries v)).
  - intros (Hv & He & Hl). pose proof (codec_fields v Hv) as Hf.
    destruct (record_written b max names (entries v)) as (Hb & _ & es & Hd & Hu & Hg);
      [by apply codec_encodable | done | done | by eapply Forall_impl; [exact Hf | intros e []] | done |].
    split; [done |]. exists es. split; [done |]. split; [done |]. apply codec_complete; [done |]. auto.
Qed.
End Codec.

(** ** Fields of such records *)

(** The bytes of a token. *)
Definition token_bytes (t : jsstring) : bytes := match decodeBase64URL t with Ok b => b | Throw _ => [] end.

(** A token of [n] bytes in canonical form. *)
Definition token_ok (n : Z) (t : jsstring) : Prop := canonical_token t = true /\ validToken t n = true.

Lemma token_ok_bytes n t : token_ok n t ->
  decodeBase64URL t = Ok (token_bytes t) /\ zlen (token_bytes t) = n /\ bytes_ok (token_bytes t)
  /\ encodeBase64URL (token_bytes t) = t.
Proof.
  intros [Hc Hv]. apply validToken_decode in Hv as (b & Hd & Hl). unfold token_bytes. rewrite Hd.
  destruct (canonical_token_eq t b Hc Hd). done.
Qed.

Lemma token_good n t : 0 <= n <= maxCborBytes -> token_ok n t -> good (CBytes (token_bytes t)).
Proof. intros Hn (_ & Hl & Hb & _)%token_ok_bytes. apply good_bytes; [done | lia]. Qed.

Lemma token_field_read es key n t : 0 < n ->
  encodable (CMap es) = true -> token_field es key n = Ok t ->
  token_ok n t /\ map_get es key = Some (CBytes (token_bytes t)).
Proof.
  intros Hn He H. pose proof (token_field_sound es key n t He H) as (b & Hg & Hd & Hc & Hb).
  apply token_field_Ok in H as (b' & Hg' & _ & Hl & _). rewrite Hg in Hg'. injection Hg' as <-.
  split; [split; [done |]; apply validToken_decode; by exists b |]. unfold token_bytes. by rewrite Hd.
Qed.

Lemma token_field_written es key n t : 0 < n <= maxCborBytes ->
  token_ok n t -> map_get es key = Some (CBytes (token_bytes t)) -> token_field es key n = Ok t.
Proof.
  intros Hn (_ & Hl & _ & He)%token_ok_bytes Hg. apply token_field_Ok. exists (token_bytes t).
  split; [done |]. split; [lia |]. by split.
Qed.

Lemma text_field_read es key s :
  encodable (CMap es) = true -> text_field es key = Ok s ->
  text_ok maxCborTextBytes s /\ map_get es key = Some (CText s).
Proof.
  intros He (Hg & Hs & Hl)%text_field_Ok. split; [| done]. split; [done |]. split; [done |]. by apply (text_sound_plain es key).
Qed.

Lemma text_field_written es key s :
  text_ok maxCborTextBytes s -> map_get es key = Some (CText s) -> text_field es key = Ok s.
Proof. intros (? & ? & _) Hg. by apply text_field_Ok. Qed.

Lemma number_field_read es key z :
  number_field es key = Ok z -> 0 <= z <= MAX_SAFE_INTEGER /\ map_get es key = Some (CNum (Int z)).
Proof. intros (Hg & Hs & H0)%number_field_Ok. split; [| done]. unfold is_safe in Hs. bool_props. lia. Qed.

Lemma number_field_written es key z :
  0 <= z <= MAX_SAFE_INTEGER -> map_get es key = Some (CNum (Int z)) -> number_field es key = Ok z.
Proof. intros Hz Hg. apply number_field_Ok. split; [done |]. unfold is_safe. split; lia. Qed.

Lemma text_good n s : n <= maxCborTextBytes -> text_ok n s -> good (CText s).
Proof. intros Hn Hs. by apply good_text, (text_ok_encodable n). Qed.

Lemma number_good z : 0 <= z <= MAX_SAFE_INTEGER -> good (CNum (Int z)).
Proof. intros Hz. split; [| done]. apply encodable_num. unfold is_safe. split; lia. Qed.

Lemma text_ok_le n m s : n <= m -> text_ok n s -> text_ok m s.
Proof. intros Hn (? & ? & ?). split; [done |]. split; [lia | done]. Qed.

(** Splits the names of a lookup hypothesis. *)
Ltac each_key Hin :=
  repeat (apply elem_of_cons in Hin as [->|Hin]); try (by apply elem_of_nil in Hin).

(** ** Exact codecs

    A decoder accepts exactly the encodings of the records in range, and all of
    those can be encoded. *)
Definition exact_codec {A} (ok : A -> Prop) (encode : A -> result bytes) (decode : bytes -> result A) : Prop :=
  (forall b v, bytes_ok b /\ decode b = Ok v <-> ok v /\ encode v = Ok b)
  /\ forall v, ok v -> exists b, encode v = Ok b.

Section Exact.
Context {A : Type} {names : list jsstring} {entries : A -> CborMap} {read : CborMap -> result A} {ok : A -> Prop}.
Context `{!RecordCodec names entries read ok}.

(** A codec whose decoder reads strictly and whose encoder writes the entries
    of every record in range, within a bound all of them meet. *)
Lemma exact_codec_intro (max bound : Z) encode decode :
  (forall v, zlen (entries v) <= maxCborCollectionEntries) ->
  (forall b v, bytes_ok b -> decode b = Ok v <->
     exists es, decodeDeterministicCbor b max = Ok (CMap es) /\ rejectUnknownEntries es names = Ok tt /\ read es = Ok v) ->
  (forall v, ok v -> encode v = encodeDeterministicCbor (CMap (entries v))) ->
  (forall v, ok v -> sum_lengths entry_size (entries v) <= bound) -> bound + 3 <= max ->
  exact_codec ok encode decode.
Proof.
  intros Hlen Hdec Henc Hsize Hmax.
  assert (Hb : forall v b, ok v -> encodeDeterministicCbor (CMap (entries v)) = Ok b -> zlen b <= max).
  { intros v b Hv Hb. pose proof (record_size _ _ (codec_encodable v Hv (Hlen v)) Hb). pose proof (Hsize v Hv). lia. }
  split.
  - intros b v. split.
    + intros [Hok Hd]. apply Hdec in Hd; [| done].
      destruct (proj1 (record_codec_exact b max v Hlen) (conj Hok Hd)) as (Hv & He & _).
      split; [done |]. by rewrite (Henc v Hv).
    + intros [Hv He]. rewrite (Henc v Hv) in He.
      destruct (proj2 (record_codec_exact b max v Hlen)) as [Hok Hd];
        [split; [done |]; split; [done | by eapply Hb] |].
      split; [done |]. by apply Hdec.
  - intros v Hv. rewrite (Henc v Hv). eexists. by apply encode_total, codec_encodable.
Qed.
End Exact.
