(* ===== verification/RtcSignaling.v ===== *)
(** * [application-control/webrtc.ts]: the bodies of the WebRTC controls

    SHA-256 is the argument [sha256].  A number that is no safe integer fails
    every validator and never comes out of a decoder, so that the numeric fields
    are integers. *)
From S2P Require Import Prelude JsRuntime Collections Base64Url Cbor CborFacts Records SignedEvent.

Definition rtcSignalingVersion : jsstring := js "branch.rtc.signaling/0.draft".
Definition rtcCapabilitiesControlKind : jsstring := js "branch.rtc.capabilities/0.draft".
Definition rtcOfferControlKind : jsstring := js "branch.rtc.offer/0.draft".
Definition rtcAnswerControlKind : jsstring := js "branch.rtc.answer/0.draft".
Definition rtcCandidateControlKind : jsstring := js "branch.rtc.candidate/0.draft".
Definition rtcRestartControlKind : jsstring := js "branch.rtc.restart/0.draft".
Definition rtcCancelControlKind : jsstring := js "branch.rtc.cancel/0.draft".

Definition maxRtcSignalingBodyBytes : Z := 2048.
Definition maxRtcDescriptionBytes : Z := 1536.
Definition maxRtcCandidateBytes : Z := 1024.
Definition maxRtcCandidatesPerDirection : Z := 32.
Definition rtcSignalingControlTTLms : Z := 60000.
Definition rtcCapabilitiesControlTTLms : Z := 5 * 60000.

Record RtcCapabilities := mkRtcCapabilities {
  cap_version : jsstring;
  maxDescriptionBytes : Z;
  maxCandidateBytes : Z;
  maxCandidatesPerDirection : Z;
}.

Record RtcOffer := mkRtcOffer {
  offer_version : jsstring;
  rtcSessionId : jsstring;
  generation : Z;
  description : jsstring;
  descriptionSHA256 : jsstring;
  dtlsFingerprintSHA256 : jsstring;
}.

Record RtcAnswer := mkRtcAnswer { answer_offer : RtcOffer; offerDescriptionSHA256 : jsstring }.
Record RtcRestart := mkRtcRestart { restart_offer : RtcOffer; priorDescriptionSHA256 : jsstring }.

Record RtcCandidate := mkRtcCandidate {
  cand_version : jsstring;
  cand_rtcSessionId : jsstring;
  cand_generation : Z;
  direction : jsstring;
  cand_descriptionSHA256 : jsstring;
  candidate : jsstring;
}.

Record RtcCancel := mkRtcCancel {
  cancel_version : jsstring;
  cancel_rtcSessionId : jsstring;
  cancel_generation : Z;
  cancel_descriptionSHA256 : jsstring;
  reason : jsstring;
}.

(** ** Checks on values *)

Definition rtc_digest (value : jsstring) : bool := validToken value 32.

Definition validGeneration (value : Z) : bool := is_safe value && (0 <=? value) && (value <=? 65535).

Definition boundedInteger (value minimum maximum : Z) : bool :=
  is_safe value && (minimum <=? value) && (value <=? maximum).

(** The loop over the code units.  Behind the last one [charCodeAt] is NaN, of
    which both comparisons are false. *)
Fixpoint hasUnpairedSurrogate (value : jsstring) : bool :=
  match value with
  | [] => false
  | code :: rest =>
      if (0xd800 <=? code) && (code <=? 0xdbff) then
        match rest with
        | next :: rest => if (next <? 0xdc00) || (0xdfff <? next) then true else hasUnpairedSurrogate rest
        | [] => false
        end
      else if (0xdc00 <=? code) && (code <=? 0xdfff) then true
      else hasUnpairedSurrogate rest
  end.

Definition validBoundedUtf8 (value : jsstring) (maximumBytes : Z) : bool :=
  if (zlen value =? 0) || hasUnpairedSurrogate value then false else text_bytes value <=? maximumBytes.

Definition decodeToken (value : jsstring) (size : Z) (label : jsstring) : result bytes :=
  match decodeBase64URL value with
  | Ok b => if negb (zlen b =? size) then Throw (js "invalid " ++ label) else Ok b
  | Throw _ => Throw (js "invalid " ++ label)
  end.

Definition decodeDigest (value label : jsstring) : result bytes := decodeToken value 32 label.

(** ** Validators *)

Definition validateRtcCapabilities (value : RtcCapabilities) : result unit :=
  if negb (str_eqb (cap_version value) rtcSignalingVersion)
     || negb (boundedInteger (maxDescriptionBytes value) 1 maxRtcDescriptionBytes)
     || negb (boundedInteger (maxCandidateBytes value) 1 maxRtcCandidateBytes)
     || negb (boundedInteger (maxCandidatesPerDirection value) 1 maxRtcCandidatesPerDirection)
  then Throw (js "invalid rtc capabilities") else Ok tt.

Definition validateRtcCandidate (value : RtcCandidate) : result unit :=
  if negb (str_eqb (cand_version value) rtcSignalingVersion)
     || negb (validToken (cand_rtcSessionId value) 16)
     || negb (validGeneration (cand_generation value))
     || (negb (str_eqb (direction value) (js "offerer")) && negb (str_eqb (direction value) (js "answerer")))
     || negb (rtc_digest (cand_descriptionSHA256 value))
     || negb (validBoundedUtf8 (candidate value) maxRtcCandidateBytes)
  then Throw (js "invalid rtc candidate") else Ok tt.

Definition validateRtcCancel (value : RtcCancel) : result unit :=
  if negb (str_eqb (cancel_version value) rtcSignalingVersion)
     || negb (validToken (cancel_rtcSessionId value) 16)
     || negb (validGeneration (cancel_generation value))
     || negb (rtc_digest (cancel_descriptionSHA256 value))
     || (negb (str_eqb (reason value) (js "cancelled")) && negb (str_eqb (reason value) (js "rejected"))
         && negb (str_eqb (reason value) (js "glare")))
  then Throw (js "invalid rtc cancel") else Ok tt.

(** ** Reading fields *)

Definition strictRtcMap (b : bytes) (label : jsstring) (keys : list jsstring) : result CborMap :=
  if (zlen b =? 0) || (maxRtcSignalingBodyBytes <? zlen b) then Throw (js "invalid " ++ label ++ js " body size")
  else
    let? decoded := decodeDeterministicCbor b maxRtcSignalingBodyBytes in
    let? map := readCborMap decoded label in
    let? _ := rejectUnknownEntries map keys in
    Ok map.

Definition boundedEncoding (map : CborMap) : result bytes :=
  let? b := encodeDeterministicCbor (CMap map) in
  if maxRtcSignalingBodyBytes <? zlen b then Throw (js "rtc signaling body too large") else Ok b.

Definition readRtcSignalingVersion (map : CborMap) : result jsstring :=
  let? text := text_field map (js "version") in
  if negb (str_eqb text rtcSignalingVersion) then Throw (js "unsupported rtc signaling version")
  else Ok rtcSignalingVersion.

Definition readGeneration (map : CborMap) : result Z :=
  let? value := number_field map (js "generation") in
  if negb (validGeneration value) then Throw (js "invalid rtc generation") else Ok value.

Definition readDirection (map : CborMap) : result jsstring :=
  let? value := text_field map (js "direction") in
  if negb (str_eqb value (js "offerer")) && negb (str_eqb value (js "answerer"))
  then Throw (js "invalid rtc candidate direction") else Ok value.

Definition readCancelReason (map : CborMap) : result jsstring :=
  let? value := text_field map (js "reason") in
  if negb (str_eqb value (js "cancelled")) && negb (str_eqb value (js "rejected")) && negb (str_eqb value (js "glare"))
  then Throw (js "invalid rtc cancel reason") else Ok value.

Definition digestFromMap (map : CborMap) (key : jsstring) : result jsstring := token_field map key 32.

Definition readBoundedUtf8 (map : CborMap) (key : jsstring) (maximumBytes : Z) : result jsstring :=
  let? value := text_field map key in
  if negb (validBoundedUtf8 value maximumBytes) then Throw (js "invalid " ++ key) else Ok value.

Definition descriptionFromMap (map : CborMap) : result RtcOffer :=
  let? version := readRtcSignalingVersion map in
  let? session := token_field map (js "rtc_session_id") 16 in
  let? generation := readGeneration map in
  let? description := readBoundedUtf8 map (js "description") maxRtcDescriptionBytes in
  let? digest := digestFromMap map (js "description_sha256") in
  let? fingerprint := digestFromMap map (js "dtls_fingerprint_sha256") in
  Ok (mkRtcOffer version session generation description digest fingerprint).

Definition descriptionEntries (value : RtcOffer) : result CborMap :=
  let? session := decodeToken (rtcSessionId value) 16 (js "rtc session id") in
  let? digest := decodeDigest (descriptionSHA256 value) (js "description hash") in
  let? fingerprint := decodeDigest (dtlsFingerprintSHA256 value) (js "dtls fingerprint") in
  Ok [(js "version", CText (offer_version value)); (js "rtc_session_id", CBytes session);
      (js "generation", CNum (Int (generation value))); (js "description", CText (description value));
      (js "description_sha256", CBytes digest); (js "dtls_fingerprint_sha256", CBytes fingerprint)].

(** ** The codecs *)

Definition offerKeys : list jsstring :=
  [js "version"; js "rtc_session_id"; js "generation"; js "description"; js "description_sha256";
   js "dtls_fingerprint_sha256"].
Definition answerKeys : list jsstring := offerKeys ++ [js "offer_description_sha256"].
Definition restartKeys : list jsstring :=
  [js "version"; js "rtc_session_id"; js "generation"; js "prior_description_sha256"; js "description";
   js "description_sha256"; js "dtls_fingerprint_sha256"].
Definition candidateKeys : list jsstring :=
  [js "version"; js "rtc_session_id"; js "generation"; js "direction"; js "description_sha256"; js "candidate"].
Definition cancelKeys : list jsstring :=
  [js "version"; js "rtc_session_id"; js "generation"; js "description_sha256"; js "reason"].
Definition capabilityKeys : list jsstring :=
  [js "version"; js "max_description_bytes"; js "max_candidate_bytes"; js "max_candidates_per_direction"].

Definition encodeRtcCapabilities (value : RtcCapabilities) : result bytes :=
  let? _ := validateRtcCapabilities value in
  boundedEncoding
    [(js "version", CText (cap_version value));
     (js "max_description_bytes", CNum (Int (maxDescriptionBytes value)));
     (js "max_candidate_bytes", CNum (Int (maxCandidateBytes value)));
     (js "max_candidates_per_direction", CNum (Int (maxCandidatesPerDirection value)))].

Definition decodeRtcCapabilities (b : bytes) : result RtcCapabilities :=
  let? map := strictRtcMap b (js "rtc capabilities") capabilityKeys in
  let? version := readRtcSignalingVersion map in
  let? d := number_field map (js "max_description_bytes") in
  let? c := number_field map (js "max_candidate_bytes") in
  let? n := number_field map (js "max_candidates_per_direction") in
  let value := mkRtcCapabilities version d c n in
  let? _ := validateRtcCapabilities value in
  Ok value.

Definition encodeRtcCandidate (value : RtcCandidate) : result bytes :=
  let? _ := validateRtcCandidate value in
  let? session := decodeToken (cand_rtcSessionId value) 16 (js "rtc session id") in
  let? digest := decodeDigest (cand_descriptionSHA256 value) (js "description hash") in
  boundedEncoding
    [(js "version", CText (cand_version value)); (js "rtc_session_id", CBytes session);
     (js "generation", CNum (Int (cand_generation value))); (js "direction", CText (direction value));
     (js "description_sha256", CBytes digest); (js "candidate", CText (candidate value))].

Definition decodeRtcCandidate (b : bytes) : result RtcCandidate :=
  let? map := strictRtcMap b (js "rtc candidate") candidateKeys in
  let? version := readRtcSignalingVersion map in
  let? session := token_field map (js "rtc_session_id") 16 in
  let? generation := readGeneration map in
  let? direction := readDirection map in
  let? digest := digestFromMap map (js "description_sha256") in
  let? candidate := readBoundedUtf8 map (js "candidate") maxRtcCandidateBytes in
  let value := mkRtcCandidate version session generation direction digest candidate in
  let? _ := validateRtcCandidate value in
  Ok value.

Definition encodeRtcCancel (value : RtcCancel) : result bytes :=
  let? _ := validateRtcCancel value in
  let? session := decodeToken (cancel_rtcSessionId value) 16 (js "rtc session id") in
  let? digest := decodeDigest (cancel_descriptionSHA256 value) (js "description hash") in
  boundedEncoding
    [(js "version", CText (cancel_version value)); (js "rtc_session_id", CBytes session);
     (js "generation", CNum (Int (cancel_generation value))); (js "description_sha256", CBytes digest);
     (js "reason", CText (reason value))].

Definition decodeRtcCancel (b : bytes) : result RtcCancel :=
  let? map := strictRtcMap b (js "rtc cancel") cancelKeys in
  let? version := readRtcSignalingVersion map in
  let? session := token_field map (js "rtc_session_id") 16 in
  let? generation := readGeneration map in
  let? digest := digestFromMap map (js "description_sha256") in
  let? reason := readCancelReason map in
  let value := mkRtcCancel version session generation digest reason in
  let? _ := validateRtcCancel value in
  Ok value.

Section Descriptions.
Context (sha256 : bytes -> bytes).

Definition rtcDescriptionSHA256 (description : jsstring) : result jsstring :=
  if negb (validBoundedUtf8 description maxRtcDescriptionBytes) then Throw (js "invalid rtc description")
  else Ok (encodeBase64URL (sha256 (utf8_encode description))).

Definition validateRtcDescription (value : RtcOffer) (label : jsstring) : result unit :=
  if negb (str_eqb (offer_version value) rtcSignalingVersion)
     || negb (validToken (rtcSessionId value) 16)
     || negb (validGeneration (generation value))
     || negb (validBoundedUtf8 (description value) maxRtcDescriptionBytes)
     || negb (rtc_digest (descriptionSHA256 value))
     || negb (rtc_digest (dtlsFingerprintSHA256 value))
  then Throw (js "invalid rtc " ++ label)
  else
    let? digest := rtcDescriptionSHA256 (description value) in
    if negb (str_eqb digest (descriptionSHA256 value))
    then Throw (js "rtc " ++ label ++ js " description hash mismatch") else Ok tt.

Definition validateRtcOffer (value : RtcOffer) : result unit := validateRtcDescription value (js "offer").

Definition validateRtcAnswer (value : RtcAnswer) : result unit :=
  let? _ := validateRtcDescription (answer_offer value) (js "answer") in
  let? _ := decodeDigest (offerDescriptionSHA256 value) (js "offer description hash") in
  Ok tt.

Definition validateRtcRestart (value : RtcRestart) : result unit :=
  let? _ := validateRtcDescription (restart_offer value) (js "restart") in
  let? _ := decodeDigest (priorDescriptionSHA256 value) (js "prior description hash") in
  Ok tt.

Definition encodeRtcOffer (value : RtcOffer) : result bytes :=
  let? _ := validateRtcOffer value in
  let? entries := descriptionEntries value in
  boundedEncoding entries.

Definition decodeRtcOffer (b : bytes) : result RtcOffer :=
  let? map := strictRtcMap b (js "rtc offer") offerKeys in
  let? value := descriptionFromMap map in
  let? _ := validateRtcOffer value in
  Ok value.

Definition encodeRtcAnswer (value : RtcAnswer) : result bytes :=
  let? _ := validateRtcAnswer value in
  let? entries := descriptionEntries (answer_offer value) in
  let? digest := decodeDigest (offerDescriptionSHA256 value) (js "offer description hash") in
  boundedEncoding (entries ++ [(js "offer_description_sha256", CBytes digest)]).

Definition decodeRtcAnswer (b : bytes) : result RtcAnswer :=
  let? map := strictRtcMap b (js "rtc answer") answerKeys in
  let? offer := descriptionFromMap map in
  let? digest := digestFromMap map (js "offer_description_sha256") in
  let value := mkRtcAnswer offer digest in
  let? _ := validateRtcAnswer value in
  Ok value.

Definition encodeRtcRestart (value : RtcRestart) : result bytes :=
  let offer := restart_offer value in
  let? _ := validateRtcRestart value in
  let? session := decodeToken (rtcSessionId offer) 16 (js "rtc session id") in
  let? prior := decodeDigest (priorDescriptionSHA256 value) (js "prior description hash") in
  let? digest := decodeDigest (descriptionSHA256 offer) (js "description hash") in
  let? fingerprint := decodeDigest (dtlsFingerprintSHA256 offer) (js "dtls fingerprint") in
  boundedEncoding
    [(js "version", CText (offer_version offer)); (js "rtc_session_id", CBytes session);
     (js "generation", CNum (Int (generation offer))); (js "prior_description_sha256", CBytes prior);
     (js "description", CText (description offer)); (js "description_sha256", CBytes digest);
     (js "dtls_fingerprint_sha256", CBytes fingerprint)].

Definition decodeRtcRestart (b : bytes) : result RtcRestart :=
  let? map := strictRtcMap b (js "rtc restart") restartKeys in
  let? offer := descriptionFromMap map in
  let? prior := digestFromMap map (js "prior_description_sha256") in
  let value := mkRtcRestart offer prior in
  let? _ := validateRtcRestart value in
  Ok value.
End Descriptions.

(** ** The descriptors of the controls *)

Record RtcSignalingControlDescriptor (Body : Type) := mkRtcDescriptor {
  rtc_kind : jsstring;
  maximumTTLms : Z;
  encodeBody : Body -> result bytes;
  decodeBody : bytes -> result Body;
}.
Arguments mkRtcDescriptor {Body}.
Arguments rtc_kind {Body}.
Arguments maximumTTLms {Body}.
Arguments encodeBody {Body}.
Arguments decodeBody {Body}.

Definition rtcCapabilitiesControlDescriptor : RtcSignalingControlDescriptor RtcCapabilities :=
  mkRtcDescriptor rtcCapabilitiesControlKind rtcCapabilitiesControlTTLms encodeRtcCapabilities decodeRtcCapabilities.
Definition rtcOfferControlDescriptor (sha256 : bytes -> bytes) : RtcSignalingControlDescriptor RtcOffer :=
  mkRtcDescriptor rtcOfferControlKind rtcSignalingControlTTLms (encodeRtcOffer sha256) (decodeRtcOffer sha256).
Definition rtcAnswerControlDescriptor (sha256 : bytes -> bytes) : RtcSignalingControlDescriptor RtcAnswer :=
  mkRtcDescriptor rtcAnswerControlKind rtcSignalingControlTTLms (encodeRtcAnswer sha256) (decodeRtcAnswer sha256).
Definition rtcCandidateControlDescriptor : RtcSignalingControlDescriptor RtcCandidate :=
  mkRtcDescriptor rtcCandidateControlKind rtcSignalingControlTTLms encodeRtcCandidate decodeRtcCandidate.
Definition rtcRestartControlDescriptor (sha256 : bytes -> bytes) : RtcSignalingControlDescriptor RtcRestart :=
  mkRtcDescriptor rtcRestartControlKind rtcSignalingControlTTLms (encodeRtcRestart sha256) (decodeRtcRestart sha256).
Definition rtcCancelControlDescriptor : RtcSignalingControlDescriptor RtcCancel :=
  mkRtcDescriptor rtcCancelControlKind rtcSignalingControlTTLms encodeRtcCancel decodeRtcCancel.
