(* ===== verification/RtcSignalingFacts.v ===== *)
(** * [application-control/webrtc.ts]: exactly which bodies are exchanged *)
From S2P Require Import Prelude JsRuntime Collections Base64Url Cbor CborFacts Records NestedRecords SignedEvent SignedEventFacts RecordCodecs RtcSignaling.

(** ** Texts *)

Lemma unpaired_cons u r :
  hasUnpairedSurrogate (u :: r) =
  if is_high_surrogate u then
    match r with l :: r => if is_low_surrogate l then hasUnpairedSurrogate r else true | [] => false end
  else if is_low_surrogate u then true else hasUnpairedSurrogate r.
Proof.
  cbn [hasUnpairedSurrogate]. unfold is_high_surrogate, is_low_surrogate.
  replace ((0xd800 <=? u) && (u <=? 0xdbff)) with ((0xd800 <=? u) && (u <? 0xdc00)) by (apply eq_true_iff_eq; lia).
  replace ((0xdc00 <=? u) && (u <=? 0xdfff)) with ((0xdc00 <=? u) && (u <? 0xe000)) by (apply eq_true_iff_eq; lia).
  destruct (_ && _); [| done]. destruct r as [|l r]; [done |].
  destruct ((0xdc00 <=? l) && (l <? 0xe000)) eqn:E; bool_props.
  - by test ((l <? 0xdc00) || (0xdfff <? l)) false.
  - by test ((l <? 0xdc00) || (0xdfff <? l)) true.
Qed.

Lemma unpaired_well_formed s : well_formed s = true -> hasUnpairedSurrogate s = false.
Proof.
  induction s as [s IH] using (induction_ltof1 _ length). unfold ltof in IH. destruct s as [|u r]; [done |].
  rewrite unpaired_cons. cbn [well_formed]. intros H. destruct (is_high_surrogate u).
  - destruct r as [|l r]; [done |]. bool_props. match goal with H : is_low_surrogate l = true |- _ => rewrite H end.
    apply IH; [simpl; lia | done].
  - bool_props. destruct (is_low_surrogate u); [done |]. apply IH; [simpl; lia | done].
Qed.

(** A high surrogate at the end of the text is not noticed. *)
Lemma trailing_surrogate_accepted s :
  well_formed s = true -> hasUnpairedSurrogate (s ++ [0xd800]) = false /\ well_formed (s ++ [0xd800]) = false.
Proof.
  induction s as [s IH] using (induction_ltof1 _ length). unfold ltof in IH. destruct s as [|u r]; [done |].
  cbn [app]. rewrite unpaired_cons. cbn [well_formed]. intros H. destruct (is_high_surrogate u).
  - destruct r as [|l r]; [done |]. bool_props. cbn [app]. match goal with H : is_low_surrogate l = true |- _ => rewrite H end.
    apply IH; [simpl; lia | done].
  - bool_props. destruct (is_low_surrogate u); [done |]. destruct (IH r) as [Hu Hw]; [simpl; lia | done |].
    by rewrite Hu, Hw, andb_false_r.
Qed.

Lemma bounded_utf8_ok n max s : n <= max -> text_ok n s -> validBoundedUtf8 s max = true.
Proof.
  intros Hn (Hs & Hb & Hp). unfold validBoundedUtf8. assert (zlen s <> 0) by (by rewrite zlen_zero_iff).
  unfold plain_text in Hp. bool_props. rewrite unpaired_well_formed by done. test (zlen s =? 0) false. cbn [orb]. lia.
Qed.

(** ** Fields *)

Lemma strictRtcMap_Ok b label keys es :
  bytes_ok b ->
  strictRtcMap b label keys = Ok es <->
  decodeDeterministicCbor b maxRtcSignalingBodyBytes = Ok (CMap es) /\ rejectUnknownEntries es keys = Ok tt.
Proof.
  intros Hb. unfold strictRtcMap. split.
  - case_match; [done |]. intros Hr. step Hr as d Ed. step Hr as m Em. step Hr as [] Eu. injection Hr as ->.
    by apply readCborMap_Ok in Em as ->.
  - intros [Hd Hu]. pose proof (decode_Ok _ _ _ Hb Hd) as (Hl & _).
    test ((zlen b =? 0) || (maxRtcSignalingBodyBytes <? zlen b)) false. rewrite Hd. cbn [readCborMap]. by rewrite Hu.
Qed.

Lemma bounded_encoding_eq es :
  encodable (CMap es) = true -> sum_lengths entry_size es + 3 <= maxRtcSignalingBodyBytes ->
  boundedEncoding es = encodeDeterministicCbor (CMap es).
Proof.
  intros He Hs. unfold boundedEncoding. rewrite (encode_total _ He).
  pose proof (record_size es _ He (encode_total _ He)). by test (maxRtcSignalingBodyBytes <? zlen (enc (CMap es))) false.
Qed.

Lemma version_text : text_ok maxCborTextBytes rtcSignalingVersion.
Proof. split; [discriminate |]. split; [vm_compute; discriminate | closed]. Qed.

Lemma readRtcSignalingVersion_Ok es v :
  readRtcSignalingVersion es = Ok v <-> v = rtcSignalingVersion /\ map_get es (js "version") = Some (CText v).
Proof.
  unfold readRtcSignalingVersion. split.
  - intros H. step H as t Et. destruct (str_eqb t rtcSignalingVersion) eqn:E; [| done]. injection H as <-.
    apply str_eqb_true in E as ->. by apply text_field_Ok in Et as [? _].
  - intros [-> Hg]. rewrite (text_field_written es _ rtcSignalingVersion version_text Hg). by rewrite str_eqb_refl.
Qed.

Lemma validGeneration_true z : validGeneration z = true <-> 0 <= z <= 65535.
Proof. unfold validGeneration, is_safe, MAX_SAFE_INTEGER. split; intros H; [bool_props; lia |]. lia. Qed.

Lemma readGeneration_Ok es z :
  readGeneration es = Ok z <-> 0 <= z <= 65535 /\ map_get es (js "generation") = Some (CNum (Int z)).
Proof.
  unfold readGeneration. split.
  - intros H. step H as n En. destruct (validGeneration n) eqn:Eg; [| done]. injection H as ->.
    apply number_field_read in En as [_ Hg]. split; [by apply validGeneration_true | done].
  - intros [Hz Hg]. rewrite (number_field_written es _ z) by (unfold MAX_SAFE_INTEGER; done || lia).
    by rewrite (proj2 (validGeneration_true z) Hz).
Qed.

Lemma readBoundedUtf8_read es key max s :
  encodable (CMap es) = true -> readBoundedUtf8 es key max = Ok s ->
  text_ok maxCborTextBytes s /\ validBoundedUtf8 s max = true /\ map_get es key = Some (CText s).
Proof.
  intros He H. unfold readBoundedUtf8 in H. step H as t Et. destruct (validBoundedUtf8 t max) eqn:Ev; [| done].
  injection H as ->. destruct (text_field_read es key s He Et). done.
Qed.

Lemma readBoundedUtf8_written es key max s :
  maxCborTextBytes <= max -> text_ok maxCborTextBytes s -> map_get es key = Some (CText s) -> readBoundedUtf8 es key max = Ok s.
Proof.
  intros Hm Hs Hg. unfold readBoundedUtf8. rewrite (text_field_written es key s Hs Hg).
  by rewrite (bounded_utf8_ok maxCborTextBytes).
Qed.

Lemma decodeToken_ok n t label : token_ok n t -> decodeToken t n label = Ok (token_bytes t).
Proof.
  intros (Hd & Hl & _)%token_ok_bytes. unfold decodeToken. rewrite Hd. by test (zlen (token_bytes t) =? n) true.
Qed.

Lemma token_ok_valid n t : token_ok n t -> validToken t n = true.
Proof. by intros []. Qed.

(** ** Descriptions *)

Section Descriptions.
Context (sha256 : bytes -> bytes).

(** The fields three bodies share. *)
Definition offer_shape (o : RtcOffer) : Prop :=
  offer_version o = rtcSignalingVersion /\ token_ok 16 (rtcSessionId o) /\ 0 <= generation o <= 65535
  /\ text_ok maxCborTextBytes (description o) /\ token_ok 32 (descriptionSHA256 o)
  /\ token_ok 32 (dtlsFingerprintSHA256 o).

Definition offer_ok (o : RtcOffer) : Prop :=
  offer_shape o /\ descriptionSHA256 o = encodeBase64URL (sha256 (utf8_encode (description o))).

Definition answer_ok (a : RtcAnswer) : Prop := offer_ok (answer_offer a) /\ token_ok 32 (offerDescriptionSHA256 a).
Definition restart_ok (a : RtcRestart) : Prop := offer_ok (restart_offer a) /\ token_ok 32 (priorDescriptionSHA256 a).

Definition offer_entries (o : RtcOffer) : CborMap :=
  [(js "version", CText (offer_version o)); (js "rtc_session_id", CBytes (token_bytes (rtcSessionId o)));
   (js "generation", CNum (Int (generation o))); (js "description", CText (description o));
   (js "description_sha256", CBytes (token_bytes (descriptionSHA256 o)));
   (js "dtls_fingerprint_sha256", CBytes (token_bytes (dtlsFingerprintSHA256 o)))].

Definition answer_entries (a : RtcAnswer) : CborMap :=
  offer_entries (answer_offer a) ++ [(js "offer_description_sha256", CBytes (token_bytes (offerDescriptionSHA256 a)))].

Definition restart_entries (a : RtcRestart) : CborMap :=
  let o := restart_offer a in
  [(js "version", CText (offer_version o)); (js "rtc_session_id", CBytes (token_bytes (rtcSessionId o)));
   (js "generation", CNum (Int (generation o)));
   (js "prior_description_sha256", CBytes (token_bytes (priorDescriptionSHA256 a)));
   (js "description", CText (description o));
   (js "description_sha256", CBytes (token_bytes (descriptionSHA256 o)));
   (js "dtls_fingerprint_sha256", CBytes (token_bytes (dtlsFingerprintSHA256 o)))].

Lemma description_read es o :
  encodable (CMap es) = true -> descriptionFromMap es = Ok o ->
  offer_shape o /\ forall k, k ∈ offerKeys -> map_get es k = map_get (offer_entries o) k.
Proof.
  intros He H. unfold descriptionFromMap in H. step H as v Ev. step H as s Es. step H as g Eg. step H as d Ed.
  step H as h Eh. step H as f Ef. injection H as <-.
  apply readRtcSignalingVersion_Ok in Ev as [-> Ev]. apply token_field_read in Es as [Hs Es]; [| lia | done].
  apply readGeneration_Ok in Eg as [Hg Eg]. apply readBoundedUtf8_read in Ed as (Hd & _ & Ed); [| done].
  apply token_field_read in Eh as [Hh Eh], Ef as [Hf Ef]; [| lia | done | lia | done].
  split; [done |]. intros k Hin. unfold offerKeys in Hin. each_key Hin; done.
Qed.

Lemma description_written es o :
  offer_shape o -> (forall k, k ∈ offerKeys -> map_get es k = map_get (offer_entries o) k) -> descriptionFromMap es = Ok o.
Proof.
  intros (Hv & Hs & Hg & Hd & Hh & Hf) Hget. unfold descriptionFromMap, digestFromMap.
  rewrite (proj2 (readRtcSignalingVersion_Ok es (offer_version o))) by (rewrite Hget; [done | set_solver]).
  rewrite (token_field_written es _ 16 (rtcSessionId o)) by first [done | rewrite Hget; [done | set_solver]].
  rewrite (proj2 (readGeneration_Ok es (generation o))) by (rewrite Hget; [done | set_solver]).
  rewrite (readBoundedUtf8_written es _ maxRtcDescriptionBytes (description o)) by first [done | rewrite Hget; [done | set_solver]].
  rewrite (token_field_written es _ 32 (descriptionSHA256 o)) by first [done | rewrite Hget; [done | set_solver]].
  rewrite (token_field_written es _ 32 (dtlsFingerprintSHA256 o)) by first [done | rewrite Hget; [done | set_solver]].
  by destruct o.
Qed.

Lemma offer_good o : offer_shape o -> Forall (fun e => good e.2) (offer_entries o).
Proof.
  intros (Hv & Hs & Hg & Hd & Hh & Hf). unfold offer_entries. repeat (apply Forall_cons; split); cbn [snd].
  - rewrite Hv. by apply (text_good maxCborTextBytes), version_text.
  - by apply (token_good 16).
  - apply number_good. unfold MAX_SAFE_INTEGER. lia.
  - by apply (text_good maxCborTextBytes).
  - by apply (token_good 32).
  - by apply (token_good 32).
  - by apply Forall_nil.
Qed.

Lemma validate_description o label :
  offer_shape o -> validateRtcDescription sha256 o label = Ok tt <-> offer_ok o.
Proof.
  intros Ho. pose proof Ho as (Hv & Hs & Hg & Hd & Hh & Hf). unfold validateRtcDescription, rtcDescriptionSHA256, offer_ok, rtc_digest.
  rewrite Hv, str_eqb_refl, (token_ok_valid 16), (proj2 (validGeneration_true _) Hg), (bounded_utf8_ok maxCborTextBytes),
    !(token_ok_valid 32) by done. cbn [negb orb].
  destruct (str_eqb _ (descriptionSHA256 o)) eqn:E; cbn [negb].
  - apply str_eqb_true in E. split; [intros _; split; [done | done] | done].
  - split; [done |]. intros [_ Hx]. rewrite <- Hx, str_eqb_refl in E. done.
Qed.

Lemma offer_entries_eq o : offer_shape o -> descriptionEntries o = Ok (offer_entries o).
Proof.
  intros (Hv & Hs & Hg & Hd & Hh & Hf). unfold descriptionEntries, decodeDigest. by rewrite !decodeToken_ok.
Qed.

Lemma offer_size o : offer_shape o -> sum_lengths entry_size (offer_entries o) <= 1300.
Proof.
  intros (Hv & Hs & Hg & (_ & Hd & _) & Hh & Hf). unfold offer_entries, text_bytes, maxCborTextBytes in *.
  apply token_ok_bytes in Hs as (_ & Hs & _), Hh as (_ & Hh & _), Hf as (_ & Hf & _). rewrite Hv.
  entry_sizes. rewrite Hs, Hh, Hf. change (zlen (utf8_encode rtcSignalingVersion)) with 28. lia.
Qed.
End Descriptions.

Lemma rtc_decode {A} b label keys (read : CborMap -> result A) v :
  bytes_ok b ->
  (let? map := strictRtcMap b label keys in read map) = Ok v <->
  exists es, decodeDeterministicCbor b maxRtcSignalingBodyBytes = Ok (CMap es)
    /\ rejectUnknownEntries es keys = Ok tt /\ read es = Ok v.
Proof.
  intros Hb. split.
  - intros H. step H as es Es. apply strictRtcMap_Ok in Es as [Hd Hu]; [| done]. by exists es.
  - intros (es & Hd & Hu & Hr). by rewrite (proj2 (strictRtcMap_Ok b label keys es Hb)).
Qed.

Section Offers.
Context (sha256 : bytes -> bytes).

Definition read_offer (map : CborMap) : result RtcOffer :=
  let? value := descriptionFromMap map in let? _ := validateRtcOffer sha256 value in Ok value.

Definition read_answer (map : CborMap) : result RtcAnswer :=
  let? offer := descriptionFromMap map in
  let? digest := digestFromMap map (js "offer_description_sha256") in
  let value := mkRtcAnswer offer digest in
  let? _ := validateRtcAnswer sha256 value in Ok value.

Definition read_restart (map : CborMap) : result RtcRestart :=
  let? offer := descriptionFromMap map in
  let? prior := digestFromMap map (js "prior_description_sha256") in
  let value := mkRtcRestart offer prior in
  let? _ := validateRtcRestart sha256 value in Ok value.

#[export] Instance offer_codec : RecordCodec offerKeys offer_entries read_offer (offer_ok sha256).
Proof.
  split.
  - intros v. split; [apply (bool_decide_eq_true_1 (NoDup _)); closed |].
    split; apply (bool_decide_eq_true_1 (Forall _ _)); closed.
  - intros v [Hv _]. by apply offer_good.
  - intros es v He H. unfold read_offer in H. step H as o Eo. step H as [] Ev. injection H as <-.
    apply description_read in Eo as [Ho Hg]; [| done]. split; [| done]. by apply (validate_description sha256 o (js "offer")).
  - intros es v Hv Hg. unfold read_offer. rewrite (description_written es v (proj1 Hv) Hg).
    unfold validateRtcOffer. by rewrite (proj2 (validate_description sha256 v _ (proj1 Hv))).
Qed.

#[export] Instance answer_codec : RecordCodec answerKeys answer_entries read_answer (answer_ok sha256).
Proof.
  split.
  - intros v. split; [apply (bool_decide_eq_true_1 (NoDup _)); closed |].
    split; apply (bool_decide_eq_true_1 (Forall _ _)); closed.
  - intros v [[Hv _] Hd]. unfold answer_entries. apply Forall_app. split; [by apply offer_good |].
    apply Forall_cons. split; [by apply (token_good 32) | by apply Forall_nil].
  - intros es v He H. unfold read_answer in H. step H as o Eo. step H as d Ed. step H as [] Ev. injection H as <-.
    unfold validateRtcAnswer in Ev. cbn [answer_offer] in Ev. step Ev as [] Evd.
    apply description_read in Eo as [Ho Hg]; [| done]. apply token_field_read in Ed as [Hd Ed]; [| lia | done].
    split; [split; [by apply (validate_description sha256 o (js "answer")) | done] |].
    intros k Hin. unfold answer_entries. rewrite map_get_app. unfold answerKeys in Hin. cbn [answer_offer].
    apply elem_of_app in Hin as [Hin|Hin]; [| each_key Hin; exact Ed]. rewrite <- (Hg k Hin).
    destruct (map_get es k) as [x|] eqn:E; [done |]. exfalso. rewrite (Hg k Hin) in E.
    unfold offerKeys in Hin. each_key Hin; discriminate E.
  - intros es v [Hv Hd] Hg. unfold read_answer, digestFromMap. rewrite (description_written es (answer_offer v) (proj1 Hv)).
    + rewrite (token_field_written es _ 32 (offerDescriptionSHA256 v)) by first [done | rewrite Hg; [done | unfold answerKeys; set_solver]].
      unfold validateRtcAnswer. cbn [answer_offer offerDescriptionSHA256].
      rewrite (proj2 (validate_description sha256 (answer_offer v) _ (proj1 Hv))) by done.
      unfold decodeDigest. rewrite decodeToken_ok by done. by destruct v.
    + intros k Hin. rewrite Hg by (unfold answerKeys; set_solver). unfold answer_entries. rewrite map_get_app.
      unfold offerKeys in Hin. each_key Hin; done.
Qed.

#[export] Instance restart_codec : RecordCodec restartKeys restart_entries read_restart (restart_ok sha256).
Proof.
  split.
  - intros v. split; [apply (bool_decide_eq_true_1 (NoDup _)); closed |].
    split; apply (bool_decide_eq_true_1 (Forall _ _)); closed.
  - intros v [[Hv _] Hd]. pose proof (offer_good _ Hv) as Hf. rewrite Forall_forall in Hf. apply Forall_forall. intros e Hin.
    destruct (decide (e.1 = js "prior_description_sha256")) as [E|E].
    + unfold restart_entries in Hin. each_key Hin; try discriminate E. by apply (token_good 32).
    + apply Hf. unfold restart_entries, offer_entries in *. set_solver.
  - intros es v He H. unfold read_restart in H. step H as o Eo. step H as d Ed. step H as [] Ev. injection H as <-.
    unfold validateRtcRestart in Ev. cbn [restart_offer] in Ev. step Ev as [] Evd.
    apply description_read in Eo as [Ho Hg]; [| done]. apply token_field_read in Ed as [Hd Ed]; [| lia | done].
    split; [split; [by apply (validate_description sha256 o (js "restart")) | done] |].
    intros k Hin. unfold restartKeys in Hin. each_key Hin;
      first [exact Ed | rewrite Hg; [done | unfold offerKeys; set_solver]].
  - intros es v [Hv Hd] Hg. unfold read_restart, digestFromMap. rewrite (description_written es (restart_offer v) (proj1 Hv)).
    + rewrite (token_field_written es _ 32 (priorDescriptionSHA256 v)) by first [done | rewrite Hg; [done | unfold restartKeys; set_solver]].
      unfold validateRtcRestart. cbn [restart_offer priorDescriptionSHA256].
      rewrite (proj2 (validate_description sha256 (restart_offer v) _ (proj1 Hv))) by done.
      unfold decodeDigest. rewrite decodeToken_ok by done. by destruct v.
    + intros k Hin. rewrite Hg by (unfold restartKeys; unfold offerKeys in Hin; set_solver).
      unfold offerKeys in Hin. each_key Hin; done.
Qed.

Lemma offer_exact : exact_codec (offer_ok sha256) (encodeRtcOffer sha256) (decodeRtcOffer sha256).
Proof.
  eapply (exact_codec_intro maxRtcSignalingBodyBytes 1300).
  - intros v. vm_compute. discriminate.
  - intros b v Hb. apply (rtc_decode b _ _ read_offer v Hb).
  - intros v Hv. unfold encodeRtcOffer, validateRtcOffer. rewrite (proj2 (validate_description sha256 v _ (proj1 Hv)) Hv).
    rewrite offer_entries_eq by apply Hv. apply bounded_encoding_eq.
    + apply codec_encodable; [done | vm_compute; discriminate].
    + pose proof (offer_size v (proj1 Hv)). unfold maxRtcSignalingBodyBytes. lia.
  - intros v Hv. apply offer_size, Hv.
  - vm_compute. discriminate.
Qed.

Lemma answer_exact : exact_codec (answer_ok sha256) (encodeRtcAnswer sha256) (decodeRtcAnswer sha256).
Proof.
  assert (Hsize : forall v, answer_ok sha256 v -> sum_lengths entry_size (answer_entries v) <= 1400).
  { intros v [[Hv _] Hd]. pose proof (offer_size _ Hv) as Hs. apply token_ok_bytes in Hd as (_ & Hd & _).
    unfold answer_entries, offer_entries in *. cbn [app] in *. revert Hs. entry_sizes. rewrite Hd. lia. }
  eapply (exact_codec_intro maxRtcSignalingBodyBytes 1400).
  - intros v. vm_compute. discriminate.
  - intros b v Hb. apply (rtc_decode b _ _ read_answer v Hb).
  - intros v Hv. pose proof Hv as [Ho Hd]. unfold encodeRtcAnswer, validateRtcAnswer.
    rewrite (proj2 (validate_description sha256 _ _ (proj1 Ho)) Ho). unfold decodeDigest. rewrite decodeToken_ok by done.
    rewrite offer_entries_eq by apply Ho. apply bounded_encoding_eq.
    + apply (codec_encodable (read := read_answer) v Hv). vm_compute. discriminate.
    + etrans; [apply Z.add_le_mono_r, (Hsize v Hv) | vm_compute; discriminate].
  - done.
  - vm_compute. discriminate.
Qed.

Lemma restart_exact : exact_codec (restart_ok sha256) (encodeRtcRestart sha256) (decodeRtcRestart sha256).
Proof.
  assert (Hsize : forall v, restart_ok sha256 v -> sum_lengths entry_size (restart_entries v) <= 1400).
  { intros v [[Hv _] Hd]. pose proof (offer_size _ Hv) as Hs. apply token_ok_bytes in Hd as (_ & Hd & _).
    unfold restart_entries, offer_entries in *. revert Hs. entry_sizes. rewrite Hd. lia. }
  eapply (exact_codec_intro maxRtcSignalingBodyBytes 1400).
  - intros v. vm_compute. discriminate.
  - intros b v Hb. apply (rtc_decode b _ _ read_restart v Hb).
  - intros v Hv. pose proof Hv as [Ho Hd]. pose proof (proj1 Ho) as (_ & Hs & _ & _ & Hh & Hf). unfold encodeRtcRestart, validateRtcRestart.
    rewrite (proj2 (validate_description sha256 _ _ (proj1 Ho)) Ho). unfold decodeDigest. rewrite !decodeToken_ok by done.
    apply bounded_encoding_eq.
    + apply (codec_encodable (read := read_restart) v Hv). vm_compute. discriminate.
    + etrans; [apply Z.add_le_mono_r, (Hsize v Hv) | vm_compute; discriminate].
  - done.
  - vm_compute. discriminate.
Qed.
End Offers.

(** ** Candidates, cancellations and capabilities *)

Definition candidate_ok (c : RtcCandidate) : Prop :=
  cand_version c = rtcSignalingVersion /\ token_ok 16 (cand_rtcSessionId c) /\ 0 <= cand_generation c <= 65535
  /\ direction c ∈ [js "offerer"; js "answerer"] /\ token_ok 32 (cand_descriptionSHA256 c)
  /\ text_ok maxRtcCandidateBytes (candidate c).

Definition cancel_ok (c : RtcCancel) : Prop :=
  cancel_version c = rtcSignalingVersion /\ token_ok 16 (cancel_rtcSessionId c) /\ 0 <= cancel_generation c <= 65535
  /\ token_ok 32 (cancel_descriptionSHA256 c) /\ reason c ∈ [js "cancelled"; js "rejected"; js "glare"].

Definition capabilities_ok (c : RtcCapabilities) : Prop :=
  cap_version c = rtcSignalingVersion /\ 1 <= maxDescriptionBytes c <= maxRtcDescriptionBytes
  /\ 1 <= maxCandidateBytes c <= maxRtcCandidateBytes /\ 1 <= maxCandidatesPerDirection c <= maxRtcCandidatesPerDirection.

Definition candidate_entries (c : RtcCandidate) : CborMap :=
  [(js "version", CText (cand_version c)); (js "rtc_session_id", CBytes (token_bytes (cand_rtcSessionId c)));
   (js "generation", CNum (Int (cand_generation c))); (js "direction", CText (direction c));
   (js "description_sha256", CBytes (token_bytes (cand_descriptionSHA256 c))); (js "candidate", CText (candidate c))].

Definition cancel_entries (c : RtcCancel) : CborMap :=
  [(js "version", CText (cancel_version c)); (js "rtc_session_id", CBytes (token_bytes (cancel_rtcSessionId c)));
   (js "generation", CNum (Int (cancel_generation c)));
   (js "description_sha256", CBytes (token_bytes (cancel_descriptionSHA256 c))); (js "reason", CText (reason c))].

Definition capability_entries (c : RtcCapabilities) : CborMap :=
  [(js "version", CText (cap_version c)); (js "max_description_bytes", CNum (Int (maxDescriptionBytes c)));
   (js "max_candidate_bytes", CNum (Int (maxCandidateBytes c)));
   (js "max_candidates_per_direction", CNum (Int (maxCandidatesPerDirection c)))].

(** The words of a direction and of a reason are texts. *)
Lemma direction_text s : s ∈ [js "offerer"; js "answerer"] -> text_ok 16 s.
Proof. intros Hs. each_key Hs; (split; [discriminate |]; split; [vm_compute; discriminate | closed]). Qed.

Lemma reason_text s : s ∈ [js "cancelled"; js "rejected"; js "glare"] -> text_ok 16 s.
Proof. intros Hs. each_key Hs; (split; [discriminate |]; split; [vm_compute; discriminate | closed]). Qed.

Lemma one_of2 s a b : negb (str_eqb s a) && negb (str_eqb s b) = false <-> s ∈ [a; b].
Proof.
  rewrite !elem_of_cons, elem_of_nil. rewrite <- !str_eqb_true. destruct (str_eqb s a), (str_eqb s b); cbn; intuition congruence.
Qed.

Lemma one_of3 s a b c : negb (str_eqb s a) && negb (str_eqb s b) && negb (str_eqb s c) = false <-> s ∈ [a; b; c].
Proof.
  rewrite !elem_of_cons, elem_of_nil. rewrite <- !str_eqb_true.
  destruct (str_eqb s a), (str_eqb s b), (str_eqb s c); cbn; intuition congruence.
Qed.

Lemma validate_candidate c : candidate_ok c -> validateRtcCandidate c = Ok tt.
Proof.
  intros (Hv & Hs & Hg & Hd & Hh & Hc). unfold validateRtcCandidate, rtc_digest.
  rewrite Hv, str_eqb_refl, (token_ok_valid 16), (proj2 (validGeneration_true _) Hg), (proj2 (one_of2 _ _ _) Hd),
    (token_ok_valid 32), (bounded_utf8_ok maxRtcCandidateBytes) by done. done.
Qed.

Lemma validate_cancel c : cancel_ok c -> validateRtcCancel c = Ok tt.
Proof.
  intros (Hv & Hs & Hg & Hh & Hr). unfold validateRtcCancel, rtc_digest.
  rewrite Hv, str_eqb_refl, (token_ok_valid 16), (proj2 (validGeneration_true _) Hg), (token_ok_valid 32),
    (proj2 (one_of3 _ _ _ _) Hr) by done. done.
Qed.

Lemma boundedInteger_true z a b : 0 <= a -> b <= MAX_SAFE_INTEGER -> boundedInteger z a b = true <-> a <= z <= b.
Proof. intros Ha Hb. unfold boundedInteger, is_safe. split; intros H; [bool_props; lia |]. lia. Qed.

Lemma validate_capabilities c : validateRtcCapabilities c = Ok tt <-> capabilities_ok c.
Proof.
  unfold validateRtcCapabilities, capabilities_ok.
  rewrite <- (boundedInteger_true (maxDescriptionBytes c)), <- (boundedInteger_true (maxCandidateBytes c)),
    <- (boundedInteger_true (maxCandidatesPerDirection c)), <- (str_eqb_true (cap_version c)) by (lia || done).
  destruct (str_eqb _ _), (boundedInteger (maxDescriptionBytes c) _ _), (boundedInteger (maxCandidateBytes c) _ _),
    (boundedInteger (maxCandidatesPerDirection c) _ _); cbn; intuition congruence.
Qed.

Definition read_candidate (map : CborMap) : result RtcCandidate :=
  let? version := readRtcSignalingVersion map in
  let? session := token_field map (js "rtc_session_id") 16 in
  let? generation := readGeneration map in
  let? direction := readDirection map in
  let? digest := digestFromMap map (js "description_sha256") in
  let? candidate := readBoundedUtf8 map (js "candidate") maxRtcCandidateBytes in
  let value := mkRtcCandidate version session generation direction digest candidate in
  let? _ := validateRtcCandidate value in Ok value.

Definition read_cancel (map : CborMap) : result RtcCancel :=
  let? version := readRtcSignalingVersion map in
  let? session := token_field map (js "rtc_session_id") 16 in
  let? generation := readGeneration map in
  let? digest := digestFromMap map (js "description_sha256") in
  let? reason := readCancelReason map in
  let value := mkRtcCancel version session generation digest reason in
  let? _ := validateRtcCancel value in Ok value.

Definition read_capabilities (map : CborMap) : result RtcCapabilities :=
  let? version := readRtcSignalingVersion map in
  let? d := number_field map (js "max_description_bytes") in
  let? c := number_field map (js "max_candidate_bytes") in
  let? n := number_field map (js "max_candidates_per_direction") in
  let value := mkRtcCapabilities version d c n in
  let? _ := validateRtcCapabilities value in Ok value.

#[export] Instance candidate_codec : RecordCodec candidateKeys candidate_entries read_candidate candidate_ok.
Proof.
  split.
  - intros v. split; [apply (bool_decide_eq_true_1 (NoDup _)); closed |].
    split; apply (bool_decide_eq_true_1 (Forall _ _)); closed.
  - intros v (Hv & Hs & Hg & Hd & Hh & Hc). unfold candidate_entries. repeat (apply Forall_cons; split); cbn [snd].
    + rewrite Hv. by apply (text_good maxCborTextBytes), version_text.
    + by apply (token_good 16).
    + apply number_good. unfold MAX_SAFE_INTEGER. lia.
    + by apply (text_good 16), direction_text.
    + by apply (token_good 32).
    + by apply (text_good maxRtcCandidateBytes).
    + by apply Forall_nil.
  - intros es v He H. unfold read_candidate in H. step H as ve Ev. step H as s Es. step H as g Eg. step H as d Ed.
    step H as h Eh. step H as c Ec. step H as [] Eval. injection H as <-.
    apply readRtcSignalingVersion_Ok in Ev as [-> Ev]. apply token_field_read in Es as [Hs Es]; [| lia | done].
    apply readGeneration_Ok in Eg as [Hg Eg]. unfold readDirection in Ed. step Ed as d' Ed'. case_match eqn:Edir; [done |].
    injection Ed as ->. apply one_of2 in Edir. apply text_field_read in Ed' as [_ Ed']; [| done].
    apply token_field_read in Eh as [Hh Eh]; [| lia | done]. apply readBoundedUtf8_read in Ec as (Hc & _ & Ec); [| done].
    split; [done |]. intros k Hin. unfold candidateKeys in Hin. each_key Hin; done.
  - intros es v Hok Hg. pose proof (validate_candidate v Hok) as Hval. destruct Hok as (Hv & Hs & Hge & Hd & Hh & Hc).
    unfold read_candidate, digestFromMap, readDirection.
    rewrite (proj2 (readRtcSignalingVersion_Ok es (cand_version v))) by (rewrite Hg; [done | set_solver]).
    rewrite (token_field_written es _ 16 (cand_rtcSessionId v)) by first [done | rewrite Hg; [done | set_solver]].
    rewrite (proj2 (readGeneration_Ok es (cand_generation v))) by (rewrite Hg; [done | set_solver]).
    rewrite (text_field_written es _ (direction v))
      by first [apply (text_ok_le 16); [done | by apply direction_text] | rewrite Hg; [done | set_solver]].
    rewrite (proj2 (one_of2 _ _ _) Hd).
    rewrite (token_field_written es _ 32 (cand_descriptionSHA256 v)) by first [done | rewrite Hg; [done | set_solver]].
    rewrite (readBoundedUtf8_written es _ maxRtcCandidateBytes (candidate v)) by first [done | rewrite Hg; [done | set_solver]].
    destruct v. cbn in *. by rewrite Hval.
Qed.

#[export] Instance cancel_codec : RecordCodec cancelKeys cancel_entries read_cancel cancel_ok.
Proof.
  split.
  - intros v. split; [apply (bool_decide_eq_true_1 (NoDup _)); closed |].
    split; apply (bool_decide_eq_true_1 (Forall _ _)); closed.
  - intros v (Hv & Hs & Hg & Hh & Hr). unfold cancel_entries. repeat (apply Forall_cons; split); cbn [snd].
    + rewrite Hv. by apply (text_good maxCborTextBytes), version_text.
    + by apply (token_good 16).
    + apply number_good. unfold MAX_SAFE_INTEGER. lia.
    + by apply (token_good 32).
    + by apply (text_good 16), reason_text.
    + by apply Forall_nil.
  - intros es v He H. unfold read_cancel in H. step H as ve Ev. step H as s Es. step H as g Eg.
    step H as h Eh. step H as r Er. step H as [] Eval. injection H as <-.
    apply readRtcSignalingVersion_Ok in Ev as [-> Ev]. apply token_field_read in Es as [Hs Es]; [| lia | done].
    apply readGeneration_Ok in Eg as [Hg Eg]. unfold readCancelReason in Er. step Er as r' Er'. case_match eqn:Ewords; [done |].
    injection Er as ->. apply one_of3 in Ewords. apply text_field_read in Er' as [_ Er']; [| done].
    apply token_field_read in Eh as [Hh Eh]; [| lia | done].
    split; [done |]. intros k Hin. unfold cancelKeys in Hin. each_key Hin; done.
  - intros es v Hok Hg. pose proof (validate_cancel v Hok) as Hval. destruct Hok as (Hv & Hs & Hge & Hh & Hr).
    unfold read_cancel, digestFromMap, readCancelReason.
    rewrite (proj2 (readRtcSignalingVersion_Ok es (cancel_version v))) by (rewrite Hg; [done | set_solver]).
    rewrite (token_field_written es _ 16 (cancel_rtcSessionId v)) by first [done | rewrite Hg; [done | set_solver]].
    rewrite (proj2 (readGeneration_Ok es (cancel_generation v))) by (rewrite Hg; [done | set_solver]).
    rewrite (token_field_written es _ 32 (cancel_descriptionSHA256 v)) by first [done | rewrite Hg; [done | set_solver]].
    rewrite (text_field_written es _ (reason v))
      by first [apply (text_ok_le 16); [done | by apply reason_text] | rewrite Hg; [done | set_solver]].
    rewrite (proj2 (one_of3 _ _ _ _) Hr). destruct v. cbn in *. by rewrite Hval.
Qed.

#[export] Instance capabilities_codec : RecordCodec capabilityKeys capability_entries read_capabilities capabilities_ok.
Proof.
  assert (Hmax : maxRtcDescriptionBytes <= MAX_SAFE_INTEGER /\ maxRtcCandidateBytes <= MAX_SAFE_INTEGER
                 /\ maxRtcCandidatesPerDirection <= MAX_SAFE_INTEGER) by done.
  split.
  - intros v. split; [apply (bool_decide_eq_true_1 (NoDup _)); closed |].
    split; apply (bool_decide_eq_true_1 (Forall _ _)); closed.
  - intros v (Hv & Hd & Hc & Hn). unfold capability_entries. repeat (apply Forall_cons; split); cbn [snd].
    + rewrite Hv. by apply (text_good maxCborTextBytes), version_text.
    + apply number_good. lia.
    + apply number_good. lia.
    + apply number_good. lia.
    + by apply Forall_nil.
  - intros es v He H. unfold read_capabilities in H. step H as ve Ev. step H as d Ed. step H as c Ec. step H as n En.
    step H as [] Eval. injection H as <-. apply readRtcSignalingVersion_Ok in Ev as [-> Ev].
    apply number_field_read in Ed as [_ Ed], Ec as [_ Ec], En as [_ En]. apply validate_capabilities in Eval.
    split; [done |]. intros k Hin. unfold capabilityKeys in Hin. each_key Hin; done.
  - intros es v Hok Hg. pose proof (proj2 (validate_capabilities v) Hok) as Hval. destruct Hok as (Hv & Hd & Hc & Hn).
    unfold read_capabilities.
    rewrite (proj2 (readRtcSignalingVersion_Ok es (cap_version v))) by (rewrite Hg; [done | set_solver]).
    rewrite (number_field_written es _ (maxDescriptionBytes v)) by first [lia | rewrite Hg; [done | set_solver]].
    rewrite (number_field_written es _ (maxCandidateBytes v)) by first [lia | rewrite Hg; [done | set_solver]].
    rewrite (number_field_written es _ (maxCandidatesPerDirection v)) by first [lia | rewrite Hg; [done | set_solver]].
    destruct v. cbn in *. by rewrite Hval.
Qed.

Lemma candidate_exact : exact_codec candidate_ok encodeRtcCandidate decodeRtcCandidate.
Proof.
  assert (Hsize : forall v, candidate_ok v -> sum_lengths entry_size (candidate_entries v) <= 1400).
  { intros v (Hv & Hs & Hg & Hd & Hh & Hc). apply direction_text in Hd as (_ & Hd & _). destruct Hc as (_ & Hc & _).
    apply token_ok_bytes in Hs as (_ & Hs & _), Hh as (_ & Hh & _). unfold text_bytes, maxRtcCandidateBytes in *.
    unfold candidate_entries. rewrite Hv. entry_sizes. rewrite Hs, Hh. change (zlen (utf8_encode rtcSignalingVersion)) with 28. lia. }
  eapply (exact_codec_intro maxRtcSignalingBodyBytes 1400).
  - intros v. vm_compute. discriminate.
  - intros b v Hb. apply (rtc_decode b _ _ read_candidate v Hb).
  - intros v Hv. pose proof Hv as (_ & Hs & _ & _ & Hh & _). unfold encodeRtcCandidate, decodeDigest.
    rewrite (validate_candidate v Hv), !decodeToken_ok by done. apply bounded_encoding_eq.
    + apply (codec_encodable (read := read_candidate) v Hv). vm_compute. discriminate.
    + etrans; [apply Z.add_le_mono_r, (Hsize v Hv) | vm_compute; discriminate].
  - done.
  - vm_compute. discriminate.
Qed.

Lemma cancel_exact : exact_codec cancel_ok encodeRtcCancel decodeRtcCancel.
Proof.
  assert (Hsize : forall v, cancel_ok v -> sum_lengths entry_size (cancel_entries v) <= 1400).
  { intros v (Hv & Hs & Hg & Hh & Hr). apply reason_text in Hr as (_ & Hr & _).
    apply token_ok_bytes in Hs as (_ & Hs & _), Hh as (_ & Hh & _). unfold text_bytes in *.
    unfold cancel_entries. rewrite Hv. entry_sizes. rewrite Hs, Hh. change (zlen (utf8_encode rtcSignalingVersion)) with 28. lia. }
  eapply (exact_codec_intro maxRtcSignalingBodyBytes 1400).
  - intros v. vm_compute. discriminate.
  - intros b v Hb. apply (rtc_decode b _ _ read_cancel v Hb).
  - intros v Hv. pose proof Hv as (_ & Hs & _ & Hh & _). unfold encodeRtcCancel, decodeDigest.
    rewrite (validate_cancel v Hv), !decodeToken_ok by done. apply bounded_encoding_eq.
    + apply (codec_encodable (read := read_cancel) v Hv). vm_compute. discriminate.
    + etrans; [apply Z.add_le_mono_r, (Hsize v Hv) | vm_compute; discriminate].
  - done.
  - vm_compute. discriminate.
Qed.

Lemma capabilities_exact : exact_codec capabilities_ok encodeRtcCapabilities decodeRtcCapabilities.
Proof.
  assert (Hsize : forall v, capabilities_ok v -> sum_lengths entry_size (capability_entries v) <= 400).
  { intros v (Hv & _). unfold capability_entries. rewrite Hv. entry_sizes.
    change (zlen (utf8_encode rtcSignalingVersion)) with 28. lia. }
  eapply (exact_codec_intro maxRtcSignalingBodyBytes 400).
  - intros v. vm_compute. discriminate.
  - intros b v Hb. apply (rtc_decode b _ _ read_capabilities v Hb).
  - intros v Hv. unfold encodeRtcCapabilities. rewrite (proj2 (validate_capabilities v) Hv). apply bounded_encoding_eq.
    + apply (codec_encodable (read := read_capabilities) v Hv). vm_compute. discriminate.
    + etrans; [apply Z.add_le_mono_r, (Hsize v Hv) | vm_compute; discriminate].
  - done.
  - vm_compute. discriminate.
Qed.

(** C28: each of the six WebRTC control bodies decodes exactly from its canonical
    encoding: a body is accepted when and only when it is the encoding of a
    record in range, every record in range can be encoded within the limit, and
    for offers, answers and restarts the hash in the body is the digest of the
    description in it.  Descriptions in range have at most 1024 bytes, the limit
    of a text in the codec. *)
Theorem rtc_codecs sha256 :
  exact_codec capabilities_ok (encodeBody rtcCapabilitiesControlDescriptor) (decodeBody rtcCapabilitiesControlDescriptor)
  /\ exact_codec (offer_ok sha256) (encodeBody (rtcOfferControlDescriptor sha256)) (decodeBody (rtcOfferControlDescriptor sha256))
  /\ exact_codec (answer_ok sha256) (encodeBody (rtcAnswerControlDescriptor sha256)) (decodeBody (rtcAnswerControlDescriptor sha256))
  /\ exact_codec candidate_ok (encodeBody rtcCandidateControlDescriptor) (decodeBody rtcCandidateControlDescriptor)
  /\ exact_codec (restart_ok sha256) (encodeBody (rtcRestartControlDescriptor sha256)) (decodeBody (rtcRestartControlDescriptor sha256))
  /\ exact_codec cancel_ok (encodeBody rtcCancelControlDescriptor) (decodeBody rtcCancelControlDescriptor).
Proof.
  split; [exact capabilities_exact |]. split; [apply offer_exact |]. split; [apply answer_exact |].
  split; [exact candidate_exact |]. split; [apply restart_exact | exact cancel_exact].
Qed.

(** An offer whose description has 1100 bytes is valid and encodes within the
    limit, but no peer can decode the body. *)
Definition long_offer : RtcOffer :=
  mkRtcOffer rtcSignalingVersion (encodeBase64URL (replicate 16 1)) 0 (replicate 1100 97) (encodeBase64URL (replicate 32 2))
    (encodeBase64URL (replicate 32 3)).

Lemma long_offer_lost :
  exists b, encodeRtcOffer (fun _ => replicate 32 2) long_offer = Ok b /\ zlen b = 1309
    /\ decodeRtcOffer (fun _ => replicate 32 2) b = Throw (js "invalid_cbor_text").
Proof. eexists. split; [vm_compute; reflexivity |]. split; vm_compute; reflexivity. Qed.
