(* ===== verification/RtcData.v ===== *)
(** * [connectivity/rtc-data.ts]: the frames of the peer-to-peer data channel *)
From S2P Require Import Prelude JsRuntime Collections Base64Url Cbor CborFacts Records NestedRecords SignedEvent SignedEventFacts RecordCodecs.

Definition rtcDataVersion : jsstring := js "branch.rtc.data/0.draft".
Definition maxRtcDataCiphertextBytes : Z := 6 * 1024.
Definition maxRtcDataFrameBytes : Z := 8 * 1024.
Definition maxRtcAdmitFrameBytes : Z := 256.

Module Data.
Record RtcData := mk {
  kind : jsstring;
  version : jsstring;
  rtcSessionId : jsstring;
  originRouteId : jsstring;
  pathEpoch : Z;
  streamId : Z;
  deliveryId : jsstring;
  ackRequested : bool;
  ciphertext : jsstring;
}.
End Data.
Abbreviation RtcData := Data.RtcData.

Module Admit.
Record RtcAdmit := mk {
  kind : jsstring;
  version : jsstring;
  rtcSessionId : jsstring;
  deliveryId : jsstring;
}.
End Admit.
Abbreviation RtcAdmit := Admit.RtcAdmit.

Inductive RtcDataFrame : Type := data_frame (value : RtcData) | admit_frame (value : RtcAdmit).

(** ** Checks *)

Definition validCiphertext (value : jsstring) : bool :=
  match decodeBase64URL value with
  | Ok b => (0 <? zlen b) && (zlen b <=? maxRtcDataCiphertextBytes)
  | Throw _ => false
  end.

Definition validSequence (value : Z) : bool := is_safe value && (0 <=? value).

Definition decodeDataToken (value : jsstring) (size : Z) (label : jsstring) : result bytes :=
  match decodeBase64URL value with
  | Ok b => if negb (zlen b =? size) then Throw (js "invalid " ++ label) else Ok b
  | Throw _ => Throw (js "invalid " ++ label)
  end.

Definition decodeCiphertext (value : jsstring) : result bytes :=
  match decodeBase64URL value with
  | Ok b => if maxRtcDataCiphertextBytes <? zlen b then Throw (js "invalid ciphertext") else Ok b
  | Throw _ => Throw (js "invalid ciphertext")
  end.

Definition validateRtcData (value : RtcData) : result unit :=
  if negb (str_eqb (Data.kind value) (js "data"))
     || negb (str_eqb (Data.version value) rtcDataVersion)
     || negb (validToken (Data.rtcSessionId value) 16)
     || negb (validToken (Data.originRouteId value) 16)
     || negb (validSequence (Data.pathEpoch value))
     || negb (validSequence (Data.streamId value))
     || negb (validToken (Data.deliveryId value) 16)
     || negb (validCiphertext (Data.ciphertext value))
  then Throw (js "invalid rtc data") else Ok tt.

Definition validateRtcAdmit (value : RtcAdmit) : result unit :=
  if negb (str_eqb (Admit.kind value) (js "admit"))
     || negb (str_eqb (Admit.version value) rtcDataVersion)
     || negb (validToken (Admit.rtcSessionId value) 16)
     || negb (validToken (Admit.deliveryId value) 16)
  then Throw (js "invalid rtc admit") else Ok tt.

(** ** Reading fields *)

Definition underscored (label : jsstring) : jsstring := (fun c => if c =? 32 then 95 else c) <$> label.

Definition strictDataMap (b : bytes) (label : jsstring) (maximumBytes : Z) (dataKeys : list jsstring)
    (admitKeys : option (list jsstring)) : result CborMap :=
  if (zlen b =? 0) || (maximumBytes <? zlen b) then Throw (js "invalid " ++ label ++ js " size")
  else
    let? decoded := decodeDeterministicCbor b maximumBytes in
    let? map := readCborMap decoded (underscored label) in
    let? kind := text_field map (js "kind") in
    let? _ :=
      if str_eqb kind (js "data") then rejectUnknownEntries map dataKeys
      else if str_eqb kind (js "admit") then
        match admitKeys with
        | Some admitKeys => rejectUnknownEntries map admitKeys
        | None => Throw (js "invalid rtc data kind")
        end
      else Throw (js "unknown rtc data kind") in
    Ok map.

Definition encodeBounded (map : CborMap) (maximumBytes : Z) (label : jsstring) : result bytes :=
  let? b := encodeDeterministicCbor (CMap map) in
  if maximumBytes <? zlen b then Throw (label ++ js " too large") else Ok b.

Definition readKind (map : CborMap) (expected : jsstring) : result jsstring :=
  let? kind := text_field map (js "kind") in
  if negb (str_eqb kind expected) then Throw (js "invalid rtc data kind") else Ok expected.

Definition readDataVersion (map : CborMap) : result jsstring :=
  let? text := text_field map (js "version") in
  if negb (str_eqb text rtcDataVersion) then Throw (js "unsupported rtc data version") else Ok rtcDataVersion.

Definition boundedCiphertextFromMap (map : CborMap) : result jsstring :=
  let? ciphertext := bytes_field map (js "ciphertext") None in
  if maxRtcDataCiphertextBytes <? zlen ciphertext then Throw (js "invalid ciphertext")
  else Ok (encodeBase64URL ciphertext).

Definition readSequence (map : CborMap) (key : jsstring) : result Z :=
  let? value := number_field map key in
  if negb (validSequence value) then Throw (js "invalid " ++ key) else Ok value.

Definition boolean_field (map : CborMap) (key : jsstring) : result bool :=
  let? value := getRequiredEntry map key in readBoolean value key.

(** ** The codecs *)

Definition dataKeys : list jsstring :=
  [js "kind"; js "version"; js "rtc_session_id"; js "origin_route_id"; js "path_epoch"; js "stream_id"; js "delivery_id";
   js "ack_requested"; js "ciphertext"].
Definition admitKeys : list jsstring := [js "kind"; js "version"; js "rtc_session_id"; js "delivery_id"].

Definition dataMap (value : RtcData) : result CborMap :=
  let? session := decodeDataToken (Data.rtcSessionId value) 16 (js "rtc session id") in
  let? route := decodeDataToken (Data.originRouteId value) 16 (js "origin route id") in
  let? delivery := decodeDataToken (Data.deliveryId value) 16 (js "delivery id") in
  let? ciphertext := decodeCiphertext (Data.ciphertext value) in
  Ok [(js "kind", CText (Data.kind value)); (js "version", CText (Data.version value));
      (js "rtc_session_id", CBytes session); (js "origin_route_id", CBytes route);
      (js "path_epoch", CNum (Int (Data.pathEpoch value))); (js "stream_id", CNum (Int (Data.streamId value)));
      (js "delivery_id", CBytes delivery); (js "ack_requested", CBool (Data.ackRequested value));
      (js "ciphertext", CBytes ciphertext)].

Definition encodeRtcData (value : RtcData) : result bytes :=
  let? _ := validateRtcData value in
  let? map := dataMap value in
  encodeBounded map maxRtcDataFrameBytes (js "rtc data").

(** The fields of a data frame, read and validated. *)
Definition read_data (map : CborMap) : result RtcData :=
  let? kind := readKind map (js "data") in
  let? version := readDataVersion map in
  let? session := token_field map (js "rtc_session_id") 16 in
  let? route := token_field map (js "origin_route_id") 16 in
  let? pathEpoch := readSequence map (js "path_epoch") in
  let? streamId := readSequence map (js "stream_id") in
  let? delivery := token_field map (js "delivery_id") 16 in
  let? ackRequested := boolean_field map (js "ack_requested") in
  let? ciphertext := boundedCiphertextFromMap map in
  let value := Data.mk kind version session route pathEpoch streamId delivery ackRequested ciphertext in
  let? _ := validateRtcData value in
  Ok value.

Definition decodeRtcData (b : bytes) : result RtcData :=
  let? map := strictDataMap b (js "rtc data") maxRtcDataFrameBytes dataKeys None in
  read_data map.

Definition encodeRtcAdmit (value : RtcAdmit) : result bytes :=
  let? _ := validateRtcAdmit value in
  let? session := decodeDataToken (Admit.rtcSessionId value) 16 (js "rtc session id") in
  let? delivery := decodeDataToken (Admit.deliveryId value) 16 (js "delivery id") in
  encodeBounded
    [(js "kind", CText (Admit.kind value)); (js "version", CText (Admit.version value));
     (js "rtc_session_id", CBytes session); (js "delivery_id", CBytes delivery)] maxRtcAdmitFrameBytes (js "rtc admit").

Definition read_admit (map : CborMap) : result RtcAdmit :=
  let? kind := readKind map (js "admit") in
  let? version := readDataVersion map in
  let? session := token_field map (js "rtc_session_id") 16 in
  let? delivery := token_field map (js "delivery_id") 16 in
  let value := Admit.mk kind version session delivery in
  let? _ := validateRtcAdmit value in
  Ok value.

Definition decodeRtcAdmit (b : bytes) : result RtcAdmit :=
  let? map := strictDataMap b (js "rtc admit") maxRtcAdmitFrameBytes admitKeys (Some admitKeys) in
  read_admit map.

Definition decodeRtcDataFrame (b : bytes) : result RtcDataFrame :=
  let? map := strictDataMap b (js "rtc data frame") maxRtcDataFrameBytes dataKeys (Some admitKeys) in
  let? kind := text_field map (js "kind") in
  if str_eqb kind (js "data") then let? value := decodeRtcData b in Ok (data_frame value)
  else if str_eqb kind (js "admit") then let? value := decodeRtcAdmit b in Ok (admit_frame value)
  else Throw (js "unknown rtc data kind").

(** ** Fields *)

(** The bytes of a ciphertext, in canonical form. *)
Definition ciphertext_ok (t : jsstring) : Prop :=
  canonical_token t = true /\ exists b, decodeBase64URL t = Ok b /\ 0 < zlen b <= maxRtcDataCiphertextBytes.

Lemma ciphertext_bytes t : ciphertext_ok t ->
  decodeBase64URL t = Ok (token_bytes t) /\ 0 < zlen (token_bytes t) <= maxRtcDataCiphertextBytes
  /\ bytes_ok (token_bytes t) /\ encodeBase64URL (token_bytes t) = t.
Proof.
  intros (Hc & b & Hd & Hl). unfold token_bytes. rewrite Hd. destruct (canonical_token_eq t b Hc Hd). done.
Qed.

Definition data_ok (d : RtcData) : Prop :=
  Data.kind d = js "data" /\ Data.version d = rtcDataVersion /\ token_ok 16 (Data.rtcSessionId d)
  /\ token_ok 16 (Data.originRouteId d) /\ 0 <= Data.pathEpoch d <= MAX_SAFE_INTEGER
  /\ 0 <= Data.streamId d <= MAX_SAFE_INTEGER /\ token_ok 16 (Data.deliveryId d) /\ ciphertext_ok (Data.ciphertext d).

Definition admit_ok (a : RtcAdmit) : Prop :=
  Admit.kind a = js "admit" /\ Admit.version a = rtcDataVersion /\ token_ok 16 (Admit.rtcSessionId a)
  /\ token_ok 16 (Admit.deliveryId a).

Definition data_entries (d : RtcData) : CborMap :=
  [(js "kind", CText (Data.kind d)); (js "version", CText (Data.version d));
   (js "rtc_session_id", CBytes (token_bytes (Data.rtcSessionId d)));
   (js "origin_route_id", CBytes (token_bytes (Data.originRouteId d)));
   (js "path_epoch", CNum (Int (Data.pathEpoch d))); (js "stream_id", CNum (Int (Data.streamId d)));
   (js "delivery_id", CBytes (token_bytes (Data.deliveryId d))); (js "ack_requested", CBool (Data.ackRequested d));
   (js "ciphertext", CBytes (token_bytes (Data.ciphertext d)))].

Definition admit_entries (a : RtcAdmit) : CborMap :=
  [(js "kind", CText (Admit.kind a)); (js "version", CText (Admit.version a));
   (js "rtc_session_id", CBytes (token_bytes (Admit.rtcSessionId a)));
   (js "delivery_id", CBytes (token_bytes (Admit.deliveryId a)))].

Lemma data_word_text s : s ∈ [js "data"; js "admit"; rtcDataVersion] -> text_ok maxCborTextBytes s.
Proof. intros Hs. each_key Hs; (split; [discriminate |]; split; [vm_compute; discriminate | closed]). Qed.

Lemma readDataKind_Ok es k v :
  text_ok maxCborTextBytes k -> readKind es k = Ok v <-> v = k /\ map_get es (js "kind") = Some (CText k).
Proof.
  intros Hk. unfold readKind. split.
  - intros H. step H as t Et. destruct (str_eqb t k) eqn:E; [| done]. injection H as <-. apply str_eqb_true in E as ->.
    by apply text_field_Ok in Et as [? _].
  - intros [-> Hg]. rewrite (text_field_written es _ k Hk Hg). by rewrite str_eqb_refl.
Qed.

Lemma readDataVersion_Ok es v :
  readDataVersion es = Ok v <-> v = rtcDataVersion /\ map_get es (js "version") = Some (CText v).
Proof.
  unfold readDataVersion. split.
  - intros H. step H as t Et. destruct (str_eqb t rtcDataVersion) eqn:E; [| done]. injection H as <-.
    apply str_eqb_true in E as ->. by apply text_field_Ok in Et as [? _].
  - intros [-> Hg]. rewrite (text_field_written es _ rtcDataVersion); [by rewrite str_eqb_refl | | done].
    apply data_word_text. set_solver.
Qed.

Lemma validSequence_true z : validSequence z = true <-> 0 <= z <= MAX_SAFE_INTEGER.
Proof. unfold validSequence, is_safe. split; intros H; [bool_props; lia |]. lia. Qed.

Lemma readSequence_Ok es key z :
  readSequence es key = Ok z <-> 0 <= z <= MAX_SAFE_INTEGER /\ map_get es key = Some (CNum (Int z)).
Proof.
  unfold readSequence. split.
  - intros H. step H as n En. case_match; [done |]. injection H as ->. by apply number_field_read.
  - intros [Hz Hg]. rewrite (number_field_written es key z Hz Hg). by rewrite (proj2 (validSequence_true z) Hz).
Qed.

Lemma boolean_field_Ok es key v : boolean_field es key = Ok v <-> map_get es key = Some (CBool v).
Proof.
  unfold boolean_field. split.
  - intros H. step H as x Ex. apply getRequiredEntry_Ok in Ex. rewrite Ex. destruct x; try done. by injection H as ->.
  - intros Hg. by rewrite (proj2 (getRequiredEntry_Ok _ _ _) Hg).
Qed.

Lemma ciphertext_read es t :
  encodable (CMap es) = true -> boundedCiphertextFromMap es = Ok t ->
  ciphertext_ok t /\ map_get es (js "ciphertext") = Some (CBytes (token_bytes t)).
Proof.
  intros He H. unfold boundedCiphertextFromMap in H. step H as c Ec.
  destruct (Z.ltb_spec maxRtcDataCiphertextBytes (zlen c)) as [|Hle]; [done |]. injection H as <-.
  destruct (bytes_field_sound es _ _ c He Ec) as [Hg Hb]. apply bytes_field_Ok in Ec as (_ & Hl & _).
  destruct (token_written c Hb) as (Hd & Hc & _); [lia |]. unfold token_bytes. rewrite Hd.
  split; [split; [done | exists c; split; [done | lia]] | done].
Qed.

Lemma ciphertext_field_written es t :
  ciphertext_ok t -> map_get es (js "ciphertext") = Some (CBytes (token_bytes t)) -> boundedCiphertextFromMap es = Ok t.
Proof.
  intros (Hd & Hl & Hb & He)%ciphertext_bytes Hg. unfold boundedCiphertextFromMap.
  rewrite (proj2 (bytes_field_Ok es _ None (token_bytes t)))
    by (split; [done |]; unfold maxRtcDataCiphertextBytes, maxCborBytes in *; split; [lia | done]).
  test (maxRtcDataCiphertextBytes <? zlen (token_bytes t)) false. by rewrite He.
Qed.

Lemma decodeDataToken_ok n t label : token_ok n t -> decodeDataToken t n label = Ok (token_bytes t).
Proof.
  intros (Hd & Hl & _)%token_ok_bytes. unfold decodeDataToken. rewrite Hd. by test (zlen (token_bytes t) =? n) true.
Qed.

Lemma validate_data d : data_ok d -> validateRtcData d = Ok tt.
Proof.
  intros (Hk & Hv & [_ Hs] & [_ Hr] & He & Hst & [_ Hd] & Hc). unfold validateRtcData, validCiphertext.
  apply ciphertext_bytes in Hc as (Hc & Hcl & _). rewrite Hk, Hv, !str_eqb_refl, Hs, Hr, Hd, Hc.
  rewrite (proj2 (validSequence_true _) He), (proj2 (validSequence_true _) Hst).
  by test ((0 <? zlen (token_bytes (Data.ciphertext d))) && (zlen (token_bytes (Data.ciphertext d)) <=? maxRtcDataCiphertextBytes)) true.
Qed.

Lemma validate_admit a : admit_ok a -> validateRtcAdmit a = Ok tt.
Proof. intros (Hk & Hv & [_ Hs] & [_ Hd]). unfold validateRtcAdmit. by rewrite Hk, Hv, !str_eqb_refl, Hs, Hd. Qed.

(** ** Exactness *)

Lemma data_text : text_ok maxCborTextBytes (js "data").
Proof. apply data_word_text. set_solver. Qed.

Lemma admit_text : text_ok maxCborTextBytes (js "admit").
Proof. apply data_word_text. set_solver. Qed.

(** The bound on the input only bounds. *)
Lemma decode_within b m m' v :
  bytes_ok b -> decodeDeterministicCbor b m = Ok v -> zlen b <= m' -> decodeDeterministicCbor b m' = Ok v.
Proof.
  intros Hb Hd Hl. apply decode_Ok in Hd as (_ & He & Hc & Hv); [| done]. rewrite (encode_total v He) in Hv.
  injection Hv as <-. rewrite <- Hc at 2. by apply decode_enc.
Qed.

#[export] Instance data_codec : RecordCodec dataKeys data_entries read_data data_ok.
Proof.
  split.
  - intros v. split; [apply (bool_decide_eq_true_1 (NoDup _)); closed |].
    split; apply (bool_decide_eq_true_1 (Forall _ _)); closed.
  - intros v (Hk & Hv & Hs & Hr & He & Hst & Hd & Hc). apply ciphertext_bytes in Hc as (_ & Hcl & Hcb & _).
    unfold data_entries. repeat (apply Forall_cons; split); cbn [snd].
    + rewrite Hk. apply (text_good maxCborTextBytes); [done |]. apply data_word_text. set_solver.
    + rewrite Hv. apply (text_good maxCborTextBytes); [done |]. apply data_word_text. set_solver.
    + by apply (token_good 16).
    + by apply (token_good 16).
    + by apply number_good.
    + by apply number_good.
    + by apply (token_good 16).
    + by split.
    + apply good_bytes; [done |]. unfold maxRtcDataCiphertextBytes, maxCborBytes in *. lia.
    + by apply Forall_nil.
  - intros es v He H. unfold read_data in H. step H as k Ek. step H as ve Ev. step H as s Es. step H as r Er.
    step H as p Ep. step H as st Est. step H as d Ed. step H as a Ea. step H as c Ec. step H as [] Eval. injection H as <-.
    apply readDataKind_Ok in Ek as [-> Ek]; [| apply data_word_text; set_solver]. apply readDataVersion_Ok in Ev as [-> Ev].
    apply token_field_read in Es as [Hs Es], Er as [Hr Er], Ed as [Hd Ed]; [| lia || done..].
    apply readSequence_Ok in Ep as [Hp Ep], Est as [Hst Est]. apply boolean_field_Ok in Ea.
    apply ciphertext_read in Ec as [Hc Ec]; [| done].
    split; [done |]. intros k Hin. unfold dataKeys in Hin. each_key Hin; done.
  - intros es v Hok Hg. pose proof (validate_data v Hok) as Hval. destruct Hok as (Hk & Hv & Hs & Hr & He & Hst & Hd & Hc).
    unfold read_data.
    rewrite (proj2 (readDataKind_Ok es (js "data") (Data.kind v) data_text))
      by (split; [done | rewrite Hg; [by rewrite <- Hk | set_solver]]).
    rewrite (proj2 (readDataVersion_Ok es (Data.version v))) by (rewrite Hg; [done | set_solver]).
    rewrite (token_field_written es _ 16 (Data.rtcSessionId v)) by first [done | rewrite Hg; [done | set_solver]].
    rewrite (token_field_written es _ 16 (Data.originRouteId v)) by first [done | rewrite Hg; [done | set_solver]].
    rewrite (proj2 (readSequence_Ok es _ (Data.pathEpoch v))) by (rewrite Hg; [done | set_solver]).
    rewrite (proj2 (readSequence_Ok es _ (Data.streamId v))) by (rewrite Hg; [done | set_solver]).
    rewrite (token_field_written es _ 16 (Data.deliveryId v)) by first [done | rewrite Hg; [done | set_solver]].
    rewrite (proj2 (boolean_field_Ok es _ (Data.ackRequested v))) by (rewrite Hg; [done | set_solver]).
    rewrite (ciphertext_field_written es (Data.ciphertext v)) by first [done | rewrite Hg; [done | set_solver]].
    destruct v. cbn in *. by rewrite Hval.
Qed.

#[export] Instance admit_codec : RecordCodec admitKeys admit_entries read_admit admit_ok.
Proof.
  split.
  - intros v. split; [apply (bool_decide_eq_true_1 (NoDup _)); closed |].
    split; apply (bool_decide_eq_true_1 (Forall _ _)); closed.
  - intros v (Hk & Hv & Hs & Hd). unfold admit_entries. repeat (apply Forall_cons; split); cbn [snd].
    + rewrite Hk. apply (text_good maxCborTextBytes); [done |]. apply data_word_text. set_solver.
    + rewrite Hv. apply (text_good maxCborTextBytes); [done |]. apply data_word_text. set_solver.
    + by apply (token_good 16).
    + by apply (token_good 16).
    + by apply Forall_nil.
  - intros es v He H. unfold read_admit in H. step H as k Ek. step H as ve Ev. step H as s Es. step H as d Ed.
    step H as [] Eval. injection H as <-.
    apply readDataKind_Ok in Ek as [-> Ek]; [| apply data_word_text; set_solver]. apply readDataVersion_Ok in Ev as [-> Ev].
    apply token_field_read in Es as [Hs Es], Ed as [Hd Ed]; [| lia || done..].
    split; [done |]. intros k Hin. unfold admitKeys in Hin. each_key Hin; done.
  - intros es v Hok Hg. pose proof (validate_admit v Hok) as Hval. destruct Hok as (Hk & Hv & Hs & Hd). unfold read_admit.
    rewrite (proj2 (readDataKind_Ok es (js "admit") (Admit.kind v) admit_text))
      by (split; [done | rewrite Hg; [by rewrite <- Hk | set_solver]]).
    rewrite (proj2 (readDataVersion_Ok es (Admit.version v))) by (rewrite Hg; [done | set_solver]).
    rewrite (token_field_written es _ 16 (Admit.rtcSessionId v)) by first [done | rewrite Hg; [done | set_solver]].
    rewrite (token_field_written es _ 16 (Admit.deliveryId v)) by first [done | rewrite Hg; [done | set_solver]].
    destruct v. cbn in *. by rewrite Hval.
Qed.

(** The strict reading, by the kind of the frame. *)
Lemma strictDataMap_Ok b label max dk ak es :
  bytes_ok b ->
  strictDataMap b label max dk ak = Ok es <->
  decodeDeterministicCbor b max = Ok (CMap es) /\
  (text_field es (js "kind") = Ok (js "data") /\ rejectUnknownEntries es dk = Ok tt
   \/ text_field es (js "kind") = Ok (js "admit") /\ exists ks, ak = Some ks /\ rejectUnknownEntries es ks = Ok tt).
Proof.
  intros Hb. unfold strictDataMap. split.
  - case_match; [done |]. intros Hr. step Hr as d Ed. step Hr as m Em. step Hr as k Ek. step Hr as [] Eu. injection Hr as ->.
    apply readCborMap_Ok in Em as ->. split; [done |].
    destruct (str_eqb k (js "data")) eqn:E1; [apply str_eqb_true in E1 as ->; by left |].
    destruct (str_eqb k (js "admit")) eqn:E2; [| done]. apply str_eqb_true in E2 as ->. right. split; [done |].
    destruct ak as [ks|]; [| done]. by exists ks.
  - intros [Hd Hk]. pose proof (decode_Ok _ _ _ Hb Hd) as (Hl & _).
    test ((zlen b =? 0) || (max <? zlen b)) false. rewrite Hd. cbn [readCborMap].
    destruct Hk as [[Hk Hu]|[Hk (ks & -> & Hu)]]; rewrite Hk.
    + rewrite str_eqb_refl. by rewrite Hu.
    + replace (str_eqb (js "admit") (js "data")) with false by closed. rewrite str_eqb_refl. by rewrite Hu.
Qed.

Lemma kind_of es expected v : readKind es expected = Ok v -> text_field es (js "kind") = Ok expected.
Proof.
  unfold readKind. intros H. step H as t Et. destruct (str_eqb t expected) eqn:E; [| done]. by apply str_eqb_true in E as ->.
Qed.

Lemma decode_data b v :
  bytes_ok b ->
  decodeRtcData b = Ok v <->
  exists es, decodeDeterministicCbor b maxRtcDataFrameBytes = Ok (CMap es)
    /\ rejectUnknownEntries es dataKeys = Ok tt /\ read_data es = Ok v.
Proof.
  intros Hb. unfold decodeRtcData. split.
  - intros H. step H as es Es. apply strictDataMap_Ok in Es as [Hd [[Hk Hu]|[_ (ks & E & _)]]]; [| done..]. by exists es.
  - intros (es & Hd & Hu & Hr). rewrite (proj2 (strictDataMap_Ok b _ maxRtcDataFrameBytes dataKeys None es Hb)); [done |].
    split; [done |]. left. split; [| done]. pose proof Hr as Hk. unfold read_data in Hk. step Hk as k Ek. by apply kind_of in Ek.
Qed.

Lemma decode_admit b v :
  bytes_ok b ->
  decodeRtcAdmit b = Ok v <->
  exists es, decodeDeterministicCbor b maxRtcAdmitFrameBytes = Ok (CMap es)
    /\ rejectUnknownEntries es admitKeys = Ok tt /\ read_admit es = Ok v.
Proof.
  intros Hb. unfold decodeRtcAdmit. split.
  - intros H. step H as es Es. apply strictDataMap_Ok in Es as [Hd [[_ Hu]|[_ (ks & [= <-] & Hu)]]]; [by exists es | by exists es | done].
  - intros (es & Hd & Hu & Hr).
    rewrite (proj2 (strictDataMap_Ok b _ maxRtcAdmitFrameBytes admitKeys (Some admitKeys) es Hb)); [done |].
    split; [done |]. right. pose proof Hr as Hk. unfold read_admit in Hk. step Hk as k Ek. apply kind_of in Ek.
    split; [done |]. by exists admitKeys.
Qed.

Lemma encode_bounded_eq es max label :
  encodable (CMap es) = true -> sum_lengths entry_size es + 3 <= max ->
  encodeBounded es max label = encodeDeterministicCbor (CMap es).
Proof.
  intros He Hs. unfold encodeBounded. rewrite (encode_total _ He).
  pose proof (record_size es _ He (encode_total _ He)). by test (max <? zlen (enc (CMap es))) false.
Qed.

Lemma data_exact : exact_codec data_ok encodeRtcData decodeRtcData.
Proof.
  assert (Hsize : forall v, data_ok v -> sum_lengths entry_size (data_entries v) <= 7000).
  { intros v (Hk & Hv & Hs & Hr & _ & _ & Hd & Hc). apply ciphertext_bytes in Hc as (_ & Hc & _).
    apply token_ok_bytes in Hs as (_ & Hs & _), Hr as (_ & Hr & _), Hd as (_ & Hd & _).
    unfold data_entries, maxRtcDataCiphertextBytes in *. rewrite Hk, Hv. entry_sizes. rewrite Hs, Hr, Hd.
    change (zlen (utf8_encode rtcDataVersion)) with 23. change (zlen (utf8_encode (js "data"))) with 4. lia. }
  eapply (exact_codec_intro maxRtcDataFrameBytes 7000).
  - intros v. vm_compute. discriminate.
  - intros b v Hb. by apply decode_data.
  - intros v Hv. pose proof Hv as (_ & _ & Hs & Hr & _ & _ & Hd & Hc). unfold encodeRtcData, dataMap.
    rewrite (validate_data v Hv), !decodeDataToken_ok by done. unfold decodeCiphertext.
    apply ciphertext_bytes in Hc as (Hc & Hcl & _). rewrite Hc.
    test (maxRtcDataCiphertextBytes <? zlen (token_bytes (Data.ciphertext v))) false. apply encode_bounded_eq.
    + apply (codec_encodable (read := read_data) v Hv). vm_compute. discriminate.
    + etrans; [apply Z.add_le_mono_r, (Hsize v Hv) | vm_compute; discriminate].
  - done.
  - vm_compute. discriminate.
Qed.

Lemma admit_exact : exact_codec admit_ok encodeRtcAdmit decodeRtcAdmit.
Proof.
  assert (Hsize : forall v, admit_ok v -> sum_lengths entry_size (admit_entries v) <= 240).
  { intros v (Hk & Hv & Hs & Hd). apply token_ok_bytes in Hs as (_ & Hs & _), Hd as (_ & Hd & _).
    unfold admit_entries. rewrite Hk, Hv. entry_sizes. rewrite Hs, Hd.
    change (zlen (utf8_encode rtcDataVersion)) with 23. change (zlen (utf8_encode (js "admit"))) with 5. lia. }
  eapply (exact_codec_intro maxRtcAdmitFrameBytes 240).
  - intros v. vm_compute. discriminate.
  - intros b v Hb. by apply decode_admit.
  - intros v Hv. pose proof Hv as (_ & _ & Hs & Hd). unfold encodeRtcAdmit.
    rewrite (validate_admit v Hv), !decodeDataToken_ok by done. apply encode_bounded_eq.
    + apply (codec_encodable (read := read_admit) v Hv). vm_compute. discriminate.
    + etrans; [apply Z.add_le_mono_r, (Hsize v Hv) | vm_compute; discriminate].
  - done.
  - vm_compute. discriminate.
Qed.

Definition frame_ok (f : RtcDataFrame) : Prop :=
  match f with data_frame d => data_ok d | admit_frame a => admit_ok a end.

Definition encode_frame (f : RtcDataFrame) : result bytes :=
  match f with data_frame d => encodeRtcData d | admit_frame a => encodeRtcAdmit a end.

(** what arrives on the data channel is read as a data or an admission frame
    exactly when it is the canonical encoding of one in range: 16-byte tokens,
    safe sequence numbers and at most 6 KiB of ciphertext; every such frame can
    be encoded, within 8 KiB for data and 256 bytes for an admission. *)
Theorem data_frames : exact_codec frame_ok encode_frame decodeRtcDataFrame.
Proof.
  destruct data_exact as [Hd Hde], admit_exact as [Ha Hae].
  split; [| intros [d|a] Hf; [by apply Hde | by apply Hae]].
  intros b f. split.
  - intros [Hb H]. unfold decodeRtcDataFrame in H. step H as es Es. step H as k Ek.
    destruct (str_eqb k (js "data")); [| destruct (str_eqb k (js "admit")); [| done]].
    + step H as d Ed. injection H as <-. by apply Hd.
    + step H as a Ea. injection H as <-. by apply Ha.
  - destruct f as [d|a]; cbn [frame_ok encode_frame]; intros [Hok He].
    + destruct (proj2 (Hd b d)) as [Hb Hdec]; [done |]. split; [done |].
      pose proof (proj1 (decode_data b d Hb) Hdec) as (es & Hes & Hu & Hr).
      pose proof Hr as Hk. unfold read_data in Hk. step Hk as k Ek. apply kind_of in Ek. unfold decodeRtcDataFrame.
      rewrite (proj2 (strictDataMap_Ok b _ maxRtcDataFrameBytes dataKeys (Some admitKeys) es Hb)) by (split; [done | by left]).
      rewrite Ek, str_eqb_refl. by rewrite Hdec.
    + destruct (proj2 (Ha b a)) as [Hb Hdec]; [done |]. split; [done |].
      pose proof (proj1 (decode_admit b a Hb) Hdec) as (es & Hes & Hu & Hr).
      pose proof Hr as Hk. unfold read_admit in Hk. step Hk as k Ek. apply kind_of in Ek. unfold decodeRtcDataFrame.
      rewrite (proj2 (strictDataMap_Ok b _ maxRtcDataFrameBytes dataKeys (Some admitKeys) es Hb)).
      * rewrite Ek. replace (str_eqb (js "admit") (js "data")) with false by closed. rewrite str_eqb_refl. by rewrite Hdec.
      * split; [| right; split; [done | by exists admitKeys]].
        apply (decode_within b maxRtcAdmitFrameBytes); [done | done |].
        pose proof (decode_Ok _ _ _ Hb Hes). unfold maxRtcAdmitFrameBytes, maxRtcDataFrameBytes in *. lia.
Qed.
