(* ===== verification/BootstrapBeacon.v ===== *)
(** * [protocol/v0/bootstrap-beacon.ts]: the signed beacon of a relay

    The envelope is in [SignedEvent].  The clock, the random identifiers, the key
    pair and the signature are arguments. *)
From S2P Require Import Prelude JsRuntime Collections Base64Url Cbor CborFacts Records Json Envelope RelayAttachment SignedEvent.

Definition maxRelayEndpoints : Z := 8.
Definition maxRelayEndpointUriBytes : Z := 512.
Definition maxRelayEndpointTransportBytes : Z := 32.
Definition maxBootstrapNameBytes : Z := 128.

Definition defaultBootstrapRelayEndpointUri : jsstring := js "wss://branch.undoo.ru:443/relay/v0".
Definition defaultBootstrapProfileMultihashes : list jsstring := [developmentProfileMultihash].
Definition defaultBootstrapRelayCapabilities : list jsstring := [js "relay.forward.live/0"; js "route.relay.wss/0"].

Definition bootstrapBeaconType : jsstring := js "bootstrap.beacon".

Definition beaconReasons : list jsstring :=
  [js "malformed_wrapper"; js "envelope_oversized"; js "invalid_base64url"; js "invalid_cbor"; js "non_canonical_cbor";
   js "unsupported_protocol"; js "unsupported_event_type"; js "recipient_tag_present"; js "invalid_payload_mode";
   js "invalid_sender"; js "invalid_signature_alg"; js "signature_invalid"; js "expired"; js "created_in_future";
   js "payload_oversized"; js "payload_invalid"; js "payload_expiry_mismatch"; js "payload_issued_after_created"].

Module Endpoint.
Record BootstrapRelayEndpoint := mk { transport : jsstring; uri : jsstring; priority : Z }.
End Endpoint.
Abbreviation BootstrapRelayEndpoint := Endpoint.BootstrapRelayEndpoint.

Module Beacon.
Record BootstrapBeaconPayload := mk {
  beaconId : bytes;
  sequence : Z;
  issuedAt : Z;
  expiresAt : Z;
  previousBeaconId : option bytes;
  protocolVersions : list jsstring;
  profileMultihashes : list jsstring;
  relayCapabilities : list jsstring;
  relayEndpoints : list BootstrapRelayEndpoint;
}.
End Beacon.
Abbreviation BootstrapBeaconPayload := Beacon.BootstrapBeaconPayload.

Record SignedBootstrapBeacon := mkSignedBeacon {
  beaconWrapper : jsstring;
  beaconEventBytes : bytes;
  beaconSignatureInput : bytes;
  beaconEnvelope : SignedEnvelope;
  beaconPayload : BootstrapBeaconPayload;
}.

Section Beacons.
Context (parse_URL : jsstring -> option URL).

(** ** The payload *)

(** The fields of one entry in [readRelayEndpoints]. *)
Definition read_endpoint (entry : CborValue) : result BootstrapRelayEndpoint :=
  let? endpointMap := readCborMap entry (js "relay_endpoint") in
  let? _ := rejectUnknownEntries endpointMap [js "transport"; js "uri"; js "priority"] in
  let? transportValue := getRequiredEntry endpointMap (js "transport") in
  let? transport := readBoundedTransport maxRelayEndpointTransportBytes transportValue in
  let? uriValue := getRequiredEntry endpointMap (js "uri") in
  let? uri := readBoundedUri maxRelayEndpointUriBytes uriValue in
  let? priority := number_field endpointMap (js "priority") in
  Ok (Endpoint.mk transport uri priority).

Definition endpoint_key (e : BootstrapRelayEndpoint) : jsstring := Endpoint.transport e ++ [0] ++ Endpoint.uri e.

Definition is_wss (e : BootstrapRelayEndpoint) : bool := str_eqb (Endpoint.transport e) (js "wss").

Definition check_endpoint (e : BootstrapRelayEndpoint) : result unit :=
  if is_wss e then validateWssEndpointUri parse_URL (Endpoint.uri e) else Ok tt.

Definition readRelayEndpoints (value : CborValue) : result (list BootstrapRelayEndpoint) :=
  match value with
  | CArray vs =>
      if (zlen vs =? 0) || (maxRelayEndpoints <? zlen vs) then Throw (js "payload_invalid")
      else
        let? endpoints := ordered_items read_endpoint Endpoint.priority endpoint_key check_endpoint (-1) [] vs in
        if negb (existsb is_wss endpoints) then Throw (js "payload_invalid") else Ok endpoints
  | _ => Throw (js "payload_invalid")
  end.

(** [remaining] is [4 - depth]. *)
Fixpoint validateBoundedPublicValue (remaining : nat) (value : CborValue) : result unit :=
  match remaining with
  | O => Throw (js "payload_invalid")
  | S remaining =>
      match value with
      | CNum _ => let? _ := readUint value (js "public_value") in Ok tt
      | CText _ => let? _ := readText value (js "public_value") in Ok tt
      | CBytes _ => let? _ := readBytes value (js "public_value") None in Ok tt
      | CArray vs =>
          if 16 <? zlen vs then Throw (js "payload_invalid")
          else each_result (validateBoundedPublicValue remaining) vs
      | CMap es =>
          if 16 <? zlen es then Throw (js "payload_invalid")
          else each_result (fun e => let? _ := readText (CText e.1) (js "public_key") in
                                     validateBoundedPublicValue remaining e.2) es
      | CBool _ => Ok tt
      end
  end.

Definition optionalPublicKeys : list jsstring := [js "revokes"; js "rendezvous_boards"; js "mirror_hints"; js "proofs"].

Definition validateOptionalPublicValues (map : CborMap) : result unit :=
  each_result (fun key =>
    if hasEntry map key
    then let? value := getRequiredEntry map key in validateBoundedPublicValue 4 value
    else Ok tt) optionalPublicKeys.

Definition beaconPayloadKeys : list jsstring :=
  [js "beacon_id"; js "sequence"; js "issued_at"; js "expires_at"; js "previous_beacon_id"; js "revokes";
   js "protocol_versions"; js "profile_multihashes"; js "relay_capabilities"; js "relay_endpoints";
   js "rendezvous_boards"; js "mirror_hints"; js "proofs"].

Definition readBootstrapPayload (b : bytes) (supportedProfileMultihashes : list jsstring)
  : result BootstrapBeaconPayload :=
  if maxCborBytes <? zlen b then Throw (js "payload_oversized")
  else
    let? decoded := decodeCborForValidation b in
    let? payloadMap := readCborMap decoded (js "bootstrap_payload") in
    let? _ := rejectUnknownEntries payloadMap beaconPayloadKeys in
    let? protocolVersions := readOrderedUniqueTextArray maxBootstrapNameBytes payloadMap (js "protocol_versions") 8 in
    let? profileMultihashes := readOrderedUniqueTextArray maxBootstrapNameBytes payloadMap (js "profile_multihashes") 8 in
    let? relayCapabilities := readOrderedUniqueTextArray maxBootstrapNameBytes payloadMap (js "relay_capabilities") 32 in
    let? endpointsValue := getRequiredEntry payloadMap (js "relay_endpoints") in
    let? relayEndpoints := readRelayEndpoints endpointsValue in
    if negb (bool_decide (protocolID ∈ protocolVersions)) then Throw (js "payload_invalid")
    else if negb (hasSupportedProfile profileMultihashes supportedProfileMultihashes) then Throw (js "payload_invalid")
    else
      let? _ := validateOptionalPublicValues payloadMap in
      let? beaconId := bytes_field payloadMap (js "beacon_id") (Some 32) in
      let? sequence := number_field payloadMap (js "sequence") in
      let? issuedAt := timestamp_field payloadMap (js "issued_at") in
      let? expiresAt := timestamp_field payloadMap (js "expires_at") in
      let? previousBeaconId :=
        if hasEntry payloadMap (js "previous_beacon_id")
        then let? b := bytes_field payloadMap (js "previous_beacon_id") (Some 32) in Ok (Some b)
        else Ok None in
      Ok (Beacon.mk beaconId sequence issuedAt expiresAt previousBeaconId protocolVersions profileMultihashes
            relayCapabilities relayEndpoints).

Definition endpoint_map (e : BootstrapRelayEndpoint) : CborValue :=
  CMap [(js "transport", CText (Endpoint.transport e)); (js "uri", CText (Endpoint.uri e));
        (js "priority", CNum (Int (Endpoint.priority e)))].

Definition texts (l : list jsstring) : CborValue := CArray (CText <$> l).

Definition beacon_entries (p : BootstrapBeaconPayload) : CborMap :=
  [(js "beacon_id", CBytes (Beacon.beaconId p)); (js "sequence", CNum (Int (Beacon.sequence p)));
   (js "issued_at", CNum (Int (Beacon.issuedAt p))); (js "expires_at", CNum (Int (Beacon.expiresAt p)));
   (js "protocol_versions", texts (Beacon.protocolVersions p));
   (js "profile_multihashes", texts (Beacon.profileMultihashes p));
   (js "relay_capabilities", texts (Beacon.relayCapabilities p));
   (js "relay_endpoints", CArray (endpoint_map <$> Beacon.relayEndpoints p))]
  ++ match Beacon.previousBeaconId p with Some b => [(js "previous_beacon_id", CBytes b)] | None => [] end.

Definition encodeBootstrapPayload (p : BootstrapBeaconPayload) : result bytes :=
  encodeDeterministicCbor (CMap (beacon_entries p)).

(** ** Validation *)

Section Validation.
Context (verify : bytes -> bytes -> bytes -> bool).

Record BeaconValidationOptions := mkBeaconOptions {
  beaconNow : Z;
  beaconSkew : option Z;
  beaconProfiles : option (list jsstring);
}.

Definition validateBranchTextBootstrapBeacon (wrapper : jsstring) (o : BeaconValidationOptions)
  : validated SignedBootstrapBeacon :=
  validateSignedEvent beaconReasons bootstrapBeaconType verify wrapper (beaconNow o)
    (default defaultMaxFutureSkewSeconds (beaconSkew o))
    (fun signedEventBytes signatureInputBytes envelope =>
       let? payload := readBootstrapPayload (Event.payloadBytes envelope)
                         (default defaultBootstrapProfileMultihashes (beaconProfiles o)) in
       if negb (Beacon.expiresAt payload =? Event.expiresAt envelope)
       then Ok (rejected_for (js "payload_expiry_mismatch"))
       else if Event.createdAt envelope <? Beacon.issuedAt payload
       then Ok (rejected_for (js "payload_issued_after_created"))
       else Ok (accepted (mkSignedBeacon wrapper signedEventBytes signatureInputBytes envelope payload))).

Definition assertValidBranchTextBootstrapBeacon (wrapper : jsstring) (o : BeaconValidationOptions)
  : result SignedBootstrapBeacon :=
  match validateBranchTextBootstrapBeacon wrapper o with
  | accepted beacon => Ok beacon
  | rejected_for reason => Throw (js "BRANCH0 bootstrap.beacon rejected: " ++ reason)
  end.
End Validation.

(** ** Creation *)

(** [localeCompare] is the collation of the browser. *)
Definition endpoint_cmp (localeCompare : jsstring -> jsstring -> Z) (left right : BootstrapRelayEndpoint) : Z :=
  let a := Endpoint.priority left - Endpoint.priority right in
  let b := localeCompare (Endpoint.transport left) (Endpoint.transport right) in
  if negb (a =? 0) then a else if negb (b =? 0) then b else localeCompare (Endpoint.uri left) (Endpoint.uri right).

Definition normalizeRelayEndpoints (localeCompare : jsstring -> jsstring -> Z) (endpoints : list BootstrapRelayEndpoint)
  : result (list BootstrapRelayEndpoint) :=
  if (zlen endpoints =? 0) || (maxRelayEndpoints <? zlen endpoints) then Throw (js "invalid_relay_endpoints")
  else readRelayEndpoints (CArray (endpoint_map <$> sort_by (endpoint_cmp localeCompare) endpoints)).

Record CreateBootstrapBeaconOptions := mkCreateBeacon {
  createBeaconExpiresAt : option Z;
  createBeaconSequence : option Z;
  createBeaconId : option bytes;
  createBeaconEventId : option bytes;
  createBeaconVersions : option (list jsstring);
  createBeaconProfiles : option (list jsstring);
  createBeaconCapabilities : option (list jsstring);
  createBeaconEndpoints : option (list BootstrapRelayEndpoint);
}.

(** [publicKey] and [sign] are the generated key pair, [random1] and [random2]
    what [randomBytes(32)] answers for the two identifiers. *)
Definition createBootstrapBeaconWrapper (localeCompare : jsstring -> jsstring -> Z) (publicKey : bytes)
    (sign : bytes -> bytes) (random1 random2 : bytes) (now : Z) (o : CreateBootstrapBeaconOptions) : result jsstring :=
  let expiresAt := default (now + defaultLifetimeSeconds) (createBeaconExpiresAt o) in
  let? protocolVersions := normalizeOrderedTextSet maxBootstrapNameBytes
    (default [protocolID] (createBeaconVersions o)) (js "protocol_versions") in
  let? profileMultihashes := normalizeOrderedTextSet maxBootstrapNameBytes
    (default defaultBootstrapProfileMultihashes (createBeaconProfiles o)) (js "profile_multihashes") in
  let? relayCapabilities := normalizeOrderedTextSet maxBootstrapNameBytes
    (default defaultBootstrapRelayCapabilities (createBeaconCapabilities o)) (js "relay_capabilities") in
  let? relayEndpoints := normalizeRelayEndpoints localeCompare
    (default [Endpoint.mk (js "wss") defaultBootstrapRelayEndpointUri 0] (createBeaconEndpoints o)) in
  let? payloadBytes := encodeBootstrapPayload
    (Beacon.mk (default random1 (createBeaconId o)) (default 1 (createBeaconSequence o)) now expiresAt None
       protocolVersions profileMultihashes relayCapabilities relayEndpoints) in
  createSignedWrapper bootstrapBeaconType sign (default random2 (createBeaconEventId o)) publicKey now expiresAt
    payloadBytes.
End Beacons.
