(* ===== verification/BeaconFacts.v ===== *)
(** * [protocol/v0/bootstrap-beacon.ts]: what a beacon is, and that created ones are accepted *)
From Stdlib Require Import Sorting.Sorted.
From S2P Require Import Prelude JsRuntime Collections Base64Url Cbor CborFacts Records NestedRecords Json Envelope RelayAttachment SignedEvent SignedEventFacts BootstrapBeacon.

(** ** Endpoints *)

Definition endpoint_entries (e : BootstrapRelayEndpoint) : CborMap :=
  [(js "transport", CText (Endpoint.transport e)); (js "uri", CText (Endpoint.uri e));
   (js "priority", CNum (Int (Endpoint.priority e)))].

Definition endpoint_keys : list jsstring := [js "transport"; js "uri"; js "priority"].

Definition endpoint_ok (e : BootstrapRelayEndpoint) : Prop :=
  (text_bytes (Endpoint.transport e) <= maxRelayEndpointTransportBytes
   /\ transport_pattern (Endpoint.transport e) = true)
  /\ text_ok maxRelayEndpointUriBytes (Endpoint.uri e)
  /\ 0 <= Endpoint.priority e <= MAX_SAFE_INTEGER.

Lemma endpoint_entries_wf e :
  map_wf (endpoint_entries e) /\ Forall (fun k => k ∈ endpoint_keys) (map_keys (endpoint_entries e)).
Proof. split; [apply (bool_decide_eq_true_1 (NoDup _)); closed | apply (bool_decide_eq_true_1 (Forall _ _)); closed]. Qed.

Lemma endpoint_fields e : endpoint_ok e -> Forall (fun x => good x.2) (endpoint_entries e).
Proof.
  intros ([Ht Hp] & Hu & Hpr). unfold endpoint_entries. repeat (apply Forall_cons; split); cbn [snd].
  - apply good_text, encodable_text_iff. unfold text_bytes, maxRelayEndpointTransportBytes, maxCborTextBytes in *.
    split; [by apply transport_plain | lia].
  - by apply good_text, (text_ok_encodable maxRelayEndpointUriBytes).
  - by apply good_num.
  - by apply Forall_nil.
Qed.

Lemma endpoint_encodable e : endpoint_ok e -> encodable (endpoint_map e) = true.
Proof.
  intros He. destruct (endpoint_entries_wf e). apply (good_map endpoint_keys); [done | done | | done | by apply endpoint_fields].
  apply (bool_decide_eq_true_1 (Forall _ _)); closed.
Qed.

(** Reading an entry of a decoded payload. *)
Lemma read_endpoint_sound v e :
  encodable v = true -> canon v = v -> read_endpoint v = Ok e -> endpoint_ok e /\ v = canon (endpoint_map e).
Proof.
  intros He Hc H. unfold read_endpoint in H. step H as m Em. destruct v as [| | | | |m']; try done. injection Em as ->.
  step H as [] Eu. step H as tv Etv. step H as t Et. step H as uv Euv. step H as u Eu'. step H as p Ep. injection H as <-.
  apply getRequiredEntry_Ok in Etv, Euv. apply readBoundedTransport_Ok in Et as (-> & Htl & Htp); [| done].
  apply readBoundedUri_Ok in Eu' as (-> & Hun & Hul); [| done]. apply number_field_Ok in Ep as (Hgp & Hps & Hp0).
  assert (Hok : endpoint_ok (Endpoint.mk t u p)).
  { split; [by split |]. split; cbn.
    - split; [done |]. split; [done |]. by apply (text_sound_plain m (js "uri")).
    - unfold is_safe in Hps. bool_props. lia. }
  split; [done |]. destruct (endpoint_entries_wf (Endpoint.mk t u p)) as [Hw Hn].
  apply (inner_record_read m endpoint_keys); try done.
  - eapply Forall_impl; [apply endpoint_fields, Hok | by intros x []].
  - intros k Hk. unfold endpoint_keys in Hk.
    repeat (apply elem_of_cons in Hk as [->|Hk]); try (by apply elem_of_nil in Hk); first [exact Etv | exact Euv | exact Hgp].
Qed.

Lemma read_endpoint_fields m e :
  endpoint_ok e -> rejectUnknownEntries m endpoint_keys = Ok tt ->
  (forall k, k ∈ endpoint_keys -> map_get m k = map_get (endpoint_entries e) k) -> read_endpoint (CMap m) = Ok e.
Proof.
  intros ([Ht Hp] & (Hu1 & Hu2 & Hu3) & Hpr) Hun Hg. unfold read_endpoint. cbn [readCborMap].
  unfold endpoint_keys in Hun. rewrite Hun.
  rewrite (proj2 (getRequiredEntry_Ok m (js "transport") (CText (Endpoint.transport e)))) by (rewrite Hg; [done | set_solver]).
  rewrite (proj2 (readBoundedTransport_Ok maxRelayEndpointTransportBytes _ (Endpoint.transport e) ltac:(done))) by done.
  rewrite (proj2 (getRequiredEntry_Ok m (js "uri") (CText (Endpoint.uri e)))) by (rewrite Hg; [done | set_solver]).
  rewrite (proj2 (readBoundedUri_Ok maxRelayEndpointUriBytes _ (Endpoint.uri e) ltac:(done))) by done.
  rewrite (proj2 (number_field_Ok m (js "priority") (Endpoint.priority e))).
  - by destruct e.
  - split; [rewrite Hg; [done | set_solver] |]. unfold is_safe. split; lia.
Qed.

Lemma read_endpoint_canon e : endpoint_ok e -> read_endpoint (canon (endpoint_map e)) = Ok e.
Proof.
  intros He. destruct (endpoint_entries_wf e) as [Hw Hn]. pose proof (endpoint_fields e He) as Hf.
  destruct (inner_record_written endpoint_keys (endpoint_entries e)) as (m & Hm & Hu & Hg);
    [by apply (endpoint_encodable e) | done |].
  change (endpoint_map e) with (CMap (endpoint_entries e)). rewrite Hm. apply read_endpoint_fields; [done | done |]. intros k Hk. rewrite Hg.
  destruct (map_get (endpoint_entries e) k) as [v|] eqn:E; [| done]. cbn. f_equal. apply map_get_Some_elem in E.
  rewrite Forall_forall in Hf. by destruct (Hf _ E).
Qed.

Section Beacons.
Context (parse_URL : jsstring -> option URL).

Definition endpoints_ok (l : list BootstrapRelayEndpoint) : Prop :=
  0 < zlen l <= maxRelayEndpoints /\ Forall endpoint_ok l
  /\ items_ok Endpoint.priority endpoint_key (check_endpoint parse_URL) l
  /\ existsb is_wss l = true.

Lemma read_endpoint_priority v e : read_endpoint v = Ok e -> 0 <= Endpoint.priority e.
Proof.
  unfold read_endpoint. intros H. step H as m Em. step H as [] Eu. step H as tv Etv. step H as t Et. step H as uv Euv.
  step H as u Eu'. step H as p Ep. injection H as <-. by apply number_field_Ok in Ep as (_ & _ & ?).
Qed.

Lemma readRelayEndpoints_inv v l :
  readRelayEndpoints parse_URL v = Ok l <->
  exists vs, v = CArray vs /\ 0 < zlen vs <= maxRelayEndpoints /\ Forall2 (fun v x => read_endpoint v = Ok x) vs l
    /\ items_ok Endpoint.priority endpoint_key (check_endpoint parse_URL) l /\ existsb is_wss l = true.
Proof.
  unfold readRelayEndpoints. split.
  - destruct v as [| | | |vs|]; try done. case_match eqn:E; [done |]. intros H. bool_props. step H as es Es.
    destruct (existsb is_wss es) eqn:Ew; [| done]. injection H as ->.
    apply ordered_records_Ok in Es as [Hr Hi]; [| apply read_endpoint_priority]. exists vs. pose proof (zlen_nonneg vs).
    split; [done |]. split; [lia | done].
  - intros (vs & -> & Hl & Hr & Hi & Hw). test ((zlen vs =? 0) || (maxRelayEndpoints <? zlen vs)) false.
    rewrite (proj2 (ordered_records_Ok _ _ _ _ vs l read_endpoint_priority)) by done. by rewrite Hw.
Qed.

Lemma endpoints_read v l :
  encodable v = true -> canon v = v -> readRelayEndpoints parse_URL v = Ok l ->
  endpoints_ok l /\ v = canon (CArray (endpoint_map <$> l)).
Proof.
  intros He Hc (vs & -> & Hl & Hr & Hi & Hw)%readRelayEndpoints_inv.
  destruct (records_read _ _ _ read_endpoint_sound vs l He Hc Hr) as [Hf Heq]. split; [| done].
  rewrite Heq in Hc. injection Heq as ->. rewrite !zlen_fmap in Hl. by split.
Qed.

Lemma endpoints_written l :
  endpoints_ok l -> readRelayEndpoints parse_URL (canon (CArray (endpoint_map <$> l))) = Ok l.
Proof.
  intros (Hl & Hf & Hi & Hw). apply readRelayEndpoints_inv. exists (canon <$> (endpoint_map <$> l)).
  rewrite !zlen_fmap. split; [done |]. split; [done |]. split; [| done].
  by apply (records_written _ _ _ read_endpoint_canon).
Qed.

Lemma endpoints_encodable l : endpoints_ok l -> encodable (CArray (endpoint_map <$> l)) = true.
Proof. intros (Hl & Hf & _). apply (records_encodable _ _ endpoint_encodable maxRelayEndpoints); [done | lia | done]. Qed.
End Beacons.

(** ** The payload *)

(** Entries of a payload that the program checks but does not keep. *)
Definition extra_ok (extra : CborMap) : Prop :=
  map_wf extra /\ Forall (fun k => k ∈ optionalPublicKeys) (map_keys extra)
  /\ Forall (fun x => good x.2 /\ validateBoundedPublicValue 4 x.2 = Ok tt) extra.

Section Payload.
Context (parse_URL : jsstring -> option URL) (supported : list jsstring).

Record beacon_ok (p : BootstrapBeaconPayload) : Prop := {
  ok_beaconId : bytes_ok (Beacon.beaconId p) /\ zlen (Beacon.beaconId p) = 32;
  ok_sequence : 0 <= Beacon.sequence p <= MAX_SAFE_INTEGER;
  ok_beacon_times : 0 <= Beacon.issuedAt p <= maxDraftTimestamp /\ 0 <= Beacon.expiresAt p <= maxDraftTimestamp;
  ok_previous : match Beacon.previousBeaconId p with Some b => bytes_ok b /\ zlen b = 32 | None => True end;
  ok_versions : names_ok maxBootstrapNameBytes 8 (Beacon.protocolVersions p) /\ protocolID ∈ Beacon.protocolVersions p;
  ok_profiles : names_ok maxBootstrapNameBytes 8 (Beacon.profileMultihashes p)
                /\ hasSupportedProfile (Beacon.profileMultihashes p) supported = true;
  ok_capabilities : names_ok maxBootstrapNameBytes 32 (Beacon.relayCapabilities p);
  ok_endpoints : endpoints_ok parse_URL (Beacon.relayEndpoints p);
}.

(** The keys [encodeBootstrapPayload] writes. *)
Definition beacon_keys : list jsstring :=
  [js "beacon_id"; js "sequence"; js "issued_at"; js "expires_at"; js "protocol_versions"; js "profile_multihashes";
   js "relay_capabilities"; js "relay_endpoints"; js "previous_beacon_id"].

Lemma beacon_entries_keys p :
  map_wf (beacon_entries p) /\ Forall (fun k => k ∈ beacon_keys) (map_keys (beacon_entries p)).
Proof.
  unfold beacon_entries. destruct (Beacon.previousBeaconId p);
    (split; [apply (bool_decide_eq_true_1 (NoDup _)); closed | apply (bool_decide_eq_true_1 (Forall _ _)); closed]).
Qed.

Lemma beacon_fields p : beacon_ok p -> Forall (fun x => encodable x.2 = true) (beacon_entries p).
Proof.
  intros [[Hi1 Hi2] Hs [Ht1 Ht2] Hp [Hv _] [Hm _] Hc He].
  assert (Hid : forall b, bytes_ok b -> zlen b = 32 -> encodable (CBytes b) = true).
  { intros b Hb Hl. apply encodable_bytes. unfold maxCborBytes. split; [done | lia]. }
  unfold beacon_entries. apply Forall_app. split.
  - repeat (apply Forall_cons; split); cbn [snd].
    + by apply Hid.
    + by apply good_num.
    + by apply good_num.
    + by apply good_num.
    + by eapply texts_encodable; [| | exact Hv].
    + by eapply texts_encodable; [| | exact Hm].
    + by eapply texts_encodable; [| | exact Hc].
    + by apply (endpoints_encodable parse_URL).
    + by apply Forall_nil.
  - destruct (Beacon.previousBeaconId p) as [b|]; [| by apply Forall_nil]. destruct Hp. apply Forall_cons. split; [by apply Hid | by apply Forall_nil].
Qed.

Lemma entries_with_extra p extra :
  beacon_ok p -> extra_ok extra ->
  map_wf (beacon_entries p ++ extra)
  /\ Forall (fun k => k ∈ beaconPayloadKeys) (map_keys (beacon_entries p ++ extra))
  /\ Forall (fun x => encodable x.2 = true) (beacon_entries p ++ extra).
Proof.
  intros Hp (Hw & Hk & Hf). destruct (beacon_entries_keys p) as [Hbw Hbk].
  assert (Hdisj : Forall (fun k => k ∉ optionalPublicKeys) beacon_keys) by (apply (bool_decide_eq_true_1 (Forall _ _)); closed).
  assert (H1 : Forall (fun k => k ∈ beaconPayloadKeys) beacon_keys) by (apply (bool_decide_eq_true_1 (Forall _ _)); closed).
  assert (H2 : Forall (fun k => k ∈ beaconPayloadKeys) optionalPublicKeys) by (apply (bool_decide_eq_true_1 (Forall _ _)); closed).
  unfold map_wf, map_keys in *. rewrite fmap_app. rewrite !Forall_forall in *. split; [| split].
  - apply NoDup_app. split; [done |]. split; [| done]. intros k Hin Hx. by apply (Hdisj k (Hbk k Hin)), Hk.
  - intros k [Hin|Hin]%elem_of_app; [by apply H1, Hbk | by apply H2, Hk].
  - intros x [Hin|Hin]%elem_of_app; [| by apply Hf]. pose proof (beacon_fields p Hp) as H.
    rewrite Forall_forall in H. by apply H.
Qed.

Lemma map_get_keep (es : CborMap) (names : list jsstring) key :
  map_wf es -> key ∈ names -> map_get (filter (fun x => x.1 ∈ names) es) key = map_get es key.
Proof.
  intros Hw Hk. destruct (map_get es key) as [v|] eqn:E.
  - apply elem_map_get; [by apply map_filter_wf |]. apply list_elem_of_filter. split; [done | by apply map_get_Some_elem].
  - rewrite map_get_None in *. intros (x & Ex & [_ Hx]%list_elem_of_filter)%list_elem_of_fmap. apply E.
    subst. by apply list_elem_of_fmap_2.
Qed.

Lemma validateOptional_Ok es :
  validateOptionalPublicValues es = Ok tt <->
  forall k v, k ∈ optionalPublicKeys -> map_get es k = Some v -> validateBoundedPublicValue 4 v = Ok tt.
Proof.
  unfold validateOptionalPublicValues. rewrite each_result_Ok, Forall_forall. split; intros H k.
  - intros v Hk Hg. specialize (H k Hk). unfold hasEntry, map_has in H. rewrite Hg in H.
    by rewrite (proj2 (getRequiredEntry_Ok es k v) Hg) in H.
  - intros Hk. unfold hasEntry, map_has. destruct (map_get es k) as [v|] eqn:E; [| done].
    rewrite (proj2 (getRequiredEntry_Ok es k v) E). by apply (H k v).
Qed.

Lemma extra_of es :
  encodable (CMap es) = true -> canon (CMap es) = CMap es -> validateOptionalPublicValues es = Ok tt ->
  extra_ok (filter (fun x => x.1 ∈ optionalPublicKeys) es).
Proof.
  intros He Hc Hv. pose proof (encodable_map_inv es He) as (_ & Hw & _). split; [by apply map_filter_wf |]. split.
  - apply Forall_fmap, Forall_forall. by intros x [Hx _]%list_elem_of_filter.
  - apply Forall_forall. intros [k v] [Hk Hin]%list_elem_of_filter.
    assert (Hg : map_get es k = Some v) by (by apply elem_map_get). split.
    + split; [by apply (encodable_get es k) | by apply (canon_get es k)].
    + by apply (proj1 (validateOptional_Ok es) Hv k v).
Qed.

Lemma payload_read b p :
  bytes_ok b -> readBootstrapPayload parse_URL b supported = Ok p ->
  beacon_ok p /\ zlen b <= maxCborBytes
  /\ exists extra, extra_ok extra /\ encodeDeterministicCbor (CMap (beacon_entries p ++ extra)) = Ok b.
Proof.
  intros Hb H. unfold readBootstrapPayload in H. destruct (Z.ltb_spec maxCborBytes (zlen b)); [done |].
  step H as d Ed. step H as es Ees. step H as [] Eu. step H as vs Evs. step H as ps Eps. step H as cs Ecs.
  step H as ev Eev. step H as eps Eeps. case_match eqn:E1; [done |]. case_match eqn:E2; [done |]. step H as [] Eo.
  step H as i Ei. step H as s Es. step H as t Et. step H as x Ex. step H as prev Eprev. injection H as <-. bool_props.
  apply decodeCbor_Ok in Ed. apply readCborMap_Ok in Ees as ->.
  pose proof (decode_Ok _ _ _ Hb Ed) as (_ & He & Hc & _). pose proof (encodable_map_inv es He) as (_ & Hwf & _).
  apply names_ok_read in Evs as [Hgv Hv], Eps as [Hgp Hp], Ecs as [Hgc Hcs]; [| done..].
  apply getRequiredEntry_Ok in Eev.
  destruct (endpoints_read parse_URL ev eps) as [Hep ->];
    [by apply (encodable_get es (js "relay_endpoints")) | by apply (canon_get es (js "relay_endpoints")) | done |].
  destruct (bytes_field_sound es _ _ i He Ei) as [Hgi Hib]. apply bytes_field_Ok in Ei as (_ & _ & Hil).
  apply number_field_Ok in Es as (Hgs & Hss & Hs0). apply timestamp_field_Ok in Et as [Hgt Ht], Ex as [Hgx Hx].
  assert (Hprev : map_get es (js "previous_beacon_id") = CBytes <$> prev
                  /\ match prev with Some b => bytes_ok b /\ zlen b = 32 | None => True end).
  { unfold hasEntry, map_has in Eprev. destruct (map_get es (js "previous_beacon_id")) eqn:Eg; [| by injection Eprev as <-].
    step Eprev as pb Epb. injection Eprev as <-. destruct (bytes_field_sound es _ _ pb He Epb) as [Hgb Hbb].
    apply bytes_field_Ok in Epb as (_ & _ & Hpl). split; [cbn; congruence | done]. }
  destruct Hprev as [Hgprev Hprev].
  set (p := Beacon.mk i s t x prev vs ps cs eps).
  assert (Hok : beacon_ok p).
  { split; cbn; try done. unfold is_safe in Hss. bool_props. lia. }
  split; [done |]. split; [done |]. exists (filter (fun x => x.1 ∈ optionalPublicKeys) es).
  pose proof (extra_of es He Hc Eo) as Hextra. split; [done |].
  destruct (entries_with_extra p _ Hok Hextra) as (Hw & Hk & Hf).
  apply (record_read_canon b maxDraftEnvelopeBytes es beaconPayloadKeys); try done.
  intros k Hin. rewrite map_get_app. destruct (beacon_entries_keys p) as [_ Hbk]. destruct Hextra as (_ & Hek & Hef).
  assert (Hopt : k ∈ optionalPublicKeys -> map_get es k = canon <$> map_get (filter (fun x => x.1 ∈ optionalPublicKeys) es) k).
  { intros Ho. rewrite (map_get_keep es optionalPublicKeys k) by done. destruct (map_get es k) as [v|] eqn:E; [| done]. cbn.
    by rewrite (canon_get es k v). }
  assert (Habs : k ∈ optionalPublicKeys -> map_get (beacon_entries p) k = None).
  { intros Ho. apply (map_get_absent _ beacon_keys); [done |]. intros Hb'.
    assert (Hdisj : Forall (fun k => k ∉ optionalPublicKeys) beacon_keys) by (apply (bool_decide_eq_true_1 (Forall _ _)); closed).
    rewrite Forall_forall in Hdisj. by apply (Hdisj k). }
  assert (Hnone : k ∉ optionalPublicKeys -> map_get (filter (fun x => x.1 ∈ optionalPublicKeys) es) k = None).
  { intros Ho. by apply (map_get_absent _ optionalPublicKeys). }
  destruct (decide (k ∈ optionalPublicKeys)) as [Ho|Ho]; [rewrite (Habs Ho); by apply Hopt |].
  rewrite (Hnone Ho). unfold p, beacon_entries. cbn [Beacon.previousBeaconId]. rewrite map_get_app.
  clear Hopt Habs Hnone Hbk Hek Hef Hw Hk Hf. unfold beaconPayloadKeys in Hin.
  repeat (apply elem_of_cons in Hin as [->|Hin]); try (by apply elem_of_nil in Hin);
    try (exfalso; apply Ho; apply (bool_decide_eq_true_1 (_ ∈ optionalPublicKeys)); closed).
  - exact Hgi.
  - exact Hgs.
  - exact Hgt.
  - exact Hgx.
  - rewrite Hgprev. by destruct prev.
  - rewrite Hgv. symmetry. apply canon_Some; [apply texts_canon | done].
  - rewrite Hgp. symmetry. apply canon_Some; [apply texts_canon | done].
  - rewrite Hgc. symmetry. apply canon_Some; [apply texts_canon | done].
  - exact Eev.
Qed.
End Payload.

(** ** Writing a payload, and what validation accepts *)

Section Written.
Context (parse_URL : jsstring -> option URL) (supported : list jsstring).

Lemma beacon_encodable p extra :
  beacon_ok parse_URL supported p -> extra_ok extra -> encodable (CMap (beacon_entries p ++ extra)) = true.
Proof.
  intros Hp He. destruct (entries_with_extra parse_URL supported p extra Hp He) as (Hw & Hk & Hf).
  apply encodable_map_intro; [| exact Hw |].
  - rewrite <- (zlen_fmap fst). etrans; [by apply (names_len _ beaconPayloadKeys) | done].
  - apply Forall_forall. intros x Hx. split; [| by apply (proj1 (Forall_forall _ _) Hf)].
    assert (Hk' : Forall (fun k => encodable_text k = true) beaconPayloadKeys) by (apply (bool_decide_eq_true_1 (Forall _ _)); closed).
    apply (proj1 (Forall_forall _ _) Hk'), (proj1 (Forall_forall _ _) Hk). by apply list_elem_of_fmap_2.
Qed.

Lemma payload_written b p extra :
  beacon_ok parse_URL supported p -> extra_ok extra ->
  encodeDeterministicCbor (CMap (beacon_entries p ++ extra)) = Ok b -> zlen b <= maxCborBytes ->
  bytes_ok b /\ 0 < zlen b /\ readBootstrapPayload parse_URL b supported = Ok p.
Proof.
  intros Hp Hx Hv Hl. pose proof (beacon_encodable p extra Hp Hx) as He.
  destruct (entries_with_extra parse_URL supported p extra Hp Hx) as (Hw & Hk & Hf).
  destruct (record_written_canon b maxDraftEnvelopeBytes beaconPayloadKeys _ He Hv) as (Hb & es & Hd & Hu & Hg);
    [unfold maxCborBytes, maxDraftEnvelopeBytes in *; lia | done |].
  split; [done |]. split; [pose proof (decode_Ok _ _ _ Hb Hd); lia |].
  assert (Hget : forall k v, map_get (beacon_entries p) k = Some v -> canon v = v -> map_get es k = Some v).
  { intros k v Hk' Hc. rewrite Hg, map_get_app, Hk'. cbn. by rewrite Hc. }
  assert (Hopt : validateOptionalPublicValues es = Ok tt).
  { apply validateOptional_Ok. intros k v Hin Hk'. rewrite Hg, map_get_app in Hk'.
    rewrite (map_get_absent _ beacon_keys) in Hk'; [| by destruct (beacon_entries_keys p) |].
    - destruct (map_get extra k) as [v0|] eqn:E; [| done]. injection Hk' as <-. destruct Hx as (_ & _ & Hf').
      apply map_get_Some_elem in E. rewrite Forall_forall in Hf'. destruct (Hf' _ E) as [[_ Hc] Hv']. cbn in Hc. by rewrite Hc.
    - assert (Hdisj : Forall (fun k => k ∉ beacon_keys) optionalPublicKeys) by (apply (bool_decide_eq_true_1 (Forall _ _)); closed).
      rewrite Forall_forall in Hdisj. by apply Hdisj. }
  destruct Hp as [[Hi1 Hi2] Hs [Ht1 Ht2] Hprev [Hve Hvp] [Hm Hms] Hc Hep].
  unfold readBootstrapPayload. test (maxCborBytes <? zlen b) false.
  rewrite (proj2 (decodeCbor_Ok b _) Hd). cbn [readCborMap]. rewrite Hu.
  rewrite (names_ok_written maxBootstrapNameBytes es (js "protocol_versions") 8 (Beacon.protocolVersions p))
    by first [done | by apply Hget; [| apply texts_canon]].
  rewrite (names_ok_written maxBootstrapNameBytes es (js "profile_multihashes") 8 (Beacon.profileMultihashes p))
    by first [done | by apply Hget; [| apply texts_canon]].
  rewrite (names_ok_written maxBootstrapNameBytes es (js "relay_capabilities") 32 (Beacon.relayCapabilities p))
    by first [done | by apply Hget; [| apply texts_canon]].
  rewrite (proj2 (getRequiredEntry_Ok es (js "relay_endpoints") (canon (CArray (endpoint_map <$> Beacon.relayEndpoints p)))))
    by (by rewrite Hg).
  rewrite (endpoints_written parse_URL) by done. rewrite bool_decide_true by done. cbn [negb]. rewrite Hms. cbn [negb].
  rewrite Hopt.
  rewrite (proj2 (bytes_field_Ok es (js "beacon_id") (Some 32) (Beacon.beaconId p)))
    by (unfold maxCborBytes; split; [by apply Hget | split; [lia | done]]).
  rewrite (proj2 (number_field_Ok es (js "sequence") (Beacon.sequence p)))
    by (split; [by apply Hget | unfold is_safe; split; lia]).
  rewrite (proj2 (timestamp_field_Ok es (js "issued_at") (Beacon.issuedAt p))) by (split; [by apply Hget | done]).
  rewrite (proj2 (timestamp_field_Ok es (js "expires_at") (Beacon.expiresAt p))) by (split; [by apply Hget | done]).
  assert (Hpv : map_get es (js "previous_beacon_id") = CBytes <$> Beacon.previousBeaconId p).
  { rewrite Hg, map_get_app. unfold beacon_entries. rewrite map_get_app. destruct (Beacon.previousBeaconId p) as [pb|]; [done |].
    cbn. rewrite (map_get_absent _ optionalPublicKeys); [done | by destruct Hx as (_ & ? & _) |].
    apply (bool_decide_eq_true_1 (_ ∉ optionalPublicKeys)). closed. }
  unfold hasEntry, map_has. rewrite Hpv. destruct (Beacon.previousBeaconId p) as [pb|] eqn:Epb; cbn [fmap option_fmap option_map].
  - destruct Hprev. rewrite (proj2 (bytes_field_Ok es (js "previous_beacon_id") (Some 32) pb))
      by (unfold maxCborBytes; split; [exact Hpv | split; [lia | done]]). destruct p; cbn in *; congruence.
  - destruct p; cbn in *; congruence.
Qed.
End Written.

(** What validation accepts. *)
Definition beacon_valid (parse_URL : jsstring -> option URL) (verify : bytes -> bytes -> bytes -> bool) (w : jsstring)
    (o : BeaconValidationOptions) (s : SignedBootstrapBeacon) : Prop :=
  beaconWrapper s = w
  /\ event_valid bootstrapBeaconType verify w (beaconNow o) (default defaultMaxFutureSkewSeconds (beaconSkew o))
       (beaconEventBytes s) (beaconSignatureInput s) (beaconEnvelope s)
  /\ beacon_ok parse_URL (default defaultBootstrapProfileMultihashes (beaconProfiles o)) (beaconPayload s)
  /\ (exists extra, extra_ok extra /\
        encodeDeterministicCbor (CMap (beacon_entries (beaconPayload s) ++ extra)) = Ok (Event.payloadBytes (beaconEnvelope s)))
  /\ Beacon.expiresAt (beaconPayload s) = Event.expiresAt (beaconEnvelope s)
  /\ Beacon.issuedAt (beaconPayload s) <= Event.createdAt (beaconEnvelope s).

Lemma beacon_validated parse_URL verify w o s :
  validateBranchTextBootstrapBeacon parse_URL verify w o = accepted s <-> beacon_valid parse_URL verify w o s.
Proof.
  unfold validateBranchTextBootstrapBeacon, beacon_valid. rewrite (event_validated bootstrapBeaconType) by (discriminate || closed). split.
  - intros (b & input & e & Hv & H). step H as p Ep. case_match eqn:E1; [done |].
    destruct (Z.ltb_spec (Event.createdAt e) (Beacon.issuedAt p)); [done |]. injection H as <-. bool_props.
    destruct (payload_read parse_URL _ _ p (proj1 (ok_payload e (event_envelope _ _ _ _ _ _ _ _ Hv))) Ep) as (Hp & _ & Hx). done.
  - intros (<- & Hv & Hp & (extra & Hex & Hpv) & Hpe & Hpi). do 3 eexists. split; [exact Hv |].
    destruct (payload_written parse_URL _ _ _ extra Hp Hex Hpv) as (_ & _ & Hr);
      [apply (ok_payload _ (event_envelope _ _ _ _ _ _ _ _ Hv)) |].
    rewrite Hr. test (Beacon.expiresAt (beaconPayload s) =? Event.expiresAt (beaconEnvelope s)) true. cbn [negb].
    test (Event.createdAt (beaconEnvelope s) <? Beacon.issuedAt (beaconPayload s)) false. by destruct s.
Qed.

(** C16: a text is accepted as a beacon exactly when it is the wrapper of the
    canonical encoding of a signed envelope of this type, signed over the same
    fields without the signature by the key in it, neither expired nor from the
    future, whose payload is the canonical encoding of a beacon in force: known
    protocol and profile, ordered distinct names, relay endpoints in order of
    priority with an address that can be reached, the envelope's expiry, and
    otherwise only bounded public values.  For any URL parser and any signature
    scheme. *)
Theorem beacon_accepted_spec parse_URL verify w o s :
  validateBranchTextBootstrapBeacon parse_URL verify w o = accepted s <-> beacon_valid parse_URL verify w o s.
Proof. apply beacon_validated. Qed.

(** ** Created beacons *)

Lemma endpoint_size e : endpoint_ok e -> zlen (enc (endpoint_map e)) <= 600.
Proof.
  intros He. pose proof (endpoint_encodable e He) as Hen. destruct He as ([Ht _] & (_ & Hu & _) & _).
  unfold text_bytes, maxRelayEndpointTransportBytes, maxRelayEndpointUriBytes in *.
  etrans; [apply (record_size (endpoint_entries e)); [exact Hen | by apply encode_total] |].
  unfold endpoint_entries. entry_sizes. lia.
Qed.

Section Created.
Context (parse_URL : jsstring -> option URL) (supported : list jsstring).

Lemma beacon_payload_size p b :
  beacon_ok parse_URL supported p -> encodeDeterministicCbor (CMap (beacon_entries p)) = Ok b -> zlen b <= 16384.
Proof.
  intros Hp Hb. assert (Hx : extra_ok []) by (split; [apply NoDup_nil_2 | split; constructor]).
  pose proof (beacon_encodable parse_URL supported p [] Hp Hx) as He. rewrite app_nil_r in He.
  etrans; [by apply (record_size (beacon_entries p)) |].
  destruct Hp as [[_ Hi] _ _ Hprev [Hv _] [Hm _] Hc (Hl & Hf & _)].
  pose proof (texts_size maxBootstrapNameBytes 8 _ ltac:(done) ltac:(done) Hv) as S1. pose proof (texts_size maxBootstrapNameBytes 8 _ ltac:(done) ltac:(done) Hm) as S2.
  pose proof (texts_size maxBootstrapNameBytes 32 _ ltac:(done) ltac:(done) Hc) as S3. unfold maxBootstrapNameBytes in *.
  pose proof (records_size _ _ endpoint_encodable maxRelayEndpoints 600 (Beacon.relayEndpoints p) ltac:(done) ltac:(lia) Hf ltac:(lia) endpoint_size) as S4.
  unfold maxRelayEndpoints in S4.
  unfold beacon_entries, texts.
  destruct (Beacon.previousBeaconId p) as [pb|]; cbn [app]; entry_sizes; [destruct Hprev |]; lia.
Qed.

Lemma read_endpoint_map e e' : read_endpoint (endpoint_map e) = Ok e' -> plain_text (Endpoint.uri e) = true -> e' = e /\ endpoint_ok e.
Proof.
  unfold read_endpoint, endpoint_map. cbn [readCborMap]. intros H Hp. step H as [] Eu. step H as tv Etv. step H as t Et.
  step H as uv Euv. step H as u Eu'. step H as p Ep. injection H as <-.
  apply getRequiredEntry_Ok in Etv, Euv. injection Etv as <-. injection Euv as <-.
  apply readBoundedTransport_Ok in Et as ([= <-] & Htl & Htp); [| done].
  apply readBoundedUri_Ok in Eu' as ([= <-] & Hun & Hul); [| done]. apply number_field_Ok in Ep as (Hgp & Hps & Hp0).
  injection Hgp as <-. split; [by destruct e |]. split; [by split |]. split; [by split |].
  unfold is_safe in Hps. bool_props. lia.
Qed.

Lemma normalized_endpoints localeCompare endpoints l :
  normalizeRelayEndpoints parse_URL localeCompare endpoints = Ok l ->
  Forall (fun e => plain_text (Endpoint.uri e) = true) endpoints ->
  l = sort_by (endpoint_cmp localeCompare) endpoints /\ endpoints_ok parse_URL l.
Proof.
  unfold normalizeRelayEndpoints. intros H Hp. case_match; [done |].
  apply readRelayEndpoints_inv in H as (vs & [= <-] & Hl & Hr & Hi & Hw). rewrite zlen_fmap in Hl.
  rewrite <- (sort_by_perm (endpoint_cmp localeCompare) endpoints) in Hp.
  set (k := sort_by (endpoint_cmp localeCompare) endpoints) in *.
  destruct (records_map _ _ _ (fun e => plain_text (Endpoint.uri e) = true) k l read_endpoint_map Hp Hr) as [-> Hf].
  split; [done |]. by split.
Qed.
End Created.

Lemma extra_nil : extra_ok [].
Proof. split; [apply NoDup_nil_2 | split; constructor]. Qed.

(** What the options of a creation must say; the function itself checks the
    names and the endpoints. *)
Record creation_ok (supported : list jsstring) (publicKey random1 random2 : bytes) (now : Z)
    (o : CreateBootstrapBeaconOptions) : Prop := {
  create_key : bytes_ok publicKey /\ zlen publicKey = 32;
  create_id : bytes_ok (default random1 (createBeaconId o)) /\ zlen (default random1 (createBeaconId o)) = 32;
  create_event : bytes_ok (default random2 (createBeaconEventId o)) /\ zlen (default random2 (createBeaconEventId o)) = 32;
  create_sequence : 0 <= default 1 (createBeaconSequence o) <= MAX_SAFE_INTEGER;
  create_times : 0 <= now < default (now + defaultLifetimeSeconds) (createBeaconExpiresAt o)
    /\ default (now + defaultLifetimeSeconds) (createBeaconExpiresAt o) <= maxDraftTimestamp;
  create_versions : let l := default [protocolID] (createBeaconVersions o) in
    0 < zlen l <= 8 /\ Forall (fun s => plain_text s = true) l /\ protocolID ∈ l;
  create_profiles : let l := default defaultBootstrapProfileMultihashes (createBeaconProfiles o) in
    0 < zlen l <= 8 /\ Forall (fun s => plain_text s = true) l /\ hasSupportedProfile l supported = true;
  create_capabilities : let l := default defaultBootstrapRelayCapabilities (createBeaconCapabilities o) in
    0 < zlen l <= 32 /\ Forall (fun s => plain_text s = true) l;
  create_endpoints : Forall (fun e => plain_text (Endpoint.uri e) = true)
    (default [Endpoint.mk (js "wss") defaultBootstrapRelayEndpointUri 0] (createBeaconEndpoints o));
}.

(** The payload that is written. *)
Definition created_payload (localeCompare : jsstring -> jsstring -> Z) (random1 : bytes) (now : Z)
    (o : CreateBootstrapBeaconOptions) : BootstrapBeaconPayload :=
  Beacon.mk (default random1 (createBeaconId o)) (default 1 (createBeaconSequence o)) now
    (default (now + defaultLifetimeSeconds) (createBeaconExpiresAt o)) None
    (sort_by text_cmp (default [protocolID] (createBeaconVersions o)))
    (sort_by text_cmp (default defaultBootstrapProfileMultihashes (createBeaconProfiles o)))
    (sort_by text_cmp (default defaultBootstrapRelayCapabilities (createBeaconCapabilities o)))
    (sort_by (endpoint_cmp localeCompare)
       (default [Endpoint.mk (js "wss") defaultBootstrapRelayEndpointUri 0] (createBeaconEndpoints o))).

(** C15: the wrapper that creating a beacon returns is accepted by everyone who
    validates it within its lifetime, with exactly the payload it was created
    with, names and endpoints sorted, and the key that signed it. *)
Theorem created_beacon_accepted parse_URL localeCompare verify sign publicKey random1 random2 now o vo w
    (Hcreate : createBootstrapBeaconWrapper parse_URL localeCompare publicKey sign random1 random2 now o = Ok w)
    (Hok : creation_ok (default defaultBootstrapProfileMultihashes (beaconProfiles vo)) publicKey random1 random2 now o)
    (Hsign : forall m, bytes_ok (sign m) /\ zlen (sign m) = 64 /\ verify publicKey (sign m) m = true)
    (Hnow : now <= beaconNow vo + default defaultMaxFutureSkewSeconds (beaconSkew vo))
    (Hlive : beaconNow vo < default (now + defaultLifetimeSeconds) (createBeaconExpiresAt o)) :
  exists s, validateBranchTextBootstrapBeacon parse_URL verify w vo = accepted s
    /\ beaconPayload s = created_payload localeCompare random1 now o
    /\ Event.publicKey (beaconEnvelope s) = publicKey.
Proof.
  unfold createBootstrapBeaconWrapper in Hcreate. cbv zeta in Hcreate.
  step Hcreate as vs Ev. step Hcreate as ps Ep. step Hcreate as cs Ec. step Hcreate as es Ee. step Hcreate as pb Epb.
  destruct Hok as [Hk Hid Hev Hseq Ht (Hv1 & Hv2 & Hv3) (Hp1 & Hp2 & Hp3) (Hc1 & Hc2) Hep].
  pose proof (normalized_value _ _ _ _ Ev) as Evs. pose proof (normalized_value _ _ _ _ Ep) as Eps.
  pose proof (normalized_value _ _ _ _ Ec) as Ecs.
  apply (normalized_names maxBootstrapNameBytes 8) in Ev as [Hv Pv]; [| done..].
  apply (normalized_names maxBootstrapNameBytes 8) in Ep as [Hp Pp]; [| done..].
  apply (normalized_names maxBootstrapNameBytes 32) in Ec as [Hc _]; [| done..]. apply normalized_endpoints in Ee as [Ees He]; [| done].
  set (payload := Beacon.mk _ _ _ _ _ vs ps cs es) in Epb.
  assert (Hpay : beacon_ok parse_URL (default defaultBootstrapProfileMultihashes (beaconProfiles vo)) payload).
  { split; unfold payload; cbn [Beacon.beaconId Beacon.sequence Beacon.issuedAt Beacon.expiresAt Beacon.previousBeaconId
      Beacon.protocolVersions Beacon.profileMultihashes Beacon.relayCapabilities Beacon.relayEndpoints].
    - exact Hid.
    - exact Hseq.
    - lia.
    - exact I.
    - split; [exact Hv |]. by rewrite Pv.
    - split; [exact Hp |]. by rewrite (supported_perm _ ps _ Pp).
    - exact Hc.
    - exact He. }
  pose proof (beacon_payload_size parse_URL _ payload pb Hpay Epb) as Hsize.
  destruct (payload_written parse_URL _ pb payload [] Hpay extra_nil) as (Hpb & Hpl & _);
    [by rewrite app_nil_r | unfold maxCborBytes; lia |].
  eapply (event_created bootstrapBeaconType verify) in Hcreate as (event & input & signature & Hvalid);
    [| closed | discriminate | done | done | unfold maxCborBytes; split; [done | lia] | lia | | exact Hsign];
    [| change (text_bytes bootstrapBeaconType) with 16; lia].
  exists (mkSignedBeacon w event input (Event.mk (default random2 (createBeaconEventId o)) publicKey now
    (default (now + defaultLifetimeSeconds) (createBeaconExpiresAt o)) pb signature) payload). split; [| split; [unfold created_payload; by rewrite <- Evs, <- Eps, <- Ecs, <- Ees |reflexivity]].
  apply beacon_validated. split; [done |]. split; [by apply Hvalid |]. split; [done |].
  split; [exists []; split; [exact extra_nil | by rewrite app_nil_r] |]. cbn. split; [done | lia].
Qed.

(** *** A sample *)

Definition sample_parse_URL (uri : jsstring) : option URL :=
  Some (mkURL (js "wss:") (js "branch.undoo.ru") [] [] [] (js "/relay/v0") (js "branch.undoo.ru")).

Definition sample_creation : CreateBootstrapBeaconOptions := mkCreateBeacon None None None None None None None None.

Definition sample_signing (m : bytes) : bytes := replicate 63 7 ++ [zlen m mod 256].

Definition sample_verify (k s m : bytes) : bool := bool_decide (s = sample_signing m).

Definition sample_beacon : jsstring :=
  match createBootstrapBeaconWrapper sample_parse_URL (fun _ _ => 0) (replicate 32 1) sample_signing (replicate 32 2)
          (replicate 32 3) 1700000000 sample_creation with
  | Ok w => w
  | Throw _ => []
  end.

Lemma sample_beacon_created :
  createBootstrapBeaconWrapper sample_parse_URL (fun _ _ => 0) (replicate 32 1) sample_signing (replicate 32 2)
    (replicate 32 3) 1700000000 sample_creation = Ok sample_beacon.
Proof. vm_compute. reflexivity. Qed.

Lemma sample_bytes c : is_byte c -> bytes_ok (replicate 32 c) /\ zlen (replicate 32 c) = 32.
Proof. intros Hc. split; [by apply Forall_replicate | done]. Qed.

Lemma sample_creation_ok :
  creation_ok defaultBootstrapProfileMultihashes (replicate 32 1) (replicate 32 2) (replicate 32 3) 1700000000 sample_creation.
Proof.
  split; cbn [default createBeaconId createBeaconEventId createBeaconSequence createBeaconExpiresAt createBeaconVersions
    createBeaconProfiles createBeaconCapabilities createBeaconEndpoints sample_creation].
  1-3: apply sample_bytes; unfold is_byte; lia.
  - vm_compute. split; discriminate.
  - vm_compute. repeat split; discriminate.
  - split; [done |]. split; [apply (bool_decide_eq_true_1 (Forall _ _)); closed | set_solver].
  - split; [done |]. split; [apply (bool_decide_eq_true_1 (Forall _ _)); closed | closed].
  - split; [done |]. apply (bool_decide_eq_true_1 (Forall _ _)); closed.
  - apply (bool_decide_eq_true_1 (Forall _ _)); closed.
Qed.

Lemma sample_signing_ok m :
  bytes_ok (sample_signing m) /\ zlen (sample_signing m) = 64 /\ sample_verify (replicate 32 1) (sample_signing m) m = true.
Proof.
  unfold sample_signing, sample_verify. split; [| split; [done | by apply bool_decide_eq_true]].
  apply Forall_app. split; [apply Forall_replicate; unfold is_byte; lia |]. constructor; [unfold is_byte; zdiv_lia | constructor].
Qed.

Definition sample_reading : BeaconValidationOptions := mkBeaconOptions 1700000100 None None.

Lemma created_beacon_accepted_witness :
  exists s, validateBranchTextBootstrapBeacon sample_parse_URL sample_verify sample_beacon sample_reading = accepted s
    /\ beaconPayload s = created_payload (fun _ _ => 0) (replicate 32 2) 1700000000 sample_creation
    /\ Event.publicKey (beaconEnvelope s) = replicate 32 1.
Proof.
  apply (created_beacon_accepted _ _ _ _ _ _ _ _ _ sample_reading _ sample_beacon_created sample_creation_ok sample_signing_ok);
    vm_compute; [discriminate | reflexivity].
Defined.
