(* ===== verification/IdentityContact.v ===== *)
(** * [protocol/v0/identity-contact.ts]: the signed announcement of an identity

    The envelope is in [SignedEvent].  The clock, the random identifiers, the key
    pair, the signature, the SHA-256 digest and the URL parser are arguments, as
    is [toLowerCase], whose tables for letters outside ASCII are not written
    here. *)
From S2P Require Import Prelude JsRuntime Collections Base64Url Cbor CborFacts Records Json Envelope RelayAttachment SignedEvent.

Definition branchIDDomain : jsstring := js "BRANCH identity id v0" ++ [10].
Definition maxIdentityAliasBytes : Z := 64.
Definition maxIdentityAliases : Z := 8.
Definition maxIdentityDisplayNameBytes : Z := 96.
Definition maxIdentityRouteHints : Z := 8.
Definition maxIdentityRouteTransportBytes : Z := 32.
Definition maxIdentityRouteUriBytes : Z := 512.
Definition branchIDPrefix : jsstring := js "br1.".

Definition identityContactEventType : jsstring := js "identity.announce".
Definition defaultIdentityContactProtocolVersions : list jsstring := [protocolID].
Definition defaultIdentityContactProfileMultihashes : list jsstring := [developmentProfileMultihash].

Definition contactReasons : list jsstring :=
  [js "malformed_wrapper"; js "envelope_oversized"; js "invalid_base64url"; js "invalid_cbor"; js "non_canonical_cbor";
   js "unsupported_protocol"; js "unsupported_event_type"; js "recipient_tag_present"; js "invalid_payload_mode";
   js "invalid_sender"; js "invalid_signature_alg"; js "signature_invalid"; js "expired"; js "created_in_future";
   js "payload_oversized"; js "payload_invalid"; js "payload_expiry_mismatch"; js "payload_issued_after_created";
   js "invalid_branch_id"; js "branch_id_mismatch"; js "lower_sequence"].

Module Hint.
Record IdentityContactRouteHint := mk {
  transport : jsstring;
  uri : jsstring;
  relayPublicKey : jsstring;
  profileMultihash : jsstring;
  priority : Z;
}.
End Hint.
Abbreviation IdentityContactRouteHint := Hint.IdentityContactRouteHint.

Module Contact.
Record IdentityContactPayload := mk {
  contactId : bytes;
  branchId : jsstring;
  sequence : Z;
  issuedAt : Z;
  expiresAt : Z;
  displayName : option jsstring;
  aliases : list jsstring;
  protocolVersions : list jsstring;
  profileMultihashes : list jsstring;
  routeHints : list IdentityContactRouteHint;
}.
End Contact.
Abbreviation IdentityContactPayload := Contact.IdentityContactPayload.

Record SignedIdentityContact := mkSignedContact {
  contactWrapper : jsstring;
  contactEventBytes : bytes;
  contactSignatureInput : bytes;
  contactEnvelope : SignedEnvelope;
  contactPayload : IdentityContactPayload;
}.

(** ** Branch identifiers *)

Definition branchIDFromPublicKey (sha256 : bytes -> bytes) (publicKey : bytes) : result jsstring :=
  if negb (zlen publicKey =? 32) then Throw (js "invalid_branch_id")
  else Ok (branchIDPrefix ++ encodeBase64URL ([0x12; 0x20] ++ sha256 (utf8_encode branchIDDomain ++ publicKey))).

Definition parseBranchID (value : jsstring) : result bytes :=
  if negb (starts_with value branchIDPrefix) then Throw (js "invalid_branch_id")
  else
    let? multihash := decodeBase64URL (drop 4 value) in
    if negb (zlen multihash =? 34) || negb (bool_decide (multihash !! 0%nat = Some 0x12))
       || negb (bool_decide (multihash !! 1%nat = Some 0x20))
    then Throw (js "invalid_branch_id") else Ok multihash.

(** ** Aliases *)

Section Aliases.
Context (toLowerCase : jsstring -> jsstring).

(** The pattern [^[a-z0-9][a-z0-9._-]{1,63}$]. *)
Definition alias_pattern (s : jsstring) : bool :=
  let alnum c := ((97 <=? c) && (c <=? 122)) || ((48 <=? c) && (c <=? 57)) in
  match s with
  | c :: r => alnum c && (1 <=? zlen r) && (zlen r <=? 63)
              && forallb (fun c => alnum c || existsb (Z.eqb c) [46; 95; 45]) r
  | [] => false
  end.

Definition readAlias (value : jsstring) : result jsstring :=
  let normalized := toLowerCase (js_trim value) in
  if (maxIdentityAliasBytes <? text_bytes normalized) || negb (alias_pattern normalized)
  then Throw (js "payload_invalid") else Ok normalized.

(** The loop of [normalizeAliases] over the sorted values. *)
Fixpoint distinct_texts (seen : list jsstring) (values : list jsstring) : bool :=
  match values with
  | [] => true
  | value :: values => negb (bool_decide (value ∈ seen)) && distinct_texts (value :: seen) values
  end.

Definition normalizeAliases (values : list jsstring) : result (list jsstring) :=
  let? aliases := map_result readAlias values in
  let normalized := sort_by text_cmp aliases in
  if distinct_texts [] normalized then Ok normalized else Throw (js "payload_invalid").

Definition readAliases (value : CborValue) : result (list jsstring) :=
  match value with
  | CArray vs =>
      if maxIdentityAliases <? zlen vs then Throw (js "payload_invalid")
      else
        let? aliases := map_result (fun entry => let? t := readText entry (js "alias") in readAlias t) vs in
        normalizeAliases aliases
  | _ => Throw (js "payload_invalid")
  end.
End Aliases.

Definition readDisplayName (value : CborValue) : result jsstring :=
  let? displayName := readText value (js "display_name") in
  if maxIdentityDisplayNameBytes <? text_bytes displayName then Throw (js "payload_invalid") else Ok displayName.

(** ** Route hints *)

Definition readRelayPublicKey (value : CborValue) : result jsstring :=
  let? relayPublicKey := readText value (js "relay_public_key") in
  let? decoded := decodeBase64URL relayPublicKey in
  if negb (zlen decoded =? 32) then Throw (js "payload_invalid") else Ok relayPublicKey.

(** The fields of one entry in [readRouteHints]. *)
Definition read_hint (entry : CborValue) : result IdentityContactRouteHint :=
  let? hintMap := readCborMap entry (js "route_hint") in
  let? _ := rejectUnknownEntries hintMap
    [js "transport"; js "uri"; js "relay_public_key"; js "profile_multihash"; js "priority"] in
  let? transportValue := getRequiredEntry hintMap (js "transport") in
  let? transport := readBoundedTransport maxIdentityRouteTransportBytes transportValue in
  let? uriValue := getRequiredEntry hintMap (js "uri") in
  let? uri := readBoundedUri maxIdentityRouteUriBytes uriValue in
  let? keyValue := getRequiredEntry hintMap (js "relay_public_key") in
  let? relayPublicKey := readRelayPublicKey keyValue in
  let? profileMultihash := text_field hintMap (js "profile_multihash") in
  let? priority := number_field hintMap (js "priority") in
  Ok (Hint.mk transport uri relayPublicKey profileMultihash priority).

Definition hint_key (h : IdentityContactRouteHint) : jsstring :=
  Hint.transport h ++ [0] ++ Hint.uri h ++ [0] ++ Hint.relayPublicKey h.

Section Contacts.
Context (parse_URL : jsstring -> option URL) (toLowerCase : jsstring -> jsstring) (sha256 : bytes -> bytes).

Definition check_hint (h : IdentityContactRouteHint) : result unit :=
  if str_eqb (Hint.transport h) (js "wss") then validateWssEndpointUri parse_URL (Hint.uri h) else Ok tt.

Definition readRouteHints (value : CborValue) : result (list IdentityContactRouteHint) :=
  match value with
  | CArray vs =>
      if maxIdentityRouteHints <? zlen vs then Throw (js "payload_invalid")
      else ordered_items read_hint Hint.priority hint_key check_hint (-1) [] vs
  | _ => Throw (js "payload_invalid")
  end.

(** ** The payload *)

Definition contactPayloadKeys : list jsstring :=
  [js "contact_id"; js "branch_id"; js "sequence"; js "issued_at"; js "expires_at"; js "display_name"; js "aliases";
   js "protocol_versions"; js "profile_multihashes"; js "route_hints"].

Definition readIdentityPayload (b : bytes) (supportedProfileMultihashes : list jsstring) : result IdentityContactPayload :=
  if maxCborBytes <? zlen b then Throw (js "payload_oversized")
  else
    let? decoded := decodeCborForValidation b in
    let? payloadMap := readCborMap decoded (js "identity_contact_payload") in
    let? _ := rejectUnknownEntries payloadMap contactPayloadKeys in
    let? branchId := text_field payloadMap (js "branch_id") in
    let? _ := parseBranchID branchId in
    let? protocolVersions := readOrderedUniqueTextArray maxIdentityAliasBytes payloadMap (js "protocol_versions") 8 in
    let? profileMultihashes := readOrderedUniqueTextArray maxIdentityAliasBytes payloadMap (js "profile_multihashes") 8 in
    if negb (bool_decide (protocolID ∈ protocolVersions))
       || negb (hasSupportedProfile profileMultihashes supportedProfileMultihashes)
    then Throw (js "payload_invalid")
    else
      let? contactId := bytes_field payloadMap (js "contact_id") (Some 32) in
      let? sequence := number_field payloadMap (js "sequence") in
      let? issuedAt := timestamp_field payloadMap (js "issued_at") in
      let? expiresAt := timestamp_field payloadMap (js "expires_at") in
      let? displayName :=
        if hasEntry payloadMap (js "display_name")
        then let? value := getRequiredEntry payloadMap (js "display_name") in
             let? name := readDisplayName value in Ok (Some name)
        else Ok None in
      let? aliasesValue := getRequiredEntry payloadMap (js "aliases") in
      let? aliases := readAliases toLowerCase aliasesValue in
      let? hintsValue := getRequiredEntry payloadMap (js "route_hints") in
      let? routeHints := readRouteHints hintsValue in
      Ok (Contact.mk contactId branchId sequence issuedAt expiresAt displayName aliases protocolVersions
            profileMultihashes routeHints).

Definition hint_map (h : IdentityContactRouteHint) : CborValue :=
  CMap [(js "transport", CText (Hint.transport h)); (js "uri", CText (Hint.uri h));
        (js "relay_public_key", CText (Hint.relayPublicKey h));
        (js "profile_multihash", CText (Hint.profileMultihash h)); (js "priority", CNum (Int (Hint.priority h)))].

Definition contact_entries (p : IdentityContactPayload) : CborMap :=
  [(js "contact_id", CBytes (Contact.contactId p)); (js "branch_id", CText (Contact.branchId p));
   (js "sequence", CNum (Int (Contact.sequence p))); (js "issued_at", CNum (Int (Contact.issuedAt p)));
   (js "expires_at", CNum (Int (Contact.expiresAt p))); (js "aliases", CArray (CText <$> Contact.aliases p));
   (js "protocol_versions", CArray (CText <$> Contact.protocolVersions p));
   (js "profile_multihashes", CArray (CText <$> Contact.profileMultihashes p));
   (js "route_hints", CArray (hint_map <$> Contact.routeHints p))]
  ++ match Contact.displayName p with Some s => [(js "display_name", CText s)] | None => [] end.

Definition encodeIdentityContactPayload (p : IdentityContactPayload) : result bytes :=
  encodeDeterministicCbor (CMap (contact_entries p)).

(** ** Validation *)

Section Validation.
Context (verify : bytes -> bytes -> bytes -> bool).

Record ContactValidationOptions := mkContactOptions {
  contactNow : Z;
  contactSkew : option Z;
  contactProfiles : option (list jsstring);
  contactMinimumSequence : option Z;
}.

Definition validateBranchTextIdentityContact (wrapper : jsstring) (o : ContactValidationOptions)
  : validated SignedIdentityContact :=
  validateSignedEvent contactReasons identityContactEventType verify wrapper (contactNow o)
    (default defaultMaxFutureSkewSeconds (contactSkew o))
    (fun signedEventBytes signatureInputBytes envelope =>
       let? payload := readIdentityPayload (Event.payloadBytes envelope)
                         (default defaultIdentityContactProfileMultihashes (contactProfiles o)) in
       if negb (Contact.expiresAt payload =? Event.expiresAt envelope)
       then Ok (rejected_for (js "payload_expiry_mismatch"))
       else if Event.createdAt envelope <? Contact.issuedAt payload
       then Ok (rejected_for (js "payload_issued_after_created"))
       else if match contactMinimumSequence o with Some m => Contact.sequence payload <? m | None => false end
       then Ok (rejected_for (js "lower_sequence"))
       else
         let? expectedBranchID := branchIDFromPublicKey sha256 (Event.publicKey envelope) in
         if negb (str_eqb (Contact.branchId payload) expectedBranchID)
         then Ok (rejected_for (js "branch_id_mismatch"))
         else Ok (accepted (mkSignedContact wrapper signedEventBytes signatureInputBytes envelope payload))).

Definition assertValidBranchTextIdentityContact (wrapper : jsstring) (o : ContactValidationOptions)
  : result SignedIdentityContact :=
  match validateBranchTextIdentityContact wrapper o with
  | accepted contact => Ok contact
  | rejected_for reason => Throw (js "BRANCH0 identity.announce rejected: " ++ reason)
  end.
End Validation.

(** ** Creation *)

(** [localeCompare] is the collation of the browser. *)
Definition hint_cmp (localeCompare : jsstring -> jsstring -> Z) (left right : IdentityContactRouteHint) : Z :=
  let a := Hint.priority left - Hint.priority right in
  let b := localeCompare (Hint.transport left) (Hint.transport right) in
  if negb (a =? 0) then a else if negb (b =? 0) then b else localeCompare (Hint.uri left) (Hint.uri right).

Definition normalizeRouteHints (localeCompare : jsstring -> jsstring -> Z) (hints : list IdentityContactRouteHint)
  : result (list IdentityContactRouteHint) :=
  readRouteHints (CArray (hint_map <$> sort_by (hint_cmp localeCompare) hints)).

Record CreateIdentityContactOptions := mkCreateContact {
  createContactExpiresAt : option Z;
  createContactSequence : option Z;
  createContactId : option bytes;
  createContactEventId : option bytes;
  createContactDisplayName : option jsstring;
  createContactAliases : option (list jsstring);
  createContactVersions : option (list jsstring);
  createContactProfiles : option (list jsstring);
  createContactHints : option (list IdentityContactRouteHint);
}.

(** [publicKey] and [sign] are the generated key pair, [random1] and [random2]
    what [randomBytes(32)] answers for the two identifiers. *)
Definition createIdentityContactWrapper (localeCompare : jsstring -> jsstring -> Z) (publicKey : bytes)
    (sign : bytes -> bytes) (random1 random2 : bytes) (now : Z) (o : CreateIdentityContactOptions) : result jsstring :=
  let expiresAt := default (now + defaultLifetimeSeconds) (createContactExpiresAt o) in
  let? protocolVersions := normalizeOrderedTextSet maxIdentityAliasBytes
    (default defaultIdentityContactProtocolVersions (createContactVersions o)) (js "protocol_versions") in
  let? profileMultihashes := normalizeOrderedTextSet maxIdentityAliasBytes
    (default defaultIdentityContactProfileMultihashes (createContactProfiles o)) (js "profile_multihashes") in
  let? routeHints := normalizeRouteHints localeCompare (default [] (createContactHints o)) in
  let? branchId := branchIDFromPublicKey sha256 publicKey in
  let? aliases := normalizeAliases toLowerCase (default [] (createContactAliases o)) in
  let? payloadBytes := encodeIdentityContactPayload
    (Contact.mk (default random1 (createContactId o)) branchId (default 1 (createContactSequence o)) now expiresAt
       (createContactDisplayName o) aliases protocolVersions profileMultihashes routeHints) in
  createSignedWrapper identityContactEventType sign (default random2 (createContactEventId o)) publicKey now expiresAt
    payloadBytes.
End Contacts.
