(* ===== verification/ContactFacts.v ===== *)
(** * [protocol/v0/identity-contact.ts]: what a contact is, and that created ones are accepted *)
From Stdlib Require Import Sorting.Sorted.
From S2P Require Import Prelude JsRuntime Collections Base64Url Cbor CborFacts Records NestedRecords Json Envelope RelayAttachment SignedEvent SignedEventFacts IdentityContact.

(** ** Base64url texts in a payload *)

Lemma base64url_ascii s : Base64Url.validBase64URL s = true -> Forall (fun c => 0 <= c < 128) s.
Proof.
  unfold Base64Url.validBase64URL. intros H. bool_props. apply Forall_forall. intros c Hc%list_elem_of_In.
  match goal with H : forallb _ s = true |- _ => apply (proj1 (forallb_forall _ _) H) in Hc end.
  unfold url_class in Hc. lia.
Qed.

Lemma base64url_text prefix s b n :
  Forall (fun c => 0 <= c < 128) prefix -> decodeBase64URL s = Ok b ->
  zlen prefix + zlen s <= n -> text_ok n (prefix ++ s).
Proof.
  intros Hp Hd Hl. apply decodeBase64URL_ok in Hd as (Hv & _ & _).
  assert (Ha : Forall (fun c => 0 <= c < 128) (prefix ++ s)) by (apply Forall_app; split; [done | by apply base64url_ascii]).
  split; [| split].
  - unfold Base64Url.validBase64URL in Hv. bool_props. destruct prefix; [by destruct s | done].
  - unfold text_bytes. rewrite (ascii_encoding _ Ha), zlen_app. lia.
  - by apply ascii_plain.
Qed.

Definition relay_key_ok (s : jsstring) : Prop := exists k, decodeBase64URL s = Ok k /\ zlen k = 32.

Lemma relay_key_text s : relay_key_ok s -> text_ok 43 s.
Proof.
  intros (k & Hd & Hl). apply (base64url_text [] s k); [by apply Forall_nil | done |].
  apply decodeBase64URL_ok in Hd as (_ & _ & E). change (zlen []) with 0. zdiv_lia.
Qed.

Lemma readRelayPublicKey_Ok v s : readRelayPublicKey v = Ok s <-> v = CText s /\ relay_key_ok s.
Proof.
  unfold readRelayPublicKey. split.
  - intros H. step H as t Et. apply read_text_Ok in Et as (-> & _). step H as k Ek. case_match; [done |]. injection H as ->.
    bool_props. split; [done |]. by exists k.
  - intros [-> Hs]. pose proof (relay_key_text s Hs) as (Hne & Hb & _). destruct Hs as (k & Hd & Hl).
    rewrite (proj2 (read_text_Ok _ (js "relay_public_key") s)) by (unfold maxCborTextBytes; split; [done | split; [done | lia]]).
    rewrite Hd. by test (zlen k =? 32) true.
Qed.

Definition branch_id_ok (s : jsstring) : Prop := exists multihash, parseBranchID s = Ok multihash.

Lemma branch_id_text s : branch_id_ok s -> text_ok 64 s.
Proof.
  intros (m & H). unfold parseBranchID in H. destruct (starts_with s branchIDPrefix) eqn:Ep; [| done]. cbn [negb] in H.
  apply starts_with_spec in Ep as [t ->]. change (drop 4 (branchIDPrefix ++ t)) with t in H. step H as b Eb.
  destruct (Z.eqb_spec (zlen b) 34); [| done]. apply (base64url_text branchIDPrefix t b); [| done |].
  - apply (bool_decide_eq_true_1 (Forall _ _)); closed.
  - apply decodeBase64URL_ok in Eb as (_ & _ & E). change (zlen branchIDPrefix) with 4. zdiv_lia.
Qed.

(** The identifier of a key can be parsed back: it names the digest. *)
Lemma branch_id_parsed sha256 publicKey :
  (forall m, bytes_ok (sha256 m) /\ zlen (sha256 m) = 32) -> zlen publicKey = 32 ->
  exists s, branchIDFromPublicKey sha256 publicKey = Ok s
    /\ parseBranchID s = Ok ([0x12; 0x20] ++ sha256 (utf8_encode branchIDDomain ++ publicKey)).
Proof.
  intros Hsha Hk. unfold branchIDFromPublicKey. test (zlen publicKey =? 32) true. cbn [negb]. eexists. split; [done |].
  set (d := sha256 _). destruct (Hsha (utf8_encode branchIDDomain ++ publicKey)) as [Hd Hl]. fold d in Hd, Hl.
  unfold parseBranchID. rewrite starts_with_app. cbn [negb].
  change (drop 4 (branchIDPrefix ++ ?t)) with t. rewrite decode_encodeBase64URL.
  - rewrite zlen_app, Hl. done.
  - apply Forall_app. split; [| done]. apply (bool_decide_eq_true_1 (Forall _ _)); closed.
  - done.
Qed.

(** ** Aliases *)

Section Aliases.
Context (toLowerCase : jsstring -> jsstring).
(** What [toLowerCase] does on letters of ASCII. *)
Context (lower_small : forall s, Forall (fun c => 0 <= c < 128 /\ ~ 65 <= c <= 90) s -> toLowerCase s = s).

Lemma trim_id s : Forall (fun c => is_js_space c = false) s -> js_trim s = s.
Proof.
  assert (H : forall l, Forall (fun c => is_js_space c = false) l -> trim_start l = l).
  { intros l Hl. destruct Hl as [|c l Hc _]; [done |]. cbn. by rewrite Hc. }
  intros Hs. unfold js_trim. rewrite (H s) by done. rewrite H by (by apply Forall_reverse). apply reverse_involutive.
Qed.

Lemma alias_chars s :
  alias_pattern s = true -> Forall (fun c => (97 <= c <= 122 \/ 48 <= c <= 57) \/ c = 46 \/ c = 95 \/ c = 45) s.
Proof.
  unfold alias_pattern. destruct s as [|c r]; [done |]. cbv zeta. intros H. bool_props. constructor; [lia |].
  apply Forall_forall. intros x Hx%list_elem_of_In.
  match goal with H : forallb _ r = true |- _ => apply (proj1 (forallb_forall _ _) H) in Hx end.
  cbn [existsb] in Hx. lia.
Qed.

Lemma alias_text s : alias_pattern s = true -> text_ok 64 s.
Proof.
  intros Ha. pose proof (alias_chars s Ha) as Hc.
  assert (Hascii : Forall (fun c => 0 <= c < 128) s) by (eapply Forall_impl; [exact Hc | intros c ?; cbn in *; lia]).
  split; [by destruct s |]. split; [| by apply ascii_plain]. unfold text_bytes. rewrite ascii_encoding by done.
  unfold alias_pattern in Ha. destruct s as [|c r]; [done |]. bool_props. rewrite zlen_cons. lia.
Qed.

Lemma readAlias_Ok s a : readAlias toLowerCase s = Ok a <-> a = toLowerCase (js_trim s) /\ alias_pattern a = true.
Proof.
  unfold readAlias. split.
  - case_match; [done |]. intros [= <-]. by bool_props.
  - intros [-> Hp]. destruct (alias_text _ Hp) as (_ & Hb & _). rewrite Hp. unfold maxIdentityAliasBytes.
    by test (64 <? text_bytes (toLowerCase (js_trim s))) false.
Qed.

(** An alias that was read is read as itself. *)
Lemma readAlias_id a : alias_pattern a = true -> readAlias toLowerCase a = Ok a.
Proof.
  intros Ha. apply readAlias_Ok. split; [| done]. pose proof (alias_chars a Ha) as Hc. rewrite trim_id.
  - symmetry. apply lower_small. eapply Forall_impl; [exact Hc |]. intros c ?; cbn in *; lia.
  - eapply Forall_impl; [exact Hc |]. intros c Hx; cbn in Hx. unfold is_js_space. lia.
Qed.

Lemma distinct_spec seen l : distinct_texts seen l = true <-> NoDup l /\ Forall (fun s => s ∉ seen) l.
Proof.
  revert seen. induction l as [|s l IH]; intros seen; cbn [distinct_texts].
  - split; [intros _ | done]. split; [apply NoDup_nil_2 | by apply Forall_nil].
  - rewrite andb_true_iff, negb_true_iff, bool_decide_eq_false, IH, NoDup_cons, Forall_cons.
    rewrite !Forall_forall. setoid_rewrite elem_of_cons. split.
    + intros (Hs & Hn & Hf). split; [split; [| done] |]; [intros Hin; by apply (Hf s Hin); left |].
      split; [done |]. intros x Hx Hin. by apply (Hf x Hx); right.
    + intros ((Hs & Hn) & Hse & Hf). split; [done |]. split; [done |]. intros x Hx [->|Hin]; [done |]. by apply (Hf x Hx).
Qed.

Lemma map_result_Forall2 {A B} (f : A -> result B) l k : map_result f l = Ok k <-> Forall2 (fun x y => f x = Ok y) l k.
Proof.
  revert k. induction l as [|x l IH]; intros k; cbn [map_result].
  - split; [intros [= <-]; apply Forall2_nil_2 | by inversion 1].
  - split.
    + intros H. step H as y Ey. step H as r Er. injection H as <-. constructor; [done |]. by apply (proj1 (IH r)).
    + inversion 1 as [|? y ? r Hy Hr]; subst. rewrite Hy. by rewrite (proj2 (IH r)).
Qed.

(** [raw] normalises to the aliases [l]. *)
Definition aliases_from (raw l : list jsstring) : Prop :=
  exists once, Forall2 (fun r a => a = toLowerCase (js_trim r) /\ alias_pattern a = true) raw once
    /\ NoDup once /\ l = sort_by text_cmp once.

Lemma normalizeAliases_Ok raw l : normalizeAliases toLowerCase raw = Ok l <-> aliases_from raw l.
Proof.
  unfold normalizeAliases, aliases_from. split.
  - intros H. step H as once Eo. destruct (distinct_texts _ _) eqn:Ed; [| done]. injection H as <-. exists once.
    apply map_result_Forall2 in Eo. split; [| split; [| done]].
    + eapply Forall2_impl; [exact Eo |]. intros r a. apply readAlias_Ok.
    + apply distinct_spec in Ed as [Hn _]. by rewrite sort_by_perm in Hn.
  - intros (once & Hf & Hn & ->). rewrite (proj2 (map_result_Forall2 _ raw once)).
    + rewrite (proj2 (distinct_spec [] _)); [done |]. split; [by rewrite sort_by_perm |]. apply Forall_forall. set_solver.
    + eapply Forall2_impl; [exact Hf |]. intros r a. apply readAlias_Ok.
Qed.

Lemma aliases_pattern raw l : aliases_from raw l -> Forall (fun a => alias_pattern a = true) l.
Proof.
  intros (once & Hf & _ & ->). apply Forall_forall. intros a Ha. rewrite sort_by_perm in Ha.
  apply list_elem_of_lookup in Ha as [i Hi]. by destruct (Forall2_lookup_r _ _ _ _ _ Hf Hi) as (r & _ & _ & ?).
Qed.

Lemma aliases_from_patterns l once :
  Forall (fun a => alias_pattern a = true) l -> Forall2 (fun r a => a = toLowerCase (js_trim r) /\ alias_pattern a = true) l once -> once = l.
Proof.
  intros Hl. revert once. induction Hl as [|a l Ha _ IH]; intros once; [by inversion 1 |].
  inversion 1 as [|? b ? r [Hb _] Hr]; subst. f_equal; [| by apply IH].
  apply readAlias_id in Ha. by apply readAlias_Ok in Ha as [<- _].
Qed.

Lemma normalized_twice l : Forall (fun a => alias_pattern a = true) l -> NoDup l -> aliases_from l (sort_by text_cmp l).
Proof.
  intros Hl Hn. exists l. split; [| done]. clear Hn. induction Hl as [|a l Ha _ IH]; constructor; [| done].
  apply readAlias_Ok. by apply readAlias_id.
Qed.

(** The array of aliases of a payload: at most eight raw texts. *)
Lemma readAliases_Ok v l :
  readAliases toLowerCase v = Ok l <->
  exists raw, v = CArray (CText <$> raw) /\ zlen raw <= maxIdentityAliases
    /\ Forall (fun s => s <> [] /\ text_bytes s <= maxCborTextBytes) raw /\ aliases_from raw l.
Proof.
  assert (Hread : forall vs once,
    map_result (fun entry => let? t := readText entry (js "alias") in readAlias toLowerCase t) vs = Ok once <->
    exists raw, vs = CText <$> raw /\ Forall (fun s => s <> [] /\ text_bytes s <= maxCborTextBytes) raw
      /\ Forall2 (fun r a => a = toLowerCase (js_trim r) /\ alias_pattern a = true) raw once).
  { intros vs once. rewrite map_result_Forall2. split.
    - induction 1 as [|e a vs once Hv _ (raw & -> & Hr & Hf)]; [exists []; split; [done | split; constructor] |].
      step Hv as t Et. apply read_text_Ok in Et as (-> & Ht). apply readAlias_Ok in Hv. exists (t :: raw).
      split; [done |]. split; by constructor.
    - intros (raw & -> & Hr & Hf). induction Hf as [|r a raw once Ha _ IH]; [constructor |]. inversion Hr; subst.
      csimpl. constructor; [| by apply IH]. rewrite (proj2 (read_text_Ok _ (js "alias") r)) by done. by apply readAlias_Ok. }
  unfold readAliases. split.
  - destruct v as [| | | |vs|]; try done. destruct (Z.ltb_spec maxIdentityAliases (zlen vs)); [done |]. intros Hn.
    step Hn as once Eo. apply Hread in Eo as (raw & -> & Hr & Hf). apply normalizeAliases_Ok in Hn as (o2 & Hf2 & Hn & ->).
    assert (Ho : Forall (fun a => alias_pattern a = true) once).
    { apply Forall_forall. intros a [i Hi]%list_elem_of_lookup. by destruct (Forall2_lookup_r _ _ _ _ _ Hf Hi) as (r & _ & _ & ?). }
    apply aliases_from_patterns in Hf2 as ->; [| done]. rewrite zlen_fmap in *. exists raw.
    split; [done |]. split; [lia |]. split; [done |]. by exists once.
  - intros (raw & -> & Hl & Hr & (once & Hf & Hn & ->)). rewrite zlen_fmap. test (maxIdentityAliases <? zlen raw) false.
    rewrite (proj2 (Hread _ once)) by (by exists raw). apply normalizeAliases_Ok, normalized_twice; [| done].
    apply Forall_forall. intros a [i Hi]%list_elem_of_lookup. by destruct (Forall2_lookup_r _ _ _ _ _ Hf Hi) as (r & _ & _ & ?).
Qed.
End Aliases.

(** ** Route hints *)

Definition hint_entries (h : IdentityContactRouteHint) : CborMap :=
  [(js "transport", CText (Hint.transport h)); (js "uri", CText (Hint.uri h));
   (js "relay_public_key", CText (Hint.relayPublicKey h));
   (js "profile_multihash", CText (Hint.profileMultihash h)); (js "priority", CNum (Int (Hint.priority h)))].

Definition hint_keys : list jsstring :=
  [js "transport"; js "uri"; js "relay_public_key"; js "profile_multihash"; js "priority"].

Definition hint_ok (h : IdentityContactRouteHint) : Prop :=
  (text_bytes (Hint.transport h) <= maxIdentityRouteTransportBytes /\ transport_pattern (Hint.transport h) = true)
  /\ text_ok maxIdentityRouteUriBytes (Hint.uri h) /\ relay_key_ok (Hint.relayPublicKey h)
  /\ text_ok maxCborTextBytes (Hint.profileMultihash h) /\ 0 <= Hint.priority h <= MAX_SAFE_INTEGER.

Lemma hint_entries_wf h : map_wf (hint_entries h) /\ Forall (fun k => k ∈ hint_keys) (map_keys (hint_entries h)).
Proof. split; [apply (bool_decide_eq_true_1 (NoDup _)); closed | apply (bool_decide_eq_true_1 (Forall _ _)); closed]. Qed.

Lemma hint_fields h : hint_ok h -> Forall (fun x => good x.2) (hint_entries h).
Proof.
  intros ([Ht Hp] & Hu & Hk & Hm & Hpr). unfold hint_entries. repeat (apply Forall_cons; split); cbn [snd].
  - apply good_text, encodable_text_iff. unfold text_bytes, maxIdentityRouteTransportBytes, maxCborTextBytes in *.
    split; [by apply transport_plain | lia].
  - by apply good_text, (text_ok_encodable maxIdentityRouteUriBytes).
  - apply good_text, (text_ok_encodable 43); [done | by apply relay_key_text].
  - by apply good_text, (text_ok_encodable maxCborTextBytes).
  - by apply good_num.
  - by apply Forall_nil.
Qed.

Lemma hint_encodable h : hint_ok h -> encodable (hint_map h) = true.
Proof.
  intros Hh. destruct (hint_entries_wf h). apply (good_map hint_keys); [done | done | | done | by apply hint_fields].
  apply (bool_decide_eq_true_1 (Forall _ _)); closed.
Qed.

(** The fields of a hint, read from a map that has them. *)
Lemma read_hint_inv v h :
  read_hint v = Ok h ->
  exists m, v = CMap m /\ rejectUnknownEntries m hint_keys = Ok tt
    /\ (forall k, k ∈ hint_keys -> map_get m k = map_get (hint_entries h) k)
    /\ (text_bytes (Hint.transport h) <= maxIdentityRouteTransportBytes /\ transport_pattern (Hint.transport h) = true)
    /\ (Hint.uri h <> [] /\ text_bytes (Hint.uri h) <= maxIdentityRouteUriBytes) /\ relay_key_ok (Hint.relayPublicKey h)
    /\ (Hint.profileMultihash h <> [] /\ text_bytes (Hint.profileMultihash h) <= maxCborTextBytes)
    /\ 0 <= Hint.priority h <= MAX_SAFE_INTEGER.
Proof.
  unfold read_hint. intros H. step H as m Em. step H as [] Eu. step H as tv Etv. step H as t Et. step H as uv Euv.
  step H as u Eu'. step H as kv Ekv. step H as k Ek. step H as f Ef. step H as p Ep. injection H as <-.
  apply readCborMap_Ok in Em as ->. apply getRequiredEntry_Ok in Etv, Euv, Ekv.
  apply readBoundedTransport_Ok in Et as (-> & Ht); [| done]. apply readBoundedUri_Ok in Eu' as (-> & Hu); [| done].
  apply readRelayPublicKey_Ok in Ek as [-> Hk]. apply text_field_Ok in Ef as (Hgf & Hf). apply number_field_Ok in Ep as (Hgp & Hps & Hp0).
  exists m. cbn [Hint.transport Hint.uri Hint.relayPublicKey Hint.profileMultihash Hint.priority].
  split; [done |]. split; [done |]. split.
  - intros name Hin. unfold hint_keys in Hin.
    repeat (apply elem_of_cons in Hin as [->|Hin]); try (by apply elem_of_nil in Hin);
      first [exact Etv | exact Euv | exact Ekv | exact Hgf | exact Hgp].
  - split; [done |]. split; [done |]. split; [done |]. split; [done |]. unfold is_safe in Hps. bool_props. lia.
Qed.

Lemma read_hint_sound v h : encodable v = true -> canon v = v -> read_hint v = Ok h -> hint_ok h /\ v = canon (hint_map h).
Proof.
  intros He Hc H. apply read_hint_inv in H as (m & -> & Hun & Hg & Ht & (Hu1 & Hu2) & Hk & (Hf1 & Hf2) & Hp).
  assert (Hplain : forall k s, k ∈ hint_keys -> map_get (hint_entries h) k = Some (CText s) -> plain_text s = true).
  { intros k s Hin Hs. apply (text_sound_plain m k s He). by rewrite Hg. }
  assert (Hok : hint_ok h).
  { split; [done |]. split; [split; [done |]; split; [done |]; apply (Hplain (js "uri")); [set_solver | done] |].
    split; [done |]. split; [split; [done |]; split; [done |]; apply (Hplain (js "profile_multihash")); [set_solver | done] | done]. }
  split; [done |]. destruct (hint_entries_wf h) as [Hw Hn]. pose proof (hint_fields h Hok) as Hf.
  apply (inner_record_read m hint_keys (hint_entries h)); try done.
  - eapply Forall_impl; [exact Hf | by intros x []].
  - intros k Hin. rewrite Hg by done. destruct (map_get (hint_entries h) k) as [v|] eqn:E; [| done].
    apply map_get_Some_elem in E. rewrite Forall_forall in Hf. destruct (Hf _ E) as [_ Hcv]. cbn in Hcv |- *. by rewrite Hcv.
Qed.

Lemma read_hint_fields m h :
  hint_ok h -> rejectUnknownEntries m hint_keys = Ok tt ->
  (forall k, k ∈ hint_keys -> map_get m k = map_get (hint_entries h) k) -> read_hint (CMap m) = Ok h.
Proof.
  intros ([Ht Hp] & (Hu1 & Hu2 & _) & Hk & (Hf1 & Hf2 & _) & Hpr) Hun Hg. unfold read_hint. cbn [readCborMap].
  unfold hint_keys in Hun. rewrite Hun.
  rewrite (proj2 (getRequiredEntry_Ok m (js "transport") (CText (Hint.transport h)))) by (rewrite Hg; [done | set_solver]).
  rewrite (proj2 (readBoundedTransport_Ok maxIdentityRouteTransportBytes _ (Hint.transport h) ltac:(done))) by done.
  rewrite (proj2 (getRequiredEntry_Ok m (js "uri") (CText (Hint.uri h)))) by (rewrite Hg; [done | set_solver]).
  rewrite (proj2 (readBoundedUri_Ok maxIdentityRouteUriBytes _ (Hint.uri h) ltac:(done))) by done.
  rewrite (proj2 (getRequiredEntry_Ok m (js "relay_public_key") (CText (Hint.relayPublicKey h)))) by (rewrite Hg; [done | set_solver]).
  rewrite (proj2 (readRelayPublicKey_Ok _ (Hint.relayPublicKey h))) by done.
  rewrite (proj2 (text_field_Ok m (js "profile_multihash") (Hint.profileMultihash h))) by (split; [rewrite Hg; [done | set_solver] | done]).
  rewrite (proj2 (number_field_Ok m (js "priority") (Hint.priority h))).
  - by destruct h.
  - split; [rewrite Hg; [done | set_solver] |]. unfold is_safe. split; lia.
Qed.

Lemma read_hint_canon h : hint_ok h -> read_hint (canon (hint_map h)) = Ok h.
Proof.
  intros Hh. destruct (hint_entries_wf h) as [Hw Hn]. pose proof (hint_fields h Hh) as Hf.
  destruct (inner_record_written hint_keys (hint_entries h)) as (m & Hm & Hu & Hg); [by apply (hint_encodable h) | done |].
  change (hint_map h) with (CMap (hint_entries h)). rewrite Hm. apply read_hint_fields; [done | done |]. intros k Hk. rewrite Hg.
  destruct (map_get (hint_entries h) k) as [v|] eqn:E; [| done]. cbn. f_equal. apply map_get_Some_elem in E.
  rewrite Forall_forall in Hf. by destruct (Hf _ E).
Qed.

(** Reading a hint back before it is encoded. *)
Lemma read_hint_map h h' :
  read_hint (hint_map h) = Ok h' -> plain_text (Hint.uri h) = true /\ plain_text (Hint.profileMultihash h) = true ->
  h' = h /\ hint_ok h.
Proof.
  intros H [Hp1 Hp2]. apply read_hint_inv in H as (m & [= <-] & _ & Hg & Ht & Hu & Hk & Hf & Hp).
  assert (E : h' = h).
  { pose proof (Hg (js "transport") ltac:(set_solver)) as E1. pose proof (Hg (js "uri") ltac:(set_solver)) as E2.
    pose proof (Hg (js "relay_public_key") ltac:(set_solver)) as E3. pose proof (Hg (js "profile_multihash") ltac:(set_solver)) as E4.
    pose proof (Hg (js "priority") ltac:(set_solver)) as E5. destruct h, h'. vm_compute in E1, E2, E3, E4, E5. congruence. }
  subst. split; [done |]. unfold hint_ok, text_ok. tauto.
Qed.

Lemma hint_size h : hint_ok h -> zlen (enc (hint_map h)) <= 1750.
Proof.
  intros Hh. pose proof (hint_encodable h Hh) as Hen.
  destruct Hh as ([Ht _] & (_ & Hu & _) & Hk & (_ & Hf & _) & _). apply relay_key_text in Hk as (_ & Hk & _).
  unfold text_bytes, maxIdentityRouteTransportBytes, maxIdentityRouteUriBytes, maxCborTextBytes in *.
  etrans; [apply (record_size (hint_entries h)); [exact Hen | by apply encode_total] |].
  unfold hint_entries. entry_sizes. lia.
Qed.

Section Hints.
Context (parse_URL : jsstring -> option URL).

Definition hints_ok (l : list IdentityContactRouteHint) : Prop :=
  zlen l <= maxIdentityRouteHints /\ Forall hint_ok l
  /\ items_ok Hint.priority hint_key (check_hint parse_URL) l.

Lemma readRouteHints_inv v l :
  readRouteHints parse_URL v = Ok l <->
  exists vs, v = CArray vs /\ zlen vs <= maxIdentityRouteHints /\ Forall2 (fun v x => read_hint v = Ok x) vs l
    /\ items_ok Hint.priority hint_key (check_hint parse_URL) l.
Proof.
  assert (Hpr : forall v x, read_hint v = Ok x -> 0 <= Hint.priority x).
  { intros e x H. by apply read_hint_inv in H as (m & _ & _ & _ & _ & _ & _ & _ & [? _]). }
  unfold readRouteHints. split.
  - destruct v as [| | | |vs|]; try done. destruct (Z.ltb_spec maxIdentityRouteHints (zlen vs)); [done |]. intros Es.
    apply ordered_records_Ok in Es as [Hr Hi]; [| done]. by exists vs.
  - intros (vs & -> & Hl & Hr & Hi). test (maxIdentityRouteHints <? zlen vs) false. by apply ordered_records_Ok.
Qed.

Lemma hints_read v l :
  encodable v = true -> canon v = v -> readRouteHints parse_URL v = Ok l -> hints_ok l /\ v = canon (CArray (hint_map <$> l)).
Proof.
  intros He Hc (vs & -> & Hl & Hr & Hi)%readRouteHints_inv.
  destruct (records_read _ _ _ read_hint_sound vs l He Hc Hr) as [Hf Heq]. split; [| done].
  injection Heq as ->. rewrite !zlen_fmap in Hl. by split.
Qed.

Lemma hints_written l : hints_ok l -> readRouteHints parse_URL (canon (CArray (hint_map <$> l))) = Ok l.
Proof.
  intros (Hl & Hf & Hi). apply readRouteHints_inv. exists (canon <$> (hint_map <$> l)).
  rewrite !zlen_fmap. split; [done |]. split; [done |]. split; [| done]. by apply (records_written _ _ _ read_hint_canon).
Qed.

Lemma normalized_hints localeCompare hints l :
  normalizeRouteHints parse_URL localeCompare hints = Ok l ->
  Forall (fun h => plain_text (Hint.uri h) = true /\ plain_text (Hint.profileMultihash h) = true) hints ->
  l = sort_by (hint_cmp localeCompare) hints /\ hints_ok l.
Proof.
  unfold normalizeRouteHints. intros H Hp. apply readRouteHints_inv in H as (vs & [= <-] & Hl & Hr & Hi). rewrite zlen_fmap in Hl.
  rewrite <- (sort_by_perm (hint_cmp localeCompare) hints) in Hp.
  set (k := sort_by (hint_cmp localeCompare) hints) in *.
  destruct (records_map _ _ _ _ k l read_hint_map Hp Hr) as [-> Hf]. split; [done |]. by split.
Qed.
End Hints.

(** ** The payload *)

Section Payload.
Context (parse_URL : jsstring -> option URL) (toLowerCase : jsstring -> jsstring) (supported : list jsstring).
Context (lower_small : forall s, Forall (fun c => 0 <= c < 128 /\ ~ 65 <= c <= 90) s -> toLowerCase s = s).

(** The payload as it is written, with the aliases before they are normalised. *)
Definition with_aliases (p : IdentityContactPayload) (raw : list jsstring) : IdentityContactPayload :=
  Contact.mk (Contact.contactId p) (Contact.branchId p) (Contact.sequence p) (Contact.issuedAt p) (Contact.expiresAt p)
    (Contact.displayName p) raw (Contact.protocolVersions p) (Contact.profileMultihashes p) (Contact.routeHints p).

Record contact_ok (p : IdentityContactPayload) : Prop := {
  ok_contactId : bytes_ok (Contact.contactId p) /\ zlen (Contact.contactId p) = 32;
  ok_branchId : branch_id_ok (Contact.branchId p);
  ok_contact_sequence : 0 <= Contact.sequence p <= MAX_SAFE_INTEGER;
  ok_contact_times : 0 <= Contact.issuedAt p <= maxDraftTimestamp /\ 0 <= Contact.expiresAt p <= maxDraftTimestamp;
  ok_displayName : match Contact.displayName p with Some s => text_ok maxIdentityDisplayNameBytes s | None => True end;
  ok_contact_versions : names_ok maxIdentityAliasBytes 8 (Contact.protocolVersions p) /\ protocolID ∈ Contact.protocolVersions p;
  ok_contact_profiles : names_ok maxIdentityAliasBytes 8 (Contact.profileMultihashes p)
                        /\ hasSupportedProfile (Contact.profileMultihashes p) supported = true;
  ok_hints : hints_ok parse_URL (Contact.routeHints p);
}.

(** At most eight texts that normalise to the aliases of [p]. *)
Definition raw_ok (raw : list jsstring) (p : IdentityContactPayload) : Prop :=
  zlen raw <= maxIdentityAliases /\ Forall (text_ok maxCborTextBytes) raw /\ aliases_from toLowerCase raw (Contact.aliases p).

Lemma contact_entries_keys p :
  map_wf (contact_entries p) /\ Forall (fun k => k ∈ contactPayloadKeys) (map_keys (contact_entries p)).
Proof.
  unfold contact_entries. destruct (Contact.displayName p);
    (split; [apply (bool_decide_eq_true_1 (NoDup _)); closed | apply (bool_decide_eq_true_1 (Forall _ _)); closed]).
Qed.

Lemma contact_fields p raw :
  contact_ok p -> raw_ok raw p -> Forall (fun x => encodable x.2 = true) (contact_entries (with_aliases p raw)).
Proof.
  intros [[Hi1 Hi2] Hb Hs [Ht1 Ht2] Hd [Hv _] [Hm _] (Hl & Hf & _)] (Hrl & Hr & _).
  unfold contact_entries, with_aliases. cbn [Contact.contactId Contact.branchId Contact.sequence Contact.issuedAt Contact.expiresAt
    Contact.displayName Contact.aliases Contact.protocolVersions Contact.profileMultihashes Contact.routeHints].
  apply Forall_app. split.
  - repeat (apply Forall_cons; split); cbn [snd].
    + apply encodable_bytes. unfold maxCborBytes. split; [done | lia].
    + apply (text_ok_encodable 64); [done | by apply branch_id_text].
    + by apply good_num.
    + by apply good_num.
    + by apply good_num.
    + apply encodable_array. rewrite zlen_fmap. unfold maxIdentityAliases, maxCborCollectionEntries in *. split; [lia |].
      apply Forall_fmap. eapply Forall_impl; [exact Hr |]. intros s Hx. by apply (text_ok_encodable maxCborTextBytes).
    + by eapply texts_encodable; [| | exact Hv].
    + by eapply texts_encodable; [| | exact Hm].
    + by apply (records_encodable _ _ hint_encodable maxIdentityRouteHints).
    + by apply Forall_nil.
  - destruct (Contact.displayName p) as [s|]; [| by apply Forall_nil]. apply Forall_cons. split; [| by apply Forall_nil].
    by apply (text_ok_encodable maxIdentityDisplayNameBytes).
Qed.

Lemma contact_encodable p raw : contact_ok p -> raw_ok raw p -> encodable (CMap (contact_entries (with_aliases p raw))) = true.
Proof.
  intros Hp Hr. destruct (contact_entries_keys (with_aliases p raw)) as [Hw Hk]. apply encodable_map_intro; [| exact Hw |].
  - rewrite <- (zlen_fmap fst). etrans; [by apply (names_len _ contactPayloadKeys) | done].
  - pose proof (contact_fields p raw Hp Hr) as Hf. apply Forall_forall. intros x Hx. split; [| by apply (proj1 (Forall_forall _ _) Hf)].
    assert (Hk' : Forall (fun k => encodable_text k = true) contactPayloadKeys) by (apply (bool_decide_eq_true_1 (Forall _ _)); closed).
    apply (proj1 (Forall_forall _ _) Hk'), (proj1 (Forall_forall _ _) Hk). by apply list_elem_of_fmap_2.
Qed.

Lemma readDisplayName_Ok v s :
  readDisplayName v = Ok s <-> v = CText s /\ s <> [] /\ text_bytes s <= maxIdentityDisplayNameBytes.
Proof.
  unfold readDisplayName. split.
  - intros H. step H as t Et. apply read_text_Ok in Et as (-> & Ht & _). case_match; [done |]. injection H as ->. by bool_props.
  - intros (-> & Hs & Hl). rewrite (proj2 (read_text_Ok _ (js "display_name") s))
      by (unfold maxIdentityDisplayNameBytes, maxCborTextBytes in *; split; [done | split; [done | lia]]).
    by test (maxIdentityDisplayNameBytes <? text_bytes s) false.
Qed.

Lemma contact_read b p :
  bytes_ok b -> readIdentityPayload parse_URL toLowerCase b supported = Ok p ->
  contact_ok p /\ exists raw, raw_ok raw p /\ encodeIdentityContactPayload (with_aliases p raw) = Ok b.
Proof.
  intros Hb H. unfold readIdentityPayload in H. destruct (Z.ltb_spec maxCborBytes (zlen b)); [done |].
  step H as d Ed. step H as es Ees. step H as [] Eu. step H as br Ebr. step H as mh Emh. step H as vs Evs. step H as ps Eps.
  case_match eqn:E1; [done |]. step H as i Ei. step H as s Es. step H as t Et. step H as x Ex. step H as dn Edn.
  step H as av Eav. step H as al Eal. step H as hv Ehv. step H as hs Ehs. injection H as <-. bool_props.
  apply decodeCbor_Ok in Ed. apply readCborMap_Ok in Ees as ->.
  pose proof (decode_Ok _ _ _ Hb Ed) as (_ & He & Hc & _).
  apply names_ok_read in Evs as [Hgv Hv], Eps as [Hgp Hp]; [| done..].
  apply text_field_Ok in Ebr as (Hgb & _). apply getRequiredEntry_Ok in Eav, Ehv.
  destruct (hints_read parse_URL hv hs) as [Hhs ->];
    [by apply (encodable_get es (js "route_hints")) | by apply (canon_get es (js "route_hints")) | done |].
  destruct (bytes_field_sound es _ _ i He Ei) as [Hgi Hib]. apply bytes_field_Ok in Ei as (_ & _ & Hil).
  apply number_field_Ok in Es as (Hgs & Hss & Hs0). apply timestamp_field_Ok in Et as [Hgt Ht], Ex as [Hgx Hx].
  apply (readAliases_Ok toLowerCase lower_small) in Eal as (raw & -> & Hrl & Hrt & Hra).
  assert (Hdn : map_get es (js "display_name") = CText <$> dn
                /\ match dn with Some s => text_ok maxIdentityDisplayNameBytes s | None => True end).
  { unfold hasEntry, map_has in Edn. destruct (map_get es (js "display_name")) eqn:Eg; [| by injection Edn as <-].
    rewrite (proj2 (getRequiredEntry_Ok es _ _) Eg) in Edn. step Edn as nm Enm. injection Edn as <-.
    apply readDisplayName_Ok in Enm as (-> & Hn & Hl). split; [done |]. split; [done |]. split; [done |]. by apply (text_sound_plain es (js "display_name")). }
  destruct Hdn as [Hgdn Hdn].
  set (p := Contact.mk i br s t x dn al vs ps hs).
  assert (Hok : contact_ok p).
  { split; cbn; try done; [by exists mh |]. unfold is_safe in Hss. bool_props. lia. }
  assert (Hraw : raw_ok raw p).
  { split; [done |]. split; [| done]. pose proof (texts_plain raw (encodable_get es (js "aliases") _ He Eav)) as Hpl.
    rewrite Forall_forall in *. intros a Ha. destruct (Hrt a Ha). split; [done |]. split; [done | by apply Hpl]. }
  split; [done |]. exists raw. split; [done |]. destruct (contact_entries_keys (with_aliases p raw)) as [Hw Hk].
  apply (record_read_canon b maxDraftEnvelopeBytes es contactPayloadKeys (contact_entries (with_aliases p raw)) Hb Ed Eu Hw Hk
    (contact_fields p raw Hok Hraw)).
  intros k Hin. unfold contact_entries. rewrite map_get_app. cbn [Contact.displayName with_aliases p]. clear Hw Hk. unfold contactPayloadKeys in Hin.
  repeat (apply elem_of_cons in Hin as [->|Hin]); try (by apply elem_of_nil in Hin).
  - exact Hgi.
  - exact Hgb.
  - exact Hgs.
  - exact Hgt.
  - exact Hgx.
  - rewrite Hgdn. by destruct dn.
  - rewrite Eav. symmetry. apply canon_Some; [apply texts_canon | done].
  - rewrite Hgv. symmetry. apply canon_Some; [apply texts_canon | done].
  - rewrite Hgp. symmetry. apply canon_Some; [apply texts_canon | done].
  - exact Ehv.
Qed.

Lemma contact_written b p raw :
  contact_ok p -> raw_ok raw p -> encodeIdentityContactPayload (with_aliases p raw) = Ok b -> zlen b <= maxCborBytes ->
  bytes_ok b /\ 0 < zlen b /\ readIdentityPayload parse_URL toLowerCase b supported = Ok p.
Proof.
  intros Hp Hr Hv Hl. pose proof (contact_encodable p raw Hp Hr) as He.
  destruct (contact_entries_keys (with_aliases p raw)) as [Hw Hk].
  destruct (record_written_canon b maxDraftEnvelopeBytes contactPayloadKeys _ He Hv) as (Hb & es & Hd & Hu & Hg);
    [unfold maxCborBytes, maxDraftEnvelopeBytes in *; lia | done |].
  split; [done |]. split; [pose proof (decode_Ok _ _ _ Hb Hd); lia |].
  assert (Hget : forall k v, map_get (contact_entries (with_aliases p raw)) k = Some v -> canon v = v -> map_get es k = Some v).
  { intros k v Hk' Hc. rewrite Hg, Hk'. cbn. by rewrite Hc. }
  destruct Hp as [[Hi1 Hi2] Hbr Hs [Ht1 Ht2] Hdn [Hve Hvp] [Hm Hms] Hh]. destruct Hr as (Hrl & Hrt & Hra).
  unfold readIdentityPayload. test (maxCborBytes <? zlen b) false.
  rewrite (proj2 (decodeCbor_Ok b _) Hd). cbn [readCborMap]. rewrite Hu.
  pose proof (branch_id_text _ Hbr) as (Hb1 & Hb2 & _).
  rewrite (proj2 (text_field_Ok es (js "branch_id") (Contact.branchId p)))
    by (split; [by apply Hget | split; [done | unfold maxCborTextBytes, text_bytes in *; lia]]).
  destruct Hbr as [mh Hmh]. rewrite Hmh.
  rewrite (names_ok_written maxIdentityAliasBytes es (js "protocol_versions") 8 (Contact.protocolVersions p))
    by first [done | by apply Hget; [| apply texts_canon]].
  rewrite (names_ok_written maxIdentityAliasBytes es (js "profile_multihashes") 8 (Contact.profileMultihashes p))
    by first [done | by apply Hget; [| apply texts_canon]].
  rewrite bool_decide_true by done. rewrite Hms. cbn [negb orb].
  rewrite (proj2 (bytes_field_Ok es (js "contact_id") (Some 32) (Contact.contactId p)))
    by (unfold maxCborBytes; split; [by apply Hget | split; [lia | done]]).
  rewrite (proj2 (number_field_Ok es (js "sequence") (Contact.sequence p)))
    by (split; [by apply Hget | unfold is_safe; split; lia]).
  rewrite (proj2 (timestamp_field_Ok es (js "issued_at") (Contact.issuedAt p))) by (split; [by apply Hget | done]).
  rewrite (proj2 (timestamp_field_Ok es (js "expires_at") (Contact.expiresAt p))) by (split; [by apply Hget | done]).
  assert (Hdv : map_get es (js "display_name") = CText <$> Contact.displayName p).
  { rewrite Hg. unfold contact_entries. rewrite map_get_app. cbn [Contact.displayName with_aliases]. by destruct (Contact.displayName p). }
  assert (Hname : (if hasEntry es (js "display_name")
            then let? value := getRequiredEntry es (js "display_name") in let? name := readDisplayName value in Ok (Some name)
            else Ok None) = Ok (Contact.displayName p)).
  { unfold hasEntry, map_has. destruct (Contact.displayName p) as [nm|]; cbn [fmap option_fmap option_map] in Hdv; rewrite Hdv; [| done].
    rewrite (proj2 (getRequiredEntry_Ok es _ _) Hdv). destruct Hdn as (? & ? & _). by rewrite (proj2 (readDisplayName_Ok _ nm)). }
  rewrite Hname.
  rewrite (proj2 (getRequiredEntry_Ok es (js "aliases") (CArray (CText <$> raw)))) by (by apply Hget; [| apply texts_canon]).
  rewrite (proj2 (readAliases_Ok toLowerCase lower_small _ (Contact.aliases p))).
  2: { exists raw. split; [done |]. split; [done |]. split; [| done]. eapply Forall_impl; [exact Hrt |]. by intros a (? & ? & _). }
  rewrite (proj2 (getRequiredEntry_Ok es (js "route_hints") (canon (CArray (hint_map <$> Contact.routeHints p))))) by (by rewrite Hg).
  rewrite (hints_written parse_URL) by done. by destruct p.
Qed.
End Payload.

(** What validation accepts. *)
Definition contact_valid (parse_URL : jsstring -> option URL) (toLowerCase : jsstring -> jsstring) (sha256 : bytes -> bytes)
    (verify : bytes -> bytes -> bytes -> bool) (w : jsstring) (o : ContactValidationOptions) (s : SignedIdentityContact) : Prop :=
  contactWrapper s = w
  /\ event_valid identityContactEventType verify w (contactNow o) (default defaultMaxFutureSkewSeconds (contactSkew o))
       (contactEventBytes s) (contactSignatureInput s) (contactEnvelope s)
  /\ contact_ok parse_URL (default defaultIdentityContactProfileMultihashes (contactProfiles o)) (contactPayload s)
  /\ (exists raw, raw_ok toLowerCase raw (contactPayload s)
        /\ encodeIdentityContactPayload (with_aliases (contactPayload s) raw) = Ok (Event.payloadBytes (contactEnvelope s)))
  /\ Contact.expiresAt (contactPayload s) = Event.expiresAt (contactEnvelope s)
  /\ Contact.issuedAt (contactPayload s) <= Event.createdAt (contactEnvelope s)
  /\ (forall m, contactMinimumSequence o = Some m -> m <= Contact.sequence (contactPayload s))
  /\ branchIDFromPublicKey sha256 (Event.publicKey (contactEnvelope s)) = Ok (Contact.branchId (contactPayload s)).

Lemma contact_validated parse_URL toLowerCase sha256 verify w o s :
  (forall s, Forall (fun c => 0 <= c < 128 /\ ~ 65 <= c <= 90) s -> toLowerCase s = s) ->
  validateBranchTextIdentityContact parse_URL toLowerCase sha256 verify w o = accepted s <->
  contact_valid parse_URL toLowerCase sha256 verify w o s.
Proof.
  intros Hlow. unfold validateBranchTextIdentityContact, contact_valid.
  rewrite (event_validated identityContactEventType) by (discriminate || closed). split.
  - intros (b & input & e & Hv & H). step H as p Ep. case_match eqn:E1; [done |].
    destruct (Z.ltb_spec (Event.createdAt e) (Contact.issuedAt p)); [done |].
    destruct (match contactMinimumSequence o with Some m => Contact.sequence p <? m | None => false end) eqn:Em; [done |].
    step H as br Ebr. destruct (str_eqb (Contact.branchId p) br) eqn:Es; [| done]. injection H as <-. bool_props.
    apply str_eqb_true in Es as <-.
    destruct (contact_read parse_URL toLowerCase _ Hlow _ p (proj1 (ok_payload e (event_envelope _ _ _ _ _ _ _ _ Hv))) Ep) as [Hp Hr].
    split; [done |]. split; [done |]. split; [done |]. split; [done |]. split; [done |]. split; [done |]. split; [| done].
    intros m Hm. cbn [contactPayload]. rewrite Hm in Em. lia.
  - intros (<- & Hv & Hp & (raw & Hr & Hpv) & Hpe & Hpi & Hm & Hb). do 3 eexists. split; [exact Hv |].
    destruct (contact_written parse_URL toLowerCase _ Hlow _ _ raw Hp Hr Hpv) as (_ & _ & Hread);
      [apply (ok_payload _ (event_envelope _ _ _ _ _ _ _ _ Hv)) |].
    rewrite Hread. test (Contact.expiresAt (contactPayload s) =? Event.expiresAt (contactEnvelope s)) true. cbn [negb].
    test (Event.createdAt (contactEnvelope s) <? Contact.issuedAt (contactPayload s)) false.
    assert ((match contactMinimumSequence o with Some m => Contact.sequence (contactPayload s) <? m | None => false end) = false) as ->.
    { destruct (contactMinimumSequence o) as [m|]; [| done]. specialize (Hm m eq_refl). by apply Z.ltb_ge. }
    rewrite Hb, str_eqb_refl. by destruct s.
Qed.

(** ** Created contacts *)

Section Created.
Context (parse_URL : jsstring -> option URL) (toLowerCase : jsstring -> jsstring) (supported : list jsstring).

Lemma contact_payload_size p raw b :
  contact_ok parse_URL supported p -> raw_ok toLowerCase raw p -> encodeIdentityContactPayload (with_aliases p raw) = Ok b ->
  zlen b <= 32768.
Proof.
  intros Hp Hr Hb. pose proof (contact_encodable parse_URL toLowerCase supported p raw Hp Hr) as He.
  pose proof (contact_fields parse_URL toLowerCase supported p raw Hp Hr) as Hf.
  etrans; [by apply (record_size (contact_entries (with_aliases p raw))) |].
  destruct Hp as [[_ Hi] Hbr _ _ Hdn [Hv _] [Hm _] (Hl & Hh & _)]. destruct Hr as (Hrl & Hrt & _).
  apply branch_id_text in Hbr as (_ & Hbr & _). unfold text_bytes in Hbr.
  pose proof (texts_size maxIdentityAliasBytes 8 _ ltac:(done) ltac:(done) Hv) as S1.
  pose proof (texts_size maxIdentityAliasBytes 8 _ ltac:(done) ltac:(done) Hm) as S2. unfold maxIdentityAliasBytes in *.
  pose proof (records_size _ _ hint_encodable maxIdentityRouteHints 1750 (Contact.routeHints p) ltac:(done) Hl Hh ltac:(lia) hint_size) as S3.
  unfold maxIdentityRouteHints, maxIdentityAliases in *.
  assert (S4 : zlen (enc (CArray (CText <$> raw))) <= 3 + 8 * 1027).
  { apply (records_size CText (text_ok maxCborTextBytes)); [| done | done | done | lia |].
    - intros s Hs. by apply (text_ok_encodable maxCborTextBytes).
    - intros s Hs. etrans; [apply value_size_ge, (text_ok_encodable maxCborTextBytes); done |]. destruct Hs as (_ & Hs & _).
      unfold text_bytes, maxCborTextBytes in Hs. cbn [value_size]. lia. }
  unfold contact_entries, with_aliases. cbn [Contact.contactId Contact.branchId Contact.sequence Contact.issuedAt Contact.expiresAt
    Contact.displayName Contact.aliases Contact.protocolVersions Contact.profileMultihashes Contact.routeHints].
  destruct (Contact.displayName p) as [nm|]; cbn [app]; entry_sizes;
    [destruct Hdn as (_ & Hdn & _); unfold text_bytes, maxIdentityDisplayNameBytes in Hdn |]; lia.
Qed.
End Created.

(** What the options of a creation must say; the function itself checks the
    names, the aliases one by one, and the hints. *)
Record contact_creation_ok (supported : list jsstring) (publicKey random1 random2 : bytes) (now : Z)
    (o : CreateIdentityContactOptions) : Prop := {
  new_key : bytes_ok publicKey /\ zlen publicKey = 32;
  new_id : bytes_ok (default random1 (createContactId o)) /\ zlen (default random1 (createContactId o)) = 32;
  new_event : bytes_ok (default random2 (createContactEventId o)) /\ zlen (default random2 (createContactEventId o)) = 32;
  new_sequence : 0 <= default 1 (createContactSequence o) <= MAX_SAFE_INTEGER;
  new_times : 0 <= now < default (now + defaultLifetimeSeconds) (createContactExpiresAt o)
    /\ default (now + defaultLifetimeSeconds) (createContactExpiresAt o) <= maxDraftTimestamp;
  new_name : match createContactDisplayName o with Some s => text_ok maxIdentityDisplayNameBytes s | None => True end;
  new_aliases : zlen (default [] (createContactAliases o)) <= maxIdentityAliases;
  new_versions : let l := default defaultIdentityContactProtocolVersions (createContactVersions o) in
    0 < zlen l <= 8 /\ Forall (fun s => plain_text s = true) l /\ protocolID ∈ l;
  new_profiles : let l := default defaultIdentityContactProfileMultihashes (createContactProfiles o) in
    0 < zlen l <= 8 /\ Forall (fun s => plain_text s = true) l /\ hasSupportedProfile l supported = true;
  new_hints : Forall (fun h => plain_text (Hint.uri h) = true /\ plain_text (Hint.profileMultihash h) = true)
    (default [] (createContactHints o));
}.

(** C14: a text is accepted as the contact of an identity exactly when it is the
    wrapper of the canonical encoding of a signed envelope of this type, signed
    by the key in it, neither expired nor from the future, whose payload is the
    canonical encoding of a contact whose branch identifier is the one of that
    very key, with a sequence number not below the one asked for, known protocol
    and profile, at most eight aliases that normalise to distinct ones, and route
    hints in order of priority.  For any URL parser, digest and signature scheme,
    and any [toLowerCase] that leaves the small letters, digits and marks of
    ASCII alone. *)
Theorem contact_accepted_spec parse_URL toLowerCase sha256 verify w o s
    (Hlow : forall s, Forall (fun c => 0 <= c < 128 /\ ~ 65 <= c <= 90) s -> toLowerCase s = s) :
  validateBranchTextIdentityContact parse_URL toLowerCase sha256 verify w o = accepted s <->
  contact_valid parse_URL toLowerCase sha256 verify w o s.
Proof. by apply contact_validated. Qed.

(** C17: the wrapper that creating a contact returns is accepted by everyone who
    validates it within its lifetime and asks for no higher sequence number: the
    contact accepted carries the identifier of the key that signed it, the
    display name, sequence and times of the options, and the normalised aliases
    in order. *)
Theorem created_contact_accepted parse_URL localeCompare toLowerCase sha256 verify sign publicKey random1 random2 now o vo w
    (Hlow : forall s, Forall (fun c => 0 <= c < 128 /\ ~ 65 <= c <= 90) s -> toLowerCase s = s)
    (Hsha : forall m, bytes_ok (sha256 m) /\ zlen (sha256 m) = 32)
    (Hcreate : createIdentityContactWrapper parse_URL toLowerCase sha256 localeCompare publicKey sign random1 random2 now o = Ok w)
    (Hok : contact_creation_ok (default defaultIdentityContactProfileMultihashes (contactProfiles vo)) publicKey random1 random2 now o)
    (Hsign : forall m, bytes_ok (sign m) /\ zlen (sign m) = 64 /\ verify publicKey (sign m) m = true)
    (Hnow : now <= contactNow vo + default defaultMaxFutureSkewSeconds (contactSkew vo))
    (Hlive : contactNow vo < default (now + defaultLifetimeSeconds) (createContactExpiresAt o))
    (Hmin : forall m, contactMinimumSequence vo = Some m -> m <= default 1 (createContactSequence o)) :
  exists s, validateBranchTextIdentityContact parse_URL toLowerCase sha256 verify w vo = accepted s
    /\ branchIDFromPublicKey sha256 publicKey = Ok (Contact.branchId (contactPayload s))
    /\ Event.publicKey (contactEnvelope s) = publicKey
    /\ Contact.displayName (contactPayload s) = createContactDisplayName o
    /\ Contact.sequence (contactPayload s) = default 1 (createContactSequence o)
    /\ normalizeAliases toLowerCase (default [] (createContactAliases o)) = Ok (Contact.aliases (contactPayload s))
    /\ Contact.routeHints (contactPayload s) = sort_by (hint_cmp localeCompare) (default [] (createContactHints o)).
Proof.
  unfold createIdentityContactWrapper in Hcreate. cbv zeta in Hcreate.
  step Hcreate as vs Ev. step Hcreate as ps Ep. step Hcreate as hs Eh. step Hcreate as br Ebr. step Hcreate as al Eal.
  step Hcreate as pb Epb.
  destruct Hok as [Hk Hid Hev Hseq Ht Hname Hal (Hv1 & Hv2 & Hv3) (Hp1 & Hp2 & Hp3) Hhp].
  apply (normalized_names maxIdentityAliasBytes 8) in Ev as [Hv Pv]; [| done..].
  apply (normalized_names maxIdentityAliasBytes 8) in Ep as [Hp Pp]; [| done..].
  apply normalized_hints in Eh as [Ehs Hh]; [| done].
  set (payload := Contact.mk _ br _ _ _ _ al vs ps hs) in Epb.
  assert (Hpay : contact_ok parse_URL (default defaultIdentityContactProfileMultihashes (contactProfiles vo)) payload).
  { split; unfold payload; cbn [Contact.contactId Contact.branchId Contact.sequence Contact.issuedAt Contact.expiresAt
      Contact.displayName Contact.aliases Contact.protocolVersions Contact.profileMultihashes Contact.routeHints].
    - exact Hid.
    - destruct (branch_id_parsed sha256 publicKey Hsha (proj2 Hk)) as (br' & Eb & Hpb). rewrite Ebr in Eb. injection Eb as ->. by eexists.
    - exact Hseq.
    - lia.
    - exact Hname.
    - split; [exact Hv |]. by rewrite Pv.
    - split; [exact Hp |]. by rewrite (supported_perm _ ps _ Pp).
    - exact Hh. }
  assert (Hraw : raw_ok toLowerCase al payload).
  { pose proof (proj1 (normalizeAliases_Ok toLowerCase Hlow _ _) Eal) as Ha.
    pose proof (aliases_pattern toLowerCase _ _ Ha) as Hpat. destruct Ha as (once & Hf & Hn & E). split; [| split].
    - rewrite E, (zlen_perm _ _ (sort_by_perm text_cmp once)). apply Forall2_length in Hf. unfold zlen in *. lia.
    - eapply Forall_impl; [exact Hpat |]. intros a Ha. destruct (alias_text a Ha) as (? & ? & ?).
      split; [done |]. split; [unfold maxCborTextBytes; lia | done].
    - assert (Es : sort_by text_cmp al = al).
      { apply sort_by_id. rewrite E. apply sort_by_sorted; [exact text_cmp_total | exact text_cmp_trans]. }
      assert (Hn' : NoDup al) by (rewrite E; by rewrite sort_by_perm).
      pose proof (normalized_twice toLowerCase Hlow al Hpat Hn') as Ht'. by rewrite Es in Ht'. }
  pose proof (contact_payload_size parse_URL toLowerCase _ payload al pb Hpay Hraw Epb) as Hsize.
  destruct (contact_written parse_URL toLowerCase _ Hlow pb payload al Hpay Hraw Epb) as (Hpb & Hpl & _); [unfold maxCborBytes; lia |].
  eapply (event_created identityContactEventType verify) in Hcreate as (event & input & signature & Hvalid);
    [| closed | discriminate | done | done | unfold maxCborBytes; split; [done | lia] | lia | | exact Hsign];
    [| change (text_bytes identityContactEventType) with 17; lia].
  exists (mkSignedContact w event input (Event.mk (default random2 (createContactEventId o)) publicKey now
    (default (now + defaultLifetimeSeconds) (createContactExpiresAt o)) pb signature) payload).
  split; [| by repeat (split; [done |])].
  apply contact_validated; [done |]. split; [done |]. split; [by apply Hvalid |]. split; [done |].
  split; [by exists al |]. cbn. split; [done |]. split; [lia |]. by split.
Qed.

(** *** A sample *)

Definition ascii_lower (s : jsstring) : jsstring := (fun c => if (65 <=? c) && (c <=? 90) then c + 32 else c) <$> s.

Lemma ascii_lower_small s : Forall (fun c => 0 <= c < 128 /\ ~ 65 <= c <= 90) s -> ascii_lower s = s.
Proof.
  unfold ascii_lower. induction 1 as [|c s Hc _ IH]; [done |]. csimpl. rewrite IH. f_equal.
  by test ((65 <=? c) && (c <=? 90)) false.
Qed.

Definition contact_parse_URL (uri : jsstring) : option URL :=
  Some (mkURL (js "wss:") (js "branch.undoo.ru") [] [] [] (js "/relay/v0") (js "branch.undoo.ru")).

Definition contact_sha256 (m : bytes) : bytes := replicate 31 5 ++ [zlen m mod 256].

Definition contact_signing (m : bytes) : bytes := replicate 63 7 ++ [zlen m mod 256].

Definition contact_verify (k s m : bytes) : bool := bool_decide (s = contact_signing m).

Definition sample_hint : IdentityContactRouteHint :=
  Hint.mk (js "wss") (js "wss://branch.undoo.ru:443/relay/v0") (encodeBase64URL (replicate 32 4)) developmentProfileMultihash 0.

Definition sample_contact_options : CreateIdentityContactOptions :=
  mkCreateContact None None None None (Some (js "Ada")) (Some [js " Zoe-1 "; js "ada.l"]) None None (Some [sample_hint]).

Definition sample_contact : jsstring :=
  match createIdentityContactWrapper contact_parse_URL ascii_lower contact_sha256 (fun _ _ => 0) (replicate 32 1) contact_signing
          (replicate 32 2) (replicate 32 3) 1700000000 sample_contact_options with
  | Ok w => w
  | Throw _ => []
  end.

Lemma sample_contact_created :
  createIdentityContactWrapper contact_parse_URL ascii_lower contact_sha256 (fun _ _ => 0) (replicate 32 1) contact_signing
    (replicate 32 2) (replicate 32 3) 1700000000 sample_contact_options = Ok sample_contact.
Proof. vm_compute. reflexivity. Qed.

Lemma sample_octets n c k : is_byte c -> bytes_ok (replicate n c ++ [k mod 256]) /\ zlen (replicate n c ++ [k mod 256]) = Z.of_nat n + 1.
Proof.
  intros Hc. split.
  - apply Forall_app. split; [by apply Forall_replicate |]. constructor; [unfold is_byte; zdiv_lia | constructor].
  - unfold zlen. rewrite length_app, length_replicate. cbn. lia.
Qed.

Lemma sample_bytes32 c : is_byte c -> bytes_ok (replicate 32 c) /\ zlen (replicate 32 c) = 32.
Proof. intros Hc. split; [by apply Forall_replicate | done]. Qed.

Lemma sample_contact_options_ok :
  contact_creation_ok defaultIdentityContactProfileMultihashes (replicate 32 1) (replicate 32 2) (replicate 32 3) 1700000000
    sample_contact_options.
Proof.
  split; cbn [default createContactId createContactEventId createContactSequence createContactExpiresAt createContactVersions
    createContactProfiles createContactHints createContactDisplayName createContactAliases sample_contact_options].
  1-3: apply sample_bytes32; unfold is_byte; lia.
  - vm_compute. split; discriminate.
  - vm_compute. repeat split; discriminate.
  - split; [discriminate |]. split; [vm_compute; discriminate | closed].
  - vm_compute. discriminate.
  - split; [done |]. split; [apply (bool_decide_eq_true_1 (Forall _ _)); closed | set_solver].
  - split; [done |]. split; [apply (bool_decide_eq_true_1 (Forall _ _)); closed | closed].
  - apply Forall_cons. split; [split; closed | by apply Forall_nil].
Qed.

Lemma contact_signing_ok m :
  bytes_ok (contact_signing m) /\ zlen (contact_signing m) = 64 /\ contact_verify (replicate 32 1) (contact_signing m) m = true.
Proof.
  destruct (sample_octets 63 7 (zlen m)) as [Hb Hl]; [unfold is_byte; lia |].
  split; [exact Hb |]. split; [exact Hl | by apply bool_decide_eq_true].
Qed.

Lemma contact_sha256_ok m : bytes_ok (contact_sha256 m) /\ zlen (contact_sha256 m) = 32.
Proof. apply (sample_octets 31 5). unfold is_byte; lia. Qed.

Definition contact_reading : ContactValidationOptions := mkContactOptions 1700000100 None None (Some 1).

Definition sample_signed_contact : SignedIdentityContact :=
  match validateBranchTextIdentityContact contact_parse_URL ascii_lower contact_sha256 contact_verify sample_contact contact_reading with
  | accepted s => s
  | rejected_for _ => mkSignedContact [] [] [] (Event.mk [] [] 0 0 [] []) (Contact.mk [] [] 0 0 0 None [] [] [] [])
  end.

Lemma contact_accepted_spec_witness :
  Contact.aliases (contactPayload sample_signed_contact) = [js "ada.l"; js "zoe-1"]
  /\ contact_valid contact_parse_URL ascii_lower contact_sha256 contact_verify sample_contact contact_reading sample_signed_contact.
Proof.
  split; [vm_compute; reflexivity |].
  apply (proj1 (contact_accepted_spec contact_parse_URL ascii_lower contact_sha256 contact_verify sample_contact contact_reading
    sample_signed_contact ascii_lower_small)).
  vm_compute. reflexivity.
Defined.

Lemma created_contact_accepted_witness :
  exists s, validateBranchTextIdentityContact contact_parse_URL ascii_lower contact_sha256 contact_verify sample_contact contact_reading
      = accepted s
    /\ branchIDFromPublicKey contact_sha256 (replicate 32 1) = Ok (Contact.branchId (contactPayload s))
    /\ Event.publicKey (contactEnvelope s) = replicate 32 1
    /\ Contact.displayName (contactPayload s) = Some (js "Ada")
    /\ Contact.sequence (contactPayload s) = 1
    /\ normalizeAliases ascii_lower [js " Zoe-1 "; js "ada.l"] = Ok (Contact.aliases (contactPayload s))
    /\ Contact.routeHints (contactPayload s) = sort_by (hint_cmp (fun _ _ => 0)) [sample_hint].
Proof.
  apply (created_contact_accepted contact_parse_URL (fun _ _ => 0) ascii_lower contact_sha256 contact_verify contact_signing
    (replicate 32 1) (replicate 32 2) (replicate 32 3) 1700000000 sample_contact_options contact_reading sample_contact
    ascii_lower_small contact_sha256_ok sample_contact_created sample_contact_options_ok contact_signing_ok).
  - vm_compute. discriminate.
  - vm_compute. reflexivity.
  - intros m [= <-]. vm_compute. discriminate.
Defined.
