(* ===== verification/ContactCard.v ===== *)
(** * [application-control/contact-card.ts]: the body of the contact card control *)
From S2P Require Import Prelude JsRuntime Collections Base64Url Cbor CborFacts Records NestedRecords SignedEvent SignedEventFacts RecordCodecs IdentityContact ContactFacts.

Definition contactCardControlKind : jsstring := js "branch.contact-card/0.draft".
Definition maxContactCardBytes : Z := 512.
Definition maxContactCardNameBytes : Z := 96.
Definition maxContactCardTTLms : Z := 60000.

Module Card.
Record ContactCard := mk {
  requestId : jsstring;
  branchId : jsstring;
  peerId : jsstring;
  hpkePublicKey : jsstring;
  displayName : jsstring;
}.
End Card.
Abbreviation ContactCard := Card.ContactCard.

(** The operands of the disjunction are evaluated in order, and a token that is
    no base64url throws. *)
Definition validateContactCard (card : ContactCard) : result unit :=
  let invalid := Throw (js "invalid contact card") in
  let? request := decodeBase64URL (Card.requestId card) in
  if negb (zlen request =? 16) then invalid
  else
    let? peer := decodeBase64URL (Card.peerId card) in
    if negb (zlen peer =? 32) then invalid
    else
      let? key := decodeBase64URL (Card.hpkePublicKey card) in
      if negb (zlen key =? 32) || (text_bytes (Card.displayName card) =? 0)
         || (maxContactCardNameBytes <? text_bytes (Card.displayName card)) then invalid
      else let? _ := parseBranchID (Card.branchId card) in Ok tt.

Definition contactCardMap (card : ContactCard) : result CborMap :=
  let? request := decodeBase64URL (Card.requestId card) in
  let? peer := decodeBase64URL (Card.peerId card) in
  let? key := decodeBase64URL (Card.hpkePublicKey card) in
  Ok [(js "request_id", CBytes request); (js "branch_id", CText (Card.branchId card)); (js "peer_id", CBytes peer);
      (js "hpke_public_key", CBytes key); (js "display_name", CText (Card.displayName card))].

Definition encodeContactCard (card : ContactCard) : result bytes :=
  let? _ := validateContactCard card in
  let? map := contactCardMap card in
  let? b := encodeDeterministicCbor (CMap map) in
  if maxContactCardBytes <? zlen b then Throw (js "contact card body too large") else Ok b.

Definition cardKeys : list jsstring :=
  [js "request_id"; js "branch_id"; js "peer_id"; js "hpke_public_key"; js "display_name"].

(** The fields of the card, read and validated. *)
Definition read_card (map : CborMap) : result ContactCard :=
  let? request := token_field map (js "request_id") 16 in
  let? branch := text_field map (js "branch_id") in
  let? peer := token_field map (js "peer_id") 32 in
  let? key := token_field map (js "hpke_public_key") 32 in
  let? name := text_field map (js "display_name") in
  let card := Card.mk request branch peer key name in
  let? _ := validateContactCard card in
  Ok card.

Definition decodeContactCard (b : bytes) : result ContactCard :=
  if (zlen b =? 0) || (maxContactCardBytes <? zlen b) then Throw (js "invalid contact card body size")
  else
    let? decoded := decodeDeterministicCbor b maxContactCardBytes in
    let? map := readCborMap decoded (js "contact_card") in
    let? _ := rejectUnknownEntries map cardKeys in
    read_card map.

Definition assertContactCardBranchIDBinding (sha256 : bytes -> bytes) (card : ContactCard) : result unit :=
  let? _ := validateContactCard card in
  let? peer := decodeBase64URL (Card.peerId card) in
  let? branchId := branchIDFromPublicKey sha256 peer in
  if negb (str_eqb branchId (Card.branchId card)) then Throw (js "contact card branch id mismatch") else Ok tt.

(** ** Facts *)

Definition card_ok (c : ContactCard) : Prop :=
  token_ok 16 (Card.requestId c) /\ branch_id_ok (Card.branchId c) /\ token_ok 32 (Card.peerId c)
  /\ token_ok 32 (Card.hpkePublicKey c) /\ text_ok maxContactCardNameBytes (Card.displayName c).

Definition card_entries (c : ContactCard) : CborMap :=
  [(js "request_id", CBytes (token_bytes (Card.requestId c))); (js "branch_id", CText (Card.branchId c));
   (js "peer_id", CBytes (token_bytes (Card.peerId c))); (js "hpke_public_key", CBytes (token_bytes (Card.hpkePublicKey c)));
   (js "display_name", CText (Card.displayName c))].

Lemma text_bytes_zero s : text_bytes s = 0 <-> s = [].
Proof. unfold text_bytes. rewrite zlen_zero_iff. apply utf8_encode_nil. Qed.

Lemma validate_card c : card_ok c -> validateContactCard c = Ok tt.
Proof.
  intros (Hr & [m Hb] & Hp & Hk & (Hn & Hl & _)). unfold validateContactCard. cbv zeta.
  apply token_ok_bytes in Hr as (Hr & Hrl & _), Hp as (Hp & Hpl & _), Hk as (Hk & Hkl & _). rewrite Hr, Hp, Hk, Hb, Hrl, Hpl, Hkl.
  assert (text_bytes (Card.displayName c) <> 0) by (by rewrite text_bytes_zero). cbn [negb orb Z.eqb Pos.eqb].
  by test ((text_bytes (Card.displayName c) =? 0) || (maxContactCardNameBytes <? text_bytes (Card.displayName c))) false.
Qed.

Lemma validated_card c :
  validateContactCard c = Ok tt -> branch_id_ok (Card.branchId c) /\ text_bytes (Card.displayName c) <= maxContactCardNameBytes.
Proof.
  unfold validateContactCard. cbv zeta. intros H. step H as r Er. case_match; [done |]. step H as p Ep. case_match; [done |].
  step H as k Ek. case_match eqn:E; [done |]. step H as b Eb. bool_props. split; [by exists b | done].
Qed.

#[export] Instance card_codec : RecordCodec cardKeys card_entries read_card card_ok.
Proof.
  split.
  - intros v. split; [apply (bool_decide_eq_true_1 (NoDup _)); closed |].
    split; apply (bool_decide_eq_true_1 (Forall _ _)); closed.
  - intros v (Hr & Hb & Hp & Hk & Hn). unfold card_entries. repeat (apply Forall_cons; split); cbn [snd].
    + by apply (token_good 16).
    + by apply (text_good 64), branch_id_text.
    + by apply (token_good 32).
    + by apply (token_good 32).
    + by apply (text_good maxContactCardNameBytes).
    + by apply Forall_nil.
  - intros es v He H. unfold read_card in H. step H as r Er. step H as b Eb. step H as p Ep. step H as k Ek. step H as n En.
    step H as [] Ev. injection H as <-. apply validated_card in Ev as [Hb Hl].
    apply token_field_read in Er as [Hr Er], Ep as [Hp Ep], Ek as [Hk Ek]; [| lia || done..].
    apply text_field_read in Eb as [_ Eb], En as [(Hn & _ & Hpl) En]; [| done..].
    split; [done |]. intros key Hin. unfold cardKeys in Hin. each_key Hin; done.
  - intros es v Hok Hg. pose proof (validate_card v Hok) as Hval. destruct Hok as (Hr & Hb & Hp & Hk & Hn). unfold read_card.
    rewrite (token_field_written es _ 16 (Card.requestId v)) by first [done | rewrite Hg; [done | set_solver]].
    rewrite (text_field_written es _ (Card.branchId v))
      by first [apply (text_ok_le 64); [done | by apply branch_id_text] | rewrite Hg; [done | set_solver]].
    rewrite (token_field_written es _ 32 (Card.peerId v)) by first [done | rewrite Hg; [done | set_solver]].
    rewrite (token_field_written es _ 32 (Card.hpkePublicKey v)) by first [done | rewrite Hg; [done | set_solver]].
    rewrite (text_field_written es _ (Card.displayName v))
      by first [by apply (text_ok_le maxContactCardNameBytes) | rewrite Hg; [done | set_solver]].
    destruct v. cbn in *. by rewrite Hval.
Qed.

Lemma card_exact : exact_codec card_ok encodeContactCard decodeContactCard.
Proof.
  assert (Hsize : forall v, card_ok v -> sum_lengths entry_size (card_entries v) <= 400).
  { intros v (Hr & Hb & Hp & Hk & (_ & Hn & _)). apply branch_id_text in Hb as (_ & Hb & _).
    apply token_ok_bytes in Hr as (_ & Hr & _), Hp as (_ & Hp & _), Hk as (_ & Hk & _).
    unfold card_entries, text_bytes, maxContactCardNameBytes in *. entry_sizes. lia. }
  eapply (exact_codec_intro maxContactCardBytes 400).
  - intros v. vm_compute. discriminate.
  - intros b v Hb. unfold decodeContactCard. split.
    + case_match; [done |]. intros H1. step H1 as d Ed. step H1 as m Em. step H1 as [] Eu. apply readCborMap_Ok in Em as ->. by exists m.
    + intros (es & Hd & Hu & Hr). pose proof (decode_Ok _ _ _ Hb Hd) as (Hl & _).
      test ((zlen b =? 0) || (maxContactCardBytes <? zlen b)) false. rewrite Hd. cbn [readCborMap]. by rewrite Hu.
  - intros v Hv. pose proof Hv as (Hr & _ & Hp & Hk & _). unfold encodeContactCard, contactCardMap.
    apply token_ok_bytes in Hr as (Hr & _), Hp as (Hp & _), Hk as (Hk & _).
    rewrite (validate_card v Hv), Hr, Hp, Hk. fold (card_entries v).
    assert (He : encodable (CMap (card_entries v)) = true)
      by (apply (codec_encodable (read := read_card) v Hv); vm_compute; discriminate).
    pose proof (record_size _ _ He (encode_total _ He)). pose proof (Hsize v Hv). rewrite (encode_total _ He).
    unfold maxContactCardBytes. by test (512 <? zlen (enc (CMap (card_entries v)))) false.
  - done.
  - vm_compute. discriminate.
Qed.

(** a contact card decodes exactly from its canonical encoding, and a
    decoded card is bound to its peer exactly when its branch identifier is the
    one of the public key that its peer identifier writes: for every key there
    is one identifier that passes. *)
Theorem contact_card_codec sha256 :
  exact_codec card_ok encodeContactCard decodeContactCard
  /\ forall b c, bytes_ok b -> decodeContactCard b = Ok c ->
     exists key, decodeBase64URL (Card.peerId c) = Ok key
       /\ (assertContactCardBranchIDBinding sha256 c = Ok tt <-> branchIDFromPublicKey sha256 key = Ok (Card.branchId c)).
Proof.
  split; [exact card_exact |]. intros b c Hb Hd. destruct (proj1 (proj1 card_exact b c) (conj Hb Hd)) as [Hok _].
  pose proof (validate_card c Hok) as Hval. destruct Hok as (_ & _ & Hp & _). apply token_ok_bytes in Hp as (Hp & Hl & _).
  exists (token_bytes (Card.peerId c)). split; [done |]. unfold assertContactCardBranchIDBinding. rewrite Hval, Hp.
  destruct (branchIDFromPublicKey sha256 _) as [id|e]; [| by split].
  destruct (str_eqb id (Card.branchId c)) eqn:E; cbn [negb].
  - apply str_eqb_true in E as ->. by split.
  - split; [done |]. intros Hx. injection Hx as ->. by rewrite str_eqb_refl in E.
Qed.
