(* ===== verification/DnsTxt.v ===== *)
(** * [discovery/dns-txt.ts]: beacons in DNS TXT records

    [toLowerCase] is an argument, as in [IdentityContact]. *)
From S2P Require Import Prelude JsRuntime Collections Base64Url Cbor Json Envelope RelayAttachment SignedEvent.

Definition dnsTxtBootstrapPrefix : jsstring := js "branchbootstrapv0=".
Definition dnsTxtOwnerLabel : jsstring := js "branch-bootstrap".
Definition dnsTxtRecommendedTTLSeconds : Z := 300.
Definition dnsTxtMaxCharacterStrings : Z := 8.
Definition dnsTxtMaxCharacterStringOctets : Z := 255.
Definition dnsTxtMaxCandidateOctets : Z := 2040.

Record DnsTxtBootstrapPublication := mkPublication {
  ownerName : jsstring;
  ttlSeconds : Z;
  strings : list jsstring;
  value : jsstring;
  zoneFileRecord : jsstring;
}.

Record DnsTxtBootstrapCandidate := mkCandidate { wrapper : jsstring; rrIndex : Z; candidate_strings : list jsstring }.

Inductive DnsTxtBootstrapRejectionReason : Type :=
| empty_record | too_many_strings | string_too_large | non_ascii | record_too_large | wrong_prefix | malformed_wrapper
| duplicate.

Record DnsTxtBootstrapRejection := mkRejection { rejected_index : Z; rejected_reason : DnsTxtBootstrapRejectionReason }.

Definition rejection_text (r : DnsTxtBootstrapRejectionReason) : jsstring :=
  match r with
  | empty_record => js "empty_record" | too_many_strings => js "too_many_strings"
  | string_too_large => js "string_too_large" | non_ascii => js "non_ascii" | record_too_large => js "record_too_large"
  | wrong_prefix => js "wrong_prefix" | malformed_wrapper => js "malformed_wrapper" | duplicate => js "duplicate"
  end.

(** ** Texts *)

Definition isASCII (value : jsstring) : bool := forallb (fun code => negb ((code <? 0x20) || (0x7e <? code))) value.

(** [s.split(separator)] for a separator of one character. *)
Fixpoint split_on (separator : Z) (s : jsstring) : list jsstring :=
  match s with
  | [] => [[]]
  | c :: r =>
      if c =? separator then [] :: split_on separator r
      else match split_on separator r with
      | part :: parts => (c :: part) :: parts
      | [] => [[c]]
      end
  end.

Definition join_texts (separator : jsstring) (parts : list jsstring) : jsstring :=
  match parts with
  | [] => []
  | part :: parts => part ++ concat ((fun p => separator ++ p) <$> parts)
  end.

(** [s.replace(/\.+$/, '')] *)
Definition strip_trailing_dots (s : jsstring) : jsstring :=
  reverse ((span (fun c => c =? 46) (reverse s)).2).

Definition is_alnum (c : Z) : bool := ((97 <=? c) && (c <=? 122)) || is_digit c.

(** The pattern of a label: one to 63 characters, letters and digits at both
    ends, hyphens allowed between. *)
Definition domain_label (s : jsstring) : bool :=
  match s with
  | [] => false
  | [c] => is_alnum c
  | c :: r =>
      is_alnum c && (zlen r <=? 62)
      && forallb (fun c => is_alnum c || (c =? 45)) r && match last r with Some d => is_alnum d | None => false end
  end.

(** [value.replaceAll(...)] of both special characters in one pass: no
    replacement text is replaced again, as backslashes are doubled first. *)
Definition replace_char (c : Z) (by_text : jsstring) (s : jsstring) : jsstring :=
  concat ((fun x => if x =? c then by_text else [x]) <$> s).

Definition escapeZoneString (value : jsstring) : jsstring := replace_char 34 [92; 34] (replace_char 92 [92; 92] value).

(** ** Records *)

(** The loop over the strings of a record. *)
Fixpoint decode_strings (total : Z) (strings : list jsstring) : option DnsTxtBootstrapRejectionReason :=
  match strings with
  | [] => None
  | part :: strings =>
      let size := text_bytes part in
      if dnsTxtMaxCharacterStringOctets <? size then Some string_too_large
      else if negb (isASCII part) then Some non_ascii
      else
        let total := total + size in
        if dnsTxtMaxCandidateOctets <? total then Some record_too_large else decode_strings total strings
  end.

Definition decodeDnsTxtRecord (strings : list jsstring) : jsstring + DnsTxtBootstrapRejectionReason :=
  if zlen strings =? 0 then inr empty_record
  else if dnsTxtMaxCharacterStrings <? zlen strings then inr too_many_strings
  else match decode_strings 0 strings with
  | Some reason => inr reason
  | None => inl (concat strings)
  end.

(** The loop of [splitDnsCharacterStrings]; the fuel is the length of the text. *)
Fixpoint split_chunks (fuel : nat) (s : jsstring) : list jsstring :=
  match fuel, s with
  | S fuel, _ :: _ => take 255 s :: split_chunks fuel (drop 255 s)
  | _, _ => []
  end.

Definition splitDnsCharacterStrings (value : jsstring) : result (list jsstring) :=
  if negb (isASCII value) then Throw (js "DNS TXT application value must be ASCII")
  else if dnsTxtMaxCandidateOctets <? text_bytes value then Throw (js "DNS TXT application value is too large")
  else
    let strings := split_chunks (length value) value in
    if (zlen strings =? 0) || (dnsTxtMaxCharacterStrings <? zlen strings)
    then Throw (js "DNS TXT application value has too many strings") else Ok strings.

Definition formatDnsCharacterStrings (strings : list jsstring) : result jsstring :=
  match decodeDnsTxtRecord strings with
  | inr reason => Throw (js "invalid DNS TXT strings: " ++ rejection_text reason)
  | inl _ => Ok (join_texts [32] ((fun part => [34] ++ escapeZoneString part ++ [34]) <$> strings))
  end.

Definition dnsTxtOwnerName (toLowerCase : jsstring -> jsstring) (domain : jsstring) : result jsstring :=
  let normalized := strip_trailing_dots (toLowerCase (js_trim domain)) in
  if (zlen normalized =? 0) || (253 <? text_bytes normalized) then Throw (js "DNS TXT domain is invalid")
  else if existsb (fun label => negb (domain_label label)) (split_on 46 normalized)
  then Throw (js "DNS TXT domain is invalid")
  else
    let ownerName := dnsTxtOwnerLabel ++ js "." ++ normalized in
    if 253 <? text_bytes ownerName then Throw (js "DNS TXT owner name is too large") else Ok ownerName.

Definition createDnsTxtBootstrapPublication (toLowerCase : jsstring -> jsstring) (domain wrapper : jsstring)
  : result DnsTxtBootstrapPublication :=
  if negb (isBranchTextWrapper wrapper)
  then Throw (js "DNS TXT publication requires an exact bounded BRANCH0 wrapper")
  else
    let? ownerName := dnsTxtOwnerName toLowerCase domain in
    let value := dnsTxtBootstrapPrefix ++ wrapper in
    let? strings := splitDnsCharacterStrings value in
    let? formatted := formatDnsCharacterStrings strings in
    Ok (mkPublication ownerName dnsTxtRecommendedTTLSeconds strings value
          (ownerName ++ js ". 300 IN TXT " ++ formatted)).

(** One record of the loop: a wrapper or the reason of its rejection. *)
Definition read_record (seen : list jsstring) (strings : list jsstring) : jsstring + DnsTxtBootstrapRejectionReason :=
  match decodeDnsTxtRecord strings with
  | inr reason => inr reason
  | inl value =>
      if negb (starts_with value dnsTxtBootstrapPrefix) then inr wrong_prefix
      else
        let wrapper := drop 18 value in
        if negb (starts_with wrapper branchTextWrapperPrefix) || negb (isBranchTextWrapper wrapper)
        then inr malformed_wrapper
        else if bool_decide (wrapper ∈ seen) then inr duplicate
        else inl wrapper
  end.

Fixpoint parse_records (index : Z) (seen : list jsstring) (records : list (list jsstring))
  : list DnsTxtBootstrapCandidate * list DnsTxtBootstrapRejection :=
  match records with
  | [] => ([], [])
  | strings :: records =>
      match read_record seen strings with
      | inr reason =>
          let '(candidates, rejections) := parse_records (index + 1) seen records in
          (candidates, mkRejection index reason :: rejections)
      | inl wrapper =>
          let '(candidates, rejections) := parse_records (index + 1) (wrapper :: seen) records in
          (mkCandidate wrapper index strings :: candidates, rejections)
      end
  end.

Definition parseDnsTxtBootstrapRecords (records : list (list jsstring))
  : list DnsTxtBootstrapCandidate * list DnsTxtBootstrapRejection := parse_records 0 [] records.
