(* ===== verification/DnsTxtFacts.v ===== *)
(** * [discovery/dns-txt.ts]: published beacons are found again *)
From S2P Require Import Prelude JsRuntime Collections Base64Url Cbor CborFacts Json Envelope RelayAttachment SignedEvent SignedEventFacts DnsTxt.

(** ** ASCII *)

Lemma isASCII_Forall s : isASCII s = true <-> Forall (fun c => 0x20 <= c <= 0x7e) s.
Proof.
  unfold isASCII. rewrite forallb_forall, Forall_forall. setoid_rewrite list_elem_of_In. split; intros H c Hc; specialize (H c Hc); [bool_props; lia |].
  lia.
Qed.

Lemma ascii_size s : isASCII s = true -> text_bytes s = zlen s.
Proof.
  intros Hs%isASCII_Forall. unfold text_bytes. rewrite ascii_encoding; [done |]. eapply Forall_impl; [exact Hs |].
  intros c ?; cbn in *; lia.
Qed.

Lemma isASCII_app s t : isASCII (s ++ t) = isASCII s && isASCII t.
Proof. apply forallb_app. Qed.

Lemma isASCII_concat l : isASCII (concat l) = forallb isASCII l.
Proof. induction l as [|s l IH]; [done |]. cbn. by rewrite isASCII_app, IH. Qed.

Lemma wrapper_ascii w : isBranchTextWrapper w = true -> isASCII w = true.
Proof.
  intros (t & -> & Ht & _)%wrapper_shape. rewrite isASCII_app. apply andb_true_iff. split; [closed |].
  apply isASCII_Forall. unfold Base64Url.validBase64URL in Ht. bool_props. apply Forall_forall. intros c Hc%list_elem_of_In.
  match goal with H : forallb _ t = true |- _ => apply (proj1 (forallb_forall _ _) H) in Hc end.
  unfold url_class in Hc. lia.
Qed.

(** ** Cutting a text *)

Lemma split_chunks_concat n s : (length s <= n)%nat -> concat (split_chunks n s) = s.
Proof.
  revert s. induction n as [|n IH]; intros s Hs; [by destruct s; simpl in Hs; [|lia] |].
  destruct s as [|c s]; [done |]. cbn [split_chunks concat]. rewrite IH; [apply take_drop |].
  rewrite length_drop. simpl in *. lia.
Qed.

Lemma split_chunks_sizes n s : Forall (fun part => 0 < zlen part <= 255) (split_chunks n s).
Proof.
  revert s. induction n as [|n IH]; intros s; [constructor |]. destruct s as [|c s]; [constructor |].
  cbn [split_chunks]. constructor; [| apply IH]. unfold zlen. rewrite length_take. cbn [length]. lia.
Qed.

Lemma split_chunks_count n k s : zlen s <= 255 * k -> 0 <= k -> zlen (split_chunks n s) <= k.
Proof.
  revert k s. induction n as [|n IH]; intros k s Hs Hk; [done |]. destruct s as [|c s]; [done |]. cbn [split_chunks].
  rewrite zlen_cons. assert (0 < k) by (rewrite zlen_cons in Hs; pose proof (zlen_nonneg s); lia).
  enough (zlen (split_chunks n (drop 255 (c :: s))) <= k - 1) by lia. apply IH; [| lia].
  unfold zlen in *. rewrite length_drop. lia.
Qed.

(** The sum of the sizes of the strings. *)
Lemma decode_strings_None total l :
  decode_strings total l = None <->
  Forall (fun s => text_bytes s <= 255 /\ isASCII s = true) l
  /\ (l = [] \/ total + zlen (concat l) <= dnsTxtMaxCandidateOctets).
Proof.
  revert total. induction l as [|s l IH]; intros total; cbn [decode_strings concat].
  { split; [intros _; split; [constructor | by left] | done]. }
  unfold dnsTxtMaxCharacterStringOctets. destruct (Z.ltb_spec 255 (text_bytes s)) as [Hs|Hs].
  { split; [done |]. intros [Hf _]. inversion Hf as [|? ? [? _]]; lia. }
  destruct (isASCII s) eqn:Ha; cbn [negb]; [| split; [done |]; intros [Hf _]; inversion Hf as [|? ? [_ ?]]; congruence].
  rewrite (ascii_size s Ha) in *. destruct (Z.ltb_spec dnsTxtMaxCandidateOctets (total + zlen s)) as [Ht|Ht].
  - split; [done |]. intros [_ [|Hx]]; [done |]. rewrite zlen_app in Hx. pose proof (zlen_nonneg (concat l)). lia.
  - rewrite IH, Forall_cons, zlen_app. split.
    + intros [Hf Hl]. split; [split; [split; [rewrite (ascii_size s Ha); lia | done] | done] |]. right.
      destruct Hl as [->|Hl]; [change (zlen (concat [])) with 0 |]; lia.
    + intros [[_ Hf] [|Hl]]; [done |]. split; [done |]. right. lia.
Qed.

(** Within the other limits the sum cannot exceed its limit. *)
Lemma record_too_large_unreachable strings : decodeDnsTxtRecord strings <> inr record_too_large.
Proof.
  unfold decodeDnsTxtRecord. case_match; [done |]. destruct (Z.ltb_spec dnsTxtMaxCharacterStrings (zlen strings)) as [|Hl]; [done |].
  unfold dnsTxtMaxCharacterStrings in Hl.
  enough (H' : forall l total k, zlen l <= k -> total + 255 * k <= 2040 -> decode_strings total l <> Some record_too_large).
  { specialize (H' strings 0 8 Hl ltac:(lia)). destruct (decode_strings 0 strings); [| done]. congruence. }
  clear. induction l as [|s l IH]; intros total k Hl Ht; cbn [decode_strings]; [done |]. rewrite zlen_cons in Hl.
  unfold dnsTxtMaxCharacterStringOctets, dnsTxtMaxCandidateOctets. destruct (Z.ltb_spec 255 (text_bytes s)); [done |].
  case_match; [done |]. pose proof (zlen_nonneg l). destruct (Z.ltb_spec 2040 (total + text_bytes s)); [lia |].
  apply (IH _ (k - 1)); lia.
Qed.

Lemma decode_record_Ok strings v :
  decodeDnsTxtRecord strings = inl v <->
  v = concat strings /\ 0 < zlen strings <= 8 /\ Forall (fun s => text_bytes s <= 255 /\ isASCII s = true) strings.
Proof.
  pose proof (record_too_large_unreachable strings) as Hun. unfold decodeDnsTxtRecord in *. pose proof (zlen_nonneg strings).
  unfold dnsTxtMaxCharacterStrings in *. destruct (Z.eqb_spec (zlen strings) 0); [split; [done | lia] |].
  destruct (Z.ltb_spec 8 (zlen strings)); [split; [done | lia] |].
  destruct (decode_strings 0 strings) as [r|] eqn:E.
  - split; [done |]. intros (_ & _ & Hf). exfalso. clear H n H0. revert E Hun. generalize 0 as total. induction Hf as [|s l [Hs Ha] _ IH]; intros total; cbn [decode_strings]; [done |].
    unfold dnsTxtMaxCharacterStringOctets. test (255 <? text_bytes s) false. rewrite Ha. cbn [negb].
    case_match; [intros [= <-]; done |]. apply IH.
  - apply decode_strings_None in E as [Hf _]. split; [intros [= <-]; split; [done |]; split; [lia | done] | by intros (-> & _)].
Qed.

(** ** Publication *)

Lemma prefix_value w : zlen (dnsTxtBootstrapPrefix ++ w) = 18 + zlen w /\ drop 18 (dnsTxtBootstrapPrefix ++ w) = w.
Proof. split; [by rewrite zlen_app | done]. Qed.

Lemma chunks_count v : 0 < zlen v <= 2040 -> 0 < zlen (split_chunks (length v) v) <= 8.
Proof.
  intros Hl. pose proof (split_chunks_count (length v) 8 v ltac:(lia) ltac:(lia)) as Hc.
  enough (zlen (split_chunks (length v) v) <> 0) by (pose proof (zlen_nonneg (split_chunks (length v) v)); lia).
  rewrite zlen_zero_iff. intros E. pose proof (split_chunks_concat (length v) v (le_n _)) as Hx. rewrite E in Hx. cbn in Hx.
  subst v. change (zlen []) with 0 in Hl. lia.
Qed.

Lemma splitDns_Ok v l :
  splitDnsCharacterStrings v = Ok l <->
  isASCII v = true /\ 0 < zlen v <= dnsTxtMaxCandidateOctets /\ l = split_chunks (length v) v.
Proof.
  unfold splitDnsCharacterStrings, dnsTxtMaxCandidateOctets, dnsTxtMaxCharacterStrings. pose proof (zlen_nonneg v). split.
  - intros H1. destruct (isASCII v) eqn:Ea; [| done]. cbn [negb] in H1. rewrite (ascii_size v Ea) in H1.
    destruct (Z.ltb_spec 2040 (zlen v)); [done |]. case_match eqn:Es; [done |]. injection H1 as <-. bool_props.
    split; [done |]. split; [| done]. destruct v as [|c v]; [done |].
    assert (0 < zlen (c :: v)) by (rewrite zlen_cons; pose proof (zlen_nonneg v); lia). lia.
  - intros (Ha & Hl & ->). rewrite Ha. cbn [negb]. rewrite (ascii_size v Ha). test (2040 <? zlen v) false.
    pose proof (chunks_count v Hl) as Hc.
    by test ((zlen (split_chunks (length v) v) =? 0) || (8 <? zlen (split_chunks (length v) v))) false.
Qed.

Lemma chunks_decode v :
  isASCII v = true -> 0 < zlen v <= dnsTxtMaxCandidateOctets ->
  decodeDnsTxtRecord (split_chunks (length v) v) = inl v.
Proof.
  intros Ha Hl. apply decode_record_Ok. rewrite split_chunks_concat by done. split; [done |].
  split; [by apply chunks_count |].
  rewrite <- (split_chunks_concat (length v) v (le_n _)), isASCII_concat in Ha at 1.
  pose proof (split_chunks_sizes (length v) v) as Hz.
  rewrite Forall_forall in *. intros s Hin. pose proof (proj1 (forallb_forall _ _) Ha s (proj1 (list_elem_of_In _ _) Hin)) as Hsa.
  split; [rewrite (ascii_size s Hsa); specialize (Hz s Hin); cbn in Hz; lia | done].
Qed.

(** ** Zone text

    A reader of quoted strings separated by one space, to say what the zone text
    names. *)
Fixpoint read_quoted (s : jsstring) : option (jsstring * jsstring) :=
  match s with
  | [] => None
  | c :: r =>
      if c =? 34 then Some ([], r)
      else if c =? 92 then
        match r with
        | d :: r => match read_quoted r with Some (p, rest) => Some (d :: p, rest) | None => None end
        | [] => None
        end
      else match read_quoted r with Some (p, rest) => Some (c :: p, rest) | None => None end
  end.

Fixpoint read_zone (fuel : nat) (s : jsstring) : option (list jsstring) :=
  match fuel, s with
  | S fuel, 34 :: r =>
      match read_quoted r with
      | Some (p, []) => Some [p]
      | Some (p, 32 :: rest) => match read_zone fuel rest with Some l => Some (p :: l) | None => None end
      | _ => None
      end
  | _, _ => None
  end.

Lemma escape_cons c p :
  escapeZoneString (c :: p)
  = (if c =? 92 then [92; 92] else if c =? 34 then [92; 34] else [c]) ++ escapeZoneString p.
Proof.
  unfold escapeZoneString, replace_char. csimpl. destruct (Z.eqb_spec c 92) as [->|]; [done |].
  csimpl. by destruct (Z.eqb_spec c 34) as [->|].
Qed.

Lemma read_quoted_escape p rest : read_quoted (escapeZoneString p ++ 34 :: rest) = Some (p, rest).
Proof.
  induction p as [|c p IH]; [done |]. rewrite escape_cons. destruct (Z.eqb_spec c 92) as [->|H92].
  - cbn. by rewrite IH.
  - destruct (Z.eqb_spec c 34) as [->|H34]; cbn [app read_quoted].
    + cbn. by rewrite IH.
    + rewrite (proj2 (Z.eqb_neq c 34) H34), (proj2 (Z.eqb_neq c 92) H92), IH. done.
Qed.

Definition zone_text (strings : list jsstring) : jsstring :=
  join_texts [32] ((fun part => [34] ++ escapeZoneString part ++ [34]) <$> strings).

Lemma join_cons sep a b l : join_texts sep (a :: b :: l) = a ++ sep ++ join_texts sep (b :: l).
Proof. cbn [join_texts]. rewrite fmap_cons. cbn [concat]. by rewrite <- !app_assoc. Qed.

Lemma zone_text_read n strings :
  strings <> [] -> (length strings <= n)%nat -> read_zone n (zone_text strings) = Some strings.
Proof.
  revert n. induction strings as [|p l IH]; intros n Hne Hn; [done |]. destruct n as [|n]; [simpl in Hn; lia |].
  destruct l as [|q l].
  - unfold zone_text. csimpl. rewrite app_nil_r. cbn [app read_zone]. by rewrite (read_quoted_escape p []).
  - assert (E : zone_text (p :: q :: l) = 34 :: escapeZoneString p ++ 34 :: 32 :: zone_text (q :: l)).
    { unfold zone_text. rewrite !fmap_cons, join_cons. cbn [app]. f_equal. by rewrite <- app_assoc. }
    rewrite E. cbn [read_zone]. rewrite read_quoted_escape. rewrite IH; [done | done | simpl in *; lia].
Qed.

(** ** Records of one set *)

Lemma read_record_Ok seen strings w :
  read_record seen strings = inl w <->
  decodeDnsTxtRecord strings = inl (dnsTxtBootstrapPrefix ++ w) /\ isBranchTextWrapper w = true /\ w ∉ seen.
Proof.
  unfold read_record. split.
  - destruct (decodeDnsTxtRecord strings) as [v|]; [| done]. destruct (starts_with v dnsTxtBootstrapPrefix) eqn:Ep; [| done].
    cbn [negb]. apply starts_with_spec in Ep as [t ->]. rewrite (proj2 (prefix_value t)).
    destruct (starts_with t branchTextWrapperPrefix), (isBranchTextWrapper t) eqn:Ew; try done. cbn [negb orb].
    case_bool_decide; [done |]. intros [= <-]. done.
  - intros (-> & Hw & Hs). rewrite starts_with_app. cbn [negb]. rewrite (proj2 (prefix_value w)).
    pose proof Hw as (t & -> & _)%wrapper_shape. rewrite starts_with_app, Hw. cbn [negb orb]. by rewrite bool_decide_false.
Qed.

(** The wrappers that the records of a set name. *)
Definition names_wrapper (strings : list jsstring) (w : jsstring) : Prop :=
  decodeDnsTxtRecord strings = inl (dnsTxtBootstrapPrefix ++ w) /\ isBranchTextWrapper w = true.

Lemma parse_records_spec index seen records :
  let '(cs, rs) := parse_records index seen records in
  NoDup (wrapper <$> cs) /\ Forall (fun c => wrapper c ∉ seen) cs
  /\ zlen cs + zlen rs = zlen records
  /\ Forall (fun c => exists i, records !! i = Some (candidate_strings c) /\ rrIndex c = index + Z.of_nat i
                             /\ names_wrapper (candidate_strings c) (wrapper c)) cs
  /\ (forall i strings w, records !! i = Some strings -> names_wrapper strings w -> w ∉ seen ->
        exists c, c ∈ cs /\ wrapper c = w /\ rrIndex c <= index + Z.of_nat i)
  /\ Forall (fun r => exists i strings, records !! i = Some strings /\ rejected_index r = index + Z.of_nat i) rs.
Proof.
  revert index seen. induction records as [|strings records IH]; intros index seen; cbn [parse_records].
  { split; [apply NoDup_nil_2 |]. split; [constructor |]. split; [done |]. split; [constructor |].
    split; [by intros i ? ?; rewrite lookup_nil | constructor]. }
  destruct (read_record seen strings) as [w|reason] eqn:Er.
  - apply read_record_Ok in Er as (Hd & Hw & Hs). specialize (IH (index + 1) (w :: seen)).
    destruct (parse_records (index + 1) (w :: seen) records) as [cs rs]. destruct IH as (Hn & Hf & Hl & Hc & Hall & Hr).
    rewrite Forall_forall in Hf.
    split; [| split; [| split; [| split; [| split]]]].
    + csimpl. constructor; [| done]. intros (c & E & Hin)%list_elem_of_fmap. apply (Hf c Hin). cbn in E. rewrite <- E. set_solver.
    + constructor; [done |]. apply Forall_forall. intros c Hin. specialize (Hf c Hin). set_solver.
    + rewrite !zlen_cons. lia.
    + constructor; [exists 0%nat; split; [done |]; split; [cbn; lia | done] |].
      eapply Forall_impl; [exact Hc |]. intros c (i & Hi & E & Hnw). exists (S i). split; [done |]. split; [lia | done].
    + intros i s v Hi Hv Hns. destruct (decide (v = w)) as [->|Hne].
      * eexists. split; [by left |]. split; [done |]. cbn. lia.
      * destruct i as [|i]; [cbn in Hi; injection Hi as <-; destruct Hv as [Hv _]; rewrite Hd in Hv; by apply (inj inl), (inj (app dnsTxtBootstrapPrefix)) in Hv |].
        cbn in Hi. destruct (Hall i s v Hi Hv) as (c & Hin & E & Hle); [set_solver |].
        exists c. split; [by right |]. split; [done | lia].
    + eapply Forall_impl; [exact Hr |]. intros r (i & s & Hi & E). exists (S i), s. split; [done | lia].
  - specialize (IH (index + 1) seen). destruct (parse_records (index + 1) seen records) as [cs rs].
    destruct IH as (Hn & Hf & Hl & Hc & Hall & Hr).
    split; [done |]. split; [done |]. split; [rewrite !zlen_cons; lia |]. split; [| split].
    + eapply Forall_impl; [exact Hc |]. intros c (i & Hi & E & Hnw). exists (S i). split; [done |]. split; [lia | done].
    + intros i s v Hi Hv Hns. destruct i as [|i].
      * cbn in Hi. injection Hi as <-. destruct Hv as [Hv Hw]. by rewrite (proj2 (read_record_Ok seen strings v)) in Er.
      * cbn in Hi. destruct (Hall i s v Hi Hv Hns) as (c & Hin & E & Hle). exists c. split; [done |]. split; [done | lia].
    + constructor; [exists 0%nat, strings; split; [done | cbn; lia] |].
      eapply Forall_impl; [exact Hr |]. intros r (i & s & Hi & E). exists (S i), s. split; [done | lia].
Qed.

Lemma publication_Ok toLowerCase domain w p :
  createDnsTxtBootstrapPublication toLowerCase domain w = Ok p <->
  exists owner, dnsTxtOwnerName toLowerCase domain = Ok owner /\ isBranchTextWrapper w = true
    /\ zlen w <= dnsTxtMaxCandidateOctets - 18
    /\ let v := dnsTxtBootstrapPrefix ++ w in let l := split_chunks (length v) v in
       p = mkPublication owner 300 l v (owner ++ js ". 300 IN TXT " ++ zone_text l).
Proof.
  unfold createDnsTxtBootstrapPublication. cbv zeta.
  assert (Hv : forall w, isBranchTextWrapper w = true -> isASCII (dnsTxtBootstrapPrefix ++ w) = true).
  { intros x Hx. rewrite isASCII_app, (wrapper_ascii x Hx). closed. }
  split.
  - intros H. destruct (isBranchTextWrapper w) eqn:Ew; [| done]. cbn [negb] in H. step H as owner Eo. step H as l El. step H as f Ef.
    injection H as <-. apply splitDns_Ok in El as (Ha & Hl & ->). rewrite (proj1 (prefix_value w)) in Hl.
    unfold formatDnsCharacterStrings in Ef. rewrite chunks_decode in Ef by (rewrite ?(proj1 (prefix_value w)); done || lia).
    injection Ef as <-. exists owner. split; [done |]. split; [done |]. split; [lia | done].
  - intros (owner & Ho & Hw & Hl & ->). rewrite Hw. cbn [negb]. rewrite Ho.
    assert (Hx : 0 < zlen (dnsTxtBootstrapPrefix ++ w) <= dnsTxtMaxCandidateOctets)
      by (rewrite (proj1 (prefix_value w)); pose proof (zlen_nonneg w); lia).
    rewrite (proj2 (splitDns_Ok _ _) (conj (Hv w Hw) (conj Hx eq_refl))). unfold formatDnsCharacterStrings.
    by rewrite chunks_decode by (done || apply Hv; done).
Qed.

(** C29: publishing a wrapper under a domain cuts the prefixed wrapper into at
    most eight strings of at most 255 octets, whose zone text reads back as these
    strings; a resolver that returns them in any set of records, wherever they
    stand and whatever else the set holds, makes the parser name that wrapper
    once, at the first record that has it. *)
Theorem dns_publication_found toLowerCase domain w p records i
    (Hp : createDnsTxtBootstrapPublication toLowerCase domain w = Ok p) (Hi : records !! i = Some (strings p)) :
  let '(candidates, _) := parseDnsTxtBootstrapRecords records in
  (exists c, c ∈ candidates /\ wrapper c = w /\ rrIndex c <= Z.of_nat i) /\ NoDup (wrapper <$> candidates)
  /\ concat (strings p) = value p /\ value p = dnsTxtBootstrapPrefix ++ w
  /\ 0 < zlen (strings p) <= 8 /\ Forall (fun s => 0 < text_bytes s <= 255) (strings p)
  /\ exists text, zoneFileRecord p = ownerName p ++ js ". 300 IN TXT " ++ text
       /\ read_zone (length (strings p)) text = Some (strings p).
Proof.
  apply publication_Ok in Hp as (owner & Ho & Hw & Hl & ->).
  unfold parseDnsTxtBootstrapRecords. pose proof (parse_records_spec 0 [] records) as Hspec.
  destruct (parse_records 0 [] records) as [cs rs]. destruct Hspec as (Hn & _ & _ & _ & Hall & _).
  cbn [strings value ownerName zoneFileRecord] in *. set (v := dnsTxtBootstrapPrefix ++ w) in *.
  assert (Ha : isASCII v = true) by (unfold v; rewrite isASCII_app, (wrapper_ascii w Hw); closed).
  assert (Hv : 0 < zlen v <= dnsTxtMaxCandidateOctets)
    by (unfold v; rewrite (proj1 (prefix_value w)); pose proof (zlen_nonneg w); lia).
  pose proof (chunks_decode v Ha Hv) as Hd. pose proof (chunks_count v Hv) as Hc.
  split; [| split; [done |]].
  - destruct (Hall i _ w Hi (conj Hd Hw) (not_elem_of_nil w)) as (c & Hin & E & Hle). exists c.
    split; [exact Hin |]. split; [exact E | exact Hle].
  - split; [by apply split_chunks_concat |]. split; [done |]. split; [done |]. split.
    + pose proof (proj1 (decode_record_Ok _ _) Hd) as (_ & _ & Hf). pose proof (split_chunks_sizes (length v) v) as Hz.
      rewrite Forall_forall in *. intros s Hs. destruct (Hf s Hs) as [_ Hsa]. specialize (Hz s Hs). cbn in Hz.
      rewrite (ascii_size s Hsa). lia.
    + eexists. split; [done |]. apply zone_text_read; [| done]. intros E. rewrite E in Hc. vm_compute in Hc. by destruct Hc.
Qed.

Definition sample_wrapper : jsstring := js "BRANCH0.AAAA".

Definition sample_publication : DnsTxtBootstrapPublication :=
  match createDnsTxtBootstrapPublication (fun s => s) (js "relay.example.test.") sample_wrapper with
  | Ok p => p
  | Throw _ => mkPublication [] 0 [] [] []
  end.

Lemma dns_publication_found_witness :
  let '(candidates, _) := parseDnsTxtBootstrapRecords [[js "other"]; strings sample_publication] in
  (exists c, c ∈ candidates /\ wrapper c = sample_wrapper /\ rrIndex c <= Z.of_nat 1) /\ NoDup (wrapper <$> candidates)
  /\ concat (strings sample_publication) = value sample_publication
  /\ value sample_publication = dnsTxtBootstrapPrefix ++ sample_wrapper
  /\ 0 < zlen (strings sample_publication) <= 8 /\ Forall (fun s => 0 < text_bytes s <= 255) (strings sample_publication)
  /\ exists text, zoneFileRecord sample_publication = ownerName sample_publication ++ js ". 300 IN TXT " ++ text
       /\ read_zone (length (strings sample_publication)) text = Some (strings sample_publication).
Proof.
  apply (dns_publication_found (fun s => s) (js "relay.example.test.") sample_wrapper sample_publication
    [[js "other"]; strings sample_publication] 1); vm_compute; reflexivity.
Defined.
