(* ===== verification/DiscoveryClient.v ===== *)
(** * [discovery/client.ts]: a search for beacons over one carrier

    The carrier is outside: the outcome of its [n]-th call is an argument.  A
    page number is given by its integral part, [None] when it is not finite.
    [discovered] is the contract of a search, proved in [discovery_spec]. *)
From stdpp Require Import pretty.
From S2P Require Import Prelude JsRuntime Collections.

Inductive ClientDiscoveryStatus : Type :=
| status_ok | status_empty | status_partial | status_failed | status_rate_limited | status_aborted.

#[export] Instance status_eq_dec : EqDecision ClientDiscoveryStatus.
Proof. solve_decision. Defined.

Inductive BeaconObservationValidation : Type := observation_accepted | observation_rejected.

#[export] Instance validation_eq_dec : EqDecision BeaconObservationValidation.
Proof. solve_decision. Defined.

Record CarrierEvidence := mkEvidence {
  evidence_carrier : jsstring;
  evidence_query : jsstring;
  evidence_source : jsstring;
  sourceUrl : jsstring;
  recordUrl : jsstring;
}.

Record BeaconObservation := mkObservation {
  observationId : jsstring;
  validation : BeaconObservationValidation;
  observation_reason : jsstring;
  wrapperPreview : jsstring;
  evidence : CarrierEvidence;
  observation_expiresAt : option Z;
  relayEndpoint : option jsstring;
  observation_profile : option jsstring;
  senderPublicKey : option jsstring;
  observation_beaconId : option jsstring;
  observation_sequence : option Z;
}.

Record SearchCarrierSearchRequest := mkSearchRequest { query : jsstring; page : Z; perPage : Z; includeForks : bool }.

Record SearchCarrierSearchReport := mkReport {
  report_carrier : jsstring;
  status : ClientDiscoveryStatus;
  report_query : jsstring;
  report_message : jsstring;
  observations : list BeaconObservation;
  evidenceCount : Z;
}.

(** What a call of the carrier does: a report, or an error, with what the
    signal and the error say. *)
Inductive search_outcome : Type :=
| search_report (report : SearchCarrierSearchReport)
| search_threw (aborted : bool) (message : option jsstring).

Record ClientDiscoveryRequest := mkDiscovery {
  carrier_id : jsstring;
  primaryQuery : jsstring;
  fallbackQuery : option jsstring;
  includeFallback : option bool;
  request_includeForks : option bool;
  request_page : option (option Z);
  request_perPage : option (option Z);
}.

Record ClientDiscoveryReport := mkDiscoveryReport {
  discovery_status : ClientDiscoveryStatus;
  discovery_primaryQuery : jsstring;
  discovery_fallbackQuery : option jsstring;
  carrierReports : list SearchCarrierSearchReport;
  discovery_observations : list BeaconObservation;
  acceptedCount : Z;
  rejectedCount : Z;
  discovery_message : jsstring;
}.

Definition maxClientDiscoveryPerPage : Z := 10.
Definition maxClientDiscoveryPage : Z := 10.
Definition maxClientDiscoveryObservations : nat := 64.

(** [String(n)] *)
Definition number_text (n : Z) : jsstring := js (pretty n).

Definition boundedQuery (query : jsstring) : result jsstring :=
  let normalized := js_trim query in
  if 256 <? text_bytes normalized then Throw (js "client discovery query too large")
  else if str_eqb normalized [] then Throw (js "client discovery query is required")
  else Ok normalized.

Definition clampInteger (value : option Z) (min max : Z) : Z :=
  match value with None => min | Some value => Z.max min (Z.min max value) end.

Definition is_accepted (o : BeaconObservation) : bool := bool_decide (validation o = observation_accepted).

Definition hasAcceptedObservation (report : SearchCarrierSearchReport) : bool := existsb is_accepted (observations report).

Definition validation_text (v : BeaconObservationValidation) : jsstring :=
  match v with observation_accepted => js "accepted" | observation_rejected => js "rejected" end.

Definition observation_key (o : BeaconObservation) : jsstring :=
  match validation o, senderPublicKey o, observation_beaconId o, observation_sequence o with
  | observation_accepted, Some key, Some id, Some sequence =>
      js "accepted:" ++ key ++ js ":" ++ id ++ js ":" ++ number_text sequence
  | _, _, _, _ =>
      js "candidate:" ++ evidence_carrier (evidence o) ++ js ":" ++ recordUrl (evidence o) ++ js ":" ++ wrapperPreview o
      ++ js ":" ++ validation_text (validation o) ++ js ":" ++ observation_reason o
  end.

(** The loop of [dedupeObservations]; [room] is how many more are kept. *)
Fixpoint dedupe_observations (room : nat) (seen : list jsstring) (observations : list BeaconObservation)
  : list BeaconObservation :=
  match observations with
  | [] => []
  | o :: observations =>
      let key := observation_key o in
      if bool_decide (key ∈ seen) then dedupe_observations room seen observations
      else o :: match room with
                | S (S _ as room) => dedupe_observations room (key :: seen) observations
                | _ => []
                end
  end.

Definition dedupeObservations (observations : list BeaconObservation) : list BeaconObservation :=
  dedupe_observations maxClientDiscoveryObservations [] observations.

Definition has_status (s : ClientDiscoveryStatus) (reports : list SearchCarrierSearchReport) : bool :=
  existsb (fun r => bool_decide (status r = s)) reports.

Definition selectStatus (reports : list SearchCarrierSearchReport) (acceptedCount : Z) : ClientDiscoveryStatus :=
  if 0 <? acceptedCount then
    if has_status status_failed reports || has_status status_partial reports || has_status status_rate_limited reports
    then status_partial else status_ok
  else if has_status status_rate_limited reports then status_rate_limited
  else if has_status status_aborted reports then status_aborted
  else if has_status status_failed reports then status_failed
  else status_empty.

Section Search.
Context (search : nat -> SearchCarrierSearchRequest -> search_outcome).

Definition runCarrierSearch (id : jsstring) (call : nat) (request : SearchCarrierSearchRequest) : SearchCarrierSearchReport :=
  match search call request with
  | search_report report => report
  | search_threw aborted message =>
      mkReport id (if aborted then status_aborted else status_failed) (query request)
        (if aborted then js "carrier search aborted"
         else match message with Some m => take 160 m | None => js "carrier search failed" end) [] 0
  end.

Definition discoverClientBootstrapBeacons (request : ClientDiscoveryRequest) : result ClientDiscoveryReport :=
  let? primary := boundedQuery (primaryQuery request) in
  let? fallback := match fallbackQuery request with
    | None => Ok None
    | Some q => let? q := boundedQuery q in Ok (Some q)
    end in
  let page := clampInteger (default (Some 1) (request_page request)) 1 maxClientDiscoveryPage in
  let perPage := clampInteger (default (Some 5) (request_perPage request)) 1 maxClientDiscoveryPerPage in
  let forks := default false (request_includeForks request) in
  let primaryReport := runCarrierSearch (carrier_id request) 0 (mkSearchRequest primary page perPage forks) in
  let reports :=
    match fallback with
    | Some q =>
        if default true (includeFallback request) && negb (str_eqb q primary)
           && negb (hasAcceptedObservation primaryReport)
           && negb (bool_decide (status primaryReport = status_rate_limited))
           && negb (bool_decide (status primaryReport = status_aborted))
        then [primaryReport; runCarrierSearch (carrier_id request) 1 (mkSearchRequest q page perPage forks)]
        else [primaryReport]
    | None => [primaryReport]
    end in
  let found := dedupeObservations (concat (observations <$> reports)) in
  let acceptedCount := zlen (List.filter is_accepted found) in
  let rejectedCount := zlen (List.filter (fun o => bool_decide (validation o = observation_rejected)) found) in
  Ok (mkDiscoveryReport (selectStatus reports acceptedCount) primary fallback reports found acceptedCount rejectedCount
        (number_text acceptedCount ++ js " accepted / " ++ number_text rejectedCount
         ++ js " rejected beacon observations across " ++ number_text (zlen reports) ++ js " " ++ carrier_id request
         ++ js " search pass" ++ (if zlen reports =? 1 then [] else js "es"))).
End Search.

(** ** What a search promises *)

(** The query that is sent: the trimmed one, not empty and at most 256 bytes. *)
Definition bounded_query (query sent : jsstring) : Prop :=
  sent = js_trim query /\ sent <> [] /\ text_bytes sent <= 256.

(** A page number brought into [1..10]; what is not finite becomes 1. *)
Definition clamped (value : option Z) (n : Z) : Prop :=
  match value with
  | None => n = 1
  | Some z => (z < 1 -> n = 1) /\ (1 <= z <= 10 -> n = z) /\ (10 < z -> n = 10)
  end.

(** The report of the [call]-th call of the carrier, which got [request]; an
    error becomes a report without observations. *)
Definition reported (search : nat -> SearchCarrierSearchRequest -> search_outcome) (id : jsstring)
    (call : nat) (request : SearchCarrierSearchRequest) (rep : SearchCarrierSearchReport) : Prop :=
  match search call request with
  | search_report report => rep = report
  | search_threw aborted _ =>
      status rep = (if aborted then status_aborted else status_failed) /\ observations rep = []
      /\ report_query rep = query request /\ report_carrier rep = id /\ evidenceCount rep = 0
  end.

(** The fallback query is to be tried after the first report. *)
Definition fallback_due (request : ClientDiscoveryRequest) (primary fallback : jsstring)
    (first : SearchCarrierSearchReport) : Prop :=
  includeFallback request <> Some false /\ fallback <> primary
  /\ Forall (fun o => validation o = observation_rejected) (observations first)
  /\ status first <> status_rate_limited /\ status first <> status_aborted.

(** The observations whose key no earlier one has. *)
Fixpoint firsts (earlier l : list BeaconObservation) : list BeaconObservation :=
  match l with
  | [] => []
  | o :: l =>
      if bool_decide (observation_key o ∈ observation_key <$> earlier) then firsts (o :: earlier) l
      else o :: firsts (o :: earlier) l
  end.

Definition count_of (v : BeaconObservationValidation) (l : list BeaconObservation) : Z :=
  zlen (filter (fun o => validation o = v) l).

Definition some_report (reports : list SearchCarrierSearchReport) (s : ClientDiscoveryStatus) : Prop :=
  Exists (fun r => status r = s) reports.

(** The status of a search, from the number of accepted observations and the
    status of the reports. *)
Definition status_says (reports : list SearchCarrierSearchReport) (accepted : Z) (s : ClientDiscoveryStatus) : Prop :=
  let some := some_report reports in
  let troubled := some status_failed \/ some status_partial \/ some status_rate_limited in
  match s with
  | status_ok => 0 < accepted /\ ~ troubled
  | status_partial => 0 < accepted /\ troubled
  | status_rate_limited => accepted <= 0 /\ some status_rate_limited
  | status_aborted => accepted <= 0 /\ ~ some status_rate_limited /\ some status_aborted
  | status_failed => accepted <= 0 /\ ~ some status_rate_limited /\ ~ some status_aborted /\ some status_failed
  | status_empty => accepted <= 0 /\ ~ some status_rate_limited /\ ~ some status_aborted /\ ~ some status_failed
  end.

Record discovered (search : nat -> SearchCarrierSearchRequest -> search_outcome) (request : ClientDiscoveryRequest)
    (r : ClientDiscoveryReport) : Prop := {
  ds_primary : bounded_query (primaryQuery request) (discovery_primaryQuery r);
  ds_fallback :
    match fallbackQuery request, discovery_fallbackQuery r with
    | None, None => True
    | Some q, Some sent => bounded_query q sent
    | _, _ => False
    end;
  ds_passes : exists page perPage first,
    clamped (default (Some 1) (request_page request)) page /\ clamped (default (Some 5) (request_perPage request)) perPage
    /\ let pass call q := reported search (carrier_id request) call
                            (mkSearchRequest q page perPage (default false (request_includeForks request))) in
       pass 0%nat (discovery_primaryQuery r) first
       /\ (carrierReports r = [first]
            /\ (forall q, discovery_fallbackQuery r = Some q -> ~ fallback_due request (discovery_primaryQuery r) q first)
          \/ exists q second, discovery_fallbackQuery r = Some q /\ fallback_due request (discovery_primaryQuery r) q first
               /\ pass 1%nat q second /\ carrierReports r = [first; second]);
  ds_found : discovery_observations r = take 64 (firsts [] (concat (observations <$> carrierReports r)));
  ds_accepted : acceptedCount r = count_of observation_accepted (discovery_observations r);
  ds_rejected : rejectedCount r = count_of observation_rejected (discovery_observations r);
  ds_status : status_says (carrierReports r) (acceptedCount r) (discovery_status r);
}.

(** ** Facts *)

Lemma boundedQuery_Ok query sent : boundedQuery query = Ok sent <-> bounded_query query sent.
Proof.
  unfold boundedQuery, bounded_query. repeat case_match; bool_props.
  - split; [done | intros (-> & _ & ?); lia].
  - match goal with H : str_eqb _ _ = true |- _ => apply str_eqb_true in H end. split; [done | by intros (-> & ? & _)].
  - match goal with H : str_eqb _ _ = false |- _ => apply str_eqb_false in H end.
    split; [intros [= <-]; split_and!; [done | done | lia] | by intros (-> & _)].
Qed.

Lemma clampInteger_clamped value : clamped value (clampInteger value 1 10).
Proof. unfold clamped, clampInteger. destruct value; [lia | done]. Qed.

Lemma runCarrierSearch_reported search id call request :
  reported search id call request (runCarrierSearch search id call request).
Proof. unfold reported, runCarrierSearch. by destruct (search call request) as [|[]]. Qed.

Lemma nothing_accepted rep :
  hasAcceptedObservation rep = false <-> Forall (fun o => validation o = observation_rejected) (observations rep).
Proof.
  unfold hasAcceptedObservation. induction (observations rep) as [|o l IH]; [done |]. cbn [existsb].
  rewrite orb_false_iff, IH, Forall_cons. unfold is_accepted. rewrite bool_decide_eq_false. destruct (validation o); naive_solver.
Qed.

Lemma has_status_some s reports : has_status s reports = true <-> some_report reports s.
Proof.
  unfold has_status, some_report. induction reports as [|r l IH]; cbn [existsb]; [by rewrite Exists_nil |].
  by rewrite orb_true_iff, bool_decide_eq_true, IH, Exists_cons.
Qed.

Lemma selectStatus_says reports accepted : status_says reports accepted (selectStatus reports accepted).
Proof.
  pose proof (has_status_some status_failed reports) as Hf. pose proof (has_status_some status_partial reports) as Hp.
  pose proof (has_status_some status_rate_limited reports) as Hl. pose proof (has_status_some status_aborted reports) as Ha.
  unfold selectStatus, status_says. cbv zeta. destruct (Z.ltb_spec 0 accepted);
    destruct (has_status status_failed reports), (has_status status_partial reports),
      (has_status status_rate_limited reports), (has_status status_aborted reports); cbn [orb]; intuition (try discriminate; lia).
Qed.

(** The loop keeps the first observations of their keys, as many as fit. *)
Lemma dedupe_firsts room seen earlier l :
  (0 < room)%nat -> (forall k, k ∈ seen <-> k ∈ observation_key <$> earlier) ->
  dedupe_observations room seen l = take room (firsts earlier l).
Proof.
  revert room seen earlier. induction l as [|o l IH]; intros room seen earlier Hr Hs; cbn [dedupe_observations firsts];
    [by destruct room |].
  rewrite (bool_decide_ext _ _ (Hs (observation_key o))). case_bool_decide as Hin.
  - apply IH; [done |]. intros k. rewrite Hs. csimpl. set_solver.
  - destruct room as [|[|room]]; [lia | done |]. cbn [take]. f_equal. apply IH; [lia |]. intros k. csimpl. set_solver.
Qed.

Lemma dedupeObservations_firsts l : dedupeObservations l = take 64 (firsts [] l).
Proof. apply dedupe_firsts; [unfold maxClientDiscoveryObservations; lia | done]. Qed.

(** Each key once, and none that is there already. *)
Lemma firsts_spec earlier l :
  NoDup (observation_key <$> firsts earlier l)
  /\ Forall (fun o => observation_key o ∉ observation_key <$> earlier) (firsts earlier l)
  /\ sublist (firsts earlier l) l
  /\ Forall (fun o => observation_key o ∈ observation_key <$> earlier \/ observation_key o ∈ observation_key <$> firsts earlier l) l.
Proof.
  revert earlier. induction l as [|o l IH]; intros earlier; cbn [firsts];
    [split_and!; [apply NoDup_nil_2 | constructor | constructor | constructor] |].
  destruct (IH (o :: earlier)) as (Hn & Hf & Hs & Hc). csimpl in *. case_bool_decide as Hin.
  - split_and!; [done | eapply Forall_impl; [exact Hf |]; set_solver | by constructor |].
    constructor; [by left |]. eapply Forall_impl; [exact Hc |]. intros x [[E|Hx]%elem_of_cons|Hx]; [left; by rewrite E | by left | by right].
  - csimpl. split_and!; [| | by constructor |].
    + constructor; [| done]. intros (x & E & Hx)%list_elem_of_fmap. rewrite Forall_forall in Hf. apply (Hf x Hx). rewrite <- E. set_solver.
    + constructor; [done |]. eapply Forall_impl; [exact Hf |]. set_solver.
    + constructor; [right; set_solver |]. eapply Forall_impl; [exact Hc |]. cbn. set_solver.
Qed.

Lemma count_accepted l : zlen (List.filter is_accepted l) = count_of observation_accepted l.
Proof.
  unfold count_of. induction l as [|o l IH]; [done |]. rewrite filter_cons. cbn [List.filter]. unfold is_accepted at 1.
  rewrite <- decide_bool_decide. case_decide; rewrite ?zlen_cons; lia.
Qed.

Lemma count_rejected l :
  zlen (List.filter (fun o => bool_decide (validation o = observation_rejected)) l) = count_of observation_rejected l.
Proof.
  unfold count_of. induction l as [|o l IH]; [done |]. rewrite filter_cons. cbn [List.filter].
  rewrite <- decide_bool_decide. case_decide; rewrite ?zlen_cons; lia.
Qed.

Lemma counts_add_up l : count_of observation_accepted l + count_of observation_rejected l = zlen l.
Proof.
  unfold count_of. induction l as [|o l IH]; [done |]. rewrite !filter_cons, zlen_cons.
  destruct (validation o); repeat case_decide; try done; rewrite zlen_cons; lia.
Qed.

(** C40: a search does exactly this.  Both queries are trimmed, not empty and at
    most 256 bytes.  The carrier is called with the first query; it is called a
    second time, with the fallback query and the same page, page size and forks,
    exactly when there is a fallback that is not switched off and differs, the
    first report holds no accepted observation and was neither rate limited nor
    aborted.  The page and its size are the requested ones brought into [1..10].
    The observations are the first ones of their keys in the order of the
    reports, up to 64; one count is of the accepted and the other of the
    rejected among them.  With something accepted the status is [partial] when a
    report failed, was partial or rate limited, and [ok] otherwise; with nothing
    accepted it is the first that applies of [rate_limited], [aborted],
    [failed] and [empty]. *)
Theorem discovery_spec search request r
    (Hr : discoverClientBootstrapBeacons search request = Ok r) :
  discovered search request r
  /\ NoDup (observation_key <$> discovery_observations r)
  /\ sublist (discovery_observations r) (concat (observations <$> carrierReports r))
  /\ acceptedCount r + rejectedCount r = zlen (discovery_observations r).
Proof.
  unfold discoverClientBootstrapBeacons in Hr. step Hr as p Ep. step Hr as f Ef. apply boundedQuery_Ok in Ep.
  match type of Hr with Ok (mkDiscoveryReport (selectStatus ?l _) _ _ _ _ _ _ _) = _ => set (reports := l) in Hr end.
  set (reported_all := concat (observations <$> reports)) in Hr.
  assert (Hfound : dedupeObservations reported_all = take 64 (firsts [] reported_all)) by apply dedupeObservations_firsts.
  rewrite count_accepted, count_rejected, Hfound in Hr. injection Hr as <-.
  destruct (firsts_spec [] reported_all) as (Hn & _ & Hs & _).
  cbn [discovery_observations carrierReports discovery_fallbackQuery discovery_primaryQuery acceptedCount rejectedCount
    discovery_status]. split_and!.
  - split; cbn [discovery_observations carrierReports discovery_fallbackQuery discovery_primaryQuery acceptedCount rejectedCount
      discovery_status]; [done | | | done | done | done | apply selectStatus_says].
    + destruct (fallbackQuery request) as [q|]; [| by injection Ef as <-]. step Ef as q' Eq. injection Ef as <-. by apply boundedQuery_Ok.
    + eexists _, _, _. split; [apply clampInteger_clamped |]. split; [apply clampInteger_clamped |]. cbv zeta.
      split; [apply runCarrierSearch_reported |]. unfold reports. clear reports reported_all Hfound Hn Hs.
      set (first := runCarrierSearch search _ 0 _). destruct f as [q|]; [| by left]. unfold fallback_due. pose proof (nothing_accepted first) as Hna.
      match goal with |- context [if ?b then _ else _] => destruct b eqn:E end.
      * right. bool_props. eexists q, _. split; [done |]. split; [| split; [apply runCarrierSearch_reported | done]].
        split; [intros Hx; by rewrite Hx in * |]. split; [intros ->; by rewrite str_eqb_refl in * | by split; [apply Hna |]].
      * left. split; [done |]. intros q' [= <-] (Hi & Hq & Ha%Hna & H1 & H2).
        rewrite Ha, !bool_decide_eq_false_2, (proj2 (str_eqb_false q p) Hq) in E by done.
        destruct (includeFallback request) as [[]|]; done.
  - eapply sublist_NoDup; [exact Hn |]. apply fmap_sublist. apply sublist_take.
  - etrans; [apply sublist_take | exact Hs].
  - apply counts_add_up.
Qed.

(** A search throws exactly when one of its queries is not acceptable. *)
Lemma discovery_runs search request :
  (exists r, discoverClientBootstrapBeacons search request = Ok r) <->
  (exists p, bounded_query (primaryQuery request) p)
  /\ (forall q, fallbackQuery request = Some q -> exists f, bounded_query q f).
Proof.
  setoid_rewrite <- boundedQuery_Ok. unfold discoverClientBootstrapBeacons. split.
  - intros [r H]. step H as p Ep. step H as f Ef. split; [by exists p |]. intros q E. rewrite E in Ef. step Ef as q' Eq. by exists q'.
  - intros [[p ->] Hf]. destruct (fallbackQuery request) as [q|]; [| by eexists].
    destruct (Hf q eq_refl) as [f ->]. by eexists.
Qed.

(** The first query is rejected, the fallback brings the same beacon twice. *)
Definition sample_observation (v : BeaconObservationValidation) (record : jsstring) : BeaconObservation :=
  mkObservation record v (js "checked") (js "BRANCH0.AAAA") (mkEvidence (js "github") (js "q") (js "code") (js "s") record) None None
    None (Some (js "key")) (Some (js "beacon")) (Some 7).

Definition sample_search (call : nat) (request : SearchCarrierSearchRequest) : search_outcome :=
  match call with
  | O => search_report (mkReport (js "github") status_ok (query request) (js "one") [sample_observation observation_rejected (js "r1")] 1)
  | _ => search_report (mkReport (js "github") status_ok (query request) (js "two")
           [sample_observation observation_accepted (js "r2"); sample_observation observation_accepted (js "r3")] 2)
  end.

Definition sample_request : ClientDiscoveryRequest :=
  mkDiscovery (js "github") (js " branch ") (Some (js "fallback")) None None None None.

Definition sample_report : ClientDiscoveryReport :=
  match discoverClientBootstrapBeacons sample_search sample_request with
  | Ok r => r
  | Throw _ => mkDiscoveryReport status_failed [] None [] [] 0 0 []
  end.

Example sample_report_counts :
  (discovery_status sample_report, length (carrierReports sample_report), acceptedCount sample_report, rejectedCount sample_report)
  = (status_ok, 2%nat, 1, 1).
Proof. vm_compute. reflexivity. Qed.

(** The second call had the fallback query. *)
Lemma discovery_spec_witness :
  discovered sample_search sample_request sample_report
  /\ report_query <$> carrierReports sample_report = [js "branch"; js "fallback"].
Proof. split; [apply (discovery_spec sample_search sample_request sample_report); vm_compute; reflexivity | vm_compute; reflexivity]. Defined.
