(* ===== verification/LocalDatabase.v ===== *)
(** * [pwa/src/storage]: the local database

    An object store of IndexedDB maps primary keys to records; a cursor over an
    index visits them by index key, then by primary key.  Transactions that write
    the same store run one after the other, and the requests of a transaction in
    the order they were placed: a transaction is a function to the next database.
    [deleteStoredMessagesForContact] places requests from the callbacks of two
    cursors that are open together, so its queue of requests is written out. *)
From S2P Require Import Prelude JsRuntime Collections Image Admission AppStore.

Abbreviation object_store A := (gmap jsstring A).

(** ** Cursors *)

Section Cursor.
Context {A : Type}.
Implicit Types m : object_store A.

(** The order of an index whose key is a number. *)
Definition index_cmp (key : A -> Z) (left right : jsstring * A) : Z :=
  if negb (key left.2 =? key right.2) then key left.2 - key right.2
  else if js_ltb left.1 right.1 then -1 else if js_ltb right.1 left.1 then 1 else 0.

(** What [index(...).openCursor()] visits, in order. *)
Definition index_order (key : A -> Z) m : list (jsstring * A) := sort_by (index_cmp key) (map_to_list m).

(** [openCursor(IDBKeyRange.only(c))] on an index by contact, deleting every record it visits. *)
Definition delete_where (p : A -> bool) m : object_store A := filter (fun e => p e.2 = false) m.

(** [store.getAll()] *)
Definition get_all m : list A := (index_order (fun _ => 0) m).*2.

(** A cursor that deletes every record after the first [bound] it visits. *)
Definition keep_first (bound : nat) (visited : list (jsstring * A)) m : object_store A :=
  foldl (fun m e => delete e.1 m) m (drop bound visited).
End Cursor.

(** ** Records *)

Inductive TimelineContent : Type :=
| tl_text (message : MessageSummary)
| tl_image (image : ImageMessageProjection).

Module Timeline.
Record TimelineRecord := mk {
  messageId : jsstring;
  applicationMessageId : option jsstring;
  contactId : jsstring;
  sentAt : Z;
  content : TimelineContent;
}.
End Timeline.
Abbreviation TimelineRecord := Timeline.TimelineRecord.

Record ConversationTimelineCursor := mkCursor { cursor_sentAt : Z; cursor_messageId : jsstring }.

Inductive ConversationTimelineEntry : Type :=
| entry_text (message : MessageSummary) (messageId : jsstring) (sentAt : Z)
| entry_image (image : ImageMessageProjection) (messageId : jsstring) (sentAt : Z).

Record ConversationTimelinePage := mkPage { entries : list ConversationTimelineEntry; hasOlder : bool }.

Module Stored.
Record StoredProjection := mk { projection : ImageMessageProjection; storedAt : Z }.
Record StoredImageMedia := mkMedia { mediaType : jsstring; data : bytes }.
End Stored.

Module Target.
Record StoredMessageDeliveryTarget := mk {
  messageId : jsstring;
  contactId : jsstring;
  deliveryIds : list jsstring;
  createdAt : Z;
}.
End Target.

Module Terminal.
Record StoredTerminalReadTarget := mk { targetDeliveryId : jsstring; contactId : jsstring; expiresAt : Z }.
End Terminal.

(** A [CryptoKey] is a handle. *)
Module Identity.
Record StoredIdentityRecord := mk {
  peerId : jsstring;
  relayPublicKey : jsstring;
  relayPrivateKey : nat;
  hpkePublicKey : jsstring;
  hpkePrivateKey : nat;
  displayName : option jsstring;
  createdAt : Z;
}.
End Identity.

Record PortableProfileSnapshot := mkSnapshot {
  snapshot_identity : Identity.StoredIdentityRecord;
  snapshot_contacts : list ContactSummary;
  snapshot_messages : list MessageSummary;
  snapshot_readState : list (jsstring * Z);
  snapshot_requests : list IncomingMessageRequest;
}.

Module Db.
Record LocalDatabase := mk {
  identity : option Identity.StoredIdentityRecord;
  contacts : object_store ContactSummary;
  messages : object_store MessageSummary;
  timeline : object_store TimelineRecord;
  locallyDeleted : object_store Z;
  outbox : object_store StoredOutboxEntry;
  deliveryTargets : object_store Target.StoredMessageDeliveryTarget;
  terminalReadTargets : object_store Terminal.StoredTerminalReadTarget;
  readReceipts : object_store StoredReadReceiptEntry;
  received : object_store Z;
  projections : object_store Stored.StoredProjection;
  media : object_store Stored.StoredImageMedia;
  readState : object_store Z;
  messageRequests : object_store IncomingMessageRequest;
}.
End Db.
Abbreviation LocalDatabase := Db.LocalDatabase.

Definition empty_database : LocalDatabase := Db.mk None ∅ ∅ ∅ ∅ ∅ ∅ ∅ ∅ ∅ ∅ ∅ ∅ ∅.

(** One update per group of stores that a transaction writes. *)
Definition on_text_stores (f : object_store MessageSummary -> object_store MessageSummary)
    (g : object_store TimelineRecord -> object_store TimelineRecord) (h : object_store Z -> object_store Z)
    (d : LocalDatabase) : LocalDatabase :=
  Db.mk (Db.identity d) (Db.contacts d) (f (Db.messages d)) (g (Db.timeline d)) (h (Db.locallyDeleted d)) (Db.outbox d)
    (Db.deliveryTargets d) (Db.terminalReadTargets d) (Db.readReceipts d) (Db.received d) (Db.projections d) (Db.media d)
    (Db.readState d) (Db.messageRequests d).

Definition on_image_stores (f : object_store Stored.StoredProjection -> object_store Stored.StoredProjection)
    (g : object_store Stored.StoredImageMedia -> object_store Stored.StoredImageMedia)
    (h : object_store TimelineRecord -> object_store TimelineRecord) (d : LocalDatabase) : LocalDatabase :=
  Db.mk (Db.identity d) (Db.contacts d) (Db.messages d) (h (Db.timeline d)) (Db.locallyDeleted d) (Db.outbox d)
    (Db.deliveryTargets d) (Db.terminalReadTargets d) (Db.readReceipts d) (Db.received d) (f (Db.projections d))
    (g (Db.media d)) (Db.readState d) (Db.messageRequests d).

Definition on_delivery_stores (f : object_store StoredOutboxEntry -> object_store StoredOutboxEntry)
    (g : object_store Target.StoredMessageDeliveryTarget -> object_store Target.StoredMessageDeliveryTarget)
    (d : LocalDatabase) : LocalDatabase :=
  Db.mk (Db.identity d) (Db.contacts d) (Db.messages d) (Db.timeline d) (Db.locallyDeleted d) (f (Db.outbox d))
    (g (Db.deliveryTargets d)) (Db.terminalReadTargets d) (Db.readReceipts d) (Db.received d) (Db.projections d)
    (Db.media d) (Db.readState d) (Db.messageRequests d).

Definition on_receipt_stores (f : object_store Terminal.StoredTerminalReadTarget -> object_store Terminal.StoredTerminalReadTarget)
    (g : object_store StoredReadReceiptEntry -> object_store StoredReadReceiptEntry) (h : object_store Z -> object_store Z)
    (d : LocalDatabase) : LocalDatabase :=
  Db.mk (Db.identity d) (Db.contacts d) (Db.messages d) (Db.timeline d) (Db.locallyDeleted d) (Db.outbox d)
    (Db.deliveryTargets d) (f (Db.terminalReadTargets d)) (g (Db.readReceipts d)) (h (Db.received d)) (Db.projections d)
    (Db.media d) (Db.readState d) (Db.messageRequests d).

Definition on_profile_stores (f : object_store ContactSummary -> object_store ContactSummary)
    (g : object_store Z -> object_store Z) (h : object_store IncomingMessageRequest -> object_store IncomingMessageRequest)
    (d : LocalDatabase) : LocalDatabase :=
  Db.mk (Db.identity d) (f (Db.contacts d)) (Db.messages d) (Db.timeline d) (Db.locallyDeleted d) (Db.outbox d)
    (Db.deliveryTargets d) (Db.terminalReadTargets d) (Db.readReceipts d) (Db.received d) (Db.projections d) (Db.media d)
    (g (Db.readState d)) (h (Db.messageRequests d)).

(** ** [messages-store.ts] *)

Definition initialConversationTimelineEntries : Z := 64.
Definition conversationTimelinePageEntries : Z := 48.
Definition maxStoredLocalDeletionTombstones : nat := 256.

Definition timelineRecordForMessage (m : MessageSummary) : TimelineRecord :=
  Timeline.mk (Message.messageId m)
    (Some (default (Message.messageId m) (Message.applicationMessageId m)))
    (Message.contactId m) (Message.sentAt m) (tl_text m).

Definition saveStoredMessage (m : MessageSummary) (d : LocalDatabase) : LocalDatabase :=
  match Db.locallyDeleted d !! Message.messageId m with
  | Some _ => d
  | None => on_text_stores <[Message.messageId m := m]> <[Message.messageId m := timelineRecordForMessage m]> id d
  end.

(** The cursor over [byDeletedAt], newest first. *)
Definition trim_tombstones (m : object_store Z) : object_store Z :=
  keep_first maxStoredLocalDeletionTombstones (reverse (index_order id m)) m.

Definition delete_ids {A} (ids : list jsstring) (m : object_store A) : object_store A :=
  foldl (fun m id => delete id m) m ids.

Definition uniqueMessageIds (messageIds : list jsstring) : list jsstring :=
  take maxStoredLocalDeletionTombstones (keep (fun id => negb (str_eqb id [])) (js_unique messageIds)).

Definition deleteStoredMessagesLocally (messageIds : list jsstring) (deletedAt : Z) (d : LocalDatabase) : LocalDatabase :=
  let uniqueMessageIds := uniqueMessageIds messageIds in
  match uniqueMessageIds with
  | [] => d
  | _ =>
      on_delivery_stores (delete_ids uniqueMessageIds) (delete_ids uniqueMessageIds)
        (on_text_stores (delete_ids uniqueMessageIds) (delete_ids uniqueMessageIds)
           (fun t => trim_tombstones (foldl (fun t id => <[id := deletedAt]> t) t uniqueMessageIds)) d)
  end.

Definition replaceStoredMessageForRetry (previousMessageId : jsstring) (replacement : MessageSummary) (d : LocalDatabase)
  : LocalDatabase :=
  on_text_stores (fun m => <[Message.messageId replacement := replacement]> (delete previousMessageId m))
    (fun t => <[Message.messageId replacement := timelineRecordForMessage replacement]> (delete previousMessageId t)) id d.

(** *** The queue of [deleteStoredMessagesForContact] *)

Inductive deletion_request : Type :=
| rq_message_cursor (after : option jsstring)
| rq_delete_timeline (id : jsstring)
| rq_put_tombstone (id : jsstring)
| rq_delete_message (id : jsstring)
| rq_trim_cursor (before : option (jsstring * Z))
| rq_delete_tombstone (id : jsstring).

(** The next message of the contact after a primary key. *)
Definition next_message (contactId : jsstring) (after : option jsstring) (m : object_store MessageSummary) : option jsstring :=
  (fun e => e.1) <$>
  head (keep (fun e => str_eqb (Message.contactId e.2) contactId
                       && match after with None => true | Some k => js_ltb k e.1 end)
          (index_order (fun _ => 0) m)).

(** The next tombstone before a position of [byDeletedAt]. *)
Definition next_tombstone (before : option (jsstring * Z)) (t : object_store Z) : option (jsstring * Z) :=
  head (keep (fun e => match before with None => true | Some p => index_cmp id e p <? 0 end) (reverse (index_order id t))).

(** One request: the next database, the requests its callback places, and the
    number of tombstones visited. *)
Definition serve (contactId : jsstring) (deletedAt : Z) (retained : nat) (d : LocalDatabase) (r : deletion_request)
  : LocalDatabase * list deletion_request * nat :=
  match r with
  | rq_message_cursor after =>
      match next_message contactId after (Db.messages d) with
      | None => (d, [], retained)
      | Some k => (d, [rq_delete_timeline k; rq_put_tombstone k; rq_delete_message k; rq_message_cursor (Some k)], retained)
      end
  | rq_delete_timeline k => (on_text_stores id (delete k) id d, [], retained)
  | rq_put_tombstone k => (on_text_stores id id <[k := deletedAt]> d, [], retained)
  | rq_delete_message k => (on_text_stores (delete k) id id d, [], retained)
  | rq_trim_cursor before =>
      match next_tombstone before (Db.locallyDeleted d) with
      | None => (d, [], retained)
      | Some p =>
          let retained := S retained in
          (d, (if (maxStoredLocalDeletionTombstones <? retained)%nat then [rq_delete_tombstone p.1] else [])
                ++ [rq_trim_cursor (Some p)], retained)
      end
  | rq_delete_tombstone k => (on_text_stores id id (delete k) d, [], retained)
  end.

(** The requests run first in, first out; [None] when the fuel is not enough. *)
Fixpoint serve_all (fuel : nat) (contactId : jsstring) (deletedAt : Z) (retained : nat) (d : LocalDatabase)
    (queue : list deletion_request) : option LocalDatabase :=
  match queue with
  | [] => Some d
  | r :: queue =>
      match fuel with
      | O => None
      | S fuel =>
          let '(d, placed, retained) := serve contactId deletedAt retained d r in
          serve_all fuel contactId deletedAt retained d (queue ++ placed)
      end
  end.

Definition deletion_fuel (d : LocalDatabase) : nat :=
  6 * size (Db.messages d) + 2 * size (Db.locallyDeleted d) + 2.

Definition deleteStoredMessagesForContact (contactId : jsstring) (deletedAt : Z) (d : LocalDatabase) : LocalDatabase :=
  default d (serve_all (deletion_fuel d) contactId deletedAt 0 d [rq_message_cursor None; rq_trim_cursor None]).

(** *** Pages of the timeline *)

Definition validMessageId (value : jsstring) : bool := (0 <? zlen value) && (zlen value <=? 128).
Definition validContactId (value : jsstring) : bool := (0 <? zlen value) && (zlen value <=? 128).
Definition validStoredTimestamp (value : Z) : bool := is_safe value && (0 <=? value).
Definition validTimelineLimit (value : Z) : bool :=
  is_safe value && (0 <? value) && (value <=? initialConversationTimelineEntries).
Definition validTimelineCursor (value : ConversationTimelineCursor) : bool :=
  validStoredTimestamp (cursor_sentAt value) && validMessageId (cursor_messageId value).

Definition validMessageSummary (m : MessageSummary) : bool :=
  validMessageId (Message.messageId m) && validContactId (Message.contactId m) && validStoredTimestamp (Message.sentAt m).

Definition timelineEntry (r : TimelineRecord) : option ConversationTimelineEntry :=
  if negb (validMessageId (Timeline.messageId r)) || negb (validStoredTimestamp (Timeline.sentAt r)) then None
  else match Timeline.content r with
  | tl_text m =>
      if validMessageSummary m && str_eqb (Message.messageId m) (Timeline.messageId r)
         && (Message.sentAt m =? Timeline.sentAt r)
      then Some (entry_text m (Timeline.messageId r) (Timeline.sentAt r)) else None
  | tl_image p =>
      if validImageMessageProjection p && str_eqb (Projection.messageId p) (Timeline.messageId r)
         && bool_decide (Projection.sentAt p = Int (Timeline.sentAt r))
      then Some (entry_image p (Timeline.messageId r) (Timeline.sentAt r)) else None
  end.

(** A position in [byContactChronology] among the records of one contact. *)
Definition position_ltb (left right : Z * jsstring) : bool :=
  (left.1 <? right.1) || ((left.1 =? right.1) && js_ltb left.2 right.2).

Definition chronology (contactId : jsstring) (t : object_store TimelineRecord) : list (jsstring * TimelineRecord) :=
  keep (fun e => str_eqb (Timeline.contactId e.2) contactId) (index_order Timeline.sentAt t).

Definition record_position (e : jsstring * TimelineRecord) : Z * jsstring := (Timeline.sentAt e.2, e.1).

(** [IDBKeyRange.bound(lower, upper, lowerOpen, upperOpen)] *)
Definition in_range (lower upper : Z * jsstring) (lowerOpen upperOpen : bool) (e : jsstring * TimelineRecord) : bool :=
  let p := record_position e in
  (if lowerOpen then position_ltb lower p else negb (position_ltb p lower))
  && (if upperOpen then position_ltb p upper else negb (position_ltb upper p)).

Definition last_position : Z * jsstring := (MAX_SAFE_INTEGER, [65535]).

(** The cursor stops when it has [limit + 1] entries. *)
Definition loadStoredTimelinePage (contactId : jsstring) (before : option ConversationTimelineCursor) (limit : Z)
    (d : LocalDatabase) : ConversationTimelinePage :=
  if negb (validContactId contactId) || negb (validTimelineLimit limit) then mkPage [] false
  else
    let upper := match before with None => last_position | Some c => (cursor_sentAt c, cursor_messageId c) end in
    let upperOpen := match before with None => false | Some _ => true end in
    let visited := reverse (keep (in_range (0, []) upper false upperOpen) (chronology contactId (Db.timeline d))) in
    let found := take (Z.to_nat limit + 1) (omap (fun e => timelineEntry e.2) visited) in
    mkPage (reverse (take (Z.to_nat limit) found)) (Z.to_nat limit <? length found)%nat.

Definition loadStoredTimelineEntryByApplicationMessageId (applicationMessageId : jsstring) (d : LocalDatabase)
  : option ConversationTimelineEntry :=
  if negb (validMessageId applicationMessageId) then None
  else
    e ← head (keep (fun e => bool_decide (Timeline.applicationMessageId e.2 = Some applicationMessageId))
                (index_order (fun _ => 0) (Db.timeline d)));
    timelineEntry e.2.

Definition loadStoredTimelineEntriesAfter (contactId : jsstring) (after : ConversationTimelineCursor) (limit : Z)
    (d : LocalDatabase) : list ConversationTimelineEntry :=
  if negb (validContactId contactId) || negb (validTimelineCursor after) || negb (validTimelineLimit limit) then []
  else take (Z.to_nat limit)
         (omap (fun e => timelineEntry e.2)
            (keep (in_range (cursor_sentAt after, cursor_messageId after) last_position true false)
               (chronology contactId (Db.timeline d)))).

(** ** [image-media-store.ts] *)

Definition maxStoredImageMediaBytes : Z := 64 * 1024 * 1024.

Inductive StoreVerifiedImageMessageResult : Type :=
| im_stored | im_already_stored | im_capacity_exceeded | im_conflict | im_invalid.

#[export] Instance store_image_result_eq_dec : EqDecision StoreVerifiedImageMessageResult.
Proof. solve_decision. Defined.

Definition storedProjection (r : Stored.StoredProjection) : option Stored.StoredProjection :=
  if validImageMessageProjection (Stored.projection r) && validStoredTimestamp (Stored.storedAt r) then Some r else None.

(** The comparison of this file leaves out the caption and the reply target. *)
Definition sameStoredProjection (left right : ImageMessageProjection) : bool :=
  str_eqb (Projection.messageId left) (Projection.messageId right)
  && str_eqb (Projection.contactId left) (Projection.contactId right)
  && bool_decide (Projection.direction left = Projection.direction right)
  && bool_decide (Projection.sentAt left = Projection.sentAt right)
  && str_eqb (Projection.mediaType left) (Projection.mediaType right)
  && bool_decide (Projection.byteCount left = Projection.byteCount right)
  && bool_decide (Projection.width left = Projection.width right)
  && bool_decide (Projection.height left = Projection.height right).

Definition projection_bytes (r : Stored.StoredProjection) : Z := number_value (Projection.byteCount (Stored.projection r)).

Definition stored_bytes (l : list Stored.StoredProjection) : Z := foldr (fun r total => projection_bytes r + total) 0 l.

Definition image_timeline (p : ImageMessageProjection) : TimelineRecord :=
  Timeline.mk (Projection.messageId p) None (Projection.contactId p) (number_value (Projection.sentAt p)) (tl_image p).

Definition storeVerifiedImageMessage (p : ImageMessageProjection) (data : bytes) (now : Z) (d : LocalDatabase)
  : StoreVerifiedImageMessageResult * LocalDatabase :=
  if negb (validImageMessageProjection p) || negb (bool_decide (Projection.byteCount p = Int (zlen data)))
     || (maxStoredImageMediaBytes <? number_value (Projection.byteCount p))
  then (im_invalid, d)
  else match Db.projections d !! Projection.messageId p ≫= storedProjection with
  | Some existing => (if sameStoredProjection (Stored.projection existing) p then im_already_stored else im_conflict, d)
  | None =>
      let current := omap storedProjection (get_all (Db.projections d)) in
      if (maxImageMessageProjections <=? zlen current)
         || (maxStoredImageMediaBytes <? stored_bytes current + number_value (Projection.byteCount p))
      then (im_capacity_exceeded, d)
      else
        (im_stored,
         on_image_stores <[Projection.messageId p := Stored.mk p now]>
           <[Projection.messageId p := Stored.mkMedia (Projection.mediaType p) data]>
           <[Projection.messageId p := image_timeline p]> d)
  end.

Definition loadStoredImageMessageProjections (d : LocalDatabase) : list ImageMessageProjection :=
  take (Z.to_nat maxImageMessageProjections)
    (Stored.projection <$> omap storedProjection (get_all (Db.projections d))).

Definition boundedId (value : jsstring) : bool := boundedText value 128.

Definition loadStoredImageMessageBlob (messageId : jsstring) (d : LocalDatabase) : option Stored.StoredImageMedia :=
  if boundedId messageId then Db.media d !! messageId else None.

Definition deleteStoredImageMessages (messageIds : list jsstring) (d : LocalDatabase) : LocalDatabase :=
  let unique := take (Z.to_nat maxImageMessageProjections) (js_unique (keep boundedId messageIds)) in
  on_image_stores (delete_ids unique) (delete_ids unique) (delete_ids unique) d.

Definition deleteStoredImageMessagesForContact (contactId : jsstring) (d : LocalDatabase) : LocalDatabase :=
  if negb (boundedId contactId) then d
  else
    let of_contact r := str_eqb (Projection.contactId (Stored.projection r)) contactId in
    let ids := (keep (fun e => of_contact e.2) (index_order (fun _ => 0) (Db.projections d))).*1 in
    on_image_stores (delete_where of_contact) (delete_ids ids) (delete_ids ids) d.

Definition is_image_record (r : TimelineRecord) : bool :=
  match Timeline.content r with tl_image _ => true | tl_text _ => false end.

Definition clearStoredImageMessages (d : LocalDatabase) : LocalDatabase :=
  on_image_stores (fun _ => ∅) (fun _ => ∅) (delete_where is_image_record) d.

(** ** [message-delivery-target-store.ts] and [terminal-read-target-store.ts] *)

Definition maxStoredMessageDeliveryTargets : nat := 128.
Definition maxDeliveryTargetsPerMessage : nat := 8.
Definition maxStoredTerminalReadTargets : nat := 128.

Definition rememberedDeliveryIds (previous : list jsstring) (next : jsstring) : list jsstring :=
  take maxDeliveryTargetsPerMessage (next :: keep (fun candidate => negb (str_eqb candidate next)) previous).

(** The cursor over [byCreatedAt] starts with the oldest record. *)
Definition trimStoredTargets (m : object_store Target.StoredMessageDeliveryTarget)
  : object_store Target.StoredMessageDeliveryTarget :=
  keep_first maxStoredMessageDeliveryTargets (index_order Target.createdAt m) m.

Definition saveStoredMessageDeliveryTarget (messageId contactId deliveryId : jsstring) (createdAt : Z) (d : LocalDatabase)
  : LocalDatabase :=
  on_delivery_stores id (fun m =>
    let previous := match m !! messageId with Some t => Target.deliveryIds t | None => [] end in
    trimStoredTargets
      (<[messageId := Target.mk messageId contactId (rememberedDeliveryIds previous deliveryId) createdAt]> m)) d.

(** The record with the least message identifier among those that hold the delivery. *)
Definition findStoredMessageDeliveryTarget (contactId deliveryId : jsstring) (d : LocalDatabase)
  : option Target.StoredMessageDeliveryTarget :=
  e ← head (keep (fun e => bool_decide (deliveryId ∈ Target.deliveryIds e.2)) (index_order (fun _ => 0) (Db.deliveryTargets d)));
  if str_eqb (Target.contactId e.2) contactId then Some e.2 else None.

Definition deleteStoredMessageDeliveryTarget (messageId : jsstring) (d : LocalDatabase) : LocalDatabase :=
  on_delivery_stores id (delete messageId) d.

Definition deleteStoredMessageDeliveryTargetsForContact (contactId : jsstring) (d : LocalDatabase) : LocalDatabase :=
  on_delivery_stores id (delete_where (fun t => str_eqb (Target.contactId t) contactId)) d.

Definition rememberTerminalReadTarget (e : Terminal.StoredTerminalReadTarget) (d : LocalDatabase) : LocalDatabase :=
  on_receipt_stores (fun m =>
    let m := <[Terminal.targetDeliveryId e := e]> m in
    keep_first maxStoredTerminalReadTargets (index_order Terminal.expiresAt m) m) id id d.

Definition findTerminalReadTarget (contactId targetDeliveryId : jsstring) (now : Z) (d : LocalDatabase)
  : option Terminal.StoredTerminalReadTarget * LocalDatabase :=
  match Db.terminalReadTargets d !! targetDeliveryId with
  | None => (None, d)
  | Some e =>
      if negb (str_eqb (Terminal.contactId e) contactId) || (Terminal.expiresAt e <=? now)
      then (None, if Terminal.expiresAt e <=? now then on_receipt_stores (delete targetDeliveryId) id id d else d)
      else (Some e, d)
  end.

Definition deleteStoredTerminalReadTargetsForContact (contactId : jsstring) (d : LocalDatabase) : LocalDatabase :=
  on_receipt_stores (delete_where (fun e => str_eqb (Terminal.contactId e) contactId)) id id d.

(** ** [message-outbox-store.ts], [read-receipt-outbox-store.ts] *)

Definition loadStoredOutbox (d : LocalDatabase) : list StoredOutboxEntry := get_all (Db.outbox d).

Definition saveStoredOutbox (e : StoredOutboxEntry) (d : LocalDatabase) : LocalDatabase :=
  on_delivery_stores <[Outbox.messageId e := e]> id d.

Definition deleteStoredOutbox (messageId : jsstring) (d : LocalDatabase) : LocalDatabase :=
  on_delivery_stores (delete messageId) id d.

(** [deleteStoredOutboxForContact] reads the outbox, then starts one deletion
    per entry of the contact. *)
Definition outboxForContact (contactId : jsstring) (d : LocalDatabase) : list jsstring :=
  Outbox.messageId <$> keep (fun e => str_eqb (Outbox.contactId e) contactId) (loadStoredOutbox d).

Definition shouldPersistReadReceipt (current : option StoredReadReceiptEntry) (next : StoredReadReceiptEntry) : bool :=
  match current with Some e => Receipt.receiptPending e | None => true end || negb (Receipt.receiptPending next).

Definition saveStoredReadReceipt (e : StoredReadReceiptEntry) (d : LocalDatabase) : LocalDatabase :=
  if shouldPersistReadReceipt (Db.readReceipts d !! Receipt.targetDeliveryId e) e
  then on_receipt_stores id <[Receipt.targetDeliveryId e := e]> id d else d.

Definition deleteStoredReadReceipt (targetDeliveryId : jsstring) (d : LocalDatabase) : LocalDatabase :=
  on_receipt_stores id (delete targetDeliveryId) id d.

Definition deleteStoredReadReceiptsForContact (contactId : jsstring) (d : LocalDatabase) : LocalDatabase :=
  on_receipt_stores id (delete_where (fun e => str_eqb (Receipt.contactId e) contactId)) id d.

(** ** [received-application-messages-store.ts] *)

Definition maxStoredReceivedApplicationMessages : nat := 4096.

Definition hasStoredReceivedApplicationMessage (messageId : jsstring) (d : LocalDatabase) : bool :=
  bool_decide (is_Some (Db.received d !! messageId)).

Definition saveStoredReceivedApplicationMessage (messageId : jsstring) (receivedAt : Z) (d : LocalDatabase) : LocalDatabase :=
  on_receipt_stores id id <[messageId := receivedAt]> d.

Definition claimStoredReceivedApplicationMessage (messageId : jsstring) (receivedAt : Z) (d : LocalDatabase)
  : bool * LocalDatabase :=
  if hasStoredReceivedApplicationMessage messageId d then (false, d)
  else
    let make_room m :=
      if (size m <? maxStoredReceivedApplicationMessages)%nat then m
      else match head (index_order id m) with Some oldest => delete oldest.1 m | None => m end in
    (true, on_receipt_stores id id (fun m => <[messageId := receivedAt]> (make_room m)) d).

(** ** Contacts, read state, message requests *)

Definition saveStoredContact (c : ContactSummary) (d : LocalDatabase) : LocalDatabase :=
  on_profile_stores <[Contact.contactId c := c]> id id d.
Definition deleteStoredContact (contactId : jsstring) (d : LocalDatabase) : LocalDatabase :=
  on_profile_stores (delete contactId) id id d.
Definition saveStoredReadState (contactId : jsstring) (timestamp : Z) (d : LocalDatabase) : LocalDatabase :=
  on_profile_stores id <[contactId := timestamp]> id d.
Definition deleteStoredReadState (contactId : jsstring) (d : LocalDatabase) : LocalDatabase :=
  on_profile_stores id (delete contactId) id d.
Definition saveStoredMessageRequest (r : IncomingMessageRequest) (d : LocalDatabase) : LocalDatabase :=
  on_profile_stores id id <[Request.requestId r := r]> d.
Definition deleteStoredMessageRequest (requestId : jsstring) (d : LocalDatabase) : LocalDatabase :=
  on_profile_stores id id (delete requestId) d.

(** ** [profile-migration-store.ts] *)

Definition put_all {A} (key : A -> jsstring) (l : list A) (m : object_store A) : object_store A :=
  foldl (fun m x => <[key x := x]> m) m l.

(** The timeline records of an import have no application identifier. *)
Definition imported_record (m : MessageSummary) : TimelineRecord :=
  Timeline.mk (Message.messageId m) None (Message.contactId m) (Message.sentAt m) (tl_text m).

(** The deletion markers stay. *)
Definition replacePortableProfileSnapshot (s : PortableProfileSnapshot) (d : LocalDatabase) : LocalDatabase :=
  Db.mk (Some (snapshot_identity s)) (put_all Contact.contactId (snapshot_contacts s) ∅)
    (put_all Message.messageId (snapshot_messages s) ∅)
    (put_all Timeline.messageId (imported_record <$> snapshot_messages s) ∅)
    (Db.locallyDeleted d) ∅ ∅ ∅ ∅ ∅ ∅ ∅
    (foldl (fun m e => <[e.1 := e.2]> m) ∅ (snapshot_readState s)) (put_all Request.requestId (snapshot_requests s) ∅).

(** [None]: no local identity. *)
Definition loadPortableProfileSnapshot (d : LocalDatabase) : option PortableProfileSnapshot :=
  i ← Db.identity d;
  Some (mkSnapshot i (get_all (Db.contacts d)) (get_all (Db.messages d))
          ((fun e => (e.1, e.2)) <$> index_order (fun _ => 0) (Db.readState d)) (get_all (Db.messageRequests d))).

(** ** Sequences of transactions *)

Inductive transaction : Type :=
| tx_save_message (m : MessageSummary)
| tx_delete_locally (messageIds : list jsstring) (deletedAt : Z)
| tx_replace_for_retry (previousMessageId : jsstring) (replacement : MessageSummary)
| tx_delete_for_contact (contactId : jsstring) (deletedAt : Z)
| tx_store_image (p : ImageMessageProjection) (data : bytes) (now : Z)
| tx_delete_images (messageIds : list jsstring)
| tx_delete_images_for_contact (contactId : jsstring)
| tx_clear_images
| tx_save_target (messageId contactId deliveryId : jsstring) (createdAt : Z)
| tx_delete_target (messageId : jsstring)
| tx_delete_targets_for_contact (contactId : jsstring)
| tx_remember_terminal (e : Terminal.StoredTerminalReadTarget)
| tx_find_terminal (contactId targetDeliveryId : jsstring) (now : Z)
| tx_delete_terminal_for_contact (contactId : jsstring)
| tx_save_outbox (e : StoredOutboxEntry)
| tx_delete_outbox (messageId : jsstring)
| tx_save_receipt (e : StoredReadReceiptEntry)
| tx_delete_receipt (targetDeliveryId : jsstring)
| tx_delete_receipts_for_contact (contactId : jsstring)
| tx_save_received (messageId : jsstring) (receivedAt : Z)
| tx_claim_received (messageId : jsstring) (receivedAt : Z)
| tx_save_contact (c : ContactSummary)
| tx_delete_contact (contactId : jsstring)
| tx_save_read_state (contactId : jsstring) (timestamp : Z)
| tx_delete_read_state (contactId : jsstring)
| tx_save_request (r : IncomingMessageRequest)
| tx_delete_request (requestId : jsstring)
| tx_import (s : PortableProfileSnapshot).

Definition run_transaction (d : LocalDatabase) (t : transaction) : LocalDatabase :=
  match t with
  | tx_save_message m => saveStoredMessage m d
  | tx_delete_locally ids deletedAt => deleteStoredMessagesLocally ids deletedAt d
  | tx_replace_for_retry previous m => replaceStoredMessageForRetry previous m d
  | tx_delete_for_contact c deletedAt => deleteStoredMessagesForContact c deletedAt d
  | tx_store_image p data now => (storeVerifiedImageMessage p data now d).2
  | tx_delete_images ids => deleteStoredImageMessages ids d
  | tx_delete_images_for_contact c => deleteStoredImageMessagesForContact c d
  | tx_clear_images => clearStoredImageMessages d
  | tx_save_target m c i at_ => saveStoredMessageDeliveryTarget m c i at_ d
  | tx_delete_target m => deleteStoredMessageDeliveryTarget m d
  | tx_delete_targets_for_contact c => deleteStoredMessageDeliveryTargetsForContact c d
  | tx_remember_terminal e => rememberTerminalReadTarget e d
  | tx_find_terminal c i now => (findTerminalReadTarget c i now d).2
  | tx_delete_terminal_for_contact c => deleteStoredTerminalReadTargetsForContact c d
  | tx_save_outbox e => saveStoredOutbox e d
  | tx_delete_outbox m => deleteStoredOutbox m d
  | tx_save_receipt e => saveStoredReadReceipt e d
  | tx_delete_receipt i => deleteStoredReadReceipt i d
  | tx_delete_receipts_for_contact c => deleteStoredReadReceiptsForContact c d
  | tx_save_received m at_ => saveStoredReceivedApplicationMessage m at_ d
  | tx_claim_received m at_ => (claimStoredReceivedApplicationMessage m at_ d).2
  | tx_save_contact c => saveStoredContact c d
  | tx_delete_contact c => deleteStoredContact c d
  | tx_save_read_state c ts => saveStoredReadState c ts d
  | tx_delete_read_state c => deleteStoredReadState c d
  | tx_save_request r => saveStoredMessageRequest r d
  | tx_delete_request r => deleteStoredMessageRequest r d
  | tx_import s => replacePortableProfileSnapshot s d
  end.

Definition run_transactions (d : LocalDatabase) (ts : list transaction) : LocalDatabase := foldl run_transaction d ts.
