(* ===== verification/DatabaseCursors.v ===== *)
(** * Cursors of the local database and the queue of a contact's deletion

    The order of an index, what a bounded store keeps, counting of records, and
    the requests of [deleteStoredMessagesForContact]: the queue empties, what it
    deletes, and which deletion markers survive it. *)
From Stdlib Require Import Sorting.Sorted.
From S2P Require Import Prelude JsRuntime Collections Image Admission AppStore AppStoreFacts LocalDatabase.

(** ** Sorted lists and positions *)

Lemma keep_none {A} (p : A -> bool) (l : list A) : Forall (fun x => p x = false) l -> keep p l = [].
Proof. unfold keep. induction 1 as [|x l Hx _ IH]; [done |]. by rewrite filter_cons_False by (by rewrite Hx). Qed.

Lemma keep_cons {A} (p : A -> bool) (x : A) (l : list A) : keep p (x :: l) = if p x then x :: keep p l else keep p l.
Proof. unfold keep. rewrite filter_cons. destruct (p x) eqn:E; by case_decide. Qed.

Lemma keep_all {A} (p : A -> bool) (l : list A) : Forall (fun x => p x = true) l -> keep p l = l.
Proof. induction 1 as [|x l Hx _ IH]; [done |]. by rewrite keep_cons, Hx, IH. Qed.

Section Rank.
Context {A : Type} (lt : A -> A -> bool).

(** In a strictly sorted list the position of an element is the number of
    elements before it. *)
Lemma sorted_rank l i x :
  StronglySorted (fun x y => lt x y = true) l -> (forall x, lt x x = false) ->
  (forall x y, lt x y = true -> lt y x = false) ->
  l !! i = Some x -> length (keep (fun y => lt y x) l) = i.
Proof.
  intros Hs Hirr Hasym. revert i. induction Hs as [|y l Hs IH Hf]; intros i Hi; [done |].
  rewrite Forall_forall in Hf. unfold keep in *. destruct i as [|i]; cbn in Hi.
  - injection Hi as ->. rewrite filter_cons_False by (rewrite Hirr; done).
    pose proof (keep_none (fun y => lt y x) l) as E. unfold keep in E. rewrite E; [done |].
    apply Forall_forall. intros z Hz. by apply Hasym, Hf.
  - rewrite filter_cons_True by (apply Hf; by eapply list_elem_of_lookup_2). cbn. f_equal. by apply IH.
Qed.
End Rank.

Section CursorFacts.
Context {A : Type}.
Implicit Types (m : object_store A) (x y z : jsstring * A).

Definition index_ltb (key : A -> Z) x y : bool := index_cmp key x y <? 0.

Lemma index_ltb_spec key x y :
  index_ltb key x y = true <-> key x.2 < key y.2 \/ key x.2 = key y.2 /\ js_ltb x.1 y.1 = true.
Proof.
  unfold index_ltb, index_cmp. rewrite Z.ltb_lt. destruct (Z.eqb_spec (key x.2) (key y.2)) as [E|E]; cbn [negb].
  - rewrite E. destruct (js_ltb x.1 y.1); [| destruct (js_ltb y.1 x.1)]; split; try lia; intros [|[? [=]]]; lia.
  - lia.
Qed.

Lemma index_ltb_irrefl key x : index_ltb key x x = false.
Proof.
  destruct (index_ltb key x x) eqn:E; [| done]. apply index_ltb_spec in E as [|[_ E]]; [lia |]. by rewrite js_ltb_irrefl in E.
Qed.

Lemma index_ltb_trans key x y z : index_ltb key x y = true -> index_ltb key y z = true -> index_ltb key x z = true.
Proof.
  rewrite !index_ltb_spec. intros [|[]] [|[]]; [left; lia .. |]. right. split; [lia | by eapply js_ltb_trans].
Qed.

Lemma index_ltb_asym key x y : index_ltb key x y = true -> index_ltb key y x = false.
Proof.
  intros H. destruct (index_ltb key y x) eqn:E; [| done]. pose proof (index_ltb_trans key x y x H E) as Hx.
  by rewrite index_ltb_irrefl in Hx.
Qed.

Lemma index_ltb_total key x y : x.1 <> y.1 -> index_ltb key x y = true \/ index_ltb key y x = true.
Proof.
  intros Hne. rewrite !index_ltb_spec. destruct (Z.lt_trichotomy (key x.2) (key y.2)) as [|[E|]]; [by auto | | by auto].
  destruct (js_ltb x.1 y.1) eqn:Exy; [by auto |]. destruct (js_ltb y.1 x.1) eqn:Eyx; [by auto |].
  by pose proof (js_ltb_total _ _ Exy Eyx).
Qed.

Lemma index_cmp_ltb key x y : index_cmp key x y <= 0 <-> index_ltb key y x = false.
Proof.
  unfold index_ltb, index_cmp. rewrite Z.ltb_ge, (Z.eqb_sym (key y.2)).
  destruct (Z.eqb_spec (key x.2) (key y.2)) as [E|E]; cbn [negb]; [| lia].
  destruct (js_ltb x.1 y.1) eqn:Exy, (js_ltb y.1 x.1) eqn:Eyx; try lia.
  pose proof (js_ltb_trans _ _ _ Exy Eyx) as H. by rewrite js_ltb_irrefl in H.
Qed.

Lemma index_order_perm key m : Permutation (index_order key m) (map_to_list m).
Proof. apply sort_by_perm. Qed.

Lemma elem_of_index_order key m x : x ∈ index_order key m <-> m !! x.1 = Some x.2.
Proof. rewrite index_order_perm. destruct x as [k v]. apply elem_of_map_to_list. Qed.

Lemma index_order_keys key m : NoDup (index_order key m).*1.
Proof. rewrite index_order_perm. apply NoDup_fst_map_to_list. Qed.

Lemma index_order_NoDup key m : NoDup (index_order key m).
Proof. rewrite index_order_perm. apply NoDup_map_to_list. Qed.

Lemma index_order_length key m : length (index_order key m) = size m.
Proof. rewrite index_order_perm. apply length_map_to_list. Qed.

Lemma index_order_sorted key m : StronglySorted (fun x y => index_ltb key x y = true) (index_order key m).
Proof.
  assert (Hs : StronglySorted (cmp_le (index_cmp key)) (index_order key m)).
  { apply sort_by_sorted.
    - intros x y. rewrite !index_cmp_ltb. destruct (index_ltb key y x) eqn:E; [right; by apply index_ltb_asym | by left].
    - intros x y z. rewrite !index_cmp_ltb. intros Hxy Hyz. destruct (index_ltb key z x) eqn:E; [| done].
      destruct (decide (x.1 = y.1)) as [Exy|Nxy].
      + exfalso. destruct (decide (z.1 = x.1)) as [Ezx|Nzx].
        * apply index_ltb_spec in E as [E|[_ E]]; [| rewrite Ezx, js_ltb_irrefl in E; done].
          assert (~ key y.2 < key x.2) by (intros ?; rewrite (proj2 (index_ltb_spec key y x)) in Hxy; [done | by left]).
          assert (~ key z.2 < key y.2) by (intros ?; rewrite (proj2 (index_ltb_spec key z y)) in Hyz; [done | by left]). lia.
        * apply index_ltb_spec in E.
          assert (H1 : ~ (key y.2 < key x.2)) by (intros ?; rewrite (proj2 (index_ltb_spec key y x)) in Hxy; [done | by left]).
          rewrite (proj2 (index_ltb_spec key z y)) in Hyz; [done |]. rewrite <- Exy.
          destruct E as [|[E1 E2]]; [left; lia |]. destruct (decide (key x.2 = key y.2)); [right; split; [lia | done] | left; lia].
      + destruct (index_ltb_total key x y Nxy) as [H|H]; [| congruence].
        pose proof (index_ltb_trans key z x y E H). congruence. }
  pose proof (index_order_keys key m) as Hn. induction Hs as [|x l Hs IH Hf]; [constructor |].
  csimpl in Hn. apply NoDup_cons in Hn as [Hx Hn]. constructor; [by apply IH |].
  rewrite Forall_forall in Hf |- *. intros y Hy. specialize (Hf y Hy). unfold cmp_le in Hf. rewrite index_cmp_ltb in Hf.
  destruct (index_ltb_total key x y) as [|H]; [| done | congruence].
  intros E. apply Hx. rewrite E. by apply list_elem_of_fmap_2.
Qed.

(** ** Bounded stores *)

Lemma keep_first_lookup n l m k :
  keep_first n l m !! k = if decide (k ∈ (drop n l).*1) then None else m !! k.
Proof.
  unfold keep_first. generalize (drop n l). clear n l. intros l. revert m. induction l as [|x l IH]; intros m; csimpl.
  { done. }
  rewrite IH. destruct (decide (k ∈ l.*1)) as [Hk|Hk].
  - case_decide as H; [done | set_solver].
  - destruct (decide (k = x.1)) as [->|Hne].
    + rewrite lookup_delete_eq. case_decide as H; [done | set_solver].
    + rewrite lookup_delete_ne by done. case_decide as H; [set_solver | done].
Qed.

(** The records before one in the order of an index. *)
Definition before_in (key : A -> Z) m x : nat := length (keep (fun y => index_ltb key y x) (map_to_list m)).
Definition after_in (key : A -> Z) m x : nat := length (keep (index_ltb key x) (map_to_list m)).

Lemma keep_perm {B} (p : B -> bool) (l k : list B) : Permutation l k -> length (keep p l) = length (keep p k).
Proof. intros H. unfold keep. by rewrite H. Qed.

Lemma rank_drop (lt : jsstring * A -> jsstring * A -> bool) n l m x :
  StronglySorted (fun x y => lt x y = true) l -> (forall x, lt x x = false) ->
  (forall x y, lt x y = true -> lt y x = false) -> Permutation l (map_to_list m) -> m !! x.1 = Some x.2 ->
  (keep_first n l m !! x.1 = Some x.2 <-> (length (keep (fun y => lt y x) (map_to_list m)) < n)%nat).
Proof.
  intros Hs Hi Ha Hp Hx. rewrite keep_first_lookup.
  assert (Hin : x ∈ l) by (rewrite Hp; destruct x; by apply elem_of_map_to_list).
  apply list_elem_of_lookup in Hin as [i Hli]. rewrite <- (keep_perm _ _ _ Hp), (sorted_rank lt l i x Hs Hi Ha Hli).
  assert (Hn : NoDup l.*1) by (rewrite Hp; apply NoDup_fst_map_to_list).
  destruct (decide (x.1 ∈ (drop n l).*1)) as [Hd|Hd].
  - split; [done |]. intros Hlt. exfalso. apply list_elem_of_fmap in Hd as (y & E & (j & Hj)%list_elem_of_lookup).
    rewrite lookup_drop in Hj. assert (i = (n + j)%nat); [| lia].
    eapply (NoDup_lookup l.*1 i (n + j)); [exact Hn | by rewrite list_lookup_fmap, Hli | by rewrite list_lookup_fmap, Hj; cbn; rewrite E].
  - split; [intros _ | by intros _]. destruct (decide (i < n)%nat); [done |]. exfalso. apply Hd.
    apply list_elem_of_fmap_2. apply list_elem_of_lookup. exists (i - n)%nat. rewrite lookup_drop.
    by replace (n + (i - n))%nat with i by lia.
Qed.

Lemma keep_oldest key n m k v :
  keep_first n (index_order key m) m !! k = Some v <-> m !! k = Some v /\ (before_in key m (k, v) < n)%nat.
Proof.
  split.
  - intros H. assert (Hm : m !! k = Some v) by (rewrite keep_first_lookup in H; by case_decide). split; [done |].
    by apply (rank_drop (index_ltb key) n (index_order key m) m (k, v));
      [apply index_order_sorted | apply index_ltb_irrefl | apply index_ltb_asym | apply index_order_perm | |].
  - intros [Hm Hlt].
    by apply (rank_drop (index_ltb key) n (index_order key m) m (k, v));
      [apply index_order_sorted | apply index_ltb_irrefl | apply index_ltb_asym | apply index_order_perm | |].
Qed.

Lemma sorted_reverse (R : jsstring * A -> jsstring * A -> Prop) l :
  StronglySorted R l -> StronglySorted (fun x y => R y x) (reverse l).
Proof.
  induction 1 as [|x l Hs IH Hf]; [constructor |]. rewrite reverse_cons. clear Hs.
  assert (Hf' : Forall (R x) (reverse l)) by (rewrite Forall_forall in *; intros y Hy; apply Hf; by apply elem_of_reverse).
  clear Hf. induction IH as [|y k Hs IH Hk]; cbn; [repeat constructor |].
  apply Forall_cons in Hf' as [Hy Hf']. constructor; [by apply IH |]. apply Forall_app. split; [done | by repeat constructor].
Qed.

Lemma keep_newest key n m k v :
  keep_first n (reverse (index_order key m)) m !! k = Some v <-> m !! k = Some v /\ (after_in key m (k, v) < n)%nat.
Proof.
  assert (Hr : forall x, m !! x.1 = Some x.2 -> keep_first n (reverse (index_order key m)) m !! x.1 = Some x.2
                         <-> (after_in key m x < n)%nat).
  { intros x Hx. apply (rank_drop (fun y z => index_ltb key z y) n _ m x).
    - apply (sorted_reverse (fun x y => index_ltb key x y = true)), index_order_sorted.
    - apply index_ltb_irrefl.
    - intros ? ?. apply index_ltb_asym.
    - by rewrite reverse_Permutation, index_order_perm.
    - done. }
  split.
  - intros H. assert (Hm : m !! k = Some v) by (rewrite keep_first_lookup in H; by case_decide). split; [done |]. by apply (Hr (k, v)).
  - intros [Hm Hlt]. by apply (Hr (k, v)).
Qed.

Lemma foldl_delete_size l m : NoDup l -> Forall (fun k => is_Some (m !! k)) l ->
  size (foldl (fun m k => delete k m) m l) = (size m - length l)%nat.
Proof.
  intros Hn. revert m. induction Hn as [|k l Hk Hn IH]; intros m Hf; cbn [foldl length]; [lia |].
  apply Forall_cons in Hf as [[v Hv] Hf]. rewrite IH.
  - rewrite map_size_delete_Some by done. lia.
  - rewrite Forall_forall in *. intros j Hj. rewrite lookup_delete_ne by set_solver. by apply Hf.
Qed.

Lemma keep_first_size n l m : Permutation l (map_to_list m) -> size (keep_first n l m) = (n `min` size m)%nat.
Proof.
  intros Hp. unfold keep_first.
  replace (foldl _ m (drop n l)) with (foldl (fun m k => delete k m) m (drop n l).*1).
  2: { generalize (drop n l). intros k. clear Hp. revert m. induction k as [|x k IH]; intros m; [done |]. apply IH. }
  rewrite foldl_delete_size.
  - rewrite length_fmap, length_drop, (Permutation_length Hp), length_map_to_list. lia.
  - eapply sublist_NoDup; [| apply fmap_sublist, sublist_drop]. rewrite Hp. apply NoDup_fst_map_to_list.
  - apply Forall_fmap, Forall_forall. intros [k v] Hk. cbn. exists v. assert (Hkl : (k, v) ∈ l) by (by eapply elem_of_sublist; [| apply sublist_drop]). clear Hk. rename Hkl into Hk. rewrite Hp in Hk. by apply elem_of_map_to_list.
Qed.
End CursorFacts.

(** ** Counting records *)

Section Count.
Context {A : Type}.
Implicit Types (m : object_store A) (p : jsstring * A -> bool).

Definition count_records p m : nat := length (keep p (map_to_list m)).

Lemma keep_length_le {B} (p q : B -> bool) (l : list B) :
  (forall x, x ∈ l -> p x = true -> q x = true) -> (length (keep p l) <= length (keep q l))%nat.
Proof.
  induction l as [|x l IH]; intros H; [done |]. rewrite !keep_cons.
  assert (IH' : (length (keep p l) <= length (keep q l))%nat) by (apply IH; intros y Hy; apply H; set_solver).
  destruct (p x) eqn:E; [rewrite (H x) by (done || set_solver); cbn; lia |]. destruct (q x); cbn; lia.
Qed.

Lemma count_le p q m : (forall x, m !! x.1 = Some x.2 -> p x = true -> q x = true) -> (count_records p m <= count_records q m)%nat.
Proof. intros H. apply keep_length_le. intros [k v] Hx. apply H. by apply elem_of_map_to_list in Hx. Qed.

Lemma count_size p m : (count_records p m <= size m)%nat.
Proof. unfold count_records, keep. rewrite <- length_map_to_list. apply length_filter. Qed.

Lemma count_all p m :
  (forall y, m !! y.1 = Some y.2 -> p y = true) -> count_records p m = size m.
Proof.
  intros H. unfold count_records. rewrite keep_all; [apply length_map_to_list |].
  apply Forall_forall. intros [k v] Hk%elem_of_map_to_list. by apply H.
Qed.

Lemma count_delete p m k v :
  m !! k = Some v -> count_records p m = ((if p (k, v) then 1 else 0) + count_records p (delete k m))%nat.
Proof.
  intros H. unfold count_records. rewrite (keep_perm p (map_to_list m) ((k, v) :: map_to_list (delete k m))).
  - rewrite keep_cons. by destruct (p (k, v)).
  - by rewrite map_to_list_delete.
Qed.

Lemma count_delete_le p m k : (count_records p (delete k m) <= count_records p m)%nat.
Proof. destruct (m !! k) as [v|] eqn:E; [rewrite (count_delete p m k v E); lia | by rewrite delete_id]. Qed.

Lemma count_insert_le p m k v : (count_records p (<[k := v]> m) <= S (count_records p m))%nat.
Proof.
  rewrite (count_delete p (<[k := v]> m) k v) by apply lookup_insert_eq. rewrite delete_insert_eq.
  pose proof (count_delete_le p m k). destruct (p (k, v)); lia.
Qed.

Lemma count_delete_other p m k : (forall v, m !! k = Some v -> p (k, v) = false) ->
  count_records p (delete k m) = count_records p m.
Proof. intros H. destruct (m !! k) as [v|] eqn:E; [rewrite (count_delete p m k v E), H by done; done | by rewrite delete_id]. Qed.

(** One record fewer when the predicate loses exactly one. *)
Lemma count_split p q m x :
  m !! x.1 = Some x.2 -> p x = true -> q x = false ->
  (forall y, m !! y.1 = Some y.2 -> y <> x -> p y = q y) -> count_records p m = S (count_records q m).
Proof.
  intros Hx Hp Hq H. destruct x as [k v]. rewrite (count_delete p m k v Hx), (count_delete q m k v Hx), Hp, Hq. cbn. f_equal.
  assert (Hall : forall y, delete k m !! y.1 = Some y.2 -> p y = q y).
  { intros y [Hne Hy]%lookup_delete_Some. apply H; [done |]. intros ->. done. }
  apply Nat.le_antisymm; apply count_le; intros y Hy; rewrite (Hall y Hy); done.
Qed.

Lemma head_keep_sorted (lt : jsstring * A -> jsstring * A -> bool) p l x :
  StronglySorted (fun x y => lt x y = true) l -> head (keep p l) = Some x ->
  x ∈ l /\ p x = true /\ forall y, y ∈ l -> p y = true -> y = x \/ lt x y = true.
Proof.
  induction 1 as [|y l Hs IH Hf]; [done |]. rewrite keep_cons. destruct (p y) eqn:E; cbn; intros Hx.
  - injection Hx as ->. split; [set_solver |]. split; [done |]. intros z [->|Hz]%elem_of_cons Hpz; [by left |].
    right. rewrite Forall_forall in Hf. by apply Hf.
  - destruct (IH Hx) as (Hin & Hp & Hmin). split; [set_solver |]. split; [done |].
    intros z [->|Hz]%elem_of_cons Hpz; [congruence | by apply Hmin].
Qed.

Lemma head_keep_None p (l : list (jsstring * A)) : head (keep p l) = None -> forall y, y ∈ l -> p y = false.
Proof.
  intros H y Hy. destruct (p y) eqn:E; [| done]. exfalso.
  assert (y ∈ keep p l) by (by apply elem_of_keep). destruct (keep p l); [set_solver | done].
Qed.
End Count.

(** ** The queue of a contact's deletion *)

Section Deletion.
Context (contactId : jsstring) (deletedAt : Z).

Abbreviation of_contact m := (str_eqb (Message.contactId m) contactId).

Definition later_message (after : option jsstring) (e : jsstring * MessageSummary) : bool :=
  of_contact e.2 && match after with None => true | Some k => js_ltb k e.1 end.

Definition earlier_tombstone (before : option (jsstring * Z)) (e : jsstring * Z) : bool :=
  match before with None => true | Some p => index_ltb id e p end.

Lemma next_message_spec after m :
  match next_message contactId after m with
  | Some k => exists v, m !! k = Some v /\ later_message after (k, v) = true
                /\ forall y, m !! y.1 = Some y.2 -> later_message after y = true -> y = (k, v) \/ later_message (Some k) y = true
  | None => forall y, m !! y.1 = Some y.2 -> later_message after y = false
  end.
Proof.
  unfold next_message. fold (later_message after).
  destruct (head (keep (later_message after) (index_order (fun _ => 0) m))) as [[k v]|] eqn:E; cbn.
  - apply (head_keep_sorted (index_ltb (fun _ => 0))) in E as (Hin & Hp & Hmin); [| apply index_order_sorted].
    apply elem_of_index_order in Hin. exists v. split; [done |]. split; [done |]. intros y Hy Hly.
    destruct (Hmin y) as [|Hlt]; [by apply elem_of_index_order | done | by left |].
    right. apply index_ltb_spec in Hlt as [|[_ Hlt]]; [lia |]. unfold later_message in Hly |- *. bool_props.
    apply andb_true_intro. by split.
  - intros y Hy. eapply head_keep_None; [exact E |]. by apply elem_of_index_order.
Qed.

Lemma next_tombstone_spec before t :
  match next_tombstone before t with
  | Some e => t !! e.1 = Some e.2 /\ earlier_tombstone before e = true
                /\ forall y, t !! y.1 = Some y.2 -> earlier_tombstone before y = true -> y = e \/ index_ltb id y e = true
  | None => forall y, t !! y.1 = Some y.2 -> earlier_tombstone before y = false
  end.
Proof.
  unfold next_tombstone.
  change (fun e => match before with None => true | Some p => index_cmp id e p <? 0 end) with (earlier_tombstone before).
  destruct (head _) as [e|] eqn:E.
  - apply (head_keep_sorted (fun y z => index_ltb id z y)) in E as (Hin & Hp & Hmin).
    + apply elem_of_reverse, elem_of_index_order in Hin. split; [done |]. split; [done |]. intros y Hy. apply Hmin.
      by apply elem_of_reverse, elem_of_index_order.
    + apply (sorted_reverse (fun x y => index_ltb id x y = true)), index_order_sorted.
  - intros y Hy. eapply head_keep_None; [exact E |]. by apply elem_of_reverse, elem_of_index_order.
Qed.

Lemma later_next after k v y :
  later_message after (k, v) = true -> later_message (Some k) y = true -> later_message after y = true.
Proof.
  unfold later_message. cbn. intros Hk Hy. bool_props. apply andb_true_intro. split; [done |].
  destruct after; [by eapply js_ltb_trans | done].
Qed.

Lemma count_next_message after m k v :
  m !! k = Some v -> later_message after (k, v) = true ->
  (forall y, m !! y.1 = Some y.2 -> later_message after y = true -> y = (k, v) \/ later_message (Some k) y = true) ->
  count_records (later_message after) m = S (count_records (later_message (Some k)) m).
Proof.
  intros Hk Hl Hmin. apply (count_split _ _ m (k, v)); [done | done | |].
  - unfold later_message. cbn. by rewrite js_ltb_irrefl, andb_false_r.
  - intros y Hy Hne. destruct (later_message after y) eqn:E.
    + by destruct (Hmin y Hy E) as [| ->].
    + destruct (later_message (Some k) y) eqn:E2; [| done]. by rewrite (later_next after k v y Hl E2) in E.
Qed.

Lemma count_next_tombstone (p : jsstring * Z -> bool) before t e :
  t !! e.1 = Some e.2 -> earlier_tombstone before e = true -> p e = true ->
  (forall y, t !! y.1 = Some y.2 -> earlier_tombstone before y = true -> y = e \/ index_ltb id y e = true) ->
  count_records (fun y => p y && earlier_tombstone before y) t = S (count_records (fun y => p y && earlier_tombstone (Some e) y) t).
Proof.
  intros He Hl Hp Hmin. apply (count_split _ _ t e); [done | by rewrite Hp, Hl | |].
  - cbn. by rewrite index_ltb_irrefl, andb_false_r.
  - intros y Hy Hne. destruct (p y); [cbn [andb] | done]. destruct (earlier_tombstone before y) eqn:E.
    + destruct (Hmin y Hy E) as [|Hx]; [done | exact (eq_sym Hx)].
    + cbn [earlier_tombstone] in *. destruct (index_ltb id y e) eqn:E2; [| done].
      destruct before as [b|]; cbn [earlier_tombstone] in *; [| done].
      by rewrite (index_ltb_trans id y e b E2 Hl) in E.
Qed.

(** *** The queue empties *)

Definition is_trim (r : deletion_request) : bool := match r with rq_trim_cursor _ => true | _ => false end.
Definition trims (q : list deletion_request) : nat := length (keep is_trim q).

Definition weight (d : LocalDatabase) (r : deletion_request) : nat :=
  match r with
  | rq_message_cursor after => 1 + 6 * count_records (later_message after) (Db.messages d)
  | rq_put_tombstone _ => 3
  | rq_trim_cursor before => 1 + 2 * count_records (earlier_tombstone before) (Db.locallyDeleted d)
  | _ => 1
  end.

Definition potential (d : LocalDatabase) (q : list deletion_request) : nat := sum_list_with (weight d) q.

Lemma potential_app d q q' : potential d (q ++ q') = (potential d q + potential d q')%nat.
Proof. apply sum_list_with_app. Qed.

Lemma trims_app q q' : trims (q ++ q') = (trims q + trims q')%nat.
Proof. unfold trims, keep. by rewrite filter_app, length_app. Qed.

Lemma trims_cons r q : trims (r :: q) = ((if is_trim r then 1 else 0) + trims q)%nat.
Proof. unfold trims. rewrite keep_cons. by destruct (is_trim r). Qed.

Lemma potential_change d d' c q :
  (forall after, (count_records (later_message after) (Db.messages d')
                  <= count_records (later_message after) (Db.messages d))%nat) ->
  (forall before, (count_records (earlier_tombstone before) (Db.locallyDeleted d')
                   <= count_records (earlier_tombstone before) (Db.locallyDeleted d) + c)%nat) ->
  (potential d' q <= potential d q + 2 * c * trims q)%nat.
Proof.
  intros Hm Ht. induction q as [|r q IH]; [cbn; lia |]. rewrite trims_cons. unfold potential in *. cbn [sum_list_with].
  destruct r as [after|k|k|k|before|k]; cbn [weight is_trim]; try lia.
  - specialize (Hm after). lia.
  - specialize (Ht before). lia.
Qed.

Lemma serve_potential retained d r q d' placed retained' :
  (trims (r :: q) <= 1)%nat -> serve contactId deletedAt retained d r = (d', placed, retained') ->
  (potential d' (q ++ placed) < potential d (r :: q))%nat /\ (trims (q ++ placed) <= 1)%nat.
Proof.
  rewrite potential_app, trims_app, trims_cons. intros Ht H.
  assert (Hr : potential d (r :: q) = (weight d r + potential d q)%nat) by done. rewrite Hr.
  destruct r as [after|k|k|k|before|k]; cbn [serve is_trim] in H, Ht.
  - pose proof (next_message_spec after (Db.messages d)) as Hn.
    destruct (next_message contactId after (Db.messages d)) as [k|]; injection H as <- <- <-; cbn [weight].
    + destruct Hn as (v & Hv & Hl & Hmin). rewrite (count_next_message after _ k v Hv Hl Hmin). split; [cbn; lia |].
      rewrite !trims_cons. cbn. lia.
    + split; cbn; lia.
  - injection H as <- <- <-. split; [| cbn; lia].
    pose proof (potential_change d (on_text_stores id (delete k) id d) 0 q) as Hp. cbn in *.
    specialize (Hp (fun _ => le_n _) (fun _ => Nat.le_add_r _ _)). lia.
  - injection H as <- <- <-. split; [| cbn; lia].
    pose proof (potential_change d (on_text_stores id id <[k:=deletedAt]> d) 1 q) as Hp. cbn in *.
    assert (forall before, (count_records (earlier_tombstone before) (<[k:=deletedAt]> (Db.locallyDeleted d))
             <= count_records (earlier_tombstone before) (Db.locallyDeleted d) + 1)%nat) as Hc.
    { intros before. pose proof (count_insert_le (earlier_tombstone before) (Db.locallyDeleted d) k deletedAt). lia. }
    specialize (Hp (fun _ => le_n _) Hc). lia.
  - injection H as <- <- <-. split; [| cbn; lia].
    pose proof (potential_change d (on_text_stores (delete k) id id d) 0 q) as Hp. cbn in *.
    specialize (Hp (fun after => count_delete_le _ _ _) (fun _ => Nat.le_add_r _ _)). lia.
  - pose proof (next_tombstone_spec before (Db.locallyDeleted d)) as Hn.
    destruct (next_tombstone before (Db.locallyDeleted d)) as [e|]; injection H as <- <- <-; cbn [weight].
    + destruct Hn as (He & Hl & Hmin).
      pose proof (count_next_tombstone (fun _ => true) before _ e He Hl eq_refl Hmin) as Hc.
      change (count_records (earlier_tombstone before) (Db.locallyDeleted d)
              = S (count_records (earlier_tombstone (Some e)) (Db.locallyDeleted d))) in Hc.
      rewrite Hc, potential_app, trims_app. unfold potential.
      case_match; cbn [sum_list_with weight app]; (split; [lia |]); rewrite !trims_cons; cbn; lia.
    + split; cbn; lia.
  - injection H as <- <- <-. split; [| cbn; lia].
    pose proof (potential_change d (on_text_stores id id (delete k) d) 0 q) as Hp. cbn in *.
    specialize (Hp (fun _ => le_n _)). pose proof (fun before => count_delete_le (earlier_tombstone before) (Db.locallyDeleted d) k) as Hc.
    assert (potential (on_text_stores id id (delete k) d) q <= potential d q + 0)%nat by (apply Hp; intros b; specialize (Hc b); lia). lia.
Qed.

Lemma serve_all_total fuel retained d q :
  (trims q <= 1)%nat -> (potential d q <= fuel)%nat -> exists d', serve_all fuel contactId deletedAt retained d q = Some d'.
Proof.
  revert retained d q. induction fuel as [|fuel IH]; intros retained d [|r q] Ht Hp; cbn [serve_all]; [eauto | | eauto |].
  - exfalso. assert (0 < weight d r)%nat by (destruct r; cbn; lia). unfold potential in Hp. cbn in Hp. lia.
  - destruct (serve contactId deletedAt retained d r) as [[d' placed] retained'] eqn:E.
    destruct (serve_potential retained d r q d' placed retained' Ht E) as [Hlt Ht']. apply IH; [done | lia].
Qed.

(** What holds of the queue at the start and is kept by every request holds at the end. *)
Lemma serve_all_ind (P : nat -> LocalDatabase -> list deletion_request -> Prop) fuel retained d q d' :
  (forall retained d r q d' placed retained', P retained d (r :: q) ->
     serve contactId deletedAt retained d r = (d', placed, retained') -> P retained' d' (q ++ placed)) ->
  P retained d q -> serve_all fuel contactId deletedAt retained d q = Some d' -> exists retained', P retained' d' [].
Proof.
  intros Hstep. revert retained d q. induction fuel as [|fuel IH]; intros retained d [|r q] HP H; cbn [serve_all] in H.
  - injection H as <-. eauto.
  - done.
  - injection H as <-. eauto.
  - destruct (serve contactId deletedAt retained d r) as [[d1 placed] retained'] eqn:E. eapply IH; [| exact H].
    by eapply Hstep.
Qed.

Lemma deletion_runs d :
  serve_all (deletion_fuel d) contactId deletedAt 0 d [rq_message_cursor None; rq_trim_cursor None]
  = Some (deleteStoredMessagesForContact contactId deletedAt d).
Proof.
  destruct (serve_all_total (deletion_fuel d) 0 d [rq_message_cursor None; rq_trim_cursor None]) as [d' H]; [done | |].
  - unfold potential, deletion_fuel. cbn [sum_list_with weight].
    pose proof (count_size (later_message None) (Db.messages d)). pose proof (count_size (earlier_tombstone None) (Db.locallyDeleted d)). lia.
  - unfold deleteStoredMessagesForContact. by rewrite H.
Qed.

(** *** What the deletion deletes *)

Section Effect.
Context (d0 : LocalDatabase).

Definition of_contact_in (k : jsstring) : Prop :=
  exists m, Db.messages d0 !! k = Some m /\ Message.contactId m = contactId.

Definition text_change (d : LocalDatabase) : Prop :=
  exists m t h, d = on_text_stores (fun _ => m) (fun _ => t) (fun _ => h) d0.

Record deletion_inv (d : LocalDatabase) (q : list deletion_request) : Prop := {
  di_stores : text_change d;
  di_messages k : Db.messages d !! k = Db.messages d0 !! k \/ Db.messages d !! k = None /\ of_contact_in k;
  di_timeline k : Db.timeline d !! k = Db.timeline d0 !! k \/ Db.timeline d !! k = None /\ of_contact_in k;
  di_timeline_request k : rq_delete_timeline k ∈ q -> of_contact_in k;
  di_message_request k : rq_delete_message k ∈ q ->
    of_contact_in k /\ (rq_delete_timeline k ∈ q \/ Db.timeline d !! k = None);
  di_all k : of_contact_in k ->
    (exists after m, rq_message_cursor after ∈ q /\ Db.messages d !! k = Some m /\ later_message after (k, m) = true)
    \/ (rq_delete_timeline k ∈ q \/ Db.timeline d !! k = None) /\ (rq_delete_message k ∈ q \/ Db.messages d !! k = None);
}.

Lemma deletion_inv_cursor retained d after q d' placed retained' :
  deletion_inv d (rq_message_cursor after :: q) ->
  serve contactId deletedAt retained d (rq_message_cursor after) = (d', placed, retained') -> deletion_inv d' (q ++ placed).
Proof.
  intros [Hs Hm Ht Htr Hmr Ha] H. cbn [serve] in H. pose proof (next_message_spec after (Db.messages d)) as Hn.
  destruct (next_message contactId after (Db.messages d)) as [k'|]; injection H as <- <- <-.
  - destruct Hn as (v & Hv & Hl & Hmin).
    assert (Hk' : of_contact_in k').
    { exists v. split; [| unfold later_message in Hl; cbn in Hl; bool_props; by apply str_eqb_true].
      destruct (Hm k') as [<-|[E _]]; [done | congruence]. }
    constructor; [done | done | done | | |].
    + intros k Hk. apply elem_of_app in Hk as [Hk|Hk]; [apply Htr; set_solver |].
      rewrite !elem_of_cons in Hk. destruct Hk as [[= ->]|[|[|[|]]]]; [done | done .. | set_solver].
    + intros k Hk. apply elem_of_app in Hk as [Hk|Hk]; [destruct (Hmr k) as [? [|]]; set_solver |].
      rewrite !elem_of_cons in Hk. destruct Hk as [|[|[[= ->]|[|]]]]; [done | done | | done | set_solver]. split; [done | left; set_solver].
    + intros k Hk. destruct (Ha k Hk) as [(a & m & Hin & Hg & Hla)|[H1 H2]]; [| right; set_solver].
      apply elem_of_cons in Hin as [[= ->]|Hin]; [| left; exists a, m; set_solver].
      destruct (Hmin (k, m) Hg Hla) as [[= -> ->]|Hnext]; [right; set_solver | left; exists (Some k'), m; set_solver].
  - rewrite app_nil_r. constructor; [done | done | done | set_solver | |].
    + intros k Hk. destruct (Hmr k) as [? [|]]; set_solver.
    + intros k Hk. destruct (Ha k Hk) as [(a & m & Hin & Hg & Hla)|[H1 H2]]; [| right; set_solver].
      apply elem_of_cons in Hin as [[= ->]|Hin]; [| left; exists a, m; set_solver]. by rewrite (Hn (k, m) Hg) in Hla.
Qed.

Lemma text_change_trans d f g h : text_change d -> text_change (on_text_stores f g h d).
Proof. intros (m & t & l & ->). by exists (f m), (g t), (h l). Qed.

(** The requests that place nothing: the stores they change and what they leave. *)
Lemma deletion_inv_delete_timeline d k q :
  deletion_inv d (rq_delete_timeline k :: q) -> deletion_inv (on_text_stores id (delete k) id d) q.
Proof.
  intros [Hs Hm Ht Htr Hmr Ha]. assert (Hk : of_contact_in k) by (apply Htr; set_solver).
  assert (Hd : forall j, rq_delete_timeline j ∈ rq_delete_timeline k :: q \/ Db.timeline d !! j = None ->
               rq_delete_timeline j ∈ q \/ delete k (Db.timeline d) !! j = None).
  { intros j [Hj|Hj]; [apply elem_of_cons in Hj as [[= ->]|]; [right; apply lookup_delete_eq | by left] |].
    right. apply lookup_delete_None. by right. }
  constructor; cbn [on_text_stores Db.messages Db.timeline].
  - by apply text_change_trans.
  - done.
  - intros j. destruct (decide (k = j)) as [->|]; [right; split; [apply lookup_delete_eq | done] |].
    rewrite lookup_delete_ne by done. apply Ht.
  - intros j Hj. apply Htr. set_solver.
  - intros j Hj. destruct (Hmr j) as [? H]; [set_solver |]. split; [done | by apply Hd].
  - intros j Hj. destruct (Ha j Hj) as [(a & m & Hin & Hg)|[H1 H2]].
    + left. exists a, m. split; [set_solver | done].
    + right. split; [by apply Hd | set_solver].
Qed.

Lemma deletion_inv_delete_message d k q :
  deletion_inv d (rq_delete_message k :: q) -> deletion_inv (on_text_stores (delete k) id id d) q.
Proof.
  intros [Hs Hm Ht Htr Hmr Ha]. destruct (Hmr k) as [Hk Hkt]; [set_solver |].
  constructor; cbn [on_text_stores Db.messages Db.timeline].
  - by apply text_change_trans.
  - intros j. destruct (decide (k = j)) as [->|]; [right; split; [apply lookup_delete_eq | done] |].
    rewrite lookup_delete_ne by done. apply Hm.
  - done.
  - intros j Hj. apply Htr. set_solver.
  - intros j Hj. destruct (Hmr j) as [? H]; [set_solver |]. split; [done | set_solver].
  - intros j Hj. destruct (decide (k = j)) as [->|Hne].
    + right. rewrite lookup_delete_eq. split; [set_solver | by right].
    + rewrite lookup_delete_ne by done. destruct (Ha j Hj) as [(a & m & Hin & Hg)|[H1 H2]]; [left; exists a, m; set_solver |].
      right. split; [set_solver |]. destruct H2 as [H2|]; [left | by right]. set_solver.
Qed.

Lemma deletion_inv_tombstones d r q f placed :
  (forall k, r <> rq_delete_timeline k) -> (forall k, r <> rq_delete_message k) -> (forall a, r <> rq_message_cursor a) ->
  Forall (fun r => match r with rq_trim_cursor _ | rq_delete_tombstone _ => True | _ => False end) placed ->
  deletion_inv d (r :: q) -> deletion_inv (on_text_stores id id f d) (q ++ placed).
Proof.
  intros Ht' Hm' Ha' Hp [Hs Hm Ht Htr Hmr Ha]. rewrite Forall_forall in Hp.
  assert (Hin : forall x, (exists k, x = rq_delete_timeline k) \/ (exists k, x = rq_delete_message k) \/ (exists a, x = rq_message_cursor a) ->
                x ∈ r :: q <-> x ∈ q ++ placed).
  { intros x Hx. rewrite elem_of_cons, elem_of_app. split.
    - intros [->|]; [| by left]. exfalso. destruct Hx as [[k ->]|[[k ->]|[a ->]]]; [by apply (Ht' k) | by apply (Hm' k) | by apply (Ha' a)].
    - intros [|Hx']; [by right |]. specialize (Hp x Hx'). by destruct Hx as [[k ->]|[[k ->]|[a ->]]]. }
  constructor; cbn [on_text_stores Db.messages Db.timeline]; [by apply text_change_trans | done | done | | |].
  - intros k Hk. apply Htr, Hin; eauto.
  - intros k Hk. rewrite <- (Hin (rq_delete_timeline k)) by eauto. apply Hmr, Hin; eauto.
  - intros k Hk. rewrite <- (Hin (rq_delete_timeline k)), <- (Hin (rq_delete_message k)) by eauto.
    destruct (Ha k Hk) as [(a & m & Hc & Hg)|]; [left; exists a, m; rewrite <- Hin by eauto; done | by right].
Qed.

Lemma deletion_inv_serve retained d r q d' placed retained' :
  deletion_inv d (r :: q) -> serve contactId deletedAt retained d r = (d', placed, retained') -> deletion_inv d' (q ++ placed).
Proof.
  intros Hi H. destruct r as [after|k|k|k|before|k]; [by eapply deletion_inv_cursor | | | | |]; cbn [serve] in H.
  - injection H as <- <- <-. rewrite app_nil_r. by apply deletion_inv_delete_timeline.
  - injection H as <- <- <-. eapply deletion_inv_tombstones, Hi; done || constructor.
  - injection H as <- <- <-. rewrite app_nil_r. by apply deletion_inv_delete_message.
  - assert (Hid : d = on_text_stores id id id d) by (by destruct d).
    destruct (next_tombstone before (Db.locallyDeleted d)) as [e|]; injection H as <- <- <-.
    + rewrite Hid. eapply deletion_inv_tombstones, Hi; try done. apply Forall_app. split; [by case_match; repeat constructor | by repeat constructor].
    + rewrite Hid. eapply deletion_inv_tombstones, Hi; done || constructor.
  - injection H as <- <- <-. eapply deletion_inv_tombstones, Hi; done || constructor.
Qed.

Lemma deletion_inv_start : deletion_inv d0 [rq_message_cursor None; rq_trim_cursor None].
Proof.
  constructor; [| by left | by left | set_solver | set_solver |].
  - exists (Db.messages d0), (Db.timeline d0), (Db.locallyDeleted d0). by destruct d0.
  - intros k (m & Hk & Hc). left. exists None, m. split; [set_solver |]. split; [done |]. unfold later_message. cbn.
    by rewrite (proj2 (str_eqb_true _ _) Hc).
Qed.

Lemma contact_deletion_effect :
  deletion_inv (deleteStoredMessagesForContact contactId deletedAt d0) [].
Proof.
  destruct (serve_all_ind (fun _ => deletion_inv) (deletion_fuel d0) 0 d0 [rq_message_cursor None; rq_trim_cursor None]
    (deleteStoredMessagesForContact contactId deletedAt d0)) as [_ H]; [| exact deletion_inv_start | apply deletion_runs | exact H].
  intros retained d r q d' placed retained'. apply deletion_inv_serve.
Qed.

Definition mine (k : jsstring) : bool :=
  match Db.messages d0 !! k with Some m => str_eqb (Message.contactId m) contactId | None => false end.

Lemma mine_spec k : of_contact_in k <-> mine k = true.
Proof.
  unfold of_contact_in, mine. destruct (Db.messages d0 !! k) as [m|].
  - rewrite str_eqb_true. split; [by intros (? & [= ->] & ?) | intros; by exists m].
  - split; [by intros (? & ? & ?) | done].
Qed.

Lemma contact_deletion_spec :
  let d' := deleteStoredMessagesForContact contactId deletedAt d0 in
  text_change d'
  /\ (forall k, Db.messages d' !! k = if mine k then None else Db.messages d0 !! k)
  /\ (forall k, Db.timeline d' !! k = if mine k then None else Db.timeline d0 !! k).
Proof.
  cbv zeta. destruct contact_deletion_effect as [Hs Hm Ht _ _ Ha]. split; [done |].
  assert (Hgone : forall k, mine k = true -> Db.timeline (deleteStoredMessagesForContact contactId deletedAt d0) !! k = None
                       /\ Db.messages (deleteStoredMessagesForContact contactId deletedAt d0) !! k = None).
  { intros k Hk%mine_spec. destruct (Ha k Hk) as [(a & m & Hin & _)|[[Hin|Ht1] [Hin'|Hm1]]]; [set_solver .. | done]. }
  split; intros k; destruct (mine k) eqn:E.
  - by apply Hgone.
  - destruct (Hm k) as [|[_ H%mine_spec]]; congruence.
  - by apply Hgone.
  - destruct (Ht k) as [|[_ H%mine_spec]]; congruence.
Qed.
End Effect.

(** *** A deletion marker that is recent enough survives *)

Section Survivor.
Context (i : jsstring) (at_ : Z) (bound : nat) (bound_small : (bound < maxStoredLocalDeletionTombstones)%nat).

Definition request_key (r : deletion_request) : option jsstring :=
  match r with
  | rq_delete_timeline k | rq_put_tombstone k | rq_delete_message k | rq_delete_tombstone k => Some k
  | rq_message_cursor _ | rq_trim_cursor _ => None
  end.

(** The markers that the queue may still add. *)
Definition to_put (d : LocalDatabase) (r : deletion_request) : nat :=
  match r with
  | rq_message_cursor after => count_records (later_message after) (Db.messages d)
  | rq_put_tombstone _ => 1
  | _ => 0
  end.
Definition pending_puts (d : LocalDatabase) (q : list deletion_request) : nat := sum_list_with (to_put d) q.

(** The markers newer than that of [i] and before a position of the trimming cursor. *)
Definition newer (before : option (jsstring * Z)) (d : LocalDatabase) : nat :=
  count_records (fun y => index_ltb id (i, at_) y && earlier_tombstone before y) (Db.locallyDeleted d).

Record survivor_inv (retained : nat) (d : LocalDatabase) (q : list deletion_request) : Prop := {
  sv_marker : Db.locallyDeleted d !! i = Some at_;
  sv_absent : Db.messages d !! i = None;
  sv_keys : Forall (fun r => request_key r <> Some i) q;
  sv_trims : (trims q <= 1)%nat;
  sv_newer : (newer None d + pending_puts d q <= bound)%nat;
  sv_cursor before : rq_trim_cursor before ∈ q -> earlier_tombstone before (i, at_) = true ->
    (retained + newer before d + pending_puts d q <= bound)%nat;
}.

Lemma pending_puts_app d q q' : pending_puts d (q ++ q') = (pending_puts d q + pending_puts d q')%nat.
Proof. apply sum_list_with_app. Qed.

Lemma pending_puts_le d d' q :
  (forall after, (count_records (later_message after) (Db.messages d')
                  <= count_records (later_message after) (Db.messages d))%nat) ->
  (pending_puts d' q <= pending_puts d q)%nat.
Proof.
  intros H. unfold pending_puts. induction q as [|r q IH]; cbn [sum_list_with]; [lia |].
  destruct r as [after| | | | |]; cbn [to_put]; try lia. specialize (H after). lia.
Qed.

Lemma no_trim b q : trims q = 0%nat -> rq_trim_cursor b ∉ q.
Proof.
  intros H Hin. assert (rq_trim_cursor b ∈ keep is_trim q) by (by apply elem_of_keep).
  unfold trims in H. destruct (keep is_trim q); [set_solver | done].
Qed.

(** A request that neither visits a marker nor adds one. *)
Lemma survivor_plain retained d r q f g h :
  survivor_inv retained d (r :: q) -> is_trim r = false -> (forall k, h k !! i = k !! i) ->
  (forall p, (count_records p (h (Db.locallyDeleted d)) <= count_records p (Db.locallyDeleted d))%nat) ->
  (forall p, (count_records p (f (Db.messages d)) <= count_records p (Db.messages d))%nat) ->
  f (Db.messages d) !! i = None -> survivor_inv retained (on_text_stores f g h d) q.
Proof.
  intros [Hm Ha Hk Ht Hn Hc] Hr Hi Hh Hf Hfi. apply Forall_cons in Hk as [_ Hk]. rewrite trims_cons, Hr in Ht.
  assert (Hp : (pending_puts (on_text_stores f g h d) q <= pending_puts d (r :: q))%nat).
  { pose proof (pending_puts_le d (on_text_stores f g h d) q (fun after => Hf (later_message after))).
    unfold pending_puts in *. cbn [sum_list_with]. lia. }
  assert (Hw : forall b, (newer b (on_text_stores f g h d) <= newer b d)%nat) by (intros b; apply Hh).
  constructor; cbn [on_text_stores Db.locallyDeleted Db.messages]; [by rewrite Hi | done | done | done | |].
  - specialize (Hw None). lia.
  - intros b Hb Hbi. specialize (Hw b). specialize (Hc b ltac:(set_solver) Hbi). lia.
Qed.

Lemma survivor_put retained d k q :
  survivor_inv retained d (rq_put_tombstone k :: q) -> survivor_inv retained (on_text_stores id id <[k := deletedAt]> d) q.
Proof.
  intros [Hm Ha Hk Ht Hn Hc]. apply Forall_cons in Hk as [Hki Hk].
  assert (Hw : forall b, (newer b (on_text_stores id id <[k:=deletedAt]> d) <= S (newer b d))%nat) by (intros b; apply count_insert_le).
  assert (Hp : pending_puts d (rq_put_tombstone k :: q) = S (pending_puts d q)) by done. rewrite Hp in Hn, Hc.
  constructor; cbn [on_text_stores Db.locallyDeleted Db.messages].
  - rewrite lookup_insert_ne; [done |]. intros ->. by apply Hki.
  - done.
  - done.
  - rewrite trims_cons in Ht. cbn in Ht. lia.
  - specialize (Hw None). change (pending_puts (on_text_stores id id <[k:=deletedAt]> d) q) with (pending_puts d q). lia.
  - intros b Hb Hbi. specialize (Hw b). specialize (Hc b ltac:(set_solver) Hbi).
    change (pending_puts (on_text_stores id id <[k:=deletedAt]> d) q) with (pending_puts d q). lia.
Qed.

Lemma survivor_message_cursor retained d after q d' placed retained' :
  survivor_inv retained d (rq_message_cursor after :: q) ->
  serve contactId deletedAt retained d (rq_message_cursor after) = (d', placed, retained') ->
  survivor_inv retained' d' (q ++ placed).
Proof.
  intros [Hm Ha Hk Ht Hn Hc] H. apply Forall_cons in Hk as [_ Hk]. cbn [serve] in H.
  pose proof (next_message_spec after (Db.messages d)) as Hs.
  destruct (next_message contactId after (Db.messages d)) as [k|]; injection H as <- <- <-.
  - destruct Hs as (v & Hv & Hl & Hmin). pose proof (count_next_message after _ k v Hv Hl Hmin) as E.
    assert (Hki : k <> i) by (intros ->; congruence).
    assert (Hp : pending_puts d (rq_message_cursor after :: q)
                 = pending_puts d (q ++ [rq_delete_timeline k; rq_put_tombstone k; rq_delete_message k; rq_message_cursor (Some k)])).
    { rewrite pending_puts_app. unfold pending_puts. cbn [sum_list_with to_put]. rewrite E. lia. }
    rewrite Hp in Hn, Hc. constructor; [done | done | | | done |].
    + apply Forall_app. split; [done |]. repeat (apply Forall_cons; split); cbn; congruence || constructor.
    + rewrite trims_app, !trims_cons. rewrite trims_cons in Ht. cbn in *. lia.
    + intros b Hb Hbi. apply Hc; [| done]. apply elem_of_app in Hb as [Hb|Hb]; set_solver.
  - assert (Hp : (pending_puts d q <= pending_puts d (rq_message_cursor after :: q))%nat)
      by (unfold pending_puts; cbn [sum_list_with]; lia).
    rewrite app_nil_r. constructor; [done | done | done | done | lia |].
    intros b Hb Hbi. specialize (Hc b ltac:(set_solver) Hbi). lia.
Qed.

Lemma survivor_trim retained d before q d' placed retained' :
  survivor_inv retained d (rq_trim_cursor before :: q) ->
  serve contactId deletedAt retained d (rq_trim_cursor before) = (d', placed, retained') ->
  survivor_inv retained' d' (q ++ placed).
Proof.
  intros [Hm Ha Hk Ht Hn Hc] H. apply Forall_cons in Hk as [_ Hk]. rewrite trims_cons in Ht. cbn [is_trim] in Ht.
  assert (Hq : forall b, rq_trim_cursor b ∉ q) by (intros b; apply no_trim; lia).
  change (pending_puts d (rq_trim_cursor before :: q)) with (pending_puts d q) in Hn, Hc. cbn [serve] in H.
  pose proof (next_tombstone_spec before (Db.locallyDeleted d)) as Hs.
  destruct (next_tombstone before (Db.locallyDeleted d)) as [e|]; injection H as <- <- <-.
  2: { rewrite app_nil_r. constructor; [done | done | done | lia | done | intros b Hb; by apply Hq in Hb]. }
  destruct Hs as (He & Hl & Hmin). specialize (Hc before ltac:(set_solver)).
  assert (Hei : e.1 = i -> e = (i, at_)) by (intros E; rewrite E, Hm in He; destruct e; cbn in *; congruence).
  assert (Hdel : (maxStoredLocalDeletionTombstones < S retained)%nat -> e.1 <> i).
  { intros Hlt E. rewrite (Hei E) in Hl. specialize (Hc Hl). lia. }
  set (del := if (maxStoredLocalDeletionTombstones <? S retained)%nat then [rq_delete_tombstone e.1] else []).
  assert (Hdel' : Forall (fun r => request_key r <> Some i) del /\ trims del = 0%nat /\ pending_puts d del = 0%nat
                  /\ forall b, rq_trim_cursor b ∉ del).
  { unfold del. destruct (Nat.ltb_spec maxStoredLocalDeletionTombstones (S retained)) as [Hlt|_]; [| repeat split; set_solver].
    split; [constructor; [cbn; intros [= E]; by apply (Hdel Hlt) | constructor] |]. split; [done |]. split; [done | set_solver]. }
  destruct Hdel' as (Hd1 & Hd2 & Hd3 & Hd4).
  assert (Hp : pending_puts d (q ++ del ++ [rq_trim_cursor (Some e)]) = pending_puts d q).
  { rewrite !pending_puts_app, Hd3. unfold pending_puts at 2. cbn. lia. }
  constructor; [done | done | | | rewrite Hp; done |].
  - apply Forall_app. split; [done |]. apply Forall_app. split; [done | by repeat constructor].
  - rewrite !trims_app, Hd2, trims_cons. cbn. lia.
  - intros b Hb Hbi. rewrite Hp. rewrite !elem_of_app, list_elem_of_singleton in Hb.
    destruct Hb as [Hb|[Hb|[= ->]]]; [by apply Hq in Hb | by apply Hd4 in Hb |].
    assert (Hbl : earlier_tombstone before (i, at_) = true).
    { destruct before as [p|]; [| done]. cbn [earlier_tombstone] in *. by eapply index_ltb_trans. }
    specialize (Hc Hbl).
    pose proof (count_next_tombstone (fun y => index_ltb id (i, at_) y) before _ e He Hl Hbi Hmin) as E.
    change (newer before d = S (newer (Some e) d)) in E. lia.
Qed.

Lemma survivor_serve retained d r q d' placed retained' :
  survivor_inv retained d (r :: q) -> serve contactId deletedAt retained d r = (d', placed, retained') ->
  survivor_inv retained' d' (q ++ placed).
Proof.
  intros Hi H. pose proof Hi as [_ Hna Hk _ _ _]. apply Forall_cons in Hk as [Hk _].
  destruct r as [after|k|k|k|before|k];
    [by eapply survivor_message_cursor | | | | by eapply survivor_trim |];
    cbn [serve] in H; injection H as <- <- <-; rewrite app_nil_r.
  - by eapply survivor_plain.
  - by apply survivor_put.
  - eapply survivor_plain; [exact Hi | done | done | done | intros; apply count_delete_le |].
    apply lookup_delete_None. by right.
  - eapply survivor_plain; [exact Hi | done | | intros; apply count_delete_le | done | done].
    intros m. apply lookup_delete_ne. intros ->. by apply Hk.
Qed.
End Survivor.
End Deletion.
