(* ===== verification/LocalDatabaseFacts.v ===== *)
(** * What the local database keeps under every sequence of transactions *)
From S2P Require Import Prelude JsRuntime Collections Image Admission AppStore AppStoreFacts LocalDatabase DatabaseCursors.

(** ** Deleted messages stay deleted *)

(** The deletion markers that a transaction adds at most. *)
Definition markers_added (d : LocalDatabase) (t : transaction) : nat :=
  match t with
  | tx_delete_locally ids _ => length (uniqueMessageIds ids)
  | tx_delete_for_contact c _ => count_records (later_message c None) (Db.messages d)
  | _ => 0
  end.

Fixpoint all_markers_added (d : LocalDatabase) (ts : list transaction) : nat :=
  match ts with [] => 0 | t :: ts => markers_added d t + all_markers_added (run_transaction d t) ts end.

(** The markers in the order of [byDeletedAt] after that of a message. *)
Definition newer_markers (id : jsstring) (deletedAt : Z) (d : LocalDatabase) : nat :=
  count_records (index_ltb (fun v => v) (id, deletedAt)) (Db.locallyDeleted d).

(** A retry under the same identifier and the import of a profile do not look at the markers. *)
Definition leaves_alone (id : jsstring) (t : transaction) : bool :=
  match t with
  | tx_delete_locally ids _ => negb (bool_decide (id ∈ ids))
  | tx_replace_for_retry _ m => negb (str_eqb (Message.messageId m) id)
  | tx_import _ => false
  | _ => true
  end.

Record marked (id : jsstring) (at_ : Z) (bound : nat) (d : LocalDatabase) : Prop := {
  mk_marker : Db.locallyDeleted d !! id = Some at_;
  mk_absent : Db.messages d !! id = None;
  mk_timeline r : Db.timeline d !! id = Some r -> is_image_record r = true;
  mk_newer : (newer_markers id at_ d <= bound)%nat;
}.

Lemma unique_keys_elem (m : record_of unit) (l : list jsstring) x :
  x ∈ map_keys (foldl (fun m id => map_set m id tt) m l) <-> x ∈ map_keys m \/ x ∈ l.
Proof.
  revert m. induction l as [|y l IH]; intros m; cbn [foldl]; [set_solver |]. rewrite IH, map_keys_set.
  destruct (map_has m y) eqn:E; [apply map_has_true in E; set_solver | set_solver].
Qed.

Lemma uniqueMessageIds_sub ids x : x ∈ uniqueMessageIds ids -> x ∈ ids.
Proof.
  intros Hx. assert (Hk : x ∈ js_unique ids).
  { eapply elem_of_sublist; [exact Hx |]. unfold uniqueMessageIds.
    etrans; [apply sublist_take |]. apply sublist_filter. }
  apply unique_keys_elem in Hk as [Hk|]; [by apply not_elem_of_nil in Hk | done].
Qed.

Lemma delete_ids_lookup {A} (ids : list jsstring) (m : object_store A) (k : jsstring) :
  delete_ids ids m !! k = if bool_decide (k ∈ ids) then None else m !! k.
Proof.
  unfold delete_ids. revert m. induction ids as [|x ids IH]; intros m; cbn [foldl]; [done |]. rewrite IH.
  destruct (decide (k = x)) as [->|Hne].
  - rewrite lookup_delete_eq. rewrite (bool_decide_eq_true_2 (x ∈ x :: ids)) by set_solver. by case_bool_decide.
  - rewrite lookup_delete_ne by done. rewrite (bool_decide_ext (k ∈ x :: ids) (k ∈ ids)) by set_solver. done.
Qed.

Lemma put_markers_lookup (ids : list jsstring) (at_ : Z) (m : object_store Z) (k : jsstring) :
  k ∉ ids -> foldl (fun t id => <[id := at_]> t) m ids !! k = m !! k.
Proof.
  revert m. induction ids as [|x ids IH]; intros m Hk; cbn [foldl]; [done |].
  rewrite IH by set_solver. apply lookup_insert_ne. set_solver.
Qed.

Lemma put_markers_count (p : jsstring * Z -> bool) (ids : list jsstring) (at_ : Z) (m : object_store Z) :
  (count_records p (foldl (fun t id => <[id := at_]> t) m ids) <= count_records p m + length ids)%nat.
Proof.
  revert m. induction ids as [|x ids IH]; intros m; cbn [foldl length]; [lia |].
  specialize (IH (<[x := at_]> m)). pose proof (count_insert_le p m x at_). lia.
Qed.

Lemma keep_first_count {A} (p : jsstring * A -> bool) (n : nat) (l : list (jsstring * A)) (m : object_store A) : (count_records p (keep_first n l m) <= count_records p m)%nat.
Proof.
  unfold keep_first. generalize (drop n l). clear. intros l. revert m. induction l as [|x l IH]; intros m; cbn [foldl]; [lia |].
  specialize (IH (delete x.1 m)). pose proof (count_delete_le p m x.1). lia.
Qed.

Lemma put_markers_put (ids : list jsstring) (at_ : Z) (m : object_store Z) (k : jsstring) :
  k ∈ ids -> foldl (fun t id => <[id := at_]> t) m ids !! k = Some at_.
Proof.
  revert m. induction ids as [|x ids IH]; intros m Hk; cbn [foldl]; [by apply not_elem_of_nil in Hk |].
  destruct (decide (k ∈ ids)) as [Hin|Hout]; [by apply IH |].
  apply elem_of_cons in Hk as [->|Hk]; [| done]. by rewrite put_markers_lookup, lookup_insert_eq.
Qed.

(** A record that a bounded store lets go leaves the bound's number of newer ones. *)
Lemma newest_crowd {A} (key : A -> Z) (n : nat) (m : object_store A) (k : jsstring) (v : A) :
  m !! k = Some v -> keep_first n (reverse (index_order key m)) m !! k = None ->
  (n <= count_records (index_ltb key (k, v)) (keep_first n (reverse (index_order key m)) m))%nat.
Proof.
  intros Hm Hk. set (kept := keep_first n _ m) in *.
  assert (Ha : (n <= after_in key m (k, v))%nat).
  { destruct (decide (after_in key m (k, v) < n)%nat) as [H|H]; [| lia].
    assert (E : kept !! k = Some v) by (by apply keep_newest). congruence. }
  assert (Hall : (count_records (fun _ => true) kept <= count_records (index_ltb key (k, v)) kept)%nat).
  { apply count_le. intros [j w] Hj _. cbn in Hj. apply keep_newest in Hj as Hj'. destruct Hj' as [_ Hw].
    destruct (decide (k = j)) as [<-|Hne]; [unfold kept in *; congruence |].
    destruct (index_ltb_total key (k, v) (j, w) Hne) as [E|E]; [done |]. exfalso.
    enough ((after_in key m (k, v) <= after_in key m (j, w))%nat) by lia.
    apply keep_length_le. intros x _ Hx. by eapply index_ltb_trans. }
  assert (Hs : (n <= size kept)%nat).
  { unfold kept. rewrite keep_first_size by (by rewrite reverse_Permutation, index_order_perm).
    pose proof (count_size (index_ltb key (k, v)) m). unfold count_records, after_in in *. lia. }
  unfold count_records at 1 in Hall. rewrite keep_all, length_map_to_list in Hall by (by apply Forall_forall). lia.
Qed.

(** What a deletion leaves of a message it names: nothing, and its marker as
    long as there are not 256 newer ones. *)
Lemma deletion_marks (d : LocalDatabase) (ids : list jsstring) (deletedAt : Z) (i : jsstring) :
  let d1 := deleteStoredMessagesLocally ids deletedAt d in
  i ∈ uniqueMessageIds ids -> (newer_markers i deletedAt d1 < maxStoredLocalDeletionTombstones)%nat ->
  Db.locallyDeleted d1 !! i = Some deletedAt /\ Db.messages d1 !! i = None /\ Db.timeline d1 !! i = None.
Proof.
  cbv zeta. intros Hi. unfold newer_markers, deleteStoredMessagesLocally.
  destruct (uniqueMessageIds ids) as [|x l] eqn:E; [by apply not_elem_of_nil in Hi |]. rewrite <- E in *.
  cbn [on_delivery_stores on_text_stores Db.messages Db.timeline Db.locallyDeleted]. intros Hn.
  rewrite !delete_ids_lookup, !bool_decide_eq_true_2 by done. split; [| done]. unfold trim_tombstones in *.
  pose proof (put_markers_put (uniqueMessageIds ids) deletedAt (Db.locallyDeleted d) i Hi) as Hp.
  set (put := foldl _ (Db.locallyDeleted d) _) in *.
  destruct (keep_first _ _ put !! i) as [v|] eqn:Ek; [apply keep_newest in Ek as [Ek _]; congruence |].
  pose proof (newest_crowd id maxStoredLocalDeletionTombstones put i deletedAt Hp Ek). unfold id in *. lia.
Qed.

(** The transactions that touch neither the messages nor the markers. *)
Lemma marked_same (i : jsstring) (at_ : Z) (b : nat) (d d' : LocalDatabase) :
  Db.locallyDeleted d' = Db.locallyDeleted d -> Db.messages d' !! i = None ->
  (forall r, Db.timeline d' !! i = Some r -> Db.timeline d !! i = Some r \/ is_image_record r = true) ->
  marked i at_ b d -> marked i at_ b d'.
Proof.
  intros Hl Hm Ht [H1 H2 H3 H4]. constructor; [by rewrite Hl | done | | unfold newer_markers in *; by rewrite Hl].
  intros r Hr. destruct (Ht r Hr); [by apply H3 | done].
Qed.

Lemma marked_delete_locally (i : jsstring) (at_ : Z) (b : nat) (d : LocalDatabase) (ids : list jsstring) (deletedAt : Z) :
  i ∉ ids -> (b + length (uniqueMessageIds ids) < maxStoredLocalDeletionTombstones)%nat ->
  marked i at_ b d -> marked i at_ (b + length (uniqueMessageIds ids)) (deleteStoredMessagesLocally ids deletedAt d).
Proof.
  intros Hid Hb [H1 H2 H3 H4]. unfold deleteStoredMessagesLocally.
  assert (Hu : i ∉ uniqueMessageIds ids) by (intros H; by apply Hid, uniqueMessageIds_sub).
  destruct (uniqueMessageIds ids) as [|x l] eqn:E; [constructor; [done .. | lia] |]. rewrite <- E in *. clear E.
  set (put := foldl (fun t id => <[id:=deletedAt]> t) (Db.locallyDeleted d) (uniqueMessageIds ids)).
  assert (Hput : put !! i = Some at_) by (unfold put; by rewrite put_markers_lookup).
  assert (Hc : (count_records (index_ltb (fun v => v) (i, at_)) put <= b + length (uniqueMessageIds ids))%nat).
  { pose proof (put_markers_count (index_ltb (fun v => v) (i, at_)) (uniqueMessageIds ids) deletedAt (Db.locallyDeleted d)).
    unfold newer_markers in H4. unfold put. lia. }
  constructor; cbn [on_delivery_stores on_text_stores Db.locallyDeleted Db.messages Db.timeline].
  - apply keep_newest. split; [done |]. eapply Nat.le_lt_trans; [exact Hc | done].
  - by rewrite delete_ids_lookup, H2; case_bool_decide.
  - intros r. rewrite delete_ids_lookup. case_bool_decide; [done | apply H3].
  - etrans; [| exact Hc]. apply (keep_first_count (index_ltb (fun v => v) (i, at_)) maxStoredLocalDeletionTombstones
      (reverse (index_order (fun v => v) put)) put).
Qed.

Lemma marked_delete_for_contact (i : jsstring) (at_ : Z) (b : nat) (d : LocalDatabase) c deletedAt :
  (b + count_records (later_message c None) (Db.messages d) < maxStoredLocalDeletionTombstones)%nat ->
  marked i at_ b d ->
  marked i at_ (b + count_records (later_message c None) (Db.messages d)) (deleteStoredMessagesForContact c deletedAt d).
Proof.
  intros Hb [H1 H2 H3 H4]. destruct (contact_deletion_spec c deletedAt d) as (_ & Hm & Ht).
  destruct (serve_all_ind c deletedAt (survivor_inv c i at_ (b + count_records (later_message c None) (Db.messages d)))
    (deletion_fuel d) 0 d [rq_message_cursor None; rq_trim_cursor None] (deleteStoredMessagesForContact c deletedAt d))
    as [retained [S1 S2 _ _ S5 _]].
  - intros retained d1 r q d2 placed retained'. by apply survivor_serve.
  - assert (Hn : (newer i at_ None d <= b)%nat) by (etrans; [| exact H4]; apply count_le; intros x _; by rewrite andb_true_r).
    assert (Hp : pending_puts c d [rq_message_cursor None; rq_trim_cursor None] = count_records (later_message c None) (Db.messages d))
      by (unfold pending_puts; cbn; lia).
    constructor; [done | done | by repeat constructor | done | rewrite Hp; lia |].
    intros before Hin _. rewrite Hp. rewrite !elem_of_cons in Hin. destruct Hin as [|[[= ->]|Hin]]; [done | lia | by apply not_elem_of_nil in Hin].
  - apply deletion_runs.
  - constructor; [done | done | |].
    + intros r Hr. rewrite Ht in Hr. destruct (mine c d i); [done | by apply H3].
    + unfold newer, pending_puts in S5. cbn in S5. unfold newer_markers. etrans; [| etrans; [exact S5 | lia]].
      rewrite Nat.add_0_r. apply count_le. intros x _ Hx. apply andb_true_intro. by split.
Qed.

Lemma foldl_delete_timeline (ids : list jsstring) (t : object_store TimelineRecord) (k : jsstring) r :
  delete_ids ids t !! k = Some r -> t !! k = Some r.
Proof. rewrite delete_ids_lookup. by case_bool_decide. Qed.

Lemma delete_where_lookup {A} (p : A -> bool) (m : object_store A) (k : jsstring) :
  delete_where p m !! k = match m !! k with Some v => if p v then None else Some v | None => None end.
Proof.
  unfold delete_where. rewrite map_lookup_filter. destruct (m !! k) as [v|]; [| done]. cbn.
  destruct (p v) eqn:E; case_guard; cbn in *; congruence.
Qed.

Lemma marked_step (i : jsstring) (at_ : Z) (b : nat) (d : LocalDatabase) t :
  leaves_alone i t = true -> (b + markers_added d t < maxStoredLocalDeletionTombstones)%nat ->
  marked i at_ b d -> marked i at_ (b + markers_added d t) (run_transaction d t).
Proof.
  intros Ha Hb H. pose proof H as [H1 H2 H3 H4].
  assert (Hsame : forall d', Db.locallyDeleted d' = Db.locallyDeleted d -> Db.messages d' !! i = None ->
    (forall r, Db.timeline d' !! i = Some r -> Db.timeline d !! i = Some r \/ is_image_record r = true) -> marked i at_ (b + 0) d').
  { intros d' E1 E2 E3. rewrite Nat.add_0_r. by eapply marked_same. }
  destruct t; cbn [run_transaction markers_added leaves_alone] in *; try (apply Hsame; [done | done | by left]).
  - unfold saveStoredMessage. destruct (Db.locallyDeleted d !! Message.messageId m) eqn:E; [apply Hsame; [done | done | by left] |].
    assert (Hne : Message.messageId m <> i) by (intros <-; congruence).
    apply Hsame; cbn; [done | by rewrite lookup_insert_ne | intros r; rewrite lookup_insert_ne by done; by left].
  - apply marked_delete_locally; [by bool_props | done | done].
  - apply negb_true_iff, str_eqb_false in Ha. apply Hsame; cbn; [done | |].
    + rewrite lookup_insert_ne by done. apply lookup_delete_None. by right.
    + intros r. rewrite lookup_insert_ne by done. intros [_ Hr]%lookup_delete_Some. by left.
  - by apply marked_delete_for_contact.
  - unfold storeVerifiedImageMessage. repeat case_match; cbn; apply Hsame; try done; try (by left).
    cbn. intros r [[_ <-]|[_ Hr]]%lookup_insert_Some; [by right | by left].
  - apply Hsame; cbn; [done | done |]. intros r Hr%foldl_delete_timeline. by left.
  - unfold deleteStoredImageMessagesForContact. case_match; apply Hsame; try done; try (by left).
    cbn. intros r Hr%foldl_delete_timeline. by left.
  - apply Hsame; cbn; [done | done |]. intros r. rewrite delete_where_lookup. destruct (Db.timeline d !! i); [| done].
    case_match; [done | by left].
  - unfold findTerminalReadTarget. repeat case_match; apply Hsame; done || by left.
  - unfold saveStoredReadReceipt. case_match; apply Hsame; done || by left.
  - unfold claimStoredReceivedApplicationMessage. case_match; apply Hsame; done || by left.
Qed.

Lemma marked_run (i : jsstring) (at_ : Z) (ts : list transaction) (b : nat) (d : LocalDatabase) :
  forallb (leaves_alone i) ts = true -> (b + all_markers_added d ts < maxStoredLocalDeletionTombstones)%nat ->
  marked i at_ b d -> marked i at_ (b + all_markers_added d ts) (run_transactions d ts).
Proof.
  revert b d. induction ts as [|t ts IH]; intros b d Ha Hb H; cbn [forallb all_markers_added run_transactions foldl] in *.
  - by rewrite Nat.add_0_r.
  - bool_props. rewrite Nat.add_assoc in *. apply IH; [done | lia |]. apply marked_step; [done | lia | done].
Qed.

(** C21: a message deleted on this device never comes back: the deletion leaves
    a marker, and whatever transactions follow, late writes of the message and
    deletions of whole contacts included, the marker stays, the message's record
    and its text in the timeline stay away, and a write of it does nothing, as
    long as fewer than 256 newer markers are there or added and neither a retry
    under its identifier nor an import of a profile takes place.  (Deleting it
    again starts anew; see [retry_revives] for the retry.) *)
Theorem deleted_stays_deleted (d : LocalDatabase) (ids : list jsstring) (deletedAt : Z) (i : jsstring) (ts : list transaction)
    (Hi : i ∈ uniqueMessageIds ids)
    (Hts : forallb (leaves_alone i) ts = true)
    (Hnewer : (newer_markers i deletedAt (deleteStoredMessagesLocally ids deletedAt d)
               + all_markers_added (deleteStoredMessagesLocally ids deletedAt d) ts < maxStoredLocalDeletionTombstones)%nat) :
  let d' := run_transactions (deleteStoredMessagesLocally ids deletedAt d) ts in
  Db.locallyDeleted d' !! i = Some deletedAt
  /\ Db.messages d' !! i = None
  /\ (forall r, Db.timeline d' !! i = Some r -> is_image_record r = true)
  /\ forall m, Message.messageId m = i -> saveStoredMessage m d' = d'.
Proof.
  cbv zeta. destruct (deletion_marks d ids deletedAt i Hi ltac:(lia)) as (Hk & Hm & Ht).
  set (d1 := deleteStoredMessagesLocally ids deletedAt d) in *.
  destruct (marked_run i deletedAt ts _ d1 Hts Hnewer) as [M1 M2 M3 _].
  - constructor; [done | done | | done]. intros r. by rewrite Ht.
  - split; [done |]. split; [done |]. split; [done |]. intros m <-. unfold saveStoredMessage. by rewrite M1.
Qed.

Definition sample_text (i c : jsstring) (at_ : Z) (st : MessageDeliveryState) : MessageSummary :=
  Message.mk i c outgoing (js "hello") at_ st None None.

Definition sample_database : LocalDatabase :=
  run_transactions empty_database
    [tx_save_message (sample_text (js "m1") (js "alice") 10 d_pending); tx_save_message (sample_text (js "m2") (js "alice") 11 d_pending);
     tx_save_message (sample_text (js "m3") (js "bob") 12 d_pending)].

Definition late_transactions : list transaction :=
  [tx_save_message (sample_text (js "m1") (js "alice") 10 d_relayed); tx_delete_for_contact (js "alice") 101;
   tx_delete_locally [js "m3"] 102; tx_save_message (sample_text (js "m1") (js "alice") 10 d_delivered)].

Lemma deleted_stays_deleted_witness :
  let d' := run_transactions (deleteStoredMessagesLocally [js "m1"] 100 sample_database) late_transactions in
  Db.locallyDeleted d' !! js "m1" = Some 100
  /\ Db.messages d' !! js "m1" = None
  /\ (forall r, Db.timeline d' !! js "m1" = Some r -> is_image_record r = true)
  /\ forall m, Message.messageId m = js "m1" -> saveStoredMessage m d' = d'.
Proof.
  apply (deleted_stays_deleted sample_database [js "m1"] 100 (js "m1") late_transactions).
  - apply (bool_decide_eq_true_1 (_ ∈ _)). vm_compute. reflexivity.
  - vm_compute. reflexivity.
  - apply (bool_decide_eq_true_1 (_ < _)%nat). vm_compute. reflexivity.
Defined.

(** A retry puts a deleted message back: it does not look at the markers. *)
Example retry_revives :
  let d' := run_transactions sample_database
    [tx_delete_locally [js "m1"; js "m4"] 100; tx_replace_for_retry (js "m1") (sample_text (js "m4") (js "alice") 50 d_pending)] in
  is_Some (Db.locallyDeleted d' !! js "m4") /\ is_Some (Db.messages d' !! js "m4").
Proof. vm_compute. split; eauto. Qed.

(** The cursor that bounds the markers of [deleteStoredMessagesForContact] is
    opened before the markers are put: 300 markers stay. *)
Definition many_messages (n : nat) : LocalDatabase :=
  Db.mk None ∅ (list_to_map ((fun k => ([Z.of_nat k], Message.mk [Z.of_nat k] (js "alice") outgoing [] 0 d_pending None None)) <$> seq 0 n))
    ∅ ∅ ∅ ∅ ∅ ∅ ∅ ∅ ∅ ∅ ∅.

Example contact_markers_unbounded :
  size (Db.locallyDeleted (deleteStoredMessagesForContact (js "alice") 1 (many_messages 260))) = 260%nat.
Proof. vm_compute. reflexivity. Qed.
