(* ===== verification/DatabaseInvariant.v ===== *)
(** * The invariant of the local database

    What the timeline shows is stored, images have their bytes and keep to the
    quota of the device, and the bounded stores keep to their bounds. *)
From S2P Require Import Prelude JsRuntime Collections Image Admission AppStore AppStoreFacts LocalDatabase DatabaseCursors LocalDatabaseFacts.

(** A timeline record shows a message or an image that is stored under its key. *)
Definition record_ok (d : LocalDatabase) (k : jsstring) (r : TimelineRecord) : Prop :=
  Timeline.messageId r = k /\
  match Timeline.content r with
  | tl_text m => Db.messages d !! k = Some m /\ Timeline.contactId r = Message.contactId m /\ Timeline.sentAt r = Message.sentAt m
  | tl_image p => (exists s, Db.projections d !! k = Some s /\ Stored.projection s = p)
                  /\ Timeline.contactId r = Projection.contactId p /\ Timeline.sentAt r = number_value (Projection.sentAt p)
  end.

Definition image_ok (d : LocalDatabase) (k : jsstring) (s : Stored.StoredProjection) : Prop :=
  Projection.messageId (Stored.projection s) = k /\ storedProjection s = Some s
  /\ exists md, Db.media d !! k = Some md /\ Projection.byteCount (Stored.projection s) = Int (zlen (Stored.data md)).

Definition image_bytes (m : object_store Stored.StoredProjection) : Z := stored_bytes (map_to_list m).*2.

Definition target_ok (t : Target.StoredMessageDeliveryTarget) : Prop :=
  NoDup (Target.deliveryIds t) /\ (0 < length (Target.deliveryIds t) <= maxDeliveryTargetsPerMessage)%nat.

Record database_ok (d : LocalDatabase) : Prop := {
  ok_timeline : map_Forall (record_ok d) (Db.timeline d);
  ok_messages : map_Forall (fun k m => Message.messageId m = k) (Db.messages d);
  ok_images : map_Forall (image_ok d) (Db.projections d);
  ok_media k : is_Some (Db.media d !! k) -> is_Some (Db.projections d !! k);
  ok_image_count : (size (Db.projections d) <= Z.to_nat maxImageMessageProjections)%nat;
  ok_image_bytes : image_bytes (Db.projections d) <= maxStoredImageMediaBytes;
  ok_targets : map_Forall (fun _ t => target_ok t) (Db.deliveryTargets d);
  ok_target_count : (size (Db.deliveryTargets d) <= maxStoredMessageDeliveryTargets)%nat;
  ok_terminal_count : (size (Db.terminalReadTargets d) <= maxStoredTerminalReadTargets)%nat;
}.

(** [Date.now()] is a time. *)
Definition valid_transaction (t : transaction) : bool :=
  match t with tx_store_image _ _ now => validStoredTimestamp now | _ => true end.

(** ** Bytes *)

Lemma stored_bytes_perm l k : Permutation l k -> stored_bytes l = stored_bytes k.
Proof. unfold stored_bytes. induction 1; cbn [foldr]; lia. Qed.

Lemma image_bytes_insert (k : jsstring) (s : Stored.StoredProjection) (m : object_store Stored.StoredProjection) :
  m !! k = None -> image_bytes (<[k := s]> m) = projection_bytes s + image_bytes m.
Proof.
  intros H. unfold image_bytes. rewrite (stored_bytes_perm _ ((k, s) :: map_to_list m).*2); [done |].
  by rewrite map_to_list_insert.
Qed.

Lemma projection_bytes_nonneg (d : LocalDatabase) (k : jsstring) (s : Stored.StoredProjection) : image_ok d k s -> 0 <= projection_bytes s.
Proof. intros (_ & _ & md & _ & E). unfold projection_bytes. rewrite E. cbn. apply zlen_nonneg. Qed.

Lemma image_bytes_delete (k : jsstring) (m : object_store Stored.StoredProjection) :
  map_Forall (fun _ s => 0 <= projection_bytes s) m -> image_bytes (delete k m) <= image_bytes m.
Proof.
  intros H. destruct (m !! k) as [s|] eqn:E; [| rewrite delete_id by done; lia].
  rewrite <- (insert_delete_id m k s E) at 2. rewrite image_bytes_insert by apply lookup_delete_eq.
  specialize (H k s E). cbn in H. lia.
Qed.

Lemma delete_ids_bytes (ids : list jsstring) (m : object_store Stored.StoredProjection) :
  map_Forall (fun _ s => 0 <= projection_bytes s) m -> image_bytes (delete_ids ids m) <= image_bytes m.
Proof.
  unfold delete_ids. revert m. induction ids as [|i ids IH]; intros m H; cbn [foldl]; [lia |].
  etrans; [apply IH | by apply image_bytes_delete]. intros k s [_ Hs]%lookup_delete_Some. by eapply H.
Qed.

Lemma delete_where_bytes (p : Stored.StoredProjection -> bool) (m : object_store Stored.StoredProjection) :
  map_Forall (fun _ s => 0 <= projection_bytes s) m -> image_bytes (delete_where p m) <= image_bytes m.
Proof.
  revert m. apply (map_ind (fun m => map_Forall (fun _ s => 0 <= projection_bytes s) m -> image_bytes (delete_where p m) <= image_bytes m)).
  - intros _. unfold delete_where. rewrite map_filter_empty. lia.
  - intros k s m Hk IH H. assert (Hm : map_Forall (fun _ s => 0 <= projection_bytes s) m) by (by eapply map_Forall_insert_1_2).
    assert (Hs : 0 <= projection_bytes s) by exact (H k s (lookup_insert_eq m k s)). specialize (IH Hm).
    unfold delete_where in *. rewrite image_bytes_insert by done. destruct (p s) eqn:E.
    + rewrite map_filter_insert_False by (cbn; congruence). rewrite delete_id by done. lia.
    + rewrite map_filter_insert_True by done. rewrite image_bytes_insert; [lia |].
      apply map_lookup_filter_None. by left.
Qed.

Lemma delete_ids_size {A} (ids : list jsstring) (m : object_store A) : (size (delete_ids ids m) <= size m)%nat.
Proof.
  unfold delete_ids. revert m. induction ids as [|i ids IH]; intros m; cbn [foldl]; [lia |]. specialize (IH (delete i m)).
  assert (Hd : (size (delete i m) <= size m)%nat); [| by etrans].
  destruct (m !! i) eqn:E; [rewrite map_size_delete_Some by done; lia | by rewrite delete_id].
Qed.

Lemma delete_where_size {A} (p : A -> bool) (m : object_store A) : (size (delete_where p m) <= size m)%nat.
Proof. apply map_size_filter. Qed.

(** ** The steps that leave a group of stores alone *)

Lemma projections_nonneg d : database_ok d -> map_Forall (fun _ s => 0 <= projection_bytes s) (Db.projections d).
Proof. intros H k s Hk. eapply projection_bytes_nonneg, (ok_images d H k s Hk). Qed.

(** A change of the texts whose timeline records show messages of the new store. *)
Lemma text_stores_ok d f g h :
  database_ok d -> map_Forall (fun k m => Message.messageId m = k) (f (Db.messages d)) ->
  map_Forall (record_ok (on_text_stores f g h d)) (g (Db.timeline d)) -> database_ok (on_text_stores f g h d).
Proof. intros [H1 H2 H3 H4 H5 H6 H7 H8 H9] Hm Ht. by constructor. Qed.

Lemma put_text_ok d (m : MessageSummary) :
  database_ok d -> database_ok (on_text_stores <[Message.messageId m := m]> <[Message.messageId m := timelineRecordForMessage m]> id d).
Proof.
  intros H. apply text_stores_ok; [done | |].
  - apply map_Forall_insert_2; [done | apply ok_messages, H].
  - intros k r [[<- <-]|[Hne Hr]]%lookup_insert_Some.
    + split; [done |]. cbn. by rewrite lookup_insert_eq.
    + destruct (ok_timeline d H k r Hr) as [E Hc]. split; [done |]. cbn [on_text_stores Db.messages Db.projections].
      destruct (Timeline.content r); [| done]. by rewrite lookup_insert_ne.
Qed.

(** Deleting from the messages at most what is deleted from the timeline. *)
Lemma delete_text_ok d f g h :
  database_ok d -> (forall k m, f (Db.messages d) !! k = Some m -> Db.messages d !! k = Some m) ->
  (forall k r, g (Db.timeline d) !! k = Some r -> Db.timeline d !! k = Some r /\ f (Db.messages d) !! k = Db.messages d !! k) ->
  database_ok (on_text_stores f g h d).
Proof.
  intros H Hf Hg. apply text_stores_ok; [done | intros k m Hk; by apply (ok_messages d H), Hf |].
  intros k r Hr. destruct (Hg k r Hr) as [Hr' E]. destruct (ok_timeline d H k r Hr') as [Ek Hc]. split; [done |].
  cbn [on_text_stores Db.messages Db.projections]. by rewrite E.
Qed.

Lemma delete_ids_text_ok d ids h :
  database_ok d -> database_ok (on_text_stores (delete_ids ids) (delete_ids ids) h d).
Proof.
  intros H. apply delete_text_ok; [done | |].
  - intros k m. rewrite delete_ids_lookup. by case_bool_decide.
  - intros k r. rewrite !delete_ids_lookup. by case_bool_decide.
Qed.

(** Deleting the bytes and the timeline records of every image that is deleted. *)
Lemma delete_images_ok d f g h :
  database_ok d -> (forall k s, f (Db.projections d) !! k = Some s -> Db.projections d !! k = Some s) ->
  (forall k, g (Db.media d) !! k = if bool_decide (f (Db.projections d) !! k = None) then None else Db.media d !! k) ->
  (forall k r, h (Db.timeline d) !! k = Some r -> Db.timeline d !! k = Some r
     /\ (is_image_record r = true -> f (Db.projections d) !! k = Db.projections d !! k)) ->
  (size (f (Db.projections d)) <= size (Db.projections d))%nat ->
  image_bytes (f (Db.projections d)) <= image_bytes (Db.projections d) ->
  database_ok (on_image_stores f g h d).
Proof.
  intros [H1 H2 H3 H4 H5 H6 H7 H8 H9] Hf Hg Hh Hs Hb.
  constructor; cbn [on_image_stores Db.timeline Db.messages Db.projections Db.media Db.deliveryTargets Db.terminalReadTargets];
    [| done | | | lia | lia | done | done | done].
  - intros k r Hr. destruct (Hh k r Hr) as [Hr' Hi]. destruct (H1 k r Hr') as [E Hc]. split; [done |].
    unfold is_image_record in Hi. cbn [on_image_stores Db.messages Db.projections].
    destruct (Timeline.content r); [done |]. by rewrite Hi.
  - intros k s Hk. destruct (H3 k s (Hf k s Hk)) as (E & Ev & md & Hmd & Ec). split; [done |]. split; [done |]. exists md.
    split; [| done]. cbn [on_image_stores Db.media]. rewrite Hg, bool_decide_eq_false_2 by congruence. done.
  - intros k. rewrite Hg. case_bool_decide as E; [by intros [? ?] |]. intros _.
    destruct (f (Db.projections d) !! k) eqn:E2; [eauto | done].
Qed.

Lemma delivery_stores_ok d f g :
  database_ok d -> map_Forall (fun _ t => target_ok t) (g (Db.deliveryTargets d)) ->
  (size (g (Db.deliveryTargets d)) <= maxStoredMessageDeliveryTargets)%nat -> database_ok (on_delivery_stores f g d).
Proof. intros [H1 H2 H3 H4 H5 H6 H7 H8 H9] Ht Hs. by constructor. Qed.

Lemma receipt_stores_ok d f g h :
  database_ok d -> (size (f (Db.terminalReadTargets d)) <= maxStoredTerminalReadTargets)%nat ->
  database_ok (on_receipt_stores f g h d).
Proof. intros [H1 H2 H3 H4 H5 H6 H7 H8 H9] Hs. by constructor. Qed.

Lemma profile_stores_ok d f g h : database_ok d -> database_ok (on_profile_stores f g h d).
Proof. intros [H1 H2 H3 H4 H5 H6 H7 H8 H9]. by constructor. Qed.

Lemma delete_targets_ok (d : LocalDatabase) (f : object_store StoredOutboxEntry -> object_store StoredOutboxEntry) (g : object_store Target.StoredMessageDeliveryTarget -> object_store Target.StoredMessageDeliveryTarget) :
  database_ok d -> (forall (k : jsstring) t, g (Db.deliveryTargets d) !! k = Some t -> Db.deliveryTargets d !! k = Some t) ->
  (size (g (Db.deliveryTargets d)) <= size (Db.deliveryTargets d))%nat -> database_ok (on_delivery_stores f g d).
Proof.
  intros H Hg Hs. apply delivery_stores_ok; [done | |].
  - intros k t Hk. by apply (ok_targets d H k t), Hg.
  - etrans; [exact Hs | by apply ok_target_count].
Qed.

Lemma delete_size {A} (k : jsstring) (m : object_store A) : (size (delete k m) <= size m)%nat.
Proof. destruct (m !! k) eqn:E; [rewrite map_size_delete_Some by done; lia | by rewrite delete_id]. Qed.

Lemma remembered_ok previous next :
  NoDup previous -> NoDup (rememberedDeliveryIds previous next)
  /\ (0 < length (rememberedDeliveryIds previous next) <= maxDeliveryTargetsPerMessage)%nat.
Proof.
  intros Hn. unfold rememberedDeliveryIds. split; [| rewrite length_take; cbn [length]; unfold maxDeliveryTargetsPerMessage; lia].
  eapply sublist_NoDup; [| apply sublist_take]. constructor.
  - intros [Hx _]%elem_of_keep. by rewrite str_eqb_refl in Hx.
  - apply NoDup_filter, Hn.
Qed.

Lemma save_target_ok (d : LocalDatabase) (m c i : jsstring) (at_ : Z) : database_ok d -> database_ok (saveStoredMessageDeliveryTarget m c i at_ d).
Proof.
  intros H. apply delivery_stores_ok; [done | |].
  - intros k t Hk. unfold trimStoredTargets in Hk. rewrite keep_first_lookup in Hk. case_decide; [done |].
    apply lookup_insert_Some in Hk as [[_ <-]|[_ Hk]]; [| by apply (ok_targets d H k t)].
    apply remembered_ok. destruct (Db.deliveryTargets d !! m) as [t|] eqn:E; [by apply (ok_targets d H m t) | constructor].
  - unfold trimStoredTargets. rewrite keep_first_size by apply index_order_perm. lia.
Qed.

Lemma store_image_ok (d : LocalDatabase) p data now :
  database_ok d -> validStoredTimestamp now = true -> database_ok (storeVerifiedImageMessage p data now d).2.
Proof.
  intros H Hnow. unfold storeVerifiedImageMessage.
  destruct (negb (validImageMessageProjection p) || negb (bool_decide (Projection.byteCount p = Int (zlen data)))
            || (maxStoredImageMediaBytes <? number_value (Projection.byteCount p))) eqn:Eg; [done |]. bool_props.
  destruct (Db.projections d !! Projection.messageId p ≫= storedProjection) as [s|] eqn:Es; [done |].
  assert (Hfresh : Db.projections d !! Projection.messageId p = None).
  { destruct (Db.projections d !! Projection.messageId p) as [s|] eqn:E; [| done]. cbn in Es.
    destruct (ok_images d H _ s E) as (_ & Ev & _). congruence. }
  assert (Hall : omap storedProjection (get_all (Db.projections d)) = get_all (Db.projections d)).
  { unfold get_all. assert (Hf : Forall (fun s => storedProjection s = Some s) (index_order (fun _ => 0) (Db.projections d)).*2).
    { apply Forall_fmap, Forall_forall. intros [k s] Hk%elem_of_index_order. cbn in Hk. by apply (ok_images d H k s). }
    induction Hf as [|s l Hs _ IH]; [done |]. cbn [omap list_omap]. by rewrite Hs, IH. }
  assert (Hperm : Permutation (get_all (Db.projections d)) (map_to_list (Db.projections d)).*2)
    by (unfold get_all; by rewrite index_order_perm).
  destruct (_ || _) eqn:Eq in |- *; [done |]. rewrite Hall in Eq. bool_props. cbn [snd].
  rewrite (stored_bytes_perm _ _ Hperm) in *. fold (image_bytes (Db.projections d)) in *.
  unfold zlen in *. rewrite (Permutation_length Hperm), length_fmap, length_map_to_list in *.
  destruct H as [K1 K2 K3 K4 K5 K6 K7 K8 K9].
  constructor; cbn [on_image_stores Db.timeline Db.messages Db.projections Db.media Db.deliveryTargets Db.terminalReadTargets];
    try done.
  - intros k r [[<- <-]|[Hne Hr]]%lookup_insert_Some.
    + split; [done |]. cbn. split; [| done]. eexists. by rewrite lookup_insert_eq.
    + destruct (K1 k r Hr) as [E Hc]. split; [done |]. cbn [on_image_stores Db.messages Db.projections].
      destruct (Timeline.content r); [done |]. by rewrite lookup_insert_ne.
  - intros k s [[<- <-]|[Hne Hk]]%lookup_insert_Some.
    + split; [done |]. split; [unfold storedProjection; cbn; match goal with Hv : validImageMessageProjection p = true |- _ => by rewrite Hv, Hnow end |].
      eexists. cbn. rewrite lookup_insert_eq. split; [done |]. done.
    + destruct (K3 k s Hk) as (E & Ev & md & Hmd & Ec). split; [done |]. split; [done |]. exists md. cbn. by rewrite lookup_insert_ne.
  - intros k [md [[<- _]|[Hne Hk]]%lookup_insert_Some]; [rewrite lookup_insert_eq; eauto |].
    rewrite lookup_insert_ne by done. apply K4. eauto.
  - rewrite map_size_insert_None by done. unfold maxImageMessageProjections in *. lia.
  - rewrite image_bytes_insert by done. unfold projection_bytes. cbn. lia.
Qed.

Lemma put_all_lookup {A} (key : A -> jsstring) (l : list A) (m : object_store A) (k : jsstring) x :
  put_all key l m !! k = Some x -> m !! k = Some x \/ (x ∈ l /\ key x = k).
Proof.
  unfold put_all. revert m. induction l as [|y l IH]; intros m H; cbn [foldl] in H; [by left |].
  destruct (IH _ H) as [[[<- <-]|[_ Hm]]%lookup_insert_Some|[Hx E]]; [right; split; [set_solver | done] | by left | right; split; [set_solver | done]].
Qed.

(** The last of the messages with one identifier is in the store and in the timeline. *)
Lemma imported_timeline (l : list MessageSummary) (t : object_store TimelineRecord) (m : object_store MessageSummary) :
  (forall k r, t !! k = Some r -> exists x, m !! k = Some x /\ r = imported_record x /\ Message.messageId x = k) ->
  forall k r, put_all Timeline.messageId (imported_record <$> l) t !! k = Some r ->
    exists x, put_all Message.messageId l m !! k = Some x /\ r = imported_record x /\ Message.messageId x = k.
Proof.
  unfold put_all. revert t m. induction l as [|y l IH]; intros t m H; csimpl; [done |]. apply IH.
  intros k r [[<- <-]|[Hne Hr]]%lookup_insert_Some; [exists y; by rewrite lookup_insert_eq |].
  cbn in Hne. destruct (H k r Hr) as (x & Hx & E & Ek). exists x. by rewrite lookup_insert_ne.
Qed.

Lemma import_ok d s : database_ok (replacePortableProfileSnapshot s d).
Proof.
  constructor; cbn [replacePortableProfileSnapshot Db.timeline Db.messages Db.projections Db.media Db.deliveryTargets Db.terminalReadTargets].
  - intros k r Hr. apply (imported_timeline (snapshot_messages s) ∅ ∅) in Hr as (m & Hm & -> & E).
    + split; [done |]. cbn. by rewrite Hm.
    + intros k' r'. by rewrite lookup_empty.
  - intros k m Hm. apply put_all_lookup in Hm as [Hm|[_ E]]; [by rewrite lookup_empty in Hm | done].
  - apply map_Forall_empty.
  - intros k [md Hk]. by rewrite lookup_empty in Hk.
  - rewrite map_size_empty. lia.
  - unfold image_bytes. rewrite map_to_list_empty. cbn. unfold maxStoredImageMediaBytes. lia.
  - apply map_Forall_empty.
  - rewrite map_size_empty. lia.
  - rewrite map_size_empty. lia.
Qed.

Lemma delete_local_ok d ids at_ : database_ok d -> database_ok (deleteStoredMessagesLocally ids at_ d).
Proof.
  intros H. unfold deleteStoredMessagesLocally. destruct (uniqueMessageIds ids) as [|x l] eqn:E; [done |]. rewrite <- E. clear E.
  apply delete_targets_ok; [by apply delete_ids_text_ok | |].
  - intros k t. rewrite delete_ids_lookup. by case_bool_decide.
  - apply delete_ids_size.
Qed.

Lemma delete_for_contact_ok d c at_ : database_ok d -> database_ok (deleteStoredMessagesForContact c at_ d).
Proof.
  intros H. destruct (contact_deletion_spec c at_ d) as ((m & t & h & E) & Hm & Ht). rewrite E in *. cbn in Hm, Ht.
  apply delete_text_ok; [done | |].
  - intros k x. rewrite Hm. by destruct (mine c d k).
  - intros k r. rewrite Ht, Hm. by destruct (mine c d k).
Qed.

Lemma media_none d (k : jsstring) :
  database_ok d -> Db.media d !! k = if bool_decide (Db.projections d !! k = None) then None else Db.media d !! k.
Proof.
  intros H. destruct (Db.projections d !! k) as [s|] eqn:Ep; [done |].
  destruct (Db.media d !! k) as [md|] eqn:Em; [| done]. destruct (ok_media d H k) as [s Hs]; [eauto | congruence].
Qed.

Lemma delete_image_ids_ok d ids : database_ok d -> database_ok (deleteStoredImageMessages ids d).
Proof.
  intros H. apply delete_images_ok; [done | | | | apply delete_ids_size | by apply delete_ids_bytes, projections_nonneg].
  - intros k s. rewrite delete_ids_lookup. by case_bool_decide.
  - intros k. rewrite !delete_ids_lookup. destruct (bool_decide (k ∈ _)) eqn:E; [by rewrite bool_decide_eq_true_2 |].
    by apply media_none.
  - intros k r. rewrite !delete_ids_lookup. by case_bool_decide.
Qed.

Lemma delete_contact_images_ok d c : database_ok d -> database_ok (deleteStoredImageMessagesForContact c d).
Proof.
  intros H. unfold deleteStoredImageMessagesForContact. destruct (boundedId c); cbn [negb]; [| done].
  set (of_contact r := str_eqb (Projection.contactId (Stored.projection r)) c).
  set (ids := (keep (fun e => of_contact e.2) (index_order (fun _ => 0) (Db.projections d))).*1).
  assert (Hids : forall k, k ∈ ids <-> exists s, Db.projections d !! k = Some s /\ of_contact s = true).
  { intros k. unfold ids. rewrite list_elem_of_fmap. split.
    - intros ([k' s] & -> & [Hp Hin%elem_of_index_order]%elem_of_keep). by exists s.
    - intros (s & Hs & Hp). exists (k, s). split; [done |]. apply elem_of_keep. split; [done |]. by apply elem_of_index_order. }
  assert (Hp : forall k, delete_where of_contact (Db.projections d) !! k
               = if bool_decide (k ∈ ids) then None else Db.projections d !! k).
  { intros k. rewrite delete_where_lookup. destruct (Db.projections d !! k) as [s|] eqn:E; [| by destruct (bool_decide _)].
    destruct (of_contact s) eqn:Eo; [rewrite bool_decide_eq_true_2; [done | apply Hids; by exists s] |].
    rewrite bool_decide_eq_false_2; [done |]. intros (s' & Hs' & Ho)%Hids. congruence. }
  change (database_ok (on_image_stores (delete_where of_contact) (delete_ids ids) (delete_ids ids) d)).
  clearbody ids. apply delete_images_ok; [done | | | | apply delete_where_size | by apply delete_where_bytes, projections_nonneg].
  - intros k s. rewrite Hp. by case_bool_decide.
  - intros k. rewrite Hp, delete_ids_lookup. destruct (bool_decide (k ∈ ids)) eqn:E; [by rewrite bool_decide_eq_true_2 |].
    by apply media_none.
  - intros k r. rewrite Hp, delete_ids_lookup. by case_bool_decide.
Qed.

Lemma clear_images_ok d : database_ok d -> database_ok (clearStoredImageMessages d).
Proof.
  intros H. apply delete_images_ok; [done | | | | rewrite map_size_empty; lia |].
  - intros k s. by rewrite lookup_empty.
  - intros k. rewrite !lookup_empty. by rewrite bool_decide_eq_true_2.
  - intros k r. rewrite delete_where_lookup. destruct (Db.timeline d !! k) as [r'|]; [| done].
    destruct (is_image_record r') eqn:E; [done |]. intros [= <-]. split; [done |]. by rewrite E.
  - unfold image_bytes at 1. rewrite map_to_list_empty. cbn.
    pose proof (projections_nonneg d H) as Hn. unfold image_bytes.
    assert (Hf : Forall (fun s => 0 <= projection_bytes s) (map_to_list (Db.projections d)).*2).
    { apply Forall_fmap, Forall_forall. intros [k s] Hk%elem_of_map_to_list. by apply (Hn k s). }
    induction Hf as [|s l Hs _ IH]; unfold stored_bytes in *; cbn [foldr]; lia.
Qed.

Lemma database_ok_step d t : valid_transaction t = true -> database_ok d -> database_ok (run_transaction d t).
Proof.
  intros Hv H. destruct t; cbn [run_transaction]; try (by apply profile_stores_ok).
  - unfold saveStoredMessage. case_match; [done | by apply put_text_ok].
  - by apply delete_local_ok.
  - enough (H' : database_ok (on_text_stores (delete previousMessageId) (delete previousMessageId) (fun v => v) d))
      by exact (put_text_ok _ replacement H').
    apply delete_text_ok; [done | by intros k x [_ Hx]%lookup_delete_Some |].
    intros k r [Hne Hr]%lookup_delete_Some. split; [done | by rewrite lookup_delete_ne].
  - by apply delete_for_contact_ok.
  - by apply store_image_ok.
  - by apply delete_image_ids_ok.
  - by apply delete_contact_images_ok.
  - by apply clear_images_ok.
  - by apply save_target_ok.
  - apply delete_targets_ok; [done | by intros k t [_ Ht]%lookup_delete_Some | apply delete_size].
  - apply delete_targets_ok; [done | | apply delete_where_size].
    intros k t. rewrite delete_where_lookup. destruct (Db.deliveryTargets d !! k); [by case_match | done].
  - apply receipt_stores_ok; [done |]. rewrite keep_first_size by apply index_order_perm. lia.
  - unfold findTerminalReadTarget. pose proof (ok_terminal_count d H).
    pose proof (delete_size targetDeliveryId (Db.terminalReadTargets d)).
    repeat case_match; try done; (apply receipt_stores_ok; [done | lia]).
  - apply receipt_stores_ok; [done |]. etrans; [apply delete_where_size | by apply ok_terminal_count].
  - by apply delete_targets_ok.
  - by apply delete_targets_ok.
  - unfold saveStoredReadReceipt. case_match; [| done]. apply receipt_stores_ok; [done | by apply ok_terminal_count].
  - apply receipt_stores_ok; [done | by apply ok_terminal_count].
  - apply receipt_stores_ok; [done | by apply ok_terminal_count].
  - apply receipt_stores_ok; [done | by apply ok_terminal_count].
  - unfold claimStoredReceivedApplicationMessage. case_match; [done |]. apply receipt_stores_ok; [done | by apply ok_terminal_count].
  - apply import_ok.
Qed.

Lemma empty_database_ok : database_ok empty_database.
Proof.
  constructor; cbn [empty_database Db.timeline Db.messages Db.projections Db.media Db.deliveryTargets Db.terminalReadTargets].
  - apply map_Forall_empty.
  - apply map_Forall_empty.
  - apply map_Forall_empty.
  - intros k [md Hk]. by rewrite lookup_empty in Hk.
  - rewrite map_size_empty. lia.
  - by vm_compute.
  - apply map_Forall_empty.
  - rewrite map_size_empty. lia.
  - rewrite map_size_empty. lia.
Qed.

(** C23: in every database that transactions make from the empty one, a record
    of the timeline shows a message or an image that is stored with the same
    identifier, contact and time; every image has bytes of the announced length and no
    bytes are left without their image; at most 256 images of 64 MiB together are
    kept; a message has between one and eight distinct delivery identifiers, and
    the two tables of targets hold at most 128 records each. *)
Theorem database_invariant (ts : list transaction) (Hts : forallb valid_transaction ts = true) :
  database_ok (run_transactions empty_database ts).
Proof.
  pose proof empty_database_ok as H. revert H Hts. generalize empty_database. induction ts as [|t ts IH]; intros d H Hts; [done |].
  cbn [forallb] in Hts. bool_props. apply IH; [by apply database_ok_step | done].
Qed.

Lemma database_invariant_witness : database_ok (run_transactions empty_database
  [tx_save_message (sample_text (js "m1") (js "alice") 10 d_pending); tx_save_target (js "m1") (js "alice") (js "d1") 11;
   tx_delete_for_contact (js "alice") 20]).
Proof. apply database_invariant. vm_compute. reflexivity. Defined.

(** ** Records that are lost *)

Definition numbered (k : nat) : jsstring := [Z.of_nat k].

(** The tables of targets keep their oldest records: with 128 older ones, a
    target is gone as soon as it is saved. *)
Lemma newest_target_lost (d : LocalDatabase) (m c i : jsstring) (at_ : Z) :
  (forall k t, Db.deliveryTargets d !! k = Some t -> Target.createdAt t < at_) ->
  (maxStoredMessageDeliveryTargets <= size (delete m (Db.deliveryTargets d)))%nat ->
  Db.deliveryTargets (saveStoredMessageDeliveryTarget m c i at_ d) !! m = None.
Proof.
  intros Hold Hfull. destruct (Db.deliveryTargets (saveStoredMessageDeliveryTarget m c i at_ d) !! m) as [t|] eqn:E; [| done].
  exfalso. cbn [saveStoredMessageDeliveryTarget on_delivery_stores Db.deliveryTargets] in E. unfold trimStoredTargets in E.
  apply keep_oldest in E as [Hm Hlt]. rewrite lookup_insert_eq in Hm. injection Hm as <-. unfold before_in in Hlt.
  fold (count_records (fun y => index_ltb Target.createdAt y (m, Target.mk m c (rememberedDeliveryIds
    match Db.deliveryTargets d !! m with Some t => Target.deliveryIds t | None => [] end i) at_)) 
    (<[m := Target.mk m c (rememberedDeliveryIds match Db.deliveryTargets d !! m with Some t => Target.deliveryIds t | None => [] end i) at_]>
       (Db.deliveryTargets d))) in Hlt.
  rewrite (count_delete _ _ m _ (lookup_insert_eq _ _ _)), index_ltb_irrefl, delete_insert_eq in Hlt.
  rewrite count_all in Hlt; [cbn in Hlt; lia |]. intros [k t] [_ Ht]%lookup_delete_Some. apply index_ltb_spec. left. cbn. by eapply Hold.
Qed.

Example newest_terminal_target_lost :
  let d := foldl (fun d k => rememberTerminalReadTarget (Terminal.mk (numbered k) (js "alice") (Z.of_nat k)) d) empty_database (seq 0 129) in
  Db.terminalReadTargets d !! numbered 128 = None /\ is_Some (Db.terminalReadTargets d !! numbered 0).
Proof. vm_compute. split; eauto. Qed.

(** A stored message is found by its application identifier, an imported one is not. *)
Example imported_reply_target_lost :
  let m := sample_text (js "m1") (js "alice") 10 d_pending in
  let s := mkSnapshot (Identity.mk [] [] 0 [] 0 None 0) [] [m] [] [] in
  is_Some (loadStoredTimelineEntryByApplicationMessageId (js "m1") (saveStoredMessage m empty_database))
  /\ loadStoredTimelineEntryByApplicationMessageId (js "m1") (replacePortableProfileSnapshot s empty_database) = None.
Proof. vm_compute. split; eauto. Qed.

(** Nor is an image: its record has no application identifier. *)
Definition sample_image : ImageMessageProjection :=
  Projection.mk (js "i1") (js "alice") outgoing (Int 10) (js "image/png") (Int 3) (Int 1) (Int 1) None None.

Example image_reply_target_lost :
  (storeVerifiedImageMessage sample_image [1; 2; 3] 10 empty_database).1 = im_stored
  /\ let d := (storeVerifiedImageMessage sample_image [1; 2; 3] 10 empty_database).2 in
     loadStoredTimelineEntryByApplicationMessageId (js "i1") d = None
     /\ length (entries (loadStoredTimelinePage (js "alice") None 1 d)) = 1%nat.
Proof. vm_compute. repeat split. Qed.
