(* ===== verification/TimelinePages.v ===== *)
(** * Reading a conversation page by page

    The pages of [messages-store.ts] against the conversation as one list: a
    reader starts each page where the oldest entry of the previous one left off. *)
From Stdlib Require Import Sorting.Sorted.
From S2P Require Import Prelude JsRuntime Collections Image Admission AppStore AppStoreFacts LocalDatabase DatabaseCursors LocalDatabaseFacts DatabaseInvariant.

(** ** A reader *)

Definition entry_cursor (e : ConversationTimelineEntry) : ConversationTimelineCursor :=
  match e with entry_text _ i t | entry_image _ i t => mkCursor t i end.

(** The latest page, then older pages in front of it while there are any. *)
Fixpoint load_conversation (fuel : nat) (contactId : jsstring) (before : option ConversationTimelineCursor) (limit : Z)
    (d : LocalDatabase) : list ConversationTimelineEntry :=
  let page := loadStoredTimelinePage contactId before limit d in
  match fuel, hasOlder page, entries page with
  | S fuel, true, oldest :: _ =>
      load_conversation fuel contactId (Some (entry_cursor oldest)) conversationTimelinePageEntries d ++ entries page
  | _, _, _ => entries page
  end.

(** ** The conversation as one list *)

Definition conversation_records (c : jsstring) (d : LocalDatabase) : list (jsstring * TimelineRecord) :=
  keep (in_range (0, []) last_position false false) (chronology c (Db.timeline d)).

Definition conversation (c : jsstring) (d : LocalDatabase) : list ConversationTimelineEntry :=
  omap (fun e => timelineEntry e.2) (conversation_records c d).

(** ** Sorted prefixes *)

Lemma StronglySorted_sublist {A} (R : A -> A -> Prop) (l k : list A) :
  sublist l k -> StronglySorted R k -> StronglySorted R l.
Proof.
  intros Hs. induction Hs as [|x l k Hs IH|x l k Hs IH]; intros H; [done | |].
  - inversion H as [|? ? Hk Hf]; subst. constructor; [by apply IH |]. eapply Forall_sublist; [exact Hs | done].
  - inversion H; subst. by apply IH.
Qed.

Lemma keep_keep {A} (p q : A -> bool) l : keep p (keep q l) = keep (fun x => q x && p x) l.
Proof.
  induction l as [|x l IH]; [done |]. rewrite !keep_cons. destruct (q x); cbn [andb]; [| done]. rewrite keep_cons, IH.
  by destruct (p x).
Qed.

Lemma keep_ext {A} (p q : A -> bool) l : (forall x, x ∈ l -> p x = q x) -> keep p l = keep q l.
Proof.
  induction l as [|x l IH]; intros H; [done |]. rewrite !keep_cons, (H x) by set_solver. rewrite IH; [done |]. set_solver.
Qed.

(** In a strictly sorted list, what lies before and after an element. *)
Lemma keep_sorted_split {A} (lt : A -> A -> bool) (l : list A) i x :
  StronglySorted (fun x y => lt x y = true) l -> (forall x, lt x x = false) -> (forall x y, lt x y = true -> lt y x = false) ->
  l !! i = Some x -> keep (fun y => lt y x) l = take i l /\ keep (lt x) l = drop (S i) l.
Proof.
  intros Hs Hi Ha. revert i. induction Hs as [|y l Hs IH Hf]; intros i Hx; [done |].
  rewrite Forall_forall in Hf. rewrite !keep_cons. destruct i as [|i]; cbn in Hx.
  - injection Hx as ->. rewrite Hi. cbn [take drop]. split.
    + apply keep_none, Forall_forall. intros z Hz. by apply Ha, Hf.
    + apply keep_all, Forall_forall. apply Hf.
  - assert (Hin : x ∈ l) by (by eapply list_elem_of_lookup_2). rewrite (Hf x Hin), (Ha y x (Hf x Hin)).
    destruct (IH i Hx) as [E1 E2]. cbn [take]. rewrite E1, E2. done.
Qed.

(** An entry of the image of a list comes from one place of it. *)
Lemma omap_split {A B} (f : A -> option B) (l : list A) j e :
  omap f l !! j = Some e ->
  exists i x, l !! i = Some x /\ f x = Some e /\ omap f (take i l) = take j (omap f l)
              /\ omap f (drop (S i) l) = drop (S j) (omap f l).
Proof.
  revert j. induction l as [|y l IH]; intros j; cbn [omap list_omap]; [done |]. destruct (f y) as [z|] eqn:E.
  - destruct j as [|j]; cbn.
    + intros [= ->]. exists 0%nat, y. done.
    + intros H. destruct (IH j H) as (i & x & Hx & Hf & H1 & H2). exists (S i), x. split; [done |]. split; [done |].
      cbn [take drop omap list_omap]. rewrite E. split; [by f_equal | done].
  - intros H. destruct (IH j H) as (i & x & Hx & Hf & H1 & H2). exists (S i), x. split; [done |]. split; [done |].
    cbn [take drop omap list_omap]. by rewrite E.
Qed.

(** ** Positions *)

Lemma position_ltb_index x y :
  position_ltb (record_position x) (record_position y) = index_ltb Timeline.sentAt x y.
Proof.
  apply eq_bool_prop_intro. rewrite !Is_true_true, index_ltb_spec. unfold position_ltb, record_position. cbn.
  rewrite orb_true_iff, andb_true_iff, Z.ltb_lt, Z.eqb_eq. done.
Qed.

Lemma position_ltb_trans p q r : position_ltb p q = true -> position_ltb q r = true -> position_ltb p r = true.
Proof.
  unfold position_ltb. rewrite !orb_true_iff, !andb_true_iff, !Z.ltb_lt, !Z.eqb_eq.
  intros [|[]] [|[]]; [left; lia .. |]. right. split; [lia | by eapply js_ltb_trans].
Qed.

Lemma position_ltb_asym p q : position_ltb p q = true -> position_ltb q p = false.
Proof.
  intros H. destruct (position_ltb q p) eqn:E; [| done]. pose proof (position_ltb_trans p q p H E) as Hx.
  unfold position_ltb in Hx. rewrite Z.ltb_irrefl, js_ltb_irrefl, andb_false_r in Hx. done.
Qed.

Lemma conversation_sorted c d : StronglySorted (fun x y => index_ltb Timeline.sentAt x y = true) (conversation_records c d).
Proof.
  eapply StronglySorted_sublist; [| apply index_order_sorted]. unfold conversation_records, chronology, keep.
  etrans; apply sublist_filter.
Qed.

(** The records before and after one of the conversation, as the cursors select them. *)
Lemma range_before c d x :
  x ∈ conversation_records c d ->
  keep (in_range (0, []) (record_position x) false true) (chronology c (Db.timeline d))
  = keep (fun y => index_ltb Timeline.sentAt y x) (conversation_records c d).
Proof.
  intros [Hx _]%elem_of_keep. unfold conversation_records. rewrite keep_keep. apply keep_ext. intros y _.
  unfold in_range in *. cbn in *. bool_props. rewrite position_ltb_index.
  destruct (position_ltb (record_position y) (0, [])); [done |]. cbn.
  destruct (index_ltb Timeline.sentAt y x) eqn:E; [| by rewrite andb_false_r]. rewrite andb_true_r. symmetry. apply negb_true_iff.
  destruct (position_ltb last_position (record_position y)) eqn:El; [| done].
  rewrite <- position_ltb_index in E. pose proof (position_ltb_trans _ _ _ El E). congruence.
Qed.

Lemma range_after c d x :
  x ∈ conversation_records c d ->
  keep (in_range (record_position x) last_position true false) (chronology c (Db.timeline d))
  = keep (index_ltb Timeline.sentAt x) (conversation_records c d).
Proof.
  intros [Hx _]%elem_of_keep. unfold conversation_records. rewrite keep_keep. apply keep_ext. intros y _.
  unfold in_range in *. cbn in *. bool_props. rewrite position_ltb_index.
  destruct (index_ltb Timeline.sentAt x y) eqn:E; [| by rewrite andb_false_r]. cbn. rewrite andb_true_r.
  destruct (position_ltb (record_position y) (0, [])) eqn:El; [| done].
  rewrite <- position_ltb_index in E. pose proof (position_ltb_trans _ _ _ E El). congruence.
Qed.

Lemma entry_position x e :
  timelineEntry x.2 = Some e -> Timeline.messageId x.2 = x.1 ->
  (cursor_sentAt (entry_cursor e), cursor_messageId (entry_cursor e)) = record_position x
  /\ validTimelineCursor (entry_cursor e) = true.
Proof.
  unfold timelineEntry. intros H Hk. destruct (negb _ || negb _) eqn:E; [done |]. bool_props.
  assert (Hv : validTimelineCursor (mkCursor (Timeline.sentAt x.2) (Timeline.messageId x.2)) = true)
    by (unfold validTimelineCursor; cbn; apply andb_true_intro; by split).
  destruct (Timeline.content x.2); case_match; [| done | | done]; injection H as <-; cbn; unfold record_position; rewrite <- Hk; done.
Qed.

(** ** Pages *)

Section Pages.
Context (c : jsstring) (d : LocalDatabase) (valid_contact : validContactId c = true) (stored : database_ok d).

Abbreviation conv := (conversation c d).

(** Reading continues before the [j]-th entry. *)
Definition reads_before (before : option ConversationTimelineCursor) (j : nat) : Prop :=
  match before with
  | None => j = length conv
  | Some cursor => exists e, conv !! j = Some e /\ cursor = entry_cursor e
  end.

Lemma conversation_entry j e :
  conv !! j = Some e ->
  exists x, x ∈ conversation_records c d
    /\ omap (fun e => timelineEntry e.2) (keep (fun y => index_ltb Timeline.sentAt y x) (conversation_records c d)) = take j conv
    /\ omap (fun e => timelineEntry e.2) (keep (index_ltb Timeline.sentAt x) (conversation_records c d)) = drop (S j) conv
    /\ (cursor_sentAt (entry_cursor e), cursor_messageId (entry_cursor e)) = record_position x
    /\ validTimelineCursor (entry_cursor e) = true.
Proof.
  intros (i & x & Hx & Hf & Ht & Hd)%omap_split. exists x.
  assert (Hin : x ∈ conversation_records c d) by (by eapply list_elem_of_lookup_2). split; [done |].
  destruct (keep_sorted_split (index_ltb Timeline.sentAt) (conversation_records c d) i x) as [E1 E2];
    [apply conversation_sorted | apply index_ltb_irrefl | intros ? ?; apply index_ltb_asym | done |].
  rewrite E1, E2. split; [done |]. split; [done |]. apply entry_position; [done |].
  apply elem_of_keep in Hin as [_ Hin]. apply elem_of_keep in Hin as [_ Hin]. apply elem_of_index_order in Hin.
  destruct x as [k r]. by destruct (ok_timeline d stored k r Hin).
Qed.

Lemma page_spec before j limit :
  validTimelineLimit limit = true -> reads_before before j ->
  loadStoredTimelinePage c before limit d
  = mkPage (drop (j - Z.to_nat limit) (take j conv)) (Z.to_nat limit <? j)%nat.
Proof.
  intros Hl Hb. unfold loadStoredTimelinePage. rewrite valid_contact, Hl. cbn [negb orb].
  assert (Hf : omap (fun e => timelineEntry e.2)
     (reverse (keep (in_range (0, []) match before with None => last_position | Some c => (cursor_sentAt c, cursor_messageId c) end
        false match before with None => false | Some _ => true end) (chronology c (Db.timeline d)))) = reverse (take j conv)
     /\ (j <= length conv)%nat).
  { assert (Hr : forall l : list (jsstring * TimelineRecord), omap (fun e => timelineEntry e.2) (reverse l)
                 = reverse (omap (fun e => timelineEntry e.2) l)).
    { induction l as [|y l IH]; [done |]. rewrite reverse_cons, omap_app, IH. cbn [omap list_omap].
      destruct (timelineEntry y.2); [by rewrite reverse_cons | by rewrite app_nil_r]. }
    rewrite Hr. destruct before as [cursor|]; cbn [reads_before] in Hb.
    - destruct Hb as (e & He & ->). destruct (conversation_entry j e He) as (x & Hin & E1 & _ & -> & _).
      rewrite range_before by done. rewrite E1. split; [done |]. apply lookup_lt_Some in He. lia.
    - subst j. rewrite take_ge by lia. done. }
  destruct Hf as [-> Hj]. set (n := Z.to_nat limit).
  assert (Hlen : length (take j conv) = j) by (rewrite length_take; lia). f_equal.
  - rewrite take_take, Nat.min_l by lia. rewrite take_reverse, Hlen. by rewrite reverse_involutive.
  - rewrite length_take, length_reverse, Hlen. destruct (Nat.ltb_spec n ((n + 1) `min` j)), (Nat.ltb_spec n j); done || lia.
Qed.

Lemma after_spec j e limit :
  validTimelineLimit limit = true -> conv !! j = Some e ->
  loadStoredTimelineEntriesAfter c (entry_cursor e) limit d = take (Z.to_nat limit) (drop (S j) conv).
Proof.
  intros Hl He. destruct (conversation_entry j e He) as (x & Hin & _ & E2 & Ep & Ev).
  unfold loadStoredTimelineEntriesAfter. rewrite valid_contact, Ev, Hl, Ep. cbn [negb orb]. by rewrite range_after, E2.
Qed.

Lemma reader_spec fuel before j limit :
  validTimelineLimit limit = true -> reads_before before j -> (j <= fuel)%nat ->
  load_conversation fuel c before limit d = take j conv.
Proof.
  revert before j limit. induction fuel as [|fuel IH]; intros before j limit Hl Hb Hf; cbn [load_conversation];
    rewrite (page_spec before j limit) by done; cbn [hasOlder entries].
  - replace j with 0%nat by lia. done.
  - destruct (Nat.ltb_spec (Z.to_nat limit) j) as [Hlt|Hge].
    + assert (Hj : (j <= length conv)%nat).
      { destruct before as [cursor|]; cbn in Hb; [destruct Hb as (e & He & _); apply lookup_lt_Some in He; lia | lia]. }
      assert (Hpos : (0 < Z.to_nat limit)%nat) by (unfold validTimelineLimit in Hl; bool_props; lia).
      destruct (drop (j - Z.to_nat limit) (take j conv)) as [|oldest newer] eqn:E.
      { exfalso. apply (f_equal length) in E. rewrite length_drop, length_take in E. cbn in E. lia. }
      assert (Ho : conv !! (j - Z.to_nat limit)%nat = Some oldest).
      { pose proof (f_equal head E) as Eh. rewrite head_lookup, lookup_drop, lookup_take_lt in Eh by lia. cbn in Eh.
        by rewrite Nat.add_0_r in Eh. }
      rewrite (IH _ (j - Z.to_nat limit)%nat) by (done || lia || by exists oldest). rewrite <- E.
      rewrite <- (take_drop (j - Z.to_nat limit) (take j conv)) at 2. by rewrite take_take, Nat.min_l by lia.
    + replace (j - Z.to_nat limit)%nat with 0%nat by lia. done.
Qed.
End Pages.

(** C22: reading a conversation page by page, each page before the oldest entry of
    the previous one, gives every entry of the conversation once, in
    chronological order; a page never has more entries than asked for, says truly whether
    there are older ones, and the newer half around an entry is what follows it. *)
Theorem timeline_pages (c : jsstring) (d : LocalDatabase) (limit : Z) (fuel : nat)
    (Hc : validContactId c = true) (Hd : database_ok d) (Hl : validTimelineLimit limit = true)
    (Hf : (length (conversation c d) <= fuel)%nat) :
  load_conversation fuel c None limit d = conversation c d
  /\ StronglySorted (fun x y => index_ltb Timeline.sentAt x y = true) (conversation_records c d)
  /\ (forall j e, conversation c d !! j = Some e ->
        loadStoredTimelinePage c (Some (entry_cursor e)) limit d
        = mkPage (drop (j - Z.to_nat limit) (take j (conversation c d))) (Z.to_nat limit <? j)%nat
        /\ loadStoredTimelineEntriesAfter c (entry_cursor e) limit d
           = take (Z.to_nat limit) (drop (S j) (conversation c d))).
Proof.
  split; [| split; [apply conversation_sorted |]].
  - rewrite (reader_spec c d Hc Hd fuel None (length (conversation c d)) limit) by done. by rewrite firstn_all.
  - intros j e He. split; [apply page_spec; [done | done | done | by exists e] | by apply after_spec].
Qed.

Definition paged_database : LocalDatabase :=
  run_transactions empty_database
    [tx_save_message (sample_text (js "m2") (js "alice") 11 d_pending); tx_save_message (sample_text (js "m1") (js "alice") 10 d_pending);
     tx_save_message (sample_text (js "m3") (js "alice") 11 d_pending); tx_save_message (sample_text (js "m4") (js "bob") 12 d_pending)].

Example paged_conversation :
  cursor_messageId <$> (entry_cursor <$> load_conversation 3 (js "alice") None 1 paged_database) = [js "m1"; js "m2"; js "m3"].
Proof. vm_compute. reflexivity. Qed.

Lemma paged_database_ok : database_ok paged_database.
Proof. unfold paged_database, run_transactions. cbn [foldl]. do 4 (apply database_ok_step; [done |]). apply empty_database_ok. Qed.

Lemma timeline_pages_witness :
  load_conversation 3 (js "alice") None 1 paged_database = conversation (js "alice") paged_database
  /\ StronglySorted (fun x y => index_ltb Timeline.sentAt x y = true) (conversation_records (js "alice") paged_database)
  /\ (forall j e, conversation (js "alice") paged_database !! j = Some e ->
        loadStoredTimelinePage (js "alice") (Some (entry_cursor e)) 1 paged_database
        = mkPage (drop (j - Z.to_nat 1) (take j (conversation (js "alice") paged_database))) (Z.to_nat 1 <? j)%nat
        /\ loadStoredTimelineEntriesAfter (js "alice") (entry_cursor e) 1 paged_database
           = take (Z.to_nat 1) (drop (S j) (conversation (js "alice") paged_database))).
Proof.
  apply (timeline_pages (js "alice") paged_database 1 3).
  - vm_compute. reflexivity.
  - apply paged_database_ok.
  - vm_compute. reflexivity.
  - apply (bool_decide_eq_true_1 (_ <= _)%nat). vm_compute. reflexivity.
Defined.
