(* ===== verification/ReceivedClaims.v ===== *)
(** * [received-application-messages-store.ts]: claims of received messages

    A message is shown when its identifier is claimed; the bounded table forgets
    the oldest claims. *)
From S2P Require Import Prelude JsRuntime Collections AppStore AppStoreFacts LocalDatabase DatabaseCursors LocalDatabaseFacts.

Definition claim_all (d : LocalDatabase) (claims : list (jsstring * Z)) : LocalDatabase :=
  foldl (fun d e => (claimStoredReceivedApplicationMessage e.1 e.2 d).2) d claims.

Definition newer_received (i : jsstring) (at_ : Z) (d : LocalDatabase) : nat :=
  count_records (index_ltb id (i, at_)) (Db.received d).

Lemma oldest_spec (m : object_store Z) x :
  head (index_order id m) = Some x ->
  m !! x.1 = Some x.2 /\ count_records (index_ltb id x) m = (size m - 1)%nat.
Proof.
  intros H. assert (Hs : x ∈ index_order id m /\ forall y, y ∈ index_order id m -> y = x \/ index_ltb id x y = true).
  { destruct (head_keep_sorted (index_ltb id) (fun _ => true) (index_order id m) x) as (Hx & _ & Hmin).
    - apply index_order_sorted.
    - rewrite keep_all; [done | by apply Forall_true].
    - split; [done |]. intros y Hy. by apply Hmin. }
  destruct Hs as [Hx Hmin]. apply elem_of_index_order in Hx. split; [done |].
  rewrite (count_delete _ m x.1 x.2 Hx). destruct x as [k v]. cbn [fst snd] in *. rewrite index_ltb_irrefl.
  rewrite count_all; [by rewrite map_size_delete_Some by done; lia |].
  intros y [Hne Hy]%lookup_delete_Some. destruct (Hmin y) as [->|]; [by apply elem_of_index_order | done | done].
Qed.

Lemma claim_size k t d :
  (size (Db.received d) <= maxStoredReceivedApplicationMessages)%nat ->
  (size (Db.received (claimStoredReceivedApplicationMessage k t d).2) <= maxStoredReceivedApplicationMessages)%nat.
Proof.
  intros Hs. unfold claimStoredReceivedApplicationMessage, hasStoredReceivedApplicationMessage. case_bool_decide as Hk; [done |].
  cbn [snd on_receipt_stores Db.received]. apply eq_None_not_Some in Hk.
  destruct (Nat.ltb_spec (size (Db.received d)) maxStoredReceivedApplicationMessages) as [Hlt|Hge].
  - rewrite map_size_insert_None by done. lia.
  - destruct (head (index_order id (Db.received d))) as [x|] eqn:E.
    + destruct (oldest_spec _ _ E) as [Hx _]. rewrite map_size_insert_None by (apply lookup_delete_None; by right).
      rewrite map_size_delete_Some by done. unfold maxStoredReceivedApplicationMessages in *. lia.
    + exfalso. pose proof (index_order_length id (Db.received d)) as Hl.
      destruct (index_order id (Db.received d)); [cbn in Hl; unfold maxStoredReceivedApplicationMessages in Hge; lia | done].
Qed.

Lemma claim_keeps (i : jsstring) (at_ : Z) k t d :
  Db.received d !! i = Some at_ -> (S (newer_received i at_ d) < maxStoredReceivedApplicationMessages)%nat ->
  Db.received (claimStoredReceivedApplicationMessage k t d).2 !! i = Some at_
  /\ (newer_received i at_ (claimStoredReceivedApplicationMessage k t d).2 <= S (newer_received i at_ d))%nat.
Proof.
  intros Hi Hn. unfold claimStoredReceivedApplicationMessage, hasStoredReceivedApplicationMessage, newer_received in *.
  case_bool_decide as Hk; [cbn [snd]; split; [done | lia] |]. cbn [snd on_receipt_stores Db.received].
  assert (Hne : k <> i) by (intros ->; by apply Hk; exists at_).
  set (m := if (_ <? _)%nat then _ else _).
  assert (Hm : m !! i = Some at_ /\ (count_records (index_ltb id (i, at_)) m
                                     <= count_records (index_ltb id (i, at_)) (Db.received d))%nat).
  { unfold m. destruct (Nat.ltb_spec (size (Db.received d)) maxStoredReceivedApplicationMessages) as [Hlt|Hge]; [by split |].
    destruct (head (index_order id (Db.received d))) as [x|] eqn:E; [| by split].
    destruct (oldest_spec _ _ E) as [Hx Hc]. split; [| apply count_delete_le].
    rewrite lookup_delete_ne; [done |]. intros Ex. destruct x as [k' v]. cbn in *. subst k'.
    assert (v = at_) as -> by congruence. lia. }
  destruct Hm as [Hm1 Hm2]. split; [by rewrite lookup_insert_ne |].
  pose proof (count_insert_le (index_ltb id (i, at_)) m k t). lia.
Qed.

(** C24: once a received message is claimed, no later claim of its identifier
    succeeds, whatever is claimed in between, as long as fewer than 4096 records
    of the table are newer; the table never has more than 4096 records. *)
Theorem claimed_once (d : LocalDatabase) (i : jsstring) (at_ : Z) (claims : list (jsstring * Z)) (t : Z)
    (Hs : (size (Db.received d) <= maxStoredReceivedApplicationMessages)%nat)
    (Hc : (claimStoredReceivedApplicationMessage i at_ d).1 = true)
    (Hn : (newer_received i at_ (claimStoredReceivedApplicationMessage i at_ d).2 + length claims
           < maxStoredReceivedApplicationMessages)%nat) :
  let d' := claim_all (claimStoredReceivedApplicationMessage i at_ d).2 claims in
  claimStoredReceivedApplicationMessage i t d' = (false, d')
  /\ (size (Db.received d') <= maxStoredReceivedApplicationMessages)%nat.
Proof.
  cbv zeta. assert (H0 : Db.received (claimStoredReceivedApplicationMessage i at_ d).2 !! i = Some at_).
  { unfold claimStoredReceivedApplicationMessage in *. case_match; [done |]. apply lookup_insert_eq. }
  pose proof (claim_size i at_ d Hs) as Hs1. revert H0 Hn Hs1. clear Hs Hc.
  generalize (claimStoredReceivedApplicationMessage i at_ d).2. clear d. intros d. revert d.
  induction claims as [|[k u] claims IH]; intros d H0 Hn Hs; cbn [claim_all foldl length fst snd] in *.
  - split; [| done]. unfold claimStoredReceivedApplicationMessage, hasStoredReceivedApplicationMessage.
    by rewrite bool_decide_eq_true_2 by (rewrite H0; eauto).
  - destruct (claim_keeps i at_ k u d H0) as [H1 H2]; [lia |]. apply IH; [done | lia | by apply claim_size].
Qed.

Lemma claimed_once_witness :
  let d' := claim_all (claimStoredReceivedApplicationMessage (js "m1") 5 empty_database).2 [(js "m2", 6); (js "m1", 7)] in
  claimStoredReceivedApplicationMessage (js "m1") 8 d' = (false, d')
  /\ (size (Db.received d') <= maxStoredReceivedApplicationMessages)%nat.
Proof.
  apply (claimed_once empty_database (js "m1") 5 [(js "m2", 6); (js "m1", 7)] 8).
  - apply (bool_decide_eq_true_1 (_ <= _)%nat). vm_compute. reflexivity.
  - vm_compute. reflexivity.
  - apply (bool_decide_eq_true_1 (_ < _)%nat). vm_compute. reflexivity.
Defined.
