(* ===== verification/RelayFrames.v ===== *)
(** * What a relay frame is: a schema per frame type, and the validators' contract

    A schema lists the keys that must be there, the shape of every field and
    of the optional ones, and a rule between fields.  [frame_schemas] gives the
    schemas of each frame type (two for the types with two forms), and
    [tolerated_schemas] the two forms that the code takes as well although the
    protocol documents refuse them: a [RENDEZVOUS] with route hints and an
    [ERROR] whose detail is longer than 256 bytes.  The theorem
    [validateDraftRelayAttachmentFrame_spec] says that the validators of
    [protocol/v0/relay-attachment.ts] accept exactly the objects that conform
    to one of them. *)
From Stdlib Require Import Sorting.Sorted.
From S2P Require Import Prelude JsRuntime Collections Base64Url Json Envelope RelayAttachment.

(** ** Shapes of a field *)

Definition shape : Type := json -> Prop.

Definition token_v (n : Z) : shape := fun v => exists t, v = JStr t /\ is_token n t.
Definition int_v (lo hi : Z) : shape := fun v => exists z, v = JNum (Int z) /\ int_within lo hi z.
Definition nat_v : shape := int_v 0 maxDraftTimestamp.
Definition bool_v : shape := fun v => exists b, v = JBool b.
Definition literal_v (s : jsstring) : shape := fun v => v = JStr s.
Definition one_of_v (l : list jsstring) : shape := fun v => exists s, v = JStr s /\ s ∈ l.
Definition base64_v (max : Z) : shape :=
  fun v => exists s, v = JStr s /\ text_within max s /\ Base64Url.validBase64URL s = true.
(** The text of an error, at most 256 bytes. *)
Definition detail_v : shape := fun v => exists s, v = JStr s /\ text_within 256 s.

(** What only the code takes for one: at most 256 UTF-16 units, but more bytes. *)
Definition long_detail_v : shape :=
  fun v => exists s, v = JStr s /\ zlen s <= 256 < zlen (utf8_encode s) /\ zlen (utf8_encode s) <= maxDraftStringBytes.

(** [br1.] followed by a SHA-256 multihash. *)
Definition branch_id (s : jsstring) : Prop :=
  text_within maxDraftStringBytes s
  /\ exists digest, zlen digest = 32 /\ exists t, s = js "br1." ++ t /\ decodeBase64URL t = Ok (0x12 :: 0x20 :: digest).
Definition branch_id_v : shape := fun v => exists s, v = JStr s /\ branch_id s.

Definition wrapper_within (max : Z) (s : jsstring) : Prop :=
  zlen (utf8_encode s) <= max /\ exists body, s = branchTextWrapperPrefix ++ body.
Definition wrapper_v (max : Z) : shape := fun v => exists s, v = JStr s /\ wrapper_within max s.
Definition records_v : shape :=
  fun v => exists l, v = JArr l /\ zlen l <= maxDraftIdentityRecords
                     /\ Forall (wrapper_v maxDraftIdentityWrapperBytes) l.

(** An ordered set of texts, in strictly increasing order. *)
Definition ordered_v (max : Z) (has : list jsstring) : shape := fun v =>
  exists l, v = JArr (JStr <$> l) /\ zlen l <= max /\ Forall (text_within maxDraftStringBytes) l
            /\ StronglySorted (fun a b => js_ltb a b = true) l /\ Forall (fun s => s ∈ l) has.

(** ** Schemas *)

Record schema := mkSchema {
  s_keys : list jsstring;
  s_fields : list (jsstring * shape);
  s_optional : list (jsstring * shape);
  s_rule : object -> Prop;
}.

Definition conforms (s : schema) (o : object) : Prop :=
  has_keys o (s_keys s)
  /\ keys_within o (s_keys s ++ map fst (s_optional s))
  /\ Forall (fun f => f.2 (prop o f.1)) (s_fields s)
  /\ Forall (fun f => prop o f.1 = JUndefined \/ f.2 (prop o f.1)) (s_optional s)
  /\ s_rule s o.

Definition object_v (s : schema) : shape := fun v => exists o, v = JObj o /\ conforms s o.

Definition plain (keys : list jsstring) (fields : list (jsstring * shape)) : schema :=
  mkSchema keys fields [] (fun _ => True).

Definition offer_schema : schema := plain offerKeys
  [(js "wire_version", int_v 0 0); (js "protocol", literal_v protocolID);
   (js "profile_multihash", literal_v developmentProfileMultihash);
   (js "capabilities", ordered_v 32 [relayForwardLiveRole]); (js "required_capabilities", ordered_v 32 []);
   (js "extensions", ordered_v 32 []); (js "required_extensions", ordered_v 32 [])].

Definition offers_v : shape := fun v =>
  exists l, v = JArr l /\ 1 <= zlen l <= 8 /\ Forall (object_v offer_schema) l.

Definition limits_schema : schema := plain limitKeys
  [(js "max_frame_bytes", int_v 1 49152); (js "max_queue_depth", int_v 1 1024);
   (js "max_frames_per_session", int_v 1 maxDraftTimestamp);
   (js "max_bytes_per_session", int_v 1 maxDraftTimestamp)].

(** [expires_at] is after [issued_at], by at most [bound]. *)
Definition lifetime (bound : Z) (o : object) : Prop :=
  exists i x, prop o (js "issued_at") = JNum (Int i) /\ prop o (js "expires_at") = JNum (Int x)
              /\ i < x <= i + bound.

Section Schemas.
Context (parse_URL : jsstring -> option URL).

Definition hint_uri (transport uri : jsstring) : Prop :=
  zlen (utf8_encode uri) <= maxDraftRouteHintUriBytes
  /\ exists u, parse_URL uri = Some u /\ url_protocol u = transport ++ js ":" /\ url_host u <> []
       /\ url_username u = [] /\ url_password u = [] /\ url_hash u = []
       /\ url_pathname u = draftRelayAttachmentPath.

Definition hint_schema (transport uri : jsstring) : schema := plain hintKeys
  [(js "transport", literal_v transport); (js "uri", literal_v uri);
   (js "relay_public_key", token_v 32); (js "priority", nat_v)].

(** Hints of distinct transports and addresses. *)
Definition hints_v : shape := fun v =>
  exists l places, v = JArr l /\ 1 <= zlen l <= maxDraftRouteHints /\ NoDup places
    /\ Forall2 (fun h p => object_v (hint_schema p.1 p.2) h /\ p.1 ∈ [js "wss"; js "ws"]
                           /\ text_within maxDraftStringBytes p.2 /\ hint_uri p.1 p.2) l places.

Definition session : jsstring * shape := (js "session_id", token_v 32).
Definition route : jsstring * shape := (js "route_id", token_v 16).
Definition peer : jsstring * shape := (js "peer_id", token_v 32).
Definition sequence : jsstring * shape := (js "sequence", nat_v).

Definition hello_fields (role : jsstring) : list (jsstring * shape) :=
  [(js "client_nonce", token_v 32); (js "client_time", nat_v); (js "requested_role", literal_v role);
   (js "max_frame_bytes", int_v 1 49152); (js "offers", offers_v)].

Definition frame_schemas (type : RelayFrameType) : list schema :=
  match type with
  | HELLO =>
      [plain helloKeys (hello_fields relayForwardLiveRole);
       plain federationHelloKeys
         ((js "relay_beacon", wrapper_v maxDraftStringBytes) :: hello_fields relayFederationLiveRole)]
  | CHALLENGE =>
      [mkSchema challengeKeys
         [(js "client_nonce", token_v 32); (js "relay_nonce", token_v 32); (js "issued_at", nat_v);
          (js "expires_at", nat_v); (js "relay_public_key", token_v 32);
          (js "selected", object_v offer_schema); (js "transcript_hash", token_v 32);
          (js "relay_proof", token_v 64)] [] (lifetime 60)]
  | AUTH =>
      [plain authKeys
         [(js "client_public_key", token_v 32); (js "client_nonce", token_v 32);
          (js "relay_nonce", token_v 32); (js "transcript_hash", token_v 32); (js "client_proof", token_v 64)]]
  | READY =>
      [plain readyKeys
         [session; route; (js "presence_ttl_seconds", int_v 1 300);
          (js "heartbeat_interval_seconds", int_v 1 60); (js "accepted_limits", object_v limits_schema)]]
  | PRESENCE =>
      [plain presenceKeys [session; route; peer; sequence; (js "ttl_seconds", int_v 1 300); (js "sent_at", nat_v)]]
  | HEARTBEAT => [plain heartbeatKeys [session; sequence; (js "sent_at", nat_v)]]
  | LOOKUP => [plain lookupKeys [session; peer; sequence]]
  | IDENTITY_WANT =>
      [mkSchema wantKeys [session; (js "branch_id", branch_id_v); sequence; (js "hop_limit", int_v 0 4)] []
         (fun o => prop o (js "request_id") = JUndefined /\ prop o (js "origin_relay_key") = JUndefined);
       plain federatedWantKeys
         [(js "request_id", token_v 16); (js "origin_relay_key", token_v 32); session;
          (js "branch_id", branch_id_v); sequence; (js "hop_limit", int_v 0 1)]]
  | IDENTITY_HAVE => [plain haveKeys [session; (js "branch_id", branch_id_v); sequence; (js "records", records_v)]]
  | CONTACT_ANNOUNCE => [plain announceKeys [session; (js "discoverable", bool_v); sequence]]
  | CONTACT_LOOKUP =>
      [mkSchema contactLookupKeys
         [session; (js "request_id", token_v 16); (js "branch_id", branch_id_v);
          (js "requester_hpke_public_key", token_v 32); (js "issued_at", nat_v); (js "expires_at", nat_v)]
         [] (lifetime 60000)]
  | CONTACT_PROBE =>
      [mkSchema contactProbeKeys
         [session; (js "request_id", token_v 16); (js "branch_id", branch_id_v);
          (js "requester_peer_id", token_v 32); (js "requester_hpke_public_key", token_v 32);
          (js "issued_at", nat_v); (js "expires_at", nat_v)] [] (lifetime 60000)]
  | RENDEZVOUS => [plain rendezvousKeys [session; route; peer; sequence]]
  | ENVELOPE =>
      [mkSchema envelopeFrameKeys
         [session; route; (js "origin_route_id", token_v 16); (js "path_epoch", nat_v); (js "stream_id", nat_v);
          (js "delivery_id", token_v 16); (js "ciphertext", base64_v maxDraftRelayCiphertextBytes);
          (js "ack_requested", bool_v)]
         [(js "sender_peer_id", token_v 32)] (fun _ => True)]
  | ACK =>
      [plain ackKeys
         [session; (js "delivery_id", token_v 16);
          (js "ack_type", one_of_v [js "relay.accepted"; js "relay.forwarded"; js "peer.received"]);
          (js "durable", fun v => v = JBool false)]]
  | ERROR => [plain errorKeys [(js "code", one_of_v protocolErrorCodes); (js "retryable", bool_v); (js "detail", detail_v)]]
  end.

(** The forms beyond these that the code takes: route hints in a [RENDEZVOUS]
    frame, which PROTOCOL_V0.md forbids in the beta profile and the Go relay
    refuses; and an [ERROR] whose detail is short in UTF-16 units only, or is
    there with the value [undefined], which no JSON text gives. *)
Definition tolerated_schemas (type : RelayFrameType) : list schema :=
  match type with
  | RENDEZVOUS =>
      [plain (rendezvousKeys ++ [js "route_hints"])
         [session; route; peer; sequence; (js "route_hints", fun v => v = JUndefined \/ hints_v v)]]
  | ERROR =>
      [plain errorKeys
         [(js "code", one_of_v protocolErrorCodes); (js "retryable", bool_v);
          (js "detail", fun v => v = JUndefined \/ long_detail_v v)]]
  | _ => []
  end.

Definition frame_name (type : RelayFrameType) : jsstring :=
  match type with
  | HELLO => js "HELLO" | CHALLENGE => js "CHALLENGE" | AUTH => js "AUTH" | READY => js "READY"
  | PRESENCE => js "PRESENCE" | HEARTBEAT => js "HEARTBEAT" | LOOKUP => js "LOOKUP"
  | IDENTITY_WANT => js "IDENTITY_WANT" | IDENTITY_HAVE => js "IDENTITY_HAVE"
  | CONTACT_ANNOUNCE => js "CONTACT_ANNOUNCE" | CONTACT_LOOKUP => js "CONTACT_LOOKUP"
  | CONTACT_PROBE => js "CONTACT_PROBE" | RENDEZVOUS => js "RENDEZVOUS" | ENVELOPE => js "ENVELOPE"
  | ACK => js "ACK" | ERROR => js "ERROR"
  end.

Definition is_frame (type : RelayFrameType) (o : object) : Prop :=
  prop o (js "type") = JStr (frame_name type) /\ Exists (fun s => conforms s o) (frame_schemas type).

Definition is_tolerated (type : RelayFrameType) (o : object) : Prop :=
  prop o (js "type") = JStr (frame_name type) /\ Exists (fun s => conforms s o) (tolerated_schemas type).
End Schemas.

(** ** What the readers accept *)

#[local] Opaque decodeBase64URL.

Definition accepts {A} (c : result A) (P : Prop) : Prop := (exists a, c = Ok a) <-> P.

Lemma accepts_seq {A} (c : result A) (k : result unit) P Q :
  accepts c P -> (k = Ok tt <-> Q) ->
  (match c with Ok _ => k | Throw e => Throw e end = Ok tt <-> P /\ Q).
Proof. unfold accepts. destruct c; naive_solver. Qed.

Lemma unit_seq (c k : result unit) P Q :
  (c = Ok tt <-> P) -> (k = Ok tt <-> Q) ->
  (match c with Ok _ => k | Throw e => Throw e end = Ok tt <-> P /\ Q).
Proof. destruct c as [[]|]; naive_solver. Qed.

Lemma accepts_last {A} (c : result A) P :
  accepts c P -> (match c with Ok _ => Ok tt | Throw e => Throw e end = Ok tt <-> P).
Proof. unfold accepts. destruct c; naive_solver. Qed.

Lemma accepts_exists {A B} (c : result A) (P : B -> Prop) (f : A -> B) :
  (forall a, c = Ok a -> P (f a)) -> ((exists b, P b) -> exists a, c = Ok a) -> accepts c (exists b, P b).
Proof. unfold accepts. naive_solver. Qed.

Lemma keys_Ok o keys opt :
  rejectUnknownKeys o keys opt = Ok tt <-> has_keys o keys /\ keys_within o (keys ++ opt).
Proof. unfold rejectUnknownKeys. by rewrite let_Ok_unit, require_keys_Ok, reject_unknown_Ok. Qed.

Lemma string_Ok o k m s : readString o k m = Ok s <-> prop o k = JStr s /\ text_within m s.
Proof. unfold readString. by rewrite result_of_option_Ok, bounded_string_Some. Qed.

Lemma integer_Ok o k lo hi z :
  readBoundedInteger o k lo hi = Ok z <-> prop o k = JNum (Int z) /\ int_within lo hi z.
Proof. unfold readBoundedInteger. by rewrite result_of_option_Ok, bounded_integer_Some. Qed.

Lemma integer_accepts o k lo hi : accepts (readBoundedInteger o k lo hi) (int_v lo hi (prop o k)).
Proof. unfold accepts, int_v. by setoid_rewrite integer_Ok. Qed.

Lemma nat_accepts o k : accepts (readInteger o k) (nat_v (prop o k)).
Proof. apply integer_accepts. Qed.

Lemma boolean_Ok o k b : readBoolean o k = Ok b <-> prop o k = JBool b.
Proof. unfold readBoolean. destruct (prop o k); naive_solver. Qed.

Lemma boolean_accepts o k : accepts (readBoolean o k) (bool_v (prop o k)).
Proof. unfold accepts, bool_v. by setoid_rewrite boolean_Ok. Qed.

Lemma rethrow_Ok {A} m (c : result A) a : rethrow m c = Ok a <-> c = Ok a.
Proof. destruct c; naive_solver. Qed.

Lemma decodes_iff s : (exists b, decodeBase64URL s = Ok b) <-> Base64Url.validBase64URL s = true.
Proof.
  split; [by intros [b (? & _)%decodeBase64URL_ok] | intros H%decodeBase64URL_unsextets; eauto].
Qed.

Lemma base64_string_Ok o k m s :
  readBase64URLString o k m = Ok s <->
  prop o k = JStr s /\ text_within m s /\ Base64Url.validBase64URL s = true.
Proof.
  unfold readBase64URLString. rewrite let_Ok. setoid_rewrite string_Ok. setoid_rewrite let_Ok.
  setoid_rewrite rethrow_Ok. setoid_rewrite <- decodes_iff. naive_solver.
Qed.

Lemma base64_string_accepts o k m : accepts (readBase64URLString o k m) (base64_v m (prop o k)).
Proof. unfold accepts, base64_v. by setoid_rewrite base64_string_Ok. Qed.

Lemma token_Ok o k n t :
  1 <= n <= 512 -> readBase64URLBytes o k n = Ok t <-> prop o k = JStr t /\ is_token n t.
Proof.
  intros Hn. unfold readBase64URLBytes. rewrite let_Ok. setoid_rewrite base64_string_Ok.
  setoid_rewrite let_Ok. pose proof (token_text_within n t Hn) as Ht. split.
  - intros (v & [Hv _] & b & Hb & H). apply if_negb_throw_Ok in H as [Hl%Z.eqb_eq [= ->]].
    split; [done | by exists b].
  - intros [Hv Hb]. exists t. specialize (Ht Hb). destruct Hb as (b & Hb & Hl).
    pose proof (proj1 (decodeBase64URL_ok _ _ Hb)). split; [done |]. exists b. by rewrite Hl, Z.eqb_refl.
Qed.

Lemma token_accepts o k n : 1 <= n <= 512 -> accepts (readBase64URLBytes o k n) (token_v n (prop o k)).
Proof. intros. unfold accepts, token_v. setoid_rewrite token_Ok; done. Qed.

Lemma branch_id_Ok o k s : readBranchID o k = Ok s <-> prop o k = JStr s /\ branch_id s.
Proof.
  unfold readBranchID, branch_id. rewrite let_Ok. setoid_rewrite string_Ok.
  setoid_rewrite if_negb_throw_Ok. setoid_rewrite let_Ok. setoid_rewrite rethrow_Ok. setoid_rewrite if_throw_Ok.
  split.
  - intros (v & [Hv Hw] & [t ->]%starts_with_spec & b & Hb & Hc & [= <-]). split; [done |]. split; [done |].
    bool_props. change (drop 4 (js "br1." ++ t)) with t in Hb.
    destruct b as [|x [|y digest]]; try done. simpl in *. simplify_eq. exists digest. autorewrite with zlen in *.
    split; [lia |]. exists t. split; [reflexivity | done].
  - intros (Hp & Hw & digest & Hl & t & -> & Hd). exists (js "br1." ++ t). split; [done |].
    split; [apply starts_with_app |]. exists (0x12 :: 0x20 :: digest).
    split; [done |]. autorewrite with zlen. rewrite Hl. done.
Qed.

Lemma branch_id_accepts o k : accepts (readBranchID o k) (branch_id_v (prop o k)).
Proof. unfold accepts, branch_id_v. by setoid_rewrite branch_id_Ok. Qed.

Lemma text_within_prefix m s : (exists body, s = branchTextWrapperPrefix ++ body) ->
  text_within m s <-> zlen (utf8_encode s) <= m.
Proof. intros [b ->]. unfold text_within. split; [tauto | done]. Qed.

Lemma records_accepts o k : accepts (readIdentityRecords o k) (records_v (prop o k)).
Proof.
  unfold accepts, readIdentityRecords, records_v.
  destruct (prop o k) as [| | | | |l|] eqn:E; try (split; [by intros [] | intros (? & ? & _); done]).
  setoid_rewrite if_throw_Ok. setoid_rewrite let_Ok_unit. setoid_rewrite each_result_Ok.
  assert (Hf : forall item, match bounded_string maxDraftIdentityWrapperBytes item with
          | Some item => if negb (starts_with item branchTextWrapperPrefix) then Throw (invalid k) else Ok tt
          | None => Throw (invalid k) end = Ok tt <-> wrapper_v maxDraftIdentityWrapperBytes item).
  { intros item. unfold wrapper_v, wrapper_within. split.
    - destruct (bounded_string _ item) as [s|] eqn:Es; [|done]. apply bounded_string_Some in Es as [-> Ht].
      rewrite if_negb_throw_Ok, starts_with_spec. intros [Hp _]. exists s.
      split; [done |]. destruct Ht. done.
    - intros (s & -> & Hl & Hp). rewrite (proj2 (bounded_string_Some _ (JStr s) s)).
      + by rewrite if_negb_throw_Ok, starts_with_spec.
      + split; [done | by apply text_within_prefix]. }
  setoid_rewrite Z.ltb_ge. pose proof (Forall_iff _ l _ Hf). naive_solver.
Qed.

Lemma bootstrap_accepts o k : accepts (readBootstrapWrapper o k) (wrapper_v maxDraftStringBytes (prop o k)).
Proof.
  unfold accepts, readBootstrapWrapper, wrapper_v, wrapper_within. setoid_rewrite let_Ok.
  setoid_rewrite string_Ok. setoid_rewrite if_throw_Ok. split.
  - intros (s & v & [Hv [Hn Hl]] & Hg & [= <-]). bool_props. exists v. by rewrite <- starts_with_spec.
  - intros (s & Hs & Hl & Hp). exists s, s. pose proof (proj2 (text_within_prefix _ s Hp) Hl).
    rewrite (proj2 (starts_with_spec s _) Hp). unfold maxDraftStringBytes, maxDraftIdentityWrapperBytes in *.
    by test (8192 <? zlen (utf8_encode s)) false.
Qed.

(** *** Ordered sets of texts *)

Lemma js_ltb_asym a b : js_ltb a b = true -> js_ltb b a = true -> False.
Proof. intros H1 H2. pose proof (js_ltb_trans _ _ _ H1 H2) as H. by rewrite js_ltb_irrefl in H. Qed.

Lemma ordered_step seen previous item :
  Forall (fun s => s = previous \/ js_ltb s previous = true) seen ->
  previous ∈ seen \/ seen = [] /\ previous = [] -> item <> [] ->
  bool_decide (item ∈ seen) || js_ltb item previous = false <-> js_ltb previous item = true.
Proof.
  intros Hs Hp Hi. rewrite orb_false_iff, bool_decide_eq_false. split.
  - intros [Hn Hl]. destruct (js_ltb previous item) eqn:E; [done |].
    rewrite (js_ltb_total _ _ Hl E) in *. destruct Hp as [|[_ ->]]; done.
  - intros H. split; [| destruct (js_ltb item previous) eqn:E; [by destruct (js_ltb_asym _ _ H E) | done]].
    intros Hin. rewrite Forall_forall in Hs. destruct (Hs _ Hin) as [->|E].
    + by rewrite js_ltb_irrefl in H.
    + by destruct (js_ltb_asym _ _ H E).
Qed.

Lemma ordered_items_Ok k seen previous items l :
  Forall (fun s => s = previous \/ js_ltb s previous = true) seen ->
  previous ∈ seen \/ seen = [] /\ previous = [] ->
  ordered_items k seen previous items = Ok l <->
  items = JStr <$> l /\ Forall (text_within maxDraftStringBytes) l
  /\ StronglySorted (fun a b => js_ltb a b = true) (previous :: l).
Proof.
  revert seen previous l. induction items as [|item items IH]; intros seen previous l Hs Hp; cbn [ordered_items].
  - split; [intros [= <-] | intros (? & _); by destruct l]. split; [done |]. split; constructor; constructor.
  - destruct (bounded_string maxDraftStringBytes item) as [s|] eqn:Es.
    + apply bounded_string_Some in Es as [-> Ht]. rewrite if_throw_Ok, let_Ok.
      rewrite (ordered_step seen previous s Hs Hp (proj1 Ht)).
      assert (Hs' : js_ltb previous s = true -> Forall (fun x => x = s \/ js_ltb x s = true) (s :: seen)).
      { intros Hlt. constructor; [by left |]. eapply Forall_impl; [exact Hs |].
        intros x [->|Hx]; right; [done | by eapply js_ltb_trans]. }
      split.
      * intros (Hlt & r & Hr & [= <-]). rewrite IH in Hr; [| by apply Hs' | set_solver].
        destruct Hr as (-> & Hf & Hss). split; [done |]. split; [by constructor |].
        constructor; [done |]. inversion Hss; subst. constructor; [done |].
        eapply Forall_impl; [eassumption |]. intros. by eapply js_ltb_trans.
      * intros (Hi & Hf & Hss). destruct l as [|x r]; [done |]. injection Hi as <- ->.
        inversion Hss as [|? ? Hss' Hall]; subst. inversion Hall; subst. inversion Hf; subst.
        split; [done |]. exists r. rewrite IH; [| by apply Hs' | set_solver]. done.
    + split; [done |]. intros (Hi & Hf & _). destruct l as [|x r]; [done |]. injection Hi as -> ->.
      inversion Hf as [|? ? Ht]; subst.
      by rewrite (proj2 (bounded_string_Some _ (JStr x) x)) in Es.
Qed.

Lemma ordered_Ok o k m l :
  readOrderedUniqueStrings o k m = Ok l <->
  prop o k = JArr (JStr <$> l) /\ zlen l <= m /\ Forall (text_within maxDraftStringBytes) l
  /\ StronglySorted (fun a b => js_ltb a b = true) l.
Proof.
  unfold readOrderedUniqueStrings. destruct (prop o k) as [| | | | |v|] eqn:E; try (split; [done | by intros []]).
  rewrite if_throw_Ok, Z.ltb_ge, ordered_items_Ok; [| constructor | by right].
  assert (Hz : forall l : list jsstring, zlen (JStr <$> l) = zlen l) by (intros; unfold zlen; by rewrite length_fmap).
  split.
  - intros (Hl & -> & Hf & Hss). rewrite Hz in Hl. inversion Hss; subst. done.
  - intros ([= ->] & Hl & Hf & Hss). rewrite Hz. split; [done |]. split; [done |]. split; [done |].
    constructor; [done |]. eapply Forall_impl; [exact Hf |]. by intros [] [].
Qed.

Lemma ordered_accepts o k m : accepts (readOrderedUniqueStrings o k m) (ordered_v m [] (prop o k)).
Proof.
  unfold accepts, ordered_v. setoid_rewrite ordered_Ok. split; intros (l & H); exists l.
  - destruct H as (? & ? & ? & ?). done.
  - by destruct H as (? & ? & ? & ? & _).
Qed.

Lemma includes_accepts o k m s {k' : result unit} {P : Prop} msg :
  (k' = Ok tt <-> P) ->
  (let? l := readOrderedUniqueStrings o k m in
   if negb (bool_decide (s ∈ l)) then Throw msg else k') = Ok tt <-> ordered_v m [s] (prop o k) /\ P.
Proof.
  intros Hk. rewrite let_Ok. setoid_rewrite if_negb_throw_Ok. setoid_rewrite ordered_Ok.
  setoid_rewrite bool_decide_eq_true. unfold ordered_v. setoid_rewrite Forall_singleton. naive_solver.
Qed.

Lemma literal_accepts o k s {k' : result unit} {P : Prop} msg :
  text_within maxDraftStringBytes s -> (k' = Ok tt <-> P) ->
  (let? v := readString o k maxDraftStringBytes in if negb (str_eqb v s) then Throw msg else k') = Ok tt
  <-> literal_v s (prop o k) /\ P.
Proof.
  intros Hs Hk. rewrite let_Ok. setoid_rewrite if_negb_throw_Ok. setoid_rewrite string_Ok.
  setoid_rewrite str_eqb_true. unfold literal_v. naive_solver.
Qed.

(** Reads the conjuncts of a sequence of checks, and compares it with a schema. *)
Ltac field_lemma :=
  first [ apply token_accepts; lia | apply integer_accepts | apply nat_accepts | apply boolean_accepts
        | apply base64_string_accepts | apply branch_id_accepts | apply records_accepts
        | apply ordered_accepts | apply bootstrap_accepts ].

Ltac checks :=
  repeat first
    [ apply unit_seq; [apply keys_Ok |] | apply accepts_last; field_lemma
    | apply accepts_seq; [field_lemma |] ].

Ltac schema_of :=
  etransitivity; [| unfold conforms, plain; cbn [s_keys s_fields s_optional s_rule fst snd map session route peer sequence];
                    rewrite !Forall_cons, !Forall_nil; cbn [fst snd]; reflexivity].

Lemma zero_accepts o k {k' : result unit} {P : Prop} msg :
  (k' = Ok tt <-> P) ->
  (let? z := readBoundedInteger o k 0 maxDraftTimestamp in if negb (z =? 0) then Throw msg else k') = Ok tt
  <-> int_v 0 0 (prop o k) /\ P.
Proof.
  intros Hk. rewrite let_Ok. setoid_rewrite if_negb_throw_Ok. setoid_rewrite integer_Ok.
  setoid_rewrite Z.eqb_eq. unfold int_v, int_within, maxDraftTimestamp, MAX_SAFE_INTEGER. split.
  - intros (z & (-> & _) & -> & H). split; [| by apply Hk]. by exists 0.
  - intros ((z & -> & Hz & Hb) & Hp). exists z. assert (z = 0) as -> by lia. split; [done |]. split; [done | by apply Hk].
Qed.

Lemma offer_Ok v : readVersionOffer v = Ok tt <-> object_v offer_schema v.
Proof.
  unfold object_v. destruct v as [| | | | | |o]; try (split; [done | by intros (? & ? & _)]).
  enough (readVersionOffer (JObj o) = Ok tt <-> conforms offer_schema o) by naive_solver.
  unfold offer_schema. schema_of. cbn [readVersionOffer].
  etransitivity; [apply unit_seq; [apply keys_Ok |]; apply zero_accepts;
                  apply literal_accepts; [apply literal_within; closed |];
                  apply literal_accepts; [apply literal_within; closed |];
                  apply includes_accepts; checks |].
  unfold relayForwardLiveRole. tauto.
Qed.

Lemma offers_Ok o k : readVersionOffers o k = Ok tt <-> offers_v (prop o k).
Proof.
  unfold readVersionOffers, offers_v. destruct (prop o k) as [| | | | |l|] eqn:E; try (split; [done | by intros (? & ? & _)]).
  rewrite if_throw_Ok, each_result_Ok. pose proof (zlen_nonneg l). pose proof (Forall_iff _ l _ offer_Ok) as Hf.
  split.
  - intros [Hl ?]. apply orb_false_elim in Hl as [? ?]. exists l. split; [done | split; [lia | by apply Hf]].
  - intros (l' & Hl' & Hb & Hall). injection Hl' as <-. split; [lia | by apply Hf].
Qed.

(** *** The sixteen validators *)

Lemma lifetime_Ok o bound {k' : result unit} {P : Prop} msg :
  (k' = Ok tt <-> P) ->
  (let? i := readInteger o (js "issued_at") in
   let? x := readInteger o (js "expires_at") in
   if (x <=? i) || (bound <? x - i) then Throw msg else k') = Ok tt
  <-> nat_v (prop o (js "issued_at")) /\ nat_v (prop o (js "expires_at")) /\ lifetime bound o /\ P.
Proof.
  intros Hk. rewrite let_Ok. setoid_rewrite let_Ok. setoid_rewrite if_throw_Ok.
  unfold readInteger. setoid_rewrite integer_Ok. unfold lifetime, nat_v, int_v.
  split.
  - intros (i & (Hi & ?) & x & (Hx & ?) & Hb & Hp). bool_props.
    repeat split; [by exists i | by exists x | | by apply Hk]. exists i, x. repeat split; [done | done | lia | lia].
  - intros ((i & Hi & ?) & (x & Hx & ?) & (i' & x' & Hi' & Hx' & Hb) & Hp). rewrite Hi in Hi'. rewrite Hx in Hx'.
    simplify_eq. exists i'. split; [done |]. exists x'. split; [done |]. split; [lia | by apply Hk].
Qed.

Lemma object_read_Ok o k {A} (f : object -> result A) a :
  (let? l := readObject o k in f l) = Ok a <-> exists l, prop o k = JObj l /\ f l = Ok a.
Proof.
  rewrite let_Ok. unfold readObject. setoid_rewrite result_of_option_Ok. by setoid_rewrite as_object_Some.
Qed.

Lemma limits_Ok l :
  (let? _ := rejectUnknownKeys l limitKeys [] in
   let? _ := readBoundedInteger l (js "max_frame_bytes") 1 49152 in
   let? _ := readBoundedInteger l (js "max_queue_depth") 1 1024 in
   let? _ := readBoundedInteger l (js "max_frames_per_session") 1 maxDraftTimestamp in
   let? _ := readBoundedInteger l (js "max_bytes_per_session") 1 maxDraftTimestamp in
   Ok tt) = Ok tt <-> conforms limits_schema l.
Proof. unfold limits_schema. schema_of. etransitivity; [checks |]. tauto. Qed.

Lemma frame_type_Ok s type : isRelayFrameType s = Some type <-> s = frame_name type.
Proof.
  split.
  - intros H%map_get_Some_elem. unfold relayFrameTypes in H.
    repeat (apply elem_of_cons in H as [H|H]; [injection H as -> ->; done |]). by apply elem_of_nil in H.
  - intros ->. destruct type; vm_compute; reflexivity.
Qed.

Lemma read_type_Ok o k type : readRelayFrameType o k = Ok type <-> prop o k = JStr (frame_name type).
Proof.
  unfold readRelayFrameType. rewrite let_Ok. setoid_rewrite string_Ok.
  setoid_rewrite result_of_option_Ok. setoid_rewrite frame_type_Ok.
  assert (text_within maxDraftStringBytes (frame_name type)) by (apply literal_within; by destruct type; vm_compute).
  naive_solver.
Qed.
Section Validators.
Context (parse_URL : jsstring -> option URL) (o : object).

Let accepted (type : RelayFrameType) : Prop :=
  Exists (fun s => conforms s o) (frame_schemas type ++ tolerated_schemas parse_URL type).

Ltac frame :=
  unfold accepted; cbn [frame_schemas tolerated_schemas app]; rewrite ?Exists_cons, ?Exists_nil; schema_of.

Ltac simple_frame := frame; etransitivity; [checks |]; tauto.

Lemma auth_Ok : validateAuth o = Ok tt <-> accepted AUTH.
Proof. simple_frame. Qed.

Lemma presence_Ok : validatePresence o = Ok tt <-> accepted PRESENCE.
Proof. simple_frame. Qed.

Lemma heartbeat_Ok : validateHeartbeat o = Ok tt <-> accepted HEARTBEAT.
Proof. simple_frame. Qed.

Lemma lookup_Ok : validateLookup o = Ok tt <-> accepted LOOKUP.
Proof. simple_frame. Qed.

Lemma have_Ok : validateIdentityHave o = Ok tt <-> accepted IDENTITY_HAVE.
Proof. simple_frame. Qed.

Lemma announce_Ok : validateContactAnnounce o = Ok tt <-> accepted CONTACT_ANNOUNCE.
Proof. simple_frame. Qed.

Lemma discovery_lifetime_Ok :
  validateContactDiscoveryLifetime o = Ok tt
  <-> nat_v (prop o (js "issued_at")) /\ nat_v (prop o (js "expires_at")) /\ lifetime 60000 o.
Proof. etransitivity; [apply lifetime_Ok; reflexivity |]. tauto. Qed.

Lemma contact_lookup_Ok : validateContactLookup o = Ok tt <-> accepted CONTACT_LOOKUP.
Proof. frame. etransitivity; [checks; apply discovery_lifetime_Ok |]. tauto. Qed.

Lemma contact_probe_Ok : validateContactProbe o = Ok tt <-> accepted CONTACT_PROBE.
Proof. frame. etransitivity; [checks; apply discovery_lifetime_Ok |]. tauto. Qed.

Lemma ready_Ok : validateReady o = Ok tt <-> accepted READY.
Proof.
  frame. etransitivity; [checks; rewrite object_read_Ok; setoid_rewrite limits_Ok; reflexivity |].
  unfold object_v. tauto.
Qed.

Lemma selected_seq key (k : result unit) (Q : Prop) :
  (k = Ok tt <-> Q) ->
  (let? selected := readObject o key in let? _ := readVersionOffer (JObj selected) in k) = Ok tt
  <-> object_v offer_schema (prop o key) /\ Q.
Proof.
  intros Hk. rewrite object_read_Ok. setoid_rewrite let_Ok_unit. setoid_rewrite offer_Ok. setoid_rewrite Hk.
  unfold object_v. naive_solver.
Qed.

Lemma challenge_Ok : validateChallenge o = Ok tt <-> accepted CHALLENGE.
Proof. frame. etransitivity; [checks; apply lifetime_Ok; checks; apply selected_seq; checks |]. tauto. Qed.

Lemma ack_Ok : validateAck o = Ok tt <-> accepted ACK.
Proof.
  frame. etransitivity.
  { checks. rewrite let_Ok. setoid_rewrite if_throw_Ok. setoid_rewrite string_Ok. setoid_rewrite let_Ok.
    setoid_rewrite if_throw_Ok. setoid_rewrite boolean_Ok. reflexivity. }
  unfold one_of_v. split.
  - intros (Hk & Hs & Hd & t & (Ht & _) & Hn & b & Hb & -> & _). left.
    split; [tauto | split; [tauto |]]. split; [| tauto]. split; [done |]. split; [done |]. split; [| by split].
    exists t. split; [done |]. rewrite !andb_false_iff, !negb_false_iff, !str_eqb_true in Hn. set_solver.
  - intros [(Hk & Hw & (Hs & Hd & (t & Ht & Hin) & Hb & _) & _) | []].
    split; [done |]. split; [done |]. split; [done |]. exists t.
    assert (Hc : t = js "relay.accepted" \/ t = js "relay.forwarded" \/ t = js "peer.received") by set_solver.
    split; [split; [done |] |].
    + apply literal_within. destruct Hc as [->|[->| ->]]; closed.
    + split; [destruct Hc as [->|[->| ->]]; closed | by exists false].
Qed.

Lemma error_code_within c : c ∈ protocolErrorCodes -> text_within maxDraftStringBytes c.
Proof.
  intros H. apply literal_within. revert c H. apply Forall_forall. 
  repeat (apply Forall_cons_2; [closed |]). apply Forall_nil_2.
Qed.

(** Every UTF-16 unit takes a byte at least. *)
Lemma code_point_bytes u : 1 <= zlen (utf8_of_code_point u) /\ (0x80 <= u -> 2 <= zlen (utf8_of_code_point u)).
Proof. unfold utf8_of_code_point. repeat case_match; autorewrite with zlen; split; intros; bool_props; lia. Qed.

Lemma utf8_length_ge s : zlen s <= zlen (utf8_encode s).
Proof.
  induction s as [s IH] using (induction_ltof1 _ (@length Z)). unfold ltof in IH.
  destruct s as [|u r]; [done |]. pose proof (IH r ltac:(cbn; lia)) as Hr.
  pose proof (code_point_bytes u) as [Hu _]. pose proof (code_point_bytes 0xFFFD) as [Hf _].
  cbn [utf8_encode]. destruct (is_high_surrogate u) eqn:Eh; [| destruct (is_low_surrogate u); autorewrite with zlen; lia].
  destruct r as [|l r']; [by autorewrite with zlen in *; lia |].
  destruct (is_low_surrogate l) eqn:El; [| autorewrite with zlen in *; lia].
  pose proof (IH r' ltac:(cbn; lia)) as Hr'.
  pose proof (code_point_bytes (code_point_of_pair u l)) as [_ Hp].
  autorewrite with zlen in *. enough (0x80 <= code_point_of_pair u l) by lia.
  unfold is_high_surrogate, is_low_surrogate, code_point_of_pair in *. bool_props. lia.
Qed.

Lemma detail_forms v :
  v = JUndefined \/ (exists s, v = JStr s /\ text_within maxDraftStringBytes s /\ zlen s <= 256)
  <-> detail_v v \/ v = JUndefined \/ long_detail_v v.
Proof.
  unfold detail_v, long_detail_v, text_within, maxDraftStringBytes. split.
  - intros [->|(s & -> & [Hs Hb] & Hl)]; [tauto |].
    destruct (Z_le_gt_dec (zlen (utf8_encode s)) 256); [left | right; right]; exists s; (split; [done | split; [done | lia]]) || idtac.
    split; [done | lia].
  - intros [(s & -> & Hs & Hb)|[->|(s & -> & Hu & Hb)]]; [right | by left | right]; exists s; (split; [done |]).
    + pose proof (utf8_length_ge s). split; [split; [done | lia] | lia].
    + split; [split; [| lia] | lia]. intros ->. cbn in Hu. lia.
Qed.

Lemma error_Ok : validateError o = Ok tt <-> accepted ERROR.
Proof.
  frame. etransitivity.
  { checks. rewrite let_Ok. setoid_rewrite if_negb_throw_Ok. setoid_rewrite string_Ok.
    setoid_rewrite bool_decide_eq_true. reflexivity. }
  assert (Hd : (if is_undefined (prop o (js "detail")) then Ok tt
    else let? detail := readString o (js "detail") maxDraftStringBytes in
         if 256 <? zlen detail then Throw (js "detail too large") else Ok tt) = Ok tt
    <-> prop o (js "detail") = JUndefined
        \/ exists s, prop o (js "detail") = JStr s /\ text_within maxDraftStringBytes s /\ zlen s <= 256).
  { destruct (is_undefined (prop o (js "detail"))) eqn:Eu.
    - destruct (prop o (js "detail")); try done. naive_solver.
    - assert (prop o (js "detail") <> JUndefined) by (intros E; by rewrite E in Eu).
      rewrite let_Ok. setoid_rewrite if_throw_Ok. setoid_rewrite Z.ltb_ge. setoid_rewrite string_Ok. naive_solver. }
  rewrite detail_forms in Hd.
  pose proof (boolean_accepts o (js "retryable")) as Hr.
  pose proof (accepts_seq _ _ _ _ Hr Hd) as Hrest. unfold one_of_v. split.
  - intros (Hk & t & (Ht & _) & Hin & H). apply Hrest in H as [Hb H].
    assert (Hc : exists s, prop o (js "code") = JStr s /\ s ∈ protocolErrorCodes) by (by exists t).
    destruct H; tauto.
  - intros H. assert (H' : (has_keys o errorKeys /\ keys_within o (errorKeys ++ []))
      /\ (exists s, prop o (js "code") = JStr s /\ s ∈ protocolErrorCodes) /\ bool_v (prop o (js "retryable"))
      /\ (detail_v (prop o (js "detail")) \/ prop o (js "detail") = JUndefined \/ long_detail_v (prop o (js "detail")))) by tauto.
    destruct H' as (Hk & (t & Ht & Hin) & Hb & Hdet). split; [done |].
    exists t. split; [split; [done | by apply error_code_within] |]. split; [done |]. by apply Hrest.
Qed.

Lemma envelope_Ok : validateEnvelope o = Ok tt <-> accepted ENVELOPE.
Proof.
  frame. etransitivity.
  { checks. apply unit_seq; [| checks].
    instantiate (1 := prop o (js "sender_peer_id") = JUndefined \/ token_v 32 (prop o (js "sender_peer_id"))).
    pose proof (accepts_last _ _ (token_accepts o (js "sender_peer_id") 32 ltac:(lia))) as Ht.
    destruct (prop o (js "sender_peer_id")) eqn:E; cbn [is_undefined]; rewrite ?Ht; try naive_solver. }
  tauto.
Qed.

Lemma want_Ok : validateIdentityWant o = Ok tt <-> accepted IDENTITY_WANT.
Proof.
  frame. unfold validateIdentityWant. cbv zeta.
  assert (Ht : forall key, token_v 16 (prop o key) \/ token_v 32 (prop o key) -> is_undefined (prop o key) = false).
  { intros key [(t & -> & _)|(t & -> & _)]; done. }
  assert (Hu : forall key, is_undefined (prop o key) = true <-> prop o key = JUndefined).
  { intros key. destruct (prop o key); naive_solver. }
  pose proof (Ht (js "request_id")) as Ht1. pose proof (Ht (js "origin_relay_key")) as Ht2.
  pose proof (Hu (js "request_id")) as Hu1. pose proof (Hu (js "origin_relay_key")) as Hu2.
  assert (Htrue : true = true) by done. assert (Hfalse : ~ false = true) by done. assert (Hft : ~ true = false) by done.
  clear Ht Hu.
  destruct (is_undefined (prop o (js "request_id"))) eqn:E1,
    (is_undefined (prop o (js "origin_relay_key"))) eqn:E2; cbn [negb Bool.eqb];
    [| split; [done | tauto] | split; [done | tauto] |].
  - etransitivity; [checks |]. tauto.
  - etransitivity; [apply unit_seq; [checks | checks] |]. tauto.
Qed.

Lemma hello_Ok : validateHello o = Ok tt <-> accepted HELLO.
Proof.
  frame. unfold hello_fields. rewrite !Forall_cons, !Forall_nil. cbn [fst snd].
  etransitivity.
  { apply accepts_seq; [field_lemma |]. apply accepts_seq; [field_lemma |].
    rewrite let_Ok. setoid_rewrite string_Ok. setoid_rewrite let_Ok_unit. reflexivity. }
  pose proof (accepts_seq _ _ _ _ (integer_accepts o (js "max_frame_bytes") 1 49152) (offers_Ok o (js "offers"))) as Hlast.
  setoid_rewrite Hlast. clear Hlast.
  assert (Hf : relayFederationLiveRole <> relayForwardLiveRole) by discriminate.
  assert (Hw1 : text_within maxDraftStringBytes relayForwardLiveRole) by (apply literal_within; closed).
  assert (Hw2 : text_within maxDraftStringBytes relayFederationLiveRole) by (apply literal_within; closed).
  assert (Hfed : (let? _ := rejectUnknownKeys o federationHelloKeys [] in
                  let? _ := readBootstrapWrapper o (js "relay_beacon") in Ok tt) = Ok tt
     <-> (has_keys o federationHelloKeys /\ keys_within o (federationHelloKeys ++ []))
         /\ wrapper_v maxDraftStringBytes (prop o (js "relay_beacon"))) by checks.
  assert (Hrole : forall role, (if str_eqb role relayForwardLiveRole then rejectUnknownKeys o helloKeys []
    else if str_eqb role relayFederationLiveRole then
      let? _ := rejectUnknownKeys o federationHelloKeys [] in
      let? _ := readBootstrapWrapper o (js "relay_beacon") in Ok tt
    else Throw (js "unsupported requested_role")) = Ok tt <->
    role = relayForwardLiveRole /\ has_keys o helloKeys /\ keys_within o (helloKeys ++ [])
    \/ role = relayFederationLiveRole /\ (has_keys o federationHelloKeys /\ keys_within o (federationHelloKeys ++ []))
       /\ wrapper_v maxDraftStringBytes (prop o (js "relay_beacon"))).
  { intros role. destruct (str_eqb role relayForwardLiveRole) eqn:E.
    - apply str_eqb_true in E as ->. rewrite keys_Ok. naive_solver.
    - apply str_eqb_false in E. destruct (str_eqb role relayFederationLiveRole) eqn:E2.
      + apply str_eqb_true in E2 as ->. rewrite Hfed. tauto.
      + apply str_eqb_false in E2. split; [done | tauto]. }
  setoid_rewrite Hrole. unfold literal_v. clear Hrole Hfed. split.
  - intros (Hn & Ht & role & (Hr & _) & [(-> & Hk)|(-> & Hk)] & Hrest); [left | right; left]; tauto.
  - intros [H|[H|[]]]; (split; [tauto |]; split; [tauto |]).
    + exists relayForwardLiveRole. tauto.
    + exists relayFederationLiveRole. tauto.
Qed.

Definition hint_at (h : json) (p : jsstring * jsstring) : Prop :=
  object_v (hint_schema p.1 p.2) h /\ p.1 ∈ [js "wss"; js "ws"]
  /\ text_within maxDraftStringBytes p.2 /\ hint_uri parse_URL p.1 p.2.

Definition place_key (p : jsstring * jsstring) : jsstring := p.1 ++ [0] ++ p.2.

Lemma place_key_inj p q :
  p.1 ∈ [js "wss"; js "ws"] -> q.1 ∈ [js "wss"; js "ws"] -> place_key p = place_key q -> p = q.
Proof.
  destruct p as [a b], q as [c d]. unfold place_key. cbn [fst snd]. intros Ha Hc E.
  assert (Ha' : a = js "wss" \/ a = js "ws") by set_solver.
  assert (Hc' : c = js "wss" \/ c = js "ws") by set_solver.
  destruct Ha' as [->| ->], Hc' as [->| ->]; try discriminate E; apply app_inv_head in E; by injection E as ->.
Qed.

Lemma hint_uri_Ok t u : validateRouteHintUri parse_URL t u = Ok tt <-> hint_uri parse_URL t u.
Proof.
  unfold validateRouteHintUri, hint_uri. rewrite if_throw_Ok, Z.ltb_ge.
  destruct (parse_URL u) as [p|]; [| naive_solver].
  rewrite if_throw_Ok, !orb_false_iff, !negb_false_iff, !str_eqb_true, str_eqb_false. naive_solver.
Qed.

Lemma hint_rest h (k : result unit) :
  (let? _ := readBase64URLBytes h (js "relay_public_key") 32 in
   let? _ := readBoundedInteger h (js "priority") 0 maxDraftTimestamp in k) = Ok tt
  <-> token_v 32 (prop h (js "relay_public_key")) /\ nat_v (prop h (js "priority")) /\ k = Ok tt.
Proof. checks. reflexivity. Qed.

Lemma hint_conforms h t u :
  conforms (hint_schema t u) h <->
  (has_keys h hintKeys /\ keys_within h (hintKeys ++ []))
  /\ prop h (js "transport") = JStr t /\ prop h (js "uri") = JStr u
  /\ token_v 32 (prop h (js "relay_public_key")) /\ nat_v (prop h (js "priority")).
Proof. unfold hint_schema. symmetry. schema_of. unfold literal_v. tauto. Qed.

Lemma hint_step seen h hints :
  route_hint_items parse_URL seen (JObj h :: hints) = Ok tt <->
  exists p, hint_at (JObj h) p /\ (place_key p ∉ seen) /\ route_hint_items parse_URL (place_key p :: seen) hints = Ok tt.
Proof.
  cbn [route_hint_items]. rewrite let_Ok_unit, keys_Ok, let_Ok. setoid_rewrite if_throw_Ok.
  setoid_rewrite let_Ok at 1. setoid_rewrite string_Ok. setoid_rewrite let_Ok_unit. setoid_rewrite hint_uri_Ok.
  setoid_rewrite if_throw_Ok. setoid_rewrite bool_decide_eq_false.
  assert (Ht : forall t : jsstring, negb (str_eqb t (js "wss")) && negb (str_eqb t (js "ws")) = false <-> t ∈ [js "wss"; js "ws"]).
  { intros t. rewrite andb_false_iff, !negb_false_iff, !str_eqb_true. set_solver. }
  setoid_rewrite Ht.
  unfold hint_at, object_v. setoid_rewrite hint_conforms.
  split.
  - intros (Hk & t & (Ht1 & Hw) & Hin & u & (Hu & Hwu) & Hh & Hs & Hrest).
    exists (t, u). cbn [fst snd].
    apply hint_rest in Hrest as (Hkey & Hpr & Hrest).
    split; [| done]. split; [exists h; split; [done | tauto] | done].
  - intros ([t u] & ((h' & [= <-] & Hk & Ht1 & Hu & Hkey & Hpr) & Hin & Hwu & Hh) & Hs & Hrest).
    cbn [fst snd] in *. split; [done |]. exists t.
    assert (Hin' : t = js "wss" \/ t = js "ws") by set_solver.
    split; [split; [done | apply literal_within; destruct Hin' as [->| ->]; closed] |].
    split; [done |]. exists u. split; [done |]. split; [done |]. split; [done |]. by apply hint_rest.
Qed.

Lemma hints_Ok_seen seen hints :
  route_hint_items parse_URL seen hints = Ok tt <->
  exists places, NoDup places /\ Forall (fun p => place_key p ∉ seen) places /\ Forall2 hint_at hints places.
Proof.
  revert seen. induction hints as [|h hints IH]; intros seen.
  - cbn. split; [intros _; exists []; repeat constructor | done].
  - destruct h as [| | | | | |h];
      try (split; [done | intros (ps & _ & _ & Hf); inversion Hf as [|? ? ? ? Hat]; by destruct Hat as ((? & ? & _) & _)]).
    rewrite hint_step. setoid_rewrite IH. split.
    + intros (p & Hat & Hp & ps & Hn & Hf & H2). exists (p :: ps).
      rewrite Forall_forall in Hf. split; [constructor; [| done] |].
      * intros Hin. apply Hf in Hin. set_solver.
      * split; [| by constructor]. constructor; [done |]. apply Forall_forall. intros q Hq. apply Hf in Hq. set_solver.
    + intros (ps & Hn & Hf & H2). inversion H2 as [|? p ? ps' Hat H2']; subst.
      apply NoDup_cons in Hn as [Hnin Hn]. apply Forall_cons in Hf as [Hp Hf]. exists p. split; [done |]. split; [done |].
      exists ps'. split; [done |]. split; [| done]. rewrite Forall_forall in *. intros q Hq Hin.
      apply elem_of_cons in Hin as [E|Hin]; [| by eapply Hf]. apply Hnin. 
      apply list_elem_of_lookup in Hq as Hq'. destruct Hq' as [i Hi].
      destruct (Forall2_lookup_r _ _ _ _ _ H2' Hi) as (h' & _ & _ & Hin' & _).
      apply place_key_inj in E as ->; [done | done | by destruct Hat as (_ & ? & _)].
Qed.

Lemma route_hints_Ok :
  validateRouteHints parse_URL o = Ok tt <->
  prop o (js "route_hints") = JUndefined \/ hints_v parse_URL (prop o (js "route_hints")).
Proof.
  unfold validateRouteHints, hints_v. destruct (prop o (js "route_hints")) as [| | | | |l|];
    try (split; [done | intros [?|(? & ? & ? & _)]; done]); [naive_solver |].
  rewrite if_throw_Ok, hints_Ok_seen. pose proof (zlen_nonneg l). unfold maxDraftRouteHints. split.
  - intros [Hl (ps & Hn & _ & H2)]. apply orb_false_elim in Hl as [? ?]. right. exists l, ps. split; [done |].
    split; [lia | done].
  - intros [?|(l' & ps & Hl' & Hb & Hn & H2)]; [done |]. injection Hl' as <-. split; [lia |]. exists ps.
    split; [done |]. split; [| done]. apply Forall_forall. intros ? _ ?. set_solver.
Qed.

Lemma prop_absent keys k : keys_within o keys -> k ∉ keys -> prop o k = JUndefined.
Proof.
  unfold keys_within. intros Hk Hn. destruct (prop o k) eqn:E; try done; exfalso; apply Hn;
    (rewrite Forall_forall in Hk; apply Hk, prop_present; by rewrite E).
Qed.

(** The keys with an optional one: either it is absent, or it is one of the keys. *)
Lemma rendezvous_keys :
  has_keys o rendezvousKeys /\ keys_within o (rendezvousKeys ++ [js "route_hints"]) <->
  has_keys o rendezvousKeys /\ keys_within o rendezvousKeys
  \/ has_keys o (rendezvousKeys ++ [js "route_hints"]) /\ keys_within o (rendezvousKeys ++ [js "route_hints"]).
Proof.
  unfold has_keys, keys_within. rewrite Forall_app, Forall_singleton.
  destruct (decide (js "route_hints" ∈ map_keys o)) as [Hin|Hin]; [split |].
  - tauto.
  - intros [[? H]|?]; [| tauto]. split; [done |]. eapply Forall_impl; [exact H |]. set_solver.
  - split; [| intros [[? H]|?]; [| tauto]; split; [done |]; eapply Forall_impl; [exact H |]; set_solver].
    intros [? H]. left. split; [done |]. rewrite Forall_forall in *. intros k Hk. pose proof (H k Hk). set_solver.
Qed.

Lemma rendezvous_Ok : validateRendezvous parse_URL o = Ok tt <-> accepted RENDEZVOUS.
Proof.
  frame. etransitivity; [checks; apply route_hints_Ok |].
  rewrite rendezvous_keys. pose proof (prop_absent rendezvousKeys (js "route_hints")) as Ha.
  rewrite app_nil_r in *. assert (Hn : js "route_hints" ∉ rendezvousKeys) by (apply (bool_decide_eq_false_1 _); closed).
  tauto.
Qed.

Lemma typed_Ok type : validate_typed parse_URL type o = Ok tt <-> accepted type.
Proof.
  destruct type; cbn [validate_typed];
    auto using hello_Ok, challenge_Ok, auth_Ok, ready_Ok, presence_Ok, heartbeat_Ok, lookup_Ok, want_Ok, have_Ok,
      announce_Ok, contact_lookup_Ok, contact_probe_Ok, rendezvous_Ok, envelope_Ok, ack_Ok, error_Ok.
Qed.

End Validators.

Lemma frame_value_Ok parse_URL type v :
  validateDraftRelayAttachmentFrame parse_URL v = Ok type <->
  exists o, v = JObj o /\ (is_frame type o \/ is_tolerated parse_URL type o).
Proof.
  unfold is_frame, is_tolerated. destruct v as [| | | | | |o]; try (split; [done | by intros (? & ? & _)]).
  unfold validateDraftRelayAttachmentFrame. rewrite let_Ok. setoid_rewrite read_type_Ok.
  setoid_rewrite let_Ok_unit. setoid_rewrite typed_Ok. setoid_rewrite Exists_app. naive_solver.
Qed.

Lemma frame_text_Ok parse_URL type parse text :
  decodeDraftRelayAttachmentFrameText parse_URL parse text = Ok type <->
  zlen (utf8_encode text) <= 65536 /\ exists o, parse text = Some (JObj o) /\ (is_frame type o \/ is_tolerated parse_URL type o).
Proof.
  unfold decodeDraftRelayAttachmentFrameText. change maxDraftRelayAttachmentFrameBytes with 65536.
  rewrite if_throw_Ok, Z.ltb_ge. destruct (parse text) as [v|]; [rewrite frame_value_Ok |]; naive_solver.
Qed.

(** The two kinds of form do not overlap: what is tolerated is never a frame. *)
Lemma tolerated_not_frame parse_URL type o : is_tolerated parse_URL type o -> ~ is_frame type o.
Proof.
  intros [_ Ht] [_ Hf]. destruct type; cbn [tolerated_schemas frame_schemas] in Ht, Hf;
    rewrite ?Exists_nil in Ht; try done; rewrite Exists_cons, Exists_nil in Ht; rewrite Exists_cons, Exists_nil in Hf;
    destruct Ht as [Ht|[]], Hf as [Hf|[]]; destruct Ht as (Hhas & _ & Ht & _), Hf as (_ & Hw & Hf & _);
    cbn in Hhas, Hw, Ht, Hf.
  - unfold has_keys, keys_within in *. rewrite Forall_forall in Hhas, Hw.
    assert (Hin : js "route_hints" ∈ rendezvousKeys ++ []) by (apply Hw, Hhas; set_solver).
    revert Hin. apply (bool_decide_eq_false_1 _). closed.
  - rewrite !Forall_cons in Ht, Hf. destruct Ht as (_ & _ & Ht & _), Hf as (_ & _ & Hf & _). cbn [fst snd] in *.
    destruct Hf as (s & Hs & _ & Hb). rewrite Hs in Ht. destruct Ht as [|(s' & [= <-] & Hl & _)]; [done | lia].
Qed.

(** C2: the frame validator accepts a value as a frame of a type exactly when
    it is an object with that type's name that conforms to one of its schemas:
    the exact keys, the exact size of every token, every integer range, the
    lifetimes and ordered capability sets, for any URL parser.  Beyond the
    schemas it takes two forms, and no other, that are none: a [RENDEZVOUS]
    with one to eight distinct route hints, which PROTOCOL_V0.md, the CDDL and
    the Go relay reject (see [route_hints_tolerated] for the test vector), and
    an [ERROR] whose detail is at most 256 UTF-16 units but more than 256 bytes
    (or is [undefined]).  The text decoder accepts exactly the texts of at most
    64 KiB whose parse is such an object, for any JSON parser. *)
Theorem validateDraftRelayAttachmentFrame_spec parse_URL type :
  (forall v, validateDraftRelayAttachmentFrame parse_URL v = Ok type <->
     exists o, v = JObj o /\ (is_frame type o \/ is_tolerated parse_URL type o))
  /\ (forall parse text, decodeDraftRelayAttachmentFrameText parse_URL parse text = Ok type <->
     zlen (utf8_encode text) <= 65536
     /\ exists o, parse text = Some (JObj o) /\ (is_frame type o \/ is_tolerated parse_URL type o))
  /\ (forall o, is_tolerated parse_URL type o -> ~ is_frame type o).
Proof. split; [| split]; intros; [apply frame_value_Ok | apply frame_text_Ok | by eapply tolerated_not_frame]. Qed.

(** *** Sample frames *)

Definition set_property (key : jsstring) (v : json) (o : object) : object := map_set o key v.

Definition strings (l : list jsstring) : json := JArr (JStr <$> l).

Definition sample_offer : json := JObj
  [(js "wire_version", JNum (Int 0)); (js "protocol", JStr protocolID);
   (js "profile_multihash", JStr developmentProfileMultihash);
   (js "capabilities", strings [js "relay.forward.live/0"]); (js "required_capabilities", strings []);
   (js "extensions", strings [js "a"; js "b"]); (js "required_extensions", strings [])].

(** A federation HELLO whose beacon has [n] characters after the prefix. *)
Definition sample_federation_hello (n : nat) : json := JObj
  [(js "type", JStr (js "HELLO")); (js "client_nonce", JStr (sample_text 32));
   (js "client_time", JNum (Int 1700000000)); (js "requested_role", JStr relayFederationLiveRole);
   (js "relay_beacon", JStr (branchTextWrapperPrefix ++ replicate n 65));
   (js "max_frame_bytes", JNum (Int 49152)); (js "offers", JArr [sample_offer])].

Definition sample_error : object :=
  [(js "type", JStr (js "ERROR")); (js "code", JStr (js "rate_limited")); (js "retryable", JBool true)].

(** *** The test vector [rendezvous-rejects-raw-route-hints] *)

Definition vector_digit (i : nat) : jsstring := [48 + Z.of_nat i].

Definition vector_uri (i : nat) : jsstring := js "wss://relay0" ++ vector_digit (S i) ++ js ".undoo.ru:443/relay/v0".

(** The URL parser on the nine addresses of the vector. *)
Definition vector_URL (uri : jsstring) : option URL :=
  let host i := js "relay0" ++ vector_digit (S i) ++ js ".undoo.ru" in
  map_get ((fun i => (vector_uri i, mkURL (js "wss:") (host i) [] [] [] (js "/relay/v0") (host i))) <$> seq 0 9) uri.

Definition vector_hint (i : nat) : json := JObj
  [(js "transport", JStr (js "wss")); (js "uri", JStr (vector_uri i));
   (js "relay_public_key", JStr (js "1O-cIlvcggU9pIqkgWIPmm8R8vpZXDyh0PYZiOUxW2k"));
   (js "priority", JNum (Int (Z.of_nat i)))].

(** The frame of the vector with its first [n] hints of nine. *)
Definition vector_rendezvous (n : nat) : object :=
  [(js "type", JStr (js "RENDEZVOUS"));
   (js "session_id", JStr (js "AAECAwQFBgcICQoLDA0ODxAREhMUFRYXGBkaGxwdHh8"));
   (js "route_id", JStr (js "AAECAwQFBgcICQoLDA0ODw"));
   (js "peer_id", JStr (js "__79_Pv6-fj39vX08_Lx8O_u7ezr6uno5-bl5OPi4eA"));
   (js "sequence", JNum (Int 5)); (js "route_hints", JArr (vector_hint <$> seq 0 n))].

(** The vector's nine hints are refused because eight is the most the code
    takes, and not because there are hints: the same frame with the first of
    them, or with the first eight, is accepted, and it is no frame of the
    protocol. *)
Theorem route_hints_tolerated :
  validateDraftRelayAttachmentFrame vector_URL (JObj (vector_rendezvous 9)) = Throw (js "invalid route_hints")
  /\ (forall n, n = 1%nat \/ n = 8%nat ->
       validateDraftRelayAttachmentFrame vector_URL (JObj (vector_rendezvous n)) = Ok RENDEZVOUS
       /\ ~ is_frame RENDEZVOUS (vector_rendezvous n)).
Proof.
  split; [closed |]. intros n Hn.
  assert (E : validateDraftRelayAttachmentFrame vector_URL (JObj (vector_rendezvous n)) = Ok RENDEZVOUS)
    by (destruct Hn as [->| ->]; closed).
  split; [done |]. intros [_ Hf]. cbn [frame_schemas] in Hf. apply Exists_cons in Hf as [Hf|Hf]; [| by apply Exists_nil in Hf].
  destruct Hf as (_ & Hw & _).
  unfold keys_within in Hw. rewrite Forall_forall in Hw.
  assert (Hin : js "route_hints" ∈ rendezvousKeys ++ []) by (apply Hw, (bool_decide_eq_true_1 _); destruct Hn as [->| ->]; closed).
  revert Hin. apply (bool_decide_eq_false_1 _). closed.
Qed.

(** A detail of 256 letters of two bytes each is accepted, of 257 it is not. *)
Lemma long_detail_tolerated parse_URL :
  let frame n := JObj (set_property (js "detail") (JStr (replicate n 1078)) sample_error) in
  zlen (utf8_encode (replicate 256 1078)) = 512
  /\ validateDraftRelayAttachmentFrame parse_URL (frame 256%nat) = Ok ERROR
  /\ validateDraftRelayAttachmentFrame parse_URL (frame 257%nat) = Throw (js "detail too large").
Proof. repeat split; closed. Qed.

(** Two tests of the code that never decide.  A federation beacon is read with
    the 1024-byte bound of small strings before it is compared with the 8192
    bytes of a wrapper: 1024 bytes are accepted, 1025 are not.  And [detail] is
    one of the required keys of an ERROR, as in the protocol, so that the test
    whether it is undefined only lets the value [undefined] through. *)
Theorem unreachable_limits parse_URL :
  (forall o key s, readBootstrapWrapper o key = Ok s <->
     prop o key = JStr s /\ wrapper_within maxDraftStringBytes s)
  /\ maxDraftStringBytes < maxDraftIdentityWrapperBytes
  /\ validateDraftRelayAttachmentFrame parse_URL (sample_federation_hello 1016) = Ok HELLO
  /\ validateDraftRelayAttachmentFrame parse_URL (sample_federation_hello 1017) = Throw (js "invalid relay_beacon")
  /\ validateDraftRelayAttachmentFrame parse_URL (JObj sample_error) = Throw (js "missing detail")
  /\ validateDraftRelayAttachmentFrame parse_URL
       (JObj (set_property (js "detail") (JStr (js "slow down")) sample_error)) = Ok ERROR.
Proof.
  split; [| split; [done | repeat split; vm_compute; reflexivity]].
  intros o key s. pose proof (bootstrap_accepts o key) as H. unfold accepts, wrapper_v in H.
  assert (Hs : forall t, readBootstrapWrapper o key = Ok t -> prop o key = JStr t).
  { intros t. unfold readBootstrapWrapper. rewrite let_Ok. setoid_rewrite if_throw_Ok. setoid_rewrite string_Ok.
    intros (v & [Hv _] & _ & [= <-]). done. }
  split.
  - intros E. pose proof (Hs s E) as Hp. destruct (proj1 H (ex_intro _ s E)) as (s' & Hs' & Hw).
    split; [done | congruence].
  - intros [Hp Hw]. destruct (proj2 H (ex_intro _ s (conj Hp Hw))) as [t Ht]. rewrite Ht.
    apply Hs in Ht. congruence.
Qed.
