(* ===== verification/SameRelay.v ===== *)
(** * [connectivity/same-relay.ts]: the live session of a client with one relay

    [SameRelayTransportClient] is the record [Client]; a method is a
    computation [C A] that may throw and changes the client, the state kept when
    it throws being the one reached so far.  Frames written to the socket and
    events given to the listeners are appended to [wire] and [events].
    [attach] is cut at its awaits: a call is a thread whose stage is the await
    it stands at, with the locals it still needs.

    The host's [new URL], [JSON.parse], [JSON.stringify], [localeCompare] and
    random generator are arguments; the SHA-256, Ed25519 and timer outcomes
    arrive as steps. *)
From S2P Require Import Prelude JsRuntime Collections Effects IdentityContact Base64Url Json Envelope RelayAttachment.

Definition relayProofDomain : jsstring := js "BRANCH relay attachment v0" ++ [10].
Definition contactDiscoveryLiveExtension : jsstring := js "branch.contact-discovery.live/0.draft".
Definition relayForwardLiveCapability : jsstring := js "relay.forward.live/0".
Definition socketOpenState : Z := 1.
Definition defaultMaxFrameBytes : Z := 49152.
Definition defaultMaxPendingEnvelopes : Z := 32.
Definition maxLiveTargetRoutes : Z := 64.
Definition routeAllocationAttempts : nat := 8.
Definition maxChallengeClockSkewSeconds : Z := 30.
Definition defaultStreamID : Z := 0.
Definition defaultPathEpoch : Z := 0.

(** [brand] is the presence of the private symbol. *)
Record RelayRouteMaterial := mkRoute {
  endpointUri : jsstring; relayPublicKey : jsstring; profileMultihash : jsstring; brand : bool;
}.

Record RelayRouteHint := mkHint {
  h_transport : jsstring; h_uri : jsstring; h_relayPublicKey : jsstring; h_priority : number;
}.

Record ReadyState := mkReady {
  sessionId : jsstring; readyRouteId : jsstring; presenceTtlSeconds : Z; heartbeatIntervalSeconds : Z;
}.

Record PendingEnvelope := mkPending {
  deliveryId : jsstring; ciphertext : jsstring; routeId : jsstring; originRouteId : jsstring;
  streamId : Z; ackRequested : bool;
}.

Inductive SameRelayTransportEvent : Type :=
| attached (sessionId routeId endpointUri : jsstring)
| frame_sent (frameType : RelayFrameType)
| presence_announced (peerId : jsstring) (sequence : Z)
| heartbeat_sent (sequence : Z)
| lookup_requested (peerId : jsstring) (sequence : Z)
| contact_lookup_requested (requestId branchId : jsstring) (expiresAt : Z)
| contact_probe (requestId branchId requesterPeerId requesterHpkePublicKey : jsstring) (expiresAt : Z)
| rendezvous_ready (peerId routeId : jsstring) (sequence routeHintCount : Z)
| envelope_sent (deliveryId routeId originRouteId : jsstring)
| relay_ack (deliveryId ackType : jsstring)
| peer_receipt (deliveryId : jsstring)
| pending_abandoned (deliveryId : jsstring)
| peer_unavailable (retryable : bool) (pendingCount : Z)
| envelope_received (deliveryId ciphertext routeId originRouteId : jsstring) (senderPeerId : option jsstring)
| pending_retried (count : Z)
| disconnected (pendingCount : Z) (remote : bool)
| error_event (message : jsstring).

(** Where a call of [attach] stands: for the socket to open, for the CHALLENGE,
    for the transcript's digest, for the verification, for the signature, for
    the READY frame.  A stage that waits for a frame has an inbox for it. *)
Inductive Stage : Type :=
| at_open
| at_challenge (clientNonce helloRaw : jsstring) (inbox : option object)
| at_digest (clientNonce : jsstring) (challenge selected : object) (input : bytes)
| at_verify (clientNonce : jsstring) (challenge selected : object) (transcriptHash : bytes)
| at_sign (clientNonce : jsstring) (challenge : object) (transcriptHash : bytes)
| at_ready (inbox : option object).

Record Client := mkClient {
  route : RelayRouteMaterial;
  peerId : jsstring;
  publicKey : jsstring;
  maxFrameBytes : Z;
  maxPendingEnvelopes : Z;
  pending : list (jsstring * PendingEnvelope);
  targetRoutes : list (jsstring * jsstring);
  routeTargets : list (jsstring * jsstring);
  deferred : list nat;
  socket : option Z;
  ready : option ReadyState;
  contactDiscoveryEnabled : bool;
  sequence : Z;
  threads : list (nat * Stage);
  nextThread : nat;
  draws : nat;
  wire : list object;
  events : list SameRelayTransportEvent;
}.

(** ** Updates of one field *)

Definition set_pending (p : list (jsstring * PendingEnvelope)) (c : Client) : Client :=
  mkClient (route c) (peerId c) (publicKey c) (maxFrameBytes c) (maxPendingEnvelopes c) p (targetRoutes c)
    (routeTargets c) (deferred c) (socket c) (ready c) (contactDiscoveryEnabled c) (sequence c) (threads c)
    (nextThread c) (draws c) (wire c) (events c).

Definition set_routes (t r : list (jsstring * jsstring)) (c : Client) : Client :=
  mkClient (route c) (peerId c) (publicKey c) (maxFrameBytes c) (maxPendingEnvelopes c) (pending c) t r
    (deferred c) (socket c) (ready c) (contactDiscoveryEnabled c) (sequence c) (threads c) (nextThread c)
    (draws c) (wire c) (events c).

Definition set_deferred (d : list nat) (c : Client) : Client :=
  mkClient (route c) (peerId c) (publicKey c) (maxFrameBytes c) (maxPendingEnvelopes c) (pending c)
    (targetRoutes c) (routeTargets c) d (socket c) (ready c) (contactDiscoveryEnabled c) (sequence c)
    (threads c) (nextThread c) (draws c) (wire c) (events c).

Definition set_socket (s : option Z) (c : Client) : Client :=
  mkClient (route c) (peerId c) (publicKey c) (maxFrameBytes c) (maxPendingEnvelopes c) (pending c)
    (targetRoutes c) (routeTargets c) (deferred c) s (ready c) (contactDiscoveryEnabled c) (sequence c)
    (threads c) (nextThread c) (draws c) (wire c) (events c).

Definition set_ready (r : option ReadyState) (c : Client) : Client :=
  mkClient (route c) (peerId c) (publicKey c) (maxFrameBytes c) (maxPendingEnvelopes c) (pending c)
    (targetRoutes c) (routeTargets c) (deferred c) (socket c) r (contactDiscoveryEnabled c) (sequence c)
    (threads c) (nextThread c) (draws c) (wire c) (events c).

Definition set_discovery (b : bool) (c : Client) : Client :=
  mkClient (route c) (peerId c) (publicKey c) (maxFrameBytes c) (maxPendingEnvelopes c) (pending c)
    (targetRoutes c) (routeTargets c) (deferred c) (socket c) (ready c) b (sequence c) (threads c)
    (nextThread c) (draws c) (wire c) (events c).

Definition set_sequence (s : Z) (c : Client) : Client :=
  mkClient (route c) (peerId c) (publicKey c) (maxFrameBytes c) (maxPendingEnvelopes c) (pending c)
    (targetRoutes c) (routeTargets c) (deferred c) (socket c) (ready c) (contactDiscoveryEnabled c) s
    (threads c) (nextThread c) (draws c) (wire c) (events c).

Definition set_threads (t : list (nat * Stage)) (n : nat) (c : Client) : Client :=
  mkClient (route c) (peerId c) (publicKey c) (maxFrameBytes c) (maxPendingEnvelopes c) (pending c)
    (targetRoutes c) (routeTargets c) (deferred c) (socket c) (ready c) (contactDiscoveryEnabled c)
    (sequence c) t n (draws c) (wire c) (events c).

Definition set_draws (n : nat) (c : Client) : Client :=
  mkClient (route c) (peerId c) (publicKey c) (maxFrameBytes c) (maxPendingEnvelopes c) (pending c)
    (targetRoutes c) (routeTargets c) (deferred c) (socket c) (ready c) (contactDiscoveryEnabled c)
    (sequence c) (threads c) (nextThread c) n (wire c) (events c).

Definition log (frames : list object) (evs : list SameRelayTransportEvent) (c : Client) : Client :=
  mkClient (route c) (peerId c) (publicKey c) (maxFrameBytes c) (maxPendingEnvelopes c) (pending c)
    (targetRoutes c) (routeTargets c) (deferred c) (socket c) (ready c) (contactDiscoveryEnabled c)
    (sequence c) (threads c) (nextThread c) (draws c) (wire c ++ frames) (events c ++ evs).

(** ** Methods of the client *)

Abbreviation C := (M Client).

Definition emit (e : SameRelayTransportEvent) : C unit := modify (log [] [e]).

(** ** Functions of the module *)

Definition makeVersionOffer : json := JObj
  [(js "wire_version", JNum (Int 0)); (js "protocol", JStr protocolID);
   (js "profile_multihash", JStr developmentProfileMultihash);
   (js "capabilities", JArr [JStr relayForwardLiveCapability]);
   (js "required_capabilities", JArr []);
   (js "extensions", JArr [JStr contactDiscoveryLiveExtension]);
   (js "required_extensions", JArr [])].

Definition hasExtension (offer : object) (extension : jsstring) : bool :=
  match prop offer (js "extensions") with
  | JArr extensions =>
      existsb (fun candidate => match candidate with JStr s => str_eqb s extension | _ => false end) extensions
  | _ => false
  end.

(** The readers of this module: shape only, the frame was validated before. *)
Definition readString (record : object) (key : jsstring) : result jsstring :=
  result_of_option (invalid key) (as_string (prop record key)).

Definition readObject (record : object) (key : jsstring) : result object :=
  result_of_option (invalid key) (as_object (prop record key)).

Definition readOptionalString (record : object) (key : jsstring) : result (option jsstring) :=
  match prop record key with
  | JUndefined => Ok None
  | JStr s => Ok (Some s)
  | _ => Throw (invalid key)
  end.

Definition readNumber (record : object) (key : jsstring) : result Z :=
  match prop record key with
  | JNum (Int z) => if is_safe z then Ok z else Throw (invalid key)
  | _ => Throw (invalid key)
  end.

Definition readBoolean (record : object) (key : jsstring) : result bool :=
  match prop record key with JBool b => Ok b | _ => Throw (invalid key) end.

Definition assertFrameType (record : object) (expected : jsstring) : result unit :=
  let? type := readString record (js "type") in
  if str_eqb type expected then Ok tt else Throw (js "expected " ++ expected).

Definition assertRouteID (value message : jsstring) : result unit :=
  let? b := decodeBase64URL value in
  if negb (zlen b =? 16) then Throw message else Ok tt.

Definition boundedPendingEnvelopeLimit (value : number) : result Z :=
  if negb (number_in 1 defaultMaxPendingEnvelopes value)
  then Throw (js "invalid live pending envelope limit") else Ok (number_value value).

Definition proofInput (transcriptHash : bytes) : bytes := utf8_encode relayProofDomain ++ transcriptHash.

Definition toWireRouteHint (hint : RelayRouteHint) : json := JObj
  [(js "transport", JStr (h_transport hint)); (js "uri", JStr (h_uri hint));
   (js "relay_public_key", JStr (h_relayPublicKey hint)); (js "priority", JNum (h_priority hint))].

Definition str (s : jsstring) : json := JStr s.
Definition num (z : Z) : json := JNum (Int z).

Section Session.
Context (parse_URL : jsstring -> option URL) (JSON_parse : jsstring -> option json)
  (JSON_stringify : json -> jsstring) (localeCompare : jsstring -> jsstring -> Z)
  (randomBytes : nat -> Z -> bytes).

Definition validateRouteMaterial (r : RelayRouteMaterial) : result RelayRouteMaterial :=
  if negb (str_eqb (profileMultihash r) developmentProfileMultihash) then Throw (js "unsupported relay profile")
  else
  let? key := decodeBase64URL (relayPublicKey r) in
  if negb (zlen key =? 32) then Throw (js "invalid relay public key")
  else
  let? endpoint := result_of_option (js "Invalid URL") (parse_URL (endpointUri r)) in
  if negb (str_eqb (url_protocol endpoint) (js "wss:")) || negb (str_eqb (url_username endpoint) [])
     || negb (str_eqb (url_password endpoint) []) || negb (str_eqb (url_hash endpoint) [])
  then Throw (js "invalid relay endpoint") else Ok r.

Definition assertVerifiedRelayRouteMaterial (r : RelayRouteMaterial) : result RelayRouteMaterial :=
  if negb (brand r) then Throw (js "unverified relay route material")
  else let? _ := validateRouteMaterial r in Ok r.

Definition markVerifiedRelayRouteMaterial (r : RelayRouteMaterial) : result RelayRouteMaterial :=
  let? validated := validateRouteMaterial r in
  Ok (mkRoute (endpointUri validated) (relayPublicKey validated) (profileMultihash validated) true).

(** One hint of [validateRouteHints], with the keys seen before it. *)
Fixpoint hint_list (seen : list jsstring) (hints : list RelayRouteHint) : result (list RelayRouteHint) :=
  match hints with
  | [] => Ok []
  | hint :: hints =>
      if negb (str_eqb (h_transport hint) (js "wss")) && negb (str_eqb (h_transport hint) (js "ws"))
      then Throw (js "invalid route hint transport")
      else
      let? key := decodeBase64URL (h_relayPublicKey hint) in
      if negb (zlen key =? 32) then Throw (js "invalid route hint relay key")
      else if negb (number_in 0 MAX_SAFE_INTEGER (h_priority hint)) then Throw (js "invalid route hint priority")
      else
      let? endpoint := result_of_option (js "Invalid URL") (parse_URL (h_uri hint)) in
      if negb (str_eqb (url_protocol endpoint) (h_transport hint ++ js ":"))
         || negb (str_eqb (url_username endpoint) []) || negb (str_eqb (url_password endpoint) [])
         || negb (str_eqb (url_hash endpoint) []) || negb (str_eqb (url_pathname endpoint) (js "/relay/v0"))
      then Throw (js "invalid route hint endpoint")
      else
      let key := h_transport hint ++ [0] ++ h_uri hint in
      if bool_decide (key ∈ seen) then Throw (js "duplicate route hint")
      else let? rest := hint_list (key :: seen) hints in Ok (hint :: rest)
  end.

(** [left.priority - right.priority || left.uri.localeCompare(right.uri)] *)
Definition hint_order (left right : RelayRouteHint) : Z :=
  let d := number_value (h_priority left) - number_value (h_priority right) in
  if d =? 0 then localeCompare (h_uri left) (h_uri right) else d.

Definition validateRouteHints (hints : list RelayRouteHint) : result (list RelayRouteHint) :=
  if 8 <? zlen hints then Throw (js "too many route hints")
  else let? valid := hint_list [] hints in Ok (sort_by hint_order valid).

Definition decodeRelayRecord (text : jsstring) : result object :=
  let? _ := decodeDraftRelayAttachmentFrameText parse_URL JSON_parse text in
  match JSON_parse text with
  | Some (JObj decoded) => Ok decoded
  | Some _ => Throw (js "invalid relay frame")
  | None => Throw (js "JSON")
  end.

(** ** Private helpers *)

Definition requireReady : C ReadyState := fun c =>
  match ready c with
  | None => (Throw (js "relay session is not ready"), c)
  | Some r => (Ok r, c)
  end.

Definition requireContactDiscovery : C unit :=
  do! _ := requireReady in
  do! enabled := get contactDiscoveryEnabled in
  require enabled (js "contact discovery extension is not negotiated").

Definition nextSequence : C Z :=
  do! _ := modify (fun c => set_sequence (sequence c + 1) c) in
  get sequence.

Definition randomToken (size : Z) : C jsstring := fun c =>
  (Ok (encodeBase64URL (randomBytes (draws c) size)), set_draws (S (draws c)) c).

(** [sendRaw(encodeFrame(frame))]: the text is checked with the decoder before
    it is written. *)
Definition sendRaw (frame : object) : C unit :=
  do! s := get socket in
  do! _ := require (bool_decide (s = Some socketOpenState)) (js "relay socket is not open") in
  do! type := lift (decodeDraftRelayAttachmentFrameText parse_URL JSON_parse (JSON_stringify (JObj frame))) in
  do! _ := modify (log [frame] []) in
  emit (frame_sent type).

Definition sendReadyFrame (frame : object) : C unit :=
  do! _ := requireReady in sendRaw frame.

Definition rejectDeferredFrames : C unit :=
  modify (fun c =>
    set_deferred [] (set_threads (map_delete_if (fun tid _ => bool_decide (tid ∈ deferred c)) (threads c)) (nextThread c) c)).

Definition requireTargetRouteCapacity : C unit :=
  do! routes := get targetRoutes in
  require (negb (maxLiveTargetRoutes <=? zlen routes)) (js "live relay lookup route limit reached").

Definition bind_route (peer r : jsstring) : C unit :=
  modify (fun c => set_routes (map_set (targetRoutes c) peer r) (map_set (routeTargets c) r peer) c).

Fixpoint allocation_attempts (attempts : nat) (peer readyRoute : jsstring) : C jsstring :=
  match attempts with
  | O => throw (js "unable to allocate a unique relay lookup route")
  | S attempts =>
      do! r := randomToken 16 in
      do! targets := get routeTargets in
      if str_eqb r readyRoute || map_has targets r then allocation_attempts attempts peer readyRoute
      else do! _ := bind_route peer r in ret r
  end.

Definition allocateLookupRoute (peer readyRoute : jsstring) : C jsstring :=
  do! _ := requireTargetRouteCapacity in
  allocation_attempts routeAllocationAttempts peer readyRoute.

Definition lookupRouteForPeer (peer : jsstring) (requested : option jsstring) (readyRoute : jsstring)
  : C jsstring :=
  do! routes := get targetRoutes in
  let existing := map_get routes peer in
  match requested with
  | None =>
      match existing with Some r => ret r | None => allocateLookupRoute peer readyRoute end
  | Some requested =>
      do! _ := lift (assertRouteID requested (js "invalid relay route id")) in
      do! _ := require (negb (str_eqb requested readyRoute))
                 (js "READY route id cannot be used as a relay lookup route") in
      do! _ := require (bool_decide (default requested existing = requested))
                 (js "peer already has a different relay lookup route") in
      do! targets := get routeTargets in
      do! _ := require (bool_decide (default peer (map_get targets requested) = peer))
                 (js "relay lookup route is already bound to another peer") in
      do! _ := match existing with
               | Some _ => ret tt
               | None =>
                   do! _ := requireTargetRouteCapacity in
                   bind_route peer requested
               end in
      ret requested
  end.

Definition requireEnvelopeRoute (requested : option jsstring) (readyRoute : jsstring) : C jsstring :=
  do! targets := get routeTargets in
  match requested with
  | Some requested =>
      do! _ := lift (assertRouteID requested (js "invalid relay route id")) in
      do! _ := require (negb (str_eqb requested readyRoute))
                 (js "READY route id cannot be used as a relay lookup route") in
      do! _ := require (map_has targets requested) (js "relay lookup route is not bound to a peer") in
      ret requested
  | None =>
      match targets with
      | [(r, _)] => ret r
      | [] => throw (js "relay lookup route is required before sending an envelope")
      | _ => throw (js "explicit relay lookup route is required for multiple peers")
      end
  end.

Definition envelope_frame (r : ReadyState) (p : PendingEnvelope) : object :=
  [(js "type", str (js "ENVELOPE")); (js "session_id", str (sessionId r)); (js "route_id", str (routeId p));
   (js "origin_route_id", str (originRouteId p)); (js "path_epoch", num defaultPathEpoch);
   (js "stream_id", num (streamId p)); (js "delivery_id", str (deliveryId p));
   (js "ciphertext", str (ciphertext p)); (js "ack_requested", JBool (ackRequested p))].

Definition sendPendingEnvelope (p : PendingEnvelope) : C unit :=
  do! r := requireReady in
  do! _ := sendReadyFrame (envelope_frame r p) in
  emit (envelope_sent (deliveryId p) (routeId p) (originRouteId p)).

(** ** Methods *)

Definition announcePresence (ttlSeconds : number) (now : Z) : C unit :=
  do! n := nextSequence in
  do! r := requireReady in
  do! peer := get peerId in
  do! _ := sendReadyFrame
    [(js "type", str (js "PRESENCE")); (js "session_id", str (sessionId r)); (js "route_id", str (readyRouteId r));
     (js "peer_id", str peer); (js "sequence", num n); (js "ttl_seconds", JNum ttlSeconds);
     (js "sent_at", num now)] in
  emit (presence_announced peer n).

Definition heartbeat (now : Z) : C unit :=
  do! n := nextSequence in
  do! r := requireReady in
  do! _ := sendReadyFrame
    [(js "type", str (js "HEARTBEAT")); (js "session_id", str (sessionId r)); (js "sequence", num n);
     (js "sent_at", num now)] in
  emit (heartbeat_sent n).

Definition lookup (peer : jsstring) : C unit :=
  do! n := nextSequence in
  do! r := requireReady in
  do! _ := sendReadyFrame
    [(js "type", str (js "LOOKUP")); (js "session_id", str (sessionId r)); (js "peer_id", str peer);
     (js "sequence", num n)] in
  emit (lookup_requested peer n).

Definition announceContactDiscovery (discoverable : bool) : C unit :=
  do! _ := requireContactDiscovery in
  do! r := requireReady in
  do! n := nextSequence in
  sendReadyFrame
    [(js "type", str (js "CONTACT_ANNOUNCE")); (js "session_id", str (sessionId r));
     (js "discoverable", JBool discoverable); (js "sequence", num n)].

Definition lookupContact (branchId requesterHpkePublicKey : jsstring) (now : Z) : C (jsstring * Z) :=
  do! _ := requireContactDiscovery in
  do! _ := lift (parseBranchID branchId) in
  do! key := lift (decodeBase64URL requesterHpkePublicKey) in
  do! _ := require (zlen key =? 32) (js "invalid requester HPKE public key") in
  do! requestId := randomToken 16 in
  let issuedAt := now * 1000 in
  let expiresAt := issuedAt + 60000 in
  do! r := requireReady in
  do! _ := sendReadyFrame
    [(js "type", str (js "CONTACT_LOOKUP")); (js "session_id", str (sessionId r));
     (js "request_id", str requestId); (js "branch_id", str branchId);
     (js "requester_hpke_public_key", str requesterHpkePublicKey); (js "issued_at", num issuedAt);
     (js "expires_at", num expiresAt)] in
  do! _ := emit (contact_lookup_requested requestId branchId expiresAt) in
  ret (requestId, expiresAt).

Definition rendezvous (peer : jsstring) (hints : list RelayRouteHint) (requested : option jsstring)
  : C jsstring :=
  do! r := requireReady in
  do! n := nextSequence in
  do! hints := lift (validateRouteHints hints) in
  do! target := lookupRouteForPeer peer requested (readyRouteId r) in
  do! _ := sendReadyFrame
    ([(js "type", str (js "RENDEZVOUS")); (js "session_id", str (sessionId r)); (js "route_id", str target);
      (js "peer_id", str peer); (js "sequence", num n)]
     ++ if 0 <? zlen hints then [(js "route_hints", JArr (toWireRouteHint <$> hints))] else []) in
  do! _ := emit (rendezvous_ready peer target n (zlen hints)) in
  ret target.

Record SendOptions := mkSendOptions {
  o_deliveryId : option jsstring; o_routeId : option jsstring; o_originRouteId : option jsstring;
  o_ackRequested : option bool;
}.

(** The bounded insertion of [sendSealedEnvelope]. *)
Definition enqueue (p : PendingEnvelope) : C unit :=
  do! known := get (fun c => map_has (pending c) (deliveryId p)) in
  do! full := get (fun c => maxPendingEnvelopes c <=? zlen (pending c)) in
  do! _ := require (known || negb full) (js "live pending envelope limit exceeded") in
  modify (fun c => set_pending (map_set (pending c) (deliveryId p) p) c).

Definition sendSealedEnvelope (sealedPayload : jsstring) (o : SendOptions) : C jsstring :=
  do! _ := lift (decodeBase64URL sealedPayload) in
  do! r := requireReady in
  do! target := requireEnvelopeRoute (o_routeId o) (readyRouteId r) in
  let origin := default (readyRouteId r) (o_originRouteId o) in
  do! _ := lift (assertRouteID target (js "invalid relay route id")) in
  do! _ := lift (assertRouteID origin (js "invalid origin route id")) in
  do! delivery := match o_deliveryId o with Some d => ret d | None => randomToken 16 end in
  let p := mkPending delivery sealedPayload target origin defaultStreamID (default true (o_ackRequested o)) in
  do! _ := enqueue p in
  do! _ := sendPendingEnvelope p in
  ret delivery.

Definition sendEnvelope (text : jsstring) (o : SendOptions) : C jsstring :=
  sendSealedEnvelope (encodeBase64URL (utf8_encode text)) o.

(** [this.pending.delete(deliveryId)] and whether it was there. *)
Definition delete_pending (delivery : jsstring) : C bool := fun c =>
  (Ok (map_has (pending c) delivery), set_pending (map_delete (pending c) delivery) c).

Definition markPeerReceipt (delivery : jsstring) : C unit :=
  do! deleted := delete_pending delivery in
  if deleted then emit (peer_receipt delivery) else ret tt.

Definition abandonPendingEnvelope (delivery : jsstring) : C bool :=
  do! deleted := delete_pending delivery in
  if negb deleted then ret false
  else do! _ := emit (pending_abandoned delivery) in ret true.

Fixpoint send_each (ps : list PendingEnvelope) : C unit :=
  match ps with
  | [] => ret tt
  | p :: ps => do! _ := sendPendingEnvelope p in send_each ps
  end.

Definition retryPending : C unit :=
  do! ps := get (fun c => (pending c).*2) in
  do! _ := send_each ps in
  do! count := get (fun c => zlen (pending c)) in
  emit (pending_retried count).

Definition disconnect : C unit :=
  do! s := get socket in
  do! _ := modify (set_ready None) in
  do! _ := modify (set_routes [] []) in
  do! _ := modify (set_discovery false) in
  do! _ := modify (set_socket None) in
  do! _ := rejectDeferredFrames in
  match s with
  | None => ret tt
  | Some _ => do! count := get (fun c => zlen (pending c)) in emit (disconnected count false)
  end.

(** ** Frames of a ready session *)

Definition processReadyFrame (record : object) (now : Z) : C unit :=
  do! type := lift (readString record (js "type")) in
  if str_eqb type (js "ACK") then
    do! ackType := lift (readString record (js "ack_type")) in
    do! delivery := lift (readString record (js "delivery_id")) in
    if str_eqb ackType (js "peer.received") then
      do! _ := delete_pending delivery in emit (peer_receipt delivery)
    else if str_eqb ackType (js "relay.forwarded") then
      do! _ := delete_pending delivery in emit (relay_ack delivery ackType)
    else if str_eqb ackType (js "relay.accepted") then emit (relay_ack delivery ackType)
    else ret tt
  else if str_eqb type (js "ENVELOPE") then
    do! delivery := lift (readString record (js "delivery_id")) in
    do! sealed := lift (readString record (js "ciphertext")) in
    do! r := lift (readString record (js "route_id")) in
    do! origin := lift (readString record (js "origin_route_id")) in
    do! sender := lift (readOptionalString record (js "sender_peer_id")) in
    emit (envelope_received delivery sealed r origin sender)
  else if str_eqb type (js "CONTACT_PROBE") then
    do! enabled := get contactDiscoveryEnabled in
    do! accepted :=
      if enabled then
        do! session := lift (readString record (js "session_id")) in
        do! r := requireReady in ret (str_eqb session (sessionId r))
      else ret false in
    if negb accepted then emit (error_event (js "contact_probe_rejected"))
    else
    do! expiresAt := lift (readNumber record (js "expires_at")) in
    if expiresAt <=? now * 1000 then emit (error_event (js "contact_probe_expired"))
    else
    do! requestId := lift (readString record (js "request_id")) in
    do! branchId := lift (readString record (js "branch_id")) in
    do! requester := lift (readString record (js "requester_peer_id")) in
    do! key := lift (readString record (js "requester_hpke_public_key")) in
    emit (contact_probe requestId branchId requester key expiresAt)
  else if str_eqb type (js "ERROR") then
    do! code := lift (readString record (js "code")) in
    if str_eqb code (js "peer_unavailable") || str_eqb code (js "route_unavailable") then
      do! retryable := lift (readBoolean record (js "retryable")) in
      do! count := get (fun c => zlen (pending c)) in
      emit (peer_unavailable retryable count)
    else emit (error_event code)
  else ret tt.

(** ** Socket events *)

(** A waiter takes the frame: it goes to the inbox of its thread. *)
Definition fill_inbox (record : object) (stage : Stage) : Stage :=
  match stage with
  | at_challenge nonce raw None => at_challenge nonce raw (Some record)
  | at_ready None => at_ready (Some record)
  | stage => stage
  end.

Definition update_thread (tid : nat) (f : Stage -> Stage) (c : Client) : Client :=
  match map_get (threads c) tid with
  | Some stage => set_threads (map_set (threads c) tid (f stage)) (nextThread c) c
  | None => c
  end.

(** [data] is [None] when the event carries no text. *)
Definition handleSocketMessage (data : option jsstring) (now : Z) : C unit :=
  match data with
  | None => emit (error_event (js "relay sent non-text frame"))
  | Some data =>
      if maxDraftRelayAttachmentFrameBytes <? zlen (utf8_encode data)
      then emit (error_event (js "relay frame too large"))
      else match decodeRelayRecord data with
      | Throw message => emit (error_event message)
      | Ok record =>
          do! waiting := get deferred in
          match waiting with
          | tid :: rest =>
              do! _ := modify (set_deferred rest) in
              modify (update_thread tid (fill_inbox record))
          | [] => processReadyFrame record now
          end
      end
  end.

Definition handleSocketClose : C unit :=
  do! _ := modify (set_ready None) in
  do! _ := modify (set_routes [] []) in
  do! _ := modify (set_socket None) in
  do! _ := rejectDeferredFrames in
  do! count := get (fun c => zlen (pending c)) in
  emit (disconnected count true).

Definition handleSocketError : C unit := emit (error_event (js "relay socket error")).

(** ** [attach], stage by stage

    [wake] continues a call from the stage it stands at with the outcome of its
    await; the result is the next stage, or [None] when the call returns. *)

Inductive Wakeup : Type :=
| w_opened (now : Z) | w_open_failed (message : jsstring) | w_frame (now : Z) | w_timeout
| w_digest (outcome : option bytes) | w_verified (outcome : option bool) | w_signed (outcome : option bytes).

Definition hello_frame (clientNonce : jsstring) (now maxFrame : Z) : object :=
  [(js "type", str (js "HELLO")); (js "client_nonce", str clientNonce); (js "client_time", num now);
   (js "requested_role", str relayForwardLiveCapability); (js "max_frame_bytes", num maxFrame);
   (js "offers", JArr [makeVersionOffer])].

Definition transcript_input (helloRaw : jsstring) (selected : object) (clientNonce relayNonce relayKey : jsstring)
  : result bytes :=
  let? a := decodeBase64URL clientNonce in
  let? b := decodeBase64URL relayNonce in
  let? k := decodeBase64URL relayKey in
  Ok (utf8_encode helloRaw ++ utf8_encode (JSON_stringify (JObj selected)) ++ a ++ b ++ k).

Definition attach_opened (tid : nat) (now : Z) : C (option Stage) :=
  do! clientNonce := randomToken 32 in
  do! maxFrame := get maxFrameBytes in
  let hello := hello_frame clientNonce now maxFrame in
  let helloRaw := JSON_stringify (JObj hello) in
  do! _ := sendRaw hello in
  do! _ := modify (fun c => set_deferred (deferred c ++ [tid]) c) in
  ret (Some (at_challenge clientNonce helloRaw None)).

Definition attach_challenged (clientNonce helloRaw : jsstring) (challenge : object) (now : Z)
  : C (option Stage) :=
  do! _ := lift (assertFrameType challenge (js "CHALLENGE")) in
  do! issuedAt := lift (readNumber challenge (js "issued_at")) in
  do! expiresAt := lift (readNumber challenge (js "expires_at")) in
  do! _ := require (negb (expiresAt <=? now)) (js "relay challenge expired") in
  do! _ := require (negb (now + maxChallengeClockSkewSeconds <? issuedAt))
             (js "relay challenge issued in the future") in
  do! selected := lift (readObject challenge (js "selected")) in
  do! relayNonce := lift (readString challenge (js "relay_nonce")) in
  do! r := get route in
  do! input := lift (transcript_input helloRaw selected clientNonce relayNonce (relayPublicKey r)) in
  ret (Some (at_digest clientNonce challenge selected input)).

Definition attach_digested (clientNonce : jsstring) (challenge selected : object) (outcome : option bytes)
  : C (option Stage) :=
  do! transcriptHash := lift (result_of_option (js "digest") outcome) in
  do! nonce := lift (readString challenge (js "client_nonce")) in
  do! _ := require (str_eqb nonce clientNonce) (js "relay challenge nonce mismatch") in
  do! key := lift (readString challenge (js "relay_public_key")) in
  do! r := get route in
  do! _ := require (str_eqb key (relayPublicKey r)) (js "relay identity mismatch") in
  do! hash := lift (readString challenge (js "transcript_hash")) in
  do! _ := require (str_eqb hash (encodeBase64URL transcriptHash)) (js "relay transcript hash mismatch") in
  do! proof := lift (readString challenge (js "relay_proof")) in
  ret (Some (at_verify clientNonce challenge selected transcriptHash)).

Definition attach_verified (clientNonce : jsstring) (challenge selected : object) (transcriptHash : bytes)
    (outcome : option bool) : C (option Stage) :=
  do! valid := lift (result_of_option (js "verify") outcome) in
  do! _ := require valid (js "relay proof invalid") in
  do! _ := modify (set_discovery (hasExtension selected contactDiscoveryLiveExtension)) in
  ret (Some (at_sign clientNonce challenge transcriptHash)).

Definition attach_signed (tid : nat) (clientNonce : jsstring) (challenge : object) (transcriptHash : bytes)
    (outcome : option bytes) : C (option Stage) :=
  do! proof := lift (result_of_option (js "sign") outcome) in
  do! key := get publicKey in
  do! relayNonce := lift (readString challenge (js "relay_nonce")) in
  do! _ := sendRaw
    [(js "type", str (js "AUTH")); (js "client_public_key", str key); (js "client_nonce", str clientNonce);
     (js "relay_nonce", str relayNonce); (js "transcript_hash", str (encodeBase64URL transcriptHash));
     (js "client_proof", str (encodeBase64URL proof))] in
  do! _ := modify (fun c => set_deferred (deferred c ++ [tid]) c) in
  ret (Some (at_ready None)).

Definition attach_ready (frame : object) : C (option Stage) :=
  do! _ := lift (assertFrameType frame (js "READY")) in
  do! session := lift (readString frame (js "session_id")) in
  do! routeId := lift (readString frame (js "route_id")) in
  do! ttl := lift (readNumber frame (js "presence_ttl_seconds")) in
  do! interval := lift (readNumber frame (js "heartbeat_interval_seconds")) in
  do! _ := modify (set_ready (Some (mkReady session routeId ttl interval))) in
  do! r := get route in
  do! _ := emit (attached session routeId (endpointUri r)) in
  ret None.

Definition wake (tid : nat) (stage : Stage) (w : Wakeup) : option (C (option Stage)) :=
  match stage, w with
  | at_open, w_opened now => Some (attach_opened tid now)
  | at_open, w_open_failed message => Some (throw message)
  | at_challenge nonce raw (Some challenge), w_frame now => Some (attach_challenged nonce raw challenge now)
  | at_challenge _ _ None, w_timeout | at_ready None, w_timeout =>
      Some (do! _ := modify (fun c => set_deferred (filter (fun t => t <> tid) (deferred c)) c) in
            throw (js "relay handshake timeout"))
  | at_digest nonce challenge selected _, w_digest outcome => Some (attach_digested nonce challenge selected outcome)
  | at_verify nonce challenge selected hash, w_verified outcome =>
      Some (attach_verified nonce challenge selected hash outcome)
  | at_sign nonce challenge hash, w_signed outcome => Some (attach_signed tid nonce challenge hash outcome)
  | at_ready (Some frame), w_frame _ => Some (attach_ready frame)
  | _, _ => None
  end.

Definition drop_thread (tid : nat) (c : Client) : Client :=
  set_threads (map_delete (threads c) tid) (nextThread c) c.

(** Continues the call [tid]; it ends when it returns or throws. *)
Definition resume (tid : nat) (w : Wakeup) (c : Client) : option (result unit * Client) :=
  match map_get (threads c) tid with
  | None => None
  | Some stage =>
      match wake tid stage w with
      | None => None
      | Some m =>
          match m c with
          | (Ok (Some stage'), c') => Some (Ok tt, update_thread tid (fun _ => stage') c')
          | (Ok None, c') => Some (Ok tt, drop_thread tid c')
          | (Throw e, c') => Some (Throw e, drop_thread tid c')
          end
      end
  end.

(** The synchronous part of [attach], up to the wait for the socket: [state] is
    the ready state of the new socket. *)
Definition attach_start (state : Z) : C unit :=
  do! _ := disconnect in
  modify (fun c => set_threads (map_set (threads c) (nextThread c) at_open) (S (nextThread c)) (set_socket (Some state) c)).

(** ** Construction and steps *)

Record SameRelayPendingEnvelope := mkSaved {
  s_deliveryId : jsstring; s_ciphertext : jsstring; s_routeId : option jsstring; s_originRouteId : jsstring;
  s_streamId : Z; s_ackRequested : bool;
}.

Fixpoint load_pending (limit : Z) (saved : list SameRelayPendingEnvelope)
    (p : list (jsstring * PendingEnvelope)) : result (list (jsstring * PendingEnvelope)) :=
  match saved with
  | [] => Ok p
  | s :: saved =>
      if negb (map_has p (s_deliveryId s)) && (limit <=? zlen p)
      then Throw (js "live pending envelope limit exceeded")
      else load_pending limit saved
             (map_set p (s_deliveryId s)
                (mkPending (s_deliveryId s) (s_ciphertext s) (default (s_originRouteId s) (s_routeId s))
                   (s_originRouteId s) (s_streamId s) (s_ackRequested s)))
  end.

Definition new_client (r : RelayRouteMaterial) (peer key : jsstring) (saved : list SameRelayPendingEnvelope)
    (maxFrame : Z) (limit : number) : result Client :=
  let? r := assertVerifiedRelayRouteMaterial r in
  let? limit := boundedPendingEnvelopeLimit limit in
  let? p := load_pending limit saved [] in
  Ok (mkClient r peer key (Z.min maxFrame defaultMaxFrameBytes) limit p [] [] [] None None false 0 [] 0 0 [] []).

Inductive Call : Type :=
| c_attach (state : Z) | c_wake (tid : nat) (w : Wakeup)
| c_presence (ttl : number) (now : Z) | c_heartbeat (now : Z) | c_lookup (peer : jsstring)
| c_announce (discoverable : bool) | c_lookupContact (branchId key : jsstring) (now : Z)
| c_rendezvous (peer : jsstring) (hints : list RelayRouteHint) (requested : option jsstring)
| c_sendSealed (payload : jsstring) (o : SendOptions) | c_sendEnvelope (text : jsstring) (o : SendOptions)
| c_receipt (delivery : jsstring) | c_abandon (delivery : jsstring) | c_retry | c_disconnect
| c_message (data : option jsstring) (now : Z) | c_socket_state (state : Z) | c_close | c_error.

(** One call or event.  Events of the socket need a socket: its listeners are
    removed with it. *)
Definition step (c : Client) (call : Call) : option (result unit * Client) :=
  let on_socket r := match socket c with Some _ => Some r | None => None end in
  match call with
  | c_attach state => Some (after (attach_start state) c)
  | c_wake tid w => resume tid w c
  | c_presence ttl now => Some (after (announcePresence ttl now) c)
  | c_heartbeat now => Some (after (heartbeat now) c)
  | c_lookup peer => Some (after (lookup peer) c)
  | c_announce discoverable => Some (after (announceContactDiscovery discoverable) c)
  | c_lookupContact branchId key now => Some (after (lookupContact branchId key now) c)
  | c_rendezvous peer hints requested => Some (after (rendezvous peer hints requested) c)
  | c_sendSealed payload o => Some (after (sendSealedEnvelope payload o) c)
  | c_sendEnvelope text o => Some (after (sendEnvelope text o) c)
  | c_receipt delivery => Some (after (markPeerReceipt delivery) c)
  | c_abandon delivery => Some (after (abandonPendingEnvelope delivery) c)
  | c_retry => Some (after retryPending c)
  | c_disconnect => Some (after disconnect c)
  | c_message data now => on_socket (after (handleSocketMessage data now) c)
  | c_socket_state state => on_socket (Ok tt, set_socket (Some state) c)
  | c_close => on_socket (after handleSocketClose c)
  | c_error => on_socket (after handleSocketError c)
  end.

Inductive reachable (c0 : Client) : list Call -> Client -> Prop :=
| reach_start : reachable c0 [] c0
| reach_step tr c call r c' : reachable c0 tr c -> step c call = Some (r, c') -> reachable c0 (tr ++ [call]) c'.

Fixpoint run_calls (c : Client) (calls : list Call) : option (list (result unit) * Client) :=
  match calls with
  | [] => Some ([], c)
  | call :: calls =>
      match step c call with
      | None => None
      | Some (r, c') => (fun p => (r :: p.1, p.2)) <$> run_calls c' calls
      end
  end.
End Session.
