(* ===== verification/SameRelayFacts.v ===== *)
(** * The live relay session: invariants of every reachable state

    Four independent invariants, each over the fields it is about, so that a
    method that does not touch them keeps it by conversion: the pending window
    ([pending_ok]), the two route maps ([routes_ok]), the sequence numbers on the
    wire ([wire_ok]) and the calls of [attach] under way ([threads_ok]). *)
From Stdlib Require Import Sorting.Sorted.
From S2P Require Import Prelude JsRuntime Collections Effects Base64Url Json Envelope RelayAttachment RelayFrames SameRelay.

(** ** Invariants *)

Definition pending_ok (limit : Z) (p : list (jsstring * PendingEnvelope)) : Prop :=
  map_wf p /\ 1 <= limit <= defaultMaxPendingEnvelopes /\ zlen p <= limit
  /\ Forall (fun kv => deliveryId kv.2 = kv.1) p.

Definition pending_inv (c : Client) : Prop := pending_ok (maxPendingEnvelopes c) (pending c).

(** The route maps are inverse to each other, bounded, and empty when there is
    no session. *)
Definition routes_ok (t r : list (jsstring * jsstring)) (session : option ReadyState) : Prop :=
  map_wf t /\ map_wf r /\ (forall p x, map_get t p = Some x <-> map_get r x = Some p)
  /\ zlen t <= maxLiveTargetRoutes /\ (session = None -> t = [] /\ r = []).

Definition routes_inv (c : Client) : Prop := routes_ok (targetRoutes c) (routeTargets c) (ready c).

(** The sequence number a frame carries. *)
Definition frame_sequence (f : object) : option Z :=
  match prop f (js "sequence") with JNum (Int n) => Some n | _ => None end.

Definition wire_ok (w : list object) (n : Z) : Prop :=
  StronglySorted Z.lt (omap frame_sequence w) /\ Forall (fun s => 0 < s <= n) (omap frame_sequence w).

Definition wire_inv (c : Client) : Prop := 0 <= sequence c /\ wire_ok (wire c) (sequence c).

(** A stage that waits for a frame. *)
Definition awaits_frame (stage : Stage) : bool :=
  match stage with at_challenge _ _ None | at_ready None => true | _ => false end.

(** The waiters are the calls that await a frame, once each. *)
Definition threads_ok (d : list nat) (t : list (nat * Stage)) (next : nat) : Prop :=
  map_wf t /\ NoDup d
  /\ (forall tid, tid ∈ d <-> exists stage, map_get t tid = Some stage /\ awaits_frame stage = true)
  /\ Forall (fun tid => (tid < next)%nat) (map_keys t).

Definition threads_inv (c : Client) : Prop := threads_ok (deferred c) (threads c) (nextThread c).

(** ** Methods that leave an invariant's fields alone *)

Class Quiet (I : Client -> Prop) : Prop := {
  quiet_log : forall f e c, I c -> I (log f e c);
  quiet_draws : forall n c, I c -> I (set_draws n c);
  quiet_sequence : forall n c, I c -> I (set_sequence n c);
}.

#[export] Instance pending_quiet : Quiet pending_inv.
Proof. by constructor. Qed.
#[export] Instance routes_quiet : Quiet routes_inv.
Proof. by constructor. Qed.
#[export] Instance threads_quiet : Quiet threads_inv.
Proof. by constructor. Qed.

Lemma session_string_Ok o k x : SameRelay.readString o k = Ok x <-> prop o k = JStr x.
Proof.
  unfold SameRelay.readString. rewrite result_of_option_Ok. unfold as_string. destruct (prop o k); naive_solver.
Qed.

Section Methods.
Context (parse_URL : jsstring -> option URL) (JSON_parse : jsstring -> option json)
  (JSON_stringify : json -> jsstring) (localeCompare : jsstring -> jsstring -> Z)
  (randomBytes : nat -> Z -> bytes).

Section QuietMethods.
Context (I : Client -> Prop) `{!Quiet I}.

Lemma keep_emit e : keeps I (emit e).
Proof. intros c. apply quiet_log. Qed.

Lemma keep_requireReady : keeps I requireReady.
Proof. intros c Hc. unfold requireReady. by destruct (ready c). Qed.

Lemma keep_nextSequence : keeps I nextSequence.
Proof. apply keeps_bind; [| by intros; apply keeps_get]. intros c. apply quiet_sequence. Qed.

Lemma keep_randomToken n : keeps I (randomToken randomBytes n).
Proof. intros c. apply quiet_draws. Qed.

Hint Resolve keep_emit keep_requireReady keep_nextSequence keep_randomToken : branch.

Lemma keep_sendRaw f : keeps I (sendRaw parse_URL JSON_parse JSON_stringify f).
Proof. unfold sendRaw. keep. intros c. apply quiet_log. Qed.

Lemma keep_sendReadyFrame f : keeps I (sendReadyFrame parse_URL JSON_parse JSON_stringify f).
Proof. unfold sendReadyFrame. keep. apply keep_sendRaw. Qed.

Hint Resolve keep_sendRaw keep_sendReadyFrame : branch.

Lemma keep_requireContactDiscovery : keeps I requireContactDiscovery.
Proof. unfold requireContactDiscovery. keep. Qed.

Hint Resolve keep_requireContactDiscovery : branch.

Lemma keep_presence ttl now : keeps I (announcePresence parse_URL JSON_parse JSON_stringify ttl now).
Proof. unfold announcePresence. keep. Qed.

Lemma keep_heartbeat now : keeps I (heartbeat parse_URL JSON_parse JSON_stringify now).
Proof. unfold heartbeat. keep. Qed.

Lemma keep_lookup peer : keeps I (lookup parse_URL JSON_parse JSON_stringify peer).
Proof. unfold lookup. keep. Qed.

Lemma keep_announce b : keeps I (announceContactDiscovery parse_URL JSON_parse JSON_stringify b).
Proof. unfold announceContactDiscovery. keep. Qed.

Lemma keep_lookupContact b k now :
  keeps I (lookupContact parse_URL JSON_parse JSON_stringify randomBytes b k now).
Proof. unfold lookupContact. keep. Qed.

Lemma keep_sendPending p : keeps I (sendPendingEnvelope parse_URL JSON_parse JSON_stringify p).
Proof. unfold sendPendingEnvelope. keep. Qed.

Lemma keep_send_each ps : keeps I (send_each parse_URL JSON_parse JSON_stringify ps).
Proof. induction ps; cbn [send_each]; keep. apply keep_sendPending. Qed.

Lemma keep_retry : keeps I (retryPending parse_URL JSON_parse JSON_stringify).
Proof. unfold retryPending. keep. apply keep_send_each. Qed.

Lemma keep_rendezvous peer hints requested :
  (forall r, keeps I (lookupRouteForPeer randomBytes peer requested r)) ->
  keeps I (rendezvous parse_URL JSON_parse JSON_stringify localeCompare randomBytes peer hints requested).
Proof. intros H. unfold rendezvous. keep. Qed.

Lemma keep_processReadyFrame f now : (forall d, keeps I (delete_pending d)) -> keeps I (processReadyFrame f now).
Proof. intros H. unfold processReadyFrame. keep. Qed.

Lemma keep_sendSealed payload o :
  (forall p, keeps I (enqueue p)) ->
  keeps I (sendSealedEnvelope parse_URL JSON_parse JSON_stringify randomBytes payload o).
Proof. intros H. unfold sendSealedEnvelope, requireEnvelopeRoute. keep. apply keep_sendPending. Qed.
End QuietMethods.

(** *** Invariants that sessions and handshakes leave alone *)

Class Inert (I : Client -> Prop) : Prop := {
  inert_event : forall e c, I c -> I (log [] [e] c);
  inert_deferred : forall d c, I c -> I (set_deferred d c);
  inert_threads : forall t n c, I c -> I (set_threads t n c);
  inert_discovery : forall b c, I c -> I (set_discovery b c);
  inert_socket : forall x c, I c -> I (set_socket x c);
  inert_ready : forall r c, I c -> I (set_ready (Some r) c);
  inert_cut : forall c, I c -> I (set_routes [] [] (set_ready None c));
}.

Section InertMethods.
Context (I : Client -> Prop) `{!Inert I}.

Lemma inert_rejects c : I c ->
  I (set_deferred [] (set_threads (map_delete_if (fun tid _ => bool_decide (tid ∈ deferred c)) (threads c)) (nextThread c) c)).
Proof. intros. by apply inert_deferred, inert_threads. Qed.

Lemma inert_emit e : keeps I (emit e).
Proof. intros c. apply inert_event. Qed.

Lemma inert_disconnect : keeps I disconnect.
Proof.
  intros c Hc. unfold disconnect, rejectDeferredFrames, bind, get, modify, emit.
  assert (Hn : I (set_socket None (set_discovery false (set_routes [] [] (set_ready None c)))))
    by (by apply inert_socket, inert_discovery, inert_cut).
  apply inert_rejects in Hn. destruct (socket c); [| exact Hn]. by apply (inert_event _ _ Hn).
Qed.

Lemma inert_close : keeps I handleSocketClose.
Proof.
  intros c Hc. unfold handleSocketClose, rejectDeferredFrames, bind, get, modify, emit.
  assert (Hn : I (set_socket None (set_routes [] [] (set_ready None c)))) by (by apply inert_socket, inert_cut).
  apply inert_rejects in Hn. by apply (inert_event _ _ Hn).
Qed.

Lemma inert_start n : keeps I (attach_start n).
Proof.
  apply keeps_bind; [apply inert_disconnect |]. intros _ c Hc. by apply inert_threads, inert_socket.
Qed.

Lemma inert_update tid f c : I c -> I (update_thread tid f c).
Proof. intros. unfold update_thread. case_match; [by apply inert_threads | done]. Qed.

Lemma inert_requireReady : keeps I requireReady.
Proof. intros c Hc. unfold requireReady. by destruct (ready c). Qed.

Lemma inert_processReadyFrame f now : (forall d, keeps I (delete_pending d)) -> keeps I (processReadyFrame f now).
Proof. intros H. pose proof inert_emit. pose proof inert_requireReady. unfold processReadyFrame. keep. Qed.

Lemma inert_message d now :
  (forall d, keeps I (delete_pending d)) -> keeps I (handleSocketMessage parse_URL JSON_parse d now).
Proof.
  intros H. unfold handleSocketMessage. pose proof inert_emit. keep.
  - by apply inert_processReadyFrame.
  - intros c. apply inert_deferred.
  - intros c. apply inert_update.
Qed.

(** What is left of the handshake: the two frames it writes. *)
Lemma inert_resume tid w c r c' :
  (forall n, keeps I (randomToken randomBytes n)) ->
  (forall nonce now maxFrame, keeps I (sendRaw parse_URL JSON_parse JSON_stringify (hello_frame nonce now maxFrame))) ->
  (forall f, frame_sequence f = None -> keeps I (sendRaw parse_URL JSON_parse JSON_stringify f)) ->
  I c -> resume parse_URL JSON_parse JSON_stringify randomBytes tid w c = Some (r, c') -> I c'.
Proof.
  intros Hrt Hh Ha Hc. unfold resume. destruct (map_get (threads c) tid) as [stage|]; [| done].
  destruct (wake _ _ _ _ tid stage w) as [m|] eqn:Em; [| done].
  assert (Hm : keeps I m).
  { pose proof inert_emit. destruct stage as [|? ? []| | | |[]], w; simplify_eq/=.
    - unfold attach_opened. keep. intros c0. apply inert_deferred.
    - apply keeps_throw.
    - unfold attach_challenged. keep.
    - keep. intros c0. apply inert_deferred.
    - unfold attach_digested. keep.
    - unfold attach_verified. keep. intros c0. apply inert_discovery.
    - unfold attach_signed. keep; [by apply Ha |]. intros c0. apply inert_deferred.
    - unfold attach_ready. keep. intros c0. apply inert_ready.
    - keep. intros c0. apply inert_deferred. }
  specialize (Hm c Hc). destruct (m c) as [[[stage'|]|] c2]; simpl in Hm; intros [= <- <-];
    [by apply inert_update | by apply inert_threads..].
Qed.
End InertMethods.

(** A step keeps an invariant that every method keeps. *)
Record keeps_methods (I : Client -> Prop) : Prop := {
  km_presence : forall ttl now, keeps I (announcePresence parse_URL JSON_parse JSON_stringify ttl now);
  km_heartbeat : forall now, keeps I (heartbeat parse_URL JSON_parse JSON_stringify now);
  km_lookup : forall peer, keeps I (lookup parse_URL JSON_parse JSON_stringify peer);
  km_announce : forall b, keeps I (announceContactDiscovery parse_URL JSON_parse JSON_stringify b);
  km_contact : forall b k now, keeps I (lookupContact parse_URL JSON_parse JSON_stringify randomBytes b k now);
  km_rendezvous : forall peer hints rq,
    keeps I (rendezvous parse_URL JSON_parse JSON_stringify localeCompare randomBytes peer hints rq);
  km_sealed : forall payload o, keeps I (sendSealedEnvelope parse_URL JSON_parse JSON_stringify randomBytes payload o);
  km_retry : keeps I (retryPending parse_URL JSON_parse JSON_stringify);
  km_delete : forall d, keeps I (delete_pending d);
  km_emit : forall e, keeps I (emit e);
  km_disconnect : keeps I disconnect;
  km_start : forall n, keeps I (attach_start n);
  km_close : keeps I handleSocketClose;
  km_message : forall d now, keeps I (handleSocketMessage parse_URL JSON_parse d now);
  km_socket : forall n c, I c -> I (set_socket (Some n) c);
}.

Definition keeps_wake (I : Client -> Prop) : Prop := forall tid w c r c', I c ->
  resume parse_URL JSON_parse JSON_stringify randomBytes tid w c = Some (r, c') -> I c'.

Lemma keeps_step (I : Client -> Prop) c call r c' :
  keeps_methods I ->
  (forall tid w, call = c_wake tid w ->
     resume parse_URL JSON_parse JSON_stringify randomBytes tid w c = Some (r, c') -> I c') ->
  I c ->
  step parse_URL JSON_parse JSON_stringify localeCompare randomBytes c call = Some (r, c') -> I c'.
Proof.
  intros K Hwake Hc Hs.
  assert (Hafter : forall A (m : C A), keeps I m -> Some (after m c) = Some (r, c') -> I c').
  { intros A m Hm [= E]. pose proof (keeps_after m I c Hm Hc) as H. by rewrite E in H. }
  assert (Hon : forall A (m : C A), keeps I m ->
    match socket c with Some _ => Some (after m c) | None => None end = Some (r, c') -> I c').
  { intros A m Hm. destruct (socket c); [by apply Hafter | done]. }
  unfold step in Hs. destruct call.
  - exact (Hafter _ _ (km_start _ K _) Hs).
  - exact (Hwake _ _ eq_refl Hs).
  - exact (Hafter _ _ (km_presence _ K _ _) Hs).
  - exact (Hafter _ _ (km_heartbeat _ K _) Hs).
  - exact (Hafter _ _ (km_lookup _ K _) Hs).
  - exact (Hafter _ _ (km_announce _ K _) Hs).
  - exact (Hafter _ _ (km_contact _ K _ _ _) Hs).
  - exact (Hafter _ _ (km_rendezvous _ K _ _ _) Hs).
  - exact (Hafter _ _ (km_sealed _ K _ _) Hs).
  - exact (Hafter _ _ (km_sealed _ K _ _) Hs).
  - refine (Hafter _ _ _ Hs). unfold markPeerReceipt. pose proof (km_emit _ K). pose proof (km_delete _ K). keep.
  - refine (Hafter _ _ _ Hs). unfold abandonPendingEnvelope. pose proof (km_emit _ K). pose proof (km_delete _ K). keep.
  - exact (Hafter _ _ (km_retry _ K) Hs).
  - exact (Hafter _ _ (km_disconnect _ K) Hs).
  - exact (Hon _ _ (km_message _ K _ _) Hs).
  - destruct (socket c); [| done]. injection Hs as <- <-. by apply (km_socket _ K).
  - exact (Hon _ _ (km_close _ K) Hs).
  - exact (Hon _ _ (km_emit _ K _) Hs).
Qed.

(** The methods of a quiet and inert invariant. *)
Lemma quiet_methods (I : Client -> Prop) :
  Quiet I -> Inert I ->
  (forall peer hints rq, keeps I (rendezvous parse_URL JSON_parse JSON_stringify localeCompare randomBytes peer hints rq)) ->
  (forall p, keeps I (enqueue p)) -> (forall d, keeps I (delete_pending d)) -> keeps_methods I.
Proof.
  intros HQ HI Hrv Hen Hdel. constructor; intros.
  - by apply keep_presence.
  - by apply keep_heartbeat.
  - by apply keep_lookup.
  - by apply keep_announce.
  - by apply keep_lookupContact.
  - apply Hrv.
  - by apply keep_sendSealed.
  - by apply keep_retry.
  - apply Hdel.
  - by apply inert_emit.
  - by apply inert_disconnect.
  - by apply inert_start.
  - by apply inert_close.
  - by apply inert_message.
  - by apply (inert_socket (Some n)).
Qed.

Lemma quiet_wake (I : Client -> Prop) : Quiet I -> Inert I -> keeps_wake I.
Proof.
  intros HQ HI tid w c r c' Hc Hr.
  eapply (inert_resume I); [intros; by apply keep_randomToken | intros; by apply keep_sendRaw.. | exact Hc | exact Hr].
Qed.

(** ** The pending window *)

Lemma pending_delete d : keeps pending_inv (delete_pending d).
Proof.
  intros c (Hwf & Hl & Hs & Hf). unfold pending_inv, delete_pending. cbn.
  split; [by apply map_delete_wf |]. split; [done |]. rewrite map_delete_filter. split.
  - unfold zlen in *. pose proof (length_filter (fun kv : jsstring * PendingEnvelope => d <> kv.1) (pending c)). lia.
  - apply Forall_forall. intros x [_ Hx]%list_elem_of_filter. by eapply (proj1 (Forall_forall _ _) Hf).
Qed.

Lemma zlen_map_set {V} (m : list (jsstring * V)) k v :
  zlen (map_set m k v) = if map_has m k then zlen m else zlen m + 1.
Proof.
  pose proof (map_keys_set m k v) as H. apply (f_equal length) in H. unfold map_keys, zlen in *.
  rewrite length_fmap in H. destruct (map_has m k); rewrite ?length_app, length_fmap in H; simpl in H; lia.
Qed.

Lemma Forall_map_set {V} (P : jsstring * V -> Prop) (m : list (jsstring * V)) k v :
  Forall P m -> P (k, v) -> Forall P (map_set m k v).
Proof.
  intros Hm Hp. induction Hm as [|[k' v'] m Hx Hm IH]; simpl; [by apply Forall_singleton |].
  destruct (decide (k = k')) as [->|]; by constructor.
Qed.

Lemma pending_enqueue p : keeps pending_inv (enqueue p).
Proof.
  apply keeps_triple. unfold enqueue. apply triple_get. intros known. apply triple_get. intros full.
  apply triple_require; [tauto |]. intros Hb. apply triple_modify.
  intros c [[(Hwf & Hl & Hs & Hf) <-] <-]. split; [by apply map_set_wf |]. split; [done |].
  cbn. rewrite zlen_map_set. split; [| by apply Forall_map_set].
  destruct (map_has (pending c) (deliveryId p)); [done |]. simpl in Hb. bool_props. lia.
Qed.

#[local] Instance pending_inert : Inert pending_inv.
Proof. by constructor. Qed.

#[local] Instance routes_inert : Inert routes_inv.
Proof.
  constructor; try by intros.
  - intros r c (? & ? & ? & ? & _). by split_and!.
  - intros c (? & ? & ? & ? & ?). unfold routes_inv. cbn. split_and!; [constructor | constructor | | done | done]. by intros.
Qed.

Lemma blind_lookupRoute (I : Client -> Prop) peer rq r :
  (forall n, keeps I (randomToken randomBytes n)) -> (forall p x, keeps I (bind_route p x)) ->
  keeps I (lookupRouteForPeer randomBytes peer rq r).
Proof.
  intros Hr Hb. unfold lookupRouteForPeer, allocateLookupRoute, requireTargetRouteCapacity. keep.
  generalize routeAllocationAttempts. intros n. induction n; cbn [allocation_attempts]; keep.
Qed.

Lemma pending_methods : keeps_methods pending_inv.
Proof.
  assert (Hrv : forall peer hints rq,
    keeps pending_inv (rendezvous parse_URL JSON_parse JSON_stringify localeCompare randomBytes peer hints rq)).
  { intros. apply (keep_rendezvous _). intros.
    apply blind_lookupRoute; [intros; apply (keep_randomToken _) | intros ? ? c0 Hc; exact Hc]. }
  apply quiet_methods; [apply _ | apply _ | done | apply pending_enqueue | apply pending_delete].
Qed.

(** ** The routes *)

Lemma bind_route_ok t r s peer x :
  routes_ok t r s -> s <> None -> map_get t peer = None -> map_get r x = None ->
  zlen t < maxLiveTargetRoutes -> routes_ok (map_set t peer x) (map_set r x peer) s.
Proof.
  intros (Ht & Hr & Hinv & Hl & _) Hs Hp Hx Hlt. split_and!; [by apply map_set_wf | by apply map_set_wf | | | done].
  - intros p y. destruct (decide (p = peer)) as [->|Hne], (decide (y = x)) as [->|Hne'].
    + by rewrite !map_get_set_eq.
    + rewrite map_get_set_eq, (map_get_set_ne r) by done. split; [congruence |].
      intros Hy. apply Hinv in Hy. congruence.
    + rewrite map_get_set_eq, (map_get_set_ne t) by done. split; [| congruence].
      intros Hy. apply Hinv in Hy. congruence.
    + by rewrite !map_get_set_ne.
  - rewrite zlen_map_set. unfold map_has. rewrite Hp. lia.
Qed.

(** In a session, with a fixed READY route that no peer is bound to. *)
Definition session_routes (s : ReadyState) (c : Client) : Prop := routes_inv c /\ ready c = Some s.

Lemma allocation_ok s peer attempts :
  triple (fun c => session_routes s c /\ map_get (targetRoutes c) peer = None /\ zlen (targetRoutes c) < maxLiveTargetRoutes)
    (allocation_attempts randomBytes attempts peer (readyRouteId s))
    (fun x c => session_routes s c /\ x <> readyRouteId s) (session_routes s).
Proof.
  induction attempts as [|n IH]; cbn [allocation_attempts]; [apply triple_throw; tauto |].
  apply triple_bind with (R := fun _ c => session_routes s c /\ map_get (targetRoutes c) peer = None
                                           /\ zlen (targetRoutes c) < maxLiveTargetRoutes);
    [intros c Hc; exact Hc |]. intros x. apply triple_get. intros targets.
  destruct (str_eqb x (readyRouteId s) || map_has targets x) eqn:E.
  - intros c [Hc _]. by apply IH.
  - apply orb_false_elim in E as [Hne%str_eqb_false Hx]. unfold bind_route.
    apply triple_bind with (R := fun _ => session_routes s).
    + apply triple_modify. intros c [([Hi Hs] & Hp & Hl) <-]. split; [| done].
      unfold routes_inv in *. cbn. apply bind_route_ok; try done; [congruence |].
      unfold map_has in Hx. by destruct (map_get (routeTargets c) x).
    + intros _. apply triple_ret. done.
Qed.

Lemma lookup_route_ok s peer rq :
  triple (session_routes s) (lookupRouteForPeer randomBytes peer rq (readyRouteId s))
    (fun _ => session_routes s) (session_routes s).
Proof.
  unfold lookupRouteForPeer. apply triple_get. intros routes. destruct rq as [x|].
  - apply triple_lift; [tauto |]. intros _ _. apply triple_require; [tauto |]. intros Hne.
    apply triple_require; [tauto |]. intros _. apply triple_get. intros targets.
    apply triple_require; [tauto |]. intros Hfree%bool_decide_eq_true.
    apply triple_bind with (R := fun _ => session_routes s); [| intros _; by apply triple_ret].
    destruct (map_get routes peer) as [y|] eqn:Ep; [apply triple_ret; tauto |].
    unfold requireTargetRouteCapacity. intros c [[Hc <-] <-].
    unfold bind, get, require. destruct (maxLiveTargetRoutes <=? zlen (targetRoutes c)) eqn:El; [exact Hc |].
    bool_props. destruct Hc as [Hi Hs]. split; [| exact Hs]. unfold routes_inv in *. cbn.
    apply bind_route_ok; try done; [congruence |].
    destruct (map_get (routeTargets c) x) as [p|] eqn:Ex; [| done]. simpl in Hfree. subst p.
    destruct Hi as (_ & _ & Hinv & _). apply Hinv in Ex. congruence.
  - destruct (map_get routes peer) as [y|] eqn:Ep; [by apply triple_ret; intros c [? _] |].
    unfold allocateLookupRoute, requireTargetRouteCapacity. intros c [Hc <-].
    unfold bind, get, require. destruct (maxLiveTargetRoutes <=? zlen (targetRoutes c)) eqn:El; [exact Hc |].
    bool_props. pose proof (allocation_ok s peer routeAllocationAttempts c (conj Hc (conj Ep El))) as H.
    cbn [negb ret]. destruct (allocation_attempts _ _ _ _ c) as [[] ?]; [by destruct H | done].
Qed.

Lemma routes_rendezvous peer hints rq :
  keeps routes_inv (rendezvous parse_URL JSON_parse JSON_stringify localeCompare randomBytes peer hints rq).
Proof.
  apply keeps_triple. unfold rendezvous.
  apply triple_bind with (R := fun s => session_routes s).
  { intros c Hc. unfold requireReady. by destruct (ready c) as [s|] eqn:E. }
  intros s.
  assert (Hq : Quiet (session_routes s)) by (constructor; [intros f e c [? ?] | intros k c [? ?] | intros k c [? ?]]; by split).
  apply triple_bind with (R := fun _ => session_routes s).
  { apply triple_keeps; [apply (keep_nextSequence _) | by intros c []]. }
  intros n. apply triple_lift; [by intros c [] |]. intros hs _.
  apply triple_bind with (R := fun _ => session_routes s).
  { eapply triple_weaken; [apply lookup_route_ok | done | done | by intros c []]. }
  intros x. cbv zeta.
  eapply triple_weaken; [apply triple_keeps with (I := session_routes s) (E := routes_inv) | done | by intros ? c [] | done];
    [keep; [apply (keep_sendReadyFrame _) | apply (keep_emit _)] | by intros c []].
Qed.

Lemma routes_methods : keeps_methods routes_inv.
Proof.
  apply quiet_methods; [apply _ | apply _ | apply routes_rendezvous | | by intros d c].
  intros p. unfold enqueue. keep. by intros c0.
Qed.

(** ** Sequence numbers *)

Definition fresh (n : Z) (c : Client) : Prop := sequence c = n /\ 0 < n /\ wire_ok (wire c) (n - 1).

Lemma fresh_wire n c : fresh n c -> wire_inv c.
Proof.
  intros (<- & Hn & Hs & Hf). split; [lia |]. split; [done |].
  eapply Forall_impl; [exact Hf |]. simpl. lia.
Qed.

Lemma omap_sequence_app w f :
  omap frame_sequence (w ++ [f]) = omap frame_sequence w ++ match frame_sequence f with Some n => [n] | None => [] end.
Proof. rewrite omap_app. simpl. by destruct (frame_sequence f). Qed.

Lemma wire_ok_none w n f : frame_sequence f = None -> wire_ok w n -> wire_ok (w ++ [f]) n.
Proof. intros Hf H. unfold wire_ok. by rewrite omap_sequence_app, Hf, app_nil_r. Qed.

Lemma StronglySorted_snoc l n :
  StronglySorted Z.lt l -> Forall (fun s => s < n) l -> StronglySorted Z.lt (l ++ [n]).
Proof.
  induction 1 as [|x l Hs IH Hx]; intros Hf; simpl; [repeat constructor |].
  apply Forall_cons in Hf as [Hlt Hf]. constructor; [by apply IH |]. apply Forall_app. split; [done |].
  by apply Forall_singleton.
Qed.

Lemma wire_ok_next w n f :
  0 < n -> frame_sequence f = Some n -> wire_ok w (n - 1) -> wire_ok (w ++ [f]) n.
Proof.
  intros Hn Hf [Hs Ha]. unfold wire_ok. rewrite omap_sequence_app, Hf. split.
  - apply StronglySorted_snoc; [done |]. eapply Forall_impl; [exact Ha |]. simpl. lia.
  - apply Forall_app. split; [| by apply Forall_singleton; lia]. eapply Forall_impl; [exact Ha |]. simpl. lia.
Qed.

Lemma wire_event e c : wire_inv c -> wire_inv (log [] [e] c).
Proof. unfold wire_inv. cbn. by rewrite app_nil_r. Qed.

Lemma wire_emit e : keeps wire_inv (emit e).
Proof. intros c. apply wire_event. Qed.

#[local] Instance wire_inert : Inert wire_inv.
Proof. constructor; try done. apply wire_event. Qed.

Lemma wire_sendRaw f :
  frame_sequence f = None -> keeps wire_inv (sendRaw parse_URL JSON_parse JSON_stringify f).
Proof.
  intros Hf. unfold sendRaw. keep; [| apply wire_emit]. intros c [Hn Hw]. split; [done |]. by apply wire_ok_none.
Qed.

Lemma wire_sendReady f :
  frame_sequence f = None -> keeps wire_inv (sendReadyFrame parse_URL JSON_parse JSON_stringify f).
Proof. intros Hf. unfold sendReadyFrame. keep; [apply (inert_requireReady _) | by apply wire_sendRaw]. Qed.

Lemma wire_token n : keeps wire_inv (randomToken randomBytes n).
Proof. by intros c. Qed.

(** A numbered frame: the number is taken, then written at most once. *)
Lemma wire_numbered f n :
  frame_sequence f = Some n ->
  triple (fresh n) (sendReadyFrame parse_URL JSON_parse JSON_stringify f) (fun _ => wire_inv) wire_inv.
Proof.
  intros Hf c Hc. pose proof (fresh_wire n c Hc) as Hi. unfold sendReadyFrame, requireReady, bind.
  destruct (ready c); [| done]. unfold sendRaw, bind, get, require, lift, modify, emit.
  destruct (bool_decide _); [| done]. cbn [ret]. destruct (decodeDraftRelayAttachmentFrameText _ _ _) as [ty|]; [| done].
  destruct Hc as (<- & Hn & Hw). apply wire_event. split; [cbn; lia |]. by apply wire_ok_next.
Qed.

Lemma wire_next :
  triple wire_inv nextSequence (fun n => fresh n) wire_inv.
Proof.
  intros c [Hn Hw]. unfold nextSequence, bind, modify, get. cbn. split; [done |]. split; [lia |].
  cbn. by replace (sequence c + 1 - 1) with (sequence c) by lia.
Qed.

Lemma fresh_ready n (k : ReadyState -> C unit) :
  (forall s, triple (fresh n) (k s) (fun _ => wire_inv) wire_inv) ->
  triple (fresh n) (do! s := requireReady in k s) (fun _ => wire_inv) wire_inv.
Proof.
  intros H c Hc. unfold bind, requireReady. destruct (ready c); [exact (H _ c Hc) |]. by apply fresh_wire in Hc.
Qed.

(** The end of a numbered call: one frame, then an event. *)
Lemma numbered_tail {A} f n e (a : A) :
  frame_sequence f = Some n ->
  triple (fresh n) (do! _ := sendReadyFrame parse_URL JSON_parse JSON_stringify f in do! _ := emit e in ret a)
    (fun _ => wire_inv) wire_inv.
Proof.
  intros Hf. eapply triple_bind; [by apply wire_numbered |]. intros u.
  apply (keeps_triple wire_inv). keep. apply wire_emit.
Qed.

Lemma numbered_emit f n e :
  frame_sequence f = Some n ->
  triple (fresh n) (do! _ := sendReadyFrame parse_URL JSON_parse JSON_stringify f in emit e) (fun _ => wire_inv) wire_inv.
Proof. intros Hf. eapply triple_bind; [by apply wire_numbered |]. intros u. apply (keeps_triple wire_inv), wire_emit. Qed.

Lemma wire_presence ttl now : keeps wire_inv (announcePresence parse_URL JSON_parse JSON_stringify ttl now).
Proof.
  apply keeps_triple. unfold announcePresence. eapply triple_bind; [apply wire_next |]. intros n. apply fresh_ready.
  intros s. apply triple_get. intros peer. eapply triple_weaken; [by apply numbered_emit | tauto | done | done].
Qed.

Lemma wire_heartbeat now : keeps wire_inv (heartbeat parse_URL JSON_parse JSON_stringify now).
Proof.
  apply keeps_triple. eapply triple_bind; [apply wire_next |]. intros n. apply fresh_ready. intros s. by apply numbered_emit.
Qed.

Lemma wire_lookup peer : keeps wire_inv (lookup parse_URL JSON_parse JSON_stringify peer).
Proof.
  apply keeps_triple. eapply triple_bind; [apply wire_next |]. intros n. apply fresh_ready. intros s. by apply numbered_emit.
Qed.

Lemma wire_announce b : keeps wire_inv (announceContactDiscovery parse_URL JSON_parse JSON_stringify b).
Proof.
  unfold announceContactDiscovery, requireContactDiscovery. apply keeps_bind; [keep; apply (inert_requireReady _) |].
  intros _. apply keeps_bind; [apply (inert_requireReady _) |]. intros s.
  apply keeps_triple. eapply triple_bind; [apply wire_next |]. intros n. by apply wire_numbered.
Qed.

Lemma wire_lookupContact b k now :
  keeps wire_inv (lookupContact parse_URL JSON_parse JSON_stringify randomBytes b k now).
Proof.
  unfold lookupContact, requireContactDiscovery.
  keep; first [apply (inert_requireReady _) | apply wire_token | apply wire_emit | by apply wire_sendReady].
Qed.

Lemma wire_rendezvous peer hints rq :
  keeps wire_inv (rendezvous parse_URL JSON_parse JSON_stringify localeCompare randomBytes peer hints rq).
Proof.
  unfold rendezvous. apply keeps_bind; [apply (inert_requireReady _) |]. intros s.
  apply keeps_triple. eapply triple_bind; [apply wire_next |]. intros n.
  apply triple_lift; [apply fresh_wire |]. intros hs _. apply triple_bind with (R := fun _ => fresh n).
  - apply triple_keeps; [| apply fresh_wire]. apply blind_lookupRoute; [intros k c H; exact H | intros q y c H; exact H].
  - intros x. cbv zeta. apply numbered_tail. by destruct (0 <? zlen hs).
Qed.

Lemma wire_sendPending p : keeps wire_inv (sendPendingEnvelope parse_URL JSON_parse JSON_stringify p).
Proof. unfold sendPendingEnvelope. keep; first [apply (inert_requireReady _) | apply wire_emit | by apply wire_sendReady]. Qed.

Lemma wire_send_each ps : keeps wire_inv (send_each parse_URL JSON_parse JSON_stringify ps).
Proof. induction ps; cbn [send_each]; keep. apply wire_sendPending. Qed.

Lemma wire_sendSealed payload o :
  keeps wire_inv (sendSealedEnvelope parse_URL JSON_parse JSON_stringify randomBytes payload o).
Proof.
  unfold sendSealedEnvelope, requireEnvelopeRoute, enqueue.
  keep; first [apply (inert_requireReady _) | apply wire_token | apply wire_sendPending | intros c H; exact H].
Qed.

Lemma wire_methods : keeps_methods wire_inv.
Proof.
  constructor; intros.
  - apply wire_presence.
  - apply wire_heartbeat.
  - apply wire_lookup.
  - apply wire_announce.
  - apply wire_lookupContact.
  - apply wire_rendezvous.
  - apply wire_sendSealed.
  - unfold retryPending. keep; first [apply wire_send_each | apply wire_emit].
  - by intros c.
  - apply wire_emit.
  - apply (inert_disconnect _).
  - apply (inert_start _).
  - apply (inert_close _).
  - apply (inert_message _). by intros d0 c.
  - by apply (inert_socket (Some n)).
Qed.

Lemma wire_wake : keeps_wake wire_inv.
Proof.
  intros tid w c r c' Hc Hr.
  eapply (inert_resume wire_inv); [apply wire_token | intros; by apply wire_sendRaw.. | exact Hc | exact Hr].
Qed.

(** ** Calls of [attach] under way *)

Definition waits (t : list (nat * Stage)) (tid : nat) : Prop :=
  exists stage, map_get t tid = Some stage /\ awaits_frame stage = true.

Lemma rejects_ok d t n :
  threads_ok d t n -> threads_ok [] (map_delete_if (fun tid _ => bool_decide (tid ∈ d)) t) n.
Proof.
  intros (Ht & Hd & Hw & Hn). split; [by apply map_delete_if_wf |]. split; [constructor |]. split.
  - intros tid. rewrite (map_get_delete_if _ _ _ Ht). split; [by intros ?%elem_of_nil |].
    intros (stage & Hs & Ha). destruct (map_get t tid) as [st|] eqn:E; [| done].
    case_bool_decide as Hin; simplify_eq. destruct Hin. apply Hw. eauto.
  - apply Forall_forall. intros tid Hin. eapply Forall_forall in Hn; [exact Hn |].
    eapply elem_of_sublist; [exact Hin | apply map_keys_filter].
Qed.

Lemma threads_disconnect : keeps threads_inv disconnect.
Proof.
  intros c Hc. unfold disconnect, rejectDeferredFrames, bind, get, modify, emit.
  pose proof (rejects_ok _ _ _ Hc) as H. destruct (socket c); exact H.
Qed.

Lemma threads_close : keeps threads_inv handleSocketClose.
Proof.
  intros c Hc. unfold handleSocketClose, rejectDeferredFrames, bind, get, modify, emit.
  exact (rejects_ok _ _ _ Hc).
Qed.

Lemma thread_new d t n stage :
  threads_ok d t n -> awaits_frame stage = false -> threads_ok d (map_set t n stage) (S n).
Proof.
  intros (Ht & Hd & Hw & Hn) Hs.
  assert (Hfresh : n ∉ map_keys t) by (intros Hin; eapply Forall_forall in Hn; [| exact Hin]; lia).
  split; [by apply map_set_wf |]. split; [done |]. split.
  - intros tid. rewrite Hw. destruct (decide (tid = n)) as [->|Hne].
    + rewrite map_get_set_eq. apply map_get_None in Hfresh. rewrite Hfresh. naive_solver congruence.
    + by rewrite map_get_set_ne.
  - rewrite map_keys_set. rewrite (proj2 (map_has_false t n) Hfresh). apply Forall_app. split.
    + eapply Forall_impl; [exact Hn |]. simpl. lia.
    + apply Forall_singleton. lia.
Qed.

Lemma threads_start k : keeps threads_inv (attach_start k).
Proof.
  apply keeps_bind; [apply threads_disconnect |]. intros _ c Hc. by apply thread_new.
Qed.

(** The stage of one call changes, together with the list of waiters. *)
Lemma thread_set d d' t n tid stage stage' :
  threads_ok d t n -> map_get t tid = Some stage -> NoDup d' ->
  (forall x, x ∈ d' <-> (x = tid /\ awaits_frame stage' = true) \/ (x <> tid /\ x ∈ d)) ->
  threads_ok d' (map_set t tid stage') n.
Proof.
  intros (Ht & Hd & Hw & Hn) Hs Hd' Hm. split; [by apply map_set_wf |]. split; [done |]. split.
  - intros x. rewrite Hm. destruct (decide (x = tid)) as [->|Hne].
    + rewrite map_get_set_eq. naive_solver.
    + rewrite map_get_set_ne by done. rewrite Hw. naive_solver.
  - rewrite map_keys_set. unfold map_has. by rewrite Hs.
Qed.

Lemma thread_drop d d' t n tid :
  threads_ok d t n -> NoDup d' -> (forall x, x ∈ d' <-> x <> tid /\ x ∈ d) ->
  threads_ok d' (map_delete t tid) n.
Proof.
  intros (Ht & Hd & Hw & Hn) Hd' Hm. split; [by apply map_delete_wf |]. split; [done |]. split.
  - intros x. rewrite Hm. destruct (decide (x = tid)) as [->|Hne].
    + rewrite map_get_delete_eq. naive_solver.
    + rewrite map_get_delete_ne by done. rewrite Hw. naive_solver.
  - rewrite map_delete_filter. apply Forall_forall. intros x Hin. eapply Forall_forall in Hn; [exact Hn |].
    eapply elem_of_sublist; [exact Hin | apply map_keys_filter].
Qed.

Lemma fill_inbox_awaits f stage : awaits_frame (fill_inbox f stage) = false.
Proof. by destruct stage as [|? ? []| | | |[]]. Qed.

Lemma threads_message d now : keeps threads_inv (handleSocketMessage parse_URL JSON_parse d now).
Proof.
  intros c Hc. unfold handleSocketMessage. destruct d as [text|]; [| exact Hc].
  destruct (_ <? _); [exact Hc |]. destruct (decodeRelayRecord _ _ text) as [record|]; [| exact Hc].
  unfold bind, get. pose proof Hc as (Ht & Hd & Hw & Hn). destruct (deferred c) as [|tid rest] eqn:Ed.
  - enough (Hk : keeps threads_inv (processReadyFrame record now)) by exact (Hk c Hc).
    unfold processReadyFrame. keep; first [apply (keep_emit _) | apply (keep_requireReady _) | by intros c0].
  - unfold modify. destruct (proj1 (Hw tid)) as (stage & Hs & Ha); [set_solver |].
    apply NoDup_cons in Hd as [Hnot Hrest]. unfold update_thread. cbn. rewrite Hs.
    apply (thread_set (tid :: rest) rest _ _ _ stage);
      [by unfold threads_inv in Hc; rewrite Ed in Hc | done | done |].
    intros x. rewrite fill_inbox_awaits, elem_of_cons. set_solver.
Qed.

(** What continuing a call does to the waiters. *)
Definition at_threads (t : list (nat * Stage)) (n : nat) (d : list nat) (c : Client) : Prop :=
  threads c = t /\ nextThread c = n /\ deferred c = d.

Definition waiters_after (tid : nat) (d : list nat) (next : option Stage) : list nat :=
  match next with Some st => if awaits_frame st then d ++ [tid] else d | None => d end.

Lemma at_threads_quiet t n d : Quiet (at_threads t n d).
Proof. by constructor. Qed.

Lemma wake_waiters t n d tid stage w m :
  wake parse_URL JSON_parse JSON_stringify randomBytes tid stage w = Some m -> awaits_frame stage = false ->
  triple (at_threads t n d) m (fun a => at_threads t n (waiters_after tid d a)) (at_threads t n d).
Proof.
  intros Hw Hs. pose proof (at_threads_quiet t n d) as HQ.
  pose proof (keep_emit (at_threads t n d)) as Hemit. pose proof (keep_sendRaw (at_threads t n d)) as Hsend.
  pose proof (keep_randomToken (at_threads t n d)) as Htok.
  destruct stage as [|? ? []| | | |[]], w; simplify_eq/=; [| by apply triple_throw | ..].
  all: unfold attach_opened, attach_challenged, attach_digested, attach_verified, attach_signed, attach_ready; cbv zeta;
    repeat match goal with
    | |- triple _ (ret _) _ _ => apply triple_ret; done
    | |- triple _ (bind (modify (fun c => set_deferred _ c)) _) _ _ =>
        intros c0 (<- & <- & <-); unfold bind, modify, ret; done
    | |- triple _ (bind _ _) _ _ =>
        apply triple_bind with (R := fun _ => at_threads t n d);
        [apply triple_keeps; [first [solve [keep] | by intros c0] | done] | intros ?]
    end.
Qed.

Lemma threads_resume tid w c r c' :
  threads_inv c -> resume parse_URL JSON_parse JSON_stringify randomBytes tid w c = Some (r, c') -> threads_inv c'.
Proof.
  intros Hc. unfold resume. destruct (map_get (threads c) tid) as [stage|] eqn:Es; [| done].
  destruct (wake _ _ _ _ tid stage w) as [m|] eqn:Em; [| done].
  pose proof Hc as (Ht & Hd & Hw & Hn).
  destruct (awaits_frame stage) eqn:Ea.
  - assert (Hto : exists x, m c = (Throw x, set_deferred (filter (fun t => t <> tid) (deferred c)) c)).
    { destruct stage as [|? ? []| | | |[]], w; simplify_eq/=; by eexists. }
    destruct Hto as [x ->]. intros [= <- <-]. apply (thread_drop (deferred c)); [done | by apply NoDup_filter |].
    intros y. cbn. rewrite list_elem_of_filter. done.
  - assert (Hnd : tid ∉ deferred c) by (rewrite Hw; naive_solver congruence).
    pose proof (wake_waiters _ (nextThread c) (deferred c) _ _ _ _ Em Ea c (conj eq_refl (conj eq_refl eq_refl))) as Hk.
    destruct (m c) as [[[stage'|]|] c2]; destruct Hk as (Ht2 & Hn2 & Hd2); intros [= <- <-].
    + unfold update_thread, threads_inv. rewrite Ht2, Es. cbn. rewrite Hn2, Hd2.
      apply (thread_set (deferred c) _ _ _ _ stage); [done | done | |]; cbn [waiters_after];
        destruct (awaits_frame stage') eqn:Ea'; try done.
      * apply NoDup_app. split; [done |]. split; [set_solver | apply NoDup_singleton].
      * set_solver.
      * set_solver.
    + unfold drop_thread, threads_inv. cbn. rewrite Ht2, Hn2, Hd2. apply (thread_drop (deferred c)); [done | done | set_solver].
    + unfold drop_thread, threads_inv. cbn. rewrite Ht2, Hn2, Hd2. apply (thread_drop (deferred c)); [done | done | set_solver].
Qed.

Lemma threads_methods : keeps_methods threads_inv.
Proof.
  assert (Henq : forall p, keeps threads_inv (enqueue p)) by (intros p; unfold enqueue; keep; by intros c0).
  constructor; intros.
  - apply (keep_presence _).
  - apply (keep_heartbeat _).
  - apply (keep_lookup _).
  - apply (keep_announce _).
  - apply (keep_lookupContact _).
  - apply (keep_rendezvous _). intros.
    apply blind_lookupRoute; [intros; apply (keep_randomToken _) | intros ? ? c0 Hc; exact Hc].
  - by apply (keep_sendSealed _).
  - apply (keep_retry _).
  - by intros c.
  - apply (keep_emit _).
  - apply threads_disconnect.
  - apply threads_start.
  - apply threads_close.
  - apply threads_message.
  - done.
Qed.

(** ** The invariant of every reachable state *)

Record client_inv (c : Client) : Prop := {
  ci_pending : pending_inv c;
  ci_routes : routes_inv c;
  ci_wire : wire_inv c;
  ci_threads : threads_inv c;
}.

Lemma load_pending_ok limit saved p p' :
  pending_ok limit p -> load_pending limit saved p = Ok p' -> pending_ok limit p'.
Proof.
  revert p. induction saved as [|s saved IH]; intros p Hp; cbn [load_pending]; [by intros [= <-] |].
  intros [Hroom H]%if_throw_Ok. eapply IH; [| exact H]. destruct Hp as (Hwf & Hl & Hs & Hf).
  split; [by apply map_set_wf |]. split; [done |]. rewrite zlen_map_set. split; [| by apply Forall_map_set].
  apply andb_false_iff in Hroom as [Hr|Hr]; [apply negb_false_iff in Hr; by rewrite Hr |].
  bool_props. destruct (map_has p (s_deliveryId s)); lia.
Qed.

Lemma new_client_inv r peer key saved maxFrame limit c :
  new_client parse_URL r peer key saved maxFrame limit = Ok c -> client_inv c.
Proof.
  unfold new_client, boundedPendingEnvelopeLimit. intros H. step H as r' Er. step H as n En. step H as p Ep.
  injection H as <-. apply if_negb_throw_Ok in En as [(z & -> & _ & Hz)%number_in_true [= <-]]. constructor.
  - eapply load_pending_ok; [| exact Ep]. split; [constructor |]. split; [exact Hz |]. split; [change (0 <= z); lia | constructor].
  - split; [constructor |]. split; [constructor |]. by split_and!.
  - split; [done |]. split; [constructor | constructor].
  - split; [constructor |]. split; [constructor |]. split; [| constructor].
    intros tid. split; [by intros ?%elem_of_nil | by intros (? & ? & _)].
Qed.

Lemma client_step c call r c' :
  client_inv c -> step parse_URL JSON_parse JSON_stringify localeCompare randomBytes c call = Some (r, c') ->
  client_inv c'.
Proof.
  intros [Hp Hr Hw Ht] Hs. constructor; (eapply keeps_step; [| | | exact Hs]);
    auto using pending_methods, routes_methods, wire_methods, threads_methods; intros tid w _ Hres.
  - exact (quiet_wake _ _ _ tid w c r c' Hp Hres).
  - exact (quiet_wake _ _ _ tid w c r c' Hr Hres).
  - exact (wire_wake tid w c r c' Hw Hres).
  - exact (threads_resume tid w c r c' Ht Hres).
Qed.

Lemma reachable_inv c0 tr c :
  client_inv c0 -> reachable parse_URL JSON_parse JSON_stringify localeCompare randomBytes c0 tr c -> client_inv c.
Proof. intros H0. induction 1; [done | by eapply client_step]. Qed.

(** ** Authentication of the relay *)

(** The checks on the CHALLENGE that the client makes before it verifies the
    relay's signature. *)
Definition challenge_matches (c : Client) (nonce : jsstring) (challenge : object) (hash : bytes) : Prop :=
  prop challenge (js "client_nonce") = JStr nonce
  /\ prop challenge (js "relay_public_key") = JStr (relayPublicKey (route c))
  /\ prop challenge (js "transcript_hash") = JStr (encodeBase64URL hash).

Definition stage_matches (c : Client) (stage : Stage) : Prop :=
  match stage with
  | at_verify nonce challenge _ hash => challenge_matches c nonce challenge hash
  | _ => True
  end.

(** The run verified the relay's signature, over the hash of a matching
    challenge, in the call that it names. *)
Definition verified (c0 : Client) (tr : list Call) : Prop :=
  exists tr1 tid tr2 c1 nonce challenge selected hash,
    tr = tr1 ++ c_wake tid (w_verified (Some true)) :: tr2
    /\ reachable parse_URL JSON_parse JSON_stringify localeCompare randomBytes c0 tr1 c1
    /\ map_get (threads c1) tid = Some (at_verify nonce challenge selected hash)
    /\ challenge_matches c1 nonce challenge hash.

Definition past_verification (stage : Stage) : bool :=
  match stage with at_sign _ _ _ | at_ready _ => true | _ => false end.

(** What the state says of verification, [V] being that it took place. *)
Definition auth_ok (r0 : RelayRouteMaterial) (V : Prop) (c : Client) : Prop :=
  route c = r0
  /\ (forall tid stage, map_get (threads c) tid = Some stage ->
        stage_matches c stage /\ (past_verification stage = true -> V))
  /\ (ready c <> None -> V).

#[local] Instance auth_quiet r0 V : Quiet (auth_ok r0 V).
Proof. by constructor. Qed.

Lemma delete_if_sub (p : nat -> Stage -> bool) t tid stage :
  map_wf t -> map_get (map_delete_if p t) tid = Some stage -> map_get t tid = Some stage.
Proof. intros Hwf. rewrite map_get_delete_if by done. repeat case_match; naive_solver. Qed.

(** Only the stage of one thread and the session change. *)
Lemma auth_threads r0 V c t n c' :
  auth_ok r0 V c -> route c' = route c -> (ready c' = ready c \/ ready c' = None) -> threads c' = t -> nextThread c' = n ->
  (forall tid stage, map_get t tid = Some stage ->
     map_get (threads c) tid = Some stage \/ (stage_matches c stage /\ past_verification stage = false)) ->
  auth_ok r0 V c'.
Proof.
  intros (Hr & Ht & Hs) Hr' Hs' <- _ Hsub. split; [congruence |]. split.
  - intros tid stage Hg.
    assert (E : stage_matches c' stage <-> stage_matches c stage).
    { destruct stage; try done. unfold stage_matches, challenge_matches. by rewrite Hr'. }
    rewrite E. destruct (Hsub _ _ Hg) as [Hg'|[Hm Hp]]; [by apply Ht in Hg' |].
    split; [done | congruence].
  - destruct Hs' as [-> | ->]; [done | by intros []].
Qed.

Definition auth_state (r0 : RelayRouteMaterial) (V : Prop) (c : Client) : Prop := auth_ok r0 V c /\ threads_inv c.

#[local] Instance auth_state_quiet r0 V : Quiet (auth_state r0 V).
Proof. constructor; [intros f e c [] | intros n c [] | intros n c []]; by split. Qed.

Lemma auth_disconnect r0 V : keeps (auth_state r0 V) disconnect.
Proof.
  intros c [Ha Ht]. pose proof (threads_disconnect c Ht) as Ht'. split; [| exact Ht'].
  unfold disconnect, rejectDeferredFrames, bind, get, modify, emit.
  destruct (socket c); (eapply (auth_threads r0 V c); [done | done | by right | reflexivity | reflexivity |];
    intros tid stage Hg; left; eapply delete_if_sub; [apply Ht | exact Hg]).
Qed.

Lemma auth_methods r0 V : keeps_methods (auth_state r0 V).
Proof.
  assert (Henq : forall p, keeps (auth_state r0 V) (enqueue p)) by (intros p; unfold enqueue; keep; by intros c0).
  assert (Hdel : forall d, keeps (auth_state r0 V) (delete_pending d)) by (by intros d c).
  constructor; intros.
  - apply (keep_presence _).
  - apply (keep_heartbeat _).
  - apply (keep_lookup _).
  - apply (keep_announce _).
  - apply (keep_lookupContact _).
  - apply (keep_rendezvous _). intros.
    apply blind_lookupRoute; [intros; apply (keep_randomToken _) | intros ? ? c0 Hc; exact Hc].
  - by apply (keep_sendSealed _).
  - apply (keep_retry _).
  - apply Hdel.
  - apply (keep_emit _).
  - apply auth_disconnect.
  - apply keeps_bind; [apply auth_disconnect |]. intros _ c [Ha Ht]. split; [| by apply thread_new].
    eapply (auth_threads r0 V c); [done | done | by left | reflexivity | reflexivity |].
    intros tid stage Hg. cbn in Hg. destruct (decide (tid = nextThread c)) as [->|Hne].
    + rewrite map_get_set_eq in Hg. injection Hg as <-. by right.
    + rewrite map_get_set_ne in Hg by done. by left.
  - intros c [Ha Ht]. split; [| by apply threads_close].
    unfold handleSocketClose, rejectDeferredFrames, bind, get, modify, emit.
    eapply (auth_threads r0 V c); [done | done | by right | reflexivity | reflexivity |].
    intros tid stage Hg. left. eapply delete_if_sub; [apply Ht | exact Hg].
  - intros c [Ha Ht]. split; [| by apply threads_message].
    unfold handleSocketMessage. destruct d as [text|]; [| exact Ha].
    destruct (_ <? _); [exact Ha |]. destruct (decodeRelayRecord _ _ text) as [record|]; [| exact Ha].
    unfold bind, get. destruct (deferred c) as [|tid rest].
    + enough (Hk : keeps (auth_ok r0 V) (processReadyFrame record now)) by exact (Hk c Ha).
      unfold processReadyFrame. keep; first [apply (keep_emit _) | apply (keep_requireReady _) | by intros c0].
    + unfold modify, update_thread. cbn. destruct (map_get (threads c) tid) as [st|] eqn:Es; [| exact Ha].
      destruct Ha as (Hr & Hth & Hs). split; [exact Hr |]. split; [| exact Hs]. cbn. intros x stage Hg.
      destruct (decide (x = tid)) as [->|Hne]; [| rewrite map_get_set_ne in Hg by done; exact (Hth _ _ Hg)].
      rewrite map_get_set_eq in Hg. injection Hg as <-. destruct (Hth _ _ Es).
      by destruct st as [|? ? []| | | |[]].
  - by destruct H.
Qed.

Definition at_session (r0 : RelayRouteMaterial) (t : list (nat * Stage)) (s : option ReadyState) (c : Client) : Prop :=
  route c = r0 /\ threads c = t /\ ready c = s.

Definition woken (r0 : RelayRouteMaterial) (t : list (nat * Stage)) (s : option ReadyState) (V : Prop)
    (next : option Stage) (c : Client) : Prop :=
  route c = r0 /\ threads c = t /\ (ready c = s \/ V)
  /\ match next with Some st => stage_matches c st /\ (past_verification st = true -> V) | None => True end.

Lemma wake_auth r0 V t s tid stage w m :
  wake parse_URL JSON_parse JSON_stringify randomBytes tid stage w = Some m ->
  (past_verification stage = true -> V) ->
  (forall n ch sel h, stage = at_verify n ch sel h -> w = w_verified (Some true) -> V) ->
  triple (at_session r0 t s) m (woken r0 t s V) (at_session r0 t s).
Proof.
  intros Hw Hp Hv.
  assert (HQ : Quiet (at_session r0 t s)) by (by constructor).
  pose proof (keep_sendRaw (at_session r0 t s)) as Hsend. pose proof (keep_randomToken (at_session r0 t s)) as Htok.
  assert (Hroute : forall A (k : RelayRouteMaterial -> C A) Q, triple (at_session r0 t s) (k r0) Q (at_session r0 t s) ->
    triple (at_session r0 t s) (bind (get route) k) Q (at_session r0 t s)).
  { intros A k Q Hk c Hc. pose proof Hc as (Hr & _). unfold bind, get. rewrite Hr. exact (Hk c Hc). }
  assert (Hnext : forall st, past_verification st = false \/ V -> (forall c, at_session r0 t s c -> stage_matches c st) ->
    triple (at_session r0 t s) (ret (Some st)) (woken r0 t s V) (at_session r0 t s)).
  { intros st Hpast Hm. apply triple_ret. intros c Hc. pose proof Hc as (? & ? & ?).
    split; [done |]. split; [done |]. split; [by left |]. split; [by apply Hm |]. intros Htrue. destruct Hpast as [Hf|]; [congruence | done]. }
  destruct stage as [|? ? []| | | |[]], w; simplify_eq/=; [| by apply triple_throw | ..].
  all: unfold attach_opened, attach_challenged, attach_digested, attach_verified, attach_signed; cbv zeta.
  all: repeat match goal with
    | |- triple _ (ret (Some (at_verify _ _ _ _))) _ _ => fail 1
    | |- triple _ (ret _) _ _ => apply Hnext; [by auto | done]
    | |- triple _ (throw _) _ _ => by apply triple_throw
    | |- triple _ (bind (lift _) _) _ _ => apply triple_lift; [done | intros ? ?]
    | |- triple _ (bind (require _ _) _) _ _ => apply triple_require; [done | intros ?]
    | |- triple _ (bind (get route) _) _ _ => apply Hroute
    | |- triple _ (bind (get _) _) _ _ => apply triple_get_any; intros ?
    | |- triple _ (bind _ _) _ _ =>
        apply triple_bind with (R := fun _ => at_session r0 t s);
        [apply triple_keeps; [first [solve [keep] | by intros c0] | done] | intros ?]
    end.
  - apply triple_ret. intros c (Hr & Ht & Hs). unfold woken. split_and!; auto.
    repeat match goal with H : SameRelay.readString _ _ = Ok _ |- _ => apply session_string_Ok in H end.
    repeat match goal with H : str_eqb _ _ = true |- _ => apply str_eqb_true in H end.
    subst. done.
  - apply Hnext; [right | done].
    match goal with H : result_of_option _ _ = Ok _ |- _ => apply result_of_option_Ok in H; subst end.
    by eapply Hv.
  - unfold attach_ready. 
    repeat first [apply triple_lift; [done | intros ? ?]].
    intros c (Hr & Ht & Hs). unfold bind, modify, get, emit, ret. unfold woken. cbn. split_and!; auto.
Qed.

Lemma verified_snoc c0 tr call : verified c0 tr -> verified c0 (tr ++ [call]).
Proof.
  intros (tr1 & tid & tr2 & c1 & n & ch & sel & h & -> & H). exists tr1, tid, (tr2 ++ [call]), c1, n, ch, sel, h.
  split; [by rewrite <- app_assoc | done].
Qed.

Lemma auth_weaken r0 (V V' : Prop) c : (V -> V') -> auth_state r0 V c -> auth_state r0 V' c.
Proof.
  intros HV [(Hr & Ht & Hs) Hth]. split; [| done]. split; [done |]. split; [| by auto].
  intros tid stage Hg. destruct (Ht _ _ Hg). auto.
Qed.

Lemma auth_resume r0 V c tid w r c' :
  auth_state r0 V c ->
  (forall n ch sel h, map_get (threads c) tid = Some (at_verify n ch sel h) -> w = w_verified (Some true) -> V) ->
  resume parse_URL JSON_parse JSON_stringify randomBytes tid w c = Some (r, c') -> auth_state r0 V c'.
Proof.
  intros [(Hr & Ht & Hs) Hth] Hv Hres. split; [| by eapply threads_resume].
  unfold resume in Hres. destruct (map_get (threads c) tid) as [stage|] eqn:Es; [| done].
  destruct (wake _ _ _ _ tid stage w) as [m|] eqn:Em; [| done]. destruct (Ht _ _ Es) as [Hm Hp].
  assert (Hw : triple (at_session r0 (threads c) (ready c)) m (woken r0 (threads c) (ready c) V)
                 (at_session r0 (threads c) (ready c))).
  { eapply wake_auth; [exact Em | exact Hp |]. intros n ch sel h -> ->. by eapply Hv. }
  specialize (Hw c (conj Hr (conj eq_refl eq_refl))).
  assert (Hmatch : forall c2 st, route c2 = r0 -> stage_matches c st -> stage_matches c2 st).
  { intros c2 st Hr2. destruct st; try done. unfold stage_matches, challenge_matches. by rewrite Hr2, Hr. }
  destruct (m c) as [[next|] c2].
  - destruct Hw as (Hr2 & Ht2 & Hs2 & Hnext).
    assert (Hsess : ready c2 <> None -> V) by (destruct Hs2 as [->|]; auto).
    destruct next as [stage'|]; injection Hres as <- <-.
    + unfold update_thread. rewrite Ht2, Es. split; [exact Hr2 |]. split; [| exact Hsess].
      cbn. intros x st Hg. destruct (decide (x = tid)) as [->|Hne].
      * rewrite map_get_set_eq in Hg. injection Hg as <-. destruct Hnext. split; [| done]. by destruct stage'.
      * rewrite map_get_set_ne in Hg by done. destruct (Ht _ _ Hg). split; [by eapply Hmatch | done].
    + split; [exact Hr2 |]. split; [| exact Hsess]. cbn. rewrite Ht2. intros x st Hg.
      destruct (decide (x = tid)) as [->|Hne]; [by rewrite map_get_delete_eq in Hg |].
      rewrite map_get_delete_ne in Hg by done. destruct (Ht _ _ Hg). split; [by eapply Hmatch | done].
  - destruct Hw as (Hr2 & Ht2 & Hs2). injection Hres as <- <-. split; [exact Hr2 |].
    split; [| cbn; by rewrite Hs2]. cbn. rewrite Ht2. intros x st Hg.
    destruct (decide (x = tid)) as [->|Hne]; [by rewrite map_get_delete_eq in Hg |].
    rewrite map_get_delete_ne in Hg by done. destruct (Ht _ _ Hg). split; [by eapply Hmatch | done].
Qed.

Lemma auth_reachable c0 tr c :
  threads_inv c0 -> threads c0 = [] -> ready c0 = None ->
  reachable parse_URL JSON_parse JSON_stringify localeCompare randomBytes c0 tr c ->
  auth_state (route c0) (verified c0 tr) c.
Proof.
  intros Hth Ht Hs. induction 1 as [|tr c call r c' Hreach IH Hstep].
  - split; [| done]. split; [done |]. split; [| by rewrite Hs]. rewrite Ht. by intros.
  - apply (auth_weaken _ _ (verified c0 (tr ++ [call]))) in IH; [| apply verified_snoc].
    eapply (keeps_step (auth_state (route c0) (verified c0 (tr ++ [call])))); [apply auth_methods | | exact IH | exact Hstep].
    intros tid w -> Hres. eapply auth_resume; [exact IH | | exact Hres].
    intros n ch sel h Hg ->. exists tr, tid, [], c, n, ch, sel, h. split; [done |]. split; [done |]. split; [done |].
    destruct IH as [(_ & Hst & _) _]. by destruct (Hst _ _ Hg).
Qed.
End Methods.
