(* ===== verification/RelaySession.v ===== *)
(** * The live relay session: what callers can rely on

    The theorems about [connectivity/same-relay.ts] over every sequence of
    calls, socket events, timers and digest outcomes, and a sample session run
    to show that the hypotheses can hold. *)
From S2P Require Import Prelude JsRuntime Collections Effects Base64Url Json Envelope RelayAttachment RelayFrames SameRelay SameRelayFacts.

(** ** A sample session

    The host's JSON functions are replaced by a table of six texts, the names
    of the frames. *)

Definition sample_random (n : nat) (size : Z) : bytes := replicate (Z.to_nat size) (Z.of_nat n + 1).

Definition sample_URL (s : jsstring) : option URL :=
  Some (mkURL (js "wss:") (js "relay.example") [] [] [] (js "/relay/v0") (js "relay.example")).

Definition sample_key : jsstring := sample_text 32.

Definition sample_route : RelayRouteMaterial :=
  mkRoute (js "wss://relay.example/relay/v0") sample_key developmentProfileMultihash true.

Definition sample_hash : bytes := replicate 32 9.
Definition sample_nonce : jsstring := encodeBase64URL (sample_random 0 32).

Definition sample_challenge : object :=
  [(js "type", str (js "CHALLENGE")); (js "client_nonce", str sample_nonce); (js "relay_nonce", str (sample_text 32));
   (js "issued_at", num 1000); (js "expires_at", num 1030); (js "relay_public_key", str sample_key);
   (js "selected", makeVersionOffer); (js "transcript_hash", str (encodeBase64URL sample_hash));
   (js "relay_proof", str (sample_text 64))].

Definition sample_auth : object :=
  [(js "type", str (js "AUTH")); (js "client_public_key", str sample_key); (js "client_nonce", str sample_nonce);
   (js "relay_nonce", str (sample_text 32)); (js "transcript_hash", str (encodeBase64URL sample_hash));
   (js "client_proof", str (sample_text 64))].

Definition sample_ready : object :=
  [(js "type", str (js "READY")); (js "session_id", str (sample_text 32)); (js "route_id", str (sample_text 16));
   (js "presence_ttl_seconds", num 30); (js "heartbeat_interval_seconds", num 10);
   (js "accepted_limits", JObj
      [(js "max_frame_bytes", num 49152); (js "max_queue_depth", num 32);
       (js "max_frames_per_session", num 1000); (js "max_bytes_per_session", num 1000000)])].

Definition sample_peer : jsstring := sample_text 32.
Definition sample_target : jsstring := encodeBase64URL (sample_random 5 16).

Definition sample_rendezvous (n : Z) : object :=
  [(js "type", str (js "RENDEZVOUS")); (js "session_id", str (sample_text 32)); (js "route_id", str sample_target);
   (js "peer_id", str sample_peer); (js "sequence", num n)].

Definition sample_envelope_frame (payload delivery : jsstring) : object :=
  [(js "type", str (js "ENVELOPE")); (js "session_id", str (sample_text 32)); (js "route_id", str sample_target);
   (js "origin_route_id", str (sample_text 16)); (js "path_epoch", num 0); (js "stream_id", num 0);
   (js "delivery_id", str delivery); (js "ciphertext", str payload); (js "ack_requested", JBool true)].

Definition sample_ack : object :=
  [(js "type", str (js "ACK")); (js "session_id", str (sample_text 32)); (js "delivery_id", str (sample_text 16));
   (js "ack_type", str (js "relay.forwarded")); (js "durable", JBool false)].

Definition sample_texts (payload : jsstring) : list (jsstring * object) :=
  [(js "HELLO", hello_frame sample_nonce 1001 49152); (js "CHALLENGE", sample_challenge); (js "AUTH", sample_auth);
   (js "READY", sample_ready); (js "RENDEZVOUS", sample_rendezvous 1);
   (js "ENVELOPE", sample_envelope_frame payload (sample_text 16)); (js "ACK", sample_ack)].

Definition sample_parse (payload text : jsstring) : option json := JObj <$> map_get (sample_texts payload) text.

Definition sample_stringify (v : json) : jsstring :=
  match v with JObj o => default [] (as_string (prop o (js "type"))) | _ => [] end.

Definition sample_locale (a b : jsstring) : Z := if js_ltb a b then -1 else if js_ltb b a then 1 else 0.

Definition sample_client : result Client :=
  new_client sample_URL sample_route sample_key sample_key [] 49152 (Int 32).

(** The calls of a handshake that succeeds. *)
Definition sample_handshake : list Call :=
  [c_attach 0; c_socket_state 1; c_wake 0 (w_opened 1001); c_message (Some (js "CHALLENGE")) 1001;
   c_wake 0 (w_frame 1001); c_wake 0 (w_digest (Some sample_hash)); c_wake 0 (w_verified (Some true));
   c_wake 0 (w_signed (Some (replicate 64 7))); c_message (Some (js "READY")) 1002; c_wake 0 (w_frame 1002)].

Definition sample_options : SendOptions := mkSendOptions (Some (sample_text 16)) None None None.

Definition sample_run (payload : jsstring) (calls : list Call) : option (list (result unit) * Client) :=
  match sample_client with
  | Ok c => run_calls sample_URL (sample_parse payload) sample_stringify sample_locale sample_random c calls
  | Throw _ => None
  end.

Definition sample_exchange : list Call :=
  sample_handshake
  ++ [c_rendezvous sample_peer [] (Some sample_target); c_sendSealed (sample_text 40) sample_options].

Section Facts.
Context (parse_URL : jsstring -> option URL) (JSON_parse : jsstring -> option json)
  (JSON_stringify : json -> jsstring) (localeCompare : jsstring -> jsstring -> Z)
  (randomBytes : nat -> Z -> bytes).

Let run := run_calls parse_URL JSON_parse JSON_stringify localeCompare randomBytes.
Let reach := reachable parse_URL JSON_parse JSON_stringify localeCompare randomBytes.

Lemma run_reachable_from c0 tr c calls rs c' :
  reach c0 tr c -> run c calls = Some (rs, c') -> reach c0 (tr ++ calls) c'.
Proof.
  revert tr c rs. induction calls as [|call calls IH]; intros tr c rs Hr H; cbn in H.
  - injection H as <- <-. by rewrite app_nil_r.
  - destruct (step _ _ _ _ _ c call) as [[r c1]|] eqn:Es; [| done].
    destruct (run c1 calls) as [[rs1 c2]|] eqn:Er; [| done]. injection H as <- <-.
    change (call :: calls) with ([call] ++ calls). rewrite app_assoc.
    eapply IH; [by eapply reach_step | exact Er].
Qed.

Lemma run_reachable c0 calls rs c : run c0 calls = Some (rs, c) -> reach c0 calls c.
Proof. intros H. eapply (run_reachable_from c0 []); [constructor | exact H]. Qed.
End Facts.

(** C6: after any sequence of calls, frames, timeouts and digest outcomes, of
    any number of attach calls that overlap in any way, the client is well
    formed: the pending window is within its limit, itself at most 32; peers and
    lookup routes are bound one to one, at most 64, and none without a session;
    the sequence numbers written increase strictly; and the waiters for frames
    are exactly the attach calls that await one. *)
Theorem session_invariant parse_URL JSON_parse JSON_stringify localeCompare randomBytes
    r peer key saved maxFrame limit c0 tr c
    (Hnew : new_client parse_URL r peer key saved maxFrame limit = Ok c0)
    (Hrun : reachable parse_URL JSON_parse JSON_stringify localeCompare randomBytes c0 tr c) :
  client_inv c.
Proof. eapply reachable_inv; [by eapply new_client_inv | exact Hrun]. Qed.

Definition sample_start : Client :=
  mkClient sample_route sample_key sample_key 49152 32 [] [] [] [] None None false 0 [] 0 0 [] [].

Definition sample_state (payload : jsstring) (calls : list Call) : Client :=
  match sample_run payload calls with Some (_, c) => c | None => sample_start end.

Definition sample_outcomes : list (result unit) :=
  match sample_run (sample_text 40) sample_exchange with Some (rs, _) => rs | None => [] end.

Definition sample_end : Client := sample_state (sample_text 40) sample_exchange.

Lemma sample_created :
  new_client sample_URL sample_route sample_key sample_key [] 49152 (Int 32) = Ok sample_start.
Proof. vm_compute. reflexivity. Qed.

Lemma sample_reach :
  reachable sample_URL (sample_parse (sample_text 40)) sample_stringify sample_locale sample_random
    sample_start sample_exchange sample_end.
Proof. apply run_reachable with (rs := sample_outcomes). vm_compute. reflexivity. Qed.

Lemma session_invariant_witness :
  client_inv sample_end /\ zlen (pending sample_end) = 1 /\ zlen (targetRoutes sample_end) = 1.
Proof.
  split; [exact (session_invariant _ _ _ _ _ _ _ _ _ _ _ _ _ _ sample_created sample_reach) |].
  split; vm_compute; reflexivity.
Defined.

Lemma validate_same parse_URL r r' : validateRouteMaterial parse_URL r = Ok r' -> r' = r.
Proof. unfold validateRouteMaterial. intros H. repeat case_match; by simplify_eq. Qed.

(** C4: a client has a session only after one of its attach calls verified the
    relay's signature, and that call verified it over the hash it computed,
    for a challenge that repeats the call's own nonce, names the relay key the
    route was accepted with and carries that hash. *)
Theorem session_authenticated parse_URL JSON_parse JSON_stringify localeCompare randomBytes
    r peer key saved maxFrame limit c0 tr c
    (Hnew : new_client parse_URL r peer key saved maxFrame limit = Ok c0)
    (Hrun : reachable parse_URL JSON_parse JSON_stringify localeCompare randomBytes c0 tr c)
    (Hready : ready c <> None) :
  verified parse_URL JSON_parse JSON_stringify localeCompare randomBytes c0 tr
  /\ route c = r /\ validateRouteMaterial parse_URL r = Ok r /\ brand r = true.
Proof.
  pose proof (new_client_inv _ _ _ _ _ _ _ _ Hnew) as [_ _ _ Hth]. unfold new_client in Hnew.
  step Hnew as r' Er. step Hnew as n En. step Hnew as p Ep. injection Hnew as <-.
  unfold assertVerifiedRelayRouteMaterial in Er. apply if_negb_throw_Ok in Er as [Hb Er].
  step Er as r2 Ev. injection Er as <-.
  destruct (auth_reachable parse_URL JSON_parse JSON_stringify localeCompare randomBytes _ tr c Hth eq_refl eq_refl Hrun)
    as [(Hroute & _ & Hs) _].
  pose proof (validate_same _ _ _ Ev) as ->. split; [by apply Hs |]. split; [exact Hroute |]. split; [reflexivity | exact Hb].
Qed.

Lemma sample_session : ready sample_end <> None.
Proof. vm_compute. discriminate. Qed.

Lemma session_authenticated_witness :
  verified sample_URL (sample_parse (sample_text 40)) sample_stringify sample_locale sample_random sample_start sample_exchange
  /\ route sample_end = sample_route
  /\ validateRouteMaterial sample_URL sample_route = Ok sample_route /\ brand sample_route = true.
Proof. exact (session_authenticated _ _ _ _ _ _ _ _ _ _ _ _ _ _ sample_created sample_reach sample_session). Defined.

(** ** The pending window *)

Definition still_pending (d : jsstring) (c : Client) : Prop := d ∈ map_keys (pending c).

#[local] Instance still_quiet d : Quiet (still_pending d).
Proof. by constructor. Qed.
#[local] Instance still_inert d : Inert (still_pending d).
Proof. by constructor. Qed.

Lemma still_delete d d' : d <> d' -> keeps (still_pending d) (delete_pending d').
Proof.
  intros Hne c Hc. unfold still_pending, delete_pending in *. cbn.
  apply map_has_true. apply map_has_true in Hc. unfold map_has in *. by rewrite map_get_delete_ne by congruence.
Qed.

Lemma still_enqueue d p : keeps (still_pending d) (enqueue p).
Proof.
  unfold enqueue. keep. intros c Hc. change (d ∈ map_keys (map_set (pending c) (deliveryId p) p)).
  rewrite map_keys_set. unfold still_pending in Hc. case_match; set_solver.
Qed.

(** An ACK that completes the relay's or the peer's duty for the delivery [d]. *)
Definition final_ack (d : jsstring) (record : object) : Prop :=
  prop record (js "type") = JStr (js "ACK") /\ prop record (js "delivery_id") = JStr d
  /\ (prop record (js "ack_type") = JStr (js "peer.received")
      \/ prop record (js "ack_type") = JStr (js "relay.forwarded")).

Section Pending.
Context (parse_URL : jsstring -> option URL) (JSON_parse : jsstring -> option json)
  (JSON_stringify : json -> jsstring) (localeCompare : jsstring -> jsstring -> Z)
  (randomBytes : nat -> Z -> bytes).

Definition releases (d : jsstring) (c : Client) (call : Call) : Prop :=
  call = c_receipt d \/ call = c_abandon d
  \/ exists text now record, call = c_message (Some text) now /\ deferred c = []
       /\ decodeRelayRecord parse_URL JSON_parse text = Ok record /\ final_ack d record.

Lemma process_still d record now c :
  still_pending d c -> ~ final_ack d record -> still_pending d (processReadyFrame record now c).2.
Proof.
  intros Hc Hf.
  pose proof (inert_emit (still_pending d)) as Hemit. pose proof (inert_requireReady (still_pending d)) as Hready.
  unfold processReadyFrame, final_ack in *.
  destruct (SameRelay.readString record (js "type")) as [type|] eqn:Et; [| exact Hc].
  unfold bind at 1, lift at 1. apply session_string_Ok in Et.
  destruct (str_eqb type (js "ACK")) eqn:Ea.
  - apply str_eqb_true in Ea as ->.
    destruct (SameRelay.readString record (js "ack_type")) as [ack|] eqn:Ek; [| exact Hc].
    destruct (SameRelay.readString record (js "delivery_id")) as [d'|] eqn:Ed; [| exact Hc].
    apply session_string_Ok in Ek, Ed. unfold bind at 1, lift at 1. unfold bind at 1, lift at 1.
    destruct (str_eqb ack (js "peer.received")) eqn:E1; [| destruct (str_eqb ack (js "relay.forwarded")) eqn:E2].
    + apply str_eqb_true in E1 as ->.
      apply (keeps_bind _ _ _ (still_delete d d' ltac:(naive_solver)) (fun _ => Hemit _) c Hc).
    + apply str_eqb_true in E2 as ->.
      apply (keeps_bind _ _ _ (still_delete d d' ltac:(naive_solver)) (fun _ => Hemit _) c Hc).
    + destruct (str_eqb ack (js "relay.accepted")); [by apply Hemit | exact Hc].
  - match goal with |- still_pending d (?m c).2 => enough (Hk : keeps (still_pending d) m) by exact (Hk c Hc) end.
    keep.
Qed.

Lemma pending_kept_step d c call r c' :
  step parse_URL JSON_parse JSON_stringify localeCompare randomBytes c call = Some (r, c') ->
  still_pending d c -> still_pending d c' \/ releases d c call.
Proof.
  intros Hs Hc.
  assert (Hafter : forall A (m : M Client A), keeps (still_pending d) m -> Some (after m c) = Some (r, c') -> still_pending d c').
  { intros A m Hm [= E]. pose proof (keeps_after m _ c Hm Hc) as H. by rewrite E in H. }
  unfold step in Hs. destruct call.
  - left. exact (Hafter _ _ (inert_start _ _) Hs).
  - left. exact (quiet_wake parse_URL JSON_parse JSON_stringify randomBytes _ _ _ tid w c r c' Hc Hs).
  - left. exact (Hafter _ _ (keep_presence _ _ _ _ _ _) Hs).
  - left. exact (Hafter _ _ (keep_heartbeat _ _ _ _ _) Hs).
  - left. exact (Hafter _ _ (keep_lookup _ _ _ _ _) Hs).
  - left. exact (Hafter _ _ (keep_announce _ _ _ _ _) Hs).
  - left. exact (Hafter _ _ (keep_lookupContact _ _ _ _ _ _ _ _) Hs).
  - left. refine (Hafter _ _ _ Hs). apply (keep_rendezvous _ _ _ _ _ _). intros.
    apply blind_lookupRoute; [intros; apply (keep_randomToken _ _) | intros ? ? c0 H; exact H].
  - left. exact (Hafter _ _ (keep_sendSealed _ _ _ _ _ _ _ (still_enqueue d)) Hs).
  - left. exact (Hafter _ _ (keep_sendSealed _ _ _ _ _ _ _ (still_enqueue d)) Hs).
  - destruct (decide (d = delivery)) as [->|Hne]; [right; by left |]. left. refine (Hafter _ _ _ Hs).
    pose proof (still_delete d delivery Hne). pose proof (inert_emit (still_pending d)). unfold markPeerReceipt. keep.
  - destruct (decide (d = delivery)) as [->|Hne]; [right; right; by left |]. left. refine (Hafter _ _ _ Hs).
    pose proof (still_delete d delivery Hne). pose proof (inert_emit (still_pending d)). unfold abandonPendingEnvelope. keep.
  - left. exact (Hafter _ _ (keep_retry _ _ _ _) Hs).
  - left. exact (Hafter _ _ (inert_disconnect _) Hs).
  - destruct (socket c); [| done]. unfold handleSocketMessage in Hs.
    pose proof (inert_emit (still_pending d)) as Hemit.
    destruct data as [text|]; [| left; exact (Hafter _ _ (Hemit _) Hs)].
    destruct (_ <? _); [left; exact (Hafter _ _ (Hemit _) Hs) |].
    destruct (decodeRelayRecord parse_URL JSON_parse text) as [record|] eqn:Er; [| left; exact (Hafter _ _ (Hemit _) Hs)].
    destruct (deferred c) as [|tid rest] eqn:Ed.
    + assert (Hdec : Decision (final_ack d record)).
      { unfold final_ack, prop. 
        repeat apply and_dec; try apply or_dec.
        all: destruct (default JUndefined (map_get record _)); try (right; discriminate).
        all: match goal with |- Decision (JStr ?a = JStr ?b) => destruct (decide (a = b)); [left; congruence | right; congruence] end. }
      destruct Hdec as [Hf|Hf]; [right; right; right; by exists text, now, record |]. left.
      pose proof (process_still d record now c Hc Hf) as Hp.
      injection Hs as Hs. unfold after, bind, get in Hs. rewrite Ed in Hs.
      destruct (processReadyFrame record now c) as [[] c2]; by injection Hs as <- <-.
    + left. injection Hs as Hs. unfold after, bind, get in Hs. rewrite Ed in Hs. unfold modify in Hs.
      injection Hs as <- <-. by apply (inert_update (still_pending d)).
  - left. destruct (socket c); [| done]. by injection Hs as <- <-.
  - left. destruct (socket c); [| done]. exact (Hafter _ _ (inert_close _) Hs).
  - left. destruct (socket c); [| done]. exact (Hafter _ _ (inert_emit _ _) Hs).
Qed.
End Pending.

(** C34: a delivery the client holds as pending stays there through every step
    but three: the caller reports the peer's receipt, the caller abandons it, or
    an ACK frame for it arrives that says it was forwarded or received. *)
Theorem pending_kept parse_URL JSON_parse JSON_stringify localeCompare randomBytes c call r c' d
    (Hstep : step parse_URL JSON_parse JSON_stringify localeCompare randomBytes c call = Some (r, c'))
    (Hin : d ∈ map_keys (pending c)) :
  d ∈ map_keys (pending c') \/ releases parse_URL JSON_parse d c call.
Proof. by eapply pending_kept_step. Qed.

Lemma sample_ack_step :
  step sample_URL (sample_parse (sample_text 40)) sample_stringify sample_locale sample_random sample_end
    (c_message (Some (js "ACK")) 1003)
  = Some (Ok tt, sample_state (sample_text 40) (sample_exchange ++ [c_message (Some (js "ACK")) 1003])).
Proof. vm_compute. reflexivity. Qed.

Lemma sample_pending : sample_text 16 ∈ map_keys (pending sample_end).
Proof. apply (bool_decide_unpack (sample_text 16 ∈ map_keys (pending sample_end))). vm_compute. exact I. Qed.

Lemma sample_released :
  ~ sample_text 16 ∈ map_keys (pending (sample_state (sample_text 40) (sample_exchange ++ [c_message (Some (js "ACK")) 1003]))).
Proof. intros H%list_elem_of_In. vm_compute in H. exact H. Qed.

Lemma pending_kept_witness :
  releases sample_URL (sample_parse (sample_text 40)) (sample_text 16) sample_end (c_message (Some (js "ACK")) 1003).
Proof.
  destruct (pending_kept _ _ _ _ _ _ _ _ _ _ sample_ack_step sample_pending) as [H|H]; [| exact H].
  destruct (sample_released H).
Defined.

(** ** Sending *)

Section Sending.
Context (parse_URL : jsstring -> option URL) (JSON_parse : jsstring -> option json)
  (JSON_stringify : json -> jsstring) (localeCompare : jsstring -> jsstring -> Z)
  (randomBytes : nat -> Z -> bytes).

Lemma sendRaw_Ok f c u c' :
  sendRaw parse_URL JSON_parse JSON_stringify f c = (Ok u, c') ->
  socket c = Some socketOpenState
  /\ exists type, decodeDraftRelayAttachmentFrameText parse_URL JSON_parse (JSON_stringify (JObj f)) = Ok type
       /\ c' = log [] [frame_sent type] (log [f] [] c).
Proof.
  unfold sendRaw, bind, get, require, lift, modify, emit. case_bool_decide as Hs; [| done]. cbn [ret].
  destruct (decodeDraftRelayAttachmentFrameText _ _ _) as [type|]; [| done]. intros [= <- <-]. eauto.
Qed.

Lemma requireReady_Ok c s c' : requireReady c = (Ok s, c') <-> ready c = Some s /\ c' = c.
Proof. unfold requireReady. destruct (ready c); naive_solver. Qed.

Lemma sendPending_Ok p c u c' :
  sendPendingEnvelope parse_URL JSON_parse JSON_stringify p c = (Ok u, c') ->
  exists s type, ready c = Some s /\ socket c = Some socketOpenState
    /\ decodeDraftRelayAttachmentFrameText parse_URL JSON_parse (JSON_stringify (JObj (envelope_frame s p))) = Ok type
    /\ c' = log [envelope_frame s p] [frame_sent type; envelope_sent (deliveryId p) (routeId p) (originRouteId p)] c.
Proof.
  unfold sendPendingEnvelope, sendReadyFrame. intros (s & c1 & [Hs ->]%requireReady_Ok & H)%bind_Ok.
  apply bind_Ok in H as (u1 & c2 & H & He). apply bind_Ok in H as (s' & c3 & [Hs' ->]%requireReady_Ok & H).
  apply sendRaw_Ok in H as (Hsock & type & Hd & ->). injection He as <- <-. exists s, type.
  split; [done |]. split; [done |]. split; [done |]. unfold log. cbn. by rewrite !app_nil_r, <- !app_assoc.
Qed.

Lemma envelope_route_Ok rq ready c r c' :
  requireEnvelopeRoute rq ready c = (Ok r, c') ->
  c' = c /\ (exists peer, map_get (routeTargets c) r = Some peer) /\ default r rq = r.
Proof.
  unfold requireEnvelopeRoute, bind, get. destruct rq as [x|].
  - unfold lift. destruct (assertRouteID _ _); [| done]. unfold require, throw, ret.
    destruct (negb _); [| done]. destruct (map_has (routeTargets c) x) eqn:E; [| done]. intros [= <- <-].
    unfold map_has in E. destruct (map_get (routeTargets c) x); [eauto | done].
  - destruct (routeTargets c) as [|[x peer] [|]]; try done. intros [= <- <-]. split; [done |].
    split; [| done]. exists peer. cbn. by rewrite decide_True.
Qed.

(** An envelope frame with a ciphertext over the limit is never written. *)
Lemma oversized_frame s p :
  JSON_parse (JSON_stringify (JObj (envelope_frame s p))) = Some (JObj (envelope_frame s p)) ->
  Base64Url.validBase64URL (ciphertext p) = true -> maxDraftRelayCiphertextBytes < zlen (ciphertext p) ->
  exists m, decodeDraftRelayAttachmentFrameText parse_URL JSON_parse (JSON_stringify (JObj (envelope_frame s p))) = Throw m.
Proof.
  intros Hj Hv Hl.
  destruct (decodeDraftRelayAttachmentFrameText _ _ _) as [type|m] eqn:E; [| by exists m]. exfalso.
  apply frame_text_Ok in E as (_ & o & Ho & E). rewrite Hj in Ho. injection Ho as <-.
  assert (Ht : prop (envelope_frame s p) (js "type") = JStr (frame_name type)) by (by destruct E as [[Ht _]|[Ht _]]).
  assert (type = ENVELOPE) as -> by (destruct type; try done; vm_compute in Ht; discriminate Ht).
  destruct E as [[_ Hs]|[_ Hs]]; [| by apply Exists_nil in Hs].
  cbn [frame_schemas] in Hs. apply Exists_cons in Hs as [(_ & _ & Hf & _)|Hs]; [| by apply Exists_nil in Hs].
  cbn [s_fields] in Hf. rewrite !Forall_cons in Hf. destruct Hf as (_ & _ & _ & _ & _ & _ & Hc & _).
  destruct Hc as (x & Hx & [_ Hw] & _). cbn [fst] in Hx.
  assert (Hp : prop (envelope_frame s p) (js "ciphertext") = JStr (ciphertext p)) by reflexivity.
  rewrite Hp in Hx. injection Hx as <-. apply validBase64URL_ascii in Hv as [Ha _].
  rewrite (utf8_encode_url _ Ha) in Hw. lia.
Qed.

Lemma send_failed p c s m :
  ready c = Some s ->
  decodeDraftRelayAttachmentFrameText parse_URL JSON_parse (JSON_stringify (JObj (envelope_frame s p))) = Throw m ->
  exists m', sendPendingEnvelope parse_URL JSON_parse JSON_stringify p c = (Throw m', c).
Proof.
  intros Hs Hd. unfold sendPendingEnvelope, sendReadyFrame, bind, requireReady. rewrite Hs, Hs.
  unfold sendRaw, bind, get, require, lift. case_bool_decide; cbn; [rewrite Hd |]; eauto.
Qed.
End Sending.

(** An envelope is sent only over a lookup route that is bound to a peer of
    this attachment (the one asked for, when one is asked for), through an open
    socket and only when the frame decoder takes it back; it is then pending
    under its delivery, the one frame is the envelope with the session's
    identifiers, and the call reports the frame and the envelope. *)
Theorem sealed_envelope_sent parse_URL JSON_parse JSON_stringify randomBytes payload o c d c'
    (Hsend : sendSealedEnvelope parse_URL JSON_parse JSON_stringify randomBytes payload o c = (Ok d, c')) :
  exists s p type peer,
    ready c = Some s /\ socket c = Some socketOpenState
    /\ d = deliveryId p /\ payload = ciphertext p /\ originRouteId p = default (readyRouteId s) (o_originRouteId o)
    /\ map_get (routeTargets c) (routeId p) = Some peer /\ default (routeId p) (o_routeId o) = routeId p
    /\ decodeDraftRelayAttachmentFrameText parse_URL JSON_parse (JSON_stringify (JObj (envelope_frame s p))) = Ok type
    /\ pending c' = map_set (pending c) d p /\ wire c' = wire c ++ [envelope_frame s p]
    /\ events c' = events c ++ [frame_sent type; envelope_sent d (routeId p) (originRouteId p)].
Proof.
  unfold sendSealedEnvelope in Hsend.
  apply bind_Ok in Hsend as (b0 & c0 & H0 & Hsend). injection H0 as _ <-.
  apply bind_Ok in Hsend as (s & c1 & [Hs ->]%requireReady_Ok & Hsend).
  apply bind_Ok in Hsend as (target & c2 & Ht & Hsend). apply envelope_route_Ok in Ht as (-> & [peer Hpeer] & Hrq).
  apply bind_Ok in Hsend as (u1 & c3 & H1 & Hsend). injection H1 as _ <-.
  apply bind_Ok in Hsend as (u2 & c4 & H2 & Hsend). injection H2 as _ <-.
  apply bind_Ok in Hsend as (delivery & c5 & H3 & Hsend).
  assert (H3' : exists n, c5 = set_draws n c).
  { destruct (o_deliveryId o); injection H3 as _ <-; [exists (draws c); by destruct c | by eexists]. }
  destruct H3' as [n ->]. clear H3. cbv zeta in Hsend.
  apply bind_Ok in Hsend as (u3 & c6 & H4 & Hsend).
  match type of H4 with enqueue ?p _ = _ => set (env := p) in * end.
  assert (H4' : c6 = set_pending (map_set (pending c) delivery env) (set_draws n c)).
  { unfold enqueue, bind, get, require, modify in H4. destruct (_ || _); [| done]. by injection H4 as <-. }
  subst c6. apply bind_Ok in Hsend as (u4 & c7 & H5 & H6). injection H6 as <- <-.
  apply sendPending_Ok in H5 as (s' & type & Hs' & Hsock & Hd & ->). cbn in Hs', Hsock. rewrite Hs in Hs'. injection Hs' as <-.
  exists s, env, type, peer. by split_and!.
Qed.

(** A client in the sample session after the rendezvous. *)
Definition sample_bound (payload : jsstring) : Client :=
  sample_state payload (sample_handshake ++ [c_rendezvous sample_peer [] (Some sample_target)]).

Lemma sample_sealed :
  sendSealedEnvelope sample_URL (sample_parse (sample_text 40)) sample_stringify sample_random (sample_text 40)
    sample_options (sample_bound (sample_text 40)) = (Ok (sample_text 16), sample_end).
Proof. vm_compute. reflexivity. Qed.

Lemma sealed_envelope_sent_witness : exists p, map_get (pending sample_end) (sample_text 16) = Some p.
Proof.
  destruct (sealed_envelope_sent _ _ _ _ _ _ _ _ _ sample_sealed)
    as (s & p & type & peer & _ & _ & _ & _ & _ & _ & _ & _ & Hp & _).
  exists p. rewrite Hp. apply map_get_set_eq.
Defined.

(** C39: an envelope whose ciphertext is over the 8 KiB frame limit is entered in
    the pending window before the frame is checked: the call throws, nothing is
    written, and the entry stays; every later retry then throws at it without
    writing a frame or reporting the retry, and the entries behind it are not
    retried. *)
Theorem oversized_envelope_sticks parse_URL JSON_parse JSON_stringify randomBytes payload t d ack c s rest
    (Hready : ready c = Some s) (Hempty : pending c = []) (Hroom : 1 <= maxPendingEnvelopes c)
    (Hvalid : Base64Url.validBase64URL payload = true) (Hsize : maxDraftRelayCiphertextBytes < zlen payload)
    (Htoken : is_token 16 t) (Hother : t <> readyRouteId s) (Hbound : map_has (routeTargets c) t = true)
    (Horigin : is_token 16 (readyRouteId s))
    (p := mkPending d payload t (readyRouteId s) 0 (default true ack))
    (Hjson : JSON_parse (JSON_stringify (JObj (envelope_frame s p))) = Some (JObj (envelope_frame s p))) :
  let stuck := set_pending [(d, p)] c in
  (exists m, sendSealedEnvelope parse_URL JSON_parse JSON_stringify randomBytes payload
               (mkSendOptions (Some d) (Some t) None ack) c = (Throw m, stuck))
  /\ exists m, retryPending parse_URL JSON_parse JSON_stringify (set_pending ((d, p) :: rest) c)
               = (Throw m, set_pending ((d, p) :: rest) c).
Proof.
  intros stuck.
  destruct (oversized_frame parse_URL JSON_parse JSON_stringify s p Hjson Hvalid Hsize) as [m Hm].
  split.
  - destruct (send_failed parse_URL JSON_parse JSON_stringify p stuck s m Hready Hm) as [m' Hf]. exists m'.
    assert (Hroute : forall x msg, is_token 16 x -> assertRouteID x msg = Ok tt).
    { intros x msg (b & Hb & Hl). unfold assertRouteID. by rewrite Hb, Hl. }
    unfold sendSealedEnvelope. apply decodeBase64URL_unsextets in Hvalid.
    unfold bind at 1, lift at 1. rewrite Hvalid. unfold bind at 1. unfold requireReady at 1. rewrite Hready.
    unfold bind at 1. cbn [o_routeId o_originRouteId o_deliveryId o_ackRequested default].
    unfold requireEnvelopeRoute. unfold bind at 1, get at 1. unfold bind at 1, lift at 1. rewrite Hroute by done.
    unfold bind at 1. rewrite (proj2 (str_eqb_false _ _) Hother). unfold require at 1. cbn [negb ret].
    unfold bind at 1. rewrite Hbound. unfold require at 1, ret at 1. unfold ret at 1.
    unfold bind at 1, lift at 1. rewrite Hroute by done. unfold bind at 1, lift at 1. rewrite Hroute by done.
    unfold bind at 1, ret at 1. fold p. unfold bind at 1. unfold enqueue, bind, get, require, modify.
    rewrite Hempty. cbn [map_has map_get]. assert (Hno : (maxPendingEnvelopes c <=? zlen (@nil (jsstring * PendingEnvelope))) = false)
      by (apply Z.leb_gt; rewrite zlen_nil; lia).
    rewrite Hno.
    unfold ret at 1. cbn [negb orb map_has map_set deliveryId]. rewrite Hempty. cbn [map_set].
    change (match sendPendingEnvelope parse_URL JSON_parse JSON_stringify p stuck with
            | (Ok _, c') => (Ok d, c') | (Throw e, c') => (Throw e, c') end = (Throw m', stuck)). by rewrite Hf.
  - destruct (send_failed parse_URL JSON_parse JSON_stringify p (set_pending ((d, p) :: rest) c) s m Hready Hm) as [m' Hf].
    exists m'. unfold retryPending, bind, get. cbn [fmap list_fmap snd send_each pending set_pending].
    unfold bind. by rewrite Hf.
Qed.

Definition large_text : jsstring := sample_text 6200.

Lemma large_bound : ready (sample_bound large_text) = Some (mkReady (sample_text 32) (sample_text 16) 30 10).
Proof. vm_compute. reflexivity. Qed.

Lemma sample_token n : (Nat.eqb n 16 = true) -> is_token 16 (sample_text n).
Proof. intros ->%Nat.eqb_eq. exists (replicate 16 7). vm_compute. by split. Qed.

Lemma sample_target_token : is_token 16 sample_target.
Proof. exists (sample_random 5 16). vm_compute. by split. Qed.

Lemma oversized_envelope_sticks_witness :
  exists m, (sendSealedEnvelope sample_URL (sample_parse large_text) sample_stringify sample_random large_text
               (mkSendOptions (Some (sample_text 16)) (Some sample_target) None None) (sample_bound large_text)).1 = Throw m.
Proof.
  destruct (oversized_envelope_sticks sample_URL (sample_parse large_text) sample_stringify sample_random large_text
    sample_target (sample_text 16) None (sample_bound large_text) (mkReady (sample_text 32) (sample_text 16) 30 10) [])
    as [[m Hm] _].
  - exact large_bound.
  - vm_compute. reflexivity.
  - vm_compute. discriminate.
  - vm_compute. reflexivity.
  - vm_compute. reflexivity.
  - exact sample_target_token.
  - vm_compute. discriminate.
  - vm_compute. reflexivity.
  - apply sample_token. reflexivity.
  - vm_compute. reflexivity.
  - exists m. exact (f_equal fst Hm).
Defined.
