(* ===== verification/DeliveryTracking.v ===== *)
(** * [pwa/src/connectivity/relay-session.ts]: the relay session of one tab

    The one live client, the sent messages that wait for the relay's answer and
    the best-effort envelopes that are given up after a while.  A client is
    named by a number, a timeout callback is a value of the type [callback];
    the callbacks a call runs are part of its answer.  An armed timer is the
    entry it belongs to; it fires as an operation of its own. *)
From S2P Require Import Prelude JsRuntime Collections SameRelay Admission AppStore AppStoreFacts.

Definition maxTrackedDeliveries : Z := 64.
Definition maxConcurrentRelayAttachmentProbes : Z := 2.

Section Tracking.
Context {callback : Type}.

Record TrackedDelivery := mkTracked {
  tracked_contactId : jsstring;
  tracked_messageId : jsstring;
  onTimeout : callback;
}.

Record RelaySessionState := mkSession {
  session_client : option Z;
  trackedDeliveries : list (jsstring * TrackedDelivery);
  incomingDeliveryIds : DeliveryDedupWindow;
  pendingAbandonmentTimers : list (jsstring * Z);
}.

(** What a call does to others, in order. *)
Inductive SessionEffect : Type :=
| CallbackRun (f : callback)
| EnvelopeAbandoned (client : Z) (deliveryId : jsstring)
| ClientDisconnected (client : Z)
| PresenceAnnounced (client : Z).

Implicit Types s : RelaySessionState.

Definition with_tracked (m : list (jsstring * TrackedDelivery)) s : RelaySessionState :=
  mkSession (session_client s) m (incomingDeliveryIds s) (pendingAbandonmentTimers s).
Definition with_timers (m : list (jsstring * Z)) s : RelaySessionState :=
  mkSession (session_client s) (trackedDeliveries s) (incomingDeliveryIds s) m.

(** ** Best-effort envelopes *)

Definition clearPendingAbandonment (deliveryId : jsstring) s : RelaySessionState :=
  with_timers (map_delete (pendingAbandonmentTimers s) deliveryId) s.

Definition armBestEffortPendingAbandonment (client : Z) (deliveryId : jsstring) s : RelaySessionState :=
  let s := clearPendingAbandonment deliveryId s in
  with_timers (map_set (pendingAbandonmentTimers s) deliveryId client) s.

(** The timer armed for [client] fires. *)
Definition abandonment_timer (client : Z) (deliveryId : jsstring) s : list SessionEffect * RelaySessionState :=
  if bool_decide (map_get (pendingAbandonmentTimers s) deliveryId = Some client)
  then ([EnvelopeAbandoned client deliveryId], with_timers (map_delete (pendingAbandonmentTimers s) deliveryId) s)
  else ([], s).

Definition abandonCurrentPendingEnvelope (deliveryId : jsstring) s : list SessionEffect * RelaySessionState :=
  (match session_client s with Some c => [EnvelopeAbandoned c deliveryId] | None => [] end,
   clearPendingAbandonment deliveryId s).

(** ** Tracked deliveries *)

Definition messageForDelivery (deliveryId : jsstring) s : option (jsstring * jsstring) :=
  match map_get (trackedDeliveries s) deliveryId with
  | Some d => Some (tracked_contactId d, tracked_messageId d)
  | None => None
  end.

Definition clearDelivery (deliveryId : jsstring) s : RelaySessionState :=
  with_tracked (map_delete (trackedDeliveries s) deliveryId) s.

(** Drops a delivery, abandons its envelope and runs its callback. *)
Definition time_out (deliveryId : jsstring) (d : TrackedDelivery) s : list SessionEffect * RelaySessionState :=
  let '(effects, s) := abandonCurrentPendingEnvelope deliveryId (clearDelivery deliveryId s) in
  (effects ++ [CallbackRun (onTimeout d)], s).

Definition trackDelivery (deliveryId contactId messageId : jsstring) (f : callback) s
    : list SessionEffect * RelaySessionState :=
  let s := clearDelivery deliveryId s in
  let '(effects, s) :=
    if zlen (trackedDeliveries s) =? maxTrackedDeliveries then
      match trackedDeliveries s with
      | (oldestDeliveryId, oldest) :: _ => time_out oldestDeliveryId oldest s
      | [] => ([], s)
      end
    else ([], s) in
  (effects, with_tracked (map_set (trackedDeliveries s) deliveryId (mkTracked contactId messageId f)) s).

(** The acknowledgement timer of a delivery fires. *)
Definition delivery_timer (deliveryId : jsstring) s : list SessionEffect * RelaySessionState :=
  match map_get (trackedDeliveries s) deliveryId with
  | Some d => time_out deliveryId d s
  | None => ([], s)
  end.

Definition takeTrackedDeliveries s : list (jsstring * jsstring * jsstring) * RelaySessionState :=
  ((fun e => (e.1, tracked_contactId e.2, tracked_messageId e.2)) <$> trackedDeliveries s, with_tracked [] s).

(** ** The client *)

Definition reserveIncomingDelivery (deliveryId : jsstring) s : bool * RelaySessionState :=
  let '(fresh, w) := reserve_delivery (incomingDeliveryIds s) deliveryId in
  (fresh, mkSession (session_client s) (trackedDeliveries s) w (pendingAbandonmentTimers s)).

Definition disconnectRelaySession s : list SessionEffect * RelaySessionState :=
  (match session_client s with Some c => [ClientDisconnected c] | None => [] end,
   mkSession None [] (reset_window (incomingDeliveryIds s)) []).

(** [attachRelaySession] up to its await, with the number of the new client. *)
Definition attachRelaySession (nextClient : Z) s : list SessionEffect * RelaySessionState :=
  let '(effects, s) := disconnectRelaySession s in
  (effects, mkSession (Some nextClient) (trackedDeliveries s) (incomingDeliveryIds s) (pendingAbandonmentTimers s)).

(** After [attach] of [nextClient] settled and, when it did not throw,
    [announcePresence]. *)
Definition attach_settled (nextClient : Z) (attach announce : result unit) s
    : result unit * list SessionEffect * RelaySessionState :=
  let is_current := bool_decide (session_client s = Some nextClient) in
  let outcome :=
    let? _ := attach in
    if is_current then announce else Throw (js "relay attachment cancelled") in
  match outcome with
  | Ok _ => (Ok tt, [PresenceAnnounced nextClient], s)
  | Throw cause =>
      if is_current then let '(effects, s) := disconnectRelaySession s in (Throw cause, effects, s)
      else (Throw cause, [], s)
  end.

(** ** The calls as one type *)

Inductive session_call : Type :=
| call_track (deliveryId contactId messageId : jsstring) (f : callback)
| call_delivery_timer (deliveryId : jsstring)
| call_clear (deliveryId : jsstring)
| call_take
| call_arm (client : Z) (deliveryId : jsstring)
| call_abandonment_timer (client : Z) (deliveryId : jsstring)
| call_clear_abandonment (deliveryId : jsstring)
| call_abandon (deliveryId : jsstring)
| call_reserve (deliveryId : jsstring)
| call_attach (nextClient : Z)
| call_attach_settled (nextClient : Z) (attach announce : result unit)
| call_disconnect.

Definition session_step s (c : session_call) : list SessionEffect * RelaySessionState :=
  match c with
  | call_track d ct m f => trackDelivery d ct m f s
  | call_delivery_timer d => delivery_timer d s
  | call_clear d => ([], clearDelivery d s)
  | call_take => ([], (takeTrackedDeliveries s).2)
  | call_arm c d => ([], armBestEffortPendingAbandonment c d s)
  | call_abandonment_timer c d => abandonment_timer c d s
  | call_clear_abandonment d => ([], clearPendingAbandonment d s)
  | call_abandon d => abandonCurrentPendingEnvelope d s
  | call_reserve d => ([], (reserveIncomingDelivery d s).2)
  | call_attach c => attachRelaySession c s
  | call_attach_settled c a p => let '(_, effects, s) := attach_settled c a p s in (effects, s)
  | call_disconnect => disconnectRelaySession s
  end.

Fixpoint session_run s (cs : list session_call) : list SessionEffect * RelaySessionState :=
  match cs with
  | [] => ([], s)
  | c :: cs =>
      let '(effects, s) := session_step s c in
      let '(more, s) := session_run s cs in (effects ++ more, s)
  end.

End Tracking.

Arguments TrackedDelivery : clear implicits.
Arguments RelaySessionState : clear implicits.
Arguments SessionEffect : clear implicits.

(** ** Which relay to attach to *)

Definition newline : Z := 10.

Definition relayRouteKey (r : RelayRouteMaterial) : jsstring :=
  endpointUri r ++ [newline] ++ relayPublicKey r ++ [newline] ++ profileMultihash r.

(** [localeCompare] is the collation of the browser. *)
Section Routes.
Variable localeCompare : jsstring -> jsstring -> Z.

Definition route_cmp (left right : RelayRouteMaterial) : Z :=
  let endpoint := localeCompare (endpointUri left) (endpointUri right) in
  let relayKey := localeCompare (relayPublicKey left) (relayPublicKey right) in
  if negb (endpoint =? 0) then endpoint
  else if negb (relayKey =? 0) then relayKey
  else localeCompare (profileMultihash left) (profileMultihash right).

Definition orderedAttachmentRoutes (routes : list RelayRouteMaterial) : list RelayRouteMaterial :=
  sort_by route_cmp routes.

Definition attachmentRoutesForSelection (routes : list RelayRouteMaterial) (pinnedRelayKey : option jsstring)
    : list RelayRouteMaterial :=
  let ordered := orderedAttachmentRoutes routes in
  match pinnedRelayKey with
  | None => ordered
  | Some key => match head (keep (fun r => str_eqb (relayRouteKey r) key) ordered) with
                | None => []
                | Some r => [r]
                end
  end.

Record RelayAttachmentProbeResult := mkProbe { probe_route : RelayRouteMaterial; latencyMs : Z }.

Definition probe_cmp (turnReady : list jsstring) (left right : RelayAttachmentProbeResult) : Z :=
  let leftTurnReady := bool_decide (relayRouteKey (probe_route left) ∈ turnReady) in
  let rightTurnReady := bool_decide (relayRouteKey (probe_route right) ∈ turnReady) in
  if negb (Bool.eqb leftTurnReady rightTurnReady) then (if leftTurnReady then -1 else 1)
  else
    let latency := latencyMs left - latencyMs right in
    if negb (latency =? 0) then latency
    else localeCompare (relayRouteKey (probe_route left)) (relayRouteKey (probe_route right)).

Definition orderRelayAttachmentProbeResults (results : list RelayAttachmentProbeResult) (turnReady : list jsstring)
    : list RelayAttachmentProbeResult := sort_by (probe_cmp turnReady) results.
End Routes.

(** The workers of [probeRelayAttachments]: a worker that is not probing has
    ended; [outcome] is the latency of an accepted probe. *)
Record ProbePool := mkPool {
  candidates : list RelayRouteMaterial;
  nextIndex : nat;
  in_flight : list nat;
  probe_results : list RelayAttachmentProbeResult;
}.

(** One turn of a worker's loop. *)
Definition next_probe (aborted : bool) (p : ProbePool) : ProbePool :=
  if aborted then p
  else
    let index := nextIndex p in
    mkPool (candidates p) (S index)
      (match candidates p !! index with Some _ => in_flight p ++ [index] | None => in_flight p end) (probe_results p).

Definition start_probes (routes : list RelayRouteMaterial) (aborted : bool) : ProbePool :=
  let candidates := take 4 routes in
  let workers := Z.to_nat (Z.min maxConcurrentRelayAttachmentProbes (zlen candidates)) in
  Nat.iter workers (next_probe aborted) (mkPool candidates 0 [] []).

Definition probe_settled (index : nat) (outcome : option Z) (aborted : bool) (p : ProbePool) : option ProbePool :=
  if bool_decide (index ∈ in_flight p) then
    let results := match outcome, candidates p !! index with
                   | Some latency, Some route => probe_results p ++ [mkProbe route latency]
                   | _, _ => probe_results p
                   end in
    Some (next_probe aborted
            (mkPool (candidates p) (nextIndex p) (keep (fun i => negb (Nat.eqb i index)) (in_flight p)) results))
  else None.

Fixpoint run_probes (p : ProbePool) (events : list (nat * option Z * bool)) : option ProbePool :=
  match events with
  | [] => Some p
  | (index, outcome, aborted) :: events =>
      match probe_settled index outcome aborted p with
      | Some p => run_probes p events
      | None => None
      end
  end.

(** ** Every tracked delivery has one outcome *)

Section Outcomes.
Context {callback : Type}.
Implicit Types (s : RelaySessionState callback) (c : session_call (callback := callback)).

Definition callbacks_run (effects : list (SessionEffect callback)) : list callback :=
  omap (fun e => match e with CallbackRun f => Some f | _ => None end) effects.

Definition waiting s : list callback := (fun e => onTimeout e.2) <$> trackedDeliveries s.

Definition tracked_by c : list callback :=
  match c with call_track _ _ _ f => [f] | _ => [] end.

Lemma callbacks_run_app a b : callbacks_run (a ++ b) = callbacks_run a ++ callbacks_run b.
Proof. apply omap_app. Qed.

Lemma map_delete_sub {A} (m : list (jsstring * A)) k : map_delete m k ⊆+ m.
Proof. apply sublist_submseteq, map_delete_sublist. Qed.

Lemma map_delete_take {A} (m : list (jsstring * A)) k v : map_get m k = Some v -> (k, v) :: map_delete m k ⊆+ m.
Proof.
  induction m as [|[k' v'] m IH]; simpl; [done |]. destruct (decide (k = k')) as [->|Hne]; intros E.
  - injection E as ->. apply submseteq_skip, map_delete_sub.
  - etransitivity; [apply submseteq_swap |]. by apply submseteq_skip, IH.
Qed.

Lemma map_set_sub {A} (m : list (jsstring * A)) k v : map_set m k v ⊆+ (k, v) :: m.
Proof.
  induction m as [|[k' v'] m IH]; simpl; [done |]. case_decide as Hk.
  - subst. apply submseteq_skip, submseteq_cons. done.
  - rewrite (submseteq_skip _ _ _ IH). apply submseteq_swap.
Qed.

Lemma time_out_sub d v s :
  map_get (trackedDeliveries s) d = Some v ->
  callbacks_run (time_out d v s).1 ++ waiting (time_out d v s).2 ⊆+ waiting s.
Proof.
  intros Hget. unfold time_out, abandonCurrentPendingEnvelope, waiting.
  assert (forall e : list (SessionEffect callback), callbacks_run e = [] ->
    callbacks_run (e ++ [CallbackRun (onTimeout v)]) = [onTimeout v]) as Hrun
    by (intros e He; rewrite callbacks_run_app, He; done).
  cbn [fst snd trackedDeliveries clearPendingAbandonment with_timers clearDelivery with_tracked].
  rewrite Hrun by (by destruct (session_client _)). cbn [app].
  exact (fmap_submseteq (fun e => onTimeout e.2) _ _ (map_delete_take _ _ _ Hget)).
Qed.

Lemma trackDelivery_sub d ct m f s :
  callbacks_run (trackDelivery d ct m f s).1 ++ waiting (trackDelivery d ct m f s).2 ⊆+ waiting s ++ [f].
Proof.
  unfold trackDelivery. set (s0 := clearDelivery d s).
  assert (H0 : waiting s0 ⊆+ waiting s)
    by exact (fmap_submseteq (fun e => onTimeout e.2) _ _ (map_delete_sub _ _)).
  assert (Hset : forall es s1, callbacks_run es ++ waiting s1 ⊆+ waiting s0 ->
    callbacks_run es ++ waiting (with_tracked (map_set (trackedDeliveries s1) d (mkTracked ct m f)) s1)
      ⊆+ waiting s ++ [f]).
  { intros es s1 H1.
    pose proof (fmap_submseteq (fun e => onTimeout e.2) _ _ (map_set_sub (trackedDeliveries s1) d (mkTracked ct m f))) as Hs.
    etransitivity; [exact (submseteq_app _ _ _ _ (reflexivity _) Hs) |]. cbn [fmap list_fmap onTimeout snd].
    rewrite (Permutation_app_comm (waiting s)), <- Permutation_middle. apply submseteq_skip.
    etransitivity; [exact H1 | exact H0]. }
  destruct (_ =? _); [|by apply (Hset [])]. destruct (trackedDeliveries s0) as [|[o v] l] eqn:Et; [by apply (Hset []) |].
  pose proof (time_out_sub o v s0) as Ho. destruct (time_out o v s0) as [es s1].
  apply Hset, Ho. rewrite Et. simpl. by rewrite decide_True.
Qed.

Lemma session_step_sub s c :
  callbacks_run (session_step s c).1 ++ waiting (session_step s c).2 ⊆+ waiting s ++ tracked_by c.
Proof.
  destruct c; cbn [session_step tracked_by]; rewrite ?app_nil_r; try done.
  - apply trackDelivery_sub.
  - unfold delivery_timer. case_match; [by apply time_out_sub | done].
  - exact (fmap_submseteq (fun e => onTimeout e.2) _ _ (map_delete_sub _ _)).
  - apply submseteq_nil_l.
  - unfold abandonment_timer. by case_match.
  - unfold abandonCurrentPendingEnvelope. by destruct (session_client s).
  - unfold reserveIncomingDelivery. by destruct (reserve_delivery _ _).
  - unfold attachRelaySession, disconnectRelaySession. destruct (session_client s); apply submseteq_nil_l.
  - unfold attach_settled. repeat case_match; simplify_eq; simpl; try done;
      unfold disconnectRelaySession in *; simplify_eq; destruct (session_client s); apply submseteq_nil_l.
  - unfold disconnectRelaySession. destruct (session_client s); apply submseteq_nil_l.
Qed.

Lemma session_run_sub s cs :
  callbacks_run (session_run s cs).1 ++ waiting (session_run s cs).2 ⊆+ waiting s ++ concat (tracked_by <$> cs).
Proof.
  revert s. induction cs as [|c cs IH]; intros s; [by rewrite app_nil_r |].
  cbn [session_run fmap list_fmap concat].
  pose proof (session_step_sub s c) as Hs. destruct (session_step s c) as [es s1]. specialize (IH s1).
  destruct (session_run s1 cs) as [more s2]. cbn [fst snd] in *.
  rewrite callbacks_run_app, <- app_assoc.
  etransitivity; [exact (submseteq_app _ _ _ _ (reflexivity _) IH) |].
  rewrite !app_assoc. by apply submseteq_skips_r.
Qed.

(** The calls that take a delivery out of the window on purpose. *)
Definition dismisses (d : jsstring) c : bool :=
  match c with
  | call_track d' _ _ _ | call_clear d' => str_eqb d d'
  | call_take | call_attach _ | call_attach_settled _ _ _ | call_disconnect => true
  | _ => false
  end.

Definition tracked_ok s : Prop := map_wf (trackedDeliveries s) /\ zlen (trackedDeliveries s) <= maxTrackedDeliveries.

Lemma time_out_tracked d v s : trackedDeliveries (time_out d v s).2 = map_delete (trackedDeliveries s) d.
Proof. done. Qed.

Lemma session_step_ok s c : tracked_ok s -> tracked_ok (session_step s c).2.
Proof.
  intros [Hwf Hn].
  assert (Hdel : forall d, map_wf (map_delete (trackedDeliveries s) d)
                 /\ zlen (map_delete (trackedDeliveries s) d) <= maxTrackedDeliveries).
  { intros d. split; [by apply map_delete_wf |]. pose proof (map_delete_size (trackedDeliveries s) d). lia. }
  assert (Hnil : tracked_ok (mkSession None [] (reset_window (incomingDeliveryIds s)) [] : RelaySessionState callback)).
  { split; [apply NoDup_nil_2 | done]. }
  destruct c; cbn [session_step]; try done.
  - specialize (Hdel deliveryId) as [Hw1 Hn1]. unfold trackDelivery, tracked_ok.
    change (trackedDeliveries (clearDelivery deliveryId s)) with (map_delete (trackedDeliveries s) deliveryId).
    set (m0 := map_delete (trackedDeliveries s) deliveryId) in *.
    assert (Hset : forall m, map_wf m -> zlen m <= maxTrackedDeliveries - 1 ->
      map_wf (map_set m deliveryId (mkTracked contactId messageId f))
      /\ zlen (map_set m deliveryId (mkTracked contactId messageId f)) <= maxTrackedDeliveries).
    { intros m Hm Hl. split; [by apply map_set_wf |].
      pose proof (map_set_zlen_le m deliveryId (mkTracked contactId messageId f)). lia. }
    destruct (Z.eqb_spec (zlen m0) maxTrackedDeliveries) as [Hfull|Hroom]; [|apply Hset; [done | cbn [trackedDeliveries with_tracked clearDelivery]; fold m0; lia]].
    destruct m0 as [|[o v] m] eqn:Em; [done |]. unfold time_out, abandonCurrentPendingEnvelope.
    cbn [fst snd clearDelivery clearPendingAbandonment with_timers with_tracked trackedDeliveries].
    fold m0. rewrite Em, (map_delete_head o v m Hw1). rewrite zlen_cons in Hfull.
    apply NoDup_cons in Hw1 as [_ ?]. apply Hset; [done | lia].
  - unfold delivery_timer. case_match; [apply Hdel | done].
  - apply Hdel.
  - unfold abandonment_timer. by case_match.
  - unfold reserveIncomingDelivery. by destruct (reserve_delivery _ _).
  - unfold attach_settled. repeat case_match; simplify_eq; simpl; try done; unfold disconnectRelaySession in *; by simplify_eq.
Qed.

Lemma session_step_kept s c d v :
  tracked_ok s -> map_get (trackedDeliveries s) d = Some v -> dismisses d c = false ->
  map_get (trackedDeliveries (session_step s c).2) d = Some v \/ CallbackRun (onTimeout v) ∈ (session_step s c).1.
Proof.
  intros [Hwf _] Hget Hd.
  assert (Hout : forall o w s1, map_get (trackedDeliveries s1) d = Some v -> map_get (trackedDeliveries s1) o = Some w ->
    map_get (trackedDeliveries (time_out o w s1).2) d = Some v \/ CallbackRun (onTimeout v) ∈ (time_out o w s1).1).
  { intros o w s1 H1 H2. rewrite time_out_tracked. destruct (decide (o = d)) as [->|Hne].
    - right. simplify_eq. apply elem_of_app. right. by apply list_elem_of_singleton.
    - left. by rewrite map_get_delete_ne. }
  destruct c; cbn [session_step dismisses] in *; try apply str_eqb_false in Hd; try (left; exact Hget); try done.
  - unfold trackDelivery. set (s1 := clearDelivery deliveryId s).
    assert (H1 : map_get (trackedDeliveries s1) d = Some v) by (by rewrite <- Hget; apply map_get_delete_ne).
    assert (Hset : forall s2 : RelaySessionState callback, map_get (trackedDeliveries s2) d = Some v ->
      map_get (trackedDeliveries (with_tracked (map_set (trackedDeliveries s2) deliveryId (mkTracked contactId messageId f)) s2)) d = Some v).
    { intros s2 H2. cbn [trackedDeliveries with_tracked]. rewrite <- H2. by apply map_get_set_ne. }
    destruct (_ =? _); [|left; by apply Hset]. destruct (trackedDeliveries s1) as [|[o w] m] eqn:Em; [done |].
    assert (Ho : map_get (trackedDeliveries s1) o = Some w) by (by rewrite Em; simpl; rewrite decide_True).
    rewrite <- Em in H1. specialize (Hout o w s1 H1 Ho). destruct (time_out o w s1) as [es s2]. cbn [fst snd] in *.
    destruct Hout as [Hl|Hr]; [left; by apply Hset | by right].
  - unfold delivery_timer. case_match; [by apply Hout | by left].
  - left. rewrite <- Hget. by apply map_get_delete_ne.
  - unfold abandonment_timer. case_match; by left.
  - unfold reserveIncomingDelivery. destruct (reserve_delivery _ _). by left.
Qed.

(** A sent message that waits for the relay's answer has exactly one
    outcome, whatever the order of calls: it keeps its place, or its timeout
    callback runs, or a call takes it out on purpose; no callback runs twice or
    after its message was taken out, and at most 64 messages wait. *)
Theorem delivery_outcomes s cs effects s'
    (Hok : tracked_ok s) (Hrun : session_run s cs = (effects, s')) :
  tracked_ok s'
  /\ callbacks_run effects ++ waiting s' ⊆+ waiting s ++ concat (tracked_by <$> cs)
  /\ (forall d v, map_get (trackedDeliveries s) d = Some v -> existsb (dismisses d) cs = false ->
       map_get (trackedDeliveries s') d = Some v \/ onTimeout v ∈ callbacks_run effects).
Proof.
  split; [|split].
  - replace s' with (session_run s cs).2 by (by rewrite Hrun). clear Hrun. revert s Hok.
    induction cs as [|c cs IH]; intros s Hok; [done |]. cbn [session_run].
    pose proof (session_step_ok s c Hok) as H1. destruct (session_step s c) as [es s1].
    specialize (IH s1 H1). by destruct (session_run s1 cs).
  - pose proof (session_run_sub s cs) as Hs. by rewrite Hrun in Hs.
  - revert s effects Hok Hrun. induction cs as [|c cs IH]; intros s effects Hok Hrun d v Hget Hd.
    { simplify_eq/=. by left. }
    cbn [session_run existsb] in *. apply orb_false_iff in Hd as [Hc Hd].
    pose proof (session_step_ok s c Hok) as H1. pose proof (session_step_kept s c d v Hok Hget Hc) as Hk.
    destruct (session_step s c) as [es s1]. destruct (session_run s1 cs) as [more s2] eqn:E. simplify_eq/=.
    rewrite callbacks_run_app, elem_of_app. destruct Hk as [Hk|Hk].
    + destruct (IH s1 more H1 E d v Hk Hd); auto.
    + right. left. unfold callbacks_run. apply list_elem_of_omap. by exists (CallbackRun (onTimeout v)).
Qed.
End Outcomes.

Definition new_session : RelaySessionState jsstring := mkSession None [] (Window.mk [] incomingDeliveryDedupCapacity) [].

Definition sample_calls : list (session_call (callback := jsstring)) :=
  [call_attach 7; call_attach_settled 7 (Ok tt) (Ok tt);
   call_track (js "d1") (js "c") (js "m1") (js "first"); call_track (js "d2") (js "c") (js "m2") (js "second");
   call_delivery_timer (js "d1"); call_delivery_timer (js "d1"); call_clear (js "d2"); call_delivery_timer (js "d2")].

Lemma delivery_outcomes_witness :
  callbacks_run (session_run new_session sample_calls).1 = [js "first"]
  /\ tracked_ok (session_run new_session sample_calls).2.
Proof.
  split; [closed |].
  apply (delivery_outcomes new_session sample_calls (session_run new_session sample_calls).1
           (session_run new_session sample_calls).2).
  - split; [apply NoDup_nil_2 | vm_compute; discriminate].
  - closed.
Defined.

(** ** Routes and probes *)

Section RouteOrder.
Variable localeCompare : jsstring -> jsstring -> Z.

(** A collation is a total preorder; it may take different texts as equal. *)
Definition collation : Prop :=
  (forall a b, localeCompare a b <= 0 <-> 0 <= localeCompare b a)
  /\ (forall a b c, localeCompare a b <= 0 -> localeCompare b c <= 0 -> localeCompare a c <= 0).

Definition route_text (routes : list RelayRouteMaterial) (a : jsstring) : Prop :=
  exists r, r ∈ routes /\ a ∈ [endpointUri r; relayPublicKey r; profileMultihash r].

Lemma collation_zero a b : collation -> localeCompare a b = 0 <-> localeCompare b a = 0.
Proof. intros [H _]. pose proof (H a b). pose proof (H b a). lia. Qed.

Lemma collation_lt a b : collation -> localeCompare a b < 0 <-> 0 < localeCompare b a.
Proof. intros [H _]. pose proof (H a b). pose proof (H b a). lia. Qed.

Lemma collation_strict a b c : collation ->
  localeCompare a b <= 0 -> localeCompare b c <= 0 -> localeCompare a b < 0 \/ localeCompare b c < 0 ->
  localeCompare a c < 0.
Proof.
  intros [Hs Ht] H1 H2 H3. pose proof (Ht a b c H1 H2). pose proof (Hs a c). pose proof (Hs c a).
  pose proof (Hs a b). pose proof (Hs b c). pose proof (Hs b a). pose proof (Hs c b).
  pose proof (Ht c a b). pose proof (Ht b c a). lia.
Qed.

Lemma route_cmp_le x y :
  route_cmp localeCompare x y <= 0 <->
  localeCompare (endpointUri x) (endpointUri y) < 0
  \/ localeCompare (endpointUri x) (endpointUri y) = 0
     /\ (localeCompare (relayPublicKey x) (relayPublicKey y) < 0
         \/ localeCompare (relayPublicKey x) (relayPublicKey y) = 0
            /\ localeCompare (profileMultihash x) (profileMultihash y) <= 0).
Proof.
  unfold route_cmp.
  generalize (localeCompare (endpointUri x) (endpointUri y)) (localeCompare (relayPublicKey x) (relayPublicKey y))
    (localeCompare (profileMultihash x) (profileMultihash y)). intros a b c.
  destruct (Z.eqb_spec a 0), (Z.eqb_spec b 0); cbn [negb]; lia.
Qed.

Lemma route_cmp_total x y : collation -> route_cmp localeCompare x y <= 0 \/ route_cmp localeCompare y x <= 0.
Proof.
  intros Hc. rewrite !route_cmp_le.
  pose proof (fun f => collation_zero (f x) (f y) Hc) as Hz.
  pose proof (fun f => collation_lt (f x) (f y) Hc) as Hl.
  pose proof (Hz endpointUri). pose proof (Hz relayPublicKey). pose proof (Hz profileMultihash).
  pose proof (Hl endpointUri). pose proof (Hl relayPublicKey). pose proof (Hl profileMultihash). lia.
Qed.

Lemma route_cmp_trans x y z : collation ->
  route_cmp localeCompare x y <= 0 -> route_cmp localeCompare y z <= 0 -> route_cmp localeCompare x z <= 0.
Proof.
  intros Hc. rewrite !route_cmp_le.
  pose proof (fun f => collation_strict (f x) (f y) (f z) Hc) as Hs.
  pose proof (fun f => proj2 Hc (f x) (f y) (f z)) as Ht.
  pose proof (Hs endpointUri). pose proof (Hs relayPublicKey).
  pose proof (Ht endpointUri). pose proof (Ht relayPublicKey). pose proof (Ht profileMultihash). lia.
Qed.

(** Two clients that discovered the same verified routes in different orders
    try the same relays in the same order, with or without a pin, and a pin
    never falls back to another relay. *)
Theorem route_order_agrees routes routes' pin
    (Hcollation : collation)
    (Hfaithful : forall a b, route_text routes a -> route_text routes b -> localeCompare a b = 0 -> a = b)
    (Hverified : Forall (fun r => brand r = true) routes) (Hsame : Permutation routes routes') :
  attachmentRoutesForSelection localeCompare routes pin = attachmentRoutesForSelection localeCompare routes' pin
  /\ (forall key r, pin = Some key -> r ∈ attachmentRoutesForSelection localeCompare routes pin ->
       r ∈ routes /\ relayRouteKey r = key).
Proof.
  split.
  - unfold attachmentRoutesForSelection, orderedAttachmentRoutes. f_equal.
    enough (sort_by (route_cmp localeCompare) routes = sort_by (route_cmp localeCompare) routes') as -> by done.
    assert (Ht : forall x y, route_cmp localeCompare x y <= 0 \/ route_cmp localeCompare y x <= 0)
      by (intros; by apply route_cmp_total).
    assert (Hr : forall x y z, route_cmp localeCompare x y <= 0 -> route_cmp localeCompare y z <= 0 ->
               route_cmp localeCompare x z <= 0) by (intros x y z; by apply route_cmp_trans).
    apply (sorted_perm_eq (route_cmp localeCompare) Ht Hr);
      [| by apply sort_by_sorted | by apply sort_by_sorted | by rewrite !sort_by_perm].
    intros x y Hx Hy Hxy Hyx. apply elem_of_sort_by in Hx, Hy. rewrite Forall_forall in Hverified.
    pose proof (Hverified x Hx) as Bx. pose proof (Hverified y Hy) as By_. rewrite route_cmp_le in Hxy, Hyx.
    assert (Heq : forall f, (forall r, f r ∈ [endpointUri r; relayPublicKey r; profileMultihash r]) ->
              localeCompare (f x) (f y) = 0 -> f x = f y).
    { intros f Hf. apply (Hfaithful (f x) (f y)); [by exists x | by exists y]. }
    pose proof (fun f => collation_lt (f x) (f y) Hcollation) as Hl.
    pose proof (fun f => collation_lt (f y) (f x) Hcollation) as Hl'.
    pose proof (Hl endpointUri). pose proof (Hl relayPublicKey). pose proof (proj1 Hcollation (profileMultihash y) (profileMultihash x)).
    pose proof (Hl' endpointUri). pose proof (Hl' relayPublicKey).
    assert (E1 : endpointUri x = endpointUri y) by (apply Heq; [set_solver | lia]).
    assert (E2 : relayPublicKey x = relayPublicKey y) by (apply Heq; [set_solver | lia]).
    assert (E3 : profileMultihash x = profileMultihash y) by (apply Heq; [set_solver | lia]).
    destruct x, y; cbn in *; congruence.
  - intros key r -> Hr. unfold attachmentRoutesForSelection in Hr.
    destruct (head _) as [r'|] eqn:E; [|by apply not_elem_of_nil in Hr].
    apply list_elem_of_singleton in Hr as ->. apply head_keep in E as [Hk Hin].
    by apply str_eqb_true in Hk; apply elem_of_sort_by in Hin.
Qed.
End RouteOrder.

Definition ascii_compare (a b : jsstring) : Z := if js_ltb a b then -1 else if js_ltb b a then 1 else 0.

Definition sample_route (host : jsstring) : RelayRouteMaterial := mkRoute host (js "key") (js "profile") true.

Lemma ascii_collation : collation ascii_compare.
Proof.
  assert (Has : forall a b, js_ltb a b = true -> js_ltb b a = false).
  { intros a b H. destruct (js_ltb b a) eqn:E; [|done]. pose proof (js_ltb_trans a b a H E) as H'. by rewrite js_ltb_irrefl in H'. }
  unfold ascii_compare. split.
  - intros a b. destruct (js_ltb a b) eqn:E, (js_ltb b a) eqn:E'; try lia. pose proof (Has a b E). congruence.
  - intros a b c H1 H2. destruct (js_ltb a c) eqn:E; [lia |]. destruct (js_ltb c a) eqn:E'; [|lia].
    destruct (js_ltb b a) eqn:Eba; [by rewrite (Has b a Eba) in H1 |].
    destruct (js_ltb c b) eqn:Ecb; [by rewrite (Has c b Ecb) in H2 |].
    by rewrite (js_geb_trans a b c Eba Ecb) in E'.
Qed.

Lemma route_order_agrees_witness :
  attachmentRoutesForSelection ascii_compare [sample_route (js "b"); sample_route (js "a")] None
  = attachmentRoutesForSelection ascii_compare [sample_route (js "a"); sample_route (js "b")] None.
Proof.
  apply (route_order_agrees ascii_compare [sample_route (js "b"); sample_route (js "a")]
           [sample_route (js "a"); sample_route (js "b")] None).
  - exact ascii_collation.
  - intros a b _ _. unfold ascii_compare.
    destruct (js_ltb a b) eqn:E; [lia |]. destruct (js_ltb b a) eqn:E'; [lia |]. intros _. by apply js_ltb_total.
  - by repeat constructor.
  - apply Permutation_swap.
Defined.

(** The pool never probes more than two relays at once, each candidate at most
    once, and, unless it is aborted, all of them. *)
Section Pool.
Variable routes : list RelayRouteMaterial.

Definition pool_workers : nat := Z.to_nat (Z.min maxConcurrentRelayAttachmentProbes (zlen (take 4 routes))).

Record pool_ok (p : ProbePool) : Prop := {
  pool_candidates : candidates p = take 4 routes;
  pool_distinct : NoDup (in_flight p);
  pool_started : Forall (fun i => (i < nextIndex p /\ i < length (candidates p))%nat) (in_flight p);
  pool_results : Forall (fun r => probe_route r ∈ take 4 routes) (probe_results p);
  pool_once : (length (probe_results p) + length (in_flight p) <= Nat.min (nextIndex p) (length (candidates p)))%nat;
}.

Definition pool_busy (p : ProbePool) : Prop :=
  (length (in_flight p) = pool_workers \/ length (candidates p) < nextIndex p)%nat.

Lemma next_probe_ok aborted p : pool_ok p -> pool_ok (next_probe aborted p).
Proof.
  intros [Hc Hd Hs Hr Ho]. unfold next_probe. destruct aborted; [by constructor |].
  destruct (candidates p !! nextIndex p) as [r|] eqn:E; constructor; cbn [candidates nextIndex in_flight probe_results]; try done.
  - apply NoDup_app. split; [done |]. split; [|by apply NoDup_singleton].
    intros i Hi Hn. apply list_elem_of_singleton in Hn as ->. rewrite Forall_forall in Hs. specialize (Hs _ Hi). lia.
  - apply lookup_lt_Some in E. apply Forall_app. split; [|by repeat constructor; lia].
    eapply Forall_impl; [exact Hs |]. cbn. intros; lia.
  - apply lookup_lt_Some in E. rewrite length_app. cbn [length]. lia.
  - eapply Forall_impl; [exact Hs |]. cbn. intros; lia.
  - lia.
Qed.

Lemma next_probe_size aborted p : (length (in_flight (next_probe aborted p)) <= S (length (in_flight p)))%nat.
Proof. unfold next_probe. destruct aborted; [lia |]. cbn [in_flight]. case_match; [rewrite length_app; cbn; lia | lia]. Qed.

Lemma keep_index i l : NoDup l -> i ∈ l -> S (length (keep (fun j => negb (Nat.eqb j i)) l)) = length l.
Proof.
  induction 1 as [|j l Hj Hl IH]; intros Hi; [by apply not_elem_of_nil in Hi |].
  unfold keep. rewrite filter_cons. destruct (decide (i = j)) as [->|Hne].
  - rewrite decide_False by (rewrite Nat.eqb_refl; done). cbn [length]. f_equal. f_equal.
    change (keep (fun k => negb (Nat.eqb k j)) l = l). clear IH Hi Hl. unfold keep.
    induction l as [|k l IHl]; [done |]. apply not_elem_of_cons in Hj as [Hjk Hj].
    rewrite filter_cons_True, (IHl Hj); [done |]. by destruct (Nat.eqb_spec k j); subst.
  - apply elem_of_cons in Hi as [?|Hi]; [done |].
    rewrite decide_True by (destruct (Nat.eqb_spec j i); subst; done). cbn [length]. f_equal. by apply IH.
Qed.

Lemma probe_settled_ok i outcome aborted p q :
  pool_ok p -> probe_settled i outcome aborted p = Some q ->
  pool_ok q /\ (length (in_flight q) <= length (in_flight p))%nat /\ (aborted = false -> pool_busy p -> pool_busy q).
Proof.
  intros [Hc Hd Hs Hr Ho] E. unfold probe_settled in E. case_bool_decide as Hi; [|done]. injection E as <-.
  pose proof (keep_index i _ Hd Hi) as Hk. set (p' := mkPool _ _ _ _).
  assert (Hp' : pool_ok p').
  { constructor; cbn [p' candidates nextIndex in_flight probe_results]; try done.
    - by apply NoDup_filter.
    - eapply Forall_sublist; [apply keep_sublist | exact Hs].
    - repeat case_match; try done. apply Forall_app. split; [done |]. repeat constructor. cbn [probe_route].
      rewrite <- Hc. by eapply list_elem_of_lookup_2.
    - repeat case_match; rewrite ?length_app; cbn [length]; lia. }
  split; [by apply next_probe_ok |]. split.
  - pose proof (next_probe_size aborted p'). cbn [p' in_flight] in *. lia.
  - intros -> Hb. unfold pool_busy, next_probe in *. cbn [p' candidates nextIndex in_flight].
    destruct (candidates p !! nextIndex p) eqn:El.
    + apply lookup_lt_Some in El. rewrite length_app. cbn [length]. lia.
    + apply lookup_ge_None in El. lia.
Qed.

Lemma start_probes_ok aborted :
  pool_ok (start_probes routes aborted)
  /\ (length (in_flight (start_probes routes aborted)) <= 2)%nat
  /\ (aborted = false -> pool_busy (start_probes routes aborted)).
Proof.
  unfold start_probes. fold pool_workers. set (p0 := mkPool _ _ _ _).
  assert (H0 : pool_ok p0) by (constructor; cbn; try done; apply NoDup_nil_2).
  assert (Hw : (pool_workers <= 2 /\ pool_workers <= length (take 4 routes))%nat)
    by (unfold pool_workers, maxConcurrentRelayAttachmentProbes, zlen; lia).
  assert (Hn : forall n, (n <= pool_workers)%nat -> let p := Nat.iter n (next_probe aborted) p0 in
    pool_ok p /\ (length (in_flight p) <= n)%nat /\ (aborted = false -> length (in_flight p) = n /\ nextIndex p = n)%nat).
  { induction n as [|n IH]; intros Hle; [by cbn |]. destruct IH as (Hok & Hl & Hb); [lia |].
    set (p := Nat.iter n (next_probe aborted) p0) in *.
    change (Nat.iter (S n) (next_probe aborted) p0) with (next_probe aborted p).
    intros p'. subst p'. split; [by apply next_probe_ok |].
    split; [pose proof (next_probe_size aborted p); lia |]. intros Ha. specialize (Hb Ha) as [Hl' Hx].
    unfold next_probe. rewrite Ha. cbn [in_flight nextIndex]. rewrite (pool_candidates p Hok), Hx.
    destruct (lookup_lt_is_Some_2 (take 4 routes) n) as [r ->]; [lia |]. rewrite length_app. cbn. lia. }
  destruct (Hn pool_workers) as (Hok & Hl & Hb); [done |]. split; [done |]. split; [lia |].
  intros Ha. left. by apply Hb.
Qed.

(** Ranking the relays probes at most two at once and each of the first four
    candidates at most once; unless it is aborted, every candidate is probed
    before the workers have ended. *)
Theorem probe_pool_bounds aborted events p
    (Hrun : run_probes (start_probes routes aborted) events = Some p) :
  (length (in_flight p) <= 2 /\ length (probe_results p) + length (in_flight p) <= 4)%nat
  /\ Forall (fun r => probe_route r ∈ routes) (probe_results p)
  /\ (aborted = false -> Forall (fun e => e.2 = false) events -> in_flight p = [] ->
      take 4 routes = [] \/ (length (take 4 routes) < nextIndex p)%nat).
Proof.
  assert (Hall : forall p0, run_probes p0 events = Some p -> pool_ok p0 -> (length (in_flight p0) <= 2)%nat ->
    pool_ok p /\ (length (in_flight p) <= 2)%nat /\ (Forall (fun e => e.2 = false) events -> pool_busy p0 -> pool_busy p)).
  { clear Hrun. induction events as [|[[i o] a] events IH]; intros p0 Hrun Hok Hl; cbn in Hrun; [by simplify_eq |].
    destruct (probe_settled i o a p0) as [q|] eqn:E; [|done].
    destruct (probe_settled_ok i o a p0 q Hok E) as (Hq & Hlq & Hbq).
    destruct (IH q Hrun Hq) as (H1 & H2 & H3); [lia |]. split; [done |]. split; [done |].
    intros He Hb. apply Forall_cons in He as [Ha He]. cbn in Ha. auto. }
  destruct (start_probes_ok aborted) as (Hok & Hl & Hb).
  destruct (Hall _ Hrun Hok Hl) as ([Hc _ _ Hr Ho] & Hn & Hbusy). split; [|split].
  - rewrite Hc in Ho. pose proof (length_take routes 4). lia.
  - eapply Forall_impl; [exact Hr |]. cbn. intros r. apply (subseteq_take 4 routes).
  - intros Ha He Hnil. specialize (Hbusy He (Hb Ha)). unfold pool_busy in Hbusy. rewrite Hnil, Hc in Hbusy.
    destruct Hbusy as [Hw|Hw]; [left | by right].
    unfold pool_workers, maxConcurrentRelayAttachmentProbes, zlen in Hw. cbn [length] in Hw.
    apply nil_length_inv. lia.
Qed.
End Pool.

Definition sample_events : list (nat * option Z * bool) := [(1%nat, Some 5, false); (0%nat, None, false); (2%nat, Some 3, false)].

Definition sample_routes : list RelayRouteMaterial := sample_route <$> [js "a"; js "b"; js "c"].

Definition sample_pool : ProbePool :=
  mkPool sample_routes 5 [] [mkProbe (sample_route (js "b")) 5; mkProbe (sample_route (js "c")) 3].

Lemma probe_pool_bounds_witness :
  run_probes (start_probes sample_routes false) sample_events = Some sample_pool
  /\ (take 4 sample_routes = [] \/ (length (take 4 sample_routes) < nextIndex sample_pool)%nat).
Proof.
  assert (Hrun : run_probes (start_probes sample_routes false) sample_events = Some sample_pool) by closed.
  split; [exact Hrun |]. apply (probe_pool_bounds sample_routes false sample_events sample_pool Hrun); [done | | done].
  by repeat constructor.
Defined.
