(* ===== verification/OutboxRuntime.v ===== *)
(** * [pwa/src/connectivity/message-outbox-runtime.ts]: sending queued messages

    One runtime from [startMessageOutboxRuntime] to its stop, in the world it
    acts on: the application store, the tracked deliveries of
    [relay-session.ts], the visibility of the page and the state of the session.
    [run] is cut at its two awaits; [stage] says where it waits.  Every event
    reads the clock once.  A change of a watched field of the store calls the
    subscription, which schedules a run. *)
From S2P Require Import Prelude JsRuntime Collections Admission AppStore AppStoreFacts DeliveryTracking.

Definition outboxRetryInitialDelayMs : Z := 1000.
Definition outboxRetryMaximumDelayMs : Z := 60000.
Definition outboxUnavailableRetryDelayMs : Z := 5000.
Definition outboxMaximumAgeMs : Z := 7 * 24 * 60 * 60 * 1000.
Definition outboxIdleDelayMs : Z := 60000.
Definition maxOutboxEntriesExaminedPerRun : Z := 128.
Definition maxPausedDrainContacts : Z := 128.

Definition outboxRetryDelay (attempts : Z) : Z :=
  let exponent := Z.min (Z.max 0 (attempts - 1)) 6 in
  Z.min outboxRetryMaximumDelayMs (outboxRetryInitialDelayMs * 2 ^ exponent).

(** ** State *)

(** What one attempt hands to [sealAndSendApplicationTextMessage]. *)
Module Attempt.
Record Attempt := mk {
  senderPeerId : jsstring;
  recipientPeerId : jsstring;
  recipientHpkePublicKey : jsstring;
  contactId : jsstring;
  messageId : jsstring;
  deliveryId : jsstring;
  applicationMessageId : jsstring;
  plaintext : jsstring;
  replyToMessageId : option jsstring;
  attempts : Z;
}.
End Attempt.
Abbreviation Attempt := Attempt.Attempt.

Record OutboxRuntime := mkRuntime {
  timer : option Z;
  stopped : bool;
  running : bool;
  activeDeliveryId : option jsstring;
  activeContactId : option jsstring;
  preferredContactId : option jsstring;
  pausedUntilByContactId : list (jsstring * Z);
  awaitingReceiptRetryAtByMessageId : list (jsstring * Z);
}.

Inductive Stage : Type := st_idle | st_saving (a : Attempt) | st_sending (a : Attempt).

Inductive Effect : Type :=
| Trace (text : jsstring)
| SaveTarget (messageId contactId deliveryId : jsstring) (createdAt : Z)
| SendText (a : Attempt)
| SendDirect (a : Attempt)
| Session (e : SessionEffect Attempt).

(** [live] is [getRelaySessionClient() === runtime.client && hasAttachedRelaySession()],
    [direct] are the attempts whose direct RTC frame waits for its ADMIT. *)
Record World := mkWorld {
  store : AppStore;
  identity : option jsstring;
  attached : bool;
  visible : bool;
  live : bool;
  session : RelaySessionState Attempt;
  direct : list (jsstring * Attempt);
  rt : OutboxRuntime;
  stage : Stage;
  effects : list Effect;
}.

Definition on_store s w := mkWorld s (identity w) (attached w) (visible w) (live w) (session w) (direct w) (rt w) (stage w) (effects w).
Definition on_identity i w := mkWorld (store w) i (attached w) (visible w) (live w) (session w) (direct w) (rt w) (stage w) (effects w).
Definition on_attached b w := mkWorld (store w) (identity w) b (visible w) (live w) (session w) (direct w) (rt w) (stage w) (effects w).
Definition on_visible b w := mkWorld (store w) (identity w) (attached w) b (live w) (session w) (direct w) (rt w) (stage w) (effects w).
Definition on_live b w := mkWorld (store w) (identity w) (attached w) (visible w) b (session w) (direct w) (rt w) (stage w) (effects w).
Definition on_session s w := mkWorld (store w) (identity w) (attached w) (visible w) (live w) s (direct w) (rt w) (stage w) (effects w).
Definition on_direct d w := mkWorld (store w) (identity w) (attached w) (visible w) (live w) (session w) d (rt w) (stage w) (effects w).
Definition on_rt r w := mkWorld (store w) (identity w) (attached w) (visible w) (live w) (session w) (direct w) r (stage w) (effects w).
Definition on_stage s w := mkWorld (store w) (identity w) (attached w) (visible w) (live w) (session w) (direct w) (rt w) s (effects w).
Definition log (e : Effect) w := mkWorld (store w) (identity w) (attached w) (visible w) (live w) (session w) (direct w) (rt w) (stage w) (effects w ++ [e]).

Definition set_timer t r := mkRuntime t (stopped r) (running r) (activeDeliveryId r) (activeContactId r)
  (preferredContactId r) (pausedUntilByContactId r) (awaitingReceiptRetryAtByMessageId r).
Definition set_running b r := mkRuntime (timer r) (stopped r) b (activeDeliveryId r) (activeContactId r)
  (preferredContactId r) (pausedUntilByContactId r) (awaitingReceiptRetryAtByMessageId r).
Definition set_active d c r := mkRuntime (timer r) (stopped r) (running r) d c
  (preferredContactId r) (pausedUntilByContactId r) (awaitingReceiptRetryAtByMessageId r).
Definition set_preferred p r := mkRuntime (timer r) (stopped r) (running r) (activeDeliveryId r) (activeContactId r)
  p (pausedUntilByContactId r) (awaitingReceiptRetryAtByMessageId r).
Definition set_paused m r := mkRuntime (timer r) (stopped r) (running r) (activeDeliveryId r) (activeContactId r)
  (preferredContactId r) m (awaitingReceiptRetryAtByMessageId r).
Definition set_awaiting m r := mkRuntime (timer r) (stopped r) (running r) (activeDeliveryId r) (activeContactId r)
  (preferredContactId r) (pausedUntilByContactId r) m.

(** [{ ...entry, nextAttemptAt }] *)
Definition with_next (at_ : Z) (e : StoredOutboxEntry) : StoredOutboxEntry :=
  Outbox.mk (Outbox.messageId e) (Outbox.contactId e) (Outbox.applicationMessageId e) (Outbox.createdAt e) at_
    (Outbox.attempts e) (Outbox.lastDeliveryId e) (Outbox.deliveredAt e).

(** [{ ...due, attempts, lastDeliveryId, nextAttemptAt }] *)
Definition attempted (now : Z) (deliveryId : jsstring) (due : StoredOutboxEntry) : StoredOutboxEntry :=
  Outbox.mk (Outbox.messageId due) (Outbox.contactId due) (Outbox.applicationMessageId due) (Outbox.createdAt due)
    (now + outboxRetryDelay (Outbox.attempts due + 1)) (Outbox.attempts due + 1) (Some deliveryId) (Outbox.deliveredAt due).

(** ** Order and pauses *)

Definition compareOutboxEntryOrder (left right : StoredOutboxEntry) : Z :=
  if negb (Outbox.createdAt left =? Outbox.createdAt right) then Outbox.createdAt left - Outbox.createdAt right
  else if js_ltb (Outbox.messageId left) (Outbox.messageId right) then -1
  else if js_ltb (Outbox.messageId right) (Outbox.messageId left) then 1 else 0.

Definition isContactDrainPaused (contactId : jsstring) (now : Z) (r : OutboxRuntime) : bool * OutboxRuntime :=
  match map_get (pausedUntilByContactId r) contactId with
  | None => (false, r)
  | Some pausedUntil =>
      if now <? pausedUntil then (true, r)
      else (false, set_paused (map_delete (pausedUntilByContactId r) contactId) r)
  end.

Definition isAwaitingReceiptRetry (messageId : jsstring) (now : Z) (r : OutboxRuntime) : bool * OutboxRuntime :=
  match map_get (awaitingReceiptRetryAtByMessageId r) messageId with
  | None => (false, r)
  | Some retryAt =>
      if now <? retryAt then (true, r)
      else (false, set_awaiting (map_delete (awaitingReceiptRetryAtByMessageId r) messageId) r)
  end.

(** [if (!map.has(key) && map.size >= bound) delete the oldest; map.set(key, value)] *)
Definition bounded_set (bound : Z) (m : list (jsstring * Z)) (key : jsstring) (value : Z) : list (jsstring * Z) :=
  let m := if negb (map_has m key) && (bound <=? zlen m) then
             match m with (oldest, _) :: _ => map_delete m oldest | [] => m end
           else m in
  map_set m key value.

Definition pauseContactDrain (contactId : jsstring) (retryAt : Z) (r : OutboxRuntime) : OutboxRuntime :=
  set_paused (bounded_set maxPausedDrainContacts (pausedUntilByContactId r) contactId retryAt) r.

Definition rememberAwaitingReceiptRetry (messageId : jsstring) (retryAt : Z) (r : OutboxRuntime) : OutboxRuntime :=
  set_awaiting (bounded_set maxOutboxEntriesExaminedPerRun (awaitingReceiptRetryAtByMessageId r) messageId retryAt) r.

Definition pruneAwaitingReceiptRetries (entries : list StoredOutboxEntry) (r : OutboxRuntime) : OutboxRuntime :=
  let queuedMessageIds := Outbox.messageId <$> entries in
  set_awaiting (map_delete_if (fun id _ => negb (bool_decide (id ∈ queuedMessageIds))) (awaitingReceiptRetryAtByMessageId r)) r.

(** [entries.filter(p)] where [p] may change the runtime. *)
Fixpoint filter_state (p : StoredOutboxEntry -> OutboxRuntime -> bool * OutboxRuntime) (l : list StoredOutboxEntry)
    (r : OutboxRuntime) : list StoredOutboxEntry * OutboxRuntime :=
  match l with
  | [] => ([], r)
  | e :: l =>
      let '(b, r) := p e r in
      let '(l, r) := filter_state p l r in
      (if b then e :: l else l, r)
  end.

Definition advancedOutboxMessageIds (entries : list StoredOutboxEntry) (now : Z) (r : OutboxRuntime)
    : list jsstring * OutboxRuntime :=
  let '(l, r) := filter_state (fun e r =>
    match Outbox.deliveredAt e with Some _ => (true, r) | None => isAwaitingReceiptRetry (Outbox.messageId e) now r end)
    entries r in
  (Outbox.messageId <$> l, r).

Definition contactOutboxHeads (entries : list StoredOutboxEntry) (advanced : list jsstring) : list StoredOutboxEntry :=
  let headsByContactId := foldl (fun heads e =>
    if bool_decide (Outbox.messageId e ∈ advanced) || map_has heads (Outbox.contactId e) then heads
    else map_set heads (Outbox.contactId e) e) [] (sort_by compareOutboxEntryOrder entries) in
  sort_by compareOutboxEntryOrder headsByContactId.*2.

Definition nextEligibleEntry (entries : list StoredOutboxEntry) (now : Z) (r : OutboxRuntime)
    : option StoredOutboxEntry * OutboxRuntime :=
  let '(advanced, r) := advancedOutboxMessageIds entries now r in
  let '(eligible, r) := filter_state (fun e r =>
    if Outbox.nextAttemptAt e <=? now then
      let '(paused, r) := isContactDrainPaused (Outbox.contactId e) now r in
      if paused then (false, r)
      else let '(awaiting, r) := isAwaitingReceiptRetry (Outbox.messageId e) now r in (negb awaiting, r)
    else (false, r)) (contactOutboxHeads entries advanced) r in
  match preferredContactId r with
  | None => (head eligible, r)
  | Some c =>
      match head (keep (fun e => str_eqb (Outbox.contactId e) c) eligible) with
      | Some preferred => (Some preferred, r)
      | None => (head eligible, set_preferred None r)
      end
  end.

Definition earliest (acc : option Z) (at_ : Z) : option Z :=
  match acc with None => Some at_ | Some t => if at_ <? t then Some at_ else acc end.

Definition nextWakeDelay (entries : list StoredOutboxEntry) (now : Z) (r : OutboxRuntime) : Z * OutboxRuntime :=
  let '(advanced, r) := advancedOutboxMessageIds entries now r in
  let acc := foldl (fun acc e =>
    let pausedUntil := default 0 (map_get (pausedUntilByContactId r) (Outbox.contactId e)) in
    let receiptRetryAt := default 0 (map_get (awaitingReceiptRetryAtByMessageId r) (Outbox.messageId e)) in
    earliest acc (Z.max (Z.max (Outbox.nextAttemptAt e) pausedUntil) receiptRetryAt)) None (contactOutboxHeads entries advanced) in
  let acc := foldl (fun acc e =>
    if bool_decide (Outbox.messageId e ∈ advanced) then
      earliest acc (match Outbox.deliveredAt e with
                    | None => default (Outbox.nextAttemptAt e) (map_get (awaitingReceiptRetryAtByMessageId r) (Outbox.messageId e))
                    | Some _ => Outbox.createdAt e + outboxMaximumAgeMs
                    end)
    else acc) acc entries in
  (match acc with None => outboxIdleDelayMs | Some t => Z.max 0 (t - now) end, r).

(** ** Scheduling and the calls of the store *)

Definition schedule (delayMs : Z) (w : World) : World :=
  if stopped (rt w) then w else on_rt (set_timer (Some (Z.max 0 delayMs)) (rt w)) w.

(** The actions below replace a watched field, which calls the subscription. *)
Definition queue (e : StoredOutboxEntry) (w : World) : World := schedule 0 (on_store (queueMessage e (store w)) w).

Definition settle_entry (messageId : jsstring) (w : World) : World :=
  schedule 0 (on_store (settleOutboxMessage messageId (store w)) w).

Definition deliver_state (contactId messageId : jsstring) (st : MessageDeliveryState) (w : World) : World :=
  let w' := on_store (setMessageDeliveryState contactId messageId st (store w)) w in
  if existsb (advances messageId st) (bucket (messagesByContactId (store w)) contactId) then schedule 0 w' else w'.

Definition trace (text : jsstring) : World -> World := log (Trace text).

Definition queued_where (p : StoredOutboxEntry -> bool) (w : World) : option StoredOutboxEntry := head (keep p (outbox (store w))).

Definition defer (entry : StoredOutboxEntry) (now delayMs : Z) (w : World) : World :=
  let nextAttemptAt := Z.max (Outbox.nextAttemptAt entry) (now + delayMs) in
  let w := if nextAttemptAt =? Outbox.nextAttemptAt entry then w else queue (with_next nextAttemptAt entry) w in
  schedule (Z.max 0 (nextAttemptAt - now)) w.

Definition stopActiveDrain (deliveryId contactId messageId : jsstring) (retryDelayMs now : Z) (w : World) : World :=
  if stopped (rt w) || negb (bool_decide (activeDeliveryId (rt w) = Some deliveryId)) then w
  else
    let retryAt := now + retryDelayMs in
    let w := match queued_where (fun e => str_eqb (Outbox.messageId e) messageId) w with
             | Some entry => queue (with_next (Z.max (Outbox.nextAttemptAt entry) retryAt) entry) w
             | None => w
             end in
    let r := set_preferred None (set_active None None (rt w)) in
    schedule (Z.max 0 (retryAt - now)) (on_rt (pauseContactDrain contactId retryAt r) w).

(** ** [run] *)

Inductive Outcome : Type :=
| wss_sent | wss_failed | direct_sent | not_sent.

(** The [finally] block. *)
Definition end_run (w : World) : World := on_stage st_idle (on_rt (set_running false (rt w)) w).

Definition may_run (w : World) : bool :=
  negb (stopped (rt w)) && negb (running (rt w)) && negb (bool_decide (is_Some (activeDeliveryId (rt w)))) && visible w && live w.

Section Run.
Variable now : Z.
(** [peerSupportsChatText] at this moment *)
Variable supports : jsstring -> bool.
(** [createDeliveryID()] *)
Variable deliveryId : jsstring.

Definition expired_delivered (e : StoredOutboxEntry) : bool :=
  negb (bool_decide (Outbox.deliveredAt e = None)) && (outboxMaximumAgeMs <=? now - Outbox.createdAt e).

Definition examined (w : World) : list StoredOutboxEntry :=
  take (Z.to_nat maxOutboxEntriesExaminedPerRun) (sort_by compareOutboxEntryOrder (outbox (store w))).

Definition find_message (due : StoredOutboxEntry) (w : World) : option MessageSummary :=
  head (keep (fun m => str_eqb (Message.messageId m) (Outbox.messageId due))
          (bucket (messagesByContactId (store w)) (Outbox.contactId due))).

Definition find_contact (contactId : jsstring) (w : World) : option ContactSummary :=
  head (keep (fun c => str_eqb (Contact.contactId c) contactId) (contacts (store w))).

Definition is_available (contactId : jsstring) (w : World) : bool :=
  match map_get (contactPresenceById (store w)) contactId with
  | Some p => bool_decide (Presence.status p = p_available)
  | None => false
  end.

(** What becomes of the entry that is due, up to the first await. *)
Definition attempt_entry (senderPeerId : jsstring) (due : StoredOutboxEntry) (w : World) : World :=
  match find_contact (Outbox.contactId due) w, find_message due w with
  | Some contact, Some message =>
      if negb (bool_decide (Message.direction message = outgoing)) then end_run (schedule 0 (settle_entry (Outbox.messageId due) w))
      else if outboxMaximumAgeMs <=? now - Outbox.createdAt due then
        let w := deliver_state (Outbox.contactId due) (Outbox.messageId due) d_unavailable w in
        end_run (schedule 0 (trace (js "outbox: expired") (settle_entry (Outbox.messageId due) w)))
      else
        match Contact.peerId contact, Contact.hpkePublicKey contact with
        | Some peerId, Some hpkePublicKey =>
            if negb (is_available (Contact.contactId contact) w) || negb (supports peerId)
            then end_run (defer due now outboxUnavailableRetryDelayMs w)
            else
              let w := queue (attempted now deliveryId due) w in
              let a := Attempt.mk senderPeerId peerId hpkePublicKey (Contact.contactId contact) (Outbox.messageId due) deliveryId
                         (Outbox.applicationMessageId due) (Message.body message) (Message.replyToMessageId message)
                         (Outbox.attempts due + 1) in
              let w := on_rt (set_active (Some deliveryId) (Some (Outbox.contactId due)) (rt w)) w in
              on_stage (st_saving a) (log (SaveTarget (Outbox.messageId due) (Outbox.contactId due) deliveryId now) w)
        | _, _ => end_run (defer due now outboxUnavailableRetryDelayMs w)
        end
  | _, _ => end_run (schedule 0 (settle_entry (Outbox.messageId due) w))
  end.

Definition run (w : World) : World :=
  if negb (may_run w) then w
  else
    let w := on_rt (set_running true (rt w)) w in
    match identity w with
    | None => end_run w
    | Some senderPeerId =>
        if negb (attached w) then end_run w
        else
          let entries := examined w in
          let w := on_rt (pruneAwaitingReceiptRetries entries (rt w)) w in
          match keep expired_delivered entries with
          | [] =>
              let '(due, r) := nextEligibleEntry entries now (rt w) in
              let w := on_rt r w in
              match due with
              | None =>
                  let '(delay, r) := nextWakeDelay entries now (rt w) in
                  end_run (schedule delay (on_rt r w))
              | Some due => attempt_entry senderPeerId due w
              end
          | expired => end_run (schedule 0 (foldl (fun w e => settle_entry (Outbox.messageId e) w) w expired))
          end
    end.

(** ** After the awaits *)

(** The [catch] block. *)
Definition attempt_failed (a : Attempt) (w : World) : World :=
  end_run (stopActiveDrain (Attempt.deliveryId a) (Attempt.contactId a) (Attempt.messageId a)
            (outboxRetryDelay (Attempt.attempts a)) now (trace (js "outbox: retry_deferred") w)).

(** [onRelayOutcomeTimeout] *)
Definition outcome_timeout (a : Attempt) (w : World) : World :=
  stopActiveDrain (Attempt.deliveryId a) (Attempt.contactId a) (Attempt.messageId a)
    (outboxRetryDelay (Attempt.attempts a)) now (trace (js "outbox: retry_deferred") w).

(** The calls of [relay-session.ts], with the callbacks they run. *)
Definition session_effects (l : list (SessionEffect Attempt)) (w : World) : World :=
  foldl (fun w e => match e with CallbackRun a => outcome_timeout a w | e => log (Session e) w end) w l.

Definition track (a : Attempt) (w : World) : World :=
  let '(es, s) := trackDelivery (Attempt.deliveryId a) (Attempt.contactId a) (Attempt.messageId a) a (session w) in
  session_effects es (on_session s w).

Definition clear_delivery (deliveryId : jsstring) (w : World) : World := on_session (clearDelivery deliveryId (session w)) w.

Definition target_saved (ok : bool) (w : World) : World :=
  match stage w with
  | st_saving a => if ok then on_stage (st_sending a) w else attempt_failed a w
  | _ => w
  end.

Definition send_settled (outcome : Outcome) (w : World) : World :=
  match stage w with
  | st_sending a =>
      match outcome with
      | wss_sent => end_run (trace (js "outbox: retry_sent") (log (SendText a) (track a w)))
      | wss_failed => attempt_failed a (clear_delivery (Attempt.deliveryId a) (track a w))
      | not_sent => attempt_failed a w
      | direct_sent =>
          let w := on_direct (map_set (direct w) (Attempt.deliveryId a) a) (log (SendDirect a) w) in
          end_run (trace (js "outbox: retry_sent") w)
      end
  | _ => w
  end.

(** [fallbackToWSS] of a direct frame; the sender ignores an error. *)
Definition direct_fallback (deliveryId : jsstring) (sent : bool) (w : World) : World :=
  match map_get (direct w) deliveryId with
  | Some a =>
      let w := track a (on_direct (map_delete (direct w) deliveryId) w) in
      if sent then log (SendText a) w else w
  | None => w
  end.

(** The acknowledgement timer of [trackDelivery]. *)
Definition tracked_timeout (deliveryId : jsstring) (w : World) : World :=
  let '(es, s) := delivery_timer deliveryId (session w) in
  session_effects es (on_session s w).

(** ** Calls from outside *)

Definition advanceMessageOutboxDrainAfterRelayForwarded (deliveryId : jsstring) (w : World) : World :=
  if stopped (rt w) || negb (bool_decide (activeDeliveryId (rt w) = Some deliveryId)) then w
  else
    let r := match queued_where (fun e => bool_decide (Outbox.lastDeliveryId e = Some deliveryId)) w with
             | Some entry => rememberAwaitingReceiptRetry (Outbox.messageId entry) (Outbox.nextAttemptAt entry) (rt w)
             | None => rt w
             end in
    schedule 0 (on_rt (set_active None None (set_preferred (activeContactId r) r)) w).

Definition clear_abandonment (deliveryId : jsstring) (w : World) : World :=
  on_session (clearPendingAbandonment deliveryId (session w)) w.

(** The event [relay_ack] of [use-relay-transport.ts], without the listener
    of attachment transfers. *)
Definition relay_ack (deliveryId : jsstring) (forwarded : bool) (w : World) : World :=
  let w := clear_abandonment deliveryId w in
  let w := match messageForDelivery deliveryId (session w) with
           | Some (contactId, messageId) => clear_delivery deliveryId (deliver_state contactId messageId d_relayed w)
           | None => w
           end in
  if forwarded then advanceMessageOutboxDrainAfterRelayForwarded deliveryId w else w.

Definition restartMessageOutboxDrainAfterPresencePong (contactId : jsstring) (w : World) : World :=
  match activeDeliveryId (rt w) with
  | Some deliveryId =>
      if stopped (rt w) || negb (visible w) || negb (bool_decide (activeContactId (rt w) = Some contactId)) then w
      else
        let w := match queued_where (fun e => bool_decide (Outbox.lastDeliveryId e = Some deliveryId)) w with
                 | Some entry => queue (with_next now entry) w
                 | None => w
                 end in
        let w := clear_delivery deliveryId w in
        let '(es, s) := abandonCurrentPendingEnvelope deliveryId (session w) in
        let w := session_effects es (on_session s w) in
        let r := set_preferred (Some contactId) (set_active None None (rt w)) in
        schedule 0 (on_rt (set_paused (map_delete (pausedUntilByContactId r) contactId) r) w)
  | None => w
  end.
End Run.

Definition runtimeVisibilityChange (isVisible : bool) (w : World) : World :=
  let w := on_visible isVisible w in
  if stopped (rt w) then w else if isVisible then schedule 0 w else w.

Definition new_runtime : OutboxRuntime := mkRuntime None false false None None None [] [].

Definition startMessageOutboxRuntime (w : World) : World := schedule 0 (on_stage st_idle (on_rt new_runtime w)).

Definition stopMessageOutboxRuntime (w : World) : World :=
  on_rt (mkRuntime None true (running (rt w)) None None None [] []) w.

Definition needsQueuedTextCapabilityRenewal (entries : list StoredOutboxEntry) (contactId peerId : jsstring)
    (supports : jsstring -> bool) : bool :=
  existsb (fun e => str_eqb (Outbox.contactId e) contactId) entries && negb (supports peerId).

(** Whether [renewQueuedTextCapabilityAfterPresencePong] announces the
    capabilities, and to whom. *)
Definition renewQueuedTextCapabilityAfterPresencePong (contactId : jsstring) (supports : jsstring -> bool) (attachedSession : bool)
    (w : World) : option (jsstring * jsstring * jsstring) :=
  if negb (visible w) || negb attachedSession || negb (attached w) then None
  else
    match identity w, find_contact contactId w with
    | Some sender, Some contact =>
        match Contact.peerId contact, Contact.hpkePublicKey contact with
        | Some peerId, Some key =>
            if needsQueuedTextCapabilityRenewal (outbox (store w)) contactId peerId supports then Some (sender, peerId, key) else None
        | _, _ => None
        end
    | _, _ => None
    end.
