(* ===== verification/OutboxFacts.v ===== *)
(** * What the outbox runtime does with the queue

    Events and reachable worlds, the invariant of the runtime, when an attempt
    starts and what happens to queued entries. *)
From Stdlib Require Import Sorting.Sorted.
From S2P Require Import Prelude JsRuntime Collections Admission AppStore AppStoreFacts DeliveryTracking OutboxRuntime.

(** ** Events *)

Inductive Event : Type :=
| ev_timer (now : Z) (supports : jsstring -> bool) (deliveryId : jsstring)
| ev_saved (now : Z) (ok : bool)
| ev_sent (now : Z) (outcome : Outcome)
| ev_fallback (now : Z) (deliveryId : jsstring) (sent : bool)
| ev_admit (deliveryId : jsstring)
| ev_timeout (now : Z) (deliveryId : jsstring)
| ev_ack (deliveryId : jsstring) (forwarded : bool)
| ev_pong (now : Z) (contactId : jsstring)
| ev_visible (b : bool)
| ev_store (a : action) (notify : bool)
| ev_identity (i : option jsstring)
| ev_attached (b : bool)
| ev_session_lost
| ev_stop.

Definition fire (w : World) (e : Event) : World :=
  match e with
  | ev_timer now supports d => run now supports d (on_rt (set_timer None (rt w)) w)
  | ev_saved now ok => target_saved now ok w
  | ev_sent now o => send_settled now o w
  | ev_fallback now d sent => direct_fallback now d sent w
  | ev_admit d => on_direct (map_delete (direct w) d) w
  | ev_timeout now d => tracked_timeout now d w
  | ev_ack d forwarded => relay_ack d forwarded w
  | ev_pong now c => restartMessageOutboxDrainAfterPresencePong now c w
  | ev_visible b => runtimeVisibilityChange b w
  | ev_store a notify =>
      let w := on_store (run_action (store w) a) w in if notify then schedule 0 w else w
  | ev_identity i => schedule 0 (on_identity i w)
  | ev_attached b => schedule 0 (on_attached b w)
  | ev_session_lost => on_live false w
  | ev_stop => stopMessageOutboxRuntime w
  end.

(** The fields whose change calls the subscription; [notify] is the comparison
    of references, which is true at least when a value changed. *)
Definition watched (s : AppStore) := ((outbox s, contacts s), (contactPresenceById s, messagesByContactId s)).

Definition sent_ids (w : World) : list jsstring :=
  omap (fun e => match e with SendText a => Some (Attempt.deliveryId a) | _ => None end) (effects w).

Definition is_fresh (d : jsstring) (w : World) : Prop :=
  (d ∉ map_keys (trackedDeliveries (session w))) /\ (d ∉ map_keys (direct w)) /\ (d ∉ sent_ids w).

(** What the language, the timers and the relay guarantee of the next event: a
    timer fires when it is armed, delivery identifiers are fresh, an await settles
    when the run waits at it, and the relay answers what was sent to it. *)
Definition enabled (w : World) (e : Event) : Prop :=
  match e with
  | ev_timer _ _ d => timer (rt w) <> None /\ is_fresh d w
  | ev_saved _ _ => exists a, stage w = st_saving a
  | ev_sent _ _ => exists a, stage w = st_sending a
  | ev_fallback _ d _ | ev_admit d => d ∈ map_keys (direct w)
  | ev_timeout _ d => d ∈ map_keys (trackedDeliveries (session w))
  | ev_ack d _ => d ∈ sent_ids w
  | ev_store a notify => notify = true \/ watched (run_action (store w) a) = watched (store w)
  | _ => True
  end.

(** ** Pauses that have run out do not matter *)

Definition awaiting (now : Z) (r : OutboxRuntime) (messageId : jsstring) : bool :=
  match map_get (awaitingReceiptRetryAtByMessageId r) messageId with Some t => now <? t | None => false end.

Definition paused (now : Z) (r : OutboxRuntime) (contactId : jsstring) : bool :=
  match map_get (pausedUntilByContactId r) contactId with Some t => now <? t | None => false end.

Record same_waits (now : Z) (r r' : OutboxRuntime) : Prop := {
  same_control : timer r' = timer r /\ stopped r' = stopped r /\ running r' = running r
                 /\ activeDeliveryId r' = activeDeliveryId r /\ activeContactId r' = activeContactId r;
  same_awaiting id : awaiting now r' id = awaiting now r id;
  same_paused c : paused now r' c = paused now r c;
  same_awaiting_ids : awaitingReceiptRetryAtByMessageId r' `sublist_of` awaitingReceiptRetryAtByMessageId r;
  same_paused_ids : pausedUntilByContactId r' `sublist_of` pausedUntilByContactId r;
}.

Lemma same_waits_refl now r : same_waits now r r.
Proof. by constructor. Qed.

Lemma same_waits_trans now a b c : same_waits now a b -> same_waits now b c -> same_waits now a c.
Proof.
  intros [(? & ? & ? & ? & ?) A1 P1 ? ?] [(? & ? & ? & ? & ?) A2 P2 ? ?]. constructor.
  - split_and!; congruence.
  - intros id. by rewrite A2, A1.
  - intros id. by rewrite P2, P1.
  - by etransitivity.
  - by etransitivity.
Qed.

Lemma expired_get now (m : list (jsstring * Z)) k k' t :
  map_get m k = Some t -> (now <? t) = false ->
  match map_get (map_delete m k) k' with Some t => now <? t | None => false end
  = match map_get m k' with Some t => now <? t | None => false end.
Proof.
  intros Hk Ht. destruct (decide (k = k')) as [<-|Hne]; [|by rewrite map_get_delete_ne].
  by rewrite map_get_delete_eq, Hk, Ht.
Qed.

Lemma isAwaiting_spec id now r :
  (isAwaitingReceiptRetry id now r).1 = awaiting now r id /\ same_waits now r (isAwaitingReceiptRetry id now r).2.
Proof.
  unfold isAwaitingReceiptRetry, awaiting. destruct (map_get _ id) as [t|] eqn:E; [|by split; [|apply same_waits_refl]].
  destruct (now <? t) eqn:Et; cbn [fst snd]; (split; [done |]); [apply same_waits_refl |].
  constructor; try done.
  - intros id'. apply (expired_get now _ id id' t E Et).
  - apply map_delete_sublist.
Qed.

Lemma isPaused_spec c now r :
  (isContactDrainPaused c now r).1 = paused now r c /\ same_waits now r (isContactDrainPaused c now r).2.
Proof.
  unfold isContactDrainPaused, paused. destruct (map_get _ c) as [t|] eqn:E; [|by split; [|apply same_waits_refl]].
  destruct (now <? t) eqn:Et; cbn [fst snd]; (split; [done |]); [apply same_waits_refl |].
  constructor; try done.
  - intros c'. apply (expired_get now _ c c' t E Et).
  - apply map_delete_sublist.
Qed.

(** A filter whose test does not depend on expired pauses is an ordinary filter. *)
Lemma filter_state_spec now (p : StoredOutboxEntry -> OutboxRuntime -> bool * OutboxRuntime) (f : StoredOutboxEntry -> bool) l r :
  (forall e r', same_waits now r r' -> (p e r').1 = f e /\ same_waits now r' (p e r').2) ->
  (filter_state p l r).1 = keep f l /\ same_waits now r (filter_state p l r).2.
Proof.
  intros Hp. assert (H : forall r', same_waits now r r' ->
    (filter_state p l r').1 = keep f l /\ same_waits now r' (filter_state p l r').2).
  { induction l as [|e l IH]; intros r' Hr; [by split; [|apply same_waits_refl] |]. cbn [filter_state].
    destruct (Hp e r' Hr) as [Hb Hs]. destruct (p e r') as [b r1]. cbn [fst snd] in *.
    destruct (IH r1) as [Hl Hs']; [by eapply same_waits_trans |]. destruct (filter_state p l r1) as [l' r2]. cbn [fst snd] in *.
    split; [|by eapply same_waits_trans]. rewrite Hb, Hl. unfold keep. rewrite filter_cons.
    destruct (f e) eqn:E; by rewrite ?decide_True, ?decide_False by done. }
  apply H, same_waits_refl.
Qed.

Definition advanced (now : Z) (r : OutboxRuntime) (e : StoredOutboxEntry) : bool :=
  match Outbox.deliveredAt e with Some _ => true | None => awaiting now r (Outbox.messageId e) end.

Lemma advancedOutboxMessageIds_spec entries now r :
  (advancedOutboxMessageIds entries now r).1 = Outbox.messageId <$> keep (advanced now r) entries
  /\ same_waits now r (advancedOutboxMessageIds entries now r).2.
Proof.
  unfold advancedOutboxMessageIds.
  match goal with |- context [filter_state ?p entries r] => pose proof (filter_state_spec now p (advanced now r) entries r) as H end.
  destruct H as [Hl Hs].
  - intros e r' Hr. unfold advanced. destruct (Outbox.deliveredAt e); [by split; [|apply same_waits_refl] |].
    destruct (isAwaiting_spec (Outbox.messageId e) now r') as [Ha Hs]. split; [|done]. by rewrite Ha, (same_awaiting _ _ _ Hr).
  - destruct (filter_state _ entries r). cbn [fst snd] in *. by rewrite Hl.
Qed.

(** ** Heads of the contacts *)

Lemma compare_le x y : compareOutboxEntryOrder x y <= 0 <->
  Outbox.createdAt x < Outbox.createdAt y
  \/ Outbox.createdAt x = Outbox.createdAt y /\ js_ltb (Outbox.messageId y) (Outbox.messageId x) = false.
Proof.
  unfold compareOutboxEntryOrder. destruct (Z.eqb_spec (Outbox.createdAt x) (Outbox.createdAt y)) as [->|]; cbn [negb]; [|lia].
  destruct (js_ltb (Outbox.messageId x) _) eqn:E1.
  - assert (js_ltb (Outbox.messageId y) (Outbox.messageId x) = false); [|split; [by right | lia]].
    destruct (js_ltb (Outbox.messageId y) _) eqn:E2; [|done].
    pose proof (js_ltb_trans _ _ _ E1 E2) as Hxx. by rewrite js_ltb_irrefl in Hxx.
  - destruct (js_ltb (Outbox.messageId y) _); split; (lia || by right || (intros [?|[_ ?]]; [lia | done])).
Qed.

Lemma compare_total x y : compareOutboxEntryOrder x y <= 0 \/ compareOutboxEntryOrder y x <= 0.
Proof.
  rewrite !compare_le. destruct (Z.lt_total (Outbox.createdAt x) (Outbox.createdAt y)) as [?|[?|?]]; [auto | | auto].
  destruct (js_ltb (Outbox.messageId y) (Outbox.messageId x)) eqn:E1; [|auto].
  right. right. split; [done |]. destruct (js_ltb (Outbox.messageId x) (Outbox.messageId y)) eqn:E2; [|done].
  pose proof (js_ltb_trans _ _ _ E1 E2) as Hxx. by rewrite js_ltb_irrefl in Hxx.
Qed.

Lemma compare_trans x y z :
  compareOutboxEntryOrder x y <= 0 -> compareOutboxEntryOrder y z <= 0 -> compareOutboxEntryOrder x z <= 0.
Proof.
  rewrite !compare_le. intros [?|[E1 H1]] [?|[E2 H2]]; try (left; lia).
  right. split; [lia |]. by apply (js_geb_trans _ (Outbox.messageId y)).
Qed.

Lemma compare_refl x : compareOutboxEntryOrder x x <= 0.
Proof. apply compare_le. right. by rewrite js_ltb_irrefl. Qed.

Lemma heads_fold (ids : list jsstring) (l : list StoredOutboxEntry) : StronglySorted (cmp_le compareOutboxEntryOrder) l -> forall (heads : list (jsstring * StoredOutboxEntry)) c v,
  map_wf heads ->
  (c, v) ∈ foldl (fun heads e =>
    if bool_decide (Outbox.messageId e ∈ ids) || map_has heads (Outbox.contactId e) then heads
    else map_set heads (Outbox.contactId e) e) heads l ->
  (c, v) ∈ heads
  \/ c = Outbox.contactId v /\ v ∈ l /\ (Outbox.messageId v ∉ ids) /\ (c ∉ map_keys heads)
     /\ forall e, e ∈ l -> Outbox.contactId e = c -> Outbox.messageId e ∉ ids -> compareOutboxEntryOrder v e <= 0.
Proof.
  induction 1 as [|e l Hs IH Hf]; intros heads c v Hwf; cbn [foldl]; [by left |].
  destruct (bool_decide _ || map_has _ _) eqn:E.
  - intros Hin. destruct (IH heads c v Hwf Hin) as [?|(-> & Hv & Hi & Hc & Hfirst)]; [by left |]. right.
    split_and!; [done | by right | done | done |]. intros e' He' Hce Hie.
    apply elem_of_cons in He' as [->|He']; [|by apply Hfirst]. exfalso.
    apply orb_true_iff in E as [E|E]; [by apply bool_decide_eq_true in E |].
    apply map_has_true in E. by rewrite Hce in E.
  - apply orb_false_iff in E as [E Hh]. apply bool_decide_eq_false in E. apply map_has_false in Hh.
    rewrite (map_set_fresh heads _ e Hh). intros Hin.
    assert (Hwf' : map_wf (heads ++ [(Outbox.contactId e, e)])) by (rewrite <- (map_set_fresh heads _ e Hh); by apply map_set_wf).
    destruct (IH _ c v Hwf' Hin) as [Hin'|(-> & Hv & Hi & Hc & Hfirst)].
    + apply elem_of_app in Hin' as [?|Hin']; [by left |]. apply list_elem_of_singleton in Hin' as [= -> ->]. right.
      split_and!; [done | by left | done | done |]. intros e' He' _ _.
      apply elem_of_cons in He' as [->|He']; [apply compare_refl |]. rewrite Forall_forall in Hf. by apply Hf.
    + right. unfold map_keys in Hc. rewrite fmap_app, not_elem_of_app in Hc. destruct Hc as [Hc Hne].
      split_and!; [done | by right | done | done |]. intros e' He' Hce Hie.
      apply elem_of_cons in He' as [->|He']; [|by apply Hfirst]. exfalso. apply Hne. rewrite Hce. by left.
Qed.

Lemma contactOutboxHeads_spec entries (ids : list jsstring) e :
  e ∈ contactOutboxHeads entries ids ->
  e ∈ entries /\ (Outbox.messageId e ∉ ids)
  /\ forall e', e' ∈ entries -> Outbox.contactId e' = Outbox.contactId e -> Outbox.messageId e' ∉ ids -> compareOutboxEntryOrder e e' <= 0.
Proof.
  unfold contactOutboxHeads. rewrite elem_of_sort_by. intros Hin. apply list_elem_of_fmap in Hin as ([c v] & -> & Hin).
  assert (Hs : StronglySorted (cmp_le compareOutboxEntryOrder) (sort_by compareOutboxEntryOrder entries)).
  { apply sort_by_sorted; [apply compare_total | apply compare_trans]. }
  destruct (heads_fold ids _ Hs [] c v (NoDup_nil_2) Hin) as [Hn|(-> & Hv & Hi & _ & Hfirst)]; [by apply not_elem_of_nil in Hn |].
  cbn [snd]. split; [by apply elem_of_sort_by in Hv |]. split; [done |].
  intros e' He'. apply Hfirst. by apply elem_of_sort_by.
Qed.

(** An entry that may be attempted now: it is due and every older entry of its
    contact has been handed to the relay or delivered. *)
Record eligible (now : Z) (r : OutboxRuntime) (entries : list StoredOutboxEntry) (e : StoredOutboxEntry) : Prop := {
  el_queued : e ∈ entries;
  el_due : Outbox.nextAttemptAt e <= now;
  el_unpaused : paused now r (Outbox.contactId e) = false;
  el_waiting : advanced now r e = false;
  el_head e' : e' ∈ entries -> Outbox.contactId e' = Outbox.contactId e ->
    compareOutboxEntryOrder e e' <= 0 \/ advanced now r e' = true;
}.

Lemma same_entry l (x y : StoredOutboxEntry) :
  NoDup (Outbox.messageId <$> l) -> x ∈ l -> y ∈ l -> Outbox.messageId x = Outbox.messageId y -> x = y.
Proof.
  intros Hnd Hx Hy E. induction l as [|z l IH]; [by apply not_elem_of_nil in Hx |].
  rewrite fmap_cons, NoDup_cons in Hnd. destruct Hnd as [Hz Hnd]. apply elem_of_cons in Hx as [->|Hx], Hy as [->|Hy]; try done.
  - exfalso. apply Hz. rewrite E. by apply list_elem_of_fmap_2.
  - exfalso. apply Hz. rewrite <- E. by apply list_elem_of_fmap_2.
  - by apply IH.
Qed.

Lemma advanced_ids now r entries e :
  NoDup (Outbox.messageId <$> entries) -> e ∈ entries ->
  Outbox.messageId e ∈ Outbox.messageId <$> keep (advanced now r) entries <-> advanced now r e = true.
Proof.
  intros Hnd He. rewrite list_elem_of_fmap. split.
  - intros (e' & Hid & He'). apply elem_of_keep in He' as [Ha He'].
    by rewrite (same_entry entries e e' Hnd He He' Hid).
  - intros Ha. exists e. split; [done |]. by apply elem_of_keep.
Qed.

Lemma nextEligibleEntry_spec entries now r :
  NoDup (Outbox.messageId <$> entries) ->
  same_waits now r (nextEligibleEntry entries now r).2
  /\ forall e, (nextEligibleEntry entries now r).1 = Some e -> eligible now r entries e.
Proof.
  intros Hnd. unfold nextEligibleEntry.
  destruct (advancedOutboxMessageIds_spec entries now r) as [Hids Hs]. destruct (advancedOutboxMessageIds entries now r) as [ids r1].
  cbn [fst snd] in *.
  match goal with |- context [filter_state ?p ?l r1] => pose proof (filter_state_spec now p
    (fun e => (Outbox.nextAttemptAt e <=? now) && negb (paused now r1 (Outbox.contactId e)) && negb (awaiting now r1 (Outbox.messageId e))) l r1) as H end.
  destruct H as [Hl Hs1].
  { intros e r' Hr. destruct (Outbox.nextAttemptAt e <=? now); [|by split; [|apply same_waits_refl]].
    destruct (isPaused_spec (Outbox.contactId e) now r') as [Hp Hsp]. destruct (isContactDrainPaused _ _ r') as [b r2]. cbn [fst snd] in *.
    rewrite <- (same_paused _ _ _ Hr), <- Hp. destruct b; [by split |].
    destruct (isAwaiting_spec (Outbox.messageId e) now r2) as [Ha Hsa]. destruct (isAwaitingReceiptRetry _ _ r2) as [b r3]. cbn [fst snd] in *.
    rewrite Ha, (same_awaiting _ _ _ Hsp), (same_awaiting _ _ _ Hr). split; [done | by eapply same_waits_trans]. }
  destruct (filter_state _ _ r1) as [el r2]. cbn [fst snd] in Hl, Hs1. pose proof (same_waits_trans _ _ _ _ Hs Hs1) as Hs2.
  assert (Hel : forall e, e ∈ el -> eligible now r entries e).
  { intros e. rewrite Hl, elem_of_keep, Hids. intros [Hb Hin]. apply contactOutboxHeads_spec in Hin as (Hq & Hi & Hfirst).
    rewrite !andb_true_iff, !negb_true_iff, Z.leb_le in Hb. destruct Hb as [[Hd Hp] Ha].
    rewrite (advanced_ids now r entries e Hnd Hq) in Hi. constructor; try done.
    - by rewrite <- (same_paused _ _ _ Hs).
    - by destruct (advanced now r e).
    - intros e' He' Hc. destruct (advanced now r e') eqn:E'; [by right | left]. apply Hfirst; try done.
      rewrite (advanced_ids now r entries e' Hnd He'). by rewrite E'. }
  destruct (preferredContactId r2) as [c|].
  - destruct (head (keep _ el)) as [x|] eqn:Ex; cbn [fst snd].
    + split; [done |]. intros e [= <-]. apply head_keep in Ex as [_ Hin]. by apply Hel.
    + split; [destruct Hs2; by constructor |]. intros e He. apply Hel. destruct el; [done |]. injection He as ->. by left.
  - split; [done |]. cbn [fst]. intros e He. apply Hel. destruct el; [done |]. injection He as ->. by left.
Qed.

Lemma nextWakeDelay_spec entries now r :
  same_waits now r (nextWakeDelay entries now r).2 /\ 0 <= (nextWakeDelay entries now r).1.
Proof.
  unfold nextWakeDelay. destruct (advancedOutboxMessageIds_spec entries now r) as [_ Hs].
  destruct (advancedOutboxMessageIds entries now r) as [ids r1]. cbn [fst snd] in *. split; [done |].
  destruct (foldl _ _ entries); unfold outboxIdleDelayMs; lia.
Qed.

(** ** The invariant *)

Definition waits_ok (m : list (jsstring * Z)) : Prop := map_wf m /\ zlen m <= 128.

Record core_ok (w : World) : Prop := {
  core_pair : activeDeliveryId (rt w) = None <-> activeContactId (rt w) = None;
  core_stopped : stopped (rt w) = true -> timer (rt w) = None /\ activeDeliveryId (rt w) = None;
  core_paused : waits_ok (pausedUntilByContactId (rt w));
  core_awaiting : waits_ok (awaitingReceiptRetryAtByMessageId (rt w));
  core_tracked : tracked_ok (session w)
    /\ Forall (fun e => Attempt.deliveryId (onTimeout e.2) = e.1) (trackedDeliveries (session w));
  core_direct : map_wf (direct w) /\ Forall (fun e => Attempt.deliveryId e.2 = e.1) (direct w);
  core_store : store_inv (store w);
}.

Definition runtime_ok (w : World) : Prop := core_ok w /\ (running (rt w) = true <-> stage w <> st_idle).

(** Keeps the invariant and does not touch what [run] is doing. *)
Definition control (w : World) : bool * bool * Stage := (running (rt w), stopped (rt w), stage w).

Definition calm (f : World -> World) : Prop := forall w, core_ok w -> core_ok (f w) /\ control (f w) = control w.

Lemma calm_id : calm (fun w => w).
Proof. by split. Qed.

Lemma calm_comp f g : calm f -> calm g -> calm (fun w => g (f w)).
Proof.
  intros Hf Hg w Hw. destruct (Hf w Hw) as (H1 & R1). destruct (Hg (f w) H1) as (H2 & R2).
  split; [done | by rewrite R2].
Qed.

Lemma waits_ok_delete m k : waits_ok m -> waits_ok (map_delete m k).
Proof. intros [Hw Hn]. split; [by apply map_delete_wf |]. pose proof (map_delete_size m k). lia. Qed.

Lemma bounded_set_ok m k v : waits_ok m -> waits_ok (bounded_set 128 m k v).
Proof.
  intros [Hw Hn]. unfold bounded_set.
  assert (Hset : forall m', map_wf m' -> (map_has m' k = true \/ zlen m' < 128) -> zlen m' <= 128 -> waits_ok (map_set m' k v)).
  { intros m' Hw' Hk Hn'. split; [by apply map_set_wf |]. rewrite map_set_size. destruct (map_has m' k); [done |].
    destruct Hk; [done | lia]. }
  destruct (map_has m k) eqn:Hk; cbn [negb andb]; [apply Hset; auto |].
  destruct (Z.leb_spec 128 (zlen m)); [|apply Hset; auto].
  destruct m as [|[o t] m]; [done |]. rewrite (map_delete_head o t m Hw). rewrite zlen_cons in Hn.
  apply NoDup_cons in Hw as [_ Hw]. apply Hset; [done | right; lia | lia].
Qed.

Lemma waits_ok_sublist m m' : m' `sublist_of` m -> waits_ok m -> waits_ok m'.
Proof. intros Hs [Hw Hn]. split; [by eapply map_sublist_wf |]. pose proof (zlen_sublist _ _ Hs). lia. Qed.

Lemma calm_rt (f : OutboxRuntime -> OutboxRuntime) w :
  core_ok w -> running (f (rt w)) = running (rt w) -> stopped (f (rt w)) = stopped (rt w) ->
  (activeDeliveryId (f (rt w)) = None <-> activeContactId (f (rt w)) = None) ->
  (stopped (f (rt w)) = true -> timer (f (rt w)) = None /\ activeDeliveryId (f (rt w)) = None) ->
  waits_ok (pausedUntilByContactId (f (rt w))) -> waits_ok (awaitingReceiptRetryAtByMessageId (f (rt w))) ->
  core_ok (on_rt (f (rt w)) w) /\ control (on_rt (f (rt w)) w) = control w.
Proof. intros [] Hr Hs ????. split; [by constructor | by unfold control; cbn; rewrite Hr, Hs]. Qed.

Lemma calm_schedule d : calm (schedule d).
Proof.
  intros w Hw. unfold schedule. destruct (stopped (rt w)) eqn:E; [by split |].
  apply (calm_rt (set_timer (Some (Z.max 0 d))) w Hw); try done; try apply Hw. cbn. by rewrite E.
Qed.

Lemma calm_log e : calm (log e).
Proof. intros w []. by split. Qed.

Lemma calm_store f : (forall s, store_inv s -> store_inv (f s)) -> calm (fun w => on_store (f (store w)) w).
Proof. intros Hf w [? ? ? ? ? ? Hs]. split; [constructor; try done; by apply Hf | done]. Qed.

Lemma calm_action a : loaded_ok a -> calm (fun w => on_store (run_action (store w) a) w).
Proof. intros Ha. apply (calm_store (fun s => run_action s a)). intros s Hs. by apply run_action_inv. Qed.

Lemma calm_queue e : calm (queue e).
Proof. apply (calm_comp (fun w => on_store (queueMessage e (store w)) w)); [by apply (calm_action (act_queueMessage e)) | apply calm_schedule]. Qed.

Lemma calm_settle m : calm (settle_entry m).
Proof. apply (calm_comp (fun w => on_store (settleOutboxMessage m (store w)) w)); [by apply (calm_action (act_settleOutbox m)) | apply calm_schedule]. Qed.

Lemma calm_deliver c m st : calm (deliver_state c m st).
Proof.
  intros w Hw. unfold deliver_state. pose proof (calm_action (act_setMessageDeliveryState c m st) I w Hw) as H1. cbn [run_action] in H1.
  case_match; [|done]. destruct H1 as (H1 & R1). destruct (calm_schedule 0 _ H1) as (H2 & R2).
  split; [done | by rewrite R2].
Qed.

Lemma calm_defer e now d : calm (defer e now d).
Proof.
  intros w Hw. unfold defer. case_match; [by apply calm_schedule |]. by apply (calm_comp (queue _) (schedule _) (calm_queue _) (calm_schedule _)).
Qed.

Lemma calm_opt {A} (o : World -> option A) (f : A -> World -> World) :
  (forall a, calm (f a)) -> calm (fun w => match o w with Some a => f a w | None => w end).
Proof. intros Hf w Hw. destruct (o w); [by apply Hf | by split]. Qed.

Lemma calm_foldl {A} (f : World -> A -> World) (l : list A) : (forall a, calm (fun w => f w a)) -> calm (fun w => foldl f w l).
Proof. intros Hf. induction l as [|a l IH]; [apply calm_id |]. exact (calm_comp (fun w => f w a) (fun w => foldl f w l) (Hf a) IH). Qed.

Lemma calm_stopActiveDrain d c m delay now : calm (stopActiveDrain d c m delay now).
Proof.
  intros w Hw. unfold stopActiveDrain. destruct (stopped (rt w) || _) eqn:E; [by split |].
  assert (Hq : calm (fun w => match queued_where (fun e => str_eqb (Outbox.messageId e) m) w with
     | Some entry => queue (with_next (Z.max (Outbox.nextAttemptAt entry) (now + delay)) entry) w | None => w end)).
  { apply calm_opt. intros. apply calm_queue. }
  destruct (Hq w Hw) as (H1 & R1). set (w1 := match queued_where _ w with Some _ => _ | None => _ end) in *.
  destruct (calm_rt (fun r => pauseContactDrain c (now + delay) (set_preferred None (set_active None None r))) w1 H1) as (H2 & R2);
    [done | done | done | intros Hs; split; [by apply (core_stopped w1 H1) | done] | apply bounded_set_ok, H1 | apply H1 |].
  destruct (calm_schedule (Z.max 0 (now + delay - now)) _ H2) as (H3 & R3). split; [done | by rewrite R3, R2].
Qed.

Lemma calm_timeout now a : calm (outcome_timeout now a).
Proof. unfold outcome_timeout, trace. apply (calm_comp (log _) (stopActiveDrain _ _ _ _ _)); [apply calm_log | apply calm_stopActiveDrain]. Qed.

Lemma calm_effects now l : calm (session_effects now l).
Proof. apply calm_foldl. intros []; first [exact (calm_timeout now _) | exact (calm_log _)]. Qed.

(** Replacing the session by one that [relay-session.ts] reaches. *)
Lemma calm_session w s :
  core_ok w -> tracked_ok s -> Forall (fun e => Attempt.deliveryId (onTimeout e.2) = e.1) (trackedDeliveries s) ->
  core_ok (on_session s w).
Proof. intros [] ??. by constructor. Qed.

Definition delivery_keyed (e : jsstring * TrackedDelivery Attempt) : Prop := Attempt.deliveryId (onTimeout e.2) = e.1.

Lemma trackDelivery_keyed a s :
  Forall delivery_keyed (trackedDeliveries s) ->
  Forall delivery_keyed (trackedDeliveries (trackDelivery (Attempt.deliveryId a) (Attempt.contactId a) (Attempt.messageId a) a s).2).
Proof.
  intros Hf. unfold trackDelivery. set (s1 := clearDelivery _ s).
  assert (H1 : Forall delivery_keyed (trackedDeliveries s1)) by (eapply Forall_sublist; [apply map_delete_sublist | exact Hf]).
  assert (Hset : forall s2, Forall delivery_keyed (trackedDeliveries s2) -> Forall delivery_keyed
    (map_set (trackedDeliveries s2) (Attempt.deliveryId a) (mkTracked (Attempt.contactId a) (Attempt.messageId a) a))).
  { intros s2 H2. by apply map_set_Forall. }
  destruct (_ =? _); [|by apply Hset]. destruct (trackedDeliveries s1) as [|[o v] m] eqn:E; [apply Hset; by rewrite E |].
  destruct (time_out o v s1) as [es s2] eqn:Et. cbn [snd with_tracked trackedDeliveries]. apply Hset.
  replace s2 with (time_out o v s1).2 by (by rewrite Et). rewrite time_out_tracked.
  eapply Forall_sublist; [apply map_delete_sublist | rewrite E; exact H1].
Qed.

Lemma calm_track now a : calm (track now a).
Proof.
  intros w Hw. unfold track. destruct (core_tracked w Hw) as [Hok Hk].
  pose proof (session_step_ok (session w) (call_track (Attempt.deliveryId a) (Attempt.contactId a) (Attempt.messageId a) a) Hok) as H1.
  pose proof (trackDelivery_keyed a (session w) Hk) as H2. cbn [session_step] in H1.
  destruct (trackDelivery _ _ _ _ _) as [es s]. destruct (calm_effects now es (on_session s w)) as (H3 & R3); [by apply calm_session |].
  by split.
Qed.

Lemma calm_tracked_timeout now d : calm (tracked_timeout now d).
Proof.
  intros w Hw. unfold tracked_timeout. destruct (core_tracked w Hw) as [Hok Hk].
  pose proof (session_step_ok (session w) (call_delivery_timer d) Hok) as H1. cbn [session_step] in H1.
  assert (H2 : Forall delivery_keyed (trackedDeliveries (delivery_timer d (session w)).2)).
  { unfold delivery_timer. destruct (map_get _ d) as [v|]; [|done]. rewrite time_out_tracked.
    eapply Forall_sublist; [apply map_delete_sublist | exact Hk]. }
  destruct (delivery_timer d (session w)) as [es s]. destruct (calm_effects now es (on_session s w)) as (H3 & R3); [by apply calm_session |].
  by split.
Qed.

Lemma calm_clear d : calm (clear_delivery d).
Proof.
  intros w Hw. split; [|done]. destruct (core_tracked w Hw) as [Hok Hk].
  apply calm_session; [done | by apply (session_step_ok (session w) (call_clear d)) |].
  eapply Forall_sublist; [apply map_delete_sublist | exact Hk].
Qed.

Lemma calm_clear_abandonment d : calm (clear_abandonment d).
Proof.
  intros w Hw. split; [|done]. destruct (core_tracked w Hw) as [Hok Hk].
  apply calm_session; [done | by apply (session_step_ok (session w) (call_clear_abandonment d)) | exact Hk].
Qed.

Lemma calm_direct f : (forall m, map_wf m /\ Forall (fun e => Attempt.deliveryId e.2 = e.1) m ->
    map_wf (f m) /\ Forall (fun e => Attempt.deliveryId e.2 = e.1) (f m)) ->
  calm (fun w => on_direct (f (direct w)) w).
Proof. intros Hf w [? ? ? ? ? Hd ?]. split; [constructor; try done; by apply Hf | done]. Qed.

Lemma calm_direct_delete d : calm (fun w => on_direct (map_delete (direct w) d) w).
Proof.
  apply (calm_direct (fun m => map_delete m d)). intros m [Hw Hf]. split; [by apply map_delete_wf |].
  eapply Forall_sublist; [apply map_delete_sublist | exact Hf].
Qed.

Lemma calm_same_waits now r w : core_ok w -> same_waits now (rt w) r -> core_ok (on_rt r w).
Proof.
  intros [Hp Hs H1 H2 ? ? ?] [(Et & Es & Er & Ed & Ec) _ _ Sa Sp]. constructor; cbn [rt on_rt]; try done.
  - by rewrite Ed, Ec.
  - by rewrite Et, Es, Ed.
  - by eapply waits_ok_sublist.
  - by eapply waits_ok_sublist.
Qed.

Lemma calm_advance d : calm (advanceMessageOutboxDrainAfterRelayForwarded d).
Proof.
  intros w Hw. unfold advanceMessageOutboxDrainAfterRelayForwarded. destruct (stopped (rt w) || _); [by split |].
  set (f := fun r => match queued_where (fun e => bool_decide (Outbox.lastDeliveryId e = Some d)) w with
            | Some entry => rememberAwaitingReceiptRetry (Outbox.messageId entry) (Outbox.nextAttemptAt entry) r | None => r end).
  change (match queued_where _ w with Some entry => _ | None => rt w end) with (f (rt w)).
  assert (Hf : forall r, running (f r) = running r /\ stopped (f r) = stopped r /\ timer (f r) = timer r
    /\ pausedUntilByContactId (f r) = pausedUntilByContactId r
    /\ (waits_ok (awaitingReceiptRetryAtByMessageId r) -> waits_ok (awaitingReceiptRetryAtByMessageId (f r)))).
  { intros r. unfold f. destruct (queued_where _ w); [|done]. split_and!; try done. intros. by apply bounded_set_ok. }
  destruct (Hf (rt w)) as (Er & Es & Et & Ep & Ha).
  destruct (calm_rt (fun r => set_active None None (set_preferred (activeContactId (f r)) (f r))) w Hw) as (H2 & R2);
    [done | done | done | intros Hs; split; [|done] | | |].
  - cbn in *. rewrite Es in Hs. rewrite Et. by apply (core_stopped w Hw).
  - cbn. rewrite Ep. apply Hw.
  - cbn. apply Ha, Hw.
  - destruct (calm_schedule 0 _ H2) as (H3 & R3). split; [done | by rewrite R3, R2].
Qed.

Lemma calm_ack d b : calm (relay_ack d b).
Proof.
  intros w0 Hw0. unfold relay_ack. destruct (calm_clear_abandonment d w0 Hw0) as [Hw R0]. rewrite <- R0.
  clear R0. cbv zeta. set (w := clear_abandonment d w0) in *. clearbody w.
  set (w1 := match messageForDelivery d (session w) with Some _ => _ | None => w end).
  assert (H1 : core_ok w1 /\ control w1 = control w).
  { unfold w1. destruct (messageForDelivery d (session w)) as [[c m]|]; [|by split].
    by apply (calm_comp (deliver_state c m d_relayed) (clear_delivery d) (calm_deliver _ _ _) (calm_clear d)). }
  destruct b; [|done]. destruct H1 as (H1 & R1). destruct (calm_advance d w1 H1) as (H2 & R2).
  split; [done | by rewrite R2].
Qed.

Lemma calm_pong now c : calm (restartMessageOutboxDrainAfterPresencePong now c).
Proof.
  intros w Hw. unfold restartMessageOutboxDrainAfterPresencePong.
  destruct (activeDeliveryId (rt w)) as [d|]; [|by split]. destruct (_ || _ || _); [by split |].
  set (find := fun e => bool_decide (Outbox.lastDeliveryId e = Some d)).
  set (w1 := match queued_where find w with Some _ => _ | None => w end).
  assert (H1 : core_ok w1 /\ control w1 = control w).
  { apply (calm_opt (queued_where find) (fun e => queue (with_next now e))); [|done]. intros. apply calm_queue. }
  destruct H1 as (H1 & R1). destruct (calm_clear d w1 H1) as (H2 & R2).
  set (w2 := clear_delivery d w1) in *. cbn [abandonCurrentPendingEnvelope].
  destruct (core_tracked w2 H2) as [Hok Hk].
  assert (H3 : core_ok (on_session (clearPendingAbandonment d (session w2)) w2)) by (by apply calm_session).
  match goal with |- context [session_effects now ?l ?x] => destruct (calm_effects now l x H3) as (H4 & R4); set (w4 := session_effects now l x) in * end.
  destruct (calm_rt (fun r => let r' := set_preferred (Some c) (set_active None None r) in
              set_paused (map_delete (pausedUntilByContactId r') c) r') w4 H4) as (H5 & R5);
    [done | done | done | intros Hs; split; [by apply (core_stopped w4 H4) | done] | apply waits_ok_delete, H4 | apply H4 |].
  destruct (calm_schedule 0 _ H5) as (H6 & R6). split; [exact H6 |].
  rewrite R1 in R2. rewrite <- R2. etransitivity; [exact R6 |]. etransitivity; [exact R5 | exact R4].
Qed.

(** *** [run] and the settled awaits *)

Lemma end_run_ok w : core_ok w -> runtime_ok (end_run w).
Proof. intros [? ? ? ? ? ? ?]. split; [by constructor | by split]. Qed.

Lemma control_split w w' : control w' = control w ->
  running (rt w') = running (rt w) /\ stopped (rt w') = stopped (rt w) /\ stage w' = stage w.
Proof. unfold control. intros H. injection H as -> -> ->. done. Qed.

Lemma attempt_entry_ok now supports d sender due w :
  core_ok w -> running (rt w) = true -> stopped (rt w) = false -> runtime_ok (attempt_entry now supports d sender due w).
Proof.
  intros Hw Hr Hst. unfold attempt_entry.
  assert (Hsettle : forall w, core_ok w -> runtime_ok (end_run (schedule 0 (settle_entry (Outbox.messageId due) w)))).
  { intros w0 H0. apply end_run_ok. by apply (calm_comp _ _ (calm_settle _) (calm_schedule 0)). }
  destruct (find_contact _ w) as [contact|]; [|by apply Hsettle]. destruct (find_message due w) as [message|]; [|by apply Hsettle].
  destruct (negb _); [by apply Hsettle |]. destruct (_ <=? _).
  { apply end_run_ok. apply (calm_comp _ _ (calm_comp _ _ (calm_comp _ _ (calm_deliver _ _ _) (calm_settle _)) (calm_log _)) (calm_schedule 0)). done. }
  assert (Hdefer : runtime_ok (end_run (defer due now outboxUnavailableRetryDelayMs w))) by (apply end_run_ok; by apply calm_defer).
  destruct (Contact.peerId contact) as [peer|]; [|done]. destruct (Contact.hpkePublicKey contact) as [key|]; [|done].
  destruct (_ || _); [done |].
  destruct (calm_queue (attempted now d due) w Hw) as (H1 & R1). set (w1 := queue _ w) in *.
  apply control_split in R1 as (Er & Es & _). destruct H1. split; [|by split; [|cbn; rewrite Er]].
  constructor; try done. cbn. rewrite Es. congruence.
Qed.

Lemma store_outbox w : core_ok w -> outbox_ok (outbox (store w)).
Proof. intros Hw. by apply (core_store w Hw). Qed.

Lemma examined_all w e : core_ok w -> e ∈ examined w <-> e ∈ outbox (store w).
Proof.
  intros Hw. destruct (store_outbox w Hw) as [_ Hn]. unfold examined.
  rewrite take_ge, elem_of_sort_by; [done |].
  pose proof (sort_by_zlen compareOutboxEntryOrder (outbox (store w))).
  unfold zlen, maxStoredOutboxEntries, maxOutboxEntriesExaminedPerRun in *. lia.
Qed.

Lemma examined_distinct w : core_ok w -> NoDup (Outbox.messageId <$> examined w).
Proof.
  intros Hw. destruct (store_outbox w Hw) as [Hd _].
  eapply NoDup_fmap_sublist; [apply take_sublist | by apply sort_by_NoDup].
Qed.

Lemma run_ok now supports d w : runtime_ok w -> runtime_ok (run now supports d w).
Proof.
  intros [Hw Hs]. unfold run. destruct (may_run w) eqn:Hm; cbn [negb]; [|by split].
  assert (H1 : core_ok (on_rt (set_running true (rt w)) w)) by (destruct Hw; by constructor). clear Hw Hs.
  unfold may_run in Hm. rewrite !andb_true_iff, !negb_true_iff in Hm. destruct Hm as [[[[Hst _] _] _] _].
  destruct (identity _) as [sender|]; [|by apply end_run_ok]. destruct (negb (attached _)); [by apply end_run_ok |].
  set (w1 := on_rt (set_running true (rt w)) w) in *. set (entries := examined w1).
  assert (H2 : core_ok (on_rt (pruneAwaitingReceiptRetries entries (rt w1)) w1)).
  { apply (calm_rt (pruneAwaitingReceiptRetries entries) w1 H1); try done; try apply H1.
    eapply waits_ok_sublist; [apply map_delete_if_sublist | apply H1]. }
  set (w2 := on_rt _ w1) in *.
  destruct (keep (expired_delivered now) entries) as [|e l].
  - assert (Hs : same_waits now (rt w2) (nextEligibleEntry entries now (rt w2)).2).
    { apply nextEligibleEntry_spec. by apply examined_distinct. }
    destruct (nextEligibleEntry entries now (rt w2)) as [due r]. cbn [snd] in Hs.
    pose proof (calm_same_waits now r w2 H2 Hs) as H3. destruct (same_control _ _ _ Hs) as (_ & Es & Er & _).
    destruct due as [due|].
    + apply attempt_entry_ok; [done | by cbn; rewrite Er | cbn; rewrite Es; exact Hst].
    + cbn [rt on_rt]. destruct (nextWakeDelay_spec entries now r) as [Hs' _]. destruct (nextWakeDelay entries now r) as [delay r'].
      apply end_run_ok. apply calm_schedule. exact (calm_same_waits now r' (on_rt r w2) H3 Hs').
  - apply end_run_ok.
    apply (calm_comp (fun w => foldl (fun w e => settle_entry (Outbox.messageId e) w) w (e :: l)) (schedule 0)); [|apply calm_schedule | exact H2].
    apply calm_foldl. intros. apply calm_settle.
Qed.

Lemma attempt_failed_ok now a w : core_ok w -> runtime_ok (attempt_failed now a w).
Proof.
  intros Hw. apply end_run_ok. by apply (calm_comp _ _ (calm_log _) (calm_stopActiveDrain _ _ _ _ _)).
Qed.

Lemma target_saved_ok now ok w : runtime_ok w -> runtime_ok (target_saved now ok w).
Proof.
  intros [Hw Hs]. unfold target_saved. destruct (stage w) as [|a|a] eqn:E; [split; [done | by rewrite E] | | split; [done | by rewrite E]].
  destruct ok; [|by apply attempt_failed_ok]. split; [by destruct Hw; constructor |].
  split; [done |]. intros _. apply Hs. done.
Qed.

Lemma send_settled_ok now o w : runtime_ok w -> runtime_ok (send_settled now o w).
Proof.
  intros [Hw Hs]. unfold send_settled. destruct (stage w) as [|a|a] eqn:E; [split; [done | by rewrite E] | split; [done | by rewrite E] |].
  destruct o.
  - apply end_run_ok. apply (calm_comp _ _ (calm_comp _ _ (calm_track now a) (calm_log _)) (calm_log _)). done.
  - apply attempt_failed_ok. by apply (calm_comp _ _ (calm_track now a) (calm_clear _)).
  - assert (Hd : calm (fun w => on_direct (map_set (direct w) (Attempt.deliveryId a) a) w)).
    { apply (calm_direct (fun m => map_set m (Attempt.deliveryId a) a)).
      intros m [Hm Hf]. split; [by apply map_set_wf | by apply map_set_Forall]. }
    apply end_run_ok.
    exact (proj1 (calm_comp _ _ (calm_comp (log (SendDirect a)) _ (calm_log _) Hd) (calm_log _) w Hw)).
  - by apply attempt_failed_ok.
Qed.

Lemma calm_fallback now d sent : calm (direct_fallback now d sent).
Proof.
  intros w Hw. unfold direct_fallback. destruct (map_get (direct w) d) as [a|]; [|by split].
  pose proof (calm_comp _ _ (calm_direct_delete d) (calm_track now a)) as H.
  destruct sent; [by apply (calm_comp _ _ H (calm_log _)) | by apply H].
Qed.

Lemma runtime_ok_calm f w : calm f -> runtime_ok w -> runtime_ok (f w).
Proof.
  intros Hf [Hw Hs]. destruct (Hf w Hw) as [H1 R1]. apply control_split in R1 as (Er & _ & Es).
  split; [done | by rewrite Er, Es].
Qed.

Definition store_event_ok (e : Event) : Prop := match e with ev_store a _ => loaded_ok a | _ => True end.

Lemma fire_ok w e : runtime_ok w -> store_event_ok e -> runtime_ok (fire w e).
Proof.
  intros Hw He. destruct e as [now supports d|now ok|now o|now d sent|d|now d|d b|now c|b|a notify|i|b| |]; cbn [fire].
  - apply run_ok. destruct Hw as [[? Hst ? ? ? ? ?] Hs]. split; [|done]. constructor; try done.
    cbn. intros H. by split; [|apply Hst].
  - by apply target_saved_ok.
  - by apply send_settled_ok.
  - by apply (runtime_ok_calm _ _ (calm_fallback now d sent)).
  - by apply (runtime_ok_calm _ _ (calm_direct_delete d)).
  - by apply (runtime_ok_calm _ _ (calm_tracked_timeout now d)).
  - by apply (runtime_ok_calm _ _ (calm_ack d b)).
  - by apply (runtime_ok_calm _ _ (calm_pong now c)).
  - unfold runtimeVisibilityChange. assert (H1 : runtime_ok (on_visible b w)) by (destruct Hw as [[] ?]; split; [by constructor | done]).
    case_match; [done |]. destruct b; [by apply (runtime_ok_calm _ _ (calm_schedule 0)) | done].
  - pose proof (runtime_ok_calm _ w (calm_action a He) Hw) as H1. destruct notify; [|done].
    by apply (runtime_ok_calm _ _ (calm_schedule 0)).
  - apply (runtime_ok_calm _ _ (calm_schedule 0)). destruct Hw as [[] ?]; split; [by constructor | done].
  - apply (runtime_ok_calm _ _ (calm_schedule 0)). destruct Hw as [[] ?]; split; [by constructor | done].
  - destruct Hw as [[] ?]; split; [by constructor | done].
  - destruct Hw as [[] ?]; split; [constructor | done]; try done; by split; [apply NoDup_nil_2 |].
Qed.

(** A runtime that has just been started. *)
Definition started (w : World) : Prop := exists w0, core_ok w0 /\ w = startMessageOutboxRuntime w0.

Inductive reachable : World -> Prop :=
| reach_start w : started w -> reachable w
| reach_fire w e : reachable w -> enabled w e -> store_event_ok e -> reachable (fire w e).

Lemma reachable_ok w : reachable w -> runtime_ok w.
Proof.
  induction 1 as [w (w0 & Hw0 & ->)|w e _ IH _ He]; [|by apply fire_ok].
  apply (runtime_ok_calm _ _ (calm_schedule 0)). destruct Hw0. split; [|by split].
  by constructor; try done; split; try apply NoDup_nil_2.
Qed.

(** ** When an attempt starts *)

Lemma outboxRetryDelay_bounds n : outboxRetryInitialDelayMs <= outboxRetryDelay n <= outboxRetryMaximumDelayMs.
Proof.
  unfold outboxRetryDelay, outboxRetryInitialDelayMs, outboxRetryMaximumDelayMs.
  assert (1 <= 2 ^ Z.min (Z.max 0 (n - 1)) 6); [|lia].
  pose proof (Z.pow_le_mono_r 2 0 (Z.min (Z.max 0 (n - 1)) 6)) as H. lia.
Qed.

Lemma prune_awaiting now entries r e :
  map_wf (awaitingReceiptRetryAtByMessageId r) -> e ∈ entries ->
  awaiting now (pruneAwaitingReceiptRetries entries r) (Outbox.messageId e) = awaiting now r (Outbox.messageId e).
Proof.
  intros Hw He. unfold awaiting, pruneAwaitingReceiptRetries. cbn [set_awaiting awaitingReceiptRetryAtByMessageId].
  rewrite map_get_delete_if by done. destruct (map_get _ (Outbox.messageId e)) as [t|]; [|done].
  rewrite bool_decide_true by (by apply list_elem_of_fmap_2). done.
Qed.

(** The attempt [a] under the identifier [d] for the entry [e]. *)
Record attempt_starts (now : Z) (supports : jsstring -> bool) (w : World) (a : Attempt) (e : StoredOutboxEntry) : Prop := {
  as_ready : stopped (rt w) = false /\ activeDeliveryId (rt w) = None /\ visible w = true /\ live w = true /\ attached w = true
    /\ identity w = Some (Attempt.senderPeerId a);
  as_entry : e ∈ outbox (store w) /\ Outbox.messageId e = Attempt.messageId a /\ Outbox.contactId e = Attempt.contactId a
    /\ Outbox.applicationMessageId e = Attempt.applicationMessageId a /\ Outbox.attempts e + 1 = Attempt.attempts a;
  as_due : Outbox.deliveredAt e = None /\ Outbox.nextAttemptAt e <= now /\ now - Outbox.createdAt e < outboxMaximumAgeMs
    /\ awaiting now (rt w) (Outbox.messageId e) = false /\ paused now (rt w) (Outbox.contactId e) = false;
  as_order e' : e' ∈ outbox (store w) -> Outbox.contactId e' = Outbox.contactId e ->
    compareOutboxEntryOrder e e' <= 0 \/ advanced now (rt w) e' = true;
  as_contact : exists contact, contact ∈ contacts (store w) /\ Contact.contactId contact = Outbox.contactId e
    /\ Contact.peerId contact = Some (Attempt.recipientPeerId a)
    /\ Contact.hpkePublicKey contact = Some (Attempt.recipientHpkePublicKey a)
    /\ is_available (Outbox.contactId e) w = true /\ supports (Attempt.recipientPeerId a) = true;
  as_message : exists m, m ∈ bucket (messagesByContactId (store w)) (Outbox.contactId e)
    /\ Message.messageId m = Outbox.messageId e /\ Message.direction m = outgoing
    /\ Message.body m = Attempt.plaintext a /\ Message.replyToMessageId m = Attempt.replyToMessageId a;
}.

Lemma attempt_entry_saving now supports d sender due w a :
  stage (attempt_entry now supports d sender due w) = st_saving a ->
  exists contact m, find_contact (Outbox.contactId due) w = Some contact /\ find_message due w = Some m
  /\ Message.direction m = outgoing /\ now - Outbox.createdAt due < outboxMaximumAgeMs
  /\ Contact.peerId contact = Some (Attempt.recipientPeerId a)
  /\ Contact.hpkePublicKey contact = Some (Attempt.recipientHpkePublicKey a)
  /\ is_available (Contact.contactId contact) w = true /\ supports (Attempt.recipientPeerId a) = true
  /\ a = Attempt.mk sender (Attempt.recipientPeerId a) (Attempt.recipientHpkePublicKey a) (Contact.contactId contact)
           (Outbox.messageId due) d (Outbox.applicationMessageId due) (Message.body m) (Message.replyToMessageId m)
           (Outbox.attempts due + 1)
  /\ store (attempt_entry now supports d sender due w) = queueMessage (attempted now d due) (store w)
  /\ activeDeliveryId (rt (attempt_entry now supports d sender due w)) = Some d.
Proof.
  unfold attempt_entry. destruct (find_contact _ w) as [contact|] eqn:Ec; [|done]. destruct (find_message due w) as [m|] eqn:Em; [|done].
  destruct (bool_decide _) eqn:Ed; cbn [negb]; [|done]. destruct (Z.leb_spec outboxMaximumAgeMs (now - Outbox.createdAt due)); [done |].
  destruct (Contact.peerId contact) as [peer|] eqn:Ep; [|done]. destruct (Contact.hpkePublicKey contact) as [key|] eqn:Ek; [|done].
  destruct (is_available _ w) eqn:Ea; cbn [negb orb]; [|done]. destruct (supports peer) eqn:Es; cbn [negb]; [|done].
  intros Hsav. cbn [stage on_stage] in Hsav. injection Hsav as <-. exists contact, m.
  apply bool_decide_eq_true in Ed. cbn [Attempt.recipientPeerId Attempt.recipientHpkePublicKey].
  split_and!; try done. cbn [store on_stage log on_rt]. unfold queue, schedule. by case_match.
Qed.

(** C9: The runtime starts an attempt only when no other one is in flight and
    for an entry that is due, not expired and not delivered, whose contact is
    available and supports the payload, after every older entry of the contact
    was handed to the relay; the entry is stored with a fresh delivery identifier
    and a retry between one second and one minute later before anything is sent. *)
Theorem outbox_attempt w now supports d a
    (Hreach : reachable w) (Hidle : stage w = st_idle)
    (Hstart : stage (fire w (ev_timer now supports d)) = st_saving a) :
  let w' := fire w (ev_timer now supports d) in
  exists e, attempt_starts now supports w a e
  /\ Attempt.deliveryId a = d /\ activeDeliveryId (rt w') = Some d
  /\ store w' = queueMessage (attempted now d e) (store w)
  /\ now + outboxRetryInitialDelayMs <= Outbox.nextAttemptAt (attempted now d e) <= now + outboxRetryMaximumDelayMs.
Proof.
  apply reachable_ok in Hreach as [Hw _]. cbn [fire] in *. cbv zeta. unfold run in *.
  set (w0 := on_rt (set_timer None (rt w)) w) in *. destruct (may_run w0) eqn:Hm; cbn [negb] in *; [|cbn in Hstart; by rewrite Hidle in Hstart].
  unfold may_run in Hm. rewrite !andb_true_iff, !negb_true_iff in Hm. destruct Hm as [[[[Hst _] Hact] Hvis] Hlive].
  apply bool_decide_eq_false in Hact. cbn in Hst, Hact, Hvis, Hlive.
  cbn [identity on_rt w0] in *. destruct (identity w) as [sender|] eqn:Ei; [|done].
  destruct (attached (on_rt _ w0)) eqn:Eatt; cbn [negb] in *; [|done]. cbn in Eatt.
  set (w1 := on_rt (set_running true (rt w0)) w0) in *.
  change (examined w1) with (examined w) in *. set (entries := examined w) in *.
  set (w2 := on_rt (pruneAwaitingReceiptRetries entries (rt w1)) w1) in *.
  destruct (keep (expired_delivered now) entries); [|done].
  destruct (nextEligibleEntry_spec entries now (rt w2) (examined_distinct w Hw)) as [Hs Hel].
  destruct (nextEligibleEntry entries now (rt w2)) as [[e|] r]; [|by destruct (nextWakeDelay entries now (rt (on_rt r w2)))].
  cbn [fst snd] in *. specialize (Hel e eq_refl). destruct Hel as [Hq Hdue Hpa Hwa Hhead].
  assert (Hadv : forall e', e' ∈ entries -> advanced now (rt w2) e' = advanced now (rt w) e').
  { intros e' He'. unfold advanced. destruct (Outbox.deliveredAt e'); [done |].
    apply (prune_awaiting now entries (rt w1)); [by apply (core_awaiting w Hw) | done]. }
  rewrite (Hadv e Hq) in Hwa.
  assert (Hund : Outbox.deliveredAt e = None /\ awaiting now (rt w) (Outbox.messageId e) = false).
  { unfold advanced in Hwa. by destruct (Outbox.deliveredAt e). }
  destruct (attempt_entry_saving _ _ _ _ _ _ _ Hstart) as (contact & m & Hc & Hmsg & Hdir & Hage & Hp & Hk & Hav & Hsup & Ha & Hstore & Hactive).
  apply head_keep in Hc as [Hcid Hcin], Hmsg as [Hmid Hmin]. apply str_eqb_true in Hcid, Hmid.
  exists e. split_and!; [|by rewrite Ha | done | exact Hstore |..];
    [|pose proof (outboxRetryDelay_bounds (Outbox.attempts e + 1)) as Hb; cbn [Outbox.nextAttemptAt attempted]; lia ..].
  constructor.
  - split_and!; try done; [by destruct (activeDeliveryId (rt w)); [exfalso; apply Hact; eauto |] | by rewrite Ha].
  - rewrite Ha. cbn. split_and!; try done. by apply examined_all.
  - destruct Hund. by split_and!.
  - intros e' He' Hsame. apply examined_all in He'; [|done]. rewrite <- (Hadv e' He'). by apply Hhead.
  - exists contact. rewrite <- Hcid. by split_and!.
  - exists m. rewrite Ha. by split_and!.
Qed.

(** ** Nothing queued is lost *)

(** The entry is still queued, with its own identity and delivery. *)
Definition still_queued (x : StoredOutboxEntry) (w : World) : Prop :=
  exists y, y ∈ outbox (store w) /\ Outbox.messageId y = Outbox.messageId x /\ Outbox.contactId y = Outbox.contactId x
    /\ Outbox.applicationMessageId y = Outbox.applicationMessageId x /\ Outbox.createdAt y = Outbox.createdAt x
    /\ Outbox.deliveredAt y = Outbox.deliveredAt x /\ Outbox.attempts x <= Outbox.attempts y.

Definition keeps_queue (w w' : World) : Prop := forall x, still_queued x w -> still_queued x w'.

Lemma keeps_queue_refl w w' : outbox (store w') = outbox (store w) -> keeps_queue w w'.
Proof. unfold keeps_queue, still_queued. by intros ->. Qed.

Lemma keeps_queue_trans a b c : keeps_queue a b -> keeps_queue b c -> keeps_queue a c.
Proof. unfold keeps_queue. auto. Qed.

Lemma schedule_store d w : store (schedule d w) = store w.
Proof. unfold schedule. by case_match. Qed.

Lemma queue_keeps e e' w :
  core_ok w -> e ∈ outbox (store w) ->
  Outbox.messageId e' = Outbox.messageId e -> Outbox.contactId e' = Outbox.contactId e ->
  Outbox.applicationMessageId e' = Outbox.applicationMessageId e -> Outbox.createdAt e' = Outbox.createdAt e ->
  Outbox.deliveredAt e' = Outbox.deliveredAt e -> Outbox.attempts e <= Outbox.attempts e' ->
  keeps_queue w (queue e' w).
Proof.
  intros Hw He Em Ec Ea Et Ed Hat x (y & Hy & Hm & Hc & Happ & Hcr & Hdel & Hatt).
  destruct (store_outbox w Hw) as [Hnd Hn]. unfold still_queued, queue. rewrite schedule_store.
  cbn [store on_store queueMessage request on_outbox outbox].
  set (others := keep (fun x => negb (str_eqb (Outbox.messageId x) (Outbox.messageId e'))) (outbox (store w))).
  assert (Hlen : (length others < length (outbox (store w)))%nat).
  { unfold others, keep. apply (length_filter_lt _ _ e); [done |]. rewrite Em, str_eqb_refl. done. }
  unfold zlen, maxStoredOutboxEntries in Hn.
  assert (Hall : last_of maxStoredOutboxEntries (others ++ [e']) = others ++ [e']).
  { unfold last_of. rewrite length_app. replace (_ - _)%nat with 0%nat by (unfold maxStoredOutboxEntries; cbn [length]; lia). done. }
  rewrite Hall. destruct (decide (Outbox.messageId y = Outbox.messageId e)) as [E|E].
  - assert (y = e) as ->.
    { by apply (same_entry (outbox (store w))). }
    exists e'. split; [apply elem_of_app; right; by left |]. split_and!; try congruence. lia.
  - exists y. split; [|by split_and!]. apply elem_of_app. left. apply elem_of_keep. split; [|done].
    apply negb_true_iff, str_eqb_false. congruence.
Qed.

Lemma with_next_keeps e at_ w : core_ok w -> e ∈ outbox (store w) -> keeps_queue w (queue (with_next at_ e) w).
Proof. intros Hw He. by apply (queue_keeps e). Qed.

Lemma find_entry_queued p w e : queued_where p w = Some e -> e ∈ outbox (store w).
Proof. intros H. by apply head_keep in H as [_ ?]. Qed.

Lemma timeout_keeps now a w : core_ok w -> keeps_queue w (outcome_timeout now a w).
Proof.
  intros Hw. unfold outcome_timeout, stopActiveDrain. set (w0 := trace _ w).
  assert (H0 : core_ok w0) by (by apply calm_log). destruct (stopped (rt w0) || _); [by apply keeps_queue_refl |].
  set (w1 := match queued_where _ w0 with Some _ => _ | None => w0 end).
  assert (H1 : keeps_queue w0 w1).
  { unfold w1. destruct (queued_where _ w0) as [e|] eqn:E; [|by apply keeps_queue_refl].
    apply with_next_keeps; [done |]. by eapply find_entry_queued. }
  eapply keeps_queue_trans; [exact (keeps_queue_refl w w0 eq_refl) |]. eapply keeps_queue_trans; [exact H1 |].
  apply keeps_queue_refl. by rewrite schedule_store.
Qed.

Lemma effects_keeps now l w : core_ok w -> keeps_queue w (session_effects now l w).
Proof.
  revert w. induction l as [|e l IH]; intros w Hw; [by apply keeps_queue_refl |].
  change (session_effects now (e :: l) w) with (session_effects now l (match e with CallbackRun a => outcome_timeout now a w | e => log (Session e) w end)).
  destruct e as [a| | |].
  - eapply keeps_queue_trans; [by apply timeout_keeps |]. apply IH. by apply calm_timeout.
  - eapply keeps_queue_trans; [|apply IH; by apply calm_log]. by apply keeps_queue_refl.
  - eapply keeps_queue_trans; [|apply IH; by apply calm_log]. by apply keeps_queue_refl.
  - eapply keeps_queue_trans; [|apply IH; by apply calm_log]. by apply keeps_queue_refl.
Qed.

Lemma track_keeps now a w : core_ok w -> keeps_queue w (track now a w).
Proof.
  intros Hw. destruct (calm_track now a w Hw) as [_ _]. unfold track. destruct (core_tracked w Hw) as [Hok Hk].
  pose proof (session_step_ok (session w) (call_track (Attempt.deliveryId a) (Attempt.contactId a) (Attempt.messageId a) a) Hok) as H1.
  pose proof (trackDelivery_keyed a (session w) Hk) as H2. cbn [session_step] in H1.
  destruct (trackDelivery _ _ _ _ _) as [es s]. apply (keeps_queue_trans _ (on_session s w)); [by apply keeps_queue_refl |].
  apply effects_keeps. by apply calm_session.
Qed.

Lemma tracked_timeout_keeps now d w : core_ok w -> keeps_queue w (tracked_timeout now d w).
Proof.
  intros Hw. unfold tracked_timeout. destruct (core_tracked w Hw) as [Hok Hk].
  pose proof (session_step_ok (session w) (call_delivery_timer d) Hok) as H1. cbn [session_step] in H1.
  assert (H2 : Forall delivery_keyed (trackedDeliveries (delivery_timer d (session w)).2)).
  { unfold delivery_timer. destruct (map_get _ d) as [v|]; [|done]. rewrite time_out_tracked.
    eapply Forall_sublist; [apply map_delete_sublist | exact Hk]. }
  destruct (delivery_timer d (session w)) as [es s]. apply (keeps_queue_trans _ (on_session s w)); [by apply keeps_queue_refl |].
  apply effects_keeps. by apply calm_session.
Qed.

Lemma ack_store d b w : outbox (store (relay_ack d b w)) = outbox (store w).
Proof.
  unfold relay_ack. cbv zeta. change (outbox (store w)) with (outbox (store (clear_abandonment d w))).
  generalize (clear_abandonment d w). clear w. intros w.
  set (w1 := match messageForDelivery d (session w) with Some _ => _ | None => w end).
  assert (H1 : outbox (store w1) = outbox (store w)).
  { unfold w1. destruct (messageForDelivery d (session w)) as [[c m]|]; [|done]. cbn [store clear_delivery on_session].
    unfold deliver_state. case_match; rewrite ?schedule_store; cbn [store on_store]; unfold setMessageDeliveryState; by repeat case_match. }
  destruct b; [|done]. unfold advanceMessageOutboxDrainAfterRelayForwarded. case_match; [done |]. by rewrite schedule_store.
Qed.

Lemma pong_keeps now c w : core_ok w -> keeps_queue w (restartMessageOutboxDrainAfterPresencePong now c w).
Proof.
  intros Hw. unfold restartMessageOutboxDrainAfterPresencePong.
  destruct (activeDeliveryId (rt w)) as [d|]; [|by apply keeps_queue_refl]. destruct (_ || _ || _); [by apply keeps_queue_refl |].
  set (find := fun e => bool_decide (Outbox.lastDeliveryId e = Some d)).
  set (w1 := match queued_where find w with Some _ => _ | None => w end).
  assert (H1 : core_ok w1 /\ keeps_queue w w1).
  { unfold w1. destruct (queued_where find w) as [e|] eqn:E; [|by split; [|apply keeps_queue_refl]].
    split; [by apply calm_queue |]. apply with_next_keeps; [done |]. by eapply find_entry_queued. }
  destruct H1 as [H1 K1]. destruct (calm_clear d w1 H1) as [H2 _]. cbn [abandonCurrentPendingEnvelope]. cbv zeta.
  set (w2 := clear_delivery d w1) in *. destruct (core_tracked w2 H2) as [Hok Hk].
  assert (H3 : core_ok (on_session (clearPendingAbandonment d (session w2)) w2)) by (by apply calm_session).
  match goal with |- context [session_effects now ?l ?x] => pose proof (effects_keeps now l x H3) as K3 end.
  eapply keeps_queue_trans; [exact K1 |]. eapply keeps_queue_trans; [exact K3 |].
  apply keeps_queue_refl. by rewrite schedule_store.
Qed.

Lemma settle_keeps x id w : Outbox.messageId x <> id -> still_queued x w -> still_queued x (settle_entry id w).
Proof.
  intros Hne (y & Hy & Hm & Hrest). unfold still_queued, settle_entry. rewrite schedule_store.
  exists y. split; [|by split]. apply elem_of_keep. split; [|done]. apply negb_true_iff, str_eqb_false. congruence.
Qed.

Lemma settle_all_keeps x l w :
  Outbox.messageId x ∉ Outbox.messageId <$> l -> still_queued x w ->
  still_queued x (foldl (fun w e => settle_entry (Outbox.messageId e) w) w l).
Proof.
  revert w. induction l as [|e l IH]; intros w Hn Hx; [done |]. cbn [foldl].
  rewrite fmap_cons, not_elem_of_cons in Hn. destruct Hn as [Hne Hn]. apply IH; [done |]. by apply settle_keeps.
Qed.

(** The conversation or the contact of the entry was removed. *)
Definition orphaned (x : StoredOutboxEntry) (w : World) : Prop :=
  find_contact (Outbox.contactId x) w = None
  \/ forall m, find_message x w = Some m -> Message.direction m <> outgoing.

Definition given_up (now : Z) (x : StoredOutboxEntry) (w : World) : Prop :=
  outboxMaximumAgeMs <= now - Outbox.createdAt x \/ orphaned x w.

Lemma attempt_entry_keeps now supports d sender due x w :
  core_ok w -> due ∈ outbox (store w) -> x ∈ outbox (store w) ->
  still_queued x (attempt_entry now supports d sender due w) \/ given_up now x w.
Proof.
  intros Hw Hdue Hx.
  assert (Hq : forall w', outbox (store w') = outbox (store w) -> still_queued x w').
  { intros w' E. exists x. rewrite E. by split_and!. }
  assert (Hsettle : forall w' f, outbox (store w') = outbox (store w) -> (forall u, store (f u) = store u) ->
    (given_up now due w) -> still_queued x (f (settle_entry (Outbox.messageId due) w')) \/ given_up now x w).
  { intros w' f E Hf Hg. destruct (decide (Outbox.messageId x = Outbox.messageId due)) as [Em|Em].
    - right. by rewrite (same_entry _ x due (proj1 (store_outbox w Hw)) Hx Hdue Em).
    - left. unfold still_queued. rewrite Hf. by apply settle_keeps, Hq. }
  unfold attempt_entry. destruct (find_contact (Outbox.contactId due) w) as [contact|] eqn:Ec.
  2: { apply (Hsettle w (fun u => end_run (schedule 0 u))); [done | intros; cbn; apply schedule_store | by right; left]. }
  destruct (find_message due w) as [m|] eqn:Em.
  2: { apply (Hsettle w (fun u => end_run (schedule 0 u))); [done | intros; cbn; apply schedule_store | right; right; congruence]. }
  destruct (bool_decide_reflect (Message.direction m = outgoing)) as [Hd|Hd]; cbn [negb].
  2: { apply (Hsettle w (fun u => end_run (schedule 0 u))); [done | intros; cbn; apply schedule_store |].
       right. right. intros m'. rewrite Em. congruence. }
  destruct (Z.leb_spec outboxMaximumAgeMs (now - Outbox.createdAt due)) as [Hage|Hage].
  { apply (Hsettle (deliver_state (Outbox.contactId due) (Outbox.messageId due) d_unavailable w)
             (fun u => end_run (schedule 0 (trace (js "outbox: expired") u)))); [| intros u; exact (schedule_store 0 (trace _ u)) | by left].
    unfold deliver_state. case_match; rewrite ?schedule_store; cbn [store on_store]; unfold setMessageDeliveryState; by repeat case_match. }
  assert (Hdefer : still_queued x (end_run (defer due now outboxUnavailableRetryDelayMs w))).
  { unfold still_queued. cbn [store end_run on_stage on_rt]. unfold defer. rewrite schedule_store.
    case_match; [by apply Hq |]. apply (with_next_keeps due _ w Hw Hdue). by apply Hq. }
  left. destruct (Contact.peerId contact) as [peer|]; [|done]. destruct (Contact.hpkePublicKey contact) as [key|]; [|done].
  destruct (_ || _); [done |].
  apply (queue_keeps due (attempted now d due) w Hw Hdue); try done; [cbn; lia | by apply Hq].
Qed.

Lemma run_keeps now supports d x w :
  core_ok w -> x ∈ outbox (store w) -> still_queued x (run now supports d w) \/ given_up now x w.
Proof.
  intros Hw Hx. assert (Hq : forall w', store w' = store w -> still_queued x w').
  { intros w' E. exists x. rewrite E. by split_and!. }
  unfold run. destruct (may_run w); cbn [negb]; [|left; by apply Hq].
  set (w1 := on_rt (set_running true (rt w)) w). change (identity w1) with (identity w). change (attached w1) with (attached w).
  destruct (identity w) as [sender|]; [|left; by apply Hq]. destruct (negb (attached w)); [left; by apply Hq |].
  change (examined w1) with (examined w). set (entries := examined w). set (w2 := on_rt _ w1).
  destruct (keep (expired_delivered now) entries) as [|e l] eqn:Ek.
  - assert (H2 : core_ok w2).
    { destruct Hw. constructor; try done. eapply waits_ok_sublist; [apply map_delete_if_sublist | done]. }
    destruct (nextEligibleEntry_spec entries now (rt w2) (examined_distinct w Hw)) as [Hs Hel].
    destruct (nextEligibleEntry entries now (rt w2)) as [[due|] r]; cbn [fst snd] in *.
    + destruct (Hel due eq_refl) as [Hin _ _ _ _]. apply (examined_all w due Hw) in Hin.
      apply (attempt_entry_keeps now supports d sender due x (on_rt r w2)); [by apply (calm_same_waits now) | done | done].
    + left. cbn [rt on_rt]. destruct (nextWakeDelay entries now r) as [delay r']. apply Hq.
      cbn [store end_run on_stage on_rt]. by rewrite schedule_store.
  - destruct (decide (Outbox.messageId x ∈ Outbox.messageId <$> (e :: l))) as [Hin|Hn].
    + right. left. apply list_elem_of_fmap in Hin as (y & Em & Hy). rewrite <- Ek in Hy. apply elem_of_keep in Hy as [Hexp Hy].
      rewrite (same_entry entries x y (examined_distinct w Hw)); [|by apply examined_all | done | done].
      unfold expired_delivered in Hexp. apply andb_true_iff in Hexp as [_ Hage]. by apply Z.leb_le.
    + left. unfold still_queued. cbn [store end_run on_stage on_rt]. rewrite schedule_store.
      apply (settle_all_keeps x (e :: l) w2 Hn). by apply Hq.
Qed.


(** ** Sample worlds *)

Definition contact_of (c : jsstring) : ContactSummary := Contact.mk c c (Some (c ++ js " peer")) (Some (c ++ js " key")) None.
Definition available : ContactPresence := Presence.mk p_available (Some encrypted_pong) 0 None None.
Definition text_of (c m : jsstring) (at_ : Z) : MessageSummary := Message.mk m c outgoing (js "hello") at_ d_pending (Some m) None.
Definition queued_of (c m : jsstring) (at_ : Z) : StoredOutboxEntry := Outbox.mk m c m at_ at_ 0 None None.

(** Two contacts with one queued message each; the first one may be away. *)
Definition sample_actions (first_available : bool) : list action :=
  [act_upsertContact (contact_of (js "c1")); act_upsertContact (contact_of (js "c2"));
   act_appendMessage (text_of (js "c1") (js "m1") 1); act_appendMessage (text_of (js "c2") (js "m2") 2);
   act_queueMessage (queued_of (js "c1") (js "m1") 1); act_queueMessage (queued_of (js "c2") (js "m2") 2);
   act_beginPing (js "c2") (js "p2") 1; act_acceptPong (js "c2") (js "p2") 1]
  ++ if first_available then [act_beginPing (js "c1") (js "p1") 1; act_acceptPong (js "c1") (js "p1") 1] else [].

Definition sample_session : RelaySessionState Attempt := mkSession (Some 1) [] (Window.mk [] incomingDeliveryDedupCapacity) [].

Definition sample_world (first_available : bool) : World := startMessageOutboxRuntime
  (mkWorld (foldl run_action empty_store (sample_actions first_available)) (Some (js "me")) true true true sample_session []
     new_runtime st_idle []).

Lemma sample_started b : started (sample_world b).
Proof.
  eexists. split; [|reflexivity]. constructor; try done; try by split; [apply NoDup_nil_2 | done].
  - split; [split; [apply NoDup_nil_2 | done] | apply Forall_nil_2].
  - cbn [store]. assert (Hl : Forall loaded_ok (sample_actions b)) by (destruct b; by repeat constructor).
    revert Hl. generalize empty_store_inv. generalize empty_store. induction (sample_actions b) as [|a l IH]; intros s Hs Hl; [done |].
    apply Forall_cons in Hl as [Ha Hl]. cbn [foldl]. apply IH; [by apply run_action_inv | done].
Qed.

Definition all_peers (peer : jsstring) : bool := true.

Definition is_allowed (w : World) (e : Event) : bool :=
  match e with
  | ev_timer _ _ d => bool_decide (timer (rt w) <> None) && negb (map_has (trackedDeliveries (session w)) d)
                      && negb (map_has (direct w) d) && negb (bool_decide (d ∈ sent_ids w))
  | ev_saved _ _ => match stage w with st_saving _ => true | _ => false end
  | ev_sent _ _ => match stage w with st_sending _ => true | _ => false end
  | ev_fallback _ d _ | ev_admit d => map_has (direct w) d
  | ev_timeout _ d => map_has (trackedDeliveries (session w)) d
  | ev_ack d _ => bool_decide (d ∈ sent_ids w)
  | ev_store _ notify => notify
  | _ => true
  end.

Lemma is_allowed_enabled w e : is_allowed w e = true -> enabled w e.
Proof.
  destruct e; cbn [is_allowed enabled]; try done.
  - rewrite !andb_true_iff, !negb_true_iff, !map_has_false, !bool_decide_eq_true, bool_decide_eq_false. intros [[[? ?] ?] ?]. by repeat split.
  - destruct (stage w); try done. by eexists.
  - destruct (stage w); try done. by eexists.
  - apply map_has_true.
  - apply map_has_true.
  - apply map_has_true.
  - apply bool_decide_eq_true.
  - auto.
Qed.

Fixpoint run_allowed (w : World) (es : list Event) : option World :=
  match es with
  | [] => Some w
  | e :: es => if is_allowed w e then run_allowed (fire w e) es else None
  end.

Definition d1 : jsstring := js "d1".
Definition first_attempt (outcome : Outcome) : list Event :=
  [ev_timer 10 all_peers d1; ev_saved 10 true; ev_sent 10 outcome; ev_timer 11 all_peers (js "d2")].

Lemma outbox_attempt_witness :
  let w := sample_world true in
  exists e, Outbox.messageId e = js "m1"
  /\ exists a, attempt_starts 10 all_peers w a e /\ Attempt.deliveryId a = d1.
Proof.
  destruct (outbox_attempt (sample_world true) 10 all_peers d1
    (match stage (fire (sample_world true) (ev_timer 10 all_peers d1)) with
     | st_saving a => a | _ => Attempt.mk [] [] [] [] [] [] [] [] None 0 end)) as (e & He & Hd & _).
  - apply reach_start, sample_started.
  - closed.
  - closed.
  - cbv zeta. exists e. split; [|by eexists]. destruct (as_entry _ _ _ _ _ He) as (_ & -> & _). closed.
Defined.

