(* ===== verification/OutboxProgress.v ===== *)
(** * The outbox runtime keeps going

    After every sequence of events the runtime has something that will wake it,
    with three exceptions that follow, and an absent contact can keep it from
    ever looking at the messages for the others. *)
From S2P Require Import Prelude JsRuntime Collections Admission AppStore AppStoreFacts DeliveryTracking OutboxRuntime OutboxFacts.

(** ** The runtime does not fall asleep *)

Definition can_run (w : World) : bool :=
  visible w && live w && attached w && bool_decide (is_Some (identity w)).

(** The delivery has a timer of its own: the relay's or the direct channel's. *)
Definition guarded (d : jsstring) (w : World) : Prop :=
  d ∈ map_keys (trackedDeliveries (session w)) \/ d ∈ map_keys (direct w).

Definition draining (w : World) : Prop :=
  stopped (rt w) = true \/
  match stage w with
  | st_idle =>
      match activeDeliveryId (rt w) with
      | Some d => guarded d w
      | None => timer (rt w) <> None \/ can_run w = false
      end
  | st_saving a | st_sending a =>
      activeDeliveryId (rt w) = Some (Attempt.deliveryId a) /\ is_fresh (Attempt.deliveryId a) w
  end.

(** The events after which the runtime keeps going. *)
Definition smooth (w : World) (e : Event) : Prop :=
  match e with
  | ev_admit d | ev_ack d false => activeDeliveryId (rt w) <> Some d
  | ev_pong _ c => stage w = st_idle \/ activeContactId (rt w) <> Some c
  | _ => True
  end.

(** The steps of the runtime on its own fields: [quiet] ones leave the delivery
    in flight alone and never disarm the timer. *)
Record quiet (w w' : World) : Prop := {
  qu_stopped : stopped (rt w') = stopped (rt w);
  qu_stage : stage w' = stage w;
  qu_active : activeDeliveryId (rt w') = activeDeliveryId (rt w);
  qu_contact : activeContactId (rt w') = activeContactId (rt w);
  qu_timer : timer (rt w) <> None -> timer (rt w') <> None;
  qu_ready : can_run w' = can_run w;
  qu_session : session w' = session w;
  qu_direct : direct w' = direct w;
  qu_sent : sent_ids w' = sent_ids w;
}.

Lemma quiet_refl w : quiet w w.
Proof. by constructor. Qed.

Lemma quiet_trans a b c : quiet a b -> quiet b c -> quiet a c.
Proof. intros [] []. constructor; try congruence; auto. Qed.

Lemma quiet_store s w : quiet w (on_store s w).
Proof. by constructor. Qed.

Lemma sent_ids_log e w : sent_ids (log e w) = sent_ids w ++ match e with SendText a => [Attempt.deliveryId a] | _ => [] end.
Proof. unfold sent_ids. cbn [effects log]. rewrite omap_app. by destruct e. Qed.

Lemma quiet_log e w : (forall a, e <> SendText a) -> quiet w (log e w).
Proof. intros He. constructor; try done. rewrite sent_ids_log. destruct e; try by rewrite app_nil_r. by destruct (He a). Qed.

Lemma quiet_schedule d w : quiet w (schedule d w).
Proof. unfold schedule. case_match; [apply quiet_refl | by constructor]. Qed.

Lemma schedule_armed d w : stopped (rt w) = false -> timer (rt (schedule d w)) <> None.
Proof. intros H. unfold schedule. by rewrite H. Qed.

Lemma quiet_queue e w : quiet w (queue e w).
Proof. eapply quiet_trans; [apply quiet_store | apply quiet_schedule]. Qed.

Lemma quiet_settle m w : quiet w (settle_entry m w).
Proof. eapply quiet_trans; [apply quiet_store | apply quiet_schedule]. Qed.

Lemma quiet_deliver c m st w : quiet w (deliver_state c m st w).
Proof. unfold deliver_state. case_match; [eapply quiet_trans; [apply quiet_store | apply quiet_schedule] | apply quiet_store]. Qed.

Lemma quiet_defer e now d w : quiet w (defer e now d w) /\ (stopped (rt w) = false -> timer (rt (defer e now d w)) <> None).
Proof.
  unfold defer. set (at_ := Z.max (Outbox.nextAttemptAt e) (now + d)).
  set (w1 := if at_ =? Outbox.nextAttemptAt e then w else queue (with_next at_ e) w).
  assert (H1 : quiet w w1) by (unfold w1; case_match; [apply quiet_refl | apply quiet_queue]).
  split; [eapply quiet_trans; [exact H1 | apply quiet_schedule] |].
  intros Hs. apply schedule_armed. by rewrite (qu_stopped _ _ H1).
Qed.

Lemma quiet_foldl {A} (f : World -> A -> World) l : (forall w a, quiet w (f w a)) -> forall w, quiet w (foldl f w l).
Proof. intros Hf. induction l as [|a l IH]; intros w; [apply quiet_refl |]. eapply quiet_trans; [apply Hf | apply IH]. Qed.

(** The delivery in flight is given up and the timer armed. *)
Record released (w w' : World) : Prop := {
  re_stopped : stopped (rt w') = false;
  re_stage : stage w' = stage w;
  re_active : activeDeliveryId (rt w') = None;
  re_timer : timer (rt w') <> None;
  re_session : session w' = session w;
  re_direct : direct w' = direct w;
  re_sent : sent_ids w' = sent_ids w;
}.

Lemma quiet_released a b c : quiet a b -> released b c -> released a c.
Proof. intros [] []. constructor; congruence. Qed.

Lemma released_quiet a b c : released a b -> quiet b c -> released a c.
Proof. intros [] []. constructor; try congruence. by apply qu_timer0. Qed.

(** Giving an attempt up: a [quiet] step, unless it is the one in flight, which
    is released with the timer armed. *)
Lemma stopActiveDrain_cases d c m delay now w :
  let w' := stopActiveDrain d c m delay now w in
  if negb (stopped (rt w)) && bool_decide (activeDeliveryId (rt w) = Some d) then
    released w w'
  else quiet w w'.
Proof.
  cbv zeta. unfold stopActiveDrain. destruct (stopped (rt w)) eqn:Es; cbn [negb andb orb]; [apply quiet_refl |].
  destruct (bool_decide _); cbn [negb]; [|apply quiet_refl].
  set (w1 := match queued_where _ w with Some _ => _ | None => w end).
  assert (H1 : quiet w w1) by (unfold w1; case_match; [apply quiet_queue | apply quiet_refl]).
  match goal with |- context [schedule ?delay (on_rt ?r w1)] =>
    pose proof (quiet_schedule delay (on_rt r w1)) as H2; pose proof (schedule_armed delay (on_rt r w1)) as H3 end.
  destruct H1, H2. cbn [rt stage session direct on_rt] in *. rewrite Es in qu_stopped0.
  constructor; [by rewrite qu_stopped1 | congruence | by rewrite qu_active1 | by apply H3 | congruence | congruence | by rewrite qu_sent1].
Qed.

Lemma timeout_cases now a w :
  let w' := outcome_timeout now a w in
  if negb (stopped (rt w)) && bool_decide (activeDeliveryId (rt w) = Some (Attempt.deliveryId a)) then
    released w w'
  else quiet w w'.
Proof.
  cbv zeta. unfold outcome_timeout, trace.
  pose proof (stopActiveDrain_cases (Attempt.deliveryId a) (Attempt.contactId a) (Attempt.messageId a)
                (outboxRetryDelay (Attempt.attempts a)) now (log (Trace (js "outbox: retry_deferred")) w)) as H.
  assert (Hq : quiet w (log (Trace (js "outbox: retry_deferred")) w)) by (apply quiet_log; discriminate).
  cbn [rt log] in H. destruct (_ && _); [exact (quiet_released _ _ _ Hq H) | exact (quiet_trans _ _ _ Hq H)].
Qed.

(** What the callbacks of the session do to the attempt in flight. *)
Lemma effects_cases now l w :
  stopped (rt w) = false ->
  let w' := session_effects now l w in
  if existsb (fun a => bool_decide (activeDeliveryId (rt w) = Some (Attempt.deliveryId a))) (callbacks_run l) then
    released w w'
  else quiet w w'.
Proof.
  cbv zeta. revert w. induction l as [|e l IH]; intros w Hs; [apply quiet_refl |].
  assert (Hq : forall w1, quiet w w1 ->
    if existsb (fun a => bool_decide (activeDeliveryId (rt w) = Some (Attempt.deliveryId a))) (callbacks_run l)
    then released w (session_effects now l w1) else quiet w (session_effects now l w1)).
  { intros w1 H1. specialize (IH w1). rewrite (qu_stopped _ _ H1), (qu_active _ _ H1) in IH. specialize (IH Hs).
    match type of IH with if ?b then _ else _ => destruct b end; [exact (quiet_released _ _ _ H1 IH) | exact (quiet_trans _ _ _ H1 IH)]. }
  destruct e as [a|c d|c|c]; [|(refine (Hq (log (Session _) w) _); apply quiet_log; discriminate) ..].
  change (session_effects now (CallbackRun a :: l) w) with (session_effects now l (outcome_timeout now a w)).
  change (callbacks_run (CallbackRun a :: l)) with (a :: callbacks_run l). cbn [existsb].
  pose proof (timeout_cases now a w) as Ht. cbv zeta in Ht. rewrite Hs in Ht. cbn [negb andb] in Ht.
  destruct (bool_decide (activeDeliveryId (rt w) = Some (Attempt.deliveryId a))); cbn [orb]; [|by apply Hq].
  specialize (IH _ (re_stopped _ _ Ht)).
  assert (Hn : forall o, o = None -> existsb (fun a0 => bool_decide (o = Some (Attempt.deliveryId a0))) (callbacks_run l) = false).
  { intros o ->. clear. induction (callbacks_run l) as [|a0 l0 IH]; [done |]. cbn [existsb]. rewrite bool_decide_false, IH by discriminate. done. }
  rewrite (Hn _ (re_active _ _ Ht)) in IH. exact (released_quiet _ _ _ Ht IH).
Qed.

(** *** Runs *)

Lemma quiet_rt r w :
  stopped r = stopped (rt w) -> activeDeliveryId r = activeDeliveryId (rt w) -> activeContactId r = activeContactId (rt w) ->
  timer r = timer (rt w) -> quiet w (on_rt r w).
Proof. intros ????. constructor; try done. cbn. congruence. Qed.

(** A run that ends at once: the timer is armed again. *)
Definition rescheduled (w w' : World) : Prop :=
  stopped (rt w') = false /\ stage w' = st_idle /\ activeDeliveryId (rt w') = None /\ timer (rt w') <> None.

Lemma end_run_rescheduled w w1 :
  quiet w w1 -> stopped (rt w) = false -> activeDeliveryId (rt w) = None -> timer (rt w1) <> None -> rescheduled w (end_run w1).
Proof. intros [] Hs Ha Ht. unfold rescheduled, end_run. cbn. split_and!; try congruence. Qed.

Lemma attempt_entry_drains now supports d sender due w :
  stopped (rt w) = false -> activeDeliveryId (rt w) = None -> is_fresh d w ->
  let w' := attempt_entry now supports d sender due w in
  rescheduled w w' \/ exists a, stage w' = st_saving a /\ Attempt.deliveryId a = d /\ activeDeliveryId (rt w') = Some d
    /\ is_fresh d w' /\ stopped (rt w') = false.
Proof.
  intros Hs Ha Hf. cbv zeta. unfold attempt_entry.
  assert (Hsettle : forall w1, quiet w w1 -> rescheduled w (end_run (schedule 0 (settle_entry (Outbox.messageId due) w1)))).
  { intros w1 H1. pose proof (quiet_trans _ _ _ H1 (quiet_settle (Outbox.messageId due) w1)) as H2.
    apply end_run_rescheduled; [eapply quiet_trans; [exact H2 | apply quiet_schedule] | done | done |].
    apply schedule_armed. by rewrite (qu_stopped _ _ H2). }
  destruct (find_contact _ w) as [contact|]; [|left; apply Hsettle, quiet_refl].
  destruct (find_message due w) as [m|]; [|left; apply Hsettle, quiet_refl].
  destruct (negb _); [left; apply Hsettle, quiet_refl |]. destruct (_ <=? _).
  { left. set (w1 := deliver_state _ _ _ w).
    assert (H2 : quiet w (trace (js "outbox: expired") (settle_entry (Outbox.messageId due) w1))).
    { eapply quiet_trans; [apply quiet_deliver |]. eapply quiet_trans; [apply quiet_settle |].
      apply (quiet_log (Trace (js "outbox: expired"))). discriminate. }
    apply end_run_rescheduled; [eapply quiet_trans; [exact H2 | apply quiet_schedule] | done | done |].
    apply schedule_armed. by rewrite (qu_stopped _ _ H2). }
  assert (Hdefer : rescheduled w (end_run (defer due now outboxUnavailableRetryDelayMs w))).
  { destruct (quiet_defer due now outboxUnavailableRetryDelayMs w) as [Hq Ht]. by apply end_run_rescheduled; [| | | apply Ht]. }
  destruct (Contact.peerId contact) as [peer|]; [|by left]. destruct (Contact.hpkePublicKey contact) as [key|]; [|by left].
  destruct (_ || _); [by left |]. right. destruct (quiet_queue (attempted now d due) w).
  eexists. split; [reflexivity |]. split; [done |]. split; [done |].
  split; [|by cbn; rewrite qu_stopped0]. destruct Hf as (H1 & H2 & H3). unfold is_fresh.
  cbn [session direct on_stage log on_rt]. rewrite qu_session0, qu_direct0. split_and!; try done.
  change (sent_ids (on_stage _ ?x)) with (sent_ids x). rewrite sent_ids_log, app_nil_r.
  change (sent_ids (on_rt _ ?x)) with (sent_ids x). by rewrite qu_sent0.
Qed.

Lemma rescheduled_draining w w' : rescheduled w w' -> draining w'.
Proof. intros (_ & Hs & Ha & Ht). right. rewrite Hs, Ha. by left. Qed.

Lemma run_drains now supports d w :
  runtime_ok w -> draining w -> is_fresh d w -> draining (run now supports d (on_rt (set_timer None (rt w)) w)).
Proof.
  intros [Hw Hs] Hd Hf. set (w0 := on_rt (set_timer None (rt w)) w). unfold run.
  destruct (may_run w0) eqn:Hm; cbn [negb].
  - unfold may_run in Hm. rewrite !andb_true_iff, !negb_true_iff in Hm. destruct Hm as [[[[Hst _] Hact] Hvis] Hlive].
    apply bool_decide_eq_false in Hact.
    assert (Ha : activeDeliveryId (rt w0) = None) by (destruct (activeDeliveryId (rt w0)); [exfalso; apply Hact; eauto | done]).
    set (w1 := on_rt (set_running true (rt w0)) w0).
    assert (Hnot : can_run w = false -> draining (end_run w1)).
    { intros Hr. right. cbn [stage end_run on_stage rt on_rt set_running activeDeliveryId w1]. rewrite Ha. by right. }
    unfold can_run in Hnot. change (identity w1) with (identity w). change (attached w1) with (attached w).
    destruct (identity w) as [sender|]; [|apply Hnot; by rewrite andb_false_r].
    destruct (attached w); cbn [negb]; [|apply Hnot; by rewrite andb_false_r]. clear Hnot.
    change (examined w1) with (examined w). set (entries := examined w).
    set (w2 := on_rt (pruneAwaitingReceiptRetries entries (rt w1)) w1).
    assert (H2 : stopped (rt w2) = false /\ activeDeliveryId (rt w2) = None) by done. destruct H2 as [Hs2 Ha2].
    destruct (keep (expired_delivered now) entries) as [|e l].
    + destruct (nextEligibleEntry_spec entries now (rt w2) (examined_distinct w Hw)) as [Hsw _].
      destruct (nextEligibleEntry entries now (rt w2)) as [due r]. cbn [snd] in Hsw.
      destruct (same_control _ _ _ Hsw) as (_ & Es & _ & Ed & _).
      destruct due as [due|].
      * destruct (attempt_entry_drains now supports d sender due (on_rt r w2)) as [Hr|(a & Hst' & <- & Ha' & Hf' & _)];
          [cbn; rewrite Es; exact Hs2 | cbn; rewrite Ed; exact Ha2 | exact Hf | by eapply rescheduled_draining |].
        right. by rewrite Hst'.
      * cbn [rt on_rt]. destruct (nextWakeDelay_spec entries now r) as [Hsw' _].
        destruct (nextWakeDelay entries now r) as [delay r']. cbn [snd] in Hsw'.
        destruct (same_control _ _ _ Hsw') as (_ & Es' & _ & Ed' & _).
        set (w3 := on_rt r' (on_rt r w2)). apply (rescheduled_draining w3), end_run_rescheduled.
        -- apply quiet_schedule.
        -- cbn. rewrite Es', Es. exact Hs2.
        -- cbn. rewrite Ed', Ed. exact Ha2.
        -- apply schedule_armed. cbn. rewrite Es', Es. exact Hs2.
    + apply (rescheduled_draining w2), end_run_rescheduled; [|done | done |].
      * eapply quiet_trans; [|apply quiet_schedule]. apply quiet_foldl. intros. apply quiet_settle.
      * apply schedule_armed. erewrite qu_stopped; [exact Hs2 |]. apply quiet_foldl. intros. apply quiet_settle.
  - destruct (stopped (rt w)) eqn:Hst; [left; exact Hst |]. destruct Hd as [Hd|Hd]; [congruence |]. right. cbn [stage on_rt w0 rt set_timer activeDeliveryId timer].
    destruct (stage w) eqn:Es; [|exact Hd ..]. destruct (activeDeliveryId (rt w)) eqn:Ea; [exact Hd |]. right.
    assert (Hr : running (rt w) = false) by (destruct (running (rt w)); [exfalso; apply (proj1 Hs); [done | first [exact Es | reflexivity]] | done]).
    unfold may_run in Hm. cbn in Hm. rewrite Hst, Hr, Ea in Hm. rewrite bool_decide_false in Hm by (intros [? [=]]).
    cbn in Hm. change (visible w && live w && attached w && bool_decide (is_Some (identity w)) = false). by rewrite Hm.
Qed.


(** *** Deliveries *)

Lemma trackDelivery_cases a (s : RelaySessionState Attempt) :
  let d := Attempt.deliveryId a in
  let v := mkTracked (Attempt.contactId a) (Attempt.messageId a) a in
  let m := map_delete (trackedDeliveries s) d in
  let '(es, s') := trackDelivery d (Attempt.contactId a) (Attempt.messageId a) a s in
  (callbacks_run es = [] /\ trackedDeliveries s' = map_set m d v)
  \/ exists o w, map_get m o = Some w /\ callbacks_run es = [onTimeout w] /\ trackedDeliveries s' = map_set (map_delete m o) d v.
Proof.
  cbv zeta. unfold trackDelivery. set (m := map_delete _ _).
  change (trackedDeliveries (clearDelivery (Attempt.deliveryId a) s)) with m.
  destruct (_ =? _); [|by left]. destruct m as [|[o w] l] eqn:Em; [left; split; [done |]; by rewrite <- Em |].
  right. exists o, w. unfold time_out, abandonCurrentPendingEnvelope.
  cbn [fst snd clearDelivery clearPendingAbandonment with_timers with_tracked trackedDeliveries session_client].
  split; [by cbn; rewrite decide_True |]. rewrite callbacks_run_app. cbn [callbacks_run omap list_omap].
  split; [by destruct (session_client s) |]. by rewrite <- Em.
Qed.

Lemma map_keys_set_elem {A} (m : list (jsstring * A)) k v k' : k' ∈ map_keys (map_set m k v) <-> k' = k \/ k' ∈ map_keys m.
Proof.
  rewrite map_keys_set. destruct (map_has m k) eqn:E.
  - apply map_has_true in E. split; [by right |]. by intros [->|?].
  - rewrite elem_of_app, list_elem_of_singleton. naive_solver.
Qed.

Lemma map_keys_delete_elem {A} (m : list (jsstring * A)) k k' : k' ∈ map_keys (map_delete m k) <-> k' <> k /\ k' ∈ map_keys m.
Proof.
  rewrite <- !map_has_true. unfold map_has. destruct (decide (k = k')) as [->|Hne].
  - rewrite map_get_delete_eq. split; [done | by intros [? _]].
  - rewrite map_get_delete_ne by done. split; [by split | by intros [_ ?]].
Qed.

(** Tracking [a] either leaves the attempt in flight alone or releases it
    because it was the oldest of a full window. *)
Lemma track_cases now a w :
  runtime_ok w -> stopped (rt w) = false ->
  let w' := track now a w in
  (forall k, k ∈ map_keys (trackedDeliveries (session w')) -> k = Attempt.deliveryId a \/ k ∈ map_keys (trackedDeliveries (session w)))
  /\ (quiet w (on_session (session w) w') /\ Attempt.deliveryId a ∈ map_keys (trackedDeliveries (session w'))
       /\ (forall d, activeDeliveryId (rt w) = Some d -> d ∈ map_keys (trackedDeliveries (session w)) ->
           d ∈ map_keys (trackedDeliveries (session w')))
      \/ released w (on_session (session w) w')
         /\ exists d, activeDeliveryId (rt w) = Some d /\ d ∈ map_keys (trackedDeliveries (session w)) /\ d <> Attempt.deliveryId a).
Proof.
  intros [Hw _] Hs. cbv zeta. unfold track. destruct (core_tracked w Hw) as [[Hwf _] Hkey].
  pose proof (trackDelivery_cases a (session w)) as Hc. cbv zeta in Hc.
  destruct (trackDelivery _ _ _ _ (session w)) as [es s]. set (m := map_delete _ _) in Hc.
  pose proof (effects_cases now es (on_session s w) Hs) as He. cbv zeta in He.
  change (rt (on_session s w)) with (rt w) in He. set (w1 := session_effects now es (on_session s w)) in *.
  assert (Hm : forall k, k ∈ map_keys m <-> k <> Attempt.deliveryId a /\ k ∈ map_keys (trackedDeliveries (session w)))
    by (intros; apply map_keys_delete_elem).
  destruct Hc as [[Hcb Ht]|(o & v & Hget & Hcb & Ht)]; rewrite Hcb in He; cbn [existsb] in He.
  - assert (Ese : session w1 = s) by (by destruct He). rewrite Ese, Ht. split.
    { intros k. rewrite map_keys_set_elem, Hm. naive_solver. }
    left. split; [by destruct He; constructor |]. split; [apply map_keys_set_elem; by left |].
    intros d _ Hd. rewrite map_keys_set_elem, Hm. destruct (decide (d = Attempt.deliveryId a)); auto.
  - assert (Ho : Attempt.deliveryId (onTimeout v) = o).
    { apply map_get_Some_elem in Hget. rewrite Forall_forall in Hkey. apply (Hkey (o, v)).
      eapply elem_of_sublist; [exact Hget | apply map_delete_sublist]. }
    assert (Hok : o ∈ map_keys m) by (apply map_has_true; unfold map_has; by rewrite Hget). apply Hm in Hok as [Hne Hin].
    rewrite Ho, orb_false_r in He. destruct (bool_decide_reflect (activeDeliveryId (rt w) = Some o)) as [Ha|Hn].
    + assert (Ese : session w1 = s) by (by destruct He). rewrite Ese, Ht. split.
      { intros k. rewrite map_keys_set_elem, map_keys_delete_elem, Hm. naive_solver. }
      right. split; [by destruct He; constructor | by exists o].
    + assert (Ese : session w1 = s) by (by destruct He). rewrite Ese, Ht. split.
      { intros k. rewrite map_keys_set_elem, map_keys_delete_elem, Hm. naive_solver. }
      left. split; [by destruct He; constructor |]. split; [apply map_keys_set_elem; by left |].
      intros d Hd Hin'. rewrite map_keys_set_elem, map_keys_delete_elem, Hm.
      destruct (decide (d = Attempt.deliveryId a)); [by left | right]. split; [congruence | done].
Qed.

Lemma quiet_draining w w' : quiet w w' -> draining w -> draining w'.
Proof.
  intros [Hs Hst Ha _ Ht Hr Hse Hd Hsent] [Hd0|Hd0]; [left; congruence |]. right. rewrite Hst, Ha.
  unfold is_fresh, guarded in *. rewrite Hse, Hd, Hsent, Hr. destruct (stage w); [|done ..].
  destruct (activeDeliveryId (rt w)); [done |]. destruct Hd0; auto.
Qed.

Lemma released_draining w w' : released w w' -> stage w = st_idle -> draining w'.
Proof. intros [_ Hst Ha Ht _ _ _] Hs. right. rewrite Hst, Hs, Ha. by left. Qed.

Lemma attempt_failed_drains now a w :
  stopped (rt w) = false -> activeDeliveryId (rt w) = Some (Attempt.deliveryId a) -> draining (attempt_failed now a w).
Proof.
  intros Hs Ha. pose proof (timeout_cases now a w) as H. cbv zeta in H. rewrite Hs, Ha, bool_decide_true in H by done.
  cbn [negb andb] in H. change (attempt_failed now a w) with (end_run (outcome_timeout now a w)). destruct H.
  right. cbn [stage end_run on_stage rt on_rt set_running activeDeliveryId timer]. rewrite re_active0. by left.
Qed.

Lemma calm_stopped f w : calm f -> runtime_ok w -> stopped (rt (f w)) = stopped (rt w).
Proof. intros Hf [Hw _]. destruct (Hf w Hw) as [_ Hc]. by apply control_split in Hc as (_ & ? & _). Qed.

Lemma fire_stopped w e : runtime_ok w -> stopped (rt w) = true -> stopped (rt (fire w e)) = true.
Proof.
  intros Hw Hs. destruct e as [now supports d|now ok|now o|now d sent|d|now d|d b|now c|b|a notify|i|b| |]; cbn [fire].
  - unfold run, may_run. cbn. by rewrite Hs.
  - unfold target_saved. destruct (stage w); try done. destruct ok; [done |].
    change (stopped (rt (outcome_timeout now a w)) = true). by rewrite (calm_stopped _ _ (calm_timeout now a) Hw).
  - unfold send_settled. destruct (stage w); try done. destruct o.
    + change (stopped (rt (track now a w)) = true). by rewrite (calm_stopped _ _ (calm_track now a) Hw).
    + change (stopped (rt (outcome_timeout now a (clear_delivery (Attempt.deliveryId a) (track now a w)))) = true).
      rewrite <- Hs. apply (calm_stopped _ w (calm_comp _ _ (calm_comp _ _ (calm_track now a) (calm_clear _)) (calm_timeout now a)) Hw).
    + done.
    + change (stopped (rt (outcome_timeout now a w)) = true). by rewrite (calm_stopped _ _ (calm_timeout now a) Hw).
  - by rewrite (calm_stopped _ _ (calm_fallback now d sent) Hw).
  - done.
  - by rewrite (calm_stopped _ _ (calm_tracked_timeout now d) Hw).
  - by rewrite (calm_stopped _ _ (calm_ack d b) Hw).
  - by rewrite (calm_stopped _ _ (calm_pong now c) Hw).
  - unfold runtimeVisibilityChange, schedule. cbn. by rewrite Hs.
  - destruct notify; unfold schedule; cbn; by rewrite ?Hs.
  - unfold schedule. cbn. by rewrite Hs.
  - unfold schedule. cbn. by rewrite Hs.
  - done.
  - done.
Qed.

(** Changing the session and the direct frames of deliveries other than the one
    in flight. *)
Lemma others_draining w w' :
  stopped (rt w') = stopped (rt w) -> stage w' = stage w -> activeDeliveryId (rt w') = activeDeliveryId (rt w) ->
  (timer (rt w) <> None -> timer (rt w') <> None) -> can_run w' = can_run w ->
  (forall d, activeDeliveryId (rt w) = Some d -> guarded d w -> guarded d w') ->
  (forall d, stage w <> st_idle -> activeDeliveryId (rt w) = Some d -> is_fresh d w -> is_fresh d w') ->
  draining w -> draining w'.
Proof.
  intros Hs Hst Ha Ht Hr Hg Hf [Hd|Hd]; [left; congruence |]. right. rewrite Hst, Ha, Hr.
  destruct (stage w) as [|a|a]; [|destruct Hd as [Hd1 Hd2]; split; [done | by apply Hf] ..].
  destruct (activeDeliveryId (rt w)) as [d|]; [by apply Hg |]. destruct Hd; auto.
Qed.

Lemma sent_drains now o w : runtime_ok w -> stopped (rt w) = false -> draining w -> draining (send_settled now o w).
Proof.
  intros Hw Hs [Hd|Hd]; [congruence |]. unfold send_settled. destruct (stage w) as [|a|a] eqn:Est;
    [right; by rewrite Est | right; by rewrite Est |]. destruct Hd as [Ha (Hf1 & Hf2 & Hf3)].
  pose proof (track_cases now a w Hw Hs) as Ht. cbv zeta in Ht. destruct Ht as [_ Ht].
  assert (Hq : quiet w (on_session (session w) (track now a w))
               /\ Attempt.deliveryId a ∈ map_keys (trackedDeliveries (session (track now a w)))).
  { destruct Ht as [(Hq & Hin & _)|(_ & d & Hd & Hin & Hne)]; [done | congruence]. }
  destruct Hq as [Hq Hin]. pose proof (qu_active _ _ Hq) as Ha'. pose proof (qu_stopped _ _ Hq) as Hs'.
  cbn [rt on_session] in Ha', Hs'. destruct o.
  - right. cbn [stage end_run on_stage rt on_rt set_running activeDeliveryId trace log]. rewrite Ha', Ha. by left.
  - apply attempt_failed_drains; cbn [rt clear_delivery on_session]; congruence.
  - right. cbn [stage end_run on_stage rt on_rt set_running activeDeliveryId trace log on_direct]. rewrite Ha. right.
    apply map_keys_set_elem. by left.
  - by apply attempt_failed_drains.
Qed.

Lemma draining_fresh w d : stopped (rt w) = false -> draining w -> stage w <> st_idle -> activeDeliveryId (rt w) = Some d -> is_fresh d w.
Proof. intros Hs [Hd|Hd] Hst Ha; [congruence |]. destruct (stage w); [done | | ]; destruct Hd; congruence. Qed.

Lemma fallback_drains now d sent w :
  runtime_ok w -> stopped (rt w) = false -> draining w -> draining (direct_fallback now d sent w).
Proof.
  intros Hw Hs Hd. unfold direct_fallback. destruct (map_get (direct w) d) as [a|] eqn:Eg; [|done].
  assert (Hda : Attempt.deliveryId a = d).
  { destruct Hw as [Hw _]. destruct (core_direct w Hw) as [_ Hf]. rewrite Forall_forall in Hf. by apply (Hf (d, a)), map_get_Some_elem. }
  assert (Hin : d ∈ map_keys (direct w)) by (apply map_has_true; unfold map_has; by rewrite Eg).
  set (w1 := on_direct (map_delete (direct w) d) w).
  pose proof (track_cases now a w1 (runtime_ok_calm _ w (calm_direct_delete d) Hw) Hs) as Ht. cbv zeta in Ht. rewrite Hda in Ht.
  set (w2 := track now a w1) in *. destruct Ht as [Hkeys Ht].
  assert (H2 : draining w2 /\ forall d0, activeDeliveryId (rt w2) = Some d0 -> stage w2 <> st_idle -> d0 <> d).
  { destruct Ht as [(Hq & Hd2 & Hkept)|(Hr & d0 & Ha & Hin0 & Hne)].
    - split.
      + apply (others_draining w); try exact Hd; try apply Hq.
        * intros d0 Ha [Hg|Hg]; [left; by apply Hkept |]. destruct (decide (d0 = d)) as [->|Hne]; [by left | right].
          pose proof (qu_direct _ _ Hq) as E. cbn [direct on_session] in E. rewrite E. by apply map_keys_delete_elem.
        * intros d0 _ Ha (H1 & H2 & H3). unfold is_fresh. split_and!.
          -- intros Hk. destruct (Hkeys d0 Hk) as [->|Hk']; [by apply H2 | by apply H1].
          -- pose proof (qu_direct _ _ Hq) as E. cbn [direct on_session] in E. rewrite E. intros Hk. by apply map_keys_delete_elem in Hk as [_ ?].
          -- pose proof (qu_sent _ _ Hq) as E. change (sent_ids (on_session (session w1) w2)) with (sent_ids w2) in E. by rewrite E.
      + intros d0 Ha Hst ->. rewrite (qu_active _ _ Hq : activeDeliveryId (rt w2) = _) in Ha. rewrite (qu_stage _ _ Hq : stage w2 = _) in Hst.
        destruct (draining_fresh w d Hs Hd Hst Ha) as (_ & Hn & _). by apply Hn.
    - assert (Hst : stage w = st_idle).
      { destruct (stage w) eqn:Hst; [done | |]; exfalso; (destruct (draining_fresh w d0 Hs Hd) as [Hn _]; [by rewrite Hst | exact Ha | by apply Hn]). }
      destruct Hr. cbn [rt stage on_session] in *. split; [right; rewrite re_stage0 | by rewrite re_active0].
      cbn [stage on_direct w1]. rewrite Hst, re_active0. by left. }
  destruct H2 as [H2 Hfresh]. destruct sent; [|done].
  destruct (stopped (rt w2)) eqn:Es2; [by left |].
  apply (others_draining w2); try done. intros d0 Hst Ha (H3 & H4 & H5). unfold is_fresh. split_and!; try done.
  rewrite sent_ids_log, elem_of_app, list_elem_of_singleton, Hda. intros [Hin3|Hin3]; [done | by apply (Hfresh d0)].
Qed.

Lemma tracked_timeout_drains now d w :
  runtime_ok w -> stopped (rt w) = false -> draining w -> draining (tracked_timeout now d w).
Proof.
  intros Hw Hs Hd. unfold tracked_timeout, delivery_timer. destruct (map_get _ d) as [v|] eqn:Eg.
  2: { by apply (others_draining w). }
  assert (Hdv : Attempt.deliveryId (onTimeout v) = d).
  { destruct Hw as [Hw _]. destruct (core_tracked w Hw) as [_ Hf]. rewrite Forall_forall in Hf. by apply (Hf (d, v)), map_get_Some_elem. }
  pose proof (time_out_tracked d v (session w)) as Et.
  assert (Ecb : callbacks_run (time_out d v (session w)).1 = [onTimeout v]).
  { unfold time_out, abandonCurrentPendingEnvelope. cbn [fst]. rewrite callbacks_run_app. by destruct (session_client _). }
  destruct (time_out d v (session w)) as [es s]. cbn [fst snd] in Et, Ecb.
  pose proof (effects_cases now es (on_session s w) Hs) as He. cbv zeta in He. rewrite Ecb in He. cbn [existsb] in He.
  rewrite Hdv, orb_false_r in He. change (rt (on_session s w)) with (rt w) in He.
  destruct (bool_decide_reflect (activeDeliveryId (rt w) = Some d)) as [Ha|Hn].
  - apply (released_draining _ _ He). cbn [stage on_session]. destruct (stage w) eqn:Hst; [done | |]; exfalso;
      (destruct (draining_fresh w d Hs Hd) as [Hf _]; [by rewrite Hst | exact Ha |]; apply Hf, map_has_true; unfold map_has; by rewrite Eg).
  - apply (others_draining w); try exact Hd; try apply He.
    + intros d0 Ha [Hg|Hg]; [left | right; by rewrite (qu_direct _ _ He)].
      rewrite (qu_session _ _ He). cbn [session on_session]. rewrite Et. apply map_keys_delete_elem. split; [congruence | done].
    + intros d0 _ Ha (H1 & H2 & H3). unfold is_fresh. rewrite (qu_session _ _ He), (qu_direct _ _ He), (qu_sent _ _ He).
      cbn [session on_session]. rewrite Et. split_and!; [|done | done]. intros Hk. by apply map_keys_delete_elem in Hk as [_ ?].
Qed.

Lemma clear_draining d w : activeDeliveryId (rt w) <> Some d -> draining w -> draining (clear_delivery d w).
Proof.
  intros Hn Hd. apply (others_draining w); try done.
  - intros d0 Ha [Hg|Hg]; [left | by right]. apply map_keys_delete_elem. split; [congruence | done].
  - intros d0 _ Ha (H1 & H2 & H3). split_and!; try done. intros Hk. by apply map_keys_delete_elem in Hk as [_ ?].
Qed.

Lemma ack_drains d b w :
  runtime_ok w -> stopped (rt w) = false -> draining w -> d ∈ sent_ids w -> (b = false -> activeDeliveryId (rt w) <> Some d) ->
  draining (relay_ack d b w).
Proof.
  intros _ Hs0 Hd0 Hsent0 Hb0. unfold relay_ack. cbv zeta.
  assert (Hs : stopped (rt (clear_abandonment d w)) = false) by exact Hs0.
  assert (Hd : draining (clear_abandonment d w)) by (by apply (others_draining w)).
  assert (Hsent : d ∈ sent_ids (clear_abandonment d w)) by exact Hsent0.
  assert (Hb : b = false -> activeDeliveryId (rt (clear_abandonment d w)) <> Some d) by exact Hb0.
  revert Hs Hd Hsent Hb. generalize (clear_abandonment d w). clear dependent w. intros w Hs Hd Hsent Hb.
  set (w1 := match messageForDelivery d (session w) with Some _ => _ | None => w end).
  assert (H1 : stopped (rt w1) = false /\ stage w1 = stage w /\ activeDeliveryId (rt w1) = activeDeliveryId (rt w)
               /\ (activeDeliveryId (rt w) <> Some d -> draining w1)).
  { unfold w1. destruct (messageForDelivery d (session w)) as [[c m]|]; [|done].
    pose proof (quiet_deliver c m d_relayed w) as Hq. destruct Hq as [Es Est Ea].
    split_and!; [by rewrite <- Hs | done | done |]. intros Hn. apply clear_draining; [congruence |].
    apply (quiet_draining w); [apply quiet_deliver | done]. }
  destruct H1 as (Hs1 & Hst1 & Ha1 & Hd1). destruct b; [|by auto].
  unfold advanceMessageOutboxDrainAfterRelayForwarded. rewrite Hs1. cbn [orb].
  destruct (bool_decide_reflect (activeDeliveryId (rt w1) = Some d)) as [Ha|Hn]; cbn [negb]; [|apply Hd1; congruence].
  assert (Hst : stage w = st_idle).
  { destruct (stage w) eqn:Hst; [done | |]; exfalso;
      (destruct (draining_fresh w d Hs Hd) as (_ & _ & Hf); [by rewrite Hst | congruence | by apply Hf]). }
  set (r := match queued_where _ w1 with Some _ => _ | None => _ end).
  assert (Hr : stopped r = false) by (unfold r; by case_match).
  right. unfold schedule. cbn [rt on_rt set_active set_preferred stopped]. rewrite Hr. cbn. rewrite Hst1, Hst. by left.
Qed.

Lemma pong_drains now c w :
  runtime_ok w -> draining w -> (stage w = st_idle \/ activeContactId (rt w) <> Some c) ->
  draining (restartMessageOutboxDrainAfterPresencePong now c w).
Proof.
  intros Hw Hd Hsm. pose proof (calm_pong now c w (proj1 Hw)) as [_ Hc]. apply control_split in Hc as (_ & Es & Est).
  revert Es Est. unfold restartMessageOutboxDrainAfterPresencePong.
  destruct (activeDeliveryId (rt w)) as [d|] eqn:Ea; [|done]. destruct (stopped (rt w)) eqn:Hs; [done |]. cbn [orb].
  destruct (negb (visible w)); [done |]. destruct (bool_decide_reflect (activeContactId (rt w) = Some c)) as [Hac|Hn]; cbn [negb orb]; [|done].
  destruct Hsm as [Hst|Hn]; [|done]. rewrite Hst.
  set (w1 := match queued_where _ w with Some _ => _ | None => w end).
  cbn [abandonCurrentPendingEnvelope]. cbv zeta.
  match goal with |- context [schedule 0 ?x] => set (w2 := x) end. intros Es Est. right. rewrite Est.
  assert (Hs2 : stopped (rt w2) = false) by (rewrite <- Es; unfold schedule; by destruct (stopped (rt w2)) eqn:E; rewrite ?E).
  unfold schedule. rewrite Hs2. by left.
Qed.

Lemma fire_drains w e :
  runtime_ok w -> enabled w e -> smooth w e -> draining w -> draining (fire w e).
Proof.
  intros Hw He Hsm Hd. destruct (stopped (rt w)) eqn:Hs; [left; by apply fire_stopped |].
  destruct e as [now supports d|now ok|now o|now d sent|d|now d|d b|now c|b|a notify|i|b| |]; cbn [fire enabled smooth] in *.
  - apply run_drains; [done | done | apply He].
  - unfold target_saved. destruct Hd as [Hd|Hd]; [congruence |].
    destruct (stage w) as [|a|a] eqn:Est; [right; by rewrite Est | | right; by rewrite Est]. destruct ok; [by right |].
    apply attempt_failed_drains; [done | by apply Hd].
  - by apply sent_drains.
  - by apply fallback_drains.
  - apply (others_draining w); try done.
    + intros d0 Ha [Hg|Hg]; [by left | right]. apply map_keys_delete_elem. split; [congruence | done].
    + intros d0 _ Ha (H1 & H2 & H3). split_and!; try done. intros Hk. by apply map_keys_delete_elem in Hk as [_ ?].
  - by apply tracked_timeout_drains.
  - apply ack_drains; try done. intros ->. done.
  - by apply pong_drains.
  - unfold runtimeVisibilityChange. cbn [rt on_visible]. rewrite Hs.
    destruct Hd as [Hd|Hd]; [congruence |]. destruct b; unfold schedule; cbn; rewrite ?Hs; right; cbn.
    + destruct (stage w); [|done ..]. destruct (activeDeliveryId (rt w)); [done | by left].
    + destruct (stage w); [|done ..]. destruct (activeDeliveryId (rt w)); [done | by right].
  - destruct notify; [|exact (quiet_draining _ _ (quiet_store _ w) Hd)].
    exact (quiet_draining _ _ (quiet_trans _ _ _ (quiet_store _ w) (quiet_schedule 0 _)) Hd).
  - destruct Hd as [Hd|Hd]; [congruence |]. unfold schedule. cbn. rewrite Hs. right. cbn.
    destruct (stage w); [|done ..]. destruct (activeDeliveryId (rt w)); [done | by left].
  - destruct Hd as [Hd|Hd]; [congruence |]. unfold schedule. cbn. rewrite Hs. right. cbn.
    destruct (stage w); [|done ..]. destruct (activeDeliveryId (rt w)); [done | by left].
  - destruct Hd as [Hd|Hd]; [congruence |]. right. cbn. destruct (stage w); [|done ..].
    destruct (activeDeliveryId (rt w)); [done |]. right. unfold can_run. cbn. by rewrite andb_false_r.
  - by left.
Qed.

(** Worlds reached without the events that can put the runtime to sleep. *)
Inductive smooth_run : World -> list Event -> World -> Prop :=
| run_none w : smooth_run w [] w
| run_step w e es w' : enabled w e -> store_event_ok e -> smooth w e -> smooth_run (fire w e) es w' -> smooth_run w (e :: es) w'.

(** C10: The runtime never falls asleep: after any sequence of events it is
    stopped, or has its timer armed, or is in the middle of an attempt, or waits
    for a delivery that has a timer of its own, or the page is hidden, without
    an identity or detached. The sequence must not have a relay that accepts
    without forwarding, a direct ADMIT, or a pong in the middle of an attempt. *)
Theorem outbox_never_stalls w es w' (Hstart : started w) (Hrun : smooth_run w es w') :
  stopped (rt w') = true \/ timer (rt w') <> None \/ stage w' <> st_idle \/ can_run w' = false
  \/ exists d, activeDeliveryId (rt w') = Some d /\ guarded d w'.
Proof.
  assert (H : runtime_ok w /\ draining w).
  { split; [by apply reachable_ok, reach_start |]. destruct Hstart as (w0 & _ & ->). right. cbn. by left. }
  clear Hstart. induction Hrun as [w|w e es w' He Hok Hsm _ IH].
  - destruct H as [_ [Hd|Hd]]; [by left |]. destruct (stage w) eqn:Hst; [|right; right; left; discriminate ..].
    destruct (activeDeliveryId (rt w)) as [d|] eqn:Ha; [|destruct Hd; auto]. do 4 right. by exists d.
  - destruct H as [Hw Hd]. apply IH. split; [by apply fire_ok | by apply fire_drains].
Qed.

(** Whether the runtime waits for nothing while a message waits to be sent. *)
Definition asleep (w : World) : bool :=
  negb (stopped (rt w)) && bool_decide (timer (rt w) = None) && match stage w with st_idle => true | _ => false end && can_run w
  && match activeDeliveryId (rt w) with
     | Some d => negb (map_has (trackedDeliveries (session w)) d) && negb (map_has (direct w) d)
     | None => true
     end
  && existsb (fun e => bool_decide (Outbox.deliveredAt e = None)) (outbox (store w)).

(** Events that are [smooth] in every world. *)
Definition plain (e : Event) : bool :=
  match e with ev_admit _ | ev_ack _ false | ev_pong _ _ | ev_store _ _ => false | _ => true end.

Lemma run_allowed_smooth w es w' : run_allowed w es = Some w' -> forallb plain es = true -> smooth_run w es w'.
Proof.
  revert w. induction es as [|e es IH]; intros w; cbn [run_allowed forallb]; [intros [= ->] _; constructor |].
  destruct (is_allowed w e) eqn:E; [|done]. rewrite andb_true_iff. intros Hr [Hp Hps].
  constructor; [by apply is_allowed_enabled | by destruct e | by destruct e as [| | | | | |d []| | | | | | |] | by apply IH].
Qed.

Definition after (w : World) (es : list Event) : World := default w (run_allowed w es).

Lemma outbox_never_stalls_witness :
  let w' := after (sample_world true) (first_attempt wss_sent) in
  timer (rt w') = None /\ stage w' = st_idle /\ can_run w' = true
  /\ exists d, activeDeliveryId (rt w') = Some d /\ guarded d w'.
Proof.
  cbv zeta. split; [closed |]. split; [closed |]. split; [closed |].
  destruct (outbox_never_stalls (sample_world true) (first_attempt wss_sent) (after (sample_world true) (first_attempt wss_sent)))
    as [H|[H|[H|[H|H]]]].
  - apply sample_started.
  - apply run_allowed_smooth; closed.
  - vm_compute in H. discriminate H.
  - exfalso. apply H. closed.
  - exfalso. apply H. closed.
  - vm_compute in H. discriminate H.
  - exact H.
Defined.

(** ** The exceptions *)

(** An [relay.accepted] without [relay.forwarded] clears the timer of the
    delivery but does not release it. *)
Example accepted_only_stalls :
  match run_allowed (sample_world true) (first_attempt wss_sent ++ [ev_ack d1 false; ev_timer 12 all_peers (js "d2")]) with
  | Some w => asleep w | None => false end = true.
Proof. closed. Qed.

(** An ADMIT ends the direct delivery without releasing it. *)
Example direct_admit_stalls :
  match run_allowed (sample_world true) (first_attempt direct_sent ++ [ev_admit d1]) with
  | Some w => asleep w | None => false end = true.
Proof. closed. Qed.

(** A pong while the target is being stored releases the attempt before it is
    sent; the run it schedules finds the old one running. *)
Example pong_during_attempt_stalls :
  match run_allowed (sample_world true)
          [ev_timer 10 all_peers d1; ev_pong 11 (js "c1"); ev_timer 12 all_peers (js "d2"); ev_saved 13 true; ev_sent 13 wss_sent;
           ev_timeout 30013 d1] with
  | Some w => asleep w | None => false end = true.
Proof. closed. Qed.

(** *** An absent contact starves the others *)

Definition waiting_outbox (t : Z) : list StoredOutboxEntry :=
  [queued_of (js "c2") (js "m2") 2; with_next t (queued_of (js "c1") (js "m1") 1)].

(** [m1] was deferred to the time [t]; [m2] is due and its contact available. *)
Record starving (t : Z) (w : World) : Prop := {
  sv_outbox : outbox (store w) = waiting_outbox t;
  sv_contacts : contacts (store w) = contacts (store (sample_world false));
  sv_messages : messagesByContactId (store w) = messagesByContactId (store (sample_world false));
  sv_presence : contactPresenceById (store w) = contactPresenceById (store (sample_world false));
  sv_environment : identity w = Some (js "me") /\ attached w = true /\ visible w = true /\ live w = true /\ stage w = st_idle;
  sv_runtime : rt w = set_timer (Some 5000) new_runtime;
}.

Lemma waiting_eligible t now r :
  preferredContactId r = None -> awaitingReceiptRetryAtByMessageId r = [] -> pausedUntilByContactId r = [] -> t <= now ->
  nextEligibleEntry [with_next t (queued_of (js "c1") (js "m1") 1); queued_of (js "c2") (js "m2") 2] now r
  = (Some (with_next t (queued_of (js "c1") (js "m1") 1)), r).
Proof.
  intros Hp Ha Hc Ht. unfold nextEligibleEntry.
  set (e1 := with_next t _). set (e2 := queued_of _ _ 2).
  assert (Hwait : forall e, isContactDrainPaused (Outbox.contactId e) now r = (false, r)
                          /\ isAwaitingReceiptRetry (Outbox.messageId e) now r = (false, r)).
  { intros e. unfold isContactDrainPaused, isAwaitingReceiptRetry. by rewrite Ha, Hc. }
  assert (E : advancedOutboxMessageIds [e1; e2] now r = ([], r)).
  { unfold advancedOutboxMessageIds. cbn [filter_state].
    change (Outbox.deliveredAt e1) with (@None Z). change (Outbox.deliveredAt e2) with (@None Z). cbv iota beta.
    destruct (Hwait e1) as [_ ->]. by destruct (Hwait e2) as [_ ->]. }
  rewrite E. change (contactOutboxHeads [e1; e2] []) with [e1; e2]. cbn [filter_state].
  assert (E1 : (Outbox.nextAttemptAt e1 <=? now) = true) by (apply Z.leb_le; exact Ht). rewrite E1.
  destruct (Hwait e1) as [-> ->]. destruct (Hwait e2) as [-> ->]. destruct (Z.leb (Outbox.nextAttemptAt e2) now); cbv beta iota zeta delta [negb]; rewrite Hp; reflexivity.
Qed.

Lemma starving_step t now d w :
  starving t w -> t <= now < outboxMaximumAgeMs -> starving (now + 5000) (fire w (ev_timer now all_peers d)).
Proof.
  intros [Ho Hc Hm Hp (Hi & Ha & Hv & Hl & Hst) Hr] [Ht Hage]. cbn [fire]. unfold run.
  set (w0 := on_rt _ w). assert (Hmay : may_run w0 = true) by (unfold may_run, w0; cbn; by rewrite Hr, Hv, Hl).
  rewrite Hmay. cbn [negb]. cbn [identity attached on_rt w0]. rewrite Hi, Ha. cbn [negb].
  set (w1 := on_rt (set_running true (rt w0)) w0).
  assert (Ex : examined w1 = [with_next t (queued_of (js "c1") (js "m1") 1); queued_of (js "c2") (js "m2") 2]).
  { unfold examined. cbn [store on_rt w0 w1]. rewrite Ho. reflexivity. }
  rewrite Ex. change (keep (expired_delivered now) _) with (@nil StoredOutboxEntry).
  assert (Er : rt w1 = set_running true new_runtime) by (unfold w1, w0; cbn; by rewrite Hr).
  rewrite Er. set (w2 := on_rt (pruneAwaitingReceiptRetries _ _) w1).
  rewrite (waiting_eligible t now (rt w2)) by first [reflexivity | lia].
  unfold attempt_entry. cbn [Outbox.contactId with_next queued_of].
  assert (Ec : find_contact (js "c1") (on_rt (rt w2) w2) = Some (contact_of (js "c1")))
    by (unfold find_contact; cbn [store on_rt w2 w1 w0]; rewrite Hc; closed).
  assert (Em : find_message (with_next t (queued_of (js "c1") (js "m1") 1)) (on_rt (rt w2) w2) = Some (text_of (js "c1") (js "m1") 1)).
  { unfold find_message. cbn [store on_rt w2 w1 w0 Outbox.contactId Outbox.messageId with_next queued_of]. rewrite Hm. closed. }
  rewrite Ec, Em. cbn [Message.direction text_of]. change (negb (bool_decide (outgoing = outgoing))) with false.
  cbn [Outbox.createdAt with_next queued_of]. destruct (Z.leb_spec outboxMaximumAgeMs (now - 1)); [lia |].
  assert (Eav : is_available (js "c1") (on_rt (rt w2) w2) = false)
    by (unfold is_available; cbn [store on_rt w2 w1 w0]; rewrite Hp; closed).
  cbn [Contact.peerId Contact.hpkePublicKey Contact.contactId contact_of]. rewrite Eav. cbn [negb orb].
  unfold defer. cbn [Outbox.nextAttemptAt with_next queued_of]. unfold outboxUnavailableRetryDelayMs.
  rewrite !(Z.max_r t (now + 5000)) by lia. destruct (Z.eqb_spec (now + 5000) t); [lia |].
  replace (Z.max 0 (now + 5000 - now)) with 5000 by lia.
  change (with_next (now + 5000) (with_next t ?e)) with (with_next (now + 5000) e).
  set (w3 := queue _ _).
  assert (Es3 : store w3 = queueMessage (with_next (now + 5000) (queued_of (js "c1") (js "m1") 1)) (store w)) by reflexivity.
  assert (Ef : end_run (schedule 5000 w3) = on_stage st_idle (on_rt (set_timer (Some 5000) new_runtime) w3)) by reflexivity.
  rewrite Ef.
  constructor; cbn [store on_stage on_rt rt stage]; rewrite ?Es3; try done.
  unfold queueMessage. cbn [outbox request on_outbox]. rewrite Ho. reflexivity.
Qed.

(** Firing times that keep to the armed delays of five seconds. *)
Fixpoint on_schedule (t : Z) (ts : list Z) : Prop :=
  match ts with [] => True | now :: ts => t <= now < outboxMaximumAgeMs /\ on_schedule (now + 5000) ts end.

(** The first message is for a contact that is away: as long as nothing else
    changes, every run defers it, schedules the next run for the moment it is due
    again, and never looks at the message for the contact that is present. *)
Lemma absent_contact_starves_others ts t w :
  starving t w -> on_schedule t ts ->
  let w' := foldl (fun w now => fire w (ev_timer now all_peers d1)) w ts in
  stage w' = st_idle /\ queued_of (js "c2") (js "m2") 2 ∈ outbox (store w') /\ timer (rt w') = Some 5000.
Proof.
  revert t w. induction ts as [|now ts IH]; intros t w Hw; cbn [foldl on_schedule].
  - intros _. destruct Hw as [-> _ _ _ (_ & _ & _ & _ & ->) ->]. split; [done |]. split; [by left | done].
  - intros [Ht Hts]. apply (IH (now + 5000)); [by apply (starving_step t) | done].
Qed.

(** The first run leads there. *)
Example starving_from_start : starving 5010 (fire (sample_world false) (ev_timer 10 all_peers d1)).
Proof. constructor; closed || (split_and!; closed). Qed.
