(* ===== verification/Traces.v ===== *)
(** * Logs whose entries have causes

    A log is justified when what each entry needs is in the log before it. *)
From S2P Require Import Prelude.

Section Justified.
Context {E : Type} (cause : list E -> E -> Prop).

Fixpoint justified (before log : list E) : Prop :=
  match log with
  | [] => True
  | e :: log => cause before e /\ justified (before ++ [e]) log
  end.

Lemma justified_app before l k : justified before (l ++ k) <-> justified before l /\ justified (before ++ l) k.
Proof.
  revert before. induction l as [|e l IH]; intros before; cbn [app justified]; [rewrite app_nil_r; tauto |].
  rewrite IH, <- app_assoc. cbn [app]. tauto.
Qed.

Lemma justified_snoc l e : justified [] l -> cause l e -> justified [] (l ++ [e]).
Proof. intros Hl He. apply justified_app. by repeat split. Qed.

(** What is in a justified log comes after its cause. *)
Lemma justified_cause l k e : justified [] (l ++ e :: k) -> cause l e.
Proof. intros H. apply justified_app in H as [_ [H _]]. exact H. Qed.
End Justified.

Lemma sub_snoc {A} (l : list A) x : l ⊆ l ++ [x].
Proof. intros y Hy. apply elem_of_app. by left. Qed.

Lemma list_elem_of_delete {A} (l : list A) k x : x ∈ delete k l -> x ∈ l.
Proof. intros H. eapply elem_of_sublist; [exact H | apply sublist_delete]. Qed.
