(* ===== verification/RtcDirect.v ===== *)
(** * [pwa/src/connectivity/rtc-data-runtime.ts]: the data channel between two peers

    [RTCDirectSender] keeps the frames that wait for the peer's ADMIT, the
    registry keeps one sender per peer, and [RTCDataIngressRuntime] admits what
    arrives.  Senders are objects that the registry and the channel's listener
    share: they live in a heap and are named by their index.  What
    [fallbackToWSS] runs is a value of the type [callback]; an armed timer is
    the pending frame it belongs to and fires as an event of its own. *)
From S2P Require Import Prelude JsRuntime Collections Base64Url RtcData Admission.

Definition maxRTCDataInFlight : Z := 32.

Section Sender.
Context {callback : Type}.

Record RTCDirectPending := mkPending { pending_frame : RtcData; fallbackToWSS : callback }.

Record RTCDirectSender := mkSender {
  sender_session : jsstring;
  pending : list (jsstring * RTCDirectPending);
}.

(** What calls do to others, and what they answer about a frame. *)
Inductive Observation : Type :=
| Transmitted (b : bytes)
| Accepted (f : callback)
| Confirmed (f : callback)
| FellBack (f : callback) (frame : RtcData).

Implicit Types s : RTCDirectSender.

Definition with_pending (m : list (jsstring * RTCDirectPending)) s : RTCDirectSender := mkSender (sender_session s) m.

Definition pendingCount s : Z := zlen (pending s).

(** ** [RTCDirectSender] *)

Definition fallback (deliveryId : jsstring) s : list Observation * RTCDirectSender :=
  match map_get (pending s) deliveryId with
  | None => ([], s)
  | Some p => ([FellBack (fallbackToWSS p) (pending_frame p)], with_pending (map_delete (pending s) deliveryId) s)
  end.

(** [channel_ok]: [channel.send] does not throw. *)
Definition send (frame : RtcData) (f : callback) (channel_ok : bool) s : bool * list Observation * RTCDirectSender :=
  if negb (str_eqb (Data.rtcSessionId frame) (sender_session s)) || map_has (pending s) (Data.deliveryId frame)
     || (maxRTCDataInFlight <=? pendingCount s)
  then (false, [], s)
  else
    match encodeRtcData frame with
    | Throw _ => (false, [], s)
    | Ok b =>
        let s := with_pending (map_set (pending s) (Data.deliveryId frame) (mkPending frame f)) s in
        if channel_ok then (true, [Accepted f; Transmitted b], s)
        else let '(o, s) := fallback (Data.deliveryId frame) s in (true, Accepted f :: o, s)
    end.

Definition admit_frame_received (value : RtcAdmit) s : bool * list Observation * RTCDirectSender :=
  if negb (str_eqb (Admit.rtcSessionId value) (sender_session s)) then (false, [], s)
  else
    match map_get (pending s) (Admit.deliveryId value) with
    | None => (false, [], s)
    | Some p => (true, [Confirmed (fallbackToWSS p)], with_pending (map_delete (pending s) (Admit.deliveryId value)) s)
    end.

Fixpoint reset_keys (keys : list jsstring) s : list Observation * RTCDirectSender :=
  match keys with
  | [] => ([], s)
  | deliveryId :: keys =>
      let '(o, s) := fallback deliveryId s in
      let '(o', s) := reset_keys keys s in (o ++ o', s)
  end.

(** Every call of [fallback] runs up to its await before the next one. *)
Definition reset s : list Observation * RTCDirectSender := reset_keys (map_keys (pending s)) s.

(** ** The senders of the tab *)

Record LiveSender := mkLive { live_session : jsstring; live_expiresAt : Z; live_sender : nat }.

Record DirectState := mkDirect {
  senders : list RTCDirectSender;
  liveRTCDataSenders : list (jsstring * LiveSender);
}.

Implicit Types d : DirectState.

Definition no_senders : DirectState := mkDirect [] [].

Definition with_live m d : DirectState := mkDirect (senders d) m.

(** Calls a method of the sender [k]. *)
Definition at_sender (k : nat) (f : RTCDirectSender -> list Observation * RTCDirectSender) d
    : list Observation * DirectState :=
  match senders d !! k with
  | Some s => let '(o, s) := f s in (o, mkDirect (<[k := s]> (senders d)) (liveRTCDataSenders d))
  | None => ([], d)
  end.

Definition installLiveRTCDataSender (peerId rtcSessionId : jsstring) (expiresAt : Z) d : list Observation * DirectState :=
  let '(o, d) := match map_get (liveRTCDataSenders d) peerId with
                 | Some previous => at_sender (live_sender previous) reset d
                 | None => ([], d)
                 end in
  let entry := mkLive rtcSessionId expiresAt (length (senders d)) in
  (o, mkDirect (senders d ++ [mkSender rtcSessionId []]) (map_set (liveRTCDataSenders d) peerId entry)).

(** [{ ...frame, rtcSessionId }] *)
Definition with_session (rtcSessionId : jsstring) (frame : RtcData) : RtcData :=
  Data.mk (Data.kind frame) (Data.version frame) rtcSessionId (Data.originRouteId frame) (Data.pathEpoch frame)
    (Data.streamId frame) (Data.deliveryId frame) (Data.ackRequested frame) (Data.ciphertext frame).

Definition sendLiveRTCData (peerId : jsstring) (frame : RtcData) (f : callback) (now : Z) (channel_ok : bool) d
    : bool * list Observation * DirectState :=
  match map_get (liveRTCDataSenders d) peerId with
  | None => (false, [], d)
  | Some entry =>
      if live_expiresAt entry <=? now then
        let '(o, d) := at_sender (live_sender entry) reset (with_live (map_delete (liveRTCDataSenders d) peerId) d) in
        (false, o, d)
      else
        match senders d !! live_sender entry with
        | None => (false, [], d)
        | Some s =>
            let '(sent, o, s) := send (with_session (live_session entry) frame) f channel_ok s in
            (sent, o, mkDirect (<[live_sender entry := s]> (senders d)) (liveRTCDataSenders d))
        end
  end.

Fixpoint reset_live (entries : list (jsstring * LiveSender)) d : list Observation * DirectState :=
  match entries with
  | [] => ([], d)
  | (_, entry) :: entries =>
      let '(o, d) := at_sender (live_sender entry) reset d in
      let '(o', d) := reset_live entries d in (o ++ o', d)
  end.

Definition clearLiveRTCDataSenders d : list Observation * DirectState :=
  let '(o, d) := reset_live (liveRTCDataSenders d) d in (o, with_live [] d).

(** The calls from outside; [c_admit] is the listener [onAdmit] of the channel
    that the sender [k] was installed for, [c_timer] a timer of that sender. *)
Inductive direct_call : Type :=
| c_install (peerId rtcSessionId : jsstring) (expiresAt : Z)
| c_send (peerId : jsstring) (frame : RtcData) (f : callback) (now : Z) (channel_ok : bool)
| c_admit (k : nat) (value : RtcAdmit)
| c_timer (k : nat) (deliveryId : jsstring)
| c_clear.

Definition direct_step d (c : direct_call) : list Observation * DirectState :=
  match c with
  | c_install peerId rtcSessionId expiresAt => installLiveRTCDataSender peerId rtcSessionId expiresAt d
  | c_send peerId frame f now channel_ok =>
      let '(_, o, d) := sendLiveRTCData peerId frame f now channel_ok d in (o, d)
  | c_admit k value => at_sender k (fun s => let '(_, o, s) := admit_frame_received value s in (o, s)) d
  | c_timer k deliveryId => at_sender k (fallback deliveryId) d
  | c_clear => clearLiveRTCDataSenders d
  end.

Fixpoint direct_run d (cs : list direct_call) : list Observation * DirectState :=
  match cs with
  | [] => ([], d)
  | c :: cs =>
      let '(o, d) := direct_step d c in
      let '(o', d) := direct_run d cs in (o ++ o', d)
  end.
End Sender.

Arguments RTCDirectPending : clear implicits.
Arguments RTCDirectSender : clear implicits.
Arguments DirectState : clear implicits.
Arguments Observation : clear implicits.

(** ** Every frame has one outcome *)

Section Outcomes.
Context {callback : Type}.
Implicit Types (s : RTCDirectSender callback) (d : DirectState callback) (o : list (Observation callback)).

Definition accepted o : list callback := omap (fun e => match e with Accepted f => Some f | _ => None end) o.
Definition confirmed o : list callback := omap (fun e => match e with Confirmed f => Some f | _ => None end) o.
Definition fell_back o : list callback := omap (fun e => match e with FellBack f _ => Some f | _ => None end) o.

Definition waits s : list callback := (fun e => fallbackToWSS e.2) <$> pending s.
Definition waiting_frames d : list callback := mjoin (waits <$> senders d).

Definition balanced o (before after : list callback) : Prop :=
  accepted o ++ before ≡ₚ after ++ confirmed o ++ fell_back o.

Lemma balanced_nil l : balanced [] l l.
Proof. unfold balanced. cbn. by rewrite app_nil_r. Qed.

Lemma balanced_app o o' l l' l'' : balanced o l l' -> balanced o' l' l'' -> balanced (o ++ o') l l''.
Proof.
  unfold balanced, accepted, confirmed, fell_back. rewrite !omap_app.
  generalize (omap (fun e => match e with Accepted f => Some f | _ => None end) o) as A.
  generalize (omap (fun e => match e with Accepted f => Some f | _ => None end) o') as A'.
  generalize (omap (fun e => match e with Confirmed f => Some f | _ => None end) o) as C.
  generalize (omap (fun e => match e with Confirmed f => Some f | _ => None end) o') as C'.
  generalize (omap (fun e => match e with FellBack f _ => Some f | _ => None end) o) as F.
  generalize (omap (fun e => match e with FellBack f _ => Some f | _ => None end) o') as F'.
  intros F' F C' C A' A H1 H2. rewrite (Permutation_app_comm A), <- app_assoc, H1, app_assoc, H2, <- !app_assoc.
  apply Permutation_app_head. rewrite (Permutation_app_swap_app F' C F), (Permutation_app_swap_app C' C).
  by rewrite (Permutation_app_comm F' F).
Qed.

Lemma balanced_frame o l l' k : balanced o l l' -> balanced o (l ++ k) (l' ++ k).
Proof.
  unfold balanced. intros H. rewrite app_assoc, H, <- !app_assoc. apply Permutation_app_head.
  by rewrite app_assoc, Permutation_app_comm.
Qed.

Lemma balanced_perm o l1 l2 k1 k2 : l1 ≡ₚ k1 -> l2 ≡ₚ k2 -> balanced o l1 l2 -> balanced o k1 k2.
Proof. unfold balanced. by intros -> ->. Qed.

Definition pending_ok (session : jsstring) (e : jsstring * RTCDirectPending callback) : Prop :=
  Data.deliveryId (pending_frame e.2) = e.1 /\ Data.rtcSessionId (pending_frame e.2) = session
  /\ is_ok (encodeRtcData (pending_frame e.2)) = true.

Record sender_ok s : Prop := mkSenderOk {
  sok_wf : map_wf (pending s);
  sok_bound : pendingCount s <= maxRTCDataInFlight;
  sok_frames : Forall (pending_ok (sender_session s)) (pending s);
}.

Lemma delete_sender_ok k s : sender_ok s -> sender_ok (with_pending (map_delete (pending s) k) s).
Proof.
  intros [Hw Hb Hf]. constructor; [by apply map_delete_wf | |].
  - unfold pendingCount in *. cbn. pose proof (map_delete_size (pending s) k). lia.
  - cbn. eapply Forall_sublist; [apply map_delete_sublist | exact Hf].
Qed.

Lemma taken_balanced k p o s :
  sender_ok s -> map_get (pending s) k = Some p -> accepted o = [] -> confirmed o ++ fell_back o = [fallbackToWSS p] ->
  balanced o (waits s) (waits (with_pending (map_delete (pending s) k) s)).
Proof.
  intros [Hw _ _] Hg Ha Ho. unfold balanced, waits. rewrite Ha, Ho. cbn [app with_pending pending].
  rewrite (fmap_Permutation _ _ _ (map_delete_perm _ _ _ Hw Hg)). cbn. by rewrite Permutation_app_comm.
Qed.

Lemma fallback_spec k s : sender_ok s ->
  balanced (fallback k s).1 (waits s) (waits (fallback k s).2) /\ sender_ok (fallback k s).2
  /\ sender_session (fallback k s).2 = sender_session s.
Proof.
  intros Hs. unfold fallback. destruct (map_get (pending s) k) as [p|] eqn:E; cbn [fst snd].
  - split; [by apply (taken_balanced k p) |]. by split; [apply delete_sender_ok |].
  - split; [apply balanced_nil | done].
Qed.

Lemma fallback_get k s k' : map_get (pending (fallback k s).2) k' = if decide (k' = k) then None else map_get (pending s) k'.
Proof.
  unfold fallback. destruct (map_get (pending s) k) as [p|] eqn:E; cbn [snd with_pending pending]; destruct (decide (k' = k)) as [->|].
  - apply map_get_delete_eq.
  - by apply map_get_delete_ne.
  - done.
  - done.
Qed.

Lemma reset_keys_spec keys s : sender_ok s ->
  balanced (reset_keys keys s).1 (waits s) (waits (reset_keys keys s).2) /\ sender_ok (reset_keys keys s).2
  /\ sender_session (reset_keys keys s).2 = sender_session s
  /\ forall k, map_get (pending (reset_keys keys s).2) k = if decide (k ∈ keys) then None else map_get (pending s) k.
Proof.
  revert s. induction keys as [|k keys IH]; intros s Hs; cbn [reset_keys fst snd].
  - split_and!; [apply balanced_nil | done | done |]. intros k. rewrite decide_False by apply not_elem_of_nil. done.
  - destruct (fallback_spec k s Hs) as (Hb & Hok & He). pose proof (fallback_get k s) as Hg.
    destruct (fallback k s) as [o s1]. cbn [fst snd] in *. destruct (IH s1 Hok) as (Hb2 & Hok2 & He2 & Hg2).
    destruct (reset_keys keys s1) as [o2 s2]. cbn [fst snd] in *.
    split_and!; [by eapply balanced_app | done | congruence |]. intros k'. rewrite Hg2, Hg.
    destruct (decide (k' ∈ k :: keys)) as [Hin|Hni]; rewrite elem_of_cons in *.
    + destruct (decide (k' ∈ keys)); [done |]. rewrite decide_True; [done |]. destruct Hin; [done |]. done.
    + rewrite !decide_False by tauto. done.
Qed.

Lemma reset_spec s : sender_ok s ->
  balanced (reset s).1 (waits s) (waits (reset s).2) /\ sender_ok (reset s).2
  /\ sender_session (reset s).2 = sender_session s /\ pending (reset s).2 = [].
Proof.
  intros Hs. destruct (reset_keys_spec (map_keys (pending s)) s Hs) as (Hb & Hok & He & Hg).
  split_and!; [done | done | done |]. unfold reset. destruct (pending (reset_keys _ s).2) as [|[k p] m] eqn:E; [done |].
  specialize (Hg k). cbn [map_get] in Hg. rewrite decide_True in Hg by done. destruct (decide _) as [|Hn]; [done |].
  apply map_get_None in Hn. congruence.
Qed.

Lemma send_spec frame f channel_ok s : sender_ok s ->
  let '(sent, o, s') := send frame f channel_ok s in
  balanced o (waits s) (waits s') /\ sender_ok s' /\ sender_session s' = sender_session s
  /\ (if sent then accepted o = [f] else o = [] /\ s' = s).
Proof.
  intros Hs. unfold send. destruct (negb _ || _ || _) eqn:Eg.
  { split_and!; [apply balanced_nil | done | done | done | done]. }
  bool_props. destruct (encodeRtcData frame) as [b|] eqn:Ee.
  2: { split_and!; [apply balanced_nil | done | done | done | done]. }
  set (s1 := with_pending (map_set (pending s) (Data.deliveryId frame) (mkPending frame f)) s).
  assert (Hnew : Data.deliveryId frame ∉ map_keys (pending s)) by (by apply map_has_false).
  assert (E1 : pending s1 = pending s ++ [(Data.deliveryId frame, mkPending frame f)]) by (by apply map_set_fresh).
  assert (Hb1 : balanced [Accepted f; Transmitted b] (waits s) (waits s1)).
  { unfold balanced, waits. rewrite E1, fmap_app. cbn. rewrite app_nil_r. by rewrite (Permutation_app_comm _ [f]). }
  assert (Hs1 : sender_ok s1).
  { destruct Hs as [Hw Hb Hf]. constructor; [by apply map_set_wf | |].
    - unfold pendingCount. rewrite E1, zlen_app, zlen_cons, zlen_nil. unfold pendingCount in *. lia.
    - rewrite E1. apply Forall_app. split; [exact Hf |]. apply Forall_singleton. split; [done |]. cbn [pending_frame fst snd].
      split; [|by rewrite Ee]. by apply str_eqb_true. }
  destruct channel_ok; [by split_and! |].
  destruct (fallback_spec (Data.deliveryId frame) s1 Hs1) as (Hb2 & Hs2 & E2).
  destruct (fallback (Data.deliveryId frame) s1) as [o s2] eqn:Ef. cbn [fst snd] in *.
  pose proof (balanced_app [Accepted f] o _ _ _ Hb1 Hb2) as Hb3.
  split_and!; [exact Hb3 | done | done |]. unfold fallback in Ef. case_match; by injection Ef as <- _.
Qed.

Lemma admit_spec value s : sender_ok s ->
  let '(confirmed, o, s') := admit_frame_received value s in
  balanced o (waits s) (waits s') /\ sender_ok s' /\ sender_session s' = sender_session s.
Proof.
  intros Hs. unfold admit_frame_received. destruct (negb _); [by split_and!; [apply balanced_nil | |] |].
  destruct (map_get (pending s) (Admit.deliveryId value)) as [p|] eqn:E; [|by split_and!; [apply balanced_nil | |]].
  split; [by apply (taken_balanced (Admit.deliveryId value) p) |]. by split; [apply delete_sender_ok |].
Qed.

Definition only_fallbacks o : Prop := Forall (fun e => match e with FellBack _ _ => True | _ => False end) o.

Lemma only_fallbacks_silent o : only_fallbacks o -> accepted o = [] /\ confirmed o = [].
Proof. induction 1 as [|[b|f|f|f frame] o He Ho [IH1 IH2]]; done. Qed.

Lemma reset_keys_falls keys s : only_fallbacks (reset_keys keys s).1.
Proof.
  revert s. induction keys as [|k keys IH]; intros s; cbn [reset_keys]; [by apply Forall_nil_2 |].
  unfold fallback. destruct (map_get (pending s) k) as [p|];
    match goal with |- context [reset_keys keys ?x] => specialize (IH x); destruct (reset_keys keys x) as [o' s'] end;
    cbn [fst app] in *; [by apply Forall_cons | done].
Qed.

Lemma at_reset_falls k d : only_fallbacks (at_sender k reset d).1.
Proof.
  unfold at_sender. destruct (senders d !! k) as [s|]; [|by apply Forall_nil_2].
  pose proof (reset_keys_falls (map_keys (pending s)) s) as H. unfold reset. by destruct (reset_keys _ s).
Qed.

Lemma reset_live_falls entries d : only_fallbacks (reset_live entries d).1.
Proof.
  revert d. induction entries as [|[p e] entries IH]; intros d; cbn [reset_live]; [by apply Forall_nil_2 |].
  pose proof (at_reset_falls (live_sender e) d) as H. destruct (at_sender (live_sender e) reset d) as [o d1].
  specialize (IH d1). destruct (reset_live entries d1) as [o' d2]. by apply Forall_app.
Qed.

(** A method that keeps a sender in order. *)
Definition good_method (f : RTCDirectSender callback -> list (Observation callback) * RTCDirectSender callback) : Prop :=
  forall s, sender_ok s ->
    balanced (f s).1 (waits s) (waits (f s).2) /\ sender_ok (f s).2 /\ sender_session (f s).2 = sender_session s.

Lemma insert_waiting l k s s' o :
  l !! k = Some s -> balanced o (waits s) (waits s') ->
  balanced o (mjoin (waits <$> l)) (mjoin (waits <$> <[k := s']> l)).
Proof.
  intros Hk Hb. pose proof (lookup_lt_Some _ _ _ Hk) as Hlt.
  rewrite <- (take_drop_middle l k s Hk) at 1. rewrite (insert_take_drop l k s' Hlt).
  rewrite !fmap_app, !join_app. cbn [fmap list_fmap mjoin list_join].
  set (a := mjoin (waits <$> take k l)). set (c := mjoin (waits <$> drop (S k) l)).
  change (balanced o (a ++ waits s ++ c) (a ++ waits s' ++ c)).
  apply (balanced_perm o (waits s ++ c ++ a) (waits s' ++ c ++ a)); [| |by apply balanced_frame];
    by rewrite (Permutation_app_comm a), app_assoc.
Qed.

(** The senders are in order, and every one that waits for an answer is the
    sender of exactly one peer. *)
Record direct_ok d : Prop := mkDirectOk {
  dok_senders : Forall sender_ok (senders d);
  dok_live : map_wf (liveRTCDataSenders d);
  dok_entries : Forall (fun e => exists s, senders d !! live_sender e.2 = Some s /\ sender_session s = live_session e.2)
                       (liveRTCDataSenders d);
  dok_distinct : NoDup ((fun e => live_sender e.2) <$> liveRTCDataSenders d);
  dok_waiting : forall k s, senders d !! k = Some s -> pending s <> [] ->
    k ∈ (fun e => live_sender e.2) <$> liveRTCDataSenders d;
}.

Lemma at_sender_spec k f d : good_method f -> direct_ok d ->
  (forall s, pending s = [] -> pending (f s).2 = []) ->
  direct_ok (at_sender k f d).2 /\ balanced (at_sender k f d).1 (waiting_frames d) (waiting_frames (at_sender k f d).2)
  /\ liveRTCDataSenders (at_sender k f d).2 = liveRTCDataSenders d.
Proof.
  intros Hf [Hs Hl He Hd Hw] Hempty. unfold at_sender. destruct (senders d !! k) as [s|] eqn:Hk.
  2: { split_and!; [by constructor | apply balanced_nil | done]. }
  destruct (Hf s) as (Hb & Hok & Ess); [by apply (Forall_lookup_1 _ _ _ _ Hs Hk) |].
  specialize (Hempty s). destruct (f s) as [o s']. cbn [fst snd] in *. pose proof (lookup_lt_Some _ _ _ Hk) as Hlt.
  split_and!; [|by apply (insert_waiting _ _ s) | done]. constructor; cbn [senders liveRTCDataSenders]; try done.
  - by apply Forall_insert.
  - eapply Forall_impl; [exact He |]. intros [p e] (s0 & H0 & E0). cbn [snd] in *.
    destruct (decide (live_sender e = k)) as [E|Hne].
    + rewrite E in *. exists s'. rewrite list_lookup_insert_eq by done. assert (s0 = s) as -> by congruence. by rewrite Ess, E0.
    + exists s0. by rewrite list_lookup_insert_ne.
  - intros k' s0. destruct (decide (k' = k)) as [->|Hne].
    + rewrite list_lookup_insert_eq by done. intros [= <-] Hp. apply (Hw k s Hk). intros E. by apply Hp, Hempty.
    + rewrite list_lookup_insert_ne by done. apply Hw.
Qed.

Definition idle_sender d (k : nat) : Prop := forall s, senders d !! k = Some s -> pending s = [].

Lemma reset_keeps_empty s : pending s = [] -> pending (reset s).2 = [].
Proof. intros E. unfold reset. by rewrite E. Qed.

Lemma good_reset : good_method reset.
Proof. intros s Hs. by destruct (reset_spec s Hs) as (? & ? & ? & _). Qed.

Lemma at_reset_idle k d : direct_ok d ->
  idle_sender (at_sender k reset d).2 k /\ forall k', idle_sender d k' -> idle_sender (at_sender k reset d).2 k'.
Proof.
  intros Hd. assert (Hk0 : idle_sender (at_sender k reset d).2 k).
  { intros s'. unfold at_sender. destruct (senders d !! k) as [s|] eqn:Hk; [|cbn [snd]; congruence].
    destruct (reset_spec s) as (_ & _ & _ & He); [by apply (Forall_lookup_1 _ _ _ _ (dok_senders d Hd) Hk) |].
    destruct (reset s) as [o s1]. cbn [snd senders] in *. rewrite list_lookup_insert_eq by (by eapply lookup_lt_Some).
    by intros [= <-]. }
  split; [done |]. intros k' Hk'. destruct (decide (k' = k)) as [->|Hne]; [done |]. intros s'.
  unfold at_sender. destruct (senders d !! k) as [s|] eqn:Hk; [|apply Hk'].
  destruct (reset s) as [o s1]. cbn [snd senders]. rewrite list_lookup_insert_ne by done. apply Hk'.
Qed.

Lemma at_sender_with_live k f m d :
  at_sender k f (with_live m d) = ((at_sender k f d).1, with_live m (at_sender k f d).2).
Proof. unfold at_sender. cbn [with_live senders]. destruct (senders d !! k) as [s|]; [|done]. by destruct (f s). Qed.

Lemma live_sublist m d :
  m `sublist_of` liveRTCDataSenders d -> direct_ok d ->
  (forall k e, e ∈ liveRTCDataSenders d -> live_sender e.2 = k -> e ∈ m \/ idle_sender d k) ->
  direct_ok (with_live m d).
Proof.
  intros Hsub [Hs Hl He Hd Hw] Hm. constructor; cbn [senders liveRTCDataSenders with_live]; [done | | | |].
  - unfold map_wf, map_keys in *. eapply sublist_NoDup; [exact Hl | by apply fmap_sublist].
  - by eapply Forall_sublist.
  - eapply sublist_NoDup; [exact Hd | by apply fmap_sublist].
  - intros k s Hk Hp. specialize (Hw k s Hk Hp). apply list_elem_of_fmap in Hw as (e & Ek & Hin).
    destruct (Hm k e Hin) as [H|H]; [done | | by destruct Hp; apply (H s Hk)]. apply list_elem_of_fmap. by exists e.
Qed.

(** A sender that is out of use leaves the registry. *)
Lemma live_delete_ok peerId entry d : direct_ok d ->
  map_get (liveRTCDataSenders d) peerId = Some entry -> idle_sender d (live_sender entry) ->
  direct_ok (with_live (map_delete (liveRTCDataSenders d) peerId) d).
Proof.
  intros Hd Hg Hi. apply live_sublist; [apply map_delete_sublist | done |]. intros k [p e] Hin Ek. cbn [snd] in Ek.
  destruct (decide (p = peerId)) as [->|Hne].
  - right. rewrite (elem_map_get _ _ _ (dok_live d Hd) Hin) in Hg. by injection Hg as ->; subst.
  - left. by apply elem_of_map_delete.
Qed.

(** A new sender enters the registry. *)
Lemma live_insert_ok peerId session expiresAt d : direct_ok d ->
  map_get (liveRTCDataSenders d) peerId = None ->
  let d' := mkDirect (senders d ++ [mkSender session []])
              (map_set (liveRTCDataSenders d) peerId (mkLive session expiresAt (length (senders d)))) in
  direct_ok d' /\ waiting_frames d' = waiting_frames d.
Proof.
  intros [Hs Hl He Hd Hw] Hnew d'. pose proof (map_set_perm (liveRTCDataSenders d) peerId
    (mkLive session expiresAt (length (senders d))) Hl) as Hp. rewrite (map_delete_absent _ _ Hnew) in Hp.
  split. 2: { unfold waiting_frames, d'. cbn [senders]. rewrite fmap_app, join_app. cbn. by rewrite !app_nil_r. }
  assert (Hlt : Forall (fun e : jsstring * LiveSender => (live_sender e.2 < length (senders d))%nat) (liveRTCDataSenders d)).
  { eapply Forall_impl; [exact He |]. intros e (s & Hk & _). by eapply lookup_lt_Some. }
  constructor; cbn [d' senders liveRTCDataSenders].
  - apply Forall_app. split; [done |]. apply Forall_singleton. constructor; [apply NoDup_nil_2 | | apply Forall_nil_2].
    unfold pendingCount. cbn. by rewrite zlen_nil.
  - by apply map_set_wf.
  - rewrite Hp. apply Forall_cons. split.
    + exists (mkSender session []). cbn. by rewrite lookup_app_r, Nat.sub_diag by done.
    + eapply Forall_impl; [exact He |]. intros e (s & Hk & E). exists s. split; [|done].
      by rewrite lookup_app_l by (by eapply lookup_lt_Some).
  - rewrite Hp. cbn. apply NoDup_cons. split; [|done]. intros Hin. apply list_elem_of_fmap in Hin as (e & E & Hin).
    rewrite Forall_forall in Hlt. specialize (Hlt e Hin). lia.
  - intros k s Hk Hpend. rewrite Hp. cbn. destruct (decide (k < length (senders d))%nat) as [Hl2|Hge].
    + right. apply (Hw k s); [|done]. by rewrite lookup_app_l in Hk.
    + rewrite lookup_app_r in Hk by lia. destruct (k - length (senders d))%nat as [|n]; [|done]. by injection Hk as <-.
Qed.

Lemma live_perm_ok m d : m ≡ₚ liveRTCDataSenders d -> direct_ok d -> direct_ok (with_live m d).
Proof.
  intros Hp [Hs Hl He Hd Hw]. constructor; cbn [senders liveRTCDataSenders with_live]; unfold map_wf, map_keys in *; [done | | | |].
  - by rewrite Hp.
  - by rewrite Hp.
  - by rewrite Hp.
  - intros k s Hk Hne. rewrite Hp. by apply (Hw k s).
Qed.

Lemma install_spec peerId session expiresAt d : direct_ok d ->
  let r := installLiveRTCDataSender peerId session expiresAt d in
  direct_ok r.2 /\ balanced r.1 (waiting_frames d) (waiting_frames r.2).
Proof.
  intros Hd. unfold installLiveRTCDataSender. destruct (map_get (liveRTCDataSenders d) peerId) as [previous|] eqn:Hg.
  - destruct (at_sender_spec (live_sender previous) reset d good_reset Hd reset_keeps_empty) as (Hd1 & Hb1 & El).
    destruct (at_reset_idle (live_sender previous) d Hd) as [Hi _].
    destruct (at_sender (live_sender previous) reset d) as [o d1]. cbn [fst snd] in *. rewrite <- El in Hg.
    destruct (live_insert_ok peerId session expiresAt (with_live (map_delete (liveRTCDataSenders d1) peerId) d1)) as [Hok Ew].
    { by apply (live_delete_ok peerId previous). }
    { apply map_get_delete_eq. }
    cbn [with_live senders liveRTCDataSenders] in Hok, Ew. split.
    + eapply live_perm_ok in Hok; [exact Hok |]. cbn [liveRTCDataSenders].
      rewrite (map_set_perm (liveRTCDataSenders d1)) by apply (dok_live d1 Hd1).
      rewrite map_set_fresh by (apply map_get_None, map_get_delete_eq). by rewrite Permutation_app_comm.
    + unfold waiting_frames in *. cbn [senders] in Ew |- *. by rewrite Ew.
  - destruct (live_insert_ok peerId session expiresAt d Hd Hg) as [Hok Ew]. cbn [fst snd]. split; [done |].
    rewrite Ew. apply balanced_nil.
Qed.

Lemma live_sender_of peerId entry d : direct_ok d -> map_get (liveRTCDataSenders d) peerId = Some entry ->
  exists s, senders d !! live_sender entry = Some s /\ sender_session s = live_session entry.
Proof.
  intros Hd Hg. apply map_get_Some_elem in Hg. pose proof (dok_entries d Hd) as He. rewrite Forall_forall in He. exact (He _ Hg).
Qed.

Lemma sendLive_spec peerId frame f now channel_ok d : direct_ok d ->
  let '(sent, o, d') := sendLiveRTCData peerId frame f now channel_ok d in
  direct_ok d' /\ balanced o (waiting_frames d) (waiting_frames d')
  /\ accepted o = (if sent then [f] else []).
Proof.
  intros Hd. unfold sendLiveRTCData. destruct (map_get (liveRTCDataSenders d) peerId) as [entry|] eqn:Hg;
    [|by split_and!; [|apply balanced_nil |]]. destruct (live_expiresAt entry <=? now) eqn:Ex.
  - rewrite at_sender_with_live.
    destruct (at_sender_spec (live_sender entry) reset d good_reset Hd reset_keeps_empty) as (Hd1 & Hb1 & El).
    destruct (at_reset_idle (live_sender entry) d Hd) as [Hi _].
    destruct (only_fallbacks_silent _ (at_reset_falls (live_sender entry) d)) as [Ha _].
    destruct (at_sender (live_sender entry) reset d) as [o d1]. cbn [fst snd] in *. rewrite <- El in *.
    split_and!; [by apply (live_delete_ok peerId entry) | done | done].
  - destruct (live_sender_of peerId entry d Hd Hg) as (s & Hk & Es). rewrite Hk.
    pose proof (send_spec (with_session (live_session entry) frame) f channel_ok s) as Hsend.
    destruct (send _ f channel_ok s) as [[sent o] s'] eqn:Esend.
    destruct Hsend as (Hb & Hok & Ess & Hans); [by apply (Forall_lookup_1 _ _ _ _ (dok_senders d Hd) Hk) |].
    pose proof (lookup_lt_Some _ _ _ Hk) as Hlt. destruct Hd as [Hs Hl He Hd2 Hw].
    split_and!; [| by apply (insert_waiting _ _ s) | by destruct sent; [|destruct Hans as [-> _]]].
    constructor; cbn [senders liveRTCDataSenders]; try done; [by apply Forall_insert | |].
    + eapply Forall_impl; [exact He |]. intros [p e] (s0 & H0 & E0). cbn [snd] in *.
      destruct (decide (live_sender e = live_sender entry)) as [E|Hne].
      * rewrite E in *. exists s'. rewrite list_lookup_insert_eq by done. assert (s0 = s) as -> by congruence. by rewrite Ess, E0.
      * exists s0. by rewrite list_lookup_insert_ne.
    + intros k s0. destruct (decide (k = live_sender entry)) as [->|Hne].
      * intros _ _. apply map_get_Some_elem in Hg. apply list_elem_of_fmap. by exists (peerId, entry).
      * rewrite list_lookup_insert_ne by done. apply Hw.
Qed.

Lemma reset_live_spec entries d : direct_ok d ->
  let r := reset_live entries d in
  direct_ok r.2 /\ balanced r.1 (waiting_frames d) (waiting_frames r.2)
  /\ liveRTCDataSenders r.2 = liveRTCDataSenders d
  /\ (forall k, idle_sender d k \/ k ∈ (fun e => live_sender e.2) <$> entries -> idle_sender r.2 k).
Proof.
  revert d. induction entries as [|[p e] entries IH]; intros d Hd; cbn [reset_live].
  { split_and!; [done | apply balanced_nil | done |]. intros k [H|H]; [done | by apply elem_of_nil in H]. }
  destruct (at_sender_spec (live_sender e) reset d good_reset Hd reset_keeps_empty) as (Hd1 & Hb1 & El).
  destruct (at_reset_idle (live_sender e) d Hd) as [Hi1 Hi2].
  destruct (at_sender (live_sender e) reset d) as [o d1]. cbn [fst snd] in *.
  destruct (IH d1 Hd1) as (Hd2 & Hb2 & El2 & Hi). destruct (reset_live entries d1) as [o2 d2]. cbn [fst snd] in *.
  split_and!; [done | by eapply balanced_app | congruence |]. intros k Hk. apply Hi.
  cbn [fmap list_fmap] in Hk. rewrite elem_of_cons in Hk. destruct Hk as [Hk|[->|Hk]]; [left; by apply Hi2 | by left | by right].
Qed.

Lemma clear_spec d : direct_ok d ->
  let r := clearLiveRTCDataSenders d in
  direct_ok r.2 /\ balanced r.1 (waiting_frames d) (waiting_frames r.2) /\ waiting_frames r.2 = []
  /\ accepted r.1 = [] /\ confirmed r.1 = [].
Proof.
  intros Hd. pose proof (only_fallbacks_silent _ (reset_live_falls (liveRTCDataSenders d) d)) as Hfalls. revert Hfalls.
  unfold clearLiveRTCDataSenders.
  destruct (reset_live_spec (liveRTCDataSenders d) d Hd) as (Hd1 & Hb1 & El & Hi).
  destruct (reset_live (liveRTCDataSenders d) d) as [o d1]. cbn [fst snd] in *. intros [Ea Ec].
  assert (Hidle : forall k, idle_sender d1 k).
  { intros k s Hk. destruct (pending s) as [|e m] eqn:E; [done |]. rewrite <- E.
    assert (Hin : k ∈ (fun e => live_sender e.2) <$> liveRTCDataSenders d1) by (apply (dok_waiting d1 Hd1 k s Hk); congruence).
    rewrite El in Hin. by apply (Hi k (or_intror Hin)). }
  split_and!; [| done | | done | done].
  - apply live_sublist; [apply sublist_nil_l | done |]. intros k e _ _. right. apply Hidle.
  - unfold waiting_frames. cbn [senders with_live]. clear -Hidle. unfold idle_sender in Hidle. induction (senders d1) as [|s l IH]; [done |].
    cbn. unfold waits at 1. rewrite (Hidle 0%nat s eq_refl). cbn. apply IH. intros k. apply (Hidle (S k)).
Qed.

Lemma direct_step_spec d c : direct_ok d ->
  direct_ok (direct_step d c).2 /\ balanced (direct_step d c).1 (waiting_frames d) (waiting_frames (direct_step d c).2).
Proof.
  intros Hd. destruct c as [p session ex|p frame f now ok|k value|k deliveryId|]; cbn [direct_step].
  - by apply install_spec.
  - pose proof (sendLive_spec p frame f now ok d Hd) as H. destruct (sendLiveRTCData _ _ _ _ _ _) as [[sent o] d'].
    by destruct H as (? & ? & _).
  - destruct (at_sender_spec k (fun s => let '(_, o, s) := admit_frame_received value s in (o, s)) d) as (H1 & H2 & _); [|done | |done].
    + intros s Hs. pose proof (admit_spec value s Hs) as H. by destruct (admit_frame_received value s) as [[c o] s'].
    + intros s E. unfold admit_frame_received. rewrite E. destruct (negb _); exact E.
  - destruct (at_sender_spec k (fallback deliveryId) d) as (H1 & H2 & _); [|done | |done].
    + intros s Hs. by apply fallback_spec.
    + intros s E. unfold fallback. rewrite E. cbn. by rewrite E.
  - by destruct (clear_spec d Hd) as (? & ? & _).
Qed.

Lemma direct_run_spec cs d : direct_ok d ->
  direct_ok (direct_run d cs).2 /\ balanced (direct_run d cs).1 (waiting_frames d) (waiting_frames (direct_run d cs).2).
Proof.
  revert d. induction cs as [|c cs IH]; intros d Hd; cbn [direct_run]; [split; [done | apply balanced_nil] |].
  destruct (direct_step_spec d c Hd) as [H1 H2]. destruct (direct_step d c) as [o d1]. cbn [fst snd] in *.
  destruct (IH d1 H1) as [H3 H4]. destruct (direct_run d1 cs) as [o2 d2]. cbn [fst snd] in *.
  split; [done | by eapply balanced_app].
Qed.

Lemma no_senders_ok : direct_ok no_senders.
Proof. constructor; cbn; [apply Forall_nil_2 | apply NoDup_nil_2 | apply Forall_nil_2 | apply NoDup_nil_2 | done]. Qed.

(** C13: whatever is sent, confirmed, timed out, replaced, expired or cleared, in
    any order: every frame the data channel took over is still waiting in the
    sender of its peer, or its ADMIT has come, or its one fallback to the relay
    has run, and exactly one of the three.  A frame that was not taken over
    (the answer is false) is left to the caller.  Clearing the senders lets all
    that waits fall back, and a sender never has more than 32 frames waiting,
    each under its delivery id and for its own session; only the sender registered
    for a peer has any. *)
Theorem direct_frame_outcomes (cs : list (direct_call (callback := callback))) :
  let '(o, d) := direct_run no_senders cs in
  accepted o ≡ₚ waiting_frames d ++ confirmed o ++ fell_back o
  /\ direct_ok d
  /\ (let '(o', d') := clearLiveRTCDataSenders d in waiting_frames d' = [] /\ fell_back o' ≡ₚ waiting_frames d)
  /\ (forall peerId frame f now channel_ok,
        let '(sent, o', _) := sendLiveRTCData peerId frame f now channel_ok d in accepted o' = if sent then [f] else []).
Proof.
  destruct (direct_run_spec cs no_senders no_senders_ok) as [Hd Hb]. destruct (direct_run no_senders cs) as [o d].
  cbn [fst snd] in *. unfold balanced in Hb. rewrite app_nil_r in Hb. split_and!.
  - exact Hb.
  - exact Hd.
  - destruct (clear_spec d Hd) as (_ & Hc & Ew & Ea & Ec). destruct (clearLiveRTCDataSenders d) as [o' d']. cbn [fst snd] in *.
    unfold balanced in Hc. rewrite Ew, Ea, Ec in Hc. by split.
  - intros peerId frame f now channel_ok. pose proof (sendLive_spec peerId frame f now channel_ok d Hd) as H.
    destruct (sendLiveRTCData _ _ _ _ _ _) as [[sent o'] d']. apply H.
Qed.
End Outcomes.
