(* ===== verification/RtcIngress.v ===== *)
(** * [RTCDataIngressRuntime] of [pwa/src/connectivity/rtc-data-runtime.ts]

    What arrives on one data channel.  [receive] is cut at its awaits: the
    decryption, the digest of the ledger and the dispatch settle as events of
    their own, in any order.  Decryption and dispatch are answers of those
    events.  The calls that await the ledger are in the order of
    [awaitedReservations]. *)
From S2P Require Import Prelude JsRuntime Collections Base64Url RtcData Admission Traces.

Definition fixedPathEpoch : Z := 0.
Definition fixedStreamId : Z := 0.
Definition fixedAckRequested : bool := true.

Inductive RTCDataIngressOutcome : Type :=
| i_admitted | i_duplicate | i_pending | i_conflict | i_rejected | i_admit.

(** How a call of [receive] ended, by its number. *)
Inductive Ended : Type := Returned (outcome : RTCDataIngressOutcome) | Failed.

Record RTCDataIngressOptions := mkOptions {
  localPeerId : jsstring;
  remotePeerId : jsstring;
  ingress_session : jsstring;
  expiresAt : Z;
}.

Record Opened := mkOpened { opened_frame : RtcData; opened_plaintext : bytes }.

Record IngressState := mkIngress {
  ledger : RTCAdmissionLedger;
  opening : list (RtcData * Z);
  reserving : list Opened;
  dispatching : list RtcData;
}.

Inductive IngressEffect : Type :=
| OnAdmit (deliveryId : jsstring)
| Decrypt (frame : RtcData)
| Dispatched (frame : RtcData) (plaintext : bytes)
| DispatchDone (deliveryId : jsstring) (accepted : bool)
| AdmitSent (deliveryId : jsstring)
| End (how : Ended).

Implicit Types s : IngressState.

Definition new_ingress : IngressState := mkIngress (mkLedger [] maxRTCAdmissionEntries []) [] [] [].

Definition on_ledger l s : IngressState := mkIngress l (opening s) (reserving s) (dispatching s).
Definition on_opening o s : IngressState := mkIngress (ledger s) o (reserving s) (dispatching s).
Definition on_reserving r s : IngressState := mkIngress (ledger s) (opening s) r (dispatching s).
Definition on_dispatching l s : IngressState := mkIngress (ledger s) (opening s) (reserving s) l.

Section Ingress.
Variable options : RTCDataIngressOptions.
(** The digest of a ciphertext as text: WebCrypto, outside the sources. *)
Variable sha256 : bytes -> jsstring.

Definition sendAdmit (deliveryId : jsstring) (channel_ok : bool) (outcome : RTCDataIngressOutcome) : list IngressEffect :=
  match encodeRtcAdmit (Admit.mk (js "admit") rtcDataVersion (ingress_session options) deliveryId) with
  | Ok _ => if channel_ok then [AdmitSent deliveryId; End (Returned outcome)] else [End (Returned i_rejected)]
  | Throw _ => [End (Returned i_rejected)]
  end.

(** [receive] up to the decryption.  [raw] is the frame when it is binary,
    [keys]: the local keys are loaded. *)
Definition receive (raw : option bytes) (now : Z) (keys : bool) s : list IngressEffect * IngressState :=
  if expiresAt options <=? now then ([End (Returned i_rejected)], on_ledger (reset_ledger (ledger s)) s)
  else
    match raw with
    | None => ([End (Returned i_rejected)], s)
    | Some b =>
        match decodeRtcDataFrame b with
        | Throw _ => ([End (Returned i_rejected)], s)
        | Ok (admit_frame frame) =>
            if negb (str_eqb (Admit.rtcSessionId frame) (ingress_session options)) then ([End (Returned i_rejected)], s)
            else ([OnAdmit (Admit.deliveryId frame); End (Returned i_admit)], s)
        | Ok (data_frame frame) =>
            if negb (str_eqb (Data.rtcSessionId frame) (ingress_session options)) then ([End (Returned i_rejected)], s)
            else if negb (Data.pathEpoch frame =? fixedPathEpoch) || negb (Data.streamId frame =? fixedStreamId)
                    || negb (Bool.eqb (Data.ackRequested frame) fixedAckRequested)
            then ([End (Returned i_rejected)], s)
            else if negb keys then ([End (Returned i_rejected)], s)
            else ([Decrypt frame], on_opening (opening s ++ [(frame, now)]) s)
        end
    end.

(** The [k]-th decryption settles; [reserve] runs up to its digest. *)
Definition opened (k : nat) (plaintext : option bytes) s : list IngressEffect * IngressState :=
  match opening s !! k with
  | None => ([], s)
  | Some (frame, now) =>
      let s := on_opening (delete k (opening s)) s in
      match plaintext with
      | None => ([End (Returned i_rejected)], s)
      | Some plaintext =>
          match decodeBase64URL (Data.ciphertext frame) with
          | Throw _ => ([End Failed], s)
          | Ok ciphertext =>
              let '(started, l) := start_reservation (ledger s)
                (mkReservation (remotePeerId options) (Int (Data.streamId frame)) (Data.deliveryId frame) ciphertext
                   (Int (expiresAt options)) now) in
              let s := on_ledger l s in
              match started with
              | Throw _ => ([End Failed], s)
              | Ok _ => ([], on_reserving (reserving s ++ [mkOpened frame plaintext]) s)
              end
          end
      end
  end.

(** The [k]-th digest settles. *)
Definition digest_done (k : nat) (channel_ok : bool) s : list IngressEffect * IngressState :=
  match reserving s !! k with
  | None => ([], s)
  | Some (mkOpened frame plaintext) =>
      let '(reservation, l) := settle sha256 (ledger s) k in
      let s := on_ledger l (on_reserving (delete k (reserving s)) s) in
      match reservation with
      | Some a_conflict => ([End (Returned i_conflict)], s)
      | Some a_duplicate_pending => ([End (Returned i_pending)], s)
      | Some a_duplicate_admitted => (sendAdmit (Data.deliveryId frame) channel_ok i_duplicate, s)
      | Some a_first => ([Dispatched frame plaintext], on_dispatching (dispatching s ++ [frame]) s)
      | None => ([], s)
      end
  end.

Definition digest_failed (k : nat) s : list IngressEffect * IngressState :=
  match reserving s !! k with
  | None => ([], s)
  | Some _ => ([End Failed], on_ledger (set_awaited (ledger s) (delete k (awaitedReservations (ledger s))))
                                       (on_reserving (delete k (reserving s)) s))
  end.

(** The [k]-th dispatch settles: [accepted] is its answer, false when it threw. *)
Definition dispatch_done (k : nat) (accepted : bool) (now : Z) (channel_ok : bool) s : list IngressEffect * IngressState :=
  match dispatching s !! k with
  | None => ([], s)
  | Some frame =>
      let s := on_dispatching (delete k (dispatching s)) s in
      let done := DispatchDone (Data.deliveryId frame) accepted in
      if negb accepted then ([done; End (Returned i_rejected)], s)
      else
        let '(admitted, l) := admit_delivery (ledger s) (remotePeerId options) (Data.streamId frame) (Data.deliveryId frame) now in
        let s := on_ledger l s in
        match admitted with
        | Throw _ => ([done; End Failed], s)
        | Ok false => ([done; End (Returned i_rejected)], s)
        | Ok true => (done :: sendAdmit (Data.deliveryId frame) channel_ok i_admitted, s)
        end
  end.

Inductive ingress_event : Type :=
| e_receive (raw : option bytes) (now : Z) (keys : bool)
| e_opened (k : nat) (plaintext : option bytes)
| e_digest (k : nat) (channel_ok : bool)
| e_digest_failed (k : nat)
| e_dispatch (k : nat) (accepted : bool) (now : Z) (channel_ok : bool)
| e_reset.

Definition ingress_step s (e : ingress_event) : list IngressEffect * IngressState :=
  match e with
  | e_receive raw now keys => receive raw now keys s
  | e_opened k plaintext => opened k plaintext s
  | e_digest k channel_ok => digest_done k channel_ok s
  | e_digest_failed k => digest_failed k s
  | e_dispatch k accepted now channel_ok => dispatch_done k accepted now channel_ok s
  | e_reset => ([], on_ledger (reset_ledger (ledger s)) s)
  end.

(** The log of a run and its last state. *)
Definition ingress_run (events : list ingress_event) : list IngressEffect * IngressState :=
  foldl (fun r e => let '(o, s) := ingress_step r.2 e in (r.1 ++ o, s)) ([], new_ingress) events.

(** ** An ADMIT is only sent for what was dispatched *)

(** The frames of this channel that [receive] lets through. *)
Definition channel_frame (f : RtcData) : Prop :=
  Data.rtcSessionId f = ingress_session options /\ Data.pathEpoch f = fixedPathEpoch /\ Data.streamId f = fixedStreamId
  /\ Data.ackRequested f = fixedAckRequested /\ exists b, decodeRtcDataFrame b = Ok (data_frame f).

(** What must come before an entry of the log. *)
Definition cause (before : list IngressEffect) (e : IngressEffect) : Prop :=
  match e with
  | Decrypt f => channel_frame f
  | Dispatched f _ => Decrypt f ∈ before
  | DispatchDone d _ => exists f plaintext, Data.deliveryId f = d /\ Dispatched f plaintext ∈ before
  | AdmitSent d => DispatchDone d true ∈ before
  | OnAdmit _ | End _ => True
  end.

Definition frame_key (f : RtcData) : result jsstring :=
  admissionKey (remotePeerId options) (Data.streamId f) (Data.deliveryId f).

Lemma admissionKey_inj peer stream d1 d2 key :
  admissionKey peer stream d1 = Ok key -> admissionKey peer stream d2 = Ok key -> d1 = d2.
Proof.
  unfold admissionKey. case_match; [done |]. case_match; [done |]. intros [= <-] [= E]. by simplify_list_eq.
Qed.

Definition awaits (o : Opened) (w : AwaitedReservation) : Prop :=
  frame_key (opened_frame o) = Ok (reservedKey w)
  /\ decodeBase64URL (Data.ciphertext (opened_frame o)) = Ok (reservedBytes w) /\ reservedUntil w = expiresAt options.

Record ingress_ok (log : list IngressEffect) s : Prop := mkIngressOk {
  iok_ledger : ledger_inv (ledger s);
  iok_log : justified cause [] log;
  iok_opening : Forall (fun e => Decrypt e.1 ∈ log /\ channel_frame e.1) (opening s);
  iok_reserving : Forall2 awaits (reserving s) (awaitedReservations (ledger s));
  iok_frames : Forall (fun o => Decrypt (opened_frame o) ∈ log /\ channel_frame (opened_frame o)) (reserving s);
  iok_dispatching : Forall (fun f => channel_frame f /\ exists plaintext, Dispatched f plaintext ∈ log) (dispatching s);
  iok_admitted : forall key e, map_get (entries (ledger s)) key = Some e -> admitted e = true ->
    exists f, channel_frame f /\ frame_key f = Ok key /\ DispatchDone (Data.deliveryId f) true ∈ log;
}.

(** What a step must establish. *)
Lemma ingress_ok_step log o s s' : ingress_ok log s -> justified cause log o -> ledger_inv (ledger s') ->
  (forall e, e ∈ opening s' -> e ∈ opening s \/ (Decrypt e.1 ∈ o /\ channel_frame e.1)) ->
  Forall2 awaits (reserving s') (awaitedReservations (ledger s')) ->
  (forall r, r ∈ reserving s' -> r ∈ reserving s \/ exists now, (opened_frame r, now) ∈ opening s) ->
  (forall f, f ∈ dispatching s' -> f ∈ dispatching s \/
     exists r plaintext, r ∈ reserving s /\ opened_frame r = f /\ Dispatched f plaintext ∈ o) ->
  (forall key e, map_get (entries (ledger s')) key = Some e -> admitted e = true -> map_get (entries (ledger s)) key = Some e \/
     exists f, channel_frame f /\ frame_key f = Ok key /\ DispatchDone (Data.deliveryId f) true ∈ o) ->
  ingress_ok (log ++ o) s'.
Proof.
  intros [Hl Hj Ho Hr Hf Hd Ha] Hn Hl' Ho' Hr' Hf' Hd' Ha'.
  assert (Hin : forall x, x ∈ log \/ x ∈ o -> x ∈ log ++ o) by (intros x; apply elem_of_app).
  rewrite Forall_forall in Ho. rewrite Forall_forall in Hf. rewrite Forall_forall in Hd. constructor; try done.
  - apply justified_app. by split.
  - apply Forall_forall. intros e He. destruct (Ho' e He) as [H|[H1 H2]]; [destruct (Ho e H) as [H1 H2] |]; (split; [apply Hin; tauto | done]).
  - apply Forall_forall. intros r He. destruct (Hf' r He) as [H|(now & H)].
    + destruct (Hf r H) as [H1 H2]. split; [apply Hin; tauto | done].
    + destruct (Ho _ H) as [H1 H2]. split; [apply Hin; tauto | done].
  - apply Forall_forall. intros f He. destruct (Hd' f He) as [H|(r & p & H1 & <- & H3)].
    + destruct (Hd f H) as (H1 & p & H2). split; [done |]. exists p. apply Hin. tauto.
    + split; [apply (Hf r H1) |]. exists p. apply Hin. tauto.
  - intros key e Hk He. destruct (Ha' key e Hk He) as [H|(f & H1 & H2 & H3)].
    + destruct (Ha key e H He) as (f & H1 & H2 & H3). exists f. split_and!; [done | done |]. apply Hin. tauto.
    + exists f. split_and!; [done | done |]. apply Hin. tauto.
Qed.

Lemma sendAdmit_justified log d ok outcome : DispatchDone d true ∈ log -> justified cause log (sendAdmit d ok outcome).
Proof. intros H. unfold sendAdmit. destruct (encodeRtcAdmit _); [destruct ok |]; by repeat split. Qed.

(** *** What the ledger's calls do to its entries *)

Definition keeps_admitted (l l' : RTCAdmissionLedger) : Prop :=
  forall key e, map_get (entries l') key = Some e -> admitted e = true -> map_get (entries l) key = Some e.

Lemma prune_get l now key e : ledger_inv l -> map_get (entries (Admission.prune l now)) key = Some e -> map_get (entries l) key = Some e.
Proof.
  intros (_ & Hw & _). unfold Admission.prune. cbn. rewrite map_get_delete_if by done.
  destruct (map_get (entries l) key) as [e'|]; [|done]. by destruct (entryExpiresAt e' <=? now).
Qed.

Lemma start_keeps l r l' a : ledger_inv l -> start_reservation l r = (a, l') ->
  ledger_inv l' /\ keeps_admitted l l'
  /\ match a with
     | Ok _ => exists stream expires key, streamId r = Int stream /\ reservationExpiresAt r = Int expires
         /\ admissionKey (senderPeerId r) stream (deliveryId r) = Ok key
         /\ awaitedReservations l' = awaitedReservations l ++ [mkAwaited key (ciphertext r) expires]
     | Throw _ => awaitedReservations l' = awaitedReservations l
     end.
Proof.
  intros Hl E. pose proof (ledger_step_inv sha256 l (lop_reserve r) Hl) as Hinv. cbn [ledger_step] in Hinv. rewrite E in Hinv.
  split; [exact Hinv |]. clear Hinv. revert E. unfold start_reservation, keeps_admitted.
  destruct (streamId r) as [stream|]; [|by intros [= <- <-]].
  destruct (reservationExpiresAt r) as [expires|]; [|by intros [= <- <-]].
  destruct (_ || _ || _ || _ || _); [by intros [= <- <-] |].
  pose proof (prune_get l (reservedAt r)) as Hp.
  destruct (admissionKey _ _ _) as [key|] eqn:Ek; intros [= <- <-]; cbn [entries set_awaited];
    (split; [intros k e Hk _; by apply Hp |]); [by exists stream, expires, key | done].
Qed.

Lemma ingress_settle_keeps l k w : ledger_inv l -> awaitedReservations l !! k = Some w ->
  let l' := (settle sha256 l k).2 in
  ledger_inv l' /\ awaitedReservations l' = delete k (awaitedReservations l) /\ keeps_admitted l l'
  /\ match map_get (entries l) (reservedKey w) with
     | Some e => entries l' = entries l
         /\ (settle sha256 l k).1 = Some (if negb (str_eqb (ciphertextSHA256 e) (sha256 (reservedBytes w))) then a_conflict
                                   else if admitted e then a_duplicate_admitted else a_duplicate_pending)
     | None => (settle sha256 l k).1 = Some a_first
         /\ map_get (entries l') (reservedKey w) = Some (mkEntry (sha256 (reservedBytes w)) (reservedUntil w) false)
     end.
Proof.
  intros Hl Hk l'. pose proof (ledger_step_inv sha256 l (lop_digest k) Hl) as Hinv. subst l'.
  split; [exact Hinv |]. clear Hinv. unfold settle. rewrite Hk. unfold finish_reservation. cbn [entries set_awaited].
  destruct (map_get (entries l) (reservedKey w)) as [e|] eqn:Eg; cbn [fst snd awaitedReservations set_awaited set_entries entries].
  - by split_and!; [|intros key e' |..].
  - split_and!; [done | | done | apply map_get_set_eq]. intros key e. unfold evict_for_one, set_entries, set_awaited. cbn [maximumEntries entries].
    destruct (decide (key = reservedKey w)) as [->|Hne]; [rewrite map_get_set_eq; by intros [= <-] |].
    rewrite map_get_set_ne by done. destruct Hl as (Hm & Hw & _). rewrite map_trim_drop by (done || lia).
    intros Hd _. apply elem_map_get; [done |]. apply map_get_Some_elem in Hd.
    eapply elem_of_sublist; [exact Hd | apply sublist_drop].
Qed.

Lemma admit_keeps l stream d now a l' : ledger_inv l ->
  admit_delivery l (remotePeerId options) stream d now = (a, l') ->
  ledger_inv l' /\ awaitedReservations l' = awaitedReservations l
  /\ forall key e, map_get (entries l') key = Some e -> admitted e = true ->
       map_get (entries l) key = Some e \/ (a = Ok true /\ admissionKey (remotePeerId options) stream d = Ok key).
Proof.
  intros Hl E. pose proof (ledger_step_inv sha256 l (lop_admit (remotePeerId options) stream d now) Hl) as Hinv.
  cbn [ledger_step] in Hinv. rewrite E in Hinv. split; [exact Hinv |]. clear Hinv. revert E. unfold admit_delivery.
  pose proof (prune_get l now) as Hp. set (l1 := Admission.prune l now) in *.
  assert (Ha : awaitedReservations l1 = awaitedReservations l) by done.
  destruct (admissionKey _ stream d) as [key0|] eqn:Ek.
  2: { intros [= <- <-]. split; [done |]. intros key e Hk _. left. by apply Hp. }
  destruct (map_get (entries l1) key0) as [e0|] eqn:Eg.
  2: { intros [= <- <-]. split; [done |]. intros key e Hk _. left. by apply Hp. }
  destruct (entryExpiresAt e0 <=? now).
  { intros [= <- <-]. split; [done |]. intros key e Hk _. left. by apply Hp. }
  intros [= <- <-]. split; [done |]. intros key e. cbn [entries set_entries].
  destruct (decide (key = key0)) as [->|Hne]; [intros _ _; by right |]. rewrite map_get_set_ne by done.
  intros Hk _. left. by apply Hp.
Qed.

Lemma end_justified log how : justified cause log [End how].
Proof. by repeat split. Qed.

Lemma receive_ok log s raw now keys : ingress_ok log s ->
  let '(o, s') := receive raw now keys s in ingress_ok (log ++ o) s'.
Proof.
  intros Hok. pose proof Hok as [Hl _ _ Hr _ _ _]. unfold receive.
  assert (Hsame : forall o, justified cause log o -> ingress_ok (log ++ o) s).
  { intros o Hj. apply (ingress_ok_step log o s); try done; by left. }
  destruct (expiresAt options <=? now).
  { apply (ingress_ok_step log _ s); cbn [ledger opening reserving dispatching on_ledger reset_ledger]; try done; try by left.
    destruct Hl as (Hm & _ & _). split; [done |]. cbn. split; [apply NoDup_nil_2 | rewrite zlen_nil; lia]. }
  destruct raw as [b|]; [|apply Hsame, end_justified].
  destruct (decodeRtcDataFrame b) as [[f|f]|] eqn:Ed; [| |apply Hsame, end_justified].
  - destruct (negb (str_eqb _ _)) eqn:Es; [apply Hsame, end_justified |].
    destruct (_ || _ || _) eqn:Eg; [apply Hsame, end_justified |]. destruct (negb keys); [apply Hsame, end_justified |].
    assert (Hc : channel_frame f).
    { bool_props. split_and!; [by apply str_eqb_true | done | done | by apply Bool.eqb_prop | by exists b]. }
    apply (ingress_ok_step log _ s); cbn [ledger opening reserving dispatching on_opening]; try done; try by left.
    intros e He. apply elem_of_app in He as [He|He]; [by left |]. apply list_elem_of_singleton in He as ->. right.
    split; [apply list_elem_of_singleton; done | done].
  - destruct (negb (str_eqb _ _)); apply Hsame; by repeat split.
Qed.

Lemma opened_ok log s k plaintext : ingress_ok log s ->
  let '(o, s') := opened k plaintext s in ingress_ok (log ++ o) s'.
Proof.
  intros Hok. pose proof Hok as [Hl _ Hop Hr _ _ _]. unfold opened. destruct (opening s !! k) as [[f now]|] eqn:Hk.
  2: { by apply (ingress_ok_step log [] s); try done; left. }
  assert (Hsame : forall how l, ledger_inv l -> awaitedReservations l = awaitedReservations (ledger s) -> keeps_admitted (ledger s) l ->
    ingress_ok (log ++ [End how]) (on_ledger l (on_opening (delete k (opening s)) s))).
  { intros how l H1 H2 H3. apply (ingress_ok_step log _ s); cbn [ledger opening reserving dispatching on_opening on_ledger]; try done; try by left.
    - intros e He. left. by eapply list_elem_of_delete.
    - by rewrite H2.
    - intros key e H4 H5. left. by apply H3. }
  destruct plaintext as [plaintext|]; [|by apply (Hsame _ (ledger s)); [| |intros ? ? ?]].
  destruct (decodeBase64URL (Data.ciphertext f)) as [ct|] eqn:Ect; [|by apply (Hsame _ (ledger s)); [| |intros ? ? ?]].
  cbn [ledger on_opening]. destruct (start_reservation (ledger s) _) as [a l] eqn:Es.
  destruct (start_keeps _ _ _ _ Hl Es) as (Hl' & Hk' & Ha). destruct a as [[]|]; [|by apply Hsame].
  destruct Ha as (stream & expires & key & [= <-] & [= <-] & Ekey & Eaw). cbn [senderPeerId deliveryId ciphertext] in Ekey, Eaw.
  apply (ingress_ok_step log [] s); cbn [ledger opening reserving dispatching on_opening on_ledger on_reserving]; try done; try by left.
  - intros e He. left. by eapply list_elem_of_delete.
  - rewrite Eaw. apply Forall2_app; [done |]. apply Forall2_cons. split; [|by apply Forall2_nil_2]. by split.
  - intros r He. apply elem_of_app in He as [He|He]; [by left |]. apply list_elem_of_singleton in He as ->. right.
    exists now. by eapply list_elem_of_lookup_2.
  - intros key' e H4 H5. left. by apply Hk'.
Qed.

Lemma digest_ok log s k channel_ok : ingress_ok log s ->
  let '(o, s') := digest_done k channel_ok s in ingress_ok (log ++ o) s'.
Proof.
  intros Hok. pose proof Hok as [Hl _ _ Hr Hf _ Had]. unfold digest_done. destruct (reserving s !! k) as [[f plaintext]|] eqn:Hk.
  2: { by apply (ingress_ok_step log [] s); try done; left. }
  destruct (Forall2_lookup_l _ _ _ _ _ Hr Hk) as (w & Hw & (Ekey & Ect & Eun)). cbn [opened_frame] in *.
  destruct (ingress_settle_keeps (ledger s) k w Hl Hw) as (Hl' & Eaw & Hk' & Hcase).
  pose proof (proj1 (Forall_forall _ _) Hf _ (list_elem_of_lookup_2 _ _ _ Hk)) as [Hdec Hchan]. cbn [opened_frame] in *.
  destruct (settle sha256 (ledger s) k) as [a l]. cbn [fst snd] in *.
  assert (Hsame : forall o, justified cause log o ->
    ingress_ok (log ++ o) (on_ledger l (on_reserving (delete k (reserving s)) s))).
  { intros o Hj. apply (ingress_ok_step log _ s); cbn [ledger opening reserving dispatching on_reserving on_ledger]; try done; try by left.
    - rewrite Eaw. by apply Forall2_delete.
    - intros r He. left. by eapply list_elem_of_delete.
    - intros key e H4 H5. left. by apply Hk'. }
  destruct (map_get (entries (ledger s)) (reservedKey w)) as [e|] eqn:Eg.
  - destruct Hcase as [_ ->]. destruct (negb _); [apply Hsame, end_justified |].
    destruct (admitted e) eqn:Ea; [|apply Hsame, end_justified]. apply Hsame, sendAdmit_justified.
    destruct (Had _ _ Eg Ea) as (f' & (_ & _ & Estr & _) & Ekey' & Hin). destruct Hchan as (_ & _ & Estr2 & _).
    unfold frame_key in *. rewrite Estr in Ekey'. rewrite Estr2 in Ekey. by rewrite (admissionKey_inj _ _ _ _ _ Ekey Ekey').
  - destruct Hcase as [-> _].
    apply (ingress_ok_step log _ s); cbn [ledger opening reserving dispatching on_reserving on_ledger on_dispatching]; try done; try by left.
    + rewrite Eaw. by apply Forall2_delete.
    + intros r He. left. by eapply list_elem_of_delete.
    + intros f' He. apply elem_of_app in He as [He|He]; [by left |]. apply list_elem_of_singleton in He as ->. right.
      exists (mkOpened f plaintext), plaintext. split_and!; [by eapply list_elem_of_lookup_2 | done | by apply list_elem_of_singleton].
    + intros key e H4 H5. left. by apply Hk'.
Qed.

Lemma digest_failed_ok log s k : ingress_ok log s ->
  let '(o, s') := digest_failed k s in ingress_ok (log ++ o) s'.
Proof.
  intros Hok. pose proof Hok as [Hl _ _ Hr _ _ _]. unfold digest_failed. destruct (reserving s !! k) as [r|] eqn:Hk.
  2: { by apply (ingress_ok_step log [] s); try done; left. }
  apply (ingress_ok_step log _ s); cbn [ledger opening reserving dispatching on_reserving on_ledger awaitedReservations set_awaited];
    try done; try by left.
  - by apply Forall2_delete.
  - intros r' He. left. by eapply list_elem_of_delete.
Qed.

Lemma dispatch_ok log s k accepted now channel_ok : ingress_ok log s ->
  let '(o, s') := dispatch_done k accepted now channel_ok s in ingress_ok (log ++ o) s'.
Proof.
  intros Hok. pose proof Hok as [Hl _ _ Hr _ Hd _]. unfold dispatch_done. destruct (dispatching s !! k) as [f|] eqn:Hk.
  2: { by apply (ingress_ok_step log [] s); try done; left. }
  pose proof (proj1 (Forall_forall _ _) Hd _ (list_elem_of_lookup_2 _ _ _ Hk)) as [Hchan (p & Hin)].
  set (done_ := DispatchDone (Data.deliveryId f) accepted).
  assert (Hcause : cause log done_) by (by exists f, p).
  assert (Hstep : forall o l, justified cause (log ++ [done_]) o -> ledger_inv l -> awaitedReservations l = awaitedReservations (ledger s) ->
    (forall key e, map_get (entries l) key = Some e -> admitted e = true ->
      map_get (entries (ledger s)) key = Some e \/ (accepted = true /\ frame_key f = Ok key)) ->
    ingress_ok (log ++ done_ :: o) (on_ledger l (on_dispatching (delete k (dispatching s)) s))).
  { intros o l Hj H1 H2 H3.
    apply (ingress_ok_step log _ s); cbn [ledger opening reserving dispatching on_dispatching on_ledger]; try done; try by left.
    - by rewrite H2.
    - intros f' He. left. by eapply list_elem_of_delete.
    - intros key e H4 H5. destruct (H3 key e H4 H5) as [H|[Ha Ek]]; [by left | right]. exists f. split_and!; [done | done |].
      unfold done_. rewrite Ha. apply elem_of_cons. by left. }
  destruct (negb accepted) eqn:Ea.
  { apply (Hstep [End (Returned i_rejected)] (ledger s)); [apply end_justified | done | done | by left]. }
  apply negb_false_iff in Ea. cbn [ledger on_dispatching].
  destruct (admit_delivery (ledger s) (remotePeerId options) (Data.streamId f) (Data.deliveryId f) now) as [a l] eqn:Eadm.
  destruct (admit_keeps _ _ _ _ _ _ Hl Eadm) as (Hl' & Eaw & Hent).
  assert (Hent' : forall key e, map_get (entries l) key = Some e -> admitted e = true ->
      map_get (entries (ledger s)) key = Some e \/ (accepted = true /\ frame_key f = Ok key)).
  { intros key e H1 H2. destruct (Hent key e H1 H2) as [H|[_ H]]; [by left | by right]. }
  destruct a as [[]|]; (apply Hstep; [| done | done | done]); [|apply end_justified | apply end_justified].
  apply sendAdmit_justified. unfold done_. rewrite Ea. apply elem_of_app. right. by apply list_elem_of_singleton.
Qed.

Lemma ingress_step_ok log s e : ingress_ok log s -> ingress_ok (log ++ (ingress_step s e).1) (ingress_step s e).2.
Proof.
  intros Hok. destruct e as [raw now keys|k p|k b|k|k a now b|]; cbn [ingress_step].
  - pose proof (receive_ok log s raw now keys Hok). by destruct (receive raw now keys s).
  - pose proof (opened_ok log s k p Hok). by destruct (opened k p s).
  - pose proof (digest_ok log s k b Hok). by destruct (digest_done k b s).
  - pose proof (digest_failed_ok log s k Hok). by destruct (digest_failed k s).
  - pose proof (dispatch_ok log s k a now b Hok). by destruct (dispatch_done k a now b s).
  - pose proof Hok as [Hl _ _ Hr _ _ _].
    apply (ingress_ok_step log _ s); cbn [fst snd ledger opening reserving dispatching on_ledger reset_ledger]; try done; try by left.
    destruct Hl as (Hm & _ & _). split; [done |]. cbn. split; [apply NoDup_nil_2 | rewrite zlen_nil; lia].
Qed.

Definition dispatches (o : list IngressEffect) : list RtcData := omap (fun e => match e with Dispatched f _ => Some f | _ => None end) o.

Lemma sendAdmit_dispatches d ok outcome : dispatches (sendAdmit d ok outcome) = [].
Proof. unfold sendAdmit. destruct (encodeRtcAdmit _); [by destruct ok | done]. Qed.

Lemma digest_spec log s k channel_ok f plaintext : ingress_ok log s -> reserving s !! k = Some (mkOpened f plaintext) ->
  exists key ct, frame_key f = Ok key /\ decodeBase64URL (Data.ciphertext f) = Ok ct /\
    let '(o, s') := digest_done k channel_ok s in
    match map_get (entries (ledger s)) key with
    | Some e => dispatches o = [] /\ entries (ledger s') = entries (ledger s)
        /\ (AdmitSent (Data.deliveryId f) ∈ o -> admitted e = true /\ ciphertextSHA256 e = sha256 ct)
    | None => dispatches o = [f] /\ map_get (entries (ledger s')) key = Some (mkEntry (sha256 ct) (expiresAt options) false)
    end.
Proof.
  intros [Hl _ _ Hr _ _ _] Hk. destruct (Forall2_lookup_l _ _ _ _ _ Hr Hk) as (w & Hw & (Ekey & Ect & Eun)).
  cbn [opened_frame] in *. exists (reservedKey w), (reservedBytes w). split; [done |]. split; [done |].
  unfold digest_done. rewrite Hk. destruct (ingress_settle_keeps (ledger s) k w Hl Hw) as (_ & _ & _ & Hcase).
  destruct (settle sha256 (ledger s) k) as [a l]. cbn [fst snd] in *. rewrite <- Eun.
  destruct (map_get (entries (ledger s)) (reservedKey w)) as [e|].
  - destruct Hcase as [E ->]. destruct (str_eqb _ _) eqn:Es; cbn [negb]; [apply str_eqb_true in Es; destruct (admitted e) |].
    + split; [apply sendAdmit_dispatches |]. by split.
    + split_and!; [done | done |]. intros Hin. apply list_elem_of_singleton in Hin. done.
    + split_and!; [done | done |]. intros Hin. apply list_elem_of_singleton in Hin. done.
  - by destruct Hcase as [-> Hnew].
Qed.

Lemma ingress_run_ok events : ingress_ok (ingress_run events).1 (ingress_run events).2.
Proof.
  unfold ingress_run. assert (H0 : ingress_ok [] new_ingress).
  { constructor; cbn; try done; try apply Forall_nil_2; try apply Forall2_nil_2.
    split; [done |]. split; [apply NoDup_nil_2 | vm_compute; discriminate]. }
  set (r := ([], new_ingress) : list IngressEffect * IngressState). change (ingress_ok r.1 r.2) in H0. clearbody r. revert r H0.
  induction events as [|e events IH]; intros r Hr; [done |]. cbn [foldl]. apply IH.
  pose proof (ingress_step_ok r.1 r.2 e Hr) as H. by destruct (ingress_step r.2 e).
Qed.

(** C12: what arrives on a data channel, with decryptions, digests and dispatches
    settling in any order: an ADMIT for a delivery is only sent after a dispatch
    of that delivery had answered true, what is dispatched was decrypted, and
    what is decrypted is a data frame of this session with the fixed epoch,
    stream and acknowledgement.  When the digest of a frame settles, the frame
    is dispatched exactly when the ledger, which never holds more than 32
    deliveries, has no entry for its delivery; else it is at most admitted
    again, and that only when the entry is admitted and stands for the same
    ciphertext. *)
Theorem ingress_admits events :
  let '(log, s) := ingress_run events in
  justified cause [] log /\ ledger_inv (ledger s)
  /\ (forall k channel_ok f plaintext, reserving s !! k = Some (mkOpened f plaintext) ->
      exists key ct, frame_key f = Ok key /\ decodeBase64URL (Data.ciphertext f) = Ok ct /\
        let '(o, s') := digest_done k channel_ok s in
        match map_get (entries (ledger s)) key with
        | Some e => dispatches o = [] /\ entries (ledger s') = entries (ledger s)
            /\ (AdmitSent (Data.deliveryId f) ∈ o -> admitted e = true /\ ciphertextSHA256 e = sha256 ct)
        | None => dispatches o = [f] /\ map_get (entries (ledger s')) key = Some (mkEntry (sha256 ct) (expiresAt options) false)
        end).
Proof.
  pose proof (ingress_run_ok events) as Hok. destruct (ingress_run events) as [log s]. cbn [fst snd] in Hok.
  split_and!; [apply Hok | apply Hok |]. intros k channel_ok f plaintext Hk. by apply (digest_spec log s k channel_ok f plaintext Hok).
Qed.
End Ingress.
