(* ===== verification/RtcSession.v ===== *)
(** * [pwa/src/connectivity/rtc-session.ts]: the peer-to-peer sessions

    [RTCSessionController] negotiates one browser connection per peer.  A
    session is an object that the map of sessions and the suspended calls share:
    it lives in a heap and is named by its index; connections are named by
    numbers.  Every operation is cut at its awaits, and a suspended call settles
    as an event of its own.  The awaits of one preparation (create, hash and set
    a description), between which nothing of the controller is read, settle as
    one.  What is done to connections, channels and peers is logged; the
    diagnostic labels of [onTrace] are left out. *)
From S2P Require Import Prelude JsRuntime Collections Base64Url RtcSignaling DnsTxt Traces.

Definition maxSessions : Z := 32.
Definition maxCapabilityEntries : Z := 64.
Definition rtcDataChannelLabel : jsstring := js "branch.rtc.data/0.draft".

(** ** The fingerprint line *)

Definition carriage_return : Z := 13.
Definition line_feed : Z := 10.

Definition hex_value (c : Z) : option Z :=
  if (48 <=? c) && (c <=? 57) then Some (c - 48)
  else if (65 <=? c) && (c <=? 70) then Some (c - 55)
  else if (97 <=? c) && (c <=? 102) then Some (c - 87)
  else None.

(** [n] pairs of digits, each followed by a colon, and one more pair. *)
Fixpoint hex_pairs (n : nat) (s : jsstring) : option bytes :=
  match s with
  | high :: low :: rest =>
      match hex_value high, hex_value low with
      | Some h, Some l =>
          match n, rest with
          | O, [] => Some [16 * h + l]
          | S n, colon :: rest => if colon =? 58 then (fun b => (16 * h + l) :: b) <$> hex_pairs n rest else None
          | _, _ => None
          end
      | _, _ => None
      end
  | _ => None
  end.

(** [line.replace(/\r$/u, "")] *)
Definition without_return (line : jsstring) : jsstring :=
  match last line with Some c => if c =? carriage_return then removelast line else line | None => line end.

Definition extractDTLSFingerprintSHA256 (description : jsstring) : result jsstring :=
  let fingerprintLines := filter (fun line => starts_with (without_return line) (js "a=fingerprint:") = true)
                            (split_on line_feed description) in
  match fingerprintLines with
  | [line] =>
      let prefix := js "a=fingerprint:sha-256 " in
      if negb (starts_with line prefix) then Throw (js "invalid rtc fingerprint line")
      else
        match hex_pairs 31 (without_return (drop (length prefix) line)) with
        | Some b => Ok (encodeBase64URL b)
        | None => Throw (js "invalid rtc fingerprint line")
        end
  | _ => Throw (js "invalid rtc fingerprint line")
  end.

(** ** Data *)

Module Channel.
Record RTCDataChannelPort := mk {
  number : nat;
  label : jsstring;
  ordered : bool;
  negotiated : bool;
  maxPacketLifeTime : option Z;
  maxRetransmits : option Z;
}.
End Channel.
Abbreviation RTCDataChannelPort := Channel.RTCDataChannelPort.

Definition prepareDataChannel (channel : RTCDataChannelPort) : bool :=
  str_eqb (Channel.label channel) rtcDataChannelLabel && Channel.ordered channel && negb (Channel.negotiated channel)
  && bool_decide (Channel.maxPacketLifeTime channel = None) && bool_decide (Channel.maxRetransmits channel = None).

Inductive Role : Type := offerer | answerer.

#[export] Instance Role_eq_dec : EqDecision Role.
Proof. solve_decision. Defined.

Definition role_word (r : Role) : jsstring := match r with offerer => js "offerer" | answerer => js "answerer" end.

Module Session.
Record Session := mk {
  peerId : jsstring;
  id : jsstring;
  generation : Z;
  role : Role;
  connection : nat;
  localDescriptionSHA256 : jsstring;
  remoteDescriptionSHA256 : option jsstring;
  expiresAt : Z;
  receivedCandidates : list jsstring;
  pendingCandidates : list (jsstring * RtcCandidate);
  sentCandidates : Z;
  channel : option RTCDataChannelPort;
}.

Definition set_remote h s : Session := mk (peerId s) (id s) (generation s) (role s) (connection s) (localDescriptionSHA256 s)
  h (expiresAt s) (receivedCandidates s) (pendingCandidates s) (sentCandidates s) (channel s).
Definition set_expires t s : Session := mk (peerId s) (id s) (generation s) (role s) (connection s) (localDescriptionSHA256 s)
  (remoteDescriptionSHA256 s) t (receivedCandidates s) (pendingCandidates s) (sentCandidates s) (channel s).
Definition set_received l s : Session := mk (peerId s) (id s) (generation s) (role s) (connection s) (localDescriptionSHA256 s)
  (remoteDescriptionSHA256 s) (expiresAt s) l (pendingCandidates s) (sentCandidates s) (channel s).
Definition set_pending l s : Session := mk (peerId s) (id s) (generation s) (role s) (connection s) (localDescriptionSHA256 s)
  (remoteDescriptionSHA256 s) (expiresAt s) (receivedCandidates s) l (sentCandidates s) (channel s).
Definition set_sent n s : Session := mk (peerId s) (id s) (generation s) (role s) (connection s) (localDescriptionSHA256 s)
  (remoteDescriptionSHA256 s) (expiresAt s) (receivedCandidates s) (pendingCandidates s) n (channel s).
Definition set_channel ch s : Session := mk (peerId s) (id s) (generation s) (role s) (connection s) (localDescriptionSHA256 s)
  (remoteDescriptionSHA256 s) (expiresAt s) (receivedCandidates s) (pendingCandidates s) (sentCandidates s) ch.
End Session.
Abbreviation Session := Session.Session.

Inductive RTCSignal : Type :=
| sig_offer (body : RtcOffer)
| sig_answer (body : RtcAnswer)
| sig_candidate (body : RtcCandidate)
| sig_cancel (body : RtcCancel).

Inductive RTCSignalResult : Type := r_accepted | r_ignored | r_duplicate | r_rejected.

(** A suspended call, with what it awaits. *)
Inductive Call : Type :=
| preparing_offer (peerId : jsstring) (now : Z) (connection : nat) (channel : RTCDataChannelPort)
| sending_offer (peerId : jsstring) (session : nat)
| validating (peerId : jsstring) (signal : RTCSignal) (now : Z)
| preparing_answer (peerId : jsstring) (offer : RtcOffer) (now : Z) (connection : nat)
| sending_answer (peerId : jsstring) (session : nat)
| setting_answer (peerId : jsstring) (answer : RtcAnswer) (now : Z) (session : nat)
| applying_staged (peerId : jsstring) (now : Z) (session : nat) (key : jsstring)
| adding_candidate (peerId : jsstring) (now : Z) (session : nat) (key : jsstring).

Inductive Effect : Type :=
| Received (peerId : jsstring) (signal : RTCSignal)
| Created (peerId : jsstring) (connection : nat)
| Closed (connection : nat)
| ChannelClosed (channel : RTCDataChannelPort)
| LocalSet (connection : nat) (description : jsstring)
| RemoteSet (connection : nat) (description : jsstring)
| IceAdded (connection : nat) (candidate : RtcCandidate)
| SignalSent (peerId : jsstring) (signal : RTCSignal)
| Published (peerId rtcSessionId : jsstring) (expiresAt : Z) (channel : RTCDataChannelPort)
| Started (peerId : jsstring) (outcome : result bool)
| Answered (peerId : jsstring) (outcome : RTCSignalResult).

(** [stagedChannels] are the arrays [pendingChannels] of [receiveOffer], by
    connection. *)
Record Controller := mkController {
  objects : list Session;
  sessions : list (jsstring * nat);
  capabilities : list (jsstring * (RtcCapabilities * Z));
  connections : nat;
  stagedChannels : list (nat * RTCDataChannelPort);
  calls : list Call;
  log : list Effect;
}.

Implicit Types c : Controller.

Definition new_controller : Controller := mkController [] [] [] 0 [] [] [].

Definition on_objects v c := mkController v (sessions c) (capabilities c) (connections c) (stagedChannels c) (calls c) (log c).
Definition on_sessions v c := mkController (objects c) v (capabilities c) (connections c) (stagedChannels c) (calls c) (log c).
Definition on_capabilities v c := mkController (objects c) (sessions c) v (connections c) (stagedChannels c) (calls c) (log c).
Definition on_connections v c := mkController (objects c) (sessions c) (capabilities c) v (stagedChannels c) (calls c) (log c).
Definition on_staged v c := mkController (objects c) (sessions c) (capabilities c) (connections c) v (calls c) (log c).
Definition on_calls v c := mkController (objects c) (sessions c) (capabilities c) (connections c) (stagedChannels c) v (log c).
Definition note e c := mkController (objects c) (sessions c) (capabilities c) (connections c) (stagedChannels c) (calls c) (log c ++ [e]).

Definition suspend (call : Call) c : Controller := on_calls (calls c ++ [call]) c.

(** Changes the object [i]. *)
Definition update (i : nat) (f : Session -> Session) c : Controller := on_objects (alter f i (objects c)) c.

(** [this.#sessions.get(peerId)] *)
Definition current (peerId : jsstring) c : option (nat * Session) :=
  match map_get (sessions c) peerId with
  | Some i => match objects c !! i with Some s => Some (i, s) | None => None end
  | None => None
  end.

Definition is_current (peerId : jsstring) (i : nat) c : bool := bool_decide (map_get (sessions c) peerId = Some i).

(** ** Housekeeping *)

Definition drop_session (peerId : jsstring) c : Controller :=
  let c' := match current peerId c with
            | Some (_, s) =>
                let c := match Session.channel s with Some ch => note (ChannelClosed ch) c | None => c end in
                note (Closed (Session.connection s)) c
            | None => c
            end in
  on_sessions (map_delete (sessions c) peerId) c'.

Definition makeRoom c : bool * Controller :=
  if zlen (sessions c) <? maxSessions then (true, c)
  else
    match sessions c with
    | [] => (false, c)
    | (oldest, _) :: _ => (true, drop_session oldest c)
    end.

Definition drop_expired (now : Z) (peerId : jsstring) c : Controller :=
  match current peerId c with
  | Some (_, s) => if Session.expiresAt s <=? now then drop_session peerId c else c
  | None => c
  end.

Definition prune_controller (now : Z) c : Controller :=
  let c := on_capabilities (map_delete_if (fun _ entry => entry.2 <=? now) (capabilities c)) c in
  foldl (fun c peerId => drop_expired now peerId c) c (map_keys (sessions c)).

Definition create_connection (peerId : jsstring) c : nat * Controller :=
  (connections c, note (Created peerId (connections c)) (on_connections (S (connections c)) c)).

Definition publishDataChannel (i : nat) c : Controller :=
  match objects c !! i with
  | Some s => match Session.channel s with
              | Some ch => note (Published (Session.peerId s) (Session.id s) (Session.expiresAt s) ch) c
              | None => c
              end
  | None => c
  end.

Definition acceptDataChannel (i : nat) (channel : RTCDataChannelPort) c : Controller :=
  match objects c !! i with
  | None => c
  | Some s =>
      if negb (is_current (Session.peerId s) i c) || bool_decide (is_Some (Session.channel s)) || negb (prepareDataChannel channel)
      then note (ChannelClosed channel) c
      else publishDataChannel i (update i (Session.set_channel (Some channel)) c)
  end.

(** ** Operations *)

Section Operations.
Variable sha256 : bytes -> bytes.
Variable localPeerId : jsstring.

Definition acceptCapabilities (peerId : jsstring) (value : RtcCapabilities) (expiresAt now : Z) c : bool * Controller :=
  let c := prune_controller now c in
  if (zlen peerId =? 0) || (expiresAt <=? now) then (false, c)
  else
    let m := if map_has (capabilities c) peerId then capabilities c
             else map_trim (maxCapabilityEntries - 1) (capabilities c) in
    (true, on_capabilities (map_set m peerId (value, expiresAt)) c).

(** [start] up to its first await; [channel] is what [createDataChannel] makes. *)
Definition start (peerId : jsstring) (now : Z) (channel : RTCDataChannelPort) c : Controller :=
  let c := prune_controller now c in
  let refused := note (Started peerId (Ok false)) c in
  match map_get (capabilities c) peerId with
  | None => refused
  | Some (_, expiresAt) =>
      if (zlen peerId =? 0) || (expiresAt <=? now) || map_has (sessions c) peerId then refused
      else
        let '(room, c) := makeRoom c in
        if negb room then note (Started peerId (Ok false)) c
        else
          let '(connection, c) := create_connection peerId c in
          if negb (prepareDataChannel channel) then note (Started peerId (Ok false)) (note (Closed connection) c)
          else suspend (preparing_offer peerId now connection channel) c
  end.

Definition fresh_session (peerId id : jsstring) (generation : Z) (role : Role) (connection : nat) (localSHA256 : jsstring)
    (remoteSHA256 : option jsstring) (now : Z) (channel : option RTCDataChannelPort) : Session :=
  Session.mk peerId id generation role connection localSHA256 remoteSHA256 (now + rtcSignalingControlTTLms) [] [] 0 channel.

(** [this.#sessions.set(peerId, session)] for a new object. *)
Definition register (s : Session) c : nat * Controller :=
  (length (objects c),
   on_sessions (map_set (sessions c) (Session.peerId s) (length (objects c))) (on_objects (objects c ++ [s]) c)).

(** The hash and the fingerprint of a description the browser made. *)
Definition describe (description : jsstring) : result (jsstring * jsstring) :=
  let? digest := rtcDescriptionSHA256 sha256 description in
  let? fingerprint := extractDTLSFingerprintSHA256 description in
  Ok (digest, fingerprint).

(** The offer was created; [local_ok]: [setLocalDescription] does not throw. *)
Definition offer_prepared (peerId : jsstring) (now : Z) (connection : nat) (channel : RTCDataChannelPort)
    (created : result jsstring) (local_ok : bool) (newSessionId : jsstring) c : Controller :=
  match (let? description := created in let? described := describe description in Ok (description, described)) with
  | Throw message => note (Started peerId (Throw message)) c
  | Ok (description, (digest, fingerprint)) =>
      let c := note (LocalSet connection description) c in
      if negb local_ok then note (Started peerId (Throw [])) c
      else
        let '(i, c) := register (fresh_session peerId newSessionId 0 offerer connection digest None now (Some channel)) c in
        let body := mkRtcOffer rtcSignalingVersion newSessionId 0 description digest fingerprint in
        suspend (sending_offer peerId i) (note (SignalSent peerId (sig_offer body)) c)
  end.

Definition offer_sent (peerId : jsstring) (i : nat) (sent : bool) c : Controller :=
  if sent then note (Started peerId (Ok true)) (publishDataChannel i c)
  else note (Started peerId (Throw [])) (drop_session peerId c).

(** [receiveOffer] from the outcome of [validateRtcOffer] on. *)
Definition offer_validated (peerId : jsstring) (offer : RtcOffer) (now : Z) c : Controller :=
  let answer r c := note (Answered peerId r) c in
  let connect c :=
    let '(room, c) := makeRoom c in
    if negb room then answer r_rejected c
    else
      let '(connection, c) := create_connection peerId c in
      suspend (preparing_answer peerId offer now connection) (note (RemoteSet connection (description offer)) c) in
  match (let? _ := validateRtcOffer sha256 offer in extractDTLSFingerprintSHA256 (description offer)) with
  | Throw _ => answer r_rejected c
  | Ok fingerprint =>
      if negb (str_eqb fingerprint (dtlsFingerprintSHA256 offer)) then answer r_rejected c
      else
        match current peerId c with
        | Some (_, existing) =>
            match Session.role existing with
            | offerer => if js_ltb localPeerId peerId then answer r_ignored c else connect (drop_session peerId c)
            | answerer =>
                if str_eqb (Session.id existing) (rtcSessionId offer)
                   && bool_decide (Session.remoteDescriptionSHA256 existing = Some (descriptionSHA256 offer))
                then answer r_duplicate c else answer r_rejected c
            end
        | None => connect c
        end
  end.

(** The answer was created, after [setRemoteDescription]. *)
Definition answer_prepared (peerId : jsstring) (offer : RtcOffer) (now : Z) (connection : nat)
    (created : result jsstring) (local_ok : bool) c : Controller :=
  match (let? description := created in let? described := describe description in Ok (description, described)) with
  | Throw _ => note (Answered peerId r_rejected) c
  | Ok (description, (digest, fingerprint)) =>
      let c := note (LocalSet connection description) c in
      if negb local_ok then note (Answered peerId r_rejected) c
      else
        let '(i, c) := register (fresh_session peerId (rtcSessionId offer) (generation offer) answerer connection digest
                                  (Some (descriptionSHA256 offer)) now None) c in
        let c := match map_get (stagedChannels c) connection with
                 | Some channel => acceptDataChannel i channel (on_staged (map_delete (stagedChannels c) connection) c)
                 | None => c
                 end in
        let body := mkRtcAnswer (mkRtcOffer rtcSignalingVersion (rtcSessionId offer) (generation offer) description digest fingerprint)
                      (descriptionSHA256 offer) in
        suspend (sending_answer peerId i) (note (SignalSent peerId (sig_answer body)) c)
  end.

Definition answer_sent (peerId : jsstring) (i : nat) (sent : bool) c : Controller :=
  if sent then note (Answered peerId r_accepted) (publishDataChannel i c)
  else note (Answered peerId r_rejected) (drop_session peerId c).

(** [receiveAnswer] from the outcome of [validateRtcAnswer] on. *)
Definition answer_validated (peerId : jsstring) (answer : RtcAnswer) (now : Z) c : Controller :=
  let body := answer_offer answer in
  let rejected := note (Answered peerId r_rejected) c in
  match (let? _ := validateRtcAnswer sha256 answer in extractDTLSFingerprintSHA256 (description body)) with
  | Throw _ => rejected
  | Ok fingerprint =>
      if negb (str_eqb fingerprint (dtlsFingerprintSHA256 body)) then rejected
      else
        match current peerId c with
        | None => rejected
        | Some (i, s) =>
            if negb (bool_decide (Session.role s = offerer)) || negb (str_eqb (Session.id s) (rtcSessionId body))
               || negb (Session.generation s =? generation body)
               || negb (str_eqb (Session.localDescriptionSHA256 s) (offerDescriptionSHA256 answer))
            then rejected
            else if bool_decide (Session.remoteDescriptionSHA256 s = Some (descriptionSHA256 body))
            then note (Answered peerId r_duplicate) c
            else if bool_decide (is_Some (Session.remoteDescriptionSHA256 s)) then rejected
            else suspend (setting_answer peerId answer now i) (note (RemoteSet (Session.connection s) (description body)) c)
        end
  end.

(** The loop of [applyPendingCandidates] up to its next await: the next staged
    candidate for the description, and those behind it. *)
Fixpoint next_staged (remote : option jsstring) (staged : list (jsstring * RtcCandidate))
    : option (jsstring * RtcCandidate) * list (jsstring * RtcCandidate) :=
  match staged with
  | [] => (None, [])
  | (key, cand) :: rest =>
      if bool_decide (Some (cand_descriptionSHA256 cand) = remote) then (Some (key, cand), rest) else next_staged remote rest
  end.

Definition apply_staged (peerId : jsstring) (now : Z) (i : nat) c : Controller :=
  match objects c !! i with
  | None => c
  | Some s =>
      let '(next, rest) := next_staged (Session.remoteDescriptionSHA256 s) (Session.pendingCandidates s) in
      let c := update i (Session.set_pending rest) c in
      match next with
      | Some (key, cand) => suspend (applying_staged peerId now i key) (note (IceAdded (Session.connection s) cand) c)
      | None => note (Answered peerId r_accepted) (update i (Session.set_expires (now + rtcSignalingControlTTLms)) c)
      end
  end.

Definition answer_set (peerId : jsstring) (answer : RtcAnswer) (now : Z) (i : nat) (ok : bool) c : Controller :=
  if negb ok then note (Answered peerId r_rejected) c
  else apply_staged peerId now i (update i (Session.set_remote (Some (descriptionSHA256 (answer_offer answer)))) c).

(** [set.add(key)] *)
Definition set_add (l : list jsstring) (key : jsstring) : list jsstring := if bool_decide (key ∈ l) then l else l ++ [key].

Definition mark_received (i : nat) (key : jsstring) c : Controller :=
  update i (fun s => Session.set_received (set_add (Session.receivedCandidates s) key) s) c.

Definition staged_applied (peerId : jsstring) (now : Z) (i : nat) (key : jsstring) (ok : bool) c : Controller :=
  apply_staged peerId now i (if ok then mark_received i key c else c).

Definition candidate_added (peerId : jsstring) (now : Z) (i : nat) (key : jsstring) (ok : bool) c : Controller :=
  if negb ok then note (Answered peerId r_rejected) c
  else note (Answered peerId r_accepted) (update i (Session.set_expires (now + rtcSignalingControlTTLms)) (mark_received i key c)).

(** [receiveCandidate] up to its await. *)
Definition receiveCandidate (peerId : jsstring) (cand : RtcCandidate) (now : Z) c : Controller :=
  let rejected := note (Answered peerId r_rejected) c in
  match validateRtcCandidate cand with
  | Throw _ => rejected
  | Ok _ =>
      match current peerId c with
      | None => rejected
      | Some (i, s) =>
          if negb (str_eqb (Session.id s) (cand_rtcSessionId cand)) || negb (Session.generation s =? cand_generation cand) then rejected
          else
            let remoteDirection := match Session.role s with offerer => answerer | answerer => offerer end in
            if negb (str_eqb (direction cand) (role_word remoteDirection)) then rejected
            else
              let key := cand_descriptionSHA256 cand ++ [0] ++ candidate cand in
              if bool_decide (key ∈ Session.receivedCandidates s) || map_has (Session.pendingCandidates s) key
              then note (Answered peerId r_duplicate) c
              else if maxRtcCandidatesPerDirection <=? zlen (Session.receivedCandidates s) then rejected
              else
                match Session.remoteDescriptionSHA256 s with
                | None =>
                    if maxRtcCandidatesPerDirection <=? zlen (Session.pendingCandidates s) then rejected
                    else note (Answered peerId r_accepted) (update i (Session.set_pending (map_set (Session.pendingCandidates s) key cand)) c)
                | Some remote =>
                    if negb (str_eqb remote (cand_descriptionSHA256 cand)) then rejected
                    else suspend (adding_candidate peerId now i key) (note (IceAdded (Session.connection s) cand) c)
                end
      end
  end.

Definition receiveCancel (peerId : jsstring) (cancel : RtcCancel) c : Controller :=
  match current peerId c with
  | None => note (Answered peerId r_rejected) c
  | Some (_, s) =>
      if negb (str_eqb (Session.id s) (cancel_rtcSessionId cancel)) || negb (Session.generation s =? cancel_generation cancel)
         || negb (bool_decide (Session.remoteDescriptionSHA256 s = Some (cancel_descriptionSHA256 cancel)))
      then note (Answered peerId r_rejected) c
      else note (Answered peerId r_accepted) (drop_session peerId c)
  end.

Definition receive_signal (peerId : jsstring) (signal : RTCSignal) (now : Z) c : Controller :=
  let c := note (Received peerId signal) (prune_controller now c) in
  match signal with
  | sig_offer _ | sig_answer _ => suspend (validating peerId signal now) c
  | sig_candidate cand => receiveCandidate peerId cand now c
  | sig_cancel cancel => receiveCancel peerId cancel c
  end.

Definition reset_controller c : Controller :=
  let c' := foldl (fun c' peerId => match current peerId c with
                                    | Some (_, s) => note (Closed (Session.connection s)) c'
                                    | None => c'
                                    end) c (map_keys (sessions c)) in
  on_capabilities [] (on_sessions [] c').

(** The listener of [bindLocalCandidates] of the session [i]. *)
Definition local_candidate (i : nat) (candidate : option jsstring) c : Controller :=
  match objects c !! i, candidate with
  | Some s, Some candidate =>
      if negb (is_current (Session.peerId s) i c) || (maxRtcCandidatesPerDirection <=? Session.sentCandidates s) then c
      else
        let body := mkRtcCandidate rtcSignalingVersion (Session.id s) (Session.generation s) (role_word (Session.role s))
                      (Session.localDescriptionSHA256 s) candidate in
        note (SignalSent (Session.peerId s) (sig_candidate body)) (update i (Session.set_sent (Session.sentCandidates s + 1)) c)
  | _, _ => c
  end.

(** The listeners of [onDataChannel] of a connection that [receiveOffer] made:
    the first collects one channel, the second belongs to the session. *)
Definition collect_channel (connection : nat) (channel : RTCDataChannelPort) c : Controller :=
  if map_has (stagedChannels c) connection then note (ChannelClosed channel) c
  else on_staged (map_set (stagedChannels c) connection channel) c.

Definition session_of (connection : nat) c : option nat :=
  fst <$> list_find (fun s => Session.connection s = connection /\ Session.role s = answerer) (objects c).

Definition remote_channel (connection : nat) (channel : RTCDataChannelPort) c : Controller :=
  let c := collect_channel connection channel c in
  match session_of connection c with
  | Some i => acceptDataChannel i channel c
  | None => c
  end.

(** ** Events *)

(** What a suspended call awaits settles: [ok], a description, and the next
    session id. *)
Record Settled := mkSettled { settled_ok : bool; settled_description : result jsstring; settled_id : jsstring }.

Inductive Event : Type :=
| ev_capabilities (peerId : jsstring) (value : RtcCapabilities) (expiresAt now : Z)
| ev_start (peerId : jsstring) (now : Z) (channel : RTCDataChannelPort)
| ev_receive (peerId : jsstring) (signal : RTCSignal) (now : Z)
| ev_settled (k : nat) (o : Settled)
| ev_local_candidate (i : nat) (candidate : option jsstring)
| ev_remote_channel (connection : nat) (channel : RTCDataChannelPort)
| ev_reset.

Definition resume_call (call : Call) (o : Settled) c : Controller :=
  match call with
  | preparing_offer peerId now connection channel =>
      offer_prepared peerId now connection channel (settled_description o) (settled_ok o) (settled_id o) c
  | sending_offer peerId i => offer_sent peerId i (settled_ok o) c
  | validating peerId (sig_offer offer) now => offer_validated peerId offer now c
  | validating peerId (sig_answer answer) now => answer_validated peerId answer now c
  | validating _ _ _ => c
  | preparing_answer peerId offer now connection =>
      answer_prepared peerId offer now connection (settled_description o) (settled_ok o) c
  | sending_answer peerId i => answer_sent peerId i (settled_ok o) c
  | setting_answer peerId answer now i => answer_set peerId answer now i (settled_ok o) c
  | applying_staged peerId now i key => staged_applied peerId now i key (settled_ok o) c
  | adding_candidate peerId now i key => candidate_added peerId now i key (settled_ok o) c
  end.

Definition step c (e : Event) : Controller :=
  match e with
  | ev_capabilities peerId value expiresAt now => (acceptCapabilities peerId value expiresAt now c).2
  | ev_start peerId now channel => start peerId now channel c
  | ev_receive peerId signal now => receive_signal peerId signal now c
  | ev_settled k o =>
      match calls c !! k with
      | Some call => resume_call call o (on_calls (delete k (calls c)) c)
      | None => c
      end
  | ev_local_candidate i candidate => local_candidate i candidate c
  | ev_remote_channel connection channel => remote_channel connection channel c
  | ev_reset => reset_controller c
  end.

Definition run_events (events : list Event) : Controller := foldl step new_controller events.
End Operations.
