(* ===== verification/RtcSessionFacts.v ===== *)
(** * What [RtcSession] does to a browser connection is justified

    Every entry of the log of a run has its cause before it, whatever the order
    in which calls and what they await settle. *)
From S2P Require Import Prelude JsRuntime Collections Base64Url RtcSignaling DnsTxt Traces RtcSession.

Section Facts.
Variable sha256 : bytes -> bytes.
Variable localPeerId : jsstring.
Implicit Types (c : Controller) (L : list Effect) (n i : nat) (p : jsstring) (objs : list Session).

Definition digest_of (d digest : jsstring) : Prop := rtcDescriptionSHA256 sha256 d = Ok digest.

(** A description with its own digest and DTLS fingerprint. *)
Definition genuine (o : RtcOffer) : Prop :=
  digest_of (description o) (descriptionSHA256 o)
  /\ extractDTLSFingerprintSHA256 (description o) = Ok (dtlsFingerprintSHA256 o).

Definition answers (o : RtcOffer) (a : RtcAnswer) : Prop :=
  rtcSessionId (answer_offer a) = rtcSessionId o /\ generation (answer_offer a) = generation o
  /\ offerDescriptionSHA256 a = descriptionSHA256 o.

(** What must come before an entry of the log. *)
Definition cause L (e : Effect) : Prop :=
  match e with
  | Created _ n => forall p, Created p n ∉ L
  | Closed n => exists p, Created p n ∈ L
  | LocalSet n _ => exists p, Created p n ∈ L
  | RemoteSet n d => exists p, Created p n ∈ L /\
      ((exists o, Received p (sig_offer o) ∈ L /\ validateRtcOffer sha256 o = Ok tt /\ genuine o /\ d = description o)
       \/ (exists a o, Received p (sig_answer a) ∈ L /\ validateRtcAnswer sha256 a = Ok tt /\ genuine (answer_offer a)
             /\ d = description (answer_offer a) /\ SignalSent p (sig_offer o) ∈ L /\ answers o a /\ LocalSet n (description o) ∈ L))
  | IceAdded n cand => exists p d, Created p n ∈ L /\ Received p (sig_candidate cand) ∈ L
      /\ validateRtcCandidate cand = Ok tt /\ RemoteSet n d ∈ L /\ digest_of d (cand_descriptionSHA256 cand)
  | SignalSent p (sig_offer o) => exists n, Created p n ∈ L /\ LocalSet n (description o) ∈ L /\ genuine o
  | SignalSent p (sig_answer a) => exists n o, Created p n ∈ L /\ Received p (sig_offer o) ∈ L /\ genuine o
      /\ RemoteSet n (description o) ∈ L /\ LocalSet n (description (answer_offer a)) ∈ L /\ genuine (answer_offer a) /\ answers o a
  | SignalSent p (sig_candidate cand) => exists n d, Created p n ∈ L /\ LocalSet n d ∈ L /\ digest_of d (cand_descriptionSHA256 cand)
  | SignalSent _ (sig_cancel _) => False
  | Published _ _ _ ch => prepareDataChannel ch = true
  | Received _ _ | ChannelClosed _ | Started _ _ | Answered _ _ => True
  end.

(** ** The invariant *)

Record object_ok L (s : Session) : Prop := mkObjectOk {
  obj_created : Created (Session.peerId s) (Session.connection s) ∈ L;
  obj_local : exists d, LocalSet (Session.connection s) d ∈ L /\ digest_of d (Session.localDescriptionSHA256 s);
  obj_offer : Session.role s = offerer -> exists o, SignalSent (Session.peerId s) (sig_offer o) ∈ L
    /\ LocalSet (Session.connection s) (description o) ∈ L
    /\ rtcSessionId o = Session.id s /\ generation o = Session.generation s /\ descriptionSHA256 o = Session.localDescriptionSHA256 s;
  obj_remote : forall h, Session.remoteDescriptionSHA256 s = Some h ->
    exists d, RemoteSet (Session.connection s) d ∈ L /\ digest_of d h;
  obj_staged : Forall (fun e => Received (Session.peerId s) (sig_candidate e.2) ∈ L /\ validateRtcCandidate e.2 = Ok tt)
                      (Session.pendingCandidates s);
  obj_bound : zlen (Session.pendingCandidates s) <= maxRtcCandidatesPerDirection;
  obj_sent : Session.sentCandidates s <= maxRtcCandidatesPerDirection;
  obj_channel : forall ch, Session.channel s = Some ch -> prepareDataChannel ch = true;
}.

Definition is_object (objs : list Session) p i : Prop := exists s, objs !! i = Some s /\ Session.peerId s = p.

Definition call_ok L (objs : list Session) (call : Call) : Prop :=
  match call with
  | preparing_offer p _ n ch => Created p n ∈ L /\ prepareDataChannel ch = true
  | sending_offer p i | sending_answer p i | applying_staged p _ i _ | adding_candidate p _ i _ => is_object objs p i
  | validating p signal _ => Received p signal ∈ L
  | preparing_answer p o _ n => Created p n ∈ L /\ Received p (sig_offer o) ∈ L /\ genuine o /\ RemoteSet n (description o) ∈ L
  | setting_answer p a _ i => exists s, objs !! i = Some s /\ Session.peerId s = p
      /\ RemoteSet (Session.connection s) (description (answer_offer a)) ∈ L /\ genuine (answer_offer a)
  end.

(** The connection a call keeps for itself. *)
Definition call_connection (call : Call) : option nat :=
  match call with preparing_offer _ _ n _ | preparing_answer _ _ _ n => Some n | _ => None end.

Definition owned c : list nat := (Session.connection <$> objects c) ++ omap call_connection (calls c).

Record controller_ok c : Prop := mkControllerOk {
  ctl_log : justified cause [] (log c);
  ctl_objects : Forall (object_ok (log c)) (objects c);
  ctl_created : forall p n, Created p n ∈ log c -> (n < connections c)%nat;
  ctl_wf : map_wf (sessions c);
  ctl_sessions : forall p i, (p, i) ∈ sessions c -> exists s, objects c !! i = Some s /\ Session.peerId s = p
    /\ Closed (Session.connection s) ∉ log c;
  ctl_calls : Forall (call_ok (log c) (objects c)) (calls c);
  ctl_owned : NoDup (owned c);
  ctl_held : forall call n, call ∈ calls c -> call_connection call = Some n -> Closed n ∉ log c;
  ctl_capabilities : map_wf (capabilities c) /\ zlen (capabilities c) <= maxCapabilityEntries;
}.

(** ** Growing the log *)

Lemma object_ok_mono L L' s : L ⊆ L' -> object_ok L s -> object_ok L' s.
Proof.
  intros Hs [H1 (d & H2 & H3) H4 H5 H6 H7 H8 H9]. constructor; try done.
  - by apply Hs.
  - exists d. split; [by apply Hs | done].
  - intros Hr. destruct (H4 Hr) as (o & ? & ? & ?). exists o. split_and!; try tauto; by apply Hs.
  - intros h Hh. destruct (H5 h Hh) as (d' & ? & ?). exists d'. split; [by apply Hs | done].
  - eapply Forall_impl; [exact H6 |]. intros e [? ?]. split; [by apply Hs | done].
Qed.

Lemma call_ok_mono L L' objs call : L ⊆ L' -> call_ok L objs call -> call_ok L' objs call.
Proof.
  intros Hs. destruct call; cbn [call_ok]; try done.
  - intros [? ?]. split; [by apply Hs | done].
  - apply Hs.
  - intros (? & ? & ? & ?). split_and!; try done; by apply Hs.
  - intros (s & ? & ? & ? & ?). exists s. split_and!; try done. by apply Hs.
Qed.

Definition harmless c (e : Effect) : Prop :=
  match e with
  | Created _ n => (n < connections c)%nat
  | Closed n => (forall p i s, (p, i) ∈ sessions c -> objects c !! i = Some s -> Session.connection s <> n)
                /\ (forall call, call ∈ calls c -> call_connection call <> Some n)
  | _ => True
  end.

Lemma ok_emit e c : controller_ok c -> cause (log c) e -> harmless c e -> controller_ok (note e c).
Proof.
  intros [H1 H2 H3 H4 H5 H6 H7 H8 H9] Hc Hh.
  assert (Hclosed : forall n, Closed n ∈ log c ++ [e] -> Closed n ∈ log c \/ e = Closed n).
  { intros n Hin. apply elem_of_app in Hin as [?|Hin]; [by left |]. apply list_elem_of_singleton in Hin. by right. }
  constructor; cbn [log objects sessions calls connections capabilities note]; try done.
  - by apply justified_snoc.
  - eapply Forall_impl; [exact H2 |]. intros s. apply object_ok_mono, sub_snoc.
  - intros p n Hin. apply elem_of_app in Hin as [Hin|Hin]; [by eapply H3 |]. apply list_elem_of_singleton in Hin. by subst e.
  - intros p i Hin. destruct (H5 p i Hin) as (s & Hs & Ep & Hn). exists s. split_and!; [done | done |].
    intros [?| ->]%Hclosed; [done |]. destruct Hh as [Hh _]. by apply (Hh p i s).
  - eapply Forall_impl; [exact H6 |]. intros call. apply call_ok_mono, sub_snoc.
  - intros call n Hin Hn [Hcl| ->]%Hclosed; [by apply (H8 call n) |]. destruct Hh as [_ Hh]. by apply (Hh call Hin).
Qed.

(** ** Changing objects, calls and sessions *)

Definition same_place (s s' : Session) : Prop :=
  Session.peerId s' = Session.peerId s /\ Session.connection s' = Session.connection s.

Lemma alter_place (f : Session -> Session) i objs j s :
  (forall s0, objs !! i = Some s0 -> same_place s0 (f s0)) -> objs !! j = Some s ->
  exists s', alter f i objs !! j = Some s' /\ same_place s s'.
Proof.
  intros Hf Hj. destruct (decide (i = j)) as [->|Hne].
  - exists (f s). rewrite list_lookup_alter_eq, Hj. split; [done | by apply Hf].
  - exists s. rewrite list_lookup_alter_ne by done. by split.
Qed.

Lemma call_ok_place L objs objs' call :
  (forall j s, objs !! j = Some s -> exists s', objs' !! j = Some s' /\ same_place s s') ->
  call_ok L objs call -> call_ok L objs' call.
Proof.
  intros Hp. assert (H : forall p i, is_object objs p i -> is_object objs' p i).
  { intros p i (s & Hs & E). destruct (Hp i s Hs) as (s' & Hs' & Ep & _). exists s'. split; [done | congruence]. }
  destruct call; cbn [call_ok]; try done; try apply H.
  intros (s & Hs & E & Hr & Hg). destruct (Hp _ s Hs) as (s' & Hs' & Ep & Ec). exists s'. rewrite Ec. by split_and!; [|congruence |..].
Qed.

Lemma alter_connections (f : Session -> Session) i objs :
  (forall s0, objs !! i = Some s0 -> same_place s0 (f s0)) ->
  Session.connection <$> alter f i objs = Session.connection <$> objs.
Proof.
  intros Hf. apply list_eq. intros j. rewrite !list_lookup_fmap. destruct (decide (i = j)) as [<-|Hne].
  - rewrite list_lookup_alter_eq. destruct (objs !! i) as [s|] eqn:E; [|done]. cbn. f_equal. by apply Hf.
  - by rewrite list_lookup_alter_ne.
Qed.

Lemma ok_update i f c : controller_ok c ->
  (forall s, objects c !! i = Some s -> object_ok (log c) s -> same_place s (f s) /\ object_ok (log c) (f s)) ->
  controller_ok (update i f c).
Proof.
  intros [H1 H2 H3 H4 H5 H6 H7 H8 H9] Hf.
  assert (Hpl : forall s0, objects c !! i = Some s0 -> same_place s0 (f s0)).
  { intros s0 Hs. apply (Hf s0 Hs). by apply (Forall_lookup_1 _ _ _ _ H2 Hs). }
  constructor; cbn [log objects sessions calls connections capabilities update on_objects]; try done.
  - apply Forall_lookup. intros j s. destruct (decide (i = j)) as [<-|Hne].
    + rewrite list_lookup_alter_eq. destruct (objects c !! i) as [s0|] eqn:E; [|done]. intros [= <-].
      apply Hf; [done |]. by apply (Forall_lookup_1 _ _ _ _ H2 E).
    + rewrite list_lookup_alter_ne by done. apply (Forall_lookup_1 _ _ _ _ H2).
  - intros p j Hin. destruct (H5 p j Hin) as (s & Hs & Ep & Hn).
    destruct (alter_place f i _ j s Hpl Hs) as (s' & Hs' & Ep' & Ec'). exists s'. split_and!; [done | congruence | congruence].
  - eapply Forall_impl; [exact H6 |]. intros call. apply call_ok_place. intros j s. by apply alter_place.
  - unfold owned in *. cbn [objects calls update on_objects]. by rewrite alter_connections.
Qed.

Lemma ok_suspend call c : controller_ok c -> call_ok (log c) (objects c) call ->
  (forall n, call_connection call = Some n -> (n ∉ owned c) /\ (Closed n ∉ log c)) ->
  controller_ok (suspend call c).
Proof.
  intros [H1 H2 H3 H4 H5 H6 H7 H8 H9] Hc Hn.
  constructor; cbn [log objects sessions calls connections capabilities suspend on_calls]; try done.
  - apply Forall_app. split; [done |]. by apply Forall_singleton.
  - unfold owned in *. cbn [objects calls suspend on_calls]. rewrite omap_app, app_assoc. apply NoDup_app. split; [done |]. cbn.
    destruct (call_connection call) as [n|] eqn:E; cbn; [|split; [intros x _; apply not_elem_of_nil | apply NoDup_nil_2]].
    split; [|apply NoDup_singleton]. intros x Hx Hx2. apply list_elem_of_singleton in Hx2 as ->. destruct (Hn n eq_refl) as [Hn2 _]. by apply Hn2.
  - intros call' n Hin Hcn. apply elem_of_app in Hin as [Hin|Hin]; [by apply (H8 call') |].
    apply list_elem_of_singleton in Hin as ->. by apply Hn.
Qed.

Lemma omap_delete_sublist {A B} (f : A -> option B) (l : list A) k : omap f (delete k l) `sublist_of` omap f l.
Proof.
  revert k. induction l as [|x l IH]; intros [|k]; [done | done | |]; cbn.
  - destruct (f x); [by apply sublist_cons |]; done.
  - destruct (f x); [apply sublist_skip, IH | apply IH].
Qed.

(** A call settles: what it held is nobody's now. *)
Lemma ok_settle k call c : controller_ok c -> calls c !! k = Some call ->
  let c' := on_calls (delete k (calls c)) c in
  controller_ok c' /\ call_ok (log c') (objects c') call
  /\ forall n, call_connection call = Some n -> (n ∉ owned c') /\ (Closed n ∉ log c')
       /\ (forall call', call' ∈ calls c' -> call_connection call' <> Some n).
Proof.
  intros [H1 H2 H3 H4 H5 H6 H7 H8 H9] Hk c'.
  assert (Hsplit : owned c ≡ₚ owned c' ++ match call_connection call with Some n => [n] | None => [] end).
  { unfold owned, c'. cbn [objects calls on_calls]. rewrite <- app_assoc. apply Permutation_app_head.
    rewrite (delete_Permutation (calls c) k call Hk) at 1. cbn. destruct (call_connection call); cbn.
    - by rewrite Permutation_app_comm.
    - by rewrite app_nil_r. }
  split_and!.
  - constructor; cbn [log objects sessions calls connections capabilities on_calls]; try done.
    + by apply Forall_delete.
    + rewrite Hsplit in H7. by apply NoDup_app in H7 as [? _].
    + intros call' n Hin. apply (H8 call' n). exact (list_elem_of_delete (calls c) k call' Hin).
  - by apply (Forall_lookup_1 _ _ _ _ H6 Hk).
  - intros n Hn. rewrite Hn in Hsplit. rewrite Hsplit in H7. apply NoDup_app in H7 as (_ & H7 & _).
    assert (Hni : n ∉ owned c') by (intros Hin; apply (H7 n Hin), list_elem_of_singleton; done).
    split_and!; [done | by apply (H8 call n); [eapply list_elem_of_lookup_2 |] |].
    intros call' Hin Hcn. apply Hni. unfold owned. apply elem_of_app. right. apply list_elem_of_omap. by exists call'.
Qed.

Lemma ok_capabilities m c : controller_ok c -> map_wf m -> zlen m <= maxCapabilityEntries -> controller_ok (on_capabilities m c).
Proof. intros [H1 H2 H3 H4 H5 H6 H7 H8 H9] ? ?. by constructor. Qed.

Lemma ok_staged m c : controller_ok c -> controller_ok (on_staged m c).
Proof. intros [H1 H2 H3 H4 H5 H6 H7 H8 H9]. by constructor. Qed.

Lemma ok_fewer_sessions m c : controller_ok c -> m `sublist_of` sessions c -> controller_ok (on_sessions m c).
Proof.
  intros [H1 H2 H3 H4 H5 H6 H7 H8 H9] Hm. constructor; cbn [log objects sessions calls connections capabilities on_sessions]; try done.
  - unfold map_wf, map_keys in *. eapply sublist_NoDup; [exact H4 | by apply fmap_sublist].
  - intros p i Hin. apply H5. by eapply elem_of_sublist.
Qed.

Lemma current_Some p c i s : current p c = Some (i, s) -> map_get (sessions c) p = Some i /\ objects c !! i = Some s.
Proof.
  unfold current. destruct (map_get (sessions c) p) as [j|] eqn:E; [|done]. destruct (objects c !! j) as [s'|] eqn:E2; [|done].
  by intros [= -> ->].
Qed.

Lemma current_place p c i s : controller_ok c -> current p c = Some (i, s) ->
  Session.peerId s = p /\ object_ok (log c) s /\ Closed (Session.connection s) ∉ log c.
Proof.
  intros Hc E. apply current_Some in E as [E1 E2]. apply map_get_Some_elem in E1.
  destruct (ctl_sessions c Hc p i E1) as (s' & Hs' & Ep & Hn). assert (s' = s) as -> by congruence.
  split_and!; [done | | done]. by apply (Forall_lookup_1 _ _ _ _ (ctl_objects c Hc) E2).
Qed.

(** Two objects have two connections, and no call holds one of them. *)
Lemma same_connection c i j s s' : controller_ok c -> objects c !! i = Some s -> objects c !! j = Some s' ->
  Session.connection s = Session.connection s' -> i = j.
Proof.
  intros Hc Hi Hj E. pose proof (ctl_owned c Hc) as Hn. unfold owned in Hn. apply NoDup_app in Hn as (Hn & _ & _).
  eapply (NoDup_lookup _ _ _ (Session.connection s) Hn); rewrite list_lookup_fmap; [by rewrite Hi | by rewrite Hj, E].
Qed.

Lemma object_not_held c i s call : controller_ok c -> objects c !! i = Some s -> call ∈ calls c ->
  call_connection call <> Some (Session.connection s).
Proof.
  intros Hc Hi Hin E. pose proof (ctl_owned c Hc) as Hn. unfold owned in Hn. apply NoDup_app in Hn as (_ & Hn & _).
  apply (Hn (Session.connection s)).
  - apply list_elem_of_fmap. exists s. split; [done | by eapply list_elem_of_lookup_2].
  - apply list_elem_of_omap. by exists call.
Qed.

(** ** Housekeeping *)

(** What dropping sessions leaves alone. *)
Record housekept c c' : Prop := mkHousekept {
  hk_ok : controller_ok c';
  hk_log : log c ⊆ log c';
  hk_calls : calls c' = calls c;
  hk_objects : objects c' = objects c;
  hk_closed : forall n, Closed n ∈ log c' -> Closed n ∈ log c \/ n ∈ Session.connection <$> objects c;
}.

Lemma housekept_refl c : controller_ok c -> housekept c c.
Proof. intros H. constructor; try done. intros n Hn. by left. Qed.

Lemma housekept_trans c1 c2 c3 : housekept c1 c2 -> housekept c2 c3 -> housekept c1 c3.
Proof.
  intros [H1 H2 H3 H4 H5] [G1 G2 G3 G4 G5]. constructor; [done | set_solver | congruence | congruence |].
  intros n Hn. destruct (G5 n Hn) as [Hn2|Hn2]; [by apply H5 | right; by rewrite H4 in Hn2].
Qed.

Definition silent (e : Effect) : bool :=
  match e with Received _ _ | ChannelClosed _ | Started _ _ | Answered _ _ => true | _ => false end.

Lemma ok_silent e c : controller_ok c -> silent e = true -> controller_ok (note e c).
Proof. intros Hc He. apply ok_emit; [done | |]; by destruct e. Qed.

Lemma silent_closed e L n : silent e = true -> Closed n ∈ L ++ [e] -> Closed n ∈ L.
Proof. intros He Hin. apply elem_of_app in Hin as [?|Hin]; [done |]. apply list_elem_of_singleton in Hin as <-. done. Qed.

Lemma drop_keeps p c : controller_ok c -> housekept c (drop_session p c).
Proof.
  intros Hc. unfold drop_session. pose proof (ok_fewer_sessions (map_delete (sessions c) p) c Hc) as Hd.
  assert (Hsub : map_delete (sessions c) p `sublist_of` sessions c) by (rewrite map_delete_filter; apply sublist_filter).
  specialize (Hd Hsub). destruct (current p c) as [[i s]|] eqn:Ecur.
  2: { constructor; try done. intros n Hn. by left. }
  destruct (current_Some _ _ _ _ Ecur) as [Emap Eobj]. destruct (current_place _ _ _ _ Hc Ecur) as (Ep & Hobj & Hopen).
  set (c0 := on_sessions (map_delete (sessions c) p) c) in *.
  set (c1 := match Session.channel s with Some ch => note (ChannelClosed ch) c0 | None => c0 end).
  assert (H1 : controller_ok c1 /\ log c ⊆ log c1 /\ calls c1 = calls c /\ objects c1 = objects c
               /\ sessions c1 = map_delete (sessions c) p /\ forall n, Closed n ∈ log c1 -> Closed n ∈ log c).
  { unfold c1. destruct (Session.channel s) as [ch|]; [|by split_and!]. split_and!; try done.
    - by apply ok_silent.
    - apply sub_snoc.
    - intros n Hn. by apply (silent_closed (ChannelClosed ch)) in Hn. }
  destruct H1 as (Hc1 & Hl1 & Hcalls1 & Hobj1 & Hs1 & Hcl1).
  replace (on_sessions (map_delete (sessions c) p)
    (note (Closed (Session.connection s)) match Session.channel s with Some ch => note (ChannelClosed ch) c | None => c end))
    with (note (Closed (Session.connection s)) c1) by (unfold c1; by destruct (Session.channel s)).
  constructor.
  - apply ok_emit; [done | |].
    + exists (Session.peerId s). apply Hl1, Hobj.
    + cbn [harmless]. rewrite Hs1, Hobj1, Hcalls1. split.
      * intros p' j s' Hin Hj E. pose proof (same_connection c j i s' s Hc Hj Eobj E) as ->.
        apply list_elem_of_In, list_elem_of_In in Hin. rewrite map_delete_filter, list_elem_of_filter in Hin. destruct Hin as [Hne Hin].
        cbn [fst] in Hne. apply Hne. destruct (ctl_sessions c Hc p' i Hin) as (s'' & Hs'' & Ep'' & _). congruence.
      * intros call Hin. by apply (object_not_held c i s call Hc).
  - intros x Hx. cbn [log note]. apply elem_of_app. left. by apply Hl1.
  - done.
  - done.
  - intros n Hn. cbn [log note] in Hn. apply elem_of_app in Hn as [Hn|Hn]; [left; by apply Hcl1 |].
    apply list_elem_of_singleton in Hn as [= ->]. right. apply list_elem_of_fmap. exists s. split; [done |].
    by eapply list_elem_of_lookup_2.
Qed.

Lemma makeRoom_keeps c : controller_ok c -> housekept c (makeRoom c).2.
Proof.
  intros Hc. unfold makeRoom. destruct (_ <? _); [by apply housekept_refl |].
  destruct (sessions c) as [|[oldest i] m]; [by apply housekept_refl | by apply drop_keeps].
Qed.

Lemma prune_keeps now c : controller_ok c -> housekept c (prune_controller now c).
Proof.
  intros Hc. unfold prune_controller. set (c0 := on_capabilities _ c).
  assert (H0 : housekept c c0).
  { destruct (ctl_capabilities c Hc) as [Hw Hb]. constructor; try done; [|intros n Hn; by left].
    apply ok_capabilities; [done | by apply map_delete_if_wf |].
    pose proof (map_delete_if_size (fun _ entry => entry.2 <=? now) (capabilities c)). lia. }
  generalize (map_keys (sessions c0)) as keys. clearbody c0. intros keys. revert c0 H0.
  induction keys as [|p keys IH]; intros c0 H0; [done |]. cbn [foldl]. apply IH.
  eapply housekept_trans; [exact H0 |]. pose proof (hk_ok _ _ H0) as Hc0. unfold drop_expired.
  destruct (current p c0) as [[i s]|]; [|by apply housekept_refl].
  destruct (_ <=? _); [by apply drop_keeps | by apply housekept_refl].
Qed.

(** A connection that nobody has seen before. *)
Lemma create_spec p c : controller_ok c ->
  let '(n, c') := create_connection p c in
  controller_ok c' /\ log c' = log c ++ [Created p n] /\ calls c' = calls c /\ objects c' = objects c
  /\ (n ∉ owned c') /\ (Closed n ∉ log c') /\ sessions c' = sessions c /\ (forall p, Created p n ∉ log c).
Proof.
  intros Hc. unfold create_connection. set (n := connections c).
  assert (Hfresh : forall p, Created p n ∉ log c).
  { intros p' Hin. pose proof (ctl_created c Hc p' n Hin). unfold n in *. lia. }
  assert (Hown : forall n', n' ∈ owned c -> exists p, Created p n' ∈ log c).
  { intros n' Hin. unfold owned in Hin. apply elem_of_app in Hin as [Hin|Hin].
    - apply list_elem_of_fmap in Hin as (s & -> & Hin). exists (Session.peerId s).
      pose proof (ctl_objects c Hc) as Ho. rewrite Forall_forall in Ho. apply (Ho s Hin).
    - apply list_elem_of_omap in Hin as (call & Hin & E). pose proof (ctl_calls c Hc) as Ho. rewrite Forall_forall in Ho.
      specialize (Ho call Hin). destruct call; try done; injection E as ->; cbn [call_ok] in Ho; eexists; apply Ho. }
  assert (Hno : Closed n ∉ log c).
  { intros Hin. apply list_elem_of_split in Hin as (l & k & El). pose proof (ctl_log c Hc) as Hj. rewrite El in Hj.
    apply justified_cause in Hj as (p' & Hin). apply (Hfresh p'). rewrite El. apply elem_of_app. by left. }
  split_and!; try done.
  - apply ok_emit; [|done | cbn; lia]. destruct Hc as [H1 H2 H3 H4 H5 H6 H7 H8 H9]. constructor; try done.
    intros p' n' Hin. specialize (H3 p' n' Hin). cbn. lia.
  - intros Hin. destruct (Hown n Hin) as (p' & Hp). by apply (Hfresh p').
  - cbn [log note]. intros Hin. apply elem_of_app in Hin as [Hin|Hin]; [done |]. by apply list_elem_of_singleton in Hin.
Qed.

(** A new object for a connection that a call held. *)
Lemma register_ok s c : controller_ok c -> object_ok (log c) s -> Closed (Session.connection s) ∉ log c ->
  Session.connection s ∉ owned c -> controller_ok (register s c).2.
Proof.
  intros [H1 H2 H3 H4 H5 H6 H7 H8 H9] Ho Hopen Hfree. unfold register. cbn [snd].
  assert (Hkeep : forall i s0, objects c !! i = Some s0 -> (objects c ++ [s]) !! i = Some s0).
  { intros i s0 E. rewrite lookup_app_l; [done | by eapply lookup_lt_Some]. }
  constructor; cbn [log objects sessions calls connections capabilities on_sessions on_objects]; try done.
  - apply Forall_app. split; [done |]. by apply Forall_singleton.
  - by apply map_set_wf.
  - intros p i Hin. destruct (decide (p = Session.peerId s)) as [->|Hne].
    + apply elem_map_get in Hin; [|by apply map_set_wf]. rewrite map_get_set_eq in Hin. injection Hin as <-.
      exists s. rewrite lookup_app_r, Nat.sub_diag by done. by split_and!.
    + apply elem_map_get in Hin; [|by apply map_set_wf]. rewrite map_get_set_ne in Hin by done. apply map_get_Some_elem in Hin.
      destruct (H5 p i Hin) as (s0 & Hs0 & Ep & Hn). exists s0. split_and!; [by apply Hkeep | done | done].
  - eapply Forall_impl; [exact H6 |]. intros call. apply call_ok_place. intros j s0 Hj. exists s0. split; [by apply Hkeep | done].
  - unfold owned in *. cbn [objects calls on_sessions on_objects]. rewrite fmap_app. cbn [fmap list_fmap].
    rewrite <- app_assoc. cbn [app]. rewrite <- Permutation_middle. apply NoDup_cons. by split.
Qed.

Lemma unowned_harmless n c : n ∉ owned c -> harmless c (Closed n).
Proof.
  intros Hn. split.
  - intros p i s _ Hi <-. apply Hn. unfold owned. apply elem_of_app. left. apply list_elem_of_fmap. exists s.
    split; [done | by eapply list_elem_of_lookup_2].
  - intros call Hin E. apply Hn. unfold owned. apply elem_of_app. right. apply list_elem_of_omap. by exists call.
Qed.

(** ** The operations *)

Lemma object_in c i s : controller_ok c -> objects c !! i = Some s -> object_ok (log c) s.
Proof. intros Hc Hi. apply (Forall_lookup_1 _ _ _ _ (ctl_objects c Hc) Hi). Qed.

Lemma publish_ok i c : controller_ok c -> controller_ok (publishDataChannel i c).
Proof.
  intros Hc. unfold publishDataChannel. destruct (objects c !! i) as [s|] eqn:Hi; [|done].
  destruct (Session.channel s) as [ch|] eqn:Ech; [|done]. apply ok_emit; [done | | done]. by apply (obj_channel _ _ (object_in _ _ _ Hc Hi)).
Qed.

Lemma publish_keeps i c : log c ⊆ log (publishDataChannel i c) /\ objects (publishDataChannel i c) = objects c.
Proof. unfold publishDataChannel. repeat case_match; (split; [|done]); try done. apply sub_snoc. Qed.

Lemma accept_ok i ch c : controller_ok c -> controller_ok (acceptDataChannel i ch c).
Proof.
  intros Hc. unfold acceptDataChannel. destruct (objects c !! i) as [s|] eqn:Hi; [|done].
  destruct (_ || _ || _) eqn:E; [by apply ok_silent |]. apply publish_ok, ok_update; [done |]. bool_props.
  intros s0 _ [O1 O2 O3 O4 O5 O6 O7 O8]. split; [done |]. constructor; try done. by intros ch' [= <-].
Qed.

Lemma accept_keeps i ch c p j : is_object (objects c) p j ->
  log c ⊆ log (acceptDataChannel i ch c) /\ is_object (objects (acceptDataChannel i ch c)) p j.
Proof.
  intros Hj. unfold acceptDataChannel. destruct (objects c !! i) as [s|] eqn:Hi; [|done].
  destruct (_ || _ || _); [split; [apply sub_snoc | done] |].
  destruct (publish_keeps i (update i (Session.set_channel (Some ch)) c)) as [Hl Ho]. split; [exact Hl |]. rewrite Ho.
  destruct Hj as (s0 & H0 & E0). destruct (alter_place (Session.set_channel (Some ch)) i (objects c) j s0) as (s1 & H1 & Ep & _); [done | done |].
  exists s1. split; [done | congruence].
Qed.

Lemma start_ok p now ch c : controller_ok c -> controller_ok (start p now ch c).
Proof.
  intros Hc. unfold start. pose proof (hk_ok _ _ (prune_keeps now c Hc)) as Hc0. set (c0 := prune_controller now c) in *. clearbody c0.
  destruct (map_get (capabilities c0) p) as [[v ex]|]; [|by apply ok_silent]. destruct (_ || _ || _); [by apply ok_silent |].
  pose proof (hk_ok _ _ (makeRoom_keeps c0 Hc0)) as Hc1. destruct (makeRoom c0) as [room c1]. cbn [snd] in Hc1.
  destruct (negb room); [by apply ok_silent |]. pose proof (create_spec p c1 Hc1) as Hcr.
  destruct (create_connection p c1) as [n c2]. destruct Hcr as (Hc2 & El & Ecalls & Eobj & Hfree & Hopen & _ & _).
  assert (Hin : Created p n ∈ log c2) by (rewrite El; apply elem_of_app; right; by apply list_elem_of_singleton).
  destruct (prepareDataChannel ch) eqn:Ech; cbn [negb].
  - apply ok_suspend; [done | by split |]. intros n' [= <-]. by split.
  - apply ok_silent; [|done]. apply ok_emit; [done | by exists p | by apply unowned_harmless].
Qed.

Lemma describe_Ok d digest fingerprint : describe sha256 d = Ok (digest, fingerprint) ->
  digest_of d digest /\ extractDTLSFingerprintSHA256 d = Ok fingerprint.
Proof. unfold describe, digest_of. destruct (rtcDescriptionSHA256 sha256 d), (extractDTLSFingerprintSHA256 d); try done. by intros [= -> ->]. Qed.

Lemma register_object s c : is_object (objects (register s c).2) (Session.peerId s) (register s c).1.
Proof. exists s. cbn. by rewrite lookup_app_r, Nat.sub_diag. Qed.

Lemma emit_in e L : e ∈ L ++ [e].
Proof. apply elem_of_app. right. by apply list_elem_of_singleton. Qed.

Lemma offer_prepared_ok p now n ch created local_ok id c : controller_ok c -> call_ok (log c) (objects c) (preparing_offer p now n ch) ->
  n ∉ owned c -> Closed n ∉ log c -> controller_ok (offer_prepared sha256 p now n ch created local_ok id c).
Proof.
  intros Hc [Hcr Hch] Hfree Hopen. unfold offer_prepared. destruct created as [d|]; [|by apply ok_silent].
  destruct (describe sha256 d) as [[digest fp]|] eqn:Ed; [|by apply ok_silent]. apply describe_Ok in Ed as [Ed Ef].
  set (c1 := note (LocalSet n d) c). assert (Hc1 : controller_ok c1) by (apply ok_emit; [done | by exists p | done]).
  destruct (negb local_ok); [by apply ok_silent |].
  set (body := mkRtcOffer rtcSignalingVersion id 0 d digest fp). set (s := fresh_session p id 0 offerer n digest None now (Some ch)).
  set (c2 := note (SignalSent p (sig_offer body)) c1).
  assert (Hcr1 : Created p n ∈ log c1) by (by apply sub_snoc).
  assert (Hc2 : controller_ok c2).
  { apply ok_emit; [done | | done]. exists n. split_and!; [done | apply emit_in | by split]. }
  change (controller_ok (suspend (sending_offer p (register s c2).1) (register s c2).2)).
  assert (Hs : object_ok (log c2) s).
  { constructor; cbn [s fresh_session Session.peerId Session.connection Session.localDescriptionSHA256 Session.remoteDescriptionSHA256
      Session.pendingCandidates Session.sentCandidates Session.channel Session.role Session.id Session.generation]; try done.
    - by apply sub_snoc.
    - exists d. split; [apply sub_snoc, emit_in | done].
    - intros _. exists body. split_and!; try done; [apply emit_in | apply sub_snoc, emit_in].
    - by intros ch' [= <-]. }
  assert (Hopen2 : Closed n ∉ log c2).
  { intros Hin. do 2 (apply elem_of_app in Hin as [Hin|Hin]; [|by apply list_elem_of_singleton in Hin]). done. }
  apply ok_suspend; [by apply register_ok | exact (register_object s c2) | done].
Qed.

Lemma sent_ok p i (sent : bool) e1 e2 c : controller_ok c -> silent e1 = true -> silent e2 = true ->
  controller_ok (if sent then note e1 (publishDataChannel i c) else note e2 (drop_session p c)).
Proof.
  intros Hc H1 H2. destruct sent; apply ok_silent; try done; [by apply publish_ok | apply (hk_ok _ _ (drop_keeps p c Hc))].
Qed.

Lemma connect_ok p offer now c : controller_ok c -> Received p (sig_offer offer) ∈ log c ->
  validateRtcOffer sha256 offer = Ok tt -> genuine offer ->
  controller_ok (let '(room, c) := makeRoom c in
    if negb room then note (Answered p r_rejected) c
    else let '(n, c) := create_connection p c in
         suspend (preparing_answer p offer now n) (note (RemoteSet n (description offer)) c)).
Proof.
  intros Hc Hrec Hval Hgen. pose proof (makeRoom_keeps c Hc) as [Hc1 Hl1 _ _ _].
  destruct (makeRoom c) as [room c1]. cbn [snd] in *. destruct (negb room); [by apply ok_silent |].
  pose proof (create_spec p c1 Hc1) as Hcr. destruct (create_connection p c1) as [n c2].
  destruct Hcr as (Hc2 & El & Ecalls & Eobj & Hfree & Hopen & _ & _).
  assert (Hin : Created p n ∈ log c2) by (rewrite El; apply emit_in).
  assert (Hrec2 : Received p (sig_offer offer) ∈ log c2) by (rewrite El; by apply sub_snoc, Hl1).
  apply ok_suspend.
  - apply ok_emit; [done | | done]. exists p. split; [done |]. left. by exists offer.
  - cbn [call_ok log note]. split_and!; [by apply sub_snoc | by apply sub_snoc | exact Hgen | apply emit_in].
  - intros n' [= <-]. split; [done |]. cbn [log note]. intros Hcl. apply elem_of_app in Hcl as [Hcl|Hcl]; [done |].
    by apply list_elem_of_singleton in Hcl.
Qed.

Lemma validated_genuine o fp : validateRtcDescription sha256 o fp = Ok tt ->
  digest_of (description o) (descriptionSHA256 o).
Proof.
  unfold validateRtcDescription, digest_of. destruct (_ || _ || _ || _ || _ || _); [done |].
  destruct (rtcDescriptionSHA256 sha256 (description o)) as [h|]; [|done]. destruct (str_eqb h (descriptionSHA256 o)) eqn:E; [|done].
  by apply str_eqb_true in E as ->.
Qed.

Lemma offer_validated_ok p offer now c : controller_ok c -> Received p (sig_offer offer) ∈ log c ->
  controller_ok (offer_validated sha256 localPeerId p offer now c).
Proof.
  intros Hc Hrec. unfold offer_validated. cbv zeta. destruct (validateRtcOffer sha256 offer) as [[]|] eqn:Ev; [|by apply ok_silent].
  destruct (extractDTLSFingerprintSHA256 (description offer)) as [fp|] eqn:Ef; [|by apply ok_silent].
  destruct (str_eqb fp (dtlsFingerprintSHA256 offer)) eqn:Eq; cbn [negb]; [|by apply ok_silent].
  apply str_eqb_true in Eq as ->.
  assert (Hgen : genuine offer) by (split; [by eapply validated_genuine | done]).
  destruct (current p c) as [[i s]|]; [|by apply connect_ok].
  destruct (Session.role s).
  - destruct (js_ltb localPeerId p); [by apply ok_silent |]. destruct (drop_keeps p c Hc) as [Hd Hl _ _ _].
    apply connect_ok; [done | by apply Hl | done | done].
  - destruct (_ && _); by apply ok_silent.
Qed.

Lemma answer_prepared_ok p offer now n created local_ok c : controller_ok c ->
  call_ok (log c) (objects c) (preparing_answer p offer now n) -> n ∉ owned c -> Closed n ∉ log c ->
  controller_ok (answer_prepared sha256 p offer now n created local_ok c).
Proof.
  intros Hc (Hcr & Hrec & Hgen & Hrem) Hfree Hopen. unfold answer_prepared. destruct created as [d|]; [|by apply ok_silent].
  destruct (describe sha256 d) as [[digest fp]|] eqn:Ed; [|by apply ok_silent]. apply describe_Ok in Ed as [Ed Ef].
  set (c1 := note (LocalSet n d) c). assert (Hc1 : controller_ok c1) by (apply ok_emit; [done | by exists p | done]).
  assert (Hsub : log c ⊆ log c1) by apply sub_snoc.
  destruct (negb local_ok); [by apply ok_silent |].
  set (s := fresh_session p (rtcSessionId offer) (generation offer) answerer n digest (Some (descriptionSHA256 offer)) now None).
  destruct (register s c1) as [i c2] eqn:Er.
  assert (Hs : object_ok (log c1) s).
  { constructor; cbn [s fresh_session Session.peerId Session.connection Session.localDescriptionSHA256 Session.remoteDescriptionSHA256
      Session.pendingCandidates Session.sentCandidates Session.channel Session.role Session.id Session.generation]; try done.
    - by apply Hsub.
    - exists d. split; [apply emit_in | done].
    - intros h [= <-]. exists (description offer). split; [by apply Hsub | apply Hgen]. }
  assert (Hopen1 : Closed n ∉ log c1).
  { intros Hin. apply elem_of_app in Hin as [Hin|Hin]; [done |]. by apply list_elem_of_singleton in Hin. }
  pose proof (register_ok s c1 Hc1 Hs Hopen1 Hfree) as Hc2. pose proof (register_object s c1) as Hobj. rewrite Er in Hc2, Hobj.
  cbn [fst snd] in Hc2, Hobj. assert (El2 : log c2 = log c1) by (unfold register in Er; by injection Er as <- <-).
  set (c3 := match map_get (stagedChannels c2) n with Some _ => _ | None => c2 end).
  assert (H3 : controller_ok c3 /\ log c2 ⊆ log c3 /\ is_object (objects c3) p i).
  { unfold c3. destruct (map_get (stagedChannels c2) n) as [ch|]; [|done].
    destruct (accept_keeps i ch (on_staged (map_delete (stagedChannels c2) n) c2) p i) as [H1 H2]; [done |].
    split; [by apply accept_ok, ok_staged | done]. }
  destruct H3 as (Hc3 & Hl3 & Hobj3). rewrite El2 in Hl3.
  set (body := mkRtcAnswer _ _). apply ok_suspend; [|exact Hobj3 | done].
  apply ok_emit; [done | | done]. exists n, offer. split_and!; try done.
  - by apply Hl3, Hsub.
  - by apply Hl3, Hsub.
  - by apply Hl3, Hsub.
  - apply Hl3, emit_in.
Qed.

Lemma answer_validated_ok p a now c : controller_ok c -> Received p (sig_answer a) ∈ log c ->
  controller_ok (answer_validated sha256 p a now c).
Proof.
  intros Hc Hrec. unfold answer_validated. cbv zeta. destruct (validateRtcAnswer sha256 a) as [[]|] eqn:Ev; [|by apply ok_silent].
  destruct (extractDTLSFingerprintSHA256 _) as [fp|] eqn:Ef; [|by apply ok_silent].
  destruct (str_eqb fp _) eqn:Eq; cbn [negb]; [|by apply ok_silent]. apply str_eqb_true in Eq as ->.
  assert (Hgen : genuine (answer_offer a)).
  { split; [|done]. unfold validateRtcAnswer in Ev. step Ev as x Ex. destruct x. by eapply validated_genuine. }
  destruct (current p c) as [[i s]|] eqn:Ecur; [|by apply ok_silent].
  destruct (negb _ || _ || _ || _) eqn:Eg; [by apply ok_silent |].
  destruct (bool_decide (_ = Some _)); [by apply ok_silent |]. destruct (bool_decide (is_Some _)); [by apply ok_silent |].
  bool_props. destruct (current_place _ _ _ _ Hc Ecur) as (Ep & Hobj & Hopen). destruct (current_Some _ _ _ _ Ecur) as [_ Eobj].
  repeat match goal with H : str_eqb _ _ = true |- _ => apply str_eqb_true in H end.
  destruct (obj_offer _ _ Hobj ltac:(assumption)) as (o & Hsig & Hloc & Eid & Egen & Esha).
  apply ok_suspend; [| |done].
  - apply ok_emit; [done | | done]. exists p. split; [rewrite <- Ep; apply Hobj |]. right. exists a, o.
    split_and!; [done | done | done | done | by rewrite <- Ep | split_and!; congruence | done].
  - exists s. split_and!; [done | done | apply emit_in | done].
Qed.

(** ** Candidates *)

Lemma next_staged_spec remote staged :
  let '(next, rest) := next_staged remote staged in
  rest `sublist_of` staged
  /\ match next with Some (key, cand) => (key, cand) ∈ staged /\ Some (cand_descriptionSHA256 cand) = remote | None => True end.
Proof.
  induction staged as [|[key cand] staged IH]; cbn [next_staged]; [by split |]. case_bool_decide as E.
  - split; [by apply sublist_cons | split; [apply elem_of_cons; by left | done]].
  - destruct (next_staged remote staged) as [[[key' cand']|] rest]; destruct IH as [H1 H2]; (split; [by apply sublist_cons |]); [|done].
    destruct H2 as [H2 H3]. split; [apply elem_of_cons; by right | done].
Qed.

Lemma fewer_staged L s rest : rest `sublist_of` Session.pendingCandidates s -> object_ok L s -> object_ok L (Session.set_pending rest s).
Proof.
  intros Hsub [O1 O2 O3 O4 O5 O6 O7 O8]. constructor; try done; cbn [Session.pendingCandidates Session.set_pending Session.peerId].
  - by eapply Forall_sublist.
  - pose proof (sublist_length _ _ Hsub). unfold zlen in *. lia.
Qed.

Lemma static_ok L s (f : Session -> Session) :
  Session.pendingCandidates (f s) = Session.pendingCandidates s -> Session.sentCandidates (f s) = Session.sentCandidates s ->
  Session.channel (f s) = Session.channel s -> Session.remoteDescriptionSHA256 (f s) = Session.remoteDescriptionSHA256 s ->
  Session.peerId (f s) = Session.peerId s -> Session.connection (f s) = Session.connection s ->
  Session.localDescriptionSHA256 (f s) = Session.localDescriptionSHA256 s -> Session.role (f s) = Session.role s ->
  Session.id (f s) = Session.id s -> Session.generation (f s) = Session.generation s ->
  object_ok L s -> object_ok L (f s).
Proof. intros E1 E2 E3 E4 E5 E6 E7 E8 E9 E10 [O1 O2 O3 O4 O5 O6 O7 O8]. constructor; rewrite ?E1, ?E2, ?E3, ?E4, ?E5, ?E6, ?E7, ?E8, ?E9, ?E10; done. Qed.

Lemma ok_expires i t c : controller_ok c -> controller_ok (update i (Session.set_expires t) c).
Proof. intros Hc. apply ok_update; [done |]. intros s _ Hs. split; [done | by apply static_ok]. Qed.

Lemma ok_received i key c : controller_ok c -> controller_ok (mark_received i key c).
Proof.
  intros Hc. apply ok_update; [done |]. intros s _ Hs. split; [done |].
  by apply (static_ok _ s (fun s => Session.set_received (set_add (Session.receivedCandidates s) key) s)).
Qed.

Lemma update_object (f : Session -> Session) i c p j : (forall s, same_place s (f s)) ->
  is_object (objects c) p j -> is_object (objects (update i f c)) p j.
Proof.
  intros Hf (s & Hs & Ep). destruct (alter_place f i (objects c) j s) as (s' & Hs' & Ep' & _); [by intros | done |].
  exists s'. split; [done | congruence].
Qed.

Lemma apply_staged_ok p now i c : controller_ok c -> is_object (objects c) p i -> controller_ok (apply_staged p now i c).
Proof.
  intros Hc Hp. unfold apply_staged. destruct (objects c !! i) as [s|] eqn:Hi; [|done].
  pose proof (object_in c i s Hc Hi) as Hobj.
  pose proof (next_staged_spec (Session.remoteDescriptionSHA256 s) (Session.pendingCandidates s)) as Hn.
  destruct (next_staged _ _) as [next rest]. destruct Hn as [Hsub Hn].
  assert (Hc1 : controller_ok (update i (Session.set_pending rest) c)).
  { apply ok_update; [done |]. intros s0 E0 H0. split; [done |]. assert (s0 = s) as -> by congruence. by apply fewer_staged. }
  destruct next as [[key cand]|]; [|by apply ok_silent, eq_refl; apply ok_expires].
  destruct Hn as [Hin Erem]. symmetry in Erem. destruct (obj_remote _ _ Hobj _ Erem) as (d & Hd & Hdig).
  pose proof (obj_staged _ _ Hobj) as Hst. rewrite Forall_forall in Hst. destruct (Hst _ Hin) as [Hrec Hval].
  apply ok_suspend; [| |done].
  - apply ok_emit; [done | | done]. exists (Session.peerId s), d. split_and!; [apply Hobj | done | done | done | done].
  - by apply (update_object (Session.set_pending rest) i c p i).
Qed.

Lemma answer_set_ok p a now i ok c : controller_ok c -> call_ok (log c) (objects c) (setting_answer p a now i) ->
  controller_ok (answer_set p a now i ok c).
Proof.
  intros Hc (s & Hi & Ep & Hrem & Hgen & _). unfold answer_set. destruct (negb ok); [by apply ok_silent |].
  apply apply_staged_ok; [|apply update_object; [done | by exists s]].
  apply ok_update; [done |]. intros s0 E0 [O1 O2 O3 O4 O5 O6 O7 O8]. assert (s0 = s) as -> by congruence. split; [done |].
  constructor; try done. intros h [= <-]. by exists (description (answer_offer a)).
Qed.

Lemma staged_applied_ok p now i key ok c : controller_ok c -> is_object (objects c) p i ->
  controller_ok (staged_applied p now i key ok c).
Proof.
  intros Hc Hp. unfold staged_applied. apply apply_staged_ok; destruct ok; try done; [by apply ok_received | by apply update_object].
Qed.

Lemma candidate_added_ok p now i key ok c : controller_ok c -> controller_ok (candidate_added p now i key ok c).
Proof.
  intros Hc. unfold candidate_added. destruct (negb ok); (apply ok_silent; [|done]); [done |]. by apply ok_expires, ok_received.
Qed.

Lemma receiveCandidate_ok p cand now c : controller_ok c -> Received p (sig_candidate cand) ∈ log c ->
  controller_ok (receiveCandidate p cand now c).
Proof.
  intros Hc Hrec. unfold receiveCandidate. cbv zeta. destruct (validateRtcCandidate cand) as [[]|] eqn:Ev; [|by apply ok_silent].
  destruct (current p c) as [[i s]|] eqn:Ecur; [|by apply ok_silent]. destruct (_ || _); [by apply ok_silent |].
  destruct (negb _); [by apply ok_silent |]. destruct (_ || _); [by apply ok_silent |]. destruct (_ <=? _); [by apply ok_silent |].
  destruct (current_place _ _ _ _ Hc Ecur) as (Ep & Hobj & _). destruct (current_Some _ _ _ _ Ecur) as [_ Eobj].
  destruct (Session.remoteDescriptionSHA256 s) as [remote|] eqn:Erem.
  - destruct (negb (str_eqb _ _)) eqn:Es; [by apply ok_silent |]. apply negb_false_iff, str_eqb_true in Es as ->.
    destruct (obj_remote _ _ Hobj _ Erem) as (d & Hd & Hdig).
    apply ok_suspend; [| by exists s | done]. apply ok_emit; [done | | done].
    exists p, d. split_and!; [rewrite <- Ep; apply Hobj | done | done | done | done].
  - destruct (_ <=? zlen (Session.pendingCandidates s)) eqn:Eb; [by apply ok_silent |]. apply ok_silent; [|done].
    apply ok_update; [done |]. intros s0 E0 [O1 O2 O3 O4 O5 O6 O7 O8]. assert (s0 = s) as -> by congruence. split; [done |].
    set (key := cand_descriptionSHA256 cand ++ [0] ++ candidate cand).
    constructor; try done; cbn [Session.pendingCandidates Session.set_pending Session.peerId].
    + apply Forall_forall. intros [k x] Hin. rewrite Forall_forall in O5. cbn [snd].
      destruct (elem_of_map_set _ _ _ _ Hin) as [[= -> ->]|Hin2]; [by rewrite Ep | by apply (O5 (k, x))].
    + rewrite map_set_size. apply Z.leb_gt in Eb. case_match; lia.
Qed.

Lemma receiveCancel_ok p cancel c : controller_ok c -> controller_ok (receiveCancel p cancel c).
Proof.
  intros Hc. unfold receiveCancel. destruct (current p c) as [[i s]|]; [|by apply ok_silent].
  destruct (_ || _ || _); apply ok_silent; try done. apply (hk_ok _ _ (drop_keeps p c Hc)).
Qed.

Lemma receive_signal_ok p signal now c : controller_ok c -> controller_ok (receive_signal p signal now c).
Proof.
  intros Hc. unfold receive_signal. pose proof (hk_ok _ _ (prune_keeps now c Hc)) as Hc0.
  set (c0 := note (Received p signal) (prune_controller now c)). assert (H0 : controller_ok c0) by (by apply ok_silent).
  assert (Hin : Received p signal ∈ log c0) by apply emit_in. clearbody c0.
  destruct signal; [by apply ok_suspend | by apply ok_suspend | by apply receiveCandidate_ok | by apply receiveCancel_ok].
Qed.

Lemma reset_ok c : controller_ok c -> controller_ok (reset_controller c).
Proof.
  intros Hc. unfold reset_controller. apply ok_capabilities; [|apply NoDup_nil_2 | vm_compute; discriminate].
  assert (Hgen : forall keys c', controller_ok c' -> log c ⊆ log c' -> objects c' = objects c -> calls c' = calls c -> sessions c' = [] ->
    controller_ok (foldl (fun c' p => match current p c with Some (_, s) => note (Closed (Session.connection s)) c' | None => c' end) c' keys)).
  { induction keys as [|p keys IH]; intros c' H' Hl Ho Hca Hs; [done |]. cbn [foldl].
    destruct (current p c) as [[i s]|] eqn:Ecur; [|by apply IH]. destruct (current_Some _ _ _ _ Ecur) as [_ Eobj].
    apply IH; try done.
    - apply ok_emit; [done | |].
      + exists (Session.peerId s). apply Hl, (object_in _ _ _ Hc Eobj).
      + split; [intros p' j s' Hin; rewrite Hs in Hin; by apply elem_of_nil in Hin |].
        intros call Hin. rewrite Hca in Hin. by apply (object_not_held c i s).
    - intros x Hx. apply sub_snoc. by apply Hl. }
  assert (Hcomm : forall keys c', on_sessions [] (foldl (fun c' p => match current p c with
      Some (_, s) => note (Closed (Session.connection s)) c' | None => c' end) c' keys)
    = foldl (fun c' p => match current p c with Some (_, s) => note (Closed (Session.connection s)) c' | None => c' end) (on_sessions [] c') keys).
  { induction keys as [|p keys IH]; intros c'; [done |]. cbn [foldl]. rewrite IH. by destruct (current p c) as [[i s]|]. }
  rewrite Hcomm. apply Hgen; try done. apply ok_fewer_sessions; [done | apply sublist_nil_l].
Qed.

Lemma local_candidate_ok i candidate c : controller_ok c -> controller_ok (local_candidate i candidate c).
Proof.
  intros Hc. unfold local_candidate. destruct (objects c !! i) as [s|] eqn:Hi; [|done]. destruct candidate as [cand|]; [|done].
  destruct (_ || _) eqn:E; [done |]. bool_props. pose proof (object_in c i s Hc Hi) as [O1 (d & O2 & O3) O4 O5 O6 O7 O8 O9].
  apply ok_emit; [| | done].
  - apply ok_update; [done |]. intros s0 E0 Hs0. assert (s0 = s) as -> by congruence. split; [done |].
    destruct Hs0. constructor; try done. cbn [Session.sentCandidates Session.set_sent]. lia.
  - by exists (Session.connection s), d.
Qed.

Lemma remote_channel_ok n ch c : controller_ok c -> controller_ok (remote_channel n ch c).
Proof.
  intros Hc. unfold remote_channel. assert (H0 : controller_ok (collect_channel n ch c)).
  { unfold collect_channel. destruct (map_has _ _); [by apply ok_silent | by apply ok_staged]. }
  destruct (session_of n _); [by apply accept_ok | done].
Qed.

Lemma capabilities_ok p v ex now c : controller_ok c -> controller_ok (acceptCapabilities p v ex now c).2.
Proof.
  intros Hc. unfold acceptCapabilities. pose proof (hk_ok _ _ (prune_keeps now c Hc)) as Hc0.
  set (c0 := prune_controller now c) in *. clearbody c0. destruct (_ || _); [done |].
  destruct (ctl_capabilities c0 Hc0) as [Hw Hb]. cbn [snd]. destruct (map_has (capabilities c0) p) eqn:Eh.
  - apply ok_capabilities; [done | by apply map_set_wf |]. rewrite map_set_size, Eh. done.
  - pose proof (map_trim_wf (maxCapabilityEntries - 1) (capabilities c0) ltac:(by vm_compute) Hw) as Hw2.
    pose proof (map_trim_size (maxCapabilityEntries - 1) (capabilities c0) ltac:(by vm_compute) Hw) as Hs2.
    apply ok_capabilities; [done | by apply map_set_wf |]. rewrite map_set_size. case_match; lia.
Qed.

Lemma resume_ok call o c : controller_ok c -> call_ok (log c) (objects c) call ->
  (forall n, call_connection call = Some n -> (n ∉ owned c) /\ (Closed n ∉ log c)) ->
  controller_ok (resume_call sha256 localPeerId call o c).
Proof.
  intros Hc Hok Hn. destruct call as [p now n ch|p i|p signal now|p offer now n|p i|p a now i|p now i key|p now i key]; cbn [resume_call].
  - destruct (Hn n eq_refl). by apply offer_prepared_ok.
  - by apply sent_ok.
  - destruct signal; [by apply offer_validated_ok | by apply answer_validated_ok | done | done].
  - destruct (Hn n eq_refl). by apply answer_prepared_ok.
  - by apply sent_ok.
  - by apply answer_set_ok.
  - by apply staged_applied_ok.
  - by apply candidate_added_ok.
Qed.

Lemma step_ok c e : controller_ok c -> controller_ok (step sha256 localPeerId c e).
Proof.
  intros Hc. destruct e as [p v ex now|p now ch|p signal now|k o|i cand|n ch|]; cbn [step].
  - by apply capabilities_ok.
  - by apply start_ok.
  - by apply receive_signal_ok.
  - destruct (calls c !! k) as [call|] eqn:Hk; [|done]. destruct (ok_settle k call c Hc Hk) as (H1 & H2 & H3).
    apply resume_ok; [done | done |]. intros n E. destruct (H3 n E) as (? & ? & _). by split.
  - by apply local_candidate_ok.
  - by apply remote_channel_ok.
  - by apply reset_ok.
Qed.

Lemma new_controller_ok : controller_ok new_controller.
Proof.
  constructor; cbn; try done; try apply Forall_nil_2; try apply NoDup_nil_2.
  - intros p n Hin. by apply elem_of_nil in Hin.
  - intros p i Hin. by apply elem_of_nil in Hin.
  - intros call n Hin. by apply elem_of_nil in Hin.
  - split; [apply NoDup_nil_2 | vm_compute; discriminate].
Qed.

Lemma rtc_run_ok events : controller_ok (run_events sha256 localPeerId events).
Proof.
  unfold run_events. pose proof new_controller_ok as H. revert H. generalize new_controller as c.
  induction events as [|e events IH]; intros c Hc; [done |]. by apply IH, step_ok.
Qed.

(** C7: the peer-to-peer sessions under any interleaving of calls, browser
    answers, signals and timers.  Every entry of the log has its cause before
    it: a connection gets a remote description only from an offer or an answer
    of its own peer that validates and has the digest and the DTLS fingerprint
    it names, an answer only for the offer that was sent over that connection;
    a candidate is only added for a description set before; what is sent was
    set as the local description of a connection of that peer; no cancel is
    ever sent.  A registered session has an open connection that no other
    session and no suspended call has; it holds at most 32 staged candidates and
    sends at most 32; the capabilities are bounded by 64. *)
Theorem rtc_negotiation events :
  let c := run_events sha256 localPeerId events in
  justified cause [] (log c)
  /\ (forall p i, (p, i) ∈ sessions c -> exists s, objects c !! i = Some s /\ Session.peerId s = p
       /\ (Closed (Session.connection s) ∉ log c) /\ object_ok (log c) s
       /\ (forall p' i' s', (p', i') ∈ sessions c -> objects c !! i' = Some s' ->
             Session.connection s' = Session.connection s -> p' = p)
       /\ (forall call, call ∈ calls c -> call_connection call <> Some (Session.connection s)))
  /\ map_wf (sessions c) /\ zlen (capabilities c) <= maxCapabilityEntries.
Proof.
  intros c. pose proof (rtc_run_ok events) as Hc. fold c in Hc. split; [apply Hc |]. split; [|split; apply Hc].
  intros p i Hin. destruct (ctl_sessions c Hc p i Hin) as (s & Hs & Ep & Hopen). exists s.
  split_and!; [done | done | done | by apply (object_in c i) | |].
  - intros p' i' s' Hin' Hs' E. pose proof (same_connection c i' i s' s Hc Hs' Hs E) as ->.
    destruct (ctl_sessions c Hc p' i Hin') as (s2 & Hs2 & Ep2 & _). congruence.
  - intros call Hcall. by apply (object_not_held c i s).
Qed.
End Facts.

(** ** What interleavings can do *)

Definition sample_hash (b : bytes) : bytes := repeat 0 32.
Definition sample_description : jsstring := js "v=0" ++ [13; 10] ++ js "a=fingerprint:sha-256 "
  ++ js "00:11:22:33:44:55:66:77:88:99:AA:BB:CC:DD:EE:FF:00:11:22:33:44:55:66:77:88:99:aa:bb:cc:dd:ee:ff" ++ [13; 10].
Definition sample_digest : jsstring := encodeBase64URL (sample_hash []).
Definition sample_fingerprint : jsstring := encodeBase64URL
  [0x00; 0x11; 0x22; 0x33; 0x44; 0x55; 0x66; 0x77; 0x88; 0x99; 0xAA; 0xBB; 0xCC; 0xDD; 0xEE; 0xFF;
   0x00; 0x11; 0x22; 0x33; 0x44; 0x55; 0x66; 0x77; 0x88; 0x99; 0xAA; 0xBB; 0xCC; 0xDD; 0xEE; 0xFF].
Definition sample_id : jsstring := encodeBase64URL (repeat 7 16).
Definition sample_offer : RtcOffer := mkRtcOffer rtcSignalingVersion sample_id 0 sample_description sample_digest sample_fingerprint.
Definition sample_channel : RTCDataChannelPort := Channel.mk 1 rtcDataChannelLabel true false None None.
Definition sample_caps : RtcCapabilities := mkRtcCapabilities rtcSignalingVersion 1536 1024 32.
Definition settled (ok : bool) : Settled := mkSettled ok (if ok then Ok sample_description else Throw []) sample_id.

Lemma sample_extract : extractDTLSFingerprintSHA256 sample_description = Ok sample_fingerprint.
Proof. closed. Qed.

(** An offer that the browser refuses leaves its connection open: no session,
    no call and no close. *)
Example refused_offer_leaks :
  let c := run_events sample_hash (js "a") [ev_receive (js "b") (sig_offer sample_offer) 0; ev_settled 0 (settled true); ev_settled 0 (settled false)] in
  sessions c = [] /\ calls c = []
  /\ log c = [Received (js "b") (sig_offer sample_offer); Created (js "b") 0; RemoteSet 0 sample_description; Answered (js "b") r_rejected].
Proof. split_and!; closed. Qed.

(** Two calls of [start] that overlap both negotiate; the second session takes
    the place of the first one, whose connection nobody closes. *)
Example overlapping_starts_leak :
  let c := run_events sample_hash (js "a")
    [ev_capabilities (js "b") sample_caps 9000 0; ev_start (js "b") 0 sample_channel; ev_start (js "b") 0 sample_channel;
     ev_settled 0 (settled true); ev_settled 0 (settled true)] in
  sessions c = [(js "b", 1%nat)] /\ Session.connection <$> objects c = [0%nat; 1%nat]
  /\ omap (fun e => match e with Closed n => Some n | _ => None end) (log c) = [].
Proof. split_and!; closed. Qed.

(** [reset] does not stop a negotiation: its session is registered afterwards. *)
Example reset_keeps_negotiation :
  let c := run_events sample_hash (js "a")
    [ev_capabilities (js "b") sample_caps 9000 0; ev_start (js "b") 0 sample_channel; ev_reset; ev_settled 0 (settled true)] in
  sessions c = [(js "b", 0%nat)].
Proof. closed. Qed.

(** Starts that overlap pass the bound of 32 sessions. *)
Example overlapping_starts_exceed :
  let peers := (fun n => js "peer" ++ [Z.of_nat n]) <$> seq 0 33 in
  let c := run_events sample_hash (js "a")
    (((fun p => ev_capabilities p sample_caps 9000 0) <$> peers) ++ ((fun p => ev_start p 0 sample_channel) <$> peers)
     ++ ((fun _ => ev_settled 0 (settled true)) <$> peers)) in
  zlen (sessions c) = maxSessions + 1.
Proof. closed. Qed.
