(* ===== verification/AttachmentController.v ===== *)
(** * [pwa/src/connectivity/attachment-transfer.ts]: the transfers of one tab

    [AttachmentTransferController] joins the transfers and registries of
    [TransferRegistry] with files, signatures, consent and the live transport.
    Transfers, registries and outbound records are objects that maps, other
    objects and suspended calls share: they live in heaps and are named by their
    index.  Every operation is cut at its awaits; a suspended call settles as an
    event of its own.  Reading a file, signing, verifying and sending are the
    outcomes of such events; the awaits of one signature or verification settle
    as one.  The clock answers safe integers. *)
From S2P Require Import Prelude JsRuntime Collections Base64Url Attachment Transfer TransferRegistry ApplicationPayload Traces.

Definition attachmentManifestKind : jsstring := js "branch.attachment.manifest/0.draft".
Definition attachmentDecisionKind : jsstring := js "branch.attachment.decision/0.draft".
Definition attachmentChunkKind : jsstring := js "branch.attachment.chunk/0.draft".
Definition attachmentApplicationVersion : jsstring := js "branch.application-payload/0.draft".
Definition attachmentKinds : list jsstring := [attachmentManifestKind; attachmentDecisionKind; attachmentChunkKind].
Definition maximumActiveDirections : Z := 4.
Definition maximumRememberedPeers : Z := 16.
Definition outboundWindowSize : Z := 4.

(** ** Data *)

Inductive Reason : Type :=
| y_accepted | y_rejected | y_cancelled | y_expired | y_integrity_failed | y_invalid_payload | y_invalid_signature
| y_unknown_peer | y_unsupported | y_busy | y_unavailable | y_disconnected | y_ack_timeout | y_send_failed.

Record File := mkFile { file_name : jsstring; file_type : jsstring; content : bytes }.

(** What the ports answer about a peer at one moment. *)
Record Ports := mkPorts {
  isKnownPeer : bool;
  peerCapabilities : option ApplicationCapabilities;
  localSigningKey : bool;
  localPeerId : jsstring;
}.

(** A transfer object, with the peer it belongs to. *)
Record Object := mkObject { obj_peer : jsstring; obj_live : Live }.

(** A registry object: its active transfer is an object of the heap. *)
Record PeerRegistry := mkPeerRegistry { registry : Registry; active_transfer : option nat }.

Record InboundTransfer := mkInbound { in_registry : nat; in_transfer : nat }.

Record OutboundTransfer := mkOutbound {
  out_peer : jsstring;
  out_registry : nat;
  out_transfer : nat;
  out_file : File;
  manifestDeliveryId : jsstring;
  outstanding : list (jsstring * Z);
  nextChunkIndex : Z;
  filling : bool;
}.

Inductive Payload_in : Type := in_manifest (m : AttachmentManifest) | in_decision (d : AttachmentDecision).

Inductive Call : Type :=
| signing_offer (peerId : jsstring) (file : File) (now : Z) (transferId manifestId : jsstring)
| sending_offer (peerId : jsstring) (m : AttachmentManifest)
| verifying (peerId : jsstring) (payload : Payload_in)
| receiving_chunk (peerId : jsstring) (transfer : nat) (result : option AttachmentTransferResult)
| signing_decision (peerId : jsstring) (transfer : nat) (kind : AttachmentDecisionKind) (dir : AttachmentTransferDirection) (now : Z)
| sending_decision (peerId : jsstring) (kind : AttachmentDecisionKind) (dir : AttachmentTransferDirection)
| reading_chunk (outbound : nat) (index : Z)
| sending_chunk (outbound : nat).

Inductive Answer : Type :=
| a_offered (transferId : jsstring)
| a_rejected (reason : Reason)
| a_handled (kind : jsstring)
| a_ignored (reason : Reason)
| a_sent.

Inductive Event_name : Type := offer_sent_event | offer_received_event | transfer_accepted_event | transfer_ended_event.

Inductive Effect : Type :=
| Requested (peerId deliveryId kind : jsstring) (body plaintext : bytes)
| ChunkSent (peerId : jsstring) (m : AttachmentManifest) (chunk : AttachmentChunk)
| Verified (peerId : jsstring) (payload : Payload_in)
| OfferShown (peerId : jsstring) (m : AttachmentManifest)
| Consented (peerId : jsstring) (m : AttachmentManifest)
| Completed (peerId : jsstring) (m : AttachmentManifest) (file : bytes)
| Emitted (name : Event_name) (peerId : jsstring) (dir : AttachmentTransferDirection) (reason : Reason) (m : option AttachmentManifest)
| Returned (peerId : jsstring) (answer : Answer).

Record Controller := mkController {
  transfers : list Object;
  registries : list PeerRegistry;
  inboundRegistries : list (jsstring * nat);
  outboundRegistries : list (jsstring * nat);
  inbounds : list (jsstring * InboundTransfer);
  outboundObjects : list OutboundTransfer;
  outbounds : list (jsstring * nat);
  deliveryToOutbound : list (jsstring * nat);
  manifestDeliveryToOutbound : list (jsstring * nat);
  offeringPeers : list jsstring;
  calls : list Call;
  log : list Effect;
}.

Implicit Types c : Controller.

Definition empty_controller : Controller := mkController [] [] [] [] [] [] [] [] [] [] [] [].

Definition on_transfers v c := mkController v (registries c) (inboundRegistries c) (outboundRegistries c) (inbounds c) (outboundObjects c)
  (outbounds c) (deliveryToOutbound c) (manifestDeliveryToOutbound c) (offeringPeers c) (calls c) (log c).
Definition on_registries v c := mkController (transfers c) v (inboundRegistries c) (outboundRegistries c) (inbounds c) (outboundObjects c)
  (outbounds c) (deliveryToOutbound c) (manifestDeliveryToOutbound c) (offeringPeers c) (calls c) (log c).
Definition on_registry_maps i o c := mkController (transfers c) (registries c) i o (inbounds c) (outboundObjects c)
  (outbounds c) (deliveryToOutbound c) (manifestDeliveryToOutbound c) (offeringPeers c) (calls c) (log c).
Definition on_inbounds v c := mkController (transfers c) (registries c) (inboundRegistries c) (outboundRegistries c) v (outboundObjects c)
  (outbounds c) (deliveryToOutbound c) (manifestDeliveryToOutbound c) (offeringPeers c) (calls c) (log c).
Definition on_objects v c := mkController (transfers c) (registries c) (inboundRegistries c) (outboundRegistries c) (inbounds c) v
  (outbounds c) (deliveryToOutbound c) (manifestDeliveryToOutbound c) (offeringPeers c) (calls c) (log c).
Definition on_outbounds v c := mkController (transfers c) (registries c) (inboundRegistries c) (outboundRegistries c) (inbounds c) (outboundObjects c)
  v (deliveryToOutbound c) (manifestDeliveryToOutbound c) (offeringPeers c) (calls c) (log c).
Definition on_deliveries v c := mkController (transfers c) (registries c) (inboundRegistries c) (outboundRegistries c) (inbounds c) (outboundObjects c)
  (outbounds c) v (manifestDeliveryToOutbound c) (offeringPeers c) (calls c) (log c).
Definition on_manifests v c := mkController (transfers c) (registries c) (inboundRegistries c) (outboundRegistries c) (inbounds c) (outboundObjects c)
  (outbounds c) (deliveryToOutbound c) v (offeringPeers c) (calls c) (log c).
Definition on_offering v c := mkController (transfers c) (registries c) (inboundRegistries c) (outboundRegistries c) (inbounds c) (outboundObjects c)
  (outbounds c) (deliveryToOutbound c) (manifestDeliveryToOutbound c) v (calls c) (log c).
Definition on_calls v c := mkController (transfers c) (registries c) (inboundRegistries c) (outboundRegistries c) (inbounds c) (outboundObjects c)
  (outbounds c) (deliveryToOutbound c) (manifestDeliveryToOutbound c) (offeringPeers c) v (log c).
Definition note e c := mkController (transfers c) (registries c) (inboundRegistries c) (outboundRegistries c) (inbounds c) (outboundObjects c)
  (outbounds c) (deliveryToOutbound c) (manifestDeliveryToOutbound c) (offeringPeers c) (calls c) (log c ++ [e]).

Definition suspend (call : Call) c : Controller := on_calls (calls c ++ [call]) c.
Definition answer (peerId : jsstring) (a : Answer) c : Controller := note (Returned peerId a) c.
Definition update_outbound (o : nat) (f : OutboundTransfer -> OutboundTransfer) c : Controller :=
  on_objects (alter f o (outboundObjects c)) c.

Definition set_outstanding m (o : OutboundTransfer) : OutboundTransfer := mkOutbound (out_peer o) (out_registry o) (out_transfer o)
  (out_file o) (manifestDeliveryId o) m (nextChunkIndex o) (filling o).
Definition set_next i (o : OutboundTransfer) : OutboundTransfer := mkOutbound (out_peer o) (out_registry o) (out_transfer o)
  (out_file o) (manifestDeliveryId o) (outstanding o) i (filling o).
Definition set_filling b (o : OutboundTransfer) : OutboundTransfer := mkOutbound (out_peer o) (out_registry o) (out_transfer o)
  (out_file o) (manifestDeliveryId o) (outstanding o) (nextChunkIndex o) b.

(** ** Calls on transfers and registries *)

Definition manifest_of (t : nat) c : option AttachmentManifest := (fun x => manifest (object (obj_live x))) <$> transfers c !! t.

(** A method of a transfer, or the outcome of its digest. *)
Definition transfer_call (t : nat) (e : Transfer.event) c : option AttachmentTransferResult * Controller :=
  match transfers c !! t with
  | Some x =>
      match Transfer.step (obj_live x) e with
      | Some (r, live) => (r, on_transfers (<[t := mkObject (obj_peer x) live]> (transfers c)) c)
      | None => (None, c)
      end
  | None => (None, c)
  end.

(** The registry with its active transfer in place. *)
Definition loaded (r : PeerRegistry) c : Registry :=
  set_active (registry r) (match active_transfer r with Some t => obj_live <$> transfers c !! t | None => None end).

Definition store_registry (k : nat) (r : Registry) (t : option nat) c : Controller :=
  on_registries (<[k := mkPeerRegistry (set_active r None) t]> (registries c)) c.

Definition still_active (r : Registry) (t : option nat) : option nat := match active r with Some _ => t | None => None end.

(** [registry.open(manifest, now)] *)
Definition open_in_registry (k : nat) (peerId : jsstring) (m : AttachmentManifest) (now : Z) c
    : result open_result * option nat * Controller :=
  match registries c !! k with
  | None => (Throw [], None, c)
  | Some r =>
      let '(answer, r') := registry_open (loaded r c) m (Int now) in
      match answer, active r' with
      | Ok o_opened, Some live =>
          let t := length (transfers c) in
          (answer, Some t, store_registry k r' (Some t) (on_transfers (transfers c ++ [mkObject peerId live]) c))
      | Ok o_aborted, _ =>
          let c := match active_transfer r with Some t => (transfer_call t ev_abort c).2 | None => c end in
          (answer, None, store_registry k r' (still_active r' (active_transfer r)) c)
      | _, _ => (answer, None, store_registry k r' (still_active r' (active_transfer r)) c)
      end
  end.

(** [registry.expire(now)] *)
Definition expire_registry (k : nat) (now : Z) c : Controller :=
  match registries c !! k with
  | None => c
  | Some r =>
      let c := match active_transfer r with Some t => (transfer_call t (ev_expire (Int now)) c).2 | None => c end in
      match sweep (loaded r c) (Int now) with
      | Ok r' => store_registry k r' (still_active r' (active_transfer r)) c
      | Throw _ => c
      end
  end.

(** [#registry(peerId, direction)] *)
Definition registry_options : TransferOptions := mkOptions (Some (Int maxRelayAttachmentBytes)) (Some (Int 64)) (Some (Int 16)).

Definition peer_registry (peerId : jsstring) (dir : AttachmentTransferDirection) c : nat * Controller :=
  let m := match dir with inbound => inboundRegistries c | outbound => outboundRegistries c end in
  match map_get m peerId with
  | Some k => (k, c)
  | None =>
      let k := length (registries c) in
      let m := map_set (map_trim (maximumRememberedPeers - 1) m) peerId k in
      let c := on_registries (registries c ++ [mkPeerRegistry (mkRegistry dir registry_options [] None) None]) c in
      (k, match dir with
          | inbound => on_registry_maps m (outboundRegistries c) c
          | outbound => on_registry_maps (inboundRegistries c) m c
          end)
  end.

(** ** Ending *)

Definition endInbound (peerId : jsstring) (reason : Reason) (now : Z) c : Controller :=
  match map_get (inbounds c) peerId with
  | None => c
  | Some i =>
      let m := manifest_of (in_transfer i) c in
      let c := (transfer_call (in_transfer i) ev_abort c).2 in
      let c := expire_registry (in_registry i) now c in
      note (Emitted transfer_ended_event peerId inbound reason m) (on_inbounds (map_delete (inbounds c) peerId) c)
  end.

Definition forget_deliveries (ids : list jsstring) (m : list (jsstring * nat)) : list (jsstring * nat) :=
  foldl (fun m id => map_delete m id) m ids.

Definition endOutbound (peerId : jsstring) (reason : Reason) (now : Z) c : Controller :=
  match map_get (outbounds c) peerId with
  | None => c
  | Some o =>
      match outboundObjects c !! o with
      | None => c
      | Some out =>
          let m := manifest_of (out_transfer out) c in
          let c := on_manifests (map_delete (manifestDeliveryToOutbound c) (manifestDeliveryId out)) c in
          let c := on_deliveries (forget_deliveries (map_keys (outstanding out)) (deliveryToOutbound c)) c in
          let c := update_outbound o (set_outstanding []) c in
          let c := (transfer_call (out_transfer out) ev_abort c).2 in
          let c := expire_registry (out_registry out) now c in
          note (Emitted transfer_ended_event peerId outbound reason m) (on_outbounds (map_delete (outbounds c) peerId) c)
      end
  end.

Definition end_direction (dir : AttachmentTransferDirection) : jsstring -> Reason -> Z -> Controller -> Controller :=
  match dir with inbound => endInbound | outbound => endOutbound end.

Definition unavailable_peer (peerId : jsstring) (now : Z) c : Controller :=
  endOutbound peerId y_unavailable now (endInbound peerId y_unavailable now c).

Definition unavailable_all (now : Z) c : Controller :=
  let c := foldl (fun c peerId => endInbound peerId y_disconnected now c) c (map_keys (inbounds c)) in
  foldl (fun c peerId => endOutbound peerId y_disconnected now c) c (map_keys (outbounds c)).

(** ** Sending *)

Section Operations.
(** The digest of a file as text: WebCrypto, outside the sources. *)
Variable sha256 : bytes -> jsstring.

(** [#randomToken(length)], with what [randomBytes] fills in. *)
Definition randomToken (length : Z) (filled : bytes) : result jsstring :=
  if zlen filled =? length then Ok (encodeBase64URL filled) else Throw (js "invalid random bytes").

(** [#send] up to its await. *)
Definition send (peerId kind : jsstring) (body : bytes) (deliveryId : jsstring) (filled : bytes) c : result Controller :=
  let? messageId := randomToken 16 filled in
  let? plaintext := encodeApplicationPayload (Payload.mk attachmentApplicationVersion kind messageId body) in
  Ok (note (Requested peerId deliveryId kind body plaintext) c).

(** ** The window of an outbound transfer *)

(** The head of the loop of [#fillWindow], up to the reading of the next chunk. *)
Definition fill_next (o : nat) c : Controller :=
  match outboundObjects c !! o with
  | None => c
  | Some out =>
      let count := match manifest_of (out_transfer out) c with Some m => Manifest.chunkCount m | None => 0 end in
      if (zlen (outstanding out) <? outboundWindowSize) && (nextChunkIndex out <? count)
      then suspend (reading_chunk o (nextChunkIndex out)) (update_outbound o (set_next (nextChunkIndex out + 1)) c)
      else update_outbound o (set_filling false) c
  end.

Definition fillWindow (o : nat) c : Controller :=
  match outboundObjects c !! o with
  | None => c
  | Some out =>
      if filling out || negb (bool_decide (map_get (outbounds c) (out_peer out) = Some o)) then c
      else fill_next o (update_outbound o (set_filling true) c)
  end.

(** [file.slice(start, Math.min(start + chunkBytes, byteCount))] *)
Definition slice_of (file : File) (m : AttachmentManifest) (index : Z) : bytes :=
  let start := index * Manifest.chunkBytes m in
  let stop := Z.min (start + Manifest.chunkBytes m) (Manifest.byteCount m) in
  take (Z.to_nat (stop - start)) (drop (Z.to_nat start) (content file)).

(** The chunk was read.  What throws outside the inner [try] leaves the loop. *)
Definition chunk_read (o : nat) (index : Z) (read_ok : bool) (fresh : nat -> bytes) (now : Z) c : Controller :=
  let stop c := update_outbound o (set_filling false) c in
  match outboundObjects c !! o with
  | None => c
  | Some out =>
      match manifest_of (out_transfer out) c with
      | None => c
      | Some m =>
          if negb read_ok then stop c
          else
            let chunk := Chunk.mk attachmentVersion (Manifest.transferId m) (Manifest.manifestId m) index (slice_of (out_file out) m index) in
            let '(admitted, c) := transfer_call (out_transfer out) (ev_admit chunk (Int now)) c in
            match admitted with
            | Some (r_ok s_chunk_stored _) =>
                match randomToken 16 (fresh 0%nat) with
                | Throw _ => stop c
                | Ok deliveryId =>
                    let c := update_outbound o (fun out => set_outstanding (map_set (outstanding out) deliveryId index) out) c in
                    let c := on_deliveries (map_set (deliveryToOutbound c) deliveryId o) c in
                    match (let? body := encodeAttachmentChunk chunk in
                           send (out_peer out) attachmentChunkKind body deliveryId (fresh 1%nat) c) with
                    | Ok c => suspend (sending_chunk o) (note (ChunkSent (out_peer out) m chunk) c)
                    | Throw _ => stop (endOutbound (out_peer out) y_send_failed now c)
                    end
                end
            | _ => stop (endOutbound (out_peer out) y_invalid_payload now c)
            end
      end
  end.

Definition chunk_sent (o : nat) (sent : bool) (now : Z) c : Controller :=
  match outboundObjects c !! o with
  | None => c
  | Some out => if sent then fill_next o c else update_outbound o (set_filling false) (endOutbound (out_peer out) y_send_failed now c)
  end.

Definition onRelayForwarded (deliveryId : jsstring) (now : Z) c : bool * Controller :=
  if map_has (manifestDeliveryToOutbound c) deliveryId
  then (true, on_manifests (map_delete (manifestDeliveryToOutbound c) deliveryId) c)
  else
    match map_get (deliveryToOutbound c) deliveryId with
    | None => (false, c)
    | Some o =>
        match outboundObjects c !! o with
        | None => (false, c)
        | Some out =>
            if negb (map_has (outstanding out) deliveryId) then (false, c)
            else
              let rest := map_delete (outstanding out) deliveryId in
              let c := on_deliveries (map_delete (deliveryToOutbound c) deliveryId) (update_outbound o (set_outstanding rest) c) in
              let count := match manifest_of (out_transfer out) c with Some m => Manifest.chunkCount m | None => 0 end in
              (true, if (count <=? nextChunkIndex out) && (zlen rest =? 0) then endOutbound (out_peer out) y_accepted now c
                     else fillWindow o c)
        end
    end.

(** ** Offers *)

Definition maximumOfferBytes (ports : Ports) : option Z :=
  match peerCapabilities ports with
  | Some caps =>
      match AppCaps.maxRelayAttachmentBytes caps with
      | Int limit =>
          if str_eqb (AppCaps.attachmentMode caps) (js "receiver-accept")
             && bool_decide (attachmentApplicationVersion ∈ AppCaps.applicationVersions caps)
             && forallb (fun kind => bool_decide (kind ∈ AppCaps.kinds caps)) attachmentKinds
             && is_safe limit && (0 <? limit)
          then Some (Z.min limit maxRelayAttachmentBytes) else None
      | NonInt => None
      end
  | None => None
  end.

Definition activeDirectionCount c : Z := zlen (inbounds c) + zlen (outbounds c).

Definition canOffer (peerId : jsstring) (ports : Ports) c : Reason + Z :=
  if negb (isKnownPeer ports) then inl y_unknown_peer
  else
    match maximumOfferBytes ports with
    | None => inl y_unsupported
    | Some maximumBytes =>
        if map_has (outbounds c) peerId || bool_decide (peerId ∈ offeringPeers c)
           || (maximumActiveDirections <=? activeDirectionCount c + zlen (offeringPeers c))
        then inl y_busy
        else if negb (localSigningKey ports) || (zlen (localPeerId ports) =? 0) then inl y_unavailable
        else inr maximumBytes
    end.

Definition offerRejected (peerId : jsstring) (reason : Reason) c : Controller :=
  answer peerId (a_rejected reason) (note (Emitted transfer_ended_event peerId outbound reason None) c).

(** The [finally] block of [offer]. *)
Definition offer_over (peerId : jsstring) c : Controller :=
  on_offering (filter (fun p => p <> peerId) (offeringPeers c)) c.

(** Its [catch] block. *)
Definition offer_failed (peerId : jsstring) (now : Z) c : Controller :=
  let hadLiveOffer := map_has (outbounds c) peerId in
  let c := endOutbound peerId y_send_failed now c in
  offer_over peerId (if hadLiveOffer then answer peerId (a_rejected y_send_failed) c else offerRejected peerId y_send_failed c).

Definition offer (peerId : jsstring) (file : File) (ports : Ports) (now : Z) (fresh : nat -> bytes) c : Controller :=
  match canOffer peerId ports c with
  | inl reason => offerRejected peerId reason c
  | inr maximumBytes =>
      let size := zlen (content file) in
      if negb (is_safe size) || (size <=? 0) || (maximumBytes <? size) then offerRejected peerId y_unsupported c
      else
        let c := on_offering (offeringPeers c ++ [peerId]) c in
        match (let? transferId := randomToken 16 (fresh 0%nat) in
               let? manifestId := randomToken 32 (fresh 1%nat) in Ok (transferId, manifestId)) with
        | Ok (transferId, manifestId) => suspend (signing_offer peerId file now transferId manifestId) c
        | Throw _ => offer_failed peerId now c
        end
  end.

Definition unsigned_manifest (file : File) (now : Z) (transferId manifestId : jsstring) : AttachmentManifest :=
  let size := zlen (content file) in
  Manifest.mk attachmentVersion transferId manifestId now (now + maxAttachmentTTLms) (file_name file)
    (if zlen (file_type file) =? 0 then js "application/octet-stream" else file_type file)
    size maxAttachmentChunkBytes (ceil_div size maxAttachmentChunkBytes) (sha256 (content file)) (repeat 0 64).

Definition with_signature (signature : bytes) (m : AttachmentManifest) : AttachmentManifest :=
  Manifest.mk (Manifest.version m) (Manifest.transferId m) (Manifest.manifestId m) (Manifest.issuedAt m) (Manifest.expiresAt m)
    (Manifest.fileName m) (Manifest.mediaType m) (Manifest.byteCount m) (Manifest.chunkBytes m) (Manifest.chunkCount m)
    (Manifest.sha256 m) signature.

(** [signature] is [None] when the file cannot be read or the key does not sign. *)
Definition offer_signed (peerId : jsstring) (file : File) (started : Z) (transferId manifestId : jsstring)
    (signature : option bytes) (fresh : nat -> bytes) (now : Z) c : Controller :=
  match (let? _ := attachmentManifestSigningBytes (unsigned_manifest file started transferId manifestId) in
         result_of_option [] signature) with
  | Throw _ => offer_failed peerId now c
  | Ok signature =>
      let m := with_signature signature (unsigned_manifest file started transferId manifestId) in
      if maxRelayAttachmentBytes <? Manifest.byteCount m then offer_over peerId (offerRejected peerId y_unsupported c)
      else
        let '(k, c) := peer_registry peerId outbound c in
        let '(opened, t, c) := open_in_registry k peerId m started c in
        match opened, t with
        | Throw _, _ => offer_failed peerId now c
        | Ok o_opened, Some t =>
            match randomToken 16 (fresh 0%nat) with
            | Throw _ => offer_failed peerId now c
            | Ok deliveryId =>
                let o := length (outboundObjects c) in
                let c := on_objects (outboundObjects c ++ [mkOutbound peerId k t file deliveryId [] 0 false]) c in
                let c := on_outbounds (map_set (outbounds c) peerId o) c in
                let c := on_manifests (map_set (manifestDeliveryToOutbound c) deliveryId o) c in
                match (let? body := encodeAttachmentManifest m in send peerId attachmentManifestKind body deliveryId (fresh 1%nat) c) with
                | Ok c => suspend (sending_offer peerId m) c
                | Throw _ => offer_failed peerId now c
                end
            end
        | Ok o_busy, _ => offer_over peerId (offerRejected peerId y_busy c)
        | Ok _, _ => offer_over peerId (offerRejected peerId y_unsupported c)
        end
  end.

Definition offer_sent (peerId : jsstring) (m : AttachmentManifest) (sent : bool) (now : Z) c : Controller :=
  if negb sent then offer_failed peerId now c
  else
    offer_over peerId
      (answer peerId (a_offered (Manifest.transferId m)) (note (Emitted offer_sent_event peerId outbound y_accepted None) c)).

(** ** Receiving *)

(** [receive] up to its first await. *)
Definition receive (peerId : jsstring) (plaintext : bytes) (ports : Ports) (now : Z) c : Controller :=
  let ignored reason := answer peerId (a_ignored reason) c in
  if negb (isKnownPeer ports) then ignored y_unknown_peer
  else
    match decodeApplicationPayload plaintext with
    | Throw _ => ignored y_invalid_payload
    | Ok payload =>
        let kind := Payload.kind payload in
        if str_eqb kind attachmentManifestKind then
          match decodeAttachmentManifest (Payload.body payload) with
          | Ok m => suspend (verifying peerId (in_manifest m)) c
          | Throw _ => ignored y_invalid_payload
          end
        else if str_eqb kind attachmentDecisionKind then
          match decodeAttachmentDecision (Payload.body payload) with
          | Ok d => suspend (verifying peerId (in_decision d)) c
          | Throw _ => ignored y_invalid_payload
          end
        else if str_eqb kind attachmentChunkKind then
          match map_get (inbounds c) peerId with
          | None => ignored y_busy
          | Some i =>
              match decodeAttachmentChunk (Payload.body payload) with
              | Throw _ => ignored y_invalid_payload
              | Ok chunk =>
                  let '(r, c) := transfer_call (in_transfer i) (ev_chunk chunk (Int now)) c in
                  suspend (receiving_chunk peerId (in_transfer i) r) c
              end
          end
        else ignored y_unsupported
    end.

(** [shown] is the answer of [onInboundOffer]; [None]: it throws. *)
Definition manifest_verified (peerId : jsstring) (m : AttachmentManifest) (shown : option bool) (now : Z) c : Controller :=
  if map_has (inbounds c) peerId || (maximumActiveDirections <=? activeDirectionCount c) then answer peerId (a_ignored y_busy) c
  else
    let '(k, c) := peer_registry peerId inbound c in
    let '(opened, t, c) := open_in_registry k peerId m now c in
    match opened, t with
    | Ok o_opened, Some t =>
        let c := on_inbounds (map_set (inbounds c) peerId (mkInbound k t)) c in
        let c := note (OfferShown peerId m) c in
        match shown with
        | Some true => answer peerId (a_handled attachmentManifestKind) (note (Emitted offer_received_event peerId inbound y_accepted None) c)
        | Some false => answer peerId (a_ignored y_busy) (endInbound peerId y_busy now c)
        | None => answer peerId (a_ignored y_busy) (endInbound peerId y_send_failed now c)
        end
    | Ok o_busy, _ => answer peerId (a_ignored y_busy) c
    | _, _ => answer peerId (a_ignored y_invalid_payload) c
    end.

Definition decision_verified (peerId : jsstring) (d : AttachmentDecision) (now : Z) c : Controller :=
  let handled c := answer peerId (a_handled attachmentDecisionKind) c in
  match map_get (outbounds c) peerId with
  | Some o =>
      match outboundObjects c !! o with
      | None => c
      | Some out =>
          let '(r, c) := transfer_call (out_transfer out) (ev_decision d (Int now)) c in
          handled match r with
                  | Some (r_ok s_accepted _) => fillWindow o (note (Emitted transfer_accepted_event peerId outbound y_accepted None) c)
                  | Some (r_terminal s_rejected _ _) => endOutbound peerId y_rejected now c
                  | Some (r_terminal s_cancelled _ _) => endOutbound peerId y_cancelled now c
                  | Some (r_terminal _ _ _) => endOutbound peerId y_invalid_payload now c
                  | _ => c
                  end
      end
  | None =>
      match map_get (inbounds c) peerId, Verdict.kind d with
      | Some i, cancel =>
          let '(r, c) := transfer_call (in_transfer i) (ev_cancel d (Int now)) c in
          handled match r with Some (r_terminal s_cancelled _ _) => endInbound peerId y_cancelled now c | _ => c end
      | _, _ => answer peerId (a_ignored y_invalid_payload) c
      end
  end.

(** [key]: the lookup of the peer's key does not fail; [verified]: what
    WebCrypto answers, which the log keeps. *)
Definition signature_checked (peerId : jsstring) (payload : Payload_in) (key verified : bool) (shown : option bool) (now : Z) c
    : Controller :=
  let c := if key && verified then note (Verified peerId payload) c else c in
  if negb key then answer peerId (a_ignored y_invalid_payload) c
  else if negb verified then answer peerId (a_ignored y_invalid_signature) c
  else
    match payload with
    | in_manifest m => manifest_verified peerId m shown now c
    | in_decision d => decision_verified peerId d now c
    end.

(** [receiveChunk] of the transfer settled; when it awaits the digest of the
    file, [digest_ok] tells whether that succeeds. *)
Definition chunk_received (peerId : jsstring) (t : nat) (result : option AttachmentTransferResult) (digest_ok : bool) (now : Z) c : Controller :=
  let '(r, c) := match result with
                 | Some r => (Some r, c)
                 | None =>
                     let file := match transfers c !! t with Some x => default [] (head (pending (obj_live x))) | None => [] end in
                     transfer_call t (ev_digest (if digest_ok then Some (sha256 file) else None)) c
                 end in
  answer peerId (a_handled attachmentChunkKind)
    match r, manifest_of t c with
    | Some (r_completed file), Some m => endInbound peerId y_accepted now (note (Completed peerId m file) c)
    | Some (r_terminal s_aborted _ f_integrity_failed), _ => endInbound peerId y_integrity_failed now c
    | Some (r_terminal s_aborted _ _), _ | Some (r_terminal s_expired _ _), _ => endInbound peerId y_invalid_payload now c
    | _, _ => c
    end.

(** ** Local decisions *)

(** [#sendLocalDecision] up to its first await. *)
Definition sendLocalDecision (peerId : jsstring) (t : nat) (kind : AttachmentDecisionKind) (dir : AttachmentTransferDirection)
    (ports : Ports) (now : Z) c : Controller :=
  if negb (isKnownPeer ports) then answer peerId (a_rejected y_unknown_peer) c
  else if negb (localSigningKey ports) then answer peerId (a_rejected y_unavailable) c
  else suspend (signing_decision peerId t kind dir now) c.

Definition decide_offer (peerId : jsstring) (kind : AttachmentDecisionKind) (dir : AttachmentTransferDirection) (ports : Ports) (now : Z) c
    : Controller :=
  let t := match dir with
           | inbound => in_transfer <$> map_get (inbounds c) peerId
           | outbound => o ← map_get (outbounds c) peerId; out_transfer <$> outboundObjects c !! o
           end in
  match t with
  | None => answer peerId (a_rejected y_busy) c
  | Some t => sendLocalDecision peerId t kind dir ports now c
  end.

Definition accept_offer_of (peerId : jsstring) : Ports -> Z -> Controller -> Controller := decide_offer peerId accept inbound.
Definition reject_offer_of (peerId : jsstring) : Ports -> Z -> Controller -> Controller := decide_offer peerId reject inbound.
Definition cancel_transfer_of (peerId : jsstring) (dir : AttachmentTransferDirection) : Ports -> Z -> Controller -> Controller :=
  decide_offer peerId cancel dir.

Definition local_decision (kind : AttachmentDecisionKind) (m : AttachmentManifest) (now : Z) (signature : bytes) : AttachmentDecision :=
  Verdict.mk attachmentVersion kind (Manifest.transferId m) (Manifest.manifestId m) now
    (Z.min (Manifest.expiresAt m) (now + maxAttachmentTTLms)) signature.

Definition decision_failed (peerId : jsstring) (dir : AttachmentTransferDirection) (now : Z) c : Controller :=
  answer peerId (a_rejected y_send_failed) (end_direction dir peerId y_send_failed now c).

Definition decision_signed (peerId : jsstring) (t : nat) (kind : AttachmentDecisionKind) (dir : AttachmentTransferDirection) (started : Z)
    (signature : option bytes) (fresh : nat -> bytes) (now : Z) c : Controller :=
  match manifest_of t c with
  | None => c
  | Some m =>
      match (let? _ := attachmentDecisionSigningBytes (local_decision kind m started (repeat 0 64)) in result_of_option [] signature) with
      | Throw _ => decision_failed peerId dir now c
      | Ok signature =>
          let d := local_decision kind m started signature in
          let c := match kind with
                   | accept => (transfer_call t (ev_accept d (Int started)) (note (Consented peerId m) c)).2
                   | reject => c
                   | cancel => (transfer_call t (ev_cancel d (Int started)) c).2
                   end in
          match (let? body := encodeAttachmentDecision d in
                 let? deliveryId := randomToken 16 (fresh 0%nat) in
                 send peerId attachmentDecisionKind body deliveryId (fresh 1%nat) c) with
          | Ok c => suspend (sending_decision peerId kind dir) c
          | Throw _ => decision_failed peerId dir now c
          end
      end
  end.

Definition decision_sent (peerId : jsstring) (kind : AttachmentDecisionKind) (dir : AttachmentTransferDirection) (sent : bool) (now : Z) c
    : Controller :=
  if negb sent then decision_failed peerId dir now c
  else
    answer peerId a_sent
      match kind, dir with
      | accept, _ => note (Emitted transfer_accepted_event peerId dir y_accepted None) c
      | reject, inbound => endInbound peerId y_rejected now c
      | _, inbound => endInbound peerId y_cancelled now c
      | _, outbound => endOutbound peerId y_cancelled now c
      end.

(** ** Events *)

Record Settled := mkSettled {
  settled_ok : bool;
  settled_key : bool;
  settled_signature : option bytes;
  settled_random : nat -> bytes;
  settled_shown : option bool;
  settled_at : Z;
}.

Definition settle (call : Call) (s : Settled) c : Controller :=
  let now := settled_at s in
  match call with
  | signing_offer p file started tid mid => offer_signed p file started tid mid (settled_signature s) (settled_random s) now c
  | sending_offer p m => offer_sent p m (settled_ok s) now c
  | verifying p payload => signature_checked p payload (settled_key s) (settled_ok s) (settled_shown s) now c
  | receiving_chunk p t r => chunk_received p t r (settled_ok s) now c
  | signing_decision p t kind dir started => decision_signed p t kind dir started (settled_signature s) (settled_random s) now c
  | sending_decision p kind dir => decision_sent p kind dir (settled_ok s) now c
  | reading_chunk o index => chunk_read o index (settled_ok s) (settled_random s) now c
  | sending_chunk o => chunk_sent o (settled_ok s) now c
  end.

(** [ev_expiry], [ev_ack_timeout]: a timer of a live transfer fires. *)
Inductive Event : Type :=
| ev_offer (peerId : jsstring) (file : File) (ports : Ports) (now : Z) (fresh : nat -> bytes)
| ev_receive (peerId : jsstring) (plaintext : bytes) (ports : Ports) (now : Z)
| ev_accept_offer (peerId : jsstring) (ports : Ports) (now : Z)
| ev_reject_offer (peerId : jsstring) (ports : Ports) (now : Z)
| ev_cancel_transfer (peerId : jsstring) (dir : AttachmentTransferDirection) (ports : Ports) (now : Z)
| ev_forwarded (deliveryId : jsstring) (now : Z)
| ev_expiry (peerId : jsstring) (dir : AttachmentTransferDirection) (now : Z)
| ev_ack_timeout (peerId : jsstring) (now : Z)
| ev_unavailable (peerId : option jsstring) (now : Z)
| ev_settled (k : nat) (s : Settled).

Definition controller_step c (e : Event) : Controller :=
  match e with
  | ev_offer p file ports now fresh => offer p file ports now fresh c
  | ev_receive p plaintext ports now => receive p plaintext ports now c
  | ev_accept_offer p ports now => accept_offer_of p ports now c
  | ev_reject_offer p ports now => reject_offer_of p ports now c
  | ev_cancel_transfer p dir ports now => cancel_transfer_of p dir ports now c
  | ev_forwarded deliveryId now => (onRelayForwarded deliveryId now c).2
  | ev_expiry p dir now => end_direction dir p y_expired now c
  | ev_ack_timeout p now => endOutbound p y_ack_timeout now c
  | ev_unavailable (Some p) now => unavailable_peer p now c
  | ev_unavailable None now => unavailable_all now c
  | ev_settled k s =>
      match calls c !! k with
      | Some call => settle call s (on_calls (delete k (calls c)) c)
      | None => c
      end
  end.

Definition controller_run (events : list Event) : Controller := foldl controller_step empty_controller events.
End Operations.
