(* ===== verification/AttachmentControllerFacts.v ===== *)
(** * What the transfers of one tab guarantee

    Every entry of the log of a run of the controller has its cause before it,
    in any order of calls, network messages and settled awaits; the window of
    an outbound transfer is bounded and has one loop. *)
From S2P Require Import Prelude JsRuntime Collections Base64Url Attachment Transfer TransferFacts TransferRegistry ApplicationPayload Traces AttachmentController.

(** ** What a call on a transfer can change *)

Definition consent_of (m : AttachmentManifest) (d : AttachmentDecision) : Prop :=
  Verdict.kind d = accept /\ Verdict.transferId d = Manifest.transferId m /\ Verdict.manifestId d = Manifest.manifestId m.

Lemma accept_phase t d now : phase (accept_offer t d now).2 = accepted -> phase t = accepted \/ direction t = inbound.
Proof. unfold accept_offer. case_decide as E; intros H; [left; exact H | by right]. Qed.

Lemma matchesDecision_ids t d k now : matchesDecision t d k now = true ->
  Verdict.transferId d = Manifest.transferId (manifest t) /\ Verdict.manifestId d = Manifest.manifestId (manifest t).
Proof.
  unfold matchesDecision. destruct (attachmentDecisionSigningBytes d); [|done]. rewrite !andb_true_iff.
  intros [[[[[H1 H2] _] _] _] _]. apply str_eqb_true in H1, H2. by split.
Qed.

Definition keeps_phase (t t' : Transfer) : Prop := phase t' = accepted -> phase t = accepted.

Lemma phase_stays t : keeps_phase t t.
Proof. by intros H. Qed.

Lemma t_expire_phase t now : keeps_phase t (t_expire t now).2.
Proof. unfold t_expire, keeps_phase. repeat case_match; cbn; congruence. Qed.

Lemma t_abort_phase t reason : keeps_phase t (t_abort t reason).2.
Proof. unfold t_abort, t_terminal, keeps_phase. cbn [snd]. by case_match. Qed.

Lemma t_cancel_phase t : keeps_phase t (t_cancel t).2.
Proof.
  unfold t_cancel. case_decide; [intros Hp; exact Hp |]. case_match; [apply t_abort_phase |]. intros Hp. discriminate Hp.
Qed.

Lemma decision_phase t d now : phase (receiveDecision t d now).2 = accepted ->
  phase t = accepted \/ (direction t = outbound /\ consent_of (manifest t) d).
Proof.
  unfold receiveDecision. case_decide as E; [intros H; left; exact H |]. unfold unless_expired.
  pose proof (t_expire_phase t now) as He. destruct (t_expire t now) as [[] t'] eqn:Ex; cbn [snd] in *; [left; by apply He |].
  destruct (t_expire_continue _ _ _ Ex) as [-> _]. destruct (matchesDecision t d None now) eqn:Em; cbn [negb].
  2: intros H; left; by apply t_abort_phase in H.
  apply matchesDecision_ids in Em as [H1 H2]. destruct (Verdict.kind d) eqn:Ek; [intros _; right; by split_and! | |].
  - intros H. left. destruct (phase t) eqn:Ep; try discriminate H; try (apply t_abort_phase in H; congruence).
  - intros H. left. assert (H' : phase (t_cancel t).2 = accepted) by (revert H; by destruct (phase t)). by apply t_cancel_phase.
Qed.

Lemma unless_expired_phase t now k : (forall t', keeps_phase t' (k t').2) -> keeps_phase t (unless_expired t now k).2.
Proof.
  intros Hk H. unfold unless_expired in H. pose proof (t_expire_phase t now) as He. destruct (t_expire t now) as [[] t']; cbn [snd] in *.
  - by apply He.
  - by apply He, (Hk t').
Qed.

Lemma receiveChunk_phase t c now : keeps_phase t (receiveChunk t c now).2.
Proof.
  unfold receiveChunk. case_decide; [exact (phase_stays t) |]. pose proof (t_expire_phase t now) as He.
  destruct (t_expire t now) as [[] t']; cbn [snd] in *; [exact He |].
  case_decide as Ep; [exact He |]. intros _. apply He. exact Ep.
Qed.

Lemma resume_phase t file outcome : keeps_phase t (receiveChunk_resume t file outcome).2.
Proof.
  destruct outcome as [d|]; [|apply t_abort_phase]. unfold receiveChunk_resume. case_match; [apply t_abort_phase |].
  intros Hp. discriminate Hp.
Qed.

Lemma step_offer s e r s' : Transfer.step s e = Some (r, s') ->
  manifest (object s') = manifest (object s) /\ direction (object s') = direction (object s).
Proof.
  intros H. destruct (step_cases _ _ _ _ H) as [Hm _ _ _|c now _ _ _ _ _ Hm _|file rest o _ _ _ _ Ho].
  - apply moves_offer in Hm. tauto.
  - apply moves_offer in Hm. cbn in Hm. tauto.
  - rewrite Ho. destruct (receiveChunk_resume_moves (object s) file o) as [Hm|[_ E]]; [apply moves_offer in Hm; tauto | by rewrite E].
Qed.

Definition accepts (t : Transfer) (e : event) : Prop :=
  match e with
  | ev_accept _ _ => direction t = inbound
  | ev_decision d _ => direction t = outbound /\ consent_of (manifest t) d
  | _ => False
  end.

Lemma step_phase s e r s' : Transfer.step s e = Some (r, s') ->
  phase (object s') = accepted -> phase (object s) = accepted \/ accepts (object s) e.
Proof.
  intros H Hp. destruct e as [d now|d now|d now|c now|c now|now| |o]; cbn [Transfer.step accepts] in *.
  1: injection H as _ <-; by apply accept_phase in Hp.
  1: injection H as _ <-; by apply decision_phase in Hp.
  all: left.
  1: injection H as _ <-; revert Hp; cbn [object]; apply unless_expired_phase; intros t; case_match; [apply t_abort_phase | apply t_cancel_phase].
  1: injection H as _ <-; revert Hp; cbn [object]; unfold admitOutboundChunk; case_decide; [exact (phase_stays _) |];
     apply unless_expired_phase; intros t; case_decide; [exact (phase_stays t) |]; case_match; [exact (phase_stays t) | apply t_abort_phase].
  1: pose proof (receiveChunk_phase (object s) c now) as Hk; destruct (receiveChunk (object s) c now) as [[a|file] t];
     injection H as _ <-; by apply Hk.
  1: injection H as _ <-; revert Hp; cbn [object]; apply unless_expired_phase; exact phase_stays.
  1: injection H as _ <-; exact (t_abort_phase _ f_conflicting_duplicate Hp).
  destruct (pending s) as [|file rest]; [done |]. pose proof (resume_phase (object s) file o) as Hk.
  destruct (receiveChunk_resume (object s) file o) as [a t]. injection H as _ <-. by apply Hk.
Qed.

Lemma step_pending s e r s' : Transfer.step s e = Some (r, s') ->
  pending s' <> [] -> pending s <> [] \/ (direction (object s) = inbound /\ phase (object s) = accepted).
Proof.
  intros H Hp. destruct e as [d now|d now|d now|c now|c now|now| |o]; cbn [Transfer.step] in H;
    try (injection H as _ <-; by left).
  - destruct (receiveChunk (object s) c now) as [[a|file] t] eqn:E; injection H as _ <-; [by left |]. right. revert E.
    unfold receiveChunk, return_of. case_decide as Ed; [done |].
    destruct (t_expire (object s) now) as [[] t'] eqn:Ex; [done |]. destruct (t_expire_continue _ _ _ Ex) as [-> _].
    case_decide as Eph; [done |]. done.
  - destruct (pending s) as [|file rest]; [done |]. by left.
Qed.

(** Only the digest of a file on its way completes a transfer. *)
Lemma step_completed s e file s' : Transfer.step s e = Some (Some (r_completed file), s') ->
  exists rest, e = ev_digest (Some (Manifest.sha256 (manifest (object s)))) /\ pending s = file :: rest.
Proof.
  intros H. destruct (step_cases _ _ _ _ H) as [_ _ Hn _|c now _ _ _ _ _ _ Hc|f rest o -> Hp _ Hr _].
  - by destruct (Hn file).
  - destruct Hc as [[? _]|[(a & Ha & Hn) _]]; [done |]. simplify_eq. by destruct (Hn file).
  - injection Hr as Hr. symmetry in Hr. apply resume_completed in Hr as (-> & -> & _). by exists rest.
Qed.

Section Facts.
Variable sha256 : bytes -> jsstring.
Implicit Types (c : Controller) (L : list Effect) (t o k : nat) (p : jsstring) (objs : list Object) (outs : list OutboundTransfer).

(** What must come before an entry of the log. *)
Definition cause L (e : Effect) : Prop :=
  match e with
  | OfferShown p m => Verified p (in_manifest m) ∈ L
  | Consented p m => OfferShown p m ∈ L
  | Completed p m file => Consented p m ∈ L /\ sha256 file = Manifest.sha256 m /\ zlen file = Manifest.byteCount m
  | ChunkSent p m chunk => validateChunkForManifest chunk m = Ok tt /\ exists d, Verified p (in_decision d) ∈ L /\ consent_of m d
  | _ => True
  end.

(** ** The invariant *)

Record object_ok L (x : Object) : Prop := mkObjectOk {
  obj_transfer : exists tr, live_inv (manifest (object (obj_live x))) tr (obj_live x);
  obj_consented : (direction (object (obj_live x)) = inbound /\ phase (object (obj_live x)) = accepted) \/ pending (obj_live x) <> [] ->
    Consented (obj_peer x) (manifest (object (obj_live x))) ∈ L;
  obj_answered : direction (object (obj_live x)) = outbound -> phase (object (obj_live x)) = accepted ->
    exists d, Verified (obj_peer x) (in_decision d) ∈ L /\ consent_of (manifest (object (obj_live x))) d;
}.

Definition is_object objs p t : Prop := exists x, objs !! t = Some x /\ obj_peer x = p.

Definition shown_object L objs p t : Prop :=
  exists x, objs !! t = Some x /\ obj_peer x = p /\ OfferShown p (manifest (object (obj_live x))) ∈ L.

Definition call_ok L objs outs (call : Call) : Prop :=
  match call with
  | receiving_chunk p t r => is_object objs p t /\ forall a, r = Some a -> reports_completion a = false
  | signing_decision p t kind _ _ => kind = accept -> shown_object L objs p t
  | reading_chunk o _ => exists out, outs !! o = Some out /\ filling out = true /\ zlen (outstanding out) < outboundWindowSize
  | sending_chunk o => exists out, outs !! o = Some out /\ filling out = true
  | _ => True
  end.

(** The loop of [#fillWindow] that a call belongs to. *)
Definition loop_of (call : Call) : option nat :=
  match call with reading_chunk o _ | sending_chunk o => Some o | _ => None end.

Definition loops c : list nat := omap loop_of (calls c).

Record controller_ok c : Prop := mkControllerOk {
  ctl_log : justified cause [] (log c);
  ctl_objects : Forall (object_ok (log c)) (transfers c);
  ctl_inbounds : Forall (fun e => shown_object (log c) (transfers c) e.1 (in_transfer e.2)) (inbounds c);
  ctl_outs : Forall (fun out => is_object (transfers c) (out_peer out) (out_transfer out)
                       /\ zlen (outstanding out) <= outboundWindowSize) (outboundObjects c);
  ctl_outbounds : Forall (fun e => exists out, outboundObjects c !! e.2 = Some out /\ out_peer out = e.1) (outbounds c);
  ctl_calls : Forall (call_ok (log c) (transfers c) (outboundObjects c)) (calls c);
  ctl_loops : NoDup (loops c);
  ctl_maps : (map_wf (inboundRegistries c) /\ zlen (inboundRegistries c) <= maximumRememberedPeers)
    /\ (map_wf (outboundRegistries c) /\ zlen (outboundRegistries c) <= maximumRememberedPeers);
}.

(** Objects stay what they are. *)
Definition keeps_objects objs objs' : Prop :=
  forall t x, objs !! t = Some x -> exists x', objs' !! t = Some x' /\ obj_peer x' = obj_peer x
    /\ manifest (object (obj_live x')) = manifest (object (obj_live x)).

Lemma keeps_refl objs : keeps_objects objs objs.
Proof. intros t x Hx. by exists x. Qed.

Lemma is_object_keeps objs objs' p t : keeps_objects objs objs' -> is_object objs p t -> is_object objs' p t.
Proof. intros Hk (x & Hx & Ep). destruct (Hk t x Hx) as (x' & Hx' & Ep' & _). exists x'. split; [done | congruence]. Qed.

Lemma shown_object_keeps L L' objs objs' p t : L ⊆ L' -> keeps_objects objs objs' -> shown_object L objs p t -> shown_object L' objs' p t.
Proof.
  intros HL Hk (x & Hx & Ep & Hs). destruct (Hk t x Hx) as (x' & Hx' & Ep' & Em). exists x'.
  split_and!; [done | congruence |]. rewrite Em. by apply HL.
Qed.

Lemma att_object_ok_mono L L' x : L ⊆ L' -> object_ok L x -> object_ok L' x.
Proof.
  intros HL [H1 H2 H3]. constructor; [done | intros H; by apply HL, H2 |].
  intros Hd Hp. destruct (H3 Hd Hp) as (d & Hv & Hc). exists d. split; [by apply HL | done].
Qed.

Lemma call_ok_keeps L L' objs objs' outs call : L ⊆ L' -> keeps_objects objs objs' -> call_ok L objs outs call -> call_ok L' objs' outs call.
Proof.
  intros HL Hk. destruct call; cbn [call_ok]; try done.
  - intros [H1 H2]. split; [by eapply is_object_keeps | done].
  - intros H E. eapply shown_object_keeps; [done | done | by apply H].
Qed.

(** The log and the objects of transfers grow together. *)
Lemma ok_grow c c' : controller_ok c -> justified cause [] (log c') -> log c ⊆ log c' -> keeps_objects (transfers c) (transfers c') ->
  Forall (object_ok (log c')) (transfers c') ->
  inbounds c' = inbounds c -> outboundObjects c' = outboundObjects c -> outbounds c' = outbounds c -> calls c' = calls c ->
  inboundRegistries c' = inboundRegistries c -> outboundRegistries c' = outboundRegistries c -> controller_ok c'.
Proof.
  intros [H1 H2 H3 H4 H5 H6 H7 H8] Hj HL Hk Hobj Ei Eo Em Ec E1 E2.
  constructor; rewrite ?Ei, ?Eo, ?Em, ?Ec, ?E1, ?E2; try done.
  - eapply Forall_impl; [exact H3 |]. intros e. by apply shown_object_keeps.
  - eapply Forall_impl; [exact H4 |]. intros out [Ho Hw]. split; [by eapply is_object_keeps | done].
  - eapply Forall_impl; [exact H6 |]. intros call. by apply call_ok_keeps.
  - unfold loops. by rewrite Ec.
Qed.

Lemma ok_note e c : controller_ok c -> cause (log c) e -> controller_ok (note e c).
Proof.
  intros Hc He. apply (ok_grow c); try done; cbn [log note transfers].
  - by apply justified_snoc; [apply Hc |].
  - apply sub_snoc.
  - apply keeps_refl.
  - eapply Forall_impl; [apply Hc |]. intros x. apply att_object_ok_mono, sub_snoc.
Qed.

Lemma ok_answer p a c : controller_ok c -> controller_ok (answer p a c).
Proof. intros Hc. by apply ok_note. Qed.

Lemma note_in e c : e ∈ log (note e c).
Proof. cbn. apply elem_of_app. right. by apply list_elem_of_singleton. Qed.

(** ** Calls on transfers *)

(** What a call on the transfer needs. *)
Definition permitted c t (e : event) : Prop :=
  forall x, transfers c !! t = Some x ->
    match e with
    | ev_accept _ _ => Consented (obj_peer x) (manifest (object (obj_live x))) ∈ log c
    | ev_decision d _ => Verified (obj_peer x) (in_decision d) ∈ log c
    | _ => True
    end.

Lemma object_step L x e r live : object_ok L x -> Transfer.step (obj_live x) e = Some (r, live) ->
  match e with
  | ev_accept _ _ => Consented (obj_peer x) (manifest (object (obj_live x))) ∈ L
  | ev_decision d _ => Verified (obj_peer x) (in_decision d) ∈ L
  | _ => True
  end -> object_ok L (mkObject (obj_peer x) live).
Proof.
  intros [(tr & H1) H2 H3] Hs He. destruct (step_offer _ _ _ _ Hs) as [Em Ed].
  constructor; cbn [obj_peer obj_live]; rewrite ?Em, ?Ed.
  - exists (tr ++ [e]). by eapply step_live_inv.
  - intros [[Hi Hp]|Hp].
    + destruct (step_phase _ _ _ _ Hs Hp) as [Ha|Ha]; [by apply H2; left |]. destruct e; try done. destruct Ha as [Ha _]. congruence.
    + apply H2. destruct (step_pending _ _ _ _ Hs Hp); [by right | by left].
  - intros Ho Hp. destruct (step_phase _ _ _ _ Hs Hp) as [Ha|Ha]; [by apply H3 |]. destruct e; try done; cbn in Ha; [congruence |].
    destruct Ha as [_ Ha]. by exists d.
Qed.

Lemma transfer_call_rest t e c : let c' := (transfer_call t e c).2 in
  log c' = log c /\ inbounds c' = inbounds c /\ outboundObjects c' = outboundObjects c /\ outbounds c' = outbounds c /\ calls c' = calls c
  /\ inboundRegistries c' = inboundRegistries c /\ outboundRegistries c' = outboundRegistries c.
Proof. unfold transfer_call. destruct (transfers c !! t) as [x|]; [|done]. by destruct (Transfer.step (obj_live x) e) as [[r live]|]. Qed.

Lemma transfer_call_keeps t e c : keeps_objects (transfers c) (transfers (transfer_call t e c).2).
Proof.
  unfold transfer_call. destruct (transfers c !! t) as [x|] eqn:Ex; [|apply keeps_refl].
  destruct (Transfer.step (obj_live x) e) as [[r live]|] eqn:Es; [|apply keeps_refl]. cbn [snd transfers on_transfers].
  intros t' x' Hx'. destruct (decide (t = t')) as [<-|Hne].
  - exists (mkObject (obj_peer x) live). rewrite list_lookup_insert_eq by (by eapply lookup_lt_Some).
    assert (x' = x) as -> by congruence. split_and!; try done. apply (step_offer _ _ _ _ Es).
  - exists x'. by rewrite list_lookup_insert_ne.
Qed.

Lemma ok_transfer_call t e c : controller_ok c -> permitted c t e -> controller_ok (transfer_call t e c).2.
Proof.
  intros Hc Hp. destruct (transfer_call_rest t e c) as (El & Ei & Eo & Em & Ec & E1 & E2).
  apply (ok_grow c); try done; rewrite ?El; [apply Hc | done | apply transfer_call_keeps |].
  revert Hp. unfold permitted, transfer_call. destruct (transfers c !! t) as [x|] eqn:Ex; [|intros _; apply Hc].
  destruct (Transfer.step (obj_live x) e) as [[r live]|] eqn:Es; [|intros _; apply Hc]. intros Hp. cbn [snd transfers on_transfers].
  apply Forall_insert; [apply Hc |]. eapply object_step; [| exact Es | by apply Hp].
  exact (Forall_lookup_1 _ _ _ _ (ctl_objects c Hc) Ex).
Qed.

Lemma ok_abort t c : controller_ok c -> controller_ok (transfer_call t ev_abort c).2.
Proof. intros Hc. by apply ok_transfer_call. Qed.

(** ** Registries *)

(** A part of an operation that only works on transfers and registries. *)
Record kept c c' : Prop := mkKept {
  kept_ok : controller_ok c';
  kept_objects : keeps_objects (transfers c) (transfers c');
  kept_log : log c' = log c;
  kept_inbounds : inbounds c' = inbounds c;
  kept_outs : outboundObjects c' = outboundObjects c;
  kept_outbounds : outbounds c' = outbounds c;
  kept_calls : calls c' = calls c;
}.

Lemma kept_refl c : controller_ok c -> kept c c.
Proof. intros Hc. constructor; try done. apply keeps_refl. Qed.

Lemma kept_trans c c' c'' : kept c c' -> kept c' c'' -> kept c c''.
Proof.
  intros [H1 H2 H3 H4 H5 H6 H7] [G1 G2 G3 G4 G5 G6 G7]. constructor; try congruence.
  intros t x Hx. destruct (H2 t x Hx) as (x' & Hx' & Ep & Em). destruct (G2 t x' Hx') as (x'' & Hx'' & Ep' & Em').
  exists x''. split_and!; [done | congruence | congruence].
Qed.

Lemma kept_call t e c : controller_ok c -> permitted c t e -> kept c (transfer_call t e c).2.
Proof.
  intros Hc Hp. destruct (transfer_call_rest t e c) as (El & Ei & Eo & Em & Ec & _).
  constructor; try done; [by apply ok_transfer_call | apply transfer_call_keeps].
Qed.

Lemma ok_registries v c : controller_ok c -> controller_ok (on_registries v c).
Proof. intros Hc. apply (ok_grow c); try done; try apply Hc. apply keeps_refl. Qed.

Lemma kept_registries v c : controller_ok c -> kept c (on_registries v c).
Proof. intros Hc. constructor; try done; [by apply ok_registries | apply keeps_refl]. Qed.

Lemma registry_opened r m now r' : registry_open r m now = (Ok o_opened, r') ->
  exists dir opts x, open_transfer dir m opts now = Ok x /\ active r' = Some (mkLive x []).
Proof.
  unfold registry_open. destruct (sweep r now) as [r1|]; [|done]. destruct (map_has _ _); [done |]. destruct (active r1) as [live|].
  - destruct (negb _); [done |]. destruct (attachmentManifestSigningBytes _); [|done].
    destruct (attachmentManifestSigningBytes m); [|done]. destruct (bytesEqual _ _); [done |]. by destruct (sweep _ now).
  - destruct (open_transfer _ m _ now) as [x|] eqn:Eo; [|done]. intros [= <-]. by exists (r_direction r1), (r_options r1), x.
Qed.

Lemma ok_new_transfer p m dir opts now x c : controller_ok c -> open_transfer dir m opts now = Ok x ->
  controller_ok (on_transfers (transfers c ++ [mkObject p (mkLive x [])]) c).
Proof.
  intros Hc Ho. destruct (open_inv _ _ _ _ _ Ho) as (Hi & Em & Ep).
  apply (ok_grow c); try done; cbn [log transfers on_transfers]; [apply Hc | |].
  - intros t x' Hx'. exists x'. split; [by apply lookup_app_l_Some | done].
  - apply Forall_app. split; [apply Hc |]. apply Forall_singleton. constructor; cbn [obj_live object pending].
    + exists []. rewrite Em. by eapply (runs_live_inv dir m opts now), runs_open.
    + rewrite Ep. by intros [[_ ?]|?].
    + by rewrite Ep.
Qed.

Lemma new_transfer_keeps x c : keeps_objects (transfers c) (transfers c ++ [x]).
Proof. intros t x' Hx'. exists x'. split; [by apply lookup_app_l_Some | done]. Qed.

Lemma open_kept k p m now c : controller_ok c -> let '(_, t, c') := open_in_registry k p m now c in
  kept c c' /\ forall n, t = Some n -> exists x, transfers c' !! n = Some x /\ obj_peer x = p /\ manifest (object (obj_live x)) = m.
Proof.
  intros Hc. unfold open_in_registry. destruct (registries c !! k) as [r|]; [|by split; [apply kept_refl |]].
  destruct (registry_open (loaded r c) m (Int now)) as [a r'] eqn:Er.
  assert (Hst : forall (t : option nat), kept c (store_registry k r' t c)) by (intros; by apply kept_registries).
  destruct a as [[]|]; try (by split; [apply Hst |]).
  - destruct (active r') as [live|] eqn:Ea; [|by split; [apply Hst |]].
    destruct (registry_opened _ _ _ _ Er) as (dir & opts & x & Ho & E). rewrite E in Ea. injection Ea as <-. split.
    + pose proof (ok_new_transfer p _ _ _ _ _ c Hc Ho) as Hn.
      eapply kept_trans; [|by apply kept_registries]. constructor; try done. apply new_transfer_keeps.
    + intros n [= <-]. exists (mkObject p (mkLive x [])). cbn [transfers store_registry on_registries on_transfers].
      rewrite list_lookup_middle by done. split_and!; [done.. |]. apply (open_inv _ _ _ _ _ Ho).
  - destruct (active r') as [live|]; (split; [|done]);
      (destruct (active_transfer r) as [t|]; [eapply kept_trans; [by apply (kept_call t ev_abort) |]; apply kept_registries; by apply ok_abort | apply Hst]).
Qed.

Lemma expire_kept k now c : controller_ok c -> kept c (expire_registry k now c).
Proof.
  intros Hc. unfold expire_registry. destruct (registries c !! k) as [r|]; [|by apply kept_refl].
  set (c1 := match active_transfer r with Some t => _ | None => c end).
  assert (H1 : kept c c1) by (unfold c1; destruct (active_transfer r) as [t|]; [by apply kept_call | by apply kept_refl]).
  destruct (sweep _ _); [|done]. eapply kept_trans; [exact H1 |]. apply kept_registries, H1.
Qed.

Lemma remember_bound (m : list (jsstring * nat)) p k : map_wf m ->
  map_wf (map_set (map_trim (maximumRememberedPeers - 1) m) p k)
  /\ zlen (map_set (map_trim (maximumRememberedPeers - 1) m) p k) <= maximumRememberedPeers.
Proof.
  intros Hw. pose proof (map_trim_wf (maximumRememberedPeers - 1) m ltac:(by vm_compute) Hw) as Hw2.
  pose proof (map_trim_size (maximumRememberedPeers - 1) m ltac:(by vm_compute) Hw) as Hs.
  split; [by apply map_set_wf |]. rewrite map_set_size. case_match; lia.
Qed.

Lemma peer_registry_kept p dir c : controller_ok c -> kept c (peer_registry p dir c).2.
Proof.
  intros Hc. unfold peer_registry. destruct (map_get _ p) as [k|]; [by apply kept_refl |].
  pose proof (kept_registries (registries c ++ [mkPeerRegistry (mkRegistry dir registry_options [] None) None]) c Hc) as [H1 H2 _ _ _ _ _].
  destruct (ctl_maps c Hc) as [[Hi _] [Ho _]].
  pose proof (remember_bound _ p (length (registries c)) Hi) as Bi. pose proof (remember_bound _ p (length (registries c)) Ho) as Bo.
  cbn [snd]. destruct dir; (constructor; try done); destruct H1 as [G1 G2 G3 G4 G5 G6 G7 [G8 G9]]; by constructor.
Qed.

(** ** Endings and the window *)

Lemma ok_inbounds v c : controller_ok c -> Forall (fun e => shown_object (log c) (transfers c) e.1 (in_transfer e.2)) v ->
  controller_ok (on_inbounds v c).
Proof. intros [] Hv. by constructor. Qed.

Lemma ok_outbounds v c : controller_ok c ->
  Forall (fun e => exists out, outboundObjects c !! e.2 = Some out /\ out_peer out = e.1) v -> controller_ok (on_outbounds v c).
Proof. intros [] Hv. by constructor. Qed.

Lemma ok_deliveries v c : controller_ok c -> controller_ok (on_deliveries v c).
Proof. intros Hc. apply (ok_grow c); try done; try apply Hc. apply keeps_refl. Qed.

Lemma ok_manifests v c : controller_ok c -> controller_ok (on_manifests v c).
Proof. intros Hc. apply (ok_grow c); try done; try apply Hc. apply keeps_refl. Qed.

Lemma ok_offering v c : controller_ok c -> controller_ok (on_offering v c).
Proof. intros Hc. apply (ok_grow c); try done; try apply Hc. apply keeps_refl. Qed.

Lemma loops_filling c o : controller_ok c -> o ∈ loops c -> exists out, outboundObjects c !! o = Some out /\ filling out = true.
Proof.
  intros Hc Hin. unfold loops in Hin. apply list_elem_of_omap in Hin as (call & Hin & E).
  pose proof (ctl_calls c Hc) as Hcalls. rewrite Forall_forall in Hcalls. specialize (Hcalls call Hin).
  destruct call; try done; cbn in E; injection E as ->; destruct Hcalls as (out & ? & ?); exists out; tauto.
Qed.

Lemma loop_in call c o : call ∈ calls c -> loop_of call = Some o -> o ∈ loops c.
Proof. intros Hin E. unfold loops. apply list_elem_of_omap. by exists call. Qed.

(** Changing an outbound transfer whose loop may be under way. *)
Lemma att_ok_update o f c : controller_ok c ->
  (forall out, outboundObjects c !! o = Some out -> zlen (outstanding out) <= outboundWindowSize ->
     out_peer (f out) = out_peer out /\ out_transfer (f out) = out_transfer out /\ zlen (outstanding (f out)) <= outboundWindowSize
     /\ (o ∈ loops c -> filling (f out) = filling out /\ zlen (outstanding (f out)) <= zlen (outstanding out))) ->
  controller_ok (update_outbound o f c).
Proof.
  intros Hc Hf. pose proof Hc as [H1 H2 H3 H4 H5 H6 H7 H8].
  assert (Hat : forall out, outboundObjects c !! o = Some out -> _) by (intros out E; exact (Hf out E (proj2 (Forall_lookup_1 _ _ _ _ H4 E)))).
  clear Hf. constructor; cbn [log transfers inbounds outboundObjects outbounds calls inboundRegistries outboundRegistries update_outbound on_objects];
    try done.
  - apply Forall_lookup. intros j out. destruct (decide (o = j)) as [<-|Hne].
    + rewrite list_lookup_alter_eq. destruct (outboundObjects c !! o) as [out0|] eqn:E; [|done]. intros [= <-].
      destruct (Hat out0 eq_refl) as (Ep & Et & Hw & _). rewrite Ep, Et. split; [|done]. apply (Forall_lookup_1 _ _ _ _ H4 E).
    + rewrite list_lookup_alter_ne by done. apply (Forall_lookup_1 _ _ _ _ H4).
  - eapply Forall_impl; [exact H5 |]. intros [p j] (out & Hj & Ep). cbn [fst snd] in *. destruct (decide (o = j)) as [<-|Hne].
    + exists (f out). rewrite list_lookup_alter_eq, Hj. split; [done |]. destruct (Hat out Hj) as (E & _). congruence.
    + exists out. by rewrite list_lookup_alter_ne.
  - apply Forall_forall. intros call Hin. rewrite Forall_forall in H6. specialize (H6 call Hin).
    destruct call as [| | | | | |j index|j]; try done; destruct H6 as (out & Hj & Hfill); (destruct (decide (o = j)) as [<-|Hne];
      [exists (f out); rewrite list_lookup_alter_eq, Hj; destruct (Hat out Hj) as (_ & _ & _ & Hl);
       destruct Hl as [-> Hl]; [by eapply loop_in |] | exists out; by rewrite list_lookup_alter_ne by done]).
    + destruct Hfill. split_and!; [done | done | lia].
    + done.
Qed.

Lemma ok_stop o c : controller_ok c -> o ∉ loops c -> controller_ok (update_outbound o (set_filling false) c).
Proof. intros Hc Hn. apply att_ok_update; [done |]. intros out _ Hw. by split_and!. Qed.

Lemma end_inbound_ok p reason now c : controller_ok c -> controller_ok (endInbound p reason now c).
Proof.
  intros Hc. unfold endInbound. destruct (map_get (inbounds c) p) as [i|]; [|done]. cbv zeta.
  set (c1 := expire_registry _ now _). assert (H1 : controller_ok c1) by (apply expire_kept, ok_abort, Hc). clearbody c1.
  apply ok_note; [|done]. apply ok_inbounds; [done |]. eapply Forall_sublist; [apply map_delete_sublist | apply H1].
Qed.

Lemma end_outbound_ok p reason now c : controller_ok c -> controller_ok (endOutbound p reason now c).
Proof.
  intros Hc. unfold endOutbound. destruct (map_get (outbounds c) p) as [o|]; [|done].
  destruct (outboundObjects c !! o) as [out|]; [|done]. cbv zeta. set (c1 := expire_registry _ now _).
  assert (H1 : controller_ok c1).
  { apply expire_kept, ok_abort, att_ok_update; [by apply ok_deliveries, ok_manifests |]. intros out' _ Hw. split_and!; try done.
    intros _. split; [done | apply zlen_nonneg]. }
  clearbody c1. apply ok_note; [|done]. apply ok_outbounds; [done |]. eapply Forall_sublist; [apply map_delete_sublist | apply H1].
Qed.

Lemma end_direction_ok dir p reason now c : controller_ok c -> controller_ok (end_direction dir p reason now c).
Proof. destruct dir; [apply end_inbound_ok | apply end_outbound_ok]. Qed.

Lemma expire_calls k now c : calls (expire_registry k now c) = calls c.
Proof.
  unfold expire_registry. destruct (registries c !! k) as [r|]; [|done].
  destruct (active_transfer r) as [t|]; destruct (sweep _ _); cbn; try done; apply transfer_call_rest.
Qed.

Lemma end_outbound_calls p reason now c : calls (endOutbound p reason now c) = calls c.
Proof.
  unfold endOutbound. destruct (map_get (outbounds c) p) as [o|]; [|done]. destruct (outboundObjects c !! o) as [out|]; [|done].
  cbv zeta. cbn [calls note on_outbounds]. rewrite expire_calls. etransitivity; [apply transfer_call_rest | done].
Qed.

Lemma att_ok_suspend call c : controller_ok c -> call_ok (log c) (transfers c) (outboundObjects c) call ->
  (forall o, loop_of call = Some o -> o ∉ loops c) -> controller_ok (suspend call c).
Proof.
  intros [H1 H2 H3 H4 H5 H6 H7 H8] Hcall Hn. constructor; try done; cbn [calls suspend on_calls].
  - apply Forall_app. split; [done |]. by apply Forall_singleton.
  - unfold loops in *. cbn [calls suspend on_calls]. rewrite omap_app. apply NoDup_app. split; [done |]. cbn.
    destruct (loop_of call) as [o|]; cbn; (split; [|apply NoDup_singleton || apply NoDup_nil_2]); intros x Hx Hx2.
    + apply list_elem_of_singleton in Hx2 as ->. by apply (Hn o).
    + by apply elem_of_nil in Hx2.
Qed.

(** A call settles: its loop is nobody's now. *)
Lemma att_ok_settle k call c : controller_ok c -> calls c !! k = Some call ->
  let c' := on_calls (delete k (calls c)) c in
  controller_ok c' /\ call_ok (log c') (transfers c') (outboundObjects c') call
  /\ forall o, loop_of call = Some o -> o ∉ loops c'.
Proof.
  intros [H1 H2 H3 H4 H5 H6 H7 H8] Hk c'.
  assert (Hsplit : loops c ≡ₚ match loop_of call with Some o => [o] | None => [] end ++ loops c').
  { unfold loops, c'. cbn [calls on_calls]. rewrite (delete_Permutation (calls c) k call Hk) at 1. cbn. by destruct (loop_of call). }
  rewrite Hsplit in H7. apply NoDup_app in H7 as (_ & Hdis & Hnd). split_and!.
  - constructor; cbn [log transfers inbounds outboundObjects outbounds calls inboundRegistries outboundRegistries on_calls]; try done.
    by apply Forall_delete.
  - by apply (Forall_lookup_1 _ _ _ _ H6 Hk).
  - intros o E. rewrite E in Hdis. apply Hdis. by apply list_elem_of_singleton.
Qed.

Lemma fill_next_ok o c : controller_ok c -> (o ∉ loops c) ->
  (forall out, outboundObjects c !! o = Some out -> filling out = true) -> controller_ok (fill_next o c).
Proof.
  intros Hc Hn Hf. unfold fill_next. destruct (outboundObjects c !! o) as [out|] eqn:Eo; [|done].
  destruct (_ && _) eqn:E; [|by apply ok_stop]. apply andb_true_iff in E as [E _]. apply Z.ltb_lt in E.
  apply att_ok_suspend; [| |by intros o' [= <-]].
  - apply att_ok_update; [done |]. intros out' _ Hw. by split_and!.
  - exists (set_next (nextChunkIndex out + 1) out). cbn [outboundObjects update_outbound on_objects].
    rewrite list_lookup_alter_eq, Eo. split_and!; [done | exact (Hf out eq_refl) | done].
Qed.

Lemma fillWindow_ok o c : controller_ok c -> controller_ok (fillWindow o c).
Proof.
  intros Hc. unfold fillWindow. destruct (outboundObjects c !! o) as [out|] eqn:Eo; [|done].
  destruct (filling out) eqn:Ef; [done |]. destruct (negb _); [done |]. cbn [orb].
  assert (Hn : o ∉ loops c).
  { intros Hin. destruct (loops_filling c o Hc Hin) as (out' & Eo' & Hf). congruence. }
  apply fill_next_ok; [by apply att_ok_update; [|intros out' _ Hw; split_and!; try done; by intros] | done |].
  intros out'. cbn [outboundObjects update_outbound on_objects]. rewrite list_lookup_alter_eq, Eo. by intros [= <-].
Qed.

Lemma send_Ok p kind b id filled c c' : (let? body := b in send p kind body id filled c) = Ok c' ->
  exists body plaintext, c' = note (Requested p id kind body plaintext) c.
Proof.
  destruct b as [body|]; [|done]. unfold send. destruct (randomToken 16 filled); [|done].
  destruct (encodeApplicationPayload _) as [plaintext|]; [|done]. intros [= <-]. by exists body, plaintext.
Qed.

Lemma admit_stored live chunk now ph live' :
  Transfer.step live (ev_admit chunk now) = Some (Some (r_ok s_chunk_stored ph), live') ->
  direction (object live) = outbound /\ phase (object live) = accepted /\ validateChunkForManifest chunk (manifest (object live)) = Ok tt.
Proof.
  cbn [Transfer.step]. intros H. injection H as H _. revert H. unfold admitOutboundChunk. case_decide as Ed; [done |].
  unfold unless_expired. destruct (t_expire (object live) now) as [[] t'] eqn:Ex; [done |].
  destruct (t_expire_continue _ _ _ Ex) as [-> _]. case_decide as Ep; [done |].
  destruct (validateChunkForManifest chunk _) as [[]|]; done.
Qed.

Lemma chunk_read_ok o index read_ok fresh now c : controller_ok c -> (o ∉ loops c) ->
  call_ok (log c) (transfers c) (outboundObjects c) (reading_chunk o index) -> controller_ok (chunk_read o index read_ok fresh now c).
Proof.
  intros Hc Hn (out & Eo & Hfill & Hroom). unfold chunk_read. rewrite Eo.
  destruct (manifest_of (out_transfer out) c) as [m|] eqn:Em; [|done]. destruct (negb read_ok); [by apply ok_stop |].
  set (chunk := Chunk.mk _ _ _ index _). cbv zeta. clearbody chunk.
  pose proof (kept_call (out_transfer out) (ev_admit chunk (Int now)) c Hc ltac:(done)) as Hk.
  assert (Hstop : forall reason c', controller_ok c' -> calls c' = calls c ->
    controller_ok (update_outbound o (set_filling false) (endOutbound (out_peer out) reason now c'))).
  { intros reason c' H' E. apply ok_stop; [by apply end_outbound_ok |]. unfold loops. by rewrite end_outbound_calls, E. }
  destruct (transfer_call _ _ c) as [admitted c1] eqn:Et. cbn [snd] in Hk. destruct Hk as [H1 _ Hlog _ Houts _ Hcalls].
  destruct admitted as [[[] ph| | |]|]; try (by apply Hstop).
  assert (Hn1 : o ∉ loops c1) by (unfold loops; by rewrite Hcalls).
  destruct (randomToken 16 _) as [id|]; [|by apply ok_stop].
  assert (Hcause : cause (log c) (ChunkSent (out_peer out) m chunk)).
  { destruct (proj1 (Forall_lookup_1 _ _ _ _ (ctl_outs c Hc) Eo)) as (x & Hx & Ep). revert Et Em. unfold transfer_call, manifest_of. rewrite Hx.
    destruct (Transfer.step (obj_live x) _) as [[r live]|] eqn:Es; [|done]. intros [= -> _]. cbn. intros [= <-].
    destruct (admit_stored _ _ _ _ _ Es) as (Hd & Hp & Hv). split; [done |]. rewrite <- Ep.
    exact (obj_answered _ _ (Forall_lookup_1 _ _ _ _ (ctl_objects c Hc) Hx) Hd Hp). }
  set (c2 := on_deliveries _ (update_outbound o _ c1)).
  assert (H2 : controller_ok c2).
  { apply ok_deliveries, att_ok_update; [done |]. intros out' E' _. assert (out' = out) as -> by congruence.
    split_and!; try done. cbn [outstanding set_outstanding]. rewrite map_set_size. unfold outboundWindowSize in *. case_match; lia. }
  destruct (let? body := _ in send _ _ body _ _ c2) as [c3|] eqn:Es; [|by apply Hstop].
  apply send_Ok in Es as (body & plaintext & ->). apply att_ok_suspend.
  - apply ok_note; [by apply ok_note |]. cbn [log note c2 on_deliveries update_outbound on_objects]. rewrite Hlog.
    destruct Hcause as [Hv (d & Hd & Hc2)]. split; [done |]. exists d. split; [by apply sub_snoc | done].
  - cbn [call_ok outboundObjects note c2 on_deliveries update_outbound on_objects].
    rewrite list_lookup_alter_eq, Houts, Eo. by eexists.
  - intros o' [= <-]. done.
Qed.

Lemma chunk_sent_ok o sent now c : controller_ok c -> (o ∉ loops c) ->
  call_ok (log c) (transfers c) (outboundObjects c) (sending_chunk o) -> controller_ok (chunk_sent o sent now c).
Proof.
  intros Hc Hn (out & Eo & Hfill). unfold chunk_sent. rewrite Eo. destruct sent.
  - apply fill_next_ok; [done | done |]. intros out' E. by assert (out' = out) as -> by congruence.
  - apply ok_stop; [by apply end_outbound_ok |]. unfold loops. by rewrite end_outbound_calls.
Qed.

Lemma forwarded_ok id now c : controller_ok c -> controller_ok (onRelayForwarded id now c).2.
Proof.
  intros Hc. unfold onRelayForwarded. destruct (map_has _ id); [by apply ok_manifests |].
  destruct (map_get (deliveryToOutbound c) id) as [o|]; [|done]. destruct (outboundObjects c !! o) as [out|] eqn:Eo; [|done].
  destruct (negb _); [done |]. cbv zeta. cbn [snd]. set (c1 := on_deliveries _ _).
  assert (H1 : controller_ok c1).
  { apply ok_deliveries, att_ok_update; [done |]. intros out' E' Hw.
    assert (zlen (map_delete (outstanding out') id) <= zlen (outstanding out')).
    { unfold zlen. pose proof (sublist_length _ _ (map_delete_sublist (outstanding out') id)). lia. }
    assert (out' = out) as -> by congruence. split_and!; try done; cbn; lia. }
  clearbody c1. destruct (_ && _); [by apply end_outbound_ok | by apply fillWindow_ok].
Qed.

(** ** Offers and messages *)

Lemma offer_over_ok p c : controller_ok c -> controller_ok (offer_over p c).
Proof. apply ok_offering. Qed.

Lemma offer_rejected_ok p reason c : controller_ok c -> controller_ok (offerRejected p reason c).
Proof. intros Hc. by apply ok_answer, ok_note. Qed.

Lemma offer_failed_ok p now c : controller_ok c -> controller_ok (offer_failed p now c).
Proof.
  intros Hc. unfold offer_failed. cbv zeta. pose proof (end_outbound_ok p y_send_failed now c Hc) as H1.
  apply offer_over_ok. case_match; [by apply ok_answer | by apply offer_rejected_ok].
Qed.

Lemma offer_ok p file ports now fresh c : controller_ok c -> controller_ok (offer p file ports now fresh c).
Proof.
  intros Hc. unfold offer. destruct (canOffer p ports c) as [reason|maximumBytes]; [by apply offer_rejected_ok |].
  cbv zeta. destruct (_ || _); [by apply offer_rejected_ok |].
  assert (H1 : controller_ok (on_offering (offeringPeers c ++ [p]) c)) by (by apply ok_offering).
  destruct (randomToken 16 _); [|by apply offer_failed_ok]. destruct (randomToken 32 _); [|by apply offer_failed_ok].
  by apply att_ok_suspend.
Qed.

Lemma offer_signed_ok p file started tid mid signature fresh now c : controller_ok c ->
  controller_ok (offer_signed sha256 p file started tid mid signature fresh now c).
Proof.
  intros Hc. unfold offer_signed. cbv zeta. destruct (let? _ := _ in _) as [sig|]; [|by apply offer_failed_ok].
  set (m := with_signature sig _). clearbody m. destruct (_ <? _); [by apply offer_over_ok, offer_rejected_ok |].
  pose proof (kept_ok _ _ (peer_registry_kept p outbound c Hc)) as H1. destruct (peer_registry p outbound c) as [k c1]. cbn [snd] in H1.
  pose proof (open_kept k p m started c1 H1) as H2. destruct (open_in_registry k p m started c1) as [[opened t] c2].
  destruct H2 as [[H2 _ _ _ _ _ _] Ht].
  destruct opened as [[]|]; try (by apply offer_failed_ok); try (by apply offer_over_ok, offer_rejected_ok).
  destruct t as [t|]; [|by apply offer_over_ok, offer_rejected_ok]. destruct (Ht t eq_refl) as (x & Hx & Ep & _).
  destruct (randomToken 16 _) as [id|]; [|by apply offer_failed_ok].
  set (out := mkOutbound p k t file id [] 0 false). set (c3 := on_objects _ c2).
  assert (H3 : controller_ok c3).
  { destruct H2 as [G1 G2 G3 G4 G5 G6 G7 G8]. constructor; cbn [log transfers inbounds outboundObjects outbounds calls c3 on_objects]; try done.
    - apply Forall_app. split; [done |]. apply Forall_singleton. split; [by exists x | done].
    - eapply Forall_impl; [exact G5 |]. intros e (out' & Ho & E). exists out'. split; [by apply lookup_app_l_Some | done].
    - eapply Forall_impl; [exact G6 |]. intros [| | | | | |j index|j]; try done; intros (out' & Ho & E);
        (exists out'; split; [by apply lookup_app_l_Some | done]). }
  set (c4 := on_outbounds _ c3). assert (H4 : controller_ok c4).
  { apply ok_outbounds; [done |]. apply Forall_forall. intros e Hin. destruct (elem_of_map_set _ _ _ _ Hin) as [->|Hin'].
    - exists out. split; [|done]. cbn [snd outboundObjects c3 on_objects]. by apply list_lookup_middle.
    - pose proof (ctl_outbounds c3 H3) as Hf. rewrite Forall_forall in Hf. by apply Hf. }
  pose proof (ok_manifests (map_set (manifestDeliveryToOutbound c4) id (length (outboundObjects c2))) c4 H4) as H5.
  destruct (let? body := _ in send _ _ body _ _ _) as [c6|] eqn:Es; [|by apply offer_failed_ok].
  apply send_Ok in Es as (body & plaintext & ->). apply att_ok_suspend; try done. by apply ok_note.
Qed.

Lemma offer_sent_ok p m sent now c : controller_ok c -> controller_ok (offer_sent p m sent now c).
Proof. intros Hc. unfold offer_sent. destruct (negb sent); [by apply offer_failed_ok |]. by apply offer_over_ok, ok_answer, ok_note. Qed.

Lemma chunk_not_completed t chunk now c r : (transfer_call t (ev_chunk chunk now) c).1 = Some r -> reports_completion r = false.
Proof.
  unfold transfer_call. destruct (transfers c !! t) as [x|]; [|done].
  destruct (Transfer.step (obj_live x) _) as [[r' live]|] eqn:Es; [|done]. cbn [fst]. intros ->.
  destruct r as [|file| |]; try done. apply step_completed in Es as (rest & E & _). done.
Qed.

Lemma inbound_object p i c : controller_ok c -> map_get (inbounds c) p = Some i -> shown_object (log c) (transfers c) p (in_transfer i).
Proof.
  intros Hc Hi. pose proof (ctl_inbounds c Hc) as Hf. rewrite Forall_forall in Hf. apply (Hf (p, i)).
  by apply map_get_Some_elem.
Qed.

Lemma att_receive_ok p plaintext ports now c : controller_ok c -> controller_ok (receive p plaintext ports now c).
Proof.
  intros Hc. unfold receive. destruct (negb _); [by apply ok_answer |]. destruct (decodeApplicationPayload plaintext) as [payload|]; [|by apply ok_answer].
  cbv zeta. destruct (str_eqb _ attachmentManifestKind); [destruct (decodeAttachmentManifest _); [by apply att_ok_suspend | by apply ok_answer] |].
  destruct (str_eqb _ attachmentDecisionKind); [destruct (decodeAttachmentDecision _); [by apply att_ok_suspend | by apply ok_answer] |].
  destruct (str_eqb _ attachmentChunkKind); [|by apply ok_answer]. destruct (map_get (inbounds c) p) as [i|] eqn:Ei; [|by apply ok_answer].
  destruct (decodeAttachmentChunk _) as [chunk|]; [|by apply ok_answer].
  destruct (inbound_object p i c Hc Ei) as (x & Hx & Ep & _).
  pose proof (kept_call (in_transfer i) (ev_chunk chunk (Int now)) c Hc ltac:(done)) as Hk.
  pose proof (chunk_not_completed (in_transfer i) chunk (Int now) c) as Hr.
  destruct (transfer_call _ _ c) as [r c1]. cbn [fst snd] in *. apply att_ok_suspend; [apply Hk | | done]. split.
  - eapply is_object_keeps; [apply Hk |]. by exists x.
  - intros a ->. by apply Hr.
Qed.

Lemma manifest_verified_ok p m shown now c : controller_ok c -> Verified p (in_manifest m) ∈ log c ->
  controller_ok (manifest_verified p m shown now c).
Proof.
  intros Hc Hv. unfold manifest_verified. destruct (_ || _); [by apply ok_answer |].
  pose proof (peer_registry_kept p inbound c Hc) as [H1 _ L1 _ _ _ _]. destruct (peer_registry p inbound c) as [k c1]. cbn [snd] in *.
  pose proof (open_kept k p m now c1 H1) as H2. destruct (open_in_registry k p m now c1) as [[opened t] c2].
  destruct H2 as [[H2 _ L2 _ _ _ _] Ht]. destruct opened as [[]|]; try (by apply ok_answer). destruct t as [t|]; [|by apply ok_answer].
  destruct (Ht t eq_refl) as (x & Hx & Ep & Em). set (c3 := on_inbounds _ c2). cbv zeta.
  assert (H3 : controller_ok (note (OfferShown p m) c3)).
  { assert (H3 : controller_ok (note (OfferShown p m) c2)) by (apply ok_note; [done |]; cbn; by rewrite L2, L1).
    apply (ok_inbounds (map_set (inbounds c2) p (mkInbound k t))) in H3; [exact H3 |]. apply Forall_forall. intros e Hin.
    destruct (elem_of_map_set _ _ _ _ Hin) as [->|Hin'].
    - exists x. split_and!; [done | done |]. cbn [fst snd in_transfer]. rewrite Em. apply note_in.
    - pose proof (ctl_inbounds _ H3) as Hf. rewrite Forall_forall in Hf. by apply Hf. }
  destruct shown as [[]|]; apply ok_answer; [by apply ok_note | by apply end_inbound_ok | by apply end_inbound_ok].
Qed.

Lemma decision_verified_ok p d now c : controller_ok c -> Verified p (in_decision d) ∈ log c ->
  controller_ok (decision_verified p d now c).
Proof.
  intros Hc Hv. unfold decision_verified. cbv zeta. destruct (map_get (outbounds c) p) as [o|] eqn:Em.
  - destruct (outboundObjects c !! o) as [out|] eqn:Eo; [|done].
    assert (Ep : out_peer out = p).
    { pose proof (ctl_outbounds c Hc) as Hf. rewrite Forall_forall in Hf.
      destruct (Hf (p, o) (map_get_Some_elem _ _ _ Em)) as (out' & Ho & E). cbn [fst snd] in *. congruence. }
    destruct (proj1 (Forall_lookup_1 _ _ _ _ (ctl_outs c Hc) Eo)) as (x & Hx & Epx).
    assert (Hp : permitted c (out_transfer out) (ev_decision d (Int now))).
    { intros x' Hx'. assert (x' = x) as -> by congruence. by rewrite Epx, Ep. }
    pose proof (kept_ok _ _ (kept_call _ _ c Hc Hp)) as H1. destruct (transfer_call _ _ c) as [r c1]. cbn [snd] in H1. apply ok_answer.
    destruct r as [[[] ?| |[] ? ?|]|]; try done; try (by apply end_outbound_ok). by apply fillWindow_ok, ok_note.
  - destruct (map_get (inbounds c) p) as [i|]; [|by apply ok_answer]. destruct (Verdict.kind d); try (by apply ok_answer).
    pose proof (kept_ok _ _ (kept_call (in_transfer i) (ev_cancel d (Int now)) c Hc ltac:(done))) as H1.
    destruct (transfer_call _ _ c) as [r c1]. cbn [snd] in H1. apply ok_answer.
    destruct r as [[| |[] ? ?|]|]; try done. by apply end_inbound_ok.
Qed.

Lemma signature_checked_ok p payload key verified shown now c : controller_ok c ->
  controller_ok (signature_checked p payload key verified shown now c).
Proof.
  intros Hc. unfold signature_checked. destruct key; [|by apply ok_answer]. destruct verified; [|by apply ok_answer]. cbn [andb negb].
  assert (H1 : controller_ok (note (Verified p payload) c)) by (by apply ok_note). pose proof (note_in (Verified p payload) c) as Hin.
  destruct payload; [by apply manifest_verified_ok | by apply decision_verified_ok].
Qed.

Lemma completes c p t file digest : controller_ok c -> is_object (transfers c) p t ->
  (transfer_call t (ev_digest digest) c).1 = Some (r_completed file) -> forall m, manifest_of t (transfer_call t (ev_digest digest) c).2 = Some m ->
  Consented p m ∈ log c /\ digest = Some (Manifest.sha256 m) /\ zlen file = Manifest.byteCount m
  /\ exists x, transfers c !! t = Some x /\ head (pending (obj_live x)) = Some file.
Proof.
  intros Hc (x & Hx & Ep). unfold transfer_call, manifest_of. rewrite Hx.
  destruct (Transfer.step (obj_live x) _) as [[r live]|] eqn:Es; [|done]. cbn [fst snd transfers on_transfers]. intros -> m.
  rewrite list_lookup_insert_eq by (by eapply lookup_lt_Some). cbn. intros [= <-].
  destruct (step_offer _ _ _ _ Es) as [Em _]. rewrite Em. destruct (step_completed _ _ _ _ Es) as (rest & [= ->] & Epend).
  destruct (Forall_lookup_1 _ _ _ _ (ctl_objects c Hc) Hx) as [(tr & Hl) Hcons _]. split_and!; [| done | |].
  - rewrite <- Ep. apply Hcons. right. by rewrite Epend.
  - pose proof (li_pending _ _ _ Hl) as Hp. rewrite Epend in Hp. apply Forall_cons in Hp as [(bs & _ & _ & Hz & _) _]. done.
  - exists x. by rewrite Epend.
Qed.

Lemma chunk_received_ok p t r digest_ok now c : controller_ok c -> call_ok (log c) (transfers c) (outboundObjects c) (receiving_chunk p t r) ->
  controller_ok (chunk_received sha256 p t r digest_ok now c).
Proof.
  intros Hc [Ho Hr]. unfold chunk_received. destruct r as [a|].
  - apply ok_answer. specialize (Hr a eq_refl).
    destruct a as [|file|[] ? []|]; try done; destruct (manifest_of t c); first [done | by apply end_inbound_ok].
  - cbv zeta. set (file := match transfers c !! t with Some x => _ | None => [] end).
    set (digest := if digest_ok then Some (sha256 file) else None).
    pose proof (completes c p t) as Hdone. specialize (fun file' => Hdone file' digest Hc Ho).
    pose proof (kept_call t (ev_digest digest) c Hc ltac:(done)) as Hk.
    destruct (transfer_call t (ev_digest digest) c) as [a c1]. cbn [fst snd] in *. destruct Hk as [H1 _ Hlog _ _ _ _]. apply ok_answer.
    destruct a as [[|content|[] ? []|]|]; try done; destruct (manifest_of t c1) as [m|] eqn:Em; try done; try (by apply end_inbound_ok).
    destruct (Hdone content eq_refl m eq_refl) as (Hcons & Ed & Hz & x & Hx & Hh). apply end_inbound_ok, ok_note; [done |].
    cbn. rewrite Hlog. split_and!; [done | | done]. unfold digest in Ed. destruct digest_ok; [|done].
    injection Ed as <-. unfold file. by rewrite Hx, Hh.
Qed.

(** ** Local decisions *)

Lemma decide_offer_ok p kind dir ports now c : controller_ok c -> (kind = accept -> dir = inbound) ->
  controller_ok (decide_offer p kind dir ports now c).
Proof.
  intros Hc Hdir. unfold decide_offer. cbv zeta.
  destruct (match dir with inbound => _ | outbound => _ end) as [t|] eqn:Et; [|by apply ok_answer].
  unfold sendLocalDecision. destruct (negb _); [by apply ok_answer |]. destruct (negb _); [by apply ok_answer |].
  apply att_ok_suspend; [done | | done]. intros E. rewrite (Hdir E) in Et.
  destruct (map_get (inbounds c) p) as [i|] eqn:Ei; [|done]. injection Et as <-. by apply inbound_object.
Qed.

Lemma decision_failed_ok p dir now c : controller_ok c -> controller_ok (decision_failed p dir now c).
Proof. intros Hc. by apply ok_answer, end_direction_ok. Qed.

Lemma decision_signed_ok p t kind dir started signature fresh now c : controller_ok c ->
  call_ok (log c) (transfers c) (outboundObjects c) (signing_decision p t kind dir started) ->
  controller_ok (decision_signed p t kind dir started signature fresh now c).
Proof.
  intros Hc Hshown. unfold decision_signed. destruct (manifest_of t c) as [m|] eqn:Em; [|done].
  destruct (let? _ := _ in _) as [sig|]; [|by apply decision_failed_ok]. cbv zeta. set (d := local_decision _ _ _ sig). clearbody d.
  set (c1 := match kind with accept => _ | reject => c | cancel => _ end).
  assert (H1 : controller_ok c1).
  { unfold c1. destruct kind; [| done | by apply ok_transfer_call]. destruct (Hshown eq_refl) as (x & Hx & Ep & Hs).
    unfold manifest_of in Em. rewrite Hx in Em. injection Em as <-. apply ok_transfer_call.
    - apply ok_note; [done |]. exact Hs.
    - intros x' Hx'. cbn [transfers note] in Hx'. assert (x' = x) as -> by congruence. rewrite Ep. apply note_in. }
  clearbody c1. destruct (let? body := encodeAttachmentDecision d in _) as [c2|] eqn:Es; [|by apply decision_failed_ok].
  destruct (encodeAttachmentDecision d) as [body|]; [|done]. destruct (randomToken 16 (fresh 0%nat)) as [id|]; [|done].
  apply (send_Ok p attachmentDecisionKind (Ok body)) in Es as (body' & plaintext & ->). apply att_ok_suspend; try done. by apply ok_note.
Qed.

Lemma decision_sent_ok p kind dir sent now c : controller_ok c -> controller_ok (decision_sent p kind dir sent now c).
Proof.
  intros Hc. unfold decision_sent. destruct (negb sent); [by apply decision_failed_ok |]. apply ok_answer.
  destruct kind, dir; first [by apply ok_note | by apply end_inbound_ok | by apply end_outbound_ok].
Qed.

(** ** Runs *)

Lemma settle_ok call s c : controller_ok c -> call_ok (log c) (transfers c) (outboundObjects c) call ->
  (forall o, loop_of call = Some o -> o ∉ loops c) -> controller_ok (settle sha256 call s c).
Proof.
  intros Hc Hcall Hn. destruct call; cbn [settle].
  - by apply offer_signed_ok.
  - by apply offer_sent_ok.
  - by apply signature_checked_ok.
  - by apply chunk_received_ok.
  - by apply decision_signed_ok.
  - by apply decision_sent_ok.
  - apply chunk_read_ok; [done | by apply Hn | done].
  - apply chunk_sent_ok; [done | by apply Hn | done].
Qed.

Lemma unavailable_all_ok now c : controller_ok c -> controller_ok (unavailable_all now c).
Proof.
  intros Hc. unfold unavailable_all.
  assert (Hi : forall ps c, controller_ok c -> controller_ok (foldl (fun c p => endInbound p y_disconnected now c) c ps)).
  { induction ps as [|p ps IH]; intros c' H'; [done |]. by apply IH, end_inbound_ok. }
  assert (Ho : forall ps c, controller_ok c -> controller_ok (foldl (fun c p => endOutbound p y_disconnected now c) c ps)).
  { induction ps as [|p ps IH]; intros c' H'; [done |]. by apply IH, end_outbound_ok. }
  by apply Ho, Hi.
Qed.

Lemma att_step_ok c e : controller_ok c -> controller_ok (controller_step sha256 c e).
Proof.
  intros Hc. destruct e as [p file ports now fresh|p plaintext ports now|p ports now|p ports now|p dir ports now|id now|p dir now|p now|[p|] now|k s];
    cbn [controller_step].
  - by apply offer_ok.
  - by apply att_receive_ok.
  - by apply decide_offer_ok.
  - by apply decide_offer_ok.
  - by apply decide_offer_ok.
  - by apply forwarded_ok.
  - by apply end_direction_ok.
  - by apply end_outbound_ok.
  - by apply end_outbound_ok, end_inbound_ok.
  - by apply unavailable_all_ok.
  - destruct (calls c !! k) as [call|] eqn:Hk; [|done]. destruct (att_ok_settle k call c Hc Hk) as (H1 & H2 & H3). by apply settle_ok.
Qed.

Lemma empty_ok : controller_ok empty_controller.
Proof. constructor; cbn; try done; try apply Forall_nil_2; try apply NoDup_nil_2. repeat split; try apply NoDup_nil_2; vm_compute; discriminate. Qed.

Lemma att_run_ok events : controller_ok (controller_run sha256 events).
Proof.
  unfold controller_run. pose proof empty_ok as H. revert H. generalize empty_controller as c.
  induction events as [|e events IH]; intros c Hc; [done |]. by apply IH, att_step_ok.
Qed.

(** C8: the attachment transfers of a tab in any order of calls, messages,
    timers and settled awaits.  Every entry of the log has its cause before it:
    an offer is shown only after its manifest was verified with the peer's key;
    consent concerns an offer that was shown; a file is handed over only after
    the consent to its manifest, with the announced size and the announced
    digest; a chunk leaves only after a verified acceptance of the peer for
    that transfer, and it fits the manifest.  An inbound transfer is one whose
    offer was shown, and it is accepted only after consent.  An outbound
    transfer has at most four chunks waiting for the relay and one loop that
    fills its window; each direction remembers at most 16 peers. *)
Theorem attachment_transfers events :
  let c := controller_run sha256 events in
  justified cause [] (log c)
  /\ (forall p i, map_get (inbounds c) p = Some i -> exists x, transfers c !! in_transfer i = Some x /\ obj_peer x = p
       /\ OfferShown p (manifest (object (obj_live x))) ∈ log c
       /\ (direction (object (obj_live x)) = inbound -> phase (object (obj_live x)) = accepted ->
            Consented p (manifest (object (obj_live x))) ∈ log c))
  /\ (forall p o, map_get (outbounds c) p = Some o -> exists out, outboundObjects c !! o = Some out /\ out_peer out = p)
  /\ (forall o out, outboundObjects c !! o = Some out -> zlen (outstanding out) <= outboundWindowSize)
  /\ NoDup (loops c)
  /\ zlen (inboundRegistries c) <= maximumRememberedPeers /\ zlen (outboundRegistries c) <= maximumRememberedPeers.
Proof.
  intros c. pose proof (att_run_ok events) as Hc. fold c in Hc. destruct (ctl_maps c Hc) as [[_ Bi] [_ Bo]].
  split_and!; [apply Hc | | | | apply Hc | done | done].
  - intros p i Hi. destruct (inbound_object p i c Hc Hi) as (x & Hx & Ep & Hs). exists x. split_and!; [done | done | done |].
    intros Hd Hph. rewrite <- Ep. apply (Forall_lookup_1 _ _ _ _ (ctl_objects c Hc) Hx). by left.
  - intros p o Ho. pose proof (ctl_outbounds c Hc) as Hf. rewrite Forall_forall in Hf. apply (Hf (p, o)), map_get_Some_elem, Ho.
  - intros o out Ho. apply (Forall_lookup_1 _ _ _ _ (ctl_outs c Hc) Ho).
Qed.
End Facts.

(** ** Concrete runs *)

Definition tab_capabilities : ApplicationCapabilities :=
  AppCaps.mk [attachmentApplicationVersion] attachmentKinds (Int 4096) (js "receiver-accept") (Int maxRelayAttachmentBytes) (Int maxDirectAttachmentBytes).
Definition tab_ports : Ports := mkPorts true (Some tab_capabilities) true (js "me").
Definition tab_digest (b : bytes) : jsstring := sample_token 32 3.
Definition tab_file (size : nat) : File := mkFile (js "notes.txt") (js "text/plain") (replicate size 7).
Definition tab_random (seed : Z) (n : nat) : bytes := match n with O => replicate 16 seed | _ => replicate 16 (seed + 1) end.
Definition tab_tokens (n : nat) : bytes := match n with O => replicate 16 1 | _ => replicate 32 2 end.
Definition tab_settled (ok : bool) (seed : Z) : Settled := mkSettled ok true (Some (replicate 64 9)) (tab_random seed) (Some true) 2000.
Definition tab_payload (kind : jsstring) (body : result bytes) : bytes :=
  match (let? b := body in encodeApplicationPayload (Payload.mk attachmentApplicationVersion kind (sample_token 16 4) b)) with
  | Ok b => b
  | Throw _ => []
  end.
Definition tab_manifest (p : jsstring) : Event :=
  ev_receive p (tab_payload attachmentManifestKind (encodeAttachmentManifest sample_manifest)) tab_ports 2000.
Definition tab_decision (kind : AttachmentDecisionKind) (p : jsstring) : Event :=
  ev_receive p (tab_payload attachmentDecisionKind (encodeAttachmentDecision (sample_decision kind))) tab_ports 2000.
Definition tab_chunk (p : jsstring) (index : Z) (size : nat) : Event :=
  ev_receive p (tab_payload attachmentChunkKind (encodeAttachmentChunk (sample_chunk index size))) tab_ports 2000.
Definition tab_offer (p : jsstring) (size : nat) : list Event :=
  [ev_offer p (tab_file size) tab_ports 1000 tab_tokens; ev_settled 0 (tab_settled true 10); ev_settled 0 (tab_settled true 20)].
Definition ended (e : Effect) : option (jsstring * Reason) :=
  match e with Emitted transfer_ended_event p _ reason _ => Some (p, reason) | _ => None end.
Definition completed_files (l : list Effect) : list (jsstring * AttachmentManifest * bytes) :=
  omap (fun e => match e with Completed p m file => Some (p, m, file) | _ => None end) l.
Definition chunks_sent (l : list Effect) : list Z :=
  omap (fun e => match e with ChunkSent _ _ chunk => Some (Chunk.index chunk) | _ => None end) l.

(** A file is received: offer, consent, chunks out of order, digest. *)
Example file_received :
  let c := controller_run tab_digest
    [tab_manifest (js "b"); ev_settled 0 (tab_settled true 30); ev_accept_offer (js "b") tab_ports 2000; ev_settled 0 (tab_settled true 40);
     ev_settled 0 (tab_settled true 50); tab_chunk (js "b") 1 44; tab_chunk (js "b") 0 256; ev_settled 0 (tab_settled true 60); ev_settled 0 (tab_settled true 60)] in
  completed_files (log c) = [(js "b", sample_manifest, replicate 300 5)] /\ inbounds c = [] /\ omap ended (log c) = [(js "b", y_accepted)].
Proof. split_and!; closed. Qed.

(** The second of two chunks cannot be read: the loop stops, and when the first
    one is forwarded the transfer ends as accepted. *)
Example unread_chunk_accepted :
  let c := controller_run tab_digest (tab_offer (js "b") 4000 ++
    [tab_decision accept (js "b"); ev_settled 0 (tab_settled true 30); ev_settled 0 (tab_settled true 40); ev_settled 0 (tab_settled true 50);
     ev_settled 0 (tab_settled false 60); ev_forwarded (sample_token 16 40) 3000]) in
  chunks_sent (log c) = [0] /\ omap ended (log c) = [(js "b", y_accepted)] /\ calls c = [].
Proof. split_and!; closed. Qed.

(** A read that outlives its transfer ends the next offer to the same peer. *)
Example stale_read_ends_offer :
  let c := controller_run tab_digest (tab_offer (js "b") 4000 ++
    [tab_decision accept (js "b"); ev_settled 0 (tab_settled true 30); ev_unavailable (Some (js "b")) 2000;
     ev_offer (js "b") (tab_file 40) tab_ports 2000 (fun n => match n with O => replicate 16 5 | _ => replicate 32 6 end);
     ev_settled 1 (tab_settled true 70); ev_settled 1 (tab_settled true 80)]) in
  map_keys (outbounds c) = [js "b"] /\ omap ended (log c) = [(js "b", y_unavailable)]
  /\ let c := controller_step tab_digest c (ev_settled 0 (tab_settled true 90)) in
     outbounds c = [] /\ omap ended (log c) = [(js "b", y_unavailable); (js "b", y_invalid_payload)].
Proof. split_and!; [closed | closed |]. cbv zeta. split_and!; closed. Qed.

(** Four offers under way do not keep a manifest out: five transfers live. *)
Example directions_exceeded :
  let peers := (fun n => js "peer" ++ [Z.of_nat n]) <$> seq 0 4 in
  let c := controller_run tab_digest
    (((fun p => ev_offer p (tab_file 40) tab_ports 1000 tab_tokens) <$> peers) ++ [tab_manifest (js "b"); ev_settled 4 (tab_settled true 30)]
     ++ ((fun _ => ev_settled 0 (tab_settled true 50)) <$> peers)) in
  activeDirectionCount c = maximumActiveDirections + 1.
Proof. closed. Qed.
