(* ===== verification/Ribbon.v ===== *)
(** * [visual/ribbon-image.ts], [ribbon-block.ts], [ribbon-decode.ts]: wrappers in images

    The frame around a wrapper, the packet around a frame, and the cells of an
    image that carry the bits of a packet.  The bytes of an image are a typed
    array: what is outside it is not written and reads as undefined.  Luma
    values are binary64 numbers, computed with the operations of [SpecFloat] at
    53 bits.  Images have integer sizes. *)
From Stdlib Require Import SpecFloat.
From S2P Require Import Prelude JsRuntime Collections.

(** ** CRC32C *)

Definition crc32c_bit (crc : Z) : Z :=
  if js_and crc 1 =? 1 then js_xor (js_ushr crc 1) 0x82f63b78 else js_ushr crc 1.

Definition makeCRC32CTable : list Z :=
  (fun index => to_uint32 (Nat.iter 8 crc32c_bit index)) <$> seqZ 0 256.

Definition crc32cTable : list Z := makeCRC32CTable.

Definition readCRC32CTable (index : Z) : result Z :=
  match crc32cTable !! Z.to_nat index with
  | Some value => Ok value
  | None => Throw (js "crc32c table index outside range")
  end.

Fixpoint crc32c_loop (crc : Z) (data : bytes) : result Z :=
  match data with
  | [] => Ok crc
  | byte :: data =>
      let? entry := readCRC32CTable (js_and (js_xor crc byte) 255) in
      crc32c_loop (js_xor (js_ushr crc 8) entry) data
  end.

Definition crc32c (data : bytes) : result Z :=
  let? crc := crc32c_loop 0xffffffff data in Ok (to_uint32 (js_xor crc 0xffffffff)).

(** [writeUint32BE], [readUint32BE] *)
Definition uint32BE (value : Z) : bytes :=
  [js_and (js_ushr value 24) 255; js_and (js_ushr value 16) 255; js_and (js_ushr value 8) 255; js_and value 255].

Definition byte_at (source : bytes) (offset : Z) : Z := default 0 (source !! Z.to_nat offset).

Definition readUint32BE (source : bytes) (offset : Z) : Z :=
  to_uint32 (js_or (js_or (js_or (js_shl (byte_at source offset) 24) (js_shl (byte_at source (offset + 1)) 16))
                          (js_shl (byte_at source (offset + 2)) 8)) (byte_at source (offset + 3))).

(** [source.slice(start, end)] inside the array *)
Definition slice (source : bytes) (start stop : Z) : bytes := take (Z.to_nat (stop - start)) (drop (Z.to_nat start) source).

(** ** Frames *)

Definition ribbonBlockProfile : jsstring := js "ribbon-block/0.draft".
Definition ribbonMagic : bytes := [0x42; 0x52; 0x49; 0x4d; 0x47; 0x30].
Definition branchWrapperPrefix : jsstring := js "BRANCH0.".
Definition ribbonPayloadKindBranchWrapper : Z := 1.
Definition maxRibbonPayloadBytes : Z := 768.

Inductive RibbonDecodeStatus : Type :=
| visual_sync_failed | visual_crc_failed | payload_too_large | payload_kind_unsupported | payload_not_branch_wrapper.

(** The payload of an accepted frame, or why there is none. *)
Inductive RibbonDecodeResult : Type :=
| beacon_accepted (flags : Z) (payload : bytes)
| frame_rejected (status : RibbonDecodeStatus).

Definition branchWrapperBytes (wrapper : jsstring) : result bytes :=
  if starts_with wrapper branchWrapperPrefix then Ok (utf8_encode wrapper)
  else Throw (js "payload must be a BRANCH0. wrapper").

Definition encodeRibbonFrame (payload : bytes) : result bytes :=
  if maxRibbonPayloadBytes <? zlen payload then Throw (js "payload too large")
  else
    let profile := utf8_encode ribbonBlockProfile in
    if 255 <? zlen profile then Throw (js "profile id too large")
    else
      let? crc := crc32c payload in
      Ok (ribbonMagic ++ [zlen profile] ++ profile ++ [ribbonPayloadKindBranchWrapper]
          ++ [js_and (js_shr (zlen payload) 8) 255; js_and (zlen payload) 255] ++ payload ++ uint32BE crc).

Definition decodeUTF8 (data : bytes) : jsstring := default [] (utf8_decode data).

Definition has_magic (magic source : bytes) : bool := bool_decide (take (length magic) source = magic).

(** The reads of [readByte] are inside the frame once its length is checked. *)
Definition decodeRibbonFrame (frame : bytes) : result RibbonDecodeResult :=
  let rejected status := Ok (frame_rejected status) in
  if zlen frame <? zlen ribbonMagic + 1 + 1 + 2 + 4 then rejected visual_sync_failed
  else if negb (has_magic ribbonMagic frame) then rejected visual_sync_failed
  else
    let offset := zlen ribbonMagic in
    let profileLength := byte_at frame offset in
    let offset := offset + 1 in
    if profileLength =? 0 then rejected visual_sync_failed
    else if zlen frame <? offset + profileLength + 1 + 2 + 4 then rejected visual_sync_failed
    else
      let profileId := decodeUTF8 (slice frame offset (offset + profileLength)) in
      let offset := offset + profileLength in
      if negb (str_eqb profileId ribbonBlockProfile) then rejected payload_kind_unsupported
      else
        let flags := byte_at frame offset in
        let offset := offset + 1 in
        if negb (flags =? ribbonPayloadKindBranchWrapper) then rejected payload_kind_unsupported
        else
          let payloadLength := js_or (js_shl (byte_at frame offset) 8) (byte_at frame (offset + 1)) in
          let offset := offset + 2 in
          if maxRibbonPayloadBytes <? payloadLength then rejected payload_too_large
          else if negb (offset + payloadLength + 4 =? zlen frame) then rejected visual_sync_failed
          else
            let payload := slice frame offset (offset + payloadLength) in
            let offset := offset + payloadLength in
            let? crc := crc32c payload in
            if negb (readUint32BE frame offset =? crc) then rejected visual_crc_failed
            else if negb (starts_with (decodeUTF8 payload) branchWrapperPrefix) then rejected payload_not_branch_wrapper
            else Ok (beacon_accepted flags payload).

(** ** Packets *)

Definition blockMagic : bytes := [0x42; 0x52; 0x42; 0x4c; 0x4b; 0x30].
Definition blockVersion : Z := 0.
Definition blockStrength : Z := 20.
Definition blockTargetGridSide : Z := 125.
Definition blockHeaderBytes : Z := 9.
Definition blockTrailerBytes : Z := 4.
Definition blockRepeatCandidates : list Z := [15; 11; 7; 5; 3; 1].

Definition encodeBlockPacket (frame : bytes) : result bytes :=
  if 0xffff <? zlen frame then Throw (js "block payload frame too large")
  else
    let? crc := crc32c frame in
    Ok (blockMagic ++ [blockVersion] ++ [js_and (js_shr (zlen frame) 8) 255; js_and (zlen frame) 255] ++ frame ++ uint32BE crc).

(** [None] is null. *)
Definition decodeBlockPacket (packet : bytes) : result (option bytes) :=
  if zlen packet <? blockHeaderBytes + blockTrailerBytes then Ok None
  else if negb (has_magic blockMagic packet) then Ok None
  else if negb (byte_at packet 6 =? blockVersion) then Ok None
  else
    let frameLength := js_or (js_shl (byte_at packet 7) 8) (byte_at packet 8) in
    let packetLength := blockHeaderBytes + frameLength + blockTrailerBytes in
    if (frameLength <=? 0) || (zlen packet <? packetLength) then Ok None
    else
      let frame := slice packet blockHeaderBytes (blockHeaderBytes + frameLength) in
      let? crc := crc32c frame in
      if negb (readUint32BE packet (blockHeaderBytes + frameLength) =? crc) then Ok None else Ok (Some frame).

(** ** Images and layouts *)

(** A [Uint8ClampedArray]: a cell that was never written is zero. *)
Record Pixels := mkPixels { byteLength : Z; cells : gmap Z Z }.

Definition get_byte (d : Pixels) (offset : Z) : Z := default 0 (cells d !! offset).

Definition set_byte (d : Pixels) (offset value : Z) : Pixels :=
  if (0 <=? offset) && (offset <? byteLength d) then mkPixels (byteLength d) (<[offset := value]> (cells d)) else d.

Record RibbonImageData := mkImage { image_width : Z; image_height : Z; image_data : Pixels }.

Record RibbonBlockRegion := mkRegion {
  region_x : number;
  region_y : number;
  region_size : number;
  region_width : option number;
  region_height : option number;
}.

Record RibbonBlockLayout := mkLayout {
  originX : Z;
  originY : Z;
  cellSize : Z;
  columns : Z;
  rows : Z;
  capacityCells : Z;
  permutationStep : Z;
}.

Definition regionWidth (r : RibbonBlockRegion) : number := default (region_size r) (region_width r).
Definition regionHeight (r : RibbonBlockRegion) : number := default (region_size r) (region_height r).

Definition isValidImage (image : RibbonImageData) : bool :=
  (0 <? image_width image) && (0 <? image_height image)
  && (byteLength (image_data image) =? image_width image * image_height image * 4).

(** The region as integers, when they are integers. *)
Definition region_integers (r : RibbonBlockRegion) : option (Z * Z * Z * Z) :=
  match region_x r, region_y r, regionWidth r, regionHeight r with
  | Int x, Int y, Int w, Int h => Some (x, y, w, h)
  | _, _, _, _ => None
  end.

Definition regionFits (image : RibbonImageData) (r : RibbonBlockRegion) : bool :=
  match region_integers r with
  | Some (x, y, w, h) =>
      (0 <=? x) && (0 <=? y) && (128 <=? w) && (128 <=? h) && (x + w <=? image_width image) && (y + h <=? image_height image)
  | None => false
  end.

Definition block_side (w : Z) : bool := (128 <=? w) && (w <=? 4096).

Definition validateRegion (r : RibbonBlockRegion) : result unit :=
  match region_integers r with
  | Some (_, _, w, h) => if block_side w && block_side h then Ok tt else Throw (js "invalid block payload region")
  | None => Throw (js "invalid block payload region")
  end.

(** The loop of [gcd]; its second number decreases. *)
Fixpoint gcd_loop (fuel : nat) (a b : Z) : Z :=
  match fuel with
  | O => a
  | S fuel => if b =? 0 then a else gcd_loop fuel b (Z.rem a b)
  end.

Definition gcd (left right : Z) : Z := gcd_loop (S (Z.to_nat (Z.abs right))) (Z.abs left) (Z.abs right).

Definition permutationCandidates : list Z := [4093; 8191; 65537; 257; 131; 17].

Definition selectPermutationStep (capacity : Z) : Z :=
  match filter (fun candidate => gcd candidate capacity = 1) permutationCandidates with
  | candidate :: _ => candidate
  | [] => 1
  end.

Definition makeBlockLayout (width height : number) : result RibbonBlockLayout :=
  match width, height with
  | Int width, Int height =>
      if negb (block_side width && block_side height) then Throw (js "invalid block payload region")
      else
        let cellSize := Z.max 6 (Z.min width height / blockTargetGridSide) in
        let columns := width / cellSize in
        let rows := height / cellSize in
        let capacityCells := columns * rows in
        Ok (mkLayout ((width - columns * cellSize) / 2) ((height - rows * cellSize) / 2) cellSize columns rows capacityCells
              (selectPermutationStep capacityCells))
  | _, _ => Throw (js "invalid block payload region")
  end.

Definition selectRepeat (packetBits capacityBits : Z) : result Z :=
  match filter (fun repeat => packetBits * repeat <= capacityBits) blockRepeatCandidates with
  | repeat :: _ => Ok repeat
  | [] => Throw (js "block payload exceeds carrier capacity")
  end.

Definition permuteCellIndex (l : RibbonBlockLayout) (sequentialIndex : Z) : Z :=
  (sequentialIndex * permutationStep l + 97) mod capacityCells l.

(** ** Cells *)

(** [Math.imul(a, b)] *)
Definition js_imul (a b : Z) : Z := to_int32 (to_int32 a * to_int32 b).

Definition hashCell (cellIndex : Z) : Z :=
  let value := (cellIndex + 1) * 0x9e3779b1 in
  let value := js_xor value (js_ushr value 16) in
  let value := js_imul value 0x85ebca6b in
  let value := js_xor value (js_ushr value 13) in
  to_uint32 value.

Definition sign_of (b : bool) : Z := if b then 1 else -1.

Definition readCellPolarity (cellIndex x y cellSize : Z) : Z :=
  let midpoint := cellSize / 2 in
  match js_and (hashCell cellIndex) 3 with
  | 0 => sign_of (x <? midpoint)
  | 1 => sign_of (y <? midpoint)
  | 2 => sign_of (eqb (x <? midpoint) (y <? midpoint))
  | _ => sign_of (x + y <? cellSize)
  end.

Definition clampByte (value : Z) : Z := Z.max 0 (Z.min 255 value).

(** One pixel of a cell: the delta is added to red, green and blue. *)
Definition tint_pixel (width delta : Z) (d : Pixels) (x y : Z) : Pixels :=
  let offset := (y * width + x) * 4 in
  let red := get_byte d offset in
  let green := get_byte d (offset + 1) in
  let blue := get_byte d (offset + 2) in
  set_byte (set_byte (set_byte d offset (clampByte (red + delta))) (offset + 1) (clampByte (green + delta)))
    (offset + 2) (clampByte (blue + delta)).

Definition cell_delta (l : RibbonBlockLayout) (cellIndex : Z) (bit : bool) (dx dy : Z) : Z :=
  let polarity := readCellPolarity cellIndex dx dy (cellSize l) in
  (if bit then polarity else - polarity) * blockStrength.

Definition tintBlockCell (width : Z) (l : RibbonBlockLayout) (offsetX offsetY : Z) (d : Pixels) (cellIndex : Z) (bit : bool) : result Pixels :=
  if capacityCells l <=? cellIndex then Throw (js "block payload exceeds carrier capacity")
  else
    let cellX := cellIndex mod columns l in
    let cellY := cellIndex / columns l in
    let startX := offsetX + originX l + cellX * cellSize l in
    let startY := offsetY + originY l + cellY * cellSize l in
    Ok (foldl (fun d y => foldl (fun d x => tint_pixel width (cell_delta l cellIndex bit (x - startX) (y - startY)) d x y)
                            d (seqZ startX (cellSize l)))
         d (seqZ startY (cellSize l))).

(** A loop whose body may throw. *)
Section Loops.
Context {A S : Type} (body : S -> A -> result S).

Fixpoint loop (s : S) (l : list A) : result S :=
  match l with
  | [] => Ok s
  | a :: l => let? s := body s a in loop s l
  end.
End Loops.

Definition packet_bit (packet : bytes) (bitIndex : Z) : bool :=
  js_and (js_shr (byte_at packet (bitIndex / 8)) (7 - bitIndex mod 8)) 1 =? 1.

Definition writeBlockPayload (d : Pixels) (width : Z) (frame : bytes) (l : RibbonBlockLayout) (offsetX offsetY : Z) : result Pixels :=
  let? packet := encodeBlockPacket frame in
  let packetBits := zlen packet * 8 in
  let? repeat := selectRepeat packetBits (capacityCells l) in
  loop (fun d bitIndex =>
          loop (fun d repeated =>
                  tintBlockCell width l offsetX offsetY d (permuteCellIndex l (bitIndex * repeat + repeated)) (packet_bit packet bitIndex))
            d (seqZ 0 repeat))
    d (seqZ 0 packetBits).

(** [getImageData] and what is put back at the region's place. *)
Definition drawBlockPayload (getImageData : Z -> Z -> Z -> Z -> RibbonImageData) (frame : bytes) (r : RibbonBlockRegion)
    : result (RibbonImageData * Z * Z) :=
  let? _ := validateRegion r in
  match region_integers r with
  | Some (x, y, w, h) =>
      let image := getImageData x y w h in
      let? l := makeBlockLayout (Int w) (Int h) in
      let? d := writeBlockPayload (image_data image) (image_width image) frame l 0 0 in
      Ok (mkImage (image_width image) (image_height image) d, x, y)
  | None => Throw (js "invalid block payload region")
  end.

Definition embedBlockPayload (image : RibbonImageData) (frame : bytes) (r : RibbonBlockRegion) : result RibbonImageData :=
  match region_integers r with
  | Some (x, y, w, h) =>
      if negb (isValidImage image) || negb (regionFits image r) then Throw (js "block payload region outside image bounds")
      else
        let? l := makeBlockLayout (Int w) (Int h) in
        let? d := writeBlockPayload (image_data image) (image_width image) frame l x y in
        Ok (mkImage (image_width image) (image_height image) d)
  | None => Throw (js "block payload region outside image bounds")
  end.

(** ** Scores *)

Definition float_add : spec_float -> spec_float -> spec_float := SFadd 53 1024.
Definition float_mul : spec_float -> spec_float -> spec_float := SFmul 53 1024.
Definition float_of (z : Z) : spec_float := binary_normalize 53 1024 z 0 false.
Definition float_zero : spec_float := S754_zero false.

(** The literals [0.299], [0.587] and [0.114]. *)
Definition red_weight : spec_float := S754_finite false 5386305154335113 (-54).
Definition green_weight : spec_float := S754_finite false 5287225962532962 (-53).
Definition blue_weight : spec_float := S754_finite false 8214565720323785 (-56).

Definition luma (red green blue : Z) : spec_float :=
  float_add (float_add (float_mul (float_of red) red_weight) (float_mul (float_of green) green_weight))
    (float_mul (float_of blue) blue_weight).

(** [Math.max(1, Math.floor(cellSize * 0.18))]; cells have at most 32 pixels, so
    that the product is not near an integer. *)
Definition cell_margin (size : Z) : Z := Z.max 1 (size * 18 / 100).

Definition readBlockCellScore (image : RibbonImageData) (x0 y0 : Z) (l : RibbonBlockLayout) (cellIndex : Z) : spec_float :=
  let cellX := cellIndex mod columns l in
  let cellY := cellIndex / columns l in
  let margin := cell_margin (cellSize l) in
  let cellStartX := x0 + originX l + cellX * cellSize l in
  let cellStartY := y0 + originY l + cellY * cellSize l in
  let inner := Z.max 0 (cellSize l - 2 * margin) in
  foldl (fun score y =>
    foldl (fun score x =>
      let offset := (y * image_width image + x) * 4 in
      let red := get_byte (image_data image) offset in
      let green := get_byte (image_data image) (offset + 1) in
      let blue := get_byte (image_data image) (offset + 2) in
      float_add score (float_mul (float_of (readCellPolarity cellIndex (x - cellStartX) (y - cellStartY) (cellSize l)))
                         (luma red green blue)))
      score (seqZ (cellStartX + margin) inner))
    float_zero (seqZ (cellStartY + margin) inner).

(** [score < 0] *)
Definition negative (score : spec_float) : bool := SFltb score float_zero.

Definition read_bit (image : RibbonImageData) (x0 y0 : Z) (l : RibbonBlockLayout) (repeat bitIndex : Z) : bool :=
  negb (negative (foldl (fun score repeated =>
    float_add score (readBlockCellScore image x0 y0 l (permuteCellIndex l (bitIndex * repeat + repeated)))) float_zero (seqZ 0 repeat))).

(** [packet[i] |= 1 << (7 - bitIndex % 8)] for the bits of one byte. *)
Definition read_byte_of (bits : Z -> bool) (index : Z) : Z :=
  foldl (fun byte k => if bits (index * 8 + k) then js_or byte (js_shl 1 (7 - k)) else byte) 0 (seqZ 0 8).

Definition readRepeatedPacket (image : RibbonImageData) (x0 y0 : Z) (l : RibbonBlockLayout) (repeat : Z) : bytes :=
  let bitCapacity := capacityCells l / repeat in
  let byteCapacity := bitCapacity / 8 in
  read_byte_of (read_bit image x0 y0 l repeat) <$> seqZ 0 byteCapacity.

(** The loop over the candidates: the first packet that decodes. *)
Fixpoint first_frame (image : RibbonImageData) (x0 y0 : Z) (l : RibbonBlockLayout) (candidates : list Z) : result (option bytes) :=
  match candidates with
  | [] => Ok None
  | repeat :: rest =>
      let? frame := decodeBlockPacket (readRepeatedPacket image x0 y0 l repeat) in
      match frame with
      | Some frame => Ok (Some frame)
      | None => first_frame image x0 y0 l rest
      end
  end.

Definition extractBlockPayload (image : RibbonImageData) (r : RibbonBlockRegion) : result (option bytes) :=
  match region_integers r with
  | Some (x, y, w, h) =>
      if negb (isValidImage image) || negb (regionFits image r) then Ok None
      else
        let? l := makeBlockLayout (Int w) (Int h) in
        first_frame image x y l blockRepeatCandidates
  | None => Ok None
  end.

(** ** Carriers *)

(** The four bytes of each pixel of [makeBlankRibbonImage]. *)
Definition blank_pixel (channel : Z) : Z :=
  match channel with 0 => 7 | 1 => 17 | 2 => 29 | _ => 255 end.

Definition makeBlankRibbonImage (width height : Z) : RibbonImageData :=
  mkImage width height
    (foldl (fun d index =>
       set_byte (set_byte (set_byte (set_byte d (index * 4) 7) (index * 4 + 1) 17) (index * 4 + 2) 29) (index * 4 + 3) 255)
       (mkPixels (width * height * 4) ∅) (seqZ 0 (width * height))).

Definition full_region (image : RibbonImageData) : RibbonBlockRegion :=
  mkRegion (Int 0) (Int 0) (Int (Z.min (image_width image) (image_height image)))
    (Some (Int (image_width image))) (Some (Int (image_height image))).

(** The frame and the image, for the source image of 1000 by 1500 pixels. *)
Definition carrier_of (source : RibbonImageData) (wrapper : jsstring) : result (bytes * RibbonImageData) :=
  let? payload := branchWrapperBytes wrapper in
  let? frame := encodeRibbonFrame payload in
  let? image := embedBlockPayload source frame (full_region source) in
  Ok (frame, image).

Definition generateRibbonCarrier : jsstring -> result (bytes * RibbonImageData) := carrier_of (makeBlankRibbonImage 1000 1500).

Inductive ImageStatus : Type :=
| block_decoded | block_extraction_failed | frame_status (status : RibbonDecodeStatus).

Definition defaultMaxInputPixels : Z := 4096 * 4096.

Definition validateImageData (image : RibbonImageData) (maxPixels : Z) : option RibbonDecodeStatus :=
  if (image_width image <=? 0) || (image_height image <=? 0) || (maxPixels <? image_width image * image_height image)
     || negb (byteLength (image_data image) =? image_width image * image_height image * 4)
  then Some visual_sync_failed else None.

Definition decodePayload (payload : bytes) : jsstring := decodeUTF8 payload.

(** The status, the wrapper, and the region of a decoded image. *)
Definition decodeRibbonImage (image : RibbonImageData) (maxInputPixels : option Z)
    : result (ImageStatus * jsstring * option RibbonBlockRegion) :=
  match validateImageData image (default defaultMaxInputPixels maxInputPixels) with
  | Some status => Ok (frame_status status, [], None)
  | None =>
      let region := full_region image in
      let? frame := extractBlockPayload image region in
      match frame with
      | None => Ok (block_extraction_failed, [], None)
      | Some frame =>
          let? decoded := decodeRibbonFrame frame in
          match decoded with
          | frame_rejected status => Ok (frame_status status, [], None)
          | beacon_accepted _ payload => Ok (block_decoded, decodePayload payload, Some region)
          end
      end
  end.
