(* ===== verification/RibbonFrames.v ===== *)
(** * Ribbon frames and packets: round trips and what decoding accepts *)
From S2P Require Import Prelude JsRuntime Collections Ribbon.

(** ** CRC32C *)

Lemma crc32cTable_length : length crc32cTable = 256%nat.
Proof. unfold crc32cTable, makeCRC32CTable. by rewrite length_fmap, length_seqZ. Qed.

Lemma readCRC32CTable_total x : exists v, readCRC32CTable (js_and x 255) = Ok v.
Proof.
  rewrite js_and_255. unfold readCRC32CTable. destruct (crc32cTable !! _) as [v|] eqn:E; [by exists v |].
  apply lookup_ge_None in E. rewrite crc32cTable_length in E. pose proof (Z.mod_pos_bound x 256). lia.
Qed.

Lemma crc32c_total data : exists crc, crc32c data = Ok crc /\ 0 <= crc < 2 ^ 32.
Proof.
  unfold crc32c. assert (H : forall crc, exists r, crc32c_loop crc data = Ok r).
  { induction data as [|b data IH]; intros crc; [by exists crc |]. cbn [crc32c_loop].
    destruct (readCRC32CTable_total (js_xor crc b)) as [v ->]. apply IH. }
  destruct (H 0xffffffff) as [r ->]. eexists. split; [done |]. apply Z.mod_pos_bound. lia.
Qed.

(** ** Bytes of integers *)

Lemma zlen_uint32BE v : zlen (uint32BE v) = 4.
Proof. done. Qed.

Lemma uint32BE_ok v : bytes_ok (uint32BE v).
Proof. unfold uint32BE. rewrite !js_and_255. repeat constructor; apply Z.mod_pos_bound; lia. Qed.

Lemma to_int32_id x : - 2 ^ 31 <= x < 2 ^ 31 -> to_int32 x = x.
Proof.
  intros H. destruct (Z.neg_nonneg_cases x) as [N|N]; [|apply to_int32_small; lia]. unfold to_int32, to_uint32.
  assert (E : x mod 2 ^ 32 = x + 2 ^ 32) by (symmetry; apply (Z.mod_unique _ _ (-1)); lia). rewrite E.
  case_match; bool_props; lia.
Qed.

Lemma js_or_high hi lo k : 0 <= k -> 0 <= lo < 2 ^ k -> - 2 ^ 31 <= hi * 2 ^ k -> hi * 2 ^ k + lo < 2 ^ 31 -> lo < 2 ^ 31 ->
  js_or (hi * 2 ^ k) lo = hi * 2 ^ k + lo.
Proof. intros. unfold js_or. rewrite !to_int32_id by lia. by apply lor_disjoint. Qed.

Lemma js_be32 b1 b2 b3 b4 : 0 <= b1 < 256 -> 0 <= b2 < 256 -> 0 <= b3 < 256 -> 0 <= b4 < 256 ->
  to_uint32 (js_or (js_or (js_or (js_shl b1 24) (js_shl b2 16)) (js_shl b3 8)) b4) = b1 * 2 ^ 24 + b2 * 2 ^ 16 + b3 * 2 ^ 8 + b4.
Proof.
  intros H1 H2 H3 H4. rewrite !(js_shl_mul b2), !(js_shl_mul b3) by lia.
  assert (E : exists hi, js_shl b1 24 = hi * 2 ^ 24 /\ - 128 <= hi < 128 /\ (hi * 2 ^ 24) mod 2 ^ 32 = b1 * 2 ^ 24).
  { unfold js_shl. rewrite (to_int32_small b1), Z.shiftl_mul_pow2 by lia. unfold to_int32, to_uint32.
    rewrite (Z.mod_small (b1 * 2 ^ 24)) by lia. case_match; bool_props; [exists b1 | exists (b1 - 256)]; (split_and!; [lia.. |]).
    - apply Z.mod_small. lia.
    - symmetry. apply (Z.mod_unique _ _ (-1)); lia. }
  destruct E as (hi & -> & Hh & Em). rewrite (js_or_high hi (b2 * 2 ^ 16)) by lia.
  replace (hi * 2 ^ 24 + b2 * 2 ^ 16) with ((hi * 256 + b2) * 2 ^ 16) by lia. rewrite js_or_high by lia.
  replace ((hi * 256 + b2) * 2 ^ 16 + b3 * 2 ^ 8) with ((hi * 65536 + b2 * 256 + b3) * 2 ^ 8) by lia. rewrite js_or_high by lia.
  unfold to_uint32. replace ((hi * 65536 + b2 * 256 + b3) * 2 ^ 8 + b4) with (hi * 2 ^ 24 + (b2 * 2 ^ 16 + b3 * 2 ^ 8 + b4)) by lia.
  rewrite Z.add_mod, Em by lia. rewrite (Z.mod_small (b2 * 2 ^ 16 + b3 * 2 ^ 8 + b4)) by lia. rewrite Z.mod_small by lia. lia.
Qed.

Lemma byte_at_app l k i : i = zlen l -> byte_at (l ++ k) i = byte_at k 0.
Proof. intros ->. unfold byte_at, zlen. rewrite lookup_app_r by lia. do 2 f_equal. lia. Qed.

Lemma byte_at_app_n l k i j : i = zlen l + j -> 0 <= j -> byte_at (l ++ k) i = byte_at k j.
Proof. intros -> Hj. unfold byte_at, zlen. rewrite lookup_app_r by lia. do 2 f_equal. lia. Qed.

Lemma slice_app l m k i j : i = zlen l -> j = zlen l + zlen m -> slice (l ++ m ++ k) i j = m.
Proof.
  intros -> ->. unfold slice, zlen. rewrite drop_app_length' by lia. rewrite take_app_length' by lia. done.
Qed.

Lemma be32_split v : 0 <= v < 2 ^ 32 ->
  (v / 2 ^ 24) mod 256 * 2 ^ 24 + (v / 2 ^ 16) mod 256 * 2 ^ 16 + (v / 2 ^ 8) mod 256 * 2 ^ 8 + v mod 256 = v.
Proof.
  intros Hv. replace (v / 2 ^ 16) with (v / 256 / 256) by (by rewrite Z.div_div by lia).
  replace (v / 2 ^ 24) with (v / 256 / 256 / 256) by (by rewrite !Z.div_div by lia). change (2 ^ 8) with 256.
  pose proof (Z.div_mod v 256 ltac:(lia)). pose proof (Z.div_mod (v / 256) 256 ltac:(lia)).
  pose proof (Z.div_mod (v / 256 / 256) 256 ltac:(lia)).
  assert (0 <= v / 256 / 256 / 256 < 256).
  { rewrite !Z.div_div by lia. split; [apply Z.div_pos; lia | apply Z.div_lt_upper_bound; lia]. }
  rewrite (Z.mod_small (v / 256 / 256 / 256)) by done. lia.
Qed.

Lemma readUint32BE_app l v k i : i = zlen l -> 0 <= v < 2 ^ 32 -> readUint32BE (l ++ uint32BE v ++ k) i = v.
Proof.
  intros Hi Hv. unfold readUint32BE. rewrite (byte_at_app_n l _ i 0), (byte_at_app_n l _ (i + 1) 1), (byte_at_app_n l _ (i + 2) 2),
    (byte_at_app_n l _ (i + 3) 3) by lia.
  unfold uint32BE, byte_at. cbn [app lookup list_lookup Z.to_nat Pos.to_nat default]. cbn.
  rewrite !js_and_255, !js_ushr_div by lia. rewrite js_be32; [|apply Z.mod_pos_bound; lia..]. by apply be32_split.
Qed.

Definition length_bytes (n : Z) : bytes := [js_and (js_shr n 8) 255; js_and n 255].

Lemma length_bytes_value n : 0 <= n < 65536 ->
  js_or (js_shl (js_and (js_shr n 8) 255) 8) (js_and n 255) = n.
Proof.
  intros Hn. rewrite !js_and_255, js_shr_div by lia. rewrite js_be16 by (apply Z.mod_pos_bound; lia). change (2 ^ 8) with 256.
  pose proof (Z.div_mod n 256 ltac:(lia)). rewrite (Z.mod_small (n / 256)); [lia |].
  split; [apply Z.div_pos; lia | apply Z.div_lt_upper_bound; lia].
Qed.

Lemma length_bytes_read b1 b2 : 0 <= b1 < 256 -> 0 <= b2 < 256 -> length_bytes (js_or (js_shl b1 8) b2) = [b1; b2].
Proof.
  intros H1 H2. rewrite js_be16 by done. unfold length_bytes. rewrite !js_and_255, js_shr_div by lia. change (2 ^ 8) with 256. f_equal; [|f_equal].
  - rewrite Z.div_add_l, (Z.div_small b2), Z.add_0_r by lia. by apply Z.mod_small.
  - rewrite Z.add_comm, Z.mod_add by lia. by apply Z.mod_small.
Qed.

Lemma has_magic_app m k : has_magic m (m ++ k) = true.
Proof. unfold has_magic. by rewrite take_app_length, bool_decide_eq_true_2. Qed.

Lemma has_magic_split m s : has_magic m s = true -> exists k, s = m ++ k.
Proof. unfold has_magic. intros H. bool_props. exists (drop (length m) s). rewrite <- H at 1. by rewrite take_drop. Qed.

(** ** Packets *)

Lemma encodeBlockPacket_Ok f : zlen f <= 65535 ->
  exists crc, crc32c f = Ok crc /\ 0 <= crc < 2 ^ 32
    /\ encodeBlockPacket f = Ok (blockMagic ++ [blockVersion] ++ length_bytes (zlen f) ++ f ++ uint32BE crc).
Proof.
  intros Hl. destruct (crc32c_total f) as (crc & Hc & Hr). exists crc. split_and!; [done | lia | lia |].
  unfold encodeBlockPacket. rewrite Hc. by destruct (Z.ltb_spec 0xffff (zlen f)); [lia |].
Qed.

Lemma encodeBlockPacket_length f p : encodeBlockPacket f = Ok p -> zlen p = zlen f + 13 /\ zlen f <= 65535.
Proof.
  unfold encodeBlockPacket. destruct (Z.ltb_spec 0xffff (zlen f)); [done |]. destruct (crc32c f) as [crc|]; [|done].
  intros [= <-]. split; [|done]. autorewrite with zlen. rewrite zlen_uint32BE. unfold blockMagic, blockVersion. autorewrite with zlen. lia.
Qed.

(** A packet at the start of a longer sequence of bytes decodes to its frame. *)
Lemma block_packet_decodes f p rest : f <> [] -> encodeBlockPacket f = Ok p -> decodeBlockPacket (p ++ rest) = Ok (Some f).
Proof.
  intros Hne He. destruct (encodeBlockPacket_length f p He) as [Hlp Hl].
  destruct (encodeBlockPacket_Ok f Hl) as (crc & Hc & Hr & E).
  assert (p = blockMagic ++ [blockVersion] ++ length_bytes (zlen f) ++ f ++ uint32BE crc) as -> by congruence. clear E He Hlp.
  assert (Hf : 0 < zlen f) by (destruct f; [done | rewrite zlen_cons; pose proof (zlen_nonneg f); lia]).
  set (n := zlen f) in *.
  assert (Hh : zlen (blockMagic ++ [blockVersion] ++ length_bytes n) = 9) by done.
  set (head := blockMagic ++ [blockVersion] ++ length_bytes n) in *.
  replace ((blockMagic ++ [blockVersion] ++ length_bytes n ++ f ++ uint32BE crc) ++ rest) with (head ++ f ++ uint32BE crc ++ rest)
    by (unfold head; by rewrite <- !app_assoc).
  assert (Hlen : js_or (js_shl (byte_at (head ++ f ++ uint32BE crc ++ rest) 7) 8) (byte_at (head ++ f ++ uint32BE crc ++ rest) 8) = n)
    by (apply (length_bytes_value n); lia).
  unfold decodeBlockPacket. cbv zeta. rewrite Hlen.
  rewrite (slice_app head f (uint32BE crc ++ rest)) by (unfold blockHeaderBytes; lia).
  rewrite (app_assoc head f), (readUint32BE_app (head ++ f) crc rest); [| rewrite zlen_app, Hh; unfold blockHeaderBytes, n; lia | lia].
  rewrite Hc, (Z.eqb_refl crc).
  assert (Htot : 13 + n <= zlen ((head ++ f) ++ uint32BE crc ++ rest)).
  { rewrite !zlen_app, Hh, zlen_uint32BE. pose proof (zlen_nonneg rest). unfold n. lia. }
  destruct (Z.ltb_spec (zlen ((head ++ f) ++ uint32BE crc ++ rest)) (blockHeaderBytes + blockTrailerBytes)) as [|_];
    [unfold blockHeaderBytes, blockTrailerBytes in *; lia |].
  destruct (Z.leb_spec n 0) as [|_]; [lia |].
  destruct (Z.ltb_spec (zlen ((head ++ f) ++ uint32BE crc ++ rest)) (blockHeaderBytes + n + blockTrailerBytes)) as [|_];
    [unfold blockHeaderBytes, blockTrailerBytes in *; lia |].
  unfold head. rewrite <- !app_assoc, has_magic_app. reflexivity.
Qed.

Lemma slice_split s i j : 0 <= i -> i <= j -> j <= zlen s -> exists l k, s = l ++ slice s i j ++ k /\ zlen l = i /\ zlen (slice s i j) = j - i.
Proof.
  intros Hi Hj Hs. exists (take (Z.to_nat i) s), (drop (Z.to_nat (j - i)) (drop (Z.to_nat i) s)). unfold slice. split_and!.
  - by rewrite take_drop, take_drop.
  - unfold zlen in *. rewrite length_take. lia.
  - unfold zlen in *. rewrite length_take, length_drop. lia.
Qed.

Lemma uint32BE_read l k rest i : bytes_ok k -> zlen k = 4 -> i = zlen l -> uint32BE (readUint32BE (l ++ k ++ rest) i) = k.
Proof.
  intros Hk Hl ->. destruct k as [|b1 [|b2 [|b3 [|b4 [|]]]]]; try (unfold zlen in Hl; cbn in Hl; lia).
  unfold bytes_ok in Hk. rewrite !Forall_cons in Hk. destruct Hk as (H1 & H2 & H3 & H4 & _).
  change (0 <= b1 < 256) in H1. change (0 <= b2 < 256) in H2. change (0 <= b3 < 256) in H3. change (0 <= b4 < 256) in H4.
  unfold readUint32BE. rewrite (byte_at_app_n l _ (zlen l) 0), (byte_at_app_n l _ (zlen l + 1) 1), (byte_at_app_n l _ (zlen l + 2) 2), (byte_at_app_n l _ (zlen l + 3) 3) by lia.
  change (byte_at ([b1; b2; b3; b4] ++ rest) 0) with b1. change (byte_at ([b1; b2; b3; b4] ++ rest) 1) with b2.
  change (byte_at ([b1; b2; b3; b4] ++ rest) 2) with b3. change (byte_at ([b1; b2; b3; b4] ++ rest) 3) with b4.
  rewrite js_be32 by done. unfold uint32BE. rewrite !js_and_255, !js_ushr_div by lia.
  assert (D : forall q r n : Z, 0 <= r < n -> (q * n + r) / n = q) by (intros q r n Hr; symmetry; apply (Z.div_unique _ _ _ r); lia).
  assert (M : forall q r : Z, 0 <= r < 256 -> (q * 256 + r) mod 256 = r) by (intros q r Hr; symmetry; apply (Z.mod_unique _ _ q); lia).
  repeat f_equal.
  - replace (b1 * 2 ^ 24 + b2 * 2 ^ 16 + b3 * 2 ^ 8 + b4) with (b1 * 2 ^ 24 + (b2 * 2 ^ 16 + b3 * 2 ^ 8 + b4)) by lia.
    rewrite D by lia. by apply Z.mod_small.
  - replace (b1 * 2 ^ 24 + b2 * 2 ^ 16 + b3 * 2 ^ 8 + b4) with ((b1 * 256 + b2) * 2 ^ 16 + (b3 * 2 ^ 8 + b4)) by lia.
    rewrite D by lia. by apply M.
  - replace (b1 * 2 ^ 24 + b2 * 2 ^ 16 + b3 * 2 ^ 8 + b4) with ((b1 * 65536 + b2 * 256 + b3) * 2 ^ 8 + b4) by lia.
    rewrite D by lia. replace (b1 * 65536 + b2 * 256 + b3) with ((b1 * 256 + b2) * 256 + b3) by lia. by apply M.
  - replace (b1 * 2 ^ 24 + b2 * 2 ^ 16 + b3 * 2 ^ 8 + b4) with ((b1 * 65536 + b2 * 256 + b3) * 256 + b4) by lia. by apply M.
Qed.

Lemma split_four (k : bytes) : 4 <= zlen k -> exists c rest, k = c ++ rest /\ zlen c = 4.
Proof.
  intros H. exists (take 4 k), (drop 4 k). rewrite take_drop. split; [done |]. unfold zlen in *. rewrite length_take. lia.
Qed.

(** Only packets decode. *)
Lemma block_packet_accepts p f : bytes_ok p -> decodeBlockPacket p = Ok (Some f) ->
  f <> [] /\ exists q rest, encodeBlockPacket f = Ok q /\ p = q ++ rest.
Proof.
  intros Hok H. unfold decodeBlockPacket in H. cbv zeta in H.
  destruct (Z.ltb_spec (zlen p) (blockHeaderBytes + blockTrailerBytes)) as [|Hlen]; [done |].
  destruct (has_magic blockMagic p) eqn:Em; [|done]. apply has_magic_split in Em as [k ->].
  unfold blockHeaderBytes, blockTrailerBytes in *. rewrite zlen_app in Hlen. change (zlen blockMagic) with 6 in Hlen.
  destruct k as [|v [|b1 [|b2 k]]]; try (unfold zlen in Hlen; cbn in Hlen; lia).
  change (byte_at (blockMagic ++ v :: b1 :: b2 :: k) 6) with v in H. change (byte_at (blockMagic ++ v :: b1 :: b2 :: k) 7) with b1 in H.
  change (byte_at (blockMagic ++ v :: b1 :: b2 :: k) 8) with b2 in H. cbn [negb] in H.
  destruct (v =? blockVersion) eqn:Ev; [|done]. apply Z.eqb_eq in Ev as ->. cbn [negb] in H.
  apply bytes_ok_app in Hok as [_ Hok]. unfold bytes_ok in Hok. rewrite !Forall_cons in Hok. destruct Hok as (_ & H1 & H2 & Hk).
  change (0 <= b1 < 256) in H1. change (0 <= b2 < 256) in H2.
  pose proof (length_bytes_read b1 b2 H1 H2) as Hlb. pose proof (js_be16 b1 b2 H1 H2) as Hn.
  set (n := js_or (js_shl b1 8) b2) in *. clearbody n.
  destruct (Z.leb_spec n 0) as [|Hpos]; [done |].
  replace (blockMagic ++ blockVersion :: b1 :: b2 :: k) with ((blockMagic ++ [blockVersion] ++ [b1; b2]) ++ k) in H by done.
  set (head := blockMagic ++ [blockVersion] ++ [b1; b2]) in *. assert (Hh : zlen head = 9) by done.
  destruct (Z.ltb_spec (zlen (head ++ k)) (9 + n + 4)) as [|Hl]; [done |]. cbn [orb] in H.
  destruct (slice_split (head ++ k) 9 (9 + n)) as (l & k2 & Es & El & Ef); [lia | lia | lia |].
  set (g := slice (head ++ k) 9 (9 + n)) in *. clearbody g.
  apply app_inj_1 in Es as [<- ->]; [|unfold zlen in *; lia].
  destruct (split_four k2) as (c & rest & -> & Hc4). { rewrite !zlen_app in Hl. lia. }
  destruct (crc32c_total g) as (crc & Hcrc & Hr). rewrite Hcrc in H.
  destruct (readUint32BE (head ++ g ++ c ++ rest) (9 + n) =? crc) eqn:Ec; [|done]. cbn [negb] in H. injection H as <-.
  apply Z.eqb_eq in Ec. unfold bytes_ok in Hk. rewrite !Forall_app in Hk. destruct Hk as (_ & Hkc & _).
  assert (Hg : zlen g = n) by lia. split; [intros ->; rewrite zlen_nil in Hg; lia |].
  destruct (encodeBlockPacket_Ok g ltac:(lia)) as (crc' & Hcrc' & _ & E). assert (crc' = crc) as -> by congruence.
  eexists _, rest. split; [exact E |]. rewrite Hg, Hlb, <- Ec.
  pose proof (uint32BE_read (head ++ g) c rest (9 + n) Hkc Hc4 ltac:(rewrite zlen_app; lia)) as Hread.
  rewrite <- app_assoc in Hread. rewrite Hread. unfold head. by rewrite <- !app_assoc.
Qed.

(** ** Frames *)

Definition frame_head (n : Z) : bytes :=
  ribbonMagic ++ [zlen (utf8_encode ribbonBlockProfile)] ++ utf8_encode ribbonBlockProfile ++ [ribbonPayloadKindBranchWrapper] ++ length_bytes n.

Lemma encodeRibbonFrame_Ok payload : zlen payload <= maxRibbonPayloadBytes ->
  exists crc, crc32c payload = Ok crc /\ 0 <= crc < 2 ^ 32
    /\ encodeRibbonFrame payload = Ok (frame_head (zlen payload) ++ payload ++ uint32BE crc).
Proof.
  intros Hl. destruct (crc32c_total payload) as (crc & Hc & Hr). exists crc. split_and!; [done | lia | lia |].
  unfold encodeRibbonFrame. cbv zeta. rewrite Hc. destruct (Z.ltb_spec maxRibbonPayloadBytes (zlen payload)); [lia |].
  change (255 <? zlen (utf8_encode ribbonBlockProfile)) with false. unfold frame_head. by rewrite <- !app_assoc.
Qed.

Lemma encodeRibbonFrame_length payload frame : encodeRibbonFrame payload = Ok frame ->
  zlen frame = zlen payload + 34 /\ zlen payload <= maxRibbonPayloadBytes.
Proof.
  intros H. assert (Hl : zlen payload <= maxRibbonPayloadBytes).
  { unfold encodeRibbonFrame in H. by destruct (Z.ltb_spec maxRibbonPayloadBytes (zlen payload)). }
  split; [|done]. destruct (encodeRibbonFrame_Ok payload Hl) as (crc & _ & _ & E). rewrite H in E. apply (f_equal (fun r => match r with Ok b => zlen b | Throw _ => 0 end)) in E.
  rewrite !zlen_app, zlen_uint32BE in E. change (zlen (frame_head (zlen payload))) with 30 in E. lia.
Qed.

(** A frame decodes to its payload, if that starts like a wrapper. *)
Lemma ribbon_frame_decodes payload frame : encodeRibbonFrame payload = Ok frame ->
  starts_with (decodeUTF8 payload) branchWrapperPrefix = true -> decodeRibbonFrame frame = Ok (beacon_accepted 1 payload).
Proof.
  intros He Hp. destruct (encodeRibbonFrame_length payload frame He) as [Hlen Hl].
  destruct (encodeRibbonFrame_Ok payload Hl) as (crc & Hc & Hr & E).
  assert (frame = frame_head (zlen payload) ++ payload ++ uint32BE crc) as -> by congruence. clear E He.
  pose proof (zlen_nonneg payload) as Hnn. unfold maxRibbonPayloadBytes in Hl. set (n := zlen payload) in *.
  assert (Hh : zlen (frame_head n) = 30) by done. set (tail := payload ++ uint32BE crc) in *.
  assert (Hlb : js_or (js_shl (byte_at (frame_head n ++ tail) 28) 8) (byte_at (frame_head n ++ tail) (28 + 1)) = n)
    by (apply (length_bytes_value n); lia).
  unfold decodeRibbonFrame. cbv zeta. change (zlen ribbonMagic) with 6.
  change (byte_at (frame_head n ++ tail) 6) with 20. change (6 + 1 + 20) with 27.
  change (byte_at (frame_head n ++ tail) 27) with 1. change (27 + 1) with 28. rewrite Hlb.
  change (decodeUTF8 (slice (frame_head n ++ tail) (6 + 1) 27)) with ribbonBlockProfile. rewrite str_eqb_refl.
  change (has_magic ribbonMagic (frame_head n ++ tail)) with true.
  destruct (Z.ltb_spec (zlen (frame_head n ++ tail)) (6 + 1 + 1 + 2 + 4)) as [|_]; [lia |].
  destruct (Z.ltb_spec (zlen (frame_head n ++ tail)) (28 + 2 + 4)) as [|_]; [lia |].
  change (1 =? ribbonPayloadKindBranchWrapper) with true.
  destruct (Z.ltb_spec maxRibbonPayloadBytes n) as [|_]; [unfold maxRibbonPayloadBytes in *; lia |].
  destruct (Z.eqb_spec (28 + 2 + n + 4) (zlen (frame_head n ++ tail))) as [_|]; [|lia]. cbn [negb].
  unfold tail. rewrite (slice_app (frame_head n) payload (uint32BE crc)) by lia. rewrite Hc, Hp.
  rewrite app_assoc. rewrite <- (app_nil_r (uint32BE crc)). rewrite readUint32BE_app; [| rewrite zlen_app; lia | done].
  by rewrite (Z.eqb_refl crc).
Qed.

(** What is accepted is a frame, up to the byte order marks that
    [TextDecoder] drops. *)
Lemma ribbon_frame_accepts frame flags payload : bytes_ok frame -> decodeRibbonFrame frame = Ok (beacon_accepted flags payload) ->
  flags = 1 /\ zlen payload <= maxRibbonPayloadBytes /\ starts_with (decodeUTF8 payload) branchWrapperPrefix = true
  /\ exists profile crc, decodeUTF8 profile = ribbonBlockProfile /\ crc32c payload = Ok crc
       /\ frame = ribbonMagic ++ [zlen profile] ++ profile ++ [1] ++ length_bytes (zlen payload) ++ payload ++ uint32BE crc.
Proof.
  intros Hok H. unfold decodeRibbonFrame in H. cbv zeta in H. change (zlen ribbonMagic) with 6 in H.
  destruct (Z.ltb_spec (zlen frame) (6 + 1 + 1 + 2 + 4)) as [|Hlen]; [done |].
  destruct (has_magic ribbonMagic frame) eqn:Em; [|done]. apply has_magic_split in Em as [k ->]. cbn [negb] in H.
  rewrite zlen_app in Hlen. change (zlen ribbonMagic) with 6 in Hlen.
  destruct k as [|pl k]; [unfold zlen in Hlen; cbn in Hlen; lia |].
  change (byte_at (ribbonMagic ++ pl :: k) 6) with pl in H.
  apply bytes_ok_app in Hok as [_ Hok]. unfold bytes_ok in Hok. rewrite Forall_cons in Hok. destruct Hok as [Hpl Hk]. change (0 <= pl < 256) in Hpl.
  destruct (Z.eqb_spec pl 0) as [|Hpl0]; [done |].
  replace (ribbonMagic ++ pl :: k) with ((ribbonMagic ++ [pl]) ++ k) in H by done. set (h1 := ribbonMagic ++ [pl]) in *.
  assert (Hh1 : zlen h1 = 7) by done.
  destruct (Z.ltb_spec (zlen (h1 ++ k)) (6 + 1 + pl + 1 + 2 + 4)) as [|Hl2]; [done |].
  destruct (slice_split (h1 ++ k) (6 + 1) (6 + 1 + pl)) as (l & k2 & Es & El & Ef); [lia | lia | lia |].
  set (profile := slice (h1 ++ k) (6 + 1) (6 + 1 + pl)) in *. clearbody profile. apply app_inj_1 in Es as [<- ->]; [|unfold zlen in *; lia].
  destruct (str_eqb (decodeUTF8 profile) ribbonBlockProfile) eqn:Ep; [|done]. apply str_eqb_true in Ep. cbn [negb] in H.
  assert (Hpz : zlen profile = pl) by lia. unfold bytes_ok in Hk. rewrite Forall_app in Hk. destruct Hk as [_ Hk2].
  rewrite !zlen_app in Hl2. destruct k2 as [|fl [|b1 [|b2 k3]]]; try (unfold zlen in *; cbn in Hl2; lia).
  rewrite !Forall_cons in Hk2. destruct Hk2 as (_ & H1 & H2 & Hk3). change (0 <= b1 < 256) in H1. change (0 <= b2 < 256) in H2.
  rewrite app_assoc in H.
  assert (Hb : forall j, 0 <= j -> byte_at ((h1 ++ profile) ++ fl :: b1 :: b2 :: k3) (6 + 1 + pl + j) = byte_at (fl :: b1 :: b2 :: k3) j)
    by (intros j Hj; apply byte_at_app_n; [rewrite zlen_app; lia | done]).
  pose proof (Hb 0 ltac:(lia)) as Hb0. pose proof (Hb 1 ltac:(lia)) as Hb1. pose proof (Hb 2 ltac:(lia)) as Hb2. rewrite Z.add_0_r in Hb0.
  replace (6 + 1 + pl + 2) with (6 + 1 + pl + 1 + 1) in Hb2 by lia. rewrite Hb0, Hb1, Hb2 in H.
  change (byte_at (fl :: b1 :: b2 :: k3) 0) with fl in H. change (byte_at (fl :: b1 :: b2 :: k3) 1) with b1 in H.
  change (byte_at (fl :: b1 :: b2 :: k3) 2) with b2 in H.
  destruct (fl =? ribbonPayloadKindBranchWrapper) eqn:Efl; [|done]. apply Z.eqb_eq in Efl as ->. cbn [negb] in H.
  pose proof (length_bytes_read b1 b2 H1 H2) as Hlb. set (n := js_or (js_shl b1 8) b2) in *.
  assert (Hn : 0 <= n) by (unfold n; rewrite js_be16 by done; lia). clearbody n.
  destruct (Z.ltb_spec maxRibbonPayloadBytes n) as [|Hmax]; [done |].
  set (h2 := h1 ++ profile ++ [1; b1; b2]).
  replace ((h1 ++ profile) ++ ribbonPayloadKindBranchWrapper :: b1 :: b2 :: k3) with (h2 ++ k3) in H by (unfold h2; by rewrite <- !app_assoc).
  assert (Hh2 : zlen h2 = 7 + pl + 3) by (unfold h2; rewrite !zlen_app; cbn; unfold zlen; cbn; unfold zlen in *; lia).
  destruct (Z.eqb_spec (6 + 1 + pl + 1 + 2 + n + 4) (zlen (h2 ++ k3))) as [Hex|]; [|done]. cbn [negb] in H.
  destruct (slice_split (h2 ++ k3) (6 + 1 + pl + 1 + 2) (6 + 1 + pl + 1 + 2 + n)) as (l & k4 & Es & El2 & Ef2); [lia | lia | lia |].
  set (g := slice (h2 ++ k3) _ _) in *. clearbody g. apply app_inj_1 in Es as [<- ->]; [|unfold zlen in *; lia].
  destruct (crc32c_total g) as (crc & Hcrc & Hr). rewrite Hcrc in H.
  destruct (readUint32BE (h2 ++ g ++ k4) (6 + 1 + pl + 1 + 2 + n) =? crc) eqn:Ec; [|done]. apply Z.eqb_eq in Ec. cbn [negb] in H.
  destruct (starts_with (decodeUTF8 g) branchWrapperPrefix) eqn:Est; [|done]. injection H as <- <-.
  assert (Hg : zlen g = n) by lia. rewrite !zlen_app in Hex. assert (H4 : zlen k4 = 4) by lia.
  rewrite Forall_app in Hk3. destruct Hk3 as [_ Hk4].
  pose proof (uint32BE_read (h2 ++ g) k4 [] (6 + 1 + pl + 1 + 2 + n) Hk4 H4 ltac:(rewrite zlen_app; lia)) as Hread.
  rewrite app_nil_r, <- app_assoc, Ec in Hread.
  split_and!; [done | lia | done |]. exists profile, crc. split_and!; [done | done |].
  rewrite Hg, Hlb, Hread, Hpz. unfold h1. rewrite <- ?app_assoc. reflexivity.
Qed.
