(* ===== verification/RibbonPixels.v ===== *)
(** * What embedding writes into an image

    Every pixel of a written cell is tinted once, by the bit of its cell; all
    other pixels stay. *)
From Stdlib Require Import SpecFloat.
From S2P Require Import Prelude JsRuntime Collections Ribbon RibbonFrames.

(** ** The permutation of the cells *)

Lemma gcd_loop_spec fuel a b : 0 <= a -> 0 <= b < Z.of_nat fuel -> gcd_loop fuel a b = Z.gcd a b.
Proof.
  revert a b. induction fuel as [|fuel IH]; intros a b Ha Hb; [lia |]. cbn [gcd_loop]. destruct (Z.eqb_spec b 0) as [->|Hne].
  - rewrite Z.gcd_0_r. symmetry. by apply Z.abs_eq.
  - rewrite Z.rem_mod_nonneg by lia. pose proof (Z.mod_pos_bound a b ltac:(lia)). rewrite IH by lia.
    rewrite Z.gcd_comm, Z.gcd_mod by lia. apply Z.gcd_comm.
Qed.

Lemma gcd_spec a b : gcd a b = Z.gcd a b.
Proof. unfold gcd. rewrite gcd_loop_spec by lia. by rewrite Z.gcd_abs_l, Z.gcd_abs_r. Qed.

Lemma step_coprime capacity : Z.gcd (selectPermutationStep capacity) capacity = 1.
Proof.
  unfold selectPermutationStep. destruct (filter _ permutationCandidates) as [|c l] eqn:E; [apply Z.gcd_1_l |].
  assert (Hin : c ∈ filter (fun candidate => gcd candidate capacity = 1) permutationCandidates) by (rewrite E; by left).
  apply list_elem_of_filter in Hin as [Hin _]. by rewrite gcd_spec in Hin.
Qed.

Record layout_ok (l : RibbonBlockLayout) (width height : Z) : Prop := mkLayoutOk {
  lay_size : 6 <= cellSize l <= 32;
  lay_columns : 0 < columns l;
  lay_capacity : 0 < capacityCells l /\ capacityCells l = columns l * rows l;
  lay_x : 0 <= originX l /\ originX l + columns l * cellSize l <= width;
  lay_y : 0 <= originY l /\ originY l + rows l * cellSize l <= height;
  lay_step : Z.gcd (permutationStep l) (capacityCells l) = 1;
}.

Lemma makeBlockLayout_ok width height l : makeBlockLayout (Int width) (Int height) = Ok l ->
  layout_ok l width height /\ 128 <= width <= 4096 /\ 128 <= height <= 4096.
Proof.
  unfold makeBlockLayout, block_side. destruct (_ && _) eqn:E; [|done]. cbn [negb]. intros [= <-]. bool_props.
  unfold blockTargetGridSide. set (s := Z.max 6 (Z.min width height / 125)).
  assert (Hs : 6 <= s <= 32) by (unfold s; zdiv_lia).
  assert (Hc : forall w, 128 <= w -> 0 < w / s /\ 0 <= w - (w / s) * s < s).
  { intros w Hw. pose proof (Z.div_mod w s ltac:(lia)). pose proof (Z.mod_pos_bound w s ltac:(lia)). split; [|lia]. apply Z.div_str_pos. lia. }
  destruct (Hc width ltac:(lia)), (Hc height ltac:(lia)).
  split; [|lia]. constructor; cbn [cellSize columns capacityCells rows originX originY permutationStep]; try lia.
  - zdiv_lia.
  - zdiv_lia.
  - apply step_coprime.
Qed.

Lemma permute_range l w h k : layout_ok l w h -> 0 <= permuteCellIndex l k < capacityCells l.
Proof. intros [_ _ [Hc _] _ _ _]. unfold permuteCellIndex. by apply Z.mod_pos_bound. Qed.

(** Two indices in the capacity never share a cell. *)
Lemma permute_inj l w h j k : layout_ok l w h -> 0 <= j < capacityCells l -> 0 <= k < capacityCells l ->
  permuteCellIndex l j = permuteCellIndex l k -> j = k.
Proof.
  intros [_ _ [Hc _] _ _ Hg] Hj Hk H. unfold permuteCellIndex in H. set (n := capacityCells l) in *. set (s := permutationStep l) in *.
  assert (D : (n | s * (j - k))).
  { apply Z.mod_divide; [lia |]. replace (s * (j - k)) with ((j * s + 97) - (k * s + 97)) by lia.
    rewrite Zminus_mod, H, Z.sub_diag. done. }
  rewrite Z.gcd_comm in Hg. apply Z.gauss in D as [q Hq]; [|done].
  assert (q = 0) as -> by (destruct (Z.lt_trichotomy q 0) as [?|[?|?]]; nia). lia.
Qed.

(** ** Bytes of a typed array *)

Lemma get_set_byte d o v o' : 0 <= o < byteLength d -> get_byte (set_byte d o v) o' = if decide (o' = o) then v else get_byte d o'.
Proof.
  intros Ho. unfold set_byte, get_byte. destruct (Z.leb_spec 0 o); [|lia]. destruct (Z.ltb_spec o (byteLength d)); [|lia]. cbn [andb cells].
  case_decide as E; [by rewrite E, lookup_insert_eq | by rewrite lookup_insert_ne].
Qed.

Lemma set_byte_length d o v : byteLength (set_byte d o v) = byteLength d.
Proof. unfold set_byte. by case_match. Qed.

(** A channel of a pixel. *)
Definition pixel (width : Z) (d : Pixels) (x y channel : Z) : Z := get_byte d ((y * width + x) * 4 + channel).

Definition inside (width : Z) (d : Pixels) (x y : Z) : Prop := 0 <= x < width /\ 0 <= y /\ (y * width + x) * 4 + 3 < byteLength d.

Lemma tint_length width delta d x y : byteLength (tint_pixel width delta d x y) = byteLength d.
Proof. unfold tint_pixel. by rewrite !set_byte_length. Qed.

Lemma tint_pixel_spec width delta d x y x' y' ch : inside width d x y -> 0 <= x' < width -> 0 <= ch < 4 ->
  pixel width (tint_pixel width delta d x y) x' y' ch =
  if decide (x' = x /\ y' = y /\ ch < 3) then clampByte (pixel width d x y ch + delta) else pixel width d x' y' ch.
Proof.
  intros (Hx & Hy & Hl) Hx' Hch. unfold tint_pixel, pixel. set (o := (y * width + x) * 4) in *.
  assert (0 <= o) by (unfold o; nia).
  rewrite !get_set_byte by (rewrite ?set_byte_length; lia).
  assert (Hpos : forall k, 0 <= k < 3 -> (y' * width + x') * 4 + ch = o + k <-> x' = x /\ y' = y /\ ch = k).
  { intros k Hk. unfold o. split; [|intros (-> & -> & ->); lia]. intros E. assert (Ech : ch = k) by lia. subst k.
    assert (E2 : y' * width + x' = y * width + x) by lia.
    assert (y' = y) as -> by (destruct (Z.lt_trichotomy y' y) as [?|[?|?]]; nia). lia. }
  pose proof (Hpos 0 ltac:(lia)) as H0. pose proof (Hpos 1 ltac:(lia)) as H1. pose proof (Hpos 2 ltac:(lia)) as H2. rewrite Z.add_0_r in H0.
  repeat case_decide; try (exfalso; lia); try (exfalso; tauto); try done.
  - do 3 f_equal. lia.
  - do 3 f_equal. lia.
  - do 3 f_equal. lia.
Qed.

(** ** Lists of points *)

Record Point := mkPoint { pt_x : Z; pt_y : Z; pt_delta : Z }.

Definition place (p : Point) : Z * Z := (pt_x p, pt_y p).

Definition tint_points (width : Z) (d : Pixels) (ps : list Point) : Pixels :=
  foldl (fun d p => tint_pixel width (pt_delta p) d (pt_x p) (pt_y p)) d ps.

Lemma tint_points_cons width d p ps : tint_points width d (p :: ps) = tint_points width (tint_pixel width (pt_delta p) d (pt_x p) (pt_y p)) ps.
Proof. done. Qed.

Lemma tint_points_length width d ps : byteLength (tint_points width d ps) = byteLength d.
Proof. revert d. induction ps as [|p ps IH]; intros d; [done |]. by rewrite tint_points_cons, IH, tint_length. Qed.

Lemma tint_points_miss width d ps x y ch : Forall (fun p => inside width d (pt_x p) (pt_y p)) ps -> 0 <= x < width -> 0 <= ch < 4 ->
  ((x, y) ∉ place <$> ps) \/ ch = 3 -> pixel width (tint_points width d ps) x y ch = pixel width d x y ch.
Proof.
  revert d. induction ps as [|p ps IH]; intros d Hin Hx Hch Hn; [done |]. apply Forall_cons in Hin as [Hp Hin].
  rewrite tint_points_cons, IH; [| | done | done |].
  - rewrite tint_pixel_spec by done. case_decide as E; [|done]. destruct E as (-> & -> & Hc). destruct Hn as [Hn|]; [|lia].
    exfalso. apply Hn. by left.
  - eapply Forall_impl; [exact Hin |]. intros q. unfold inside. by rewrite tint_length.
  - destruct Hn as [Hn|]; [left; contradict Hn; by right | by right].
Qed.

Lemma tint_points_hit width d ps p ch : Forall (fun p => inside width d (pt_x p) (pt_y p)) ps -> NoDup (place <$> ps) -> p ∈ ps -> 0 <= ch < 3 ->
  pixel width (tint_points width d ps) (pt_x p) (pt_y p) ch = clampByte (pixel width d (pt_x p) (pt_y p) ch + pt_delta p).
Proof.
  revert d. induction ps as [|q ps IH]; intros d Hin Hnd Hp Hch; [by apply elem_of_nil in Hp |].
  apply Forall_cons in Hin as [Hq Hin]. rewrite fmap_cons, NoDup_cons in Hnd. destruct Hnd as [Hnq Hnd].
  rewrite tint_points_cons.
  assert (Hin' : Forall (fun p => inside width (tint_pixel width (pt_delta q) d (pt_x q) (pt_y q)) (pt_x p) (pt_y p)) ps).
  { eapply Forall_impl; [exact Hin |]. intros r. unfold inside. by rewrite tint_length. }
  apply elem_of_cons in Hp as [->|Hp].
  - rewrite tint_points_miss; [| done | apply Hq | lia | by left]. rewrite tint_pixel_spec by (done || apply Hq || lia).
    by rewrite decide_True by lia.
  - rewrite IH by done.
    rewrite tint_pixel_spec; [| done | | lia].
    + rewrite decide_False; [done |]. intros (Ex & Ey & _). apply Hnq. apply list_elem_of_fmap. exists p. unfold place. by rewrite Ex, Ey.
    + rewrite Forall_forall in Hin. by apply (Hin p Hp).
Qed.

Lemma tint_points_app width d ps qs : tint_points width d (ps ++ qs) = tint_points width (tint_points width d ps) qs.
Proof. apply foldl_app. Qed.

Lemma tint_points_bind {A} width d (l : list A) (g : A -> list Point) :
  tint_points width d (l ≫= g) = foldl (fun d a => tint_points width d (g a)) d l.
Proof. revert d. induction l as [|a l IH]; intros d; [done |]. cbn [mbind list_bind foldl]. by rewrite tint_points_app, IH. Qed.

Lemma loop_total {A S} (body : S -> A -> result S) (f : S -> A -> S) s l :
  (forall s a, a ∈ l -> body s a = Ok (f s a)) -> loop body s l = Ok (foldl f s l).
Proof.
  revert s. induction l as [|a l IH]; intros s H; [done |]. cbn [loop foldl]. rewrite H by (by left). apply IH.
  intros s' a' Ha. apply H. by right.
Qed.

Lemma foldl_same {A S} (f g : S -> A -> S) s l : (forall s a, a ∈ l -> f s a = g s a) -> foldl f s l = foldl g s l.
Proof.
  revert s. induction l as [|a l IH]; intros s H; [done |]. cbn [foldl]. rewrite H by (by left). apply IH.
  intros s' a' Ha. apply H. by right.
Qed.

Lemma selectRepeat_Ok bits capacity repeat : selectRepeat bits capacity = Ok repeat -> repeat ∈ blockRepeatCandidates /\ bits * repeat <= capacity.
Proof.
  unfold selectRepeat. destruct (filter _ blockRepeatCandidates) as [|r rs] eqn:E; [done |]. intros [= <-].
  assert (Hin : r ∈ filter (fun repeat => bits * repeat <= capacity) blockRepeatCandidates) by (rewrite E; by left).
  apply list_elem_of_filter in Hin. tauto.
Qed.

(** ** The points of a cell *)

Section Grid.
Context (l : RibbonBlockLayout) (width height x0 y0 : Z).
Hypothesis Hl : layout_ok l width height.

Definition cell_x (c : Z) : Z := x0 + originX l + (c mod columns l) * cellSize l.
Definition cell_y (c : Z) : Z := y0 + originY l + (c / columns l) * cellSize l.

Definition cell_points (c : Z) (bit : bool) : list Point :=
  seqZ 0 (cellSize l) ≫= fun dy =>
    (fun dx => mkPoint (cell_x c + dx) (cell_y c + dy) (cell_delta l c bit dx dy)) <$> seqZ 0 (cellSize l).

Lemma cell_points_elem c bit p : p ∈ cell_points c bit <->
  exists dx dy, 0 <= dx < cellSize l /\ 0 <= dy < cellSize l
    /\ p = mkPoint (cell_x c + dx) (cell_y c + dy) (cell_delta l c bit dx dy).
Proof.
  unfold cell_points. split.
  - intros (dy & Hin & Hdy%elem_of_seqZ)%list_elem_of_bind. apply list_elem_of_fmap in Hin as (dx & -> & Hdx%elem_of_seqZ).
    exists dx, dy. split_and!; try lia. done.
  - intros (dx & dy & Hdx & Hdy & ->). apply list_elem_of_bind. exists dy. split; [|apply elem_of_seqZ; lia].
    apply list_elem_of_fmap. exists dx. split; [done | apply elem_of_seqZ; lia].
Qed.

Lemma tintBlockCell_points w d c bit : c < capacityCells l -> tintBlockCell w l x0 y0 d c bit = Ok (tint_points w d (cell_points c bit)).
Proof.
  intros Hc. unfold tintBlockCell. destruct (Z.leb_spec (capacityCells l) c); [lia |]. cbv zeta. f_equal.
  unfold cell_points. rewrite tint_points_bind. fold (cell_x c) (cell_y c).
  replace (seqZ (cell_y c) (cellSize l)) with (Z.add (cell_y c) <$> seqZ 0 (cellSize l)) by (rewrite fmap_add_seqZ; f_equal; lia).
  rewrite foldl_fmap. apply foldl_same. intros d' dy _. unfold tint_points. rewrite foldl_fmap.
  replace (seqZ (cell_x c) (cellSize l)) with (Z.add (cell_x c) <$> seqZ 0 (cellSize l)) by (rewrite fmap_add_seqZ; f_equal; lia).
  rewrite foldl_fmap. apply foldl_same. intros d2 dx _. cbn [pt_x pt_y pt_delta].
  by replace (cell_x c + dx - cell_x c) with dx by lia; replace (cell_y c + dy - cell_y c) with dy by lia.
Qed.

Lemma cell_place_inj c c' dx dx' dy dy' : 0 <= dx < cellSize l -> 0 <= dx' < cellSize l -> 0 <= dy < cellSize l -> 0 <= dy' < cellSize l ->
  cell_x c + dx = cell_x c' + dx' -> cell_y c + dy = cell_y c' + dy' -> c = c' /\ dx = dx' /\ dy = dy'.
Proof.
  intros H1 H2 H3 H4 Ex Ey. pose proof (lay_columns _ _ _ Hl). unfold cell_x, cell_y in *.
  assert (D : forall a a' r r', 0 <= r < cellSize l -> 0 <= r' < cellSize l -> a * cellSize l + r = a' * cellSize l + r' -> a = a' /\ r = r').
  { intros a a' r r' Hr Hr' E. assert (a = a') as -> by (destruct (Z.lt_trichotomy a a') as [?|[?|?]]; nia). split; [done | lia]. }
  destruct (D (c mod columns l) (c' mod columns l) dx dx') as [Em ->]; [done | done | lia |].
  destruct (D (c / columns l) (c' / columns l) dy dy') as [Ed ->]; [done | done | lia |].
  split_and!; [|done | done]. rewrite (Z.div_mod c (columns l)), (Z.div_mod c' (columns l)) by lia. by rewrite Em, Ed.
Qed.

Context (W H : Z).
Hypothesis Hx0 : 0 <= x0 /\ x0 + width <= W.
Hypothesis Hy0 : 0 <= y0 /\ y0 + height <= H.

Lemma cell_inside d c dx dy : byteLength d = W * H * 4 -> 0 <= c < capacityCells l -> 0 <= dx < cellSize l -> 0 <= dy < cellSize l ->
  inside W d (cell_x c + dx) (cell_y c + dy).
Proof.
  intros Hd Hc Hdx Hdy. destruct Hl as [Hs Hcol [Hcap Ecap] [Hox Hx] [Hoy Hy] _]. unfold inside, cell_x, cell_y. rewrite Hd.
  pose proof (Z.mod_pos_bound c (columns l) Hcol) as Hm. pose proof (Z.div_mod c (columns l) ltac:(lia)) as Edm.
  assert (Hq : 0 <= c / columns l < rows l) by (split; [apply Z.div_pos; lia | apply Z.div_lt_upper_bound; lia]).
  set (mx := c mod columns l) in *. set (my := c / columns l) in *. clearbody mx my.
  assert (X : 0 <= x0 + originX l + mx * cellSize l + dx < W) by nia.
  assert (Y : 0 <= y0 + originY l + my * cellSize l + dy < H) by nia.
  set (x := x0 + originX l + mx * cellSize l + dx) in *. set (y := y0 + originY l + my * cellSize l + dy) in *. clearbody x y.
  split_and!; [lia | lia | lia |]. nia.
Qed.

(** The points that a packet writes. *)
Definition write_points (packet : bytes) (repeat : Z) : list Point :=
  seqZ 0 (zlen packet * 8) ≫= fun bitIndex =>
    seqZ 0 repeat ≫= fun repeated => cell_points (permuteCellIndex l (bitIndex * repeat + repeated)) (packet_bit packet bitIndex).

Lemma write_points_elem packet repeat p : p ∈ write_points packet repeat <->
  exists bi rp dx dy, 0 <= bi < zlen packet * 8 /\ 0 <= rp < repeat /\ 0 <= dx < cellSize l /\ 0 <= dy < cellSize l
    /\ p = let c := permuteCellIndex l (bi * repeat + rp) in
           mkPoint (cell_x c + dx) (cell_y c + dy) (cell_delta l c (packet_bit packet bi) dx dy).
Proof.
  unfold write_points. split.
  - intros (bi & Hin & Hbi%elem_of_seqZ)%list_elem_of_bind. apply list_elem_of_bind in Hin as (rp & Hin & Hrp%elem_of_seqZ).
    apply cell_points_elem in Hin as (dx & dy & Hdx & Hdy & ->). exists bi, rp, dx, dy. split_and!; try lia. done.
  - intros (bi & rp & dx & dy & Hbi & Hrp & Hdx & Hdy & ->). apply list_elem_of_bind. exists bi. split; [|apply elem_of_seqZ; lia].
    apply list_elem_of_bind. exists rp. split; [|apply elem_of_seqZ; lia]. apply cell_points_elem. exists dx, dy. split_and!; try lia. done.
Qed.

Section Packet.
Context (packet : bytes) (repeat : Z).
Hypothesis Hrep : 0 < repeat.
Hypothesis Hfit : zlen packet * 8 * repeat <= capacityCells l.

Lemma index_in_capacity bi rp : 0 <= bi < zlen packet * 8 -> 0 <= rp < repeat -> 0 <= bi * repeat + rp < capacityCells l.
Proof. intros. nia. Qed.

Lemma write_index_inj bi rp dx dy bi' rp' dx' dy' :
  0 <= bi < zlen packet * 8 -> 0 <= rp < repeat -> 0 <= dx < cellSize l -> 0 <= dy < cellSize l ->
  0 <= bi' < zlen packet * 8 -> 0 <= rp' < repeat -> 0 <= dx' < cellSize l -> 0 <= dy' < cellSize l ->
  cell_x (permuteCellIndex l (bi * repeat + rp)) + dx = cell_x (permuteCellIndex l (bi' * repeat + rp')) + dx' ->
  cell_y (permuteCellIndex l (bi * repeat + rp)) + dy = cell_y (permuteCellIndex l (bi' * repeat + rp')) + dy' ->
  bi = bi' /\ rp = rp' /\ dx = dx' /\ dy = dy'.
Proof.
  intros. destruct (cell_place_inj (permuteCellIndex l (bi * repeat + rp)) (permuteCellIndex l (bi' * repeat + rp')) dx dx' dy dy')
    as (Ec & -> & ->); try done.
  apply (permute_inj l width height) in Ec; [| done | by apply index_in_capacity | by apply index_in_capacity].
  assert (bi = bi') as -> by (destruct (Z.lt_trichotomy bi bi') as [?|[?|?]]; nia). split_and!; [done | lia | done | done].
Qed.

Lemma write_points_NoDup : NoDup (place <$> write_points packet repeat).
Proof.
  apply NoDup_fmap_2_strong.
  - intros p q Hp%write_points_elem Hq%write_points_elem. destruct Hp as (bi & rp & dx & dy & ? & ? & ? & ? & ->).
    destruct Hq as (bi' & rp' & dx' & dy' & ? & ? & ? & ? & ->). cbv zeta. unfold place. cbn [pt_x pt_y]. intros [= Ex Ey].
    by destruct (write_index_inj bi rp dx dy bi' rp' dx' dy') as (-> & -> & -> & ->).
  - apply NoDup_bind; [| |apply NoDup_seqZ].
    + intros bi bi' p Hbi%elem_of_seqZ Hbi'%elem_of_seqZ Hp Hq.
      apply list_elem_of_bind in Hp as (rp & Hp & Hrp%elem_of_seqZ). apply list_elem_of_bind in Hq as (rp' & Hq & Hrp'%elem_of_seqZ).
      apply cell_points_elem in Hp as (dx & dy & ? & ? & ->). apply cell_points_elem in Hq as (dx' & dy' & ? & ? & [= Ex Ey _]).
      by destruct (write_index_inj bi rp dx dy bi' rp' dx' dy') as (-> & _); [lia.. | |].
    + intros bi Hbi%elem_of_seqZ. apply NoDup_bind; [| |apply NoDup_seqZ].
      * intros rp rp' p Hrp%elem_of_seqZ Hrp'%elem_of_seqZ Hp Hq.
        apply cell_points_elem in Hp as (dx & dy & ? & ? & ->). apply cell_points_elem in Hq as (dx' & dy' & ? & ? & [= Ex Ey _]).
        by destruct (write_index_inj bi rp dx dy bi rp' dx' dy') as (_ & -> & _); [lia.. | |].
      * intros rp Hrp%elem_of_seqZ. set (c := permuteCellIndex l _). clearbody c. unfold cell_points.
        apply NoDup_bind; [| |apply NoDup_seqZ].
        -- intros dy dy' p _ _ Hp Hq. apply list_elem_of_fmap in Hp as (dx & -> & _). apply list_elem_of_fmap in Hq as (dx' & [= _ Ey _] & _). lia.
        -- intros dy _. apply NoDup_fmap_2; [|apply NoDup_seqZ]. intros dx dx' [= Ex _]. lia.
Qed.

Lemma write_points_inside d : byteLength d = W * H * 4 ->
  Forall (fun p => inside W d (pt_x p) (pt_y p)) (write_points packet repeat).
Proof.
  intros Hd. apply Forall_forall. intros p Hp%write_points_elem. destruct Hp as (bi & rp & dx & dy & ? & ? & ? & ? & ->).
  apply cell_inside; try done. by apply (permute_range l width height).
Qed.

(** The bit that a cell carries: the one of its index in the permutation. *)
Definition ink (k : Z) : option bool := if k <? zlen packet * 8 * repeat then Some (packet_bit packet (k / repeat)) else None.

Lemma written_cell d k dx dy ch : byteLength d = W * H * 4 -> 0 <= k < capacityCells l -> 0 <= dx < cellSize l -> 0 <= dy < cellSize l -> 0 <= ch < 3 ->
  let c := permuteCellIndex l k in
  pixel W (tint_points W d (write_points packet repeat)) (cell_x c + dx) (cell_y c + dy) ch =
  match ink k with
  | Some bit => clampByte (pixel W d (cell_x c + dx) (cell_y c + dy) ch + cell_delta l c bit dx dy)
  | None => pixel W d (cell_x c + dx) (cell_y c + dy) ch
  end.
Proof.
  intros Hd Hk Hdx Hdy Hch c. pose proof (permute_range l width height k Hl) as Hc. fold c in Hc. unfold ink.
  pose proof (write_points_inside d Hd) as Hins. destruct (Z.ltb_spec k (zlen packet * 8 * repeat)) as [Hlt|Hge].
  - set (p := mkPoint (cell_x c + dx) (cell_y c + dy) (cell_delta l c (packet_bit packet (k / repeat)) dx dy)).
    assert (Hp : p ∈ write_points packet repeat).
    { apply write_points_elem. exists (k / repeat), (k mod repeat), dx, dy. pose proof (Z.div_mod k repeat ltac:(lia)).
      pose proof (Z.mod_pos_bound k repeat Hrep).
      assert (0 <= k / repeat < zlen packet * 8) by (split; [apply Z.div_pos; lia | apply Z.div_lt_upper_bound; lia]).
      split_and!; try lia. replace (k / repeat * repeat + k mod repeat) with k by lia. done. }
    exact (tint_points_hit W d _ p ch Hins write_points_NoDup Hp Hch).
  - apply tint_points_miss; [done | | lia |].
    + apply (cell_inside d c dx dy Hd); done.
    + left. intros Hin. apply list_elem_of_fmap in Hin as (p & Ep & Hp). apply write_points_elem in Hp as (bi & rp & dx' & dy' & ? & ? & ? & ? & ->).
      unfold place in Ep. cbn [pt_x pt_y] in Ep. injection Ep as Ex Ey.
      destruct (cell_place_inj c (permuteCellIndex l (bi * repeat + rp)) dx dx' dy dy') as (Ec & _); try done.
      apply (permute_inj l width height) in Ec; [nia | done | done | by apply index_in_capacity].
Qed.

(** The other pixels stay, and so does the alpha channel. *)
Lemma unwritten_pixel d x y ch : byteLength d = W * H * 4 -> 0 <= x < W -> 0 <= ch < 4 ->
  ch = 3 \/ (forall k dx dy, 0 <= k < zlen packet * 8 * repeat -> 0 <= dx < cellSize l -> 0 <= dy < cellSize l ->
     (x, y) <> (cell_x (permuteCellIndex l k) + dx, cell_y (permuteCellIndex l k) + dy)) ->
  pixel W (tint_points W d (write_points packet repeat)) x y ch = pixel W d x y ch.
Proof.
  intros Hd Hx Hch Hn. apply tint_points_miss; [by apply write_points_inside | done | done |]. destruct Hn as [->|Hn]; [by right | left].
  intros Hin. apply list_elem_of_fmap in Hin as (p & Ep & Hp). apply write_points_elem in Hp as (bi & rp & dx & dy & ? & ? & ? & ? & ->).
  apply (Hn (bi * repeat + rp) dx dy); [nia | done | done | done].
Qed.
End Packet.

Lemma writeBlockPayload_points d frame d' : writeBlockPayload d W frame l x0 y0 = Ok d' ->
  exists packet repeat, encodeBlockPacket frame = Ok packet /\ selectRepeat (zlen packet * 8) (capacityCells l) = Ok repeat
    /\ d' = tint_points W d (write_points packet repeat).
Proof.
  unfold writeBlockPayload. destruct (encodeBlockPacket frame) as [packet|] eqn:Ep; [|done]. cbv zeta.
  destruct (selectRepeat (zlen packet * 8) (capacityCells l)) as [repeat|] eqn:Er; [|done]. intros H'. exists packet, repeat. split_and!; [done | done |].
  set (g := fun bi rp => cell_points (permuteCellIndex l (bi * repeat + rp)) (packet_bit packet bi)).
  rewrite (loop_total _ (fun d bi => tint_points W d (seqZ 0 repeat ≫= g bi))) in H'.
  - injection H' as <-. unfold write_points. by rewrite tint_points_bind.
  - intros d1 bi _. rewrite tint_points_bind. apply loop_total. intros d2 rp _. apply tintBlockCell_points.
    apply (permute_range l width height _ Hl).
Qed.
End Grid.
