(* ===== verification/RibbonRoundTrip.v ===== *)
(** * A carrier image decodes to its wrapper

    On an image of one colour the score of a cell depends on its mask and on
    its bit alone.  For the source image of [generateRibbonCarrier] the bits of
    all cells, for every repeat factor, are then a finite computation. *)
From Stdlib Require Import SpecFloat.
From S2P Require Import Prelude JsRuntime Collections Ribbon RibbonFrames RibbonPixels.

(** ** Bits and bytes *)

Lemma eight_cases : forall v, v ∈ seqZ 0 256 -> read_byte_of (fun k => js_and (js_shr v (7 - k mod 8)) 1 =? 1) 0 = v.
Proof.
  assert (H : forallb (fun v => read_byte_of (fun k => js_and (js_shr v (7 - k mod 8)) 1 =? 1) 0 =? v) (seqZ 0 256) = true) by closed.
  intros v Hv. rewrite forallb_forall in H. apply Z.eqb_eq, H. by apply list_elem_of_In.
Qed.

Lemma read_byte_of_ext f g i : (forall k, 0 <= k < 8 -> f (i * 8 + k) = g k) -> read_byte_of f i = read_byte_of g 0.
Proof.
  intros H. unfold read_byte_of. apply foldl_same. intros b k Hk%elem_of_seqZ. rewrite H by lia. by rewrite Z.mul_0_l, Z.add_0_l.
Qed.

(** The byte whose bits are those of a packet. *)
Lemma read_packet_byte packet f i : bytes_ok packet -> 0 <= i < zlen packet ->
  (forall k, 0 <= k < 8 -> f (i * 8 + k) = packet_bit packet (i * 8 + k)) -> read_byte_of f i = byte_at packet i.
Proof.
  intros Hok Hi Hf. assert (Hv : byte_at packet i ∈ seqZ 0 256).
  { apply elem_of_seqZ. unfold byte_at. destruct (packet !! Z.to_nat i) as [v|] eqn:E; cbn; [|lia]. exact (Forall_lookup_1 _ _ _ _ Hok E). }
  rewrite <- (eight_cases _ Hv). apply read_byte_of_ext. intros k Hk. rewrite Hf by done. unfold packet_bit.
  rewrite Z.div_add_l, (Z.div_small k), Z.add_0_r by lia. do 4 f_equal. rewrite Z.add_comm. by apply Z.mod_add.
Qed.

(** Bytes with the same bits are the same. *)
Lemma bits_determine f v : v ∈ seqZ 0 256 -> read_byte_of f 0 = v -> forall k, 0 <= k < 8 -> f k = (js_and (js_shr v (7 - k mod 8)) 1 =? 1).
Proof.
  intros _ <- k Hk. unfold read_byte_of. cbn [seqZ seq Z.to_nat Pos.to_nat fmap list_fmap foldl].
  change (seqZ 0 8) with [0; 1; 2; 3; 4; 5; 6; 7]. cbn [foldl]. rewrite !Z.mul_0_l, !Z.add_0_l.
  assert (C : k = 0 \/ k = 1 \/ k = 2 \/ k = 3 \/ k = 4 \/ k = 5 \/ k = 6 \/ k = 7) by lia.
  destruct (f 0) eqn:E0, (f 1) eqn:E1, (f 2) eqn:E2, (f 3) eqn:E3, (f 4) eqn:E4, (f 5) eqn:E5, (f 6) eqn:E6, (f 7) eqn:E7;
    destruct C as [->|[->|[->|[->|[->|[->|[->| ->]]]]]]]; rewrite ?E0, ?E1, ?E2, ?E3, ?E4, ?E5, ?E6, ?E7; reflexivity.
Qed.

(** ** Scores on one colour *)

Definition polarity_of (kind x y size : Z) : Z :=
  match kind with
  | 0 => sign_of (x <? size / 2)
  | 1 => sign_of (y <? size / 2)
  | 2 => sign_of (eqb (x <? size / 2) (y <? size / 2))
  | _ => sign_of (x + y <? size)
  end.

Definition kind_of (c : Z) : Z := js_and (hashCell c) 3.

Lemma readCellPolarity_kind c x y size : readCellPolarity c x y size = polarity_of (kind_of c) x y size.
Proof. unfold readCellPolarity, polarity_of, kind_of. reflexivity. Qed.

Definition inked (base : Z -> Z) (ink : option bool) (polarity channel : Z) : Z :=
  match ink with
  | Some bit => clampByte (base channel + (if bit then polarity else - polarity) * blockStrength)
  | None => base channel
  end.

Definition kind_score (base : Z -> Z) (size kind : Z) (ink : option bool) : spec_float :=
  let margin := cell_margin size in
  let inner := Z.max 0 (size - 2 * margin) in
  foldl (fun score dy =>
    foldl (fun score dx =>
      let polarity := polarity_of kind dx dy size in
      let value := inked base ink polarity in
      float_add score (float_mul (float_of polarity) (luma (value 0) (value 1) (value 2))))
      score (seqZ margin inner))
    float_zero (seqZ margin inner).

Definition model_bit (base : Z -> Z) (l : RibbonBlockLayout) (repeat : Z) (ink : Z -> option bool) (bitIndex : Z) : bool :=
  negb (negative (foldl (fun score repeated =>
    let k := bitIndex * repeat + repeated in
    float_add score (kind_score base (cellSize l) (kind_of (permuteCellIndex l k)) (ink k))) float_zero (seqZ 0 repeat))).

(** The score of a cell whose pixels are those of a mask. *)
Lemma cell_score_model image x0 y0 l c base i : 6 <= cellSize l ->
  (forall dx dy ch, 0 <= dx < cellSize l -> 0 <= dy < cellSize l -> 0 <= ch < 3 ->
     pixel (image_width image) (image_data image) (cell_x l x0 c + dx) (cell_y l y0 c + dy) ch
     = inked base i (polarity_of (kind_of c) dx dy (cellSize l)) ch) ->
  readBlockCellScore image x0 y0 l c = kind_score base (cellSize l) (kind_of c) i.
Proof.
  intros Hs Hv. unfold readBlockCellScore, kind_score. cbv zeta.
  fold (cell_x l x0 c) (cell_y l y0 c). set (m := cell_margin (cellSize l)). set (inner := Z.max 0 (cellSize l - 2 * m)).
  assert (Hm : 1 <= m) by (unfold m, cell_margin; lia). clearbody m.
  rewrite <- !fmap_add_seqZ, foldl_fmap. apply foldl_same. intros s1 dy Hdy%elem_of_seqZ.
  rewrite foldl_fmap. apply foldl_same. intros s2 dx Hdx%elem_of_seqZ. rewrite readCellPolarity_kind.
  replace (cell_x l x0 c + dx - cell_x l x0 c) with dx by lia. replace (cell_y l y0 c + dy - cell_y l y0 c) with dy by lia.
  assert (Hdx' : 0 <= dx < cellSize l) by lia. assert (Hdy' : 0 <= dy < cellSize l) by lia.
  rewrite <- (Hv dx dy 0), <- (Hv dx dy 1), <- (Hv dx dy 2) by (done || lia). unfold pixel. by rewrite Z.add_0_r.
Qed.

Lemma model_bit_ext base l r ink1 ink2 i : (forall k, i * r <= k < i * r + r -> ink1 k = ink2 k) ->
  model_bit base l r ink1 i = model_bit base l r ink2 i.
Proof.
  intros H. unfold model_bit. apply (f_equal (fun s => negb (negative s))), foldl_same. intros s rp Hrp%elem_of_seqZ. cbv zeta. by rewrite H by lia.
Qed.

Section Reading.
Context (l : RibbonBlockLayout) (width height x0 y0 W H : Z).
Hypothesis Hl : layout_ok l width height.
Hypothesis Hx0 : 0 <= x0 /\ x0 + width <= W.
Hypothesis Hy0 : 0 <= y0 /\ y0 + height <= H.
Context (base : Z -> Z) (d : Pixels).
Hypothesis Hd : byteLength d = W * H * 4.
Hypothesis Hbase : forall x y ch, 0 <= x < W -> 0 <= y < H -> 0 <= ch < 3 -> pixel W d x y ch = base ch.
Context (packet : bytes) (repeat : Z).
Hypothesis Hrep : 0 < repeat.
Hypothesis Hfit : zlen packet * 8 * repeat <= capacityCells l.

Let image : RibbonImageData := mkImage W H (tint_points W d (write_points l x0 y0 packet repeat)).

Lemma cell_base c dx dy ch : 0 <= c < capacityCells l -> 0 <= dx < cellSize l -> 0 <= dy < cellSize l -> 0 <= ch < 3 ->
  pixel W d (cell_x l x0 c + dx) (cell_y l y0 c + dy) ch = base ch.
Proof.
  intros Hc Hdx Hdy Hch. destruct (cell_inside l width height x0 y0 Hl W H Hx0 Hy0 d c dx dy Hd Hc Hdx Hdy) as (Hx & Hy & Hin).
  apply Hbase; [done | | done]. split; [done |]. nia.
Qed.

Lemma image_pixel k dx dy ch : 0 <= k < capacityCells l -> 0 <= dx < cellSize l -> 0 <= dy < cellSize l -> 0 <= ch < 3 ->
  let c := permuteCellIndex l k in
  pixel W (image_data image) (cell_x l x0 c + dx) (cell_y l y0 c + dy) ch
  = inked base (ink packet repeat k) (polarity_of (kind_of c) dx dy (cellSize l)) ch.
Proof.
  intros Hk Hdx Hdy Hch c. pose proof (permute_range l width height k Hl) as Hc. fold c in Hc. unfold image. cbn [image_data].
  pose proof (written_cell l width height x0 y0 Hl W H Hx0 Hy0 packet repeat Hrep Hfit d k dx dy ch Hd Hk Hdx Hdy Hch) as E.
  cbv zeta in E. fold c in E. rewrite E. unfold inked, cell_delta. rewrite readCellPolarity_kind, (cell_base c) by done. reflexivity.
Qed.

Lemma score_of_ink k : 0 <= k < capacityCells l ->
  readBlockCellScore image x0 y0 l (permuteCellIndex l k)
  = kind_score base (cellSize l) (kind_of (permuteCellIndex l k)) (ink packet repeat k).
Proof.
  intros Hk. pose proof (fun dx dy ch => image_pixel k dx dy ch Hk) as Hv. cbv zeta in Hv.
  pose proof (lay_size _ _ _ Hl) as Hs. set (c := permuteCellIndex l k) in *. clearbody c.
  apply (cell_score_model image x0 y0 l c base); [lia |]. intros dx dy ch Hdx Hdy Hch. by apply Hv.
Qed.

Lemma read_bit_model r i : 0 < r -> 0 <= i -> (i + 1) * r <= capacityCells l ->
  read_bit image x0 y0 l r i = model_bit base l r (ink packet repeat) i.
Proof.
  intros Hr Hi Hf. unfold read_bit, model_bit. apply (f_equal (fun s => negb (negative s))), foldl_same. intros s rp Hrp%elem_of_seqZ. cbv zeta.
  f_equal. apply score_of_ink. nia.
Qed.
End Reading.

(** ** Extraction from one colour *)

Definition model_packet (base : Z -> Z) (l : RibbonBlockLayout) (ink : Z -> option bool) (repeat : Z) : bytes :=
  read_byte_of (model_bit base l repeat ink) <$> seqZ 0 (capacityCells l / repeat / 8).

Fixpoint model_frame (base : Z -> Z) (l : RibbonBlockLayout) (ink : Z -> option bool) (candidates : list Z) : result (option bytes) :=
  match candidates with
  | [] => Ok None
  | repeat :: rest =>
      let? frame := decodeBlockPacket (model_packet base l ink repeat) in
      match frame with Some frame => Ok (Some frame) | None => model_frame base l ink rest end
  end.

(** An image of one colour, of the full size of its region. *)
Definition one_colour (base : Z -> Z) (image : RibbonImageData) : Prop :=
  block_side (image_width image) = true /\ block_side (image_height image) = true
  /\ byteLength (image_data image) = image_width image * image_height image * 4
  /\ forall x y ch, 0 <= x < image_width image -> 0 <= y < image_height image -> 0 <= ch < 3 ->
       pixel (image_width image) (image_data image) x y ch = base ch.

Lemma full_region_integers image : region_integers (full_region image) = Some (0, 0, image_width image, image_height image).
Proof. done. Qed.

Lemma one_colour_fits base image : one_colour base image -> isValidImage image = true /\ regionFits image (full_region image) = true.
Proof.
  intros (Hw & Hh & Hb & _). unfold block_side in *. bool_props. unfold isValidImage, regionFits. rewrite full_region_integers, Hb, Z.eqb_refl.
  split; rewrite ?andb_true_iff; repeat split; first [apply Z.ltb_lt | apply Z.leb_le | idtac]; try lia.
Qed.

(** What is extracted from such an image depends on the layout, the colour and
    the packet only. *)
Lemma extract_model base image frame out : one_colour base image -> embedBlockPayload image frame (full_region image) = Ok out ->
  exists l packet repeat, makeBlockLayout (Int (image_width image)) (Int (image_height image)) = Ok l
    /\ encodeBlockPacket frame = Ok packet /\ selectRepeat (zlen packet * 8) (capacityCells l) = Ok repeat
    /\ extractBlockPayload out (full_region out) = model_frame base l (ink packet repeat) blockRepeatCandidates
    /\ image_width out = image_width image /\ image_height out = image_height image
    /\ byteLength (image_data out) = image_width image * image_height image * 4.
Proof.
  intros Hone He. destruct (one_colour_fits base image Hone) as [Hval Hfits]. destruct Hone as (Hw & Hh & Hlen & Hbase).
  unfold embedBlockPayload in He. rewrite full_region_integers, Hval, Hfits in He. cbn [negb orb] in He.
  destruct (makeBlockLayout _ _) as [l|] eqn:El; [|done]. destruct (makeBlockLayout_ok _ _ _ El) as (Hl & _ & _).
  destruct (writeBlockPayload _ _ _ _ _ _) as [d'|] eqn:Ew; [|done]. injection He as <-.
  destruct (writeBlockPayload_points l _ _ 0 0 Hl _ _ _ _ Ew) as (packet & repeat & Ep & Er & ->).
  destruct (selectRepeat_Ok _ _ _ Er) as [Hin Hfit].
  assert (Hrep : 0 < repeat) by (repeat (apply elem_of_cons in Hin as [->|Hin]; [lia |]); by apply elem_of_nil in Hin).
  exists l, packet, repeat. split_and!; try done; [|by cbn [image_data]; rewrite tint_points_length].
  unfold extractBlockPayload. rewrite full_region_integers. cbn [image_width image_height].
  assert (Hv2 : isValidImage (mkImage (image_width image) (image_height image)
    (tint_points (image_width image) (image_data image) (write_points l 0 0 packet repeat))) = true).
  { revert Hval. unfold isValidImage. cbn [image_width image_height image_data]. by rewrite tint_points_length. }
  rewrite Hv2. change (regionFits (mkImage _ _ _) (full_region (mkImage _ _ _))) with (regionFits image (full_region image)). rewrite Hfits.
  cbn [negb orb]. rewrite El.
  assert (Hcand : forall r, r ∈ blockRepeatCandidates -> 0 < r).
  { intros r Hr. repeat (apply elem_of_cons in Hr as [->|Hr]; [lia |]). by apply elem_of_nil in Hr. }
  clear Hin. induction blockRepeatCandidates as [|r rs IH]; [done |]. cbn [first_frame model_frame]. pose proof (Hcand r ltac:(by left)) as Hr.
  assert (E : readRepeatedPacket (mkImage (image_width image) (image_height image)
      (tint_points (image_width image) (image_data image) (write_points l 0 0 packet repeat))) 0 0 l r = model_packet base l (ink packet repeat) r).
  { unfold readRepeatedPacket, model_packet. cbv zeta. apply list_fmap_ext. intros _ i Hi%list_elem_of_lookup_2%elem_of_seqZ.
    unfold read_byte_of. apply foldl_same. intros b k Hk%elem_of_seqZ.
    pose proof (Z.mul_div_le (capacityCells l / r) 8 ltac:(lia)). pose proof (Z.mul_div_le (capacityCells l) r ltac:(lia)).
    rewrite (read_bit_model l (image_width image) (image_height image) 0 0 (image_width image) (image_height image) Hl
      ltac:(lia) ltac:(lia) base (image_data image) Hlen Hbase packet repeat Hrep Hfit r (i * 8 + k)); [done | done | lia |]. nia. }
  rewrite E. destruct (decodeBlockPacket _) as [[f|]|]; try done. apply IH. intros r' Hr'. apply Hcand. by right.
Qed.

(** ** The source image of a carrier *)

#[export] Instance spec_float_eq_dec : EqDecision spec_float.
Proof. solve_decision. Defined.

Definition carrier_layout : RibbonBlockLayout := mkLayout 0 2 8 125 187 23375 4093.

Lemma carrier_layout_spec : makeBlockLayout (Int 1000) (Int 1500) = Ok carrier_layout.
Proof. closed. Qed.

(** The scores of the four masks: no bit, zero, one. *)
Definition mask_scores : list (list spec_float) :=
  Eval vm_compute in (fun kind => kind_score blank_pixel 8 kind <$> [None; Some false; Some true]) <$> [0; 1; 2; 3].

Definition mask_score (kind : Z) (i : option bool) : spec_float :=
  default float_zero (default [] (mask_scores !! Z.to_nat kind) !! match i with None => 0%nat | Some false => 1%nat | Some true => 2%nat end).

Lemma kind_of_range c : kind_of c ∈ [0; 1; 2; 3].
Proof.
  unfold kind_of. change 3 with (Z.ones 2) at 1. rewrite js_and_ones by lia. pose proof (Z.mod_pos_bound (hashCell c) (2 ^ 2) ltac:(lia)) as H.
  set (v := hashCell c mod 2 ^ 2) in *. clearbody v. change (2 ^ 2) with 4 in H.
  assert (v = 0 \/ v = 1 \/ v = 2 \/ v = 3) as [->|[->|[->| ->]]] by lia; repeat (first [by left | right]).
Qed.

Lemma mask_score_spec kind i : kind ∈ [0; 1; 2; 3] -> kind_score blank_pixel 8 kind i = mask_score kind i.
Proof.
  intros H. repeat (apply elem_of_cons in H as [->|H]; [destruct i as [[]|]; closed |]). by apply elem_of_nil in H.
Qed.

(** The sums of [n] scores of one bit, in any order of the masks. *)
Fixpoint sums (bit : bool) (n : nat) : list spec_float :=
  match n with
  | O => [float_zero]
  | S n => remove_dups (sums bit n ≫= fun s => (fun kind => float_add s (mask_score kind (Some bit))) <$> [0; 1; 2; 3])
  end.

Lemma sums_reach bit kinds : Forall (fun kind => kind ∈ [0; 1; 2; 3]) kinds ->
  foldl (fun s kind => float_add s (mask_score kind (Some bit))) float_zero kinds ∈ sums bit (length kinds).
Proof.
  induction kinds as [|kind kinds IH] using rev_ind; intros H; [by left |]. apply Forall_app in H as [H Hk]. rewrite Forall_singleton in Hk.
  rewrite foldl_snoc, length_app, Nat.add_1_r. cbn [sums]. apply elem_of_remove_dups, list_elem_of_bind. eexists. split; [|by apply IH].
  apply list_elem_of_fmap. by exists kind.
Qed.

Lemma sums_sign bit r s : r ∈ blockRepeatCandidates -> s ∈ sums bit (Z.to_nat r) -> negative s = negb bit.
Proof.
  intros Hr Hs. assert (H : forallb (fun r => forallb (fun b => forallb (fun s => eqb (negative s) (negb b)) (sums b (Z.to_nat r))) [true; false])
    blockRepeatCandidates = true) by closed.
  rewrite forallb_forall in H. specialize (H r ltac:(by apply list_elem_of_In)). rewrite forallb_forall in H.
  specialize (H bit ltac:(destruct bit; cbn; tauto)). rewrite forallb_forall in H. by apply eqb_prop, H, list_elem_of_In.
Qed.

(** Cells that carry one bit are read as that bit. *)
Lemma uniform_bit l repeat ink i bit : cellSize l = 8 -> repeat ∈ blockRepeatCandidates -> 0 < repeat ->
  (forall k, i * repeat <= k < i * repeat + repeat -> ink k = Some bit) -> model_bit blank_pixel l repeat ink i = bit.
Proof.
  intros Hs Hr Hpos Hink. unfold model_bit.
  rewrite (foldl_same _ (fun s rp => float_add s (mask_score (kind_of (permuteCellIndex l (i * repeat + rp))) (Some bit)))).
  - rewrite <- (foldl_fmap (fun s kind => float_add s (mask_score kind (Some bit))) float_zero (seqZ 0 repeat)
      (fun rp => kind_of (permuteCellIndex l (i * repeat + rp)))).
    rewrite (sums_sign bit repeat); [by rewrite negb_involutive | done |].
    replace (Z.to_nat repeat) with (length ((fun rp => kind_of (permuteCellIndex l (i * repeat + rp))) <$> seqZ 0 repeat))
      by (rewrite length_fmap, length_seqZ; done).
    apply sums_reach, Forall_fmap, Forall_forall. intros rp _. apply kind_of_range.
  - intros s rp Hrp%elem_of_seqZ. cbv zeta. rewrite Hs, Hink by lia. rewrite mask_score_spec by apply kind_of_range. done.
Qed.

Lemma true_repeat l packet repeat : bytes_ok packet -> cellSize l = 8 -> repeat ∈ blockRepeatCandidates -> 0 < repeat ->
  zlen packet * 8 * repeat <= capacityCells l -> exists rest, model_packet blank_pixel l (ink packet repeat) repeat = packet ++ rest.
Proof.
  intros Hok Hs Hr Hpos Hfit. pose proof (zlen_nonneg packet).
  assert (Hn : zlen packet <= capacityCells l / repeat / 8) by (apply Z.div_le_lower_bound; [lia |]; apply Z.div_le_lower_bound; lia).
  unfold model_packet. set (f := read_byte_of _).
  replace (capacityCells l / repeat / 8) with (zlen packet + (capacityCells l / repeat / 8 - zlen packet)) by lia.
  rewrite seqZ_app by lia. rewrite fmap_app. eexists. f_equal. apply list_eq. intros j. rewrite list_lookup_fmap.
  destruct (decide (j < length packet)%nat) as [Hj|Hj].
  - rewrite lookup_seqZ_lt by (unfold zlen; lia). cbn. destruct (packet !! j) as [v|] eqn:E; [|apply lookup_ge_None in E; lia]. f_equal.
    unfold f. rewrite (read_packet_byte packet _ (0 + Z.of_nat j) Hok); [|unfold zlen; lia |].
    + unfold byte_at. rewrite Z.add_0_l, Nat2Z.id, E. done.
    + intros k Hk. apply uniform_bit; [done.. |]. intros q Hq. unfold ink. unfold zlen in *.
      assert (Hb : 0 <= (0 + Z.of_nat j) * 8 + k < Z.of_nat (length packet) * 8) by lia. set (bi := (0 + Z.of_nat j) * 8 + k) in *. clearbody bi.
      destruct (Z.ltb_spec q (Z.of_nat (length packet) * 8 * repeat)) as [_|]; [|nia]. do 2 f_equal.
      symmetry. apply (Z.div_unique _ _ _ (q - bi * repeat)); lia.
  - rewrite lookup_seqZ_ge by (unfold zlen; lia). cbn. symmetry. apply lookup_ge_None. lia.
Qed.

(** ** Wrong repeat factors *)

Definition magic_bit (j : Z) : bool := packet_bit blockMagic j.

(** The bits of the magic written with factor [r] and read with [r']. *)
Definition magic_read (r r' j : Z) : bool := model_bit blank_pixel carrier_layout r' (fun k => Some (magic_bit (k / r))) j.

Definition fast_read (r r' j : Z) : bool :=
  negb (negative (foldl (fun s rp => float_add s (mask_score (kind_of (permuteCellIndex carrier_layout (j * r' + rp)))
                                                   (Some (magic_bit ((j * r' + rp) / r))))) float_zero (seqZ 0 r'))).

Lemma fast_read_spec r r' j : magic_read r r' j = fast_read r r' j.
Proof.
  unfold magic_read, fast_read, model_bit. apply (f_equal (fun s => negb (negative s))), foldl_same. intros s rp _. cbv zeta.
  rewrite <- mask_score_spec by apply kind_of_range. done.
Qed.

Definition misread (r r' : Z) : bool :=
  existsb (fun j => ((j + 1) * r' <=? 48 * r) && negb (eqb (fast_read r r' j) (magic_bit j))) (seqZ 0 48).

Lemma larger_misread r r' : r ∈ blockRepeatCandidates -> r' ∈ blockRepeatCandidates -> r < r' -> misread r r' = true.
Proof.
  assert (H : forallb (fun r => forallb (fun r' => (r' <=? r) || misread r r') blockRepeatCandidates) blockRepeatCandidates = true) by closed.
  intros Hr Hr' Hlt. rewrite forallb_forall in H. specialize (H r ltac:(by apply list_elem_of_In)).
  rewrite forallb_forall in H. specialize (H r' ltac:(by apply list_elem_of_In)). apply orb_prop in H as [H|H]; [|done].
  apply Z.leb_le in H. lia.
Qed.

Lemma magic_starts packet rest j : packet = blockMagic ++ rest -> 0 <= j < 48 -> packet_bit packet j = magic_bit j.
Proof.
  intros -> Hj. unfold magic_bit, packet_bit, byte_at. rewrite lookup_app_l; [done |]. cbn.
  assert (0 <= j / 8 < 6) by (split; [apply Z.div_pos; lia | apply Z.div_lt_upper_bound; lia]). lia.
Qed.

Lemma magic_range j v : blockMagic !! j = Some v -> v ∈ seqZ 0 256.
Proof.
  intros H%list_elem_of_lookup_2. apply elem_of_seqZ. unfold blockMagic in H.
  repeat (apply elem_of_cons in H as [->|H]; [lia |]). by apply elem_of_nil in H.
Qed.

(** A packet read with a larger factor than it was written with has no magic. *)
Lemma wrong_repeat packet rest r r' : packet = blockMagic ++ rest -> r ∈ blockRepeatCandidates -> 0 < r -> r' ∈ blockRepeatCandidates -> r < r' ->
  decodeBlockPacket (model_packet blank_pixel carrier_layout (ink packet r) r') = Ok None.
Proof.
  intros Hp Hr Hpos Hr' Hlt. pose proof (larger_misread r r' Hr Hr' Hlt) as Hm. unfold misread in Hm. apply existsb_exists in Hm as (j & Hj & Hm).
  apply list_elem_of_In, elem_of_seqZ in Hj. apply andb_true_iff in Hm as [Hle Hne]. apply Z.leb_le in Hle.
  rewrite <- fast_read_spec in Hne. unfold decodeBlockPacket. destruct (_ <? _); [done |].
  destruct (has_magic blockMagic _) eqn:Em; [|done]. exfalso. apply has_magic_split in Em as [k Ek].
  assert (Hbit : model_bit blank_pixel carrier_layout r' (ink packet r) j = magic_read r r' j).
  { unfold magic_read. apply model_bit_ext. intros q Hqr. assert (Hq : 0 <= q < 48 * r) by nia.
    assert (Hd : 0 <= q / r < 48) by (split; [apply Z.div_pos; lia | apply Z.div_lt_upper_bound; lia]).
    unfold ink. rewrite (magic_starts packet rest) by done. destruct (Z.ltb_spec q (zlen packet * 8 * r)) as [_|Hge]; [done |].
    rewrite Hp, zlen_app in Hge. change (zlen blockMagic) with 6 in Hge. pose proof (zlen_nonneg rest). nia. }
  assert (Hj8 : 0 <= j / 8 < 6) by (split; [apply Z.div_pos; lia | apply Z.div_lt_upper_bound; lia]).
  assert (Hv : model_packet blank_pixel carrier_layout (ink packet r) r' !! Z.to_nat (j / 8) = blockMagic !! Z.to_nat (j / 8))
    by (rewrite Ek, lookup_app_l; [done | cbn; lia]).
  unfold model_packet in Hv. rewrite list_lookup_fmap in Hv.
  destruct (seqZ 0 (capacityCells carrier_layout / r' / 8) !! Z.to_nat (j / 8)) as [i|] eqn:Ei; [|apply lookup_ge_None in Ei; cbn in Hv;
    symmetry in Hv; apply lookup_ge_None in Hv; cbn in Hv; lia].
  apply lookup_seqZ in Ei as [Ei _]. rewrite Z2Nat.id, Z.add_0_l in Ei by lia. cbn in Hv.
  set (f := model_bit blank_pixel carrier_layout r' (ink packet r)) in *. pose proof (Z.div_mod j 8 ltac:(lia)) as Edm.
  pose proof (Z.mod_pos_bound j 8 ltac:(lia)) as Hm8.
  destruct (blockMagic !! Z.to_nat (j / 8)) as [v|] eqn:Ev; [|done]. injection Hv as Hv.
  rewrite (read_byte_of_ext f (fun k => f (i * 8 + k)) i) in Hv by done.
  pose proof (magic_range _ _ Ev) as Hvr.
  pose proof (bits_determine (fun k => f (i * 8 + k)) v Hvr Hv (j mod 8) Hm8) as Hb. cbv beta in Hb.
  replace (i * 8 + j mod 8) with j in Hb by lia. rewrite Hbit in Hb. rewrite Hb in Hne. unfold magic_bit, packet_bit, byte_at in Hne.
  rewrite Ev in Hne. cbn [default] in Hne. rewrite Z.mod_mod in Hne by lia. rewrite eqb_reflx in Hne. discriminate Hne.
Qed.

Lemma carrier_frame packet rest repeat frame : packet = blockMagic ++ rest -> bytes_ok packet -> encodeBlockPacket frame = Ok packet -> frame <> [] ->
  selectRepeat (zlen packet * 8) (capacityCells carrier_layout) = Ok repeat ->
  model_frame blank_pixel carrier_layout (ink packet repeat) blockRepeatCandidates = Ok (Some frame).
Proof.
  intros Hp Hok He Hne Hr. destruct (selectRepeat_Ok _ _ _ Hr) as [Hin Hfit].
  assert (Hord : forall pre post, blockRepeatCandidates = pre ++ repeat :: post -> (forall r', r' ∈ pre -> repeat < r') -> 0 < repeat ->
    model_frame blank_pixel carrier_layout (ink packet repeat) blockRepeatCandidates = Ok (Some frame)).
  { intros pre post E Hpre Hpos. assert (Hsub : forall r', r' ∈ pre -> r' ∈ blockRepeatCandidates) by (intros r' H'; rewrite E; apply elem_of_app; by left).
    destruct (true_repeat carrier_layout packet repeat Hok ltac:(done) Hin Hpos Hfit) as [tail Etail].
    rewrite E. clear E. induction pre as [|r' pre IH]; cbn [app model_frame].
    - rewrite Etail, (block_packet_decodes frame packet tail Hne He). done.
    - rewrite (wrong_repeat packet rest repeat r' Hp Hin Hpos); [| apply Hsub; by left | apply Hpre; by left].
      apply IH; intros r2 H2; [apply Hpre | apply Hsub]; by right. }
  clear Hr Hfit. unfold blockRepeatCandidates in Hin.
  assert (Hlt : forall pre r, Forall (fun r' => r < r') pre -> forall r', r' ∈ pre -> r < r') by (intros pre r H; by rewrite Forall_forall in H).
  repeat (apply elem_of_cons in Hin as [->|Hin]); [| | | | | |by apply elem_of_nil in Hin].
  - by apply (Hord [] [11; 7; 5; 3; 1]); [| intros ? ?%elem_of_nil |].
  - apply (Hord [15] [7; 5; 3; 1]); [done | apply Hlt; repeat constructor; lia | lia].
  - apply (Hord [15; 11] [5; 3; 1]); [done | apply Hlt; repeat constructor; lia | lia].
  - apply (Hord [15; 11; 7] [3; 1]); [done | apply Hlt; repeat constructor; lia | lia].
  - apply (Hord [15; 11; 7; 5] [1]); [done | apply Hlt; repeat constructor; lia | lia].
  - apply (Hord [15; 11; 7; 5; 3] []); [done | apply Hlt; repeat constructor; lia | lia].
Qed.
