(* ===== verification/RibbonCarrier.v ===== *)
(** * Carriers from end to end, and the covers that lose their bits *)
From Stdlib Require Import SpecFloat.
From S2P Require Import Prelude JsRuntime Collections Ribbon RibbonFrames RibbonPixels RibbonRoundTrip.

(** ** The blank image *)

Definition blank_step (d : Pixels) (index : Z) : Pixels :=
  set_byte (set_byte (set_byte (set_byte d (index * 4) 7) (index * 4 + 1) 17) (index * 4 + 2) 29) (index * 4 + 3) 255.

Lemma blank_step_get d i j ch : 0 <= i -> i * 4 + 3 < byteLength d -> 0 <= ch < 4 ->
  get_byte (blank_step d i) (j * 4 + ch) = if decide (j = i) then blank_pixel ch else get_byte d (j * 4 + ch).
Proof.
  intros Hi Hl Hch. unfold blank_step. rewrite !get_set_byte by (rewrite ?set_byte_length; lia).
  assert (ch = 0 \/ ch = 1 \/ ch = 2 \/ ch = 3) as [->|[->|[->| ->]]] by lia; repeat case_decide; try lia; reflexivity.
Qed.

Lemma blank_loop l d j ch : Forall (fun i => 0 <= i /\ i * 4 + 3 < byteLength d) l -> 0 <= ch < 4 ->
  j ∈ l \/ get_byte d (j * 4 + ch) = blank_pixel ch ->
  byteLength (foldl blank_step d l) = byteLength d /\ get_byte (foldl blank_step d l) (j * 4 + ch) = blank_pixel ch.
Proof.
  revert d. induction l as [|i l IH]; intros d Hl Hch Hj.
  - split; [done |]. destruct Hj as [Hj|Hj]; [by apply elem_of_nil in Hj | done].
  - apply Forall_cons in Hl as [[Hi Hil] Hl]. cbn [foldl].
    assert (E : byteLength (blank_step d i) = byteLength d) by (unfold blank_step; by rewrite !set_byte_length).
    rewrite <- E. apply IH; [by rewrite E | done |]. rewrite blank_step_get by done.
    case_decide as Ed; [by right |]. destruct Hj as [Hj|Hj]; [|by right]. apply elem_of_cons in Hj as [->|Hj]; [done | by left].
Qed.

Lemma blank_one_colour w h : block_side w = true -> block_side h = true -> one_colour blank_pixel (makeBlankRibbonImage w h).
Proof.
  intros Hw Hh. unfold one_colour, makeBlankRibbonImage. cbn [image_width image_height image_data].
  change (foldl _ (mkPixels (w * h * 4) ∅) (seqZ 0 (w * h))) with (foldl blank_step (mkPixels (w * h * 4) ∅) (seqZ 0 (w * h))).
  unfold block_side in *. bool_props.
  assert (Hall : Forall (fun i => 0 <= i /\ i * 4 + 3 < byteLength (mkPixels (w * h * 4) ∅)) (seqZ 0 (w * h))).
  { apply Forall_forall. intros i Hi%elem_of_seqZ. cbn [byteLength]. lia. }
  split_and!; [lia | lia | |].
  - destruct (blank_loop (seqZ 0 (w * h)) (mkPixels (w * h * 4) ∅) 0 0 Hall ltac:(lia)) as [E _]; [|exact E].
    left. apply elem_of_seqZ. nia.
  - intros x y ch Hx Hy Hch. unfold pixel.
    apply (blank_loop (seqZ 0 (w * h)) (mkPixels (w * h * 4) ∅) (y * w + x) ch Hall ltac:(lia)). left. apply elem_of_seqZ. nia.
Qed.

(** ** The carrier of a wrapper *)

Lemma packet_magic frame packet : encodeBlockPacket frame = Ok packet -> exists rest, packet = blockMagic ++ rest.
Proof.
  intros H. destruct (encodeBlockPacket_length frame packet H) as [_ Hl]. destruct (encodeBlockPacket_Ok frame Hl) as (crc & _ & _ & E).
  rewrite H in E. injection E as ->. eexists. reflexivity.
Qed.

Lemma packet_ok frame packet : bytes_ok frame -> encodeBlockPacket frame = Ok packet -> bytes_ok packet.
Proof.
  intros Hf H. destruct (encodeBlockPacket_length frame packet H) as [_ Hl]. destruct (encodeBlockPacket_Ok frame Hl) as (crc & _ & _ & E).
  rewrite H in E. assert (packet = blockMagic ++ [blockVersion] ++ length_bytes (zlen frame) ++ frame ++ uint32BE crc) as -> by congruence.
  rewrite !bytes_ok_app. split_and!; [| | |done | apply uint32BE_ok].
  - unfold bytes_ok, blockMagic. repeat constructor; done.
  - unfold bytes_ok, blockVersion. repeat constructor; done.
  - unfold length_bytes. rewrite !js_and_255. repeat constructor; apply Z.mod_pos_bound; lia.
Qed.

Lemma frame_ok payload frame : bytes_ok payload -> encodeRibbonFrame payload = Ok frame -> bytes_ok frame /\ frame <> [].
Proof.
  intros Hp H. destruct (encodeRibbonFrame_length payload frame H) as [Hlen Hl].
  split; [|intros ->; rewrite zlen_nil in Hlen; pose proof (zlen_nonneg payload); lia].
  destruct (encodeRibbonFrame_Ok payload Hl) as (crc & _ & _ & E). assert (frame = frame_head (zlen payload) ++ payload ++ uint32BE crc) as -> by congruence.
  rewrite !bytes_ok_app. split_and!; [| done | apply uint32BE_ok]. unfold frame_head. rewrite !bytes_ok_app. split_and!.
  - unfold bytes_ok, ribbonMagic. repeat constructor; done.
  - repeat constructor; done.
  - by apply utf8_encode_ok.
  - repeat constructor; done.
  - unfold length_bytes. rewrite !js_and_255. repeat constructor; apply Z.mod_pos_bound; lia.
Qed.

(** Any frame that fits is read back from the source image. *)
Lemma carrier_extracts source frame out : one_colour blank_pixel source -> image_width source = 1000 -> image_height source = 1500 ->
  bytes_ok frame -> frame <> [] -> embedBlockPayload source frame (full_region source) = Ok out ->
  extractBlockPayload out (full_region out) = Ok (Some frame).
Proof.
  intros Hone Hw Hh Hok Hne He. destruct (extract_model _ _ _ _ Hone He) as (l & packet & repeat & El & Ep & Er & -> & _).
  rewrite Hw, Hh, carrier_layout_spec in El. assert (l = carrier_layout) as -> by congruence.
  destruct (packet_magic frame packet Ep) as [rest Hp]. apply (carrier_frame packet rest repeat frame); try done. by apply (packet_ok frame).
Qed.

Lemma embed_fits source frame : one_colour blank_pixel source -> image_width source = 1000 -> image_height source = 1500 ->
  (zlen frame + 13) * 8 <= 23375 -> exists out, embedBlockPayload source frame (full_region source) = Ok out.
Proof.
  intros Hone Hw Hh Hl. destruct (one_colour_fits _ _ Hone) as [Hval Hfits]. unfold embedBlockPayload.
  rewrite full_region_integers, Hval, Hfits, Hw, Hh, carrier_layout_spec. cbn [negb orb]. unfold writeBlockPayload.
  destruct (encodeBlockPacket_Ok frame ltac:(lia)) as (crc & _ & _ & E). destruct (encodeBlockPacket frame) as [packet|] eqn:Ep; [|done].
  destruct (encodeBlockPacket_length frame packet Ep) as [Hlp _]. cbv zeta. rewrite Hlp.
  assert (Hr : exists r, selectRepeat ((zlen frame + 13) * 8) (capacityCells carrier_layout) = Ok r).
  { unfold selectRepeat. destruct (filter _ blockRepeatCandidates) as [|r rs] eqn:Ef; [|by exists r]. exfalso.
    assert (Hin : 1 ∈ filter (fun repeat => (zlen frame + 13) * 8 * repeat <= capacityCells carrier_layout) blockRepeatCandidates).
    { apply list_elem_of_filter. split; [cbn [capacityCells carrier_layout]; lia |]. unfold blockRepeatCandidates. do 5 right. by left. }
    rewrite Ef in Hin. by apply elem_of_nil in Hin. }
  destruct Hr as [r ->]. rewrite (loop_total _ (fun d bi => tint_points 1000 d
    (seqZ 0 r ≫= fun rp => cell_points carrier_layout 0 0 (permuteCellIndex carrier_layout (bi * r + rp)) (packet_bit packet bi)))).
  - eexists. reflexivity.
  - intros d bi _. rewrite tint_points_bind. apply loop_total. intros d2 rp _. apply tintBlockCell_points.
    destruct (makeBlockLayout_ok _ _ _ carrier_layout_spec) as (Hlay & _). apply (permute_range _ _ _ _ Hlay).
Qed.

(** C27: a wrapper comes back from its carrier image.  For every well-formed
    wrapper with the prefix BRANCH0. of at most 768 bytes, a carrier is
    generated on the blank source image, and decoding that image accepts the
    frame and returns the wrapper: the bits survive the tinting with its
    clamping, the permutation, the floating-point scores and the search for the
    repeat factor, and no larger factor yields another frame first. *)
Theorem ribbon_carrier_roundtrip wrapper
    (Hprefix : starts_with wrapper branchWrapperPrefix = true) (Hplain : plain_text wrapper = true)
    (Hsize : text_bytes wrapper <= maxRibbonPayloadBytes) :
  exists frame image, generateRibbonCarrier wrapper = Ok (frame, image)
    /\ decodeRibbonFrame frame = Ok (beacon_accepted ribbonPayloadKindBranchWrapper (utf8_encode wrapper))
    /\ decodeRibbonImage image None = Ok (block_decoded, wrapper, Some (full_region image)).
Proof.
  unfold text_bytes in Hsize. set (payload := utf8_encode wrapper) in *.
  assert (Hwf : well_formed wrapper = true) by (unfold plain_text in Hplain; by apply andb_prop in Hplain as [? _]).
  assert (Hpok : bytes_ok payload) by (by apply utf8_encode_ok).
  assert (Hdec : decodeUTF8 payload = wrapper) by (unfold decodeUTF8, payload; by rewrite utf8_decode_encode).
  destruct (encodeRibbonFrame_Ok payload Hsize) as (crc & _ & _ & _). destruct (encodeRibbonFrame payload) as [frame|] eqn:Ef.
  2: { destruct (encodeRibbonFrame_Ok payload Hsize) as (? & _ & _ & E). congruence. }
  destruct (frame_ok payload frame Hpok Ef) as [Hfok Hfne]. destruct (encodeRibbonFrame_length payload frame Ef) as [Hfl _].
  pose proof (blank_one_colour 1000 1500 eq_refl eq_refl) as Hone.
  assert (Hw : image_width (makeBlankRibbonImage 1000 1500) = 1000) by reflexivity.
  assert (Hh : image_height (makeBlankRibbonImage 1000 1500) = 1500) by reflexivity.
  unfold generateRibbonCarrier, carrier_of. set (source := makeBlankRibbonImage 1000 1500) in *. clearbody source.
  destruct (embed_fits source frame Hone Hw Hh) as [image He]; [unfold maxRibbonPayloadBytes in Hsize; lia |].
  exists frame, image. unfold branchWrapperBytes. rewrite Hprefix. fold payload. rewrite Ef, He.
  pose proof (ribbon_frame_decodes payload frame Ef ltac:(by rewrite Hdec)) as Hframe. split_and!; [done | exact Hframe |].
  destruct (extract_model _ _ _ _ Hone He) as (_ & _ & _ & _ & _ & _ & _ & Ew & Eh & Eb).
  unfold decodeRibbonImage. replace (validateImageData image (default defaultMaxInputPixels None)) with (@None RibbonDecodeStatus).
  - cbv zeta. rewrite (carrier_extracts source frame image) by done. rewrite Hframe. unfold decodePayload. by rewrite Hdec.
  - unfold validateImageData. rewrite Eb, Ew, Eh, Hw, Hh. reflexivity.
Qed.

Definition sample_wrapper : jsstring := js "BRANCH0.AQIDBA".

Lemma ribbon_carrier_roundtrip_witness :
  exists frame image, generateRibbonCarrier sample_wrapper = Ok (frame, image)
    /\ decodeRibbonFrame frame = Ok (beacon_accepted ribbonPayloadKindBranchWrapper (utf8_encode sample_wrapper))
    /\ decodeRibbonImage image None = Ok (block_decoded, sample_wrapper, Some (full_region image)).
Proof. apply (ribbon_carrier_roundtrip sample_wrapper); [reflexivity | reflexivity | vm_compute; discriminate]. Defined.

(** ** What gets lost *)

(** The fourth mask is not balanced where it is read: 21 pixels against 15. *)
Example mask_unbalanced :
  let inner := seqZ (cell_margin 8) (8 - 2 * cell_margin 8) in
  foldl (fun s y => foldl (fun s x => s + polarity_of 3 x y 8) s inner) 0 inner = 6.
Proof. closed. Qed.

Definition cover_layout : RibbonBlockLayout := mkLayout 1 1 6 21 21 441 4093.

Definition cover_packet : bytes := Eval vm_compute in match encodeBlockPacket [1; 2; 3] with Ok packet => packet | Throw _ => [] end.

(** So the brightness of the cover counts as signal: on a white cover a frame
    that fits is embedded and not found again. *)
Lemma white_cover_loses image out : one_colour (fun _ => 255) image -> image_width image = 128 -> image_height image = 128 ->
  embedBlockPayload image [1; 2; 3] (full_region image) = Ok out -> extractBlockPayload out (full_region out) = Ok None.
Proof.
  intros Hone Hw Hh He. destruct (extract_model _ _ _ _ Hone He) as (l & packet & repeat & El & Ep & Er & -> & _).
  rewrite Hw, Hh in El. assert (E1 : makeBlockLayout (Int 128) (Int 128) = Ok cover_layout) by closed.
  assert (E2 : encodeBlockPacket [1; 2; 3] = Ok cover_packet) by closed. assert (l = cover_layout) as -> by congruence.
  assert (packet = cover_packet) as -> by congruence. assert (E3 : selectRepeat (zlen cover_packet * 8) (capacityCells cover_layout) = Ok 3) by closed.
  assert (repeat = 3) as -> by congruence. closed.
Qed.

(** An empty frame is embedded as a packet that no reader accepts. *)
Example empty_frame_lost :
  (let? packet := encodeBlockPacket [] in decodeBlockPacket packet) = Ok None /\ is_ok (encodeBlockPacket []) = true.
Proof. split; closed. Qed.

(** A profile name after a byte order mark is accepted too. *)
Definition marked_frame : bytes :=
  let payload := utf8_encode sample_wrapper in
  let profile := [0xEF; 0xBB; 0xBF] ++ utf8_encode ribbonBlockProfile in
  match crc32c payload with
  | Ok crc => ribbonMagic ++ [zlen profile] ++ profile ++ [1] ++ length_bytes (zlen payload) ++ payload ++ uint32BE crc
  | Throw _ => []
  end.

Example marked_profile_accepted :
  decodeRibbonFrame marked_frame = Ok (beacon_accepted 1 (utf8_encode sample_wrapper))
  /\ encodeRibbonFrame (utf8_encode sample_wrapper) <> Ok marked_frame.
Proof. split; [closed | intros H; vm_compute in H; discriminate H]. Qed.
