(* ===== verification/Receipts.v ===== *)
(** * [pwa/src/connectivity/delivery-receipt-control.ts]: delivery receipts

    The two bodies, their descriptors and the endpoint's two tables.  Every call
    is cut at its awaits: signing, sending and verifying settle as events of
    their own, in any order.  Keys, signatures and the network are answers of
    those events. *)
From S2P Require Import Prelude JsRuntime Collections Base64Url Cbor Records Json ApplicationControl ApplicationControlFacts.

Definition deliveryReceiptControlKind : jsstring := js "branch.pwa.receipt/0.draft".
Definition readAcceptedControlKind : jsstring := js "branch.pwa.read-accepted/0.draft".
Definition deliveryReceiptControlTTLms : Z := 5 * 60000.
Definition maxReplayEntries : Z := 128.
Definition maxBodyBytes : Z := 64.
Definition receiptClockSkewMs : Z := 1000.

(** ** Bodies *)

Module Receipt.
Record DeliveryReceiptBody := mk { kind : jsstring; targetDeliveryId : jsstring }.
End Receipt.
Abbreviation DeliveryReceiptBody := Receipt.DeliveryReceiptBody.

Definition validReceiptKind (value : jsstring) : bool := str_eqb value (js "delivered") || str_eqb value (js "read").

Definition validDeliveryId (value : jsstring) : bool := validToken value 16.

Definition receiptKeys : list jsstring := [js "receipt_kind"; js "target_delivery_id"].
Definition readAcceptedKeys : list jsstring := [js "target_delivery_id"].

Definition encodeReceiptBody (value : DeliveryReceiptBody) : result bytes :=
  if negb (validReceiptKind (Receipt.kind value)) || negb (validDeliveryId (Receipt.targetDeliveryId value))
  then Throw (js "invalid receipt body")
  else
    let? target := decodeBase64URL (Receipt.targetDeliveryId value) in
    encodeDeterministicCbor (CMap [(js "receipt_kind", CText (Receipt.kind value)); (js "target_delivery_id", CBytes target)]).

Definition read_receipt (map : CborMap) : result DeliveryReceiptBody :=
  let? kind := text_field map (js "receipt_kind") in
  let? target := token_field map (js "target_delivery_id") 16 in
  if negb (validReceiptKind kind) then Throw (js "invalid receipt kind") else Ok (Receipt.mk kind target).

Definition decodeReceiptBody (b : bytes) : result DeliveryReceiptBody :=
  if (zlen b =? 0) || (maxBodyBytes <? zlen b) then Throw (js "invalid receipt body")
  else
    let? decoded := decodeDeterministicCbor b maxBodyBytes in
    let? map := readCborMap decoded (js "receipt") in
    let? _ := rejectUnknownEntries map receiptKeys in
    read_receipt map.

(** The body of a read-accepted control is its target. *)
Definition encodeReadAcceptedBody (value : jsstring) : result bytes :=
  if negb (validDeliveryId value) then Throw (js "invalid read accepted body")
  else
    let? target := decodeBase64URL value in
    encodeDeterministicCbor (CMap [(js "target_delivery_id", CBytes target)]).

Definition read_read_accepted (map : CborMap) : result jsstring := token_field map (js "target_delivery_id") 16.

Definition decodeReadAcceptedBody (b : bytes) : result jsstring :=
  if (zlen b =? 0) || (maxBodyBytes <? zlen b) then Throw (js "invalid read accepted body")
  else
    let? decoded := decodeDeterministicCbor b maxBodyBytes in
    let? map := readCborMap decoded (js "read accepted") in
    let? _ := rejectUnknownEntries map readAcceptedKeys in
    read_read_accepted map.

Definition deliveryReceiptControlDescriptor : ApplicationControlDescriptor (Body := DeliveryReceiptBody) :=
  mkControlDescriptor deliveryReceiptControlKind auth_ed25519 (Int deliveryReceiptControlTTLms) proj_message_metadata
    [k_message_metadata] decodeReceiptBody encodeReceiptBody
    (fun _ body => Ok [e_message_metadata (Receipt.targetDeliveryId body) (Receipt.kind body)]).

Definition readAcceptedControlDescriptor : ApplicationControlDescriptor (Body := jsstring) :=
  mkControlDescriptor readAcceptedControlKind auth_ed25519 (Int deliveryReceiptControlTTLms) proj_message_metadata
    [k_message_metadata] decodeReadAcceptedBody encodeReadAcceptedBody
    (fun _ body => Ok [e_message_metadata body (js "read_accepted")]).

(** What [createApplicationControlRegistry] returns for one descriptor. *)
Definition receiptRegistry : list (jsstring * ApplicationControlDescriptor (Body := DeliveryReceiptBody)) :=
  [(deliveryReceiptControlKind, deliveryReceiptControlDescriptor)].
Definition readAcceptedRegistry : list (jsstring * ApplicationControlDescriptor (Body := jsstring)) :=
  [(readAcceptedControlKind, readAcceptedControlDescriptor)].

Lemma receipt_registries :
  createApplicationControlRegistry [deliveryReceiptControlDescriptor] = Ok receiptRegistry
  /\ createApplicationControlRegistry [readAcceptedControlDescriptor] = Ok readAcceptedRegistry.
Proof. split; reflexivity. Qed.

(** ** The tables *)

Abbreviation Expiries := (list (jsstring * Z)).

Lemma expiries_remember (m : Expiries) id expiresAt : map_has (map_set m id expiresAt) id = true.
Proof. unfold map_has. by rewrite map_get_set_eq. Qed.

Lemma expiries_kept (m : Expiries) id other expiresAt :
  map_has m id = true -> map_has (map_set m other expiresAt) id = true.
Proof. rewrite !map_has_true, map_keys_set. intros. case_match; [done |]. apply elem_of_app. by left. Qed.

(** [replayControlIds] is the memory of controls. *)
#[export] Instance replay_memory : ControlMemory Expiries := {
  hasSeenControl m id := map_has m id;
  rememberControl m id expiresAt := map_set m id expiresAt;
  remembered_is_seen m id expiresAt := expiries_remember m id expiresAt;
  seen_stays_seen m id other expiresAt := expiries_kept m id other expiresAt;
}.

(** The closure [consumeRateLimit] of one send: it ignores its arguments. *)
Record Emission := mkEmission {
  emission_retry : bool;
  emission_key : jsstring;
  emission_until : Z;
  emission_targets : Expiries;
}.

Definition drop_oldest (m : Expiries) : Expiries :=
  match m with (oldest, _) :: _ => map_delete m oldest | [] => m end.

Definition consume_emission (e : Emission) : bool * Emission :=
  let targets := emission_targets e in
  if negb (emission_retry e) && map_has targets (emission_key e) then (false, e)
  else
    let targets := if maxReplayEntries <=? zlen targets then drop_oldest targets else targets in
    (true, mkEmission (emission_retry e) (emission_key e) (emission_until e)
             (map_set targets (emission_key e) (emission_until e))).

#[export] Instance emission_limiter : RateLimiter Emission := { consumeRateLimit e _ _ _ := consume_emission e }.

(** The limiter of [sendReadAccepted] grants every control. *)
#[export] Instance free_limiter : RateLimiter unit := { consumeRateLimit s _ _ _ := (true, s) }.

(** ** The endpoint *)

(** A send waits for its signature, then for the network; a receipt may have
    taken a key of [emittedReceiptTargets] that a failed send gives back. *)
Record Sending := mkSending {
  sending_control : ApplicationControlEnvelope;
  sending_recipient : jsstring;
  sending_hpke : jsstring;
  sending_key : option jsstring;
}.

(** A receive waits for the verification of a signature. *)
Inductive Verifying : Type :=
| v_receipt (envelope : ApplicationControlEnvelope) (descriptor : ApplicationControlDescriptor (Body := DeliveryReceiptBody))
| v_read_accepted (envelope : ApplicationControlEnvelope) (descriptor : ApplicationControlDescriptor (Body := jsstring)).

Record Endpoint := mkEndpoint {
  replayControlIds : Expiries;
  emittedReceiptTargets : Expiries;
  signing : list Sending;
  sending : list Sending;
  verifying : list Verifying;
}.

Definition new_endpoint : Endpoint := mkEndpoint [] [] [] [] [].

Definition on_replay f s := mkEndpoint (f (replayControlIds s)) (emittedReceiptTargets s) (signing s) (sending s) (verifying s).
Definition on_emitted f s := mkEndpoint (replayControlIds s) (f (emittedReceiptTargets s)) (signing s) (sending s) (verifying s).
Definition on_signing f s := mkEndpoint (replayControlIds s) (emittedReceiptTargets s) (f (signing s)) (sending s) (verifying s).
Definition on_sending f s := mkEndpoint (replayControlIds s) (emittedReceiptTargets s) (signing s) (f (sending s)) (verifying s).
Definition on_verifying f s := mkEndpoint (replayControlIds s) (emittedReceiptTargets s) (signing s) (sending s) (f (verifying s)).

Inductive ReceiptOutcome : Type :=
| o_source_mismatch | o_rejected (reason : ApplicationControlRejection) | o_effect_missing.

(** What the module does to the rest of the program. *)
Inductive ReceiptEffect : Type :=
| Sign (input : bytes)
| SendControl (recipient hpke : jsstring) (plaintext : bytes)
| SendReturned (sent : bool)
| Verify (peerId : jsstring) (input signature : bytes)
| Unhandled
| Handled (outcome : ReceiptOutcome)
| ReceiptAccepted (receipt : DeliveryReceiptBody)
| ReadAcceptedReceived (targetDeliveryId : jsstring)
| Threw (message : jsstring).

Definition expired_at (now : Z) (_ : jsstring) (expiresAt : Z) : bool := expiresAt <=? now.

Definition prune (now : Z) (s : Endpoint) : Endpoint :=
  on_replay (map_trim maxReplayEntries)
    (on_emitted (map_delete_if (expired_at now)) (on_replay (map_delete_if (expired_at now)) s)).

Record ReceiptSendOptions := mkReceiptSend {
  targetDeliveryId : jsstring;
  senderPeerId : jsstring;
  recipientPeerId : jsstring;
  recipientHpkePublicKey : jsstring;
  attached : bool;
}.

Definition emitted_key (kind : jsstring) (o : ReceiptSendOptions) : jsstring :=
  kind ++ [10] ++ recipientPeerId o ++ [10] ++ targetDeliveryId o.

(** The ports of an outbound control: the recipient is the one contact. *)
Definition outbound_ports (o : ReceiptSendOptions) : ApplicationControlPorts :=
  mkPorts (senderPeerId o) (fun peer => str_eqb peer (recipientPeerId o)) (fun _ _ => true) receiptClockSkewMs.

Definition outbound_control {Body} (kind controlId : jsstring) (now : Z) (o : ReceiptSendOptions) (body : Body)
  : OutboundApplicationControl (Body := Body) :=
  mkOutbound kind controlId now (now + deliveryReceiptControlTTLms) (senderPeerId o) (recipientPeerId o) body.

(** The prepared control is handed to the signature. *)
Definition sign_control (e : ApplicationControlEnvelope) (o : ReceiptSendOptions) (key : option jsstring) (s : Endpoint)
  : Endpoint * list ReceiptEffect :=
  match applicationControlSigningBytes e with
  | Throw message => (s, [Threw message])
  | Ok input => (on_signing (fun l => l ++ [mkSending e (recipientPeerId o) (recipientHpkePublicKey o) key]) s, [Sign input])
  end.

(** [keys] says whether the device has its identity keys, [controlId] is what
    [createDeliveryID] draws. *)
Definition sendDeliveryReceipt (kind : jsstring) (allowTargetRetry : bool) (o : ReceiptSendOptions)
    (keys : bool) (now : Z) (controlId : jsstring) (s : Endpoint) : Endpoint * list ReceiptEffect :=
  if negb (attached o) || negb (validDeliveryId (targetDeliveryId o)) then (s, [SendReturned false])
  else if negb keys then (s, [SendReturned false])
  else
    let s := prune now s in
    let key := emitted_key kind o in
    if negb allowTargetRetry && map_has (emittedReceiptTargets s) key then (s, [SendReturned false])
    else
      let '(prepared, limiter) :=
        prepareOutboundApplicationControl
          (outbound_control deliveryReceiptControlKind controlId now o (Receipt.mk kind (targetDeliveryId o)))
          deliveryReceiptControlDescriptor (outbound_ports o) now
          (mkEmission allowTargetRetry key (now + deliveryReceiptControlTTLms) (emittedReceiptTargets s)) in
      let s := on_emitted (fun _ => emission_targets limiter) s in
      match prepared with
      | Throw _ => (s, [SendReturned false])
      | Ok unsigned => sign_control unsigned o (Some key) s
      end.

Definition sendReadAccepted (o : ReceiptSendOptions) (keys : bool) (now : Z) (controlId : jsstring) (s : Endpoint)
  : Endpoint * list ReceiptEffect :=
  if negb (attached o) || negb (validDeliveryId (targetDeliveryId o)) then (s, [SendReturned false])
  else if negb keys then (s, [SendReturned false])
  else
    match prepareOutboundApplicationControl (outbound_control readAcceptedControlKind controlId now o (targetDeliveryId o))
            readAcceptedControlDescriptor (outbound_ports o) now tt with
    | (Throw _, _) => (s, [SendReturned false])
    | (Ok unsigned, _) => sign_control unsigned o None s
    end.

(** The key of a receipt whose send failed is released; a signature that fails
    releases nothing. *)
Definition release (x : Sending) (s : Endpoint) : Endpoint :=
  match sending_key x with Some key => on_emitted (fun m => map_delete m key) s | None => s end.

Definition send_signed (x : Sending) (signature : result bytes) (s : Endpoint) : Endpoint * list ReceiptEffect :=
  match signature with
  | Throw message => (s, [Threw message])
  | Ok signature =>
      match encodeApplicationControl (with_signature (sending_control x) signature) with
      | Throw message => (release x s, [Threw message])
      | Ok plaintext =>
          (on_sending (fun l => l ++ [x]) s, [SendControl (sending_recipient x) (sending_hpke x) plaintext])
      end
  end.

Definition control_sent (x : Sending) (outcome : result unit) (s : Endpoint) : Endpoint * list ReceiptEffect :=
  match outcome with
  | Throw message => (release x s, [Threw message])
  | Ok _ => (s, [SendReturned true])
  end.

(** ** Receiving *)

Record ReceiveOptions := mkReceive {
  plaintext : bytes;
  receive_localPeerId : jsstring;
  receive_senderPeerId : jsstring;
  knownContactId : option jsstring;
}.

Definition receive_ports (o : ReceiveOptions) : ApplicationControlPorts :=
  mkPorts (receive_localPeerId o)
    (fun peer => bool_decide (is_Some (knownContactId o)) && str_eqb peer (receive_senderPeerId o))
    (fun _ _ => true) receiptClockSkewMs.

Definition is_message_metadata (e : ApplicationControlEffect) : bool :=
  match e with e_message_metadata _ _ => true | _ => false end.

Definition first_metadata (effects : list ApplicationControlEffect) : option (jsstring * jsstring) :=
  match List.find is_message_metadata effects with Some (e_message_metadata id state) => Some (id, state) | _ => None end.

Definition receipt_result (r : result ApplicationControlResult) : ReceiptEffect :=
  match r with
  | Throw message => Threw message
  | Ok (control_rejected reason) => Handled (o_rejected reason)
  | Ok (control_accepted effects) =>
      match first_metadata effects with
      | None => Handled o_effect_missing
      | Some (id, state) =>
          ReceiptAccepted (Receipt.mk (if str_eqb state (js "read") then js "read" else js "delivered") id)
      end
  end.

Definition read_accepted_result (r : result ApplicationControlResult) : ReceiptEffect :=
  match r with
  | Throw message => Threw message
  | Ok (control_rejected reason) => Handled (o_rejected reason)
  | Ok (control_accepted effects) =>
      match first_metadata effects with
      | None => Handled o_effect_missing
      | Some (id, _) => ReadAcceptedReceived id
      end
  end.

(** From the registry to the [await] of the verification. *)
Definition process_control {Body} (registry : list (jsstring * ApplicationControlDescriptor (Body := Body)))
    (wait : ApplicationControlEnvelope -> ApplicationControlDescriptor (Body := Body) -> Verifying)
    (answer : result ApplicationControlResult -> ReceiptEffect) (o : ReceiveOptions) (now : Z) (s : Endpoint)
  : Endpoint * list ReceiptEffect :=
  match start_control (plaintext o) registry (receive_ports o) now (replayControlIds s) with
  | Throw message => (s, [answer (Throw message)])
  | Ok (cp_rejected reason) => (s, [answer (Ok (control_rejected reason))])
  | Ok (cp_ready e d) =>
      let '(r, memory) := finish_control e d (replayControlIds s) in (on_replay (fun _ => memory) s, [answer r])
  | Ok (cp_verifying e d input) =>
      (on_verifying (fun l => l ++ [wait e d]) s, [Verify (Control.senderPeerId e) input (Control.signature e)])
  end.

Definition receiveDeliveryReceipt (o : ReceiveOptions) (now : Z) (s : Endpoint) : Endpoint * list ReceiptEffect :=
  match decodeApplicationControl (plaintext o) with
  | Throw _ => (s, [Unhandled])
  | Ok e =>
      if negb (str_eqb (Control.kind e) deliveryReceiptControlKind) then (s, [Unhandled])
      else if negb (str_eqb (Control.senderPeerId e) (receive_senderPeerId o)) then (s, [Handled o_source_mismatch])
      else process_control receiptRegistry v_receipt receipt_result o now (prune now s)
  end.

Definition receiveReadAccepted (o : ReceiveOptions) (now : Z) (s : Endpoint) : Endpoint * list ReceiptEffect :=
  match decodeApplicationControl (plaintext o) with
  | Throw _ => (s, [Unhandled])
  | Ok e =>
      if negb (str_eqb (Control.kind e) readAcceptedControlKind) then (s, [Unhandled])
      else if negb (str_eqb (Control.senderPeerId e) (receive_senderPeerId o)) then (s, [Handled o_source_mismatch])
      else process_control readAcceptedRegistry v_read_accepted read_accepted_result o now s
  end.

(** [verifyControlSignature] turns every error into [false]. *)
Definition receive_verified (v : Verifying) (verdict : bool) (s : Endpoint) : Endpoint * list ReceiptEffect :=
  match v with
  | v_receipt e d =>
      let '(r, memory) := resume_control e d (Ok verdict) (replayControlIds s) in
      (on_replay (fun _ => memory) s, [receipt_result r])
  | v_read_accepted e d =>
      let '(r, memory) := resume_control e d (Ok verdict) (replayControlIds s) in
      (on_replay (fun _ => memory) s, [read_accepted_result r])
  end.

(** ** Events in any order *)

Inductive ReceiptEvent : Type :=
| r_send_receipt (kind : jsstring) (allowTargetRetry : bool) (o : ReceiptSendOptions) (keys : bool) (now : Z) (controlId : jsstring)
| r_send_read_accepted (o : ReceiptSendOptions) (keys : bool) (now : Z) (controlId : jsstring)
| r_signed (i : nat) (signature : result bytes)
| r_sent (i : nat) (outcome : result unit)
| r_receive_receipt (o : ReceiveOptions) (now : Z)
| r_receive_read_accepted (o : ReceiveOptions) (now : Z)
| r_verified (i : nat) (verdict : bool).

(** An event for a call that does not wait changes nothing. *)
Definition receipt_step (e : ReceiptEvent) (s : Endpoint) : Endpoint * list ReceiptEffect :=
  match e with
  | r_send_receipt kind retry o keys now controlId => sendDeliveryReceipt kind retry o keys now controlId s
  | r_send_read_accepted o keys now controlId => sendReadAccepted o keys now controlId s
  | r_signed i signature =>
      match signing s !! i with
      | Some x => send_signed x signature (on_signing (delete i) s)
      | None => (s, [])
      end
  | r_sent i outcome =>
      match sending s !! i with
      | Some x => control_sent x outcome (on_sending (delete i) s)
      | None => (s, [])
      end
  | r_receive_receipt o now => receiveDeliveryReceipt o now s
  | r_receive_read_accepted o now => receiveReadAccepted o now s
  | r_verified i verdict =>
      match verifying s !! i with
      | Some v => receive_verified v verdict (on_verifying (delete i) s)
      | None => (s, [])
      end
  end.

Fixpoint receipt_run (es : list ReceiptEvent) (s : Endpoint) : Endpoint * list ReceiptEffect :=
  match es with
  | [] => (s, [])
  | e :: es =>
      let '(s, out) := receipt_step e s in
      let '(s, out') := receipt_run es s in
      (s, out ++ out')
  end.
