(* ===== verification/ReceiptsFacts.v ===== *)
(** * [delivery-receipt-control.ts]: properties

    The codecs of the two bodies, a receipt's way to the endpoint it is for, the
    bounds of the two tables, and how long an accepted control is remembered. *)
From S2P Require Import Prelude JsRuntime Collections Base64Url Cbor CborFacts Records Json NestedRecords SignedEvent SignedEventFacts RecordCodecs ApplicationControl ApplicationControlFacts Receipts.

(** ** Codecs of small records *)

Lemma record_length es b :
  encodable (CMap es) = true -> encodeDeterministicCbor (CMap es) = Ok b ->
  zlen b = zlen (encodeHeader 5 (zlen es)) + sum_lengths (fun e => zlen (encoded_key e.1) + zlen (enc e.2)) es.
Proof.
  intros He Hb. rewrite (encode_total _ He) in Hb. injection Hb as <-. rewrite enc_map by done.
  rewrite zlen_app, zlen_concat. rewrite (sum_lengths_perm _ _ _ (Permutation_sym (sort_by_perm key_cmp es))).
  unfold sum_lengths. apply Z.add_cancel_l. induction (sort_by key_cmp es) as [|[k v] l IH]; cbn [foldr]; [done |].
  rewrite IH. unfold enc_entry at 1. cbn [fst snd]. by rewrite zlen_app.
Qed.

Section Sized.
Context {A : Type} {names : list jsstring} {entries : A -> CborMap} {read : CborMap -> result A} {ok : A -> Prop}.
Context `{!RecordCodec names entries read ok}.

(** As [exact_codec_intro], with the exact size of every encoding. *)
Lemma exact_codec_sized (max : Z) encode decode :
  (forall v, zlen (entries v) <= maxCborCollectionEntries) ->
  (forall b v, bytes_ok b -> decode b = Ok v <->
     exists es, decodeDeterministicCbor b max = Ok (CMap es) /\ rejectUnknownEntries es names = Ok tt /\ read es = Ok v) ->
  (forall v, ok v -> encode v = encodeDeterministicCbor (CMap (entries v))) ->
  (forall v b, ok v -> encodeDeterministicCbor (CMap (entries v)) = Ok b -> zlen b <= max) ->
  exact_codec ok encode decode.
Proof.
  intros Hlen Hdec Henc Hsize. split.
  - intros b v. split.
    + intros [Hok Hd]. apply Hdec in Hd; [| done].
      destruct (proj1 (record_codec_exact b max v Hlen) (conj Hok Hd)) as (Hv & He & _). by rewrite (Henc v Hv).
    + intros [Hv He]. rewrite (Henc v Hv) in He.
      destruct (proj2 (record_codec_exact b max v Hlen)) as [Hok Hd]; [split; [done | split; [done | by eapply Hsize]] |].
      split; [done |]. by apply Hdec.
  - intros v Hv. rewrite (Henc v Hv). eexists. by apply encode_total, codec_encodable.
Qed.
End Sized.

Lemma small_records (es : CborMap) : (zlen es <=? 2) = true -> zlen es <= maxCborCollectionEntries.
Proof. intros H. bool_props. unfold maxCborCollectionEntries. lia. Qed.

(** ** The two bodies *)

Definition receipt_ok (v : DeliveryReceiptBody) : Prop :=
  (Receipt.kind v = js "delivered" \/ Receipt.kind v = js "read") /\ token_ok 16 (Receipt.targetDeliveryId v).

Definition target_ok (v : jsstring) : Prop := token_ok 16 v.

Definition receipt_entries (v : DeliveryReceiptBody) : CborMap :=
  [(js "receipt_kind", CText (Receipt.kind v)); (js "target_delivery_id", CBytes (token_bytes (Receipt.targetDeliveryId v)))].

Definition target_entries (v : jsstring) : CborMap := [(js "target_delivery_id", CBytes (token_bytes v))].

Lemma validReceiptKind_true k : validReceiptKind k = true <-> k = js "delivered" \/ k = js "read".
Proof. unfold validReceiptKind. by rewrite orb_true_iff, !str_eqb_true. Qed.

Lemma receipt_kind_text k : k = js "delivered" \/ k = js "read" -> text_ok 9 k.
Proof.
  intros [-> | ->]; (split; [discriminate |]; split; [vm_compute; discriminate | closed]).
Qed.

#[export] Instance receipt_codec : RecordCodec receiptKeys receipt_entries read_receipt receipt_ok.
Proof.
  split.
  - intros v. split; [apply (bool_decide_eq_true_1 (NoDup _)); closed |].
    split; apply (bool_decide_eq_true_1 (Forall _ _)); closed.
  - intros v [Hk Ht]. unfold receipt_entries. repeat (apply Forall_cons; split); cbn [snd].
    + apply (text_good 9); [vm_compute; discriminate | by apply receipt_kind_text].
    + by apply (token_good 16).
    + by apply Forall_nil.
  - intros es v He H. unfold read_receipt in H. step H as k Ek. step H as t Et. case_match eqn:E; [done |]. injection H as <-.
    bool_props. apply validReceiptKind_true in E. apply text_field_read in Ek as [_ Ek]; [| done].
    apply token_field_read in Et as [Ht Et]; [| lia | done]. split; [done |].
    intros key Hin. unfold receiptKeys in Hin. each_key Hin; done.
  - intros es v [Hk Ht] Hg. unfold read_receipt.
    rewrite (text_field_written es _ (Receipt.kind v))
      by first [apply (text_ok_le 9); [vm_compute; discriminate | by apply receipt_kind_text] | rewrite Hg; [done | set_solver]].
    rewrite (token_field_written es _ 16 (Receipt.targetDeliveryId v)) by first [done | rewrite Hg; [done | set_solver]].
    rewrite (proj2 (validReceiptKind_true _) Hk). by destruct v.
Qed.

#[export] Instance target_codec : RecordCodec readAcceptedKeys target_entries read_read_accepted target_ok.
Proof.
  split.
  - intros v. split; [apply (bool_decide_eq_true_1 (NoDup _)); closed |].
    split; apply (bool_decide_eq_true_1 (Forall _ _)); closed.
  - intros v Ht. unfold target_entries. repeat (apply Forall_cons; split); cbn [snd]; [by apply (token_good 16) | by apply Forall_nil].
  - intros es v He H. apply token_field_read in H as [Ht H]; [| lia | done]. split; [done |].
    intros key Hin. unfold readAcceptedKeys in Hin. each_key Hin; done.
  - intros es v Ht Hg. apply token_field_written; [done | done |]. rewrite Hg; [done | set_solver].
Qed.

Lemma token_entry_length t : token_ok 16 t -> zlen (enc (CBytes (token_bytes t))) = 17.
Proof.
  intros (_ & Hl & _)%token_ok_bytes. unfold enc. cbn [encodeDeterministicCbor]. unfold encodeBytes. rewrite Hl, zlen_app, Hl. done.
Qed.

Lemma kind_entry_length k : k = js "delivered" \/ k = js "read" -> zlen (enc (CText k)) <= 10.
Proof. intros [-> | ->]; vm_compute; discriminate. Qed.

Lemma small_decode {A} (names : list jsstring) (read : CborMap -> result A) label message b v :
  bytes_ok b ->
  (if (zlen b =? 0) || (maxBodyBytes <? zlen b) then Throw message
   else let? decoded := decodeDeterministicCbor b maxBodyBytes in let? map := readCborMap decoded label in
        let? _ := rejectUnknownEntries map names in read map) = Ok v <->
  exists es, decodeDeterministicCbor b maxBodyBytes = Ok (CMap es) /\ rejectUnknownEntries es names = Ok tt /\ read es = Ok v.
Proof.
  intros Hb. split.
  - case_match; [done |]. intros H1. step H1 as d Ed. step H1 as m Em. step H1 as [] Eu. apply readCborMap_Ok in Em as ->. by exists m.
  - intros (es & Hd & Hu & Hr). pose proof (decode_Ok _ _ _ Hb Hd) as (Hl & _).
    test ((zlen b =? 0) || (maxBodyBytes <? zlen b)) false. rewrite Hd. cbn [readCborMap]. by rewrite Hu.
Qed.

Lemma receipt_exact : exact_codec receipt_ok encodeReceiptBody decodeReceiptBody.
Proof.
  eapply (exact_codec_sized maxBodyBytes).
  - intros v. vm_compute. discriminate.
  - intros b v Hb. apply (small_decode receiptKeys read_receipt (js "receipt") _ b v Hb).
  - intros v [Hk Ht]. unfold encodeReceiptBody, validDeliveryId. rewrite (proj2 (validReceiptKind_true _) Hk).
    pose proof (proj2 Ht) as Hv. apply token_ok_bytes in Ht as (Hd & _). by rewrite Hv, Hd.
  - intros v b Hv Hb. rewrite (record_length _ _ (codec_encodable (read := read_receipt) v Hv (small_records (receipt_entries v) eq_refl)) Hb).
    destruct Hv as [Hk Ht]. pose proof (token_entry_length _ Ht). pose proof (kind_entry_length _ Hk).
    unfold receipt_entries. cbn [sum_lengths foldr fst snd]. key_lengths.
    change (zlen (encodeHeader 5 _)) with 1. unfold maxBodyBytes. lia.
Qed.

Lemma read_accepted_exact : exact_codec target_ok encodeReadAcceptedBody decodeReadAcceptedBody.
Proof.
  eapply (exact_codec_sized maxBodyBytes).
  - intros v. vm_compute. discriminate.
  - intros b v Hb. apply (small_decode readAcceptedKeys read_read_accepted (js "read accepted") _ b v Hb).
  - intros v Ht. unfold encodeReadAcceptedBody, validDeliveryId.
    pose proof (proj2 Ht) as Hv. apply token_ok_bytes in Ht as (Hd & _). by rewrite Hv, Hd.
  - intros v b Ht Hb. rewrite (record_length _ _ (codec_encodable (read := read_read_accepted) v Ht (small_records (target_entries v) eq_refl)) Hb).
    pose proof (token_entry_length _ Ht). unfold target_entries. cbn [sum_lengths foldr fst snd]. key_lengths.
    change (zlen (encodeHeader 5 _)) with 1. unfold maxBodyBytes. lia.
Qed.

(** ** Preparing and reading one control *)

(** The peers, the target and the time of a send are in range. *)
Definition send_ok (o : ReceiptSendOptions) (now : Z) (controlId : jsstring) : Prop :=
  attached o = true /\ token_ok 16 (targetDeliveryId o) /\ token_ok 32 (senderPeerId o)
  /\ token_ok 32 (recipientPeerId o) /\ token_ok 16 controlId
  /\ 0 <= now /\ now + deliveryReceiptControlTTLms <= MAX_SAFE_INTEGER.

(** The control such a send prepares. *)
Definition control_for (kind controlId : jsstring) (now : Z) (o : ReceiptSendOptions) (body : bytes) : ApplicationControlEnvelope :=
  Control.mk applicationControlWireVersion kind controlId now (now + deliveryReceiptControlTTLms) (senderPeerId o)
    (recipientPeerId o) body [].

Lemma signing_bytes_Ok e :
  validateControl e = Ok tt -> canonical_control e = true -> times_ok e -> exists input, applicationControlSigningBytes e = Ok input.
Proof.
  intros Hv Hc Ht. destruct (controlMap_canonical e false Hv Hc) as (id & sender & recipient & Hm & (_ & Hi) & (_ & Hs) & (_ & Hr)).
  destruct (control_entries_encodable e id sender recipient false Hv Hc Ht Hi Hs Hr) as (He & _).
  unfold applicationControlSigningBytes. rewrite Hm, (encode_total _ He). by eexists.
Qed.

Section Sends.
Context {Body L : Type} `{Lim : !RateLimiter L} (d : ApplicationControlDescriptor (Body := Body)).
Context (Hd : validateControlDescriptor d = Ok tt) (Hplain : plain_text (controlDescriptorKind d) = true).
Context (Httl : maximumTTLms d = Int deliveryReceiptControlTTLms).

Lemma prepare_send o now controlId (body : Body) b (l : L) :
  send_ok o now controlId -> encodeBody d body = Ok b -> 0 < zlen b <= maxControlBodyBytes ->
  prepareOutboundApplicationControl (outbound_control (controlDescriptorKind d) controlId now o body) d (outbound_ports o) now l
  = let '(granted, l') := consumeRateLimit l (controlDescriptorKind d) (recipientPeerId o) now in
    if granted then (Ok (control_for (controlDescriptorKind d) controlId now o b), l')
    else (Throw (js "application control rate limited"), l').
Proof using Hd Httl.
  intros (_ & _ & [_ Hs] & [_ Hr] & [_ Hc] & Hn & Hm) He Hb. unfold prepareOutboundApplicationControl.
  cbn [outbound_control outboundKind outboundSender outboundRecipient outboundControlId outboundBody outboundIssuedAt outboundExpiresAt
       outbound_ports localPeerId isKnownContact isAllowed maxClockSkewMs].
  rewrite Hd, !str_eqb_refl. cbn [negb orb].
  rewrite (proj2 (requireBase64URLBytes_Ok controlId 16 _ _) (conj Hc eq_refl)).
  rewrite (proj2 (requireBase64URLBytes_Ok (senderPeerId o) 32 _ _) (conj Hs eq_refl)).
  rewrite (proj2 (requireBase64URLBytes_Ok (recipientPeerId o) 32 _ _) (conj Hr eq_refl)).
  rewrite He, (proj2 (boundedBody_Ok b _) (conj Hb eq_refl)).
  cbn [Control.issuedAt Control.expiresAt]. rewrite Httl. cbn [number_value]. unfold receiptClockSkewMs, deliveryReceiptControlTTLms.
  test (now + 1000 <? now) false. test (now + 5 * 60000 <=? now) false. test (5 * 60000 <? now + 5 * 60000 - now) false.
  cbn [orb]. unfold control_for. cbn [Control.recipientPeerId]. by destruct (consumeRateLimit _ _ _ _) as [[] l'].
Qed.

(** The ports of a recipient that knows the sender. *)
Definition heard (o : ReceiptSendOptions) (b : bytes) (contact : jsstring) : ReceiveOptions :=
  mkReceive b (recipientPeerId o) (senderPeerId o) (Some contact).

Lemma sent_control_arrives o now controlId (body : Body) b (l l' : L) sg
    (registry : list (jsstring * ApplicationControlDescriptor (Body := Body))) now' (memory : Expiries) contact :
  send_ok o now controlId -> encodeBody d body = Ok b -> bytes_ok b -> 0 < zlen b <= maxControlBodyBytes ->
  consumeRateLimit l (controlDescriptorKind d) (recipientPeerId o) now = (true, l') ->
  bytes_ok sg -> zlen sg = 64 ->
  map_get registry (controlDescriptorKind d) = Some d ->
  now - receiptClockSkewMs <= now' < now + deliveryReceiptControlTTLms ->
  map_has memory controlId = false ->
  let e := control_for (controlDescriptorKind d) controlId now o b in
  exists w input, encodeApplicationControl (with_signature e sg) = Ok w
    /\ applicationControlSigningBytes e = Ok input
    /\ control_admissible w registry (receive_ports (heard o w contact)) now' memory (with_signature e sg) d.
Proof using Hd Hplain Httl.
  intros Ho He Hbo Hb Hgrant Hsb Hsl Hreg Hnow Hseen e.
  pose proof (prepare_send o now controlId body b l Ho He Hb) as Hp. rewrite Hgrant in Hp. fold e in Hp.
  assert (Hc : canonical_control e = true).
  { unfold canonical_control, e, control_for. cbn [Control.controlId Control.senderPeerId Control.recipientPeerId Control.kind Control.body Control.signature].
    destruct Ho as (_ & _ & [-> _] & [-> _] & [-> _] & _). rewrite Hplain. cbn [andb].
    by rewrite !bool_decide_true by (done || apply bytes_ok_nil). }
  assert (Ht : times_ok e).
  { destruct Ho as (_ & _ & _ & _ & _ & ? & Hm). unfold times_ok, is_safe, e. cbn. unfold deliveryReceiptControlTTLms in *. split_and!; lia. }
  pose proof (prepareOutbound_Ok _ _ _ _ _ _ _ Hp) as (_ & _ & _ & Hkind & Htok & Hbody & _).
  destruct (outbound_delivered _ _ _ _ _ _ _ sg registry (receive_ports (heard o [] contact)) memory Hp) as (w & Hw & _ & _ & Ha);
    unfold e; cbn; unfold deliveryReceiptControlTTLms, receiptClockSkewMs in *; try done; try lia.
  { apply str_eqb_refl. }
  destruct (signing_bytes_Ok e) as [input Hin]; [| done | done |].
  { apply validateControl_Ok. unfold e in *. cbn in *. unfold deliveryReceiptControlTTLms. split_and!; try done; try lia; try apply Htok; try apply Hkind. by left. }
  exists w, input. split; [done |]. split; [done |]. destruct Ha as (Hdec & Hg & Hr & Hk & _ & _ & Htl & Hs & Hal).
  unfold control_admissible. unfold e in *. cbn in *. split_and!; try done; unfold deliveryReceiptControlTTLms, receiptClockSkewMs; lia.
Qed.
End Sends.

(** ** A receipt reaches the endpoint it is for *)

Lemma with_body_signing e sg w input :
  applicationControlSigningBytes e = Ok input -> encodeApplicationControl (with_signature e sg) = Ok w ->
  applicationControlSigningBytes (with_signature e sg) = Ok input.
Proof. by rewrite signing_bytes_with. Qed.

Section Arrival.
Context {Body : Type} (d : ApplicationControlDescriptor (Body := Body)) (e : ApplicationControlEnvelope).
Context (registry : list (jsstring * ApplicationControlDescriptor (Body := Body))) (o : ReceiveOptions) (now : Z).
Context (Hauth : authentication d = auth_ed25519).

Lemma process_verifies wait answer (s : Endpoint) input :
  control_admissible (plaintext o) registry (receive_ports o) now (replayControlIds s) e d ->
  applicationControlSigningBytes e = Ok input ->
  process_control registry wait answer o now s
  = (on_verifying (fun l => l ++ [wait e d]) s, [Verify (Control.senderPeerId e) input (Control.signature e)]).
Proof using Hauth.
  intros Ha Hin. unfold process_control. by rewrite (start_control_admissible _ _ _ _ _ _ _ Ha), Hauth, Hin.
Qed.

Lemma resume_accepts effects (m : Expiries) :
  control_effects d e effects ->
  resume_control e d (Ok true) m = (Ok (control_accepted effects), map_set m (Control.controlId e) (Control.expiresAt e)).
Proof using. intros He. unfold resume_control. by apply finish_control_Ok. Qed.
End Arrival.

Lemma receipt_effects e v b :
  receipt_ok v -> encodeReceiptBody v = Ok b -> Control.body e = b ->
  control_effects deliveryReceiptControlDescriptor e [e_message_metadata (Receipt.targetDeliveryId v) (Receipt.kind v)].
Proof.
  intros Hv Hb He. destruct (proj2 (proj1 receipt_exact b v) (conj Hv Hb)) as [_ Hd].
  exists v. rewrite He. split; [exact Hd |]. split; [done |].
  split; [apply Forall_singleton; by left |]. destruct Hv as [Hk [_ Ht]]. unfold effectsAreBounded. cbn [forallb effect_bounded].
  rewrite Ht. by destruct Hk as [-> | ->].
Qed.

Lemma read_accepted_effects e t b :
  target_ok t -> encodeReadAcceptedBody t = Ok b -> Control.body e = b ->
  control_effects readAcceptedControlDescriptor e [e_message_metadata t (js "read_accepted")].
Proof.
  intros Ht Hb He. destruct (proj2 (proj1 read_accepted_exact b t) (conj Ht Hb)) as [_ Hd].
  exists t. rewrite He. split; [exact Hd |]. split; [done |].
  split; [apply Forall_singleton; by left |]. unfold effectsAreBounded. cbn [forallb effect_bounded]. by rewrite (proj2 Ht).
Qed.

Lemma receipt_body v :
  receipt_ok v -> exists b, encodeReceiptBody v = Ok b /\ bytes_ok b /\ 0 < zlen b <= maxControlBodyBytes.
Proof.
  intros Hv. destruct (proj2 receipt_exact v Hv) as [b Hb]. exists b. split; [done |].
  destruct (proj2 (proj1 receipt_exact b v) (conj Hv Hb)) as [Hok Hd]. split; [done |].
  unfold decodeReceiptBody in Hd. apply if_throw_Ok in Hd as [E _]. bool_props. pose proof (zlen_nonneg b).
  unfold maxBodyBytes, maxControlBodyBytes in *. lia.
Qed.

Lemma read_accepted_body t :
  target_ok t -> exists b, encodeReadAcceptedBody t = Ok b /\ bytes_ok b /\ 0 < zlen b <= maxControlBodyBytes.
Proof.
  intros Ht. destruct (proj2 read_accepted_exact t Ht) as [b Hb]. exists b. split; [done |].
  destruct (proj2 (proj1 read_accepted_exact b t) (conj Ht Hb)) as [Hok Hd]. split; [done |].
  unfold decodeReadAcceptedBody in Hd. apply if_throw_Ok in Hd as [E _]. bool_props. pose proof (zlen_nonneg b).
  unfold maxBodyBytes, maxControlBodyBytes in *. lia.
Qed.

(** No target is being held back: a retry, or a key that is not live. *)
Definition may_emit (kind : jsstring) (retry : bool) (o : ReceiptSendOptions) (now : Z) (s : Endpoint) : bool :=
  retry || negb (map_has (emittedReceiptTargets (prune now s)) (emitted_key kind o)).

Definition key_until (kind : jsstring) (o : ReceiptSendOptions) (now : Z) (s : Endpoint) : Endpoint :=
  on_emitted (fun m => map_set (if maxReplayEntries <=? zlen m then drop_oldest m else m) (emitted_key kind o)
                         (now + deliveryReceiptControlTTLms)) (prune now s).

Lemma consume_granted kind retry o now s :
  may_emit kind retry o now s = true ->
  exists l, consume_emission (mkEmission retry (emitted_key kind o) (now + deliveryReceiptControlTTLms) (emittedReceiptTargets (prune now s)))
            = (true, l) /\ emission_targets l = emittedReceiptTargets (key_until kind o now s).
Proof.
  unfold may_emit, consume_emission. cbn [emission_retry emission_targets emission_key emission_until]. intros H.
  assert (E : negb retry && map_has (emittedReceiptTargets (prune now s)) (emitted_key kind o) = false)
    by (destruct retry; [done |]; cbn [orb] in H; by apply negb_true_iff in H).
  rewrite E. eexists. split; [done |]. done.
Qed.

(** The control of a send, and what it waits with. *)
Definition receipt_control kind controlId now o : ApplicationControlEnvelope :=
  control_for deliveryReceiptControlKind controlId now o
    (match encodeReceiptBody (Receipt.mk kind (targetDeliveryId o)) with Ok b => b | Throw _ => [] end).

Definition receipt_sending kind controlId now o : Sending :=
  mkSending (receipt_control kind controlId now o) (recipientPeerId o) (recipientHpkePublicKey o) (Some (emitted_key kind o)).

Lemma send_receipt_signs kind retry o now controlId s input :
  send_ok o now controlId -> kind = js "delivered" \/ kind = js "read" ->
  may_emit kind retry o now s = true ->
  applicationControlSigningBytes (receipt_control kind controlId now o) = Ok input ->
  sendDeliveryReceipt kind retry o true now controlId s
  = (on_signing (fun l => l ++ [receipt_sending kind controlId now o]) (key_until kind o now s), [Sign input]).
Proof.
  intros Ho Hk Hm Hin. pose proof Ho as (Ha & Ht & _). pose proof (proj2 Ht) as Hv.
  destruct (receipt_body (Receipt.mk kind (targetDeliveryId o)) (conj Hk Ht)) as (b & Hb & _ & Hl).
  unfold receipt_sending, receipt_control in *. rewrite Hb in *.
  destruct (consume_granted kind retry o now s Hm) as (l & Hc & Hl').
  unfold sendDeliveryReceipt, validDeliveryId. rewrite Ha, Hv. cbn [negb orb].
  assert (E : negb retry && map_has (emittedReceiptTargets (prune now s)) (emitted_key kind o) = false)
    by (unfold may_emit in Hm; destruct retry; [done |]; cbn [orb] in Hm; by apply negb_true_iff in Hm).
  rewrite E. pose proof (prepare_send deliveryReceiptControlDescriptor eq_refl eq_refl o now controlId (Receipt.mk kind (targetDeliveryId o)) b
    (mkEmission retry (emitted_key kind o) (now + deliveryReceiptControlTTLms) (emittedReceiptTargets (prune now s))) Ho Hb Hl) as Hp.
  cbn [consumeRateLimit emission_limiter] in Hp. rewrite Hc in Hp.
  change (controlDescriptorKind deliveryReceiptControlDescriptor) with deliveryReceiptControlKind in Hp. rewrite Hp, Hl'.
  unfold sign_control. by rewrite Hin.
Qed.

(** What is not deleted is still there. *)
Lemma map_get_delete_if_kept (p : jsstring -> Z -> bool) (m : Expiries) k v :
  map_get m k = Some v -> p k v = false -> map_get (map_delete_if p m) k = Some v.
Proof.
  intros Hg Hp. unfold map_delete_if. induction m as [|[k' v'] m IH]; [done |]. cbn [map_get] in Hg. rewrite filter_cons. cbn [fst snd].
  destruct (decide (k = k')) as [<-|Hne].
  - injection Hg as ->. rewrite decide_True by done. cbn [map_get]. by rewrite decide_True.
  - case_decide; [| by apply IH]. cbn [map_get]. rewrite decide_False by done. by apply IH.
Qed.

Lemma held_back kind o now controlId s x now2 id2 :
  send_ok o now controlId -> now2 < now + deliveryReceiptControlTTLms ->
  snd (sendDeliveryReceipt kind false o true now2 id2 (on_signing x (key_until kind o now s))) = [SendReturned false].
Proof.
  intros (Ha & Ht & _) Hn. pose proof (proj2 Ht) as Hv. unfold sendDeliveryReceipt, validDeliveryId. rewrite Ha, Hv. cbn [negb orb andb].
  assert (Hm : map_has (emittedReceiptTargets (prune now2 (on_signing x (key_until kind o now s)))) (emitted_key kind o) = true); [| by rewrite Hm].
  unfold map_has. cbn [prune on_replay on_emitted on_signing emittedReceiptTargets key_until].
  rewrite (map_get_delete_if_kept _ _ _ (now + deliveryReceiptControlTTLms)); [done | apply map_get_set_eq |].
  unfold expired_at. lia.
Qed.

Lemma signed_is_sent x sg w s :
  encodeApplicationControl (with_signature (sending_control x) sg) = Ok w ->
  send_signed x (Ok sg) s = (on_sending (fun l => l ++ [x]) s, [SendControl (sending_recipient x) (sending_hpke x) w]).
Proof. intros Hw. unfold send_signed. by rewrite Hw. Qed.

Lemma received_receipt kind controlId now o sg w contact now' r input :
  control_admissible w receiptRegistry (receive_ports (heard o w contact)) now' (replayControlIds (prune now' r))
    (with_signature (receipt_control kind controlId now o) sg) deliveryReceiptControlDescriptor ->
  applicationControlSigningBytes (receipt_control kind controlId now o) = Ok input ->
  receiveDeliveryReceipt (heard o w contact) now' r
  = (on_verifying (fun l => l ++ [v_receipt (with_signature (receipt_control kind controlId now o) sg) deliveryReceiptControlDescriptor])
       (prune now' r), [Verify (senderPeerId o) input sg]).
Proof.
  intros Hadm Hin. unfold receiveDeliveryReceipt. pose proof (proj1 Hadm) as Hd. cbn [heard plaintext]. rewrite Hd.
  cbn [with_signature Control.kind Control.senderPeerId receipt_control control_for receive_senderPeerId heard].
  rewrite !str_eqb_refl. cbn [negb].
  exact (process_verifies deliveryReceiptControlDescriptor _ receiptRegistry (heard o w contact) now' eq_refl v_receipt receipt_result _ input Hadm Hin).
Qed.

(** C25: a delivery receipt does what it says, end to end.  A send for a target
    that is not held back asks for one signature.  Signed with any 64 bytes, its
    control is sent to the recipient; read by a recipient that knows the sender,
    between a second before it was issued and its expiry, and that does not
    remember its identifier, it asks for the verification of that signature over
    the very bytes that were signed, whatever the two endpoints do in between.
    Verified, it is accepted with the kind and the target that were sent, and
    its identifier is remembered until it expires; not verified, it is rejected
    and nothing changes.  A second send for the same target that is no retry
    sends nothing while the key of the first one is live. *)
Theorem receipt_applied kind retry o now controlId s
    (Ho : send_ok o now controlId) (Hk : kind = js "delivered" \/ kind = js "read")
    (Hfree : may_emit kind retry o now s = true) :
  exists x input s', sendDeliveryReceipt kind retry o true now controlId s = (s', [Sign input])
    /\ signing s' = signing s ++ [x]
    /\ (forall now2 id2, now2 < now + deliveryReceiptControlTTLms ->
          snd (sendDeliveryReceipt kind false o true now2 id2 s') = [SendReturned false])
    /\ forall sg s2, bytes_ok sg -> zlen sg = 64 ->
       exists w, send_signed x (Ok sg) s2
           = (on_sending (fun l => l ++ [x]) s2, [SendControl (recipientPeerId o) (recipientHpkePublicKey o) w])
         /\ forall r now' contact,
            now - receiptClockSkewMs <= now' < now + deliveryReceiptControlTTLms ->
            map_has (replayControlIds (prune now' r)) controlId = false ->
            exists v, receiveDeliveryReceipt (heard o w contact) now' r
                = (on_verifying (fun l => l ++ [v]) (prune now' r), [Verify (senderPeerId o) input sg])
              /\ forall r2,
                 receive_verified v true r2
                 = (on_replay (fun m => map_set m controlId (now + deliveryReceiptControlTTLms)) r2,
                    [ReceiptAccepted (Receipt.mk kind (targetDeliveryId o))])
                 /\ receive_verified v false r2 = (r2, [Handled (o_rejected j_signature_invalid)]).
Proof.
  pose proof Ho as (Ha & Ht & _).
  destruct (receipt_body (Receipt.mk kind (targetDeliveryId o)) (conj Hk Ht)) as (b & Hb & Hbo & Hl).
  pose proof (sent_control_arrives deliveryReceiptControlDescriptor eq_refl eq_refl eq_refl o now controlId
    (Receipt.mk kind (targetDeliveryId o)) b tt tt) as Harr. cbv zeta in Harr.
  change (controlDescriptorKind deliveryReceiptControlDescriptor) with deliveryReceiptControlKind in Harr.
  assert (He : receipt_control kind controlId now o = control_for deliveryReceiptControlKind controlId now o b)
    by (unfold receipt_control; by rewrite Hb).
  destruct (Harr (replicate 64 0) receiptRegistry now [] [] Ho Hb Hbo Hl eq_refl) as (_ & input & _ & Hin & _);
    [apply (bool_decide_eq_true_1 (bytes_ok _)); closed | done | reflexivity | unfold receiptClockSkewMs, deliveryReceiptControlTTLms; lia | done |].
  rewrite <- He in Hin. eexists _, input, _. split; [by apply send_receipt_signs |]. split; [done |].
  split; [by intros now2 id2; apply (held_back kind o now controlId) |].
  intros sg s2 Hsg Hsl.
  destruct (Harr sg receiptRegistry now [] [] Ho Hb Hbo Hl eq_refl Hsg Hsl) as (w & _ & Hw & _);
    [reflexivity | unfold receiptClockSkewMs, deliveryReceiptControlTTLms; lia | done |].
  rewrite <- He in Hw. exists w. split; [by apply signed_is_sent |]. intros r now' contact Hnow Hseen.
  destruct (Harr sg receiptRegistry now' (replayControlIds (prune now' r)) contact Ho Hb Hbo Hl eq_refl Hsg Hsl eq_refl Hnow Hseen)
    as (w' & input' & Hw' & Hin' & Hadm).
  rewrite <- He in Hw', Hin', Hadm. rewrite Hw in Hw'. injection Hw' as <-. rewrite Hin in Hin'. injection Hin' as <-.
  eexists (v_receipt (with_signature (receipt_control kind controlId now o) sg) deliveryReceiptControlDescriptor).
  split; [by apply received_receipt |]. intros r2. split; [| by destruct r2].
  unfold receive_verified. rewrite (resume_accepts _ _ [e_message_metadata (targetDeliveryId o) kind]).
  - unfold receipt_result, first_metadata. cbn [List.find is_message_metadata]. by destruct Hk as [-> | ->].
  - apply (receipt_effects _ (Receipt.mk kind (targetDeliveryId o)) b (conj Hk Ht) Hb). by rewrite He.
Qed.

(** ** Read-accepted controls *)

Lemma receipt_run_app es es' s s1 out :
  receipt_run es s = (s1, out) ->
  receipt_run (es ++ es') s = (let '(s2, out') := receipt_run es' s1 in (s2, out ++ out')).
Proof.
  revert s out. induction es as [|e es IH]; intros s out H; cbn [receipt_run app] in *.
  - injection H as <- <-. by destruct (receipt_run es' s).
  - destruct (receipt_step e s) as [sa oa]. destruct (receipt_run es sa) as [sb ob] eqn:E. injection H as <- <-.
    rewrite (IH sa ob E). destruct (receipt_run es' sb). by rewrite app_assoc.
Qed.

Definition read_accepted_control controlId now o : ApplicationControlEnvelope :=
  control_for readAcceptedControlKind controlId now o
    (match encodeReadAcceptedBody (targetDeliveryId o) with Ok b => b | Throw _ => [] end).

Lemma send_read_accepted_signs o now controlId s input :
  send_ok o now controlId -> applicationControlSigningBytes (read_accepted_control controlId now o) = Ok input ->
  sendReadAccepted o true now controlId s
  = (on_signing (fun l => l ++ [mkSending (read_accepted_control controlId now o) (recipientPeerId o) (recipientHpkePublicKey o) None]) s,
     [Sign input]).
Proof.
  intros Ho Hin. pose proof Ho as (Ha & Ht & _). pose proof (proj2 Ht) as Hv.
  destruct (read_accepted_body _ Ht) as (b & Hb & _ & Hl). unfold read_accepted_control in *. rewrite Hb in *.
  unfold sendReadAccepted, validDeliveryId. rewrite Ha, Hv. cbn [negb orb].
  pose proof (prepare_send readAcceptedControlDescriptor eq_refl eq_refl o now controlId (targetDeliveryId o) b tt Ho Hb Hl) as Hp.
  cbn [consumeRateLimit free_limiter] in Hp.
  change (controlDescriptorKind readAcceptedControlDescriptor) with readAcceptedControlKind in Hp. rewrite Hp.
  unfold sign_control. by rewrite Hin.
Qed.

(** A read-accepted control arrives like a receipt, but its arrival leaves the
    tables as they are: nothing expires. *)
Lemma read_accepted_applied o now controlId sg :
  send_ok o now controlId -> bytes_ok sg -> zlen sg = 64 ->
  exists w input v, encodeApplicationControl (with_signature (read_accepted_control controlId now o) sg) = Ok w
    /\ applicationControlSigningBytes (read_accepted_control controlId now o) = Ok input
    /\ (forall r now' contact, now - receiptClockSkewMs <= now' < now + deliveryReceiptControlTTLms ->
          map_has (replayControlIds r) controlId = false ->
          receiveReadAccepted (heard o w contact) now' r
          = (on_verifying (fun l => l ++ [v]) r, [Verify (senderPeerId o) input sg]))
    /\ forall r, receive_verified v true r
        = (on_replay (fun m => map_set m controlId (now + deliveryReceiptControlTTLms)) r, [ReadAcceptedReceived (targetDeliveryId o)]).
Proof.
  intros Ho Hsg Hsl. pose proof Ho as (Ha & Ht & _). destruct (read_accepted_body _ Ht) as (b & Hb & Hbo & Hl).
  pose proof (sent_control_arrives readAcceptedControlDescriptor eq_refl eq_refl eq_refl o now controlId
    (targetDeliveryId o) b tt tt sg readAcceptedRegistry) as Harr. cbv zeta in Harr.
  change (controlDescriptorKind readAcceptedControlDescriptor) with readAcceptedControlKind in Harr.
  assert (He : read_accepted_control controlId now o = control_for readAcceptedControlKind controlId now o b)
    by (unfold read_accepted_control; by rewrite Hb).
  rewrite <- He in Harr. destruct (Harr now [] [] Ho Hb Hbo Hl eq_refl Hsg Hsl eq_refl) as (w & input & Hw & Hin & _);
    [unfold receiptClockSkewMs, deliveryReceiptControlTTLms; lia | done |].
  exists w, input, (v_read_accepted (with_signature (read_accepted_control controlId now o) sg) readAcceptedControlDescriptor).
  split; [done |]. split; [done |]. split.
  - intros r now' contact Hnow Hseen.
    destruct (Harr now' (replayControlIds r) contact Ho Hb Hbo Hl eq_refl Hsg Hsl eq_refl Hnow Hseen) as (w' & input' & Hw' & _ & Hadm).
    rewrite Hw in Hw'. injection Hw' as <-.
    unfold receiveReadAccepted. pose proof (proj1 Hadm) as Hd. cbn [heard plaintext]. rewrite Hd.
    cbn [with_signature Control.kind Control.senderPeerId read_accepted_control control_for receive_senderPeerId heard].
    rewrite !str_eqb_refl. cbn [negb].
    exact (process_verifies readAcceptedControlDescriptor _ readAcceptedRegistry (heard o w contact) now' eq_refl v_read_accepted
             read_accepted_result _ input Hadm Hin).
  - intros r. unfold receive_verified. rewrite (resume_accepts _ _ [e_message_metadata (targetDeliveryId o) (js "read_accepted")]); [done |].
    apply (read_accepted_effects _ _ b Ht Hb). by rewrite He.
Qed.

(** The events of one such control received when it is issued. *)
Lemma read_accepted_received o now controlId r :
  send_ok o now controlId -> map_has (replayControlIds r) controlId = false -> verifying r = [] ->
  exists w out, receipt_run [r_receive_read_accepted (heard o w []) now; r_verified 0 true] r
    = (on_replay (fun m => map_set m controlId (now + deliveryReceiptControlTTLms)) r, out).
Proof.
  intros Ho Hseen Hv. destruct (read_accepted_applied o now controlId (replicate 64 0) Ho) as (w & input & v & _ & _ & Hr & Ha);
    [apply (bool_decide_eq_true_1 (bytes_ok _)); closed | done |].
  exists w. eexists. cbn [receipt_run receipt_step]. rewrite Hr by (done || unfold receiptClockSkewMs, deliveryReceiptControlTTLms; lia).
  cbn [receipt_step on_verifying verifying]. rewrite Hv. cbn [app lookup list_lookup]. rewrite Ha.
  destruct r as [re em si se ve]. cbn in Hv. by rewrite Hv.
Qed.

(** The memory of identifiers grows with every read-accepted control, however
    long ago the others expired: receiving them never prunes it. *)
Lemma read_accepted_kept o (controls : list (Z * jsstring)) r :
  Forall (fun c => send_ok o c.1 c.2) controls -> NoDup (map_keys (replayControlIds r) ++ controls.*2) -> verifying r = [] ->
  exists es s out, receipt_run es r = (s, out) /\ Forall (fun e => match e with r_receive_read_accepted _ _ | r_verified _ _ => True | _ => False end) es
    /\ map_keys (replayControlIds s) = map_keys (replayControlIds r) ++ controls.*2.
Proof.
  revert r. induction controls as [|[now id] controls IH]; intros r Ho Hn Hv.
  - exists [], r, []. split; [done |]. split; [done |]. by rewrite app_nil_r.
  - apply Forall_cons in Ho as [Ho Hos]. cbn [fst snd fmap list_fmap] in *.
    assert (Hseen : map_has (replayControlIds r) id = false).
    { apply map_has_false. apply NoDup_app in Hn as (_ & Hd & _). intros Hin. apply (Hd id Hin). by left. }
    destruct (read_accepted_received o now id r Ho Hseen Hv) as (w & out & Hr).
    destruct (IH (on_replay (fun m => map_set m id (now + deliveryReceiptControlTTLms)) r)) as (es & s & out' & Hes & Hf & Hk).
    + done.
    + cbn [on_replay replayControlIds]. rewrite map_keys_set, Hseen, <- app_assoc. exact Hn.
    + done.
    + exists ([r_receive_read_accepted (heard o w []) now; r_verified 0 true] ++ es), s, (out ++ out'). split; [| split].
      * by rewrite (receipt_run_app _ _ _ _ _ Hr), Hes.
      * repeat (apply Forall_cons; split); done.
      * rewrite Hk. cbn [on_replay replayControlIds]. by rewrite map_keys_set, Hseen, <- app_assoc.
Qed.

(** ** The bounds of the tables *)

Definition tables_ok (s : Endpoint) : Prop :=
  map_wf (replayControlIds s) /\ map_wf (emittedReceiptTargets s) /\ zlen (emittedReceiptTargets s) <= maxReplayEntries.

(** The controls accepted in an output. *)
Fixpoint accepted_controls (out : list ReceiptEffect) : Z :=
  match out with
  | [] => 0
  | (ReceiptAccepted _ | ReadAcceptedReceived _ | Handled o_effect_missing) :: out => 1 + accepted_controls out
  | _ :: out => accepted_controls out
  end.

Lemma accepted_app l k : accepted_controls (l ++ k) = accepted_controls l + accepted_controls k.
Proof. induction l as [|x l IH]; cbn [app accepted_controls]; [lia |]. repeat case_match; lia. Qed.

(** What one event keeps: the tables, and how many identifiers it adds. *)
Definition grows (s : Endpoint) (r : Endpoint * list ReceiptEffect) : Prop :=
  tables_ok (fst r) /\ zlen (replayControlIds (fst r)) <= zlen (replayControlIds s) + accepted_controls (snd r).

Lemma grows_same s s' out :
  tables_ok s -> replayControlIds s' = replayControlIds s -> emittedReceiptTargets s' = emittedReceiptTargets s ->
  0 <= accepted_controls out -> grows s (s', out).
Proof. intros Hs Hr He Ho. unfold grows, tables_ok in *. cbn [fst snd]. rewrite Hr, He. split; [done | lia]. Qed.

Lemma prune_tables now s : tables_ok s -> tables_ok (prune now s) /\ zlen (replayControlIds (prune now s)) <= zlen (replayControlIds s).
Proof.
  intros (Hr & He & Hl). unfold tables_ok. cbn [prune on_replay on_emitted replayControlIds emittedReceiptTargets].
  pose proof (map_delete_if_size (expired_at now) (emittedReceiptTargets s)).
  pose proof (map_delete_if_size (expired_at now) (replayControlIds s)).
  assert (Hw : map_wf (map_delete_if (expired_at now) (replayControlIds s))) by auto with branch.
  assert (Hb : 0 <= maxReplayEntries) by done.
  pose proof (map_trim_size maxReplayEntries _ Hb Hw). split_and!; [by apply map_trim_wf | auto with branch | lia | lia].
Qed.

Lemma drop_oldest_size m : map_wf m -> map_wf (drop_oldest m) /\ zlen (drop_oldest m) <= Z.max 0 (zlen m - 1).
Proof.
  destruct m as [|[k v] m]; intros Hm; [done |]. cbn [drop_oldest]. rewrite map_delete_head by done.
  split; [apply (drop_map_wf 1 _ Hm) |]. rewrite zlen_cons. pose proof (zlen_nonneg m). lia.
Qed.

Lemma consume_tables retry key until m :
  map_wf m -> zlen m <= maxReplayEntries ->
  map_wf (emission_targets (snd (consume_emission (mkEmission retry key until m))))
  /\ zlen (emission_targets (snd (consume_emission (mkEmission retry key until m)))) <= maxReplayEntries.
Proof.
  intros Hm Hl. unfold consume_emission. cbn [emission_retry emission_targets emission_key emission_until].
  case_match; [done |]. cbn [snd emission_targets].
  set (n := if maxReplayEntries <=? zlen m then drop_oldest m else m).
  assert (Hn : map_wf n /\ zlen n < maxReplayEntries).
  { subst n. destruct (drop_oldest_size m Hm) as [Hw Hs]. unfold maxReplayEntries in *.
    destruct (128 <=? zlen m) eqn:E; bool_props; (split; [done | lia]). }
  split; [apply map_set_wf, Hn |]. rewrite map_set_size. case_match; lia.
Qed.

Lemma prepared_emission {Body} (c : OutboundApplicationControl (Body := Body)) d ports now retry key until m :
  map_wf m -> zlen m <= maxReplayEntries ->
  map_wf (emission_targets (snd (prepareOutboundApplicationControl c d ports now (mkEmission retry key until m))))
  /\ zlen (emission_targets (snd (prepareOutboundApplicationControl c d ports now (mkEmission retry key until m)))) <= maxReplayEntries.
Proof.
  intros Hm Hl. pose proof (consume_tables retry key until m Hm Hl) as Hc. unfold prepareOutboundApplicationControl. cbv zeta.
  match goal with |- context [match ?x with Ok _ => _ | Throw _ => (Throw _, mkEmission _ _ _ _) end] => destruct x as [e|] end; [| done].
  cbn [consumeRateLimit emission_limiter]. destruct (consume_emission _) as [[] l]; exact Hc.
Qed.

Lemma sign_control_grows e o key s s0 :
  tables_ok s -> zlen (replayControlIds s) <= zlen (replayControlIds s0) -> grows s0 (sign_control e o key s).
Proof. intros Hs Hl. unfold sign_control, grows. case_match; (split; [exact Hs |]); cbn; lia. Qed.

Lemma send_receipt_grows kind retry o keys now id s : tables_ok s -> grows s (sendDeliveryReceipt kind retry o keys now id s).
Proof.
  intros Hs. pose proof (prune_tables now s Hs) as [(Hr & He & Hl) Hp]. unfold sendDeliveryReceipt. cbv zeta.
  case_match; [by apply grows_same |]. case_match; [by apply grows_same |].
  case_match; [unfold grows; cbn [fst snd accepted_controls]; split; [done | lia] |].
  pose proof (prepared_emission (outbound_control deliveryReceiptControlKind id now o (Receipt.mk kind (targetDeliveryId o)))
    deliveryReceiptControlDescriptor (outbound_ports o) now retry (emitted_key kind o) (now + deliveryReceiptControlTTLms) _ He Hl) as [Hw Hz].
  destruct (prepareOutboundApplicationControl _ _ _ _ _) as [[unsigned|message] l]; cbn [snd] in *.
  - apply sign_control_grows; [split_and!; done | exact Hp].
  - unfold grows. cbn [fst snd accepted_controls]. split; [split_and!; done | cbn [on_emitted replayControlIds]; lia].
Qed.

Lemma send_read_accepted_grows o keys now id s : tables_ok s -> grows s (sendReadAccepted o keys now id s).
Proof.
  intros Hs. unfold sendReadAccepted. case_match; [by apply grows_same |]. case_match; [by apply grows_same |].
  destruct (prepareOutboundApplicationControl _ _ _ _ _) as [[unsigned|message] l]; [by apply sign_control_grows | by apply grows_same].
Qed.

Lemma release_tables x s : tables_ok s -> tables_ok (release x s) /\ replayControlIds (release x s) = replayControlIds s.
Proof.
  intros (Hr & He & Hl). unfold release. destruct (sending_key x) as [key|]; [| done]. split; [| done].
  unfold tables_ok. cbn [on_emitted replayControlIds emittedReceiptTargets].
  pose proof (map_delete_size (emittedReceiptTargets s) key). split_and!; [done | auto with branch | lia].
Qed.

Lemma released_grows x s message : tables_ok s -> grows s (release x s, [Threw message]).
Proof. intros Hs. destruct (release_tables x s Hs) as [Ht Hr]. unfold grows. cbn [fst snd accepted_controls]. rewrite Hr. split; [done | lia]. Qed.

Lemma sends_grow x s sg outcome : tables_ok s -> grows s (send_signed x sg s) /\ grows s (control_sent x outcome s).
Proof.
  intros Hs. unfold send_signed, control_sent. split.
  - destruct sg as [sg|m]; [| by apply grows_same]. destruct (encodeApplicationControl _); [by apply grows_same | by apply released_grows].
  - destruct outcome as [[]|m]; [by apply grows_same | by apply released_grows].
Qed.

Lemma accepted_nonneg out : 0 <= accepted_controls out.
Proof. induction out as [|x out IH]; cbn [accepted_controls]; [lia |]. repeat case_match; lia. Qed.

(** What the pipeline does to the memory: one more identifier when it accepts,
    nothing otherwise. *)
Definition remembers (m : Expiries) (r : result ApplicationControlResult * Expiries) : Prop :=
  map_wf (snd r)
  /\ zlen (snd r) <= zlen m + (match fst r with Ok (control_accepted _) => 1 | _ => 0 end).

Lemma finish_remembers {Body} e (d : ApplicationControlDescriptor (Body := Body)) (m : Expiries) :
  map_wf m -> remembers m (finish_control e d m).
Proof.
  intros Hm. unfold finish_control, remembers.
  destruct (decodeBody d _) as [body|]; [| cbn [fst snd]; split; [done | lia]].
  destruct (reduce d e body) as [effects|]; [| cbn [fst snd]; split; [done | lia]].
  case_match; cbn [fst snd rememberControl replay_memory]; [split; [done | lia] |].
  split; [by apply map_set_wf |]. rewrite map_set_size. case_match; lia.
Qed.

Lemma resume_remembers {Body} e (d : ApplicationControlDescriptor (Body := Body)) verdict (m : Expiries) :
  map_wf m -> remembers m (resume_control e d (Ok verdict) m).
Proof.
  intros Hm. unfold resume_control. destruct verdict; [by apply finish_remembers |].
  unfold remembers. cbn [fst snd]. split; [done | lia].
Qed.

(** Both readings of a result count an accepted control. *)
Definition counts (answer : result ApplicationControlResult -> ReceiptEffect) : Prop :=
  forall r, accepted_controls [answer r] = match r with Ok (control_accepted _) => 1 | _ => 0 end.

Lemma results_count : counts receipt_result /\ counts read_accepted_result.
Proof. split; intros [[effects|reason]|message]; cbn; try done; destruct (first_metadata effects) as [[]|]; done. Qed.

Lemma remembered_grows s s0 answer r :
  counts answer -> remembers (replayControlIds s) r -> tables_ok s -> zlen (replayControlIds s) <= zlen (replayControlIds s0) ->
  grows s0 (on_replay (fun _ => snd r) s, [answer (fst r)]).
Proof.
  intros Hc [Hw Hl] (_ & He & Hb) Hle. unfold grows, tables_ok. cbn [fst snd]. rewrite Hc.
  cbn [on_replay replayControlIds emittedReceiptTargets]. split; [done | lia].
Qed.

Lemma process_grows {Body} registry (wait : _ -> ApplicationControlDescriptor (Body := Body) -> _) answer o now s s0 :
  counts answer -> tables_ok s -> zlen (replayControlIds s) <= zlen (replayControlIds s0) ->
  grows s0 (process_control registry wait answer o now s).
Proof.
  intros Hc Hs Hl. unfold process_control. destruct (start_control _ _ _ _ _) as [[reason|e d input|e d]|message].
  - unfold grows. cbn [fst snd]. rewrite Hc. split; [done | lia].
  - unfold grows. cbn [fst snd accepted_controls on_verifying replayControlIds]. split; [exact Hs | lia].
  - pose proof (finish_remembers e d (replayControlIds s) (proj1 Hs)) as Hf.
    pose proof (remembered_grows s s0 answer _ Hc Hf Hs Hl) as Hg. by destruct (finish_control _ _ _) as [r m].
  - unfold grows. cbn [fst snd]. rewrite Hc. split; [done | lia].
Qed.

Lemma receives_grow o now s : tables_ok s -> grows s (receiveDeliveryReceipt o now s) /\ grows s (receiveReadAccepted o now s).
Proof.
  intros Hs. destruct results_count as [Hr Ha]. pose proof (prune_tables now s Hs) as [Hp Hl].
  unfold receiveDeliveryReceipt, receiveReadAccepted. split; (destruct (decodeApplicationControl _); [| by apply grows_same]).
  - do 2 (case_match; [by apply grows_same |]). by apply process_grows.
  - do 2 (case_match; [by apply grows_same |]). by apply process_grows.
Qed.

Lemma verified_grows v verdict s : tables_ok s -> grows s (receive_verified v verdict s).
Proof.
  intros Hs. destruct results_count as [Hr Ha]. unfold receive_verified. destruct v as [e d|e d];
    pose proof (resume_remembers e d verdict (replayControlIds s) (proj1 Hs)) as Hm.
  - pose proof (remembered_grows s s receipt_result _ Hr Hm Hs ltac:(lia)) as Hg. by destruct (resume_control _ _ _ _) as [r m].
  - pose proof (remembered_grows s s read_accepted_result _ Ha Hm Hs ltac:(lia)) as Hg. by destruct (resume_control _ _ _ _) as [r m].
Qed.

Lemma receipt_step_grows e s : tables_ok s -> grows s (receipt_step e s).
Proof.
  intros Hs. destruct e; cbn [receipt_step].
  - by apply send_receipt_grows.
  - by apply send_read_accepted_grows.
  - case_match; [| by apply grows_same]. exact (proj1 (sends_grow _ (on_signing (delete i) s) _ (Ok tt) Hs)).
  - case_match; [| by apply grows_same]. exact (proj2 (sends_grow _ (on_sending (delete i) s) (Ok []) _ Hs)).
  - exact (proj1 (receives_grow o now s Hs)).
  - exact (proj2 (receives_grow o now s Hs)).
  - case_match; [| by apply grows_same]. exact (verified_grows _ verdict (on_verifying (delete i) s) Hs).
Qed.

Lemma receipt_run_grows es s : tables_ok s -> grows s (receipt_run es s).
Proof.
  revert s. induction es as [|e es IH]; intros s Hs; cbn [receipt_run]; [by apply grows_same |].
  pose proof (receipt_step_grows e s Hs) as [Ht Hl]. destruct (receipt_step e s) as [s1 out1]. cbn [fst snd] in *.
  pose proof (IH s1 Ht) as [Ht2 Hl2]. destruct (receipt_run es s1) as [s2 out2]. cbn [fst snd] in *.
  split; [done |]. cbn [fst snd]. rewrite accepted_app. lia.
Qed.

(** What [prune] does to the memory of controls. *)
Definition prune_ids (now : Z) (m : Expiries) : Expiries :=
  map_trim maxReplayEntries (map_delete_if (expired_at now) m).

Lemma prune_prunes_ids now s : replayControlIds (prune now s) = prune_ids now (replayControlIds s).
Proof. done. Qed.

Lemma prune_ids_live now (m : Expiries) :
  map_wf m -> prune_ids now m = drop (length (filter (fun c => now < c.2) m) - 128) (filter (fun c => now < c.2) m).
Proof.
  intros Hm. unfold prune_ids. rewrite map_trim_drop by first [done | by apply map_delete_if_wf].
  assert (Hf : map_delete_if (expired_at now) m = filter (fun c : jsstring * Z => now < c.2) m).
  { unfold map_delete_if. apply list_filter_iff. intros [k x]. unfold expired_at. cbn [fst snd]. lia. }
  by rewrite Hf.
Qed.

(** C26: the two tables, whatever the endpoint sends and receives and in
    whatever order signatures, sends and verifications settle.  Neither holds an
    identifier twice; at most 128 targets are held back; the memory of control
    identifiers has at most one entry per accepted control; and once pruned,
    as every receipt that is sent or received does first, it holds exactly the
    newest 128 identifiers that have not expired, in the order of their
    acceptance. *)
Theorem receipt_tables es now :
  let '(s, out) := receipt_run es new_endpoint in
  NoDup (map_keys (replayControlIds s)) /\ NoDup (map_keys (emittedReceiptTargets s))
  /\ zlen (emittedReceiptTargets s) <= maxReplayEntries
  /\ zlen (replayControlIds s) <= accepted_controls out
  /\ let live := filter (fun c => now < c.2) (replayControlIds s) in
     replayControlIds (prune now s) = drop (length live - 128) live.
Proof.
  assert (H0 : tables_ok new_endpoint) by (split_and!; [apply NoDup_nil_2 | apply NoDup_nil_2 | done]).
  pose proof (receipt_run_grows es new_endpoint H0) as [(Hr & He & Hl) Hz].
  destruct (receipt_run es new_endpoint) as [s out]. cbn [fst snd] in *. split_and!; [done | done | done | done |].
  rewrite prune_prunes_ids. by apply prune_ids_live.
Qed.

Lemma keys_of_drop n (m : Expiries) k : k ∈ map_keys (drop n m) -> k ∈ map_keys m.
Proof.
  intros ([? v] & -> & Hin)%list_elem_of_fmap. apply list_elem_of_fmap. eexists. split; [done |].
  eapply elem_of_sublist; [exact Hin | apply sublist_drop].
Qed.

(** A control is forgotten before it expires once 128 newer ones are live, and
    then passes the replay check again. *)
Lemma evicted_control_unseen id expiresAt rest now s :
  replayControlIds s = (id, expiresAt) :: rest -> map_wf (replayControlIds s) ->
  Forall (fun c => now < c.2) rest -> 128 <= zlen rest -> map_has (replayControlIds (prune now s)) id = false.
Proof.
  intros Hs Hw Hlive Hn. apply map_has_false. cbn [prune on_replay on_emitted replayControlIds].
  rewrite map_trim_drop by first [done | by apply map_delete_if_wf].
  unfold map_wf, map_keys in Hw. rewrite Hs in *. apply NoDup_cons in Hw as [Hid _]. intros Hin. apply Hid.
  assert (Hrest : filter (fun c : jsstring * Z => expired_at now c.1 c.2 = false) rest = rest).
  { clear -Hlive. induction Hlive as [|[k x] rest Hx _ IH]; [done |]. rewrite filter_cons_True, IH; [done |].
    unfold expired_at. cbn [fst snd] in *. lia. }
  unfold map_delete_if in Hin. rewrite filter_cons, Hrest in Hin. unfold maxReplayEntries, zlen in *. revert Hin.
  case_decide; intros Hin.
  - cbn [length] in Hin. destruct (S (length rest) - Z.to_nat 128)%nat as [|k] eqn:E; [lia |]. cbn [drop] in Hin.
    by apply (keys_of_drop k).
  - by apply (keys_of_drop (length rest - Z.to_nat 128)).
Qed.

(** *** How long a control is remembered *)

(** The identifier is in the memory, with an expiry of [until] or later and at
    most [newer] identifiers after it. *)
Definition remembered_until (id : jsstring) (until newer : Z) (m : Expiries) : Prop :=
  map_wf m /\ exists older y rest, m = older ++ (id, y) :: rest /\ until <= y /\ zlen rest <= newer.

Lemma remembered_has id until newer m : remembered_until id until newer m -> map_has m id = true.
Proof.
  intros (_ & older & y & rest & -> & _). apply map_has_true. unfold map_keys. rewrite fmap_app. csimpl.
  apply elem_of_app. right. by left.
Qed.

Lemma map_set_app (a b : Expiries) k v :
  map_set (a ++ b) k v = if map_has a k then map_set a k v ++ b else a ++ map_set b k v.
Proof.
  induction a as [|[k' v'] a IH]; [done |]. unfold map_has in *. cbn [app map_set map_get].
  case_decide; [done |]. rewrite IH. by case_match.
Qed.

Lemma remembered_set id until newer m k v :
  0 <= newer -> (k = id -> until <= v) -> remembered_until id until newer m ->
  remembered_until id until (newer + 1) (map_set m k v).
Proof.
  intros Hn Hv (Hw & older & y & rest & -> & Hy & Hl). split; [by apply map_set_wf |].
  rewrite map_set_app. case_match.
  - exists (map_set older k v), y, rest. split; [done | lia].
  - cbn [map_set]. case_decide as E.
    + exists older, v, rest. subst k. split; [done |]. split; [by apply Hv | lia].
    + exists older, y, (map_set rest k v). split; [done |]. split; [done |]. rewrite map_set_size. case_match; lia.
Qed.

(** A pruning before the expiry lets an identifier with fewer than 128 newer ones stay. *)
Lemma pruned_control_seen id until newer now m :
  remembered_until id until newer m -> now < until -> newer < 128 -> remembered_until id until newer (prune_ids now m).
Proof.
  intros (Hw & older & y & rest & E & Hy & Hl) Hnow Hnew.
  split; [by apply map_trim_wf; [| apply map_delete_if_wf] |]. rewrite prune_ids_live by done. subst m.
  set (live := fun c : jsstring * Z => now < c.2) in *. rewrite filter_app, filter_cons_True by (unfold live; cbn; lia).
  assert (Hr : zlen (filter live rest) <= zlen rest) by (unfold zlen; pose proof (length_filter live rest); lia).
  assert (Hd : (length (filter live older ++ (id, y) :: filter live rest) - 128 <= length (filter live older))%nat).
  { rewrite length_app. cbn [length]. unfold zlen in *. lia. }
  rewrite drop_app_le by exact Hd. eexists _, y, _. split; [done |]. split; [done | lia].
Qed.

(** A history whose owner only prunes, before [until]. *)
Definition prunes_before {Body} (until : Z) (ev : control_event (Body := Body) (S := Expiries)) : Prop :=
  match ev with ce_owner f => exists now, now < until /\ forall m, f m = prune_ids now m | _ => True end.

(** The calls under verification that hold the identifier do not expire before [until]. *)
Definition copies_until {Body} (id : jsstring) (until : Z)
    (waiting : list (ApplicationControlEnvelope * ApplicationControlDescriptor (Body := Body))) : Prop :=
  Forall (fun w => Control.controlId w.1 = id -> until <= Control.expiresAt w.1) waiting.

Lemma remembered_later id until newer newer' m :
  newer <= newer' -> remembered_until id until newer m -> remembered_until id until newer' m.
Proof. intros Hle (Hw & older & y & rest & E & Hy & Hl). split; [done |]. exists older, y, rest. split; [done | lia]. Qed.

(** One event adds a newer identifier at most. *)
Lemma remembered_step {Body} id until newer ev (st : ControlCalls (Body := Body)) :
  0 <= newer < 128 -> prunes_before until ev -> copies_until id until (calls_waiting st) ->
  remembered_until id until newer (calls_memory st) ->
  remembered_until id until (newer + 1) (calls_memory (call_step ev st).1)
  /\ copies_until id until (calls_waiting (call_step ev st).1).
Proof.
  intros Hn Hp Hc Hm. pose proof (remembered_has _ _ _ _ Hm) as Hs.
  assert (Hkeep : remembered_until id until (newer + 1) (calls_memory st)) by (eapply remembered_later; [| exact Hm]; lia).
  assert (Hend : forall (r : result ApplicationControlResult * Expiries) e,
    (Control.controlId e = id -> until <= Control.expiresAt e) ->
    (r.2 = calls_memory st /\ (forall fx, r.1 <> Ok (control_accepted fx))
     \/ exists fx, r = (Ok (control_accepted fx), rememberControl (calls_memory st) (Control.controlId e) (Control.expiresAt e))) ->
    remembered_until id until (newer + 1) r.2).
  { intros r e He [[-> _]|[fx ->]]; [done |]. cbn [snd]. apply remembered_set; [lia | exact He | exact Hm]. }
  destruct ev as [b registry ports now|i verdict|f]; cbn [call_step].
  - destruct (start_control _ _ _ _ _) as [p|] eqn:Es; [| done]. pose proof (start_control_Ok _ _ _ _ _ _ Es) as Hp'.
    assert (Hne : forall e d, control_admissible b registry ports now (calls_memory st) e d -> Control.controlId e <> id).
    { intros e d (_ & _ & _ & _ & _ & _ & _ & Hu & _) <-. cbn in Hu. congruence. }
    destruct p as [reason|e d input|e d]; [done | |]; destruct (Hp' e d) as [Hv Hr].
    + destruct (proj1 (Hv input) eq_refl) as (Ha & _). apply Hne in Ha. split; [done |].
      apply Forall_app. split; [done |]. by apply Forall_singleton.
    + destruct (Hr eq_refl) as (Ha & _). apply Hne in Ha. split; [| done].
      by apply (Hend _ e); [| apply finish_control_memory].
  - destruct (calls_waiting st !! i) as [[e d]|] eqn:Ei; [| done]. split.
    + apply (Hend _ e); [| apply resume_control_memory]. apply (Forall_lookup_1 _ _ _ _ Hc Ei).
    + by apply Forall_delete.
  - destruct Hp as (now & Hnow & Hf). cbn. rewrite Hf. split; [| done].
    eapply remembered_later; [| apply pruned_control_seen; [exact Hm | done | lia]]. lia.
Qed.

(** So the owner forgets no identifier within 128 events of its acceptance,
    as long as its copies have not expired. *)
Lemma prunes_never_forget {Body} id until newer later (st : ControlCalls (Body := Body)) :
  0 <= newer -> newer + zlen later <= 128 -> Forall (prunes_before until) later -> copies_until id until (calls_waiting st) ->
  remembered_until id until newer (calls_memory st) -> never_forgotten id later st.
Proof.
  revert newer st. induction later as [|ev later IH]; intros newer st Hn Hl Hp Hc Hm; [done |].
  apply Forall_cons in Hp as [Hp Hps]. rewrite zlen_cons in Hl. pose proof (zlen_nonneg later).
  destruct (remembered_step id until newer ev st ltac:(lia) Hp Hc Hm) as [Hm' Hc'].
  cbn [never_forgotten]. split; [| eapply (IH (newer + 1)); [lia | lia | done..]].
  destruct ev as [| |f]; [done | done |]. intros _. by eapply remembered_has.
Qed.

(** A receipt that was accepted is not accepted again: the next 128 events, calls
    that start or settle and prunings before it expires, accept no control of
    its identifier, when no copy of it was being verified. *)
Theorem receipt_not_replayed {Body} ev (st st' : ControlCalls (Body := Body) (S := Expiries)) e effects later
    (Hw : map_wf (calls_memory st))
    (Ha : call_step ev st = (st', Some (e, effects)))
    (Hnew : hasSeenControl (calls_memory st) (Control.controlId e) = false)
    (Hnone : copies (Control.controlId e) (calls_waiting st') = 0)
    (Hlen : zlen later <= 128) (Hp : Forall (prunes_before (Control.expiresAt e)) later) :
  acceptances (Control.controlId e) (call_run later st').2 = 0.
Proof.
  apply accepted_is_seen in Ha as Hs. assert (Hf : never_forgotten (Control.controlId e) later st').
  { apply (prunes_never_forget _ (Control.expiresAt e) 0); [lia | lia | done | |].
    - apply Forall_forall. intros w Hin E. exfalso. unfold copies in Hnone. rewrite zlen_zero_iff in Hnone.
      apply (not_elem_of_nil w). rewrite <- Hnone. apply list_elem_of_filter. by split.
    - apply accepted_remembers in Ha. rewrite Ha. cbn. cbn in Hnew. split; [by apply map_set_wf |].
      apply map_has_false in Hnew. rewrite map_set_fresh by done. exists (calls_memory st), (Control.expiresAt e), [].
      split; [done | by rewrite zlen_nil]. }
  pose proof (seen_run _ later _ Hs Hf). pose proof (copies_nonneg (Control.controlId e) (calls_waiting (call_run later st').1)).
  pose proof (zlen_nonneg (filter (fun a : _ * list ApplicationControlEffect => Control.controlId a.1 = Control.controlId e) (call_run later st').2)).
  unfold acceptances in *. lia.
Qed.

(** ** Concrete endpoints *)

Definition sample_send : ReceiptSendOptions :=
  mkReceiptSend (control_of 7) (peer_of 1) (peer_of 2) (js "hpke") true.

Lemma token_check n t : canonical_token t && validToken t n = true -> token_ok n t.
Proof. intros H. bool_props. by split. Qed.

Lemma sample_send_ok now id :
  canonical_token id && validToken id 16 = true -> 0 <= now <= 1000000000000 -> send_ok sample_send now id.
Proof.
  intros Hid Hn. split; [done |]. split; [apply token_check; closed |]. split; [apply token_check; closed |].
  split; [apply token_check; closed |]. split; [by apply token_check |].
  unfold deliveryReceiptControlTTLms, MAX_SAFE_INTEGER. lia.
Qed.

Lemma sample_receipt_sendable :
  send_ok sample_send 1000 (control_of 1) /\ may_emit (js "read") false sample_send 1000 new_endpoint = true.
Proof. split; [apply sample_send_ok; [closed | lia] | closed]. Qed.

Lemma receipt_applied_witness :
  exists s' input, sendDeliveryReceipt (js "read") false sample_send true 1000 (control_of 1) new_endpoint = (s', [Sign input]).
Proof.
  destruct (receipt_applied (js "read") false sample_send 1000 (control_of 1) new_endpoint
              (proj1 sample_receipt_sendable) (or_intror eq_refl) (proj2 sample_receipt_sendable)) as (_ & input & s' & H & _).
  exact (ex_intro _ s' (ex_intro _ input H)).
Defined.

(** One read-accepted control an hour: after 200 of them the memory has 200
    identifiers, of which one has not expired. *)
Definition hourly : list (Z * jsstring) :=
  (fun i => (3600000 * Z.of_nat i, encodeBase64URL (Z.of_nat i :: replicate 15 0))) <$> seq 0 200.

Lemma hourly_ok : Forall (fun c => send_ok sample_send c.1 c.2) hourly.
Proof.
  assert (H : forallb (fun c => canonical_token c.2 && validToken c.2 16 && (0 <=? c.1) && (c.1 <=? 1000000000000)) hourly = true) by closed.
  rewrite forallb_forall in H. apply Forall_forall. intros c Hc%list_elem_of_In. specialize (H c Hc). bool_props.
  apply sample_send_ok; [by apply andb_true_intro | lia].
Qed.

Lemma read_accepted_unbounded :
  exists es s out, receipt_run es new_endpoint = (s, out)
    /\ Forall (fun e => match e with r_receive_read_accepted _ _ | r_verified _ _ => True | _ => False end) es
    /\ length (replayControlIds s) = 200%nat.
Proof.
  destruct (read_accepted_kept sample_send hourly new_endpoint hourly_ok) as (es & s & out & Hr & Hf & Hk); [| done |].
  - apply (bool_decide_eq_true_1 (NoDup _)). closed.
  - exists es, s, out. split; [done |]. split; [done |]. rewrite <- (length_fmap fst (replayControlIds s)).
    unfold map_keys in Hk. rewrite Hk. reflexivity.
Qed.
